(* ===== verification/_CoqProject ===== *)
-Q . S2P
Prelude.v
Runtime.v
Strings.v
Analyzer.v
Grams.v
Heap.v
Score.v
Bitmap.v
Ngram.v
NgramRecall.v
Exact.v
NumToken.v
Payload.v
Types.v
Filter.v
JSONTokens.v
FilterParse.v
RequestFilter.v
ListConfig.v
Segment.v
ListModel.v
ListRefine.v
Stamp.v
Query.v
AnyOf.v
Prepare.v
QuerySpec.v
QueryExact.v
AnyOfSpec.v
PrepareSpec.v
Journal.v
Disk.v
Store.v
Artifact.v
ArtifactSpec.v
StoreSpec.v
StoreInv.v
StoreOps.v
StoreOpen.v
StoreHistory.v
StoreLive.v
StoreProps.v
StoreAll.v
StoreAllSpec.v
StoreAllHistory.v
StoreAllOpen.v
Lifecycle.v
LifecycleInv.v
LifecycleSpec.v
Wire.v
PreparedFormat.v
PreparedRecords.v
PreparedRecordsSpec.v
PreparedIDs.v
Frozen.v
FrozenSpec.v
FrozenSet.v
PreparedIndex.v
PreparedIndexSpec.v
PreparedFormatSpec.v
PreparedJSON.v
Prepared.v
PreparedSpec.v
PreparedVerify.v
PreparedEncode.v
PreparedSafe.v
PreparedProps.v
PreparedDemo.v
Admit.v
ServerQuery.v
ServerQuerySpec.v
Access.v
StoreDemo.v
ArtifactDemo.v
LifecycleDemo.v
ListDemo.v
QueryDemo.v
ServerDemo.v
