(* ===== verification/Prelude.v ===== *)
(** * kurn: a verification development of the lookup engine

    kurn is a lookup engine: named lists of entries, each entry with keys and an
    optional JSON payload, matched against a query either exactly or by the
    IDF-weighted coverage of character n-grams, with typed filters on the payload;
    lists are kept on disk as a base file and a journal, or shipped as immutable
    prepared artifacts; a server answers queries over several lists for tenants with
    keys and quotas.  The development models the Go code of [src/engine], and of
    [src/server] the query path, admission and access control, as executable
    definitions, and proves what makes each part correct.  Definitions carry the
    source's names; a file opens with the sources it models.

    ** The parts and how they interact

    A key or a query passes the analyzer ([Analyzer.v]; [analyzer/analyzer.go]) and is
    cut into grams ([Grams.v]; the gram functions of [ngram/ngram.go]) or used whole.
    The n-gram index ([Ngram.v], with [Heap.v] and [Score.v]; [ngram/ngram.go]) and the
    exact index ([Exact.v]; [exact/exact.go]) map them to ordinals.  A segment
    ([Segment.v]) is a block of entries with its indexes; a list ([ListConfig.v],
    [ListModel.v]; [list.go], [types.go], [journal.go]) is an immutable snapshot of a
    base segment, an overlay and tombstones, replaced as a whole by each mutation.  A
    query ([Query.v], [AnyOf.v], [Prepare.v]; [list.go], [rank.go]) walks the segments of
    one snapshot, evaluates a compiled filter ([Filter.v], [Payload.v], [NumToken.v];
    [filter.go], [typed_filter.go], [payload.go]) on the payload bytes, ranks and cuts.
    A filter expression is read from its bytes by [FilterParse.v] ([typed_filter.go])
    over encoding/json's token decoder, written out in [JSONTokens.v].
    The store keeps a list in a directory ([Journal.v], [Disk.v], [Store.v]; [store.go]),
    all lists in a data directory ([StoreAll.v]), its index caches ([Artifact.v];
    [artifact/]), and runs requests, folds and group commits concurrently
    ([Lifecycle.v]).  A prepared artifact ([Wire.v], [PreparedFormat.v],
    [PreparedRecords.v], [Frozen.v], [PreparedIndex.v], [PreparedJSON.v], [Prepared.v];
    [prepared/]) holds a whole list as one file that is checked once and then served in
    place.

    The server ([src/server]) finds a request's tenant by its key and checks what it may
    do ([Access.v]; [auth.go], [tenants.go], the gate and routes of [server.go]), reads
    the filter member of the body ([RequestFilter.v]; [filter.go]), prepares the query on
    every list named, charges the cost to the tenant's slice and the global budget
    ([Admit.v]; [admit.go]), executes and merges ([ServerQuery.v]; [server.go]).

    ** Conventions

    Bytes are [N] below 256 and a Go string is a list of them ([Prelude.v]); machine
    integers are [N] or [Z] with their wrap-around written out ([u32], [u64], [i64],
    [add64], [sub64]); Go maps are [gmap]s whose iteration order is a parameter; a
    fallible function returns a [result] whose error type has one constructor per
    message of the source, and a panic is such an error where the code can reach one.
    A method that changes a list is a state and error computation ([list_op]); one that
    touches the disk runs in [io] ([Disk.v]), where every system call may succeed, fail,
    or be the one in which the process dies.

    What is not in the repository is an interface: a type class with the documented
    behaviour as laws, instantiated by a concrete implementation in the witnesses.
    They are [GoRuntime] (map order, sort.Slice; [Runtime.v]), [TextLib] (Unicode tables
    and idna; [Analyzer.v]), [BitmapLib] (roaring; its laws are those of a structurally
    sound bitmap; [Bitmap.v]), [FloatOps] (the float operations, with an exact and an
    IEEE instance) and [FloatOrder] (their comparison orders the values that are not NaN,
    proved for both instances; [Score.v]), [DigestLib] (SHA-256 and
    the JSON of a configuration; [ListConfig.v]), [Codec] (encoding/json of records and
    entries; [Journal.v]), [ArtifactCodec] and [ArtifactLib] (the index cache; [Store.v],
    [Artifact.v]), [FrozenLib] with [FrozenLaws] (roaring's FreezeTo and FrozenView;
    [PreparedIndex.v], [PreparedIndexSpec.v]), [JSONLib] with [JSONLaws] (decoding,
    compaction, and that a decoded integer fits its field; [PreparedJSON.v]), [ShaLaws]
    (digests are 32 bytes; [PreparedVerify.v]) and [WeightedSem] (the weighted semaphore
    of golang.org/x/sync; [Admit.v]).
    Clients are proved against these classes; [set_bitmap], [exact_ops], [ascii_text],
    [set_frozen] ([PreparedDemo.v]), [line_json] ([PreparedDemo.v]) and the instances of the
    [Demo] files discharge them.

    ** What the theorems show

    - Search.  An uncancelled exact query reports exactly the live entries of the first
      level of the probe chain that has any ([QueryExact.v]); every answer of any query
      is a live entry that passes the filter ([QuerySpec.v]); cancellation ends a query
      without a partial answer; the n-gram lookup returns exactly the entries whose
      coverage reaches the threshold, in exact arithmetic - the program rounds to float32
      and can lose one that only just does ([NgramRecall.v]); the any-of
      lookup returns the smallest IDs that qualify ([AnyOfSpec.v]) within its charge
      ([PrepareSpec.v]); the filter accepts a payload exactly when each of its fields is
      reached and equals an alternative of the same type, strings by their text and
      numbers by their rational value ([Filter.v], [Payload.v], [NumToken.v]); every
      filter expression is parsed or refused, and its canonical form parses to itself
      ([FilterParse.v]).
    - Lists.  Every mutation refines the map from IDs to entries ([ListRefine.v]), an
      error changes nothing, journal replay equals the mutations, compaction keeps the
      map, and equal version stamps mean equal content ([Stamp.v]).
    - Store.  Disk and memory agree under an invariant that every operation keeps,
      whatever calls fail ([StoreInv.v], [StoreOps.v]); a history of requests that dies
      anywhere reopens with what was acknowledged ([StoreHistory.v], [StoreAllOpen.v]);
      an index served after an open was built from the base's entries or stamped with
      their base identity and analyzer ([StoreOpen.v]); damage is contained, a request
      touches the directory of its own list only and no two lists have the same one, a
      closed store is inert ([StoreAllSpec.v]); without faults mutations succeed
      ([StoreLive.v]).
    - Concurrency.  Over all interleavings: an acknowledged write is durable, each list
      has one writer and one fold, Close releases the directory, every run ends
      ([LifecycleInv.v], [LifecycleSpec.v]).
    - Index caches.  What is accepted is safe to serve as far as roaring's own reader
      returns sound bitmaps, what is written reads back ([ArtifactSpec.v]).
    - Prepared artifacts.  [NewView] accepts exactly the bytes of the abstract
      [artifact], whose metadata is stated by the text of its JSON and its ranges, not
      by the parsers ([PreparedSpec.v], [PreparedEncode.v], over an exact
      characterisation of each section: [PreparedFormatSpec.v], [PreparedRecordsSpec.v],
      [PreparedIDs.v], [PreparedIndexSpec.v], [FrozenSpec.v], [FrozenSet.v]);
      what [Encode] returns for valid text verifies and reads back ([PreparedEncode.v]);
      the base identity binds the records, unless the canonical streams of the two
      buffers collide under SHA-256 ([PreparedVerify.v]); no buffer makes the checks
      panic ([PreparedSafe.v]); the theorems are in [PreparedProps.v].
    - Server.  A request that is refused charged and ran nothing; a response holds the
      best of what its lists answer alone, each candidate a live entry that passes the
      filter ([ServerQuerySpec.v]).  Over all interleavings the charges never exceed a
      budget and every query gets to its end ([Admit.v]); only the holder of a tenant's
      key passes, and only that tenant's store is written ([Access.v]).

    ** What the theorems assume

    Beside the interfaces' laws, some properties hold of part of the states the code can
    be in, and their comments say so.  The store's recovery theorems ask that entries be
    fixed points of their JSON round trip ([stable_mutation], [stable_map],
    [stable_rec]): json.Marshal compacts and escapes a payload that is not.  A journal
    that is reopened must not start with a blank line, which the store never writes
    ([clean_head]).  The completeness and charge theorems of queries ask for the indexes
    the code builds from a segment's entries ([seg_built]), so a list with a cached or
    prebuilt index is outside them, and, where keys are attributed, for gram sizes that
    are not negative ([sizes_ok]).  Ranking asks that no score at hand be a NaN.  What [Encode] gets must be valid UTF-8 with finished indexes ([contents_ok]).

    ** Bounds and fuel

    Loops over a buffer take the number of steps the code's own bound gives them (the
    count in the header, the length of the suffix), so running out of fuel is not a case:
    the theorems state the result itself.  The recursive scanner of [Payload.v] and the
    decoder of [Runtime.v] run on the length of the suffix, the heap's sifts on its
    size, the binary search on the number of records plus one, and the lemmas that
    characterise them assume no more than the call gives.  Termination of the store's
    threads is a measure that every step decreases ([LifecycleSpec.v]).

    ** The fault and concurrency models

    A crash in [Disk.v] is the death of the process: what system calls wrote stays.  A
    power loss, which can lose what was not synced, is modelled for the journal by the
    synced prefix in [Lifecycle.v], whose files have a volatile and a stable part.
    [Lifecycle.v] interleaves atomic steps at the points where the code takes and drops
    locks, sends on channels and starts goroutines; the bodies that run under a list's
    lock are programs of such steps, and a run of them under the lock equals a
    sequential one.  A snapshot of a list is immutable, so a query needs no step.

    ** What is not modelled

    Third-party and generated code is an interface, as above.  Metrics, logging, rate
    limits and the HTTP transport (the decode of a body into its fields, the encoding of a
    response) have no behaviour a theorem here depends on; the mutation handlers with
    their quotas and streams are not modelled.  The command line tools, the ingestion readers (NDJSON, CSV and XML), the benchmarks and the examples are
    drivers around the engine.  Publication of artifacts and the mapping of files into
    memory ([publish.go], [mapped.go]) are system calls around the bytes that
    [Prepared.v] models.  Time enters only where a deadline may end a wait: a query's
    context is the list of the polls at which it is cancelled. *)

From stdpp Require Export base tactics orders option list sorting numbers gmap sets strings.
From Stdlib Require Export ZifyBool.

#[global] Set Default Goal Selector "!".

(** ** Bytes and Go strings

    A Go string (and a []byte used as a value) is a sequence of bytes.  A byte
    is an [N]; well-formed program data keeps every element below 256, and the
    lemmas that depend on it say so. *)

Abbreviation byte := N (only parsing).
Abbreviation bytes := (list N).

Definition str (s : string) : bytes := Ascii.N_of_ascii <$> String.list_ascii_of_string s.

Declare Scope go_scope.
Delimit Scope go_scope with go.
Notation "$ s" := (str s%string) (at level 1, format "$ s") : go_scope.
#[global] Open Scope go_scope.

(** The character constants the scanners compare with. *)
Abbreviation c_tab := 9%N.
Abbreviation c_nl := 10%N.
Abbreviation c_cr := 13%N.
Abbreviation c_space := 32%N.
Abbreviation c_dquote := 34%N.
Abbreviation c_plus := 43%N.
Abbreviation c_comma := 44%N.
Abbreviation c_minus := 45%N.
Abbreviation c_dot := 46%N.
Abbreviation c_slash := 47%N.
Abbreviation c_zero := 48%N.
Abbreviation c_one := 49%N.
Abbreviation c_nine := 57%N.
Abbreviation c_colon := 58%N.
Abbreviation c_upE := 69%N.
Abbreviation c_lbrack := 91%N.
Abbreviation c_backslash := 92%N.
Abbreviation c_rbrack := 93%N.
Abbreviation c_lowA := 97%N.
Abbreviation c_lowB := 98%N.
Abbreviation c_lowE := 101%N.
Abbreviation c_lowF := 102%N.
Abbreviation c_lowN := 110%N.
Abbreviation c_lowR := 114%N.
Abbreviation c_lowT := 116%N.
Abbreviation c_lowU := 117%N.
Abbreviation c_lbrace := 123%N.
Abbreviation c_rbrace := 125%N.

(** ** Lexicographic order on byte strings: [strings.Compare], [<] and
    [<=] on Go strings. *)

Fixpoint bytes_compare (a b : bytes) : comparison :=
  match a, b with
  | [], [] => Eq
  | [], _ :: _ => Lt
  | _ :: _, [] => Gt
  | x :: a', y :: b' =>
      match (x ?= y)%N with Eq => bytes_compare a' b' | c => c end
  end.

Definition bytes_le (a b : bytes) : Prop := bytes_compare a b ≠ Gt.
Definition bytes_lt (a b : bytes) : Prop := bytes_compare a b = Lt.

#[export] Instance bytes_le_dec : RelDecision bytes_le.
Proof. intros a b. unfold bytes_le. apply _. Defined.
#[export] Instance bytes_lt_dec : RelDecision bytes_lt.
Proof. intros a b. unfold bytes_lt. apply _. Defined.

Lemma bytes_compare_refl a : bytes_compare a a = Eq.
Proof. induction a as [|x a IH]; simpl; [done|]. by rewrite N.compare_refl. Qed.

Lemma bytes_compare_eq a b : bytes_compare a b = Eq ↔ a = b.
Proof.
  split; [|intros ->; apply bytes_compare_refl].
  revert b. induction a as [|x a IH]; intros [|y b]; simpl; try done.
  destruct (N.compare_spec x y) as [->| |]; try done. intros H. by f_equal; apply IH.
Qed.

Lemma bytes_compare_antisym a b : bytes_compare b a = CompOpp (bytes_compare a b).
Proof.
  revert b. induction a as [|x a IH]; intros [|y b]; simpl; try done.
  rewrite (N.compare_antisym x y). destruct (x ?= y)%N; simpl; [apply IH|done..].
Qed.

Lemma bytes_compare_lt_trans a b c :
  bytes_compare a b = Lt → bytes_compare b c = Lt → bytes_compare a c = Lt.
Proof.
  revert b c. induction a as [|x a IH]; intros [|y b] [|z c]; simpl; try done.
  destruct (N.compare_spec x y), (N.compare_spec y z), (N.compare_spec x z);
    subst; try lia; try done. apply IH.
Qed.

#[export] Instance bytes_lt_irrefl : Irreflexive bytes_lt.
Proof. intros a. unfold complement, bytes_lt. by rewrite bytes_compare_refl. Qed.
#[export] Instance bytes_lt_trans : Transitive bytes_lt.
Proof. intros a b c. apply bytes_compare_lt_trans. Qed.

Lemma bytes_le_lteq a b : bytes_le a b ↔ bytes_lt a b ∨ a = b.
Proof.
  unfold bytes_le, bytes_lt. rewrite <-bytes_compare_eq.
  destruct (bytes_compare a b); split; intuition congruence.
Qed.

Lemma bytes_nle_lt a b : ¬ bytes_le a b ↔ bytes_lt b a.
Proof.
  unfold bytes_le, bytes_lt. rewrite (bytes_compare_antisym a b).
  destruct (bytes_compare a b); simpl; naive_solver.
Qed.

Lemma bytes_nlt_le a b : ¬ bytes_lt a b ↔ bytes_le b a.
Proof.
  unfold bytes_le, bytes_lt. rewrite (bytes_compare_antisym a b).
  destruct (bytes_compare a b); simpl; naive_solver.
Qed.

#[export] Instance bytes_le_refl : Reflexive bytes_le.
Proof. intros a. apply bytes_le_lteq. by right. Qed.
#[export] Instance bytes_le_trans : Transitive bytes_le.
Proof.
  intros a b c. rewrite !bytes_le_lteq. intros [?| ->] [?| ->]; auto.
  left. by etrans.
Qed.
#[export] Instance bytes_le_antisymm : AntiSymm (=) bytes_le.
Proof.
  intros a b. rewrite !bytes_le_lteq. intros [H1|?] [H2|?]; try done.
  destruct (irreflexivity bytes_lt a). by etrans.
Qed.
#[export] Instance bytes_le_total : Total bytes_le.
Proof.
  intros a b. destruct (decide (bytes_le a b)) as [|H%bytes_nle_lt]; [by left|right].
  apply bytes_le_lteq. by left.
Qed.

Lemma bytes_lt_le a b : bytes_lt a b → bytes_le a b.
Proof. rewrite bytes_le_lteq. auto. Qed.
Lemma bytes_lt_le_trans a b c : bytes_lt a b → bytes_le b c → bytes_lt a c.
Proof. rewrite bytes_le_lteq. intros ? [?| ->]; [by etrans|done]. Qed.
Lemma bytes_le_lt_trans a b c : bytes_le a b → bytes_lt b c → bytes_lt a c.
Proof. rewrite bytes_le_lteq. intros [?| ->] ?; [by etrans|done]. Qed.
Lemma bytes_lt_total a b : bytes_lt a b ∨ a = b ∨ bytes_lt b a.
Proof.
  destruct (decide (bytes_lt a b)) as [|H%bytes_nlt_le%bytes_le_lteq]; [auto|].
  destruct H as [| ->]; auto.
Qed.

(** ** Results: a Go [(T, error)] pair *)

Inductive result (E A : Type) : Type :=
  | Ok (a : A)
  | Err (e : E).
Arguments Ok {E A} a.
Arguments Err {E A} e.

#[export] Instance result_ret E : MRet (result E) := λ A a, Ok a.
#[export] Instance result_bind E : MBind (result E) := λ A B f m,
  match m with Ok a => f a | Err e => Err e end.
#[export] Instance result_fmap E : FMap (result E) := λ A B f m,
  match m with Ok a => Ok (f a) | Err e => Err e end.

Definition is_ok {E A} (r : result E A) : bool := match r with Ok _ => true | Err _ => false end.

(** [if cond { return err }] *)
Definition fail_if {E} (c : bool) (e : E) : result E () := if c then Err e else Ok ().

Lemma bind_ok {E A B} (m : result E A) (f : A → result E B) b :
  m ≫= f = Ok b ↔ ∃ a, m = Ok a ∧ f a = Ok b.
Proof. destruct m; simpl; split; naive_solver. Qed.
Lemma fail_if_ok {E} c (e : E) u : fail_if c e = Ok u ↔ c = false.
Proof. destruct c, u; simpl; split; congruence. Qed.

(** ** Machine integers *)

Definition u8 (n : N) : N := (n mod 2 ^ 8)%N.
Definition u32 (n : N) : N := (n mod 2 ^ 32)%N.
Definition u64 (n : N) : N := (n mod 2 ^ 64)%N.
Definition max_u32 : N := (2 ^ 32 - 1)%N.

(** Two's-complement [int64] (and Go's 64-bit [int]). *)
Definition i64 (z : Z) : Z := ((z + 2 ^ 63) mod 2 ^ 64 - 2 ^ 63)%Z.

Lemma i64_small z : (- 2 ^ 63 <= z < 2 ^ 63)%Z → i64 z = z.
Proof. intros H. unfold i64. rewrite Z.mod_small; lia. Qed.
Lemma i64_range z : (- 2 ^ 63 <= i64 z < 2 ^ 63)%Z.
Proof. unfold i64. pose proof (Z.mod_pos_bound (z + 2 ^ 63) (2 ^ 64) eq_refl). lia. Qed.

Lemma u32_small n : (n < 2 ^ 32)%N → u32 n = n.
Proof. apply N.mod_small. Qed.
Lemma u64_small n : (n < 2 ^ 64)%N → u64 n = n.
Proof. apply N.mod_small. Qed.
Lemma u32_lt n : (u32 n < 2 ^ 32)%N.
Proof. by apply N.mod_lt. Qed.

(** ** Induction on the length of a list *)

Lemma list_len_ind {A} (P : list A → Prop) :
  (∀ l, (∀ l', length l' < length l → P l') → P l) → ∀ l, P l.
Proof.
  intros H l. remember (length l) as n eqn:Hn. revert l Hn.
  induction (lt_wf n) as [n _ IH]. intros l ->. apply H. intros l' Hl. by eapply IH.
Qed.

Lemma nodup_fst_inj {A B} (l : list (A * B)) k v w : NoDup l.*1 → (k, v) ∈ l → (k, w) ∈ l → v = w.
Proof.
  intros Hnd [i Hi]%list_elem_of_lookup [j Hj]%list_elem_of_lookup.
  assert (i = j) as ->; [|congruence].
  eapply NoDup_lookup; [exact Hnd| |]; rewrite list_lookup_fmap, ?Hi, ?Hj; done.
Qed.

Lemma strongly_sorted_mono {A} (R R' : A → A → Prop) l :
  (∀ x y, R x y → R' x y) → StronglySorted R l → StronglySorted R' l.
Proof.
  intros Himp. induction 1 as [|x l Hl IH Hx]; constructor; [done|].
  eapply Forall_impl; [exact Hx|]. auto.
Qed.

(** ** Automation *)

(** [lia] with division and remainder by constants. *)
Ltac zlia := zify; Z.to_euclidean_division_equations; lia.

(** Split every [if decide _]/[if b] and [match] of the goal, keeping the
    equations. *)
Ltac case_all :=
  repeat (case_match || case_decide || case_bool_decide); simplify_eq/=.

Create HintDb kurn.
#[export] Hint Resolve bytes_lt_le : kurn.
