(* ===== verification/Runtime.v ===== *)
(** The parts of the Go language and standard library that the engine relies
    on: map iteration order and [sort.Slice] (both left unspecified by Go, so
    they are an interface), stable sorting, UTF-8 decoding, and the functions of
    package [strings] the sources call. *)

From S2P Require Import Prelude.

(** ** Unspecified orders

    [range] over a Go map visits the entries in an unspecified order, and
    [sort.Slice] is not stable.  A [GoRuntime] fixes one choice; every theorem
    quantifies over it. *)

Definition strict_weak {A} (less : A → A → bool) : Prop :=
  (∀ a, less a a = false) ∧
  (∀ a b c, less a b → less b c → less a c) ∧
  (∀ a b c, less b a = false → less c b = false → less c a = false).

(** The same on the elements to be sorted, which is all [sort.Slice] asks for. *)
Definition strict_weak_on {A} (P : A → Prop) (less : A → A → bool) : Prop :=
  (∀ a, P a → less a a = false) ∧
  (∀ a b c, P a → P b → P c → less a b → less b c → less a c) ∧
  (∀ a b c, P a → P b → P c → less b a = false → less c b = false → less c a = false).
Lemma strict_weak_all {A} (P : A → Prop) less : strict_weak less → strict_weak_on P less.
Proof. intros (H1 & H2 & H3). split_and!; eauto. Qed.
Lemma strict_weak_sub {A} (P Q : A → Prop) less : strict_weak_on Q less → (∀ x, P x → Q x) → strict_weak_on P less.
Proof. intros (H1 & H2 & H3) HPQ. split_and!; intros *; intros; eauto. Qed.

Class GoRuntime := {
  range_map : ∀ {V}, nat → gmap bytes V → list (bytes * V);
  range_map_perm : ∀ V loop (m : gmap bytes V), range_map loop m ≡ₚ map_to_list m;
  sort_slice : ∀ {A}, (A → A → bool) → list A → list A;
  sort_slice_perm : ∀ A (less : A → A → bool) l, sort_slice less l ≡ₚ l;
  sort_slice_sorted_on : ∀ A (less : A → A → bool) l,
    strict_weak_on (λ x, x ∈ l) less → StronglySorted (λ a b, less b a = false) (sort_slice less l);
}.
Lemma sort_slice_sorted `{GoRuntime} A (less : A → A → bool) l :
  strict_weak less → StronglySorted (λ a b, less b a = false) (sort_slice less l).
Proof. intros Hw. by apply sort_slice_sorted_on, strict_weak_all. Qed.

(** [sort.Stable]: insertion keeps equal elements in their original order. *)
Fixpoint insert_stable {A} (less : A → A → bool) (x : A) (l : list A) : list A :=
  match l with
  | [] => [x]
  | y :: l' => if less y x then y :: insert_stable less x l' else x :: l
  end.
Definition sort_stable {A} (less : A → A → bool) (l : list A) : list A :=
  foldr (insert_stable less) [] l.

Lemma insert_stable_perm {A} (less : A → A → bool) x l : insert_stable less x l ≡ₚ x :: l.
Proof.
  induction l as [|y l IH]; simpl; [done|]. destruct (less y x); [|done].
  rewrite IH. apply Permutation_swap.
Qed.

Lemma sort_stable_perm {A} (less : A → A → bool) l : sort_stable less l ≡ₚ l.
Proof. induction l as [|x l IH]; simpl; [done|]. by rewrite insert_stable_perm, IH. Qed.

Lemma insert_stable_sorted {A} (less : A → A → bool) x l :
  strict_weak_on (λ y, y ∈ x :: l) less →
  StronglySorted (λ a b, less b a = false) l →
  StronglySorted (λ a b, less b a = false) (insert_stable less x l).
Proof.
  induction l as [|y l IH]; simpl; intros Hw Hs.
  { repeat constructor. }
  pose proof Hw as (Hirr & Htr & Hntr).
  assert (x ∈ x :: y :: l ∧ y ∈ x :: y :: l) as [Hxi Hyi] by (split; [by left|right; by left]).
  apply StronglySorted_inv in Hs as [Hs Hy]. destruct (less y x) eqn:Hyx.
  - constructor; [apply IH; [|done]; eapply strict_weak_sub; [exact Hw|]; intros z Hz; apply elem_of_cons in Hz as [->|Hz]; [by left|right; by right]|].
    rewrite insert_stable_perm. constructor; [|done].
    destruct (less x y) eqn:Hxy; [|done].
    assert (less y y) as Hyy by (apply (Htr y x y); [done..|by rewrite Hyx|by rewrite Hxy]).
    by rewrite (Hirr y) in Hyy.
  - constructor; [by constructor|]. constructor; [done|].
    apply Forall_forall. intros z Hz. rewrite Forall_forall in Hy. apply (Hntr x y z); [done|done|right; by right|done|by apply Hy].
Qed.

Lemma sort_stable_sorted_on {A} (less : A → A → bool) l :
  strict_weak_on (λ x, x ∈ l) less → StronglySorted (λ a b, less b a = false) (sort_stable less l).
Proof.
  induction l as [|x l IH]; simpl; intros Hw; [constructor|]. apply insert_stable_sorted.
  - eapply strict_weak_sub; [exact Hw|]. intros z. by rewrite sort_stable_perm.
  - apply IH. eapply strict_weak_sub; [exact Hw|]. intros z Hz. by right.
Qed.
Lemma sort_stable_sorted {A} (less : A → A → bool) l :
  strict_weak less → StronglySorted (λ a b, less b a = false) (sort_stable less l).
Proof. intros Hw. by apply sort_stable_sorted_on, strict_weak_all. Qed.

(** A concrete runtime: maps iterate in [map_to_list] order, sorting is the
    stable sort.  Witnesses compute with it. *)
Definition default_runtime : GoRuntime := {|
  range_map := λ V loop m, map_to_list m;
  range_map_perm := λ V loop m, Permutation_refl _;
  sort_slice := λ A less l, sort_stable less l;
  sort_slice_perm := λ A less l, sort_stable_perm less l;
  sort_slice_sorted_on := λ A less l H, sort_stable_sorted_on less l H;
|}.

(** [less] by a byte-string key. *)
Definition less_by {A} (key : A → bytes) (a b : A) : bool := bool_decide (bytes_lt (key a) (key b)).

Lemma less_by_weak {A} (key : A → bytes) : strict_weak (less_by key).
Proof.
  unfold less_by. split_and!.
  - intros a. apply bool_decide_eq_false. apply irreflexivity, _.
  - intros a b c. rewrite !bool_decide_spec. by etrans.
  - intros a b c. rewrite !bool_decide_eq_false, !bytes_nlt_le. intros. by etrans.
Qed.

Lemma less_by_false {A} (key : A → bytes) a b :
  less_by key b a = false ↔ bytes_le (key a) (key b).
Proof. unfold less_by. by rewrite bool_decide_eq_false, bytes_nlt_le. Qed.

(** Sorted permutations without repeated keys are equal, whatever the sorting
    algorithm. *)
Lemma sorted_by_key_unique {A} (key : A → bytes) l1 l2 :
  StronglySorted (λ a b, less_by key b a = false) l1 →
  StronglySorted (λ a b, less_by key b a = false) l2 →
  NoDup (key <$> l1) → l1 ≡ₚ l2 → l1 = l2.
Proof.
  intros H1 H2 Hnd Hp. eapply StronglySorted_unique_strong; [|exact H1|exact H2|done].
  intros x y Hx Hy Hxy Hyx. apply less_by_false in Hxy, Hyx.
  assert (key x = key y) as Hk by (by apply (anti_symm bytes_le)).
  rewrite <-Hp in Hy. apply list_elem_of_lookup in Hx as [i Hi], Hy as [j Hj].
  assert (i = j) as ->.
  { eapply NoDup_lookup; [exact Hnd| |]; rewrite list_lookup_fmap, ?Hi, ?Hj; simpl; by rewrite ?Hk. }
  by simplify_eq.
Qed.

Section runtime.
Context `{GoRuntime}.

Lemma elem_of_range {V} (loop : nat) (m : gmap bytes V) k v : (k, v) ∈ range_map loop m ↔ m !! k = Some v.
Proof. by rewrite range_map_perm, elem_of_map_to_list. Qed.

Lemma range_nodup {V} (loop : nat) (m : gmap bytes V) : NoDup (range_map loop m).*1.
Proof. rewrite range_map_perm. apply NoDup_fst_map_to_list. Qed.

Lemma sort_slice_by_sorted {A} (key : A → bytes) l :
  StronglySorted (λ a b, bytes_le (key a) (key b)) (sort_slice (less_by key) l).
Proof.
  eapply strongly_sorted_mono, sort_slice_sorted, less_by_weak.
  intros a b. by rewrite less_by_false.
Qed.

Lemma sort_slice_by_stable {A} (key : A → bytes) l :
  NoDup (key <$> l) → sort_slice (less_by key) l = sort_stable (less_by key) l.
Proof.
  intros Hnd. apply (sorted_by_key_unique key).
  - apply sort_slice_sorted, less_by_weak.
  - apply sort_stable_sorted, less_by_weak.
  - by rewrite sort_slice_perm.
  - by rewrite sort_slice_perm, sort_stable_perm.
Qed.
End runtime.

(** ** UTF-8

    [decode] splits a string the way Go's [range] and [utf8.DecodeRune] do: a
    valid sequence yields its code point, an invalid byte yields U+FFFD and is
    consumed alone.  Each rune comes with the bytes it was decoded from. *)

Definition rune_error : N := 65533%N.
Definition cont (b : N) : bool := (128 <=? b)%N && (b <=? 191)%N.
Definition in_range (lo hi b : N) : bool := (lo <=? b)%N && (b <=? hi)%N.

Definition seq2 (b0 b1 : N) : bool := in_range 194 223 b0 && cont b1.
Definition seq3 (b0 b1 b2 : N) : bool :=
  ( ((b0 =? 224)%N && in_range 160 191 b1)
  || ((in_range 225 236 b0 || in_range 238 239 b0) && cont b1)
  || ((b0 =? 237)%N && in_range 128 159 b1)) && cont b2.
Definition seq4 (b0 b1 b2 b3 : N) : bool :=
  ( ((b0 =? 240)%N && in_range 144 191 b1)
  || (in_range 241 243 b0 && cont b1)
  || ((b0 =? 244)%N && in_range 128 143 b1)) && cont b2 && cont b3.

Definition rune2 (b0 b1 : N) : N := (b0 mod 32 * 64 + b1 mod 64)%N.
Definition rune3 (b0 b1 b2 : N) : N := (b0 mod 16 * 4096 + b1 mod 64 * 64 + b2 mod 64)%N.
Definition rune4 (b0 b1 b2 b3 : N) : N :=
  (b0 mod 8 * 262144 + b1 mod 64 * 4096 + b2 mod 64 * 64 + b3 mod 64)%N.

Fixpoint decode (s : bytes) : list (N * bytes) :=
  match s with
  | [] => []
  | b0 :: t0 =>
      if (b0 <? 128)%N then (b0, [b0]) :: decode t0 else
      match t0 with
      | b1 :: t1 =>
          if seq2 b0 b1 then (rune2 b0 b1, [b0; b1]) :: decode t1 else
          match t1 with
          | b2 :: t2 =>
              if seq3 b0 b1 b2 then (rune3 b0 b1 b2, [b0; b1; b2]) :: decode t2 else
              match t2 with
              | b3 :: t3 =>
                  if seq4 b0 b1 b2 b3 then (rune4 b0 b1 b2 b3, [b0; b1; b2; b3]) :: decode t3
                  else (rune_error, [b0]) :: decode t0
              | [] => (rune_error, [b0]) :: decode t0
              end
          | [] => (rune_error, [b0]) :: decode t0
          end
      | [] => [(rune_error, [b0])]
      end
  end.

(** [[]rune(s)] and [utf8.RuneCountInString]. *)
Definition runes (s : bytes) : list N := (decode s).*1.
Definition rune_count (s : bytes) : nat := length (decode s).

(** [string(r)] of a rune. *)
Definition encode_rune (r : N) : bytes :=
  let r := if (1114111 <? r)%N || in_range 55296 57343 r then rune_error else r in
  if (r <? 128)%N then [r]
  else if (r <? 2048)%N then [192 + r / 64; 128 + r mod 64]%N
  else if (r <? 65536)%N then [224 + r / 4096; 128 + r / 64 mod 64; 128 + r mod 64]%N
  else [240 + r / 262144; 128 + r / 4096 mod 64; 128 + r / 64 mod 64; 128 + r mod 64]%N.

(** [string(rs)] of a rune slice. *)
Definition string_of_runes (rs : list N) : bytes := rs ≫= encode_rune.

(** [utf8.Valid]: no byte decodes to the error rune with width one. *)
Definition valid_chunk (rc : N * bytes) : bool :=
  negb ((rc.1 =? rune_error)%N && (length rc.2 =? 1)%nat).
Definition utf8_valid (s : bytes) : bool := forallb valid_chunk (decode s).

Ltac utf8_unfold := unfold seq2, seq3, seq4, cont, in_range in *.
(** Decide the range tests of [encode_rune] in order. *)
Ltac utf8_encode :=
  unfold encode_rune, in_range, rune_error;
  repeat (case_match; try lia); repeat f_equal; zlia.

Lemma encode_rune2 b0 b1 : seq2 b0 b1 → encode_rune (rune2 b0 b1) = [b0; b1].
Proof.
  intros Hs%Is_true_true. utf8_unfold.
  assert (∃ x y, b0 = 192 + x ∧ b1 = 128 + y ∧ 2 ≤ x < 32 ∧ y < 64)%N as (x & y & -> & -> & ? & ?).
  { exists (b0 - 192)%N, (b1 - 128)%N. lia. }
  unfold rune2. replace ((192 + x) mod 32)%N with x by zlia. replace ((128 + y) mod 64)%N with y by zlia.
  utf8_encode.
Qed.

Lemma encode_rune3 b0 b1 b2 : seq3 b0 b1 b2 → encode_rune (rune3 b0 b1 b2) = [b0; b1; b2].
Proof.
  intros Hs%Is_true_true. utf8_unfold.
  assert (∃ x y z, b0 = 224 + x ∧ b1 = 128 + y ∧ b2 = 128 + z ∧ x < 16 ∧ y < 64 ∧ z < 64 ∧
    (x = 0 → 32 ≤ y) ∧ (x = 13 → y < 32))%N as (x & y & z & -> & -> & -> & ? & ? & ? & ? & ?).
  { exists (b0 - 224)%N, (b1 - 128)%N, (b2 - 128)%N. lia. }
  unfold rune3. replace ((224 + x) mod 16)%N with x by zlia.
  replace ((128 + y) mod 64)%N with y by zlia. replace ((128 + z) mod 64)%N with z by zlia.
  utf8_encode.
Qed.

Lemma encode_rune4 b0 b1 b2 b3 :
  seq4 b0 b1 b2 b3 → encode_rune (rune4 b0 b1 b2 b3) = [b0; b1; b2; b3].
Proof.
  intros Hs%Is_true_true. utf8_unfold.
  assert (∃ x y z w, b0 = 240 + x ∧ b1 = 128 + y ∧ b2 = 128 + z ∧ b3 = 128 + w ∧
    x < 5 ∧ y < 64 ∧ z < 64 ∧ w < 64 ∧ (x = 0 → 16 ≤ y) ∧ (x = 4 → y < 16))%N
    as (x & y & z & w & -> & -> & -> & -> & ? & ? & ? & ? & ? & ?).
  { exists (b0 - 240)%N, (b1 - 128)%N, (b2 - 128)%N, (b3 - 128)%N. lia. }
  unfold rune4. replace ((240 + x) mod 8)%N with x by zlia.
  replace ((128 + y) mod 64)%N with y by zlia. replace ((128 + z) mod 64)%N with z by zlia.
  replace ((128 + w) mod 64)%N with w by zlia.
  utf8_encode.
Qed.

Lemma encode_rune1 b : (b < 128)%N → encode_rune b = [b].
Proof. intros ?. utf8_encode. Qed.

(** One step of [decode]: a non-empty chunk is consumed, and a valid chunk is
    the encoding of its rune. *)
Lemma decode_step b0 t0 : ∃ r c t,
  decode (b0 :: t0) = (r, c) :: decode t ∧ b0 :: t0 = c ++ t ∧ c ≠ [] ∧
  (valid_chunk (r, c) → encode_rune r = c).
Proof.
  assert (¬ valid_chunk (rune_error, [b0])) as Hinv by (unfold valid_chunk; simpl; tauto).
  simpl. destruct (b0 <? 128)%N eqn:E0.
  { exists b0, [b0], t0. split_and!; try done. intros _. apply encode_rune1. lia. }
  destruct t0 as [|b1 t1]; [by exists rune_error, [b0], []|].
  destruct (seq2 b0 b1) eqn:E1.
  { eexists _, [b0; b1], t1. split_and!; try done. intros _. apply encode_rune2. by rewrite E1. }
  destruct t1 as [|b2 t2]; [by exists rune_error, [b0], [b1]|].
  destruct (seq3 b0 b1 b2) eqn:E2.
  { eexists _, [b0; b1; b2], t2. split_and!; try done. intros _. apply encode_rune3. by rewrite E2. }
  destruct t2 as [|b3 t3]; [by exists rune_error, [b0], [b1; b2]|].
  destruct (seq4 b0 b1 b2 b3) eqn:E3.
  { eexists _, [b0; b1; b2; b3], t3. split_and!; try done. intros _. apply encode_rune4. by rewrite E3. }
  by exists rune_error, [b0], (b1 :: b2 :: b3 :: t3).
Qed.

Lemma decode_concat s : concat (decode s).*2 = s.
Proof.
  induction s as [[|b0 t0] IH] using list_len_ind; [done|].
  destruct (decode_step b0 t0) as (r & c & t & Hd & Hs & Hc & _). rewrite Hd, Hs. simpl.
  rewrite IH; [done|]. rewrite Hs, length_app. destruct c; [done|simpl; lia].
Qed.

Lemma decode_nonempty s : Forall (λ rc, rc.2 ≠ []) (decode s).
Proof.
  induction s as [[|b0 t0] IH] using list_len_ind; [done|].
  destruct (decode_step b0 t0) as (r & c & t & Hd & Hs & Hc & _). rewrite Hd.
  constructor; [done|]. apply IH. rewrite Hs, length_app. destruct c; [done|simpl; lia].
Qed.

(** Every chunk of a valid string is the encoding of its rune. *)
Lemma decode_valid s : utf8_valid s → Forall (λ rc, encode_rune rc.1 = rc.2) (decode s).
Proof.
  unfold utf8_valid. induction s as [[|b0 t0] IH] using list_len_ind; [done|].
  destruct (decode_step b0 t0) as (r & c & t & Hd & Hs & Hc & He). rewrite Hd. simpl.
  intros [Hv Ht]%andb_True. constructor; [by apply He|]. apply IH; [|done].
  rewrite Hs, length_app. destruct c; [done|simpl; lia].
Qed.

Lemma string_of_runes_decode s : utf8_valid s → string_of_runes (runes s) = s.
Proof.
  intros Hv%decode_valid. rewrite <-(decode_concat s) at 2. unfold string_of_runes, runes.
  induction Hv as [|rc l Hrc Hl IH]; [done|]. csimpl. rewrite Hrc. f_equal. exact IH.
Qed.

Lemma decode_ascii s : Forall (λ b, (b < 128)%N) s → decode s = (λ b, (b, [b])) <$> s.
Proof.
  induction s as [|b s IH]; intros Hs; [done|]. apply Forall_cons in Hs as [Hb Hs]. simpl.
  destruct (b <? 128)%N eqn:E; [by rewrite IH|lia].
Qed.

#[global] Arguments decode : simpl never.
