(* ===== verification/Strings.v ===== *)
(** Package [strings] and [unicode.IsSpace], as far as the sources use them:
    Fields, Join, Trim with a one-byte cutset, TrimSpace, Split and Cut at a
    one-byte separator, ReplaceAll of one byte by nothing. *)

From S2P Require Import Prelude.
From S2P Require Import Runtime.

(** [unicode.IsSpace]. *)
Definition is_space (r : N) : bool :=
  in_range 9 13 r || (r =? 32)%N || (r =? 133)%N || (r =? 160)%N || (r =? 5760)%N ||
  in_range 8192 8202 r || in_range 8232 8233 r || (r =? 8239)%N || (r =? 8287)%N || (r =? 12288)%N.

(** [strings.Fields] works on decoded runes; a field keeps its source bytes. *)
Fixpoint field_groups (l : list (N * bytes)) (cur : list (N * bytes)) : list (list (N * bytes)) :=
  match l with
  | [] => match cur with [] => [] | _ => [cur] end
  | rc :: l' =>
      if is_space rc.1
      then match cur with [] => field_groups l' [] | _ => cur :: field_groups l' [] end
      else field_groups l' (cur ++ [rc])
  end.
Definition chunk_bytes (g : list (N * bytes)) : bytes := concat g.*2.
Definition fields (s : bytes) : list bytes := chunk_bytes <$> field_groups (decode s) [].

(** [strings.Join] *)
Fixpoint join (sep : bytes) (l : list bytes) : bytes :=
  match l with
  | [] => []
  | [x] => x
  | x :: l' => x ++ sep ++ join sep l'
  end.

(** [strings.Trim(s, c)] for a one-byte ASCII cutset. *)
Fixpoint trim_left_byte (c : N) (s : bytes) : bytes :=
  match s with
  | [] => []
  | b :: s' => if (b =? c)%N then trim_left_byte c s' else s
  end.
Definition trim_byte (c : N) (s : bytes) : bytes :=
  reverse (trim_left_byte c (reverse (trim_left_byte c s))).

(** [strings.TrimSpace] *)
Fixpoint drop_space (l : list (N * bytes)) : list (N * bytes) :=
  match l with
  | [] => []
  | rc :: l' => if is_space rc.1 then drop_space l' else l
  end.
Definition trim_space (s : bytes) : bytes :=
  chunk_bytes (reverse (drop_space (reverse (drop_space (decode s))))).

(** [strings.Split(s, sep)] for a one-byte separator: never empty. *)
Fixpoint split_byte (sep : N) (s : bytes) : list bytes :=
  match s with
  | [] => [[]]
  | b :: s' =>
      if (b =? sep)%N then [] :: split_byte sep s'
      else match split_byte sep s' with
           | [] => [[b]]
           | x :: l => (b :: x) :: l
           end
  end.

(** [strings.IndexByte]: [None] is -1. *)
Fixpoint index_byte (c : N) (s : bytes) : option nat :=
  match s with
  | [] => None
  | b :: s' => if (b =? c)%N then Some 0 else S <$> index_byte c s'
  end.

(** [strings.Cut(s, sep)] for a one-byte separator. *)
Definition cut_byte (sep : N) (s : bytes) : bytes * bytes * bool :=
  match index_byte sep s with
  | Some i => (take i s, drop (S i) s, true)
  | None => (s, [], false)
  end.

(** [strings.ReplaceAll(s, c, "")] for a one-byte [c]. *)
Definition remove_byte (c : N) (s : bytes) : bytes := filter (λ b, b ≠ c) s.

(** ** Lemmas *)

Lemma chunk_bytes_app g1 g2 : chunk_bytes (g1 ++ g2) = chunk_bytes g1 ++ chunk_bytes g2.
Proof. unfold chunk_bytes. by rewrite fmap_app, concat_app. Qed.

Lemma chunk_bytes_decode s : chunk_bytes (decode s) = s.
Proof. apply decode_concat. Qed.

(** The rune at the head of a string and its width. *)
Definition rune_at (b0 : N) (t0 : bytes) : N * nat :=
  if (b0 <? 128)%N then (b0, 1) else
  match t0 with
  | [] => (rune_error, 1)
  | b1 :: t1 =>
      if seq2 b0 b1 then (rune2 b0 b1, 2) else
      match t1 with
      | [] => (rune_error, 1)
      | b2 :: t2 =>
          if seq3 b0 b1 b2 then (rune3 b0 b1 b2, 3) else
          match t2 with
          | [] => (rune_error, 1)
          | b3 :: _ => if seq4 b0 b1 b2 b3 then (rune4 b0 b1 b2 b3, 4) else (rune_error, 1)
          end
      end
  end.

Lemma decode_cons b0 t0 :
  decode (b0 :: t0) =
  ((rune_at b0 t0).1, take (rune_at b0 t0).2 (b0 :: t0)) :: decode (drop (rune_at b0 t0).2 (b0 :: t0)).
Proof.
  unfold rune_at, decode at 1. fold decode. destruct (b0 <? 128)%N; [done|].
  destruct t0 as [|b1 t1]; [done|]. destruct (seq2 b0 b1); [done|].
  destruct t1 as [|b2 t2]; [done|]. destruct (seq3 b0 b1 b2); [done|].
  destruct t2 as [|b3 t3]; [done|]. by destruct (seq4 b0 b1 b2 b3).
Qed.

Lemma rune_at_width b0 t0 : 1 ≤ (rune_at b0 t0).2 ≤ length (b0 :: t0).
Proof.
  unfold rune_at. destruct (b0 <? 128)%N; [simpl; lia|].
  destruct t0 as [|b1 t1]; [simpl; lia|]. destruct (seq2 b0 b1); [simpl; lia|].
  destruct t1 as [|b2 t2]; [simpl; lia|]. destruct (seq3 b0 b1 b2); [simpl; lia|].
  destruct t2 as [|b3 t3]; [simpl; lia|]. destruct (seq4 b0 b1 b2 b3); simpl; lia.
Qed.

(** Cutting bytes off behind the first rune does not change it. *)
Lemma rune_at_cut b0 t0 rest :
  (rune_at b0 (t0 ++ rest)).2 ≤ length (b0 :: t0) → rune_at b0 t0 = rune_at b0 (t0 ++ rest).
Proof.
  unfold rune_at. destruct (b0 <? 128)%N; [done|].
  destruct t0 as [|b1 t1]; simpl.
  { destruct rest as [|b1 t1]; [done|]. destruct (seq2 b0 b1); simpl; [lia|].
    destruct t1 as [|b2 t2]; [done|]. destruct (seq3 b0 b1 b2); simpl; [lia|].
    destruct t2 as [|b3 t3]; [done|]. destruct (seq4 b0 b1 b2 b3); simpl; [lia|done]. }
  destruct (seq2 b0 b1); [done|]. destruct t1 as [|b2 t2]; simpl.
  { destruct rest as [|b2 t2]; [done|]. destruct (seq3 b0 b1 b2); simpl; [lia|].
    destruct t2 as [|b3 t3]; [done|]. destruct (seq4 b0 b1 b2 b3); simpl; [lia|done]. }
  destruct (seq3 b0 b1 b2); [done|]. destruct t2 as [|b3 t3]; simpl; [|done].
  destruct rest as [|b3 t3]; [done|]. destruct (seq4 b0 b1 b2 b3); simpl; [lia|done].
Qed.

(** Decoding is stable under cutting a chunk sequence in two. *)
Lemma decode_split s l1 l2 :
  decode s = l1 ++ l2 → decode (chunk_bytes l1) = l1 ∧ decode (chunk_bytes l2) = l2.
Proof.
  revert s. induction l1 as [|[r c] l1 IH]; intros s Hd; simpl in Hd.
  { split; [done|]. by rewrite <-Hd, chunk_bytes_decode, Hd. }
  destruct s as [|b0 t0]; [done|]. rewrite decode_cons in Hd.
  injection Hd as Hr Hc Hd. destruct (IH _ Hd) as [H1 H2]. split; [|done].
  assert (chunk_bytes ((r, c) :: l1) ++ chunk_bytes l2 = b0 :: t0) as Hs.
  { change (chunk_bytes ((r, c) :: l1)) with (c ++ chunk_bytes l1).
    rewrite <-app_assoc, <-chunk_bytes_app, <-Hd, chunk_bytes_decode, <-Hc. apply take_drop. }
  pose proof (rune_at_width b0 t0) as Hw.
  change (chunk_bytes ((r, c) :: l1)) with (c ++ chunk_bytes l1) in *.
  assert (length c = (rune_at b0 t0).2) as Hlc by (rewrite <-Hc, length_take; lia).
  destruct c as [|b c]; [simpl in Hlc; lia|]. simpl in Hs. injection Hs as -> Ht.
  simpl. rewrite decode_cons.
  assert (rune_at b0 (c ++ chunk_bytes l1) = rune_at b0 t0) as Hra.
  { rewrite <-Ht. apply rune_at_cut. rewrite Ht, <-Hlc. simpl. rewrite length_app. lia. }
  rewrite Hra, Hr, <-Hlc. rewrite (app_comm_cons c), take_app_length, drop_app_length. by rewrite H1.
Qed.

(** An ASCII byte is a boundary: decoding distributes over it. *)
Lemma decode_ascii_boundary a c b :
  (c < 128)%N → decode (a ++ c :: b) = decode a ++ (c, [c]) :: decode b.
Proof.
  intros Hc. induction a as [[|b0 t0] IH] using list_len_ind.
  { simpl. rewrite decode_cons. unfold rune_at. by destruct (c <? 128)%N eqn:E; [|lia]. }
  assert (rune_at b0 (t0 ++ c :: b) = rune_at b0 t0) as Hra.
  { unfold rune_at. destruct (b0 <? 128)%N; [done|].
    destruct t0 as [|b1 t1]; simpl.
    { unfold seq2, cont. rewrite !(proj2 (N.leb_gt 128 c)) by done. rewrite andb_false_r.
      destruct b as [|b2 t2]; [done|]. unfold seq3, in_range, cont.
      destruct t2 as [|b3 t3]; unfold seq4, in_range, cont; repeat case_match; try done; lia. }
    destruct (seq2 b0 b1); [done|]. destruct t1 as [|b2 t2]; simpl.
    { unfold seq3 at 1, cont. rewrite !(proj2 (N.leb_gt 128 c)) by done. rewrite !andb_false_r.
      destruct b as [|b3 t3]; [done|]. unfold seq4, cont.
      rewrite !(proj2 (N.leb_gt 128 c)) by done. by rewrite !andb_false_r. }
    destruct (seq3 b0 b1 b2); [done|]. destruct t2 as [|b3 t3]; simpl; [|done].
    unfold seq4, cont. rewrite !(proj2 (N.leb_gt 128 c)) by done. by rewrite !andb_false_r. }
  simpl app. rewrite !decode_cons, Hra. pose proof (rune_at_width b0 t0) as Hw.
  rewrite (app_comm_cons t0), take_app_le, drop_app_le by lia. simpl. f_equal.
  apply IH. rewrite length_drop. simpl in *. lia.
Qed.

(** ** Fields and Join are inverse on lists of fields *)

(** A field: non-empty, and no rune of it is white space. *)
Definition is_field (f : bytes) : Prop := f ≠ [] ∧ Forall (λ rc, is_space rc.1 = false) (decode f).

Lemma field_groups_nonspace l1 l2 cur :
  Forall (λ rc, is_space rc.1 = false) l1 →
  field_groups (l1 ++ l2) cur = field_groups l2 (cur ++ l1).
Proof.
  intros Hl. revert cur. induction Hl as [|rc l1 Hrc Hl IH]; intros cur; simpl.
  { by rewrite app_nil_r. }
  rewrite Hrc, IH. by rewrite <-app_assoc.
Qed.

Lemma field_groups_spec l cur g :
  Forall (λ rc, is_space rc.1 = false) cur → g ∈ field_groups l cur →
  g ≠ [] ∧ Forall (λ rc, is_space rc.1 = false) g ∧ ∃ l1 l2, cur ++ l = l1 ++ g ++ l2.
Proof.
  revert cur. induction l as [|rc l IH]; intros cur Hcur Hg; simpl in Hg.
  { destruct cur as [|x cur]; [by apply elem_of_nil in Hg|].
    apply list_elem_of_singleton in Hg as ->. split_and!; [done..|]. by exists [], []. }
  destruct (is_space rc.1) eqn:Hsp.
  - assert (g = cur ∧ g ≠ [] ∨ g ∈ field_groups l []) as [[-> Hne]|Hg'].
    { destruct cur; [by right|]. apply elem_of_cons in Hg as [->|]; [by left|by right]. }
    { split_and!; [done..|]. by exists [], (rc :: l). }
    destruct (IH [] (Forall_nil_2 _) Hg') as (? & ? & l1 & l2 & Hl). split_and!; [done..|].
    simpl in Hl. exists (cur ++ rc :: l1), l2. rewrite Hl. by rewrite <-app_assoc.
  - destruct (IH (cur ++ [rc])) as (? & ? & l1 & l2 & Hl); [|done|].
    { apply Forall_app. auto. }
    split_and!; [done..|]. exists l1, l2. by rewrite <-Hl, <-app_assoc.
Qed.

Lemma decode_chunk_group l1 g l2 s : decode s = l1 ++ g ++ l2 → decode (chunk_bytes g) = g.
Proof. intros [_ H]%decode_split. by apply decode_split in H as [H _]. Qed.

Lemma fields_is_field s : Forall is_field (fields s).
Proof.
  apply Forall_forall. intros f (g & -> & Hg)%list_elem_of_fmap.
  apply field_groups_spec in Hg as (Hne & Hns & l1 & l2 & Hl); [|done].
  apply decode_chunk_group in Hl as Hd. split; [|by rewrite Hd].
  intros He. by rewrite He in Hd.
Qed.

Lemma fields_single f : is_field f → fields f = [f].
Proof.
  intros [Hne Hns]. unfold fields. rewrite <-(app_nil_r (decode f)), field_groups_nonspace by done.
  simpl. destruct (decode f) eqn:Hd; simpl.
  - by rewrite <-(chunk_bytes_decode f), Hd in Hne.
  - by rewrite <-Hd, chunk_bytes_decode.
Qed.

Lemma fields_cons f s : is_field f → fields (f ++ c_space :: s) = f :: fields s.
Proof.
  intros [Hne Hns]. unfold fields. rewrite decode_ascii_boundary by done.
  rewrite field_groups_nonspace by done. simpl. destruct (decode f) eqn:Hd; simpl.
  - by rewrite <-(chunk_bytes_decode f), Hd in Hne.
  - by rewrite <-Hd, chunk_bytes_decode.
Qed.

Lemma fields_join fs : Forall is_field fs → fields (join [c_space] fs) = fs.
Proof.
  induction 1 as [|f fs Hf Hfs IH]; [done|]. destruct fs as [|f' fs].
  - by apply fields_single.
  - change (join [c_space] (f :: f' :: fs)) with (f ++ c_space :: join [c_space] (f' :: fs)).
    by rewrite fields_cons, IH.
Qed.

(** ** Split and Join are inverse *)

Lemma split_byte_ne sep s : split_byte sep s ≠ [].
Proof. destruct s as [|b s]; simpl; [done|]. by repeat case_match. Qed.

Lemma join_split sep s : join [sep] (split_byte sep s) = s.
Proof.
  induction s as [|b s IH]; simpl; [done|]. destruct (b =? sep)%N eqn:E.
  - apply N.eqb_eq in E as ->. destruct (split_byte sep s) eqn:Hs; [by apply split_byte_ne in Hs|].
    simpl in *. by rewrite IH.
  - destruct (split_byte sep s) as [|x [|y l]] eqn:Hs; simpl in *; [by apply split_byte_ne in Hs|..];
      by rewrite IH.
Qed.

Lemma split_byte_no_sep sep s : sep ∉ s → split_byte sep s = [s].
Proof.
  induction s as [|b s IH]; simpl; [done|]. intros [? ?]%not_elem_of_cons.
  rewrite IH by done. by destruct (N.eqb_spec b sep).
Qed.

Lemma split_byte_elem sep s x : x ∈ split_byte sep s → sep ∉ x.
Proof.
  revert x. induction s as [|b s IH]; intros x; simpl.
  { intros ->%list_elem_of_singleton. by apply not_elem_of_nil. }
  destruct (N.eqb_spec b sep) as [->|Hne].
  - rewrite elem_of_cons. intros [->|]; [by apply not_elem_of_nil|by apply IH].
  - destruct (split_byte sep s) as [|y l] eqn:Hs; [by apply split_byte_ne in Hs|].
    rewrite elem_of_cons. intros [->|Hx].
    + apply not_elem_of_cons. split; [done|]. apply IH. by left.
    + apply IH. by right.
Qed.

Lemma split_byte_app sep a b :
  sep ∉ a → split_byte sep (a ++ sep :: b) = a :: split_byte sep b.
Proof.
  induction a as [|x a IH]; simpl; [by rewrite N.eqb_refl|]. intros [? ?]%not_elem_of_cons.
  rewrite IH by done. by destruct (N.eqb_spec x sep).
Qed.
