(* ===== verification/Analyzer.v ===== *)
(** [engine/analyzer/analyzer.go]: the normalization pipeline shared by the
    index builder and the query path.

    An [Analyzer] is the list of step functions and the list of step names they
    were built from.  The Unicode tables ([strings.ToLower], [unicode.IsLetter],
    [unicode.IsDigit]) and the packages x/text and x/net/idna are the interface
    [TextLib]. *)

From S2P Require Import Prelude.
From S2P Require Import Runtime.
From S2P Require Import Strings.

(** ** The text libraries *)

Definition ascii_lower (b : N) : N := if in_range 65 90 b then (b + 32)%N else b.
Definition ascii_letter (r : N) : bool := in_range 65 90 r || in_range 97 122 r.
Definition ascii_digit (r : N) : bool := in_range 48 57 r.
Definition is_ascii (s : bytes) : bool := forallb (λ b, (b <? 128)%N) s.

Class TextLib := {
  to_lower : bytes → bytes;
  is_letter : N → bool;
  is_digit : N → bool;
  (** the NFD, remove-Mn, NFC transform chain *)
  fold_transform : bytes → bytes;
  (** [idnaProfile.ToASCII]: [None] is an error *)
  idna_to_ascii : bytes → option bytes;
  to_lower_ascii : ∀ s, is_ascii s → to_lower s = ascii_lower <$> s;
  is_letter_ascii : ∀ r, (r < 128)%N → is_letter r = ascii_letter r;
  is_digit_ascii : ∀ r, (r < 128)%N → is_digit r = ascii_digit r;
}.

(** An instance that maps ASCII only; witnesses compute with it. *)
Definition ascii_text : TextLib := {|
  to_lower := λ s, ascii_lower <$> s;
  is_letter := ascii_letter;
  is_digit := ascii_digit;
  fold_transform := λ s, s;
  idna_to_ascii := Some;
  to_lower_ascii := λ s _, eq_refl;
  is_letter_ascii := λ r _, eq_refl;
  is_digit_ascii := λ r _, eq_refl;
|}.

(** ** Steps *)

Definition stepFn : Type := bytes → bytes.

Record Analyzer := mkAnalyzer { a_steps : list stepFn; a_names : list bytes }.

Inductive analyzer_error :=
  | TakesNoArgument (step : bytes)
  | EmptyWordSet (step : bytes)
  | UnknownStep (step : bytes)
  | UnknownPreset (name : bytes).

Definition collapseSpaces (s : bytes) : bytes := join [c_space] (fields s).

Definition sortTokens (s : bytes) : bytes :=
  join [c_space] (sort_stable (less_by id) (fields s)).

(** The words of a [strip_words] argument: split at commas, trimmed, the empty
    ones dropped. *)
Definition word_set (arg : bytes) : gset bytes :=
  list_to_set (filter (λ w, w ≠ []) (trim_space <$> split_byte c_comma arg)).

Definition stripWords (words : gset bytes) : stepFn := λ s,
  join [c_space] (filter (λ f, trim_byte c_dot f ∉ words) (fields s)).

Section steps.
Context `{TextLib}.

Definition foldDiacritics (s : bytes) : bytes :=
  if is_ascii s then s else fold_transform s.

Definition keep_rune (r : N) : bool := is_letter r || is_digit r || (r =? c_minus)%N.

(** The inner loop of stripPunctuation over one field. *)
Definition strip_field (f : bytes) : bytes :=
  trim_byte c_minus (string_of_runes (filter keep_rune (runes f))).

Definition stripPunctuation (s : bytes) : bytes :=
  join [c_space] (filter (λ tok, tok ≠ []) (strip_field <$> fields s)).

Definition idnaStep (s : bytes) : bytes :=
  let s := trim_byte c_dot s in
  if bool_decide (s = []) then [] else
  match idna_to_ascii s with Some out => out | None => s end.

(** The switch of [New] on one step. *)
Definition new_step (s : bytes) : result analyzer_error stepFn :=
  let '(name, arg, hasArg) := cut_byte c_colon s in
  if hasArg && negb (bool_decide (name = $"strip_words")) then Err (TakesNoArgument s)
  else if bool_decide (name = $"lowercase") then Ok to_lower
  else if bool_decide (name = $"fold_diacritics") then Ok foldDiacritics
  else if bool_decide (name = $"strip_punctuation") then Ok stripPunctuation
  else if bool_decide (name = $"strip_words") then
    let words := word_set arg in
    if bool_decide (words = ∅) then Err (EmptyWordSet s) else Ok (stripWords words)
  else if bool_decide (name = $"sort_tokens") then Ok sortTokens
  else if bool_decide (name = $"trim") then Ok collapseSpaces
  else if bool_decide (name = $"idna") then Ok idnaStep
  else Err (UnknownStep s).

(** The loop of [New]: the first bad step is the error. *)
Fixpoint new_steps (steps : list bytes) : result analyzer_error (list stepFn) :=
  match steps with
  | [] => Ok []
  | s :: steps' => f ← new_step s; fs ← new_steps steps'; Ok (f :: fs)
  end.

Definition New (steps : list bytes) : result analyzer_error Analyzer :=
  fs ← new_steps steps; Ok (mkAnalyzer fs steps).

Definition Steps (a : Analyzer) : list bytes := a_names a.

Definition presets : gmap bytes (list bytes) := list_to_map [
  ($"person-name", [$"lowercase"; $"fold_diacritics"; $"strip_punctuation";
                    $"strip_words:mr,mrs,ms,dr,prof"; $"sort_tokens"]);
  ($"identifier", [$"lowercase"; $"trim"]);
  ($"domain", [$"lowercase"; $"trim"; $"idna"]);
  ($"free-text", [$"lowercase"; $"fold_diacritics"; $"strip_punctuation"]) ].

Definition Preset (name : bytes) : result analyzer_error Analyzer :=
  match presets !! name with
  | None => Err (UnknownPreset name)
  | Some steps => New steps
  end.

Definition PresetSteps (name : bytes) : option (list bytes) := presets !! name.
End steps.

Definition Normalize (a : Analyzer) (s : bytes) : bytes :=
  collapseSpaces (foldl (λ s f, f s) s (a_steps a)).

(** ** The shape of a normalized key *)

Lemma collapse_idem s : collapseSpaces (collapseSpaces s) = collapseSpaces s.
Proof. unfold collapseSpaces. by rewrite fields_join by apply fields_is_field. Qed.

Lemma fields_collapse s : fields (collapseSpaces s) = fields s.
Proof. unfold collapseSpaces. apply fields_join, fields_is_field. Qed.

(** A key in normal form: fields separated by single spaces. *)
Definition collapsed (s : bytes) : Prop := ∃ fs, Forall is_field fs ∧ s = join [c_space] fs.

Lemma collapsed_iff s : collapsed s ↔ collapseSpaces s = s.
Proof.
  split.
  - intros (fs & Hfs & ->). unfold collapseSpaces. by rewrite fields_join.
  - intros <-. exists (fields s). split; [apply fields_is_field|done].
Qed.

Lemma sort_fields_perm s t :
  fields s ≡ₚ fields t → sort_stable (less_by id) (fields s) = sort_stable (less_by id) (fields t).
Proof.
  intros Hp. eapply StronglySorted_unique_strong;
    [|apply sort_stable_sorted, (less_by_weak id)..|by rewrite !sort_stable_perm].
  intros x y _ _ Hxy Hyx. apply less_by_false in Hxy, Hyx. by apply (anti_symm bytes_le).
Qed.

(** ** [New] *)

(** What [New] accepts as a step. *)
Definition plain_steps : list bytes :=
  [$"lowercase"; $"fold_diacritics"; $"strip_punctuation"; $"sort_tokens"; $"trim"; $"idna"].
Definition step_ok (s : bytes) : Prop :=
  s ∈ plain_steps ∨ ∃ arg, s = $"strip_words:" ++ arg ∧ word_set arg ≠ ∅.

Lemma index_byte_some c s i :
  index_byte c s = Some i → s = take i s ++ c :: drop (S i) s.
Proof.
  revert i. induction s as [|b s IH]; intros i; simpl; [done|].
  destruct (N.eqb_spec b c) as [->|].
  { intros [= <-]. done. }
  destruct (index_byte c s) as [j|]; simpl; [|done]. intros [= <-]. simpl. f_equal. by apply IH.
Qed.

Lemma cut_byte_spec c s name arg (has : bool) :
  cut_byte c s = (name, arg, has) →
  if has then s = name ++ c :: arg else name = s ∧ arg = [].
Proof.
  unfold cut_byte. destruct (index_byte c s) as [i|] eqn:Hi; intros [= <- <- <-]; [|done].
  by apply index_byte_some.
Qed.

Section new.
Context `{TextLib}.

Lemma new_step_ok s : is_ok (new_step s) ↔ step_ok s.
Proof.
  unfold step_ok. split.
  - unfold new_step. destruct (cut_byte c_colon s) as [[name arg] has] eqn:Hc.
    apply cut_byte_spec in Hc. destruct has; simpl in *.
    + destruct (decide (name = $"strip_words")) as [->|Hn]; simpl.
      * case_bool_decide as Hw; [done|]. intros _. right. exists arg. by rewrite Hc.
      * rewrite (bool_decide_eq_false_2 (name = _)) by done. done.
    + destruct Hc as [-> ->]. unfold plain_steps. intros Hok. left.
      repeat (case_bool_decide; [subst; set_solver|]). done.
  - intros [Hs|(arg & -> & Hw)].
    + unfold plain_steps in Hs. repeat (apply elem_of_cons in Hs as [->|Hs]; [by vm_compute|]).
      by apply elem_of_nil in Hs.
    + unfold new_step.
      replace (cut_byte c_colon ($"strip_words:" ++ arg)) with ($"strip_words", arg, true) by done.
      simpl. by rewrite bool_decide_eq_false_2.
Qed.

Lemma new_steps_ok l : is_ok (new_steps l) ↔ Forall step_ok l.
Proof.
  induction l as [|s l IH]; [by split; [constructor|]|].
  simpl. rewrite Forall_cons, <-IH, <-new_step_ok.
  destruct (new_step s), (new_steps l); simpl; tauto.
Qed.
End new.

(** ** Properties *)

Section properties.
Context `{TextLib}.

(** [New] accepts a step list exactly when every step is one of the plain
    step names, without an argument, or [strip_words:] with at least one word;
    an accepted analyzer carries the list itself as its canonical spec, in the
    order the steps run. *)
Theorem new_spec steps :
  (is_ok (New steps) ↔ Forall step_ok steps) ∧
  (∀ a, New steps = Ok a → Steps a = steps ∧ length (a_steps a) = length steps ∧
     ∀ i s f, steps !! i = Some s → a_steps a !! i = Some f → new_step s = Ok f).
Proof.
  unfold New. split.
  - rewrite <-new_steps_ok. by destruct (new_steps steps).
  - intros a (fs & Hfs & [= <-])%bind_ok. simpl. split; [done|].
    revert fs Hfs. induction steps as [|s l IH]; intros fs; simpl.
    { intros [= <-]. split; [done|]. by intros []. }
    intros (f & Hf & (fs' & Hfs' & [= <-])%bind_ok)%bind_ok. destruct (IH _ Hfs') as [Hl Hi].
    split; [simpl; by rewrite Hl|]. intros [|i] s' f'; simpl; [congruence|apply Hi].
Qed.

(** Whatever the steps, a normalized key is in normal form (non-empty
    fields free of Unicode white space, separated by single spaces), so
    normalizing the spacing once more changes nothing. *)
Theorem normalize_collapsed a s :
  collapsed (Normalize a s) ∧ collapseSpaces (Normalize a s) = Normalize a s.
Proof. rewrite collapsed_iff. split; apply collapse_idem. Qed.

(** An analyzer whose last step is [sort_tokens] is blind to the token
    order at that step: inputs whose earlier steps give the same multiset of
    tokens normalize to the same key, and the key's tokens are sorted. *)
Theorem sort_tokens_order_blind a fs names s t :
  a = mkAnalyzer (fs ++ [sortTokens]) names →
  fields (foldl (λ s f, f s) s fs) ≡ₚ fields (foldl (λ s f, f s) t fs) →
  Normalize a s = Normalize a t ∧ StronglySorted bytes_le (fields (Normalize a s)).
Proof.
  intros -> Hp. unfold Normalize. simpl. rewrite !foldl_app. simpl.
  unfold sortTokens at 1 3. rewrite (sort_fields_perm _ _ Hp). split; [done|].
  rewrite fields_collapse. unfold sortTokens. rewrite fields_join.
  - eapply strongly_sorted_mono, sort_stable_sorted, (less_by_weak id).
    intros x y. by rewrite less_by_false.
  - rewrite sort_stable_perm. apply fields_is_field.
Qed.
End properties.

Lemma sort_tokens_order_blind_witness :
  let a := mkAnalyzer [to_lower (TextLib:=ascii_text); sortTokens] [] in
  Normalize a $"Smith  JOHN" = $"john smith" ∧
  (Normalize a $"Smith  JOHN" = Normalize a $"JOHN smith" ∧
   StronglySorted bytes_le (fields (Normalize a $"Smith  JOHN"))).
Proof.
  split; [vm_compute; reflexivity|].
  apply (sort_tokens_order_blind _ [to_lower (TextLib:=ascii_text)] [] _ _ eq_refl).
  apply Permutation_swap.
Defined.
