(* ===== verification/Grams.v ===== *)
(** [engine/ngram/ngram.go], the gram functions: [CharGrams] (the index side)
    and [EachGram] (the query side), with the loop both use to emit each gram
    once.  Calls of the callback [fn] are the list of emitted grams. *)

From S2P Require Import Prelude.
From S2P Require Import Runtime.
From S2P Require Import Strings.

(** The [seen] loop: emit the grams not seen yet, in order. *)
Fixpoint emit (seen : gset bytes) (l : list bytes) : list bytes * gset bytes :=
  match l with
  | [] => ([], seen)
  | g :: l' =>
      if decide (g ∈ seen) then emit seen l'
      else let '(out, seen') := emit ({[g]} ∪ seen) l' in (g :: out, seen')
  end.

(** [for i := 0; i+n <= len; i++], the window starts. *)
Definition window_starts (len n : nat) : list nat := seq 0 (S len - n).

Definition CharGrams (s : bytes) (n : nat) : list bytes :=
  let r := runes s in
  if length r <? n then [s]
  else (emit ∅ ((λ i, string_of_runes (take n (drop i r))) <$> window_starts (length r) n)).1.

(** Byte offsets of the rune starts from [i] on, then the end of the string. *)
Fixpoint offsets (i : nat) (l : list (N * bytes)) : list nat :=
  match l with
  | [] => [i]
  | rc :: l' => i :: offsets (i + length rc.2) l'
  end.

(** [s[a:b]] *)
Definition slice {A} (s : list A) (a b : nat) : list A := take (b - a) (drop a s).

(** The windows of one size, as [EachGram] slices them. *)
Definition size_windows (s : bytes) (offs : list nat) (n : nat) : list bytes :=
  let rc := length offs - 1 in
  if rc <? n then [s]
  else (λ j, slice s (nth j offs 0) (nth (j + n) offs 0)) <$> window_starts rc n.

Fixpoint each_size (s : bytes) (offs : list nat) (sizes : list nat) (seen : gset bytes)
    : list bytes * gset bytes :=
  match sizes with
  | [] => ([], seen)
  | n :: sizes' =>
      let '(out, seen1) := emit seen (size_windows s offs n) in
      let '(out', seen2) := each_size s offs sizes' seen1 in
      (out ++ out', seen2)
  end.

Definition EachGram (s : bytes) (sizes : list nat) (seen : gset bytes) : list bytes * gset bytes :=
  each_size s (offsets 0 (decode s)) sizes seen.

(** ** The emission loop *)

Lemma emit_seen seen l : (emit seen l).2 = seen ∪ list_to_set l.
Proof.
  revert seen. induction l as [|g l IH]; intros seen; simpl; [set_solver|].
  case_decide; [rewrite IH; set_solver|].
  specialize (IH ({[g]} ∪ seen)). destruct (emit _ l). simpl in *. rewrite IH. set_solver.
Qed.

Lemma emit_elem seen l g : g ∈ (emit seen l).1 ↔ g ∈ l ∧ g ∉ seen.
Proof.
  revert seen. induction l as [|x l IH]; intros seen; simpl; [set_solver|].
  case_decide; [rewrite IH; set_solver|].
  specialize (IH ({[x]} ∪ seen)). destruct (emit _ l). simpl in *.
  rewrite elem_of_cons, IH. destruct (decide (g = x)); set_solver.
Qed.

Lemma emit_nodup seen l : NoDup (emit seen l).1.
Proof.
  revert seen. induction l as [|x l IH]; intros seen; simpl; [constructor|].
  case_decide; [done|]. pose proof (emit_elem ({[x]} ∪ seen) l x) as Hx.
  specialize (IH ({[x]} ∪ seen)). destruct (emit _ l). simpl in *.
  constructor; [|done]. rewrite Hx. set_solver.
Qed.

Lemma emit_app seen l1 l2 :
  emit seen (l1 ++ l2) =
  ((emit seen l1).1 ++ (emit (emit seen l1).2 l2).1, (emit (emit seen l1).2 l2).2).
Proof.
  revert seen. induction l1 as [|x l1 IH]; intros seen; simpl.
  { by destruct (emit seen l2). }
  case_decide; [apply IH|]. rewrite IH. by destruct (emit ({[x]} ∪ seen) l1).
Qed.

(** Emitting an already deduplicated list is emitting the list. *)
Lemma emit_emit seen seen0 l : seen0 ⊆ seen → (emit seen (emit seen0 l).1).1 = (emit seen l).1.
Proof.
  revert seen seen0. induction l as [|x l IH]; intros seen seen0 Hsub; simpl; [done|].
  destruct (decide (x ∈ seen0)) as [Hx0|Hx0].
  { rewrite decide_True by set_solver. by apply IH. }
  specialize (IH ({[x]} ∪ seen) ({[x]} ∪ seen0) ltac:(set_solver)) as IH1.
  specialize (IH seen ({[x]} ∪ seen0)) as IH2.
  destruct (emit ({[x]} ∪ seen0) l) as [o s0]. simpl in *. case_decide as Hx; [set_solver|].
  rewrite (surjective_pairing (emit _ o)), (surjective_pairing (emit _ l)). simpl. by rewrite IH1.
Qed.

(** ** Windows *)

Lemma offsets_length i l : length (offsets i l) = S (length l).
Proof. revert i. induction l as [|rc l IH]; intros i; simpl; [done|]. by rewrite IH. Qed.

Lemma offsets_nth i l j :
  j ≤ length l → nth j (offsets i l) 0 = i + length (chunk_bytes (take j l)).
Proof.
  revert i j. induction l as [|rc l IH]; intros i [|j]; simpl; intros Hj; try lia.
  rewrite IH by lia. change (chunk_bytes (rc :: take j l)) with (rc.2 ++ chunk_bytes (take j l)).
  rewrite length_app. lia.
Qed.

Lemma slice_chunks l j n :
  j + n ≤ length l →
  slice (chunk_bytes l) (length (chunk_bytes (take j l))) (length (chunk_bytes (take (j + n) l)))
  = chunk_bytes (take n (drop j l)).
Proof.
  intros Hj. assert (∀ k l', chunk_bytes (take k l') ++ chunk_bytes (drop k l') = chunk_bytes l') as Hcut.
  { intros k l'. by rewrite <-chunk_bytes_app, take_drop. }
  unfold slice. rewrite <-(Hcut j l), drop_app_length, <-(take_take_drop l j n), chunk_bytes_app, length_app.
  rewrite Nat.add_comm, Nat.add_sub. by rewrite <-(Hcut n (drop j l)), take_app_length.
Qed.

Lemma string_of_rune_window l j n :
  Forall (λ rc, encode_rune rc.1 = rc.2) l →
  string_of_runes (take n (drop j l.*1)) = chunk_bytes (take n (drop j l)).
Proof.
  intros Hl. rewrite <-fmap_drop, <-fmap_take. apply (Forall_drop _ j), (Forall_take _ n) in Hl.
  revert Hl. generalize (take n (drop j l)). intros l0 Hl. unfold string_of_runes. induction Hl as [|rc l' Hrc Hl IH]; [done|].
  csimpl. rewrite Hrc. change (chunk_bytes (rc :: l')) with (rc.2 ++ chunk_bytes l'). by rewrite <-IH.
Qed.

(** On valid UTF-8 both sides cut the same windows. *)
Lemma size_windows_runes s n :
  utf8_valid s →
  size_windows s (offsets 0 (decode s)) n =
  if length (runes s) <? n then [s]
  else (λ i, string_of_runes (take n (drop i (runes s)))) <$> window_starts (length (runes s)) n.
Proof.
  intros Hv%decode_valid. unfold size_windows, runes. rewrite offsets_length, length_fmap. simpl.
  rewrite Nat.sub_0_r. destruct (Nat.ltb_spec (length (decode s)) n); [done|].
  apply list_fmap_ext. intros i j Hj%list_elem_of_lookup_2. unfold window_starts in Hj.
  apply elem_of_seq in Hj. rewrite !offsets_nth by lia. simpl.
  rewrite <-(chunk_bytes_decode s) at 1. rewrite slice_chunks by lia.
  by rewrite string_of_rune_window.
Qed.

Lemma size_windows_chargrams s n seen :
  utf8_valid s → (emit seen (size_windows s (offsets 0 (decode s)) n)).1 = (emit seen (CharGrams s n)).1.
Proof.
  intros Hv. rewrite size_windows_runes by done. unfold CharGrams.
  destruct (length (runes s) <? n); [done|]. symmetry. apply emit_emit. set_solver.
Qed.

Lemma chargrams_windows s n :
  utf8_valid s → list_to_set (C:=gset bytes) (CharGrams s n) =
  list_to_set (size_windows s (offsets 0 (decode s)) n).
Proof.
  intros Hv. rewrite size_windows_runes by done. unfold CharGrams.
  destruct (length (runes s) <? n); [done|]. apply set_eq. intros g.
  rewrite !elem_of_list_to_set, emit_elem. set_solver.
Qed.

Lemma chargrams_nodup s n : NoDup (CharGrams s n).
Proof. unfold CharGrams. case_match; [repeat constructor; set_solver|apply emit_nodup]. Qed.

Lemma each_gram_emit s sizes seen :
  utf8_valid s → EachGram s sizes seen = emit seen (sizes ≫= CharGrams s).
Proof.
  intros Hv. unfold EachGram. revert seen. induction sizes as [|n sizes IH]; intros seen; [done|].
  csimpl. rewrite emit_app, <-size_windows_chargrams by done.
  rewrite (surjective_pairing (emit seen (size_windows _ _ n))), !emit_seen.
  rewrite chargrams_windows by done.
  rewrite (surjective_pairing (each_size _ _ _ _)), IH. by rewrite !emit_seen.
Qed.

(** The documented asymmetry: a key that is not valid UTF-8 is indexed under
    the folded gram and queried under its own bytes. *)
Example invalid_utf8_asymmetry :
  CharGrams [255%N] 1 = CharGrams [254%N] 1 ∧
  CharGrams [255%N] 1 = [encode_rune rune_error] ∧ (EachGram [255%N] [1] ∅).1 = [[255%N]].
Proof. vm_compute. done. Qed.

(** On valid UTF-8 the query side emits exactly the index side's grams:
    the same sequence as iterating [CharGrams] over the sizes in order and
    dropping repeats, so it is free of duplicates and as a set it is the union of
    the sizes' grams less the grams seen before. *)
Theorem each_gram_equiv s sizes seen :
  utf8_valid s →
  EachGram s sizes seen = emit seen (sizes ≫= CharGrams s) ∧
  NoDup (EachGram s sizes seen).1 ∧
  ∀ g, g ∈ (EachGram s sizes seen).1 ↔ g ∉ seen ∧ ∃ n, n ∈ sizes ∧ g ∈ CharGrams s n.
Proof.
  intros Hv. rewrite each_gram_emit by done. split_and!; [done|apply emit_nodup|].
  intros g. rewrite emit_elem, list_elem_of_bind. naive_solver.
Qed.

Lemma each_gram_equiv_witness :
  (EachGram $"abab" [2; 3] ∅).1 = [$"ab"; $"ba"; $"aba"; $"bab"] ∧
  EachGram $"abab" [2; 3] ∅ = emit ∅ ([2; 3] ≫= CharGrams $"abab").
Proof.
  split; [vm_compute; reflexivity|].
  apply (proj1 (each_gram_equiv $"abab" [2; 3] ∅ ltac:(vm_compute; exact I))).
Defined.
