(* ===== verification/Heap.v ===== *)
(** The worst-at-root binary heap of [engine/ngram/ngram.go] ([heapifyWorst],
    [siftWorst]) and the bounded selection built on it, over any strict weak
    order [worse]. *)

From S2P Require Import Prelude.
From S2P Require Import Runtime.

Section heap.
Context {A : Type} (worse : A → A → bool).

(** [j < len(h) && worse(h[j], h[i])] *)
Definition worse_at (h : list A) (j i : nat) : bool :=
  match h !! j, h !! i with
  | Some a, Some b => worse a b
  | _, _ => false
  end.

(** [h[i], h[j] = h[j], h[i]] *)
Definition swap (h : list A) (i j : nat) : list A :=
  match h !! i, h !! j with
  | Some a, Some b => <[j := a]> (<[i := b]> h)
  | _, _ => h
  end.

(** The child [siftWorst] moves to, [i] itself when it stops. *)
Definition worst_child (h : list A) (i : nat) : nat :=
  let l := 2 * i + 1 in
  let r := 2 * i + 2 in
  let w := if worse_at h l i then l else i in
  if worse_at h r w then r else w.

Fixpoint sift (fuel : nat) (h : list A) (i : nat) : list A :=
  match fuel with
  | 0 => h
  | S fuel =>
      let w := worst_child h i in
      if w =? i then h else sift fuel (swap h i w) w
  end.

(** Every iteration moves to a larger index, so [len(h)] iterations do. *)
Definition siftWorst (h : list A) (i : nat) : list A := sift (length h) h i.

(** The upward repair of [anyOfSelection.up] in [engine/list.go]: a node worse
    than its parent rises.  Every turn halves the index. *)
Fixpoint rise (fuel : nat) (h : list A) (i : nat) : list A :=
  match fuel with
  | 0 => h
  | S fuel =>
      if i =? 0 then h
      else let p := (i - 1) / 2 in
           if worse_at h i p then rise fuel (swap h p i) p else h
  end.

(** Swaps the root out to the end, drops it and repairs the heap: the eviction
    of [anyOfSelection.push]. *)
Definition pop_root (h : list A) : list A * option A :=
  let lst := length h - 1 in
  let h := swap h 0 lst in
  (siftWorst (take lst h) 0, h !! lst).

(** Appends, repairs upwards, and evicts the root when over the bound. *)
Definition push_bounded (topK : Z) (h : list A) (x : A) : list A * option A :=
  let h := rise (length h) (h ++ [x]) (length h) in
  if (0 <? topK)%Z && (topK <? Z.of_nat (length h))%Z then pop_root h else (h, None).

(** [for i := len(h)/2 - 1; i >= 0; i--] *)
Definition heapifyWorst (h : list A) : list A :=
  foldl siftWorst h (reverse (seq 0 (length h / 2))).

(** ** Bounded selection *)

(** One step of the collection loop: the kept list, and whether it is a heap
    already. *)
Definition select_step (topK : Z) (st : list A * bool) (h : A) : list A * bool :=
  let '(out, heaped) := st in
  if (topK <=? 0)%Z || (Z.of_nat (length out) <? topK)%Z then (out ++ [h], heaped)
  else
    let out := if heaped then out else heapifyWorst out in
    match out with
    | [] => (out, true)
    | root :: _ => if worse h root then (out, true) else (siftWorst (<[0 := h]> out) 0, true)
    end.
Definition select (topK : Z) (hs : list A) : list A := (foldl (select_step topK) ([], false) hs).1.

(** ** Invariant *)

Definition child (i c : nat) : Prop := c = 2 * i + 1 ∨ c = 2 * i + 2.

(** No child is worse than its parent, for the parents from [k] on that
    satisfy [P]. *)
Definition heap_except (P : nat → Prop) (k : nat) (h : list A) : Prop :=
  ∀ i c, k ≤ i → P i → child i c → worse_at h c i = false.
Definition heap_from : nat → list A → Prop := heap_except (λ _, True).

Lemma worse_at_true h j i :
  worse_at h j i = true ↔ ∃ a b, h !! j = Some a ∧ h !! i = Some b ∧ worse a b = true.
Proof. unfold worse_at. destruct (h !! j), (h !! i); naive_solver. Qed.

Lemma worse_at_false h j i :
  worse_at h j i = false ↔ ∀ a b, h !! j = Some a → h !! i = Some b → worse a b = false.
Proof. unfold worse_at. destruct (h !! j), (h !! i); naive_solver. Qed.

Lemma swap_perm h i j : i ≠ j → swap h i j ≡ₚ h.
Proof.
  intros Hij. unfold swap. destruct (h !! i) as [a|] eqn:Hi, (h !! j) as [b|] eqn:Hj; try done.
  by apply Permutation_insert_swap.
Qed.

Lemma swap_length h i j : length (swap h i j) = length h.
Proof. unfold swap. repeat case_match; by rewrite ?length_insert. Qed.

Lemma lookup_swap h i j k :
  i < length h → j < length h → i ≠ j →
  swap h i j !! k = if decide (k = i) then h !! j else if decide (k = j) then h !! i else h !! k.
Proof.
  intros Hi Hj Hij. unfold swap.
  destruct (lookup_lt_is_Some_2 h i Hi) as [a Ha], (lookup_lt_is_Some_2 h j Hj) as [b Hb].
  rewrite Ha, Hb. repeat case_decide; subst.
  - rewrite list_lookup_insert_ne by done. by rewrite list_lookup_insert_eq.
  - by rewrite list_lookup_insert_eq by (by rewrite length_insert).
  - by rewrite !list_lookup_insert_ne by done.
Qed.

Lemma worse_asym a b : strict_weak worse → worse a b = true → worse b a = false.
Proof.
  intros (Hirr & Htr & _) Hab. destruct (worse b a) eqn:Hba; [|done].
  rewrite <-(Hirr a). symmetry. apply Is_true_true. apply (Htr a b a); by rewrite Is_true_true.
Qed.

Lemma worse_at_asym h i j : strict_weak worse → worse_at h j i = true → worse_at h i j = false.
Proof.
  intros Hw (a & b & Ha & Hb & Hab)%worse_at_true. apply worse_at_false. intros x y Hx Hy.
  simplify_eq. by apply worse_asym.
Qed.

(** [l] not worse than [i], which [r] beats, is not worse than [r]. *)
Lemma worse_at_le_trans h l i r :
  strict_weak worse → worse_at h l i = false → worse_at h r i = true → worse_at h l r = false.
Proof.
  intros Hw Hl Hr. apply worse_at_false. intros x y Hx Hy.
  apply worse_at_true in Hr as (a & b & Ha & Hb & Hab). rewrite worse_at_false in Hl.
  specialize (Hl x b Hx Hb). apply worse_asym in Hab; [|done].
  destruct Hw as (_ & _ & Hntr). simplify_eq. by eapply Hntr.
Qed.

Lemma worst_child_spec h i :
  strict_weak worse →
  let w := worst_child h i in
  (w = i ∨ child i w ∧ worse_at h w i = true) ∧
  ∀ c, child i c → worse_at h c w = false.
Proof.
  intros (Hirr & Htr & Hntr). unfold worst_child. cbv zeta.
  assert (∀ j, worse_at h j j = false) as Hjj.
  { intros j. apply worse_at_false. intros a b -> [= ->]. apply Hirr. }
  destruct (worse_at h (2 * i + 1) i) eqn:Hl.
  - destruct (worse_at h (2 * i + 2) (2 * i + 1)) eqn:Hr.
    + split; [|intros c [->| ->]; [by apply worse_at_asym|apply Hjj]].
      * right. split; [by right|]. apply worse_at_true in Hl as (a & b & Ha & Hb & Hab).
        apply worse_at_true in Hr as (a' & b' & Ha' & Hb' & Hab'). simplify_eq.
        apply worse_at_true. exists a', b. split_and!; try done.
        rewrite <-Is_true_true in *. by eapply Htr.
    + split; [right; split; [by left|done]|]. intros c [->| ->]; [apply Hjj|done].
  - destruct (worse_at h (2 * i + 2) i) eqn:Hr.
    + split; [right; split; [by right|done]|]. intros c [->| ->]; [|apply Hjj].
      by eapply worse_at_le_trans.
    + split; [by left|]. by intros c [->| ->].
Qed.

(** The invariant of the sift loop at [i]. *)
Definition sifting (k : nat) (h : list A) (i : nat) : Prop :=
  heap_except (λ j, j ≠ i) k h ∧
  ∀ p c, k ≤ p → child p i → child i c → worse_at h c p = false.

Lemma sifting_step k h i :
  strict_weak worse → k ≤ i → sifting k h i →
  child i (worst_child h i) → worse_at h (worst_child h i) i = true →
  sifting k (swap h i (worst_child h i)) (worst_child h i).
Proof.
  intros Hw Hki [Ha Hb] Hc Hwi. destruct (worst_child_spec h i Hw) as [_ Hbest].
  set (w := worst_child h i) in *.
  apply worse_at_true in Hwi as (aw & ai & Hhw & Hhi & Hai).
  apply lookup_lt_Some in Hhw as Hlw. apply lookup_lt_Some in Hhi as Hli.
  assert (i ≠ w ∧ i < w) as [Hne Hlt] by (destruct Hc; lia).
  split.
  - intros j c Hkj Hjw Hjc. apply worse_at_false. intros x y.
    rewrite !lookup_swap by done. destruct (decide (j = i)) as [->|Hji].
    + destruct (decide (c = i)) as [->|Hci]; [destruct Hjc; lia|]. rewrite Hhw. intros Hx [= <-].
      destruct (decide (c = w)) as [->|Hcw].
      * simplify_eq. by apply worse_asym.
      * specialize (Hbest c Hjc). rewrite worse_at_false in Hbest. by apply Hbest.
    + rewrite (decide_False (P:=j = w)) by done. destruct (decide (c = i)) as [->|Hci].
      * intros Hx Hy. specialize (Hb j w Hkj Hjc Hc). rewrite worse_at_false in Hb. by apply Hb.
      * rewrite decide_False by (intros ->; destruct Hjc, Hc; lia). intros Hx Hy.
        specialize (Ha j c Hkj Hji Hjc). rewrite worse_at_false in Ha. by apply Ha.
  - intros p c Hkp Hpw Hwc. assert (p = i) as -> by (destruct Hpw, Hc; lia).
    apply worse_at_false. intros x y. rewrite !lookup_swap by done.
    rewrite (decide_True (P:=i = i)) by done.
    rewrite (decide_False (P:=c = i)), (decide_False (P:=c = w)) by (destruct Hwc; lia).
    specialize (Ha w c). rewrite worse_at_false in Ha. intros. apply Ha; try done; lia.
Qed.

Lemma sift_heap fuel k h i :
  strict_weak worse → k ≤ i → length h ≤ fuel + i → sifting k h i → heap_from k (sift fuel h i).
Proof.
  intros Hw. revert h i. induction fuel as [|fuel IH]; intros h i Hki Hfuel Hs; simpl.
  - intros j c Hkj _ Hjc. destruct (decide (j = i)) as [->|Hji]; [|by apply (proj1 Hs)].
    apply worse_at_false. intros a b Ha%lookup_lt_Some _. destruct Hjc; lia.
  - destruct (worst_child_spec h i Hw) as [Hcase Hbest]. simpl in *.
    destruct (Nat.eqb_spec (worst_child h i) i) as [Heq|Hne].
    + rewrite Heq in Hbest. intros j c Hkj _ Hjc.
      destruct (decide (j = i)) as [->|Hji]; [by apply Hbest|by apply (proj1 Hs)].
    + destruct Hcase as [?|[Hc Hwi]]; [done|].
      assert (i < worst_child h i) by (destruct Hc; lia).
      apply IH; [lia|rewrite swap_length; lia|by apply sifting_step].
Qed.

Lemma sift_perm fuel h i : sift fuel h i ≡ₚ h.
Proof.
  revert h i. induction fuel as [|fuel IH]; intros h i; simpl; [done|].
  destruct (Nat.eqb_spec (worst_child h i) i) as [|Hne]; [done|].
  rewrite IH. by apply swap_perm.
Qed.

Lemma siftWorst_heap k h i :
  strict_weak worse → k ≤ i → sifting k h i → heap_from k (siftWorst h i).
Proof. intros. apply sift_heap; [done|done|lia|done]. Qed.

Lemma heapify_loop n h :
  strict_weak worse → heap_from n h → heap_from 0 (foldl siftWorst h (reverse (seq 0 n))).
Proof.
  intros Hw. revert h. induction n as [|n IH]; intros h Hh; [done|].
  rewrite seq_S, reverse_app. simpl. apply IH, siftWorst_heap; [done|done|].
  split.
  - intros j c Hj Hne Hc. apply Hh; [simpl in *; lia|done|done].
  - intros p c Hp Hpc _. destruct Hpc; simpl in *; lia.
Qed.

Lemma heapify_heap h : strict_weak worse → heap_from 0 (heapifyWorst h).
Proof.
  intros Hw. apply heapify_loop; [done|]. intros j c Hj _ Hc. apply worse_at_false.
  intros a b Ha%lookup_lt_Some _. pose proof (Nat.div_mod_eq (length h) 2).
  pose proof (Nat.mod_upper_bound (length h) 2). destruct Hc; lia.
Qed.

Lemma heapify_perm h : heapifyWorst h ≡ₚ h.
Proof.
  unfold heapifyWorst. generalize (reverse (seq 0 (length h / 2))) as l. intros l. revert h.
  induction l as [|i l IH]; intros h; simpl; [done|]. rewrite IH. apply sift_perm.
Qed.

(** The invariant of the upward loop at [i]: only [i] may be worse than its
    parent, and its children are not worse than that parent. *)
Definition rising (h : list A) (i : nat) : Prop :=
  (∀ j c, child j c → c ≠ i → worse_at h c j = false) ∧
  ∀ p c, child p i → child i c → worse_at h c p = false.

Lemma parent_child i : i ≠ 0 → child ((i - 1) / 2) i ∧ (i - 1) / 2 < i.
Proof.
  intros Hi. unfold child. pose proof (Nat.div_mod_eq (i - 1) 2). pose proof (Nat.mod_upper_bound (i - 1) 2). lia.
Qed.

Lemma child_parent p i : child p i → p = (i - 1) / 2.
Proof.
  intros Hc. destruct (parent_child i) as [Hc' _]; [destruct Hc; lia|]. destruct Hc, Hc'; lia.
Qed.

Lemma rising_step h i :
  strict_weak worse → i ≠ 0 → i < length h → rising h i → worse_at h i ((i - 1) / 2) = true →
  rising (swap h ((i - 1) / 2) i) ((i - 1) / 2).
Proof.
  intros Hw Hi Hlen [Ha Hb] Hwi. destruct (parent_child i Hi) as [Hpi Hlt]. set (p := (i - 1) / 2) in *.
  pose proof Hwi as (ai & ap & Hai & Hap & Hbad)%worse_at_true.
  assert (p < length h) as Hlp by lia. assert (p ≠ i) as Hne by lia.
  split.
  - intros j c Hjc Hcp. apply worse_at_false. intros x y. rewrite !lookup_swap by done.
    rewrite (decide_False (P:=c = p)) by done. destruct (decide (c = i)) as [->|Hci].
    + assert (j = p) as -> by by apply child_parent.
      rewrite decide_True by done. rewrite Hap, Hai. intros [= <-] [= <-]. by apply worse_asym.
    + destruct (decide (j = p)) as [->|Hjp].
      * rewrite Hai. intros Hx [= <-]. pose proof (Ha p c Hjc Hci) as Hpc.
        pose proof (worse_at_le_trans h c p i Hw Hpc Hwi) as H. rewrite worse_at_false in H. by apply H.
      * destruct (decide (j = i)) as [->|Hji].
        -- rewrite Hap. intros Hx [= <-]. specialize (Hb p c Hpi Hjc). rewrite worse_at_false in Hb. by apply Hb.
        -- specialize (Ha j c Hjc Hci). rewrite worse_at_false in Ha. apply Ha.
  - intros g c Hgp Hpc. assert (g ≠ p ∧ g ≠ i) as [Hgp' Hgi] by (destruct Hgp; lia).
    assert (worse_at h p g = false) as Hpg by by apply Ha.
    apply worse_at_false. intros x y. rewrite !lookup_swap by done.
    rewrite (decide_False (P:=g = p)), (decide_False (P:=g = i)) by done.
    rewrite (decide_False (P:=c = p)) by (destruct Hpc; lia). rewrite worse_at_false in Hpg.
    destruct (decide (c = i)) as [->|Hci].
    + rewrite Hap. intros [= <-] Hy. by apply (Hpg ap y).
    + intros Hx Hy. pose proof (Ha p c Hpc Hci) as Hcp. rewrite worse_at_false in Hcp.
      destruct Hw as (_ & _ & Hntr). apply (Hntr y ap x); [by apply Hpg|by apply Hcp].
Qed.

Lemma rise_heap fuel h i :
  strict_weak worse → i ≤ fuel → i < length h → rising h i → heap_from 0 (rise fuel h i).
Proof.
  intros Hw. revert h i. induction fuel as [|fuel IH]; intros h i Hf Hlen Hr; cbn [rise].
  { assert (i = 0) as -> by lia. intros j c _ _ Hc. apply (proj1 Hr); [done|destruct Hc; lia]. }
  destruct (Nat.eqb_spec i 0) as [->|Hi].
  { intros j c _ _ Hc. apply (proj1 Hr); [done|destruct Hc; lia]. }
  destruct (parent_child i Hi) as [Hc Hlt]. destruct (worse_at h i ((i - 1) / 2)) eqn:Hwi.
  - apply IH; [lia|rewrite swap_length; lia|by apply rising_step].
  - intros j c _ _ Hjc. destruct (decide (c = i)) as [->|]; [|by apply (proj1 Hr)]. by rewrite (child_parent j i Hjc).
Qed.

Lemma rise_perm fuel h i : rise fuel h i ≡ₚ h.
Proof.
  revert h i. induction fuel as [|fuel IH]; intros h i; cbn [rise]; [done|].
  destruct (Nat.eqb_spec i 0) as [|Hi]; [done|]. destruct (worse_at _ _ _); [|done].
  rewrite IH. apply swap_perm. destruct (parent_child i Hi). lia.
Qed.

(** Appending to a heap leaves it ready to rise at its last index. *)
Lemma rising_snoc h x : heap_from 0 h → rising (h ++ [x]) (length h).
Proof.
  intros Hh. split.
  - intros j c Hjc Hc. apply worse_at_false. intros a b Ha Hb.
    assert (c < length h) as Hlt by (apply lookup_lt_Some in Ha; rewrite length_app in Ha; simpl in Ha; lia).
    rewrite lookup_app_l in Ha by done. rewrite lookup_app_l in Hb by (destruct Hjc; lia).
    specialize (Hh j c ltac:(lia) I Hjc). rewrite worse_at_false in Hh. by apply Hh.
  - intros p c Hp Hc. apply worse_at_false. intros a b Ha _.
    apply lookup_lt_Some in Ha. rewrite length_app in Ha. simpl in Ha. destruct Hc; lia.
Qed.

(** The root is a worst element. *)
Lemma heap_root h j : strict_weak worse → heap_from 0 h → worse_at h j 0 = false.
Proof.
  intros Hw Hh. induction (lt_wf j) as [j _ IH]. destruct j as [|j].
  { apply worse_at_false. intros a b -> [= ->]. apply Hw. }
  assert (child (j / 2) (S j) ∧ j / 2 < S j) as [Hc Hlt].
  { unfold child. pose proof (Nat.div_mod_eq j 2). pose proof (Nat.mod_upper_bound j 2). lia. }
  specialize (IH _ Hlt). pose proof (Hh (j / 2) (S j) ltac:(lia) I Hc) as Hp.
  rewrite worse_at_false in IH, Hp |- *. intros a b Ha Hb.
  destruct (lookup_lt_is_Some_2 h (j / 2)) as [m Hm].
  { apply lookup_lt_Some in Ha. lia. }
  destruct Hw as (_ & _ & Hntr). apply (Hntr b m a); [by apply IH|by apply Hp].
Qed.

(** ** The selection keeps the best [topK] *)

Definition best_of (topK : Z) (hs out : list A) : Prop :=
  ∃ rest, hs ≡ₚ out ++ rest ∧ (∀ x y, x ∈ out → y ∈ rest → worse x y = false) ∧
    ((topK ≤ 0)%Z ∨ (Z.of_nat (length out) < topK)%Z → rest = []) ∧
    ((0 < topK)%Z → (Z.of_nat (length out) ≤ topK)%Z).

Lemma select_replace topK hs h root out' out :
  strict_weak worse → best_of topK hs (root :: out') → (Z.of_nat (length (root :: out')) = topK)%Z →
  worse h root = false → (∀ x, x ∈ out' → worse x root = false) →
  out ≡ₚ h :: out' → best_of topK (hs ++ [h]) out.
Proof.
  intros (Hirr & Htr & Hntr) (rest & Hp & Hb & Hfull & Hle) Hlen Hh Hroot Ho.
  exists (root :: rest). split_and!.
  - rewrite Hp, Ho. simpl. rewrite <-app_assoc. simpl. solve_Permutation.
  - intros x y. rewrite Ho, !elem_of_cons. intros Hx Hy.
    assert (worse x root = false) as Hxr by (destruct Hx as [->|Hx]; [done|by apply Hroot]).
    destruct Hy as [->|Hy]; [done|]. apply (Hntr y root x); [|done].
    apply Hb; [by left|done].
  - rewrite Ho. simpl in *. lia.
  - rewrite Ho. simpl in *. lia.
Qed.

(** Once a heap, the list holds [topK] elements and stays a heap. *)
Definition heap_state (topK : Z) (st : list A * bool) : Prop :=
  st.2 = true → heap_from 0 st.1 ∧ (0 < topK)%Z ∧ Z.of_nat (length st.1) = topK.

Lemma worse_at_root root l x :
  strict_weak worse → heap_from 0 (root :: l) → x ∈ l → worse x root = false.
Proof.
  intros Hw Hh [j Hj]%list_elem_of_lookup. pose proof (heap_root _ (S j) Hw Hh) as Hr.
  rewrite worse_at_false in Hr. by apply Hr.
Qed.

Lemma sifting_root h0 root l :
  heap_from 0 (root :: l) → sifting 0 (<[0 := h0]> (root :: l)) 0.
Proof.
  intros Hh. split.
  - intros j c _ Hj Hc. apply worse_at_false. intros x y.
    rewrite !list_lookup_insert_ne by (destruct Hc; lia). intros Hx Hy.
    specialize (Hh j c ltac:(lia) I Hc). rewrite worse_at_false in Hh. by apply Hh.
  - intros p c _ Hc. destruct Hc; lia.
Qed.

Lemma select_step_ok topK hs st h :
  strict_weak worse → best_of topK hs st.1 → heap_state topK st →
  best_of topK (hs ++ [h]) (select_step topK st h).1 ∧ heap_state topK (select_step topK st h).
Proof.
  intros Hw Hbest Hheap. destruct st as [out heaped]. unfold heap_state in *. simpl in *. unfold select_step.
  destruct ((topK <=? 0)%Z || (Z.of_nat (length out) <? topK)%Z) eqn:Hroom; simpl.
  { destruct Hbest as (rest & Hp & Hb & Hfull & Hle). rewrite Hfull in * by lia. clear rest Hfull.
    split; [|intros ->; destruct Hheap as (? & ? & ?); [done|lia]].
    exists []. rewrite app_nil_r in *. split_and!; [by rewrite Hp|set_solver|done|].
    rewrite length_app. simpl. lia. }
  set (out1 := if heaped then out else heapifyWorst out).
  assert (heap_from 0 out1 ∧ out1 ≡ₚ out) as [Hh1 Hp1].
  { destruct heaped; simpl; [by split; [apply Hheap|]|].
    split; [by apply heapify_heap|apply heapify_perm]. }
  assert (best_of topK hs out1) as Hbest1.
  { destruct Hbest as (rest & Hp & Hb & Hf). exists rest. rewrite Hp1.
    split; [done|split; [|done]]. intros x y. rewrite Hp1. apply Hb. }
  assert (Z.of_nat (length out1) = topK) as Hlen.
  { rewrite Hp1. destruct Hbest as (? & ? & ? & ? & ?). lia. }
  clearbody out1. destruct out1 as [|root l]; [simpl in *; lia|].
  pose proof (λ x, worse_at_root root l x Hw Hh1) as Hroot.
  destruct (worse h root) eqn:Hhr; simpl.
  - split; [|intros _; simpl in *; split_and!; [done|lia|done]].
    destruct Hbest1 as (rest & Hp & Hb & Hfull & Hle). exists (h :: rest). split_and!.
    + rewrite Hp, <-app_assoc. f_equiv. by rewrite Permutation_app_comm.
    + destruct Hw as (Hirr & Htr & Hntr). intros x y Hx [->|Hy]%elem_of_cons; [|by apply Hb].
      assert (worse x root = false) as Hxr.
      { apply elem_of_cons in Hx as [->|Hx]; [done|by apply Hroot]. }
      destruct (worse x h) eqn:Hxh; [|done].
      rewrite <-Hxr. symmetry. apply Is_true_true. apply (Htr x h root); by rewrite Is_true_true.
    + lia.
    + done.
  - assert (siftWorst (h :: l) 0 ≡ₚ h :: l) as Hps by apply sift_perm.
    split; [by eapply select_replace|]. intros _. split_and!.
    + apply siftWorst_heap; [done|done|by apply (sifting_root h root)].
    + simpl in *. lia.
    + rewrite Hps. exact Hlen.
Qed.

(** ** The heap kept bounded by eviction *)

Lemma pop_root_ok root l :
  strict_weak worse → heap_from 0 (root :: l) →
  (pop_root (root :: l)).2 = Some root ∧ heap_from 0 (pop_root (root :: l)).1 ∧ (pop_root (root :: l)).1 ≡ₚ l.
Proof.
  intros Hw Hh. unfold pop_root. set (h := root :: l). set (lst := length h - 1).
  assert (lst = length l) as Hlst by (unfold lst, h; simpl; lia).
  destruct (decide (l = [])) as [->|Hne].
  { simpl in Hlst. rewrite Hlst. simpl. split_and!; [done| |by unfold siftWorst].
    intros i c _ _ _. apply worse_at_false. by intros x y ?%lookup_lt_Some. }
  assert (0 < lst) as Hpos by (rewrite Hlst; destruct l; [done|simpl; lia]).
  assert (lst < length h) as Hlt by (unfold h; simpl; lia). assert (0 < length h) as H0 by lia.
  assert (swap h 0 lst !! lst = Some root) as Hlast.
  { rewrite lookup_swap by lia. rewrite decide_False by lia. by rewrite decide_True by done. }
  assert (take lst (swap h 0 lst) ++ [root] = swap h 0 lst) as Htake.
  { rewrite <-(take_drop_middle (swap h 0 lst) lst root) at 2 by done. f_equal.
    rewrite drop_ge; [done|]. rewrite swap_length. unfold h. simpl. lia. }
  split_and!; [done| |].
  - apply siftWorst_heap; [done|lia|]. split; [|intros p c _ Hp; destruct Hp; lia].
    intros j c _ Hj Hc. apply worse_at_false. intros x y Hx Hy.
    apply lookup_take_Some in Hx as [Hx Hcl], Hy as [Hy Hjl].
    rewrite lookup_swap in Hx, Hy by lia.
    rewrite !decide_False in Hx by (destruct Hc; lia). rewrite !decide_False in Hy by lia.
    specialize (Hh j c ltac:(lia) I Hc). rewrite worse_at_false in Hh. by apply Hh.
  - cbn [fst]. unfold siftWorst. rewrite sift_perm. apply (Permutation_cons_inv (a:=root)).
    rewrite (Permutation_cons_append (take _ _)), Htake, swap_perm by lia. done.
Qed.

Lemma push_bounded_ok topK hs h x :
  strict_weak worse → best_of topK hs h → heap_from 0 h →
  let r := push_bounded topK h x in
  best_of topK (hs ++ [x]) r.1 ∧ heap_from 0 r.1 ∧ h ++ [x] ≡ₚ r.1 ++ option_list r.2.
Proof.
  intros Hw (rest & Hp & Hb & Hfull & Hle) Hh. unfold push_bounded. set (h1 := rise _ _ _).
  assert (h1 ≡ₚ h ++ [x]) as Hp1 by apply rise_perm.
  assert (heap_from 0 h1) as Hh1.
  { apply rise_heap; [done|lia|rewrite length_app; simpl; lia|by apply rising_snoc]. }
  assert (length h1 = S (length h)) as Hlen by (rewrite Hp1, length_app; simpl; lia). clearbody h1.
  destruct ((0 <? topK)%Z && (topK <? Z.of_nat (length h1))%Z) eqn:Hover; cbv zeta; cbn [fst snd].
  - destruct h1 as [|root l]; [done|]. destruct (pop_root_ok root l Hw Hh1) as (H2 & H3 & H4). rewrite H2.
    split_and!; [|done|rewrite H4, <-Hp1; simpl; by rewrite <-Permutation_cons_append].
    assert (∀ y, y ∈ root :: l → worse y root = false) as Hroot.
    { intros y [->|Hy]%elem_of_cons; [apply Hw|by eapply worse_at_root]. }
    assert (∀ y z, y ∈ l → z ∈ rest → worse y z = false) as Hl.
    { intros y z Hy Hz. assert (root ∈ h ++ [x]) as Hr by (rewrite <-Hp1; by left).
      apply elem_of_app in Hr as [Hr| ->%list_elem_of_singleton].
      - assert (y ∈ h ++ [x]) as Hy' by (rewrite <-Hp1; by right).
        apply elem_of_app in Hy' as [Hy'| ->%list_elem_of_singleton]; [by apply Hb|].
        destruct Hw as (_ & _ & Hntr). apply (Hntr z root x); [by apply Hb|apply Hroot; by right].
      - apply Hb; [|done]. rewrite <-Permutation_cons_append in Hp1. apply Permutation_cons_inv in Hp1. by rewrite <-Hp1. }
    exists (root :: rest). split_and!.
    + rewrite Hp, H4. transitivity ((h ++ [x]) ++ rest); [solve_Permutation|]. rewrite <-Hp1. solve_Permutation.
    + intros y z. rewrite H4. intros Hy [->|Hz]%elem_of_cons; [apply Hroot; by right|by apply Hl].
    + rewrite H4. simpl in *. lia.
    + rewrite H4. simpl in *. lia.
  - split_and!; [|done|by rewrite Hp1, app_nil_r].
    destruct (Z.ltb_spec 0 topK); simpl in Hover.
    + rewrite Hfull in * by lia. exists []. rewrite app_nil_r in *.
      split_and!; [by rewrite Hp, Hp1|by intros y z _ ?%elem_of_nil|done|lia].
    + rewrite Hfull in * by lia. exists []. rewrite app_nil_r in *.
      split_and!; [by rewrite Hp, Hp1|by intros y z _ ?%elem_of_nil|done|lia].
Qed.

(** An element no kept one is worse than may be dropped by a full selection. *)
Lemma best_of_skip topK hs h x :
  best_of topK hs h → (0 < topK)%Z → (topK ≤ Z.of_nat (length h))%Z → (∀ y, y ∈ h → worse y x = false) →
  best_of topK (hs ++ [x]) h.
Proof.
  intros (rest & Hp & Hb & Hfull & Hle) Hk Hlen Hx. exists (x :: rest). split_and!.
  - rewrite Hp. solve_Permutation.
  - intros y z Hy [->|Hz]%elem_of_cons; [by apply Hx|by apply Hb].
  - lia.
  - done.
Qed.

(** Whatever the order, a selection only holds what it was given. *)
Lemma select_step_sub topK st h x : x ∈ (select_step topK st h).1 → x = h ∨ x ∈ st.1.
Proof.
  unfold select_step. destruct st as [out heaped]. destruct (_ || _).
  { simpl. rewrite elem_of_app, list_elem_of_singleton. tauto. }
  simpl. set (out1 := if heaped then out else heapifyWorst out).
  assert (out1 ≡ₚ out) as Hp by (unfold out1; destruct heaped; [done|apply heapify_perm]).
  clearbody out1. destruct out1 as [|root l]; simpl; [rewrite <-Hp; auto|].
  destruct (worse h root); simpl; [rewrite <-Hp; auto|].
  unfold siftWorst. rewrite sift_perm, elem_of_cons, <-Hp, elem_of_cons. tauto.
Qed.

Lemma select_ok topK hs : strict_weak worse → best_of topK hs (select topK hs).
Proof.
  intros Hw. unfold select.
  assert (∀ l st pre, best_of topK pre st.1 → heap_state topK st →
    best_of topK (pre ++ l) (foldl (select_step topK) st l).1) as H.
  { induction l as [|h l IH]; intros st pre Hb Hs; simpl; [by rewrite app_nil_r|].
    destruct (select_step_ok topK pre st h) as [? ?]; [done..|].
    rewrite (cons_middle h pre l), app_assoc. by apply IH. }
  apply (H hs ([], false) []); [|done]. exists []. simpl. split_and!; [done|set_solver|done|lia].
Qed.
End heap.

(** The elements a bounded selection returns once sorted. *)
Definition take_top {A} (topK : Z) (l : list A) : list A :=
  if (topK <=? 0)%Z then l else take (Z.to_nat topK) l.

Lemma take_top_nil {A} topK : take_top topK ([] : list A) = [].
Proof. unfold take_top. destruct (topK <=? 0)%Z; by rewrite ?take_nil. Qed.

(** A bounded selection, sorted best first, is the prefix of the sorted whole,
    whenever the order tells the elements apart. *)
Lemma best_of_sorted {A} (worse : A → A → bool) topK hs out s1 s2 :
  let better a b := worse b a in
  strict_weak worse → best_of worse topK hs out →
  (∀ x y, x ∈ hs → y ∈ hs → worse x y = false → worse y x = false → x = y) →
  s1 ≡ₚ out → StronglySorted (λ a b, better b a = false) s1 →
  s2 ≡ₚ hs → StronglySorted (λ a b, better b a = false) s2 →
  s1 = take_top topK s2.
Proof.
  intros better Hw (rest & Hp & Hb & Hfull & Hle) Htot Hs1 Hsort1 Hs2 Hsort2. unfold better in *.
  set (sr := sort_stable (λ a b, worse b a) rest).
  assert (strict_weak (λ a b, worse b a)) as Hw'.
  { destruct Hw as (Hirr & Htr & Hntr). split_and!; [done|eauto|].
    intros a b c Hab Hbc. by eapply (Hntr c b a). }
  assert (s2 = s1 ++ sr) as ->.
  { eapply (StronglySorted_unique_strong (λ a b, worse a b = false)); [|done| |].
    - intros x y Hx Hy Hxy Hyx. apply Htot; [by rewrite <-Hs2| |done|done].
      rewrite Hp. unfold sr in Hy. by rewrite sort_stable_perm, Hs1 in Hy.
    - apply StronglySorted_app_2; [|done|by apply sort_stable_sorted].
      intros x y. unfold sr. rewrite Hs1, sort_stable_perm. apply Hb.
    - unfold sr. by rewrite sort_stable_perm, Hs1, Hs2. }
  unfold take_top. destruct (Z.leb_spec topK 0).
  { unfold sr. rewrite Hfull by lia. by rewrite app_nil_r. }
  assert (length s1 = length out) as Hl by (by rewrite Hs1).
  destruct (decide (Z.of_nat (length out) < topK)%Z).
  - unfold sr. rewrite Hfull by lia. simpl. rewrite app_nil_r. by rewrite take_ge by lia.
  - rewrite take_app_length' by lia. done.
Qed.
