(* ===== verification/Score.v ===== *)
(** The floating-point operations the scoring code of [engine/ngram] uses, as an
    interface, with two implementations: exact rational arithmetic, for the
    properties of the algorithm, and IEEE 754 binary64/binary32 with rounding
    to nearest even, for the behaviour of the program.  [math.Log] is an argument
    of both.  [FloatOrder] is what ranking relies on: the values that are not NaN are
    ordered by their comparison. *)

From Stdlib Require Import QArith Qround Lqa SpecFloat.
From S2P Require Import Prelude.

Class FloatOps := {
  F64 : Type;
  F32 : Type;
  f_of_N : N → F64;                       (* float64(n) of an unsigned integer *)
  f_log : F64 → F64;                      (* math.Log *)
  f_add : F64 → F64 → F64;
  f_sub : F64 → F64 → F64;
  f_mul : F64 → F64 → F64;
  f_div : F64 → F64 → F64;
  f_ltb : F64 → F64 → bool;
  f_eqb : F64 → F64 → bool;
  f_round : F64 → F64;                    (* math.Round *)
  to_f32 : F64 → F32;                     (* float32(x) *)
  of_f32 : F32 → F64;                     (* float64(x) *)
  f32_zero : F32;
  f32_add : F32 → F32 → F32;
  f32_is0 : F32 → bool;                   (* x == 0 *)
  f32_is0_zero : f32_is0 f32_zero = true;
}.

(** ** Exact arithmetic *)

(** Round half away from zero. *)
Definition q_round (q : Q) : Q :=
  if Qle_bool 0 q then inject_Z (Qfloor (q + (1 # 2)))
  else inject_Z (- Qfloor (- q + (1 # 2))).
Definition q_ltb (a b : Q) : bool := negb (Qle_bool b a).

Definition exact_ops (lg : Q → Q) : FloatOps := {|
  F64 := Q;
  F32 := Q;
  f_of_N := λ n, inject_Z (Z.of_N n);
  f_log := lg;
  f_add := Qplus;
  f_sub := Qminus;
  f_mul := Qmult;
  f_div := Qdiv;
  f_ltb := q_ltb;
  f_eqb := Qeq_bool;
  f_round := q_round;
  to_f32 := λ x, x;
  of_f32 := λ x, x;
  f32_zero := 0%Q;
  f32_add := Qplus;
  f32_is0 := λ x, Qeq_bool x 0;
  f32_is0_zero := eq_refl;
|}.

Lemma q_ltb_true a b : q_ltb a b = true ↔ (a < b)%Q.
Proof.
  unfold q_ltb. rewrite negb_true_iff, <-not_true_iff_false, Qle_bool_iff.
  split; [apply Qnot_le_lt|apply Qlt_not_le].
Qed.
Lemma q_ltb_false a b : q_ltb a b = false ↔ (b <= a)%Q.
Proof. unfold q_ltb. by rewrite negb_false_iff, Qle_bool_iff. Qed.
Lemma qeq_bool_false a b : Qeq_bool a b = false ↔ ¬ (a == b)%Q.
Proof. by rewrite <-not_true_iff_false, Qeq_bool_iff. Qed.

(** Rounding yields one representative of each value. *)
Lemma q_round_eq a b : (a == b)%Q → q_round a = q_round b.
Proof.
  intros Hab. unfold q_round. replace (Qle_bool 0 b) with (Qle_bool 0 a) by by rewrite Hab.
  destruct (Qle_bool 0 a); f_equal; [|f_equal]; apply Qfloor_comp; by rewrite Hab.
Qed.

(** ** IEEE 754 *)

Definition sf_of_Z (prec emax : Z) (n : Z) : spec_float := binary_normalize prec emax n 0 false.

(** Conversion between formats: exact when widening, rounded when narrowing. *)
Definition sf_convert (prec emax : Z) (x : spec_float) : spec_float :=
  match x with
  | S754_finite s m e => binary_normalize prec emax (cond_Zopp s (Zpos m)) e s
  | _ => x
  end.

(** [math.Round] on a finite number below the integer range of the format. *)
Definition sf_round (prec emax : Z) (x : spec_float) : spec_float :=
  match x with
  | S754_finite s m e =>
      if (0 <=? e)%Z then x
      else binary_normalize prec emax (cond_Zopp s ((Zpos m + 2 ^ (- e - 1)) / 2 ^ (- e))%Z) 0 s
  | _ => x
  end.

Definition ieee_ops (lg : spec_float → spec_float) : FloatOps := {|
  F64 := spec_float;
  F32 := spec_float;
  f_of_N := λ n, sf_of_Z 53 1024 (Z.of_N n);
  f_log := lg;
  f_add := SFadd 53 1024;
  f_sub := SFsub 53 1024;
  f_mul := SFmul 53 1024;
  f_div := SFdiv 53 1024;
  f_ltb := SFltb;
  f_eqb := SFeqb;
  f_round := sf_round 53 1024;
  to_f32 := sf_convert 24 128;
  of_f32 := sf_convert 53 1024;
  f32_zero := S754_zero false;
  f32_add := SFadd 24 128;
  f32_is0 := λ x, SFeqb x (S754_zero false);
  f32_is0_zero := eq_refl;
|}.

(** The binary64 number nearest to the natural logarithm of 7,
    8763600222181975 / 2^52. *)
Definition log_7 : spec_float := S754_finite false 8763600222181975 (-52).

(** ** Order

    The comparison of scores orders the values that are not NaN; with a NaN it is not
    even a weak order, so what is said about ranking asks for scores that are numbers. *)
Class FloatOrder (FO : FloatOps) := {
  f_num : F64 → bool;
  f_ltb_irrefl : ∀ x, f_num x = true → f_ltb x x = false;
  f_ltb_trans : ∀ x y z, f_num x = true → f_num y = true → f_num z = true →
    f_ltb x y = true → f_ltb y z = true → f_ltb x z = true;
  f_ltb_cotrans : ∀ x y z, f_num x = true → f_num y = true → f_num z = true →
    f_ltb x z = true → f_ltb x y = true ∨ f_ltb y z = true;
  f_eqb_ltb : ∀ x y, f_num x = true → f_num y = true → f_eqb x y = negb (f_ltb x y) && negb (f_ltb y x);
}.

#[export] Instance exact_order lg : FloatOrder (exact_ops lg).
Proof.
  refine {| f_num := λ _ : @F64 (exact_ops lg), true |}; cbn.
  - intros x _. by apply q_ltb_false, Qle_refl.
  - intros x y z _ _ _. rewrite !q_ltb_true. apply Qlt_trans.
  - intros x y z _ _ _. rewrite !q_ltb_true. intros H. destruct (Qlt_le_dec x y) as [|Hle]; [by left|right].
    by eapply Qle_lt_trans.
  - intros x y _ _. destruct (q_ltb x y) eqn:H1; [|destruct (q_ltb y x) eqn:H2]; cbn.
    + apply qeq_bool_false. apply q_ltb_true in H1. intros E. rewrite E in H1. by apply Qlt_irrefl in H1.
    + apply qeq_bool_false. apply q_ltb_true in H2. intros E. rewrite E in H2. by apply Qlt_irrefl in H2.
    + apply Qeq_bool_iff. apply q_ltb_false in H1, H2. by apply Qle_antisym.
Defined.

(** A number of the format by its class, then its exponent, then its mantissa. *)
Definition sf_key (x : spec_float) : Z * Z * Z :=
  match x with
  | S754_infinity s => (if s then -2 else 2, 0, 0)%Z
  | S754_zero _ => (0, 0, 0)%Z
  | S754_finite s m e => if s then (-1, - e, - Zpos m)%Z else (1, e, Zpos m)%Z
  | S754_nan => (0, 0, 0)%Z
  end.
Definition key_compare (a b : Z * Z * Z) : comparison :=
  match (a.1.1 ?= b.1.1)%Z with
  | Eq => match (a.1.2 ?= b.1.2)%Z with Eq => (a.2 ?= b.2)%Z | c => c end
  | c => c
  end.
Definition sf_num (x : spec_float) : bool := match x with S754_nan => false | _ => true end.

Lemma sf_compare_key x y : sf_num x = true → sf_num y = true → SFcompare x y = Some (key_compare (sf_key x) (sf_key y)).
Proof.
  destruct x as [sx|sx| |sx mx ex], y as [sy|sy| |sy my ey]; try done; intros _ _; try (by destruct sx, sy); try (by destruct sx); try (by destruct sy).
  cbn [SFcompare sf_key]. destruct sx, sy; try done; unfold key_compare; cbn [fst snd].
  { change (Z.neg 1 ?= Z.neg 1)%Z with Eq. cbv iota. change (Pos.compare_cont Eq mx my) with (Pos.compare mx my). f_equal.
    destruct (Z.compare_spec ex ey), (Z.compare_spec (- ex) (- ey)); try done; lia. }
Qed.
Lemma key_compare_lt a b : key_compare a b = Lt ↔
  (a.1.1 < b.1.1 ∨ a.1.1 = b.1.1 ∧ (a.1.2 < b.1.2 ∨ a.1.2 = b.1.2 ∧ a.2 < b.2))%Z.
Proof.
  unfold key_compare. destruct (Z.compare_spec a.1.1 b.1.1) as [->| |]; [|split; [by left|done]|split; [done|lia]].
  destruct (Z.compare_spec a.1.2 b.1.2) as [->| |]; [|split; [auto|done]|split; [done|lia]].
  destruct (Z.compare_spec a.2 b.2) as [->| |]; split; (done || lia || auto).
Qed.
Lemma key_compare_eq a b : key_compare a b = Eq ↔ a = b.
Proof.
  destruct a as [[a1 a2] a3], b as [[b1 b2] b3]. unfold key_compare. cbn.
  destruct (Z.compare_spec a1 b1); [|split; [done|intros [=]; lia]..].
  destruct (Z.compare_spec a2 b2); [|split; [done|intros [=]; lia]..].
  destruct (Z.compare_spec a3 b3); split; try done; intros; subst; (done || simplify_eq; lia).
Qed.
Lemma sf_ltb_key x y : sf_num x = true → sf_num y = true → SFltb x y = true ↔ key_compare (sf_key x) (sf_key y) = Lt.
Proof. intros Hx Hy. unfold SFltb. rewrite sf_compare_key by done. by destruct (key_compare _ _). Qed.

#[export] Instance ieee_order lg : FloatOrder (ieee_ops lg).
Proof.
  refine {| f_num := (sf_num : @F64 (ieee_ops lg) → bool) |}; cbn.
  - intros x Hx. apply not_true_iff_false. rewrite sf_ltb_key, key_compare_lt by done. lia.
  - intros x y z Hx Hy Hz. rewrite !sf_ltb_key, !key_compare_lt by done. lia.
  - intros x y z Hx Hy Hz. rewrite !sf_ltb_key, !key_compare_lt by done. lia.
  - intros x y Hx Hy. unfold SFeqb. rewrite sf_compare_key by done.
    destruct (SFltb x y) eqn:H1; [|destruct (SFltb y x) eqn:H2]; cbn.
    + apply sf_ltb_key in H1; [|done..]. by rewrite H1.
    + apply sf_ltb_key in H2; [|done..]. apply key_compare_lt in H2. destruct (key_compare _ _) eqn:E; try done.
      apply key_compare_eq in E. rewrite E in H2. lia.
    + apply not_true_iff_false in H1, H2. rewrite sf_ltb_key, key_compare_lt in H1, H2 by done. destruct (key_compare _ _) eqn:E; try done.
      * apply key_compare_lt in E. tauto.
      * destruct (sf_key x) as [[a1 a2] a3], (sf_key y) as [[b1 b2] b3]. unfold key_compare in E. cbn in *.
        destruct (Z.compare_spec a1 b1), (Z.compare_spec a2 b2), (Z.compare_spec a3 b3); try done; lia.
Defined.
