(* ===== verification/Bitmap.v ===== *)
(** The roaring bitmaps of github.com/RoaringBitmap/roaring, as far as the
    engine uses them: a set of uint32 ordinals iterated in ascending order.  The
    library is not part of the repository, so it is an interface with the
    documented behaviour as its laws, and a set-based instance.  The laws are those of
    a bitmap with a sound structure, as [New] and [Add] build it; one read from bytes
    nobody checked need not have it ([Artifact.v]). *)

From S2P Require Import Prelude.
From S2P Require Import Runtime.

Class BitmapLib := {
  Bitmap : Type;
  bm_new : Bitmap;                   (* roaring.New() *)
  bm_add : Bitmap → N → Bitmap;      (* b.Add(x) *)
  bm_card : Bitmap → N;              (* b.GetCardinality() *)
  bm_max : Bitmap → N;               (* b.Maximum(), on a non-empty bitmap *)
  bm_contains : Bitmap → N → bool;   (* b.Contains(x) *)
  bm_elems : Bitmap → list N;        (* the ordinals of b.Iterator()/ManyIterator() *)
  bm_sound : Bitmap → Prop;          (* containers sorted, without empty ones, counted right *)
  bm_new_sound : bm_sound bm_new;
  bm_add_sound : ∀ b x, bm_sound b → bm_sound (bm_add b x);
  bm_new_elems : bm_elems bm_new = [];
  bm_add_elems : ∀ b x y, bm_sound b → y ∈ bm_elems (bm_add b x) ↔ y = u32 x ∨ y ∈ bm_elems b;
  bm_elems_sorted : ∀ b, bm_sound b → StronglySorted N.lt (bm_elems b);
  bm_elems_u32 : ∀ b x, bm_sound b → x ∈ bm_elems b → (x < 2 ^ 32)%N;
  bm_card_elems : ∀ b, bm_sound b → bm_card b = N.of_nat (length (bm_elems b));
  bm_max_elems : ∀ b, bm_sound b → bm_elems b ≠ [] → bm_max b ∈ bm_elems b ∧ ∀ x, x ∈ bm_elems b → (x <= bm_max b)%N;
  bm_contains_elems : ∀ b x, bm_sound b → bm_contains b x = true ↔ x ∈ bm_elems b;
}.

Section laws.
Context `{BitmapLib}.

Lemma bm_elems_nodup b : bm_sound b → NoDup (bm_elems b).
Proof.
  intros Hb. pose proof (bm_elems_sorted b Hb) as Hs. induction Hs as [|x l Hl IH Hx]; constructor; [|done].
  intros Hin. rewrite Forall_forall in Hx. specialize (Hx _ Hin). lia.
Qed.

Lemma bm_card_zero b : bm_sound b → bm_card b = 0%N ↔ bm_elems b = [].
Proof. intros Hb. rewrite bm_card_elems by done. destruct (bm_elems b); simpl; split; done || lia. Qed.
End laws.

(** ** The instance on [gset N] *)

Fixpoint insert_asc (x : N) (l : list N) : list N :=
  match l with
  | [] => [x]
  | y :: l' =>
      if (x <? y)%N then x :: l
      else if (x =? y)%N then l
      else y :: insert_asc x l'
  end.

Lemma insert_asc_elem x l y : y ∈ insert_asc x l ↔ y = x ∨ y ∈ l.
Proof.
  induction l as [|z l IH]; simpl; [set_solver|].
  destruct (x <? z)%N; [set_solver|]. destruct (N.eqb_spec x z); set_solver.
Qed.

Lemma insert_asc_sorted x l : StronglySorted N.lt l → StronglySorted N.lt (insert_asc x l).
Proof.
  induction 1 as [|z l Hl IH Hz]; simpl; [repeat constructor|].
  destruct (N.ltb_spec x z).
  - constructor; [by constructor|]. constructor; [done|].
    eapply Forall_impl; [exact Hz|]. simpl. lia.
  - destruct (N.eqb_spec x z); [by constructor|]. constructor; [done|].
    apply Forall_forall. intros y [->|Hy]%insert_asc_elem; [lia|].
    rewrite Forall_forall in Hz. by apply Hz.
Qed.

(** Bitmaps as ascending lists of uint32 values. *)
Definition asc_ok (l : list N) : bool :=
  bool_decide (StronglySorted N.lt l) && forallb (λ x, (x <? 2 ^ 32)%N) l.

Lemma asc_ok_spec l : asc_ok l ↔ StronglySorted N.lt l ∧ ∀ x, x ∈ l → (x < 2 ^ 32)%N.
Proof.
  unfold asc_ok. rewrite andb_True, bool_decide_spec. f_equiv.
  rewrite <-Forall_forall, Is_true_true, forallb_forall. setoid_rewrite N.ltb_lt.
  rewrite Forall_forall. by setoid_rewrite <-list_elem_of_In.
Qed.

Definition SetBitmap : Type := { l : list N | asc_ok l }.

Definition set_bitmap_new : SetBitmap := [] ↾ I.
Program Definition set_bitmap_add (b : SetBitmap) (x : N) : SetBitmap :=
  insert_asc (u32 x) (proj1_sig b) ↾ _.
Next Obligation.
  intros [l Hl] x. destruct (proj1 (asc_ok_spec l) Hl) as [Hs Hb]. apply asc_ok_spec. simpl.
  split; [by apply insert_asc_sorted|]. intros y [->|Hy]%insert_asc_elem; [apply u32_lt|by apply Hb].
Qed.

Lemma last_sorted_max l d : StronglySorted N.lt l → l ≠ [] → List.last l d ∈ l ∧ ∀ x, x ∈ l → (x <= List.last l d)%N.
Proof.
  induction 1 as [|z l Hl IH Hz]; [done|]. intros _. destruct l as [|y l].
  { simpl. split; [set_solver|]. intros x Hx. set_solver. }
  destruct IH as [Hin Hmax]; [done|]. change (List.last (z :: y :: l) d) with (List.last (y :: l) d).
  split; [by right|]. intros x [->|Hx]%elem_of_cons; [|by apply Hmax].
  rewrite Forall_forall in Hz. specialize (Hz _ Hin). lia.
Qed.

Program Definition set_bitmap : BitmapLib := {|
  Bitmap := SetBitmap;
  bm_new := set_bitmap_new;
  bm_add := set_bitmap_add;
  bm_card := λ b, N.of_nat (length (proj1_sig b));
  bm_max := λ b, List.last (proj1_sig b) 0%N;
  bm_contains := λ b x, bool_decide (x ∈ proj1_sig b);
  bm_elems := λ b, proj1_sig b;
  bm_sound := λ _, True;
|}.
Next Obligation. done. Qed.
Next Obligation. done. Qed.
Next Obligation. done. Qed.
Next Obligation. intros [l Hl] x y _. simpl. apply insert_asc_elem. Qed.
Next Obligation. intros [l Hl] _. simpl. by apply asc_ok_spec. Qed.
Next Obligation. intros [l Hl] x _. simpl. by apply asc_ok_spec. Qed.
Next Obligation. done. Qed.
Next Obligation. intros [l Hl] _ Hne. apply last_sorted_max; [|done]. by apply asc_ok_spec. Qed.
Next Obligation. intros [l Hl] x _. simpl. by rewrite bool_decide_eq_true. Qed.
