(* ===== verification/Ngram.v ===== *)
(** [engine/ngram/ngram.go]: the character-n-gram index.

    [Builder]/[Add]/[Finish] and [Restore] build an [Index]; [lookup] is the
    IDF-weighted pigeonhole scan with its pooled scratch memory, cooperative
    cancellation and bounded collection.  The Go map iterations and the unstable
    [sort.Slice] are those of the [GoRuntime]; bitmaps are a [BitmapLib] and
    floating point a [FloatOps]. *)

From S2P Require Import Prelude.
From S2P Require Import Runtime.
From S2P Require Import Strings.
From S2P Require Import Grams.
From S2P Require Import Heap.
From S2P Require Import Score.
From S2P Require Import Bitmap.

Record Config := mkConfig { Grams : list Z; StripSpaces : bool }.

Definition MaxGramSize : Z := 16.

(** The string that is cut into grams. *)
Definition gram_source (cfg : Config) (analyzed : bytes) : bytes :=
  if StripSpaces cfg then remove_byte c_space analyzed else analyzed.

Definition gram_sizes (cfg : Config) : list nat := Z.to_nat <$> Grams cfg.

(** How a scan ends: with a value, canceled, or with a run-time panic. *)
Inductive run (A : Type) :=
  | Done (a : A)
  | Canceled
  | Panicked.
Arguments Done {A} a.
Arguments Canceled {A}.
Arguments Panicked {A}.

Section ngram.
Context {RT : GoRuntime} {BL : BitmapLib} {FO : FloatOps}.

Record Index := mkIndex { cfg : Config; postings : gmap bytes Bitmap; numOrds : N }.

(** [b_idx = None] is the builder after [Finish]. *)
Record Builder := mkBuilder { b_idx : option Index; b_gset : gmap bytes () }.

(** ** Building *)

(** [None]: the panic on a gram size below 1. *)
Definition NewBuilder (c : Config) : option Builder :=
  if forallb (λ n, 1 <=? n)%Z (Grams c) then Some (mkBuilder (Some (mkIndex c ∅ 0)) ∅) else None.

Definition grams (i : Index) (analyzed : bytes) : list bytes :=
  let s := gram_source (cfg i) analyzed in
  if bool_decide (s = []) then [] else gram_sizes (cfg i) ≫= CharGrams s.

Definition addGram (i : Index) (ord : N) (g : bytes) : Index :=
  let bm := default bm_new (postings i !! g) in
  mkIndex (cfg i) (<[g := bm_add bm ord]> (postings i)) (numOrds i).

(** [None]: the nil dereference of an Add after Finish. *)
Definition Add (b : Builder) (ord : N) (analyzedKeys : list bytes) : option Builder :=
  i ← b_idx b;
  match analyzedKeys with
  | [k] => Some (mkBuilder (Some (foldl (λ i g, addGram i ord g) i (grams i k))) (b_gset b))
  | _ =>
      let gset := foldl (λ m g, <[g := ()]> m) (∅ : gmap bytes ()) (analyzedKeys ≫= grams i) in
      Some (mkBuilder (Some (foldl (λ i g, addGram i ord g) i (range_map 0 gset).*1)) gset)
  end.

Definition finish_step (st : N * bool) (bm : Bitmap) : N * bool :=
  let '(max, any) := st in
  if (0 <? bm_card bm)%N
  then (if (max <? bm_max bm)%N then bm_max bm else max, true)
  else (max, any).

Definition Finish (b : Builder) : option (Index * Builder) :=
  i ← b_idx b;
  let '(max, any) := foldl finish_step (0%N, false) (range_map 0 (postings i)).*2 in
  Some (mkIndex (cfg i) (postings i) (if any then u32 (max + 1) else numOrds i), mkBuilder None (b_gset b)).

Definition Stats (i : Index) : nat * nat := (N.to_nat (numOrds i), size (postings i)).

Inductive restore_error :=
  | NoGramSizes
  | GramSizeOutOfRange (g : Z)
  | NumOrdsTooSmall (numOrds max : N) (gram : bytes).

Fixpoint restore_sizes (gs : list Z) : result restore_error () :=
  match gs with
  | [] => Ok ()
  | g :: gs' =>
      if (g <? 1)%Z || (MaxGramSize <? g)%Z then Err (GramSizeOutOfRange g) else restore_sizes gs'
  end.

Fixpoint restore_postings (n : N) (ps : list (bytes * Bitmap)) : result restore_error () :=
  match ps with
  | [] => Ok ()
  | (g, bm) :: ps' =>
      if (bm_card bm =? 0)%N then restore_postings n ps'
      else if (n <=? bm_max bm)%N then Err (NumOrdsTooSmall n (bm_max bm) g)
      else restore_postings n ps'
  end.

Definition Restore (c : Config) (ps : gmap bytes Bitmap) (n : N) : result restore_error Index :=
  _ ← fail_if (bool_decide (Grams c = [])) NoGramSizes;
  _ ← restore_sizes (Grams c);
  _ ← restore_postings n (range_map 0 ps);
  Ok (mkIndex c ps n).

(** ** Scratch memory *)

(** The dense accumulator, the touched ordinals and the gram dedup set; the
    remaining fields of the Go struct are buffers rebuilt by each lookup. *)
Record scratch := mkScratch { counts : list F32; touched : list N; seen : gset bytes }.

Definition new_scratch (i : Index) : scratch :=
  mkScratch (replicate (N.to_nat (numOrds i)) f32_zero) [] ∅.

Definition getScratch (i : Index) (pool : option scratch) : scratch :=
  match pool with Some s => s | None => new_scratch i end.

Definition putScratch (s : scratch) : scratch :=
  mkScratch (foldl (λ c ord, <[N.to_nat ord := f32_zero]> c) (counts s) (touched s)) [] ∅.

(** ** Cancellation *)

Definition cancelCheckEvery : N := 4096.

(** [ctx.Done()]: nil for Background, otherwise the answer to the k-th poll. *)
Definition doneChan : Type := option (nat → bool).

(** The closure [canceled] and its counter, with the number of polls so far. *)
Definition canceled (done : doneChan) (st : N * nat) : bool * (N * nat) :=
  let '(since, k) := st in
  let since := (since + 1)%N in
  match done with
  | None => (false, (since, k))
  | Some poll => if (since <? cancelCheckEvery)%N then (false, (since, k)) else (poll k, (0%N, S k))
  end.

(** ** Lookup *)

Record Hit := mkHit { Ord : N; Score : F64 }.
Record gramInfo := mkGramInfo { gi_bm : Bitmap; gi_idf : F64; gi_card : N }.

Definition worseHit (a b : Hit) : bool :=
  if negb (f_eqb (Score a) (Score b)) then f_ltb (Score a) (Score b) else (Ord b <? Ord a)%N.

(** The EachGram callback: the postings of a gram known to the index. *)
Definition gram_info (i : Index) (g : bytes) : option gramInfo :=
  match postings i !! g with
  | None => None
  | Some bm =>
      let c := bm_card bm in
      if (c =? 0)%N then None
      else Some (mkGramInfo bm (f_log (f_add (f_of_N 1) (f_div (f_of_N (numOrds i)) (f_of_N c)))) c)
  end.

Definition sum_idf (l : list gramInfo) : F64 := foldl (λ acc g, f_add acc (gi_idf g)) (f_of_N 0) l.

(** The generators: the shortest prefix whose IDF mass exceeds [need]. *)
Fixpoint split_gens (need acc : F64) (gi : list gramInfo) : list gramInfo * list gramInfo :=
  match gi with
  | [] => ([], [])
  | g :: gi' =>
      let acc := f_add acc (gi_idf g) in
      if f_ltb need acc then ([g], gi')
      else let '(gens, probes) := split_gens need acc gi' in (g :: gens, probes)
  end.

(** One ordinal of a generator; [None] is the index-out-of-range panic. *)
Definition accumulate (w : F32) (ord : N) (sc : scratch) : option scratch :=
  v ← counts sc !! N.to_nat ord;
  Some (mkScratch (<[N.to_nat ord := f32_add v w]> (counts sc))
                  (if f32_is0 v then touched sc ++ [ord] else touched sc) (seen sc)).

(** The scan loops return the scratch too: the deferred putScratch runs on
    every exit. *)
Fixpoint scan_ords (done : doneChan) (w : F32) (ords : list N) (sc : scratch) (st : N * nat)
    : run (N * nat) * scratch :=
  match ords with
  | [] => (Done st, sc)
  | ord :: ords' =>
      let '(c, st) := canceled done st in
      if c then (Canceled, sc)
      else match accumulate w ord sc with
           | None => (Panicked, sc)
           | Some sc => scan_ords done w ords' sc st
           end
  end.

Fixpoint scan_gens (done : doneChan) (gens : list gramInfo) (sc : scratch) (st : N * nat)
    : run (N * nat) * scratch :=
  match gens with
  | [] => (Done st, sc)
  | g :: gens' =>
      match scan_ords done (to_f32 (gi_idf g)) (bm_elems (gi_bm g)) sc st with
      | (Done st, sc) => scan_gens done gens' sc st
      | r => r
      end
  end.

(** The probe loop of one candidate. *)
Fixpoint probe (floor : F64) (probes : list gramInfo) (ord : N) (score rem : F64) : F64 :=
  match probes with
  | [] => score
  | p :: probes' =>
      if f_ltb (f_add score rem) floor then score
      else probe floor probes' ord
             (if bm_contains (gi_bm p) ord then f_add score (gi_idf p) else score)
             (f_sub rem (gi_idf p))
  end.

Section collect.
Context (done : doneChan) (probes : list gramInfo) (floor maxScore totalProbe : F64).
Context (topK : Z) (keep : option (N → bool)) (cs : list F32).

Definition kept (ord : N) : bool := match keep with None => true | Some f => f ord end.

(** The hits, and the ordinals [keep] was called on, in order. *)
Fixpoint collect (ords : list N) (st : N * nat) (out : list Hit * bool) (asked : list N)
    : run (list Hit) * list N :=
  match ords with
  | [] => (Done out.1, asked)
  | ord :: ords' =>
      let '(c, st) := canceled done st in
      if c then (Canceled, asked)
      else match cs !! N.to_nat ord with
           | None => (Panicked, asked)
           | Some v =>
               let score := probe floor probes ord (of_f32 v) totalProbe in
               if f_ltb score floor then collect ords' st out asked
               else
                 let asked := asked ++ [ord] in
                 if negb (kept ord) then collect ords' st out asked
                 else
                   let h := mkHit ord (f_round (f_mul (f_div score maxScore) (f_of_N 100))) in
                   collect ords' st (select_step worseHit topK out h) asked
           end
  end.
End collect.

(** [lookup]: the hits, the scratch pool afterwards, and the ordinals [keep] was
    called on (without [keep], those it would have been called on).  A canceled
    lookup and one without hits both return nil in Go; [run] keeps them apart.
    The answers of [keep] must not depend on earlier calls; what else it does is a
    fold over the ordinals returned here. *)
Definition lookup (done : doneChan) (i : Index) (pool : option scratch) (analyzed : bytes)
    (threshold : F64) (topK : Z) (keep : option (N → bool)) : run (list Hit) * option scratch * list N :=
  if (numOrds i =? 0)%N then (Done [], pool, []) else
  let s := gram_source (cfg i) analyzed in
  if bool_decide (s = []) then (Done [], pool, []) else
  let sc := getScratch i pool in
  let '(gs, seen') := EachGram s (gram_sizes (cfg i)) (seen sc) in
  let sc := mkScratch (counts sc) (touched sc) seen' in
  let gi := omap (gram_info i) gs in
  let maxScore := sum_idf gi in
  if bool_decide (gi = []) || f_eqb maxScore (f_of_N 0) then (Done [], Some (putScratch sc), []) else
  let floor := f_mul threshold maxScore in
  let gi := sort_slice (λ a b, gi_card a <? gi_card b)%N gi in
  let '(gens, probes) := split_gens (f_sub maxScore floor) (f_of_N 0) gi in
  match scan_gens done gens sc (0%N, 0) with
  | (Done st, sc) =>
      let r := collect done probes floor maxScore (sum_idf probes) topK keep (counts sc)
                 (touched sc) st ([], false) [] in
      (match r.1 with
       | Done out => Done (sort_slice (λ a b, worseHit b a) out)
       | r => r
       end, Some (putScratch sc), r.2)
  | (Canceled, sc) => (Canceled, Some (putScratch sc), [])
  | (Panicked, sc) => (Panicked, Some (putScratch sc), [])
  end.

Definition Lookup (i : Index) (pool : option scratch) (analyzed : bytes) (threshold : F64) (topK : Z) :=
  lookup None i pool analyzed threshold topK None.
Definition LookupCtx (done : doneChan) (i : Index) (pool : option scratch) (analyzed : bytes)
    (threshold : F64) (topK : Z) :=
  lookup done i pool analyzed threshold topK None.
Definition LookupFilteredCtx (done : doneChan) (i : Index) (pool : option scratch) (analyzed : bytes)
    (threshold : F64) (topK : Z) (keep : N → bool) :=
  lookup done i pool analyzed threshold topK (Some keep).

(** ** What the builder stores *)

(** The ordinals posted under a gram. *)
Definition posted (ps : gmap bytes Bitmap) (g : bytes) : list N := from_option bm_elems [] (ps !! g).

(** The bitmaps are sound. *)
Definition sound_postings (ps : gmap bytes Bitmap) : Prop := ∀ g bm, ps !! g = Some bm → bm_sound bm.
(** They are, and every posted ordinal fits the dense accumulator. *)
Definition well_formed (i : Index) : Prop :=
  sound_postings (postings i) ∧ ∀ g x, x ∈ posted (postings i) g → (x < numOrds i)%N.

Lemma addGram_sound i ord g : sound_postings (postings i) → sound_postings (postings (addGram i ord g)).
Proof.
  intros Hs g' bm. unfold addGram. simpl. destruct (decide (g' = g)) as [->|Hne].
  - rewrite lookup_insert_eq. intros [= <-]. apply bm_add_sound.
    destruct (postings i !! g) eqn:E; simpl; [by eapply Hs|apply bm_new_sound].
  - rewrite lookup_insert_ne by done. apply Hs.
Qed.

Lemma addGram_posted i ord g g' x : sound_postings (postings i) →
  x ∈ posted (postings (addGram i ord g)) g' ↔ (g' = g ∧ x = u32 ord) ∨ x ∈ posted (postings i) g'.
Proof.
  intros Hs. unfold posted, addGram. simpl. destruct (decide (g' = g)) as [->|Hne].
  - rewrite lookup_insert_eq. simpl. destruct (postings i !! g) as [bm|] eqn:E; simpl.
    + rewrite bm_add_elems by by eapply Hs. set_solver.
    + rewrite bm_add_elems, bm_new_elems by apply bm_new_sound. set_solver.
  - rewrite lookup_insert_ne by done. set_solver.
Qed.

Lemma add_grams_posted i ord gs g' x :
  let i' := foldl (λ i g, addGram i ord g) i gs in sound_postings (postings i) →
  cfg i' = cfg i ∧ numOrds i' = numOrds i ∧ sound_postings (postings i') ∧
  (x ∈ posted (postings i') g' ↔ (g' ∈ gs ∧ x = u32 ord) ∨ x ∈ posted (postings i) g').
Proof.
  simpl. revert i. induction gs as [|g gs IH]; intros i Hs; simpl; [set_solver|].
  destruct (IH (addGram i ord g)) as (Hc & Hn & Hs' & Hx); [by apply addGram_sound|]. split_and!; [done|done|done|].
  rewrite Hx, addGram_posted by done. set_solver.
Qed.

Lemma gset_fold_keys (l : list bytes) (m : gmap bytes ()) g :
  g ∈ (range_map 0 (foldl (λ m g, <[g := ()]> m) m l)).*1 ↔ g ∈ l ∨ is_Some (m !! g).
Proof.
  rewrite list_elem_of_fmap. setoid_rewrite range_map_perm.
  revert m. induction l as [|x l IH]; intros m; simpl.
  - split.
    + intros ([y []] & -> & Hy%elem_of_map_to_list). right. by exists ().
    + intros [?|[[] Hm]]; [set_solver|]. exists (g, ()). by rewrite elem_of_map_to_list.
  - rewrite IH, lookup_insert_is_Some'. set_solver.
Qed.

(** The grams one Add posts. *)
Definition key_grams (c : Config) (keys : list bytes) (g : bytes) : Prop :=
  ∃ k, k ∈ keys ∧ gram_source c k ≠ [] ∧ ∃ n, n ∈ gram_sizes c ∧ g ∈ CharGrams (gram_source c k) n.

Lemma elem_of_grams i k g :
  g ∈ grams i k ↔
  gram_source (cfg i) k ≠ [] ∧ ∃ n, n ∈ gram_sizes (cfg i) ∧ g ∈ CharGrams (gram_source (cfg i) k) n.
Proof.
  unfold grams. case_bool_decide; [set_solver|]. rewrite list_elem_of_bind. naive_solver.
Qed.

Lemma add_posted b i ord keys :
  b_idx b = Some i → sound_postings (postings i) → ∃ i' gset, Add b ord keys = Some (mkBuilder (Some i') gset) ∧
    cfg i' = cfg i ∧ numOrds i' = numOrds i ∧ sound_postings (postings i') ∧
    ∀ g x, x ∈ posted (postings i') g ↔
      (key_grams (cfg i) keys g ∧ x = u32 ord) ∨ x ∈ posted (postings i) g.
Proof.
  intros Hb Hsd. unfold Add. rewrite Hb. simpl.
  set (gset := foldl _ (∅ : gmap bytes ()) (keys ≫= grams i)).
  assert (∀ gs, (∀ g, g ∈ gs ↔ key_grams (cfg i) keys g) →
    let i' := foldl (λ i g, addGram i ord g) i gs in
    cfg i' = cfg i ∧ numOrds i' = numOrds i ∧ sound_postings (postings i') ∧ ∀ g x, x ∈ posted (postings i') g ↔
      (key_grams (cfg i) keys g ∧ x = u32 ord) ∨ x ∈ posted (postings i) g) as Hfold.
  { intros gs Hgs. split_and!; [by apply (add_grams_posted i ord gs [] 0%N)..|].
    intros g x. destruct (add_grams_posted i ord gs g x Hsd) as (_ & _ & _ & ->). by rewrite Hgs. }
  assert (∀ g, g ∈ (range_map 0 gset).*1 ↔ key_grams (cfg i) keys g) as Hgset.
  { intros g. unfold gset. rewrite gset_fold_keys, list_elem_of_bind. unfold key_grams.
    setoid_rewrite elem_of_grams. rewrite lookup_empty. split.
    - intros [(k & ? & ?)|[? ?]]; [|done]. naive_solver.
    - intros (k & ? & ?). left. naive_solver. }
  destruct keys as [|k [|k' keys]].
  - eexists _, _. split; [done|]. by apply Hfold.
  - eexists _, _. split; [done|]. apply Hfold. intros g. unfold key_grams.
    rewrite elem_of_grams. split; [intros ?; exists k; set_solver|].
    intros (? & ->%list_elem_of_singleton & ?). done.
  - eexists _, _. split; [done|]. by apply Hfold.
Qed.

(** Add over a sequence of calls. *)
Definition add_all (adds : list (N * list bytes)) (b : Builder) : option Builder :=
  foldl (λ ob a, b ← ob; Add b a.1 a.2) (Some b) adds.

Lemma add_all_posted adds b i :
  b_idx b = Some i → sound_postings (postings i) → ∃ i' gset, add_all adds b = Some (mkBuilder (Some i') gset) ∧
    cfg i' = cfg i ∧ numOrds i' = numOrds i ∧ sound_postings (postings i') ∧
    ∀ g x, x ∈ posted (postings i') g ↔
      (∃ ord keys, (ord, keys) ∈ adds ∧ key_grams (cfg i) keys g ∧ x = u32 ord) ∨
      x ∈ posted (postings i) g.
Proof.
  unfold add_all. revert b i. induction adds as [|[ord keys] adds IH]; intros b i Hb Hsd; simpl.
  { exists i, (b_gset b). split_and!; [by destruct b; simpl in *; subst|done|done|done|].
    intros g x. split; [by right|]. intros [(? & ? & ?%elem_of_nil & ?)|]; done. }
  destruct (add_posted b i ord keys Hb Hsd) as (i1 & gs1 & -> & Hc1 & Hn1 & Hs1 & Hx1).
  destruct (IH (mkBuilder (Some i1) gs1) i1 eq_refl Hs1) as (i2 & gs2 & -> & Hc2 & Hn2 & Hs2 & Hx2).
  exists i2, gs2. split_and!; [done|congruence|congruence|done|].
  intros g x. rewrite Hx2, Hx1, Hc1. setoid_rewrite elem_of_cons. naive_solver.
Qed.

(** ** Finish and Restore *)

Definition max_step_spec (bms : list Bitmap) (st : N * bool) : Prop :=
  (st.2 = true → ∃ bm, bm ∈ bms ∧ st.1 ∈ bm_elems bm) ∧
  (st.2 = false → st.1 = 0%N) ∧
  ∀ bm x, bm ∈ bms → x ∈ bm_elems bm → st.2 = true ∧ (x <= st.1)%N.

Lemma finish_step_ok bms st bm :
  bm_sound bm → max_step_spec bms st → max_step_spec (bms ++ [bm]) (finish_step st bm).
Proof.
  destruct st as [max any]. intros Hsd (H1 & H2 & H3). unfold finish_step, max_step_spec in *. simpl in *.
  destruct (N.ltb_spec 0 (bm_card bm)) as [Hc|Hc].
  - assert (bm_elems bm ≠ []) as Hne by (rewrite <-bm_card_zero by done; lia).
    destruct (bm_max_elems _ Hsd Hne) as [Hin Hmax]. simpl. split_and!; [intros _|done|].
    + destruct (N.ltb_spec max (bm_max bm)); [exists bm; set_solver|].
      destruct any.
      * destruct H1 as (b & Hb & Hx); [done|]. exists b. set_solver.
      * exists bm. rewrite H2 in * by done. split; [set_solver|]. by replace 0%N with (bm_max bm) by lia.
    + intros b x [Hb| ->%list_elem_of_singleton]%elem_of_app Hx; (split; [done|]).
      * destruct (H3 b x Hb Hx). destruct (N.ltb_spec max (bm_max bm)); lia.
      * specialize (Hmax _ Hx). destruct (N.ltb_spec max (bm_max bm)); lia.
  - assert (bm_elems bm = []) as He by (apply bm_card_zero; [done|lia]). simpl. split_and!; [|done|].
    + intros Ha. destruct (H1 Ha) as (b & Hb & Hx). exists b. set_solver.
    + intros b x [Hb| ->%list_elem_of_singleton]%elem_of_app Hx; [by eapply H3|].
      rewrite He in Hx. by apply elem_of_nil in Hx.
Qed.

Lemma finish_max_ok bms : Forall bm_sound bms → max_step_spec bms (foldl finish_step (0%N, false) bms).
Proof.
  intros Hbms. assert (∀ l pre st, Forall bm_sound l → max_step_spec pre st → max_step_spec (pre ++ l) (foldl finish_step st l)) as Hl.
  { induction l as [|bm l IH]; intros pre st Hsd Hs; simpl; [by rewrite app_nil_r|]. apply Forall_cons in Hsd as [Hsd Hl].
    rewrite (cons_middle bm pre l), app_assoc. by apply IH, finish_step_ok. }
  apply (Hl bms []); [done|]. unfold max_step_spec. simpl. split_and!; [done|done|set_solver].
Qed.

Lemma elem_of_range_bitmaps (ps : gmap bytes Bitmap) bm :
  bm ∈ (range_map 0 ps).*2 ↔ ∃ g, ps !! g = Some bm.
Proof.
  rewrite list_elem_of_fmap. setoid_rewrite range_map_perm. split.
  - intros ([g b] & -> & Hg%elem_of_map_to_list). by exists g.
  - intros [g Hg]. exists (g, bm). by rewrite elem_of_map_to_list.
Qed.

Lemma range_sound (ps : gmap bytes Bitmap) : Forall bm_sound (range_map 0 ps).*2 ↔ sound_postings ps.
Proof.
  rewrite Forall_forall. setoid_rewrite elem_of_range_bitmaps. unfold sound_postings. naive_solver.
Qed.

Lemma posted_bitmap (ps : gmap bytes Bitmap) g x :
  x ∈ posted ps g ↔ ∃ bm, ps !! g = Some bm ∧ x ∈ bm_elems bm.
Proof. unfold posted. destruct (ps !! g); simpl; [naive_solver|]. split; [set_solver|naive_solver]. Qed.

(** [numOrds] is one more than the greatest posted ordinal, as a uint32. *)
Lemma finish_spec b i i' b' :
  b_idx b = Some i → numOrds i = 0%N → sound_postings (postings i) → Finish b = Some (i', b') →
  cfg i' = cfg i ∧ postings i' = postings i ∧ b_idx b' = None ∧
  ((∀ g x, x ∉ posted (postings i) g) ∧ numOrds i' = 0%N ∨
   ∃ g m, m ∈ posted (postings i) g ∧ (∀ g' x, x ∈ posted (postings i) g' → (x <= m)%N) ∧
     numOrds i' = u32 (m + 1)).
Proof.
  intros Hb Hn Hsd%range_sound. unfold Finish. rewrite Hb. simpl.
  pose proof (finish_max_ok _ Hsd) as (H1 & H2 & H3).
  destruct (foldl _ _ _) as [max any]. intros [= <- <-]. simpl in *. split_and!; try done.
  assert (∀ g x, x ∈ posted (postings i) g → any = true ∧ (x <= max)%N) as H4.
  { intros g x (bm & Hg & Hx)%posted_bitmap. eapply H3; [|done]. apply elem_of_range_bitmaps. by exists g. }
  destruct any; [right|left].
  - destruct H1 as (bm & (g & Hg)%elem_of_range_bitmaps & Hx); [done|].
    exists g, max. split_and!; [apply posted_bitmap; by exists bm|naive_solver|done].
  - split; [|done]. intros g x Hx. by destruct (H4 g x Hx).
Qed.

Lemma restore_sizes_ok gs : restore_sizes gs = Ok () ↔ Forall (λ g, 1 ≤ g ≤ MaxGramSize)%Z gs.
Proof.
  induction gs as [|g gs IH]; simpl; [done|]. rewrite Forall_cons, <-IH.
  destruct ((g <? 1)%Z || (MaxGramSize <? g)%Z) eqn:E.
  - split; [done|]. intros [? _]. lia.
  - split; [intros ?; split; [lia|done]|by intros [_ ?]].
Qed.

(** Whatever the bitmaps are, what they call their maximum is below the bound. *)
Lemma restore_postings_max n ps :
  restore_postings n ps = Ok () ↔ ∀ bm, bm ∈ ps.*2 → bm_card bm = 0%N ∨ (bm_max bm < n)%N.
Proof.
  induction ps as [|[g bm] ps IH]; csimpl; [set_solver|]. setoid_rewrite elem_of_cons.
  destruct (N.eqb_spec (bm_card bm) 0) as [Hc|Hc]; [rewrite IH; naive_solver|].
  destruct (N.leb_spec n (bm_max bm)); [|rewrite IH; naive_solver].
  split; [done|]. intros Hp. destruct (Hp bm ltac:(by left)); [done|lia].
Qed.

Lemma restore_postings_ok n ps : Forall bm_sound ps.*2 →
  restore_postings n ps = Ok () ↔ ∀ bm x, bm ∈ ps.*2 → x ∈ bm_elems bm → (x < n)%N.
Proof.
  intros Hsd. rewrite restore_postings_max. rewrite Forall_forall in Hsd. split; intros Hp bm.
  - intros x Hbm Hx. destruct (Hp bm Hbm) as [Hc|Hm].
    + apply bm_card_zero in Hc; [|by apply Hsd]. rewrite Hc in Hx. by apply elem_of_nil in Hx.
    + assert (bm_elems bm ≠ []) as Hne by (intros E; rewrite E in Hx; by apply elem_of_nil in Hx).
      destruct (bm_max_elems bm (Hsd _ Hbm) Hne) as [_ Hmax]. specialize (Hmax _ Hx). lia.
  - intros Hbm. destruct (decide (bm_elems bm = [])) as [He|Hne]; [left; by apply bm_card_zero; [apply Hsd|]|right].
    destruct (bm_max_elems bm (Hsd _ Hbm) Hne) as [Hin _]. by eapply Hp.
Qed.

Lemma restore_parts c ps n i :
  Restore c ps n = Ok i ↔
  i = mkIndex c ps n ∧ Grams c ≠ [] ∧ Forall (λ g, 1 ≤ g ≤ MaxGramSize)%Z (Grams c) ∧
  restore_postings n (range_map 0 ps) = Ok ().
Proof.
  unfold Restore. rewrite bind_ok. setoid_rewrite bind_ok. setoid_rewrite bind_ok. split.
  - intros ([] & Hne%fail_if_ok & [] & Hs%restore_sizes_ok & [] & Hps & [= <-]).
    by rewrite bool_decide_eq_false in Hne.
  - intros (-> & Hne & Hs%restore_sizes_ok & Hps). exists (). rewrite bool_decide_eq_false_2 by done.
    split; [done|]. exists (). split; [done|]. by exists ().
Qed.
Lemma restore_ok c ps n i : sound_postings ps →
  Restore c ps n = Ok i ↔
  i = mkIndex c ps n ∧ Grams c ≠ [] ∧ Forall (λ g, 1 ≤ g ≤ MaxGramSize)%Z (Grams c) ∧ well_formed i.
Proof.
  intros Hsd. rewrite restore_parts.
  assert (restore_postings n (range_map 0 ps) = Ok () ↔ well_formed (mkIndex c ps n)) as Hp.
  { rewrite restore_postings_ok by by apply range_sound. unfold well_formed. simpl. setoid_rewrite posted_bitmap.
    setoid_rewrite elem_of_range_bitmaps. naive_solver. }
  rewrite Hp. naive_solver.
Qed.
(** What a restored index promises of bitmaps nobody checked: their own maximum is
    below the bound, and if they are sound the index is well formed. *)
Lemma restore_claims c ps n i : Restore c ps n = Ok i →
  i = mkIndex c ps n ∧ Forall (λ g, 1 ≤ g ≤ MaxGramSize)%Z (Grams c) ∧
  (∀ g bm, ps !! g = Some bm → bm_card bm = 0%N ∨ (bm_max bm < n)%N) ∧ (sound_postings ps → well_formed i).
Proof.
  intros Hr. pose proof Hr as (-> & _ & Hs & Hps)%restore_parts. split_and!; [done..| |].
  - intros g bm Hg. eapply restore_postings_max; [exact Hps|]. apply elem_of_range_bitmaps. by exists g.
  - intros Hsd. by apply restore_ok in Hr as (_ & _ & _ & ?).
Qed.

(** ** The scratch pool and cancellation *)

(** Between lookups a scratch is as new. *)
Definition clean (i : Index) (pool : option scratch) : Prop :=
  match pool with Some s => s = new_scratch i | None => True end.

(** During a lookup, a changed counter is a touched one. *)
Definition dirty_ok (i : Index) (sc : scratch) : Prop :=
  length (counts sc) = N.to_nat (numOrds i) ∧
  (∀ k v, counts sc !! k = Some v → v = f32_zero ∨ N.of_nat k ∈ touched sc) ∧
  Forall (λ ord, ord < numOrds i)%N (touched sc).

Lemma new_scratch_ok i seen' : dirty_ok i (mkScratch (counts (new_scratch i)) [] seen').
Proof.
  split_and!; simpl; [apply length_replicate| |constructor].
  intros k v [-> _]%lookup_replicate. by left.
Qed.

Lemma getScratch_clean i pool : clean i pool → getScratch i pool = new_scratch i.
Proof. by destruct pool. Qed.

Lemma reset_lookup ords (cs : list F32) k :
  foldl (λ c ord, <[N.to_nat ord := f32_zero]> c) cs ords !! k =
  if decide (N.of_nat k ∈ ords) then (λ _, f32_zero) <$> cs !! k else cs !! k.
Proof.
  revert cs. induction ords as [|o ords IH]; intros cs; simpl; [done|]. rewrite IH.
  destruct (decide (o = N.of_nat k)) as [->|Hne].
  - rewrite (decide_True (P:=_ ∈ _ :: _)) by left. rewrite Nat2N.id.
    assert (<[k:=f32_zero]> cs !! k = (λ _, f32_zero) <$> cs !! k) as ->.
    { destruct (cs !! k) eqn:Hk; simpl.
      - apply list_lookup_insert_eq. by eapply lookup_lt_Some.
      - apply lookup_ge_None in Hk. by rewrite list_insert_ge, lookup_ge_None_2. }
    case_decide; [|done]. by destruct (cs !! k).
  - rewrite list_lookup_insert_ne by lia. repeat case_decide; set_solver.
Qed.

Lemma putScratch_clean i sc : dirty_ok i sc → putScratch sc = new_scratch i.
Proof.
  intros (Hlen & Hz & _). unfold putScratch, new_scratch. f_equal. apply list_eq. intros k.
  rewrite reset_lookup. destruct (counts sc !! k) as [v|] eqn:Hk.
  - assert (k < N.to_nat (numOrds i)) by (rewrite <-Hlen; by eapply lookup_lt_Some).
    rewrite lookup_replicate_2 by done. case_decide; simpl; [done|].
    destruct (Hz k v Hk) as [->|]; done.
  - apply lookup_ge_None in Hk. rewrite (lookup_ge_None_2 (replicate _ _)) by (rewrite length_replicate; lia). by case_decide.
Qed.

Lemma accumulate_ok i w ord sc :
  dirty_ok i sc → (ord < numOrds i)%N → ∃ sc', accumulate w ord sc = Some sc' ∧ dirty_ok i sc'.
Proof.
  intros (Hlen & Hz & Ht) Hord. unfold accumulate.
  destruct (lookup_lt_is_Some_2 (counts sc) (N.to_nat ord)) as [v Hv]; [lia|].
  rewrite Hv. simpl. eexists. split; [done|].
  split_and!; simpl; [by rewrite length_insert| |case_match; [apply Forall_app; auto|done]].
  intros k u Hk. destruct (decide (k = N.to_nat ord)) as [->|Hne].
  - right. rewrite N2Nat.id. destruct (f32_is0 v) eqn:E; [set_solver|].
    destruct (Hz _ _ Hv) as [->|Hin]; [by rewrite f32_is0_zero in E|by rewrite N2Nat.id in Hin].
  - rewrite list_lookup_insert_ne in Hk by done. destruct (Hz _ _ Hk); [by left|right].
    case_match; set_solver.
Qed.

(** A scan under cancellation stops early or ends like the uncancelled one. *)
Definition same_scan (r r0 : run (N * nat) * scratch) : Prop :=
  (∃ st0, r0.1 = Done st0) ∧ (r.1 = Canceled ∨ ∃ st, r.1 = Done st ∧ r.2 = r0.2).

Lemma canceled_none st : canceled None st = (false, (st.1 + 1, st.2)%N).
Proof. by destruct st. Qed.

Lemma scan_ords_ok i done w ords sc st st0 :
  dirty_ok i sc → Forall (λ ord, ord < numOrds i)%N ords →
  dirty_ok i (scan_ords done w ords sc st).2 ∧
  same_scan (scan_ords done w ords sc st) (scan_ords None w ords sc st0).
Proof.
  intros Hsc Hords. revert sc st st0 Hsc. induction Hords as [|ord ords Hord Hords IH]; intros sc st st0 Hsc; simpl.
  { split; [done|]. split; [by eexists|right; by eexists]. }
  rewrite canceled_none. destruct (accumulate_ok i w ord sc Hsc Hord) as (sc' & -> & Hsc').
  destruct (canceled done st) as [c st1]. specialize (IH sc' st1 (st0.1 + 1, st0.2)%N Hsc') as [Hd [Hs0 Hs]].
  destruct c; [|done]. split; [done|]. split; [done|by left].
Qed.

Lemma scan_gens_ok i done gens sc st st0 :
  dirty_ok i sc → Forall (λ g, Forall (λ ord, ord < numOrds i)%N (bm_elems (gi_bm g))) gens →
  dirty_ok i (scan_gens done gens sc st).2 ∧
  same_scan (scan_gens done gens sc st) (scan_gens None gens sc st0).
Proof.
  intros Hsc Hg. revert sc st st0 Hsc. induction Hg as [|g gens Hg Hgens IH]; intros sc st st0 Hsc; simpl.
  { split; [done|]. split; [by eexists|right; by eexists]. }
  destruct (scan_ords_ok i done (to_f32 (gi_idf g)) _ sc st st0 Hsc Hg) as [Hd Hs].
  destruct (scan_ords_ok i None (to_f32 (gi_idf g)) _ sc st0 st0 Hsc Hg) as [Hd0 _].
  destruct (scan_ords done _ _ _ _) as [r sc1], (scan_ords None _ _ _ _) as [r0 sc0].
  destruct Hs as [[st2 Hr0] Hs]. simpl in *. subst r0.
  destruct Hs as [->|(st1 & -> & ->)]; [|by apply IH].
  split; [done|]. split; [|by left]. by apply (IH sc0 st st2).
Qed.

Lemma collect_ok i done probes floor maxScore tp topK keep sc ords st st0 out asked :
  dirty_ok i sc → Forall (λ ord, ord < numOrds i)%N ords →
  let r := collect done probes floor maxScore tp topK keep (counts sc) ords st out asked in
  let r0 := collect None probes floor maxScore tp topK keep (counts sc) ords st0 out asked in
  (∃ hits, r0.1 = Done hits) ∧ (r.1 = Canceled ∨ r = r0).
Proof.
  intros [Hlen _] Hords. simpl. revert st st0 out asked.
  induction Hords as [|ord ords Hord Hords IH]; intros st st0 out asked; cbn [collect].
  { split; [by eexists|by right]. }
  rewrite canceled_none. destruct (lookup_lt_is_Some_2 (counts sc) (N.to_nat ord)) as [v Hv]; [lia|].
  rewrite Hv. destruct (canceled done st) as [c st1]. cbv zeta.
  match goal with |- context [f_ltb ?a ?b] => destruct (f_ltb a b) end.
  { destruct (IH st1 (st0.1 + 1, st0.2)%N out asked) as [H1 H2]. split; [done|]. destruct c; auto. }
  destruct (negb (kept keep ord)).
  { destruct (IH st1 (st0.1 + 1, st0.2)%N out (asked ++ [ord])) as [H1 H2]. split; [done|]. destruct c; auto. }
  match goal with |- context [select_step ?a ?b ?c ?d] =>
    destruct (IH st1 (st0.1 + 1, st0.2)%N (select_step a b c d) (asked ++ [ord])) as [H1 H2] end.
  split; [done|]. destruct c; auto.
Qed.

(** Whatever the context does, [keep] is only asked about the scanned ordinals,
    and every hit was asked about and kept. *)
Lemma collect_members done probes floor maxScore tp topK keep cs ords st out asked :
  (∀ h, h ∈ out.1 → Ord h ∈ asked ∧ kept keep (Ord h) = true) →
  let r := collect done probes floor maxScore tp topK keep cs ords st out asked in
  (∀ o, o ∈ r.2 → o ∈ asked ∨ o ∈ ords) ∧
  (∀ hits h, r.1 = Done hits → h ∈ hits → Ord h ∈ r.2 ∧ kept keep (Ord h) = true).
Proof.
  simpl. revert st out asked. induction ords as [|ord ords IH]; intros st out asked Hout; cbn [collect].
  { split; [by left|]. intros hits h [= <-]. apply Hout. }
  destruct (canceled done st) as [[] st1]; [split; [by left|done]|].
  destruct (cs !! N.to_nat ord) as [v|]; [|split; [by left|done]]. cbv zeta.
  match goal with |- context [f_ltb ?a ?b] => destruct (f_ltb a b) end.
  { destruct (IH st1 out asked Hout) as [H1 H2]. split; [|done].
    intros o Ho. destruct (H1 o Ho); [by left|right; by right]. }
  assert (∀ h, h ∈ out.1 → Ord h ∈ asked ++ [ord] ∧ kept keep (Ord h) = true) as Hout1.
  { intros h Hh. destruct (Hout h Hh). split; [|done]. apply elem_of_app. by left. }
  assert (∀ o : N, o ∈ asked ++ [ord] ∨ o ∈ ords → o ∈ asked ∨ o ∈ ord :: ords) as Hin.
  { intros o. rewrite elem_of_app, list_elem_of_singleton, elem_of_cons. tauto. }
  destruct (kept keep ord) eqn:Hk; simpl.
  - match goal with |- context [select_step ?a ?b ?c ?d] => set (o1 := select_step a b c d) end.
    destruct (IH st1 o1 (asked ++ [ord])) as [H1 H2].
    { intros h [->|Hh]%select_step_sub; [|by apply Hout1]. simpl. split; [|done]. apply elem_of_app. right. by left. }
    split; [|done]. intros o Ho. by apply Hin, H1.
  - destruct (IH st1 out (asked ++ [ord]) Hout1) as [H1 H2]. split; [|done]. intros o Ho. by apply Hin, H1.
Qed.

Lemma split_gens_app need acc gi : (split_gens need acc gi).1 ++ (split_gens need acc gi).2 = gi.
Proof.
  revert acc. induction gi as [|g gi IH]; intros acc; simpl; [done|].
  destruct (f_ltb _ _); [done|]. specialize (IH (f_add acc (gi_idf g))).
  destruct (split_gens _ _ gi). simpl in *. by rewrite IH.
Qed.

Lemma gram_info_posted i g info x :
  gram_info i g = Some info → x ∈ bm_elems (gi_bm info) ↔ x ∈ posted (postings i) g.
Proof.
  unfold gram_info, posted. destruct (postings i !! g); [|done]. case_match; [done|]. by intros [= <-].
Qed.

Lemma known_grams_bound i gs :
  well_formed i → Forall (λ g, Forall (λ ord, ord < numOrds i)%N (bm_elems (gi_bm g))) (omap (gram_info i) gs).
Proof.
  intros [_ Hwf]. apply Forall_forall. intros info (g & _ & Hg)%list_elem_of_omap.
  apply Forall_forall. intros x Hx. eapply (Hwf g). by rewrite <-gram_info_posted.
Qed.

Lemma known_grams_sound i gs :
  well_formed i → Forall (λ g, bm_sound (gi_bm g)) (omap (gram_info i) gs).
Proof.
  intros [Hs _]. apply Forall_forall. intros info (g & _ & Hg)%list_elem_of_omap. unfold gram_info in Hg.
  destruct (postings i !! g) eqn:E; [|done]. destruct (_ =? _)%N; [done|]. injection Hg as <-. by eapply Hs.
Qed.

(** What a finished index promises of a sequence of Adds. *)
Definition built_from (c : Config) (adds : list (N * list bytes)) (i : Index) : Prop :=
  cfg i = c ∧
  (∀ g x, x ∈ posted (postings i) g ↔
     ∃ ord keys, (ord, keys) ∈ adds ∧ key_grams c keys g ∧ x = u32 ord) ∧
  ((∀ ord keys, (ord, keys) ∈ adds → (ord < max_u32)%N) → well_formed i ∧
     (numOrds i = 0%N ∨ ∃ g, (numOrds i - 1)%N ∈ posted (postings i) g)).

Lemma build_adds c adds :
  Forall (λ n, 1 ≤ n)%Z (Grams c) →
  ∃ b0 b1 i b, NewBuilder c = Some b0 ∧ add_all adds b0 = Some b1 ∧ Finish b1 = Some (i, b) ∧
    b_idx b = None ∧ built_from c adds i.
Proof.
  intros Hc. unfold NewBuilder.
  assert (forallb (λ n, 1 <=? n)%Z (Grams c) = true) as ->.
  { apply forallb_forall. intros n Hn. rewrite Forall_forall in Hc.
    apply Z.leb_le, Hc. by apply list_elem_of_In. }
  destruct (add_all_posted adds (mkBuilder (Some (mkIndex c ∅ 0)) ∅) _ eq_refl)
    as (i1 & gs & Hall & Hc1 & Hn1 & Hsd & Hp1); [intros g bm; simpl; by rewrite lookup_empty|]. simpl in *.
  destruct (Finish (mkBuilder (Some i1) gs)) as [[i b]|] eqn:Hf; [|by unfold Finish in Hf; simpl in Hf; destruct (foldl _ _ _)].
  pose proof Hf as Hf0.
  apply (finish_spec _ i1) in Hf as (Hci & Hpi & Hbi & Hmax); [|done..].
  assert (∀ g x, x ∈ posted (postings i) g ↔
    ∃ ord keys, (ord, keys) ∈ adds ∧ key_grams c keys g ∧ x = u32 ord) as Hx.
  { intros g x. rewrite Hpi, Hp1. unfold posted. rewrite lookup_empty. simpl. set_solver. }
  eexists _, _, i, b. split_and!; [done|exact Hall|exact Hf0|done|]. split_and!; [congruence|done|].
  intros Hlim. rewrite <-Hpi in Hmax. destruct Hmax as [[Hno Hz]|(g & m & Hm & Hle & Hn)].
  { split; [|by left]. split; [by rewrite Hpi|]. intros g x Hg. by destruct (Hno g x). }
  pose proof Hm as (ord & keys & Hadd & _ & ->)%Hx. specialize (Hlim _ _ Hadd).
  rewrite (u32_small ord), u32_small in * by (unfold max_u32 in *; lia). split.
  - split; [by rewrite Hpi|]. intros g' x Hx'. specialize (Hle g' x Hx'). lia.
  - right. exists g. by replace (numOrds i - 1)%N with ord by lia.
Qed.

(** ** Lookup *)

(** What every lookup promises, under any context. *)
Lemma lookup_ok done i pool analyzed threshold topK keep :
  well_formed i → clean i pool →
  let r := lookup done i pool analyzed threshold topK keep in
  let r0 := lookup None i None analyzed threshold topK keep in
  (∃ hits, r0.1.1 = Done hits) ∧ (r.1.1 = Canceled ∨ r.1.1 = r0.1.1 ∧ r.2 = r0.2) ∧ clean i r.1.2 ∧
  Forall (λ ord, ord < numOrds i)%N r.2 ∧
  (∀ hits h, r.1.1 = Done hits → h ∈ hits → Ord h ∈ r.2 ∧ kept keep (Ord h) = true).
Proof.
  intros Hwf Hclean. unfold lookup.
  assert (∀ (p : option scratch), clean i p →
    (∃ hits : list Hit, Done (A:=list Hit) [] = Done hits) ∧
    (Done (A:=list Hit) [] = Canceled ∨ Done (A:=list Hit) [] = Done [] ∧ @nil N = []) ∧ clean i p ∧
    Forall (λ ord, ord < numOrds i)%N [] ∧
    (∀ hits h, Done (A:=list Hit) [] = Done hits → h ∈ hits → Ord h ∈ @nil N ∧ kept keep (Ord h) = true)) as Hnil.
  { intros p Hp. split_and!; [by eexists|by right|done|done|]. by intros hits h [= <-] ?%elem_of_nil. }
  destruct (numOrds i =? 0)%N; [by apply Hnil|].
  case_bool_decide; [by apply Hnil|]. rewrite (getScratch_clean i pool), (getScratch_clean i None) by done.
  destruct (EachGram _ _ _) as [gs seen'].
  pose proof (new_scratch_ok i seen') as Hnew. simpl in Hnew |- *.
  destruct (_ || _); [exact (Hnil (Some _) (putScratch_clean _ _ Hnew))|].
  set (floor := f_mul _ _). set (maxScore := sum_idf _).
  set (gi := sort_slice _ _). set (gp := split_gens _ _ gi).
  assert (Forall (λ g, Forall (λ ord, ord < numOrds i)%N (bm_elems (gi_bm g))) gp.1) as Hg.
  { eapply (proj1 (Forall_app _ gp.1 gp.2)). unfold gp. rewrite split_gens_app. unfold gi.
    rewrite sort_slice_perm. by apply known_grams_bound. }
  destruct gp as [gens probes]. simpl in Hg.
  destruct (scan_gens_ok i done gens _ (0%N, 0) (0%N, 0) Hnew Hg) as [Hd Hs].
  destruct (scan_gens done gens _ _) as [r sc], (scan_gens None gens _ _) as [r0 sc0] eqn:Hsc0.
  destruct Hs as [[st0 Hr0] Hs]. simpl in *. subst r0.
  destruct (scan_gens_ok i None gens _ (0%N, 0) (0%N, 0) Hnew Hg) as [Hd0 _].
  rewrite Hsc0 in Hd0. simpl in Hd0.
  assert (Forall (λ ord, ord < numOrds i)%N (touched sc0)) as Ht by apply Hd0.
  pose proof (collect_ok i done probes floor maxScore (sum_idf probes) topK keep sc0 _ st0 st0
    ([], false) [] Hd0 Ht) as [[hits Hc0] _].
  destruct Hs as [->|(st & -> & ->)]; simpl; rewrite Hc0.
  { split_and!; [by eexists|by left|by apply putScratch_clean|constructor|done]. }
  destruct (collect_ok i done probes floor maxScore (sum_idf probes) topK keep sc0 _ st st0
    ([], false) [] Hd0 Ht) as [_ Hr].
  destruct (collect_members done probes floor maxScore (sum_idf probes) topK keep (counts sc0) (touched sc0) st
    ([], false) []) as [Hm1 Hm2]; [by intros h ?%elem_of_nil|].
  set (rc := collect done probes _ _ _ _ _ _ _ st _ _) in *. set (rc0 := collect None _ _ _ _ _ _ _ _ _ _ _) in *.
  split_and!; [by eexists| |by apply putScratch_clean| |].
  - destruct Hr as [->| ->]; [by left|]. rewrite Hc0. by right.
  - apply Forall_forall. intros o Ho. destruct (Hm1 o Ho) as [?%elem_of_nil|Ho']; [done|].
    rewrite Forall_forall in Ht. by apply Ht.
  - intros hits' h. destruct rc.1 as [out| |] eqn:Hout; try done. intros [= <-]. rewrite sort_slice_perm.
    by apply Hm2.
Qed.

(** A lookup is canceled only when a poll said so. *)
Definition polled (done : doneChan) : Prop := ∃ f k, done = Some f ∧ f k = true.

Lemma canceled_polled done st st' : canceled done st = (true, st') → polled done.
Proof.
  unfold canceled. destruct st as [n k], done as [f|]; [|done]. destruct (_ <? _)%N; [done|].
  intros [= Hf _]. by exists f, k.
Qed.

Lemma scan_ords_polled done w ords sc st : (scan_ords done w ords sc st).1 = Canceled → polled done.
Proof.
  revert sc st. induction ords as [|o ords IH]; intros sc st; simpl; [done|].
  destruct (canceled done st) as [[] st1] eqn:Hc; [by eauto using canceled_polled|].
  destruct (accumulate w o sc); [apply IH|done].
Qed.
Lemma scan_gens_polled done gens sc st : (scan_gens done gens sc st).1 = Canceled → polled done.
Proof.
  revert sc st. induction gens as [|g gens IH]; intros sc st; simpl; [done|].
  pose proof (scan_ords_polled done (to_f32 (gi_idf g)) (bm_elems (gi_bm g)) sc st) as Hp.
  destruct (scan_ords done _ _ _ _) as [[st1| |] sc1]; [apply IH|exact Hp|done].
Qed.
Lemma collect_polled done probes floor maxScore tp topK keep cs ords st out asked :
  (collect done probes floor maxScore tp topK keep cs ords st out asked).1 = Canceled → polled done.
Proof.
  revert st out asked. induction ords as [|o ords IH]; intros st out asked; cbn [collect]; [done|].
  destruct (canceled done st) as [[] st1] eqn:Hc; [by eauto using canceled_polled|].
  destruct (cs !! _); [|done]. cbv zeta. destruct (f_ltb _ _); [apply IH|]. destruct (negb _); apply IH.
Qed.
Lemma lookup_polled done i pool analyzed threshold topK keep :
  (lookup done i pool analyzed threshold topK keep).1.1 = Canceled → polled done.
Proof.
  unfold lookup. destruct (_ =? _)%N; [done|]. case_bool_decide; [done|].
  destruct (EachGram _ _ _) as [gs seen']. destruct (_ || _); [done|]. destruct (split_gens _ _ _) as [gens probes].
  match goal with |- context [scan_gens ?a ?b ?c ?d] =>
    pose proof (scan_gens_polled a b c d) as Hs; destruct (scan_gens a b c d) as [[st| |] sc] end; [|by auto|done].
  simpl. match goal with |- context [collect ?a ?b ?c ?d ?e ?f ?g ?h ?i ?j ?k ?l] =>
    pose proof (collect_polled a b c d e f g h i j k l) as Hc; destruct (collect a b c d e f g h i j k l) as [[| |] tr] end;
    simpl; auto; done.
Qed.

(** Building never panics on valid gram sizes, and the finished index
    posts an ordinal under a gram exactly when some Add gave that ordinal a key
    with that gram; [numOrds] is the greatest posted ordinal plus one (zero
    without postings), so below the uint32 limit the index is well formed, and
    the Builder is severed: a later Add panics. *)
Theorem ngram_build_spec c adds :
  Forall (λ n, 1 ≤ n)%Z (Grams c) →
  ∃ i b, (b0 ← NewBuilder c; b1 ← add_all adds b0; Finish b1) = Some (i, b) ∧
    cfg i = c ∧ (∀ ord keys, Add b ord keys = None) ∧
    (∀ g x, x ∈ posted (postings i) g ↔
       ∃ ord keys, (ord, keys) ∈ adds ∧ key_grams c keys g ∧ x = u32 ord) ∧
    ((∀ ord keys, (ord, keys) ∈ adds → (ord < max_u32)%N) → well_formed i ∧
       (numOrds i = 0%N ∨ ∃ g, (numOrds i - 1)%N ∈ posted (postings i) g)).
Proof.
  intros (b0 & b1 & i & b & H0 & H1 & Hf & Hb & Hc & Hp & Hlim)%(build_adds c adds). exists i, b.
  rewrite H0. simpl. rewrite H1. simpl. split_and!; [done|done| |done|done].
  intros ord keys. unfold Add. by rewrite Hb.
Qed.

(** [Restore] accepts a header and sound postings exactly when there is a gram
    size, every size lies in [1, MaxGramSize] and every posted ordinal is below
    [numOrds]; the index it returns is then the parts, and well formed, so the
    accumulator accesses of a lookup are in bounds. *)
Theorem restore_spec c ps n i : sound_postings ps →
  Restore c ps n = Ok i ↔
  i = mkIndex c ps n ∧ Grams c ≠ [] ∧ Forall (λ g, 1 ≤ g ≤ MaxGramSize)%Z (Grams c) ∧
  ∀ g x, x ∈ posted ps g → (x < n)%N.
Proof. intros Hs. rewrite restore_ok by done. unfold well_formed. naive_solver. Qed.

(** On a well-formed index and a clean scratch pool no lookup panics, the
    pool it leaves is clean again, and cancellation is all or nothing: whatever
    the context answers, the lookup returns nil or exactly the uncancelled
    result on fresh memory. *)
Theorem lookup_pool_and_cancel done i pool analyzed threshold topK keep :
  well_formed i → clean i pool →
  let r := lookup done i pool analyzed threshold topK keep in
  let r0 := lookup None i None analyzed threshold topK keep in
  (∃ hits, r0.1.1 = Done hits) ∧ (r.1.1 = Canceled ∨ r.1.1 = r0.1.1 ∧ r.2 = r0.2) ∧ clean i r.1.2.
Proof.
  intros Hwf Hclean. destruct (lookup_ok done i pool analyzed threshold topK keep Hwf Hclean) as (? & ? & ? & _). auto.
Qed.
End ngram.
