(* ===== verification/NgramRecall.v ===== *)
(** Correctness of the pigeonhole lookup of [Ngram] in exact arithmetic: it
    returns exactly the ordinals whose IDF-weighted coverage of the known query
    grams reaches the threshold, ranked, and cut at top-K; and its behaviour
    under binary32 accumulation, where that fails. *)

From Stdlib Require Import QArith Lqa SpecFloat.
From S2P Require Import Prelude.
From S2P Require Import Runtime.
From S2P Require Import Strings.
From S2P Require Import Grams.
From S2P Require Import Heap.
From S2P Require Import Score.
From S2P Require Import Bitmap.
From S2P Require Import Ngram.

#[local] Open Scope Q_scope.

(** ** Weighted sums *)

Definition q_sum {A} (f : A → Q) (l : list A) : Q := foldr (λ x acc, f x + acc) 0 l.

Lemma q_sum_perm {A} (f : A → Q) l1 l2 : l1 ≡ₚ l2 → q_sum f l1 == q_sum f l2.
Proof. induction 1; simpl; lra. Qed.
Lemma q_sum_app {A} (f : A → Q) l1 l2 : q_sum f (l1 ++ l2) == q_sum f l1 + q_sum f l2.
Proof. induction l1; simpl; lra. Qed.
Lemma q_sum_mono {A} (f g : A → Q) l : Forall (λ x, f x <= g x) l → q_sum f l <= q_sum g l.
Proof. induction 1; simpl; lra. Qed.
Lemma q_sum_nonneg {A} (f : A → Q) l : Forall (λ x, 0 <= f x) l → 0 <= q_sum f l.
Proof. induction 1; simpl; lra. Qed.
Lemma q_sum_foldl {A} (f : A → Q) l acc : foldl (λ acc x, acc + f x) acc l == acc + q_sum f l.
Proof. revert acc. induction l as [|x l IH]; intros acc; simpl; [lra|]. rewrite IH. lra. Qed.

Section exact.
Context {RT : GoRuntime} {BL : BitmapLib} (lg : Q → Q).
Hypothesis lg_pos : ∀ x, 1 < x → 0 < lg x.
#[local] Instance FO : FloatOps := exact_ops lg.

Implicit Types (gi gens probes : list gramInfo) (sc : scratch) (i : Index).

(** The contribution of one gram to an ordinal's score. *)
Definition weight (ord : N) (g : gramInfo) : Q := if bm_contains (gi_bm g) ord then gi_idf g else 0.
Definition coverage (gi : list gramInfo) (ord : N) : Q := q_sum (weight ord) gi.
Definition mass (gi : list gramInfo) : Q := q_sum gi_idf gi.
Definition positive (gi : list gramInfo) : Prop := Forall (λ g, 0 < gi_idf g) gi.
Definition sound (gi : list gramInfo) : Prop := Forall (λ g, bm_sound (gi_bm g)) gi.

Lemma mass_perm gi gi' : gi ≡ₚ gi' → mass gi == mass gi'.
Proof. apply q_sum_perm. Qed.
Lemma coverage_perm gi gi' ord : gi ≡ₚ gi' → coverage gi ord == coverage gi' ord.
Proof. apply q_sum_perm. Qed.
Lemma mass_app gi gi' : mass (gi ++ gi') == mass gi + mass gi'.
Proof. apply q_sum_app. Qed.
Lemma coverage_app gi gi' ord : coverage (gi ++ gi') ord == coverage gi ord + coverage gi' ord.
Proof. apply q_sum_app. Qed.

Lemma weight_bounds ord g : 0 < gi_idf g → 0 <= weight ord g <= gi_idf g.
Proof. unfold weight. destruct (bm_contains _ _); lra. Qed.

Lemma coverage_bounds gi ord : positive gi → 0 <= coverage gi ord <= mass gi.
Proof.
  intros Hp. split.
  - apply q_sum_nonneg. eapply Forall_impl; [exact Hp|]. intros g Hg. by apply weight_bounds.
  - apply q_sum_mono. eapply Forall_impl; [exact Hp|]. intros g Hg. by apply weight_bounds.
Qed.

Lemma coverage_pos gi ord : positive gi →
  0 < coverage gi ord ↔ ∃ g, g ∈ gi ∧ bm_contains (gi_bm g) ord = true.
Proof.
  induction 1 as [|g gi Hg Hgi IH]; simpl.
  { split; [unfold coverage; simpl; lra|]. by intros (? & ?%elem_of_nil & _). }
  pose proof (coverage_bounds gi ord Hgi) as Hb. unfold coverage in *. simpl.
  setoid_rewrite elem_of_cons. unfold weight at 1. destruct (bm_contains (gi_bm g) ord) eqn:Hc.
  - split; [intros _; exists g; auto|intros _; lra].
  - split.
    + intros Hlt. assert (0 < q_sum (weight ord) gi) as Hlt' by lra.
      apply IH in Hlt' as (g' & ? & ?). exists g'. auto.
    + intros (g' & [->|Hg'] & Hc'); [congruence|].
      assert (0 < q_sum (weight ord) gi) by (apply IH; eauto). lra.
Qed.

Lemma sum_idf_mass gi : sum_idf gi == mass gi.
Proof. unfold sum_idf, mass. pose proof (q_sum_foldl gi_idf gi 0). simpl in *. change (inject_Z 0) with 0. lra. Qed.

(** ** The split *)

(** Either every gram generates, or the generators' mass exceeds [need]. *)
Lemma split_gens_mass need acc gi gens probes :
  split_gens need acc gi = (gens, probes) → probes = [] ∨ need < acc + mass gens.
Proof.
  revert acc gens probes. induction gi as [|g gi IH]; intros acc gens probes; simpl.
  { intros [= <- <-]. by left. }
  destruct (q_ltb need (acc + gi_idf g)) eqn:E.
  - intros [= <- <-]. right. apply q_ltb_true in E. unfold mass. simpl. lra.
  - destruct (split_gens need (acc + gi_idf g) gi) as [gens' probes'] eqn:Hs.
    intros [= <- <-]. destruct (IH _ _ _ Hs) as [->|Hm]; [by left|right].
    unfold mass in *. simpl. lra.
Qed.

(** ** The accumulator *)

Definition acc_ok (n : N) (f : N → Q) (sc : scratch) : Prop :=
  length (counts sc) = N.to_nat n ∧
  (∀ ord, (ord < n)%N → ∃ v : F32, counts sc !! N.to_nat ord = Some v ∧ v == f ord) ∧
  NoDup (touched sc) ∧ ∀ ord, ord ∈ touched sc ↔ (ord < n)%N ∧ 0 < f ord.

Lemma accumulate_exact n f sc w ord :
  acc_ok n f sc → (∀ o, 0 <= f o) → 0 < w → (ord < n)%N →
  ∃ sc', accumulate w ord sc = Some sc' ∧
    acc_ok n (λ o, if bool_decide (o = ord) then f o + w else f o) sc'.
Proof.
  intros (Hlen & Hv & Hnd & Ht) Hf Hw Hord. unfold accumulate.
  destruct (Hv ord Hord) as (v & Hlk & Hveq). simpl in *. rewrite Hlk. simpl. eexists. split; [done|].
  assert (Qeq_bool v 0 = true ↔ ord ∉ touched sc) as Hz.
  { rewrite Qeq_bool_iff, Ht. specialize (Hf ord). split; [intros ? [_ ?]; lra|].
    intros Hn. apply Qle_antisym; [|lra]. apply Qnot_lt_le. intros ?. apply Hn. split; [done|lra]. }
  split_and!; simpl.
  - by rewrite length_insert.
  - intros o Ho. destruct (decide (o = ord)) as [->|Hne].
    + rewrite bool_decide_eq_true_2 by done. rewrite list_lookup_insert_eq by lia.
      eexists. split; [done|]. lra.
    + rewrite bool_decide_eq_false_2 by done. rewrite list_lookup_insert_ne by lia. by apply Hv.
  - destruct (Qeq_bool v 0); [|done]. apply NoDup_app. split_and!; [done| |repeat constructor; set_solver].
    intros x Hx ->%list_elem_of_singleton. by apply Hz in Hx.
  - intros o. transitivity (o ∈ touched sc ∨ o = ord).
    + destruct (Qeq_bool v 0) eqn:E; [set_solver|]. destruct (decide (ord ∈ touched sc)); [set_solver|].
      by apply Hz in n0.
    + rewrite Ht. specialize (Hf o). case_bool_decide as Ho; [subst|naive_solver].
      split; [intros _; split; [done|lra]|auto].
Qed.

Lemma scan_ords_exact n f sc w ords st :
  acc_ok n f sc → (∀ o, 0 <= f o) → 0 < w → Forall (λ o, (o < n)%N) ords → NoDup ords →
  ∃ sc' st', scan_ords None w ords sc st = (Done st', sc') ∧
    acc_ok n (λ o, if bool_decide (o ∈ ords) then f o + w else f o) sc'.
Proof.
  intros Hsc Hf Hw Hords. revert f sc st Hsc Hf.
  induction Hords as [|ord ords Hord Hords IH]; intros f sc st Hsc Hf Hnd; simpl.
  { by exists sc, st. }
  apply NoDup_cons in Hnd as [Hnin Hnd]. rewrite canceled_none.
  destruct (accumulate_exact n f sc w ord Hsc Hf Hw Hord) as (sc1 & -> & Hsc1).
  edestruct (IH _ sc1 (st.1 + 1, st.2)%N Hsc1) as (sc2 & st2 & -> & Hsc2); [|done|].
  { intros o. simpl. case_bool_decide; specialize (Hf o); lra. }
  exists sc2, st2. split; [done|]. destruct Hsc2 as (? & Hv & ? & Ht). split_and!; [done| |done|].
  - intros o Ho. destruct (Hv o Ho) as (v & ? & Hveq). exists v. split; [done|]. rewrite Hveq.
    repeat case_bool_decide; try reflexivity; exfalso; set_solver.
  - intros o. rewrite Ht. repeat case_bool_decide; try done; exfalso; set_solver.
Qed.
Lemma acc_ok_ext n f f' sc : (∀ o, f o == f' o) → acc_ok n f sc → acc_ok n f' sc.
Proof.
  intros Hf (Hl & Hv & Hnd & Ht). split_and!; [done| |done|].
  - intros o Ho. destruct (Hv o Ho) as (v & ? & Hveq). exists v. by rewrite <-Hf.
  - intros o. rewrite Ht. by rewrite Hf.
Qed.

Lemma scan_gens_exact n pre sc gens st :
  acc_ok n (coverage pre) sc → positive pre → positive gens → sound gens →
  Forall (λ g, Forall (λ o, (o < n)%N) (bm_elems (gi_bm g))) gens →
  ∃ sc' st', scan_gens None gens sc st = (Done st', sc') ∧ acc_ok n (coverage (pre ++ gens)) sc'.
Proof.
  intros Hsc Hpre Hpos Hsd Hb. revert pre sc st Hsc Hpre.
  induction gens as [|g gens IH]; intros pre sc st Hsc Hpre; simpl.
  { exists sc, st. by rewrite app_nil_r. }
  apply Forall_cons in Hpos as [Hg Hpos], Hb as [Hbg Hb], Hsd as [Hsg Hsd].
  destruct (scan_ords_exact n (coverage pre) sc (gi_idf g) (bm_elems (gi_bm g)) st Hsc) as (sc1 & st1 & -> & Hsc1);
    [by intros o; apply coverage_bounds|done|done|by apply bm_elems_nodup|].
  rewrite (cons_middle g pre gens), app_assoc. apply IH; [done|done|done| |by apply Forall_app_2; [|repeat constructor]].
  eapply acc_ok_ext; [|exact Hsc1]. intros o. simpl. unfold coverage. rewrite q_sum_app. simpl.
  assert (weight o g = if bool_decide (o ∈ bm_elems (gi_bm g)) then gi_idf g else 0) as ->.
  { unfold weight. case_bool_decide as Ho; rewrite <-bm_contains_elems in Ho by done; [by rewrite Ho|].
    by apply not_true_is_false in Ho as ->. }
  case_bool_decide; lra.
Qed.

(** ** The candidates *)

Lemma probe_exact floor probes ord score rem :
  positive probes → rem == mass probes →
  let r := probe floor probes ord score rem in
  r == score + coverage probes ord ∨ (r < floor ∧ score + coverage probes ord < floor).
Proof.
  intros Hpos. revert score rem. induction Hpos as [|p probes Hp Hpos IH]; intros score rem Hrem; simpl.
  { left. unfold coverage. simpl. lra. }
  pose proof (coverage_bounds (p :: probes) ord ltac:(by constructor)) as Hb.
  destruct (q_ltb (score + rem) floor) eqn:E.
  { apply q_ltb_true in E. right. simpl in *. lra. }
  unfold mass, coverage in *. simpl in *.
  destruct (IH (if bm_contains (gi_bm p) ord then score + gi_idf p else score) (rem - gi_idf p)) as [Hr|[Hr1 Hr2]].
  - lra.
  - left. rewrite Hr. unfold weight at 2. destruct (bm_contains _ _); lra.
  - right. split; [done|]. unfold weight at 1. destruct (bm_contains (gi_bm p) ord); lra.
Qed.

(** The score of an ordinal and the test that qualifies it. *)
Definition exact_hit (gi : list gramInfo) (ord : N) : Hit :=
  mkHit ord (q_round (coverage gi ord / mass gi * 100)).
Definition qualifies (gi : list gramInfo) (threshold : Q) (keep : option (N → bool)) (ord : N) : bool :=
  Qle_bool (threshold * mass gi) (coverage gi ord) && kept keep ord.

(** Collection appends the qualified hits of the touched ordinals, in order. *)
Lemma collect_exact (gi gens probes : list gramInfo) floor maxScore tp (threshold : Q) topK keep (cs : list F32) n ords st out asked :
  positive probes → gi ≡ₚ gens ++ probes → tp == mass probes →
  floor == threshold * mass gi → maxScore == mass gi →
  (∀ o, (o < n)%N → ∃ v : F32, cs !! N.to_nat o = Some v ∧ v == coverage gens o) →
  Forall (λ o, (o < n)%N) ords →
  (collect None probes floor maxScore tp topK keep cs ords st out asked).1 =
  Done (foldl (select_step worseHit topK) out
          (exact_hit gi <$> filter (λ o, qualifies gi threshold keep o) ords)).1.
Proof.
  intros Hpos Hgi Htp Hfl Hmax Hcs Hords. revert st out asked.
  induction Hords as [|o ords Ho Hords IH]; intros st out asked; [done|].
  cbn [collect]. rewrite canceled_none. destruct (Hcs o Ho) as (v & Hv & Hveq). rewrite Hv. cbv zeta.
  destruct (probe_exact floor probes o v tp Hpos Htp) as [Hr|[Hr1 Hr2]]; simpl in *.
  - assert (probe floor probes o v tp == coverage gi o) as Hcov.
    { by rewrite Hr, Hveq, (coverage_perm _ _ _ Hgi), coverage_app. }
    rewrite filter_cons. destruct (q_ltb (probe (FO:=FO) floor probes o v tp) floor) eqn:Hlt.
    + rewrite decide_False; [apply IH|]. rewrite Is_true_true. unfold qualifies.
      apply q_ltb_true in Hlt. rewrite andb_true_iff, Qle_bool_iff. intros [? _]. lra.
    + apply q_ltb_false in Hlt. destruct (kept keep o) eqn:Hk; simpl.
      * rewrite decide_True; [|apply Is_true_true; unfold qualifies; rewrite Hk, andb_true_r, Qle_bool_iff; lra].
        etrans; [apply IH|]. cbn [fmap list_fmap foldl]. do 4 f_equal. unfold exact_hit. f_equal.
        apply q_round_eq. by rewrite Hcov, Hmax.
      * rewrite decide_False; [apply IH|]. unfold qualifies. rewrite Hk, andb_false_r. by intros [].
  - apply q_ltb_true in Hr1 as ->. rewrite filter_cons, decide_False; [apply IH|].
    rewrite Is_true_true. unfold qualifies. rewrite andb_true_iff, Qle_bool_iff. intros [? _].
    assert (coverage gi o == v + coverage probes o); [|lra].
    by rewrite Hveq, (coverage_perm _ _ _ Hgi), coverage_app.
Qed.

(** ** The ranking order *)

Lemma worse_cases (a b : Hit) :
  worseHit a b = true ↔ (Score a : Q) < Score b ∨ ((Score a : Q) == Score b ∧ (Ord b < Ord a)%N).
Proof.
  unfold worseHit. simpl. destruct (Qeq_bool (Score a) (Score b)) eqn:E; simpl.
  - apply Qeq_bool_iff in E. rewrite N.ltb_lt. split; [auto|]. intros [?|[_ ?]]; [lra|done].
  - apply qeq_bool_false in E. rewrite q_ltb_true. split; [auto|]. intros [?|[? _]]; [done|by destruct E].
Qed.

Lemma worse_weak : strict_weak worseHit.
Proof.
  split_and!.
  - intros a. apply not_true_is_false. rewrite worse_cases. intros [?|[_ ?]]; [lra|lia].
  - intros a b c. rewrite !Is_true_true, !worse_cases.
    intros [?|[? ?]] [?|[? ?]]; [left; lra|left; lra|left; lra|right; split; [lra|lia]].
  - intros a b c. rewrite <-!not_true_iff_false, !worse_cases. intros Hba Hcb [Hca|[Hca ?]].
    + apply Hba. destruct (Qlt_le_dec (Score b) (Score a)) as [|Hle]; [by left|].
      destruct Hcb. left. lra.
    + destruct (Q_dec (Score b) (Score a)) as [[?|?]|Heq]; [apply Hba; by left|apply Hcb; left; lra|].
      destruct (decide (Ord a < Ord b)%N); [apply Hba; by right|apply Hcb; right; split; [lra|lia]].
Qed.

(** ** The specification *)

(** The query grams known to the index. *)
Definition known (i : Index) (analyzed : bytes) : list gramInfo :=
  let s := gram_source (cfg i) analyzed in
  if bool_decide (s = []) then [] else omap (gram_info i) (EachGram s (gram_sizes (cfg i)) ∅).1.

(** The ordinals posted under one of the grams, each once. *)
Definition posted_ords (gi : list gramInfo) : list N :=
  elements (list_to_set (gi ≫= λ g, bm_elems (gi_bm g)) : gset N).

(** All qualifying ordinals, ranked, cut at [topK] when it is positive. *)
Definition spec_hits (i : Index) (analyzed : bytes) (threshold : Q) (topK : Z)
    (keep : option (N → bool)) : list Hit :=
  let gi := known i analyzed in
  take_top topK (sort_stable (λ a b, worseHit b a)
    (exact_hit gi <$> filter (λ o, qualifies gi threshold keep o) (posted_ords gi))).

Lemma known_positive i analyzed : numOrds i ≠ 0%N → positive (known i analyzed).
Proof.
  intros Hn. unfold known. case_bool_decide; [constructor|].
  apply Forall_forall. intros info (g & _ & Hg)%list_elem_of_omap. unfold gram_info in Hg.
  destruct (postings i !! g) as [bm|]; [|done]. destruct (N.eqb_spec (bm_card bm) 0); [done|].
  injection Hg as <-. simpl. apply lg_pos.
  assert (0 < inject_Z (Z.of_N (numOrds i)) / inject_Z (Z.of_N (bm_card bm))).
  { apply Qlt_shift_div_l; [by rewrite <-(Zlt_Qlt 0); lia|].
    rewrite Qmult_0_l. rewrite <-(Zlt_Qlt 0). lia. }
  change (inject_Z 1) with 1. lra.
Qed.

Lemma known_bound i analyzed :
  well_formed i → Forall (λ g, Forall (λ o, (o < numOrds i)%N) (bm_elems (gi_bm g))) (known i analyzed).
Proof. intros Hwf. unfold known. case_bool_decide; [constructor|]. by apply known_grams_bound. Qed.

Lemma known_sound i analyzed : well_formed i → sound (known i analyzed).
Proof. intros Hwf. unfold known. case_bool_decide; [constructor|]. by apply known_grams_sound. Qed.

Lemma elem_of_posted_ords gi o : sound gi →
  o ∈ posted_ords gi ↔ ∃ g, g ∈ gi ∧ bm_contains (gi_bm g) o = true.
Proof.
  intros Hs. unfold posted_ords. rewrite elem_of_elements, elem_of_list_to_set, list_elem_of_bind.
  unfold sound in Hs. rewrite Forall_forall in Hs. split; intros (g & H1 & H2); exists g.
  - split; [done|]. by apply bm_contains_elems; [apply Hs|].
  - split; [|done]. by apply bm_contains_elems; [apply Hs|].
Qed.

Lemma posted_ords_nodup gi : NoDup (posted_ords gi).
Proof. unfold posted_ords. apply NoDup_elements. Qed.

(** Every qualifying ordinal is touched by a generator: the pigeonhole. *)
Lemma pigeonhole gi gens probes threshold o :
  positive gi → gi ≡ₚ gens ++ probes →
  (probes = [] ∨ mass gi - threshold * mass gi < mass gens) →
  (∃ g, g ∈ gi ∧ bm_contains (gi_bm g) o = true) → threshold * mass gi <= coverage gi o →
  0 < coverage gens o.
Proof.
  intros Hpos Hgi Hsplit Hex Hq.
  assert (positive gens ∧ positive probes) as [Hg Hp] by (unfold positive in *; by rewrite <-Forall_app, <-Hgi).
  destruct Hsplit as [->|Hm].
  { rewrite app_nil_r in Hgi. apply coverage_pos; [done|]. by setoid_rewrite <-Hgi. }
  pose proof (coverage_bounds gens o Hg). pose proof (coverage_bounds probes o Hp) as Hb.
  assert (coverage gi o == coverage gens o + coverage probes o) as Hc.
  { by rewrite (coverage_perm _ _ _ Hgi), coverage_app. }
  assert (mass gi == mass gens + mass probes) as Hmg.
  { by rewrite (mass_perm _ _ Hgi), mass_app. }
  lra.
Qed.

Lemma qualifies_sub gi gi' threshold keep o :
  gi ≡ₚ gi' → qualifies gi threshold keep o = qualifies gi' threshold keep o.
Proof.
  intros Hp. unfold qualifies. f_equal. by rewrite (mass_perm _ _ Hp), (coverage_perm _ _ _ Hp).
Qed.

Lemma exact_hit_perm gi gi' o : gi ≡ₚ gi' → exact_hit gi o = exact_hit gi' o.
Proof.
  intros Hp. unfold exact_hit. f_equal. apply q_round_eq. by rewrite (mass_perm _ _ Hp), (coverage_perm _ _ _ Hp).
Qed.

Lemma posted_ords_bound i analyzed o :
  well_formed i → o ∈ posted_ords (known i analyzed) → (o < numOrds i)%N.
Proof.
  intros Hwf Ho. pose proof (known_sound i analyzed Hwf) as Hsd. apply elem_of_posted_ords in Ho as (g & Hg & Ho); [|done].
  unfold sound in Hsd. rewrite Forall_forall in Hsd. apply bm_contains_elems in Ho; [|by apply Hsd].
  pose proof (known_bound i analyzed Hwf) as Hb. rewrite Forall_forall in Hb.
  specialize (Hb g Hg). rewrite Forall_forall in Hb. by apply Hb.
Qed.

(** The touched ordinals that qualify are the posted ordinals that qualify. *)
Lemma touched_qualified n gi gens probes sc threshold keep :
  positive gi → sound gi → gi ≡ₚ gens ++ probes →
  (probes = [] ∨ mass gi - threshold * mass gi < mass gens) →
  acc_ok n (coverage gens) sc → (∀ o, o ∈ posted_ords gi → (o < n)%N) →
  filter (λ o, qualifies gi threshold keep o) (touched sc) ≡ₚ
  filter (λ o, qualifies gi threshold keep o) (posted_ords gi).
Proof.
  intros Hpos Hsd Hgi Hsplit (_ & _ & Hnd & Ht) Hb.
  apply NoDup_Permutation; [by apply NoDup_filter|apply NoDup_filter, posted_ords_nodup|].
  intros o. rewrite !list_elem_of_filter, Ht. split; intros [Hq Ho]; (split; [done|]).
  - apply elem_of_posted_ords; [done|]. setoid_rewrite Hgi. apply coverage_pos.
    + unfold positive in *. by rewrite <-Hgi.
    + rewrite coverage_app. assert (positive probes) as Hp.
      { unfold positive in *. rewrite Hgi in Hpos. by apply Forall_app in Hpos as [_ ?]. }
      pose proof (coverage_bounds probes o Hp). lra.
  - split; [by apply Hb|]. eapply pigeonhole; [done..| |]; [by apply elem_of_posted_ords in Ho|].
    apply Is_true_true, andb_true_iff in Hq as [Hq _]. by apply Qle_bool_iff in Hq.
Qed.

Lemma ranked_unique gi topK ords1 ords2 (out : list Hit) :
  ords1 ≡ₚ ords2 → out = select worseHit topK (exact_hit gi <$> ords1) →
  sort_slice (λ a b, worseHit b a) out =
  take_top topK (sort_stable (λ a b, worseHit b a) (exact_hit gi <$> ords2)).
Proof.
  intros Hp ->. pose proof worse_weak as Hw.
  assert (strict_weak (λ a b : Hit, worseHit b a)) as Hw'.
  { destruct Hw as (Hirr & Htr & Hntr). split_and!; [done|eauto|].
    intros a b c Hab Hbc. by eapply (Hntr c b a). }
  eapply (best_of_sorted worseHit topK (exact_hit gi <$> ords1)); [exact Hw|by apply select_ok| | | | |].
  - intros x y (o1 & -> & _)%list_elem_of_fmap (o2 & -> & _)%list_elem_of_fmap H1 H2.
    f_equal. rewrite <-not_true_iff_false, worse_cases in H1, H2. simpl in *.
    set (s1 := q_round _) in H1, H2. set (s2 := q_round (coverage gi o2 / _ * _)) in H1, H2.
    destruct (Q_dec s1 s2) as [[?|?]|He]; [destruct H1; by left|destruct H2; by left|].
    destruct (N.lt_trichotomy o1 o2) as [?|[?|?]]; [destruct H2; right; split; [lra|done]|done|].
    destruct H1. by right.
  - apply sort_slice_perm.
  - by apply sort_slice_sorted.
  - by rewrite sort_stable_perm, Hp.
  - by apply sort_stable_sorted.
Qed.

(** ** Recall *)

Lemma known_nil_ords : posted_ords [] = [].
Proof. done. Qed.

Lemma positive_mass gi : positive gi → gi ≠ [] → 0 < mass gi.
Proof.
  intros [|g gi' Hg Hgi] Hne; [done|]. unfold mass. simpl.
  assert (0 <= q_sum gi_idf gi'); [|lra]. apply q_sum_nonneg. eapply Forall_impl; [exact Hgi|].
  intros. simpl in *. lra.
Qed.

Lemma lookup_scan i analyzed threshold topK keep gi :
  well_formed i → gi = known i analyzed → gi ≠ [] → positive gi →
  let floor := threshold * sum_idf gi in
  let gi' := sort_slice (λ a b, gi_card a <? gi_card b)%N gi in
  let '(gens, probes) := split_gens (sum_idf gi - floor) 0 gi' in
  ∀ seen', ∃ sc st, scan_gens None gens (mkScratch (counts (new_scratch i)) [] seen') (0%N, 0%nat) = (Done st, sc) ∧
    ∀ r, collect None probes floor (sum_idf gi) (sum_idf probes) topK keep (counts sc) (touched sc) st ([], false) [] = r →
    ∃ out, r.1 = Done out ∧ sort_slice (λ a b, worseHit b a) out =
      take_top topK (sort_stable (λ a b, worseHit b a)
        (exact_hit gi <$> filter (λ o, qualifies gi threshold keep o) (posted_ords gi))).
Proof.
  intros Hwf Hgi Hne Hpos. cbv zeta. set (gi' := sort_slice _ gi).
  assert (gi ≡ₚ gi') as Hp by (unfold gi'; by rewrite sort_slice_perm).
  destruct (split_gens _ _ gi') as [gens probes] eqn:Hsplit. intros seen'.
  pose proof (split_gens_app (sum_idf gi - threshold * sum_idf gi) 0 gi') as Happ.
  rewrite Hsplit in Happ. simpl in Happ. apply split_gens_mass in Hsplit.
  rewrite <-Happ in Hp. clear Happ.
  assert (positive gens ∧ positive probes) as [Hpg Hpp].
  { unfold positive in *. by rewrite <-Forall_app, <-Hp. }
  assert (Forall (λ g, Forall (λ o, (o < numOrds i)%N) (bm_elems (gi_bm g))) (gens ++ probes)) as Hb.
  { rewrite <-Hp, Hgi. by apply known_bound. }
  assert (sound gi) as Hsd by (rewrite Hgi; by apply known_sound).
  assert (sound gens) as Hsg by (unfold sound in *; rewrite Hp in Hsd; by apply Forall_app in Hsd as [? _]).
  apply Forall_app in Hb as [Hb _].
  destruct (scan_gens_exact (numOrds i) [] (mkScratch (counts (new_scratch i)) [] seen') gens (0%N, 0%nat))
    as (sc & st & Hscan & Hsc); [|constructor|done|done|done|].
  { split_and!; simpl; [by rewrite length_replicate| |constructor|].
    - intros o Ho. exists 0. split; [|reflexivity]. apply lookup_replicate_2. lia.
    - intros o. split; [by intros ?%elem_of_nil|]. unfold coverage. simpl. intros [_ ?]. lra. }
  exists sc, st. split; [exact Hscan|]. simpl in Hsc. intros r <-.
  assert (Forall (λ o, (o < numOrds i)%N) (touched sc)) as Ht.
  { apply Forall_forall. intros o Ho. by apply Hsc in Ho as [? _]. }
  rewrite (collect_exact gi gens probes _ _ _ threshold topK keep (counts sc) (numOrds i));
    [|done|done|by rewrite sum_idf_mass|by rewrite sum_idf_mass|by rewrite sum_idf_mass|apply Hsc|done].
  eexists. split; [done|]. eapply ranked_unique; [|done].
  eapply touched_qualified; [done|done|done| |exact Hsc|].
  - destruct Hsplit as [->|Hm]; [by left|right]. rewrite sum_idf_mass in Hm. lra.
  - intros o. rewrite Hgi. by apply posted_ords_bound.
Qed.

Lemma lookup_exact i pool analyzed threshold topK keep :
  well_formed i → clean i pool →
  (lookup None i pool analyzed threshold topK keep).1.1 = Done (spec_hits i analyzed threshold topK keep).
Proof.
  intros Hwf Hclean. unfold lookup.
  destruct (N.eqb_spec (numOrds i) 0) as [Hz|Hnz].
  { unfold spec_hits. assert (posted_ords (known i analyzed) = []) as ->; [|exact (eq_sym (f_equal Done (take_top_nil topK)))].
    destruct (posted_ords (known i analyzed)) as [|o l] eqn:Hl; [done|].
    pose proof (posted_ords_bound i analyzed o Hwf) as Hb. rewrite Hl in Hb.
    specialize (Hb ltac:(by left)). lia. }
  pose proof (known_positive i analyzed Hnz) as Hpos.
  unfold spec_hits. unfold known in *. case_bool_decide as Hs.
  { exact (eq_sym (f_equal Done (take_top_nil topK))). }
  rewrite (getScratch_clean i pool) by done.
  change (seen (new_scratch i)) with (∅ : gset bytes).
  destruct (EachGram _ _ _) as [gs seen'] eqn:Hgs. simpl in Hpos |- *.
  destruct (decide (omap (gram_info i) gs = [])) as [Hnil|Hne].
  { rewrite Hnil. exact (eq_sym (f_equal Done (take_top_nil topK))). }
  rewrite bool_decide_eq_false_2 by done. simpl.
  match goal with |- context [Qeq_bool ?a ?b] => destruct (Qeq_bool a b) eqn:Hm0 end.
  { apply Qeq_bool_iff in Hm0. rewrite sum_idf_mass in Hm0. simpl in Hm0. unfold inject_Z in Hm0. pose proof (positive_mass _ Hpos Hne). lra. }
  pose proof (lookup_scan i analyzed threshold topK keep _ Hwf eq_refl) as Hscan.
  unfold known in Hscan. rewrite bool_decide_eq_false_2, Hgs in Hscan by done.
  specialize (Hscan Hne Hpos). simpl in Hscan.
  destruct (split_gens _ _ _) as [gens probes]. destruct (Hscan seen') as (sc & st & -> & Hc).
  destruct (Hc _ eq_refl) as (out & -> & Hout). simpl. by rewrite Hout.
Qed.

(** C8: the pigeonhole algorithm loses nothing, in exact arithmetic.  The statement is
    about the lookup with its weights, sums and scores computed over the rationals and
    with the conversions between float64 and float32 the identity ([exact_ops]): with
    a logarithm positive above 1, it shows that the pruning is right, not that no
    rounding happens.  The program accumulates in float32 and can lose an entry at a
    threshold its coverage only just reaches ([float32_drops_full_coverage], see the
    findings).  So computed, on a well-formed index with a clean scratch pool, the
    lookup with its early exits, unstable sorts and bounded heap returns exactly the
    specified hits: the ordinals posted under a known query gram whose IDF-weighted
    coverage reaches the threshold fraction of the total weight and which [keep]
    accepts, scored by rounded coverage, ranked by score then ordinal, cut at [topK];
    without a cut no such ordinal is missing. *)
Theorem lookup_recall_complete i pool analyzed threshold topK keep :
  well_formed i → clean i pool →
  let gi := known i analyzed in
  let hits := spec_hits i analyzed threshold topK keep in
  (lookup None i pool analyzed threshold topK keep).1.1 = Done hits ∧
  StronglySorted (λ a b, worseHit a b = false) hits ∧
  (∀ o, o ∈ Ord <$> hits → threshold * mass gi <= coverage gi o ∧ kept keep o = true) ∧
  ((topK ≤ 0)%Z → ∀ g o, g ∈ gi → bm_contains (gi_bm g) o = true →
     threshold * mass gi <= coverage gi o → kept keep o = true → exact_hit gi o ∈ hits).
Proof.
  intros Hwf Hclean gi hits. split; [by apply lookup_exact|].
  assert (strict_weak (λ a b : Hit, worseHit b a)) as Hw'.
  { destruct worse_weak as (Hirr & Htr & Hntr). split_and!; [done|eauto|].
    intros a b c Hab Hbc. by eapply (Hntr c b a). }
  unfold hits, spec_hits. fold gi.
  set (l := exact_hit gi <$> filter _ (posted_ords gi)).
  assert (∀ h, h ∈ take_top topK (sort_stable (λ a b, worseHit b a) l) → h ∈ l) as Hsub.
  { intros h. unfold take_top. destruct (topK <=? 0)%Z; [by rewrite sort_stable_perm|].
    intros (k & Hk%list_elem_of_lookup_2 & _)%elem_of_take. by rewrite sort_stable_perm in Hk. }
  split_and!.
  - pose proof (sort_stable_sorted _ l Hw') as Hsort. unfold take_top.
    destruct (topK <=? 0)%Z; [done|]. rewrite <-(take_drop (Z.to_nat topK)) in Hsort.
    by eapply StronglySorted_app_1_l.
  - intros o (h & -> & (o' & -> & [Hq _]%list_elem_of_filter)%Hsub%list_elem_of_fmap)%list_elem_of_fmap.
    simpl. apply Is_true_true, andb_true_iff in Hq as [Hq ?]. by apply Qle_bool_iff in Hq.
  - intros Htop g o Hg Ho Hq Hk. unfold take_top. rewrite (proj2 (Z.leb_le _ _)) by done.
    rewrite sort_stable_perm. apply list_elem_of_fmap. exists o. split; [done|].
    apply list_elem_of_filter. split; [|apply elem_of_posted_ords; [by apply known_sound|eauto]].
    apply Is_true_true, andb_true_iff. by rewrite Qle_bool_iff.
Qed.
End exact.

(** ** Concrete inputs *)

#[local] Existing Instance default_runtime.
#[local] Existing Instance set_bitmap.

(** Six entries, the first with a gram of its own. *)
Definition six_config : Config := mkConfig [2%Z] false.
Definition six_entries : list (N * list bytes) :=
  [(0%N, [$"ab"]); (1%N, [$"cd"]); (2%N, [$"cd"]); (3%N, [$"cd"]); (4%N, [$"cd"]); (5%N, [$"cd"])].
Definition six_index : option Index :=
  b0 ← NewBuilder six_config; b1 ← add_all six_entries b0; fst <$> Finish b1.

(** The exact lookup finds the self match at the highest threshold. *)
Definition ident_log (x : Q) : Q := x.
Lemma ident_log_pos x : 1 < x → 0 < ident_log x.
Proof. unfold ident_log. lra. Qed.

Definition hit_ords {FO : FloatOps} (r : run (list Hit)) : option (list N) :=
  match r with Done hits => Some (Ord <$> hits) | _ => None end.

(** [math.Log] at the one argument the example takes it of, 1 + 6/1. *)
Definition log_at_7 (x : spec_float) : spec_float :=
  if SFeqb x (sf_of_Z 53 1024 7) then log_7 else S754_nan.

(** In the program's arithmetic the lookup is not recall-complete at the
    highest threshold.  Weights are computed in binary64 but accumulated in
    binary32, so with six entries, of which only entry 0 carries the gram "ab",
    the query "ab" has the single weight log 7, which binary32 rounds down: entry
    0 covers the query completely, the exact lookup returns it, and the program
    drops it at threshold 1 (and keeps it at threshold 1/2). *)
Theorem float32_drops_full_coverage :
  (i ← six_index; Some (posted (postings i) $"ab", numOrds i)) = Some ([0%N], 6%N) ∧
  (i ← six_index; Some (Ord <$> spec_hits ident_log i $"ab" 1 0 None)) = Some [0%N] ∧
  (i ← six_index; hit_ords (lookup (FO:=ieee_ops log_at_7) None i None $"ab" (sf_of_Z 53 1024 1) 0 None).1.1)
    = Some [] ∧
  (i ← six_index; hit_ords (lookup (FO:=ieee_ops log_at_7) None i None $"ab"
     (SFdiv 53 1024 (sf_of_Z 53 1024 1) (sf_of_Z 53 1024 2)) 0 None).1.1) = Some [0%N].
Proof. split_and!; vm_compute; reflexivity. Qed.

(** A small well-formed index for the witnesses. *)
Definition two_index : Index :=
  mkIndex six_config
    {[ $"ab" := bm_add (bm_add bm_new 0) 1; $"cd" := bm_add bm_new 1 ]} 2.

Lemma two_index_wf : well_formed two_index.
Proof.
  split; [by intros ???|]. intros g x. unfold posted, two_index. simpl.
  destruct (decide (g = $"ab")) as [->|Hab].
  { rewrite lookup_insert_eq. change (x ∈ [0%N; 1%N] → (x < 2)%N). set_solver by lia. }
  rewrite lookup_insert_ne by done. destruct (decide (g = $"cd")) as [->|Hcd].
  { rewrite lookup_singleton_eq. change (x ∈ [1%N] → (x < 2)%N). set_solver by lia. }
  rewrite lookup_singleton_ne by done. simpl. by intros ?%elem_of_nil.
Qed.

Lemma lookup_recall_complete_witness :
  (lookup (FO:=exact_ops ident_log) None two_index None $"abcd" (1 # 2) 1 None).1.1 =
  Done (spec_hits ident_log two_index $"abcd" (1 # 2) 1 None) ∧
  Ord <$> spec_hits ident_log two_index $"abcd" (1 # 2) 1 None = [1%N].
Proof.
  split; [|vm_compute; reflexivity].
  apply (lookup_recall_complete ident_log ident_log_pos two_index None $"abcd" (1 # 2) 1 None);
    [apply two_index_wf|exact I].
Defined.

Lemma lookup_pool_and_cancel_witness :
  (lookup (FO:=exact_ops ident_log) (Some (λ _, true)) two_index None $"abcd" (1 # 2) 1 None).1.1 =
    (lookup (FO:=exact_ops ident_log) None two_index None $"abcd" (1 # 2) 1 None).1.1.
Proof.
  destruct (lookup_pool_and_cancel (FO:=exact_ops ident_log) (Some (λ _, true)) two_index None
    $"abcd" (1 # 2) 1%Z None two_index_wf I) as (_ & [H|[H _]] & _); [|exact H].
  exfalso. assert (hit_ords (lookup (FO:=exact_ops ident_log) (Some (λ _, true)) two_index None
    $"abcd" (1 # 2) 1 None).1.1 = None) as Hn by by rewrite H.
  revert Hn. vm_compute. discriminate.
Defined.

Lemma ngram_build_spec_witness :
  ∃ i b, (b0 ← NewBuilder six_config; b1 ← add_all six_entries b0; Finish b1) = Some (i, b) ∧
    cfg i = six_config ∧ well_formed i.
Proof.
  destruct (ngram_build_spec six_config six_entries) as (i & b & Hb & Hc & _ & _ & Hwf).
  { repeat constructor; lia. }
  exists i, b. split; [exact Hb|split; [exact Hc|]]. apply Hwf.
  intros ord keys Hin. apply (proj1 (Forall_forall (λ a, (a.1 < max_u32)%N) six_entries)) in Hin; [exact Hin|].
  repeat constructor.
Defined.
