(* ===== verification/Exact.v ===== *)
(** [engine/exact/exact.go]: the exact index, analyzed key to entry ordinals.

    The postings of all keys share one slice and a key's run is a packed
    (offset, length) locator; the key bytes share one arena, and the map's keys
    are views into it.  The model keeps each key with the view it was made from, so
    that the arena's write-once discipline is a property. *)

From S2P Require Import Prelude.
From S2P Require Import Runtime.
From S2P Require Import Grams.

Definition lenBits : N := 20.
Definition lenMask : N := (N.shiftl 1 lenBits - 1)%N.
Definition maxRun : N := lenMask.
Definition maxOff : N := (N.shiftl 1 44 - 1)%N.

(** [packed(uint64(off)<<lenBits | uint64(n))] and its two fields. *)
Definition pack (off n : N) : N := N.lor (u64 (N.shiftl off lenBits)) n.
Definition pack_off (p : N) : N := N.shiftr p lenBits.
Definition pack_len (p : N) : N := N.land p lenMask.

Record Index := mkIndex {
  (** key ↦ (arena offset and length of its view, packed run) *)
  m : gmap bytes ((nat * nat) * N);
  arena : bytes;
  postings : list N;
  numOrds : N;
}.

(** [None] is the nil map of a finished builder. *)
Record Builder := mkBuilder { b_m : option (gmap bytes (list N)) }.

Inductive exact_error :=
  | KeyOverflow (key : bytes) (count : nat)
  | OffsetOverflow (off : N)
  | NoSuccessor (key : bytes) (ord : N)
  | EmptyRun
  | LengthsDiffer (keys runs : nat)
  | KeyLengthOutOfBounds (i : nat) (len : Z)
  | RunLengthOutOfRange (i : nat) (len : Z)
  | RunExceedsPostings (i : nat) (len : Z)
  | DuplicateKey (key : bytes)
  | ArenaSum (sum len : Z)
  | PostingsSum (sum len : Z)
  | OrdinalOutOfRange (ord : N).

Definition NewBuilder : Builder := mkBuilder (Some ∅).

(** One key of [Add]; [None] is the write to a nil map. *)
Definition add_key (ord : N) (b : Builder) (k : bytes) : option Builder :=
  if bool_decide (k = []) then Some b else
  let p := match b_m b with Some bm => default [] (bm !! k) | None => [] end in
  if bool_decide (last p = Some ord) then Some b else
  bm ← b_m b; Some (mkBuilder (Some (<[k := p ++ [ord]]> bm))).

Definition Add (b : Builder) (ord : N) (analyzedKeys : list bytes) : option Builder :=
  foldl (λ ob k, b ← ob; add_key ord b k) (Some b) analyzedKeys.

(** [copy(dst[off:], src)] *)
Definition copy_at (dst : bytes) (off : nat) (src : bytes) : bytes :=
  take off dst ++ take (length dst - off) src ++ drop (off + length src) dst.

(** The first loop of [Finish]: the run lengths and the totals. *)
Fixpoint finish_totals (l : list (bytes * list N)) : result exact_error (nat * nat) :=
  match l with
  | [] => Ok (0, 0)
  | (k, p) :: l' =>
      if (maxRun <? N.of_nat (length p))%N then Err (KeyOverflow k (length p))
      else '(ords, keyBytes) ← finish_totals l'; Ok (length p + ords, length k + keyBytes)
  end.

(** One iteration of the second loop; [off] is the arena position. *)
Definition finish_key (st : Index * nat) (kp : bytes * list N) : result exact_error (Index * nat) :=
  let '(idx, off) := st in
  let '(k, p) := kp in
  let pOff := N.of_nat (length (postings idx)) in
  if (maxOff <? pOff)%N then Err (OffsetOverflow pOff) else
  match last p with
  | None => Err EmptyRun
  | Some l =>
      if (l =? max_u32)%N then Err (NoSuccessor k l) else
      let n := min (length (arena idx) - off) (length k) in
      let arena' := copy_at (arena idx) off k in
      Ok (mkIndex (<[slice arena' off (off + n) := ((off, n), pack pOff (N.of_nat (length p)))]> (m idx))
            arena' (postings idx ++ p)
            (if (numOrds idx <? l + 1)%N then (l + 1)%N else numOrds idx),
          off + n)
  end.

Fixpoint finish_keys (st : Index * nat) (l : list (bytes * list N)) : result exact_error (Index * nat) :=
  match l with
  | [] => Ok st
  | kp :: l' => st ← finish_key st kp; finish_keys st l'
  end.

Section finish.
Context `{GoRuntime}.

Definition Finish (b : Builder) : result exact_error Index * Builder :=
  let src := default ∅ (b_m b) in
  (totals ← finish_totals (range_map 0 src);
   st ← finish_keys (mkIndex ∅ (replicate totals.2 0%N) [] 0, 0) (range_map 1 src);
   Ok st.1, mkBuilder None).
End finish.

(** The loop of [Restore] over keys and runs, at positions [aOff], [pOff]. *)
Fixpoint restore_keys (i : nat) (idx : Index) (aOff pOff : Z) (lens : list (Z * Z))
    : result exact_error (Index * Z * Z) :=
  match lens with
  | [] => Ok (idx, aOff, pOff)
  | (kl, rl) :: lens' =>
      if (kl <? 1)%Z || (Z.of_nat (length (arena idx)) - aOff <? kl)%Z then Err (KeyLengthOutOfBounds i kl)
      else if (rl <? 1)%Z || (Z.of_N maxRun <? rl)%Z then Err (RunLengthOutOfRange i rl)
      else if (Z.of_nat (length (postings idx)) - pOff <? rl)%Z then Err (RunExceedsPostings i rl)
      else if (Z.of_N maxOff <? pOff)%Z then Err (OffsetOverflow (Z.to_N pOff))
      else
        let a := Z.to_nat aOff in
        let n := Z.to_nat kl in
        let k := slice (arena idx) a (a + n) in
        match m idx !! k with
        | Some _ => Err (DuplicateKey k)
        | None =>
            restore_keys (S i)
              (mkIndex (<[k := ((a, n), pack (Z.to_N pOff) (Z.to_N rl))]> (m idx))
                 (arena idx) (postings idx) (numOrds idx))
              (aOff + kl) (pOff + rl) lens'
        end
  end.

Fixpoint restore_ords (num : N) (ords : list N) : result exact_error N :=
  match ords with
  | [] => Ok num
  | o :: ords' =>
      if (o =? max_u32)%N then Err (OrdinalOutOfRange o)
      else restore_ords (if (num <? o + 1)%N then (o + 1)%N else num) ords'
  end.

Definition Restore (ar : bytes) (keyLens runLens : list Z) (ps : list N) : result exact_error Index :=
  _ ← fail_if (negb (length keyLens =? length runLens)) (LengthsDiffer (length keyLens) (length runLens));
  '(idx, aOff, pOff) ← restore_keys 0 (mkIndex ∅ ar ps 0) 0 0 (zip keyLens runLens);
  _ ← fail_if (negb (aOff =? Z.of_nat (length ar))%Z) (ArenaSum aOff (Z.of_nat (length ar)));
  _ ← fail_if (negb (pOff =? Z.of_nat (length ps))%Z) (PostingsSum pOff (Z.of_nat (length ps)));
  n ← restore_ords 0 ps;
  Ok (mkIndex (m idx) (arena idx) (postings idx) n).

(** [None] is the slice-out-of-range panic; a miss is nil. *)
Definition Lookup (i : Index) (analyzed : bytes) : option (list N) :=
  match m i !! analyzed with
  | None => Some []
  | Some (_, p) =>
      let off := N.to_nat (pack_off p) in
      let n := N.to_nat (pack_len p) in
      if off + n <=? length (postings i) then Some (slice (postings i) off (off + n)) else None
  end.

Definition Keys (i : Index) : nat := size (m i).
Definition NumOrds (i : Index) : N := numOrds i.

Definition SortedKeys `{GoRuntime} (i : Index) : list bytes :=
  sort_slice (less_by id) (range_map 0 (m i)).*1.

(** ** The packed locator *)

Lemma lenMask_ones : lenMask = N.ones 20.
Proof. done. Qed.

Lemma shiftr_small n : (n <= maxRun)%N → N.shiftr n lenBits = 0%N.
Proof.
  intros Hn. rewrite N.shiftr_div_pow2. apply N.div_small.
  change maxRun with (2 ^ 20 - 1)%N in Hn. change lenBits with 20%N. lia.
Qed.

Lemma pack_fields off n :
  (off <= maxOff)%N → (n <= maxRun)%N →
  pack_off (pack off n) = off ∧ pack_len (pack off n) = n ∧ (pack off n < 2 ^ 64)%N.
Proof.
  intros Hoff Hn.
  assert (N.shiftl off lenBits < 2 ^ 64)%N as Hs.
  { rewrite N.shiftl_mul_pow2. change (2 ^ 64)%N with (2 ^ 44 * 2 ^ lenBits)%N.
    apply N.mul_lt_mono_pos_r; [done|]. change maxOff with (2 ^ 44 - 1)%N in Hoff. lia. }
  assert (pack_off (pack off n) = off) as Ho.
  { unfold pack, pack_off. rewrite u64_small by done. rewrite N.shiftr_lor, (shiftr_small n Hn).
    rewrite N.shiftr_shiftl_l by reflexivity. by rewrite N.sub_diag, N.shiftl_0_r, N.lor_0_r. }
  split_and!; [done| |].
  - unfold pack, pack_len. rewrite u64_small by done. rewrite N.land_lor_distr_l, lenMask_ones, !N.land_ones.
    rewrite N.shiftl_mul_pow2, N.Div0.mod_mul. simpl. apply N.mod_small.
    change maxRun with (2 ^ 20 - 1)%N in Hn. lia.
  - unfold pack_off in Ho. rewrite N.shiftr_div_pow2 in Ho. change maxOff with (2 ^ 44 - 1)%N in Hoff.
    change lenBits with 20%N in Ho. zlia.
Qed.

(** ** The arena *)

Lemma copy_at_length dst off src :
  off + length src ≤ length dst → length (copy_at dst off src) = length dst.
Proof. intros H. unfold copy_at. rewrite !length_app, !length_take, length_drop. lia. Qed.

Lemma copy_at_take dst off src :
  off + length src ≤ length dst → take (off + length src) (copy_at dst off src) = take off dst ++ src.
Proof.
  intros H. unfold copy_at. rewrite (take_ge src) by lia.
  rewrite (app_assoc (take off dst)). apply take_app_length'. rewrite length_app, length_take. lia.
Qed.

Lemma slice_take {A} (l : list A) a b : slice l a b = drop a (take b l).
Proof.
  unfold slice. rewrite skipn_firstn_comm. done.
Qed.

Lemma copy_at_slice dst off src :
  off + length src ≤ length dst → slice (copy_at dst off src) off (off + length src) = src.
Proof.
  intros H. rewrite slice_take, copy_at_take by done. apply drop_app_length'. rewrite length_take. lia.
Qed.

Lemma app_cons_snoc {A} (pre : list A) x l1 y l2 :
  pre ++ [x] = l1 ++ y :: l2 → (l2 = [] ∧ l1 = pre ∧ y = x) ∨ ∃ l2', pre = l1 ++ y :: l2'.
Proof.
  intros H. destruct l2 as [|z l2 _] using rev_ind.
  - left. by apply app_inj_tail in H as [-> ->].
  - right. exists l2. rewrite app_comm_cons, app_assoc in H. by apply app_inj_tail in H as [-> _].
Qed.

Lemma concat_split {A B} (f : A → list B) l1 x l2 :
  concat (f <$> l1 ++ x :: l2) = concat (f <$> l1) ++ f x ++ concat (f <$> l2).
Proof. rewrite fmap_app, concat_app. done. Qed.

Lemma slice_middle {A} (a b c : list A) : slice (a ++ b ++ c) (length a) (length a + length b) = b.
Proof. unfold slice. by rewrite drop_app_length, Nat.add_comm, Nat.add_sub, take_app_length. Qed.

(** ** Located runs *)

(** The map locates the keys and runs of [pre], laid out back to back. *)
Definition located (pre : list (bytes * list N)) (idx : Index) : Prop :=
  (∀ l1 k p l2, pre = l1 ++ (k, p) :: l2 →
     m idx !! k = Some ((length (concat l1.*1), length k),
       pack (N.of_nat (length (concat l1.*2))) (N.of_nat (length p))) ∧
     (N.of_nat (length (concat l1.*2)) <= maxOff)%N) ∧
  (∀ k, is_Some (m idx !! k) → k ∈ pre.*1).

Lemma located_snoc pre k p idx ar ps num :
  located pre idx → k ∉ pre.*1 → (N.of_nat (length (concat pre.*2)) <= maxOff)%N →
  located (pre ++ [(k, p)])
    (mkIndex (<[k := ((length (concat pre.*1), length k),
       pack (N.of_nat (length (concat pre.*2))) (N.of_nat (length p)))]> (m idx)) ar ps num).
Proof.
  intros [Hm Hdom] Hfresh Hoff. split; simpl.
  - intros l1 k' p' l2 Hsplit. apply app_cons_snoc in Hsplit as [(-> & -> & [= -> ->])|[l2' Hpre]].
    + by rewrite lookup_insert_eq.
    + destruct (Hm _ _ _ _ Hpre) as [Hmk Hok]. split; [|done]. rewrite lookup_insert_ne; [done|].
      intros ->. apply Hfresh. rewrite Hpre, fmap_app. set_solver.
  - intros k' Hk'. rewrite fmap_app. apply lookup_insert_is_Some in Hk' as [->|[_ Hk']]; [set_solver|].
    apply elem_of_app. left. by apply Hdom.
Qed.

Lemma located_nil ar ps num : located [] (mkIndex ∅ ar ps num).
Proof.
  split; simpl; [intros l1 k p l2 Hl; by destruct l1|]. intros k [? Hk]. by rewrite lookup_empty in Hk.
Qed.

Lemma located_inv pre idx k a n p :
  located pre idx → m idx !! k = Some ((a, n), p) → ∃ l1 run l2, pre = l1 ++ (k, run) :: l2 ∧
    a = length (concat l1.*1) ∧ n = length k ∧
    p = pack (N.of_nat (length (concat l1.*2))) (N.of_nat (length run)) ∧
    (N.of_nat (length (concat l1.*2)) <= maxOff)%N.
Proof.
  intros [Hm Hdom] Hk.
  assert (k ∈ pre.*1) as ([k' run] & -> & (l1 & l2 & Hsp)%list_elem_of_split)%list_elem_of_fmap
    by (apply Hdom; by eexists).
  exists l1, run, l2. destruct (Hm _ _ _ _ Hsp) as [Hmk Hok]. simpl in *. rewrite Hk in Hmk. by simplify_eq.
Qed.

Lemma located_lookup pre idx k :
  located pre idx → postings idx = concat pre.*2 →
  (∀ k p, (k, p) ∈ pre → (N.of_nat (length p) <= maxRun)%N) →
  (¬ k ∈ pre.*1 ∧ Lookup idx k = Some []) ∨ (∃ run, (k, run) ∈ pre ∧ Lookup idx k = Some run).
Proof.
  intros Hloc Hps Hrun. unfold Lookup. destruct (m idx !! k) as [[[a n] p]|] eqn:Hk.
  - right. destruct (located_inv _ _ _ _ _ _ Hloc Hk) as (l1 & run & l2 & Hsp & -> & -> & -> & Hok).
    exists run. assert ((k, run) ∈ pre) as Hin by (rewrite Hsp; set_solver). split; [done|].
    assert (postings idx = concat l1.*2 ++ run ++ concat l2.*2) as Hps'.
    { rewrite Hps, Hsp. apply (concat_split snd). }
    destruct (pack_fields (N.of_nat (length (concat l1.*2))) (N.of_nat (length run))) as (-> & -> & _);
      [done|by eapply Hrun|].
    rewrite !Nat2N.id, Hps'. rewrite (proj2 (Nat.leb_le _ _)) by (rewrite !length_app; lia).
    by rewrite slice_middle.
  - left. split; [|done]. intros ([k' run] & -> & (l1 & l2 & Hsp)%list_elem_of_split)%list_elem_of_fmap.
    destruct Hloc as [Hm _]. simpl in Hk. by rewrite (proj1 (Hm _ _ _ _ Hsp)) in Hk.
Qed.

Lemma located_view pre idx k a n p :
  located pre idx → arena idx = concat pre.*1 → m idx !! k = Some ((a, n), p) →
  slice (arena idx) a (a + n) = k.
Proof.
  intros Hloc Har Hk. destruct (located_inv _ _ _ _ _ _ Hloc Hk) as (l1 & run & l2 & Hsp & -> & -> & _).
  rewrite Har, Hsp, (concat_split fst). apply slice_middle.
Qed.

(** ** Finish *)

(** The loop invariant: [pre] is done, [rest] is to come. *)
Definition fin_ok (pre rest : list (bytes * list N)) (st : Index * nat) : Prop :=
  let '(idx, off) := st in
  off = length (concat pre.*1) ∧
  length (arena idx) = off + length (concat rest.*1) ∧
  take off (arena idx) = concat pre.*1 ∧
  postings idx = concat pre.*2 ∧
  located pre idx ∧
  (∀ k p l, (k, p) ∈ pre → last p = Some l → (l < numOrds idx)%N) ∧
  (numOrds idx = 0%N ∨ ∃ k p l, (k, p) ∈ pre ∧ last p = Some l ∧ numOrds idx = (l + 1)%N).

Lemma finish_key_ok pre k p l rest st :
  fin_ok pre ((k, p) :: rest) st → NoDup ((k, p) :: pre).*1 → last p = Some l → l ≠ max_u32 →
  (N.of_nat (length (concat pre.*2)) <= maxOff)%N →
  ∃ st', finish_key st (k, p) = Ok st' ∧ fin_ok (pre ++ [(k, p)]) rest st'.
Proof.
  destruct st as [idx off]. intros (Hoff & Hlen & Htake & Hps & Hloc & Hnum & Hmax) Hnd Hl Hne Hpo.
  csimpl in *. rewrite length_app in Hlen. apply NoDup_cons in Hnd as [Hfresh _].
  unfold finish_key. rewrite Hps.
  destruct (N.ltb_spec maxOff (N.of_nat (length (concat pre.*2)))); [lia|].
  rewrite Hl. destruct (N.eqb_spec l max_u32); [done|].
  replace (min (length (arena idx) - off) (length k)) with (length k) by lia.
  rewrite copy_at_slice by lia. eexists. split; [done|]. unfold fin_ok. csimpl.
  rewrite !fmap_app, !concat_app. simpl. rewrite !app_nil_r, !length_app, <-Hoff. split_and!.
  - done.
  - rewrite copy_at_length by lia. lia.
  - rewrite copy_at_take by lia. by rewrite Htake.
  - done.
  - rewrite Hoff. by apply located_snoc.
  - intros k' p' l' Hin Hl'. apply elem_of_app in Hin as [Hin|[= -> ->]%list_elem_of_singleton].
    + specialize (Hnum _ _ _ Hin Hl'). case_match; lia.
    + simplify_eq. case_match; lia.
  - destruct (N.ltb_spec (numOrds idx) (l + 1)).
    + right. exists k, p, l. set_solver.
    + destruct Hmax as [Hz|(k' & p' & l' & ? & ? & ?)]; [lia|]. right. exists k', p', l'. set_solver.
Qed.

(** What the packed representation promises of a source map. *)
Definition represents (src : gmap bytes (list N)) (idx : Index) : Prop :=
  (∀ k, Lookup idx k = Some (default [] (src !! k))) ∧
  (∀ k a n p, m idx !! k = Some ((a, n), p) → slice (arena idx) a (a + n) = k) ∧
  (∀ k p x, src !! k = Some p → last p = Some x → (x < numOrds idx)%N) ∧
  (numOrds idx = 0%N ∨ ∃ k p, src !! k = Some p ∧ last p = Some (numOrds idx - 1)%N).

Lemma fin_ok_represents (src : gmap bytes (list N)) pre idx off :
  pre ≡ₚ map_to_list src → fin_ok pre [] (idx, off) →
  (∀ k p, src !! k = Some p → N.of_nat (length p) <= maxRun)%N →
  represents src idx.
Proof.
  intros Hpre (Hoff & Hlen & Htake & Hps & Hloc & Hnum & Hmax) Hrun.
  simpl in Hlen. rewrite Nat.add_0_r in Hlen. rewrite <-Hlen, firstn_all in Htake.
  assert (∀ k p, (k, p) ∈ pre ↔ src !! k = Some p) as Hin.
  { intros k p. by rewrite Hpre, elem_of_map_to_list. }
  split_and!.
  - intros k. destruct (located_lookup pre idx k Hloc Hps) as [[Hno ->]|(run & Hk & ->)].
    + setoid_rewrite Hin. done.
    + destruct (src !! k) as [p|] eqn:Hk; [|done]. destruct Hno. apply Hin in Hk.
      apply list_elem_of_fmap. by exists (k, p).
    + apply Hin in Hk. by rewrite Hk.
  - intros k a n p. by apply located_view with (pre := pre).
  - intros k p x Hk Hx. apply Hin in Hk. by eapply Hnum.
  - destruct Hmax as [|(k & p & l & Hk & Hl & ->)]; [by left|right]. exists k, p. rewrite <-Hin.
    by rewrite N.add_sub.
Qed.

Lemma finish_keys_cases (src : gmap bytes (list N)) pre rest st :
  pre ++ rest ≡ₚ map_to_list src → (∀ k p, src !! k = Some p → p ≠ []) →
  fin_ok pre rest st →
  match finish_keys st rest with
  | Ok st' => fin_ok (pre ++ rest) [] st'
  | Err (OffsetOverflow off) => (maxOff < off)%N
  | Err (NoSuccessor k x) => x = max_u32 ∧ ∃ p, src !! k = Some p ∧ last p = Some x
  | Err _ => False
  end.
Proof.
  intros Hp Hne. revert pre st Hp. induction rest as [|[k p] rest IH]; intros pre st Hp Hst.
  { simpl. by rewrite app_nil_r. }
  assert (src !! k = Some p) as Hk.
  { apply elem_of_map_to_list. rewrite <-Hp. set_solver. }
  destruct (last p) as [l|] eqn:Hl; [|apply last_None in Hl; by destruct (Hne k p)].
  assert (NoDup ((k, p) :: pre).*1) as Hnd.
  { assert (NoDup (pre ++ (k, p) :: rest).*1) as Hall by (rewrite Hp; apply NoDup_fst_map_to_list).
    rewrite fmap_app in Hall. csimpl. apply NoDup_app in Hall as (? & Hd & _). constructor; [|done].
    intros Hin. apply (Hd _ Hin). csimpl. set_solver. }
  cbn [finish_keys].
  destruct (decide (l ≠ max_u32 ∧ (N.of_nat (length (concat pre.*2)) <= maxOff)%N)) as [[Hlm Hoff]|Hbad].
  - destruct (finish_key_ok pre k p l rest st Hst Hnd Hl Hlm Hoff) as (st' & -> & Hst').
    simpl. rewrite (cons_middle (k, p) pre rest), app_assoc in Hp |- *. by apply IH.
  - destruct st as [idx off]. unfold finish_key.
    assert (postings idx = concat pre.*2) as -> by apply Hst.
    destruct (N.ltb_spec maxOff (N.of_nat (length (concat pre.*2)))); [done|]. rewrite Hl.
    destruct (N.eqb_spec l max_u32) as [->|]; [simpl; eauto|]. by destruct Hbad.
Qed.

Lemma finish_totals_cases l :
  match finish_totals l with
  | Ok (_, n) => n = length (concat l.*1) ∧ ∀ k p, (k, p) ∈ l → (N.of_nat (length p) <= maxRun)%N
  | Err (KeyOverflow k n) => ∃ p, (k, p) ∈ l ∧ n = length p ∧ (maxRun < N.of_nat n)%N
  | Err _ => False
  end.
Proof.
  induction l as [|[k p] l IH]; cbn [finish_totals]; [by split; [|set_solver]|].
  destruct (N.ltb_spec maxRun (N.of_nat (length p))) as [Hlt|Hle].
  { exists p. set_solver. }
  destruct (finish_totals l) as [[o n]|[]]; simpl; try done.
  - destruct IH as [-> IH]. csimpl. rewrite length_app. split; [done|].
    intros k' p' [[= -> ->]|Hin]%elem_of_cons; [done|by eapply IH].
  - destruct IH as (p' & Hin & -> & ?). exists p'. set_solver.
Qed.

Section finish_spec.
Context `{GoRuntime}.

Lemma finish_cases (src : gmap bytes (list N)) :
  (∀ k p, src !! k = Some p → p ≠ []) →
  (Finish (mkBuilder (Some src))).2 = mkBuilder None ∧
  match (Finish (mkBuilder (Some src))).1 with
  | Ok idx => represents src idx
  | Err (KeyOverflow k n) => ∃ p, src !! k = Some p ∧ n = length p ∧ (maxRun < N.of_nat n)%N
  | Err (OffsetOverflow off) => (maxOff < off)%N
  | Err (NoSuccessor k x) => x = max_u32 ∧ ∃ p, src !! k = Some p ∧ last p = Some x
  | Err _ => False
  end.
Proof.
  intros Hne. unfold Finish. simpl. split; [done|].
  pose proof (finish_totals_cases (range_map 0 src)) as Ht.
  destruct (finish_totals _) as [[o n]|e]; simpl; [|destruct e; try done].
  2:{ destruct Ht as (p & Hp%elem_of_range & ?). by exists p. }
  destruct Ht as [Hn Hrun]. setoid_rewrite elem_of_range in Hrun.
  pose proof (finish_keys_cases src [] (range_map 1 src) (mkIndex ∅ (replicate n 0%N) [] 0, 0)
    (range_map_perm _ 1 src) Hne) as Hk.
  assert (fin_ok [] (range_map 1 src) (mkIndex ∅ (replicate n 0%N) [] 0, 0)) as H0.
  { unfold fin_ok. simpl. split_and!; try done.
    - rewrite length_replicate, Hn. by rewrite (range_map_perm _ 0), (range_map_perm _ 1).
    - apply located_nil.
    - by intros k p l ?%elem_of_nil.
    - by left. }
  specialize (Hk H0). destruct (finish_keys _ _) as [[idx off]|e]; simpl; [|by destruct e].
  eapply fin_ok_represents; [apply (range_map_perm _ 1)|exact Hk|done].
Qed.
End finish_spec.

(** ** The builder *)

(** The ordinals of the Adds that give [k], in order. *)
Definition holders (adds : list (N * list bytes)) (k : bytes) : list N :=
  if bool_decide (k = []) then [] else (filter (λ a, k ∈ a.2) adds).*1.

Definition runs_are (bm : gmap bytes (list N)) (f : bytes → list N) : Prop :=
  ∀ k, bm !! k = match f k with [] => None | run => Some run end.

Lemma runs_default bm f k : runs_are bm f → default [] (bm !! k) = f k.
Proof. intros ->. by destruct (f k). Qed.

Lemma add_keys_runs ord keys bm f seen :
  runs_are bm (λ k, f k ++ if bool_decide (k ≠ [] ∧ k ∈ seen) then [ord] else []) →
  (∀ k, last (f k) ≠ Some ord) →
  ∃ bm', Add (mkBuilder (Some bm)) ord keys = Some (mkBuilder (Some bm')) ∧
    runs_are bm' (λ k, f k ++ if bool_decide (k ≠ [] ∧ k ∈ seen ++ keys) then [ord] else []).
Proof.
  unfold Add. intros Hbm Hf. revert bm seen Hbm. induction keys as [|k keys IH]; intros bm seen Hbm; simpl.
  { exists bm. by rewrite app_nil_r. }
  assert (∃ bm', add_key ord (mkBuilder (Some bm)) k = Some (mkBuilder (Some bm')) ∧
    runs_are bm' (λ k', f k' ++ if bool_decide (k' ≠ [] ∧ k' ∈ seen ++ [k]) then [ord] else [])) as (bm' & Hk & Hbm').
  { unfold add_key. case_bool_decide as Hemp.
    { exists bm. split; [done|]. intros k'. rewrite Hbm. by repeat case_bool_decide; set_solver. }
    simpl. rewrite (runs_default _ _ _ Hbm). case_bool_decide as Hlast.
    - exists bm. split; [done|]. assert (k ∈ seen) as Hin.
      { case_bool_decide as Hc; [by destruct Hc|]. rewrite app_nil_r in Hlast. by destruct (Hf k). }
      intros k'. rewrite Hbm. by repeat case_bool_decide; set_solver.
    - eexists. split; [done|]. intros k'. destruct (decide (k' = k)) as [->|Hne].
      + rewrite lookup_insert_eq. rewrite (bool_decide_eq_true_2 (k ≠ [] ∧ k ∈ seen ++ [k])) by set_solver.
        case_bool_decide as Hc; [by rewrite last_snoc in Hlast|]. rewrite app_nil_r. by destruct (f k).
      + rewrite lookup_insert_ne by done. rewrite Hbm. by repeat case_bool_decide; set_solver. }
  rewrite Hk. simpl. destruct (IH bm' _ Hbm') as (bm2 & Hfold & Hruns). exists bm2.
  split; [exact Hfold|]. by rewrite <-app_assoc in Hruns.
Qed.

Definition add_all (adds : list (N * list bytes)) (b : Builder) : option Builder :=
  foldl (λ ob a, b ← ob; Add b a.1 a.2) (Some b) adds.

Lemma holders_snoc pre ord keys k :
  holders (pre ++ [(ord, keys)]) k =
  holders pre k ++ if bool_decide (k ≠ [] ∧ k ∈ keys) then [ord] else [].
Proof.
  unfold holders. destruct (decide (k = [])) as [->|Hne].
  { by rewrite !bool_decide_eq_true_2, bool_decide_eq_false_2 by (done || naive_solver). }
  rewrite !(bool_decide_eq_false_2 (k = [])) by done. rewrite filter_app, fmap_app. f_equal.
  destruct (decide (k ∈ keys)).
  - rewrite bool_decide_eq_true_2, filter_cons_True by done. done.
  - rewrite bool_decide_eq_false_2, filter_cons_False by naive_solver. done.
Qed.

Lemma holders_sub adds k o : o ∈ holders adds k → ∃ keys, (o, keys) ∈ adds ∧ k ∈ keys ∧ k ≠ [].
Proof.
  unfold holders. case_bool_decide; [by intros ?%elem_of_nil|].
  intros ([o' keys] & -> & [Hk Hin]%list_elem_of_filter)%list_elem_of_fmap. by exists keys.
Qed.

Lemma holders_sorted adds k : StronglySorted N.lt adds.*1 → StronglySorted N.lt (holders adds k).
Proof.
  intros Hs. unfold holders. case_bool_decide; [constructor|].
  induction adds as [|[o keys] adds IH]; csimpl in *; [constructor|].
  apply StronglySorted_inv in Hs as [Hs Ho]. rewrite filter_cons. case_decide; [|by apply IH].
  csimpl. constructor; [by apply IH|]. rewrite Forall_forall in Ho |- *.
  intros x ([x' ks] & -> & [_ Hin]%list_elem_of_filter)%list_elem_of_fmap.
  apply Ho. apply list_elem_of_fmap. by eexists.
Qed.

Lemma add_all_runs adds :
  StronglySorted N.lt adds.*1 →
  ∃ bm, add_all adds NewBuilder = Some (mkBuilder (Some bm)) ∧ runs_are bm (holders adds).
Proof.
  unfold add_all. induction adds as [|[o keys] adds IH] using rev_ind; intros Hs.
  { exists ∅. split; [done|]. intros k. rewrite lookup_empty. unfold holders. by case_bool_decide. }
  rewrite fmap_app in Hs. apply StronglySorted_app in Hs as (Hlt & Hs & _).
  destruct (IH Hs) as (bm & Hbm & Hruns). rewrite foldl_app, Hbm. simpl.
  destruct (add_keys_runs o keys bm (holders adds) []) as (bm' & Hadd & Hruns').
  - intros k. rewrite Hruns. rewrite bool_decide_eq_false_2 by set_solver. by rewrite app_nil_r.
  - intros k (l & Hl)%last_Some. assert (o ∈ holders adds k) as (ks & Hin & _)%holders_sub by (rewrite Hl; set_solver).
    assert (o < o)%N; [|lia]. apply Hlt; [|set_solver]. apply list_elem_of_fmap. by exists (o, ks).
  - exists bm'. split; [exact Hadd|]. intros k. rewrite Hruns'. by rewrite holders_snoc.
Qed.

(** What [Finish] promises of a sequence of Adds. *)
Definition finished (adds : list (N * list bytes)) (r : result exact_error Index) : Prop :=
  match r with
  | Ok idx =>
      (∀ k, Lookup idx k = Some (holders adds k) ∧ StronglySorted N.lt (holders adds k)) ∧
      (∀ k a n p, m idx !! k = Some ((a, n), p) → slice (arena idx) a (a + n) = k) ∧
      (∀ k o, o ∈ holders adds k → (o < NumOrds idx)%N) ∧
      (NumOrds idx = 0%N ∨ ∃ k, (NumOrds idx - 1)%N ∈ holders adds k)
  | Err (KeyOverflow k n) => n = length (holders adds k) ∧ (maxRun < N.of_nat n)%N
  | Err (OffsetOverflow off) => (maxOff < off)%N
  | Err (NoSuccessor k x) => x = max_u32 ∧ x ∈ holders adds k
  | Err _ => False
  end.

Section build.
Context `{GoRuntime}.

Lemma finish_adds adds :
  StronglySorted N.lt adds.*1 →
  ∃ b, add_all adds NewBuilder = Some b ∧ (Finish b).2 = mkBuilder None ∧ finished adds (Finish b).1.
Proof.
  intros Hs. destruct (add_all_runs adds Hs) as (bm & Hadd & Hruns). exists (mkBuilder (Some bm)).
  split; [done|].
  assert (∀ k p, bm !! k = Some p → p = holders adds k ∧ p ≠ []) as Hbm.
  { intros k p. rewrite Hruns. destruct (holders adds k) eqn:Hh; [done|]. by intros [= <-]. }
  destruct (finish_cases bm) as [Hsev Hcase]; [by intros k p Hk; apply (Hbm k p Hk)|].
  split; [done|]. unfold finished. destruct (Finish _).1 as [idx|[]]; try done.
  - destruct Hcase as (Hl & Hv & Hn & Hz). split_and!.
    + intros k. split; [|by apply holders_sorted]. by rewrite Hl, (runs_default bm (holders adds)).
    + done.
    + intros k o Ho. pose proof (Hruns k) as Hk.
      destruct (holders adds k) as [|o0 run] eqn:Hh; [by apply elem_of_nil in Ho|].
      destruct (last (o0 :: run)) as [x|] eqn:Hx; [|by apply last_None in Hx].
      specialize (Hn _ _ _ Hk Hx). pose proof (holders_sorted adds k Hs) as Hsort. rewrite Hh in Hsort.
      apply last_Some in Hx as [pre Hpre]. rewrite Hpre in Ho, Hsort. unfold NumOrds.
      apply elem_of_app in Ho as [Ho| ->%list_elem_of_singleton]; [|done].
      assert (o < x)%N; [|lia]. eapply StronglySorted_app_1_elem_of; [exact Hsort|done|set_solver].
    + destruct Hz as [|(k & p & Hk & Hx)]; [by left|right]. exists k. destruct (Hbm _ _ Hk) as [-> _].
      apply last_Some in Hx as [pre ->]. set_solver.
  - destruct Hcase as (p & Hk & -> & ?). by destruct (Hbm _ _ Hk) as [-> _].
  - destruct Hcase as (-> & p & Hk & Hx). split; [done|]. destruct (Hbm _ _ Hk) as [<- _].
    apply last_Some in Hx as [pre ->]. set_solver.
Qed.

(** Whatever order the map loops of [Finish] take, an index built from Adds
    with ascending ordinals looks up, for every key, exactly the ordinals of the
    entries that hold it, ascending, without ever slicing out of bounds; its
    keys are intact views of the arena, and [NumOrds] is the successor of the
    greatest ordinal.  The only failures are a key held by more than [maxRun]
    entries, an offset beyond [maxOff], and the ordinal 2^32-1; the Builder is
    severed either way. *)
Theorem exact_build_spec adds :
  StronglySorted N.lt adds.*1 →
  ∃ b, add_all adds NewBuilder = Some b ∧ (Finish b).2 = mkBuilder None ∧
    match (Finish b).1 with
    | Ok idx =>
        (∀ k, Lookup idx k = Some (holders adds k) ∧ StronglySorted N.lt (holders adds k)) ∧
        (∀ k a n p, m idx !! k = Some ((a, n), p) → slice (arena idx) a (a + n) = k) ∧
        (∀ k o, o ∈ holders adds k → (o < NumOrds idx)%N) ∧
        (NumOrds idx = 0%N ∨ ∃ k, (NumOrds idx - 1)%N ∈ holders adds k)
    | Err (KeyOverflow k n) => n = length (holders adds k) ∧ (maxRun < N.of_nat n)%N
    | Err (OffsetOverflow off) => (maxOff < off)%N
    | Err (NoSuccessor k x) => x = max_u32 ∧ x ∈ holders adds k
    | Err _ => False
    end.
Proof. apply finish_adds. Qed.
End build.

Lemma exact_build_spec_witness :
  ∃ b, add_all [(0%N, [$"a"; $"b"; $"a"]); (3%N, [$"a"; []])] NewBuilder = Some b ∧
    match (Finish (H:=default_runtime) b).1 with
    | Ok idx => Lookup idx $"a" = Some [0%N; 3%N] ∧ Lookup idx $"b" = Some [0%N] ∧ NumOrds idx = 4%N
    | Err _ => False
    end.
Proof.
  destruct (exact_build_spec (H:=default_runtime) [(0%N, [$"a"; $"b"; $"a"]); (3%N, [$"a"; []])])
    as (b & Hb & _ & _); [repeat constructor|].
  exists b. split; [exact Hb|]. vm_compute in Hb. injection Hb as <-. vm_compute. tauto.
Defined.

(** ** Restore *)

(** The serialized form of an entry list: arena, key lengths, run lengths,
    postings. *)
Definition key_lens (es : list (bytes * list N)) : list Z := (λ e, Z.of_nat (length e.1)) <$> es.
Definition run_lens (es : list (bytes * list N)) : list Z := (λ e, Z.of_nat (length e.2)) <$> es.

Definition entries_ok (es : list (bytes * list N)) : Prop :=
  NoDup es.*1 ∧
  (∀ k p, (k, p) ∈ es → k ≠ [] ∧ p ≠ [] ∧ (N.of_nat (length p) <= maxRun)%N ∧ max_u32 ∉ p) ∧
  (∀ l1 e l2, es = l1 ++ e :: l2 → (N.of_nat (length (concat l1.*2)) <= maxOff)%N).

(** The loop invariant of the key loop. *)
Definition res_ok (pre : list (bytes * list N)) (idx : Index) (aOff pOff : Z) : Prop :=
  aOff = Z.of_nat (length (concat pre.*1)) ∧ pOff = Z.of_nat (length (concat pre.*2)) ∧
  take (length (concat pre.*1)) (arena idx) = concat pre.*1 ∧
  take (length (concat pre.*2)) (postings idx) = concat pre.*2 ∧
  located pre idx ∧ NoDup pre.*1.

Lemma take_slice_app {A} (l : list A) (pre : list A) n :
  take (length pre) l = pre → length pre + n ≤ length l →
  take (length pre + n) l = pre ++ slice l (length pre) (length pre + n).
Proof.
  intros Hp Hl. unfold slice. rewrite Nat.add_comm, Nat.add_sub, Nat.add_comm.
  by rewrite <-take_take_drop, Hp.
Qed.

Lemma slice_length {A} (l : list A) a n : a + n ≤ length l → length (slice l a (a + n)) = n.
Proof. intros. unfold slice. rewrite length_take, length_drop. lia. Qed.

(** One accepted iteration extends the entries by the next key and run. *)
Lemma restore_key_step pre i idx aOff pOff kl rl lens r :
  res_ok pre idx aOff pOff →
  restore_keys i idx aOff pOff ((kl, rl) :: lens) = Ok r →
  ∃ k p idx', k ≠ [] ∧ p ≠ [] ∧ (N.of_nat (length p) <= maxRun)%N ∧
    kl = Z.of_nat (length k) ∧ rl = Z.of_nat (length p) ∧
    (N.of_nat (length (concat pre.*2)) <= maxOff)%N ∧
    arena idx' = arena idx ∧ postings idx' = postings idx ∧
    res_ok (pre ++ [(k, p)]) idx' (aOff + kl) (pOff + rl) ∧
    restore_keys (S i) idx' (aOff + kl) (pOff + rl) lens = Ok r.
Proof.
  intros (-> & -> & Har & Hps & Hloc & Hnd). cbn [restore_keys].
  destruct (_ || _) eqn:E1; [done|]. destruct (_ || _) eqn:E2 in |- *; [done|].
  destruct (_ <? _)%Z eqn:E3 in |- *; [done|]. destruct (_ <? _)%Z eqn:E4 in |- *; [done|].
  rewrite !Nat2Z.id. set (k := slice _ _ _).
  destruct (m idx !! k) eqn:Hk; [done|]. intros Hr.
  set (p := slice (postings idx) (length (concat pre.*2)) (length (concat pre.*2) + Z.to_nat rl)).
  change (Z.of_N maxRun) with 1048575%Z in E2.
  assert (length k = Z.to_nat kl) as Hlk by (apply slice_length; lia).
  assert (length p = Z.to_nat rl) as Hlp by (apply slice_length; lia).
  assert (k ∉ pre.*1) as Hfresh.
  { intros ([k' run] & Hk' & (l1 & l2 & Hsp)%list_elem_of_split)%list_elem_of_fmap. simpl in Hk'.
    rewrite Hk' in Hk. by rewrite (proj1 (proj1 Hloc _ _ _ _ Hsp)) in Hk. }
  eexists k, p, _. split_and!; [| | | | | | | | |exact Hr]; try done; try lia.
  - intros Hz. rewrite Hz in Hlk. simpl in Hlk. lia.
  - intros Hz. rewrite Hz in Hlp. simpl in Hlp. lia.
  - change maxRun with 1048575%N. lia.
  - unfold res_ok. simpl. rewrite !fmap_app, !concat_app. simpl. rewrite !app_nil_r, !length_app, Hlk, Hlp.
    split_and!; [lia|lia| | | |].
    + apply take_slice_app; [done|lia].
    + apply take_slice_app; [done|lia].
    + replace (Z.to_N (Z.of_nat (length (concat pre.*2)))) with (N.of_nat (length (concat pre.*2))) by lia.
      replace (Z.to_N rl) with (N.of_nat (length p)) by lia. rewrite <-Hlk.
      apply located_snoc; [done|done|lia].
    + apply NoDup_app. split_and!; [done| |repeat constructor; set_solver].
      intros x Hx ->%list_elem_of_singleton. done.
Qed.

Lemma restore_keys_ok pre i idx aOff pOff lens idx' a' p' :
  res_ok pre idx aOff pOff →
  (∀ k p, (k, p) ∈ pre → k ≠ [] ∧ p ≠ [] ∧ (N.of_nat (length p) <= maxRun)%N) →
  restore_keys i idx aOff pOff lens = Ok (idx', a', p') →
  ∃ es, lens = zip (key_lens es) (run_lens es) ∧ res_ok (pre ++ es) idx' a' p' ∧
    arena idx' = arena idx ∧ postings idx' = postings idx ∧
    ∀ k p, (k, p) ∈ pre ++ es → k ≠ [] ∧ p ≠ [] ∧ (N.of_nat (length p) <= maxRun)%N.
Proof.
  revert pre i idx aOff pOff. induction lens as [|[kl rl] lens IH]; intros pre i idx aOff pOff Hres Hok.
  { intros [= <- <- <-]. exists []. by rewrite app_nil_r. }
  intros Hr. eapply restore_key_step in Hr
    as (k & p & idx1 & Hk & Hp & Hrun & -> & -> & _ & Ha1 & Hp1 & Hres1 & Hr); [|done].
  eapply IH in Hr as (es & -> & Hres' & Ha & Hps & Hok'); [|done|].
  - exists ((k, p) :: es). rewrite <-app_assoc in Hres', Hok'. simpl in *. split_and!; [done|done|congruence|congruence|done].
  - intros k2 p2 [Hin|[= -> ->]%list_elem_of_singleton]%elem_of_app; [by apply Hok|done].
Qed.

Lemma restore_ords_spec num ords n :
  restore_ords num ords = Ok n → max_u32 ∉ ords ∧ (num <= n)%N ∧ ∀ o, o ∈ ords → (o < n)%N.
Proof.
  revert num. induction ords as [|o ords IH]; intros num; simpl.
  { intros [= ->]. set_solver. }
  destruct (N.eqb_spec o max_u32); [done|]. intros (Hno & Hle & Hb)%IH. split_and!.
  - set_solver.
  - destruct (N.ltb_spec num (o + 1)); lia.
  - intros x [->|Hx]%elem_of_cons; [|by apply Hb]. destruct (N.ltb_spec num (o + 1)); lia.
Qed.

Lemma restore_ords_total num ords : max_u32 ∉ ords → is_ok (restore_ords num ords).
Proof.
  revert num. induction ords as [|o ords IH]; intros num Hno; [done|]. simpl.
  destruct (N.eqb_spec o max_u32) as [->|]; [set_solver|]. apply IH. set_solver.
Qed.

Lemma zip_lens_inv kls rls es :
  length kls = length rls → zip kls rls = zip (key_lens es) (run_lens es) → kls = key_lens es ∧ rls = run_lens es.
Proof.
  intros Hl Hz. assert (length (key_lens es) = length (run_lens es)) as Hl' by (unfold key_lens, run_lens; by rewrite !length_fmap).
  split.
  - rewrite <-(fst_zip kls rls), <-(fst_zip (key_lens es) (run_lens es)), Hz by lia. done.
  - rewrite <-(snd_zip kls rls), <-(snd_zip (key_lens es) (run_lens es)), Hz by lia. done.
Qed.

Lemma restore_inv ar kls rls ps idx :
  Restore ar kls rls ps = Ok idx →
  ∃ es, ar = concat es.*1 ∧ kls = key_lens es ∧ rls = run_lens es ∧ ps = concat es.*2 ∧
    NoDup es.*1 ∧
    (∀ k p, (k, p) ∈ es → k ≠ [] ∧ p ≠ [] ∧ (N.of_nat (length p) <= maxRun)%N ∧ Lookup idx k = Some p) ∧
    (∀ k, k ∉ es.*1 → Lookup idx k = Some []) ∧
    (∀ o, o ∈ ps → (o < NumOrds idx)%N ∧ o ≠ max_u32) ∧
    (∀ k a n p, m idx !! k = Some ((a, n), p) → slice (arena idx) a (a + n) = k).
Proof.
  intros ([] & Hl%fail_if_ok & ([[idx1 a1] p1] & Hk & ([] & Ha%fail_if_ok & ([] & Hp%fail_if_ok &
    (n & Ho & [= <-])%bind_ok)%bind_ok)%bind_ok)%bind_ok)%bind_ok.
  eapply (restore_keys_ok []) in Hk as (es & Hz & (Hea & Hep & Har & Hps & Hloc & Hnd) & Haeq & Hpeq & Hok);
    [| |set_solver].
  2:{ unfold res_ok. simpl. split_and!; try done; [apply located_nil|constructor]. }
  simpl in *. apply zip_lens_inv in Hz as [-> ->]; [|lia].
  rewrite Haeq in Har. rewrite Hpeq in Hps. rewrite take_ge in Har, Hps by lia.
  destruct idx1 as [mm ar1 ps1 num1]. simpl in *. subst ar1 ps1.
  apply restore_ords_spec in Ho as (Hno & _ & Hb).
  assert (∀ k, (k ∉ es.*1 ∧ Lookup (mkIndex mm ar ps n) k = Some []) ∨
    ∃ run, (k, run) ∈ es ∧ Lookup (mkIndex mm ar ps n) k = Some run) as Hlook.
  { intros k. apply located_lookup; [exact Hloc|done|]. intros k' p' Hin. by apply Hok in Hin as (_ & _ & ?). }
  exists es. split_and!; try done.
  - intros k p Hin. destruct (Hok k p Hin) as (? & ? & ?). split_and!; [done..|].
    destruct (Hlook k) as [[Hno' _]|(run & Hin' & ->)].
    + destruct Hno'. apply list_elem_of_fmap. by exists (k, p).
    + f_equal. by eapply nodup_fst_inj.
  - intros k Hk. destruct (Hlook k) as [[_ ->]|(run & Hin' & _)]; [done|]. destruct Hk.
    apply list_elem_of_fmap. by exists (k, run).
  - intros o Hin. split; [by apply Hb|]. by intros ->.
  - intros k a n' p. by apply (located_view es (mkIndex mm ar ps n)).
Qed.

Lemma restore_keys_total pre i idx es :
  res_ok pre idx (Z.of_nat (length (concat pre.*1))) (Z.of_nat (length (concat pre.*2))) →
  arena idx = concat (pre ++ es).*1 → postings idx = concat (pre ++ es).*2 → entries_ok (pre ++ es) →
  ∃ idx', restore_keys i idx (Z.of_nat (length (concat pre.*1))) (Z.of_nat (length (concat pre.*2)))
    (zip (key_lens es) (run_lens es)) =
    Ok (idx', Z.of_nat (length (concat (pre ++ es).*1)), Z.of_nat (length (concat (pre ++ es).*2))).
Proof.
  revert pre i idx. induction es as [|[k p] es IH]; intros pre i idx Hres Har Hps Hok.
  { exists idx. by rewrite app_nil_r. }
  pose proof Hok as (Hnd & Hall & Hoff). destruct (Hall k p) as (Hk & Hp & Hrun & _); [set_solver|].
  assert (k ∉ pre.*1) as Hfresh.
  { rewrite fmap_app in Hnd. apply NoDup_app in Hnd as (_ & Hd & _). intros Hin. apply (Hd _ Hin). csimpl. set_solver. }
  assert (m idx !! k = None) as Hmk.
  { destruct (m idx !! k) eqn:E; [|done]. destruct Hfresh. apply (proj2 (proj1 (proj2 (proj2 (proj2 (proj2 Hres)))))). by eexists. }
  specialize (Hoff pre (k, p) es eq_refl).
  rewrite (concat_split fst) in Har. rewrite (concat_split snd) in Hps.
  cbn [key_lens run_lens fmap list_fmap zip zip_with restore_keys].
  change (Z.of_N maxRun) with 1048575%Z. change maxRun with 1048575%N in Hrun.
  assert (length k ≠ 0 ∧ length p ≠ 0) as [? ?] by (by split; intros ?%nil_length_inv).
  assert (length (arena idx) = length (concat pre.*1) + (length k + length (concat es.*1))) as Hla
    by (rewrite Har, !length_app; done).
  assert (length (postings idx) = length (concat pre.*2) + (length p + length (concat es.*2))) as Hlp
    by (rewrite Hps, !length_app; done).
  cbn [fst snd]. destruct (_ || _) eqn:E1; [lia|]. destruct (_ || _) eqn:E2 in |- *; [lia|].
  destruct (_ <? _)%Z eqn:E3 in |- *; [lia|]. destruct (_ <? _)%Z eqn:E4 in |- *; [lia|].
  rewrite !Nat2Z.id.
  assert (slice (arena idx) (length (concat pre.*1)) (length (concat pre.*1) + length k) = k) as ->
    by (rewrite Har; apply slice_middle).
  rewrite Hmk. assert (∀ {B} (f : bytes * list N → list B),
    (Z.of_nat (length (concat (f <$> pre))) + Z.of_nat (length (f (k, p))))%Z =
    Z.of_nat (length (concat (f <$> pre ++ [(k, p)])))) as Hlen.
  { intros B f. rewrite concat_split, !length_app. simpl. lia. }
  pose proof (Hlen _ fst) as H1. pose proof (Hlen _ snd) as H2. cbn [fst snd] in H1, H2. rewrite H1, H2.
  replace (Z.to_N (Z.of_nat (length (concat pre.*2)))) with (N.of_nat (length (concat pre.*2))) by lia.
  replace (Z.to_N (Z.of_nat (length p))) with (N.of_nat (length p)) by lia.
  destruct Hres as (_ & _ & Ht1 & Ht2 & Hloc & Hnd').
  replace (pre ++ (k, p) :: es) with ((pre ++ [(k, p)]) ++ es) in * by (by rewrite <-app_assoc).
  apply IH; [| | |done].
  2-3: simpl; rewrite ?Har, ?Hps, !fmap_app, !concat_app; simpl; by rewrite app_nil_r, <-app_assoc.
  unfold res_ok. simpl. rewrite (concat_split fst), (concat_split snd). simpl. rewrite !app_nil_r.
  split_and!; [done|done|rewrite Har|rewrite Hps|by apply located_snoc|].
  - rewrite (app_assoc (concat pre.*1)). apply take_app_length.
  - rewrite (app_assoc (concat pre.*2)). apply take_app_length.
  - rewrite fmap_app. apply NoDup_app. split_and!; [done| |repeat constructor; set_solver].
    intros x Hx ->%list_elem_of_singleton. done.
Qed.

Lemma concat_lens_inj {B} (es es' : list (list B)) :
  length <$> es = length <$> es' → concat es = concat es' → es = es'.
Proof.
  revert es'. induction es as [|x es IH]; intros [|y es']; simpl; try done.
  intros [= Hl Hls] Hc. apply app_inj_1 in Hc as [-> Hc]; [|done]. f_equal. by apply IH.
Qed.

Lemma entries_inj es es' :
  key_lens es = key_lens es' → run_lens es = run_lens es' →
  concat es.*1 = concat es'.*1 → concat es.*2 = concat es'.*2 → es = es'.
Proof.
  intros Hk Hr Hc1 Hc2.
  assert (∀ {B} (f : bytes * list N → list B) (l l' : list (bytes * list N)),
    ((λ e, Z.of_nat (length (f e))) <$> l) = ((λ e, Z.of_nat (length (f e))) <$> l') →
    length <$> (f <$> l) = length <$> (f <$> l')) as Hnat.
  { intros B f l. induction l as [|e l IH]; intros [|e' l']; csimpl; try done.
    intros [= H1 H2]. f_equal; [lia|by apply IH]. }
  rewrite <-(zip_fst_snd es), <-(zip_fst_snd es'). f_equal; (apply concat_lens_inj; [|done]).
  - by apply (Hnat _ fst).
  - by apply (Hnat _ snd).
Qed.

Lemma restore_total es : entries_ok es →
  is_ok (Restore (concat es.*1) (key_lens es) (run_lens es) (concat es.*2)).
Proof.
  intros Hok. unfold Restore. rewrite (proj2 (Nat.eqb_eq _ _)) by (unfold key_lens, run_lens; by rewrite !length_fmap).
  simpl. destruct (restore_keys_total [] 0 (mkIndex ∅ (concat es.*1) (concat es.*2) 0) es) as [idx' Hk]; try done.
  { unfold res_ok. simpl. split_and!; try done; [apply located_nil|constructor]. }
  change (Z.of_nat (length (concat ([] : list (bytes * list N)).*1))) with 0%Z in Hk.
  change (Z.of_nat (length (concat ([] : list (bytes * list N)).*2))) with 0%Z in Hk. rewrite Hk. simpl. rewrite !(proj2 (Z.eqb_eq _ _)) by done. simpl.
  assert (is_ok (restore_ords 0 (concat es.*2))) as Ho.
  { apply restore_ords_total. rewrite list_elem_of_In, in_concat. intros (p & Hp & Hin).
    apply list_elem_of_In in Hp, Hin. apply list_elem_of_fmap in Hp as ([k p'] & -> & He).
    destruct Hok as (_ & Hall & _). by destruct (Hall _ _ He) as (_ & _ & _ & ?). }
  by destruct (restore_ords 0 (concat es.*2)).
Qed.

(** [Restore] inverts serialization and accepts nothing unsafe.  The
    serialized form of entries with distinct non-empty keys, non-empty runs of at
    most [maxRun] ordinals below 2^32-1 and encodable offsets is accepted, and
    the index looks up exactly each entry's run.  Conversely what is accepted is
    such a form (of entries [es]): no lookup slices out of bounds, other keys give
    nil, every ordinal is below [NumOrds], and the keys are intact arena views. *)
Theorem exact_restore_spec :
  (∀ es, entries_ok es → ∃ idx,
     Restore (concat es.*1) (key_lens es) (run_lens es) (concat es.*2) = Ok idx ∧
     ∀ k p, (k, p) ∈ es → Lookup idx k = Some p) ∧
  (∀ ar kls rls ps idx, Restore ar kls rls ps = Ok idx → ∃ es,
     ar = concat es.*1 ∧ kls = key_lens es ∧ rls = run_lens es ∧ ps = concat es.*2 ∧ NoDup es.*1 ∧
     (∀ k p, (k, p) ∈ es → k ≠ [] ∧ p ≠ [] ∧ (N.of_nat (length p) <= maxRun)%N ∧ Lookup idx k = Some p) ∧
     (∀ k, k ∉ es.*1 → Lookup idx k = Some []) ∧
     (∀ o, o ∈ ps → (o < NumOrds idx)%N ∧ o ≠ max_u32) ∧
     (∀ k a n p, m idx !! k = Some ((a, n), p) → slice (arena idx) a (a + n) = k)).
Proof.
  split; [|apply restore_inv]. intros es Hok. pose proof (restore_total es Hok) as Ht.
  destruct (Restore _ _ _ _) as [idx|] eqn:Hr; [|done]. exists idx. split; [done|].
  apply restore_inv in Hr as (es' & Ha & Hk & Hrl & Hp & _ & Hl & _).
  assert (es = es') as <- by (by apply entries_inj). intros k p Hin. by apply Hl.
Qed.
