(* ===== verification/NumToken.v ===== *)
(** [engine/typed_filter.go], [canonicalNumberToken] and the comparison of
    canonical numbers, and [validScalarToken] of [engine/payload.go].

    Positions in the token are the suffix still to be read; the digit ordinals of
    the Go code index the concatenation of the integer and fraction digits. *)

From Stdlib Require Import QArith Qpower Lqa.
From S2P Require Import Prelude.
From S2P Require Import Runtime.
From S2P Require Import Strings.

Definition maxTypedFilterNumberBytes : nat := 256.
Definition maxTypedFilterSignificant : nat := 40.
Definition maxTypedFilterExponent : Z := 200.

Definition is_digit (c : N) : bool := in_range c_zero c_nine c.

(** [for i < len(tok) && tok[i] is a digit] *)
Fixpoint span_digits (s : bytes) : bytes * bytes :=
  match s with
  | c :: s' => if is_digit c then let '(ds, rest) := span_digits s' in (c :: ds, rest) else ([], s)
  | [] => ([], [])
  end.

(** The digits of a number token. *)
Record number := mkNumber {
  n_neg : bool;
  n_int : bytes;
  n_frac : bytes;
  n_exp_neg : bool;
  n_exp : bytes;
}.

(** The grammar the scan of [canonicalNumberTokenBytes] accepts. *)
Definition scan_int (s : bytes) : option (bytes * bytes) :=
  match s with
  | [] => None
  | c :: s' =>
      if (c =? c_zero)%N then
        match s' with
        | d :: _ => if is_digit d then None else Some ([c], s')
        | [] => Some ([c], s')
        end
      else if in_range c_one c_nine c then Some (span_digits s) else None
  end.

Definition scan_frac (s : bytes) : option (bytes * bytes) :=
  match s with
  | c :: s' =>
      if (c =? c_dot)%N then
        let '(ds, rest) := span_digits s' in
        if bool_decide (ds = []) then None else Some (ds, rest)
      else Some ([], s)
  | [] => Some ([], [])
  end.

Definition scan_sign (s : bytes) : bool * bytes :=
  match s with
  | c :: s' => if (c =? c_plus)%N then (false, s') else if (c =? c_minus)%N then (true, s') else (false, s)
  | [] => (false, [])
  end.

Definition scan_exp (s : bytes) : option (bool * bytes * bytes) :=
  match s with
  | c :: s' =>
      if (c =? c_lowE)%N || (c =? c_upE)%N then
        let '(neg, s1) := scan_sign s' in
        let '(ds, rest) := span_digits s1 in
        if bool_decide (ds = []) then None else Some (neg, ds, rest)
      else Some (false, [], s)
  | [] => Some (false, [], [])
  end.

Definition scan_number (tok : bytes) : option number :=
  let '(neg, s) := match tok with
                   | c :: s => if (c =? c_minus)%N then (true, s) else (false, tok)
                   | [] => (false, [])
                   end in
  '(ds, s1) ← scan_int s;
  '(fs, s2) ← scan_frac s1;
  '(eneg, es, s3) ← scan_exp s2;
  if bool_decide (s3 = []) then Some (mkNumber neg ds fs eneg es) else None.

(** [int(c - '0')] *)
Definition dig (c : N) : Z := Z.of_N c - 48.

(** The exponent accumulator, capped at 1000001. *)
Definition exp_capped (es : bytes) : Z :=
  let e := foldl (λ e c, if (e <=? 1000000)%Z then (e * 10 + dig c)%Z else e) 0%Z es in
  if (1000000 <? e)%Z then 1000001%Z else e.

(** Ordinals of the first and last non-zero digits. *)
Fixpoint first_nonzero (ds : bytes) : option nat :=
  match ds with
  | [] => None
  | c :: ds' => if (c =? c_zero)%N then S <$> first_nonzero ds' else Some 0
  end.
Fixpoint last_nonzero (ds : bytes) : option nat :=
  match ds with
  | [] => None
  | c :: ds' =>
      match last_nonzero ds' with
      | Some i => Some (S i)
      | None => if (c =? c_zero)%N then None else Some 0
      end
  end.

Inductive number_error :=
  | NumberTooLong (len : nat)
  | InvalidNumber
  | TooManyDigits (significant : nat)
  | ExponentOutOfRange (mathExp : Z).

(** The fixed-decimal form of the digits [ds] scaled by [10^scaleExp]. *)
Definition fixed_decimal (negative : bool) (ds : bytes) (scaleExp : Z) : bytes :=
  let decimalPos := (Z.of_nat (length ds) + scaleExp)%Z in
  (if negative then [c_minus] else []) ++
  if (decimalPos <=? 0)%Z then [c_zero; c_dot] ++ replicate (Z.to_nat (- decimalPos)) c_zero ++ ds
  else if (Z.of_nat (length ds) <=? decimalPos)%Z
  then ds ++ replicate (Z.to_nat (decimalPos - Z.of_nat (length ds))) c_zero
  else take (Z.to_nat decimalPos) ds ++ [c_dot] ++ drop (Z.to_nat decimalPos) ds.

(** [Ok None] is a valid number that is not comparable. *)
Definition canonicalNumberToken (tok : bytes) (request : bool) : result number_error (option bytes) :=
  if request && (maxTypedFilterNumberBytes <? length tok) then Err (NumberTooLong (length tok)) else
  match scan_number tok with
  | None => Err InvalidNumber
  | Some n =>
      let exp := if n_exp_neg n then (- exp_capped (n_exp n))%Z else exp_capped (n_exp n) in
      let all := n_int n ++ n_frac n in
      match first_nonzero all, last_nonzero all with
      | Some firstOrdinal, Some lastOrdinal =>
          let significant := lastOrdinal - firstOrdinal + 1 in
          let fracDigits := length (n_frac n) in
          let trailingZeros := length all - 1 - lastOrdinal in
          let scaleExp := (exp - Z.of_nat fracDigits + Z.of_nat trailingZeros)%Z in
          let mathExp := (Z.of_nat significant - 1 + scaleExp)%Z in
          if maxTypedFilterSignificant <? significant then
            if request then Err (TooManyDigits significant) else Ok None
          else if (mathExp <? - maxTypedFilterExponent)%Z || (maxTypedFilterExponent <? mathExp)%Z then
            if request then Err (ExponentOutOfRange mathExp) else Ok None
          else
            let digits := take significant (drop firstOrdinal all) in
            Ok (Some (fixed_decimal (n_neg n) digits scaleExp))
      | _, _ => Ok (Some [c_zero])
      end
  end.

(** ** Comparison *)

(** The fraction loop: missing digits read as '0'. *)
Fixpoint compare_frac_nil (b : bytes) : Z :=
  match b with
  | [] => 0
  | y :: b' => if (y =? c_zero)%N then compare_frac_nil b' else Z.of_N c_zero - Z.of_N y
  end%Z.
Fixpoint compare_frac (a b : bytes) : Z :=
  match a, b with
  | [], _ => compare_frac_nil b
  | x :: a', [] => if (x =? c_zero)%N then compare_frac a' [] else Z.of_N x - Z.of_N c_zero
  | x :: a', y :: b' => if (x =? y)%N then compare_frac a' b' else Z.of_N x - Z.of_N y
  end%Z.

(** [strings.Compare] as a number. *)
Definition compare_strings (a b : bytes) : Z :=
  match bytes_compare a b with Lt => -1 | Eq => 0 | Gt => 1 end%Z.

Definition compareCanonicalMagnitudes (a b : bytes) : Z :=
  let adot := default (length a) (index_byte c_dot a) in
  let bdot := default (length b) (index_byte c_dot b) in
  if negb (adot =? bdot) then (Z.of_nat adot - Z.of_nat bdot)%Z
  else
    let cmp := compare_strings (take adot a) (take bdot b) in
    if negb (cmp =? 0)%Z then cmp
    else compare_frac (drop (S adot) a) (drop (S bdot) b).

Definition is_negative (a : bytes) : bool :=
  match a with c :: _ => (c =? c_minus)%N | [] => false end.

Definition compareCanonicalNumbers (a b : bytes) : Z :=
  if bool_decide (a = b) then 0%Z
  else if negb (Bool.eqb (is_negative a) (is_negative b)) then
    if is_negative a then (-1)%Z else 1%Z
  else if is_negative a then (- compareCanonicalMagnitudes (drop 1 a) (drop 1 b))%Z
  else compareCanonicalMagnitudes a b.

(** ** [validScalarToken] *)

(** [digits()]: at least one digit, and the rest. *)
Definition digits1 (s : bytes) : option bytes :=
  let '(ds, rest) := span_digits s in if bool_decide (ds = []) then None else Some rest.

Definition valid_int (s : bytes) : option bytes :=
  match s with
  | [] => None
  | c :: s' =>
      if (c =? c_zero)%N then Some s'
      else if in_range c_one c_nine c then Some (span_digits s).2 else None
  end.
Definition valid_frac (s : bytes) : option bytes :=
  match s with
  | c :: s' => if (c =? c_dot)%N then digits1 s' else Some s
  | [] => Some []
  end.
Definition valid_exp (s : bytes) : option bytes :=
  match s with
  | c :: s' => if (c =? c_lowE)%N || (c =? c_upE)%N then digits1 (scan_sign s').2 else Some s
  | [] => Some []
  end.

Definition valid_number_token (tok : bytes) : bool :=
  let s := match tok with c :: s => if (c =? c_minus)%N then s else tok | [] => [] end in
  bool_decide ((s1 ← valid_int s; s2 ← valid_frac s1; valid_exp s2) = Some []).

Definition validScalarToken (tok : bytes) : bool :=
  bool_decide (tok ∈ [$"true"; $"false"; $"null"]) || valid_number_token tok.

Example canonical_1 : canonicalNumberToken $"-012e3" false = Err InvalidNumber.
Proof. reflexivity. Qed.
Example canonical_2 : canonicalNumberToken $"-120.50e-1" true = Ok (Some $"-12.05").
Proof. reflexivity. Qed.
Example canonical_3 : canonicalNumberToken $"12e3" true = Ok (Some $"12000").
Proof. reflexivity. Qed.
Example canonical_4 : canonicalNumberToken $"0.00e9" true = Ok (Some $"0").
Proof. reflexivity. Qed.
Example compare_1 : compareCanonicalNumbers $"-12.05" $"-12.5" = 5%Z.
Proof. reflexivity. Qed.

(** ** Digits and their value *)

Definition digits_val (ds : bytes) : Z := foldl (λ acc c, (acc * 10 + dig c)%Z) 0%Z ds.
Abbreviation digits := (Forall (λ c, is_digit c = true)).

Lemma is_digit_range c : is_digit c = true ↔ (48 <= c <= 57)%N.
Proof. unfold is_digit, in_range. rewrite andb_true_iff, !N.leb_le. done. Qed.

Lemma digits_val_acc acc ds :
  foldl (λ acc c, (acc * 10 + dig c)%Z) acc ds = (acc * 10 ^ Z.of_nat (length ds) + digits_val ds)%Z.
Proof.
  unfold digits_val. revert acc. induction ds as [|c ds IH] using rev_ind; intros acc; [simpl; lia|].
  rewrite !foldl_app, length_app. simpl. rewrite IH.
  replace (Z.of_nat (length ds + 1)) with (Z.of_nat (length ds) + 1)%Z by lia.
  rewrite Z.pow_add_r by lia. lia.
Qed.

Lemma digits_val_app a b : digits_val (a ++ b) = (digits_val a * 10 ^ Z.of_nat (length b) + digits_val b)%Z.
Proof. unfold digits_val at 1. rewrite foldl_app. apply digits_val_acc. Qed.

Lemma digits_val_cons c ds : digits_val (c :: ds) = (dig c * 10 ^ Z.of_nat (length ds) + digits_val ds)%Z.
Proof. apply (digits_val_app [c] ds). Qed.

Lemma digits_val_zeros n : digits_val (replicate n c_zero) = 0%Z.
Proof. induction n as [|n IH]; [done|]. simpl. rewrite digits_val_cons, IH. unfold dig. lia. Qed.

Lemma pow10_pos n : (0 < 10 ^ Z.of_nat n)%Z.
Proof. apply Z.pow_pos_nonneg; lia. Qed.

Lemma digits_val_bound ds : digits ds → (0 <= digits_val ds < 10 ^ Z.of_nat (length ds))%Z.
Proof.
  induction 1 as [|c ds Hc Hds IH]; [done|]. rewrite digits_val_cons. apply is_digit_range in Hc.
  pose proof (pow10_pos (length ds)). simpl length. rewrite Nat2Z.inj_succ, Z.pow_succ_r by lia.
  unfold dig. nia.
Qed.

(** A leading non-zero digit. *)
Lemma digits_val_lead c ds :
  digits (c :: ds) → c ≠ c_zero → (10 ^ Z.of_nat (length ds) <= digits_val (c :: ds))%Z.
Proof.
  intros [Hc Hds]%Forall_cons Hne. apply is_digit_range in Hc. rewrite digits_val_cons.
  pose proof (digits_val_bound ds Hds). pose proof (pow10_pos (length ds)). unfold dig. nia.
Qed.

(** On digit strings of one length, byte order is numeric order. *)
Lemma digits_compare a b :
  digits a → digits b → length a = length b → bytes_compare a b = (digits_val a ?= digits_val b)%Z.
Proof.
  intros Ha. revert b. induction Ha as [|x a Hx Ha IH]; intros [|y b] Hb Hl; simpl in *; try done.
  apply Forall_cons in Hb as [Hy Hb]. rewrite !digits_val_cons. injection Hl as Hl.
  pose proof (digits_val_bound a Ha) as Hba. pose proof (digits_val_bound b Hb) as Hbb. rewrite <-Hl in *.
  apply is_digit_range in Hx, Hy. pose proof (pow10_pos (length a)). unfold dig.
  destruct (N.compare_spec x y) as [->|Hlt|Hgt].
  - rewrite IH by done. destruct (Z.compare_spec (digits_val a) (digits_val b)); symmetry;
      [apply Z.compare_eq_iff|apply Z.compare_lt_iff|apply Z.compare_gt_iff]; lia.
  - symmetry. apply Z.compare_lt_iff. nia.
  - symmetry. apply Z.compare_gt_iff. nia.
Qed.

(** ** The scanner *)

Definition not_digit_head (s : bytes) : Prop := match s with c :: _ => is_digit c = false | [] => True end.

Lemma span_digits_spec s ds rest :
  span_digits s = (ds, rest) → s = ds ++ rest ∧ digits ds ∧ not_digit_head rest.
Proof.
  revert ds rest. induction s as [|c s IH]; intros ds rest; simpl; [by intros [= <- <-]|].
  destruct (is_digit c) eqn:Hc.
  - destruct (span_digits s) as [ds' rest']. intros [= <- <-]. destruct (IH _ _ eq_refl) as (-> & ? & ?).
    split_and!; [done|by constructor|done].
  - intros [= <- <-]. done.
Qed.

Lemma span_digits_app ds rest : digits ds → not_digit_head rest → span_digits (ds ++ rest) = (ds, rest).
Proof.
  induction 1 as [|c ds Hc Hds IH]; simpl; intros Hr.
  - destruct rest as [|c rest]; simpl in *; [done|by rewrite Hr].
  - by rewrite Hc, IH.
Qed.

(** An integer part: digits without a leading zero, or a lone zero. *)
Definition int_form (ds : bytes) : Prop :=
  digits ds ∧ (ds = [c_zero] ∨ ∃ c ds', ds = c :: ds' ∧ c ≠ c_zero).

Lemma scan_int_ok s ds rest : scan_int s = Some (ds, rest) → s = ds ++ rest ∧ int_form ds.
Proof.
  unfold scan_int. destruct s as [|c s]; [done|]. destruct (N.eqb_spec c c_zero) as [->|Hne].
  - destruct s as [|d s]; [|destruct (is_digit d); [done|]]; intros [= <- <-];
      (split; [done|split; [by repeat constructor|by left]]).
  - destruct (in_range c_one c_nine c) eqn:Hr; [|done]. intros Hsp.
    assert (span_digits (c :: s) = (ds, rest)) as (Heq & Hd & Hh)%span_digits_spec by congruence.
    split; [done|split; [done|right]]. destruct ds as [|c' ds]; simpl in Heq.
    + subst rest. simpl in Hh. apply not_true_iff_false in Hh. destruct Hh. apply is_digit_range.
      unfold in_range in Hr. lia.
    + injection Heq as -> ->. by exists c', ds.
Qed.

Lemma scan_int_build ds rest :
  int_form ds → not_digit_head rest → scan_int (ds ++ rest) = Some (ds, rest).
Proof.
  intros [Hd [->|(c & ds' & -> & Hne)]] Hr; simpl.
  - destruct rest as [|c rest]; simpl in *; [done|by rewrite Hr].
  - destruct (N.eqb_spec c c_zero); [done|].
    apply Forall_cons in Hd as [Hc Hd]. pose proof (proj1 (is_digit_range c) Hc).
    unfold in_range. rewrite !(proj2 (N.leb_le _ _)) by lia. rewrite Hc, span_digits_app by done. done.
Qed.

Lemma scan_frac_ok s ds rest :
  scan_frac s = Some (ds, rest) → digits ds ∧ length ds + length rest ≤ length s.
Proof.
  unfold scan_frac. destruct s as [|c s]; [intros [= <- <-]; split; [constructor|simpl; lia]|].
  destruct (c =? c_dot)%N.
  - destruct (span_digits s) as [ds' rest'] eqn:Hs. apply span_digits_spec in Hs as (-> & Hd & _).
    case_bool_decide; [done|]. intros [= <- <-]. split; [done|]. simpl. rewrite length_app. lia.
  - intros [= <- <-]. split; [constructor|simpl; lia].
Qed.

Lemma scan_exp_ok s neg ds rest : scan_exp s = Some (neg, ds, rest) → digits ds.
Proof.
  unfold scan_exp. destruct s as [|c s]; [by intros [= <- <- <-]|].
  destruct (_ || _); [|by intros [= <- <- <-]].
  destruct (scan_sign s) as [n s1], (span_digits s1) as [ds' rest'] eqn:Hs.
  apply span_digits_spec in Hs as (_ & Hd & _). case_bool_decide; [done|]. by intros [= <- <- <-].
Qed.

Lemma scan_number_ok tok n :
  scan_number tok = Some n →
  int_form (n_int n) ∧ digits (n_frac n) ∧ digits (n_exp n) ∧
  length (n_int n) + length (n_frac n) ≤ length tok.
Proof.
  unfold scan_number. destruct (match tok with [] => _ | _ => _ end) as [neg s] eqn:Hs.
  assert (length s ≤ length tok) as Hls.
  { destruct tok as [|c tok]; [by injection Hs as <- <-|]. destruct (c =? c_minus)%N; injection Hs as <- <-; simpl; lia. }
  intros ([ds s1] & Hi & ([fs s2] & Hf & ([[en es] s3] & He & Hn)%bind_Some)%bind_Some)%bind_Some.
  case_bool_decide; [|done]. injection Hn as <-. simpl.
  apply scan_int_ok in Hi as [-> Hi]. apply scan_frac_ok in Hf as [Hf Hlf]. apply scan_exp_ok in He.
  rewrite length_app in Hls. split_and!; try done. lia.
Qed.

(** The string of a number without an exponent. *)
Definition decimal_string (neg : bool) (ds fs : bytes) : bytes :=
  (if neg then [c_minus] else []) ++ ds ++ (match fs with [] => [] | _ => c_dot :: fs end).

Lemma scan_decimal neg ds fs :
  int_form ds → digits fs → scan_number (decimal_string neg ds fs) = Some (mkNumber neg ds fs false []).
Proof.
  intros Hi Hf. unfold scan_number, decimal_string.
  set (tail := match fs with [] => [] | _ => c_dot :: fs end).
  assert (match ((if neg then [c_minus] else []) ++ ds ++ tail) with
          | [] => (false, [])
          | c :: s => if (c =? c_minus)%N then (true, s) else (false, (if neg then [c_minus] else []) ++ ds ++ tail)
          end = (neg, ds ++ tail)) as ->.
  { destruct neg; [done|]. simpl. destruct Hi as [Hd Hi]. destruct ds as [|c ds].
    { destruct Hi as [|(? & ? & ? & _)]; done. }
    apply Forall_cons in Hd as [Hc%is_digit_range _]. simpl. destruct (N.eqb_spec c c_minus); [lia|done]. }
  rewrite scan_int_build; [|done|by unfold tail; destruct fs]. simpl. unfold tail.
  destruct fs as [|f fs]; [done|]. unfold scan_frac. rewrite N.eqb_refl.
  pose proof (span_digits_app (f :: fs) [] Hf I) as Hs. rewrite app_nil_r in Hs. rewrite Hs. done.
Qed.

(** ** The value of a token *)

Definition exp_value (n : number) : Z :=
  if n_exp_neg n then (- digits_val (n_exp n))%Z else digits_val (n_exp n).
Definition signed (neg : bool) (m : Z) : Z := if neg then (- m)%Z else m.

(** [m * 10^e] *)
Definition scaled (m e : Z) : Q := inject_Z m * inject_Z 10 ^ e.

Definition num_value (n : number) : Q :=
  scaled (signed (n_neg n) (digits_val (n_int n ++ n_frac n)))
         (exp_value n - Z.of_nat (length (n_frac n))).

Lemma ten_pos e : (0 < inject_Z 10 ^ e)%Q.
Proof. apply Qpower_0_lt. reflexivity. Qed.

(** Moving [k] powers of ten into the mantissa. *)
Lemma scaled_shift m e k : (0 <= k)%Z → (scaled m (e + k) == scaled (m * 10 ^ k) e)%Q.
Proof.
  intros Hk. unfold scaled. rewrite Qpower_plus by discriminate. rewrite inject_Z_mult, Zpower_Qpower by done. ring.
Qed.

Lemma scaled_compare m1 m2 e : (scaled m1 e ?= scaled m2 e)%Q = (m1 ?= m2)%Z.
Proof.
  unfold scaled. pose proof (ten_pos e) as He.
  destruct (Z.compare_spec m1 m2) as [->|Hlt|Hgt].
  - by apply Qeq_alt.
  - apply Qlt_alt. apply Qmult_lt_compat_r; [done|]. by rewrite <-Zlt_Qlt.
  - apply Qgt_alt. apply Qmult_lt_compat_r; [done|]. by rewrite <-Zlt_Qlt.
Qed.

Lemma scaled_sign m e : (scaled m e ?= 0)%Q = (m ?= 0)%Z.
Proof.
  rewrite <-(scaled_compare m 0 e). assert (scaled 0 e == 0)%Q as -> by apply Qmult_0_l. done.
Qed.

Lemma scaled_opp m e : (scaled (- m) e == - scaled m e)%Q.
Proof. unfold scaled. rewrite inject_Z_opp. lra. Qed.

Lemma exp_capped_spec es :
  digits es →
  (digits_val es <= 1000000 ∧ exp_capped es = digits_val es)%Z ∨
  (1000000 < digits_val es ∧ exp_capped es = 1000001)%Z.
Proof.
  intros Hd. unfold exp_capped.
  set (f := λ (e : Z) (c : N), if (e <=? 1000000)%Z then (e * 10 + dig c)%Z else e).
  assert (∀ es e, digits es → (0 <= e)%Z →
    let v := (e * 10 ^ Z.of_nat (length es) + digits_val es)%Z in
    (v <= 1000000 ∧ foldl f e es = v)%Z ∨ (1000000 < v ∧ 1000000 < foldl f e es)%Z) as H.
  { clear. intros es. induction es as [|c es IH]; intros e Hd He; cbn [length foldl]; cbv zeta.
    { unfold digits_val. simpl. lia. }
    apply Forall_cons in Hd as [Hc Hd]. apply is_digit_range in Hc as Hc'. rewrite digits_val_cons.
    pose proof (pow10_pos (length es)) as Hp. pose proof (digits_val_bound es Hd) as Hb.
    rewrite Nat2Z.inj_succ, Z.pow_succ_r by lia. unfold f at 2 4. unfold dig in *.
    destruct (Z.leb_spec e 1000000) as [Hle|Hgt].
    - specialize (IH (e * 10 + (Z.of_N c - 48))%Z Hd ltac:(lia)). simpl in IH.
      replace (e * (10 * 10 ^ Z.of_nat (length es)) + ((Z.of_N c - 48) * 10 ^ Z.of_nat (length es) + digits_val es))%Z
        with ((e * 10 + (Z.of_N c - 48)) * 10 ^ Z.of_nat (length es) + digits_val es)%Z by ring. done.
    - right. specialize (IH e Hd He). simpl in IH. split; [nia|].
      assert (1000000 < e * 10 ^ Z.of_nat (length es) + digits_val es)%Z by nia. lia. }
  specialize (H es 0%Z Hd ltac:(lia)). simpl in H.
  destruct (Z.ltb_spec 1000000 (foldl f 0%Z es)); lia.
Qed.

(** ** The significant digits *)

Lemma last_none_zeros ds : last_nonzero ds = None ↔ ds = replicate (length ds) c_zero.
Proof.
  induction ds as [|c ds IH]; simpl; [done|]. destruct (last_nonzero ds) eqn:E.
  - split; [done|]. intros [= -> Hd]. by apply IH in Hd.
  - destruct (N.eqb_spec c c_zero) as [->|Hne]; split; try done.
    + intros _. f_equal. by apply IH.
    + by intros [= -> _].
Qed.

Lemma first_none_last ds : first_nonzero ds = None ↔ last_nonzero ds = None.
Proof.
  induction ds as [|c ds IH]; simpl; [done|]. destruct (c =? c_zero)%N.
  - rewrite fmap_None, IH. by destruct (last_nonzero ds).
  - by destruct (last_nonzero ds).
Qed.

(** The shape of the significant digits: no zero at either end. *)
Definition sig_form (ds : bytes) : Prop :=
  digits ds ∧ (∃ c ds', ds = c :: ds' ∧ c ≠ c_zero) ∧ (∃ ds' c, ds = ds' ++ [c] ∧ c ≠ c_zero).

Lemma sig_digits ds f l :
  digits ds → first_nonzero ds = Some f → last_nonzero ds = Some l →
  ∃ sig, ds = replicate f c_zero ++ sig ++ replicate (length ds - 1 - l) c_zero ∧
    sig_form sig ∧ length sig = l - f + 1 ∧ take (l - f + 1) (drop f ds) = sig ∧ l < length ds ∧ f ≤ l.
Proof.
  intros Hd Hf Hl.
  assert (∃ a c b, ds = a ++ [c] ++ b ∧ c ≠ c_zero ∧ b = replicate (length b) c_zero ∧ length a = l) as (a & c & b & -> & Hc & Hb & <-).
  { clear Hf Hd f. revert l Hl. induction ds as [|x ds IH]; intros l; simpl; [done|].
    destruct (last_nonzero ds) as [i|] eqn:E.
    - intros [= <-]. destruct (IH i eq_refl) as (a & c & b & -> & Hc & Hb & <-). by exists (x :: a), c, b.
    - destruct (N.eqb_spec x c_zero) as [->|Hne]; [done|]. intros [= <-].
      exists [], x, ds. split_and!; try done. by apply last_none_zeros. }
  clear Hl. assert (∃ s, a ++ [c] = replicate f c_zero ++ s ∧ (∃ x s', s = x :: s' ∧ x ≠ c_zero)) as (s & Hs & Hs0).
  { clear Hd Hb. revert f Hf. induction a as [|x a IH]; intros f; simpl.
    - destruct (N.eqb_spec c c_zero); [done|]. intros [= <-]. exists [c]. eauto.
    - destruct (N.eqb_spec x c_zero) as [->|Hne].
      + destruct (first_nonzero (a ++ c :: b)) as [g|] eqn:E; [|done]. intros [= <-].
        destruct (IH g E) as (s & Hs & Hs0). exists s. split; [simpl; by f_equal|done].
      + intros [= <-]. exists (x :: a ++ [c]). eauto. }
  assert (length a + 1 = f + length s) as Hlen.
  { apply (f_equal length) in Hs. by rewrite !length_app, length_replicate in Hs. }
  assert (length s ≠ 0) by (destruct Hs0 as (? & ? & -> & _); done).
  exists s. assert (a ++ [c] ++ b = replicate f c_zero ++ s ++ b) as Heq by (by rewrite app_assoc, Hs, <-app_assoc).
  rewrite Heq in *. rewrite !length_app, length_replicate in *.
  split_and!; [|split_and!| | | |].
  - rewrite Hb at 1. do 3 f_equal. lia.
  - apply Forall_app in Hd as [_ Hd]. by apply Forall_app in Hd as [Hd _].
  - done.
  - destruct s as [|y s _] using rev_ind; [done|]. rewrite app_assoc in Hs. apply app_inj_tail in Hs as [_ ->]. eauto.
  - lia.
  - rewrite drop_app_length' by (by rewrite length_replicate). apply take_app_length'. lia.
  - lia.
  - lia.
Qed.

Lemma sig_val_pos sig : sig_form sig → (0 < digits_val sig)%Z.
Proof.
  intros (Hd & (c & ds & -> & Hc) & _). pose proof (digits_val_lead c ds Hd Hc). pose proof (pow10_pos (length ds)). lia.
Qed.

Lemma sig_val_mod sig : sig_form sig → (digits_val sig mod 10 ≠ 0)%Z.
Proof.
  intros (Hd & _ & (ds & c & -> & Hc)). apply Forall_app in Hd as [_ [Hd _]%Forall_cons].
  apply is_digit_range in Hd. rewrite digits_val_app. simpl length. change (digits_val [c]) with (0 * 10 + dig c)%Z.
  unfold dig. rewrite Z.pow_1_r. zlia.
Qed.

Lemma sig_val_inj s1 s2 : sig_form s1 → sig_form s2 → digits_val s1 = digits_val s2 → s1 = s2.
Proof.
  intros (Hd1 & (c1 & t1 & E1 & Hc1) & _) (Hd2 & (c2 & t2 & E2 & Hc2) & _) Hv.
  assert (length s1 = length s2) as Hl.
  { pose proof (digits_val_bound s1 Hd1) as B1. pose proof (digits_val_bound s2 Hd2) as B2.
    subst. pose proof (digits_val_lead _ _ Hd1 Hc1) as L1. pose proof (digits_val_lead _ _ Hd2 Hc2) as L2.
    simpl length in *. rewrite !Nat2Z.inj_succ, !Z.pow_succ_r in * by lia.
    destruct (Nat.lt_trichotomy (length t1) (length t2)) as [Hlt|[->|Hlt]]; [|done|].
    - pose proof (Z.pow_le_mono_r 10 (Z.of_nat (length t1) + 1) (Z.of_nat (length t2)) ltac:(lia) ltac:(lia)) as Hm.
      rewrite Z.pow_add_r in Hm by lia. lia.
    - pose proof (Z.pow_le_mono_r 10 (Z.of_nat (length t2) + 1) (Z.of_nat (length t1)) ltac:(lia) ltac:(lia)) as Hm.
      rewrite Z.pow_add_r in Hm by lia. lia. }
  apply bytes_compare_eq. rewrite digits_compare by done. by apply Z.compare_eq_iff.
Qed.

Lemma scaled_eq_inv m1 m2 e1 e2 :
  (m1 mod 10 ≠ 0)%Z → (m2 mod 10 ≠ 0)%Z → (scaled m1 e1 == scaled m2 e2)%Q → m1 = m2 ∧ e1 = e2.
Proof.
  assert (∀ m1 m2 e1 e2, (e1 <= e2)%Z → (m1 mod 10 ≠ 0)%Z → (scaled m1 e1 == scaled m2 e2)%Q → m1 = m2 ∧ e1 = e2) as H.
  { clear. intros m1 m2 e1 e2 Hle Hm Heq. replace e2 with (e1 + (e2 - e1))%Z in Heq by lia.
    rewrite scaled_shift in Heq by lia. apply Qeq_alt in Heq. rewrite scaled_compare in Heq.
    apply Z.compare_eq_iff in Heq. destruct (Z.eq_dec e1 e2) as [->|Hne].
    - rewrite Z.sub_diag, Z.pow_0_r in Heq. lia.
    - replace (e2 - e1)%Z with (1 + (e2 - e1 - 1))%Z in Heq by lia. rewrite Z.pow_add_r in Heq by lia.
      destruct Hm. subst m1. rewrite Z.pow_1_r, Z.mul_assoc, Z.mul_shuffle0. apply Z.mod_mul. lia. }
  intros H1 H2 Heq. destruct (Z.le_ge_cases e1 e2) as [Hle|Hge]; [by apply H|].
  destruct (H m2 m1 e2 e1) as [-> ->]; [lia|done|by symmetry|done].
Qed.

(** ** The canonical form *)

(** The integer and fraction digits of [fixed_decimal]. *)
Definition fixed_parts (ds : bytes) (scaleExp : Z) : bytes * bytes :=
  let dp := (Z.of_nat (length ds) + scaleExp)%Z in
  if (dp <=? 0)%Z then ([c_zero], replicate (Z.to_nat (- dp)) c_zero ++ ds)
  else if (Z.of_nat (length ds) <=? dp)%Z
  then (ds ++ replicate (Z.to_nat (dp - Z.of_nat (length ds))) c_zero, [])
  else (take (Z.to_nat dp) ds, drop (Z.to_nat dp) ds).

Lemma fixed_decimal_parts neg ds e :
  ds ≠ [] → fixed_decimal neg ds e = decimal_string neg (fixed_parts ds e).1 (fixed_parts ds e).2.
Proof.
  intros Hne. unfold fixed_decimal, fixed_parts, decimal_string. f_equal.
  destruct (Z.leb_spec (Z.of_nat (length ds) + e) 0); simpl.
  { destruct (replicate _ _ ++ ds) eqn:E; [|done]. by apply app_eq_nil in E as [_ ->]. }
  destruct (Z.leb_spec (Z.of_nat (length ds)) (Z.of_nat (length ds) + e)); simpl; [by rewrite app_nil_r|].
  destruct (drop _ ds) eqn:E; [|done]. apply (f_equal length) in E. rewrite length_drop in E. simpl in E. lia.
Qed.

(** Fractions of canonical numbers do not end in zero. *)
Definition frac_form (fs : bytes) : Prop := digits fs ∧ (fs = [] ∨ ∃ fs' c, fs = fs' ++ [c] ∧ c ≠ c_zero).

Lemma zeros_digits n : digits (replicate n c_zero).
Proof. apply Forall_replicate. done. Qed.

Lemma fixed_parts_form ds e :
  sig_form ds →
  let p := fixed_parts ds e in
  int_form p.1 ∧ frac_form p.2 ∧
  (scaled (digits_val (p.1 ++ p.2)) (- Z.of_nat (length p.2)) == scaled (digits_val ds) e)%Q.
Proof.
  intros (Hd & (c & t & Hc & Hc0) & (t' & c' & Hc' & Hc0')). unfold fixed_parts.
  destruct (Z.leb_spec (Z.of_nat (length ds) + e) 0); simpl.
  { split_and!.
    - split; [by repeat constructor|by left].
    - split; [apply Forall_app; split; [apply zeros_digits|done]|right].
      exists (replicate (Z.to_nat (- (Z.of_nat (length ds) + e))) c_zero ++ t'), c'. by rewrite Hc', app_assoc.
    - rewrite digits_val_cons, digits_val_app, digits_val_zeros, length_app, length_replicate.
      replace (- Z.of_nat (Z.to_nat (- (Z.of_nat (length ds) + e)) + length ds))%Z with e by lia.
      unfold dig. by rewrite Z.mul_0_l. }
  destruct (Z.leb_spec (Z.of_nat (length ds)) (Z.of_nat (length ds) + e)); simpl.
  - split_and!.
    + split; [apply Forall_app; split; [done|apply zeros_digits]|right]. rewrite Hc. simpl. eauto.
    + split; [constructor|by left].
    + rewrite app_nil_r, digits_val_app, digits_val_zeros, length_replicate, Z.add_0_r.
      rewrite Z2Nat.id by lia. change (- Z.of_nat (length ([] : bytes)))%Z with 0%Z.
      rewrite <-scaled_shift by lia.
      by replace (- Z.of_nat 0 + (Z.of_nat (length ds) + e - Z.of_nat (length ds)))%Z with e by lia.
  - rewrite take_drop. split_and!.
    + split; [by apply Forall_take|right]. rewrite Hc.
      destruct (Z.to_nat (Z.of_nat (length (c :: t)) + e)) eqn:E; [rewrite <-Hc in E; lia|]. simpl. eauto.
    + split; [by apply Forall_drop|right].
      assert (Z.to_nat (Z.of_nat (length ds) + e) ≤ length t') as Hk.
      { apply (f_equal length) in Hc'. rewrite length_app in Hc'. simpl in Hc'. lia. }
      revert Hk. generalize (Z.to_nat (Z.of_nat (length ds) + e)). intros k Hk.
      exists (drop k t'), c'. split; [|done]. by rewrite Hc', drop_app_le.
    + rewrite length_drop. replace (- Z.of_nat (length ds - Z.to_nat (Z.of_nat (length ds) + e)))%Z with e by lia. done.
Qed.

(** The numbers a canonical string can spell. *)
Definition canonical_form (c : bytes) (neg : bool) (ds fs : bytes) : Prop :=
  c = decimal_string neg ds fs ∧ int_form ds ∧ frac_form fs ∧ (neg = true → digits_val (ds ++ fs) ≠ 0%Z).

Definition canonical_value (neg : bool) (ds fs : bytes) : Q :=
  scaled (signed neg (digits_val (ds ++ fs))) (- Z.of_nat (length fs)).

Lemma canonical_form_scan c neg ds fs :
  canonical_form c neg ds fs → ∃ n, scan_number c = Some n ∧ num_value n = canonical_value neg ds fs.
Proof.
  intros (-> & Hi & [Hf _] & _). eexists. split; [by apply scan_decimal|]. unfold num_value. simpl.
  unfold canonical_value, exp_value. simpl. f_equal.
Qed.

Lemma signed_scaled neg m1 m2 e1 e2 :
  (scaled m1 e1 == scaled m2 e2)%Q → (scaled (signed neg m1) e1 == scaled (signed neg m2) e2)%Q.
Proof.
  unfold signed, scaled. destruct neg; [|done]. rewrite !inject_Z_opp. intros H. lra.
Qed.

(** The exponent the code computes with is the token's own, as far as the
    precision envelope can tell, when the token is shorter than the cap. *)
Definition token_limit : nat := N.to_nat 999000.

Definition code_exp (n : number) : Z :=
  if n_exp_neg n then (- exp_capped (n_exp n))%Z else exp_capped (n_exp n).

Lemma code_exp_spec n : digits (n_exp n) →
  code_exp n = exp_value n ∨ (code_exp n = 1000001 ∧ exp_value n > 1000000)%Z ∨
  (code_exp n = -1000001 ∧ exp_value n < -1000000)%Z.
Proof.
  intros Hd. unfold code_exp, exp_value. destruct (exp_capped_spec _ Hd) as [[? ->]|[? ->]]; [by left|].
  right. destruct (n_exp_neg n); lia.
Qed.

Lemma token_limit_Z (l : nat) : l ≤ token_limit ↔ (Z.of_nat l <= 999000)%Z.
Proof. unfold token_limit. lia. Qed.

(** What the canonicalizer makes of a valid token: one of three outcomes. *)
Lemma canonical_cases tok n :
  scan_number tok = Some n →
  let all := n_int n ++ n_frac n in
  (all = replicate (length all) c_zero ∧ canonicalNumberToken tok false = Ok (Some [c_zero])) ∨
  (∃ sig tz, sig_form sig ∧ digits_val all = (digits_val sig * 10 ^ Z.of_nat tz)%Z ∧
     tz < length all ∧ length sig ≤ length all ∧
     let scaleExp := (code_exp n - Z.of_nat (length (n_frac n)) + Z.of_nat tz)%Z in
     let mathExp := (Z.of_nat (length sig) - 1 + scaleExp)%Z in
     let fits := length sig ≤ maxTypedFilterSignificant ∧ (-200 <= mathExp <= 200)%Z in
     (fits ∧ canonicalNumberToken tok false = Ok (Some (fixed_decimal (n_neg n) sig scaleExp))) ∨
     (¬ fits ∧ canonicalNumberToken tok false = Ok None)).
Proof.
  intros Hn. pose proof (scan_number_ok _ _ Hn) as ([Hi _] & Hf & _ & _). cbv zeta.
  unfold canonicalNumberToken. simpl. rewrite Hn. set (all := n_int n ++ n_frac n).
  assert (digits all) as Hd by (apply Forall_app; split; done).
  destruct (first_nonzero all) as [f|] eqn:Hfst.
  2:{ left. split; [|done]. by apply last_none_zeros, first_none_last. }
  destruct (last_nonzero all) as [l|] eqn:Hlst; [|by rewrite <-first_none_last, Hfst in Hlst].
  right. destruct (sig_digits all f l Hd Hfst Hlst) as (sig & Hall & Hsig & Hlen & Htake & Hl & Hfl).
  exists sig, (length all - 1 - l). rewrite Htake, <-Hlen. split_and!; [done| |lia|lia|].
  - rewrite Hall at 1. rewrite !digits_val_app, !digits_val_zeros, !length_replicate. lia.
  - cbv zeta. fold (code_exp n). unfold maxTypedFilterExponent.
    destruct (Nat.ltb_spec maxTypedFilterSignificant (length sig)); [right; split; [lia|done]|].
    destruct (_ || _) eqn:E; [right|left]; (split; [lia|done]).
Qed.

Lemma num_value_zero n : n_int n ++ n_frac n = replicate (length (n_int n ++ n_frac n)) c_zero → (num_value n == 0)%Q.
Proof.
  intros Hz. unfold num_value. rewrite Hz, digits_val_zeros. unfold scaled, signed. destruct (n_neg n); apply Qmult_0_l.
Qed.

(** The canonical string of a token spells the token's value. *)
Lemma canonical_value_ok tok n c :
  scan_number tok = Some n → length tok ≤ token_limit → canonicalNumberToken tok false = Ok (Some c) →
  ∃ neg ds fs, canonical_form c neg ds fs ∧ (canonical_value neg ds fs == num_value n)%Q.
Proof.
  intros Hn Hlim Hc. pose proof (scan_number_ok _ _ Hn) as (_ & Hf & He & Hlen).
  apply token_limit_Z in Hlim.
  destruct (canonical_cases _ _ Hn) as [[Hz Heq]|(sig & tz & Hsig & Hval & Htz & Hls & [[Hfit Heq]|[_ Heq]])];
    rewrite Heq in Hc; [injection Hc as <-|injection Hc as <-|done].
  - exists false, [c_zero], []. split.
    + split_and!; [done|split; [by repeat constructor|by left]|split; [constructor|by left]|done].
    + rewrite (num_value_zero n Hz). reflexivity.
  - rewrite length_app in *. set (e := (code_exp n - Z.of_nat (length (n_frac n)) + Z.of_nat tz)%Z) in *.
    assert (code_exp n = exp_value n) as Hexp.
    { unfold maxTypedFilterSignificant in *. destruct (code_exp_spec n He) as [|[[? ?]|[? ?]]]; [done|lia|lia]. }
    destruct (fixed_parts_form sig e Hsig) as (Hi & Hfr & Hv).
    assert (sig ≠ []) as Hne by (destruct Hsig as (_ & (? & ? & -> & _) & _); done).
    exists (n_neg n), (fixed_parts sig e).1, (fixed_parts sig e).2. split.
    + split_and!; [by rewrite fixed_decimal_parts|done|done|]. intros _ Hz. rewrite Hz in Hv.
      assert (0 < scaled (digits_val sig) e)%Q as Hp.
      { apply Qmult_lt_0_compat; [|apply ten_pos]. rewrite <-(Zlt_Qlt 0). by apply sig_val_pos. }
      rewrite <-Hv in Hp. unfold scaled in Hp. change (inject_Z 0) with 0%Q in Hp.
      rewrite Qmult_0_l in Hp. by apply Qlt_irrefl in Hp.
    + unfold canonical_value, num_value. apply signed_scaled. rewrite Hv, Hval, <-Hexp.
      rewrite <-scaled_shift by lia. unfold e. reflexivity.
Qed.

(** ** Order *)

Definition frac_tail (fs : bytes) : bytes := match fs with [] => [] | _ => c_dot :: fs end.

Lemma digits_no_dot ds : digits ds → index_byte c_dot ds = None.
Proof.
  induction 1 as [|c ds Hc Hds IH]; simpl; [done|]. apply is_digit_range in Hc.
  destruct (N.eqb_spec c c_dot); [lia|]. by rewrite IH.
Qed.

Lemma index_dot ds fs :
  digits ds → default (length (ds ++ frac_tail fs)) (index_byte c_dot (ds ++ frac_tail fs)) = length ds.
Proof.
  intros Hd. assert (∀ rest, index_byte c_dot (ds ++ c_dot :: rest) = Some (length ds)) as Hdot.
  { intros rest. induction Hd as [|c ds Hc Hds IH]; simpl; [done|]. apply is_digit_range in Hc.
    destruct (N.eqb_spec c c_dot); [lia|]. by rewrite IH. }
  destruct fs as [|f fs]; simpl; [|by rewrite Hdot]. rewrite app_nil_r, digits_no_dot by done. done.
Qed.

Definition pad (fs : bytes) (n : nat) : bytes := fs ++ replicate (n - length fs) c_zero.

Lemma compare_frac_spec a b :
  digits a → digits b →
  (compare_frac a b ?= 0)%Z = bytes_compare (pad a (length b)) (pad b (length a)).
Proof.
  unfold pad. intros Ha. revert b. induction Ha as [|x a Hx Ha IH]; intros b Hb.
  - simpl. rewrite app_nil_r, Nat.sub_0_r. induction Hb as [|y b Hy Hb IHb]; [done|].
    cbn [compare_frac_nil length replicate bytes_compare]. apply is_digit_range in Hy.
    destruct (N.eqb_spec y c_zero) as [->|Hne]; [exact IHb|].
    rewrite (proj2 (N.compare_lt_iff c_zero y)) by lia. apply Z.compare_lt_iff. lia.
  - apply is_digit_range in Hx. destruct Hb as [|y b Hy Hb]; cbn [compare_frac length].
    + specialize (IH [] (Forall_nil_2 _)). simpl in IH |- *. rewrite app_nil_r, Nat.sub_0_r in *.
      destruct (N.eqb_spec x c_zero) as [->|Hne]; [exact IH|].
      rewrite (proj2 (N.compare_gt_iff x c_zero)) by lia. apply Z.compare_gt_iff. lia.
    + simpl. destruct (N.eqb_spec x y) as [->|Hne]; [rewrite N.compare_refl; by apply IH|].
      destruct (N.compare_spec x y); [done|apply Z.compare_lt_iff; lia|apply Z.compare_gt_iff; lia].
Qed.

Lemma pad_digits fs n : digits fs → digits (pad fs n).
Proof. intros. apply Forall_app. split; [done|apply zeros_digits]. Qed.

Lemma pad_length fs n : length (pad fs n) = max (length fs) n.
Proof. unfold pad. rewrite length_app, length_replicate. lia. Qed.

Lemma scaled_pad ds fs n :
  (scaled (digits_val (ds ++ fs)) (- Z.of_nat (length fs)) ==
   scaled (digits_val (ds ++ pad fs n)) (- Z.of_nat (max (length fs) n)))%Q.
Proof.
  unfold pad. rewrite (app_assoc ds), (digits_val_app (ds ++ fs)), digits_val_zeros, length_replicate, Z.add_0_r.
  rewrite <-scaled_shift by lia.
  replace (- Z.of_nat (max (length fs) n) + Z.of_nat (n - length fs))%Z with (- Z.of_nat (length fs))%Z by lia.
  reflexivity.
Qed.

Lemma bytes_compare_app a b a' b' :
  length a = length b → bytes_compare (a ++ a') (b ++ b') =
  match bytes_compare a b with Eq => bytes_compare a' b' | c => c end.
Proof.
  revert b. induction a as [|x a IH]; intros [|y b] Hl; simpl in *; try done.
  destruct (x ?= y)%N; [|done..]. apply IH. lia.
Qed.

Lemma int_form_shorter ds1 ds2 fs1 fs2 :
  int_form ds1 → int_form ds2 → digits fs1 → digits fs2 → length fs1 = length fs2 →
  length ds1 < length ds2 → (digits_val (ds1 ++ fs1) < digits_val (ds2 ++ fs2))%Z.
Proof.
  intros [Hd1 Hi1] [Hd2 Hi2] Hf1 Hf2 Hl Hlt. destruct Hi2 as [->|(c & t & -> & Hc)].
  { destruct Hi1 as [->|(? & ? & -> & _)]; simpl in Hlt; lia. }
  pose proof (digits_val_bound (ds1 ++ fs1)) as H1. pose proof (digits_val_lead c (t ++ fs2)) as H2.
  assert (digits (ds1 ++ fs1)) as Hd by (by apply Forall_app). specialize (H1 Hd).
  assert (digits (c :: t ++ fs2)) as Hd' by (by apply (Forall_app _ (c :: t))). specialize (H2 Hd' Hc).
  simpl in Hlt. rewrite !length_app in *. change ((c :: t) ++ fs2) with (c :: t ++ fs2).
  pose proof (Z.pow_le_mono_r 10 (Z.of_nat (length ds1 + length fs1)) (Z.of_nat (length t + length fs2))
    ltac:(lia) ltac:(lia)). lia.
Qed.

Lemma drop_frac ds fs : drop (S (length ds)) (ds ++ frac_tail fs) = fs.
Proof.
  destruct fs as [|f fs]; simpl; [by rewrite app_nil_r, drop_ge by lia|].
  rewrite (cons_middle c_dot ds), app_assoc. apply drop_app_length'. rewrite length_app. simpl. lia.
Qed.

Lemma magnitude_compare ds1 fs1 ds2 fs2 :
  int_form ds1 → int_form ds2 → digits fs1 → digits fs2 →
  (compareCanonicalMagnitudes (ds1 ++ frac_tail fs1) (ds2 ++ frac_tail fs2) ?= 0)%Z =
  (scaled (digits_val (ds1 ++ fs1)) (- Z.of_nat (length fs1)) ?=
   scaled (digits_val (ds2 ++ fs2)) (- Z.of_nat (length fs2)))%Q.
Proof.
  intros Hi1 Hi2 Hf1 Hf2. pose proof (proj1 Hi1) as Hd1. pose proof (proj1 Hi2) as Hd2.
  rewrite (scaled_pad ds1 fs1 (length fs2)), (scaled_pad ds2 fs2 (length fs1)), (Nat.max_comm (length fs2)).
  rewrite scaled_compare. unfold compareCanonicalMagnitudes. rewrite !index_dot by done.
  pose proof (pad_digits fs1 (length fs2) Hf1) as Hp1. pose proof (pad_digits fs2 (length fs1) Hf2) as Hp2.
  assert (length (pad fs1 (length fs2)) = length (pad fs2 (length fs1))) as Hpl by (rewrite !pad_length; lia).
  destruct (Nat.eqb_spec (length ds1) (length ds2)) as [Hl|Hl]; simpl.
  - rewrite !take_app_length, <-digits_compare; [|by apply Forall_app|by apply Forall_app|rewrite !length_app; lia].
    rewrite bytes_compare_app by done. unfold compare_strings.
    destruct (bytes_compare ds1 ds2) eqn:E; simpl; [|done|done].
    rewrite <-compare_frac_spec by done. by rewrite !drop_frac.
  - destruct (Nat.lt_ge_cases (length ds1) (length ds2)) as [Hlt|Hge]; symmetry.
    + pose proof (int_form_shorter ds1 ds2 _ _ Hi1 Hi2 Hp1 Hp2 Hpl Hlt) as H.
      rewrite (proj2 (Z.compare_lt_iff _ _) H). symmetry. apply Z.compare_lt_iff. lia.
    + pose proof (int_form_shorter ds2 ds1 _ _ Hi2 Hi1 Hp2 Hp1 (eq_sym Hpl) ltac:(lia)) as H.
      rewrite (proj2 (Z.compare_gt_iff _ _) H). symmetry. apply Z.compare_gt_iff. lia.
Qed.

Lemma canonical_negative c neg ds fs : canonical_form c neg ds fs → is_negative c = neg.
Proof.
  intros (-> & [Hd Hi] & _). destruct neg; [done|]. unfold decimal_string. simpl.
  destruct ds as [|x ds]; [by destruct Hi as [?|(? & ? & ? & _)]|]. simpl.
  apply Forall_cons in Hd as [Hx%is_digit_range _]. destruct (N.eqb_spec x c_minus); [lia|done].
Qed.

Lemma canonical_value_sign c neg ds fs :
  canonical_form c neg ds fs → if neg then (canonical_value neg ds fs < 0)%Q else (0 <= canonical_value neg ds fs)%Q.
Proof.
  intros (_ & [Hd _] & [Hf _] & Hz). unfold canonical_value, signed.
  pose proof (digits_val_bound (ds ++ fs)) as Hb. specialize (Hb ltac:(by apply Forall_app)).
  destruct neg.
  - specialize (Hz eq_refl). apply Qlt_alt. rewrite scaled_sign. apply Z.compare_lt_iff. lia.
  - apply Qge_alt. rewrite scaled_sign. apply Z.compare_ge_iff. lia.
Qed.

Lemma qcompare_opp p q : (- p ?= - q)%Q = CompOpp (p ?= q)%Q.
Proof.
  destruct (p ?= q)%Q eqn:E; simpl.
  - apply Qeq_alt in E. apply Qeq_alt. by rewrite E.
  - apply Qlt_alt in E. apply Qgt_alt. lra.
  - assert (q < p)%Q by (apply Qgt_alt; exact E). apply (proj1 (Qlt_alt _ _)). lra.
Qed.

Lemma canonical_compare c1 neg1 ds1 fs1 c2 neg2 ds2 fs2 :
  canonical_form c1 neg1 ds1 fs1 → canonical_form c2 neg2 ds2 fs2 →
  (compareCanonicalNumbers c1 c2 ?= 0)%Z = (canonical_value neg1 ds1 fs1 ?= canonical_value neg2 ds2 fs2)%Q.
Proof.
  intros H1 H2. unfold compareCanonicalNumbers. case_bool_decide as Heq.
  { subst c2. apply canonical_form_scan in H1 as (n1 & Hn1 & <-). apply canonical_form_scan in H2 as (n2 & Hn2 & <-).
    rewrite Hn1 in Hn2. injection Hn2 as <-. symmetry. apply Qeq_alt. reflexivity. }
  rewrite (canonical_negative _ _ _ _ H1), (canonical_negative _ _ _ _ H2).
  pose proof (canonical_value_sign _ _ _ _ H1) as S1. pose proof (canonical_value_sign _ _ _ _ H2) as S2.
  pose proof H1 as (-> & Hi1 & [Hf1 _] & _). pose proof H2 as (-> & Hi2 & [Hf2 _] & _).
  pose proof (magnitude_compare ds1 fs1 ds2 fs2 Hi1 Hi2 Hf1 Hf2) as Hm.
  destruct neg1, neg2; simpl.
  - unfold canonical_value, signed. rewrite !scaled_opp, qcompare_opp, <-Hm.
    assert (∀ m, (- m ?= 0)%Z = CompOpp (m ?= 0)%Z) as Ho by (intros []; done). apply Ho.
  - symmetry. apply (proj1 (Qlt_alt _ _)). lra.
  - symmetry. apply (proj1 (Qgt_alt _ _)). lra.
  - exact Hm.
Qed.

Lemma frac_last_mod ds fs c : digits (ds ++ fs ++ [c]) → c ≠ c_zero → (digits_val (ds ++ fs ++ [c]) mod 10 ≠ 0)%Z.
Proof.
  rewrite app_assoc. intros [_ [Hc%is_digit_range _]%Forall_cons]%Forall_app Hne.
  rewrite digits_val_app. change (digits_val [c]) with (0 * 10 + dig c)%Z. simpl length.
  unfold dig. rewrite Z.pow_1_r. zlia.
Qed.

(** A longer fraction that does not end in zero has another value. *)
Lemma frac_longer ds1 fs1 ds2 fs2 :
  int_form ds2 → frac_form fs2 → length fs1 < length fs2 →
  ¬ (scaled (digits_val (ds1 ++ fs1)) (- Z.of_nat (length fs1)) ==
     scaled (digits_val (ds2 ++ fs2)) (- Z.of_nat (length fs2)))%Q.
Proof.
  intros [Hd2 _] [Hf2 [->|(t & c & -> & Hc)]] Hlt Heq; [simpl in Hlt; lia|].
  set (e2 := (- Z.of_nat (length (t ++ [c])))%Z) in *.
  replace (- Z.of_nat (length fs1))%Z with (e2 + (1 + (Z.of_nat (length (t ++ [c])) - Z.of_nat (length fs1) - 1)))%Z in Heq
    by (unfold e2; lia).
  rewrite scaled_shift in Heq by lia. apply Qeq_alt in Heq. rewrite scaled_compare in Heq.
  apply Z.compare_eq_iff in Heq. apply (frac_last_mod ds2 t c); [by apply Forall_app|done|].
  rewrite <-Heq, Z.pow_add_r, Z.pow_1_r, Z.mul_assoc, Z.mul_shuffle0 by lia. apply Z.mod_mul. lia.
Qed.

Lemma canonical_inj c1 neg1 ds1 fs1 c2 neg2 ds2 fs2 :
  canonical_form c1 neg1 ds1 fs1 → canonical_form c2 neg2 ds2 fs2 →
  (canonical_value neg1 ds1 fs1 == canonical_value neg2 ds2 fs2)%Q → c1 = c2.
Proof.
  intros H1 H2 Hv.
  pose proof (canonical_value_sign _ _ _ _ H1) as S1. pose proof (canonical_value_sign _ _ _ _ H2) as S2.
  assert (neg1 = neg2) as -> by (destruct neg1, neg2; try done; exfalso; lra).
  destruct H1 as (-> & Hi1 & Hf1 & _), H2 as (-> & Hi2 & Hf2 & _).
  assert (scaled (digits_val (ds1 ++ fs1)) (- Z.of_nat (length fs1)) ==
          scaled (digits_val (ds2 ++ fs2)) (- Z.of_nat (length fs2)))%Q as Hm.
  { unfold canonical_value, signed in Hv. destruct neg2; [|done]. rewrite !scaled_opp in Hv. lra. }
  destruct (Nat.lt_trichotomy (length fs1) (length fs2)) as [Hlt|[Hl|Hlt]].
  { by apply (frac_longer ds1 fs1 ds2 fs2) in Hlt. }
  2:{ apply (frac_longer ds2 fs2 ds1 fs1) in Hlt; [|done..]. by symmetry in Hm. }
  rewrite Hl in Hm. apply Qeq_alt in Hm. rewrite scaled_compare in Hm. apply Z.compare_eq_iff in Hm.
  pose proof (proj1 Hf1) as Hdf1. pose proof (proj1 Hf2) as Hdf2.
  destruct (Nat.lt_trichotomy (length ds1) (length ds2)) as [Hlt|[Hld|Hlt]].
  { pose proof (int_form_shorter ds1 ds2 fs1 fs2 Hi1 Hi2 Hdf1 Hdf2 Hl Hlt). lia. }
  2:{ pose proof (int_form_shorter ds2 ds1 fs2 fs1 Hi2 Hi1 Hdf2 Hdf1 (eq_sym Hl) Hlt). lia. }
  assert (ds1 ++ fs1 = ds2 ++ fs2) as Heq.
  { apply bytes_compare_eq. rewrite digits_compare; [by apply Z.compare_eq_iff| | |rewrite !length_app; lia];
      apply Forall_app; split; try done; [apply Hi1|apply Hi2]. }
  apply app_inj_1 in Heq as [-> ->]; done.
Qed.

(** ** Agreement of the two scanners *)

Lemma valid_frac_scan s : valid_frac s = snd <$> scan_frac s.
Proof.
  destruct s as [|c s]; [done|]. simpl. destruct (c =? c_dot)%N; [|done].
  unfold digits1. destruct (span_digits s). by case_bool_decide.
Qed.

Lemma valid_exp_scan s : valid_exp s = snd <$> scan_exp s.
Proof.
  destruct s as [|c s]; [done|]. simpl. destruct (_ || _); [|done].
  unfold digits1. destruct (scan_sign s) as [neg s1]. simpl. destruct (span_digits s1). by case_bool_decide.
Qed.

Lemma valid_int_scan s :
  match scan_int s with
  | Some (ds, rest) => valid_int s = Some rest
  | None => valid_int s = None ∨ ∃ d rest, valid_int s = Some (d :: rest) ∧ is_digit d = true
  end.
Proof.
  unfold scan_int, valid_int. destruct s as [|c s]; [by left|]. destruct (c =? c_zero)%N.
  - destruct s as [|d s]; [done|]. destruct (is_digit d) eqn:Hd; [right; eauto|done].
  - destruct (in_range c_one c_nine c); [|by left]. by destruct (span_digits (c :: s)).
Qed.

Lemma valid_number_scan tok : valid_number_token tok = true ↔ is_Some (scan_number tok).
Proof.
  unfold valid_number_token, scan_number. rewrite bool_decide_eq_true.
  set (p := match tok with [] => (false, []) | c :: s => if (c =? c_minus)%N then (true, s) else (false, tok) end).
  assert (match tok with [] => [] | c :: s => if (c =? c_minus)%N then s else tok end = p.2) as ->.
  { unfold p. destruct tok as [|c s]; [done|]. by destruct (c =? c_minus)%N. }
  destruct p as [neg s]. simpl. pose proof (valid_int_scan s) as Hi. destruct (scan_int s) as [[ds s1]|]; simpl.
  - rewrite Hi. simpl. rewrite valid_frac_scan. destruct (scan_frac s1) as [[fs s2]|]; simpl; [|by split; [|intros []]].
    rewrite valid_exp_scan. destruct (scan_exp s2) as [[[en es] s3]|]; simpl; [|by split; [|intros []]].
    case_bool_decide as H3; [subst; split; [by eexists|done]|]. split; [by intros [=]|by intros []].
  - split; [|by intros []]. destruct Hi as [->|(d & rest & -> & Hd)]; simpl; [done|].
    apply is_digit_range in Hd. destruct (N.eqb_spec d c_dot); [lia|]. simpl.
    destruct (N.eqb_spec d c_lowE); [lia|]. by destruct (N.eqb_spec d c_upE); [lia|].
Qed.

(** [validScalarToken] accepts exactly the three literals and the tokens of
    the number grammar, and the canonicalizer reports an invalid number exactly
    for tokens outside that grammar; inside it a payload token never fails. *)
Theorem scalar_grammar tok :
  (validScalarToken tok = true ↔
     tok = $"true" ∨ tok = $"false" ∨ tok = $"null" ∨ is_Some (scan_number tok)) ∧
  (is_ok (canonicalNumberToken tok false) ↔ is_Some (scan_number tok)) ∧
  (canonicalNumberToken tok true = Err InvalidNumber ↔
     length tok ≤ maxTypedFilterNumberBytes ∧ scan_number tok = None).
Proof.
  split_and!.
  - unfold validScalarToken. rewrite orb_true_iff, bool_decide_eq_true, valid_number_scan.
    rewrite !elem_of_cons, elem_of_nil. tauto.
  - destruct (scan_number tok) as [n|] eqn:Hn.
    + split; [by eauto|]. intros _.
      destruct (canonical_cases _ _ Hn) as [[_ ->]|(? & ? & _ & _ & _ & _ & [[_ ->]|[_ ->]])]; done.
    + unfold canonicalNumberToken. simpl. rewrite Hn. by split; [|intros []].
  - unfold canonicalNumberToken. simpl. destruct (Nat.ltb_spec maxTypedFilterNumberBytes (length tok)); simpl.
    + split; [done|]. intros [? _]. lia.
    + destruct (scan_number tok) as [n|]; [|done]. split; [|by intros []].
      destruct (first_nonzero _); [|done]. destruct (last_nonzero _); [|done].
      destruct (_ <? _); [done|]. by destruct (_ || _).
Qed.

(** Canonicalization keeps a number's value and decides it.  For valid tokens
    below the size where the exponent cap could interfere, the canonical string is
    itself a number token of the same value; two tokens have the same canonical
    string exactly when they denote the same number; and the comparison of
    canonical strings, digit by digit, is the numeric order. *)
Theorem canonical_number_exact t1 n1 c1 t2 n2 c2 :
  scan_number t1 = Some n1 → scan_number t2 = Some n2 →
  length t1 ≤ token_limit → length t2 ≤ token_limit →
  canonicalNumberToken t1 false = Ok (Some c1) → canonicalNumberToken t2 false = Ok (Some c2) →
  (∃ n, scan_number c1 = Some n ∧ (num_value n == num_value n1)%Q) ∧
  (c1 = c2 ↔ (num_value n1 == num_value n2)%Q) ∧
  (compareCanonicalNumbers c1 c2 ?= 0)%Z = (num_value n1 ?= num_value n2)%Q.
Proof.
  intros Hn1 Hn2 Hl1 Hl2 Hc1 Hc2.
  apply (canonical_value_ok _ _ _ Hn1 Hl1) in Hc1 as (neg1 & ds1 & fs1 & Hf1 & Hv1).
  apply (canonical_value_ok _ _ _ Hn2 Hl2) in Hc2 as (neg2 & ds2 & fs2 & Hf2 & Hv2).
  split_and!.
  - destruct (canonical_form_scan _ _ _ _ Hf1) as (n & Hn & Hv). exists n. split; [done|]. by rewrite Hv.
  - split.
    + intros ->. destruct (canonical_form_scan _ _ _ _ Hf1) as (m1 & Hm1 & Hw1).
      destruct (canonical_form_scan _ _ _ _ Hf2) as (m2 & Hm2 & Hw2). rewrite Hm1 in Hm2. injection Hm2 as ->.
      by rewrite <-Hv1, <-Hv2, <-Hw1, <-Hw2.
    + intros Heq. apply (canonical_inj _ _ _ _ _ _ _ _ Hf1 Hf2). by rewrite Hv1, Hv2.
  - rewrite (canonical_compare _ _ _ _ _ _ _ _ Hf1 Hf2). by rewrite Hv1, Hv2.
Qed.

(** The value of a number that is not zero fixes its digits and its exponent. *)
Lemma num_value_sig n sig tz : digits_val (n_int n ++ n_frac n) = (digits_val sig * 10 ^ Z.of_nat tz)%Z →
  (num_value n == scaled (signed (n_neg n) (digits_val sig)) (exp_value n - Z.of_nat (length (n_frac n)) + Z.of_nat tz))%Q.
Proof.
  intros Hv. unfold num_value. apply signed_scaled. rewrite Hv, <-scaled_shift by lia. reflexivity.
Qed.
Lemma signed_mod neg m : (m mod 10 ≠ 0)%Z → (signed neg m mod 10 ≠ 0)%Z.
Proof. unfold signed. destruct neg; [|done]. intros Hm Hz. apply Hm. zlia. Qed.
Lemma signed_pos_inj neg1 neg2 m1 m2 : (0 < m1)%Z → (0 < m2)%Z → signed neg1 m1 = signed neg2 m2 → m1 = m2.
Proof. unfold signed. destruct neg1, neg2; lia. Qed.

(** A number that equals a comparable one is comparable, and has the same canonical
    form: nothing escapes the precision envelope by its spelling. *)
Lemma canonical_complete tok n t m c :
  scan_number tok = Some n → length tok ≤ token_limit → scan_number t = Some m → length t ≤ token_limit →
  canonicalNumberToken t false = Ok (Some c) → (num_value n == num_value m)%Q →
  canonicalNumberToken tok false = Ok (Some c).
Proof.
  intros Hn Hl Hm Hlm Hc Heq.
  assert (∃ c', canonicalNumberToken tok false = Ok (Some c')) as [c' Hc'].
  { destruct (canonical_cases _ _ Hn) as [[_ E]|(sig & tz & Hsig & Hval & Htz & Hls & [[_ E]|[Hno E]])]; [by eexists..|]. exfalso.
    pose proof (scan_number_ok _ _ Hn) as (_ & _ & He & Hlen). pose proof (scan_number_ok _ _ Hm) as (_ & _ & Hem & Hlenm).
    apply token_limit_Z in Hl, Hlm. rewrite (num_value_sig n sig tz Hval) in Heq.
    destruct (canonical_cases _ _ Hm) as [[Hz _]|(sig' & tz' & Hsig' & Hval' & Htz' & Hls' & [[Hfit _]|[_ E']])]; [| |by rewrite E' in Hc].
    - rewrite (num_value_zero m Hz) in Heq. apply Qeq_alt in Heq. rewrite scaled_sign in Heq. apply Z.compare_eq_iff in Heq.
      pose proof (sig_val_pos sig Hsig). unfold signed in Heq. destruct (n_neg n); lia.
    - rewrite (num_value_sig m sig' tz' Hval') in Heq.
      apply scaled_eq_inv in Heq as [Hs Hexp]; [|by apply signed_mod, sig_val_mod..].
      apply signed_pos_inj in Hs; [|by apply sig_val_pos..]. apply sig_val_inj in Hs as ->; [|done..].
      rewrite length_app in *. unfold maxTypedFilterSignificant in *.
      assert (code_exp m = exp_value m) as Em by (destruct (code_exp_spec m Hem) as [|[[? ?]|[? ?]]]; [done|lia|lia]).
      assert (code_exp n = exp_value n) as En by (destruct (code_exp_spec n He) as [|[[? ?]|[? ?]]]; [done|lia|lia]).
      rewrite Em in Hfit. apply Hno. rewrite En, Hexp. exact Hfit. }
  pose proof (proj1 (proj2 (canonical_number_exact tok n c' t m c Hn Hm Hl Hlm Hc' Hc))) as H. rewrite Hc'. do 2 f_equal. by apply H.
Qed.

Lemma canonical_number_exact_witness :
  canonicalNumberToken $"1.50e1" false = Ok (Some $"15") ∧ canonicalNumberToken $"15" false = Ok (Some $"15") ∧
  ∃ n1 n2, scan_number $"1.50e1" = Some n1 ∧ scan_number $"15" = Some n2 ∧ ($"15" = $"15" ↔ (num_value n1 == num_value n2)%Q).
Proof.
  split; [reflexivity|split; [reflexivity|]]. eexists _, _. split; [reflexivity|split; [reflexivity|]].
  apply (canonical_number_exact $"1.50e1" _ $"15" $"15" _ $"15" eq_refl eq_refl); [| |reflexivity..].
  - apply token_limit_Z. vm_compute. discriminate.
  - apply token_limit_Z. vm_compute. discriminate.
Defined.

(** ** The exponent cap *)

(** "0.", [k] zeros, "1e1000500". *)
Definition capped_token (k : nat) : bytes := $"0." ++ replicate k c_zero ++ $"1e1000500".
Definition capped_number (k : nat) : number :=
  mkNumber false [c_zero] (replicate k c_zero ++ [c_one]) false $"1000500".

Lemma capped_token_scan k : scan_number (capped_token k) = Some (capped_number k).
Proof.
  assert (span_digits (replicate k c_zero ++ $"1e1000500") = (replicate k c_zero ++ [c_one], $"e1000500")) as Hs.
  { change $"1e1000500" with ([c_one] ++ $"e1000500"). rewrite app_assoc. apply span_digits_app; [|done].
    apply Forall_app. split; [apply zeros_digits|by repeat constructor]. }
  unfold capped_token, scan_number. set (r := replicate k c_zero ++ _) in *. clearbody r.
  change ($"0." ++ r) with (c_zero :: c_dot :: r). cbn -[span_digits]. rewrite Hs.
  rewrite bool_decide_eq_false_2; [reflexivity|]. by destruct (replicate k c_zero).
Qed.

Lemma last_nonzero_snoc ds c : c ≠ c_zero → last_nonzero (ds ++ [c]) = Some (length ds).
Proof.
  intros Hc. induction ds as [|x ds IH]; simpl; [by destruct (N.eqb_spec c c_zero)|]. by rewrite IH.
Qed.

Lemma first_nonzero_zeros k c rest : c ≠ c_zero → first_nonzero (replicate k c_zero ++ c :: rest) = Some k.
Proof.
  intros Hc. induction k as [|k IH]; simpl; [by destruct (N.eqb_spec c c_zero)|]. by rewrite IH.
Qed.

Lemma capped_token_canonical k :
  Z.of_nat k = 1000000%Z → canonicalNumberToken (capped_token k) false = Ok (Some $"1").
Proof.
  intros Hk. unfold canonicalNumberToken. cbn [andb]. rewrite capped_token_scan. unfold capped_number.
  cbn [n_int n_frac n_exp n_exp_neg n_neg].
  change ([c_zero] ++ replicate k c_zero ++ [c_one]) with (replicate (S k) c_zero ++ [c_one]).
  rewrite first_nonzero_zeros, last_nonzero_snoc by done. rewrite !length_app, !length_replicate.
  change (length [c_one]) with 1. change (exp_capped $"1000500") with 1000001%Z.
  rewrite Nat.sub_diag. change (0 + 1) with 1. replace (S k + 1 - 1 - S k) with 0 by lia.
  change (maxTypedFilterSignificant <? 1) with false. cbv zeta iota.
  replace (1000001 - Z.of_nat (k + 1) + Z.of_nat 0)%Z with 0%Z by lia.
  rewrite drop_app_length' by (by rewrite length_replicate). done.
Qed.

(** Beyond the size where the cap of the exponent accumulator can interfere
    the canonicalizer is wrong: the token made of "0.", a million zeros and
    "1e1000500" is a valid number of 10^499, shorter than the 2^20-byte limit on
    a stored line, and is canonicalized to "1", so a filter for 1 matches it. *)
Theorem exponent_cap_conflates :
  let k := Z.to_nat 1000000 in
  (Z.of_nat (length (capped_token k)) < 2 ^ 20)%Z ∧
  scan_number (capped_token k) = Some (capped_number k) ∧
  (num_value (capped_number k) == inject_Z (10 ^ 499))%Q ∧
  canonicalNumberToken (capped_token k) false = Ok (Some $"1").
Proof.
  intros k. assert (Z.of_nat k = 1000000%Z) as Hk by (unfold k; lia). clearbody k. split_and!.
  - unfold capped_token. rewrite !length_app, length_replicate.
    change (length $"0.") with 2. change (length $"1e1000500") with 9. lia.
  - apply capped_token_scan.
  - unfold num_value, capped_number, exp_value. cbn [n_int n_frac n_exp n_exp_neg n_neg signed].
    rewrite app_assoc. change ([c_zero] ++ replicate k c_zero) with (replicate (S k) c_zero).
    rewrite digits_val_app, digits_val_zeros, length_app, length_replicate.
    change (digits_val [c_one]) with 1%Z. change (digits_val $"1000500") with 1000500%Z. change (length [c_one]) with 1.
    replace (1000500 - Z.of_nat (k + 1))%Z with (0 + 499)%Z by lia. rewrite scaled_shift by lia.
    unfold scaled. change (0 * 10 ^ Z.of_nat 1 + 1)%Z with 1%Z. rewrite Z.mul_1_l. apply Qmult_1_r.
  - by apply capped_token_canonical.
Qed.
