(* ===== verification/Payload.v ===== *)
(** [engine/payload.go]: the byte-level payload scanner behind query-time
    filters, and the scalar types of [engine/typed_filter.go] it matches.

    The cursor of a [payloadScan] is the suffix still to be read.  The mutually
    recursive scanners take fuel; [payload_fuel] is enough for every input. *)

From S2P Require Import Prelude.
From S2P Require Import Runtime.
From S2P Require Import Strings.
From S2P Require Import NumToken.

(** ** Filter values *)

Inductive filterScalarKind := filterFalse | filterTrue | filterNumber | filterString.
#[export] Instance filterScalarKind_dec : EqDecision filterScalarKind.
Proof. solve_decision. Defined.

Record filterScalar := mkScalar { kind : filterScalarKind; value : bytes; clean : bool }.
Record filterValue := mkValue { in_set : bool; scalars : list filterScalar }.

(** ** Tokens *)

Inductive scanError :=
  | EmptyValue | BadString | InvalidScalar | BadKey | MissingColon
  | Truncated | BadSeparator | TrailingData | OutOfFuel.

Definition is_ws (c : N) : bool := bool_decide (c ∈ [c_space; c_tab; c_nl; c_cr]).

Fixpoint ws (s : bytes) : bytes :=
  match s with
  | c :: s' => if is_ws c then ws s' else s
  | [] => []
  end.

Definition isHex (c : N) : bool := in_range 48 57 c || in_range 97 102 c || in_range 65 70 c.

(** [rawString] behind the opening quote: the inner span and the rest behind the
    closing quote.  Control characters, bad escapes and truncation are rejected. *)
Fixpoint raw_inner (s : bytes) : option (bytes * bytes) :=
  match s with
  | [] => None
  | c :: s1 =>
      if (c =? c_dquote)%N then Some ([], s1)
      else if (c =? c_backslash)%N then
        match s1 with
        | [] => None
        | e :: s2 =>
            if bool_decide (e ∈ [c_dquote; c_backslash; c_slash; c_lowB; c_lowF; c_lowN; c_lowR; c_lowT])
            then '(inner, rest) ← raw_inner s2; Some (c :: e :: inner, rest)
            else if (e =? c_lowU)%N then
              match s2 with
              | h1 :: h2 :: h3 :: h4 :: s3 =>
                  if isHex h1 && isHex h2 && isHex h3 && isHex h4
                  then '(inner, rest) ← raw_inner s3; Some (c :: e :: h1 :: h2 :: h3 :: h4 :: inner, rest)
                  else None
              | _ => None
              end
            else None
        end
      else if (c <? 32)%N then None
      else '(inner, rest) ← raw_inner s1; Some (c :: inner, rest)
  end.

Definition rawString (s : bytes) : option (bytes * bytes) :=
  match s with
  | c :: s' => if (c =? c_dquote)%N then raw_inner s' else None
  | [] => None
  end.

Definition is_delimiter (c : N) : bool :=
  bool_decide (c ∈ [c_comma; c_rbrace; c_rbrack; c_lbrace; c_lbrack; c_dquote]) || is_ws c.

Fixpoint span_scalar (s : bytes) : bytes * bytes :=
  match s with
  | c :: s' => if is_delimiter c then ([], s) else let '(tok, rest) := span_scalar s' in (c :: tok, rest)
  | [] => ([], [])
  end.

Definition rawScalar (s : bytes) : result scanError (bytes * bytes) :=
  let '(tok, rest) := span_scalar s in
  if validScalarToken tok then Ok (tok, rest) else Err InvalidScalar.

(** ** String comparison *)

(** The JSON string decoding of encoding/json on a validated inner span. *)
Definition hex_digit (c : N) : N :=
  if in_range 48 57 c then (c - 48)%N else if in_range 97 102 c then (c - 87)%N else (c - 55)%N.
Definition hex4 (h1 h2 h3 h4 : N) : N :=
  (hex_digit h1 * 4096 + hex_digit h2 * 256 + hex_digit h3 * 16 + hex_digit h4)%N.
(** [utf16.DecodeRune]: the error rune when the two are not a pair. *)
Definition decode_pair (r1 r2 : N) : N :=
  if in_range 55296 56319 r1 && in_range 56320 57343 r2
  then ((r1 - 55296) * 1024 + (r2 - 56320) + 65536)%N else rune_error.
Definition get_u4 (s : bytes) : option (N * bytes) :=
  match s with
  | b :: u :: h1 :: h2 :: h3 :: h4 :: t =>
      if (b =? c_backslash)%N && (u =? c_lowU)%N && isHex h1 && isHex h2 && isHex h3 && isHex h4
      then Some (hex4 h1 h2 h3 h4, t) else None
  | _ => None
  end.
Definition unescape (e : N) : N :=
  if (e =? c_lowB)%N then 8%N else if (e =? c_lowF)%N then 12%N else if (e =? c_lowN)%N then c_nl
  else if (e =? c_lowR)%N then c_cr else if (e =? c_lowT)%N then c_tab else e.

Fixpoint unquote_fuel (fuel : nat) (s : bytes) : bytes :=
  match fuel with
  | 0 => []
  | S fuel =>
      match s with
      | [] => []
      | c :: t =>
          if (c =? c_backslash)%N then
            match get_u4 s with
            | Some (rr, t') =>
                if in_range 55296 57343 rr then
                  match get_u4 t' with
                  | Some (rr1, t'') =>
                      let dec := decode_pair rr rr1 in
                      if (dec =? rune_error)%N then encode_rune rune_error ++ unquote_fuel fuel t'
                      else encode_rune dec ++ unquote_fuel fuel t''
                  | None => encode_rune rune_error ++ unquote_fuel fuel t'
                  end
                else encode_rune rr ++ unquote_fuel fuel t'
            | None =>
                match t with
                | e :: t' => unescape e :: unquote_fuel fuel t'
                | [] => []
                end
            end
          else if (c <? 128)%N then c :: unquote_fuel fuel t
          else let '(r, width) := rune_at c t in encode_rune r ++ unquote_fuel fuel (drop width s)
      end
  end.
(** [json.Unmarshal] of the token into a string; every step consumes a byte. *)
Definition json_unquote (inner : bytes) : bytes := unquote_fuel (length inner) inner.

Definition cleanASCII (s : bytes) : bool :=
  forallb (λ c, negb ((c <? 32)%N || (126 <? c)%N || (c =? c_dquote)%N || (c =? c_backslash)%N)) s.

Definition decodedStringEq (inner want : bytes) (wantClean : bool) : bool :=
  if bool_decide (index_byte c_backslash inner = None) && wantClean && utf8_valid inner
  then bool_decide (inner = want)
  else bool_decide (json_unquote inner = want).

(** ** Matching *)

Definition has_kind (k : filterScalarKind) (v : filterValue) : bool :=
  existsb (λ s, bool_decide (kind s = k)) (scalars v).

Definition matchesString (v : filterValue) (inner : bytes) : bool :=
  existsb (λ s, bool_decide (kind s = filterString) && decodedStringEq inner (value s) (clean s)) (scalars v).

Definition matchesScalar (v : filterValue) (token : bytes) : bool :=
  if bool_decide (token = $"false") then has_kind filterFalse v
  else if bool_decide (token = $"true") then has_kind filterTrue v
  else if bool_decide (token = $"null") then false
  else match canonicalNumberToken token false with
       | Ok (Some canonical) =>
           existsb (λ s, bool_decide (kind s = filterNumber) && bool_decide (value s = canonical)) (scalars v)
       | _ => false
       end.

Record terminalTerm := mkTerm { bit : N; t_value : filterValue }.

(** A node of the compiled path trie. *)
Inductive filterNode :=
  Node (n_children : gmap bytes filterNode) (n_clean : gmap bytes bool) (n_terms : list terminalTerm).
Definition children (n : filterNode) : gmap bytes filterNode := let '(Node c _ _) := n in c.
Definition clean_segs (n : filterNode) : gmap bytes bool := let '(Node _ c _) := n in c.
Definition terms (n : filterNode) : list terminalTerm := let '(Node _ _ t) := n in t.
Definition empty_node : filterNode := Node ∅ ∅ [].

(** The loop over a node's terminals: record the bits of those that match. *)
Definition record_bits (m : filterValue → bool) (ts : list terminalTerm) (bits : N) : N :=
  foldl (λ bits t, if (N.land bits (bit t) =? 0)%N && m (t_value t) then N.lor bits (bit t) else bits) bits ts.

(** [s.b[s.i] == c], then [s.i++]. *)
Definition eat (c : N) (s : bytes) : option bytes :=
  match s with
  | b :: s' => if (b =? c)%N then Some s' else None
  | [] => None
  end.

(** The separator behind a member or an element: [inl] continues the loop,
    [inr] closes it. *)
Definition separator (close : N) (s : bytes) : result scanError (bytes + bytes) :=
  match ws s with
  | [] => Err Truncated
  | b :: s' =>
      if (b =? c_comma)%N then Ok (inl s') else if (b =? close)%N then Ok (inr s') else Err BadSeparator
  end.

(** ** Skipping: full validation of a value of any type *)

Fixpoint skipValue (fuel : nat) (s : bytes) : result scanError bytes :=
  match fuel with
  | 0 => Err OutOfFuel
  | S fuel =>
      match ws s with
      | [] => Err EmptyValue
      | c :: s1 =>
          if (c =? c_dquote)%N then
            match raw_inner s1 with Some (_, rest) => Ok rest | None => Err BadString end
          else if (c =? c_lbrace)%N then
            match eat c_rbrace (ws s1) with Some rest => Ok rest | None => skipMembers fuel (ws s1) end
          else if (c =? c_lbrack)%N then
            match eat c_rbrack (ws s1) with Some rest => Ok rest | None => skipElems fuel (ws s1) end
          else '(_, rest) ← rawScalar (c :: s1); Ok rest
      end
  end
with skipMembers (fuel : nat) (s : bytes) : result scanError bytes :=
  match fuel with
  | 0 => Err OutOfFuel
  | S fuel =>
      match rawString (ws s) with
      | None => Err BadKey
      | Some (_, s1) =>
          match eat c_colon (ws s1) with
          | None => Err MissingColon
          | Some s2 =>
              s3 ← skipValue fuel s2;
              sep ← separator c_rbrace s3;
              match sep with inl s4 => skipMembers fuel s4 | inr rest => Ok rest end
          end
      end
  end
with skipElems (fuel : nat) (s : bytes) : result scanError bytes :=
  match fuel with
  | 0 => Err OutOfFuel
  | S fuel =>
      s3 ← skipValue fuel s;
      sep ← separator c_rbrack s3;
      match sep with inl s4 => skipElems fuel s4 | inr rest => Ok rest end
  end.

(** ** Walking: evaluation against a trie node *)

Section walk.
Context `{GoRuntime}.

(** The first child, in map order, whose segment equals the decoded key. *)
Definition child (n : filterNode) (inner : bytes) : option filterNode :=
  '(_, (_, c)) ← list_find (λ sc, decodedStringEq inner sc.1 (default false (clean_segs n !! sc.1)) = true)
                   (range_map 0 (children n));
  Some c.

Fixpoint walkValue (fuel : nat) (n : filterNode) (bits : N) (s : bytes) : result scanError (N * bytes) :=
  match fuel with
  | 0 => Err OutOfFuel
  | S fuel =>
      match ws s with
      | [] => Err EmptyValue
      | c :: s1 =>
          if (c =? c_lbrace)%N then
            match eat c_rbrace (ws s1) with
            | Some rest => Ok (bits, rest)
            | None => walkMembers fuel n bits (ws s1)
            end
          else if (c =? c_lbrack)%N then
            match eat c_rbrack (ws s1) with
            | Some rest => Ok (bits, rest)
            | None => walkElems fuel n bits (ws s1)
            end
          else if (c =? c_dquote)%N then
            match raw_inner s1 with
            | None => Err BadString
            | Some (inner, rest) => Ok (record_bits (λ v, matchesString v inner) (terms n) bits, rest)
            end
          else
            '(tok, rest) ← rawScalar (c :: s1);
            Ok (record_bits (λ v, matchesScalar v tok) (terms n) bits, rest)
      end
  end
with walkMembers (fuel : nat) (n : filterNode) (bits : N) (s : bytes) : result scanError (N * bytes) :=
  match fuel with
  | 0 => Err OutOfFuel
  | S fuel =>
      match rawString (ws s) with
      | None => Err BadKey
      | Some (key, s1) =>
          match eat c_colon (ws s1) with
          | None => Err MissingColon
          | Some s2 =>
              '(bits, s3) ← match child n key with
                            | Some c => walkValue fuel c bits s2
                            | None => s3 ← skipValue fuel s2; Ok (bits, s3)
                            end;
              sep ← separator c_rbrace s3;
              match sep with inl s4 => walkMembers fuel n bits s4 | inr rest => Ok (bits, rest) end
          end
      end
  end
with walkElems (fuel : nat) (n : filterNode) (bits : N) (s : bytes) : result scanError (N * bytes) :=
  match fuel with
  | 0 => Err OutOfFuel
  | S fuel =>
      '(bits, s3) ← walkValue fuel n bits s;
      sep ← separator c_rbrack s3;
      match sep with inl s4 => walkElems fuel n bits s4 | inr rest => Ok (bits, rest) end
  end.
End walk.

(** Two calls at most between two consumed bytes. *)
Definition payload_fuel (s : bytes) : nat := S (2 * length s).

(** ** The document *)

(** A parsed payload; strings keep their raw inner span, scalars their token. *)
Inductive json :=
  | JStr (inner : bytes)
  | JTok (token : bytes)
  | JArr (elems : list json)
  | JObj (members : list (bytes * json)).

Fixpoint parseValue (fuel : nat) (s : bytes) : result scanError (json * bytes) :=
  match fuel with
  | 0 => Err OutOfFuel
  | S fuel =>
      match ws s with
      | [] => Err EmptyValue
      | c :: s1 =>
          if (c =? c_dquote)%N then
            match raw_inner s1 with Some (inner, rest) => Ok (JStr inner, rest) | None => Err BadString end
          else if (c =? c_lbrace)%N then
            match eat c_rbrace (ws s1) with
            | Some rest => Ok (JObj [], rest)
            | None => '(ms, rest) ← parseMembers fuel (ws s1); Ok (JObj ms, rest)
            end
          else if (c =? c_lbrack)%N then
            match eat c_rbrack (ws s1) with
            | Some rest => Ok (JArr [], rest)
            | None => '(es, rest) ← parseElems fuel (ws s1); Ok (JArr es, rest)
            end
          else '(tok, rest) ← rawScalar (c :: s1); Ok (JTok tok, rest)
      end
  end
with parseMembers (fuel : nat) (s : bytes) : result scanError (list (bytes * json) * bytes) :=
  match fuel with
  | 0 => Err OutOfFuel
  | S fuel =>
      match rawString (ws s) with
      | None => Err BadKey
      | Some (key, s1) =>
          match eat c_colon (ws s1) with
          | None => Err MissingColon
          | Some s2 =>
              '(j, s3) ← parseValue fuel s2;
              sep ← separator c_rbrace s3;
              match sep with
              | inl s4 => '(ms, rest) ← parseMembers fuel s4; Ok ((key, j) :: ms, rest)
              | inr rest => Ok ([(key, j)], rest)
              end
          end
      end
  end
with parseElems (fuel : nat) (s : bytes) : result scanError (list json * bytes) :=
  match fuel with
  | 0 => Err OutOfFuel
  | S fuel =>
      '(j, s3) ← parseValue fuel s;
      sep ← separator c_rbrack s3;
      match sep with
      | inl s4 => '(es, rest) ← parseElems fuel s4; Ok (j :: es, rest)
      | inr rest => Ok ([j], rest)
      end
  end.

(** A whole payload: one value and nothing behind it. *)
Definition parsePayload (s : bytes) : result scanError json :=
  '(j, rest) ← parseValue (payload_fuel s) s;
  if bool_decide (ws rest = []) then Ok j else Err TrailingData.

(** What the walk records for a document. *)
Fixpoint record (ch : filterNode → bytes → option filterNode) (n : filterNode) (j : json) (bits : N) : N :=
  match j with
  | JStr inner => record_bits (λ v, matchesString v inner) (terms n) bits
  | JTok tok => record_bits (λ v, matchesScalar v tok) (terms n) bits
  | JArr es => foldl (λ bits e, record ch n e bits) bits es
  | JObj ms =>
      foldl (λ bits m, match ch n m.1 with Some c => record ch c m.2 bits | None => bits end) bits ms
  end.

(** ** Skipping and walking follow the document *)

Lemma skip_parse fuel :
  (∀ s, skipValue fuel s = snd <$> parseValue fuel s) ∧
  (∀ s, skipMembers fuel s = snd <$> parseMembers fuel s) ∧
  (∀ s, skipElems fuel s = snd <$> parseElems fuel s).
Proof.
  induction fuel as [|fuel (IHv & IHm & IHe)]; [done|]. split_and!; intros s; simpl.
  - destruct (ws s) as [|c s1]; [done|]. destruct (c =? c_dquote)%N; [by destruct (raw_inner s1) as [[]|]|].
    destruct (c =? c_lbrace)%N.
    { destruct (eat _ _); [done|]. rewrite IHm. by destruct (parseMembers _ _) as [[]|]. }
    destruct (c =? c_lbrack)%N.
    { destruct (eat _ _); [done|]. rewrite IHe. by destruct (parseElems _ _) as [[]|]. }
    by destruct (rawScalar _) as [[]|].
  - destruct (rawString _) as [[k s1]|]; [|done]. destruct (eat _ _) as [s2|]; [|done].
    rewrite IHv. destruct (parseValue _ _) as [[j s3]|]; simpl; [|done].
    destruct (separator _ _) as [[s4|rest]|]; simpl; [|done..]. rewrite IHm. by destruct (parseMembers _ _) as [[]|].
  - rewrite IHv. destruct (parseValue _ _) as [[j s3]|]; simpl; [|done].
    destruct (separator _ _) as [[s4|rest]|]; simpl; [|done..]. rewrite IHe. by destruct (parseElems _ _) as [[]|].
Qed.

Section walk_spec.
Context `{GoRuntime}.

Lemma walk_parse fuel :
  (∀ n bits s, walkValue fuel n bits s = (λ p, (record child n p.1 bits, p.2)) <$> parseValue fuel s) ∧
  (∀ n bits s, walkMembers fuel n bits s = (λ p, (record child n (JObj p.1) bits, p.2)) <$> parseMembers fuel s) ∧
  (∀ n bits s, walkElems fuel n bits s = (λ p, (record child n (JArr p.1) bits, p.2)) <$> parseElems fuel s).
Proof.
  induction fuel as [|fuel (IHv & IHm & IHe)]; [done|]. split_and!; intros n bits s; simpl.
  - destruct (ws s) as [|c s1]; [done|].
    destruct (N.eqb_spec c c_dquote) as [->|Hq]; [by destruct (raw_inner s1) as [[]|]|].
    destruct (c =? c_lbrace)%N.
    { destruct (eat _ _); [done|]. rewrite IHm. by destruct (parseMembers _ _) as [[]|]. }
    destruct (c =? c_lbrack)%N.
    { destruct (eat _ _); [done|]. rewrite IHe. by destruct (parseElems _ _) as [[]|]. }
    by destruct (rawScalar _) as [[]|].
  - destruct (rawString _) as [[k s1]|]; [|done]. destruct (eat _ _) as [s2|]; [|done].
    assert (match child n k with
            | Some c => walkValue fuel c bits s2
            | None => s3 ← skipValue fuel s2; Ok (bits, s3)
            end = (λ p, (match child n k with Some c => record child c p.1 bits | None => bits end, p.2))
                  <$> parseValue fuel s2) as ->.
    { destruct (child n k); [by rewrite IHv|]. rewrite (proj1 (skip_parse fuel)). by destruct (parseValue _ _) as [[]|]. }
    destruct (parseValue _ _) as [[j s3]|]; simpl; [|done].
    destruct (separator _ _) as [[s4|rest]|]; simpl; [|done..]. rewrite IHm. by destruct (parseMembers _ _) as [[]|].
  - rewrite IHv. destruct (parseValue _ _) as [[j s3]|]; simpl; [|done].
    destruct (separator _ _) as [[s4|rest]|]; simpl; [|done..]. rewrite IHe. by destruct (parseElems _ _) as [[]|].
Qed.
End walk_spec.

(** ** Fuel *)

Lemma ws_length s : length (ws s) ≤ length s.
Proof. induction s as [|c s IH]; simpl; [done|]. destruct (is_ws c); simpl; lia. Qed.

Lemma raw_inner_length s inner rest : raw_inner s = Some (inner, rest) → length rest < length s.
Proof.
  revert inner rest. induction s as [s IH] using list_len_ind. intros inner rest.
  destruct s as [|c s1]; simpl; [done|]. destruct (c =? c_dquote)%N; [intros [= _ <-]; lia|].
  destruct (c =? c_backslash)%N.
  - destruct s1 as [|e s2]; [done|]. case_bool_decide.
    { intros ([i r] & Hr & [= _ <-])%bind_Some. apply IH in Hr; simpl in *; lia. }
    destruct (e =? c_lowU)%N; [|done]. destruct s2 as [|h1 [|h2 [|h3 [|h4 s3]]]]; try done.
    destruct (_ && _); [|done]. intros ([i r] & Hr & [= _ <-])%bind_Some. apply IH in Hr; simpl in *; lia.
  - destruct (c <? 32)%N; [done|]. intros ([i r] & Hr & [= _ <-])%bind_Some. apply IH in Hr; simpl in *; lia.
Qed.

Lemma rawString_length s inner rest : rawString s = Some (inner, rest) → length rest < length s.
Proof.
  destruct s as [|c s]; [done|]. simpl. destruct (c =? c_dquote)%N; [|done]. intros H%raw_inner_length. lia.
Qed.

Lemma eat_length c s rest : eat c s = Some rest → length rest < length s.
Proof. destruct s as [|b s]; [done|]. simpl. destruct (b =? c)%N; [|done]. intros [= <-]. lia. Qed.

Lemma span_scalar_app s tok rest : span_scalar s = (tok, rest) → s = tok ++ rest.
Proof.
  revert tok rest. induction s as [|c s IH]; intros tok rest; simpl; [by intros [= <- <-]|].
  destruct (is_delimiter c); [by intros [= <- <-]|]. destruct (span_scalar s). intros [= <- <-].
  simpl. f_equal. by apply IH.
Qed.

Lemma rawScalar_length s tok rest : rawScalar s = Ok (tok, rest) → length rest < length s.
Proof.
  unfold rawScalar. destruct (span_scalar s) as [t r] eqn:Hs. apply span_scalar_app in Hs as ->.
  destruct (validScalarToken t) eqn:Hv; [|done]. intros [= <- <-]. rewrite length_app.
  destruct t; [by vm_compute in Hv|simpl; lia].
Qed.

Lemma separator_length close s r :
  separator close s = Ok r → match r with inl s' => length s' < length s | inr s' => length s' < length s end.
Proof.
  unfold separator. pose proof (ws_length s). destruct (ws s) as [|b s']; [done|]. simpl in *.
  destruct (b =? c_comma)%N; [intros [= <-]; lia|]. destruct (b =? close)%N; [intros [= <-]; lia|done].
Qed.

Lemma separator_no_fuel close s : separator close s ≠ Err OutOfFuel.
Proof. unfold separator. by repeat case_match. Qed.

Lemma parse_fuel fuel :
  (∀ s, 2 * length s < fuel →
     match parseValue fuel s with Ok (_, rest) => length rest < length s | Err e => e ≠ OutOfFuel end) ∧
  (∀ s, 2 * length s < fuel →
     match parseMembers fuel s with Ok (_, rest) => length rest < length s | Err e => e ≠ OutOfFuel end) ∧
  (∀ s, 2 * length s + 1 < fuel →
     match parseElems fuel s with Ok (_, rest) => length rest < length s | Err e => e ≠ OutOfFuel end).
Proof.
  induction fuel as [|fuel (IHv & IHm & IHe)]; [split_and!; intros; lia|].
  split_and!; intros s Hs; cbn [parseValue parseMembers parseElems].
  - pose proof (ws_length s) as Hw. destruct (ws s) as [|c s1]; [done|]. simpl in Hw.
    pose proof (ws_length s1) as Hw1.
    destruct (c =? c_dquote)%N.
    { destruct (raw_inner s1) as [[i r]|] eqn:Hr; [|done]. apply raw_inner_length in Hr. lia. }
    destruct (c =? c_lbrace)%N.
    { destruct (eat c_rbrace (ws s1)) as [r|] eqn:Hr; [apply eat_length in Hr; lia|].
      specialize (IHm (ws s1) ltac:(lia)). destruct (parseMembers _ _) as [[]|]; simpl; [lia|done]. }
    destruct (c =? c_lbrack)%N.
    { destruct (eat c_rbrack (ws s1)) as [r|] eqn:Hr; [apply eat_length in Hr; lia|].
      specialize (IHe (ws s1) ltac:(lia)). destruct (parseElems _ _) as [[]|]; simpl; [lia|done]. }
    destruct (rawScalar (c :: s1)) as [[]|e] eqn:Hr; simpl.
    + apply rawScalar_length in Hr. simpl in Hr. lia.
    + unfold rawScalar in Hr. destruct (span_scalar _). destruct (validScalarToken _); [done|]. by injection Hr as <-.
  - pose proof (ws_length s) as Hw. destruct (rawString (ws s)) as [[k s1]|] eqn:Hk; [|done].
    apply rawString_length in Hk. pose proof (ws_length s1) as Hw1.
    destruct (eat c_colon (ws s1)) as [s2|] eqn:Hc; [|done]. apply eat_length in Hc.
    specialize (IHv s2 ltac:(lia)). destruct (parseValue fuel s2) as [[j s3]|]; simpl; [|done].
    destruct (separator c_rbrace s3) as [r|e] eqn:Hr; simpl;
      [|intros ->; by apply separator_no_fuel in Hr].
    apply separator_length in Hr. destruct r as [s4|rest]; [|lia].
    specialize (IHm s4 ltac:(lia)). destruct (parseMembers _ _) as [[]|]; simpl; [lia|done].
  - specialize (IHv s ltac:(lia)). destruct (parseValue fuel s) as [[j s3]|]; simpl; [|done].
    destruct (separator c_rbrack s3) as [r|e] eqn:Hr; simpl;
      [|intros ->; by apply separator_no_fuel in Hr].
    apply separator_length in Hr. destruct r as [s4|rest]; [|lia].
    specialize (IHe s4 ltac:(lia)). destruct (parseElems _ _) as [[]|]; simpl; [lia|done].
Qed.

(** ** Decoded comparison *)

Lemma get_u4_no_backslash c t : c ≠ c_backslash → get_u4 (c :: t) = None.
Proof.
  intros Hc. unfold get_u4. destruct t as [|u [|h1 [|h2 [|h3 [|h4 t]]]]]; try done.
  by destruct (N.eqb_spec c c_backslash).
Qed.

Lemma unquote_plain fuel s :
  length s ≤ fuel → c_backslash ∉ s → utf8_valid s → unquote_fuel fuel s = s.
Proof.
  revert s. induction fuel as [|fuel IH]; intros s Hl Hb Hv; [by destruct s; [|simpl in Hl; lia]|].
  destruct s as [|c t]; [done|]. cbn [unquote_fuel].
  destruct (N.eqb_spec c c_backslash) as [->|Hne]; [set_solver|].
  pose proof (rune_at_width c t) as Hw. pose proof Hv as Hv'. unfold utf8_valid in Hv'. rewrite decode_cons in Hv'.
  simpl in Hv'. apply andb_True in Hv' as [_ Hv'].
  assert (∀ k, c_backslash ∉ drop k (c :: t)) as Hdrop.
  { intros k Hin. apply Hb. rewrite <-(take_drop k (c :: t)). apply elem_of_app. by right. }
  pose proof (decode_valid _ Hv) as Hd. rewrite decode_cons in Hd. apply Forall_cons in Hd as [Hr _]. simpl in Hr.
  destruct (N.ltb_spec c 128) as [Hlt|Hge].
  - unfold rune_at in Hv'. rewrite (proj2 (N.ltb_lt _ _)) in Hv' by done. simpl in Hv', Hl. rewrite drop_0 in Hv'.
    f_equal. apply IH; [lia|apply (Hdrop 1)|done].
  - destruct (rune_at c t) as [r w]. simpl in *. rewrite Hr, IH.
    + apply (take_drop w (c :: t)).
    + rewrite length_drop. simpl. lia.
    + apply Hdrop.
    + done.
Qed.

Lemma index_byte_none c s : index_byte c s = None ↔ c ∉ s.
Proof.
  induction s as [|b s IH]; simpl; [set_solver|]. destruct (N.eqb_spec b c) as [->|]; [set_solver|].
  rewrite fmap_None, IH. set_solver.
Qed.

(** The fast path of [decodedStringEq] agrees with decoding. *)
Lemma decodedStringEq_spec inner want wantClean :
  decodedStringEq inner want wantClean = bool_decide (json_unquote inner = want).
Proof.
  unfold decodedStringEq. destruct (_ && _ && _) eqn:E; [|done].
  apply andb_true_iff in E as [[Hb _]%andb_true_iff Hv]. rewrite bool_decide_eq_true, index_byte_none in Hb.
  unfold json_unquote. by rewrite unquote_plain by (done || by rewrite Hv).
Qed.

Section child_spec.
Context `{GoRuntime}.

(** At most one child can match, so the map order does not matter. *)
Lemma child_spec n inner : child n inner = children n !! json_unquote inner.
Proof.
  unfold child. destruct (list_find _ _) as [[i [seg c]]|] eqn:Hf; simpl.
  - apply list_find_Some in Hf as (Hi & Heq & _). rewrite decodedStringEq_spec in Heq.
    apply bool_decide_eq_true in Heq. simpl in Heq. rewrite Heq.
    apply list_elem_of_lookup_2, elem_of_range in Hi. by rewrite Hi.
  - apply list_find_None in Hf. rewrite Forall_forall in Hf.
    destruct (children n !! json_unquote inner) as [c|] eqn:Hc; [|done].
    destruct (Hf (json_unquote inner, c)); [by apply elem_of_range|].
    rewrite decodedStringEq_spec. by apply bool_decide_eq_true.
Qed.
End child_spec.

(** ** More fuel changes nothing *)

(** [r'] refines [r]: it is the same result unless [r] ran out of fuel. *)
Definition refines {A} (r r' : result scanError A) : Prop := r = Err OutOfFuel ∨ r' = r.

Lemma refines_refl {A} (r : result scanError A) : refines r r.
Proof. by right. Qed.
Lemma refines_bind {A B} (r r' : result scanError A) (f f' : A → result scanError B) :
  refines r r' → (∀ a, refines (f a) (f' a)) → refines (r ≫= f) (r' ≫= f').
Proof. intros [->| ->] Hf; [by left|]. destruct r as [a|e]; simpl; [apply Hf|apply refines_refl]. Qed.
#[export] Hint Resolve refines_refl : kurn.

Lemma parse_more_fuel fuel :
  (∀ fuel' s, fuel ≤ fuel' → refines (parseValue fuel s) (parseValue fuel' s)) ∧
  (∀ fuel' s, fuel ≤ fuel' → refines (parseMembers fuel s) (parseMembers fuel' s)) ∧
  (∀ fuel' s, fuel ≤ fuel' → refines (parseElems fuel s) (parseElems fuel' s)).
Proof.
  induction fuel as [|fuel (IHv & IHm & IHe)]; [by split_and!; left|].
  split_and!; intros [|fuel'] s Hle; try lia; apply le_S_n in Hle; cbn [parseValue parseMembers parseElems].
  - repeat (case_match; auto with kurn); (apply refines_bind; [by auto|]); intros [? ?]; auto with kurn.
  - destruct (rawString _) as [[k s1]|]; [|auto with kurn]. destruct (eat _ _) as [s2|]; [|auto with kurn].
    apply refines_bind; [by auto|]. intros [j s3]. apply refines_bind; [auto with kurn|].
    intros [s4|]; [|auto with kurn]. apply refines_bind; [by auto|]. intros [? ?]. auto with kurn.
  - apply refines_bind; [by auto|]. intros [j s3]. apply refines_bind; [auto with kurn|].
    intros [s4|]; [|auto with kurn]. apply refines_bind; [by auto|]. intros [? ?]. auto with kurn.
Qed.

Section scan_properties.
Context `{GoRuntime}.

(** One verdict per payload.  With the fuel the model gives it the scan
    always terminates (never out of fuel, and more fuel changes nothing); and
    whatever subtree the filter makes it enter or skip, walking under any trie
    node accepts, rejects (with the same error) and consumes exactly what
    skipping the whole value does, so validation does not depend on the filter. *)
Theorem scan_one_verdict n bits payload fuel :
  payload_fuel payload ≤ fuel →
  walkValue fuel n bits payload = walkValue (payload_fuel payload) n bits payload ∧
  walkValue fuel n bits payload ≠ Err OutOfFuel ∧
  snd <$> walkValue fuel n bits payload = skipValue fuel payload ∧
  skipValue fuel payload = skipValue (payload_fuel payload) payload.
Proof.
  intros Hf. rewrite !(proj1 (walk_parse _)), !(proj1 (skip_parse _)).
  pose proof (proj1 (parse_fuel (payload_fuel payload)) payload) as Hok. unfold payload_fuel in Hok at 1.
  specialize (Hok ltac:(lia)).
  assert (parseValue fuel payload = parseValue (payload_fuel payload) payload) as ->.
  { destruct (proj1 (parse_more_fuel _) fuel payload Hf) as [He|]; [|done]. rewrite He in Hok. done. }
  split_and!; [done| |by destruct (parseValue _ _) as [[]|]|done].
  destruct (parseValue _ _) as [[]|]; simpl; congruence.
Qed.

(** The fast paths are exact.  Comparing a JSON string token with a wanted
    value raw, when both are plain, gives the same answer as decoding it; and a
    member key selects the trie child named by its decoded form, whatever the
    map order and the spelling of the key. *)
Theorem decoded_equality inner want wantClean n :
  (decodedStringEq inner want wantClean = true ↔ json_unquote inner = want) ∧
  child n inner = children n !! json_unquote inner.
Proof. by rewrite decodedStringEq_spec, bool_decide_eq_true, child_spec. Qed.
End scan_properties.

Lemma scan_one_verdict_witness :
  let payload := $"{ [1, true]}" in
  payload_fuel payload ≤ 100 ∧
  @skipValue 100 payload = skipValue (payload_fuel payload) payload.
Proof.
  split; [vm_compute; lia|].
  apply (@scan_one_verdict default_runtime empty_node 0 ($"{ [1, true]}") 100). vm_compute. lia.
Defined.
