(* ===== verification/Types.v ===== *)
(** [engine/types.go]: entries and list configurations. *)

From S2P Require Import Prelude.
From S2P Require Import Score.

Record Entry := mkEntry { ID : bytes; Keys : list bytes; Payload : bytes }.

Record FilterField := mkField { Name : bytes; Path : bytes }.

Record AnalyzerConfig := mkAnalyzerConfig { ac_Preset : bytes; ac_Steps : list bytes }.

Section config.
Context {FO : FloatOps}.

Record MatchConfig := mkMatchConfig {
  Mode : bytes;
  Fallback : bytes;
  ExactCompanion : bool;
  mc_Grams : list Z;
  mc_StripSpaces : bool;
  Threshold : F64;
  TopK : Z;
}.

Record GoldenProbe := mkProbe { gp_Q : bytes; ExpectID : bytes; Absent : bool; MinScore : F64 }.

Record ListConfig := mkListConfig {
  lc_Analyzer : AnalyzerConfig;
  Match : MatchConfig;
  Golden : list GoldenProbe;
  Filterable : list FilterField;
  OverlayAutoCompact : Z;
}.

Record Candidate := mkCandidate { EntryID : bytes; c_Score : F64; c_Key : bytes; c_Payload : bytes }.
End config.
