(* ===== verification/Filter.v ===== *)
(** [engine/typed_filter.go] and [engine/filter.go]: typed filter expressions,
    their canonical form, compilation against a list's declarations into a path
    trie, and one-pass evaluation of a payload. *)

From S2P Require Import Prelude.
From S2P Require Import Runtime.
From S2P Require Import Strings.
From S2P Require Import NumToken.
From S2P Require Import Payload.
From S2P Require Import Score.
From S2P Require Import Types.

Definition maxTypedFilterAlternatives : nat := 64.
Definition maxTypedFilterCanonical : nat := 32 * 1024.
Definition maxFilterFields : nat := 8.
Definition maxFilterNameRunes : nat := 128.
Definition maxFilterPathRunes : nat := 256.
Definition maxFilterValueRunes : nat := 512.

Record typedFilterTerm := mkFilterTerm { tf_name : bytes; tf_value : filterValue }.
Record TypedFilter := mkFilter {
  tf_terms : list typedFilterTerm;
  canonical : bytes;
  alternatives : nat;
  scalarBytes : nat;
}.
Definition no_filter : TypedFilter := mkFilter [] [] 0 0.

Inductive filter_error :=
  | TooManyNames (n : nat)
  | EmptyName
  | NameTooLong (name : bytes)
  | ValueTooLong (name : bytes)
  | CanonicalTooLong (len : nat)
  | Undeclared (name : bytes).

Definition filter_Empty (f : TypedFilter) : bool := bool_decide (tf_terms f = []).
Definition filter_Names (f : TypedFilter) : list bytes := tf_name <$> tf_terms f.
Definition filter_CanonicalJSON (f : TypedFilter) : bytes := if filter_Empty f then [] else canonical f.

(** ** Canonical encoding *)

(** One decoded rune of [appendJSONString], with the bytes it came from. *)
Definition hex_char (d : N) : N := if (d <? 10)%N then (48 + d)%N else (87 + d)%N.
Definition json_chunk (rc : N * bytes) : bytes :=
  match rc.2 with
  | [c] =>
      if (128 <=? c)%N then [239; 191; 189]%N
      else if (c =? c_dquote)%N || (c =? c_backslash)%N then [c_backslash; c]
      else if (c =? 8)%N then [c_backslash; c_lowB]
      else if (c =? 12)%N then [c_backslash; c_lowF]
      else if (c =? c_nl)%N then [c_backslash; c_lowN]
      else if (c =? c_cr)%N then [c_backslash; c_lowR]
      else if (c =? c_tab)%N then [c_backslash; c_lowT]
      else if (c <? 32)%N then [c_backslash; c_lowU; c_zero; c_zero; hex_char (c / 16); hex_char (c mod 16)]
      else [c]
  | chunk => chunk
  end.
Definition json_escape (s : bytes) : bytes := decode s ≫= json_chunk.
Definition appendJSONString (dst s : bytes) : bytes := dst ++ [c_dquote] ++ json_escape s ++ [c_dquote].

Definition appendFilterScalar (dst : bytes) (s : filterScalar) : bytes :=
  match kind s with
  | filterFalse => dst ++ $"false"
  | filterTrue => dst ++ $"true"
  | filterNumber => dst ++ value s
  | filterString => appendJSONString dst (value s)
  end.

(** The loops of [finishTypedFilter]: the buffer and the two counters. *)
Definition finish_scalar (st : bytes * nat * nat) (js : nat * filterScalar) : bytes * nat * nat :=
  let '(buf, alts, sbytes) := st in
  let '(j, scalar) := js in
  let buf := if 0 <? j then buf ++ [c_comma] else buf in
  let buf' := appendFilterScalar buf scalar in
  (buf', S alts, sbytes + (length buf' - length buf)).

Definition finish_term (st : bytes * nat * nat) (it : nat * typedFilterTerm) : bytes * nat * nat :=
  let '(buf, alts, sbytes) := st in
  let '(i, term) := it in
  let buf := if 0 <? i then buf ++ [c_comma] else buf in
  let buf := appendJSONString buf (tf_name term) ++ [c_colon] in
  let buf := if in_set (tf_value term) then buf ++ $"{" ++ [c_dquote; 105; 110; c_dquote]%N ++ $":[" else buf in
  let '(buf, alts, sbytes) := foldl finish_scalar (buf, alts, sbytes) (imap pair (scalars (tf_value term))) in
  (if in_set (tf_value term) then buf ++ $"]}" else buf, alts, sbytes).

Definition finishTypedFilter (f : TypedFilter) : result filter_error TypedFilter :=
  let '(buf, alts, sbytes) := foldl finish_term ([c_lbrace], alternatives f, scalarBytes f) (imap pair (tf_terms f)) in
  let buf := buf ++ [c_rbrace] in
  if maxTypedFilterCanonical <? length buf then Err (CanonicalTooLong (length buf))
  else Ok (mkFilter (tf_terms f) buf alts sbytes).

Definition validateTypedFilterName (name : bytes) : result filter_error () :=
  if bool_decide (name = []) then Err EmptyName
  else if maxFilterNameRunes <? rune_count name then Err (NameTooLong name)
  else Ok ().

(** [compareFilterScalar] *)
Definition kind_rank (k : filterScalarKind) : Z :=
  match k with filterFalse => 0 | filterTrue => 1 | filterNumber => 2 | filterString => 3 end.
Definition compareFilterScalar (a b : filterScalar) : Z :=
  if negb (bool_decide (kind a = kind b)) then (kind_rank (kind a) - kind_rank (kind b))%Z
  else match kind a with
       | filterNumber => compareCanonicalNumbers (value a) (value b)
       | filterString => compare_strings (value a) (value b)
       | _ => 0%Z
       end.

(** The dedupe loop over a sorted alternative list. *)
Definition dedup_step (out : list filterScalar) (s : filterScalar) : list filterScalar :=
  match last out with
  | Some l => if (compareFilterScalar l s =? 0)%Z then out else out ++ [s]
  | None => [s]
  end.

Section filter.
Context `{GoRuntime}.

(** The names loop of [StringTypedFilter]. *)
Fixpoint string_terms (values : gmap bytes bytes) (names : list bytes)
    : result filter_error (list typedFilterTerm) :=
  match names with
  | [] => Ok []
  | name :: names' =>
      _ ← validateTypedFilterName name;
      let v := default [] (values !! name) in
      if maxFilterValueRunes <? rune_count v then Err (ValueTooLong name) else
      ts ← string_terms values names';
      Ok (mkFilterTerm name (mkValue false [mkScalar filterString v (cleanASCII v)]) :: ts)
  end.

Definition StringTypedFilter (values : gmap bytes bytes) : result filter_error TypedFilter :=
  if size values =? 0 then Ok no_filter
  else if maxFilterFields <? size values then Err (TooManyNames (size values))
  else
    let names := sort_stable (less_by id) (range_map 0 values).*1 in
    ts ← string_terms values names;
    finishTypedFilter (mkFilter ts [] 0 0).

(** The end of [parseTypedIn]: sort, dedupe, collapse a singleton. *)
Definition canonical_in (alts : list filterScalar) : filterValue :=
  let sorted := sort_slice (λ a b, compareFilterScalar a b <? 0)%Z alts in
  let out := foldl dedup_step [] sorted in
  if length out =? 1 then mkValue false out else mkValue true out.

(** ** Compilation *)

Record filterTerm := mkCompiledTerm { ft_name : bytes; segs : list bytes; ft_value : filterValue; segsClean : bool }.
Record compiledFilter := mkCompiled {
  cf_terms : list filterTerm;
  root : filterNode;
  full : N;
  cf_canonical : bytes;
  cf_alternatives : nat;
  cf_scalarBytes : nat;
  legacy : option (gmap bytes bytes);
}.

(** [slices.BinarySearchFunc] on the names. *)
Fixpoint search_loop (fuel : nat) (fs : list FilterField) (name : bytes) (i j : nat) : nat :=
  match fuel with
  | 0 => i
  | S fuel =>
      if i <? j then
        let h := (i + j) / 2 in
        match fs !! h with
        | Some f =>
            if bool_decide (bytes_lt (Name f) name) then search_loop fuel fs name (S h) j
            else search_loop fuel fs name i h
        | None => i
        end
      else i
  end.
Definition find_field (fs : list FilterField) (name : bytes) : option FilterField :=
  let i := search_loop (length fs) fs name 0 (length fs) in
  f ← fs !! i; if bool_decide (Name f = name) then Some f else None.

Fixpoint compile_terms (fs : list FilterField) (ts : list typedFilterTerm)
    : result filter_error (list filterTerm) :=
  match ts with
  | [] => Ok []
  | t :: ts' =>
      match find_field fs (tf_name t) with
      | None => Err (Undeclared (tf_name t))
      | Some f =>
          let segs := split_byte c_dot (Path f) in
          cts ← compile_terms fs ts';
          Ok (mkCompiledTerm (tf_name t) segs (tf_value t) (forallb cleanASCII segs) :: cts)
      end
  end.

(** The descent of one term into the trie, creating missing children. *)
Fixpoint trie_insert (n : filterNode) (path : list bytes) (t : terminalTerm) : filterNode :=
  match path with
  | [] => Node (children n) (clean_segs n) (terms n ++ [t])
  | seg :: path' =>
      match children n !! seg with
      | Some c => Node (<[seg := trie_insert c path' t]> (children n)) (clean_segs n) (terms n)
      | None => Node (<[seg := trie_insert empty_node path' t]> (children n))
                     (<[seg := cleanASCII seg]> (clean_segs n)) (terms n)
      end
  end.

Definition build_trie (ts : list filterTerm) : filterNode :=
  foldl (λ n it, trie_insert n (segs it.2) (mkTerm (u8 (N.shiftl 1 (N.of_nat it.1))) (ft_value it.2)))
    empty_node (imap pair ts).

(** [uint8(1<<len) - 1], wrapping. *)
Definition full_mask (n : nat) : N := u8 (u8 (N.shiftl 1 (N.of_nat n)) + 255).

(** [Ok None] is the no-filter path. *)
Definition compileTypedFilter (fs : list FilterField) (f : TypedFilter) : result filter_error (option compiledFilter) :=
  if filter_Empty f then Ok None else
  cts ← compile_terms fs (tf_terms f);
  Ok (Some (mkCompiled cts (build_trie cts) (full_mask (length cts)) (canonical f) (alternatives f) (scalarBytes f) None)).

Definition compileFilter (fs : list FilterField) (filter : gmap bytes bytes) : result filter_error (option compiledFilter) :=
  expr ← StringTypedFilter filter;
  cf ← compileTypedFilter fs expr;
  Ok (match cf with
      | None => None
      | Some c => Some (mkCompiled (cf_terms c) (root c) (full c) (cf_canonical c) (cf_alternatives c)
                          (cf_scalarBytes c) (Some filter))
      end).

Definition eval (cf : compiledFilter) (payload : bytes) : result scanError bool :=
  '(bits, rest) ← walkValue (payload_fuel payload) (root cf) 0 payload;
  if bool_decide (ws rest = []) then Ok (bits =? full cf)%N else Err TrailingData.

(** [applied] and [appliedJSON] of a possibly nil filter. *)
Definition applied (cf : option compiledFilter) : option (gmap bytes bytes) := cf ≫= legacy.
Definition appliedJSON (cf : option compiledFilter) : bytes := from_option cf_canonical [] cf.

(** [pathMatch], used by the scanner tests. *)
Definition pathMatch (payload : bytes) (path : list bytes) (want : bytes) (wantClean : bool) : result scanError bool :=
  if bool_decide (path = []) then Ok false else
  let n := trie_insert empty_node path (mkTerm 1 (mkValue false [mkScalar filterString want wantClean])) in
  '(bits, rest) ← walkValue (payload_fuel payload) n 0 payload;
  if bool_decide (ws rest = []) then Ok (negb (bits =? 0)%N) else Err TrailingData.
End filter.

(** ** Reference semantics *)

Definition scalar_matches (v : filterValue) (j : json) : bool :=
  match j with
  | JStr inner => existsb (λ s, bool_decide (kind s = filterString) && bool_decide (value s = json_unquote inner)) (scalars v)
  | JTok tok => matchesScalar v tok
  | _ => false
  end.

(** Does a value reached by the dot path match?  Arrays descend into every
    element, objects into every member with the decoded name. *)
Fixpoint path_holds (m : json → bool) (path : list bytes) (j : json) : bool :=
  match j with
  | JArr es => existsb (λ e, path_holds m path e) es
  | JObj ms =>
      match path with
      | [] => false
      | seg :: path' => existsb (λ kv, bool_decide (json_unquote kv.1 = seg) && path_holds m path' kv.2) ms
      end
  | _ => match path with [] => m j | _ => false end
  end.

Definition term_holds (t : filterTerm) (j : json) : bool := path_holds (scalar_matches (ft_value t)) (segs t) j.

(** ** The trie *)

Fixpoint terms_at (n : filterNode) (path : list bytes) : list terminalTerm :=
  match path with
  | [] => terms n
  | seg :: path' => from_option (λ c, terms_at c path') [] (children n !! seg)
  end.

Lemma terms_at_empty path : terms_at empty_node path = [].
Proof. destruct path; [done|]. simpl. by rewrite lookup_empty. Qed.

Lemma trie_insert_terms n path t path' :
  terms_at (trie_insert n path t) path' = terms_at n path' ++ if bool_decide (path' = path) then [t] else [].
Proof.
  revert n path'. induction path as [|seg path IH]; intros n path'; simpl.
  - destruct path' as [|seg' path']; simpl; [done|]. by rewrite app_nil_r.
  - destruct path' as [|seg' path'].
    { rewrite bool_decide_eq_false_2 by done. destruct (children n !! seg); simpl; by rewrite app_nil_r. }
    assert (∀ c cl, terms_at c path' = from_option (λ c, terms_at c path') [] (children n !! seg) →
      terms_at (Node (<[seg:=trie_insert c path t]> (children n)) cl (terms n)) (seg' :: path') =
      from_option (λ c, terms_at c path') [] (children n !! seg') ++
      if bool_decide (seg' :: path' = seg :: path) then [t] else []) as Hc.
    { intros c cl Heq. simpl. destruct (decide (seg' = seg)) as [->|Hne].
      - rewrite lookup_insert_eq. simpl. rewrite IH, Heq. f_equal. by repeat case_bool_decide; simplify_eq.
      - rewrite lookup_insert_ne by done. rewrite (bool_decide_eq_false_2 (_ :: _ = _)) by congruence.
        by rewrite app_nil_r. }
    destruct (children n !! seg) as [c|] eqn:E; apply Hc; [done|]. simpl. apply terms_at_empty.
Qed.

Lemma build_trie_terms ts path :
  terms_at (build_trie ts) path =
  (λ it, mkTerm (u8 (N.shiftl 1 (N.of_nat it.1))) (ft_value it.2)) <$>
    filter (λ it, segs it.2 = path) (imap pair ts).
Proof.
  unfold build_trie. generalize (imap pair ts). intros l.
  induction l as [|it l IH] using rev_ind; simpl; [apply terms_at_empty|].
  rewrite foldl_app, filter_app, fmap_app, <-IH. simpl. rewrite trie_insert_terms. f_equal.
  rewrite filter_cons, filter_nil. by case_bool_decide; case_decide; simplify_eq.
Qed.

(** ** The recorded bits *)

Definition single_bits (n : filterNode) : Prop :=
  ∀ path t, t ∈ terms_at n path → ∃ k, bit t = (2 ^ k)%N.

Lemma single_bits_child n k c : single_bits n → children n !! k = Some c → single_bits c.
Proof. intros Hs Hc path t Ht. apply (Hs (k :: path)). simpl. by rewrite Hc. Qed.

Lemma record_bits_spec m ts bits k :
  Forall (λ t, ∃ i, bit t = (2 ^ i)%N) ts →
  N.testbit (record_bits m ts bits) k = true ↔
  N.testbit bits k = true ∨ ∃ t, t ∈ ts ∧ bit t = (2 ^ k)%N ∧ m (t_value t) = true.
Proof.
  intros Hts. revert bits. induction Hts as [|t ts [i Hi] Hts IH]; intros bits; simpl.
  { split; [auto|]. by intros [?|(? & ?%elem_of_nil & _)]. }
  unfold record_bits in *. simpl. rewrite IH. rewrite Hi. setoid_rewrite elem_of_cons.
  assert (N.testbit (if (N.land bits (2 ^ i) =? 0)%N && m (t_value t) then N.lor bits (2 ^ i) else bits) k = true ↔
    N.testbit bits k = true ∨ (i = k ∧ m (t_value t) = true)) as ->.
  { destruct (m (t_value t)) eqn:Hm; simpl; [|rewrite andb_false_r; split; [auto|intros [?|[_ ?]]; done]].
    destruct (N.eqb_spec (N.land bits (2 ^ i)) 0) as [_|Hne]; simpl.
    - rewrite N.lor_spec, N.pow2_bits_eqb, orb_true_iff, N.eqb_eq. tauto.
    - split; [auto|]. intros [?|[-> _]]; [done|]. destruct (N.testbit bits k) eqn:Hk; [done|].
      destruct Hne. apply N.bits_inj. intros j. rewrite N.land_spec, N.pow2_bits_eqb, N.bits_0.
      destruct (N.eqb_spec k j) as [->|]; [by rewrite Hk|apply andb_false_r]. }
  assert (bit t = (2 ^ k)%N ↔ i = k) as Hik.
  { rewrite Hi. split; [|by intros ->]. apply N.pow_inj_r. done. }
  naive_solver.
Qed.

(** Induction over documents. *)
Lemma json_nested_ind (P : json → Prop) :
  (∀ i, P (JStr i)) → (∀ t, P (JTok t)) → (∀ es, Forall P es → P (JArr es)) →
  (∀ ms, Forall (λ m, P m.2) ms → P (JObj ms)) → ∀ j, P j.
Proof.
  intros Hs Ht Ha Ho. fix IH 1. intros [i|t|es|ms]; [done|done|apply Ha|apply Ho].
  - induction es as [|e es IHes]; constructor; [apply IH|apply IHes].
  - induction ms as [|[k e] ms IHms]; constructor; [apply IH|apply IHms].
Qed.

Section eval_spec.
Context `{GoRuntime}.

Lemma scalar_matches_string v inner : matchesString v inner = scalar_matches v (JStr inner).
Proof.
  unfold matchesString, scalar_matches. induction (scalars v) as [|s ss IH]; simpl; [done|].
  rewrite IH, decodedStringEq_spec. do 2 f_equal. apply bool_decide_ext. naive_solver.
Qed.

(** The walk records exactly the terms that hold on the document. *)
Lemma record_spec j n bits k :
  single_bits n →
  N.testbit (record child n j bits) k = true ↔
  N.testbit bits k = true ∨
  ∃ path t, t ∈ terms_at n path ∧ bit t = (2 ^ k)%N ∧ path_holds (scalar_matches (t_value t)) path j = true.
Proof.
  revert n bits. induction j as [i|tok|es IH|ms IH] using json_nested_ind; intros n bits Hn; simpl.
  - rewrite record_bits_spec by (apply Forall_forall; intros t Ht; by apply (Hn [])). f_equiv. split.
    + intros (t & Ht & Hb & Hm). exists [], t. split_and!; [done..|].
      change (scalar_matches (t_value t) (JStr i) = true). by rewrite <-scalar_matches_string.
    + intros ([|seg path] & t & Ht & Hb & Hm); [|done]. exists t. split_and!; [done..|].
      by rewrite scalar_matches_string.
  - rewrite record_bits_spec by (apply Forall_forall; intros t Ht; by apply (Hn [])). f_equiv. split.
    + intros (t & Ht & Hb & Hm). exists [], t. auto.
    + intros ([|seg path] & t & Ht & Hb & Hm); [|done]. exists t. auto.
  - revert bits. induction IH as [|e es He Hes IHes]; intros bits; simpl.
    { split; [auto|]. by intros [?|(? & ? & _ & _ & ?)]. }
    rewrite IHes, He by done. split.
    + intros [[?|(path & t & ? & ? & Hh)]|(path & t & ? & ? & Hh)]; [by left|right; exists path, t..];
        by rewrite ?Hh, ?orb_true_r.
    + intros [?|(path & t & ? & ? & [Hh|Hh]%orb_true_iff)]; [by left; left|left; right|right]; by exists path, t.
  - revert bits. induction IH as [|[key e] ms He Hms IHms]; intros bits; simpl.
    { split; [auto|]. by intros [?|([|? ?] & ? & _ & _ & ?)]. }
    rewrite IHms, child_spec. simpl in He. clear IHms.
    assert (N.testbit (match children n !! json_unquote key with Some c => record child c e bits | None => bits end) k = true ↔
      N.testbit bits k = true ∨ ∃ path t, t ∈ terms_at n (json_unquote key :: path) ∧ bit t = (2 ^ k)%N ∧
        path_holds (scalar_matches (t_value t)) path e = true) as ->.
    { simpl. destruct (children n !! json_unquote key) as [c|] eqn:Hc; simpl.
      - apply He. by eapply single_bits_child.
      - split; [auto|]. by intros [?|(? & ? & ?%elem_of_nil & _)]. }
    split.
    + intros [[?|(path & t & Ht & Hb & Hh)]|(path & t & Ht & Hb & Hh)]; [by left| |].
      * right. exists (json_unquote key :: path), t. split_and!; [done..|]. simpl.
        by rewrite bool_decide_eq_true_2, Hh.
      * right. exists path, t. split_and!; [done..|]. destruct path; [done|]. by rewrite Hh, orb_true_r.
    + intros [?|(path & t & Ht & Hb & Hh)]; [by left; left|]. destruct path as [|seg path]; [done|].
      apply orb_true_iff in Hh as [[Hk Hh]%andb_true_iff|Hh].
      * apply bool_decide_eq_true in Hk. simpl in Hk. subst seg. left. right. by exists path, t.
      * right. exists (seg :: path), t. auto.
Qed.

Lemma build_single_bits ts : length ts ≤ maxFilterFields → single_bits (build_trie ts).
Proof.
  intros Hl path t. rewrite build_trie_terms. intros ([i x] & -> & [_ Hi]%list_elem_of_filter)%list_elem_of_fmap.
  apply elem_of_lookup_imap in Hi as (i' & x' & [= -> ->] & Hx). apply lookup_lt_Some in Hx.
  exists (N.of_nat i'). simpl. rewrite N.shiftl_1_l. unfold u8. apply N.mod_small.
  apply N.pow_lt_mono_r; [done|]. unfold maxFilterFields in Hl. lia.
Qed.

Lemma full_mask_ones n : n ≤ maxFilterFields → full_mask n = N.ones (N.of_nat n).
Proof.
  unfold maxFilterFields. intros Hn. do 9 (destruct n as [|n]; [done|]). lia.
Qed.

(** The walk computes the conjunction of the terms. *)
Lemma eval_terms ts cf payload :
  length ts ≤ maxFilterFields → root cf = build_trie ts → full cf = full_mask (length ts) →
  eval cf payload = match parsePayload payload with
                    | Ok j => Ok (forallb (λ t, term_holds t j) ts)
                    | Err e => Err e
                    end.
Proof.
  intros Hl Hr Hf. unfold eval, parsePayload. rewrite Hr, Hf, (proj1 (walk_parse _)).
  destruct (parseValue (payload_fuel payload) payload) as [[j rest]|]; simpl; [|done].
  case_bool_decide; [|done]. f_equal. rewrite full_mask_ones by done.
  apply eq_bool_prop_intro. rewrite !Is_true_true, N.eqb_eq, forallb_forall.
  assert (∀ k, N.testbit (record child (build_trie ts) j 0) k = true ↔
    ∃ i t, ts !! i = Some t ∧ k = N.of_nat i ∧ term_holds t j = true) as Hbits.
  { intros k. rewrite record_spec by (by apply build_single_bits). rewrite N.bits_0.
    setoid_rewrite build_trie_terms. split.
    - intros [?|(path & t & ([i x] & -> & [Hseg Hi]%list_elem_of_filter)%list_elem_of_fmap & Hb & Hh)]; [done|].
      apply elem_of_lookup_imap in Hi as (i' & x' & [= -> ->] & Hx). exists i', x'. split; [done|].
      simpl in *. pose proof (lookup_lt_Some _ _ _ Hx). rewrite N.shiftl_1_l in Hb. unfold u8 in Hb.
      rewrite N.mod_small in Hb by (apply N.pow_lt_mono_r; [done|]; unfold maxFilterFields in Hl; lia).
      apply N.pow_inj_r in Hb; [|done]. split; [done|]. unfold term_holds. by rewrite Hseg.
    - intros (i & t & Hx & -> & Hh). right. exists (segs t), (mkTerm (u8 (N.shiftl 1 (N.of_nat i))) (ft_value t)).
      split_and!; [|simpl|done].
      + apply list_elem_of_fmap. exists (i, t). split; [done|]. apply list_elem_of_filter. split; [done|].
        apply elem_of_lookup_imap. by exists i, t.
      + pose proof (lookup_lt_Some _ _ _ Hx). rewrite N.shiftl_1_l. unfold u8. apply N.mod_small.
        apply N.pow_lt_mono_r; [done|]. unfold maxFilterFields in Hl. lia. }
  split.
  - intros Heq t [i Hi]%list_elem_of_In%list_elem_of_lookup.
    assert (N.testbit (record child (build_trie ts) j 0) (N.of_nat i) = true) as Hb.
    { rewrite Heq. apply N.ones_spec_low. apply lookup_lt_Some in Hi. lia. }
    apply Hbits in Hb as (i' & t' & Ht' & Hi' & Hh). apply Nat2N.inj in Hi'. subst i'. congruence.
  - intros Hall. apply N.bits_inj. intros k. apply eq_bool_prop_intro. rewrite !Is_true_true, Hbits.
    destruct (N.lt_ge_cases k (N.of_nat (length ts))) as [Hk|Hk].
    + rewrite N.ones_spec_low by done. split; [done|]. intros _.
      destruct (lookup_lt_is_Some_2 ts (N.to_nat k)) as [t Ht]; [lia|]. exists (N.to_nat k), t.
      split_and!; [done|lia|]. apply Hall, list_elem_of_In. by eapply list_elem_of_lookup_2.
    + rewrite N.ones_spec_high by done. split; [|done]. intros (i & t & Ht%lookup_lt_Some & -> & _). lia.
Qed.
End eval_spec.

(** ** Meaning

    The values a dot path reaches: arrays stand for their elements, a member is
    found by its decoded name, duplicates included. *)
Inductive reaches : list bytes → json → json → Prop :=
  | reach_string i : reaches [] (JStr i) (JStr i)
  | reach_token tok : reaches [] (JTok tok) (JTok tok)
  | reach_element path es e v : e ∈ es → reaches path e v → reaches path (JArr es) v
  | reach_member seg path ms k e v : (k, e) ∈ ms → json_unquote k = seg → reaches path e v → reaches (seg :: path) (JObj ms) v.

(** A scalar and a value of the payload are the same: decoded strings, the same
    literal, or spellings of the same rational number. *)
Definition same_scalar (s : filterScalar) (v : json) : Prop :=
  match v with
  | JStr inner => kind s = filterString ∧ value s = json_unquote inner
  | JTok tok =>
      match kind s with
      | filterFalse => tok = $"false"
      | filterTrue => tok = $"true"
      | filterNumber => ∃ n m, scan_number (value s) = Some n ∧ scan_number tok = Some m ∧ QArith_base.Qeq (num_value n) (num_value m)
      | filterString => False
      end
  | _ => False
  end.

(** What a number of a filter is: the canonical form of a number token. *)
Definition number_canonical (s : filterScalar) : Prop :=
  kind s = filterNumber → ∃ t, length t ≤ token_limit ∧ canonicalNumberToken t false = Ok (Some (value s)).
Definition short_tokens (j : json) : Prop := ∀ path tok, reaches path j (JTok tok) → length tok ≤ token_limit.

Lemma path_holds_reaches m path j : path_holds m path j = true ↔ ∃ v, reaches path j v ∧ m v = true.
Proof.
  revert path. induction j as [i|tok|es IH|ms IH] using json_nested_ind; intros path.
  - destruct path as [|seg path]; cbn [path_holds]; split; [intros H; eexists; by split; [constructor|]|by intros (v & Hv & H); inversion Hv; subst|done|by intros (v & Hv & _); inversion Hv].
  - destruct path as [|seg path]; cbn [path_holds]; split; [intros H; eexists; by split; [constructor|]|by intros (v & Hv & H); inversion Hv; subst|done|by intros (v & Hv & _); inversion Hv].
  - assert (path_holds m path (JArr es) = existsb (λ e, path_holds m path e) es) as -> by by destruct path.
    rewrite existsb_exists. rewrite Forall_forall in IH. split.
    + intros (e & He%list_elem_of_In & (v & Hv & H)%IH); [|done]. exists v. split; [by eapply reach_element|done].
    + intros (v & Hv & H). inversion Hv as [| |? ? e ? He Hr|]; subst. exists e. split; [by apply list_elem_of_In|]. apply IH; [done|]. by exists v.
  - destruct path as [|seg path]; cbn [path_holds]; [split; [done|by intros (v & Hv & _); inversion Hv]|].
    rewrite existsb_exists. rewrite Forall_forall in IH. split.
    + intros ([k e] & He%list_elem_of_In & [Hk%bool_decide_eq_true Hh]%andb_true_iff). cbn [fst snd] in *.
      apply (IH (k, e)) in Hh as (v & Hv & H); [|done]. exists v. split; [by eapply reach_member|done].
    + intros (v & Hv & H). inversion Hv as [| | |? ? ? k e ? He Hk Hr]; subst. exists (k, e). split; [by apply list_elem_of_In|].
      apply andb_true_iff. cbn [fst snd]. split; [by apply bool_decide_eq_true|]. apply (IH (k, e)); [done|]. by exists v.
Qed.

Lemma number_matches s tok : kind s = filterNumber → number_canonical s → length tok ≤ token_limit →
  canonicalNumberToken tok false = Ok (Some (value s)) ↔ same_scalar s (JTok tok).
Proof.
  intros Hk Hs Hl. destruct (Hs Hk) as (t & Hlt & Ht). unfold same_scalar. rewrite Hk.
  assert (∃ nt, scan_number t = Some nt) as [nt Hnt] by (unfold canonicalNumberToken in Ht; cbn [andb] in Ht; destruct (scan_number t); [by eexists|done]).
  destruct (canonical_value_ok t nt (value s) Hnt Hlt Ht) as (neg & ds & fs & Hf & Hv).
  destruct (canonical_form_scan _ _ _ _ Hf) as (n & Hn & En). split.
  - intros Hc. assert (∃ m, scan_number tok = Some m) as [m Hm] by (unfold canonicalNumberToken in Hc; cbn [andb] in Hc; destruct (scan_number tok); [by eexists|done]).
    destruct (canonical_value_ok tok m (value s) Hm Hl Hc) as (neg' & ds' & fs' & Hf' & Hv').
    destruct (canonical_form_scan _ _ _ _ Hf') as (n' & Hn' & En'). exists n, m. split_and!; [done..|].
    rewrite Hn in Hn'. injection Hn' as <-. by rewrite En', Hv'.
  - intros (n' & m & Hn' & Hm & Heq). rewrite Hn in Hn'. injection Hn' as <-.
    apply (canonical_complete tok m t nt); [done..|]. by rewrite <-Heq, En, Hv.
Qed.
Lemma scalar_matches_same v j : (∀ s, s ∈ scalars v → number_canonical s) → (∀ tok, j = JTok tok → length tok ≤ token_limit) →
  scalar_matches v j = true ↔ ∃ s, s ∈ scalars v ∧ same_scalar s j.
Proof.
  intros Hc Hl. destruct j as [i|tok|es|ms]; cbn [scalar_matches same_scalar]; [| |split; [done|by intros (? & _ & [])]..].
  - rewrite existsb_exists. split.
    + intros (s & Hs%list_elem_of_In & [H1%bool_decide_eq_true H2%bool_decide_eq_true]%andb_true_iff). by exists s.
    + intros (s & Hs & H1 & H2). exists s. split; [by apply list_elem_of_In|]. by rewrite !bool_decide_eq_true_2.
  - specialize (Hl tok eq_refl). unfold matchesScalar, has_kind.
    assert (∀ k, existsb (λ s, bool_decide (kind s = k)) (scalars v) = true ↔ ∃ s, s ∈ scalars v ∧ kind s = k) as Hk.
    { intros k. rewrite existsb_exists. split; intros (s & Hs & H); exists s; rewrite bool_decide_eq_true, ?list_elem_of_In in *; done. }
    assert (scan_number ($"false") = None ∧ scan_number ($"true") = None ∧ scan_number ($"null") = None) as (N1 & N2 & N3) by done.
    case_bool_decide as E1; [subst tok; rewrite Hk|case_bool_decide as E2; [subst tok; rewrite Hk|case_bool_decide as E3; [subst tok|]]].
    + split; intros (s & Hs & H); exists s; (split; [done|]); [by rewrite H|]. destruct (kind s); try done. destruct H as (? & ? & _ & H & _). by rewrite N1 in H.
    + split; intros (s & Hs & H); exists s; (split; [done|]); [by rewrite H|]. destruct (kind s); try done. destruct H as (? & ? & _ & H & _). by rewrite N2 in H.
    + split; [done|]. intros (s & Hs & H). destruct (kind s); try done. destruct H as (? & ? & _ & H & _). by rewrite N3 in H.
    + transitivity (∃ s, s ∈ scalars v ∧ kind s = filterNumber ∧ canonicalNumberToken tok false = Ok (Some (value s))).
      * destruct (canonicalNumberToken tok false) as [[c|]|]; [|by split; [|intros (? & _ & _ & ?)]..]. rewrite existsb_exists. split.
        -- intros (s & Hs%list_elem_of_In & [H1%bool_decide_eq_true H2%bool_decide_eq_true]%andb_true_iff). exists s. by rewrite H2.
        -- intros (s & Hs & H1 & [= ->]). exists s. split; [by apply list_elem_of_In|]. by rewrite !bool_decide_eq_true_2.
      * split; intros (s & Hs & H).
        -- destruct H as [H1 H2]. exists s. split; [done|]. by apply (number_matches s tok H1 (Hc s Hs) Hl).
        -- exists s. split; [done|]. destruct (kind s) eqn:H1; try done. split; [done|]. apply (number_matches s tok H1 (Hc s Hs) Hl). unfold same_scalar. by rewrite H1.
Qed.

Section meaning.
Context {RT : GoRuntime}.

(** C10: evaluation is one strict traversal. A payload that is not one JSON value is
    an error, whatever the filter. On a well-formed payload whose number tokens have
    at most 999000 bytes, and with the numbers of the filter in the canonical form the
    parser gives them, the filter passes exactly when, for every compiled term, some
    value its dot path reaches - through arrays, by decoded member names - is one of
    the term's alternatives: the same decoded string, the same literal, or a number
    token of the same rational value, whatever its spelling. (Longer tokens meet the
    exponent cap, see the findings.) *)
Theorem eval_reference ts cf payload :
  length ts ≤ maxFilterFields → root cf = build_trie ts → full cf = full_mask (length ts) →
  (∀ t s, t ∈ ts → s ∈ scalars (ft_value t) → number_canonical s) →
  match parsePayload payload with
  | Ok j => short_tokens j → ∃ b, eval cf payload = Ok b ∧
      (b = true ↔ ∀ t, t ∈ ts → ∃ v s, reaches (segs t) j v ∧ s ∈ scalars (ft_value t) ∧ same_scalar s v)
  | Err e => eval cf payload = Err e
  end.
Proof.
  intros Hl Hr Hf Hc. rewrite (eval_terms ts cf payload Hl Hr Hf). destruct (parsePayload payload) as [j|e]; [|done].
  intros Hs. eexists. split; [done|]. rewrite forallb_forall. setoid_rewrite <-list_elem_of_In.
  assert (∀ t, t ∈ ts → term_holds t j = true ↔ ∃ v s, reaches (segs t) j v ∧ s ∈ scalars (ft_value t) ∧ same_scalar s v) as H; [|naive_solver].
  intros t Ht. unfold term_holds. rewrite path_holds_reaches. apply exist_proper. intros v. split.
  - intros [Hv Hm]. apply scalar_matches_same in Hm as (s & H1 & H2); [by exists s|intros s; by apply Hc|]. intros tok ->. by eapply Hs.
  - intros (s & Hv & H1 & H2). split; [done|]. apply scalar_matches_same; [intros s'; by apply Hc| |by exists s]. intros tok ->. by eapply Hs.
Qed.
End meaning.

(** ** Compilation *)

Definition names_sorted (fs : list FilterField) : Prop := StronglySorted bytes_lt (Name <$> fs).

Definition splits (fs : list FilterField) (name : bytes) (r : nat) : Prop :=
  (∀ k f, fs !! k = Some f → k < r → bytes_lt (Name f) name) ∧
  (∀ k f, fs !! k = Some f → r ≤ k → ¬ bytes_lt (Name f) name).

Lemma names_sorted_lookup fs i j a b :
  names_sorted fs → fs !! i = Some a → fs !! j = Some b → i < j → bytes_lt (Name a) (Name b).
Proof.
  unfold names_sorted. revert i j. induction fs as [|f fs IH]; intros i j Hs Hi Hj Hij; [done|].
  csimpl in Hs. apply StronglySorted_inv in Hs as [Hs Hf]. destruct j as [|j]; [lia|]. simpl in Hj.
  destruct i as [|i]; simpl in Hi.
  - injection Hi as ->. rewrite Forall_forall in Hf. apply Hf.
    apply list_elem_of_fmap. exists b. split; [done|]. by eapply list_elem_of_lookup_2.
  - apply (IH i j); [done..|lia].
Qed.

Lemma search_loop_splits fuel fs name i j :
  names_sorted fs → j ≤ i + fuel → i ≤ j ≤ length fs →
  (∀ k f, fs !! k = Some f → k < i → bytes_lt (Name f) name) →
  (∀ k f, fs !! k = Some f → j ≤ k → ¬ bytes_lt (Name f) name) →
  splits fs name (search_loop fuel fs name i j).
Proof.
  intros Hs. revert i j. induction fuel as [|fuel IH]; intros i j Hfuel Hij Hlo Hhi; simpl.
  { split; [done|]. intros k f Hk Hik. apply (Hhi k f Hk). lia. }
  destruct (Nat.ltb_spec i j) as [Hlt|Hge]; [|split; [done|intros k f Hk ?; apply (Hhi k f Hk); lia]].
  pose proof (Nat.div_mod_eq (i + j) 2). pose proof (Nat.mod_upper_bound (i + j) 2).
  set (h := (i + j) / 2) in *. assert (i ≤ h < j) as Hh by lia.
  destruct (lookup_lt_is_Some_2 fs h) as [f Hf]; [lia|]. change (fst (Nat.divmod (i + j) 1 0 1)) with h. rewrite Hf.
  case_bool_decide as Hc.
  - apply IH; [lia|lia| |done]. intros k g Hk Hkh. destruct (decide (k = h)) as [->|]; [congruence|].
    trans (Name f); [|done]. apply (names_sorted_lookup fs k h); [done..|lia].
  - apply IH; [lia|lia|done|]. intros k g Hk Hkh Hlt'. destruct (decide (k = h)) as [->|]; [congruence|].
    apply Hc. trans (Name g); [|done]. apply (names_sorted_lookup fs h k); [done..|lia].
Qed.

Lemma find_field_spec fs name f :
  names_sorted fs → find_field fs name = Some f ↔ f ∈ fs ∧ Name f = name.
Proof.
  intros Hs. unfold find_field.
  pose proof (search_loop_splits (length fs) fs name 0 (length fs) Hs) as [Hlo Hhi]; [lia|lia| | |].
  { intros. lia. }
  { intros k g Hk%lookup_lt_Some ?. lia. }
  set (r := search_loop _ _ _ _ _) in *. split.
  - intros (g & Hg & Hf)%bind_Some. case_bool_decide as Hn; [|done]. injection Hf as ->.
    split; [by eapply list_elem_of_lookup_2|done].
  - intros [[k Hk]%list_elem_of_lookup Hn].
    assert (¬ bytes_lt (Name f) name) as Hnl by (rewrite Hn; apply irreflexivity, _).
    assert (r ≤ k) as Hrk by (destruct (Nat.lt_ge_cases k r); [by destruct Hnl; eapply Hlo|done]).
    destruct (fs !! r) as [g|] eqn:Hg; simpl.
    + assert (r = k) as ->.
      { destruct (decide (r = k)); [done|]. destruct (Hhi r g Hg); [done|]. rewrite <-Hn.
        apply (names_sorted_lookup fs r k); [done..|lia]. }
      rewrite Hk in Hg. injection Hg as ->. by rewrite bool_decide_eq_true_2.
    + apply lookup_ge_None in Hg. apply lookup_lt_Some in Hk. lia.
Qed.

(** What a compiled term takes from a declaration. *)
Definition declared (fs : list FilterField) (t : typedFilterTerm) (c : filterTerm) : Prop :=
  ft_name c = tf_name t ∧ ft_value c = tf_value t ∧
  ∃ f, f ∈ fs ∧ Name f = tf_name t ∧ segs c = split_byte c_dot (Path f).

(** Compilation fails closed.  Against name-sorted declarations it succeeds
    exactly when every name of the filter is declared, each term then carrying
    its declaration's path split at dots, with the trie and mask built from the
    terms; otherwise the error names the first undeclared name. *)
Theorem compile_fail_closed fs f :
  names_sorted fs → tf_terms f ≠ [] →
  match compileTypedFilter fs f with
  | Ok (Some cf) =>
      Forall2 (declared fs) (tf_terms f) (cf_terms cf) ∧ root cf = build_trie (cf_terms cf) ∧
      full cf = full_mask (length (cf_terms cf)) ∧ cf_canonical cf = canonical f
  | Ok None => False
  | Err e => ∃ ts1 t ts2, tf_terms f = ts1 ++ t :: ts2 ∧ e = Undeclared (tf_name t) ∧
      tf_name t ∉ Name <$> fs ∧ ∀ t', t' ∈ ts1 → tf_name t' ∈ Name <$> fs
  end.
Proof.
  intros Hs Hne. unfold compileTypedFilter, filter_Empty. rewrite bool_decide_eq_false_2 by done.
  assert (match compile_terms fs (tf_terms f) with
    | Ok cts => Forall2 (declared fs) (tf_terms f) cts
    | Err e => ∃ ts1 t ts2, tf_terms f = ts1 ++ t :: ts2 ∧ e = Undeclared (tf_name t) ∧
        tf_name t ∉ Name <$> fs ∧ ∀ t', t' ∈ ts1 → tf_name t' ∈ Name <$> fs end) as Hc.
  { clear Hne. induction (tf_terms f) as [|t ts IH]; simpl; [constructor|].
    destruct (find_field fs (tf_name t)) as [fld|] eqn:Hf.
    - apply find_field_spec in Hf as [Hin Hn]; [|done].
      destruct (compile_terms fs ts) as [cts|e]; simpl.
      + constructor; [|done]. split_and!; [done|done|]. by exists fld.
      + destruct IH as (ts1 & t' & ts2 & -> & -> & Hno & Hall). exists (t :: ts1), t', ts2.
        split_and!; [done|done|done|]. intros t'' [->|?]%elem_of_cons; [|by apply Hall].
        apply list_elem_of_fmap. by exists fld.
    - exists [], t, ts. split_and!; [done|done| |by intros ? ?%elem_of_nil].
      intros (fld & Hn & Hin)%list_elem_of_fmap.
      assert (find_field fs (tf_name t) = Some fld) by (by apply find_field_spec). congruence. }
  by destruct (compile_terms fs (tf_terms f)).
Qed.

(** ** The canonical string encoding *)

Lemma unquote_ascii fuel c t : (c < 128)%N → c ≠ c_backslash → unquote_fuel (S fuel) (c :: t) = c :: unquote_fuel fuel t.
Proof.
  intros Hc Hb. cbn [unquote_fuel]. destruct (N.eqb_spec c c_backslash); [done|].
  by rewrite (proj2 (N.ltb_lt _ _)).
Qed.

Lemma unquote_escape fuel e t :
  e ≠ c_lowU → unquote_fuel (S fuel) (c_backslash :: e :: t) = unescape e :: unquote_fuel fuel t.
Proof.
  intros He. cbn [unquote_fuel]. rewrite N.eqb_refl.
  assert (get_u4 (c_backslash :: e :: t) = None) as ->; [|done].
  unfold get_u4. destruct t as [|? [|? [|? [|? ?]]]]; try done. by destruct (N.eqb_spec e c_lowU).
Qed.

Lemma unquote_control fuel c t :
  (c < 32)%N →
  unquote_fuel (S fuel) (c_backslash :: c_lowU :: c_zero :: c_zero :: hex_char (c / 16) :: hex_char (c mod 16) :: t)
  = c :: unquote_fuel fuel t.
Proof.
  intros Hc. assert (∀ n, n < 32 → ∀ t, unquote_fuel (S fuel) (c_backslash :: c_lowU :: c_zero :: c_zero ::
    hex_char (N.of_nat n / 16) :: hex_char (N.of_nat n mod 16) :: t) = N.of_nat n :: unquote_fuel fuel t) as H.
  { intros n Hn t'. do 32 (destruct n as [|n]; [reflexivity|]). lia. }
  specialize (H (N.to_nat c) ltac:(lia) t). by rewrite N2Nat.id in H.
Qed.

(** Every decoded rune falls in one of three cases: ASCII, an invalid byte, or
    a multi-byte sequence whose decoding does not depend on what follows. *)
Definition chunk_ok (rc : N * bytes) : Prop :=
  (∃ c, rc = (c, [c]) ∧ (c < 128)%N) ∨
  (∃ c, rc = (rune_error, [c]) ∧ (128 <= c)%N) ∨
  (∃ c cs, rc.2 = c :: cs ∧ cs ≠ [] ∧ Forall (λ b, (128 <= b)%N) rc.2 ∧
    ∀ t, rune_at c (cs ++ t) = (rc.1, length rc.2)).

Lemma rune_at_chunk b0 t0 : chunk_ok ((rune_at b0 t0).1, take (rune_at b0 t0).2 (b0 :: t0)).
Proof.
  unfold rune_at. destruct (N.ltb_spec b0 128) as [Hb|Hb]; [left; by exists b0|right].
  assert (∃ c, (rune_error, [b0]) = (rune_error, [c]) ∧ (128 <= c)%N) as Hinv by (by exists b0).
  destruct t0 as [|b1 t1]; [by left|].
  destruct (seq2 b0 b1) eqn:E1.
  { right. exists b0, [b1]. split_and!; [done|done| |].
    - repeat constructor; [done|]. utf8_unfold. lia.
    - intros t. unfold rune_at. cbn [app]. by rewrite (proj2 (N.ltb_ge _ _) Hb), E1. }
  destruct t1 as [|b2 t2]; [by left|].
  destruct (seq3 b0 b1 b2) eqn:E2.
  { right. exists b0, [b1; b2]. split_and!; [done|done| |].
    - repeat constructor; [done| |]; utf8_unfold; lia.
    - intros t. unfold rune_at. cbn [app]. by rewrite (proj2 (N.ltb_ge _ _) Hb), E1, E2. }
  destruct t2 as [|b3 t3]; [by left|].
  destruct (seq4 b0 b1 b2 b3) eqn:E3; [|by left].
  right. exists b0, [b1; b2; b3]. split_and!; [done|done| |].
  - repeat constructor; [done| | |]; utf8_unfold; lia.
  - intros t. unfold rune_at. cbn [app]. by rewrite (proj2 (N.ltb_ge _ _) Hb), E1, E2, E3.
Qed.

Lemma decode_chunks s : Forall chunk_ok (decode s).
Proof.
  induction s as [[|b0 t0] IH] using list_len_ind; [done|]. rewrite decode_cons.
  constructor; [apply rune_at_chunk|]. apply IH. pose proof (rune_at_width b0 t0).
  rewrite length_drop. lia.
Qed.

(** One chunk: it is scanned over whole, and decodes to its rune. *)
Lemma json_chunk_spec rc :
  chunk_ok rc →
  (∀ t, raw_inner (json_chunk rc ++ t) = '(inner, rest) ← raw_inner t; Some (json_chunk rc ++ inner, rest)) ∧
  (∀ fuel t, unquote_fuel (S fuel) (json_chunk rc ++ t) = encode_rune rc.1 ++ unquote_fuel fuel t) ∧
  1 ≤ length (json_chunk rc).
Proof.
  intros [(c & -> & Hc)|[(c & -> & Hc)|(c & cs & Hrc & Hne & Hhi & Hat)]].
  - assert (∀ n, n < 128 → (λ c,
      (∀ t, raw_inner (json_chunk (c, [c]) ++ t) = '(inner, rest) ← raw_inner t; Some (json_chunk (c, [c]) ++ inner, rest)) ∧
      (∀ fuel t, unquote_fuel (S fuel) (json_chunk (c, [c]) ++ t) = encode_rune c ++ unquote_fuel fuel t) ∧
      1 ≤ length (json_chunk (c, [c]))) (N.of_nat n)) as H.
    { intros n Hn. do 128 (destruct n as [|n]; [split_and!; [reflexivity|first [reflexivity|intros fuel t; by apply unquote_escape]|apply Nat.leb_le; reflexivity]|]). lia. }
    specialize (H (N.to_nat c) ltac:(lia)). rewrite N2Nat.id in H. exact H.
  - unfold json_chunk. simpl. rewrite (proj2 (N.leb_le _ _) Hc). split_and!; [|reflexivity|simpl; lia].
    intros t. simpl. by destruct (raw_inner t) as [[? ?]|].
  - destruct rc as [r rc]. simpl in *. subst rc. destruct cs as [|c1 cs]; [done|].
    change (json_chunk (r, c :: c1 :: cs)) with (c :: c1 :: cs). split_and!; [| |simpl; lia].
    + clear Hat. intros t. induction Hhi as [|b l Hb Hl IH]; simpl; [by destruct (raw_inner t) as [[? ?]|]|].
      assert ((b =? c_dquote)%N = false ∧ (b =? c_backslash)%N = false ∧ (b <? 32)%N = false) as (-> & -> & ->) by lia.
      rewrite IH. by destruct (raw_inner t) as [[? ?]|].
    + intros fuel t. apply Forall_cons in Hhi as [Hc _].
      change ((c :: c1 :: cs) ++ t) with (c :: (c1 :: cs) ++ t). cbn [unquote_fuel].
      assert ((c =? c_backslash)%N = false ∧ (c <? 128)%N = false) as [-> ->] by lia.
      rewrite Hat. do 2 f_equal. change (c :: (c1 :: cs) ++ t) with ((c :: c1 :: cs) ++ t). by rewrite drop_app_length.
Qed.

(** The canonical encoder and the payload scanner agree on strings: whatever
    bytes a name or value holds, its encoding is one valid JSON string token that
    ends exactly at its closing quote, and decoding it gives back the string, with
    each invalid UTF-8 byte replaced by U+FFFD (so a valid string comes back
    unchanged, and two valid strings never share an encoding). *)
Theorem json_string_roundtrip s rest :
  rawString (appendJSONString [] s ++ rest) = Some (json_escape s, rest) ∧
  json_unquote (json_escape s) = string_of_runes (runes s) ∧
  (utf8_valid s = true → json_unquote (json_escape s) = s).
Proof.
  pose proof (decode_chunks s) as Hok.
  assert (json_unquote (json_escape s) = string_of_runes (runes s)) as Hu.
  { unfold json_unquote, json_escape, string_of_runes, runes.
    assert (length (decode s) ≤ length (decode s ≫= json_chunk)) as Hlen.
    { induction Hok as [|rc l Hrc Hl IH]; [simpl; lia|]. rewrite bind_cons, length_app.
      pose proof (proj2 (proj2 (json_chunk_spec rc Hrc))). simpl. lia. }
    revert Hlen. generalize (length (decode s ≫= json_chunk)) as fuel.
    induction Hok as [|rc l Hrc Hl IH]; intros fuel Hfuel; [by destruct fuel|].
    simpl in Hfuel. destruct fuel as [|fuel]; [lia|]. rewrite fmap_cons, !bind_cons.
    rewrite (proj1 (proj2 (json_chunk_spec rc Hrc))), IH by lia. done. }
  split_and!; [|done|].
  - unfold appendJSONString. rewrite <-!app_assoc. simpl. unfold json_escape. clear Hu.
    induction Hok as [|rc l Hrc Hl IH]; [done|]. rewrite bind_cons.
    rewrite <-app_assoc, (proj1 (json_chunk_spec rc Hrc)), IH. done.
  - intros Hv. rewrite Hu. apply string_of_runes_decode. by rewrite Hv.
Qed.

(** ** Concrete inputs *)

Definition demo_fields : list FilterField := [mkField ($"grade") ($"meta.grade"); mkField ($"year") ($"years")].
Definition demo_filter : TypedFilter :=
  mkFilter [mkFilterTerm ($"grade") (mkValue false [mkScalar filterString ($"A") true]);
            mkFilterTerm ($"year") (mkValue true [mkScalar filterNumber ($"2000") false; mkScalar filterTrue [] false])]
    [] 3 0.
Definition demo_terms : list filterTerm :=
  [mkCompiledTerm ($"grade") [$"meta"; $"grade"] (mkValue false [mkScalar filterString ($"A") true]) true;
   mkCompiledTerm ($"year") [$"years"]
     (mkValue true [mkScalar filterNumber ($"2000") false; mkScalar filterTrue [] false]) true].
(** [{"meta":{"grade":"A"},"years":[1,2000.0]}] *)
Definition demo_payload : bytes :=
  let q := [c_dquote] in
  $"{" ++ q ++ $"meta" ++ q ++ $":{" ++ q ++ $"grade" ++ q ++ $":" ++ q ++ $"A" ++ q ++ $"}," ++
  q ++ $"years" ++ q ++ $":[1,2000.0]}".
Definition demo_compiled : compiledFilter :=
  mkCompiled demo_terms (build_trie demo_terms) (full_mask 2) [] 3 0 None.

(** What the payload parses to; its tokens are short. *)
Definition demo_document : json :=
  JObj [($"meta", JObj [($"grade", JStr ($"A"))]); ($"years", JArr [JTok ($"1"); JTok ($"2000.0")])].
Lemma demo_short : short_tokens demo_document.
Proof.
  intros path tok H. apply token_limit_Z. inversion H as [| | |? ? ? k e ? Hin _ Hr]; subst.
  rewrite !elem_of_cons, elem_of_nil in Hin. destruct Hin as [[= -> ->]|[[= -> ->]|[]]].
  - inversion Hr as [| | |? ? ? k e ? Hin _ Hr']; subst. rewrite elem_of_cons, elem_of_nil in Hin. destruct Hin as [[= -> ->]|[]]. inversion Hr'.
  - inversion Hr as [| |? ? e ? Hin Hr'|]; subst. rewrite !elem_of_cons, elem_of_nil in Hin.
    destruct Hin as [->|[->|[]]]; inversion Hr'; subst; vm_compute; discriminate.
Qed.
Lemma demo_numbers t s : t ∈ demo_terms → s ∈ scalars (ft_value t) → number_canonical s.
Proof.
  unfold demo_terms. rewrite !elem_of_cons, elem_of_nil. intros [->|[->|[]]]; cbn [ft_value scalars]; rewrite !elem_of_cons, elem_of_nil.
  - by intros [->|[]].
  - intros [->|[->|[]]]; [|done]. intros _. exists ($"2000"). split; [apply token_limit_Z; vm_compute; discriminate|vm_compute; reflexivity].
Qed.
Lemma eval_reference_witness :
  (∃ b, @eval default_runtime demo_compiled demo_payload = Ok b ∧ b = true ∧
     ∃ j v, parsePayload demo_payload = Ok j ∧ reaches [$"years"] j v ∧
       ∃ s, s ∈ [mkScalar filterNumber ($"2000") false; mkScalar filterTrue [] false] ∧ same_scalar s v) ∧
  @eval default_runtime demo_compiled ($"{} x") = Err TrailingData.
Proof.
  assert (length demo_terms ≤ maxFilterFields) as Hl by (apply Nat.leb_le; reflexivity). split.
  - pose proof (@eval_reference default_runtime demo_terms demo_compiled demo_payload Hl eq_refl eq_refl demo_numbers) as H.
    assert (@eval default_runtime demo_compiled demo_payload = Ok true) as He by (vm_compute; reflexivity).
    assert (parsePayload demo_payload = Ok demo_document) as Hp by (vm_compute; reflexivity). rewrite Hp in H.
    destruct (H demo_short) as (b & Hb & Hiff). rewrite He in Hb. injection Hb as <-. exists true. split; [exact He|]. split; [reflexivity|].
    destruct (proj1 Hiff eq_refl _ (list_elem_of_further _ _ _ (list_elem_of_here _ _))) as (v & s & Hv & Hs & Hsame).
    exists demo_document, v. split; [exact Hp|]. split; [exact Hv|]. exists s. split; [exact Hs|exact Hsame].
  - exact (@eval_reference default_runtime demo_terms demo_compiled ($"{} x") Hl eq_refl eq_refl demo_numbers).
Defined.

Lemma compile_fail_closed_witness :
  is_ok (compileTypedFilter demo_fields demo_filter) = true ∧
  ∃ ts1 t ts2, tf_terms demo_filter = ts1 ++ t :: ts2 ∧ tf_name t = $"year" ∧
    compileTypedFilter (take 1 demo_fields) demo_filter = Err (Undeclared (tf_name t)).
Proof.
  assert (names_sorted demo_fields) as Hs.
  { unfold names_sorted. repeat constructor. }
  assert (names_sorted (take 1 demo_fields)) as Hs1 by (unfold names_sorted; repeat constructor).
  pose proof (compile_fail_closed demo_fields demo_filter Hs ltac:(done)) as _.
  pose proof (compile_fail_closed (take 1 demo_fields) demo_filter Hs1 ltac:(done)) as H1.
  assert (compileTypedFilter (take 1 demo_fields) demo_filter = Err (Undeclared ($"year"))) as He
    by (vm_compute; reflexivity).
  rewrite He in H1. destruct H1 as (ts1 & t & ts2 & Hts & Hu & _ & _).
  split; [vm_compute; reflexivity|]. exists ts1, t, ts2. rewrite <-Hu. injection Hu as Hu. auto.
Defined.
