(* ===== verification/FilterParse.v ===== *)
(** [ParseTypedFilter] ([engine/typed_filter.go]): the filter expression of a request,
    from its bytes, by duplicate-aware walks over the token decoder. *)

From Stdlib Require Import QArith Lqa.
From S2P Require Import Prelude.
From S2P Require Import Runtime.
From S2P Require Import Strings.
From S2P Require Import NumToken.
From S2P Require Import Payload.
From S2P Require Import Filter.
From S2P Require Import JSONTokens.

(** The messages of the parser; [WhatOperator] is the walk of an operator object. *)
Inductive object_of := WhatFilter | WhatOperator.
Inductive parse_error :=
  | NotObject (w : object_of)
  | MalformedObject (w : object_of)
  | MalformedKey (w : object_of)
  | MalformedValue (w : object_of) (key : bytes)
  | DuplicateName (name : bytes)
  | FilterRefused (e : filter_error)
  | ValueMalformed (name : bytes)
  | ValueNumber (name : bytes) (e : number_error)
  | NullValue (name : bytes)
  | ArrayValue (name : bytes)
  | OperatorMalformed (name : bytes) (e : parse_error)
  | DuplicateOperator (name op : bytes)
  | OneOperator (name : bytes)
  | UnknownOperator (name op : bytes)
  | InNotArray (name : bytes)
  | TooManyAlternatives (name : bytes)
  | AlternativeMalformed (name : bytes)
  | AlternativeTooLong (name : bytes)
  | NestedAlternative (name : bytes)
  | InMalformed (name : bytes)
  | EmptyIn (name : bytes)
  | NumberPanic
  | ParseOutOfFuel.

(** [decoderEOF]: nothing but white space is left. *)
Definition decoderEOF (d : Decoder) : bool :=
  match DecodeAny d with Err JEOF => true | _ => false end.

Definition first_name (names : list bytes) : bytes := default [] (head names).

Section parse.
Context `{GoRuntime}.

(** [rawObject]: every member's raw value, the first of each name, and the names that
    occur again. *)
Fixpoint raw_members (fuel : nat) (w : object_of) (d : Decoder) (entries : gmap bytes bytes) (dups : gmap bytes ())
    : result parse_error (gmap bytes bytes * gmap bytes ()) :=
  match fuel with
  | 0 => Err ParseOutOfFuel
  | S fuel =>
      if More d then
        match Token d with
        | Err _ => Err (MalformedObject w)
        | Ok (Scalar (AnyString key), d) =>
            match DecodeRaw d with
            | Err _ => Err (MalformedValue w key)
            | Ok (raw, d) =>
                match entries !! key with
                | Some _ => raw_members fuel w d entries (<[key := ()]> dups)
                | None => raw_members fuel w d (<[key := raw]> entries) dups
                end
            end
        | Ok _ => Err (MalformedKey w)
        end
      else
        match Token d with
        | Err _ => Err (MalformedObject w)
        | Ok (_, d) => if decoderEOF d then Ok (entries, dups) else Err (MalformedObject w)
        end
  end.
Definition rawObject (raw : bytes) (w : object_of) : result parse_error (gmap bytes bytes * gmap bytes ()) :=
  match Token (NewDecoder raw true) with
  | Ok (Delim c, d) => if (c =? c_lbrace)%N then raw_members (S (length raw)) w d ∅ ∅ else Err (NotObject w)
  | _ => Err (NotObject w)
  end.
(** [sort.Strings] of a map's keys. *)
Definition sorted_keys {V} (m : gmap bytes V) : list bytes := sort_stable (less_by id) (range_map 0 m).*1.

(** The number of a request: an accepted one is comparable. *)
Definition parse_number (name tok : bytes) : result parse_error filterScalar :=
  match canonicalNumberToken tok true with
  | Err e => Err (ValueNumber name e)
  | Ok None => Err NumberPanic
  | Ok (Some canon) => Ok (mkScalar filterNumber canon false)
  end.
Definition parse_bool (b : bool) : filterScalar := mkScalar (if b then filterTrue else filterFalse) [] false.

Definition parseTypedScalar (name raw : bytes) : result parse_error filterScalar :=
  match DecodeAny (NewDecoder raw true) with
  | Err _ => Err (AlternativeMalformed name)
  | Ok (AnyString x, _) =>
      if maxFilterValueRunes <? rune_count x then Err (AlternativeTooLong name) else Ok (mkScalar filterString x (cleanASCII x))
  | Ok (AnyBool b, _) => Ok (parse_bool b)
  | Ok (AnyNumber tok, _) => parse_number name tok
  | Ok _ => Err (NestedAlternative name)
  end.

(** The array of alternatives. *)
Fixpoint in_alternatives (fuel : nat) (name : bytes) (d : Decoder) (scalars : list filterScalar) : result parse_error (list filterScalar) :=
  match fuel with
  | 0 => Err ParseOutOfFuel
  | S fuel =>
      if More d then
        if bool_decide (length scalars = maxTypedFilterAlternatives) then Err (TooManyAlternatives name) else
        match DecodeRaw d with
        | Err _ => Err (AlternativeMalformed name)
        | Ok (raw, d) => s ← parseTypedScalar name raw; in_alternatives fuel name d (scalars ++ [s])
        end
      else
        match Token d with
        | Err _ => Err (InMalformed name)
        | Ok (_, d) => if decoderEOF d then Ok scalars else Err (InMalformed name)
        end
  end.

Definition parseTypedIn (name raw : bytes) : result parse_error filterValue :=
  match rawObject raw WhatOperator with
  | Err e => Err (OperatorMalformed name e)
  | Ok (entries, dups) =>
      if negb (bool_decide (dups = ∅)) then Err (DuplicateOperator name (first_name (sorted_keys dups)))
      else if negb (size entries =? 1) then Err (OneOperator name)
      else
        match entries !! ($"in") with
        | None => Err (UnknownOperator name (first_name (sorted_keys entries)))
        | Some inRaw =>
            match Token (NewDecoder inRaw true) with
            | Ok (Delim c, d) =>
                if negb (c =? c_lbrack)%N then Err (InNotArray name) else
                scalars ← in_alternatives (S (length inRaw)) name d [];
                if bool_decide (scalars = []) then Err (EmptyIn name) else Ok (canonical_in scalars)
            | _ => Err (InNotArray name)
            end
        end
  end.

Definition parseTypedFilterValue (name raw : bytes) : result parse_error filterValue :=
  match DecodeAny (NewDecoder raw true) with
  | Err _ => Err (ValueMalformed name)
  | Ok (v, d) =>
      if negb (decoderEOF d) then Err (ValueMalformed name) else
      match v with
      | AnyString x =>
          if maxFilterValueRunes <? rune_count x then Err (FilterRefused (ValueTooLong name))
          else Ok (mkValue false [mkScalar filterString x (cleanASCII x)])
      | AnyBool b => Ok (mkValue false [parse_bool b])
      | AnyNumber tok => s ← parse_number name tok; Ok (mkValue false [s])
      | AnyObject => parseTypedIn name raw
      | AnyNull => Err (NullValue name)
      | AnyArray => Err (ArrayValue name)
      end
  end.

Fixpoint parse_terms (entries : gmap bytes bytes) (names : list bytes) : result parse_error (list typedFilterTerm) :=
  match names with
  | [] => Ok []
  | name :: names =>
      match validateTypedFilterName name with
      | Err e => Err (FilterRefused e)
      | Ok _ =>
          v ← parseTypedFilterValue name (default [] (entries !! name));
          ts ← parse_terms entries names;
          Ok (mkFilterTerm name v :: ts)
      end
  end.

Definition ParseTypedFilter (raw : bytes) : result parse_error TypedFilter :=
  '(entries, dups) ← rawObject raw WhatFilter;
  if negb (bool_decide (dups = ∅)) then Err (DuplicateName (first_name (sorted_keys dups)))
  else if bool_decide (entries = ∅) then Ok no_filter
  else if maxFilterFields <? size entries then Err (FilterRefused (TooManyNames (size entries)))
  else
    ts ← parse_terms entries (sorted_keys entries);
    match finishTypedFilter (mkFilter ts [] 0 0) with
    | Ok f => Ok f
    | Err e => Err (FilterRefused e)
    end.
End parse.

#[local] Existing Instance default_runtime.
Definition parse_canonical (raw : bytes) : result parse_error bytes := f ← ParseTypedFilter raw; Ok (filter_CanonicalJSON f).

(** * The canonical form of a filter is a fixed point of the parser: what
    [ParseTypedFilter] accepts is well formed, and parsing its canonical bytes gives it
    back. *)

(** ** Numbers *)

(** The numbers a request may carry, as the canonicalizer spells them. *)
Definition number_form (c : bytes) : Prop :=
  c = [c_zero] ∨ ∃ neg sig e, sig_form sig ∧ length sig ≤ maxTypedFilterSignificant ∧ (-200 <= Z.of_nat (length sig) - 1 + e <= 200)%Z ∧ c = fixed_decimal neg sig e.

Lemma request_number tok r : canonicalNumberToken tok true = Ok r → length tok ≤ maxTypedFilterNumberBytes ∧ canonicalNumberToken tok false = Ok r ∧ r ≠ None.
Proof.
  unfold canonicalNumberToken. cbn [andb]. destruct (Nat.ltb_spec maxTypedFilterNumberBytes (length tok)); [done|]. intros Hr. split; [done|].
  destruct (scan_number tok) as [n|]; [|done]. destruct (first_nonzero _); [|by injection Hr as <-]. destruct (last_nonzero _); [|by injection Hr as <-].
  cbv zeta in *. destruct (maxTypedFilterSignificant <? _); [done|]. destruct (_ || _); [done|]. by injection Hr as <-.
Qed.
Lemma canonical_number_form tok c : canonicalNumberToken tok true = Ok (Some c) → number_form c.
Proof.
  intros (_ & Hf & _)%request_number. assert (∃ n, scan_number tok = Some n) as [n Hn] by (unfold canonicalNumberToken in Hf; cbn [andb] in Hf; destruct (scan_number tok); [by eexists|done]).
  destruct (canonical_cases _ _ Hn) as [[_ E]|(sig & tz & Hsig & _ & _ & _ & [[[H1 H2] E]|[_ E]])]; rewrite E in Hf; [injection Hf as <-; by left| |done].
  injection Hf as <-. right. by eexists _, _, _.
Qed.
Lemma last_nonzero_zeros ds c b : c ≠ c_zero → last_nonzero (ds ++ c :: replicate b c_zero) = Some (length ds).
Proof.
  intros Hc. assert (last_nonzero (replicate b c_zero) = None) as Hb by (induction b as [|b IH]; [done|]; cbn [replicate last_nonzero]; by rewrite IH).
  induction ds as [|x ds IH]; cbn [app last_nonzero length]; [rewrite Hb; by destruct (N.eqb_spec c c_zero)|by rewrite IH].
Qed.
(** The digits [fixed_parts] lays out: the significant ones between zeros. *)
Lemma fixed_parts_digits sig e : sig ≠ [] → ∃ a b, (fixed_parts sig e).1 ++ (fixed_parts sig e).2 = replicate a c_zero ++ sig ++ replicate b c_zero ∧
  (0 - Z.of_nat (length (fixed_parts sig e).2) + Z.of_nat b)%Z = e.
Proof.
  intros Hne. unfold fixed_parts. destruct (Z.leb_spec (Z.of_nat (length sig) + e) 0); cbn [fst snd].
  - exists (S (Z.to_nat (- (Z.of_nat (length sig) + e)))), 0. split; [cbn; by rewrite app_nil_r|]. rewrite length_app, length_replicate. lia.
  - destruct (Z.leb_spec (Z.of_nat (length sig)) (Z.of_nat (length sig) + e)); cbn [fst snd].
    + exists 0, (Z.to_nat (Z.of_nat (length sig) + e - Z.of_nat (length sig))). split; [cbn; by rewrite app_nil_r|]. cbn [length]. lia.
    + exists 0, 0. split; [cbn; by rewrite take_drop, app_nil_r|]. rewrite length_drop. lia.
Qed.
Lemma fixed_decimal_length neg sig e : (length (fixed_decimal neg sig e) <= 3 + Z.to_nat (- (Z.of_nat (length sig) + e)) + length sig + Z.to_nat e)%nat.
Proof.
  unfold fixed_decimal. rewrite length_app. assert (length (if neg then [c_minus] else []) ≤ 1) by (destruct neg; simpl; lia).
  destruct (Z.leb_spec (Z.of_nat (length sig) + e) 0); [rewrite !length_app, length_replicate; simpl; lia|].
  destruct (Z.leb_spec (Z.of_nat (length sig)) (Z.of_nat (length sig) + e)); [rewrite length_app, length_replicate; lia|].
  rewrite !length_app, length_take, length_drop. simpl. lia.
Qed.
Lemma number_form_text c : number_form c → ∃ neg ds fs, c = decimal_string neg ds fs ∧ int_form ds ∧ digits fs.
Proof.
  intros [->|(neg & sig & e & Hsig & _ & _ & ->)]; [exists false, [c_zero], []; split_and!; [done|split; [by repeat constructor|by left]|constructor]|].
  destruct (fixed_parts_form sig e Hsig) as (Hi & [Hf _] & _). eexists neg, _, _. split_and!; [apply fixed_decimal_parts|done..].
  by destruct Hsig as (_ & (? & ? & -> & _) & _).
Qed.
Lemma number_form_fix c : number_form c → canonicalNumberToken c true = Ok (Some c).
Proof.
  intros [->|(neg & sig & e & Hsig & Hl & He & ->)]; [done|]. assert (sig ≠ []) as Hne by (by destruct Hsig as (_ & (? & ? & -> & _) & _)).
  unfold canonicalNumberToken. cbn [andb]. rewrite (proj2 (Nat.ltb_ge _ _)).
  2:{ pose proof (fixed_decimal_length neg sig e) as H. unfold maxTypedFilterSignificant, maxTypedFilterNumberBytes in *. lia. }
  destruct (fixed_parts_form sig e Hsig) as (Hi & [Hf _] & _). rewrite fixed_decimal_parts at 1 by done. rewrite scan_decimal by done. cbn [n_exp_neg n_exp n_int n_frac n_neg].
  destruct (fixed_parts_digits sig e Hne) as (a & b & -> & Hb). destruct Hsig as (Hd & (x & t & Ex & Hx) & (t' & y & Ey & Hy)).
  rewrite Ex at 1. cbn [app]. rewrite first_nonzero_zeros by done. rewrite Ey at 1. rewrite <-app_assoc. cbn [app]. rewrite app_assoc, last_nonzero_zeros by done.
  cbv zeta. rewrite !length_app, !length_replicate. assert (length sig = S (length t')) as Hlen by (rewrite Ey, length_app; simpl; lia).
  replace (a + length t' - a + 1) with (length sig) by lia. replace (a + (length sig + b) - 1 - (a + length t')) with b by lia.
  change (exp_capped []) with 0%Z. rewrite Hb. rewrite (proj2 (Nat.ltb_ge _ _)) by done. unfold maxTypedFilterExponent.
  rewrite (proj2 (Z.ltb_ge _ _)) by lia. rewrite (proj2 (Z.ltb_ge _ _)) by lia. cbn [orb]. rewrite drop_app_length' by (by rewrite length_replicate). by rewrite take_app_length.
Qed.

(** ** Text that reads back *)

Definition value_stop (rest : bytes) : Prop :=
  match rest with [] => True | c :: _ => is_digit c = false ∧ c ≠ c_dot ∧ c ≠ c_lowE ∧ c ≠ c_upE end.
Definition starts (x : bytes) : Prop := ∃ c t, x = c :: t ∧ is_ws c = false ∧ c ≠ c_rbrack ∧ c ≠ c_rbrace ∧ c ≠ c_comma ∧ c ≠ c_colon.
(** One value, inside [d] open containers. *)
Definition reads (d : N) (x : bytes) : Prop :=
  starts x ∧ ∃ n, ∀ fuel rest, n ≤ fuel → value_stop rest → skip_json fuel d (x ++ rest) = Some rest.

Lemma starts_ws x rest : starts x → ws (x ++ rest) = x ++ rest.
Proof. intros (c & t & -> & Hc & _). cbn [app ws]. by rewrite Hc. Qed.
Lemma readValue_reads x rest : reads 0 x → value_stop rest → readValue (x ++ rest) = Ok (x, rest).
Proof.
  intros [Hx (n & Hn)] Hr. unfold readValue. rewrite starts_ws by done. pose proof Hx as (c & t & E & _). destruct (x ++ rest) as [|c' t'] eqn:Ex; [by subst x|]. rewrite <-Ex.
  rewrite (proj1 (skip_fuel (length (x ++ rest))) _ (max n (2 * length (x ++ rest) + 1))) by (unfold payload_fuel; lia). rewrite Hn by (done || lia).
  do 2 f_equal. rewrite length_app. by rewrite take_app_length' by lia.
Qed.
Lemma DecodeRaw_reads x rest st stack un : reads 0 x → value_stop rest → tokenValueAllowed st = true →
  DecodeRaw (mkDecoder (x ++ rest) st stack un) = Ok (x, mkDecoder rest (tokenValueEnd st) stack un).
Proof.
  intros Hx Hr Hst. unfold DecodeRaw, tokenPrepareForDecode. destruct st; try done; cbn [d_state mbind result_bind tokenValueAllowed negb d_rest]; by rewrite readValue_reads.
Qed.
Lemma DecodeRaw_comma x rest stack un : reads 0 x → value_stop rest →
  DecodeRaw (mkDecoder (c_comma :: x ++ rest) tokenArrayComma stack un) = Ok (x, mkDecoder rest tokenArrayComma stack un).
Proof. intros Hx Hr. unfold DecodeRaw, tokenPrepareForDecode. cbn [d_state d_rest]. change (ws (c_comma :: x ++ rest)) with (c_comma :: x ++ rest). cbn iota. rewrite N.eqb_refl. cbn [mbind result_bind at_rest d_state tokenValueAllowed negb d_rest]. by rewrite readValue_reads. Qed.
Lemma DecodeRaw_colon x rest stack un : reads 0 x → value_stop rest →
  DecodeRaw (mkDecoder (c_colon :: x ++ rest) tokenObjectColon stack un) = Ok (x, mkDecoder rest tokenObjectComma stack un).
Proof. intros Hx Hr. unfold DecodeRaw, tokenPrepareForDecode. cbn [d_state d_rest]. change (ws (c_colon :: x ++ rest)) with (c_colon :: x ++ rest). cbn iota. rewrite N.eqb_refl. cbn [mbind result_bind at_rest d_state tokenValueAllowed negb d_rest]. by rewrite readValue_reads. Qed.

(** ** Scalars *)

Definition string_text (s : bytes) : bytes := appendJSONString [] s.
Lemma appendJSONString_app dst s : appendJSONString dst s = dst ++ string_text s.
Proof. done. Qed.
Lemma string_reads d s : reads d (string_text s).
Proof.
  split; [by exists c_dquote, (json_escape s ++ [c_dquote])|]. exists 1. intros [|fuel] rest Hf _; [lia|]. destruct (json_string_roundtrip s rest) as [H _].
  unfold string_text, appendJSONString in *. cbn [app] in *. cbn [skip_json ws]. change (is_ws c_dquote) with false. cbn iota. cbn [skip_json rawString] in *.
  change (c_dquote =? c_lbrace)%N with false. change (c_dquote =? c_lbrack)%N with false. cbn iota. unfold skip_scalar. rewrite N.eqb_refl in *. by rewrite H.
Qed.
Lemma string_any s : utf8_valid s = true → any_of (string_text s) = AnyString s.
Proof.
  intros Hv. unfold any_of, string_text, appendJSONString. cbn [app]. rewrite N.eqb_refl. rewrite removelast_last. by rewrite (proj2 (proj2 (json_string_roundtrip s []))).
Qed.
Lemma word_reads d w : w ∈ [$"true"; $"false"] → reads d w.
Proof.
  rewrite !elem_of_cons, elem_of_nil. intros [->|[->|[]]]; (split; [eexists _, _; split_and!; [reflexivity|done..]|exists 1; intros [|fuel] rest Hf _; [lia|reflexivity]]).
Qed.
Lemma decimal_head neg ds fs : int_form ds → ∃ c t, decimal_string neg ds fs = c :: t ∧ (c = c_minus ∨ is_digit c = true).
Proof.
  intros [Hd Hi]. unfold decimal_string. destruct neg; [eexists _, _; split; [done|by left]|]. destruct ds as [|c ds]; [by destruct Hi as [|(? & ? & ? & _)]|].
  apply Forall_cons in Hd as [Hc _]. cbn [app]. eexists _, _. split; [done|by right].
Qed.
Lemma digit_head c t : c = c_minus ∨ is_digit c = true → starts (c :: t) ∧ c ≠ c_lbrace ∧ c ≠ c_lbrack ∧ c ≠ c_dquote ∧ c ≠ c_lowT ∧ c ≠ c_lowF ∧ c ≠ c_lowN.
Proof.
  intros Hc. assert (c = c_minus ∨ 48 <= c <= 57)%N as Hc' by (destruct Hc as [|H%is_digit_range]; [by left|lia]).
  split; [|lia]. exists c, t. split_and!; try done; [|lia..]. unfold is_ws. apply bool_decide_eq_false. rewrite !elem_of_cons, elem_of_nil. lia.
Qed.
Lemma skip_number_decimal neg ds fs rest : int_form ds → digits fs → value_stop rest → skip_number (decimal_string neg ds fs ++ rest) = Some rest.
Proof.
  intros Hi Hf Hr. assert (skip_number (decimal_string neg ds fs ++ rest) = s1 ← valid_int (ds ++ frac_tail fs ++ rest); s2 ← valid_frac s1; valid_exp s2) as ->.
  { unfold skip_number, decimal_string, frac_tail. destruct neg; [cbn [app]; change (c_minus =? c_minus)%N with true; cbn iota; by rewrite <-app_assoc|].
    cbn [app]. rewrite <-app_assoc. destruct (decimal_head false ds fs Hi) as (c & t & E & Hc). unfold decimal_string in E. cbn [app] in E.
    destruct ds as [|d ds]; [by destruct Hi as [_ [|(? & ? & ? & _)]]|]. cbn [app] in *. injection E as -> _. destruct Hi as [Hd _]. apply Forall_cons in Hd as [Hd%is_digit_range _]. by rewrite (proj2 (N.eqb_neq c c_minus)) by lia. }
  assert (not_digit_head rest) as Hnd by (destruct rest; [done|by destruct Hr]).
  pose proof (valid_int_scan (ds ++ frac_tail fs ++ rest)) as Hv. rewrite scan_int_build in Hv; [|done|destruct fs; [by destruct rest|done]]. rewrite Hv. cbn [mbind option_bind].
  rewrite valid_frac_scan. assert (scan_frac (frac_tail fs ++ rest) = Some (fs, rest)) as ->.
  { destruct fs as [|f fs]; cbn [frac_tail app scan_frac].
    - destruct rest as [|c rest]; [done|]. destruct Hr as (_ & Hdot & _). cbn [scan_frac]. by rewrite (proj2 (N.eqb_neq _ _) Hdot).
    - rewrite N.eqb_refl. change (f :: fs ++ rest) with ((f :: fs) ++ rest). by rewrite span_digits_app. }
  cbn [fmap option_fmap option_map snd mbind option_bind]. rewrite valid_exp_scan. destruct rest as [|c rest]; [done|]. destruct Hr as (_ & _ & He & HE).
  cbn [scan_exp]. by rewrite (proj2 (N.eqb_neq _ _) He), (proj2 (N.eqb_neq _ _) HE).
Qed.
Lemma number_reads d c : number_form c → reads d c ∧ any_of c = AnyNumber c.
Proof.
  intros (neg & ds & fs & -> & Hi & Hf)%number_form_text. destruct (decimal_head neg ds fs Hi) as (c & t & E & Hc). destruct (digit_head c t Hc) as (Hs & H1 & H2 & H3 & H4 & H5 & H6). split; [split; [by rewrite E|]|].
  - exists 1. intros [|fuel] rest Hfu Hr; [lia|]. pose proof (skip_number_decimal neg ds fs rest Hi Hf Hr) as Hn. cbn [skip_json]. rewrite starts_ws by (by rewrite E). rewrite E in *. cbn [app] in *.
    rewrite (proj2 (N.eqb_neq _ _) H1), (proj2 (N.eqb_neq _ _) H2). unfold skip_scalar.
    by rewrite (proj2 (N.eqb_neq _ _) H3), (proj2 (N.eqb_neq _ _) H4), (proj2 (N.eqb_neq _ _) H5), (proj2 (N.eqb_neq _ _) H6).
  - rewrite E. unfold any_of. by rewrite (proj2 (N.eqb_neq _ _) H1), (proj2 (N.eqb_neq _ _) H2), (proj2 (N.eqb_neq _ _) H3), (proj2 (N.eqb_neq _ _) H4), (proj2 (N.eqb_neq _ _) H5), (proj2 (N.eqb_neq _ _) H6).
Qed.

Definition scalar_ok (s : filterScalar) : Prop :=
  match kind s with
  | filterFalse | filterTrue => value s = [] ∧ clean s = false
  | filterNumber => number_form (value s) ∧ clean s = false
  | filterString => utf8_valid (value s) = true ∧ rune_count (value s) ≤ maxFilterValueRunes ∧ clean s = cleanASCII (value s)
  end.
Definition scalar_text (s : filterScalar) : bytes := appendFilterScalar [] s.
Lemma appendFilterScalar_app dst s : appendFilterScalar dst s = dst ++ scalar_text s.
Proof. unfold scalar_text, appendFilterScalar. by destruct (kind s). Qed.

Lemma scalar_reads d s : scalar_ok s → reads d (scalar_text s).
Proof.
  unfold scalar_ok, scalar_text, appendFilterScalar. destruct (kind s); intros H.
  - apply word_reads. rewrite !elem_of_cons. by auto.
  - apply word_reads. rewrite !elem_of_cons. by auto.
  - destruct H as [H _]. by apply number_reads.
  - apply string_reads.
Qed.
Lemma scalar_any s : scalar_ok s → any_of (scalar_text s) = match kind s with
  | filterFalse => AnyBool false | filterTrue => AnyBool true | filterNumber => AnyNumber (value s) | filterString => AnyString (value s) end.
Proof.
  unfold scalar_ok, scalar_text, appendFilterScalar. destruct (kind s); intros H; [done|done| |].
  - destruct H as [H _]. by apply (number_reads 0).
  - destruct H as [H _]. by apply string_any.
Qed.
Lemma DecodeAny_reads x : reads 0 x → DecodeAny (NewDecoder x true) = Ok (any_of x, NewDecoder [] true).
Proof.
  intros Hx. unfold DecodeAny, NewDecoder. rewrite <-(app_nil_r x) at 1. rewrite DecodeRaw_reads by done. cbn [mbind result_bind]. by destruct (any_of x).
Qed.
(** What a scalar's text parses to: the scalar. *)
Lemma scalar_eta s k v c : kind s = k → value s = v → clean s = c → mkScalar k v c = s.
Proof. destruct s. cbn. by intros -> -> ->. Qed.
Lemma parse_number_ok name s : kind s = filterNumber → scalar_ok s → parse_number name (value s) = Ok s.
Proof. intros Hk H. unfold scalar_ok in H. rewrite Hk in H. destruct H as [H Hc]. unfold parse_number. rewrite number_form_fix by done. f_equal. by apply scalar_eta. Qed.
Lemma parseTypedScalar_text name s : scalar_ok s → parseTypedScalar name (scalar_text s) = Ok s.
Proof.
  intros Hs. unfold parseTypedScalar. rewrite DecodeAny_reads by (by apply scalar_reads). rewrite scalar_any by done. pose proof Hs as H. unfold scalar_ok in H. destruct (kind s) eqn:Hk.
  - f_equal. destruct H. by apply scalar_eta.
  - f_equal. destruct H. by apply scalar_eta.
  - by apply parse_number_ok.
  - destruct H as (_ & Hl & Hc). rewrite (proj2 (Nat.ltb_ge _ _)) by done. f_equal. by apply scalar_eta.
Qed.
Lemma parse_number_form name tok s : parse_number name tok = Ok s → scalar_ok s ∧ kind s = filterNumber.
Proof.
  unfold parse_number. destruct (canonicalNumberToken tok true) as [[c|]|] eqn:E; [|done..]. intros [= <-]. split; [|done]. split; [by eapply canonical_number_form|done].
Qed.
Lemma parse_bool_ok b : scalar_ok (parse_bool b).
Proof. by destruct b. Qed.

(** Decoded strings are valid. *)
Lemma skip_json_string fuel depth t rest : skip_json fuel depth (c_dquote :: t) = Some rest → ∃ inner, raw_inner t = Some (inner, rest) ∧ t = inner ++ c_dquote :: rest.
Proof.
  destruct fuel as [|fuel]; [done|]. cbn [skip_json ws]. change (is_ws c_dquote) with false. cbn iota. change (c_dquote =? c_lbrace)%N with false. change (c_dquote =? c_lbrack)%N with false. cbn iota.
  unfold skip_scalar. rewrite N.eqb_refl. destruct (raw_inner t) as [[inner r]|] eqn:E; [|done]. cbn. intros [= ->]. exists inner. split; [done|].
  clear fuel depth. revert inner rest E. induction t as [[|c s] IH] using list_len_ind; intros inner rest; [done|]. cbn [raw_inner].
  destruct (N.eqb_spec c c_dquote) as [->|_]; [by intros [= <- <-]|]. destruct (c =? c_backslash)%N.
  - destruct s as [|e s]; [done|]. case_bool_decide.
    + destruct (raw_inner s) as [[i r]|] eqn:E; [|done]. intros [= <- <-]. cbn [app]. do 2 f_equal. apply IH; [simpl; lia|done].
    + destruct (e =? c_lowU)%N; [|done]. destruct s as [|h1 [|h2 [|h3 [|h4 s]]]]; try done. destruct (_ && _); [|done].
      destruct (raw_inner s) as [[i r]|] eqn:E; [|done]. intros [= <- <-]. cbn [app]. do 6 f_equal. apply IH; [simpl; lia|done].
  - destruct (c <? 32)%N; [done|]. destruct (raw_inner s) as [[i r]|] eqn:E; [|done]. intros [= <- <-]. cbn [app]. f_equal. apply IH; [simpl; lia|done].
Qed.
Lemma readValue_string s raw rest x : readValue s = Ok (raw, rest) → any_of raw = AnyString x → utf8_valid x = true.
Proof.
  unfold readValue. destruct (ws s) as [|c t]; [done|]. destruct (skip_json _ _ _) as [r|] eqn:E; [|done]. intros [= <- <-].
  pose proof (proj1 (skip_shorter _) _ _ _ E) as Hl. destruct (N.eq_dec c c_dquote) as [->|Hc].
  - apply skip_json_string in E as (inner & Hi & ->). cbn [length] in *. rewrite length_app in *. cbn [length] in *.
    replace (S (length inner + S (length r)) - length r) with (S (S (length inner))) by lia. cbn [take]. rewrite cons_middle, app_assoc, take_app_length' by (rewrite length_app; simpl; lia).
    unfold any_of. rewrite N.eqb_refl, removelast_last. intros [= <-]. by eapply string_valid.
  - cbn [length] in *. destruct (S (length t) - length r) as [|k] eqn:Ek; [lia|]. cbn [take]. unfold any_of. rewrite (proj2 (N.eqb_neq _ _) Hc). repeat case_match; done.
Qed.
Lemma DecodeAny_string d x d' : DecodeAny d = Ok (AnyString x, d') → utf8_valid x = true.
Proof.
  unfold DecodeAny, DecodeRaw. destruct (tokenPrepareForDecode d) as [d1|]; [|done]. cbn [mbind result_bind]. destruct (negb (tokenValueAllowed _)); cbn [mbind result_bind]; [done|].
  destruct (readValue (d_rest d1)) as [[raw rest]|] eqn:E; [|done]. cbn [mbind result_bind]. destruct (any_of raw) eqn:Ea; try done; [|by destruct (_ && _)]. intros [= -> _]. by eapply readValue_string.
Qed.
Lemma parseTypedScalar_ok name raw s : parseTypedScalar name raw = Ok s → scalar_ok s.
Proof.
  unfold parseTypedScalar. destruct (DecodeAny _) as [[v d]|] eqn:E; [|done]. destruct v as [x|b|tok| | |]; try done.
  - destruct (Nat.ltb_spec maxFilterValueRunes (rune_count x)); [done|]. intros [= <-]. split_and!; cbn; [by eapply DecodeAny_string|done|done].
  - intros [= <-]. apply parse_bool_ok.
  - intros H. by apply parse_number_form in H as [? _].
Qed.

(** ** The order of the alternatives *)

Lemma number_form_canonical c : number_form c → ∃ neg ds fs, canonical_form c neg ds fs.
Proof.
  intros H. pose proof (number_form_fix c H) as E. apply request_number in E as (Hl & E & _).
  assert (∃ n, scan_number c = Some n) as [n Hn] by (unfold canonicalNumberToken in E; cbn [andb] in E; destruct (scan_number c); [by eexists|done]).
  assert (length c ≤ token_limit) as Hlim by (apply token_limit_Z; unfold maxTypedFilterNumberBytes in Hl; lia).
  destruct (canonical_value_ok c n c Hn Hlim E) as (neg & ds & fs & Hf & _). by exists neg, ds, fs.
Qed.
Definition number_value (c : bytes) : Q := match scan_number c with Some n => num_value n | None => 0 end.
Lemma number_compare c1 c2 : number_form c1 → number_form c2 →
  (compareCanonicalNumbers c1 c2 ?= 0)%Z = (number_value c1 ?= number_value c2)%Q ∧ ((number_value c1 == number_value c2)%Q → c1 = c2).
Proof.
  intros F1 F2. destruct (number_form_canonical _ F1) as (n1 & d1 & f1 & H1), (number_form_canonical _ F2) as (n2 & d2 & f2 & H2). unfold number_value.
  destruct (canonical_form_scan _ _ _ _ H1) as (m1 & -> & ->), (canonical_form_scan _ _ _ _ H2) as (m2 & -> & ->). split; [by apply canonical_compare|by apply canonical_inj].
Qed.

(** The order: by kind, then by value. *)
Definition scalar_lt (a b : filterScalar) : Prop :=
  (kind_rank (kind a) < kind_rank (kind b))%Z ∨
  (kind a = filterNumber ∧ kind b = filterNumber ∧ (number_value (value a) < number_value (value b))%Q) ∨
  (kind a = filterString ∧ kind b = filterString ∧ bytes_lt (value a) (value b)).
Lemma compare_strings_spec a b : ((compare_strings a b <? 0)%Z = true ↔ bytes_lt a b) ∧ ((compare_strings a b =? 0)%Z = true ↔ a = b).
Proof.
  unfold compare_strings, bytes_lt. pose proof (bytes_compare_eq a b) as He. destruct (bytes_compare a b) eqn:E; split; (split; [|]); try done.
  - intros _. by apply He.
  - intros H. apply He in H. congruence.
  - intros H. apply He in H. congruence.
Qed.
Lemma scalar_compare a b : scalar_ok a → scalar_ok b →
  ((compareFilterScalar a b <? 0)%Z = true ↔ scalar_lt a b) ∧ ((compareFilterScalar a b =? 0)%Z = true ↔ a = b).
Proof.
  intros Ha Hb. unfold compareFilterScalar, scalar_lt. case_bool_decide as Hk; cbn [negb].
  - rewrite <-Hk. unfold scalar_ok in *. rewrite <-Hk in Hb. destruct (kind a) eqn:Ea; cbn [kind_rank].
    1,2: split; [split; [done|intros [?|[(? & _)|(? & _)]]; [lia|done|done]]|split; [intros _|done]]; destruct Ha, Hb; destruct a, b; cbn in *; congruence.
    + destruct Ha as [Ha Hca], Hb as [Hb Hcb]. destruct (number_compare _ _ Ha Hb) as [Hc Hinj]. split.
      * rewrite Z.ltb_lt. rewrite <-Z.compare_lt_iff, Hc, <-Qlt_alt. split; [by right; left|]. intros [?|[(_ & _ & ?)|(? & _)]]; [lia|done|done].
      * rewrite Z.eqb_eq. rewrite <-Z.compare_eq_iff, Hc, <-Qeq_alt. split; [|by intros ->]. intros Hv%Hinj. destruct a, b; cbn in *; congruence.
    + destruct Ha as (_ & _ & Hca), Hb as (_ & _ & Hcb). destruct (compare_strings_spec (value a) (value b)) as [H1 H2]. rewrite H1, H2. split.
      * split; [by right; right|]. intros [?|[(? & _)|(_ & _ & ?)]]; [lia|done|done].
      * split; [|by intros ->]. intros Hv. destruct a, b; cbn in *; congruence.
  - split.
    + rewrite Z.ltb_lt. split; [left; lia|]. intros [?|[(? & ? & _)|(? & ? & _)]]; [lia|congruence..].
    + rewrite Z.eqb_eq. split; [|by intros ->]. intros H. destruct Hk. destruct (kind a), (kind b); done.
Qed.
Lemma scalar_lt_trans a b c : scalar_lt a b → scalar_lt b c → scalar_lt a c.
Proof.
  unfold scalar_lt. intros [H1|[(A1 & A2 & A3)|(A1 & A2 & A3)]] [H2|[(B1 & B2 & B3)|(B1 & B2 & B3)]].
  - left; lia.
  - left. rewrite B1 in H1. by rewrite B2.
  - left. rewrite B1 in H1. by rewrite B2.
  - left. rewrite A2 in H2. by rewrite A1.
  - right; left. split_and!; [done..|]. by eapply Qlt_trans.
  - congruence.
  - left. rewrite A2 in H2. by rewrite A1.
  - congruence.
  - right; right. split_and!; [done..|]. by etrans.
Qed.
Lemma scalar_lt_irrefl a : ¬ scalar_lt a a.
Proof. intros [?|[(_ & _ & H)|(_ & _ & H)]]; [lia|by apply Qlt_irrefl in H|by apply irreflexivity in H; [|apply _]]. Qed.
Lemma scalar_total a b : scalar_ok a → scalar_ok b → scalar_lt a b ∨ a = b ∨ scalar_lt b a.
Proof.
  intros Ha Hb. destruct (scalar_compare a b Ha Hb) as [H1 H2]. destruct (Z.lt_trichotomy (compareFilterScalar a b) 0) as [H|[H|H]]; [left; apply H1; lia|right; left; apply H2; lia|].
  right; right. clear H1 H2. unfold compareFilterScalar, scalar_lt in *. case_bool_decide as Hk; cbn [negb] in *; [|left; lia]. right. unfold scalar_ok in *. rewrite <-Hk in *. destruct (kind a); [lia|lia|left|right]; split_and!; try done.
  - destruct (number_compare (value a) (value b)) as [Hc _]; [by destruct Ha|by destruct Hb|]. apply Qgt_alt. rewrite <-Hc. by apply Z.compare_gt_iff.
  - unfold compare_strings in H. destruct (bytes_compare (value a) (value b)) eqn:E; [lia|lia|]. unfold bytes_lt. rewrite bytes_compare_antisym, E. done.
Qed.
Definition scalar_less (a b : filterScalar) : bool := (compareFilterScalar a b <? 0)%Z.
Lemma scalar_less_weak : strict_weak_on scalar_ok scalar_less.
Proof.
  assert (∀ a b, scalar_ok a → scalar_ok b → (scalar_less a b = true ↔ scalar_lt a b)) as E by (intros a b Ha Hb; by apply scalar_compare).
  assert (∀ a b, scalar_ok a → scalar_ok b → (scalar_less a b = false ↔ ¬ scalar_lt a b)) as F by (intros a b Ha Hb; rewrite <-E by done; by destruct (scalar_less a b)).
  split_and!.
  - intros a Ha. apply F; [done..|]. apply scalar_lt_irrefl.
  - intros a b c Ha Hb Hc. rewrite !Is_true_true, !E by done. apply scalar_lt_trans.
  - intros a b c Ha Hb Hc. rewrite !F by done. intros H1 H2 H3. destruct (scalar_total a b Ha Hb) as [H|[->|H]]; [|done|done].
    destruct (scalar_total b c Hb Hc) as [G|[->|G]]; [|done|done]. by eapply scalar_lt_irrefl, scalar_lt_trans, scalar_lt_trans.
Qed.

(** ** The set of alternatives *)

Definition value_ok (v : filterValue) : Prop :=
  (in_set v = false ∧ ∃ s, scalars v = [s] ∧ scalar_ok s) ∨
  (in_set v = true ∧ 2 ≤ length (scalars v) ≤ maxTypedFilterAlternatives ∧ Forall scalar_ok (scalars v) ∧ StronglySorted scalar_lt (scalars v)).

Lemma dedup_sorted l : ∀ acc, Forall scalar_ok acc → Forall scalar_ok l → StronglySorted scalar_lt acc →
  StronglySorted (λ a b, scalar_less b a = false) l → (∀ x y, x ∈ acc → y ∈ l → scalar_less y x = false) →
  let out := foldl dedup_step acc l in
  Forall scalar_ok out ∧ StronglySorted scalar_lt out ∧ length out ≤ length acc + length l ∧ (acc ≠ [] ∨ l ≠ [] → out ≠ []).
Proof.
  induction l as [|y l IH]; intros acc Ha Hl Hs Hsl Hal; cbn [foldl]; [split_and!; [done|done|lia|by intros [|]]|].
  apply Forall_cons in Hl as [Hy Hl]. apply StronglySorted_inv in Hsl as [Hsl Hyl].
  assert (dedup_step acc y = acc ∧ acc ≠ [] ∨ dedup_step acc y = acc ++ [y] ∧ ∀ x, x ∈ acc → scalar_lt x y) as Hd.
  { unfold dedup_step. destruct (last acc) as [z|] eqn:Ez; [|right; apply last_None in Ez as ->; split; [done|by intros x ?%elem_of_nil]].
    apply last_Some in Ez as [acc' ->]. apply Forall_app in Ha as [Ha' Hz]. apply Forall_cons in Hz as [Hz _].
    destruct (scalar_compare z y Hz Hy) as [Hlt Heq]. destruct (compareFilterScalar z y =? 0)%Z eqn:E; [left; split; [done|by destruct acc']|right; split; [done|]].
    assert (scalar_lt z y) as Hzy.
    { destruct (scalar_total z y Hz Hy) as [|[->|Hyz]]; [done|specialize (proj2 Heq eq_refl); congruence|]. apply (proj1 (scalar_compare y z Hy Hz)) in Hyz.
      specialize (Hal z y ltac:(apply elem_of_app; right; by left) ltac:(by left)). unfold scalar_less in Hal. congruence. }
    intros x [Hx|[->|[]%elem_of_nil]%elem_of_cons]%elem_of_app; [|done]. eapply scalar_lt_trans; [|exact Hzy].
    apply (StronglySorted_app_1_elem_of _ _ _ _ _ Hs); [done|by left]. }
  assert (∀ a b, scalar_ok a → scalar_ok b → scalar_lt a b → scalar_less b a = false) as Hless.
  { intros a b Hoa Hob Hab. destruct (scalar_less b a) eqn:E; [|done]. apply (scalar_compare b a Hob Hoa) in E. exfalso. by eapply scalar_lt_irrefl, scalar_lt_trans. }
  destruct Hd as [[-> Hne]|[-> Hlt]].
  - destruct (IH acc) as (H1 & H2 & H3 & H4); try done; [intros x z Hx Hz; apply Hal; [done|by right]|]. split_and!; [done|done|simpl in *; lia|intros _; apply H4; by left].
  - destruct (IH (acc ++ [y])) as (H1 & H2 & H3 & H4); try done.
    + apply Forall_app. by split; [|constructor].
    + apply StronglySorted_app_2; [|done|by repeat constructor]. intros a b Ha' [->|[]%elem_of_nil]%elem_of_cons. by apply Hlt.
    + intros x z [Hx|[->|[]%elem_of_nil]%elem_of_cons]%elem_of_app Hz; [apply Hal; [done|by right]|]. rewrite Forall_forall in Hyl. by apply Hyl.
    + split_and!; [done|done|rewrite length_app in H3; simpl in *; lia|intros _; apply H4; left; by destruct acc].
Qed.
Lemma dedup_strict l : ∀ acc, Forall scalar_ok (acc ++ l) → StronglySorted scalar_lt (acc ++ l) → foldl dedup_step acc l = acc ++ l.
Proof.
  induction l as [|y l IH]; intros acc Ho Hs; cbn [foldl]; [by rewrite app_nil_r|].
  assert (dedup_step acc y = acc ++ [y]) as ->; [|rewrite (IH (acc ++ [y])) by (by rewrite <-app_assoc); by rewrite <-app_assoc].
  unfold dedup_step. destruct (last acc) as [z|] eqn:Ez; [|by apply last_None in Ez as ->]. apply last_Some in Ez as [acc' ->].
  assert (scalar_lt z y) as Hzy by (apply (StronglySorted_app_1_elem_of _ _ _ _ _ Hs); [apply elem_of_app; right; by left|by left]).
  rewrite Forall_forall in Ho. assert (scalar_ok z ∧ scalar_ok y) as [Hz Hy] by (split; apply Ho; rewrite !elem_of_app, ?elem_of_cons; auto).
  destruct (compareFilterScalar z y =? 0)%Z eqn:E; [|done]. apply (scalar_compare z y) in E as ->; [|done..]. by apply scalar_lt_irrefl in Hzy.
Qed.

Section runtime.
Context `{GoRuntime}.

Lemma canonical_in_ok alts : alts ≠ [] → length alts ≤ maxTypedFilterAlternatives → Forall scalar_ok alts → value_ok (canonical_in alts).
Proof.
  intros Hne Hl Ho. unfold canonical_in. change (λ a b, compareFilterScalar a b <? 0)%Z with scalar_less. set (l := sort_slice scalar_less alts).
  pose proof (sort_slice_perm _ scalar_less alts) as Hp. fold l in Hp.
  destruct (dedup_sorted l []) as (H1 & H2 & H3 & H4).
  - done.
  - by rewrite Hp.
  - constructor.
  - apply sort_slice_sorted_on. eapply strict_weak_sub; [exact scalar_less_weak|]. intros x Hx. rewrite Forall_forall in Ho. by apply Ho.
  - by intros x y ?%elem_of_nil.
  - assert (foldl dedup_step [] l ≠ []) as Hout by (apply H4; right; intros E; rewrite E in Hp; symmetry in Hp; by apply Permutation_nil_r in Hp).
    assert (length l = length alts) as Hll by (by rewrite Hp). destruct (Nat.eqb_spec (length (foldl dedup_step [] l)) 1) as [E|E].
    + left. split; [done|]. cbn [scalars]. destruct (foldl dedup_step [] l) as [|s [|]]; try done. exists s. split; [done|]. by apply Forall_cons in H1 as [? _].
    + right. cbn [scalars]. split_and!; [done| |simpl in H3; lia|done|done]. destruct (foldl dedup_step [] l) as [|s [|]]; try done. simpl. lia.
Qed.
Lemma canonical_in_fix v : value_ok v → in_set v = true → canonical_in (scalars v) = v.
Proof.
  intros [[Hv _]|(_ & [Hl _] & Ho & Hs)] Hv'; [congruence|]. unfold canonical_in. change (λ a b, compareFilterScalar a b <? 0)%Z with scalar_less.
  assert (sort_slice scalar_less (scalars v) = scalars v) as ->.
  { assert (∀ a b, a ∈ scalars v → b ∈ scalars v → scalar_ok a ∧ scalar_ok b) as Hok by (intros a b Ha Hb; rewrite Forall_forall in Ho; by split; apply Ho).
    eapply (StronglySorted_unique_strong (λ a b, scalar_less b a = false)).
    - intros a b Ha Hb Hab Hba. rewrite sort_slice_perm in Ha. destruct (Hok a b Ha ltac:(by rewrite ?sort_slice_perm in Hb)) as [Hoa Hob]. destruct (scalar_total a b Hoa Hob) as [Hx|[->|Hx]]; [|done|].
      + apply (scalar_compare a b Hoa Hob) in Hx. unfold scalar_less in Hba. congruence.
      + apply (scalar_compare b a Hob Hoa) in Hx. unfold scalar_less in Hab. congruence.
    - apply sort_slice_sorted_on. eapply strict_weak_sub; [exact scalar_less_weak|]. intros x Hx. rewrite Forall_forall in Ho. by apply Ho.
    - clear -Hs Ho. induction Hs as [|x l Hs IH Hx]; [constructor|]. apply Forall_cons in Ho as [Hox Ho]. constructor; [by apply IH|]. rewrite Forall_forall in *. intros y Hy.
      destruct (scalar_less y x) eqn:E; [|done]. apply (scalar_compare y x) in E; [|by apply Ho|done]. exfalso. eapply scalar_lt_irrefl, scalar_lt_trans; [exact E|by apply Hx].
    - apply sort_slice_perm. }
  rewrite dedup_strict by done. cbn [app]. destruct (Nat.eqb_spec (length (scalars v)) 1); [lia|]. destruct v. cbn in *. by subst.
Qed.
End runtime.

(** ** Text of values and terms *)

(** A list of values, separated by commas. *)
Definition tail_text (xs : list bytes) : bytes := xs ≫= λ x, c_comma :: x.
Definition items_text (xs : list bytes) : bytes := match xs with [] => [] | x :: xs => x ++ tail_text xs end.
Definition in_name : bytes := $"in".
Definition value_text (v : filterValue) : bytes :=
  let items := items_text (scalar_text <$> scalars v) in
  if in_set v then c_lbrace :: string_text in_name ++ c_colon :: c_lbrack :: items ++ [c_rbrack; c_rbrace] else items.
Definition term_text (t : typedFilterTerm) : bytes := string_text (tf_name t) ++ c_colon :: value_text (tf_value t).
Definition filter_text (ts : list typedFilterTerm) : bytes := c_lbrace :: items_text (term_text <$> ts) ++ [c_rbrace].

Lemma tail_text_cons x xs : tail_text (x :: xs) = c_comma :: x ++ tail_text xs.
Proof. done. Qed.
Lemma tail_stop xs close rest : close = c_rbrack ∨ close = c_rbrace → value_stop (tail_text xs ++ close :: rest).
Proof. destruct xs as [|x xs]; [by intros [->| ->]|done]. Qed.
Lemma skip_items_text d xs : ∀ x, reads d x → Forall (reads d) xs → ∃ n, ∀ fuel rest, n ≤ fuel → skip_items fuel d (x ++ tail_text xs ++ c_rbrack :: rest) = Some rest.
Proof.
  induction xs as [|y xs IH]; intros x Hx Hxs; pose proof Hx as [_ (n & Hn)].
  - exists (S n). intros [|fuel] rest Hf; [lia|]. cbn [skip_items]. rewrite Hn by (lia || done). done.
  - apply Forall_cons in Hxs as [Hy Hxs]. destruct (IH y Hy Hxs) as (m & Hm). exists (S (n + m)). intros [|fuel] rest Hf; [lia|]. cbn [skip_items].
    rewrite Hn by (lia || apply (tail_stop (y :: xs)); by left). cbn [mbind option_bind]. rewrite tail_text_cons. cbn [app ws]. change (is_ws c_comma) with false. cbn iota. rewrite N.eqb_refl.
    rewrite <-app_assoc. apply Hm. lia.
Qed.
Lemma eat_starts c x rest : starts x → c = c_rbrack ∨ c = c_rbrace → eat c (x ++ rest) = None.
Proof. intros (a & t & -> & _ & H1 & H2 & _) Hc. cbn. by rewrite (proj2 (N.eqb_neq _ _)) by (destruct Hc as [->| ->]; done). Qed.
Lemma value_reads v : value_ok v → reads 0 (value_text v).
Proof.
  intros [(Hv & s & Hs & Hok)|(Hv & [Hl _] & Ho & _)]; unfold value_text; rewrite Hv.
  - rewrite Hs. cbn [fmap list_fmap items_text tail_text]. unfold tail_text. cbn. rewrite app_nil_r. by apply scalar_reads.
  - destruct (scalars v) as [|s l] eqn:E; [simpl in Hl; lia|]. apply Forall_cons in Ho as [Hs Ho].
    assert (Forall (reads 2) (scalar_text <$> l)) as Hrl by (apply Forall_fmap; eapply Forall_impl; [exact Ho|]; intros z; apply scalar_reads).
    pose proof (scalar_reads 2 s Hs) as Hrs. destruct (skip_items_text 2 (scalar_text <$> l) (scalar_text s) Hrs Hrl) as (n & Hn).
    split; [eexists _, _; split_and!; [reflexivity|done..]|]. exists (4 + n). intros fuel rest Hf _. do 4 (destruct fuel as [|fuel]; [lia|]).
    cbn [app fmap list_fmap]. cbn [skip_json ws]. change (is_ws c_lbrace) with false. cbn iota. change (c_lbrace =? c_lbrace)%N with true. cbn iota. change (maxNestingDepth <=? 0)%N with false. cbn iota.
    rewrite <-!app_assoc. cbn [app]. rewrite starts_ws by apply (string_reads 0). rewrite eat_starts by (apply (string_reads 0) || by right). cbn [skip_pairs].
    rewrite starts_ws by apply (string_reads 0). unfold string_text at 1. rewrite (proj1 (json_string_roundtrip in_name _)). cbn [mbind option_bind ws]. change (is_ws c_colon) with false. cbn iota. cbn [eat]. rewrite N.eqb_refl. cbn [mbind option_bind].
    cbn [skip_json ws]. change (is_ws c_lbrack) with false. cbn iota. change (c_lbrack =? c_lbrace)%N with false. change (c_lbrack =? c_lbrack)%N with true. cbn iota. change (maxNestingDepth <=? 0 + 1)%N with false. cbn iota.
    unfold items_text. rewrite <-!app_assoc. rewrite starts_ws by apply Hrs. rewrite eat_starts by (apply Hrs || by left). change (0 + 1 + 1)%N with 2%N. cbn [app]. rewrite Hn by lia. cbn [mbind option_bind ws]. change (is_ws c_rbrace) with false. cbn iota.
    change (c_rbrace =? c_comma)%N with false. by rewrite N.eqb_refl.
Qed.

(** ** [finishTypedFilter] writes that text *)

Lemma finish_scalars l : ∀ i buf a b, 0 < i →
  (foldl finish_scalar (buf, a, b) (imap (λ j s, (i + j, s)) l)).1.1 = buf ++ tail_text (scalar_text <$> l).
Proof.
  induction l as [|s l IH]; intros i buf a b Hi; cbn [imap foldl]; [by rewrite app_nil_r|]. rewrite Nat.add_0_r. cbn [finish_scalar]. rewrite (proj2 (Nat.ltb_lt 0 i)) by done.
  erewrite imap_ext; [|intros j x _; cbn; rewrite <-Nat.add_succ_comm; reflexivity]. rewrite IH by lia. rewrite appendFilterScalar_app. cbn [fmap list_fmap]. rewrite tail_text_cons. by rewrite <-!app_assoc.
Qed.
Lemma finish_scalars_text l buf a b : (foldl finish_scalar (buf, a, b) (imap pair l)).1.1 = buf ++ items_text (scalar_text <$> l).
Proof.
  destruct l as [|s l]; cbn [imap foldl]; [by rewrite app_nil_r|]. cbn [finish_scalar]. change (0 <? 0) with false. cbn iota.
  erewrite imap_ext; [|intros j x _; cbn; change (S j) with (1 + j); reflexivity]. rewrite finish_scalars by lia. rewrite appendFilterScalar_app. cbn [fmap list_fmap items_text]. by rewrite <-app_assoc.
Qed.
Lemma finish_term_text i t st : (finish_term st (i, t)).1.1 = st.1.1 ++ (if 0 <? i then [c_comma] else []) ++ term_text t.
Proof.
  destruct st as [[buf a] b]. cbn [finish_term fst snd]. set (buf0 := if 0 <? i then buf ++ [c_comma] else buf).
  assert (buf0 = buf ++ if 0 <? i then [c_comma] else []) as -> by (unfold buf0; destruct (0 <? i); [done|by rewrite app_nil_r]). rewrite appendJSONString_app. unfold term_text, value_text.
  destruct (foldl finish_scalar _ _) as [[buf1 a1] b1] eqn:E. cbn [fst snd]. pose proof (f_equal (λ x, x.1.1) E) as E1. cbn beta in E1. rewrite finish_scalars_text in E1. cbn [fst] in E1. rewrite <-E1.
  assert ($"{" ++ [c_dquote; 105; 110; c_dquote]%N ++ $":[" = c_lbrace :: string_text in_name ++ [c_colon; c_lbrack]) as -> by (vm_compute; reflexivity).
  change ($"]}") with [c_rbrack; c_rbrace]. generalize (if 0 <? i then [c_comma] else [] : bytes). intros sep. generalize (string_text (tf_name t)), (string_text in_name). intros nm inn.
  destruct (in_set (tf_value t)); rewrite <-!app_assoc; cbn [app]; [|done]. by rewrite <-!app_assoc.
Qed.
Lemma finish_terms l : ∀ i st, 0 < i → (foldl finish_term st (imap (λ j s, (i + j, s)) l)).1.1 = st.1.1 ++ tail_text (term_text <$> l).
Proof.
  induction l as [|t l IH]; intros i st Hi; cbn [imap foldl]; [by rewrite app_nil_r|]. rewrite Nat.add_0_r.
  erewrite imap_ext; [|intros j x _; cbn; rewrite <-Nat.add_succ_comm; reflexivity]. rewrite IH by lia. rewrite finish_term_text, (proj2 (Nat.ltb_lt 0 i)) by done. cbn [fmap list_fmap]. rewrite tail_text_cons. by rewrite <-!app_assoc.
Qed.
Lemma finish_text ts f : finishTypedFilter (mkFilter ts [] 0 0) = Ok f → tf_terms f = ts ∧ canonical f = filter_text ts ∧ length (canonical f) ≤ maxTypedFilterCanonical.
Proof.
  unfold finishTypedFilter. cbn [tf_terms alternatives scalarBytes]. destruct (foldl finish_term _ _) as [[buf a] b] eqn:E. destruct (Nat.ltb_spec maxTypedFilterCanonical (length (buf ++ [c_rbrace]))); [done|].
  intros [= <-]. cbn [tf_terms canonical]. split_and!; [done| |done]. pose proof (f_equal (λ x, x.1.1) E) as E1. cbn beta in E1. cbn [fst] in E1. rewrite <-E1. unfold filter_text.
  destruct ts as [|t ts]; cbn [imap foldl]; [done|]. erewrite imap_ext; [|intros j x _; cbn; change (S j) with (1 + j); reflexivity]. rewrite finish_terms by lia. rewrite finish_term_text. change (0 <? 0) with false. done.
Qed.

(** ** Parsing the text *)

Definition pair_text (p : bytes * bytes) : bytes := string_text p.1 ++ c_colon :: p.2.
Definition object_text (ps : list (bytes * bytes)) : bytes := c_lbrace :: items_text (pair_text <$> ps) ++ [c_rbrace].
Definition insert_pairs (m : gmap bytes bytes) (ps : list (bytes * bytes)) : gmap bytes bytes := foldl (λ m p, <[p.1:=p.2]> m) m ps.

Lemma list_reads d ss : (d < maxNestingDepth)%N → ss ≠ [] → Forall scalar_ok ss → reads d (c_lbrack :: items_text (scalar_text <$> ss) ++ [c_rbrack]).
Proof.
  intros Hd Hne Ho. destruct ss as [|s l]; [done|]. apply Forall_cons in Ho as [Hs Ho].
  assert (Forall (reads (d + 1)) (scalar_text <$> l)) as Hrl by (apply Forall_fmap; eapply Forall_impl; [exact Ho|]; intros z; apply scalar_reads).
  pose proof (scalar_reads (d + 1) s Hs) as Hrs. destruct (skip_items_text (d + 1) (scalar_text <$> l) (scalar_text s) Hrs Hrl) as (n & Hn).
  split; [eexists _, _; split_and!; [reflexivity|done..]|]. exists (S n). intros [|fuel] rest Hf _; [lia|]. cbn [app skip_json ws]. change (is_ws c_lbrack) with false. cbn iota.
  change (c_lbrack =? c_lbrace)%N with false. change (c_lbrack =? c_lbrack)%N with true. cbn iota. rewrite (proj2 (N.leb_gt _ _) Hd). cbn [fmap list_fmap items_text].
  rewrite <-!app_assoc. rewrite starts_ws by apply Hrs. rewrite eat_starts by (apply Hrs || by left). cbn [app]. apply Hn. lia.
Qed.

Lemma more_text x rest st stack un : starts x → More (mkDecoder (x ++ rest) st stack un) = true.
Proof. intros Hx. unfold More. cbn [d_rest]. rewrite starts_ws by done. destruct Hx as (c & t & -> & _ & H1 & H2 & _). cbn [app]. by rewrite (proj2 (N.eqb_neq _ _) H1), (proj2 (N.eqb_neq _ _) H2). Qed.
Lemma token_key k rest st un stack : utf8_valid k = true → st = tokenObjectStart ∨ st = tokenObjectKey → ∀ turns,
  token_loop turns (mkDecoder (string_text k ++ c_colon :: rest) st stack un) = Ok (Scalar (AnyString k), mkDecoder (c_colon :: rest) tokenObjectColon stack un).
Proof.
  intros Hk Hst turns. pose proof (readValue_reads (string_text k) (c_colon :: rest) (string_reads 0 k) ltac:(done)) as Hr.
  assert (ws (string_text k ++ c_colon :: rest) = c_dquote :: (json_escape k ++ [c_dquote]) ++ c_colon :: rest) as Hw by (by rewrite starts_ws by apply (string_reads 0)).
  destruct turns; cbn [token_loop d_rest d_state d_stack d_useNumber]; rewrite Hw; change (c_dquote =? c_lbrack)%N with false; change (c_dquote =? c_rbrack)%N with false; change (c_dquote =? c_lbrace)%N with false;
    change (c_dquote =? c_rbrace)%N with false; change (c_dquote =? c_colon)%N with false; change (c_dquote =? c_comma)%N with false; rewrite N.eqb_refl; cbn iota; rewrite Hr; rewrite string_any by done;
    by destruct Hst as [->| ->].
Qed.
Lemma token_next_key k rest un stack : utf8_valid k = true →
  Token (mkDecoder (c_comma :: string_text k ++ c_colon :: rest) tokenObjectComma stack un) = Ok (Scalar (AnyString k), mkDecoder (c_colon :: rest) tokenObjectColon stack un).
Proof. intros Hk. unfold Token. cbn [token_loop d_rest ws]. change (is_ws c_comma) with false. cbn iota. cbn -[token_loop string_text]. apply (token_key k rest tokenObjectKey un stack Hk (or_intror eq_refl) 0). Qed.

Section parsing.
Context `{GoRuntime}.

Lemma raw_members_text w ps : ∀ fuel entries, length ps < fuel → Forall (λ p, utf8_valid p.1 = true ∧ reads 0 p.2) ps → NoDup ps.*1 → (∀ p, p ∈ ps → entries !! p.1 = None) →
  raw_members fuel w (mkDecoder (tail_text (pair_text <$> ps) ++ [c_rbrace]) tokenObjectComma [tokenTopValue] true) entries ∅ = Ok (insert_pairs entries ps, ∅).
Proof.
  induction ps as [|[k x] ps IH]; intros [|fuel] entries Hf Ho Hnd Hfr; try (simpl in Hf; lia); [done|].
  apply Forall_cons in Ho as [[Hk Hx] Ho]. apply NoDup_cons in Hnd as [Hnin Hnd]. cbn [fmap list_fmap]. rewrite tail_text_cons. unfold pair_text at 1. cbn [fst snd] in *.
  cbn [raw_members]. change (More (mkDecoder ((c_comma :: (string_text k ++ c_colon :: x) ++ tail_text (pair_text <$> ps)) ++ [c_rbrace]) tokenObjectComma [tokenTopValue] true)) with true. cbn iota.
  cbn [app]. rewrite <-!app_assoc. cbn [app]. rewrite token_next_key by done. rewrite DecodeRaw_colon by (first [done|apply (tail_stop (pair_text <$> ps)); by right]).
  rewrite (Hfr (k, x) ltac:(by left) : entries !! k = None). rewrite IH; [done|simpl in Hf; lia|done..|]. intros p Hp. rewrite lookup_insert_ne; [by apply Hfr; right|]. intros ->. apply Hnin. by apply list_elem_of_fmap_2.
Qed.
Lemma rawObject_text w ps : Forall (λ p, utf8_valid p.1 = true ∧ reads 0 p.2) ps → NoDup ps.*1 → rawObject (object_text ps) w = Ok (insert_pairs ∅ ps, ∅).
Proof.
  intros Ho Hnd. unfold rawObject, object_text. change (Token (NewDecoder (c_lbrace :: items_text (pair_text <$> ps) ++ [c_rbrace]) true)) with
    (Ok (E := json_error) (Delim c_lbrace, mkDecoder (items_text (pair_text <$> ps) ++ [c_rbrace]) tokenObjectStart [tokenTopValue] true)). cbn iota. rewrite N.eqb_refl.
  assert (length ps < S (length (c_lbrace :: items_text (pair_text <$> ps) ++ [c_rbrace]))) as Hlen.
  { assert (∀ xs, length xs ≤ length (tail_text xs)) as Ht by (intros xs; induction xs as [|x xs IH]; [done|rewrite tail_text_cons; simpl; rewrite length_app; lia]).
    destruct ps as [|p ps]; [simpl; lia|]. cbn [fmap list_fmap items_text length]. rewrite !length_app. specialize (Ht (pair_text <$> ps)). rewrite length_fmap in Ht. simpl. lia. }
  destruct ps as [|[k x] ps]; [done|]. apply Forall_cons in Ho as [[Hk Hx] Ho]. apply NoDup_cons in Hnd as [Hnin Hnd]. revert Hlen. generalize (length (c_lbrace :: items_text (pair_text <$> (k, x) :: ps) ++ [c_rbrace])).
  intros len Hlen. change (pair_text <$> (k, x) :: ps) with (pair_text (k, x) :: (pair_text <$> ps)). cbn [raw_members items_text]. change (pair_text (k, x)) with (string_text k ++ c_colon :: x). rewrite <-!app_assoc. cbn [app]. rewrite more_text by apply (string_reads 0). unfold Token. rewrite token_key by (done || by left).
  rewrite DecodeRaw_colon by (first [done|apply (tail_stop (pair_text <$> ps)); by right]). rewrite lookup_empty. rewrite raw_members_text; [done|simpl in Hlen; lia|done..|].
  intros p Hp. rewrite lookup_insert_ne; [done|]. intros E. apply Hnin. change (k ∈ ps.*1). rewrite (E : k = p.1). by apply list_elem_of_fmap_2.
Qed.

Lemma in_alternatives_text name ss : ∀ fuel acc, length ss < fuel → length acc + length ss ≤ maxTypedFilterAlternatives → Forall scalar_ok ss →
  in_alternatives fuel name (mkDecoder (tail_text (scalar_text <$> ss) ++ [c_rbrack]) tokenArrayComma [tokenTopValue] true) acc = Ok (acc ++ ss).
Proof.
  induction ss as [|s ss IH]; intros [|fuel] acc Hf Hl Ho; try (simpl in Hf; lia); [by rewrite app_nil_r|].
  apply Forall_cons in Ho as [Hs Ho]. cbn [fmap list_fmap]. rewrite tail_text_cons. cbn [in_alternatives].
  change (More (mkDecoder ((c_comma :: scalar_text s ++ tail_text (scalar_text <$> ss)) ++ [c_rbrack]) tokenArrayComma [tokenTopValue] true)) with true. cbn iota.
  rewrite bool_decide_eq_false_2 by (simpl in Hl; lia). cbn [app]. rewrite <-app_assoc. rewrite DecodeRaw_comma by (first [by apply scalar_reads|apply (tail_stop (scalar_text <$> ss)); by left]).
  rewrite parseTypedScalar_text by done. cbn [mbind result_bind]. rewrite IH; [by rewrite <-app_assoc|simpl in Hf; lia|rewrite length_app; simpl in *; lia|done].
Qed.
Lemma parseTypedFilterValue_text name v : value_ok v → parseTypedFilterValue name (value_text v) = Ok v.
Proof.
  intros Hv. pose proof (value_reads v Hv) as Hr. unfold parseTypedFilterValue. rewrite DecodeAny_reads by done. change (decoderEOF (NewDecoder [] true)) with true. cbn [negb].
  pose proof Hv as [(Hi & s & Hs & Hok)|(Hi & [Hl1 Hl2] & Ho & _)].
  - assert (value_text v = scalar_text s) as -> by (unfold value_text; rewrite Hi, Hs; cbn; by rewrite app_nil_r). rewrite scalar_any by done.
    assert (v = mkValue false [s]) as -> by (destruct v; cbn in *; congruence). pose proof Hok as Hk. unfold scalar_ok in Hk. destruct (kind s) eqn:Ek.
    + do 3 f_equal. destruct Hk. by apply scalar_eta.
    + do 3 f_equal. destruct Hk. by apply scalar_eta.
    + by rewrite (parse_number_ok name s).
    + destruct Hk as (_ & Hl & Hc). rewrite (proj2 (Nat.ltb_ge _ _)) by done. do 3 f_equal. by apply scalar_eta.
  - assert (scalars v ≠ []) as Hne by (intros E; rewrite E in Hl1; simpl in Hl1; lia).
    assert (value_text v = object_text [(in_name, c_lbrack :: items_text (scalar_text <$> scalars v) ++ [c_rbrack])]) as Ev.
    { unfold value_text, object_text. rewrite Hi. cbn [fmap list_fmap items_text]. unfold pair_text, tail_text. cbn [fst snd mbind list_bind]. rewrite app_nil_r, <-app_assoc. cbn [app]. by rewrite <-app_assoc. }
    rewrite Ev. change (any_of (object_text _)) with AnyObject. cbn iota. unfold parseTypedIn.
    rewrite rawObject_text; [|by constructor; [split; [done|by apply list_reads]|]|by apply NoDup_singleton]. rewrite bool_decide_eq_true_2 by done. cbn [negb]. unfold insert_pairs. cbn [foldl fst snd].
    rewrite insert_empty, map_size_singleton. cbn [Nat.eqb negb]. rewrite lookup_singleton_eq.
    change (Token (NewDecoder (c_lbrack :: items_text (scalar_text <$> scalars v) ++ [c_rbrack]) true)) with
      (Ok (E := json_error) (Delim c_lbrack, mkDecoder (items_text (scalar_text <$> scalars v) ++ [c_rbrack]) tokenArrayStart [tokenTopValue] true)). cbn iota. rewrite N.eqb_refl. cbn [negb].
    assert (∀ fuel, length (scalars v) < fuel → in_alternatives fuel name (mkDecoder (items_text (scalar_text <$> scalars v) ++ [c_rbrack]) tokenArrayStart [tokenTopValue] true) [] = Ok (scalars v)) as Halt.
    { destruct (scalars v) as [|s l]; [done|]. apply Forall_cons in Ho as [Hs Ho]. intros [|fuel] Hf; [lia|]. cbn [fmap list_fmap items_text in_alternatives]. rewrite <-app_assoc.
      rewrite more_text by (by apply (scalar_reads 0)). cbn [length]. rewrite bool_decide_eq_false_2 by done. rewrite DecodeRaw_reads by (first [by apply scalar_reads|apply (tail_stop (scalar_text <$> l)); by left|done]).
      rewrite parseTypedScalar_text by done. cbn [mbind result_bind tokenValueEnd app]. by rewrite in_alternatives_text by (done || simpl in *; lia). }
    rewrite Halt.
    + cbn [mbind result_bind]. rewrite bool_decide_eq_false_2 by done. f_equal. by apply canonical_in_fix.
    + assert (∀ xs : list bytes, Forall starts xs → length xs ≤ length (items_text xs)) as Hx.
      { intros xs Hxs. destruct xs as [|x xs]; [done|]. apply Forall_cons in Hxs as [(c & t & -> & _) _]. cbn [items_text length app]. rewrite length_app.
        assert (∀ ys, length ys ≤ length (tail_text ys)) as Ht by (intros ys; induction ys as [|y ys IH]; [done|rewrite tail_text_cons; simpl; rewrite length_app; lia]). specialize (Ht xs). lia. }
      specialize (Hx (scalar_text <$> scalars v)). rewrite length_fmap in Hx. cbn [length]. rewrite length_app. cbn [length].
      assert (Forall starts (scalar_text <$> scalars v)) as Hst by (apply Forall_fmap; eapply Forall_impl; [exact Ho|]; intros z Hz; by apply (scalar_reads 0)). specialize (Hx Hst). lia.
Qed.
End parsing.

(** ** What the parser accepts *)

Lemma Token_string d k d' : Token d = Ok (Scalar (AnyString k), d') → utf8_valid k = true.
Proof.
  unfold Token. generalize 1 as turns. intros turns. revert d. induction turns as [|turns IH]; intros d.
  all: cbn [token_loop]; destruct (ws (d_rest d)) as [|c s] eqn:E; [done|].
  all: assert (∀ d', (if negb (tokenValueAllowed (d_state d)) then Err JMalformed else '(v, d') ← DecodeAny d; Ok (Scalar v, d')) = Ok (Scalar (AnyString k), d') → utf8_valid k = true) as Hv
    by (intros d1; destruct (negb _); [done|]; destruct (DecodeAny d) as [[? ?]|] eqn:Ed; [|done]; intros [= -> <-]; by eapply DecodeAny_string).
  all: repeat case_match; intros Ht; try done; try (by eapply Hv); try (by eapply IH).
  all: injection Ht as Hk <-; by eapply readValue_string.
Qed.

Definition term_ok (t : typedFilterTerm) : Prop :=
  utf8_valid (tf_name t) = true ∧ validateTypedFilterName (tf_name t) = Ok () ∧ value_ok (tf_value t).
(** A parsed filter: at most eight names in ascending order, each with a scalar or a
    strictly ascending set of 2 to 64 of them, in canonical spelling. *)
Definition filter_wf (f : TypedFilter) : Prop :=
  tf_terms f ≠ [] ∧ length (tf_terms f) ≤ maxFilterFields ∧ StronglySorted bytes_lt (filter_Names f) ∧ Forall term_ok (tf_terms f) ∧
  canonical f = filter_text (tf_terms f) ∧ length (canonical f) ≤ maxTypedFilterCanonical.

Section accepted.
Context `{GoRuntime}.

Lemma raw_members_valid w fuel : ∀ d entries dups e ds, raw_members fuel w d entries dups = Ok (e, ds) → (∀ k, is_Some (entries !! k) → utf8_valid k = true) →
  ∀ k, is_Some (e !! k) → utf8_valid k = true.
Proof.
  induction fuel as [|fuel IH]; intros d entries dups e ds; [done|]. cbn [raw_members]. destruct (More d).
  - destruct (Token d) as [[[c|v] d1]|] eqn:Et; [done| |done]. destruct v as [key| | | | |]; try done. destruct (DecodeRaw d1) as [[raw d2]|]; [|done].
    destruct (entries !! key) eqn:Ek; intros Hr He; (eapply IH; [exact Hr|]); [done|]. intros k Hk. destruct (decide (k = key)) as [->|Hne]; [by eapply Token_string|].
    rewrite lookup_insert_ne in Hk by done. by apply He.
  - destruct (Token d) as [[t d1]|]; [|done]. destruct (decoderEOF d1); [|done]. by intros [= <- <-].
Qed.
Lemma rawObject_valid raw w e ds : rawObject raw w = Ok (e, ds) → ∀ k, is_Some (e !! k) → utf8_valid k = true.
Proof.
  unfold rawObject. destruct (Token _) as [[[c|v] d]|]; [|done..]. destruct (c =? c_lbrace)%N; [|done]. intros Hr. eapply raw_members_valid; [exact Hr|]. intros k [? Hk]. by rewrite lookup_empty in Hk.
Qed.
Lemma in_alternatives_ok name fuel : ∀ d acc ss, in_alternatives fuel name d acc = Ok ss → Forall scalar_ok acc → length acc ≤ maxTypedFilterAlternatives →
  Forall scalar_ok ss ∧ length ss ≤ maxTypedFilterAlternatives.
Proof.
  induction fuel as [|fuel IH]; intros d acc ss; [done|]. cbn [in_alternatives]. destruct (More d).
  - case_bool_decide; [done|]. destruct (DecodeRaw d) as [[raw d1]|]; [|done]. destruct (parseTypedScalar name raw) as [s|] eqn:Es; [|done]. cbn [mbind result_bind]. intros Hr Ha Hl.
    apply IH in Hr; [done| |rewrite length_app; simpl; lia]. apply Forall_app. split; [done|]. constructor; [|done]. by eapply parseTypedScalar_ok.
  - destruct (Token d) as [[t d1]|]; [|done]. destruct (decoderEOF d1); [|done]. by intros [= <-].
Qed.
Lemma parseTypedFilterValue_ok name raw v : parseTypedFilterValue name raw = Ok v → value_ok v.
Proof.
  unfold parseTypedFilterValue. destruct (DecodeAny _) as [[a d]|] eqn:E; [|done]. destruct (negb _); [done|]. destruct a as [x|b|tok| | |]; try done.
  - destruct (Nat.ltb_spec maxFilterValueRunes (rune_count x)); [done|]. intros [= <-]. left. split; [done|]. eexists. split; [done|]. split_and!; cbn; [by eapply DecodeAny_string|done|done].
  - intros [= <-]. left. split; [done|]. eexists. split; [done|]. apply parse_bool_ok.
  - destruct (parse_number name tok) as [s|] eqn:En; [|done]. cbn [mbind result_bind]. intros [= <-]. left. split; [done|]. eexists. split; [done|]. by apply parse_number_form in En as [? _].
  - unfold parseTypedIn. destruct (rawObject raw WhatOperator) as [[entries dups]|]; [|done]. destruct (negb _); [done|]. destruct (negb _); [done|]. destruct (entries !! _) as [inRaw|]; [|done].
    destruct (Token _) as [[[c|?] d1]|]; [|done..]. destruct (negb _); [done|]. destruct (in_alternatives _ _ _ _) as [ss|] eqn:Es; [|done]. cbn [mbind result_bind]. case_bool_decide; [done|]. intros [= <-].
    apply in_alternatives_ok in Es as [Ho Hl]; [by apply canonical_in_ok|constructor|simpl; lia].
Qed.
Lemma parse_terms_ok entries names ts : parse_terms entries names = Ok ts → (∀ k, k ∈ names → utf8_valid k = true) →
  tf_name <$> ts = names ∧ Forall term_ok ts.
Proof.
  revert ts. induction names as [|name names IH]; intros ts; cbn [parse_terms]; [by intros [= <-]|]. destruct (validateTypedFilterName name) as [[]|] eqn:Ev; [|done].
  destruct (parseTypedFilterValue _ _) as [v|] eqn:E; [|done]. cbn [mbind result_bind]. destruct (parse_terms entries names) as [ts'|]; [|done]. cbn [mbind result_bind]. intros [= <-] Hk.
  destruct (IH ts' eq_refl) as [<- Ht]; [intros k Hin; apply Hk; by right|]. split; [done|]. constructor; [|done]. split_and!; [apply Hk; by left|done|by eapply parseTypedFilterValue_ok].
Qed.
Lemma parse_terms_text ts entries : Forall term_ok ts → (∀ t, t ∈ ts → entries !! tf_name t = Some (value_text (tf_value t))) → parse_terms entries (tf_name <$> ts) = Ok ts.
Proof.
  induction ts as [|t ts IH]; intros Ht He; [done|]. apply Forall_cons in Ht as [(_ & Hn & Hv) Ht]. cbn [fmap list_fmap parse_terms]. rewrite Hn, (He t) by (by left). change (default [] (Some (value_text (tf_value t)))) with (value_text (tf_value t)).
  rewrite parseTypedFilterValue_text by done. cbn [mbind result_bind]. rewrite IH; [|done|intros t' Ht'; apply He; by right]. by destruct t.
Qed.

Lemma insert_pairs_lookup ps : ∀ m, NoDup ps.*1 → insert_pairs m ps = list_to_map ps ∪ m.
Proof.
  induction ps as [|[k x] ps IH]; intros m Hnd; [cbn; by rewrite (left_id_L ∅ (∪))|]. apply NoDup_cons in Hnd as [Hni Hnd]. unfold insert_pairs. cbn [foldl fst snd]. fold (insert_pairs (<[k:=x]> m) ps). rewrite IH by done.
  cbn [list_to_map foldr]. rewrite <-insert_union_l, insert_union_r; [done|]. by apply not_elem_of_list_to_map_1.
Qed.
Lemma sorted_names_nodup l : StronglySorted bytes_lt l → NoDup l.
Proof.
  induction 1 as [|x l Hs IH Hx]; constructor; [|done]. intros Hin. rewrite Forall_forall in Hx. specialize (Hx x Hin). by apply irreflexivity in Hx; [|apply _].
Qed.
Lemma sorted_keys_text ps : StronglySorted bytes_lt ps.*1 → sorted_keys (insert_pairs ∅ ps) = ps.*1.
Proof.
  intros Hs. pose proof (sorted_names_nodup _ Hs) as Hnd. unfold sorted_keys. rewrite insert_pairs_lookup, (right_id_L ∅ (∪)) by done. apply (sorted_by_key_unique id).
  - apply sort_stable_sorted, less_by_weak.
  - eapply strongly_sorted_mono; [|exact Hs]. intros a b Hab. apply less_by_false. apply bytes_le_lteq. by left.
  - rewrite sort_stable_perm, range_map_perm, map_to_list_to_map, list_fmap_id by done. done.
  - by rewrite sort_stable_perm, range_map_perm, map_to_list_to_map by done.
Qed.
Lemma sorted_keys_sorted {V} (m : gmap bytes V) : StronglySorted bytes_lt (sorted_keys m) ∧ length (sorted_keys m) = size m ∧ ∀ k, k ∈ sorted_keys m ↔ is_Some (m !! k).
Proof.
  unfold sorted_keys. pose proof (sort_stable_perm (less_by id) (range_map 0 m).*1) as Hp. split_and!.
  - assert (NoDup (sort_stable (less_by id) (range_map 0 m).*1)) as Hnd by (rewrite Hp; apply range_nodup). pose proof (sort_stable_sorted (less_by id) (range_map 0 m).*1 (less_by_weak id)) as Hs.
    revert Hnd Hs. generalize (sort_stable (less_by id) (range_map 0 m).*1). intros l Hnd Hs. induction Hs as [|x l Hs IH Hx]; [constructor|]. apply NoDup_cons in Hnd as [Hni Hnd]. constructor; [by apply IH|].
    rewrite Forall_forall in *. intros y Hy. specialize (Hx y Hy). apply less_by_false in Hx. apply bytes_le_lteq in Hx as [|Hx]; [done|]. cbn in Hx. by subst.
  - rewrite Hp, length_fmap, range_map_perm. apply length_map_to_list.
  - intros k. rewrite Hp, list_elem_of_fmap. split.
    + intros ([k' x] & -> & Hin%elem_of_range). by exists x.
    + intros [x Hx]. exists (k, x). split; [done|]. by apply elem_of_range.
Qed.

Lemma parse_wf raw f : ParseTypedFilter raw = Ok f → f = no_filter ∨ filter_wf f ∧ finishTypedFilter (mkFilter (tf_terms f) [] 0 0) = Ok f.
Proof.
  unfold ParseTypedFilter. destruct (rawObject raw WhatFilter) as [[entries dups]|] eqn:Er; [|done]. cbn [mbind result_bind]. destruct (negb _); [done|]. case_bool_decide as He; [intros [= <-]; by left|].
  destruct (Nat.ltb_spec maxFilterFields (size entries)) as [|Hsz]; [done|]. destruct (parse_terms _ _) as [ts|] eqn:Et; [|done]. cbn [mbind result_bind].
  destruct (finishTypedFilter _) as [f'|] eqn:Ef; [|done]. intros [= <-]. right. destruct (sorted_keys_sorted entries) as (Hs & Hl & Hk).
  destruct (finish_text ts f' Ef) as (Hts & Hc & Hlc). rewrite <-Hts in *.
  apply parse_terms_ok in Et as [En Ho]; [|intros k Hin; eapply rawObject_valid; [exact Er|by apply Hk]]. split; [|done]. split_and!; try done.
  - intros E. rewrite E in En. cbn in En. rewrite <-En in Hl. apply He. by apply map_size_empty_inv.
  - by rewrite <-(length_fmap tf_name), En, Hl.
  - unfold filter_Names. by rewrite En.
Qed.
Lemma reparse f : filter_wf f → finishTypedFilter (mkFilter (tf_terms f) [] 0 0) = Ok f → ParseTypedFilter (canonical f) = Ok f.
Proof.
  intros (Hne & Hl & Hs & Ho & -> & _) Hf. set (ps := (λ t, (tf_name t, value_text (tf_value t))) <$> tf_terms f).
  assert (filter_text (tf_terms f) = object_text ps) as ->.
  { unfold filter_text, object_text, ps. rewrite <-list_fmap_compose. done. }
  assert (ps.*1 = filter_Names f) as Hps by (unfold ps, filter_Names; by rewrite <-list_fmap_compose). pose proof (sorted_names_nodup _ Hs) as Hnd.
  unfold ParseTypedFilter. rewrite rawObject_text; [| |by rewrite Hps].
  2:{ unfold ps. apply Forall_fmap. eapply Forall_impl; [exact Ho|]. intros t (Hn & _ & Hv). split; [done|by apply value_reads]. }
  cbn [mbind result_bind]. rewrite bool_decide_eq_true_2 by done. cbn [negb].
  assert (insert_pairs ∅ ps = list_to_map ps) as Hm by (rewrite insert_pairs_lookup by (by rewrite Hps); apply (right_id_L ∅ (∪))).
  assert (size (insert_pairs ∅ ps) = length (tf_terms f)) as Hsz.
  { rewrite <-length_map_to_list, Hm, map_to_list_to_map by (by rewrite Hps). unfold ps. apply length_fmap. }
  rewrite bool_decide_eq_false_2 by (intros E; rewrite E, map_size_empty in Hsz; by destruct (tf_terms f)). rewrite Hsz. rewrite (proj2 (Nat.ltb_ge _ _)) by done.
  rewrite sorted_keys_text by (by rewrite Hps). rewrite Hps. unfold filter_Names. rewrite parse_terms_text; [|done|].
  - cbn [mbind result_bind]. by rewrite Hf.
  - intros t Ht. rewrite Hm. apply elem_of_list_to_map; [by rewrite Hps|]. unfold ps. apply list_elem_of_fmap. by exists t.
Qed.
End accepted.

(** ** The parser always answers *)

(** An answer that is not one of the code's messages. *)
Fixpoint internal (e : parse_error) : Prop :=
  match e with NumberPanic | ParseOutOfFuel => True | OperatorMalformed _ e => internal e | _ => False end.
Definition answers {A} (r : result parse_error A) : Prop := ∀ e, r = Err e → ¬ internal e.
Lemma answers_bind {A B} (r : result parse_error A) (f : A → result parse_error B) : answers r → (∀ a, r = Ok a → answers (f a)) → answers (r ≫= f).
Proof. destruct r as [a|e]; intros Hr Hf; [by apply Hf|]. intros e' [= <-]. by apply Hr. Qed.
Lemma answers_ok {A} (a : A) : answers (Ok a).
Proof. by intros e [=]. Qed.
Lemma answers_err {A} e : ¬ internal e → answers (Err e : result parse_error A).
Proof. by intros He e' [= <-]. Qed.
Create HintDb answer.
#[export] Hint Resolve answers_ok : answer.
#[export] Hint Extern 1 (answers (Err _)) => apply answers_err; exact id : answer.

Section total.
Context `{GoRuntime}.

Lemma answers_members w fuel : ∀ d entries dups, length (d_rest d) < fuel → answers (raw_members fuel w d entries dups).
Proof.
  induction fuel as [|fuel IH]; intros d entries dups Hf; [lia|]. cbn [raw_members]. destruct (More d).
  - destruct (Token d) as [[[c|v] d1]|] eqn:Et; [auto with answer| |auto with answer]. apply Token_shorter in Et. destruct v; auto with answer.
    destruct (DecodeRaw d1) as [[raw d2]|] eqn:Ed; [|auto with answer]. apply DecodeRaw_shorter in Ed. destruct (entries !! _); apply IH; lia.
  - destruct (Token d) as [[t d1]|]; [|auto with answer]. destruct (decoderEOF d1); auto with answer.
Qed.
Lemma answers_object raw w : answers (rawObject raw w).
Proof.
  unfold rawObject. destruct (Token _) as [[[c|v] d]|] eqn:E; auto with answer. apply Token_shorter in E. cbn [d_rest NewDecoder] in E. destruct (c =? c_lbrace)%N; [|auto with answer]. apply answers_members. lia.
Qed.
Lemma answers_number name tok : answers (parse_number name tok).
Proof. unfold parse_number. destruct (canonicalNumberToken tok true) as [[c|]|] eqn:E; auto with answer. by apply request_number in E as (_ & _ & ?). Qed.
Lemma answers_scalar name raw : answers (parseTypedScalar name raw).
Proof. unfold parseTypedScalar. destruct (DecodeAny _) as [[v d]|]; [|auto with answer]. destruct v; auto with answer; [destruct (_ <? _); auto with answer|apply answers_number]. Qed.
Lemma answers_in name fuel : ∀ d acc, length (d_rest d) < fuel → answers (in_alternatives fuel name d acc).
Proof.
  induction fuel as [|fuel IH]; intros d acc Hf; [lia|]. cbn [in_alternatives]. destruct (More d).
  - case_bool_decide; [auto with answer|]. destruct (DecodeRaw d) as [[raw d1]|] eqn:E; [|auto with answer]. apply DecodeRaw_shorter in E. apply answers_bind; [apply answers_scalar|]. intros s _. apply IH. lia.
  - destruct (Token d) as [[t d1]|]; [|auto with answer]. destruct (decoderEOF d1); auto with answer.
Qed.
Lemma answers_value name raw : answers (parseTypedFilterValue name raw).
Proof.
  unfold parseTypedFilterValue. destruct (DecodeAny _) as [[v d]|]; [|auto with answer]. destruct (negb _); [auto with answer|]. destruct v; auto with answer.
  - destruct (_ <? _); auto with answer.
  - apply answers_bind; [apply answers_number|auto with answer].
  - unfold parseTypedIn. pose proof (answers_object raw WhatOperator) as Ho. destruct (rawObject raw WhatOperator) as [[entries dups]|e]; [|apply answers_err; exact (Ho e eq_refl)].
    destruct (negb _); [auto with answer|]. destruct (negb _); [auto with answer|]. destruct (entries !! _) as [inRaw|]; [|auto with answer].
    destruct (Token _) as [[[c|?] d1]|] eqn:Et; [|auto with answer..]. apply Token_shorter in Et. cbn [d_rest NewDecoder] in Et. destruct (negb _); [auto with answer|].
    apply answers_bind; [apply answers_in; lia|]. intros ss _. case_bool_decide; auto with answer.
Qed.
Lemma answers_terms entries names : answers (parse_terms entries names).
Proof.
  induction names as [|name names IH]; cbn [parse_terms]; [auto with answer|]. destruct (validateTypedFilterName name); [|auto with answer]. apply answers_bind; [apply answers_value|]. intros v _. apply answers_bind; [done|auto with answer].
Qed.

(** C38: The filter parser always answers with a filter or one of its messages: no
    input, however nested or truncated, makes it run out of steps, and the panic behind
    the canonicalization of an accepted number is dead code. *)
Theorem parse_filter_answers raw : answers (ParseTypedFilter raw).
Proof.
  unfold ParseTypedFilter. apply answers_bind; [apply answers_object|]. intros [entries dups] _. destruct (negb _); [auto with answer|]. case_bool_decide; [auto with answer|].
  destruct (_ <? _); [auto with answer|]. apply answers_bind; [apply answers_terms|]. intros ts _. destruct (finishTypedFilter _); auto with answer.
Qed.

(** C37: The canonical form is the identity of a filter: what the parser accepts is
    well formed - at most eight distinct names in order, each with a scalar or a strictly
    ascending set of alternatives - its canonical bytes parse to the same filter again,
    and no other accepted filter has them. *)
Theorem canonical_filter_fixpoint raw f : ParseTypedFilter raw = Ok f →
  f = no_filter ∨ (filter_wf f ∧ ParseTypedFilter (filter_CanonicalJSON f) = Ok f ∧
    ∀ raw' f', ParseTypedFilter raw' = Ok f' → filter_CanonicalJSON f' = filter_CanonicalJSON f → f' = f).
Proof.
  assert (∀ g, filter_wf g → filter_CanonicalJSON g = canonical g) as Hc by (intros g (Hne & _); unfold filter_CanonicalJSON, filter_Empty; by rewrite bool_decide_eq_false_2).
  intros [->|[Hw Hf]]%parse_wf; [by left|right]. pose proof (reparse f Hw Hf) as Hr. rewrite Hc by done. split_and!; [done..|].
  intros raw' f' [->|[Hw' Hf']]%parse_wf E.
  - destruct Hw as (_ & _ & _ & _ & Ht & _). rewrite Ht in E. done.
  - rewrite Hc in E by done. apply reparse in Hf'; [|done]. rewrite E, Hr in Hf'. by injection Hf'.
Qed.
End total.

(** ** Concrete filters *)

#[local] Existing Instance default_runtime.
(** Two spellings of one filter: the same members, escaped and unescaped, in another
    order, with repeated and equal numbers. *)
Definition spelling_a : bytes := $"{" ++ string_text ($"b") ++ $":{" ++ string_text in_name ++ $":[2, 1.0, 1e0]}, " ++ string_text ($"a") ++ $": true}".
Definition spelling_b : bytes := $"{" ++ string_text ($"a") ++ $":true," ++ string_text ($"b") ++ $":{" ++ [c_dquote] ++ $"\u0069n" ++ [c_dquote] ++ $":[1,2]}}".
Definition parsed_a : TypedFilter := Eval vm_compute in match ParseTypedFilter spelling_a with Ok f => f | Err _ => no_filter end.
Lemma canonical_filter_fixpoint_witness : ParseTypedFilter spelling_a = Ok parsed_a ∧ ParseTypedFilter spelling_b = Ok parsed_a ∧ filter_wf parsed_a ∧
  ParseTypedFilter (filter_CanonicalJSON parsed_a) = Ok parsed_a.
Proof.
  assert (ParseTypedFilter spelling_a = Ok parsed_a) as Ha by (vm_compute; reflexivity). split; [exact Ha|]. split; [vm_compute; reflexivity|].
  destruct (canonical_filter_fixpoint spelling_a parsed_a Ha) as [E|(H1 & H2 & _)]; [discriminate E|]. exact (conj H1 H2).
Defined.
