(* ===== verification/RequestFilter.v ===== *)
(** The filter member of a query request ([server/filter.go], and the decoding of
    [queryReq] in [server/server.go]): the walk that looks for repeated members and
    names, and the member the typed decode keeps. *)

From S2P Require Import Prelude.
From S2P Require Import Runtime.
From S2P Require Import Strings.
From S2P Require Import Payload.
From S2P Require Import Filter.
From S2P Require Import JSONTokens.
From S2P Require Import FilterParse.

Definition filter_key : bytes := $"filter".

(** ** The duplicate walk *)

(** [skipRest] and [skipTokenValue]; every token takes a byte. *)
Fixpoint skip_tokens (fuel depth : nat) (d : Decoder) : result json_error Decoder :=
  match depth, fuel with
  | 0, _ => Ok d
  | _, 0 => Err JMalformed
  | S below, S fuel =>
      '(t, d) ← Token d;
      match t with
      | Delim c => skip_tokens fuel (if (c =? c_lbrace)%N || (c =? c_lbrack)%N then S depth else below) d
      | Scalar _ => skip_tokens fuel depth d
      end
  end.
Definition skipRest (d : Decoder) : result json_error Decoder := skip_tokens (length (d_rest d)) 1 d.
Definition skipTokenValue (d : Decoder) : result json_error Decoder :=
  '(t, d) ← Token d;
  match t with
  | Delim c => if (c =? c_lbrace)%N || (c =? c_lbrack)%N then skipRest d else Ok d
  | Scalar _ => Ok d
  end.

Inductive dup_error := DuplicateMember | DuplicateFilterName (name : bytes).

(** A key; a token that is not a string reads as the empty one. *)
Definition token_string (t : token) : bytes := match t with Scalar (AnyString k) => k | _ => [] end.

(** The names of the filter object: the first repeated one, if any. *)
Fixpoint filter_names (fuel : nat) (d : Decoder) (seen : gset bytes) : result json_error (option bytes * Decoder) :=
  match fuel with
  | 0 => Err JMalformed
  | S fuel =>
      if More d then
        '(t, d) ← Token d;
        let name := token_string t in
        if bool_decide (name ∈ seen) then Ok (Some name, d) else
        d ← skipTokenValue d;
        filter_names fuel d ({[name]} ∪ seen)
      else
        '(_, d) ← Token d; Ok (None, d)
  end.

(** The loop over the top-level members: an error ends the walk without a finding. *)
Fixpoint walk_members (fuel : nat) (d : Decoder) (sawFilter : bool) : option dup_error :=
  match fuel with
  | 0 => None
  | S fuel =>
      if negb (More d) then None else
      match Token d with
      | Err _ => None
      | Ok (kt, d) =>
          if negb (bool_decide (token_string kt = filter_key)) then
            match skipTokenValue d with Err _ => None | Ok d => walk_members fuel d sawFilter end
          else if sawFilter then Some DuplicateMember
          else
            match Token d with
            | Err _ => None
            | Ok (Scalar _, d) => walk_members fuel d true
            | Ok (Delim c, d) =>
                if (c =? c_lbrack)%N then match skipRest d with Err _ => None | Ok d => walk_members fuel d true end
                else
                  match filter_names (S (length (d_rest d))) d ∅ with
                  | Err _ => None
                  | Ok (Some name, _) => Some (DuplicateFilterName name)
                  | Ok (None, d) => walk_members fuel d true
                  end
            end
      end
  end.

(** [bytes.Contains] *)
Fixpoint contains (b w : bytes) : bool :=
  bool_decide (take (length w) b = w) || match b with [] => false | _ :: b => contains b w end.

Definition dupFilterName (b : bytes) : option dup_error :=
  if negb (contains b filter_key) && bool_decide (c_backslash ∉ b) then None else
  match Token (NewDecoder b false) with
  | Ok (Delim c, d) => if (c =? c_lbrace)%N then walk_members (S (length b)) d false else None
  | _ => None
  end.

(** ** The member the typed decode keeps *)

(** [json.Unmarshal] matches a member to a struct field by its exact name or, failing
    that, without regard to case; a later member replaces an earlier one. *)
Definition fold_ascii (c : N) : N := if (97 <=? c)%N && (c <=? 122)%N then (c - 32)%N else c.
Definition names_filter (key : bytes) : bool := bool_decide (fold_ascii <$> key = fold_ascii <$> filter_key).
Fixpoint select_members (fuel : nat) (d : Decoder) (kept : bytes) : option bytes :=
  match fuel with
  | 0 => None
  | S fuel =>
      if More d then
        match Token d with
        | Ok (Scalar (AnyString key), d) =>
            match DecodeRaw d with
            | Ok (raw, d) => select_members fuel d (if names_filter key then raw else kept)
            | Err _ => None
            end
        | _ => None
        end
      else match Token d with Ok (_, d) => if decoderEOF d then Some kept else None | Err _ => None end
  end.
(** The [Filter] field after the decode of a body, empty when there is no member. *)
Definition decoded_filter (b : bytes) : option bytes :=
  match Token (NewDecoder b true) with
  | Ok (Delim c, d) => if (c =? c_lbrace)%N then select_members (S (length b)) d [] else None
  | _ => None
  end.

(** The filter a request runs with, as [runQuery] reads it. *)
Definition request_filter `{GoRuntime} (raw : bytes) : result parse_error TypedFilter :=
  if bool_decide (raw = []) || bool_decide (trim_space raw = $"null") then Ok no_filter else ParseTypedFilter raw.

(** ** Repeated members that the walk does not see

    The walk refuses a repeated member in any spelling of the very name, but the decode
    is laxer than the walk in two ways, and either silently drops the first filter: it
    ignores the case of a name, and it does not convert the numbers of members it keeps
    raw or does not know, while the walk ends at a number no float64 can hold. *)

#[local] Existing Instance default_runtime.
Definition quoted (s : bytes) : bytes := [c_dquote] ++ s ++ [c_dquote].
Definition twice (k1 v1 k2 v2 : bytes) : bytes := $"{" ++ quoted k1 ++ $":" ++ v1 ++ $"," ++ quoted k2 ++ $":" ++ v2 ++ $"}".
Definition some_filter : bytes := $"{" ++ quoted ($"a") ++ $":" ++ quoted ($"b") ++ $"}".

Lemma repeated_member_refused : dupFilterName (twice filter_key some_filter filter_key ($"{}")) = Some DuplicateMember ∧
  dupFilterName (twice filter_key some_filter ($"\u0066ilter") ($"{}")) = Some DuplicateMember ∧
  dupFilterName (twice filter_key (twice ($"a") ($"1") ($"a") ($"2")) ($"q") ($"0")) = Some (DuplicateFilterName ($"a")).
Proof. vm_compute. done. Qed.
Lemma folded_member_erases_filter :
  let b := twice filter_key some_filter ($"Filter") ($"{}") in
  dupFilterName b = None ∧ decoded_filter b = Some ($"{}") ∧ request_filter ($"{}") = Ok no_filter.
Proof. vm_compute. done. Qed.
Lemma range_member_erases_filter :
  let b := twice filter_key ($"{" ++ quoted ($"a") ++ $":1e999}") filter_key ($"{}") in
  dupFilterName b = None ∧ decoded_filter b = Some ($"{}") ∧ request_filter ($"{}") = Ok no_filter.
Proof. vm_compute. done. Qed.
