(* ===== verification/ListConfig.v ===== *)
(** The configuration half of [engine/list.go]: the validation and resolution
    steps of [NewList], [ResolveAnalyzer] and [resolvedConfigDigest].

    SHA-256 and the JSON encoding of a [ListConfig] are the interface [DigestLib]. *)

From S2P Require Import Prelude.
From S2P Require Import Runtime.
From S2P Require Import Strings.
From S2P Require Import Analyzer.
From S2P Require Import Score.
From S2P Require Import Filter.
From S2P Require Import Types.
From S2P Require Ngram.

Definition maxListTopK : Z := 2 ^ 20.

Inductive config_error :=
  | BadAnalyzer (e : analyzer_error)
  | ThresholdRange
  | TopKRange (k : Z)
  | GramRange (g : Z)
  | CompanionInExactMode
  | UnknownMode (mode : bytes)
  | FallbackNeedsExact (fallback mode : bytes)
  | UnknownFallback (fallback : bytes)
  | AutoCompactNegative (n : Z)
  | GoldenEmptyQ (i : nat)
  | GoldenExclusive (i : nat)
  | GoldenMissing (i : nat)
  | GoldenScoreNeedsId (i : nat)
  | GoldenScoreRange (i : nat)
  | TooManyFields (n : nat)
  | FieldEmpty (i : nat)
  | FieldNameTooLong (i : nat)
  | FieldPathTooLong (i : nat)
  | FieldDuplicate (i : nat) (name : bytes).

Definition m_ngram : bytes := $"ngram".
Definition m_exact : bytes := $"exact".
Definition parent_domain : bytes := $"parent_domain".

Definition ResolveAnalyzer `{TextLib} (c : AnalyzerConfig) : result analyzer_error Analyzer :=
  if negb (bool_decide (ac_Preset c = [])) then Preset (ac_Preset c) else New (ac_Steps c).

Section resolve.
Context {RT : GoRuntime} {TL : TextLib} {FO : FloatOps}.

Definition f_isnan (x : F64) : bool := negb (f_eqb x x).
(** [math.IsNaN(x) || x < 0 || x > hi] *)
Definition out_of_range (x : F64) (hi : N) : bool :=
  f_isnan x || f_ltb x (f_of_N 0) || f_ltb (f_of_N hi) x.

(** The literal 0.6: the quotient of two exact numbers, rounded once. *)
Definition default_threshold : F64 := f_div (f_of_N 6) (f_of_N 10).

Definition with_steps (c : ListConfig) (steps : list bytes) : ListConfig :=
  mkListConfig (mkAnalyzerConfig [] steps) (Match c) (Golden c) (Filterable c) (OverlayAutoCompact c).

(** The loop over the gram sizes. *)
Fixpoint check_grams (gs : list Z) : result config_error () :=
  match gs with
  | [] => Ok ()
  | g :: gs' => if (g <? 1)%Z || (Ngram.MaxGramSize <? g)%Z then Err (GramRange g) else check_grams gs'
  end.

(** The mode switch, with the ngram defaults. *)
Definition resolve_match (m : MatchConfig) : result config_error MatchConfig :=
  if bool_decide (Mode m = m_ngram) then
    let gs := if bool_decide (mc_Grams m = []) then [2; 3]%Z else mc_Grams m in
    _ ← check_grams gs;
    Ok (mkMatchConfig (Mode m) (Fallback m) (ExactCompanion m) gs (mc_StripSpaces m)
          (if f_eqb (Threshold m) (f_of_N 0) then default_threshold else Threshold m)
          (if (TopK m =? 0)%Z then 100%Z else TopK m))
  else if bool_decide (Mode m = m_exact) then
    if ExactCompanion m then Err CompanionInExactMode else Ok m
  else Err (UnknownMode (Mode m)).

Definition check_fallback (m : MatchConfig) : result config_error () :=
  if bool_decide (Fallback m = []) then Ok ()
  else if bool_decide (Fallback m = parent_domain) then
    fail_if (negb (bool_decide (Mode m = m_exact))) (FallbackNeedsExact (Fallback m) (Mode m))
  else Err (UnknownFallback (Fallback m)).

Definition check_probe (i : nat) (p : GoldenProbe) : result config_error () :=
  if bool_decide (gp_Q p = []) then Err (GoldenEmptyQ i)
  else if negb (bool_decide (ExpectID p = [])) && Absent p then Err (GoldenExclusive i)
  else if bool_decide (ExpectID p = []) && negb (Absent p) then Err (GoldenMissing i)
  else if Absent p && negb (f_eqb (MinScore p) (f_of_N 0)) then Err (GoldenScoreNeedsId i)
  else fail_if (out_of_range (MinScore p) 100) (GoldenScoreRange i).

Fixpoint check_golden (i : nat) (ps : list GoldenProbe) : result config_error () :=
  match ps with
  | [] => Ok ()
  | p :: ps' => _ ← check_probe i p; check_golden (S i) ps'
  end.

Fixpoint check_fields (i : nat) (seen : gset bytes) (fs : list FilterField) : result config_error () :=
  match fs with
  | [] => Ok ()
  | f :: fs' =>
      if bool_decide (Name f = []) || bool_decide (Path f = []) then Err (FieldEmpty i)
      else if maxFilterNameRunes <? rune_count (Name f) then Err (FieldNameTooLong i)
      else if maxFilterPathRunes <? rune_count (Path f) then Err (FieldPathTooLong i)
      else if bool_decide (Name f ∈ seen) then Err (FieldDuplicate i (Name f))
      else check_fields (S i) ({[Name f]} ∪ seen) fs'
  end.

(** [NewList] up to the construction of the list: the resolved configuration
    and the analyzer. *)
Definition resolveConfig (c : ListConfig) : result config_error (ListConfig * Analyzer) :=
  an ← match ResolveAnalyzer (lc_Analyzer c) with Ok an => Ok an | Err e => Err (BadAnalyzer e) end;
  let c := if negb (bool_decide (ac_Preset (lc_Analyzer c) = [])) then with_steps c (Steps an) else c in
  _ ← fail_if (out_of_range (Threshold (Match c)) 1) ThresholdRange;
  _ ← fail_if ((TopK (Match c) <? 0)%Z || (maxListTopK <? TopK (Match c))%Z) (TopKRange (TopK (Match c)));
  m ← resolve_match (Match c);
  _ ← check_fallback m;
  _ ← fail_if (OverlayAutoCompact c <? 0)%Z (AutoCompactNegative (OverlayAutoCompact c));
  _ ← check_golden 0 (Golden c);
  _ ← fail_if (maxFilterFields <? length (Filterable c)) (TooManyFields (length (Filterable c)));
  _ ← check_fields 0 ∅ (Filterable c);
  Ok (mkListConfig (lc_Analyzer c) m (Golden c) (sort_slice (less_by Name) (Filterable c)) (OverlayAutoCompact c), an).
End resolve.

(** ** The digest *)

Class DigestLib {FO : FloatOps} := {
  sha256 : bytes → bytes;                (* crypto/sha256 over the written bytes *)
  marshal_config : ListConfig → bytes;   (* json.Marshal of a ListConfig *)
}.

(** [binary.BigEndian.PutUint64] *)
Definition put_u64 (n : N) : bytes :=
  (λ i, N.shiftr n (8 * i) mod 256)%N <$> [7; 6; 5; 4; 3; 2; 1; 0]%N.

Definition length_prefixed (b : bytes) : bytes := put_u64 (u64 (N.of_nat (length b))) ++ b.

(** [hex.EncodeToString] *)
Definition hex (b : bytes) : bytes := b ≫= λ c, [hex_char (c / 16); hex_char (c mod 16)].

Definition config_domain : bytes := $"kurn config v1" ++ [0%N].

(** What [resolvedConfigDigest] writes into the hash. *)
Definition config_preimage `{DigestLib} (c : ListConfig) (steps : list bytes) : bytes :=
  config_domain ++ length_prefixed (marshal_config c) ++ (steps ≫= length_prefixed).

Definition resolvedConfigDigest `{DigestLib} (c : ListConfig) (an : Analyzer) : bytes :=
  hex (sha256 (config_preimage c (Steps an))).

(** ** Resolution *)

Definition field_ok (f : FilterField) : Prop :=
  Name f ≠ [] ∧ Path f ≠ [] ∧ rune_count (Name f) ≤ maxFilterNameRunes ∧ rune_count (Path f) ≤ maxFilterPathRunes.

Section resolve_spec.
Context {RT : GoRuntime} {TL : TextLib} {FO : FloatOps}.

(** The ngram default passes the range test and is not the zero value. *)
Definition default_threshold_ok : Prop :=
  out_of_range default_threshold 1 = false ∧ f_eqb default_threshold (f_of_N 0) = false.

Definition match_ok (m : MatchConfig) : Prop :=
  out_of_range (Threshold m) 1 = false ∧ (0 ≤ TopK m ≤ maxListTopK)%Z ∧
  (Mode m = m_ngram ∧ mc_Grams m ≠ [] ∧ Forall (λ g, 1 ≤ g ≤ Ngram.MaxGramSize)%Z (mc_Grams m) ∧
     f_eqb (Threshold m) (f_of_N 0) = false ∧ TopK m ≠ 0%Z ∨
   Mode m = m_exact ∧ ExactCompanion m = false) ∧
  (Fallback m = [] ∨ Fallback m = parent_domain ∧ Mode m = m_exact).

(** What a list's resolved configuration satisfies. *)
Definition resolved (c : ListConfig) (an : Analyzer) : Prop :=
  ac_Preset (lc_Analyzer c) = [] ∧ New (ac_Steps (lc_Analyzer c)) = Ok an ∧ match_ok (Match c) ∧
  (0 ≤ OverlayAutoCompact c)%Z ∧ check_golden 0 (Golden c) = Ok () ∧
  length (Filterable c) ≤ maxFilterFields ∧ Forall field_ok (Filterable c) ∧ names_sorted (Filterable c).

Lemma check_grams_ok gs : check_grams gs = Ok () ↔ Forall (λ g, 1 ≤ g ≤ Ngram.MaxGramSize)%Z gs.
Proof.
  induction gs as [|g gs IH]; simpl; [done|]. rewrite Forall_cons, <-IH.
  destruct (_ || _) eqn:E; [split; [done|lia]|]. split; [split; [lia|done]|tauto].
Qed.

Lemma check_fields_ok i seen fs :
  check_fields i seen fs = Ok () ↔
  Forall field_ok fs ∧ NoDup (Name <$> fs) ∧ ∀ f, f ∈ fs → Name f ∉ seen.
Proof.
  revert i seen. induction fs as [|f fs IH]; intros i seen; csimpl.
  { split; [|done]. intros _. split_and!; [constructor..|]. by intros ? ?%elem_of_nil. }
  rewrite Forall_cons, NoDup_cons. unfold field_ok at 1.
  assert (∀ P : Prop, ¬ P → (Err (E:=config_error) (A:=()) (FieldEmpty i) = Ok () ↔ P)) as Hno by (intros P HP; split; [done|tauto]).
  destruct (decide (Name f = [])) as [Hn|Hn]; [rewrite (bool_decide_eq_true_2 _ Hn); apply Hno; tauto|].
  destruct (decide (Path f = [])) as [Hp|Hp];
    [rewrite (bool_decide_eq_true_2 _ Hp), orb_true_r; apply Hno; tauto|].
  rewrite (bool_decide_eq_false_2 _ Hn), (bool_decide_eq_false_2 _ Hp). cbn [orb].
  destruct (Nat.ltb_spec maxFilterNameRunes (rune_count (Name f))); [split; [done|lia]|].
  destruct (Nat.ltb_spec maxFilterPathRunes (rune_count (Path f))); [split; [done|lia]|].
  case_bool_decide as Hs.
  { split; [done|]. intros (_ & _ & Hall). destruct (Hall f); [by left|done]. }
  rewrite IH, list_elem_of_fmap. split.
  - intros (Hf & Hnd & Hall). split_and!; try done.
    + intros (g & Hg & Hin). apply (Hall g Hin), elem_of_union. left. by apply elem_of_singleton.
    + intros g [->|Hin]%elem_of_cons Hg; [done|]. apply (Hall g Hin), elem_of_union. by right.
  - intros ([_ Hf] & [Hni Hnd] & Hall). split_and!; [done..|]. intros g Hin [Hg%elem_of_singleton|Hg]%elem_of_union.
    + apply Hni. by exists g.
    + apply (Hall g); [by right|done].
Qed.

Lemma resolve_match_ok m m' :
  default_threshold_ok → out_of_range (Threshold m) 1 = false → (0 ≤ TopK m ≤ maxListTopK)%Z →
  resolve_match m = Ok m' → check_fallback m' = Ok () → match_ok m'.
Proof.
  intros [Hd1 Hd2] Ht Hk. unfold resolve_match. intros Hm Hf.
  assert (Fallback m' = [] ∨ Fallback m' = parent_domain ∧ Mode m' = m_exact) as Hfb.
  { unfold check_fallback in Hf. case_bool_decide; [by left|]. case_bool_decide; [|done].
    apply fail_if_ok, negb_false_iff, bool_decide_eq_true in Hf. by right. }
  clear Hf. case_bool_decide as Hmode.
  - apply bind_ok in Hm as ([] & Hg%check_grams_ok & [= <-]). simpl in *.
    unfold match_ok. simpl. split_and!.
    + by destruct (f_eqb (Threshold m) (f_of_N 0)).
    + destruct (Z.eqb_spec (TopK m) 0); lia.
    + destruct (Z.eqb_spec (TopK m) 0); [by compute|lia].
    + left. split_and!; [done|by case_bool_decide|done|by destruct (f_eqb (Threshold m) (f_of_N 0)) eqn:E|].
      by destruct (Z.eqb_spec (TopK m) 0).
    + done.
  - case_bool_decide; [|done]. destruct (ExactCompanion m) eqn:He; [done|]. injection Hm as <-.
    unfold match_ok. split_and!; [done|lia|lia|by right|done].
Qed.

Lemma resolve_match_id m : match_ok m → resolve_match m = Ok m ∧ check_fallback m = Ok ().
Proof.
  intros (_ & _ & Hm & Hf). split.
  - unfold resolve_match. destruct Hm as [(Hm & Hg & Hgs%check_grams_ok & Ht & Hk)|(Hm & Hc)].
    + rewrite bool_decide_eq_true_2 by done. rewrite bool_decide_eq_false_2 by done. rewrite Hgs, Ht. simpl.
      destruct (Z.eqb_spec (TopK m) 0); [done|]. by destruct m.
    + rewrite Hm, bool_decide_eq_false_2, bool_decide_eq_true_2, Hc by done. by destruct m.
  - unfold check_fallback. destruct Hf as [->|[-> ->]]; [done|]. by rewrite bool_decide_eq_false_2, !bool_decide_eq_true_2.
Qed.

Lemma sort_fields_sorted fs : NoDup (Name <$> fs) → names_sorted (sort_slice (less_by Name) fs).
Proof.
  intros Hnd. unfold names_sorted.
  pose proof (sort_slice_by_sorted Name fs) as Hs.
  assert (NoDup (Name <$> sort_slice (less_by Name) fs)) as Hnd' by by rewrite sort_slice_perm.
  induction Hs as [|f l Hl IH Hf]; csimpl in *; [constructor|]. apply NoDup_cons in Hnd' as [Hni Hnd'].
  constructor; [by apply IH|]. apply Forall_fmap, Forall_forall. intros g Hg. simpl.
  rewrite Forall_forall in Hf. destruct (proj1 (bytes_le_lteq _ _) (Hf g Hg)) as [|He]; [done|].
  destruct Hni. apply list_elem_of_fmap. by exists g.
Qed.

Lemma names_sorted_nodup fs : names_sorted fs → NoDup (Name <$> fs).
Proof.
  unfold names_sorted. induction 1 as [|n l Hl IH Hn]; constructor; [|done].
  intros Hin. rewrite Forall_forall in Hn. by apply (irreflexivity bytes_lt n), Hn.
Qed.

Lemma sort_fields_id fs : names_sorted fs → sort_slice (less_by Name) fs = fs.
Proof.
  intros Hs. pose proof (names_sorted_nodup _ Hs) as Hnd. apply (sorted_by_key_unique Name).
  - apply sort_slice_sorted, less_by_weak.
  - unfold names_sorted in Hs. clear Hnd. induction fs as [|f fs IH]; [constructor|]. csimpl in Hs.
    apply StronglySorted_inv in Hs as [Hs Hf]. constructor; [by apply IH|].
    rewrite Forall_fmap in Hf. eapply Forall_impl; [exact Hf|]. intros g Hg. apply less_by_false. by apply bytes_lt_le.
  - by rewrite sort_slice_perm.
  - apply sort_slice_perm.
Qed.

Lemma resolve_analyzer_steps c an : ResolveAnalyzer c = Ok an →
  New (Steps an) = Ok an ∧ (ac_Preset c = [] → Steps an = ac_Steps c).
Proof.
  assert (∀ steps a, New steps = Ok a → Steps a = steps) as Hst.
  { intros steps a. unfold New. by intros (fs & _ & [= <-])%bind_ok. }
  unfold ResolveAnalyzer, Preset. case_bool_decide as Hp; simpl.
  - intros Hn. rewrite (Hst _ _ Hn). by rewrite Hn.
  - destruct (presets !! _); [|done]. intros Hn. by rewrite (Hst _ _ Hn), Hn.
Qed.

Lemma resolved_fixpoint c an : resolved c an → resolveConfig c = Ok (c, an).
Proof.
  intros (Hp & Hn & Hm & Ho & Hg & Hl & Hf & Hs). unfold resolveConfig, ResolveAnalyzer. rewrite Hp, Hn.
  pose proof (resolve_match_id _ Hm) as [Hm1 Hm2]. destruct Hm as (Ht & Hk & _). simpl. rewrite Ht. simpl.
  assert ((TopK (Match c) <? 0)%Z || (maxListTopK <? TopK (Match c))%Z = false) as -> by lia. simpl.
  rewrite Hm1. simpl. rewrite Hm2. simpl.
  assert ((OverlayAutoCompact c <? 0)%Z = false) as -> by lia. simpl. rewrite Hg. simpl.
  assert ((maxFilterFields <? length (Filterable c)) = false) as -> by lia. simpl.
  assert (check_fields 0 ∅ (Filterable c) = Ok ()) as ->.
  { apply check_fields_ok. split_and!; [done|by apply names_sorted_nodup|set_solver]. }
  simpl. rewrite sort_fields_id by done. by destruct c.
Qed.

Lemma resolve_ok c c' an :
  default_threshold_ok → resolveConfig c = Ok (c', an) → resolved c' an.
Proof.
  intros Hd. unfold resolveConfig. destruct (ResolveAnalyzer (lc_Analyzer c)) as [an'|] eqn:Ha; [|done].
  apply resolve_analyzer_steps in Ha as [Hn Hst]. csimpl.
  set (c1 := if negb _ then _ else _). assert (ac_Preset (lc_Analyzer c1) = [] ∧ ac_Steps (lc_Analyzer c1) = Steps an') as [Hp Hs].
  { unfold c1. case_bool_decide as Hp; simpl; [|done]. rewrite Hp. by rewrite Hst. }
  clearbody c1. intros ([] & Ht%fail_if_ok & ([] & Hk%fail_if_ok & (m & Hm & ([] & Hf & ([] & Ho%fail_if_ok &
    ([] & Hg & ([] & Hl%fail_if_ok & ([] & Hc & [= <- <-])%bind_ok)%bind_ok)%bind_ok)%bind_ok)%bind_ok)%bind_ok)%bind_ok)%bind_ok.
  apply check_fields_ok in Hc as (Hfs & Hnd & _). unfold resolved. simpl. split_and!.
  - done.
  - by rewrite Hs.
  - eapply resolve_match_ok; [done|exact Ht|lia|exact Hm|exact Hf].
  - lia.
  - done.
  - rewrite sort_slice_perm. lia.
  - by rewrite sort_slice_perm.
  - by apply sort_fields_sorted.
Qed.

(** The configuration a list is created with is validated and resolved
    once.  When resolution accepts, the result has every range, mode, fallback,
    probe and declaration constraint the query path relies on (name-sorted unique
    declarations, gram sizes in [1, MaxGramSize], no NaN threshold); it no longer
    names a preset; and it is a fixed point: creating a list from the resolved
    configuration resolves to the same configuration and the same analyzer. *)
Theorem resolve_config_fixpoint c c' an :
  default_threshold_ok → resolveConfig c = Ok (c', an) →
  resolved c' an ∧ resolveConfig c' = Ok (c', an).
Proof. intros Hd Hr%resolve_ok; [|done]. split; [done|by apply resolved_fixpoint]. Qed.
End resolve_spec.

(** ** The digest's input *)

Lemma put_u64_length n : length (put_u64 n) = 8.
Proof. done. Qed.

Lemma byte_step n k : (n / 2 ^ (8 * k) = 256 * (n / 2 ^ (8 * (k + 1))) + (n / 2 ^ (8 * k)) mod 256)%N.
Proof.
  replace (8 * (k + 1))%N with (8 * k + 8)%N by lia. rewrite N.pow_add_r, <-N.Div0.div_div.
  change (2 ^ 8)%N with 256%N. apply N.div_mod'.
Qed.

Lemma put_u64_inj a b : (a < 2 ^ 64)%N → (b < 2 ^ 64)%N → put_u64 a = put_u64 b → a = b.
Proof.
  intros Ha Hb H. assert (∀ k, k ∈ [7; 6; 5; 4; 3; 2; 1; 0]%N →
    ((a / 2 ^ (8 * k)) mod 256 = (b / 2 ^ (8 * k)) mod 256)%N) as Hk.
  { unfold put_u64 in H. revert H. generalize [7; 6; 5; 4; 3; 2; 1; 0]%N. intros l.
    induction l as [|i l IH]; [by intros _ k ?%elem_of_nil|]. rewrite !fmap_cons, !N.shiftr_div_pow2.
    intros [= Hi Hl] k [->|Hin]%elem_of_cons; [done|]. by apply IH. }
  assert (∀ j : nat, j ≤ 8 → (a / 2 ^ (8 * N.of_nat (8 - j)) = b / 2 ^ (8 * N.of_nat (8 - j)))%N) as Hall.
  { induction j as [|j IH]; intros Hj; [by rewrite !N.div_small by (apply (N.lt_le_trans _ (2 ^ 64)); done)|].
    rewrite (byte_step a), (byte_step b). replace (N.of_nat (8 - S j) + 1)%N with (N.of_nat (8 - j)) by lia.
    rewrite (IH ltac:(lia)). f_equal. apply Hk.
    do 8 (destruct j as [|j]; [cbn; repeat (apply elem_of_cons; (by left) || right)|]). lia. }
  specialize (Hall 8 ltac:(lia)). simpl in Hall. by rewrite !N.div_1_r in Hall.
Qed.

Lemma length_prefixed_inj a b ta tb :
  (N.of_nat (length a) < 2 ^ 64)%N → (N.of_nat (length b) < 2 ^ 64)%N →
  length_prefixed a ++ ta = length_prefixed b ++ tb → a = b ∧ ta = tb.
Proof.
  intros Ha Hb. unfold length_prefixed. rewrite !u64_small by done. rewrite <-!app_assoc. intros H.
  apply app_inj_1 in H as [Hl%put_u64_inj H]; [|done..]. apply app_inj_1; [lia|done].
Qed.

(** The digest input is unambiguous.  Two configurations whose analyzers'
    steps and encodings fit a 64-bit length feed the hash the same bytes only when
    both the encoded configuration and the whole step list are equal: no step can
    borrow bytes from its neighbour or from the configuration. *)
Theorem config_preimage_injective `{DigestLib} c1 c2 steps1 steps2 :
  Forall (λ s, (N.of_nat (length s) < 2 ^ 64)%N) (marshal_config c1 :: marshal_config c2 :: steps1 ++ steps2) →
  config_preimage c1 steps1 = config_preimage c2 steps2 →
  marshal_config c1 = marshal_config c2 ∧ steps1 = steps2.
Proof.
  rewrite !Forall_cons, Forall_app. intros (H1 & H2 & Hs1 & Hs2). unfold config_preimage.
  intros He%app_inv_head. apply length_prefixed_inj in He as [Hm He]; [|done..]. split; [done|]. clear Hm H1 H2.
  revert steps2 Hs2 He. induction Hs1 as [|s1 steps1 Hs Hs1 IH]; intros [|s2 steps2] Hs2; try done.
  apply Forall_cons in Hs2 as [Hl2 Hs2]. rewrite !bind_cons. intros He.
  apply length_prefixed_inj in He as [-> He]; [|done..]. f_equal. by apply IH.
Qed.

(** ** Concrete configurations *)

Definition demo_match : MatchConfig (FO:=exact_ops id) := mkMatchConfig m_ngram [] true [] false (f_of_N 0) 0.
Definition demo_config : ListConfig (FO:=exact_ops id) :=
  mkListConfig (mkAnalyzerConfig ($"identifier") []) demo_match []
    [mkField ($"year") ($"years"); mkField ($"grade") ($"meta.grade")] 500.
Definition demo_digest : DigestLib (FO:=exact_ops id) :=
  {| sha256 := λ b, b; marshal_config := λ c, Mode (Match c) |}.

Definition demo_resolved := @resolveConfig default_runtime ascii_text (exact_ops id) demo_config.

Lemma resolve_config_fixpoint_witness :
  match demo_resolved with Ok (c, _) => (mc_Grams (Match c), Name <$> Filterable c) | Err _ => ([], []) end
    = ([2; 3]%Z, [$"grade"; $"year"]) ∧
  match demo_resolved with
  | Ok (c, an) => @resolveConfig default_runtime ascii_text (exact_ops id) c = Ok (c, an)
  | Err _ => True
  end.
Proof.
  split; [vm_compute; reflexivity|]. destruct demo_resolved as [[c an]|e] eqn:Hr; [|exact I].
  apply (resolve_config_fixpoint demo_config c an); [split; vm_compute; reflexivity|exact Hr].
Defined.

Lemma config_preimage_injective_witness :
  let c := demo_config in
  @config_preimage _ demo_digest c [$"ab"; $"c"] ≠ @config_preimage _ demo_digest c [$"a"; $"bc"].
Proof.
  intros c He. apply (@config_preimage_injective _ demo_digest c c [$"ab"; $"c"] [$"a"; $"bc"]) in He as [_ He].
  - discriminate.
  - repeat constructor.
Defined.
