(* ===== verification/Segment.v ===== *)
(** Segments of [engine/list.go]: [buildSegment], [buildCompanion],
    [dedupeLastWins] and [applyBuildInfo].

    A segment is an ordinal-aligned block of entries with its indexes.  The loop
    of [buildSegment] is [build_entries]; [Err Panicked] stands for a run-time
    panic of a builder and is shown not to occur. *)

From S2P Require Import Prelude.
From S2P Require Import Runtime.
From S2P Require Import Analyzer.
From S2P Require Import Score.
From S2P Require Import Bitmap.
From S2P Require Import Filter.
From S2P Require Import Payload.
From S2P Require Import Types.
From S2P Require Import ListConfig.
From S2P Require Ngram.
From S2P Require Exact.

Record IndexBuildInfo := mkBuildInfo { bi_Entries : Z; bi_DroppedKeys : Z; bi_KeylessEntries : Z }.

Inductive list_error :=
  | ReadOnly (op : bytes)
  | IndexFailed (e : Exact.exact_error)
  | CompanionFailed (e : Exact.exact_error)
  | NeedsNgramMode (mode : bytes)
  | NeedsExactMode (mode : bytes)
  | NilIndex
  | CompanionMissing
  | CompanionUnexpected
  | IndexTooLong (ords : N) (entries : nat)
  | CompanionTooLong (ords : N) (entries : nat)
  | BuildInfoImpossible (bi : IndexBuildInfo) (entries : nat)
  | BuildInfoTooShort (ords : N) (entries : Z)
  | Panicked.

(** ** Deduplication *)

(** The first loop: the last position of each ID, and whether one repeats. *)
Fixpoint last_positions (i : nat) (es : list Entry) (lst : gmap bytes nat) (dup : bool) : gmap bytes nat * bool :=
  match es with
  | [] => (lst, dup)
  | e :: es' => last_positions (S i) es' (<[ID e := i]> lst) (dup || bool_decide (is_Some (lst !! ID e)))
  end.

Definition dedupeLastWins (es : list Entry) : list Entry :=
  let '(lst, dup) := last_positions 0 es ∅ false in
  if negb dup then es
  else (filter (λ ie, lst !! ID ie.2 = Some ie.1) (imap pair es)).*2.

Section segment.
Context {RT : GoRuntime} {TL : TextLib} {BL : BitmapLib} {FO : FloatOps}.

Record segment := mkSegment {
  entries : list Entry;
  byID : gmap bytes N;
  ng : option Ngram.Index;
  ex : option Exact.Index;
  payloadBytes : Z;
  droppedKeys : Z;
  keylessEntries : Z;
  unindexedEntries : Z;
  totalKeys : Z;
}.

(** ** buildSegment *)

Definition ngram_config (m : MatchConfig) : Ngram.Config := Ngram.mkConfig (mc_Grams m) (mc_StripSpaces m).

(** [mode == "exact" || exact_companion]: also [HasExactIndex]. *)
Definition has_exact (m : MatchConfig) : bool := bool_decide (Mode m = m_exact) || ExactCompanion m.

(** One key: the analyzed keys so far and the dropped-key counter. *)
Definition analyze_key (an : Analyzer) (st : list bytes * Z) (k : bytes) : list bytes * Z :=
  let a := Normalize an k in
  if negb (bool_decide (a = [])) then (st.1 ++ [a], st.2) else (st.1, st.2 + 1)%Z.

Definition build_state : Type := segment * option Ngram.Builder * option Exact.Builder.

(** A builder that may be nil. *)
Definition opt_add {B} (add : B → option B) (b : option B) : option (option B) :=
  match b with None => Some None | Some b => Some <$> add b end.

Definition build_entry (an : Analyzer) (i : nat) (e : Entry) (st : build_state) : option build_state :=
  let '(seg, ngb, exb) := st in
  let ord := u32 (N.of_nat i) in
  let '(keys, dropped) := foldl (analyze_key an) ([], droppedKeys seg) (Keys e) in
  let keyless := if (length keys =? 0) && (0 <? length (Keys e)) then (keylessEntries seg + 1)%Z else keylessEntries seg in
  let seg := mkSegment (entries seg) (<[ID e := ord]> (byID seg)) (ng seg) (ex seg)
               (payloadBytes seg + Z.of_nat (length (Payload e)))%Z dropped keyless
               (unindexedEntries seg) (totalKeys seg + Z.of_nat (length (Keys e)))%Z in
  ngb ← opt_add (λ b, Ngram.Add b ord keys) ngb;
  exb ← opt_add (λ b, Exact.Add b ord keys) exb;
  Some (seg, ngb, exb).

Fixpoint build_entries (an : Analyzer) (i : nat) (es : list Entry) (st : build_state) : option build_state :=
  match es with
  | [] => Some st
  | e :: es' => st ← build_entry an i e st; build_entries an (S i) es' st
  end.

Definition empty_segment (es : list Entry) : segment := mkSegment es ∅ None None 0 0 0 0 0.

Definition or_panic {A} (o : option A) : result list_error A :=
  match o with Some a => Ok a | None => Err Panicked end.

Definition buildSegment (m : MatchConfig) (an : Analyzer) (es : list Entry) : result list_error segment :=
  ngb ← (if bool_decide (Mode m = m_ngram) then Some <$> or_panic (Ngram.NewBuilder (ngram_config m)) else Ok None);
  let exb := if has_exact m then Some Exact.NewBuilder else None in
  st ← or_panic (build_entries an 0 es (empty_segment es, ngb, exb));
  let '(seg, ngb, exb) := st in
  ngi ← (match ngb with None => Ok None | Some b => (Some ∘ fst) <$> or_panic (Ngram.Finish b) end);
  exi ← (match exb with
         | None => Ok None
         | Some b => match (Exact.Finish b).1 with Ok i => Ok (Some i) | Err e => Err (IndexFailed e) end
         end);
  Ok (mkSegment (entries seg) (byID seg) ngi exi (payloadBytes seg) (droppedKeys seg)
        (keylessEntries seg) (unindexedEntries seg) (totalKeys seg)).

(** ** buildCompanion *)

Fixpoint companion_entries (an : Analyzer) (i : nat) (es : list Entry) (b : Exact.Builder) : option Exact.Builder :=
  match es with
  | [] => Some b
  | e :: es' =>
      let keys := foldl (λ ks k, let a := Normalize an k in if negb (bool_decide (a = [])) then ks ++ [a] else ks)
                    [] (Keys e) in
      b ← Exact.Add b (u32 (N.of_nat i)) keys;
      companion_entries an (S i) es' b
  end.

Definition buildCompanion (an : Analyzer) (es : list Entry) : result list_error Exact.Index :=
  b ← or_panic (companion_entries an 0 es Exact.NewBuilder);
  match (Exact.Finish b).1 with Ok i => Ok i | Err e => Err (CompanionFailed e) end.

(** ** Prebuilt indexes *)

(** [applyBuildInfo] on the counters (dropped, keyless, unindexed). *)
Definition applyBuildInfo (bi : option IndexBuildInfo) (n : nat) (ords : N) : result list_error (Z * Z * Z) :=
  match bi with
  | None => Ok (0, 0, 0)%Z
  | Some bi =>
      if (bi_Entries bi <? 0)%Z || (bi_DroppedKeys bi <? 0)%Z || (bi_KeylessEntries bi <? 0)%Z ||
         (bi_Entries bi <? bi_KeylessEntries bi)%Z || (Z.of_nat n <? bi_Entries bi)%Z
      then Err (BuildInfoImpossible bi n)
      else if (bi_Entries bi <? Z.of_N ords)%Z then Err (BuildInfoTooShort ords (bi_Entries bi))
      else
        let u := (Z.of_nat n - bi_Entries bi)%Z in
        Ok (bi_DroppedKeys bi, bi_KeylessEntries bi, if (0 <? u)%Z then u else 0%Z)
  end.

(** The loop that fills byID and the totals of a prebuilt segment. *)
Definition index_entry (st : gmap bytes N * Z * Z) (ie : nat * Entry) : gmap bytes N * Z * Z :=
  let '(ids, payload, keys) := st in
  (<[ID ie.2 := u32 (N.of_nat ie.1)]> ids, (payload + Z.of_nat (length (Payload ie.2)))%Z,
   (keys + Z.of_nat (length (Keys ie.2)))%Z).

Definition prebuilt_segment (es : list Entry) (ngi : option Ngram.Index) (exi : option Exact.Index)
    (counters : Z * Z * Z) : segment :=
  let '(dropped, keyless, unindexed) := counters in
  let '(ids, payload, keys) := foldl index_entry (∅, 0%Z, 0%Z) (imap pair es) in
  mkSegment es ids ngi exi payload dropped keyless unindexed keys.
End segment.

(** ** Positions and IDs *)

(** The entries with their ordinals, from [i] on. *)
Fixpoint number (i : nat) (es : list Entry) : list (nat * Entry) :=
  match es with [] => [] | e :: es' => (i, e) :: number (S i) es' end.

Lemma imap_number i es : imap (λ j e, (i + j, e)) es = number i es.
Proof.
  revert i. induction es as [|e es IH]; intros i; [done|]. rewrite imap_cons. simpl. rewrite Nat.add_0_r. f_equal.
  rewrite <-IH. apply imap_ext. intros j x _. simpl. f_equal. lia.
Qed.
Lemma imap_pair_number es : imap pair es = number 0 es.
Proof. rewrite <-imap_number. by apply imap_ext. Qed.

Lemma elem_of_number i es j e : (j, e) ∈ number i es ↔ ∃ k, j = i + k ∧ es !! k = Some e.
Proof.
  rewrite <-imap_number, elem_of_lookup_imap. split.
  - intros (k & x & [= -> ->] & Hk). by exists k.
  - intros (k & -> & Hk). by exists k, e.
Qed.
Lemma number_snd i es : (number i es).*2 = es.
Proof. revert i. induction es as [|e es IH]; intros i; csimpl; [done|]. by rewrite IH. Qed.
Lemma number_nodup i es : NoDup (number i es).
Proof.
  revert i. induction es as [|e es IH]; intros i; simpl; constructor; [|done].
  intros (k & Hk & _)%elem_of_number. lia.
Qed.

(** The last entry of each ID. *)
Definition entry_map (es : list Entry) : gmap bytes Entry := foldl (λ m e, <[ID e := e]> m) ∅ es.

Definition last_at (es : list Entry) (k : nat) (e : Entry) : Prop :=
  es !! k = Some e ∧ ∀ k' e', k < k' → es !! k' = Some e' → ID e' ≠ ID e.

Lemma entry_map_spec es id e : entry_map es !! id = Some e ↔ ∃ k, last_at es k e ∧ ID e = id.
Proof.
  unfold entry_map, last_at. induction es as [|x es IH] using rev_ind.
  { simpl. rewrite lookup_empty. split; [done|]. by intros (k & [Hk _] & _). }
  rewrite foldl_app. cbn [foldl]. destruct (decide (ID x = id)) as [<-|Hne].
  - rewrite lookup_insert_eq. split.
    + intros [= <-]. exists (length es). split_and!; [by apply list_lookup_middle| |done].
      intros k' e' Hk' He'%lookup_lt_Some. rewrite length_app in He'. simpl in He'. lia.
    + intros (k & [Hk Hlast] & Hid). apply lookup_app_Some in Hk as [Hk|[Hk Hx]].
      * destruct (Hlast (length es) x); [by eapply lookup_lt_Some|by apply list_lookup_middle|done].
      * by apply list_lookup_singleton_Some in Hx as [_ ->].
  - rewrite lookup_insert_ne, IH by done. split.
    + intros (k & [Hk Hlast] & <-). exists k. split_and!; [by apply lookup_app_l_Some| |done].
      intros k' e' Hk' He'. apply lookup_app_Some in He' as [He'|[_ Hx]]; [by eapply Hlast|].
      by apply list_lookup_singleton_Some in Hx as [_ <-].
    + intros (k & [Hk Hlast] & Hid). exists k. apply lookup_app_Some in Hk as [Hk|[_ Hx]].
      * split_and!; [done| |done]. intros k' e' Hk' He'. apply (Hlast k'); [done|]. by apply lookup_app_l_Some.
      * by apply list_lookup_singleton_Some in Hx as [_ <-].
Qed.

Lemma last_positions_map i es lst dup id j :
  (last_positions i es lst dup).1 !! id = Some j ↔
  (∃ k e, j = i + k ∧ last_at es k e ∧ ID e = id) ∨ (lst !! id = Some j ∧ id ∉ ID <$> es).
Proof.
  revert i lst dup. induction es as [|x es IH]; intros i lst dup; cbn [last_positions].
  { simpl. split; [intros ?; right; split; [done|apply not_elem_of_nil]|].
    intros [(k & e & _ & [Hk _] & _)|[? _]]; done. }
  rewrite IH. unfold last_at. csimpl. rewrite not_elem_of_cons. split.
  - intros [(k & e & -> & [Hk Hl] & Hid)|[Hlk Hni]].
    + left. exists (S k), e. split_and!; [lia|done| |done]. intros [|k'] e' Hk' He'; [lia|].
      apply (Hl k'); [lia|done].
    + destruct (decide (ID x = id)) as [<-|Hne].
      * rewrite lookup_insert_eq in Hlk. injection Hlk as <-. left. exists 0, x. split_and!; [lia|done| |done].
        intros [|k'] e' Hk' He'; [lia|]. intros Heq. apply Hni. rewrite <-Heq. apply list_elem_of_fmap_2.
        by eapply list_elem_of_lookup_2.
      * rewrite lookup_insert_ne in Hlk by done. right. split; [done|]. by split.
  - intros [(k & e & -> & [Hk Hl] & Hid)|[Hlk [Hne Hni]]].
    + destruct k as [|k]; simpl in Hk.
      * injection Hk as ->. right. rewrite <-Hid, lookup_insert_eq. split; [f_equal; lia|].
        intros (e' & Heq & [k' Hk']%list_elem_of_lookup)%list_elem_of_fmap.
        by apply (Hl (S k') e'); [lia|done|].
      * left. exists k, e. split_and!; [lia|done| |done]. intros k' e' Hk' He'. apply (Hl (S k')); [lia|done].
    + right. by rewrite lookup_insert_ne.
Qed.

Lemma last_positions_dup i es lst dup :
  (last_positions i es lst dup).2 = false ↔
  dup = false ∧ NoDup (ID <$> es) ∧ ∀ e, e ∈ es → lst !! ID e = None.
Proof.
  revert i lst dup. induction es as [|x es IH]; intros i lst dup; cbn [last_positions].
  { csimpl. split; [|tauto]. intros ->. split_and!; [done|constructor|by intros ? ?%elem_of_nil]. }
  rewrite IH, orb_false_iff, bool_decide_eq_false, <-eq_None_not_Some. csimpl. rewrite NoDup_cons.
  setoid_rewrite elem_of_cons. setoid_rewrite lookup_insert_None.
  split.
  - intros ([-> Hx] & Hnd & Hl). split_and!; [done| |done|].
    + intros (e & He & Hin)%list_elem_of_fmap. by destruct (Hl e Hin).
    + intros e [->|Hin]; [done|]. by destruct (Hl e Hin).
  - intros (-> & [Hni Hnd] & Hl). split_and!; [done|by apply Hl; left|done|]. intros e Hin. split; [by apply Hl; right|].
    intros Heq. apply Hni. rewrite Heq. by apply list_elem_of_fmap_2.
Qed.

Lemma last_at_nodup es k e : NoDup (ID <$> es) → es !! k = Some e → last_at es k e.
Proof.
  intros Hnd Hk. split; [done|]. intros k' e' Hlt Hk' Heq. assert (k = k'); [|lia].
  eapply NoDup_lookup; [exact Hnd| |]; rewrite list_lookup_fmap, ?Hk, ?Hk'; simpl; by rewrite ?Heq.
Qed.

(** Membership, order and uniqueness of the deduplicated entries. *)
Lemma dedupe_spec es :
  NoDup (ID <$> dedupeLastWins es) ∧ dedupeLastWins es `sublist_of` es ∧
  ∀ e, e ∈ dedupeLastWins es ↔ entry_map es !! ID e = Some e.
Proof.
  unfold dedupeLastWins. destruct (last_positions 0 es ∅ false) as [lst dup] eqn:Hlp.
  pose proof (last_positions_dup 0 es ∅ false) as Hd. pose proof (last_positions_map 0 es ∅ false) as Hm.
  rewrite Hlp in Hd, Hm. simpl in Hd, Hm. destruct dup; simpl.
  - rewrite imap_pair_number.
    assert (∀ j e, (j, e) ∈ filter (λ ie, lst !! ID ie.2 = Some ie.1) (number 0 es) ↔ last_at es j e) as Hin.
    { intros j e. rewrite list_elem_of_filter, elem_of_number. simpl. rewrite Hm, lookup_empty. split.
      - intros ([(k & e' & -> & Hl & Hid)|[? _]] & k' & Hj & Hk'); [|done]. simpl in Hj. subst k'.
        destruct Hl as [Hk Hl]. split; [done|]. assert (e = e') as -> by congruence. done.
      - intros Hl. split; [left; by exists j, e|]. exists j. split; [done|]. apply Hl. }
    split_and!.
    + rewrite <-list_fmap_compose. apply NoDup_fmap_2_strong; [|by apply NoDup_filter, number_nodup].
      intros [j e] [j' e'] Hje%list_elem_of_filter Hje'%list_elem_of_filter Hid. simpl in *.
      destruct Hje as [Hj Hn], Hje' as [Hj' Hn']. rewrite Hid, Hj' in Hj. injection Hj as ->.
      apply elem_of_number in Hn as (k & -> & Hk), Hn' as (k' & Hkk & Hk'). simpl in *. congruence.
    + rewrite <-(number_snd 0 es) at 2. apply fmap_sublist, sublist_filter.
    + intros e. rewrite list_elem_of_fmap, entry_map_spec. split.
      * intros ([j e'] & -> & Hj%Hin). by exists j.
      * intros (k & Hk & _). exists (k, e). split; [done|]. by apply Hin.
  - destruct Hd as [(_ & Hnd & _) _]; [done|].
    split_and!; [done|done|]. intros e. rewrite entry_map_spec. split.
    + intros [k Hk]%list_elem_of_lookup. exists k. split; [|done]. by apply last_at_nodup.
    + intros (k & [Hk _] & _). by eapply list_elem_of_lookup_2.
Qed.

(** ** What a built segment holds *)

Definition sum_Z {A} (f : A → Z) (l : list A) : Z := foldr (λ x acc, f x + acc)%Z 0%Z l.

Lemma sum_Z_app {A} (f : A → Z) l1 l2 : sum_Z f (l1 ++ l2) = (sum_Z f l1 + sum_Z f l2)%Z.
Proof. induction l1 as [|x l1 IH]; simpl; lia. Qed.
Lemma sum_Z_perm {A} (f : A → Z) l1 l2 : l1 ≡ₚ l2 → sum_Z f l1 = sum_Z f l2.
Proof. induction 1; simpl; lia. Qed.
Lemma sum_Z_nonneg {A} (f : A → Z) l : (∀ x, 0 ≤ f x)%Z → (0 ≤ sum_Z f l)%Z.
Proof. intros Hf. induction l as [|x l IH]; simpl; [lia|]. specialize (Hf x). lia. Qed.

(** The analyzed keys of an entry that are indexed. *)
Definition analyzed (an : Analyzer) (keys : list bytes) : list bytes := filter (λ k, k ≠ []) (Normalize an <$> keys).
Definition lost_keys (an : Analyzer) (e : Entry) : Z := Z.of_nat (length (Keys e)) - Z.of_nat (length (analyzed an (Keys e))).
Definition keyless (an : Analyzer) (e : Entry) : Z :=
  if bool_decide (Keys e ≠ [] ∧ analyzed an (Keys e) = []) then 1 else 0.
Definition raw_keys (e : Entry) : Z := Z.of_nat (length (Keys e)).
Definition payload_len (e : Entry) : Z := Z.of_nat (length (Payload e)).

(** The Adds of the build loop. *)
Definition adds_from (an : Analyzer) (i : nat) (es : list Entry) : list (N * list bytes) :=
  (λ ie, (u32 (N.of_nat ie.1), analyzed an (Keys ie.2))) <$> number i es.

Definition ids_from (i : nat) (es : list Entry) (m : gmap bytes N) : gmap bytes N :=
  foldl (λ m ie, <[ID ie.2 := u32 (N.of_nat ie.1)]> m) m (number i es).

Lemma ids_from_lookup i es m id :
  NoDup (ID <$> es) →
  ids_from i es m !! id =
  match list_find (λ e, ID e = id) es with Some (k, _) => Some (u32 (N.of_nat (i + k))) | None => m !! id end.
Proof.
  unfold ids_from. revert i m. induction es as [|e es IH]; intros i m Hnd; [done|]. csimpl in Hnd.
  apply NoDup_cons in Hnd as [Hni Hnd]. cbn [number foldl]. rewrite IH by done. cbn [list_find fst snd].
  case_decide as Hid.
  - rewrite Nat.add_0_r. destruct (list_find _ es) as [[k e']|] eqn:Hf.
    + apply list_find_Some in Hf as (Hk & Hid' & _). destruct Hni. rewrite Hid, <-Hid'.
      apply list_elem_of_fmap_2. by eapply list_elem_of_lookup_2.
    + by rewrite Hid, lookup_insert_eq.
  - destruct (list_find _ es) as [[k e']|]; simpl; [do 3 f_equal; lia|]. by rewrite lookup_insert_ne.
Qed.

Lemma ids_from_spec es id o :
  NoDup (ID <$> es) → (N.of_nat (length es) <= 2 ^ 32)%N →
  ids_from 0 es ∅ !! id = Some o ↔ ∃ e, es !! N.to_nat o = Some e ∧ ID e = id.
Proof.
  intros Hnd Hlen. rewrite ids_from_lookup by done. simpl.
  destruct (list_find (λ e, ID e = id) es) as [[k e]|] eqn:Hf.
  - apply list_find_Some in Hf as (Hk & Hid & _). pose proof (lookup_lt_Some _ _ _ Hk).
    rewrite u32_small by lia. split.
    + intros [= <-]. exists e. by rewrite Nat2N.id.
    + intros (e' & Hk' & Hid'). f_equal.
      assert (k = N.to_nat o) as ->; [|lia]. eapply NoDup_lookup; [exact Hnd| |];
        rewrite list_lookup_fmap, ?Hk, ?Hk'; simpl; by rewrite ?Hid, ?Hid'.
  - rewrite lookup_empty. split; [done|]. intros (e & Hk & Hid). apply list_find_None in Hf.
    rewrite Forall_forall in Hf. destruct (Hf e); [by eapply list_elem_of_lookup_2|done].
Qed.

Lemma ids_from_dom es id : is_Some (ids_from 0 es ∅ !! id) ↔ id ∈ ID <$> es.
Proof.
  unfold ids_from. assert (∀ l (m : gmap bytes N), is_Some (foldl (λ m (ie : nat * Entry), <[ID ie.2 := u32 (N.of_nat ie.1)]> m) m l !! id) ↔
    id ∈ ID <$> l.*2 ∨ is_Some (m !! id)) as H.
  { induction l as [|[j e] l IH]; intros m; csimpl; [set_solver|]. rewrite IH, lookup_insert_is_Some', elem_of_cons.
    naive_solver. }
  rewrite H, number_snd, lookup_empty. split; [intros [?|[? ?]]; done|by left].
Qed.

Lemma adds_sorted an i es :
  (N.of_nat (i + length es) <= 2 ^ 32)%N → StronglySorted N.lt (adds_from an i es).*1.
Proof.
  unfold adds_from. revert i. induction es as [|e es IH]; intros i Hl; [constructor|]. csimpl in *.
  constructor; [apply IH; lia|]. apply Forall_forall.
  intros x ([o ks] & -> & ([j e'] & [= -> ->] & (k & -> & Hk)%elem_of_number)%list_elem_of_fmap)%list_elem_of_fmap.
  apply lookup_lt_Some in Hk. simpl. rewrite !u32_small by lia. lia.
Qed.

Lemma elem_of_adds an es o keys :
  (N.of_nat (length es) <= 2 ^ 32)%N →
  (o, keys) ∈ adds_from an 0 es ↔ ∃ e, es !! N.to_nat o = Some e ∧ keys = analyzed an (Keys e).
Proof.
  intros Hl. unfold adds_from. rewrite list_elem_of_fmap. split.
  - intros ([j e] & [= -> ->] & (k & -> & Hk)%elem_of_number). exists e. pose proof (lookup_lt_Some _ _ _ Hk).
    simpl. rewrite u32_small by lia. by rewrite Nat2N.id.
  - intros (e & Hk & ->). exists (N.to_nat o, e). pose proof (lookup_lt_Some _ _ _ Hk). simpl.
    rewrite u32_small, N2Nat.id by lia. split; [done|]. apply elem_of_number. by exists (N.to_nat o).
Qed.

Lemma keyless_counter an e :
  keyless an e = if (length (analyzed an (Keys e)) =? 0) && (0 <? length (Keys e)) then 1%Z else 0%Z.
Proof.
  unfold keyless. destruct (Keys e) as [|k ks]; [rewrite andb_false_r; by rewrite bool_decide_eq_false_2 by naive_solver|].
  rewrite andb_true_r. destruct (analyzed an (k :: ks)); simpl; by rewrite ?bool_decide_eq_true_2, ?bool_decide_eq_false_2 by naive_solver.
Qed.

#[local] Opaque Exact.Finish Exact.finished.

Section segment_spec.
Context {RT : GoRuntime} {TL : TextLib} {BL : BitmapLib} {FO : FloatOps}.

Lemma analyze_keys an ks pre d :
  foldl (analyze_key an) (pre, d) ks =
  (pre ++ analyzed an ks, d + (Z.of_nat (length ks) - Z.of_nat (length (analyzed an ks))))%Z.
Proof.
  revert pre d. induction ks as [|k ks IH]; intros pre d; cbn [foldl].
  { unfold analyzed. simpl. rewrite app_nil_r. f_equal. lia. }
  unfold analyze_key at 2. simpl. unfold analyzed in *. rewrite fmap_cons, filter_cons. case_bool_decide as Hk; simpl.
  - rewrite IH, decide_False by tauto. f_equal. simpl. lia.
  - rewrite IH, decide_True by done. rewrite <-app_assoc. f_equal. simpl. lia.
Qed.

Definition counted (an : Analyzer) (i : nat) (es : list Entry) (seg : segment) : segment :=
  mkSegment (entries seg) (ids_from i es (byID seg)) (ng seg) (ex seg)
    (payloadBytes seg + sum_Z payload_len es) (droppedKeys seg + sum_Z (lost_keys an) es)
    (keylessEntries seg + sum_Z (keyless an) es) (unindexedEntries seg) (totalKeys seg + sum_Z raw_keys es).

Lemma build_entries_eq an i es seg ngb exb :
  build_entries an i es (seg, ngb, exb) =
  ngb' ← opt_add (Ngram.add_all (adds_from an i es)) ngb;
  exb' ← opt_add (Exact.add_all (adds_from an i es)) exb;
  Some (counted an i es seg, ngb', exb').
Proof.
  assert (∀ a l b, Ngram.add_all (a :: l) b = b ← Ngram.Add b a.1 a.2; Ngram.add_all l b) as Hn.
  { intros a l b. unfold Ngram.add_all. cbn [foldl]. simpl. destruct (Ngram.Add b a.1 a.2); simpl; [done|].
    induction l; simpl; [done|exact IHl]. }
  assert (∀ a l b, Exact.add_all (a :: l) b = b ← Exact.Add b a.1 a.2; Exact.add_all l b) as He.
  { intros a l b. unfold Exact.add_all. cbn [foldl]. simpl. destruct (Exact.Add b a.1 a.2); simpl; [done|].
    induction l; simpl; [done|exact IHl]. }
  revert i seg ngb exb. induction es as [|e es IH]; intros i seg ngb exb.
  { unfold counted. simpl. destruct seg, ngb, exb; simpl; by rewrite !Z.add_0_r. }
  cbn [build_entries build_entry]. rewrite analyze_keys. simpl.
  change (adds_from an i (e :: es)) with ((u32 (N.of_nat i), analyzed an (Keys e)) :: adds_from an (S i) es).
  assert (∀ ng' ex', counted an (S i) es
    (mkSegment (entries seg) (<[ID e := u32 (N.of_nat i)]> (byID seg)) ng' ex'
      (payloadBytes seg + Z.of_nat (length (Payload e)))
      (droppedKeys seg + (Z.of_nat (length (Keys e)) - Z.of_nat (length (analyzed an (Keys e)))))
      (if (length (analyzed an (Keys e)) =? 0) && (0 <? length (Keys e))
       then (keylessEntries seg + 1)%Z else keylessEntries seg)
      (unindexedEntries seg) (totalKeys seg + Z.of_nat (length (Keys e)))) =
    counted an i (e :: es) (mkSegment (entries seg) (byID seg) ng' ex' (payloadBytes seg) (droppedKeys seg)
      (keylessEntries seg) (unindexedEntries seg) (totalKeys seg))) as Hc.
  { intros ng' ex'. unfold counted. simpl. f_equal; unfold payload_len, lost_keys, raw_keys; try lia.
    rewrite (keyless_counter an e). destruct (_ && _); lia. }
  destruct ngb as [ngb|]; cbn [opt_add]; simpl.
  - rewrite Hn. simpl. destruct (Ngram.Add ngb _ _) as [ngb'|]; simpl; [|done]. destruct exb as [exb|]; simpl.
    + rewrite He. simpl. destruct (Exact.Add exb _ _) as [exb'|]; simpl; [|by destruct (Ngram.add_all _ _)].
      rewrite IH, Hc. done.
    + rewrite IH, Hc. done.
  - destruct exb as [exb|]; simpl.
    + rewrite He. simpl. destruct (Exact.Add exb _ _) as [exb'|]; simpl; [|done]. rewrite IH, Hc. done.
    + rewrite IH, Hc. done.
Qed.

(** A segment built over [es]: entries, IDs, totals, loss counters and the
    indexes the mode asks for. *)
Definition built (m : MatchConfig) (an : Analyzer) (es : list Entry) (seg : segment) : Prop :=
  entries seg = es ∧ byID seg = ids_from 0 es ∅ ∧
  payloadBytes seg = sum_Z payload_len es ∧ droppedKeys seg = sum_Z (lost_keys an) es ∧
  keylessEntries seg = sum_Z (keyless an) es ∧ unindexedEntries seg = 0%Z ∧ totalKeys seg = sum_Z raw_keys es ∧
  (if bool_decide (Mode m = m_ngram)
   then ∃ i, ng seg = Some i ∧ Ngram.built_from (ngram_config m) (adds_from an 0 es) i else ng seg = None) ∧
  (if has_exact m
   then ∃ i, ex seg = Some i ∧ Exact.finished (adds_from an 0 es) (Ok i) else ex seg = None).

Lemma build_segment m an es :
  match_ok m → (N.of_nat (length es) <= 2 ^ 32)%N →
  match buildSegment m an es with
  | Ok seg => built m an es seg
  | Err (IndexFailed e) => has_exact m = true ∧ Exact.finished (adds_from an 0 es) (Err e)
  | Err _ => False
  end.
Proof.
  intros Hm Hlen. unfold buildSegment. set (adds := adds_from an 0 es).
  destruct (Exact.finish_adds adds) as (exb' & Hex & _ & Hfin); [by apply adds_sorted|].
  assert (∀ ngo exo,
    (if bool_decide (Mode m = m_ngram) then ∃ i, ngo = Some i ∧ Ngram.built_from (ngram_config m) adds i else ngo = None) →
    (if has_exact m then ∃ i, exo = Some i ∧ Exact.finished adds (Ok i) else exo = None) →
    built m an es (mkSegment es (ids_from 0 es ∅) ngo exo (0 + sum_Z payload_len es) (0 + sum_Z (lost_keys an) es)
      (0 + sum_Z (keyless an) es) 0 (0 + sum_Z raw_keys es))) as Hb.
  { intros ngo exo Hn He. unfold built. simpl. by split_and!. }
  revert Hb. case_bool_decide as Hmode; destruct (has_exact m); intros Hb.
  - destruct Hm as (_ & _ & [(_ & _ & Hg & _)|[Hme _]] & _); [|rewrite Hme in Hmode; discriminate].
    destruct (Ngram.build_adds (ngram_config m) adds) as (b0 & b1 & i & b & H0 & H1 & Hf & _ & Hi).
    { simpl. eapply Forall_impl; [exact Hg|]. intros g. simpl. lia. }
    rewrite H0. simpl. rewrite build_entries_eq. fold adds. simpl. rewrite H1. simpl. rewrite Hex. simpl.
    rewrite Hf. simpl. destruct (Exact.Finish exb').1 as [x|e]; simpl; [|done]. apply Hb; eauto.
  - destruct Hm as (_ & _ & [(_ & _ & Hg & _)|[Hme _]] & _); [|rewrite Hme in Hmode; discriminate].
    destruct (Ngram.build_adds (ngram_config m) adds) as (b0 & b1 & i & b & H0 & H1 & Hf & _ & Hi).
    { simpl. eapply Forall_impl; [exact Hg|]. intros g. simpl. lia. }
    rewrite H0. simpl. rewrite build_entries_eq. fold adds. simpl. rewrite H1. simpl. rewrite Hf. simpl. apply Hb; eauto.
  - simpl. rewrite build_entries_eq. fold adds. simpl. rewrite Hex. simpl.
    destruct (Exact.Finish exb').1 as [x|e]; simpl; [|done]. apply Hb; eauto.
  - simpl. rewrite build_entries_eq. simpl. apply Hb; eauto.
Qed.

(** ** The indexes of a built segment *)

Lemma elem_of_analyzed an keys k : k ∈ analyzed an keys ↔ k ≠ [] ∧ k ∈ Normalize an <$> keys.
Proof. unfold analyzed. by rewrite list_elem_of_filter. Qed.

Lemma holders_entries an es k o :
  (N.of_nat (length es) <= 2 ^ 32)%N →
  o ∈ Exact.holders (adds_from an 0 es) k ↔
  k ≠ [] ∧ ∃ e, es !! N.to_nat o = Some e ∧ k ∈ Normalize an <$> Keys e.
Proof.
  intros Hl. unfold Exact.holders. case_bool_decide as Hk.
  { split; [by intros ?%elem_of_nil|naive_solver]. }
  rewrite list_elem_of_fmap. split.
  - intros ([o' keys] & -> & [Hin (e & He & ->)%elem_of_adds]%list_elem_of_filter); [|done].
    apply elem_of_analyzed in Hin as [_ Hin]. split; [done|]. by exists e.
  - intros (_ & e & He & Hin). exists (o, analyzed an (Keys e)). split; [done|]. apply list_elem_of_filter.
    split; [by apply elem_of_analyzed|]. apply elem_of_adds; [done|]. by exists e.
Qed.

Transparent Exact.finished.
Lemma built_exact m an es seg x k :
  built m an es seg → ex seg = Some x → (N.of_nat (length es) <= 2 ^ 32)%N →
  ∃ run, Exact.Lookup x k = Some run ∧ StronglySorted N.lt run ∧
    ∀ o, o ∈ run ↔ k ≠ [] ∧ ∃ e, es !! N.to_nat o = Some e ∧ k ∈ Normalize an <$> Keys e.
Proof.
  intros (_ & _ & _ & _ & _ & _ & _ & _ & Hex) Hx Hl. rewrite Hx in Hex.
  destruct (has_exact m); [|done]. destruct Hex as (x' & [= <-] & Hf). destruct Hf as (Hlk & _).
  destruct (Hlk k) as [-> Hs]. eexists. split_and!; [done|done|]. intros o. by apply holders_entries.
Qed.

Lemma built_exact_ords m an es seg x :
  built m an es seg → ex seg = Some x → (N.of_nat (length es) <= 2 ^ 32)%N → N.to_nat (Exact.NumOrds x) ≤ length es.
Proof.
  intros (_ & _ & _ & _ & _ & _ & _ & _ & Hex) Hx Hl. rewrite Hx in Hex.
  destruct (has_exact m); [|done]. destruct Hex as (x' & [= <-] & Hf). destruct Hf as (_ & _ & _ & [->|[k Hk]]); [simpl; lia|].
  apply holders_entries in Hk as (_ & e & He & _); [|done]. apply lookup_lt_Some in He. lia.
Qed.
#[local] Opaque Exact.finished.

Lemma built_ngram m an es seg i :
  built m an es seg → ng seg = Some i → (N.of_nat (length es) < max_u32)%N →
  Ngram.well_formed i ∧ N.to_nat (Ngram.numOrds i) ≤ length es ∧ Ngram.cfg i = ngram_config m ∧
  ∀ g o, o ∈ Ngram.posted (Ngram.postings i) g ↔
    ∃ e, es !! N.to_nat o = Some e ∧ Ngram.key_grams (ngram_config m) (analyzed an (Keys e)) g.
Proof.
  intros (_ & _ & _ & _ & _ & _ & _ & Hng & _) Hi Hl. rewrite Hi in Hng. unfold max_u32 in Hl.
  destruct (bool_decide _); [|done]. destruct Hng as (i' & [= <-] & Hc & Hp & Hlim).
  assert (∀ g o, o ∈ Ngram.posted (Ngram.postings i) g ↔
    ∃ e, es !! N.to_nat o = Some e ∧ Ngram.key_grams (ngram_config m) (analyzed an (Keys e)) g) as Hpost.
  { intros g o. rewrite Hp. split.
    - intros (o' & keys & (e & He & ->)%elem_of_adds & Hg & ->); [|lia]. exists e.
      pose proof (lookup_lt_Some _ _ _ He). by rewrite u32_small by lia.
    - intros (e & He & Hg). exists o, (analyzed an (Keys e)). pose proof (lookup_lt_Some _ _ _ He).
      rewrite u32_small by lia. split_and!; [|done|done]. apply elem_of_adds; [lia|]. by exists e. }
  destruct Hlim as [Hwf Hmax].
  { intros o keys (e & He & _)%elem_of_adds; [|lia]. apply lookup_lt_Some in He. unfold max_u32. lia. }
  split_and!; [done| |done|done]. destruct Hmax as [->|[g Hg]]; [simpl; lia|].
  apply Hpost in Hg as (e & He & _). apply lookup_lt_Some in He. lia.
Qed.

(** Duplicates resolve to the last.  Deduplication keeps, for every ID, its
    last entry and only that one, in the original relative order, and running it
    on its own result changes nothing. *)
Theorem dedupe_last_wins es :
  NoDup (ID <$> dedupeLastWins es) ∧ dedupeLastWins es `sublist_of` es ∧
  (∀ e, e ∈ dedupeLastWins es ↔ ∃ k, es !! k = Some e ∧ ∀ k' e', k < k' → es !! k' = Some e' → ID e' ≠ ID e) ∧
  (NoDup (ID <$> es) → dedupeLastWins es = es).
Proof.
  destruct (dedupe_spec es) as (Hnd & Hsub & Hin). split_and!; [done|done| |].
  - intros e. rewrite Hin, entry_map_spec. split; [intros (k & Hk & _)|intros [k Hk]]; by exists k.
  - intros Hes. unfold dedupeLastWins. destruct (last_positions 0 es ∅ false) as [lst dup] eqn:Hlp.
    pose proof (last_positions_dup 0 es ∅ false) as Hd. rewrite Hlp in Hd. simpl in Hd.
    rewrite (proj2 Hd); [done|]. split_and!; [done|done|]. intros. apply lookup_empty.
Qed.

(** A segment's indexes are the entries' keys.  For a validated match
    configuration and fewer than 2^32-1 entries, building never panics.  A built
    segment's exact index maps a key to exactly the ordinals of the entries with
    a raw key that analyzes to it, ascending; its n-gram index posts an ordinal
    under a gram exactly when one of that entry's analyzed keys contains it, and
    is well formed; each index is there when the mode asks for it, ID lookup
    finds each ordinal, and the loss counters count the keys that analyze to
    nothing.  The only failures are a key held by more than 2^20-1 entries or
    more than 2^44 postings. *)
Theorem build_segment_spec m an es :
  match_ok m → (N.of_nat (length es) < max_u32)%N → NoDup (ID <$> es) →
  match buildSegment m an es with
  | Ok seg =>
      entries seg = es ∧
      (∀ id o, byID seg !! id = Some o ↔ ∃ e, es !! N.to_nat o = Some e ∧ ID e = id) ∧
      (is_Some (ng seg) ↔ Mode m = m_ngram) ∧ (is_Some (ex seg) ↔ has_exact m = true) ∧
      (∀ x k, ex seg = Some x → ∃ run, Exact.Lookup x k = Some run ∧ StronglySorted N.lt run ∧
         ∀ o, o ∈ run ↔ k ≠ [] ∧ ∃ e, es !! N.to_nat o = Some e ∧ k ∈ Normalize an <$> Keys e) ∧
      (∀ i g o, ng seg = Some i → Ngram.well_formed i ∧ (o ∈ Ngram.posted (Ngram.postings i) g ↔
         ∃ e, es !! N.to_nat o = Some e ∧ Ngram.key_grams (ngram_config m) (analyzed an (Keys e)) g)) ∧
      droppedKeys seg = sum_Z (lost_keys an) es ∧ keylessEntries seg = sum_Z (keyless an) es
  | Err (IndexFailed (Exact.KeyOverflow k n)) => (Exact.maxRun < N.of_nat n)%N ∧ k ≠ []
  | Err (IndexFailed (Exact.OffsetOverflow off)) => (Exact.maxOff < off)%N
  | Err _ => False
  end.
Proof.
  intros Hm Hl Hnd. assert (N.of_nat (length es) <= 2 ^ 32)%N as Hl' by (unfold max_u32 in Hl; lia).
  pose proof (build_segment m an es Hm Hl') as Hb.
  destruct (buildSegment m an es) as [seg|[]]; try done.
  - pose proof Hb as (He & Hids & _ & Hd & Hk & _ & _ & Hng & Hex). split_and!; [done| | | | | |done|done].
    + intros id o. rewrite Hids. by apply ids_from_spec.
    + case_bool_decide; [split; [done|]; destruct Hng as (i & -> & _); by eexists|]. rewrite Hng.
      by split; [intros [? ?]|].
    + destruct (has_exact m); [split; [done|]; destruct Hex as (i & -> & _); by eexists|]. rewrite Hex.
      by split; [intros [? ?]|].
    + intros x k Hx. by eapply built_exact.
    + intros i g o Hi. destruct (built_ngram m an es seg i Hb Hi Hl) as (? & _ & _ & Hp). split; [done|]. apply Hp.
  - destruct Hb as [_ Hb]. Transparent Exact.finished. unfold Exact.finished in Hb. destruct e; try done.
    + destruct Hb as [-> Hb]. split; [done|]. intros ->. unfold Exact.holders in Hb.
      rewrite bool_decide_eq_true_2 in Hb by done. simpl in Hb. lia.
    + destruct Hb as [-> Hin]. apply holders_entries in Hin as (_ & e & He & _); [|done].
      apply lookup_lt_Some in He. unfold max_u32 in *. lia.
Qed.
End segment_spec.
