(* ===== verification/ListModel.v ===== *)
(** A list of [engine/list.go]: the snapshot, the mutations with their version
    stamps and read-only guard, and the journal replay of [engine/journal.go].

    A mutation is a state-and-error computation on [GoList] ([list_op]).  The
    mutex serializes mutations, so each one is a single transition; a query reads
    one [snapshot] value ([Query]). *)

From stdpp Require Import pretty.
From S2P Require Import Prelude.
From S2P Require Import Runtime.
From S2P Require Import Analyzer.
From S2P Require Import Score.
From S2P Require Import Bitmap.
From S2P Require Import Filter.
From S2P Require Import Payload.
From S2P Require Import Types.
From S2P Require Import ListConfig.
From S2P Require Import Segment.
From S2P Require Ngram.
From S2P Require Exact.

(** [%d] of a non-negative integer. *)
Definition itoa (n : N) : bytes := str (pretty n).
Definition len_d {A} (l : list A) : bytes := itoa (N.of_nat (length l)).

(** One journal line; [None] is an absent entry. *)
Record journalRec := mkRec { Op : bytes; r_Entry : option Entry; r_ID : bytes }.
Definition op_upsert : bytes := $"upsert".
Definition op_delete : bytes := $"delete".

Record ListStatus := mkStatus {
  st_Entries : Z; st_Overlay : Z; st_Tombstones : Z; st_Version : bytes;
  st_DroppedKeys : Z; st_KeylessEntries : Z; st_UnindexedEntries : Z;
}.

Section list.
Context {RT : GoRuntime} {TL : TextLib} {BL : BitmapLib} {FO : FloatOps} {DL : DigestLib}.

Record snapshot := mkSnapshot {
  base : option segment;
  overlay : option segment;
  tombstones : gset bytes;
  version : bytes;
}.

Record GoList := mkList {
  l_name : bytes;
  l_cfg : ListConfig;
  l_an : Analyzer;
  cfgDigest : bytes;
  snap : snapshot;
  gen : N;
  baseID : bytes;
  jhash : option bytes;              (* the bytes written into the running hash *)
  overlaySrc : gmap bytes Entry;
  readOnly : bool;
  roRefusals : option N;
}.

(** Field assignments. *)
Definition set_snap (s : snapshot) (l : GoList) : GoList :=
  mkList (l_name l) (l_cfg l) (l_an l) (cfgDigest l) s (gen l) (baseID l) (jhash l) (overlaySrc l) (readOnly l) (roRefusals l).
Definition bump_gen (l : GoList) : GoList :=
  mkList (l_name l) (l_cfg l) (l_an l) (cfgDigest l) (snap l) (u64 (gen l + 1)) (baseID l) (jhash l) (overlaySrc l) (readOnly l) (roRefusals l).
Definition set_base_id (id : bytes) (l : GoList) : GoList :=
  mkList (l_name l) (l_cfg l) (l_an l) (cfgDigest l) (snap l) (gen l) id (jhash l) (overlaySrc l) (readOnly l) (roRefusals l).
Definition set_jhash (h : option bytes) (l : GoList) : GoList :=
  mkList (l_name l) (l_cfg l) (l_an l) (cfgDigest l) (snap l) (gen l) (baseID l) h (overlaySrc l) (readOnly l) (roRefusals l).
Definition set_overlay_src (src : gmap bytes Entry) (l : GoList) : GoList :=
  mkList (l_name l) (l_cfg l) (l_an l) (cfgDigest l) (snap l) (gen l) (baseID l) (jhash l) src (readOnly l) (roRefusals l).
Definition count_refusal (l : GoList) : GoList :=
  mkList (l_name l) (l_cfg l) (l_an l) (cfgDigest l) (snap l) (gen l) (baseID l) (jhash l) (overlaySrc l) (readOnly l)
    ((λ n, u64 (n + 1)) <$> roRefusals l).

Definition mode_of (l : GoList) : MatchConfig := Match (l_cfg l).

(** [NewList] *)
Definition NewList (name : bytes) (c : ListConfig) : result config_error GoList :=
  '(c, an) ← resolveConfig c;
  Ok (mkList name c an (resolvedConfigDigest c an)
        (mkSnapshot None None ∅ ($"empty@0")) 0 [] None ∅ false None).

(** ** The state-and-error monad of mutations *)

Definition list_op (A : Type) : Type := GoList → result list_error A * GoList.
#[global] Instance list_op_ret : MRet list_op := λ A a l, (Ok a, l).
#[global] Instance list_op_bind : MBind list_op := λ A B f m l,
  match m l with (Ok a, l) => f a l | (Err e, l) => (Err e, l) end.

Definition ask {A} (f : GoList → A) : list_op A := λ l, (Ok (f l), l).
Definition modify (f : GoList → GoList) : list_op () := λ l, (Ok (), f l).
(** Fallible preparation: an error leaves the list as it was. *)
Definition prepare {A} (f : GoList → result list_error A) : list_op A := λ l, (f l, l).
Definition throw_if (c : bool) (e : list_error) : list_op () := λ l, (if c then Err e else Ok (), l).

(** [ignoreReadOnly] and [refuseReadOnly] *)
Definition ignoreReadOnly : list_op bool := λ l,
  if readOnly l then (Ok true, count_refusal l) else (Ok false, l).
Definition refuseReadOnly (op : bytes) : list_op () :=
  ro ← ignoreReadOnly; throw_if ro (ReadOnly op).

(** ** Replacing the base *)

Definition prepareBase (es : list Entry) (l : GoList) : result list_error (list Entry * segment) :=
  let es := dedupeLastWins es in
  seg ← buildSegment (mode_of l) (l_an l) es;
  Ok (es, seg).

Definition baseStampLocked (l : GoList) (n : nat) : bytes :=
  if negb (bool_decide (baseID l = []))
  then baseID l ++ $"@" ++ itoa (N.of_nat n) ++ $"+j0+c" ++ cfgDigest l
  else $"gen" ++ itoa (gen l) ++ $"-base@" ++ itoa (N.of_nat n).

Definition installBase (seg : segment) (l : GoList) : GoList :=
  let l := bump_gen (set_overlay_src ∅ l) in
  set_snap (mkSnapshot (Some seg) None ∅ (baseStampLocked l (length (entries seg)))) l.

Definition Replace (es : list Entry) : list_op () :=
  _ ← refuseReadOnly ($"Replace");
  p ← prepare (prepareBase es);
  modify (installBase p.2).

Definition stampFresh (l : GoList) : GoList :=
  set_snap (mkSnapshot None None ∅ (baseStampLocked l 0)) l.

Definition SetBaseID (id : bytes) : list_op () :=
  ro ← ignoreReadOnly;
  if (ro : bool) then mret () else modify (set_base_id id).

Definition setJournalHash (h : option bytes) (l : GoList) : GoList := set_jhash h l.
Definition BaseIDForArtifact (l : GoList) : bytes := baseID l.

Definition ReplaceWithIndexesInfo (es : list Entry) (idx : option Ngram.Index)
    (companion : option Exact.Index) (bi : option IndexBuildInfo) : list_op () :=
  _ ← refuseReadOnly ($"ReplaceWithIndexesInfo");
  m ← ask mode_of;
  _ ← throw_if (negb (bool_decide (Mode m = m_ngram))) (NeedsNgramMode (Mode m));
  match idx with
  | None => throw_if true NilIndex
  | Some i =>
      _ ← throw_if (negb (Bool.eqb (bool_decide (is_Some companion)) (ExactCompanion m)))
            (match companion with None => CompanionMissing | Some _ => CompanionUnexpected end);
      let es := dedupeLastWins es in
      _ ← throw_if (length es <? N.to_nat (Ngram.numOrds i)) (IndexTooLong (Ngram.numOrds i) (length es));
      _ ← match companion with
          | None => mret ()
          | Some c => throw_if (length es <? N.to_nat (Exact.NumOrds c)) (CompanionTooLong (Exact.NumOrds c) (length es))
          end;
      counters ← prepare (λ _, applyBuildInfo bi (length es) (Ngram.numOrds i));
      modify (installBase (prebuilt_segment es (Some i) companion counters))
  end.

Definition ReplaceWithIndexInfo (es : list Entry) (idx : option Ngram.Index) (bi : option IndexBuildInfo) : list_op () :=
  _ ← refuseReadOnly ($"ReplaceWithIndexInfo");
  m ← ask mode_of;
  _ ← throw_if (negb (bool_decide (Mode m = m_ngram))) (NeedsNgramMode (Mode m));
  _ ← throw_if (bool_decide (idx = None)) NilIndex;
  if ExactCompanion m then
    let es := dedupeLastWins es in
    c ← prepare (λ l, buildCompanion (l_an l) es);
    ReplaceWithIndexesInfo es idx (Some c) bi
  else ReplaceWithIndexesInfo es idx None bi.

Definition ReplaceWithIndex (es : list Entry) (idx : option Ngram.Index) : list_op () :=
  _ ← refuseReadOnly ($"ReplaceWithIndex");
  ReplaceWithIndexInfo es idx None.

Definition ReplaceWithExactIndexInfo (es : list Entry) (idx : option Exact.Index) (bi : option IndexBuildInfo) : list_op () :=
  _ ← refuseReadOnly ($"ReplaceWithExactIndexInfo");
  m ← ask mode_of;
  _ ← throw_if (negb (bool_decide (Mode m = m_exact))) (NeedsExactMode (Mode m));
  match idx with
  | None => throw_if true NilIndex
  | Some i =>
      let es := dedupeLastWins es in
      _ ← throw_if (length es <? N.to_nat (Exact.NumOrds i)) (IndexTooLong (Exact.NumOrds i) (length es));
      counters ← prepare (λ _, applyBuildInfo bi (length es) (Exact.NumOrds i));
      modify (installBase (prebuilt_segment es None (Some i) counters))
  end.

Definition ReplaceWithExactIndex (es : list Entry) (idx : option Exact.Index) : list_op () :=
  _ ← refuseReadOnly ($"ReplaceWithExactIndex");
  ReplaceWithExactIndexInfo es idx None.

(** ** Accessors of the base *)

Definition HasExactIndex (l : GoList) : bool := has_exact (mode_of l).

Definition BaseNgram (l : GoList) : option Ngram.Index :=
  match base (snap l) with Some b => if readOnly l then None else ng b | None => None end.
Definition BaseExact (l : GoList) : option Exact.Index :=
  match base (snap l) with
  | Some b => if readOnly l || negb (bool_decide (Mode (mode_of l) = m_exact)) then None else ex b
  | None => None
  end.
Definition BaseExactCompanion (l : GoList) : option Exact.Index :=
  match base (snap l) with
  | Some b => if readOnly l || negb (ExactCompanion (mode_of l)) then None else ex b
  | None => None
  end.

(** ** The overlay *)

Record overlayBuild := mkOverlay { src : gmap bytes Entry; tomb : gset bytes; ov_seg : option segment }.

(** What a mutation closure sees and changes. *)
Definition overlay_state : Type := gmap bytes Entry * gset bytes.
Definition mutation : Type := option segment → overlay_state → overlay_state.

Definition in_base (b : option segment) (id : bytes) : bool :=
  match b with None => false | Some s => bool_decide (is_Some (byID s !! id)) end.

Definition sorted_entries (m : gmap bytes Entry) : list Entry := sort_slice (less_by ID) (range_map 0 m).*2.

Definition prepareOverlayLocked (mutate : mutation) (l : GoList) : result list_error overlayBuild :=
  let s := snap l in
  let '(src, tomb) := mutate (base s) (overlaySrc l, tombstones s) in
  let es := sorted_entries src in
  ov ← (if 0 <? length es then Some <$> buildSegment (mode_of l) (l_an l) es else Ok None);
  Ok (mkOverlay src tomb ov).

Definition base_len (s : snapshot) : nat := match base s with None => 0 | Some b => length (entries b) end.

(** [baseIDFromHash]: the digest of the bytes written so far. *)
Definition baseIDFromHash (written : bytes) : bytes := hex (sha256 written).

Definition overlay_stamp (l : GoList) (b : overlayBuild) (jpos : Z) : bytes :=
  let baseN := itoa (N.of_nat (base_len (snap l))) in
  if negb (bool_decide (baseID l = [])) && (0 <=? jpos)%Z && ((jpos =? 0)%Z || bool_decide (is_Some (jhash l)))
  then baseID l ++ $"@" ++ baseN ++ $"+j" ++ itoa (Z.to_N jpos) ++
       (if (0 <? jpos)%Z then $"." ++ from_option baseIDFromHash [] (jhash l) else []) ++ $"+c" ++ cfgDigest l
  else $"gen" ++ itoa (gen l) ++ $"-base@" ++ baseN ++ $"+ov" ++ itoa (N.of_nat (size (src b))) ++
       $"-t" ++ itoa (N.of_nat (size (tomb b))).

Definition commitOverlayLockedAt (b : overlayBuild) (jpos : Z) (l : GoList) : GoList :=
  let l := bump_gen (set_overlay_src (src b) l) in
  set_snap (mkSnapshot (base (snap l)) (ov_seg b) (tomb b) (overlay_stamp l b jpos)) l.
Definition commitOverlayLocked (b : overlayBuild) (l : GoList) : GoList := commitOverlayLockedAt b (-1) l.

Definition upsert_one (b : option segment) (st : overlay_state) (e : Entry) : overlay_state :=
  (<[ID e := e]> st.1, if in_base b (ID e) then {[ID e]} ∪ st.2 else st.2).
Definition delete_one (b : option segment) (st : overlay_state) (id : bytes) : overlay_state :=
  (delete id st.1, if in_base b id then {[id]} ∪ st.2 else st.2).

Definition prepareUpsertLocked (es : list Entry) : GoList → result list_error overlayBuild :=
  prepareOverlayLocked (λ b st, foldl (upsert_one b) st es).
Definition prepareDeleteLocked (id : bytes) : GoList → result list_error overlayBuild :=
  prepareOverlayLocked (λ b st, delete_one b st id).

Definition Upsert (es : list Entry) : list_op () :=
  _ ← refuseReadOnly ($"Upsert");
  b ← prepare (prepareUpsertLocked es);
  modify (commitOverlayLocked b).
Definition Delete (id : bytes) : list_op () :=
  _ ← refuseReadOnly ($"Delete");
  b ← prepare (prepareDeleteLocked id);
  modify (commitOverlayLocked b).

(** ** The journal *)

Definition apply_rec (b : option segment) (st : overlay_state) (r : journalRec) : overlay_state :=
  if bool_decide (Op r = op_upsert) then
    match r_Entry r with None => st | Some e => upsert_one b st e end
  else if bool_decide (Op r = op_delete) then delete_one b st (r_ID r)
  else st.

Definition applyJournalLocked (ops : list journalRec) (jpos : Z) : list_op () :=
  if length ops =? 0 then mret () else
  b ← prepare (prepareOverlayLocked (λ b st, foldl (apply_rec b) st ops));
  modify (commitOverlayLockedAt b jpos).

(** ** Folding *)

Definition liveEntriesLocked (l : GoList) : list Entry :=
  let s := snap l in
  let out := match base s with
             | None => []
             | Some b => filter (λ e, ID e ∉ tombstones s ∧ overlaySrc l !! ID e = None) (entries b)
             end in
  sort_slice (less_by ID) (out ++ (range_map 0 (overlaySrc l)).*2).
Definition LiveEntries : GoList → list Entry := liveEntriesLocked.

Definition Compact : list_op () :=
  _ ← refuseReadOnly ($"Compact");
  live ← ask liveEntriesLocked;
  seg ← prepare (λ l, buildSegment (mode_of l) (l_an l) live);
  modify (λ l,
    let l := set_base_id [] (bump_gen l) in
    set_overlay_src ∅ (set_snap (mkSnapshot (Some seg) None ∅
      ($"gen" ++ itoa (gen l) ++ $"-base@" ++ len_d live)) l)).

Record compactBuild := mkCompact { cb_live : list Entry; cb_seg : segment }.

Definition PrepareCompact : list_op compactBuild :=
  _ ← refuseReadOnly ($"PrepareCompact");
  live ← ask liveEntriesLocked;
  seg ← prepare (λ l, buildSegment (mode_of l) (l_an l) live);
  mret (mkCompact live seg).

Definition CommitCompact (b : compactBuild) (id : bytes) : list_op () :=
  ro ← ignoreReadOnly;
  if (ro : bool) then mret () else
  modify (λ l,
    let l := set_base_id id (bump_gen l) in
    set_overlay_src ∅ (set_snap (mkSnapshot (Some (cb_seg b)) None ∅
      (id ++ $"@" ++ len_d (cb_live b) ++ $"+j0+c" ++ cfgDigest l)) l)).

(** ** Status *)

Definition Status (l : GoList) : ListStatus :=
  let s := snap l in
  let '(n, t) := match base s with
                 | None => (0, 0)%Z
                 | Some b => (Z.of_nat (length (entries b)),
                     foldr (λ id acc, if bool_decide (is_Some (byID b !! id)) then (acc + 1)%Z else acc) 0%Z
                       (elements (tombstones s)))
                 end in
  let o := match overlay s with None => 0%Z | Some v => Z.of_nat (length (entries v)) end in
  let total f := (from_option f 0 (base s) + from_option f 0 (overlay s))%Z in
  mkStatus (n - t + o) o t (version s) (total droppedKeys) (total keylessEntries) (total unindexedEntries).

Definition KeyCount (l : GoList) : Z :=
  let s := snap l in
  (match base s with
   | None => 0
   | Some b => foldr (λ id acc, match byID b !! id with
                                | Some ord => acc - from_option raw_keys 0 (entries b !! N.to_nat ord)
                                | None => acc end) (totalKeys b) (elements (tombstones s))
   end + from_option totalKeys 0 (overlay s))%Z.

Definition BuildStats (l : GoList) : Z * Z := let s := Status l in (st_DroppedKeys s, st_KeylessEntries s).
Definition UnindexedEntries (l : GoList) : Z := st_UnindexedEntries (Status l).
Definition Stats (l : GoList) : Z * Z * Z :=
  let s := Status l in (st_Entries s, st_Overlay s, st_Tombstones s).
Definition Version (l : GoList) : bytes := version (snap l).
Definition ConfigDigest (l : GoList) : bytes := cfgDigest l.
Definition Config (l : GoList) : ListConfig := l_cfg l.

Lemma refuse_eq op l :
  refuseReadOnly op l = if readOnly l then (Err (ReadOnly op), count_refusal l) else (Ok (), l).
Proof. unfold refuseReadOnly, ignoreReadOnly, mbind, list_op_bind, throw_if. by destruct (readOnly l). Qed.
End list.

(** Runs the monadic steps of an operation as far as its guards. *)
Ltac run_list_op :=
  unfold mbind, list_op_bind, ask, throw_if, prepare, modify; rewrite ?refuse_eq.
