(* ===== verification/ListRefine.v ===== *)
(** Correctness of the mutations of [ListModel]: the snapshot invariant, the
    refinement of a list to a map from IDs to entries, journal replay, folding,
    and the counters. *)

From stdpp Require Import pretty.
From S2P Require Import Prelude.
From S2P Require Import Runtime.
From S2P Require Import Analyzer.
From S2P Require Import Score.
From S2P Require Import Bitmap.
From S2P Require Import Filter.
From S2P Require Import Payload.
From S2P Require Import Types.
From S2P Require Import ListConfig.
From S2P Require Import Segment.
From S2P Require Import ListModel.
From S2P Require Ngram.
From S2P Require Exact.

(** ** Entry maps *)

Definition keyed (m : gmap bytes Entry) : Prop := ∀ id e, m !! id = Some e → ID e = id.

Lemma entry_map_keyed es : keyed (entry_map es).
Proof. intros id e (k & _ & <-)%entry_map_spec. done. Qed.

Lemma entry_map_nodup es e : NoDup (ID <$> es) → entry_map es !! ID e = Some e ↔ e ∈ es.
Proof.
  intros Hnd. rewrite entry_map_spec. split.
  - intros (k & [Hk _] & _). by eapply list_elem_of_lookup_2.
  - intros [k Hk]%list_elem_of_lookup. exists k. split; [|done]. by apply last_at_nodup.
Qed.

(** Two keyed maps with the same entries are equal. *)
Lemma keyed_ext m1 m2 :
  keyed m1 → keyed m2 → (∀ e, m1 !! ID e = Some e ↔ m2 !! ID e = Some e) → m1 = m2.
Proof.
  intros H1 H2 He. apply map_eq. intros id. apply option_eq. intros e. split; intros Hl.
  - pose proof (H1 _ _ Hl) as <-. by apply He.
  - pose proof (H2 _ _ Hl) as <-. by apply He.
Qed.

Lemma entry_map_perm es es' : NoDup (ID <$> es) → es ≡ₚ es' → entry_map es = entry_map es'.
Proof.
  intros Hnd Hp. assert (NoDup (ID <$> es')) as Hnd' by by rewrite <-Hp.
  apply keyed_ext; [apply entry_map_keyed..|]. intros e. by rewrite !entry_map_nodup, Hp.
Qed.

Lemma entry_map_dom es id : is_Some (entry_map es !! id) ↔ id ∈ ID <$> es.
Proof.
  unfold entry_map. assert (∀ m : gmap bytes Entry, is_Some (foldl (λ m e, <[ID e:=e]> m) m es !! id) ↔
    id ∈ ID <$> es ∨ is_Some (m !! id)) as H.
  { induction es as [|e es IH]; intros m; csimpl; [set_solver|].
    rewrite IH, lookup_insert_is_Some', elem_of_cons. naive_solver. }
  rewrite H, lookup_empty. split; [intros [?|[? ?]]; done|by left].
Qed.

Lemma entry_map_dedupe es : entry_map (dedupeLastWins es) = entry_map es.
Proof.
  destruct (dedupe_spec es) as (Hnd & _ & Hin). apply keyed_ext; [apply entry_map_keyed..|].
  intros e. by rewrite entry_map_nodup, Hin.
Qed.

(** A keyed map as a list of entries. *)
Lemma map_values_nodup `{GoRuntime} (m : gmap bytes Entry) loop :
  keyed m → NoDup (ID <$> (range_map loop m).*2) ∧ ∀ e, e ∈ (range_map loop m).*2 ↔ m !! ID e = Some e.
Proof.
  intros Hk. assert (ID <$> (range_map loop m).*2 = (range_map loop m).*1) as ->.
  { rewrite <-list_fmap_compose. apply list_fmap_ext. intros i [id e] Hi%list_elem_of_lookup_2.
    apply elem_of_range in Hi. simpl. by apply Hk. }
  split; [apply range_nodup|]. intros e. rewrite list_elem_of_fmap. split.
  - intros ([id e'] & -> & Hi%elem_of_range). simpl. by rewrite (Hk _ _ Hi).
  - intros Hm. exists (ID e, e). split; [done|]. by apply elem_of_range.
Qed.

Lemma sorted_entries_spec `{GoRuntime} (m : gmap bytes Entry) :
  keyed m → NoDup (ID <$> sorted_entries m) ∧ (∀ e, e ∈ sorted_entries m ↔ m !! ID e = Some e) ∧
  entry_map (sorted_entries m) = m ∧ length (sorted_entries m) = size m.
Proof.
  intros Hk. unfold sorted_entries. destruct (map_values_nodup m 0 Hk) as [Hnd Hin].
  assert (sort_slice (less_by ID) (range_map 0 m).*2 ≡ₚ (range_map 0 m).*2) as Hp by apply sort_slice_perm.
  split_and!.
  - by rewrite Hp.
  - intros e. rewrite Hp. apply Hin.
  - apply keyed_ext; [apply entry_map_keyed|done|]. intros e. rewrite entry_map_nodup by by rewrite Hp.
    by rewrite Hp, Hin.
  - rewrite Hp, length_fmap. rewrite (range_map_perm _ 0 m). apply length_map_to_list.
Qed.

Section refine.
Context {RT : GoRuntime} {TL : TextLib} {BL : BitmapLib} {FO : FloatOps} {DL : DigestLib}.

Implicit Types (l : GoList) (b : option segment) (st : overlay_state).

(** ** The abstract state *)

Definition base_entries (b : option segment) : list Entry := from_option entries [] b.

(** The live entries: the overlay's over the unmasked ones of the base. *)
Definition live_of (b : option segment) (st : overlay_state) : gmap bytes Entry :=
  st.1 ∪ filter (λ ie, ie.1 ∉ st.2) (entry_map (base_entries b)).
Definition live_map (l : GoList) : gmap bytes Entry := live_of (base (snap l)) (overlaySrc l, tombstones (snap l)).

(** ** The invariant *)

(** A segment's own tables agree with its entries. *)
Definition seg_inv (s : segment) : Prop :=
  NoDup (ID <$> entries s) ∧ byID s = ids_from 0 (entries s) ∅ ∧
  totalKeys s = sum_Z raw_keys (entries s) ∧ payloadBytes s = sum_Z payload_len (entries s).

(** The three snapshot rules of list.go, on the source map of the overlay. *)
Definition overlay_ok (b : option segment) (st : overlay_state) : Prop :=
  keyed st.1 ∧ (∀ id, id ∈ st.2 → in_base b id) ∧
  (∀ id, is_Some (st.1 !! id) → in_base b id → id ∈ st.2).

Definition inv (l : GoList) : Prop :=
  from_option seg_inv True (base (snap l)) ∧
  overlay_ok (base (snap l)) (overlaySrc l, tombstones (snap l)) ∧
  match overlay (snap l) with
  | None => overlaySrc l = ∅
  | Some v => overlaySrc l ≠ ∅ ∧ buildSegment (mode_of l) (l_an l) (sorted_entries (overlaySrc l)) = Ok v
  end.

Lemma in_base_spec b id : from_option seg_inv True b → in_base b id ↔ id ∈ ID <$> base_entries b.
Proof.
  destruct b as [s|]; simpl; [|by rewrite elem_of_nil]. intros (_ & -> & _). rewrite bool_decide_spec. apply ids_from_dom.
Qed.

(** ** Overlay mutations *)

Lemma upsert_one_ok b st e :
  from_option seg_inv True b → overlay_ok b st →
  overlay_ok b (upsert_one b st e) ∧ live_of b (upsert_one b st e) = <[ID e := e]> (live_of b st).
Proof.
  intros Hb (Hk & Ht & Hs). unfold upsert_one. split.
  - split_and!; simpl.
    + intros id e'. destruct (decide (ID e = id)) as [<-|]; [rewrite lookup_insert_eq; congruence|].
      rewrite lookup_insert_ne by done. apply Hk.
    + intros id. destruct (in_base b (ID e)) eqn:Hin; [|apply Ht].
      intros [->%elem_of_singleton|Hid]%elem_of_union; [by rewrite Hin|by apply Ht].
    + intros id [->|[Hne Hid]]%lookup_insert_is_Some Hin.
      * clear Hs. revert Hin. destruct (in_base b id); intros Hin; [|done]. apply elem_of_union. left. by apply elem_of_singleton.
      * specialize (Hs id Hid Hin). destruct (in_base b (ID e)); [|done]. apply elem_of_union. by right.
  - unfold live_of. simpl. apply map_eq. intros id. destruct (decide (ID e = id)) as [<-|Hne].
    + rewrite lookup_insert_eq. by rewrite lookup_union, lookup_insert_eq, union_Some_l.
    + rewrite lookup_insert_ne by done. rewrite !lookup_union, lookup_insert_ne by done. f_equal.
      apply option_eq. intros x. rewrite !map_lookup_filter_Some. simpl.
      destruct (in_base b (ID e)); [|done]. rewrite not_elem_of_union, not_elem_of_singleton. naive_solver.
Qed.

Lemma delete_one_ok b st id :
  from_option seg_inv True b → overlay_ok b st →
  overlay_ok b (delete_one b st id) ∧ live_of b (delete_one b st id) = delete id (live_of b st).
Proof.
  intros Hb (Hk & Ht & Hs). unfold delete_one. split.
  - split_and!; simpl.
    + intros id' e' [_ Hl]%lookup_delete_Some. by apply Hk.
    + intros id'. destruct (in_base b id) eqn:Hin; [|apply Ht].
      intros [->%elem_of_singleton|Hid]%elem_of_union; [by rewrite Hin|by apply Ht].
    + intros id' [e' [_ Hl]%lookup_delete_Some] Hin. specialize (Hs id' ltac:(by exists e') Hin).
      destruct (in_base b id); [|done]. apply elem_of_union. by right.
  - unfold live_of. simpl. apply map_eq. intros id'. destruct (decide (id = id')) as [<-|Hne].
    + rewrite lookup_delete_eq. apply lookup_union_None. split; [apply lookup_delete_eq|].
      apply map_lookup_filter_None. destruct (in_base b id) eqn:Hin.
      * right. intros x _ Hx. apply Hx. simpl. set_solver.
      * left. apply eq_None_not_Some. rewrite entry_map_dom, <-in_base_spec by done. rewrite Hin. intros [].
    + rewrite lookup_delete_ne by done. rewrite !lookup_union, lookup_delete_ne by done. f_equal.
      apply option_eq. intros x. rewrite !map_lookup_filter_Some. simpl.
      destruct (in_base b id); [|done]. rewrite not_elem_of_union, not_elem_of_singleton. naive_solver.
Qed.

(** The effect of one journal record on the abstract map. *)
Definition spec_rec (m : gmap bytes Entry) (r : journalRec) : gmap bytes Entry :=
  if bool_decide (Op r = op_upsert) then
    match r_Entry r with None => m | Some e => <[ID e := e]> m end
  else if bool_decide (Op r = op_delete) then delete (r_ID r) m else m.

Lemma apply_rec_ok b st r :
  from_option seg_inv True b → overlay_ok b st →
  overlay_ok b (apply_rec b st r) ∧ live_of b (apply_rec b st r) = spec_rec (live_of b st) r.
Proof.
  intros Hb Hst. unfold apply_rec, spec_rec. case_bool_decide.
  - destruct (r_Entry r); [by apply upsert_one_ok|done].
  - case_bool_decide; [by apply delete_one_ok|done].
Qed.

Lemma fold_mutation_ok {A} (f : option segment → overlay_state → A → overlay_state) (g : gmap bytes Entry → A → gmap bytes Entry) b xs st :
  (∀ st x, overlay_ok b st → overlay_ok b (f b st x) ∧ live_of b (f b st x) = g (live_of b st) x) →
  overlay_ok b st →
  overlay_ok b (foldl (f b) st xs) ∧ live_of b (foldl (f b) st xs) = foldl g (live_of b st) xs.
Proof.
  intros Hf. revert st. induction xs as [|x xs IH]; intros st Hst; simpl; [done|].
  destruct (Hf st x Hst) as [Hok Hl]. rewrite <-Hl. by apply IH.
Qed.

(** ** Built segments *)

(** What every successful build gives, whatever its size. *)
Lemma build_segment_tables m an es s :
  buildSegment m an es = Ok s → entries s = es ∧ byID s = ids_from 0 es ∅ ∧
    totalKeys s = sum_Z raw_keys es ∧ payloadBytes s = sum_Z payload_len es ∧
    droppedKeys s = sum_Z (lost_keys an) es ∧ keylessEntries s = sum_Z (keyless an) es ∧ unindexedEntries s = 0%Z.
Proof.
  unfold buildSegment. intros (ngb & _ & ([[seg ngb'] exb'] & Hst & (ngi & _ & (exi & _ & [= <-])%bind_ok)%bind_ok)%bind_ok)%bind_ok.
  simpl. rewrite build_entries_eq in Hst.
  destruct (opt_add _ ngb) as [?|]; simpl in Hst; [|done]. destruct (opt_add _ _) as [?|]; simpl in Hst; [|done].
  injection Hst as <- _ _. unfold counted. simpl. by split_and!.
Qed.

Lemma build_seg_inv m an es s : NoDup (ID <$> es) → buildSegment m an es = Ok s → seg_inv s.
Proof. intros Hnd (He & Hi & Hk & Hp & _)%build_segment_tables. unfold seg_inv. by rewrite He. Qed.

Lemma prebuilt_seg_inv es ngi exi c : NoDup (ID <$> es) → seg_inv (prebuilt_segment es ngi exi c) ∧
  entries (prebuilt_segment es ngi exi c) = es.
Proof.
  intros Hnd. unfold prebuilt_segment. destruct c as [[d k] u]. rewrite imap_pair_number.
  assert (∀ i es ids p n, foldl index_entry (ids, p, n) (number i es) =
    (ids_from i es ids, p + sum_Z payload_len es, n + sum_Z raw_keys es)%Z) as ->.
  { clear. intros i es. revert i. induction es as [|e es IH]; intros i ids p n; simpl.
    { by rewrite !Z.add_0_r. }
    rewrite IH. unfold ids_from, payload_len, raw_keys. simpl. f_equal; [f_equal; lia|lia]. }
  by unfold seg_inv.
Qed.

(** ** Operations *)

Inductive list_mutation :=
  | MReplace (es : list Entry)
  | MReplaceWithIndex (es : list Entry) (idx : option Ngram.Index)
  | MReplaceWithIndexInfo (es : list Entry) (idx : option Ngram.Index) (bi : option IndexBuildInfo)
  | MReplaceWithIndexesInfo (es : list Entry) (idx : option Ngram.Index) (c : option Exact.Index) (bi : option IndexBuildInfo)
  | MReplaceWithExactIndex (es : list Entry) (idx : option Exact.Index)
  | MReplaceWithExactIndexInfo (es : list Entry) (idx : option Exact.Index) (bi : option IndexBuildInfo)
  | MUpsert (es : list Entry)
  | MDelete (id : bytes)
  | MCompact
  | MFold (id : bytes)                           (* PrepareCompact, then CommitCompact *)
  | MJournal (ops : list journalRec) (jpos : Z)
  | MSetBaseID (id : bytes).

Definition run_op (o : list_mutation) : list_op () :=
  match o with
  | MReplace es => Replace es
  | MReplaceWithIndex es idx => ReplaceWithIndex es idx
  | MReplaceWithIndexInfo es idx bi => ReplaceWithIndexInfo es idx bi
  | MReplaceWithIndexesInfo es idx c bi => ReplaceWithIndexesInfo es idx c bi
  | MReplaceWithExactIndex es idx => ReplaceWithExactIndex es idx
  | MReplaceWithExactIndexInfo es idx bi => ReplaceWithExactIndexInfo es idx bi
  | MUpsert es => Upsert es
  | MDelete id => Delete id
  | MCompact => Compact
  | MFold id => b ← PrepareCompact; CommitCompact b id
  | MJournal ops jpos => applyJournalLocked ops jpos
  | MSetBaseID id => SetBaseID id
  end.

(** The specification: what a successful operation does to the map. *)
Definition spec_op (o : list_mutation) (m : gmap bytes Entry) : gmap bytes Entry :=
  match o with
  | MReplace es | MReplaceWithIndex es _ | MReplaceWithIndexInfo es _ _ | MReplaceWithIndexesInfo es _ _ _
  | MReplaceWithExactIndex es _ | MReplaceWithExactIndexInfo es _ _ => entry_map es
  | MUpsert es => foldl (λ m e, <[ID e := e]> m) m es
  | MDelete id => delete id m
  | MJournal ops _ => foldl spec_rec m ops
  | MCompact | MFold _ | MSetBaseID _ => m
  end.

(** Every exported mutator; the journal replay is internal to the Store. *)
Definition exported (o : list_mutation) : bool := match o with MJournal _ _ => false | _ => true end.

Definition refused (o : list_mutation) (l : GoList) : GoList :=
  if exported o && readOnly l then count_refusal l else l.

(** What one operation promises. *)
Definition outcome (o : list_mutation) (l : GoList) (r : result list_error () * GoList) : Prop :=
  inv r.2 ∧ l_cfg r.2 = l_cfg l ∧ l_an r.2 = l_an l ∧ readOnly r.2 = readOnly l ∧
  match r.1 with
  | Ok _ => live_map r.2 = spec_op o (live_map l)
  | Err _ => r.2 = refused o l
  end ∧
  (readOnly l = true → exported o = true → r.2 = count_refusal l).

Lemma inv_count l : inv l → inv (count_refusal l).
Proof. done. Qed.

Lemma outcome_err o l e : inv l → outcome o l (Err e, refused o l).
Proof.
  intros Hi. unfold outcome, refused. destruct (exported o), (readOnly l) eqn:Hr; simpl; by split_and!.
Qed.

Lemma live_of_base b es : NoDup (ID <$> es) → base_entries b = es → live_of b (∅, ∅) = entry_map es.
Proof.
  intros Hnd He. unfold live_of. simpl. rewrite (left_id_L ∅ (∪)), He. apply map_filter_id. intros. set_solver.
Qed.

Lemma overlay_ok_empty b : overlay_ok b (∅, ∅).
Proof.
  split_and!; simpl; [intros ? ?; by rewrite lookup_empty|set_solver|].
  intros id [? Hl]. by rewrite lookup_empty in Hl.
Qed.

Lemma inv_base l s stamp :
  seg_inv s → inv (set_overlay_src ∅ (set_snap (mkSnapshot (Some s) None ∅ stamp) l)).
Proof. intros Hs. unfold inv. simpl. split_and!; [done|apply overlay_ok_empty|done]. Qed.

Lemma install_base_ok l s : seg_inv s → inv (installBase s l) ∧ live_map (installBase s l) = entry_map (entries s).
Proof.
  intros Hs. split; [unfold inv; simpl; split_and!; [done|apply overlay_ok_empty|done]|].
  unfold live_map. simpl. by apply live_of_base; [apply Hs|].
Qed.

Lemma outcome_install o l s es :
  readOnly l = false → seg_inv s → entries s = dedupeLastWins es → spec_op o (live_map l) = entry_map es →
  outcome o l (Ok (), installBase s l).
Proof.
  intros Hr Hs He Hspec. destruct (install_base_ok l s Hs) as [Hi Hl]. unfold outcome. simpl.
  split_and!; [done..| |by rewrite Hr]. by rewrite Hl, He, entry_map_dedupe, Hspec.
Qed.

(** ** The overlay *)

Lemma commit_overlay_ok (mutate : mutation) l jpos o ov :
  inv l → exported o && readOnly l = false →
  (∀ b st, from_option seg_inv True b → overlay_ok b st →
     overlay_ok b (mutate b st) ∧ live_of b (mutate b st) = spec_op o (live_of b st)) →
  prepareOverlayLocked mutate l = Ok ov →
  outcome o l (Ok (), commitOverlayLockedAt ov jpos l).
Proof.
  intros (Hb & Hst & Hov) Hr Hg. unfold prepareOverlayLocked.
  destruct (Hg _ _ Hb Hst) as [Hok Hl]. destruct (mutate _ _) as [src' tomb'].
  intros (v & Hv & [= <-])%bind_ok. destruct (sorted_entries_spec src') as (_ & _ & _ & Hlen); [apply Hok|].
  unfold outcome. simpl. split_and!; try done; [|intros Hro He; by rewrite Hro, He in Hr].
  unfold inv. simpl. split_and!; [done|done|]. rewrite Hlen in Hv. revert Hv.
  destruct (Nat.ltb_spec 0 (size src')) as [Hn|Hn]; intros Hv.
  - destruct (buildSegment _ _ (sorted_entries src')) as [v'|] eqn:Hbuild; [|done]. injection Hv as <-.
    split; [|done]. intros ->. rewrite map_size_empty in Hn. lia.
  - injection Hv as <-. apply map_size_empty_iff. lia.
Qed.

Lemma overlay_outcome (mutate : mutation) o l jpos :
  inv l → exported o && readOnly l = false →
  (∀ b st, from_option seg_inv True b → overlay_ok b st →
     overlay_ok b (mutate b st) ∧ live_of b (mutate b st) = spec_op o (live_of b st)) →
  outcome o l ((b ← prepare (prepareOverlayLocked mutate); modify (commitOverlayLockedAt b jpos)) l).
Proof.
  intros Hi Hr Hg. unfold mbind, list_op_bind, prepare, modify.
  destruct (prepareOverlayLocked mutate l) as [ov|e] eqn:Hp; [by eapply commit_overlay_ok|].
  pose proof (outcome_err o l e Hi) as He. unfold refused in He. by rewrite Hr in He.
Qed.

(** ** Folding *)

Lemma live_entries_spec l :
  inv l → NoDup (ID <$> liveEntriesLocked l) ∧ entry_map (liveEntriesLocked l) = live_map l.
Proof.
  intros (Hb & (Hk & Ht & Hs) & _). unfold liveEntriesLocked, live_map. simpl in *.
  destruct (map_values_nodup (overlaySrc l) 0 Hk) as [Hnd Hin].
  set (ov := (range_map 0 (overlaySrc l)).*2) in *.
  set (P := λ e, ID e ∉ tombstones (snap l) ∧ overlaySrc l !! ID e = None).
  set (bs := match base (snap l) with Some b => filter P (entries b) | None => [] end).
  assert (NoDup (ID <$> base_entries (base (snap l)))) as Hndb
    by (destruct (base (snap l)); [apply Hb|constructor]).
  assert (∀ e, e ∈ bs ↔ P e ∧ e ∈ base_entries (base (snap l))) as Hbs.
  { intros e. unfold bs. destruct (base (snap l)); simpl; [apply list_elem_of_filter|].
    split; [by intros ?%elem_of_nil|by intros [_ ?%elem_of_nil]]. }
  assert (NoDup (ID <$> bs)) as Hndbs.
  { unfold bs. destruct (base (snap l)) as [b|]; [|constructor]. simpl in Hndb.
    eapply sublist_NoDup; [exact Hndb|]. apply fmap_sublist, sublist_filter. }
  assert (NoDup (ID <$> bs ++ ov)) as Hnda.
  { rewrite fmap_app. apply NoDup_app. split_and!; [done| |done].
    intros id (e & -> & [[_ Hp] _]%Hbs)%list_elem_of_fmap (e' & He & He'%Hin)%list_elem_of_fmap.
    rewrite <-He in He'. congruence. }
  assert (sort_slice (less_by ID) (bs ++ ov) ≡ₚ bs ++ ov) as Hp by apply sort_slice_perm.
  split; [by rewrite Hp|]. unfold live_of. apply keyed_ext; [apply entry_map_keyed| |].
  - intros id e [Hl|[_ Hl]]%lookup_union_Some_raw; [by apply Hk|].
    apply map_lookup_filter_Some in Hl as [Hl _]. by apply entry_map_keyed in Hl.
  - intros e. rewrite entry_map_nodup by by rewrite Hp. rewrite Hp, elem_of_app, Hin, Hbs. simpl.
    rewrite lookup_union_Some_raw, map_lookup_filter_Some, entry_map_nodup by done. unfold P. simpl. tauto.
Qed.

Lemma fold_outcome l live s stamp o :
  inv l → live = liveEntriesLocked l → buildSegment (mode_of l) (l_an l) live = Ok s →
  (∀ m, spec_op o m = m) → readOnly l = false →
  ∀ l1, l_cfg l1 = l_cfg l → l_an l1 = l_an l → readOnly l1 = readOnly l →
  outcome o l (Ok (), set_overlay_src ∅ (set_snap (mkSnapshot (Some s) None ∅ stamp) l1)).
Proof.
  intros Hi -> Hb Hspec Hr l1 Hc Ha Hro. destruct (live_entries_spec l Hi) as [Hnd Hm].
  assert (seg_inv s) as Hs by by eapply build_seg_inv.
  pose proof (build_segment_tables _ _ _ _ Hb) as [He _].
  unfold outcome. simpl. split_and!; [by apply inv_base|done..| |by rewrite Hr].
  unfold live_map at 1. simpl. rewrite Hspec, (live_of_base _ (entries s)) by (done || apply Hs). by rewrite He.
Qed.

(** ** Replacing with prebuilt indexes *)

(** A computation that refuses when read-only and otherwise ends in an error
    without effect or in a fresh base over the deduplicated entries. *)
Definition replaces (es : list Entry) (l : GoList) (r : result list_error () * GoList) : Prop :=
  if readOnly l then (∃ e, r = (Err e, count_refusal l))
  else (∃ e, r = (Err e, l)) ∨
       ∃ s, r = (Ok (), installBase s l) ∧ seg_inv s ∧ entries s = dedupeLastWins es.

Lemma replaces_outcome o es l r :
  inv l → exported o = true → (∀ m, spec_op o m = entry_map es) → replaces es l r → outcome o l r.
Proof.
  intros Hi He Hspec. unfold replaces. pose proof (λ e, outcome_err o l e Hi) as Herr. unfold refused in Herr.
  rewrite He in Herr. simpl in Herr. destruct (readOnly l) eqn:Hr.
  - intros [e ->]. apply Herr.
  - intros [[e ->]|(s & -> & Hs & Hes)]; [apply Herr|]. by eapply outcome_install.
Qed.

Lemma dedupe_nodup es : NoDup (ID <$> dedupeLastWins es).
Proof. apply dedupe_spec. Qed.

Lemma dedupe_id es : NoDup (ID <$> es) → dedupeLastWins es = es.
Proof.
  intros Hnd. unfold dedupeLastWins. destruct (last_positions 0 es ∅ false) as [lst dup] eqn:Hlp.
  pose proof (last_positions_dup 0 es ∅ false) as Hd. rewrite Hlp in Hd. simpl in Hd.
  rewrite (proj2 Hd); [done|]. split_and!; [done|done|]. intros. apply lookup_empty.
Qed.

Lemma dedupe_idem es : dedupeLastWins (dedupeLastWins es) = dedupeLastWins es.
Proof. apply dedupe_id, dedupe_nodup. Qed.

Ltac run_op_step :=
  run_list_op; unfold replaces.

Lemma install_replaces l es ngi exi c :
  let r : result list_error () * GoList := (Ok (), installBase (prebuilt_segment (dedupeLastWins es) ngi exi c) l) in
  (∃ e, r = (Err e, l)) ∨ (∃ s, r = (Ok (), installBase s l) ∧ seg_inv s ∧ entries s = dedupeLastWins es).
Proof.
  right. eexists. split; [done|]. apply prebuilt_seg_inv, dedupe_nodup.
Qed.

Lemma replace_indexes_replaces es idx c bi l : replaces es l (ReplaceWithIndexesInfo es idx c bi l).
Proof.
  unfold ReplaceWithIndexesInfo. run_op_step. destruct (readOnly l) eqn:Hr; [eexists; reflexivity|].
  destruct (negb _); [left; eexists; reflexivity|]. destruct idx as [i|]; [|left; eexists; reflexivity].
  destruct (negb _); [left; eexists; reflexivity|]. destruct (_ <? _); [left; eexists; reflexivity|].
  destruct c as [c|].
  - destruct (_ <? _); [left; eexists; reflexivity|]. destruct (applyBuildInfo _ _ _); [|left; eexists; reflexivity].
    by apply install_replaces.
  - cbn [mret list_op_ret]. destruct (applyBuildInfo _ _ _); [|left; eexists; reflexivity]. by apply install_replaces.
Qed.

Lemma replace_index_replaces es idx bi l : replaces es l (ReplaceWithIndexInfo es idx bi l).
Proof.
  unfold ReplaceWithIndexInfo. run_op_step. destruct (readOnly l) eqn:Hr; [eexists; reflexivity|].
  destruct (negb _); [left; eexists; reflexivity|]. case_bool_decide; [left; eexists; reflexivity|].
  destruct (ExactCompanion _).
  - destruct (buildCompanion _ _) as [c|]; [|left; eexists; reflexivity].
    pose proof (replace_indexes_replaces (dedupeLastWins es) idx (Some c) bi l) as H1. unfold replaces in H1.
    by rewrite Hr, dedupe_idem in H1.
  - pose proof (replace_indexes_replaces es idx None bi l) as H1. unfold replaces in H1. by rewrite Hr in H1.
Qed.

Lemma replace_exact_replaces es idx bi l : replaces es l (ReplaceWithExactIndexInfo es idx bi l).
Proof.
  unfold ReplaceWithExactIndexInfo. run_op_step. destruct (readOnly l) eqn:Hr; [eexists; reflexivity|].
  destruct (negb _); [left; eexists; reflexivity|]. destruct idx as [i|]; [|left; eexists; reflexivity].
  destruct (_ <? _); [left; eexists; reflexivity|]. destruct (applyBuildInfo _ _ _); [|left; eexists; reflexivity].
  by apply install_replaces.
Qed.

Lemma replace_replaces es l : replaces es l (Replace es l).
Proof.
  unfold Replace. run_op_step. destruct (readOnly l) eqn:Hr; [eexists; reflexivity|]. unfold prepareBase.
  destruct (buildSegment _ _ _) as [s|e] eqn:Hb; simpl; [|left; eexists; reflexivity]. right. exists s. split; [done|].
  split; [eapply build_seg_inv, Hb; apply dedupe_nodup|]. by apply build_segment_tables in Hb as [? _].
Qed.

Lemma guarded_replaces es l op (f : list_op ()) :
  replaces es l (f l) → replaces es l ((_ ← refuseReadOnly op; f) l).
Proof. run_op_step. destruct (readOnly l); [eexists; reflexivity|done]. Qed.

(** ** Every operation *)

Lemma run_op_outcome o l : inv l → outcome o l (run_op o l).
Proof.
  intros Hi. destruct o as [es|es idx|es idx bi|es idx c bi|es idx|es idx bi|es|id| |id|ops jpos|id]; cbn [run_op].
  - by eapply replaces_outcome, replace_replaces.
  - by eapply replaces_outcome, guarded_replaces, replace_index_replaces.
  - by eapply replaces_outcome, replace_index_replaces.
  - by eapply replaces_outcome, replace_indexes_replaces.
  - by eapply replaces_outcome, guarded_replaces, replace_exact_replaces.
  - by eapply replaces_outcome, replace_exact_replaces.
  - unfold Upsert. unfold mbind at 1, list_op_bind at 1. rewrite refuse_eq.
    pose proof (outcome_err (MUpsert es) l (ReadOnly ($"Upsert")) Hi) as He. unfold refused in He. simpl in He.
    destruct (readOnly l) eqn:Hr; [done|]. apply (overlay_outcome (λ b st, foldl (upsert_one b) st es)); [done..|].
    intros b st Hb. apply fold_mutation_ok. intros st' e Hst. by apply upsert_one_ok.
  - unfold Delete. unfold mbind at 1, list_op_bind at 1. rewrite refuse_eq.
    pose proof (outcome_err (MDelete id) l (ReadOnly ($"Delete")) Hi) as He. unfold refused in He. simpl in He.
    destruct (readOnly l) eqn:Hr; [done|]. apply (overlay_outcome (λ b st, delete_one b st id)); [done..|].
    intros b st Hb Hst. by apply delete_one_ok.
  - unfold Compact. run_op_step. pose proof (λ e, outcome_err MCompact l e Hi) as He. unfold refused in He. simpl in He.
    destruct (readOnly l) eqn:Hr; [apply He|]. destruct (buildSegment _ _ _) as [s|e] eqn:Hb; [|apply He].
    by eapply fold_outcome.
  - unfold PrepareCompact, CommitCompact, ignoreReadOnly. run_op_step.
    pose proof (λ e, outcome_err (MFold id) l e Hi) as He. unfold refused in He. simpl in He.
    destruct (readOnly l) eqn:Hr; [apply He|]. destruct (buildSegment _ _ _) as [s|e] eqn:Hb; [|apply He].
    cbn [mret list_op_ret]. rewrite Hr. by eapply fold_outcome.
  - unfold applyJournalLocked. destruct ops as [|r ops]; cbn [length Nat.eqb].
    { unfold outcome. simpl. by split_and!. }
    apply (overlay_outcome (λ b st, foldl (apply_rec b) st (r :: ops))); [done|done|].
    intros b st Hb. apply fold_mutation_ok. intros st' r' Hst. by apply apply_rec_ok.
  - unfold SetBaseID, ignoreReadOnly. run_op_step. unfold outcome.
    destruct (readOnly l) eqn:Hr; simpl; by rewrite ?Hr; split_and!.
Qed.

Lemma new_list_inv name c l :
  NewList name c = Ok l → inv l ∧ live_map l = ∅ ∧ readOnly l = false ∧ resolveConfig c = Ok (l_cfg l, l_an l).
Proof.
  unfold NewList. intros ([c' an] & Hc & [= <-])%bind_ok. simpl. split_and!; [|done|done|done].
  unfold inv. simpl. split_and!; [done|apply overlay_ok_empty|done].
Qed.

(** A history: each operation runs whatever the outcome of the one before. *)
Fixpoint run_ops (os : list list_mutation) (l : GoList) : list (result list_error ()) * GoList :=
  match os with
  | [] => ([], l)
  | o :: os' => let '(r, l) := run_op o l in let '(rs, l) := run_ops os' l in (r :: rs, l)
  end.

(** The abstract history: only the operations that reported success count. *)
Definition spec_step (m : gmap bytes Entry) (orr : list_mutation * result list_error ()) : gmap bytes Entry :=
  if is_ok orr.2 then spec_op orr.1 m else m.

Lemma run_ops_refine os l :
  inv l → let '(rs, l') := run_ops os l in
  length rs = length os ∧ inv l' ∧ l_cfg l' = l_cfg l ∧ l_an l' = l_an l ∧ readOnly l' = readOnly l ∧
  live_map l' = foldl spec_step (live_map l) (zip os rs).
Proof.
  revert l. induction os as [|o os IH]; intros l Hi; cbn [run_ops]; [done|].
  destruct (run_op_outcome o l Hi) as (Hi' & Hc & Ha & Hr & Hres & _).
  destruct (run_op o l) as [r l1]. simpl in *. specialize (IH l1 Hi').
  destruct (run_ops os l1) as [rs l2]. destruct IH as (Hlen & Hi2 & Hc2 & Ha2 & Hr2 & Hl2).
  split_and!; [simpl; congruence|done|congruence|congruence|congruence|].
  rewrite Hl2. simpl. unfold spec_step at 3. simpl. destruct r as [[]|e]; simpl; [by rewrite Hres|].
  rewrite Hres. unfold refused. by destruct (exported o && readOnly l).
Qed.

(** ** Replay *)

(** The same records through the public mutators, stopping at an error. *)
Definition rec_op (r : journalRec) : list_op () :=
  if bool_decide (Op r = op_upsert) then
    match r_Entry r with None => mret () | Some e => Upsert [e] end
  else if bool_decide (Op r = op_delete) then Delete (r_ID r) else mret ().
Fixpoint replay_each (rs : list journalRec) : list_op () :=
  match rs with [] => mret () | r :: rs' => _ ← rec_op r; replay_each rs' end.

Definition overlay_state_of (l : GoList) : overlay_state := (overlaySrc l, tombstones (snap l)).

Lemma overlay_op_state op (mutate : mutation) l l1 :
  readOnly l = false → inv l →
  (_ ← refuseReadOnly op; b ← prepare (prepareOverlayLocked mutate); modify (commitOverlayLocked b)) l = (Ok (), l1) →
  base (snap l1) = base (snap l) ∧ overlay_state_of l1 = mutate (base (snap l)) (overlay_state_of l) ∧
  l_cfg l1 = l_cfg l ∧ l_an l1 = l_an l ∧ readOnly l1 = false.
Proof.
  intros Hr Hi. run_op_step. rewrite Hr. unfold prepareOverlayLocked, overlay_state_of.
  destruct (mutate _ _) as [src' tomb']. destruct (if _ <? _ then _ else _) as [ov|e]; simpl; [|done].
  intros [= <-]. by split_and!.
Qed.

Lemma rec_op_state r l l1 :
  readOnly l = false → inv l → rec_op r l = (Ok (), l1) →
  inv l1 ∧ base (snap l1) = base (snap l) ∧ overlay_state_of l1 = apply_rec (base (snap l)) (overlay_state_of l) r ∧
  l_cfg l1 = l_cfg l ∧ l_an l1 = l_an l ∧ readOnly l1 = false.
Proof.
  intros Hr Hi. unfold rec_op, apply_rec. case_bool_decide; [destruct (r_Entry r) as [e|]|case_bool_decide].
  - intros H1. pose proof (run_op_outcome (MUpsert [e]) l Hi) as [Hi1 _]. simpl in Hi1. rewrite H1 in Hi1.
    split; [done|]. by apply (overlay_op_state _ _ _ _ Hr Hi H1).
  - by intros [= <-].
  - intros H1. pose proof (run_op_outcome (MDelete (r_ID r)) l Hi) as [Hi1 _]. simpl in Hi1. rewrite H1 in Hi1.
    split; [done|]. by apply (overlay_op_state _ _ _ _ Hr Hi H1).
  - by intros [= <-].
Qed.

Lemma replay_each_state rs l l1 :
  readOnly l = false → inv l → replay_each rs l = (Ok (), l1) →
  inv l1 ∧ base (snap l1) = base (snap l) ∧
  overlay_state_of l1 = foldl (apply_rec (base (snap l))) (overlay_state_of l) rs ∧
  l_cfg l1 = l_cfg l ∧ l_an l1 = l_an l.
Proof.
  revert l. induction rs as [|r rs IH]; intros l Hr Hi; cbn [replay_each foldl]; [by intros [= <-]|].
  unfold mbind, list_op_bind. destruct (rec_op r l) as [[[]|e] l2] eqn:Hro; [|done]. intros H1.
  destruct (rec_op_state r l l2 Hr Hi Hro) as (Hi2 & Hb & Hs & Hc & Ha & Hr2).
  destruct (IH l2 Hr2 Hi2 H1) as (Hi1 & Hb1 & Hs1 & Hc1 & Ha1). rewrite Hs1, Hb, Hs.
  split_and!; [done|congruence|done|congruence|congruence].
Qed.

(** C11: replaying a journal in one batch is replaying it record by record.  If
    running the records through Upsert and Delete succeeds, the batch succeeds
    too, and ends in the same base, overlay segment, tombstones and overlay
    sources, one generation after the list it started from however many records
    there are (none, when there is no record). *)
Theorem journal_replay_sequential rs jpos l l1 :
  inv l → readOnly l = false → replay_each rs l = (Ok (), l1) →
  ∃ l2, applyJournalLocked rs jpos l = (Ok (), l2) ∧
    base (snap l2) = base (snap l1) ∧ overlay (snap l2) = overlay (snap l1) ∧
    tombstones (snap l2) = tombstones (snap l1) ∧ overlaySrc l2 = overlaySrc l1 ∧
    gen l2 = if decide (rs = []) then gen l else u64 (gen l + 1).
Proof.
  intros Hi Hr H1. destruct rs as [|r rs].
  { injection H1 as <-. by exists l. }
  destruct (replay_each_state _ _ _ Hr Hi H1) as ((_ & [Hk _] & Hov) & Hb & Hs & Hc & Ha).
  unfold applyJournalLocked. cbn [length Nat.eqb]. run_op_step. unfold prepareOverlayLocked.
  change (overlaySrc l, tombstones (snap l)) with (overlay_state_of l). rewrite <-Hs. unfold overlay_state_of.
  simpl in Hk. destruct (sorted_entries_spec (overlaySrc l1) Hk) as (_ & _ & _ & Hlen). rewrite Hlen.
  unfold mode_of in Hov. rewrite Hc, Ha in Hov. destruct (overlay (snap l1)) as [v|].
  - destruct Hov as [Hne Hv]. unfold mode_of. rewrite Hv.
    destruct (Nat.ltb_spec 0 (size (overlaySrc l1))) as [_|Hz].
    + simpl. eexists. split; [done|]. simpl. by rewrite Hb.
    + destruct Hne. apply map_size_empty_iff. lia.
  - rewrite Hov, map_size_empty. simpl. eexists. split; [done|]. simpl. by rewrite Hb.
Qed.

(** C2: a list is a map from IDs to entries.  Starting from any accepted
    configuration, after any sequence of replacements (built or with prebuilt
    indexes), upserts, deletes, compactions, folds, journal replays and identity
    changes, with errors anywhere, the live entries are exactly those of the map
    obtained by applying the operations that reported success to the empty map;
    the snapshot rules hold throughout and the configuration never moves. *)
Theorem list_refines_map name c os l0 :
  NewList name c = Ok l0 →
  let '(rs, l) := run_ops os l0 in
  inv l ∧ l_cfg l = l_cfg l0 ∧ live_map l = foldl spec_step ∅ (zip os rs) ∧
  NoDup (ID <$> LiveEntries l) ∧ StronglySorted (λ e1 e2, bytes_le (ID e1) (ID e2)) (LiveEntries l) ∧
  ∀ e, e ∈ LiveEntries l ↔ foldl spec_step ∅ (zip os rs) !! ID e = Some e.
Proof.
  intros (Hi & Hl & _)%new_list_inv. pose proof (run_ops_refine os l0 Hi) as Hr. rewrite Hl in Hr.
  destruct (run_ops os l0) as [rs l]. destruct Hr as (_ & Hi1 & Hc & _ & _ & Hm).
  destruct (live_entries_spec l Hi1) as [Hnd He]. split_and!; [done|done|done|done| |].
  - apply sort_slice_by_sorted.
  - intros e. rewrite <-Hm, <-He. symmetry. by apply entry_map_nodup.
Qed.

Lemma fold_halves_refused l :
  readOnly l = true →
  PrepareCompact l = (Err (ReadOnly ($"PrepareCompact")), count_refusal l) ∧
  ∀ cb id, CommitCompact cb id l = (Ok (), count_refusal l).
Proof.
  intros Hr. split; [|intros cb id]; unfold PrepareCompact, CommitCompact, ignoreReadOnly; run_op_step; by rewrite ?Hr.
Qed.

(** C12: failures are inert and a read-only list is frozen.  Whatever the
    operation, an error leaves the list exactly as it was, apart from the
    refusal counter of a read-only list; and on a read-only list no exported
    mutator changes anything but that counter, those without an error result
    included; and either half of a fold, called on its own there with any
    build and identity, does nothing but count its refusal. *)
Theorem mutation_errors_inert o l :
  inv l →
  let '(r, l') := run_op o l in
  (∀ e, r = Err e → l' = l ∨ readOnly l = true ∧ l' = count_refusal l) ∧
  (readOnly l = true → exported o = true → l' = count_refusal l) ∧
  (readOnly l = true →
     PrepareCompact l = (Err (ReadOnly ($"PrepareCompact")), count_refusal l) ∧
     ∀ cb id, CommitCompact cb id l = (Ok (), count_refusal l)).
Proof.
  intros Hi. destruct (run_op_outcome o l Hi) as (_ & _ & _ & _ & Hres & Hro). destruct (run_op o l) as [r l'].
  simpl in *. split; [|split; [done|apply fold_halves_refused]]. intros e ->. rewrite Hres. unfold refused.
  destruct (exported o), (readOnly l); simpl; auto.
Qed.

(** Compaction keeps the content and drops the structure.  A successful
    Compact, or PrepareCompact followed by CommitCompact, leaves the same live
    entries; the new base holds exactly these, in ID order, there is no overlay
    and no tombstone, and the version names the identity given (none for
    Compact, which falls back to the generation form). *)
Theorem compact_spec id l l' :
  inv l → readOnly l = false →
  (run_op MCompact l = (Ok (), l') →
     LiveEntries l' = LiveEntries l ∧ base_entries (base (snap l')) = LiveEntries l ∧
     overlay (snap l') = None ∧ tombstones (snap l') = ∅ ∧ baseID l' = []) ∧
  (run_op (MFold id) l = (Ok (), l') →
     LiveEntries l' = LiveEntries l ∧ base_entries (base (snap l')) = LiveEntries l ∧
     overlay (snap l') = None ∧ tombstones (snap l') = ∅ ∧ baseID l' = id ∧
     Version l' = id ++ $"@" ++ len_d (LiveEntries l) ++ $"+j0+c" ++ cfgDigest l).
Proof.
  intros Hi Hr.
  assert (∀ o, inv (run_op o l).2 ∧ (spec_op o (live_map l) = live_map l → (run_op o l).1 = Ok () →
    LiveEntries (run_op o l).2 = LiveEntries l)) as Hlive.
  { intros o. destruct (run_op_outcome o l Hi) as (Hi1 & _ & _ & _ & Hres & _). split; [done|].
    intros Hspec Hok. rewrite Hok, Hspec in Hres.
    destruct (live_entries_spec l Hi) as [Hnd He], (live_entries_spec _ Hi1) as [Hnd1 He1].
    apply (sorted_by_key_unique ID); [apply sort_slice_sorted, less_by_weak..|done|].
    unfold LiveEntries. apply NoDup_Permutation; [by eapply NoDup_fmap_1..|]. intros e.
    rewrite <-(entry_map_nodup _ e Hnd1), <-(entry_map_nodup _ e Hnd). by rewrite He, He1, Hres. }
  destruct (Hlive MCompact) as [_ HC], (Hlive (MFold id)) as [_ HF]. clear Hlive.
  split; intros H1; [rewrite H1 in HC|rewrite H1 in HF].
  - split; [by apply HC|]. revert H1. cbn [run_op]. unfold Compact. run_op_step. rewrite Hr.
    destruct (buildSegment _ _ _) as [s|e] eqn:Hb; [|done]. intros [= <-]. simpl.
    by apply build_segment_tables in Hb as [-> _].
  - split; [by apply HF|]. revert H1. cbn [run_op]. unfold PrepareCompact, CommitCompact, ignoreReadOnly. run_op_step.
    rewrite Hr. destruct (buildSegment _ _ _) as [s|e] eqn:Hb; [|done]. cbn [mret list_op_ret]. rewrite Hr.
    intros [= <-]. simpl. by apply build_segment_tables in Hb as [-> _].
Qed.

(** ** Counters *)

Lemma sum_Z_fmap {A B} (f : B → Z) (g : A → B) xs : sum_Z f (g <$> xs) = sum_Z (λ x, f (g x)) xs.
Proof. induction xs as [|x xs IH]; csimpl; [done|]. by rewrite IH. Qed.
Lemma sum_Z_ext {A} (f g : A → Z) xs : (∀ x, x ∈ xs → f x = g x) → sum_Z f xs = sum_Z g xs.
Proof.
  induction xs as [|x xs IH]; intros Hfg; simpl; [done|]. rewrite Hfg by by left.
  rewrite IH; [done|]. intros y Hy. apply Hfg. by right.
Qed.
Lemma sum_Z_length {A} (xs : list A) : sum_Z (λ _, 1%Z) xs = Z.of_nat (length xs).
Proof. induction xs as [|x xs IH]; simpl; [done|lia]. Qed.

(** Masking some of the entries takes exactly their share off a sum. *)
Lemma masked_sum (f : Entry → Z) (g : bytes → Z) (es : list Entry) (T : gset bytes) :
  NoDup (ID <$> es) → (∀ id, id ∈ T → id ∈ ID <$> es) → (∀ e, e ∈ es → g (ID e) = f e) →
  sum_Z f (filter (λ e, ID e ∉ T) es) = (sum_Z f es - sum_Z g (elements T))%Z.
Proof.
  intros Hnd HT Hg.
  assert (sum_Z f es = sum_Z f (filter (λ e, ID e ∉ T) es) + sum_Z f (filter (λ e, ID e ∈ T) es))%Z as ->.
  { clear. induction es as [|e es IH]; [done|]. rewrite !filter_cons. simpl.
    destruct (decide (ID e ∈ T)); [rewrite decide_False by tauto|rewrite decide_True by done]; simpl; lia. }
  assert (sum_Z g (elements T) = sum_Z f (filter (λ e, ID e ∈ T) es)) as ->; [|lia].
  trans (sum_Z g (ID <$> filter (λ e, ID e ∈ T) es)).
  - apply sum_Z_perm, NoDup_Permutation; [apply NoDup_elements| |].
    + eapply sublist_NoDup; [exact Hnd|]. apply fmap_sublist, sublist_filter.
    + intros id. rewrite elem_of_elements, list_elem_of_fmap. setoid_rewrite list_elem_of_filter. split.
      * intros Hid. destruct (proj1 (list_elem_of_fmap _ _ _) (HT id Hid)) as (e & -> & He). by exists e.
      * by intros (e & -> & ? & _).
  - rewrite sum_Z_fmap. apply sum_Z_ext. intros e [_ He]%list_elem_of_filter. by apply Hg.
Qed.

(** The live entries as a list: the unmasked base, then the overlay. *)
Lemma live_entries_parts l :
  inv l → liveEntriesLocked l ≡ₚ
    filter (λ e, ID e ∉ tombstones (snap l)) (base_entries (base (snap l))) ++ sorted_entries (overlaySrc l).
Proof.
  intros (Hb & (Hk & Ht & Hs) & _). unfold liveEntriesLocked, sorted_entries. rewrite !sort_slice_perm.
  apply Permutation_app; [|done]. simpl in Hs. destruct (base (snap l)) as [s|]; [|done]. simpl.
  assert (∀ es, (∀ e, e ∈ es → e ∈ entries s) →
    filter (λ e, ID e ∉ tombstones (snap l) ∧ overlaySrc l !! ID e = None) es =
    filter (λ e, ID e ∉ tombstones (snap l)) es) as ->; [|done|by intros].
  induction es as [|e es IH]; intros Hin; [done|]. rewrite !filter_cons, IH by (intros; apply Hin; by right).
  destruct (decide (ID e ∉ tombstones (snap l))) as [Hd|Hd]; [|by rewrite decide_False by tauto].
  rewrite decide_True; [done|]. split; [done|]. apply eq_None_not_Some. intros Hl. apply Hd, (Hs _ Hl).
  apply (in_base_spec (Some s)); [done|]. apply list_elem_of_fmap_2, Hin. by left.
Qed.

Lemma overlay_len l : inv l →
  from_option (λ v, Z.of_nat (length (entries v))) 0%Z (overlay (snap l)) = Z.of_nat (length (sorted_entries (overlaySrc l))) ∧
  from_option totalKeys 0%Z (overlay (snap l)) = sum_Z raw_keys (sorted_entries (overlaySrc l)).
Proof.
  intros (_ & (Hk & _) & Hov). simpl in Hk. destruct (sorted_entries_spec _ Hk) as (_ & _ & _ & Hlen).
  destruct (overlay (snap l)) as [v|]; simpl.
  - destruct Hov as [_ Hv]. apply build_segment_tables in Hv as (-> & _ & -> & _). done.
  - rewrite Hov in *. rewrite map_size_empty in Hlen. by destruct (sorted_entries ∅).
Qed.

(** The counters are true.  On every reachable list Status counts the live
    entries, the overlay entries and the tombstones, and names the snapshot it
    counted; and below 2^32 base entries KeyCount is the number of raw keys of
    the live entries, which is what the key quota meters. *)
Theorem counters_live l :
  inv l →
  Stats l = (Z.of_nat (length (LiveEntries l)), Z.of_nat (size (overlaySrc l)), Z.of_nat (size (tombstones (snap l)))) ∧
  st_Version (Status l) = version (snap l) ∧
  ((N.of_nat (length (base_entries (base (snap l)))) <= 2 ^ 32)%N → KeyCount l = sum_Z raw_keys (LiveEntries l)).
Proof.
  intros Hi. pose proof (live_entries_parts l Hi) as Hp. destruct (overlay_len l Hi) as [Hol Hok].
  pose proof Hi as (Hb & (Hk & Ht & Hs) & _). simpl in Hk, Ht. destruct (sorted_entries_spec _ Hk) as (_ & _ & _ & Hlen).
  unfold LiveEntries. rewrite (sum_Z_perm _ _ _ Hp), sum_Z_app. rewrite <-(sum_Z_length (liveEntriesLocked l)).
  rewrite (sum_Z_perm _ _ _ Hp), sum_Z_app, !sum_Z_length, <-Hol, <-Hok. rewrite <-Hlen, <-Hol. clear Hp.
  assert (NoDup (ID <$> base_entries (base (snap l)))) as Hnd by (destruct (base (snap l)); [apply Hb|constructor]).
  assert (∀ id, id ∈ tombstones (snap l) → id ∈ ID <$> base_entries (base (snap l))) as HT.
  { intros id Hid. apply in_base_spec; [done|]. by apply Ht. }
  pose proof (masked_sum (λ _, 1%Z) (λ _, 1%Z) _ _ Hnd HT (λ _ _, eq_refl)) as H1. rewrite !sum_Z_length in H1.
  unfold Stats, Status, KeyCount. rewrite H1. destruct (base (snap l)) as [s|] eqn:Hbase; simpl.
  - assert (foldr (λ id acc, if bool_decide (is_Some (byID s !! id)) then (acc + 1)%Z else acc) 0%Z
      (elements (tombstones (snap l))) = Z.of_nat (size (tombstones (snap l)))) as ->.
    { unfold size, set_size. simpl. assert (∀ id, id ∈ elements (tombstones (snap l)) → is_Some (byID s !! id)) as Hel.
      { intros id Hid%elem_of_elements%Ht. simpl in Hid. by rewrite bool_decide_spec in Hid. }
      revert Hel. clear.
      induction (elements (tombstones (snap l))) as [|id ids IH]; intros Hel; simpl; [done|].
      rewrite IH by (intros; apply Hel; by right). rewrite bool_decide_eq_true_2 by (apply Hel; by left). lia. }
    split_and!; [|done|].
    + unfold size, set_size. simpl. by destruct (overlay (snap l)).
    + intros Hsz. f_equal. destruct Hb as (_ & Hby & Htot & _).
      set (held := λ id, match byID s !! id with
        | Some ord => from_option raw_keys 0%Z (entries s !! N.to_nat ord) | None => 0%Z end).
      assert (∀ e, e ∈ entries s → held (ID e) = raw_keys e) as Hheld.
      { intros e [k Hke]%list_elem_of_lookup. unfold held. rewrite Hby.
        assert (ids_from 0 (entries s) ∅ !! ID e = Some (N.of_nat k)) as ->.
        { apply ids_from_spec; [done|done|]. exists e. by rewrite Nat2N.id. }
        by rewrite Nat2N.id, Hke. }
      pose proof (masked_sum raw_keys held _ _ Hnd HT Hheld) as H2. simpl in H2. rewrite H2, Htot.
      generalize (sum_Z raw_keys (entries s)). intros z. unfold held. clear.
      induction (elements (tombstones (snap l))) as [|id ids IH]; simpl; [lia|]. rewrite IH.
      destruct (byID s !! id); lia.
  - assert (tombstones (snap l) = ∅) as ->.
    { apply set_eq. intros id. split; [|set_solver]. intros Hid%HT. by apply elem_of_nil in Hid. }
    split_and!; [|done|done]. unfold size, set_size. simpl. rewrite elements_empty. simpl.
    by destruct (overlay (snap l)).
Qed.
End refine.
