(* ===== verification/Stamp.v ===== *)
(** The version stamps of [ListModel]: what two equal content-addressed stamps
    have in common. *)

From stdpp Require Import pretty.
From S2P Require Import Prelude.
From S2P Require Import Runtime.
From S2P Require Import Analyzer.
From S2P Require Import Score.
From S2P Require Import Bitmap.
From S2P Require Import Filter.
From S2P Require Import Types.
From S2P Require Import ListConfig.
From S2P Require Import Segment.
From S2P Require Import ListModel.

Definition decimal (c : N) : Prop := (48 <= c <= 57)%N.

Lemma str_app s t : str (s +:+ t) = str s ++ str t.
Proof.
  unfold str. rewrite <-fmap_app. f_equal. induction s as [|a s IH]; [done|].
  cbn [String.append String.list_ascii_of_string]. simpl. by rewrite IH.
Qed.

Lemma str_inj s t : str s = str t → s = t.
Proof.
  unfold str. intros H. rewrite <-(String.string_of_list_ascii_of_string s), <-(String.string_of_list_ascii_of_string t).
  f_equal. revert H. apply list_fmap_eq_inj. intros a b Hab.
  by rewrite <-(Ascii.ascii_N_embedding a), <-(Ascii.ascii_N_embedding b), Hab.
Qed.

Lemma itoa_inj a b : itoa a = itoa b → a = b.
Proof. intros H%str_inj. by apply (inj pretty). Qed.

Lemma itoa_decimal n : Forall decimal (itoa n).
Proof.
  assert (∀ x s, Forall decimal (str s) → Forall decimal (str (pretty_N_go x s))) as Hgo.
  { intros x. induction (N.lt_wf_0 x) as [x _ IH]; intros s Hs.
    assert (x = 0 ∨ 0 < x)%N as [->|Hx] by lia; [done|]. rewrite pretty_N_go_step by done.
    apply IH; [by apply N.div_lt|]. unfold str. csimpl. constructor; [|done].
    unfold pretty_N_char, decimal. by repeat case_match. }
  unfold itoa, pretty, pretty_N. destruct (decide (n = 0%N)); [by repeat constructor|]. apply Hgo. constructor.
Qed.

(** A prefix of characters from a class, ended by one outside it. *)
Lemma split_class (P : N → Prop) a1 a2 c1 c2 r1 r2 :
  Forall P a1 → Forall P a2 → ¬ P c1 → ¬ P c2 →
  a1 ++ c1 :: r1 = a2 ++ c2 :: r2 → a1 = a2 ∧ c1 = c2 ∧ r1 = r2.
Proof.
  intros H1. revert a2. induction H1 as [|x a1 Hx H1 IH]; intros [|y a2] H2 Hc1 Hc2; simpl.
  - by intros [= -> ->].
  - intros [= -> _]. by apply Forall_cons in H2 as [? _].
  - by intros [= -> _].
  - intros [= -> He]. apply Forall_cons in H2 as [_ H2]. by destruct (IH a2 H2 Hc1 Hc2 He) as (-> & -> & ->).
Qed.

Lemma hex_no_plus b : Forall (λ c, c ≠ c_plus) (hex b).
Proof.
  unfold hex. apply Forall_bind, Forall_true. intros c. assert (∀ d, hex_char d ≠ c_plus) as H.
  { intros d. unfold hex_char. destruct (N.ltb_spec d 10); lia. }
  repeat constructor; apply H.
Qed.

Section stamp.
Context {RT : GoRuntime} {TL : TextLib} {BL : BitmapLib} {FO : FloatOps} {DL : DigestLib}.

(** A list whose stamps are content-addressed: the Store declared a base
    identity (a hex digest or "empty", without an at sign) and a journal hash. *)
Definition store_managed (l : GoList) (written : bytes) : Prop :=
  baseID l ≠ [] ∧ 64%N ∉ baseID l ∧ jhash l = Some written.

(** C20: equal stamps, equal content.  When two Store-managed lists stamp overlay
    commits alike, they agree on the base identity, the number of base entries,
    the journal position, the digest of the journal's bytes (for a non-empty
    journal) and the configuration digest: no field can be mistaken for part of
    another. *)
Theorem stamp_identifies_content l1 l2 b1 b2 p1 p2 w1 w2 :
  store_managed l1 w1 → store_managed l2 w2 → (0 ≤ p1)%Z → (0 ≤ p2)%Z →
  overlay_stamp l1 b1 p1 = overlay_stamp l2 b2 p2 →
  baseID l1 = baseID l2 ∧ base_len (snap l1) = base_len (snap l2) ∧ p1 = p2 ∧
  ((0 < p1)%Z → baseIDFromHash w1 = baseIDFromHash w2) ∧ cfgDigest l1 = cfgDigest l2.
Proof.
  intros (Hb1 & Ha1 & Hj1) (Hb2 & Ha2 & Hj2) Hp1 Hp2. unfold overlay_stamp.
  rewrite Hj1, Hj2, !(bool_decide_eq_false_2 (_ = [])), !(bool_decide_eq_true_2 (is_Some _)), !orb_true_r by (done || by eexists).
  rewrite !(proj2 (Z.leb_le _ _)) by done.
  change ($"@") with [64%N]. change ($"+j") with [43%N; 106%N]. change ($".") with [46%N]. change ($"+c") with [43%N; 99%N].
  cbn [negb andb app from_option]. intros H.
  apply (split_class (λ c, c ≠ 64%N)) in H as (-> & _ & H);
    [|apply Forall_forall; intros c ?; congruence|apply Forall_forall; intros c ?; congruence|tauto|tauto].
  apply (split_class decimal) in H as (Hn%itoa_inj & _ & H);
    [|apply itoa_decimal..|unfold decimal; lia|unfold decimal; lia].
  injection H as H.
  assert (∀ p w cfg, ∃ c r, itoa (Z.to_N p) ++ (if (0 <? p)%Z then 46%N :: baseIDFromHash w else []) ++ 43%N :: 99%N :: cfg
    = itoa (Z.to_N p) ++ c :: r ∧ ¬ decimal c ∧
    c :: r = (if (0 <? p)%Z then 46%N :: baseIDFromHash w else []) ++ 43%N :: 99%N :: cfg) as Htail.
  { intros p w cfg. destruct (0 <? p)%Z; (eexists _, _; split; [reflexivity|split; [unfold decimal; lia|reflexivity]]). }
  destruct (Htail p1 w1 (cfgDigest l1)) as (c1 & r1 & E1 & Hc1 & T1).
  destruct (Htail p2 w2 (cfgDigest l2)) as (c2 & r2 & E2 & Hc2 & T2).
  rewrite E1, E2 in H. clear E1 E2 Htail.
  apply (split_class decimal) in H as (Hp%itoa_inj & -> & ->); [|apply itoa_decimal..|done|done].
  assert (p1 = p2) as -> by lia. rewrite T1 in T2. split_and!; [done|lia|done| |].
  - intros Hpos. destruct (Z.ltb_spec 0 p2); [|lia]. injection T2 as T2.
    by apply (split_class (λ c, c ≠ c_plus)) in T2 as (? & _ & _); [|apply hex_no_plus..|tauto|tauto].
  - destruct (0 <? p2)%Z; [|by injection T2]. injection T2 as T2.
    apply (split_class (λ c, c ≠ c_plus)) in T2 as (_ & _ & T2); [|apply hex_no_plus..|tauto|tauto]. by injection T2.
Qed.
End stamp.
