(* ===== verification/Query.v ===== *)
(** The query path of [engine/list.go] and the ranking of [engine/rank.go]:
    [exactLevels], [querySnap], the any-of lookup, candidate order, key
    attribution, and the prepared-query entry points.

    A query runs against one snapshot.  A [Context] answers the cancellation
    polls: the k-th poll of a stage (0 the entry check, 1 the base, 2 the overlay,
    3 the final check; the exact walks count as stage 1).  An entry access out of
    range is the panic [QueryPanicked]. *)

From S2P Require Import Prelude.
From S2P Require Import Runtime.
From S2P Require Import Strings.
From S2P Require Import Analyzer.
From S2P Require Import Grams.
From S2P Require Import Heap.
From S2P Require Import Score.
From S2P Require Import Bitmap.
From S2P Require Import Payload.
From S2P Require Import Filter.
From S2P Require Import Types.
From S2P Require Import ListConfig.
From S2P Require Import Segment.
From S2P Require Import ListModel.
From S2P Require Ngram.
From S2P Require Exact.

(** ** Levels *)

(** The loop of [exactLevels]; every turn shortens [rest]. *)
Fixpoint parent_levels (fuel : nat) (rest : bytes) : list bytes :=
  match fuel with
  | 0 => []
  | S fuel =>
      match index_byte c_dot rest with
      | None => []
      | Some i =>
          let rest := drop (S i) rest in
          match index_byte c_dot rest with
          | None => []
          | Some _ => rest :: parent_levels fuel rest
          end
      end
  end.
Definition exactLevels (aq : bytes) (parentFallback : bool) : list bytes :=
  if negb parentFallback then [aq] else aq :: parent_levels (length aq) aq.

(** ** Contexts *)

Definition Context : Type := option (nat → nat → bool).
Definition ctx_poll (c : Context) (stage k : nat) : bool :=
  match c with None => false | Some f => f stage k end.
Definition ctx_done (c : Context) (stage : nat) : Ngram.doneChan :=
  match c with None => None | Some f => Some (f stage) end.

Definition exactCancelCheckEvery : nat := 4096.
Definition exactFilteredCancelCheckEvery : nat := 512.
Definition MaxExactAnyOfTerms : nat := 64.

(** ** Results *)

(** Which segment of the snapshot a candidate comes from. *)
Inductive seg_id := InBase | InOverlay.
#[export] Instance seg_id_dec : EqDecision seg_id.
Proof. solve_decision. Defined.
#[export] Instance seg_id_countable : Countable seg_id.
Proof.
  refine (inj_countable' (λ s, match s with InBase => true | InOverlay => false end)
    (λ b, if b then InBase else InOverlay) _). by intros [].
Defined.

Record candMeta := mkMeta { cm_seg : seg_id; cm_ord : N }.
Record FilterStats := mkStats { Evaluated : Z; Rejected : Z }.
Definition no_stats : FilterStats := mkStats 0 0.

Inductive query_error :=
  | BadPayload (e : scanError)
  | NoExactIndex
  | TermCount (n : nat)
  | BadFilter (e : filter_error)
  | QueryPanicked.

Section query.
Context {RT : GoRuntime} {TL : TextLib} {BL : BitmapLib} {FO : FloatOps} {DL : DigestLib}.

Record QueryOpts := mkOpts { qo_Threshold : F64; qo_TopK : Z }.

(** A candidate with its metadata: the two Go slices move in lockstep. *)
Definition cand : Type := Candidate * candMeta.

Definition seg_of (s : snapshot) (i : seg_id) : option segment :=
  match i with InBase => base s | InOverlay => overlay s end.
Definition mask_of (s : snapshot) (i : seg_id) : option (gset bytes) :=
  match i with InBase => Some (tombstones s) | InOverlay => None end.
Definition masked (m : option (gset bytes)) (id : bytes) : bool :=
  match m with None => false | Some t => bool_decide (id ∈ t) end.
Definition mask_size (m : option (gset bytes)) : nat := match m with None => 0 | Some t => size t end.

(** ** Ranking *)

(** [candSort.Less] *)
Definition cand_less (a b : cand) : bool :=
  if negb (f_eqb (c_Score a.1) (c_Score b.1)) then f_ltb (c_Score b.1) (c_Score a.1)
  else bool_decide (bytes_lt (EntryID a.1) (EntryID b.1)).
Definition sortCandidates (cs : list cand) : list cand := sort_stable cand_less cs.

(** ** Attribution *)

Definition set_key (c : Candidate) (k : bytes) : Candidate := mkCandidate (EntryID c) (c_Score c) k (c_Payload c).

(** The entry a candidate is attributed by: the overlay copy of a superseded
    base entry.  [None] is an access out of range. *)
Definition attributed_entry (s : snapshot) (m : candMeta) : option Entry :=
  sg ← seg_of s (cm_seg m); e ← entries sg !! N.to_nat (cm_ord m);
  match overlay s with
  | Some ov =>
      if bool_decide (cm_seg m = InOverlay) then Some e
      else match byID ov !! ID e with Some ord => entries ov !! N.to_nat ord | None => Some e end
  | None => Some e
  end.

(** The score of one key: equality with the matched key, or the share of the
    query grams it holds. *)
Definition key_score (m : MatchConfig) (an : Analyzer) (matchedKey : bytes) (qGrams : gset bytes) (k : bytes) : F64 :=
  let ak := Normalize an k in
  if bool_decide (Mode m = m_exact) then (if bool_decide (ak = matchedKey) then f_of_N 1 else f_of_N 0)
  else if 0 <? size qGrams then
    let ks := if mc_StripSpaces m then remove_byte c_space ak else ak in
    let '(gs, _) := EachGram ks (Z.to_nat <$> mc_Grams m) ∅ in
    f_div (f_of_N (N.of_nat (length (filter (λ g, g ∈ qGrams) gs)))) (f_of_N (N.of_nat (size qGrams)))
  else f_of_N 0.

Definition best_key_step (score : bytes → F64) (st : bytes * F64) (k : bytes) : bytes * F64 :=
  let sc := score k in if f_ltb st.2 sc then (k, sc) else st.
Definition minus_one : F64 := f_sub (f_of_N 0) (f_of_N 1).

Definition attribute_one (l : GoList) (s : snapshot) (matchedKey : bytes) (qGrams : gset bytes) (c : cand) : option cand :=
  e ← attributed_entry s c.2;
  Some (match Keys e with
        | [] => c
        | [k] => (set_key c.1 k, c.2)
        | ks => (set_key c.1 (foldl (best_key_step (key_score (mode_of l) (l_an l) matchedKey qGrams)) ([], minus_one) ks).1, c.2)
        end).

(** [EachGram] slices at [offs[j+n]]: a negative size is an index panic.  [NewList]
    checks the sizes of n-gram lists only. *)
Definition sizes_ok (m : MatchConfig) : bool := forallb (λ n, 0 <=? n)%Z (mc_Grams m).

Definition attributeKeys (l : GoList) (s : snapshot) (analyzedQuery matchedKey : bytes) (cs : list cand) : option (list cand) :=
  let m := mode_of l in
  let qs := if mc_StripSpaces m then remove_byte c_space analyzedQuery else analyzedQuery in
  let qGrams := (EachGram qs (Z.to_nat <$> mc_Grams m) ∅).2 in
  if sizes_ok m then mapM (attribute_one l s matchedKey qGrams) cs else None.

(** ** The collection state of one query *)

Record qstate := mkQ { q_out : list cand; q_err : option scanError; q_stats : FilterStats; q_walked : nat }.
Definition q_start : qstate := mkQ [] None no_stats 0.

(** One evaluation of the filter with its counters and the first error. *)
Definition eval_entry (cf : compiledFilter) (e : Entry) (st : qstate) : bool * qstate :=
  let stats := mkStats (Evaluated (q_stats st) + 1) (Rejected (q_stats st)) in
  match eval cf (Payload e) with
  | Err er => (false, mkQ (q_out st) (match q_err st with None => Some er | o => o end) stats (q_walked st))
  | Ok true => (true, mkQ (q_out st) (q_err st) stats (q_walked st))
  | Ok false => (false, mkQ (q_out st) (q_err st) (mkStats (Evaluated stats) (Rejected stats + 1)) (q_walked st))
  end.

(** The closure [add]; [None] is the panic. *)
Definition add_hit (cf : option compiledFilter) (i : seg_id) (seg : segment) (mask : option (gset bytes))
    (score : F64) (prechecked : bool) (ord : N) (st : qstate) : option qstate :=
  e ← entries seg !! N.to_nat ord;
  if masked mask (ID e) then Some st else
  let '(ok, st) := match cf with
                   | Some cf => if prechecked then (true, st) else eval_entry cf e st
                   | None => (true, st)
                   end in
  Some (if (ok : bool)
        then mkQ (q_out st ++ [(mkCandidate (ID e) score [] (Payload e), mkMeta i ord)]) (q_err st) (q_stats st) (q_walked st)
        else st).

(** ** The n-gram path *)

(** The pre-heap predicate: its answer, and its effect on the state. *)
Definition keep_entry (cf : compiledFilter) (seg : segment) (mask : option (gset bytes)) (ord : N) : bool :=
  match entries seg !! N.to_nat ord with
  | Some e => negb (masked mask (ID e)) && match eval cf (Payload e) with Ok ok => ok | Err _ => false end
  | None => false
  end.
Definition keep_effect (cf : compiledFilter) (seg : segment) (mask : option (gset bytes)) (st : option qstate) (ord : N) : option qstate :=
  st ← st; e ← entries seg !! N.to_nat ord;
  Some (if masked mask (ID e) then st else (eval_entry cf e st).2).

Definition collectNgram (c : Context) (aq : bytes) (thr : F64) (topK : Z) (cf : option compiledFilter) (s : snapshot)
    (i : seg_id) (st : qstate) : option qstate :=
  match seg_of s i with
  | None => Some st
  | Some seg =>
      match ng seg with
      | None => Some st
      | Some idx =>
          let mask := mask_of s i in
          let segK := if (0 <? topK)%Z
                      then (if bool_decide (is_Some cf) then topK else i64 (topK + Z.of_nat (mask_size mask)))%Z
                      else 0%Z in
          let '(r, _, asked) := Ngram.lookup (ctx_done c (match i with InBase => 1 | InOverlay => 2 end)) idx None aq thr segK
                                  ((λ cf, keep_entry cf seg mask) <$> cf) in
          st ← match cf with Some cf => foldl (keep_effect cf seg mask) (Some st) asked | None => Some st end;
          match r with
          | Ngram.Done hits =>
              foldl (λ st h, st ← st; add_hit cf i seg mask (Ngram.Score h) (bool_decide (is_Some cf)) (Ngram.Ord h) st) (Some st) hits
          | Ngram.Canceled => Some st
          | Ngram.Panicked => None
          end
      end
  end.

(** ** The exact path *)

(** How a walk ends. *)
Inductive walk := Walked (st : qstate) | WalkCanceled | WalkPanicked.

Definition full (topK : Z) (st : qstate) : bool := (0 <? topK)%Z && (topK <=? Z.of_nat (length (q_out st)))%Z.

Definition walked_one (st : qstate) : qstate := mkQ (q_out st) (q_err st) (q_stats st) (S (q_walked st)).

Fixpoint walk_run (c : Context) (every : nat) (topK : Z) (cf : option compiledFilter) (i : seg_id) (seg : segment)
    (mask : option (gset bytes)) (score : F64) (ords : list N) (st : qstate) : walk :=
  match ords with
  | [] => Walked st
  | ord :: ords' =>
      let st := walked_one st in
      if (q_walked st mod every =? 0) && ctx_poll c 1 (q_walked st / every) then WalkCanceled
      else match add_hit cf i seg mask score false ord st with
           | None => WalkPanicked
           | Some st => if full topK st then Walked st else walk_run c every topK cf i seg mask score ords' st
           end
  end.

Definition walk_segment (c : Context) (every : nat) (topK : Z) (cf : option compiledFilter) (s : snapshot) (i : seg_id)
    (score : F64) (level : bytes) (st : qstate) : walk :=
  match seg_of s i with
  | Some seg =>
      match ex seg with
      | Some x =>
          if full topK st then Walked st
          else match Exact.Lookup x level with
               | None => WalkPanicked
               | Some run => walk_run c every topK cf i seg (mask_of s i) score run st
               end
      | None => Walked st
      end
  | None => Walked st
  end.

Definition ParentMatchScore : N := 90.

(** The level loop: the walk and the matched key. *)
Fixpoint walk_levels (c : Context) (every : nat) (topK : Z) (thr : F64) (cf : option compiledFilter) (s : snapshot)
    (aq : bytes) (levels : list bytes) (matchedKey : bytes) (st : qstate) : walk * bytes :=
  match levels with
  | [] => (Walked st, matchedKey)
  | level :: levels' =>
      let score := f_of_N (if bool_decide (level = aq) then 100 else ParentMatchScore) in
      if f_ltb score (f_mul thr (f_of_N 100)) then walk_levels c every topK thr cf s aq levels' matchedKey st
      else match walk_segment c every topK cf s InBase score level st with
           | Walked st =>
               match walk_segment c every topK cf s InOverlay score level st with
               | Walked st =>
                   if 0 <? length (q_out st) then (Walked st, level)
                   else walk_levels c every topK thr cf s aq levels' matchedKey st
               | w => (w, matchedKey)
               end
           | w => (w, matchedKey)
           end
  end.

(** ** querySnap *)

Definition effectiveTopK (l : GoList) (o : QueryOpts) : Z :=
  if (0 <? qo_TopK o)%Z then qo_TopK o else if (qo_TopK o <? 0)%Z then 0%Z else TopK (mode_of l).
Definition effective_threshold (l : GoList) (o : QueryOpts) : F64 :=
  if f_ltb (f_of_N 0) (qo_Threshold o) then qo_Threshold o
  else if f_ltb (qo_Threshold o) (f_of_N 0) then f_of_N 0 else Threshold (mode_of l).

Definition collect (c : Context) (l : GoList) (s : snapshot) (aq : bytes) (thr : F64) (topK : Z)
    (cf : option compiledFilter) : walk * bytes :=
  if bool_decide (Mode (mode_of l) = m_exact) then
    walk_levels c (match cf with Some _ => exactFilteredCancelCheckEvery | None => exactCancelCheckEvery end)
      topK thr cf s aq (exactLevels aq (bool_decide (Fallback (mode_of l) = parent_domain))) aq q_start
  else
    (match st ← collectNgram c aq thr topK cf s InBase q_start; collectNgram c aq thr topK cf s InOverlay st with
     | Some st => Walked st
     | None => WalkPanicked
     end, aq).

Definition cut (topK : Z) (cs : list cand) : list cand :=
  if (0 <? topK)%Z && (topK <? Z.of_nat (length cs))%Z then take (Z.to_nat topK) cs else cs.

(** The candidates and the statistics. *)
Definition querySnap (c : Context) (l : GoList) (s : snapshot) (q : bytes) (o : QueryOpts) (cf : option compiledFilter)
    : result query_error (list Candidate) * FilterStats :=
  if ctx_poll c 0 0 then (Ok [], no_stats) else
  let aq := Normalize (l_an l) q in
  if bool_decide (aq = []) then (Ok [], no_stats) else
  let topK := effectiveTopK l o in
  match collect c l s aq (effective_threshold l o) topK cf with
  | (WalkCanceled, _) => (Ok [], no_stats)
  | (WalkPanicked, _) => (Err QueryPanicked, no_stats)
  | (Walked st, matchedKey) =>
      match q_err st with
      | Some e => (Err (BadPayload e), q_stats st)
      | None =>
          if ctx_poll c 3 0 then (Ok [], no_stats)
          else if bool_decide (q_out st = []) then (Ok [], q_stats st)
          else match attributeKeys l s aq matchedKey (cut topK (sortCandidates (q_out st))) with
               | None => (Err QueryPanicked, q_stats st)
               | Some cs => (Ok cs.*1, q_stats st)
               end
      end
  end.
End query.
