(* ===== verification/AnyOf.v ===== *)
(** The exact any-of lookup of [engine/list.go]: [anyOfTerms], the bounded
    selection [anyOfSelection] over a max-heap of entry IDs, [anyOfSnap] and
    [attributeAnyOf].

    A selection item is a candidate with its metadata; the metadata is also its
    [segOrd] key. *)

From S2P Require Import Prelude.
From S2P Require Import Runtime.
From S2P Require Import Analyzer.
From S2P Require Import Heap.
From S2P Require Import Score.
From S2P Require Import Bitmap.
From S2P Require Import Filter.
From S2P Require Import Types.
From S2P Require Import ListConfig.
From S2P Require Import Segment.
From S2P Require Import ListModel.
From S2P Require Import Query.
From S2P Require Exact.

Section any_of.
Context {RT : GoRuntime} {TL : TextLib} {BL : BitmapLib} {FO : FloatOps} {DL : DigestLib}.

(** ** Terms *)

(** The analyzed terms: empty ones dropped, repeated ones merged. *)
Fixpoint distinct_terms (an : Analyzer) (seen : gset bytes) (terms : list bytes) : list bytes :=
  match terms with
  | [] => []
  | t :: terms' =>
      let a := Normalize an t in
      if bool_decide (a = []) then distinct_terms an seen terms'
      else if bool_decide (a ∈ seen) then distinct_terms an seen terms'
      else a :: distinct_terms an ({[a]} ∪ seen) terms'
  end.

Definition anyOfTerms (l : GoList) (terms : list bytes) : result query_error (list bytes) :=
  if negb (HasExactIndex l) then Err NoExactIndex
  else if (length terms =? 0) || (MaxExactAnyOfTerms <? length terms) then Err (TermCount (length terms))
  else Ok (distinct_terms (l_an l) ∅ terms).

(** ** The selection *)

Definition seg_ord : Type := seg_id * N.
Definition key_of (m : candMeta) : seg_ord := (cm_seg m, cm_ord m).

Record anyOfSelection := mkSel { sel_k : Z; sel_in : gset seg_ord; sel_items : list cand }.
Definition newAnyOfSelection (k : Z) : anyOfSelection := mkSel k ∅ [].

(** The heap order: the larger entry ID is the worse. *)
Definition larger_id (a b : cand) : bool := less_by EntryID b.1 a.1.

(** [a.items[0]] on an empty heap is out of range: [k > 0] and a full selection
    exclude it. *)
Definition admits (a : anyOfSelection) (key : seg_ord) (id : bytes) : bool :=
  if bool_decide (key ∈ sel_in a) then false
  else (sel_k a <=? 0)%Z || (Z.of_nat (length (sel_items a)) <? sel_k a)%Z ||
       match sel_items a with [] => false | root :: _ => bool_decide (bytes_lt id (EntryID root.1)) end.

(** [anyOfSelection.push]; the upward and downward repairs are [rise] and
    [siftWorst] of [Heap]. *)
Definition push (a : anyOfSelection) (x : cand) : anyOfSelection :=
  let keys := {[key_of x.2]} ∪ sel_in a in
  let '(items, evicted) := push_bounded larger_id (sel_k a) (sel_items a) x in
  mkSel (sel_k a) (match evicted with Some e => keys ∖ {[key_of e.2]} | None => keys end) items.

Definition sorted (a : anyOfSelection) : list cand := sort_slice (λ x y, less_by EntryID x.1 y.1) (sel_items a).

(** ** The walk *)

Record astate := mkA { a_sel : anyOfSelection; a_q : qstate }.

Inductive awalk := AWalked (st : astate) | ACanceled | APanicked.

(** The body of the loop after the cancellation check. *)
Definition anyof_one (cf : option compiledFilter) (i : seg_id) (mask : option (gset bytes)) (ord : N) (e : Entry)
    (st : astate) : astate :=
  if negb (admits (a_sel st) (i, ord) (ID e)) then st
  else if masked mask (ID e) then st
  else
    let '(ok, q) := match cf with Some cf => eval_entry cf e (a_q st) | None => (true, a_q st) end in
    mkA (if (ok : bool) then push (a_sel st) (mkCandidate (ID e) (f_of_N 100) [] (Payload e), mkMeta i ord) else a_sel st) q.

Fixpoint anyof_run (c : Context) (every : nat) (cf : option compiledFilter) (i : seg_id) (seg : segment)
    (mask : option (gset bytes)) (ords : list N) (st : astate) : awalk :=
  match ords with
  | [] => AWalked st
  | ord :: ords' =>
      let st := mkA (a_sel st) (walked_one (a_q st)) in
      let w := q_walked (a_q st) in
      if (w mod every =? 0) && ctx_poll c 1 (w / every) then ACanceled
      else match entries seg !! N.to_nat ord with
           | None => APanicked
           | Some e => anyof_run c every cf i seg mask ords' (anyof_one cf i mask ord e st)
           end
  end.

Fixpoint anyof_terms (c : Context) (every : nat) (cf : option compiledFilter) (i : seg_id) (seg : segment)
    (mask : option (gset bytes)) (x : Exact.Index) (terms : list bytes) (st : astate) : awalk :=
  match terms with
  | [] => AWalked st
  | t :: terms' =>
      match Exact.Lookup x t with
      | None => APanicked
      | Some run =>
          match anyof_run c every cf i seg mask run st with
          | AWalked st => anyof_terms c every cf i seg mask x terms' st
          | w => w
          end
      end
  end.

(** The closure [collect]. *)
Definition anyof_collect (c : Context) (every : nat) (cf : option compiledFilter) (s : snapshot) (terms : list bytes)
    (i : seg_id) (st : astate) : awalk :=
  match seg_of s i with
  | None => AWalked st
  | Some seg =>
      match ex seg with
      | None => AWalked st
      | Some x => anyof_terms c every cf i seg (mask_of s i) x terms st
      end
  end.

(** ** Attribution *)

Definition first_key (an : Analyzer) (terms : list bytes) (ks : list bytes) : option bytes :=
  find (λ k, bool_decide (Normalize an k ∈ terms)) ks.

Definition attribute_any_of (l : GoList) (s : snapshot) (terms : list bytes) (x : cand) : option cand :=
  e ← attributed_entry s x.2;
  Some (match first_key (l_an l) terms (Keys e) with Some k => (set_key x.1 k, x.2) | None => x end).
Definition attributeAnyOf (l : GoList) (s : snapshot) (terms : list bytes) : list cand → option (list cand) :=
  mapM (attribute_any_of l s terms).

(** ** anyOfSnap *)

Definition a_start (topK : Z) : astate := mkA (newAnyOfSelection topK) q_start.

Definition anyOfSnap (c : Context) (l : GoList) (s : snapshot) (terms : list bytes) (o : QueryOpts)
    (cf : option compiledFilter) : result query_error (list Candidate) * FilterStats :=
  if ctx_poll c 0 0 then (Ok [], no_stats) else
  let every := match cf with Some _ => exactFilteredCancelCheckEvery | None => exactCancelCheckEvery end in
  match anyof_collect c every cf s terms InBase (a_start (effectiveTopK l o)) with
  | ACanceled => (Ok [], no_stats)
  | APanicked => (Err QueryPanicked, no_stats)
  | AWalked st =>
      match anyof_collect c every cf s terms InOverlay st with
      | ACanceled => (Ok [], no_stats)
      | APanicked => (Err QueryPanicked, no_stats)
      | AWalked st =>
          if ctx_poll c 3 0 then (Ok [], no_stats)
          else match q_err (a_q st) with
               | Some e => (Err (BadPayload e), q_stats (a_q st))
               | None =>
                   match attributeAnyOf l s terms (sorted (a_sel st)) with
                   | None => (Err QueryPanicked, q_stats (a_q st))
                   | Some cs => (Ok cs.*1, q_stats (a_q st))
                   end
               end
      end
  end.
End any_of.
