(* ===== verification/Prepare.v ===== *)
(** Prepared queries and their admission cost: [PrepareQuery],
    [PrepareFilteredQuery], [PrepareTypedFilteredQuery], the any-of preparations,
    [Execute], [ExecuteStats] and the one-call forms of [engine/list.go], with the
    charge models [scratchBytesSnap], [filterChargeSnap],
    [filterExprEvalChargeSnap] and [anyOfCostSnap] in int64 arithmetic.

    Addition and multiplication wrap; as wrapping is a ring homomorphism it is
    written once per comparison or result. *)

From S2P Require Import Prelude.
From S2P Require Import Runtime.
From S2P Require Import Analyzer.
From S2P Require Import Score.
From S2P Require Import Bitmap.
From S2P Require Import Filter.
From S2P Require Import Types.
From S2P Require Import ListConfig.
From S2P Require Import Segment.
From S2P Require Import ListModel.
From S2P Require Import Query.
From S2P Require Import AnyOf.
From S2P Require Ngram.
From S2P Require Exact.

Local Open Scope Z_scope.

(** ** Charge constants *)

Definition anyOfPerHitBytes : Z := 512.
Definition filterScanPerByte : Z := 1.
Definition filterPerPathOrd : Z := 192.
Definition filterPerAlternative : Z := 128.
Definition filterPerScalarByte : Z := 8.
Definition filterPerAlternativeOrd : Z := 6.
Definition filterPerScalarByteOrd : Z := 1.
Definition scratchPerHitBytes : Z := 192.
Definition scratchDefaultQueryRunes : Z := 512.
Definition scratchQueryFixedBytes : Z := 16 * 1024.
Definition scratchQueryPerGramBytes : Z := 200.
Definition scratchQueryPerRuneBytes : Z := 8.
Definition maxLine : Z := 2 ^ 20.

Section prepare.
Context {RT : GoRuntime} {TL : TextLib} {BL : BitmapLib} {FO : FloatOps} {DL : DigestLib}.

(** ** Scratch *)

(** [charge] of [scratchBytesSnap]: the bytes one segment adds. *)
Definition scratch_segment (topK queryRunes gramSizes masked : Z) (sg : option segment) : Z :=
  match sg with
  | None => 0
  | Some sg =>
      match ng sg with
      | None =>
          match ex sg with
          | None => 0
          | Some x =>
              let hits := Z.of_N (Exact.NumOrds x) in
              scratchPerHitBytes * (if (0 <? topK) && (topK <? hits) then topK else hits)
          end
      | Some i =>
          let ords := Z.of_N (Ngram.numOrds i) in
          let hb := i64 (topK + masked) in
          8 * ords + (scratchQueryFixedBytes + queryRunes * scratchQueryPerRuneBytes) +
          queryRunes * gramSizes * scratchQueryPerGramBytes +
          scratchPerHitBytes * (if (0 <? topK) && (hb <? ords) then hb else ords)
      end
  end.

Definition scratchBytesSnap (s : snapshot) (topK queryRunes gramSizes : Z) : Z :=
  i64 (scratch_segment topK queryRunes gramSizes (Z.of_nat (size (tombstones s))) (base s) +
       scratch_segment topK queryRunes gramSizes 0 (overlay s)).

Definition gram_count (l : GoList) : Z := Z.of_nat (length (mc_Grams (mode_of l))).
Definition ScratchBytesFor (l : GoList) (topK : Z) : Z :=
  scratchBytesSnap (snap l) topK scratchDefaultQueryRunes (gram_count l).
Definition ScratchBytes (l : GoList) : Z := ScratchBytesFor l 0.

(** ** Filter charges *)

Definition filter_segment (nPaths levels : Z) (sg : option segment) : Z :=
  match sg with
  | None => 0
  | Some sg =>
      match ng sg with
      | Some i => filterScanPerByte * payloadBytes sg + filterPerPathOrd * nPaths * Z.of_N (Ngram.numOrds i)
      | None =>
          match ex sg with
          | Some x => filterScanPerByte * payloadBytes sg * levels + filterPerPathOrd * nPaths * Z.of_N (Exact.NumOrds x) * levels
          | None => 0
          end
      end
  end.
Definition filterChargeSnap (s : snapshot) (nPaths levels : Z) : Z :=
  i64 (filter_segment nPaths levels (base s) + filter_segment nPaths levels (overlay s)).

Definition expr_segment (perOrd levels : Z) (sg : option segment) : Z :=
  match sg with
  | None => 0
  | Some sg =>
      match ng sg with
      | Some i => perOrd * Z.of_N (Ngram.numOrds i)
      | None => match ex sg with Some x => perOrd * Z.of_N (Exact.NumOrds x) * levels | None => 0 end
      end
  end.
Definition filterExprEvalChargeSnap (s : snapshot) (alternatives scalarBytes levels : Z) : Z :=
  let perOrd := filterPerAlternativeOrd * alternatives + filterPerScalarByteOrd * scalarBytes in
  i64 (expr_segment perOrd levels (base s) + expr_segment perOrd levels (overlay s)).

(** ** Any-of charge *)

(** [probe] of [anyOfCostSnap]: the hits and the payload bound of one segment.
    [None] is a slice out of range. *)
Fixpoint run_lengths (x : Exact.Index) (terms : list bytes) : option Z :=
  match terms with
  | [] => Some 0
  | t :: terms' => run ← Exact.Lookup x t; n ← run_lengths x terms'; Some (Z.of_nat (length run) + n)
  end.
Definition anyof_probe (terms : list bytes) (sg : option segment) : option (Z * Z) :=
  match sg with
  | None => Some (0, 0)
  | Some sg =>
      match ex sg with
      | None => Some (0, 0)
      | Some x =>
          n ← run_lengths x terms;
          let p := i64 (n * maxLine) in
          Some (n, if payloadBytes sg <? p then payloadBytes sg else p)
      end
  end.

(** Cost and hits. *)
Definition anyOfCostSnap (s : snapshot) (terms : list bytes) (topK : Z) (cf : option compiledFilter) : option (Z * Z) :=
  b ← anyof_probe terms (base s); v ← anyof_probe terms (overlay s);
  let hits := i64 (b.1 + v.1) in
  let payload := b.2 + v.2 in
  let collected := if (0 <? topK) && (topK <? hits) then topK else hits in
  let cost := scratchQueryFixedBytes + anyOfPerHitBytes * collected in
  Some (match cf with
        | None => i64 cost
        | Some f =>
            let alts := Z.of_nat (cf_alternatives f) in
            let sb := Z.of_nat (cf_scalarBytes f) in
            i64 (cost + (filterScanPerByte * payload + filterPerPathOrd * Z.of_nat (length (cf_terms f)) * hits) +
                 (filterPerAlternative * alts + filterPerScalarByte * sb) +
                 (filterPerAlternativeOrd * alts + filterPerScalarByteOrd * sb) * hits)
        end, hits).

(** ** Prepared queries *)

(** The snapshot, the query and the cost are fixed at preparation; the list is
    read for its immutable configuration only. *)
Record PreparedQuery := mkPrepared {
  pq_l : GoList;
  pq_s : snapshot;
  pq_q : bytes;
  pq_opts : QueryOpts;
  pq_cost : Z;
  pq_anyOf : bool;
  pq_terms : list bytes;
  pq_anyOfHits : Z;
}.

Record FilteredQuery := mkFiltered {
  fq_l : GoList;
  fq_s : snapshot;
  fq_q : bytes;
  fq_opts : QueryOpts;
  fq_cf : option compiledFilter;
  fq_cost : Z;
  fq_anyOf : bool;
  fq_terms : list bytes;
  fq_anyOfHits : Z;
}.

Definition query_runes (q : bytes) : Z := Z.max (Z.of_nat (rune_count q)) scratchDefaultQueryRunes.

Definition query_cost (l : GoList) (s : snapshot) (q : bytes) (o : QueryOpts) : Z :=
  scratchBytesSnap s (effectiveTopK l o) (query_runes q) (gram_count l).

Definition PrepareQuery (l : GoList) (q : bytes) (o : QueryOpts) : PreparedQuery :=
  mkPrepared l (snap l) q o (query_cost l (snap l) q o) false [] 0.

Definition Cost (p : PreparedQuery) : Z := pq_cost p.

(** A panic propagates; the error of a nil filter is dropped. *)
Definition drop_error (r : result query_error (list Candidate)) : result query_error (list Candidate) :=
  match r with
  | Err QueryPanicked => Err QueryPanicked
  | Err _ => Ok []
  | Ok cs => Ok cs
  end.

Definition Execute (p : PreparedQuery) (c : Context) : result query_error (list Candidate) * bytes :=
  (drop_error (if pq_anyOf p then anyOfSnap c (pq_l p) (pq_s p) (pq_terms p) (pq_opts p) None
               else querySnap c (pq_l p) (pq_s p) (pq_q p) (pq_opts p) None).1,
   version (pq_s p)).

Definition QueryVersioned (l : GoList) (c : Context) (q : bytes) (o : QueryOpts) : result query_error (list Candidate) * bytes :=
  Execute (PrepareQuery l q o) c.
Definition QueryCtx (l : GoList) (c : Context) (q : bytes) (o : QueryOpts) : result query_error (list Candidate) :=
  (QueryVersioned l c q o).1.
Definition QueryBackground (l : GoList) (q : bytes) (o : QueryOpts) : result query_error (list Candidate) := QueryCtx l None q o.

(** ** Filtered queries *)

Definition filter_levels (l : GoList) (q : bytes) : Z :=
  if bool_decide (Mode (mode_of l) = m_exact)
  then let n := Z.of_nat (length (exactLevels (Normalize (l_an l) q) (bool_decide (Fallback (mode_of l) = parent_domain)))) in
       if n =? 0 then 1 else n
  else 1.

Definition filtered_cost (l : GoList) (s : snapshot) (q : bytes) (o : QueryOpts) (cf : option compiledFilter) : Z :=
  let cost := query_cost l s q o in
  match cf with
  | None => cost
  | Some f =>
      let levels := filter_levels l q in
      let alts := Z.of_nat (cf_alternatives f) in
      let sb := Z.of_nat (cf_scalarBytes f) in
      i64 (cost + filterChargeSnap s (Z.of_nat (length (cf_terms f))) levels +
           (filterPerAlternative * alts + filterPerScalarByte * sb) + filterExprEvalChargeSnap s alts sb levels)
  end.

Definition prepareFilteredQuery (l : GoList) (q : bytes) (o : QueryOpts) (cf : option compiledFilter) : FilteredQuery :=
  mkFiltered l (snap l) q o cf (filtered_cost l (snap l) q o cf) false [] 0.

Definition PrepareTypedFilteredQuery (l : GoList) (q : bytes) (o : QueryOpts) (f : TypedFilter) : result filter_error FilteredQuery :=
  cf ← compileTypedFilter (Filterable (l_cfg l)) f; Ok (prepareFilteredQuery l q o cf).
Definition PrepareFilteredQuery (l : GoList) (q : bytes) (o : QueryOpts) (f : gmap bytes bytes) : result filter_error FilteredQuery :=
  cf ← compileFilter (Filterable (l_cfg l)) f; Ok (prepareFilteredQuery l q o cf).

Definition filtered_Cost (p : FilteredQuery) : Z := fq_cost p.
Definition AppliedFilter (p : FilteredQuery) : option (gmap bytes bytes) := applied (fq_cf p).
Definition AppliedFilterJSON (p : FilteredQuery) : bytes := appliedJSON (fq_cf p).

(** [FilteredQuery.run] *)
Definition run_filtered (p : FilteredQuery) (c : Context) : result query_error (list Candidate) * FilterStats :=
  if fq_anyOf p then anyOfSnap c (fq_l p) (fq_s p) (fq_terms p) (fq_opts p) (fq_cf p)
  else querySnap c (fq_l p) (fq_s p) (fq_q p) (fq_opts p) (fq_cf p).

Definition filtered_Execute (p : FilteredQuery) (c : Context) : result query_error (list Candidate) * bytes :=
  ((run_filtered p c).1, version (fq_s p)).

(** A failed execution reports zero statistics. *)
Definition ExecuteStats (p : FilteredQuery) (c : Context) : result query_error (list Candidate) * bytes * FilterStats :=
  let '(r, stats) := run_filtered p c in
  (r, version (fq_s p), match r with Err _ => no_stats | Ok _ => stats end).

Definition QueryFilteredCtx (l : GoList) (c : Context) (q : bytes) (o : QueryOpts) (f : gmap bytes bytes)
    : result filter_error (result query_error (list Candidate) * bytes) :=
  p ← PrepareFilteredQuery l q o f; Ok (filtered_Execute p c).
Definition QueryTypedFilteredCtx (l : GoList) (c : Context) (q : bytes) (o : QueryOpts) (f : TypedFilter)
    : result filter_error (result query_error (list Candidate) * bytes) :=
  p ← PrepareTypedFilteredQuery l q o f; Ok (filtered_Execute p c).

(** ** Any-of queries *)

Definition or_query_panic {A} (x : option A) : result query_error A := match x with Some a => Ok a | None => Err QueryPanicked end.

Definition PrepareExactAnyOf (l : GoList) (terms : list bytes) (o : QueryOpts) : result query_error PreparedQuery :=
  at_ ← anyOfTerms l terms;
  ch ← or_query_panic (anyOfCostSnap (snap l) at_ (effectiveTopK l o) None);
  Ok (mkPrepared l (snap l) [] o ch.1 true at_ ch.2).

Definition PrepareTypedFilteredExactAnyOf (l : GoList) (terms : list bytes) (o : QueryOpts) (f : TypedFilter) : result query_error FilteredQuery :=
  at_ ← anyOfTerms l terms;
  cf ← match compileTypedFilter (Filterable (l_cfg l)) f with Ok cf => Ok cf | Err e => Err (BadFilter e) end;
  ch ← or_query_panic (anyOfCostSnap (snap l) at_ (effectiveTopK l o) cf);
  Ok (mkFiltered l (snap l) [] o cf ch.1 true at_ ch.2).
End prepare.
