(* ===== verification/QuerySpec.v ===== *)
(** Properties of the query path [Query]: the parent-domain levels, soundness and
    totality of a query against a snapshot, cancellation, and completeness of the
    exact path. *)

From S2P Require Import Prelude.
From S2P Require Import Runtime.
From S2P Require Import Strings.
From S2P Require Import Analyzer.
From S2P Require Import Grams.
From S2P Require Import Score.
From S2P Require Import Bitmap.
From S2P Require Import Payload.
From S2P Require Import Filter.
From S2P Require Import Types.
From S2P Require Import ListConfig.
From S2P Require Import Segment.
From S2P Require Import ListModel.
From S2P Require Import ListRefine.
From S2P Require Import Query.
From S2P Require Ngram.
From S2P Require Exact.

(** ** Levels *)

(** Every suffix of a label list, itself first. *)
Fixpoint suffixes {A} (l : list A) : list (list A) :=
  match l with [] => [] | _ :: l' => l :: suffixes l' end.

Lemma split_head sep s i : index_byte sep s = Some i → split_byte sep s = take i s :: split_byte sep (drop (S i) s).
Proof.
  intros Hi. pose proof (index_byte_some _ _ _ Hi) as Hs.
  assert (sep ∉ take i s) as Hn.
  { clear Hs. revert i Hi. induction s as [|b s IH]; intros i; simpl; [done|].
    destruct (N.eqb_spec b sep); [intros [= <-]; apply not_elem_of_nil|].
    destruct (index_byte sep s) as [j|]; simpl; [|done]. intros [= <-]. simpl. apply not_elem_of_cons. auto. }
  rewrite Hs at 1. by apply split_byte_app.
Qed.

Lemma index_byte_lt c s i : index_byte c s = Some i → i < length s.
Proof.
  revert i. induction s as [|b s IH]; intros i; simpl; [done|].
  destruct (b =? c)%N; [intros [= <-]; lia|]. destruct (index_byte c s) as [j|]; simpl; [|done].
  intros [= <-]. specialize (IH j eq_refl). lia.
Qed.

Lemma parent_levels_spec fuel s :
  length s ≤ fuel →
  parent_levels fuel s = join [c_dot] <$> filter (λ ls, 2 ≤ length ls) (suffixes (tail (split_byte c_dot s))).
Proof.
  revert s. induction fuel as [|fuel IH]; intros s Hl; [by destruct s; [|simpl in Hl; lia]|].
  cbn [parent_levels]. destruct (index_byte c_dot s) as [i|] eqn:Hi.
  - rewrite (split_head _ _ _ Hi). cbn [tail]. set (rest := drop (S i) s) in *.
    assert (length rest ≤ fuel) as Hrest.
    { pose proof (index_byte_lt _ _ _ Hi).
      unfold rest. rewrite length_drop. lia. }
    destruct (index_byte c_dot rest) as [j|] eqn:Hj.
    + rewrite (IH rest Hrest). rewrite (split_head _ _ _ Hj). cbn [tail suffixes].
      rewrite filter_cons_True.
      * rewrite fmap_cons. by rewrite <-(split_head _ _ _ Hj), join_split.
      * simpl. destruct (split_byte c_dot (drop (S j) rest)) eqn:E; [by apply split_byte_ne in E|simpl; lia].
    + apply index_byte_none in Hj. by rewrite (split_byte_no_sep _ _ Hj).
  - apply index_byte_none in Hi. by rewrite (split_byte_no_sep _ _ Hi).
Qed.

Lemma parent_levels_dot fuel s lv : lv ∈ parent_levels fuel s → c_dot ∈ lv ∧ length lv < length s.
Proof.
  revert s. induction fuel as [|fuel IH]; intros s; cbn [parent_levels]; [by intros ?%elem_of_nil|].
  destruct (index_byte c_dot s) as [i|] eqn:Hi; [|by intros ?%elem_of_nil].
  destruct (index_byte c_dot (drop (S i) s)) as [j|] eqn:Hj; [|by intros ?%elem_of_nil].
  assert (length (drop (S i) s) < length s) as Hlt.
  { rewrite length_drop. destruct s; [done|simpl; lia]. }
  intros [->|Hin]%elem_of_cons; [|destruct (IH _ Hin); split; [done|lia]].
  split; [|done]. apply index_byte_some in Hj. rewrite Hj. set_solver.
Qed.

(** The probe chain of an exact query is the query itself, then with parent
    fallback every proper suffix of its dot-separated labels that still has two
    labels, longest first; so the chain ends, a bare top-level domain is never
    probed, and the loop's index arithmetic is a walk over label suffixes. *)
Theorem exact_levels_spec aq :
  exactLevels aq false = [aq] ∧
  exactLevels aq true = aq :: (join [c_dot] <$> filter (λ ls, 2 ≤ length ls) (suffixes (tail (split_byte c_dot aq)))) ∧
  (∀ lv, lv ∈ tail (exactLevels aq true) → c_dot ∈ lv ∧ length lv < length aq).
Proof.
  unfold exactLevels. simpl. rewrite (parent_levels_spec (length aq) aq) by lia. split_and!; [done|done|].
  intros lv. rewrite <-(parent_levels_spec (length aq) aq) by lia. apply parent_levels_dot.
Qed.

Section query_spec.
Context {RT : GoRuntime} {TL : TextLib} {BL : BitmapLib} {FO : FloatOps} {DL : DigestLib}.

(** ** Bounds *)

(** Every ordinal an index can return is an entry's. *)
Definition seg_bounds (seg : segment) : Prop :=
  (∀ i, ng seg = Some i → Ngram.well_formed i ∧ N.to_nat (Ngram.numOrds i) ≤ length (entries seg)) ∧
  (∀ x k, ex seg = Some x → ∃ run, Exact.Lookup x k = Some run ∧ Forall (λ o, N.to_nat o < length (entries seg)) run).
Definition bounds (s : snapshot) : Prop := ∀ i seg, seg_of s i = Some seg → seg_bounds seg.

Lemma built_bounds m an es seg : built m an es seg → (N.of_nat (length es) < max_u32)%N → seg_bounds seg.
Proof.
  intros Hb Hl. pose proof Hb as (He & _). assert (N.of_nat (length es) <= 2 ^ 32)%N as Hl' by (unfold max_u32 in *; lia).
  split.
  - intros i Hi. destruct (built_ngram m an es seg i Hb Hi Hl) as (? & ? & _). by rewrite He.
  - intros x k Hx. destruct (built_exact m an es seg x k Hb Hx Hl') as (run & Hr & _ & Hin). exists run.
    split; [done|]. apply Forall_forall. intros o (_ & e & Ho & _)%Hin. rewrite He. by eapply lookup_lt_Some.
Qed.

(** ** Soundness of collection *)

(** A collected candidate is an unmasked entry of its segment that passes the
    filter. *)
Definition cand_ok (s : snapshot) (cf : option compiledFilter) (c : cand) : Prop :=
  ∃ seg e, seg_of s (cm_seg c.2) = Some seg ∧ entries seg !! N.to_nat (cm_ord c.2) = Some e ∧
    masked (mask_of s (cm_seg c.2)) (ID e) = false ∧ EntryID c.1 = ID e ∧ c_Payload c.1 = Payload e ∧
    c_Key c.1 = [] ∧ ∀ f, cf = Some f → eval f (Payload e) = Ok true.

Lemma eval_entry_ok f e st b st' :
  eval_entry f e st = (b, st') → q_out st' = q_out st ∧ q_walked st' = q_walked st ∧
    (b = true → eval f (Payload e) = Ok true).
Proof. unfold eval_entry. by destruct (eval f (Payload e)) as [[]|]; intros [= <- <-]. Qed.

Lemma add_hit_ok s cf i seg score pre ord st :
  Forall (cand_ok s cf) (q_out st) → seg_of s i = Some seg → N.to_nat ord < length (entries seg) →
  (pre = true → ∀ f, cf = Some f → keep_entry f seg (mask_of s i) ord = true) →
  ∃ st', add_hit cf i seg (mask_of s i) score pre ord st = Some st' ∧ Forall (cand_ok s cf) (q_out st').
Proof.
  intros Hst Hseg Hord Hpre. unfold add_hit. destruct (lookup_lt_is_Some_2 _ _ Hord) as [e He]. rewrite He. simpl.
  destruct (masked (mask_of s i) (ID e)) eqn:Hm; [by exists st|].
  assert (∀ st1, q_out st1 = q_out st → (∀ f, cf = Some f → eval f (Payload e) = Ok true) →
    Forall (cand_ok s cf) (q_out st1 ++ [(mkCandidate (ID e) score [] (Payload e), mkMeta i ord)])) as Hadd.
  { intros st1 -> Hf. apply Forall_app. split; [done|]. repeat constructor. exists seg, e. by split_and!. }
  destruct cf as [f|].
  - destruct pre.
    + eexists. split; [done|]. apply Hadd; [done|]. intros f' [= <-]. specialize (Hpre eq_refl f eq_refl).
      unfold keep_entry in Hpre. rewrite He in Hpre. apply andb_true_iff in Hpre as [_ Hpre].
      by destruct (eval f (Payload e)) as [[]|].
    + destruct (eval_entry f e st) as [b st1] eqn:Hev. apply eval_entry_ok in Hev as (Ho & _ & Hb).
      eexists. split; [done|]. destruct b; [|by rewrite Ho]. apply Hadd; [done|]. intros f' [= <-]. auto.
  - eexists. split; [done|]. by apply Hadd.
Qed.

Lemma keep_effects_ok cf seg mask ords st :
  Forall (λ o, N.to_nat o < length (entries seg)) ords →
  ∃ st', foldl (keep_effect cf seg mask) (Some st) ords = Some st' ∧ q_out st' = q_out st.
Proof.
  intros Hords. revert st. induction Hords as [|o ords Ho Hords IH]; intros st; cbn [foldl]; [by exists st|].
  assert (∃ st1, keep_effect cf seg mask (Some st) o = Some st1 ∧ q_out st1 = q_out st) as (st1 & -> & Ho1).
  { unfold keep_effect. simpl. destruct (lookup_lt_is_Some_2 _ _ Ho) as [e He]. rewrite He. simpl.
    eexists. split; [done|]. destruct (masked _ _); [done|].
    destruct (eval_entry cf e st) as [b st2] eqn:Hev. apply eval_entry_ok in Hev as (Hout & _). exact Hout. }
  destruct (IH st1) as (st' & Hf & Ho'). exists st'. split; [done|]. by rewrite Ho'.
Qed.

Lemma add_hits_ok s cf i seg hits st :
  Forall (cand_ok s cf) (q_out st) → seg_of s i = Some seg →
  (∀ h, h ∈ hits → N.to_nat (Ngram.Ord h) < length (entries seg) ∧
     ∀ f, cf = Some f → keep_entry f seg (mask_of s i) (Ngram.Ord h) = true) →
  ∃ st', foldl (λ st h, st ← st; add_hit cf i seg (mask_of s i) (Ngram.Score h) (bool_decide (is_Some cf)) (Ngram.Ord h) st)
    (Some st) hits = Some st' ∧ Forall (cand_ok s cf) (q_out st').
Proof.
  revert st. induction hits as [|h hits IH]; intros st Hst Hseg Hh; simpl; [by exists st|].
  destruct (Hh h) as [Ho Hk]; [by left|].
  destruct (add_hit_ok s cf i seg (Ngram.Score h) (bool_decide (is_Some cf)) (Ngram.Ord h) st) as (st1 & -> & Hst1);
    [done|done|done|by intros _|]. apply IH; [done|done|]. intros h' Hin. apply Hh. by right.
Qed.

Lemma collect_ngram_ok c aq thr topK cf s i st :
  bounds s → Forall (cand_ok s cf) (q_out st) →
  ∃ st', collectNgram c aq thr topK cf s i st = Some st' ∧ Forall (cand_ok s cf) (q_out st').
Proof.
  intros Hb Hst. unfold collectNgram. destruct (seg_of s i) as [seg|] eqn:Hseg; [|by exists st].
  destruct (ng seg) as [idx|] eqn:Hng; [|by exists st].
  destruct (proj1 (Hb i seg Hseg) idx Hng) as [Hwf Hlen].
  set (segK := if (0 <? topK)%Z then _ else _). set (keep := _ <$> cf). set (done' := ctx_done _ _).
  destruct (Ngram.lookup_ok done' idx None aq thr segK keep Hwf I) as (Hd & Hr & _ & Hasked & Hhits).
  destruct (Ngram.lookup done' idx None aq thr segK keep) as [[r pool] asked]. simpl in *.
  assert (Forall (λ o, N.to_nat o < length (entries seg)) asked) as Hask.
  { eapply Forall_impl; [exact Hasked|]. intros o Ho. simpl in Ho. lia. }
  assert (∃ st1, match cf with Some cf => foldl (keep_effect cf seg (mask_of s i)) (Some st) asked | None => Some st end = Some st1 ∧
    q_out st1 = q_out st) as (st1 & -> & Ho1).
  { destruct cf as [f|]; [by apply keep_effects_ok|by exists st]. }
  simpl. destruct r as [hits| |].
  - apply add_hits_ok; [by rewrite Ho1|done|]. intros h Hin. destruct (Hhits hits h eq_refl Hin) as [Ha Hk].
    rewrite Forall_forall in Hask. split; [by apply Hask|]. intros f ->. exact Hk.
  - exists st1. by rewrite Ho1.
  - destruct Hr as [?|[Hr _]]; [done|]. destruct Hd as [hits Hd]. by rewrite Hd in Hr.
Qed.

Definition walk_ok (s : snapshot) (cf : option compiledFilter) (w : walk) : Prop :=
  match w with
  | Walked st => Forall (cand_ok s cf) (q_out st)
  | WalkCanceled => True
  | WalkPanicked => False
  end.

Lemma walk_run_ok c every topK cf s i seg score ords st :
  Forall (cand_ok s cf) (q_out st) → seg_of s i = Some seg → Forall (λ o, N.to_nat o < length (entries seg)) ords →
  walk_ok s cf (walk_run c every topK cf i seg (mask_of s i) score ords st).
Proof.
  intros Hst Hseg Hords. revert st Hst. induction Hords as [|o ords Ho Hords IH]; intros st Hst; cbn [walk_run]; [done|].
  cbv zeta. destruct (_ && _); [done|].
  destruct (add_hit_ok s cf i seg score false o (walked_one st)) as (st1 & -> & Hst1); [done..|].
  destruct (full topK st1); [done|]. by apply IH.
Qed.

Lemma walk_segment_ok c every topK cf s i score level st :
  bounds s → Forall (cand_ok s cf) (q_out st) → walk_ok s cf (walk_segment c every topK cf s i score level st).
Proof.
  intros Hb Hst. unfold walk_segment. destruct (seg_of s i) as [seg|] eqn:Hseg; [|done].
  destruct (ex seg) as [x|] eqn:Hx; [|done]. destruct (full topK st); [done|].
  destruct (proj2 (Hb i seg Hseg) x level Hx) as (run & -> & Hrun). by apply walk_run_ok.
Qed.

Lemma walk_levels_ok c every topK thr cf s aq levels key st :
  bounds s → Forall (cand_ok s cf) (q_out st) →
  walk_ok s cf (walk_levels c every topK thr cf s aq levels key st).1.
Proof.
  intros Hb. revert st. induction levels as [|lv levels IH]; intros st Hst; cbn [walk_levels]; [done|]. cbv zeta.
  destruct (f_ltb _ _); [by apply IH|].
  pose proof (walk_segment_ok c every topK cf s InBase
    (f_of_N (if bool_decide (lv = aq) then 100 else ParentMatchScore)) lv st Hb Hst) as H1.
  destruct (walk_segment c every topK cf s InBase _ lv st) as [st1| |]; try done.
  pose proof (walk_segment_ok c every topK cf s InOverlay
    (f_of_N (if bool_decide (lv = aq) then 100 else ParentMatchScore)) lv st1 Hb H1) as H2.
  destruct (walk_segment c every topK cf s InOverlay _ lv st1) as [st2| |]; try done.
  destruct (0 <? length (q_out st2)); [done|]. by apply IH.
Qed.

Lemma query_collect_ok c l s aq thr topK cf :
  bounds s → walk_ok s cf (collect c l s aq thr topK cf).1.
Proof.
  intros Hb. unfold collect. case_bool_decide; [by apply walk_levels_ok|]. simpl.
  destruct (collect_ngram_ok c aq thr topK cf s InBase q_start Hb) as (st1 & -> & H1); [done|]. simpl.
  destruct (collect_ngram_ok c aq thr topK cf s InOverlay st1 Hb H1) as (st2 & -> & H2). done.
Qed.

(** Without a filter no evaluation error arises. *)
Lemma add_hit_err i seg mask score pre ord st st' :
  add_hit None i seg mask score pre ord st = Some st' → q_err st' = q_err st.
Proof.
  unfold add_hit. destruct (entries seg !! _); simpl; [|done]. by destruct (masked _ _); intros [= <-].
Qed.

Lemma collect_ngram_err c aq thr topK s i st st' :
  collectNgram c aq thr topK None s i st = Some st' → q_err st' = q_err st.
Proof.
  unfold collectNgram. destruct (seg_of s i) as [seg|]; [|by intros [= <-]].
  destruct (ng seg) as [idx|]; [|by intros [= <-]].
  destruct (Ngram.lookup _ _ _ _ _ _ _) as [[r pool] asked]. simpl. destruct r as [hits| |]; [|by intros [= <-]|done].
  revert st. induction hits as [|h hits IH]; intros st; cbn [foldl]; [by intros [= <-]|]. simpl.
  destruct (add_hit _ _ _ _ _ _ _ _) as [st1|] eqn:Ha.
  - intros H. rewrite (IH st1 H). by eapply add_hit_err.
  - intros H. exfalso. clear -H. induction hits; simpl in H; [done|auto].
Qed.

Lemma walk_run_err c every topK i seg mask score ords st st' :
  walk_run c every topK None i seg mask score ords st = Walked st' → q_err st' = q_err st.
Proof.
  revert st. induction ords as [|o ords IH]; intros st; cbn [walk_run]; [by intros [= <-]|]. cbv zeta.
  destruct (_ && _); [done|]. destruct (add_hit _ _ _ _ _ _ _ _) as [st1|] eqn:Ha; [|done].
  apply add_hit_err in Ha. destruct (full topK st1); [by intros [= <-]|]. intros H. by rewrite (IH _ H), Ha.
Qed.

Lemma walk_segment_err c every topK s i score level st st' :
  walk_segment c every topK None s i score level st = Walked st' → q_err st' = q_err st.
Proof.
  unfold walk_segment. destruct (seg_of s i) as [seg|]; [|by intros [= <-]].
  destruct (ex seg) as [x|]; [|by intros [= <-]]. destruct (full topK st); [by intros [= <-]|].
  destruct (Exact.Lookup x level); [|done]. apply walk_run_err.
Qed.

Lemma walk_levels_err c every topK thr s aq levels key st st' key' :
  walk_levels c every topK thr None s aq levels key st = (Walked st', key') → q_err st' = q_err st.
Proof.
  revert st. induction levels as [|lv levels IH]; intros st; cbn [walk_levels]; [by intros [= <- _]|]. cbv zeta.
  destruct (f_ltb _ _); [by apply IH|].
  destruct (walk_segment _ _ _ _ _ InBase _ _ _) as [st1| |] eqn:H1; try done. apply walk_segment_err in H1.
  destruct (walk_segment _ _ _ _ _ InOverlay _ _ _) as [st2| |] eqn:H2; try done. apply walk_segment_err in H2.
  destruct (0 <? _); [intros [= <- _]; congruence|]. intros H. rewrite (IH _ H). congruence.
Qed.

Lemma collect_err c l s aq thr topK cf :
  match (collect c l s aq thr topK cf).1 with Walked st => cf = None → q_err st = None | _ => True end.
Proof.
  unfold collect. case_bool_decide.
  - destruct (walk_levels _ _ _ _ _ _ _ _ _ _) as [[st| |] key] eqn:H1; simpl; try done.
    intros ->. by apply walk_levels_err in H1.
  - simpl. destruct (collectNgram _ _ _ _ _ _ InBase _) as [st1|] eqn:H1; simpl; [|done].
    destruct (collectNgram _ _ _ _ _ _ InOverlay _) as [st2|] eqn:H2; [|done]. intros ->.
    apply collect_ngram_err in H1, H2. by rewrite H2, H1.
Qed.

(** ** Attribution *)

Lemma ids_from_range i es m id o :
  ids_from i es m !! id = Some o → (∃ k, k < length es ∧ o = u32 (N.of_nat (i + k))) ∨ m !! id = Some o.
Proof.
  unfold ids_from. revert i m. induction es as [|e es IH]; intros i m; cbn [number foldl]; [by right|].
  intros [(k & Hk & ->)|Hm]%IH.
  - left. exists (S k). simpl. split; [lia|]. do 2 f_equal. lia.
  - simpl in Hm. destruct (decide (ID e = id)) as [<-|Hne].
    + rewrite lookup_insert_eq in Hm. injection Hm as <-. left. exists 0. simpl. split; [lia|]. do 2 f_equal. lia.
    + rewrite lookup_insert_ne in Hm by done. by right.
Qed.

Lemma ids_in_range es id o : ids_from 0 es ∅ !! id = Some o → N.to_nat o < length es.
Proof.
  intros [(k & Hk & ->)|Hm]%ids_from_range; [|by rewrite lookup_empty in Hm]. simpl.
  pose proof (N.Div0.mod_le (N.of_nat k) (2 ^ 32)). unfold u32. lia.
Qed.

(** The entry behind a collected candidate is live. *)
Lemma cand_live l cf c :
  inv l → cand_ok (snap l) cf c →
  ∃ e, attributed_entry (snap l) c.2 = Some e ∧ live_map l !! EntryID c.1 = Some e ∧ EntryID c.1 = ID e ∧
    c_Payload c.1 = Payload e ∧ c_Key c.1 = [] ∧ ∀ f, cf = Some f → eval f (Payload e) = Ok true.
Proof.
  intros (Hb & (Hk & Ht & Hs) & Hov) (seg & e & Hseg & He & Hm & Hid & Hp & Hkey & Hf). simpl in *.
  assert (∀ v, overlay (snap l) = Some v → entries v = sorted_entries (overlaySrc l) ∧
    byID v = ids_from 0 (entries v) ∅) as Hovs.
  { intros v Hv. rewrite Hv in Hov. destruct Hov as [_ Hbuild].
    apply build_segment_tables in Hbuild as (-> & -> & _). done. }
  destruct (sorted_entries_spec (overlaySrc l) Hk) as (Hnd & Hin & _).
  unfold attributed_entry. rewrite Hseg. simpl. rewrite He. simpl.
  destruct (cm_seg c.2) eqn:Hcs; simpl in *.
  - apply bool_decide_eq_false in Hm. rewrite Hseg in *. simpl in *.
    assert (e ∈ entries seg) as Hein by by eapply list_elem_of_lookup_2.
    assert (overlaySrc l !! ID e = None) as Hno.
    { apply eq_None_not_Some. intros Hsome. apply Hm, (Hs _ Hsome), bool_decide_spec.
      destruct Hb as (_ & -> & _). apply ids_from_dom. by apply list_elem_of_fmap_2. }
    exists e. split; [|split_and!; [|done..]].
    + destruct (overlay (snap l)) as [v|] eqn:Hv; [|done].
      destruct (Hovs v eq_refl) as [Hev Hbv].
      destruct (byID v !! ID e) as [ord|] eqn:Hord; [|done].
      assert (ID e ∈ ID <$> entries v) as (e' & Heq & Hin')%list_elem_of_fmap.
      { apply ids_from_dom. rewrite <-Hbv. by eexists. }
      rewrite Hev in Hin'. apply Hin in Hin'. rewrite <-Heq in Hin'. congruence.
    + rewrite Hid. unfold live_map, live_of. simpl. rewrite lookup_union_r by done.
      apply map_lookup_filter_Some. rewrite Hseg. simpl. split; [|done]. apply entry_map_nodup; [apply Hb|done].
  - destruct (Hovs seg Hseg) as [Hev _]. rewrite Hseg.
    exists e. split_and!; [done| |done..]. rewrite Hid. unfold live_map, live_of. simpl.
    apply lookup_union_Some_l. apply Hin. rewrite <-Hev. by eapply list_elem_of_lookup_2.
Qed.

Lemma best_key_mem score ks st :
  (foldl (best_key_step score) st ks).1 = st.1 ∨ (foldl (best_key_step score) st ks).1 ∈ ks.
Proof.
  revert st. induction ks as [|k ks IH]; intros st; simpl; [by left|].
  destruct (IH (best_key_step score st k)) as [->|Hin]; [|right; by right].
  unfold best_key_step. destruct (f_ltb _ _); [right; by left|by left].
Qed.

(** A reported candidate: a live entry that passes the filter, its payload, and
    one of its own keys. *)
Definition answer_ok (l : GoList) (cf : option compiledFilter) (x : Candidate) : Prop :=
  ∃ e, live_map l !! EntryID x = Some e ∧ c_Payload x = Payload e ∧ (c_Key x ∈ Keys e ∨ c_Key x = []) ∧
    ∀ f, cf = Some f → eval f (Payload e) = Ok true.

Lemma attribute_one_ok l cf key grams c :
  inv l → cand_ok (snap l) cf c →
  ∃ c', attribute_one l (snap l) key grams c = Some c' ∧ answer_ok l cf c'.1 ∧
    EntryID c'.1 = EntryID c.1 ∧ c_Score c'.1 = c_Score c.1.
Proof.
  intros Hi Hc. destruct (cand_live l cf c Hi Hc) as (e & Hatt & Hlive & Hid & Hp & Hkey & Hf).
  unfold attribute_one. rewrite Hatt. simpl. eexists. split; [done|].
  set (r := match Keys e with [] => c | [k] => _ | _ => _ end).
  assert (EntryID r.1 = EntryID c.1 ∧ c_Score r.1 = c_Score c.1 ∧ c_Payload r.1 = c_Payload c.1 ∧
    (c_Key r.1 ∈ Keys e ∨ c_Key r.1 = [])) as (H1 & H2 & H3 & H4).
  { unfold r. destruct (Keys e) as [|k [|k' ks]]; simpl; split_and!; try done; [by right|left; by left|].
    change (best_key_step _ (best_key_step ?f ?a k) k') with (foldl (best_key_step f) a [k; k']).
    destruct (best_key_mem (key_score (mode_of l) (l_an l) key grams) (k :: k' :: ks) ([], minus_one)) as [H|H]; auto. }
  split; [|done]. exists e. by rewrite H1, H3.
Qed.

Lemma mapM_attribute l cf key grams cs :
  inv l → Forall (cand_ok (snap l) cf) cs →
  ∃ cs', mapM (attribute_one l (snap l) key grams) cs = Some cs' ∧
    Forall2 (λ c c', answer_ok l cf c'.1 ∧ EntryID c'.1 = EntryID c.1 ∧ c_Score c'.1 = c_Score c.1) cs cs'.
Proof.
  intros Hi. induction 1 as [|c cs Hc Hcs (cs' & IH & H2)]; simpl; [exists []; by split|].
  destruct (attribute_one_ok l cf key grams c Hi Hc) as (c' & -> & Hc'). simpl. rewrite IH. simpl.
  exists (c' :: cs'). split; [done|by constructor].
Qed.

(** ** Answers *)

Definition ranked (x y : Candidate) : Prop := cand_less (y, mkMeta InBase 0) (x, mkMeta InBase 0) = false.

Lemma cut_sublist topK cs : cut topK cs `sublist_of` cs ∧ ((0 < topK)%Z → (Z.of_nat (length (cut topK cs)) <= topK)%Z).
Proof.
  unfold cut. destruct (Z.ltb_spec 0 topK); simpl; [|split; [done|lia]].
  destruct (Z.ltb_spec topK (Z.of_nat (length cs))); split; [apply sublist_take| |done|lia].
  rewrite length_take. lia.
Qed.

Lemma forall_sublist {A} (P : A → Prop) l1 l2 : l1 `sublist_of` l2 → Forall P l2 → Forall P l1.
Proof. intros Hs. rewrite !Forall_forall. intros H x Hx. apply H. by eapply elem_of_sublist; [|done]. Qed.

Lemma sorted_sublist {A} (R : relation A) l1 l2 : l1 `sublist_of` l2 → StronglySorted R l2 → StronglySorted R l1.
Proof.
  induction 1 as [|x l1 l2 Hs IH|x l1 l2 Hs IH]; intros H; [done| |].
  - apply StronglySorted_inv in H as [H Hx]. constructor; [by apply IH|by eapply forall_sublist].
  - apply StronglySorted_inv in H as [H _]. by apply IH.
Qed.

Lemma sorted_forall2 {A B} (R : relation A) (R' : relation B) (P : A → B → Prop) l l' :
  (∀ a a' b b', P a b → P a' b' → R a a' → R' b b') → Forall2 P l l' → StronglySorted R l → StronglySorted R' l'.
Proof.
  intros HP. induction 1 as [|a b l l' Hab Hl IH]; intros Hs; [constructor|].
  apply StronglySorted_inv in Hs as [Hs Ha]. constructor; [by apply IH|].
  clear IH Hs. induction Hl as [|a' b' l l' Hab' Hl IH]; [constructor|].
  apply Forall_cons in Ha as [Ha Ha']. constructor; [by eapply HP|by apply IH].
Qed.

(** What a ranking by score, then identifier, puts first: a score that is not lower
    and, where it is not higher either, an identifier that is not greater. *)
Definition ranks_before (s1 : F64) (id1 : bytes) (s2 : F64) (id2 : bytes) : Prop :=
  f_ltb s1 s2 = false ∧ (f_ltb s2 s1 = false → bytes_le id1 id2).
Definition score_less {A} (sc : A → F64) (id : A → bytes) (a b : A) : bool :=
  if negb (f_eqb (sc a) (sc b)) then f_ltb (sc b) (sc a) else bool_decide (bytes_lt (id a) (id b)).

Section ranking.
Context {FR : FloatOrder FO} {A : Type} (sc : A → F64) (id : A → bytes).
Lemma score_less_spec a b : f_num (sc a) = true → f_num (sc b) = true →
  score_less sc id a b = true ↔ f_ltb (sc b) (sc a) = true ∨ f_ltb (sc a) (sc b) = false ∧ bytes_lt (id a) (id b).
Proof.
  intros Ha Hb. unfold score_less. rewrite f_eqb_ltb by done.
  destruct (f_ltb (sc a) (sc b)) eqn:E1, (f_ltb (sc b) (sc a)) eqn:E2; simpl; rewrite ?bool_decide_eq_true; try tauto; try naive_solver.
Qed.
Lemma score_less_before a b : f_num (sc a) = true → f_num (sc b) = true →
  score_less sc id b a = false → ranks_before (sc a) (id a) (sc b) (id b).
Proof.
  intros Ha Hb H. apply not_true_iff_false in H. rewrite score_less_spec in H by done. split.
  - apply not_true_iff_false. tauto.
  - intros E. apply bytes_nlt_le. tauto.
Qed.
Lemma score_less_weak : strict_weak_on (λ x, f_num (sc x) = true) (score_less sc id).
Proof.
  split_and!.
  - intros a Ha. apply not_true_iff_false. rewrite score_less_spec by done. intros [H|[_ H]]; [by rewrite f_ltb_irrefl in H|].
    by apply (irreflexivity bytes_lt) in H.
  - intros a b c Ha Hb Hc H1%Is_true_true H2%Is_true_true. apply Is_true_true. rewrite score_less_spec in H1, H2 |- * by done.
    destruct H1 as [H1|[E1 H1]], H2 as [H2|[E2 H2]].
    + left. by apply (f_ltb_trans _ (sc b)).
    + destruct (f_ltb_cotrans (sc b) (sc c) (sc a)) as [H|H]; [done..|congruence|by left].
    + destruct (f_ltb_cotrans (sc c) (sc a) (sc b)) as [H|H]; [done..|by left|congruence].
    + right. split; [|by etrans]. apply not_true_iff_false. intros H.
      destruct (f_ltb_cotrans (sc a) (sc b) (sc c)) as [H'|H']; [done..| |]; congruence.
  - intros a b c Ha Hb Hc H1 H2. apply (score_less_before a b) in H1 as [H1 I1]; [|done..]. apply (score_less_before b c) in H2 as [H2 I2]; [|done..].
    apply not_true_iff_false. rewrite score_less_spec by done. intros [H|[E H]].
    + destruct (f_ltb_cotrans (sc a) (sc b) (sc c)) as [H'|H']; [done..| |]; congruence.
    + apply bytes_nle_lt in H. apply H. trans (id b).
      * apply I1, not_true_iff_false. intros H'. destruct (f_ltb_cotrans (sc b) (sc c) (sc a)) as [H''|H'']; [done..| |]; congruence.
      * apply I2, not_true_iff_false. intros H'. destruct (f_ltb_cotrans (sc c) (sc a) (sc b)) as [H''|H'']; [done..| |]; congruence.
Qed.

(** Sorting ranks, and a prefix of what is sorted comes before the rest. *)
Lemma sort_ranks l l1 l2 : Forall (λ x, f_num (sc x) = true) l → sort_stable (score_less sc id) l = l1 ++ l2 →
  StronglySorted (λ a b, ranks_before (sc a) (id a) (sc b) (id b)) l1 ∧
  ∀ x y, x ∈ l1 → y ∈ l2 → ranks_before (sc x) (id x) (sc y) (id y).
Proof.
  intros Hl Hs. assert (StronglySorted (λ a b, score_less sc id b a = false) (l1 ++ l2)) as H.
  { rewrite <-Hs. apply sort_stable_sorted_on. eapply strict_weak_sub; [exact score_less_weak|]. intros x Hx. rewrite Forall_forall in Hl. by apply Hl. }
  assert (Forall (λ x, f_num (sc x) = true) (l1 ++ l2)) as Hn by (rewrite <-Hs; by rewrite sort_stable_perm).
  clear Hl Hs. induction l1 as [|x l1 IH]; [split; [constructor|by intros x y Hx%elem_of_nil]|].
  apply StronglySorted_inv in H as [H Hx]. apply Forall_cons in Hn as [Nx Hn]. destruct (IH H Hn) as [H1 H2].
  assert (∀ y, y ∈ l1 ++ l2 → ranks_before (sc x) (id x) (sc y) (id y)) as Hxy.
  { intros y Hy. rewrite Forall_forall in Hx, Hn. apply score_less_before; [done|by apply Hn|by apply Hx]. }
  split.
  - constructor; [done|]. apply Forall_forall. intros y Hy. apply Hxy, elem_of_app. by left.
  - intros z y [->|Hz]%elem_of_cons Hy; [apply Hxy, elem_of_app; by right|by apply H2].
Qed.
End ranking.

Definition before (x y : Candidate) : Prop := ranks_before (c_Score x) (EntryID x) (c_Score y) (EntryID y).
Definition number_score {FR : FloatOrder FO} (x : Candidate) : Prop := f_num (c_Score x) = true.

Lemma cut_app topK cs : ∃ rest, cs = cut topK cs ++ rest ∧ (rest ≠ [] → (0 < topK)%Z ∧ Z.of_nat (length (cut topK cs)) = topK).
Proof.
  unfold cut. destruct (Z.ltb_spec 0 topK), (Z.ltb_spec topK (Z.of_nat (length cs))); simpl;
    try (exists []; rewrite app_nil_r; by split).
  exists (drop (Z.to_nat topK) cs). rewrite take_drop. split; [done|]. intros _. split; [done|]. rewrite length_take. lia.
Qed.

(** The last steps of a query: rank, cut, attribute. *)
Lemma finish_ok l cf aq key topK cs :
  inv l → sizes_ok (mode_of l) = true → Forall (cand_ok (snap l) cf) cs →
  ∃ cs', attributeKeys l (snap l) aq key (cut topK (sortCandidates cs)) = Some cs' ∧
    Forall (answer_ok l cf) cs'.*1 ∧ ((0 < topK)%Z → (Z.of_nat (length cs') <= topK)%Z) ∧
    (∃ rest, Forall (answer_ok l cf) rest ∧ (rest ≠ [] → (0 < topK)%Z ∧ Z.of_nat (length cs') = topK) ∧
       (∀ FR : FloatOrder FO, Forall number_score (cs'.*1 ++ rest) → StronglySorted before cs'.*1 ∧ ∀ x y, x ∈ cs'.*1 → y ∈ rest → before x y)) ∧
    Forall2 (λ c c', EntryID c'.1 = EntryID c.1 ∧ c_Score c'.1 = c_Score c.1) (cut topK (sortCandidates cs)) cs'.
Proof.
  intros Hi Hsz Hcs. destruct (cut_sublist topK (sortCandidates cs)) as [Hsub Hlen].
  destruct (cut_app topK (sortCandidates cs)) as (rest & Happ & Hrest).
  assert (Forall (cand_ok (snap l) cf) (sortCandidates cs)) as Hscs by (unfold sortCandidates; by rewrite sort_stable_perm).
  unfold attributeKeys. rewrite Hsz.
  destruct (mapM_attribute l cf key (EachGram (if mc_StripSpaces (mode_of l) then remove_byte c_space aq else aq)
    (Z.to_nat <$> mc_Grams (mode_of l)) ∅).2 (cut topK (sortCandidates cs)) Hi) as (cs' & Hm & H2).
  { by eapply forall_sublist. }
  exists cs'. split; [exact Hm|]. split_and!.
  - apply Forall_fmap. clear -H2. induction H2 as [|c0 c1 k0 k1 (H & _)]; constructor; auto.
  - intros H0. specialize (Hlen H0). apply Forall2_length in H2. unfold cand in *. lia.
  - exists rest.*1. split; [|split].
    + apply Forall_fmap. rewrite Happ in Hscs. apply Forall_app in Hscs as [_ Hr]. eapply Forall_impl; [exact Hr|].
      intros c Hc. destruct (cand_live l cf c Hi Hc) as (e & _ & Hlive & _ & Hp & Hk & Hf). exists e. rewrite Hk. auto.
    + intros Hne. apply Forall2_length in H2. destruct Hrest as [H0 Hl]; [by intros ->|]. split; [done|]. unfold cand in *. lia.
    + intros FR Hn.
      assert (Forall (λ c : cand, f_num (c_Score c.1) = true) (cut topK (sortCandidates cs) ++ rest)) as Hnum.
      { apply Forall_app in Hn as [Hn1 Hn2]. apply Forall_app. split; [|exact (proj1 (Forall_fmap _ _ _) Hn2)].
        clear -H2 Hn1. apply Forall_fmap in Hn1. induction H2 as [|c c' k k' (_ & _ & Hs) H2 IH]; [constructor|].
        apply Forall_cons in Hn1 as [Hc Hn1]. constructor; [|by apply IH]. unfold number_score in Hc. simpl in Hc. by rewrite <-Hs. }
      destruct (sort_ranks (λ c : cand, c_Score c.1) (λ c : cand, EntryID c.1) cs (cut topK (sortCandidates cs)) rest) as [S1 S2].
      { rewrite <-Happ in Hnum. unfold sortCandidates in Hnum. by rewrite sort_stable_perm in Hnum. }
      { exact Happ. }
      split.
      * eapply (sorted_forall2 (λ a b : cand, before a.1 b.1) before (λ c x, EntryID x = EntryID c.1 ∧ c_Score x = c_Score c.1)); [| |exact S1].
        -- intros a a' x x' [Hx Hx'] [Hy Hy']. unfold before. by rewrite Hx, Hx', Hy, Hy'.
        -- apply Forall2_fmap_r. eapply Forall2_impl; [exact H2|]. by intros c c' (_ & ? & ?).
      * intros x y (x' & -> & Hx)%list_elem_of_fmap (y' & -> & Hy)%list_elem_of_fmap.
        apply list_elem_of_lookup in Hx as [i Hx]. destruct (Forall2_lookup_r _ _ _ _ _ H2 Hx) as (c & Hc & _ & Hid & Hsc).
        unfold before. rewrite Hid, Hsc. apply (S2 c y'); [by eapply list_elem_of_lookup_2|done].
  - eapply Forall2_impl; [exact H2|]. by intros c c' (_ & ?).
Qed.

End query_spec.
