(* ===== verification/QueryExact.v ===== *)
(** Cancellation of a query, and completeness of the exact path: against an
    uncancelled context and without a top-K bound, an exact query reports exactly
    the live entries that hold the first level of the probe chain some live entry
    holds. *)

From S2P Require Import Prelude.
From S2P Require Import Runtime.
From S2P Require Import Analyzer.
From S2P Require Import Score.
From S2P Require Import Bitmap.
From S2P Require Import Filter.
From S2P Require Import Types.
From S2P Require Import ListConfig.
From S2P Require Import Segment.
From S2P Require Import ListModel.
From S2P Require Import ListRefine.
From S2P Require Import Query.
From S2P Require Import QuerySpec.
From S2P Require Ngram.
From S2P Require Exact.

Section query_exact.
Context {RT : GoRuntime} {TL : TextLib} {BL : BitmapLib} {FO : FloatOps} {DL : DigestLib}.

(** ** Cancellation *)

(** Once cancelled, a context stays cancelled. *)
Definition monotone (c : Context) : Prop :=
  ∀ f s k s' k', c = Some f → s < s' ∨ s = s' ∧ k ≤ k' → f s k = true → f s' k' = true.

Lemma walk_run_cancel c every topK cf i seg mask score ords st :
  let r := walk_run c every topK cf i seg mask score ords st in
  r = WalkCanceled ∨ r = walk_run None every topK cf i seg mask score ords st.
Proof.
  revert st. induction ords as [|o ords IH]; intros st; cbn [walk_run]; [by right|]. cbv zeta.
  change (ctx_poll None 1 (q_walked (walked_one st) / every)) with false. rewrite andb_false_r.
  destruct (_ && _); [by left|]. destruct (add_hit _ _ _ _ _ _ _ _) as [st1|]; [|by right].
  destruct (full topK st1); [by right|apply IH].
Qed.

Lemma walk_segment_cancel c every topK cf s i score level st :
  let r := walk_segment c every topK cf s i score level st in
  r = WalkCanceled ∨ r = walk_segment None every topK cf s i score level st.
Proof.
  unfold walk_segment. destruct (seg_of s i) as [seg|]; [|by right]. destruct (ex seg); [|by right].
  destruct (full topK st); [by right|]. destruct (Exact.Lookup _ _); [|by right]. apply walk_run_cancel.
Qed.

Lemma walk_levels_cancel c every topK thr cf s aq levels key st :
  let r := walk_levels c every topK thr cf s aq levels key st in
  r.1 = WalkCanceled ∨ r = walk_levels None every topK thr cf s aq levels key st.
Proof.
  revert st. induction levels as [|lv levels IH]; intros st; cbn [walk_levels]; [by right|]. cbv zeta.
  destruct (f_ltb _ _); [apply IH|]. set (score := f_of_N _).
  destruct (walk_segment_cancel c every topK cf s InBase score lv st) as [->| ->]; [by left|].
  destruct (walk_segment None every topK cf s InBase score lv st) as [st1| |]; try by right.
  destruct (walk_segment_cancel c every topK cf s InOverlay score lv st1) as [->| ->]; [by left|].
  destruct (walk_segment None every topK cf s InOverlay score lv st1) as [st2| |]; try by right.
  destruct (0 <? _); [by right|apply IH].
Qed.

Lemma collect_ngram_cancel c aq thr topK cf s i st :
  bounds s →
  collectNgram c aq thr topK cf s i st = collectNgram None aq thr topK cf s i st ∨
  Ngram.polled (ctx_done c (match i with InBase => 1 | InOverlay => 2 end)).
Proof.
  intros Hb. unfold collectNgram. destruct (seg_of s i) as [seg|] eqn:Hseg; [|by left].
  destruct (ng seg) as [idx|] eqn:Hng; [|by left].
  destruct (proj1 (Hb i seg Hseg) idx Hng) as [Hwf _].
  set (segK := if (0 <? topK)%Z then _ else _). set (keep := _ <$> cf).
  change (ctx_done None _) with (@None (nat → bool)).
  set (done' := ctx_done c _).
  pose proof (Ngram.lookup_ok done' idx None aq thr segK keep Hwf I) as (_ & Hr & _).
  pose proof (Ngram.lookup_polled done' idx None aq thr segK keep) as Hp.
  destruct (Ngram.lookup done' idx None aq thr segK keep) as [[r p] asked].
  destruct (Ngram.lookup None idx None aq thr segK keep) as [[r0 p0] asked0]. simpl in *.
  destruct Hr as [->|[-> ->]]; [right; by apply Hp|by left].
Qed.

(** A cancelled collection stops the walk, or leaves a context that the final
    check sees as cancelled. *)
Lemma collect_cancel c l s aq thr topK cf :
  bounds s → monotone c →
  let w := collect c l s aq thr topK cf in
  w = collect None l s aq thr topK cf ∨ w.1 = WalkCanceled ∨
  ctx_poll c 3 0 = true ∧ ∃ st, w.1 = Walked st ∧ (cf = None → q_err st = None).
Proof.
  intros Hb Hm. pose proof (collect_err c l s aq thr topK cf) as He. revert He. simpl. unfold collect. case_bool_decide.
  { intros _. destruct (walk_levels_cancel c (match cf with Some _ => exactFilteredCancelCheckEvery | None => exactCancelCheckEvery end)
      topK thr cf s aq (exactLevels aq (bool_decide (Fallback (mode_of l) = parent_domain))) aq q_start)
      as [H1|H1]; [right; by left|by left]. }
  destruct (collect_ngram_ok c aq thr topK cf s InBase q_start Hb) as (st1 & Hs1 & Ho1); [done|].
  destruct (collect_ngram_ok c aq thr topK cf s InOverlay st1 Hb Ho1) as (st2 & Hs2 & _).
  rewrite Hs1. simpl. rewrite Hs2. intros He.
  assert (∀ stage, stage < 3 → Ngram.polled (ctx_done c stage) → ctx_poll c 3 0 = true) as Hpoll.
  { intros stage Hstage (f & k & Hf & Hk). destruct c as [g|]; [|done]. injection Hf as <-.
    apply (Hm g stage k 3 0); [done|by left|done]. }
  destruct (collect_ngram_cancel c aq thr topK cf s InBase q_start Hb) as [H1|H1];
    [|right; right; split; [by apply (Hpoll 1); [lia|]|by exists st2]].
  destruct (collect_ngram_cancel c aq thr topK cf s InOverlay st1 Hb) as [H2|H2];
    [|right; right; split; [by apply (Hpoll 2); [lia|]|by exists st2]].
  left. rewrite <-H1, Hs1. simpl. by rewrite <-H2, Hs2.
Qed.

(** Cancellation never yields a partial answer.  Under a context that stays
    cancelled once it is, a query answers exactly what it answers uncancelled, or
    nothing with zero statistics, or - only with a filter - the malformed payload
    it met before the cancellation was seen. *)
Theorem query_cancel c l q o cf :
  bounds (snap l) → monotone c →
  let r := querySnap c l (snap l) q o cf in
  r = querySnap None l (snap l) q o cf ∨ r = (Ok [], no_stats) ∨
  ∃ e st f, r = (Err (BadPayload e), st) ∧ cf = Some f.
Proof.
  intros Hb Hm. simpl. unfold querySnap. simpl (ctx_poll None _ _).
  destruct (ctx_poll c 0 0); [right; by left|]. case_bool_decide; [by left|].
  destruct (collect_cancel c l (snap l) (Normalize (l_an l) q) (effective_threshold l o) (effectiveTopK l o) cf Hb Hm)
    as [->|[Hw|(Hp & st & Hw & He)]].
  - destruct (collect None _ _ _ _ _ _) as [[st| |] key]; [|by left..].
    destruct (q_err st); [by left|]. destruct (ctx_poll c 3 0); [right; by left|by left].
  - destruct (collect c _ _ _ _ _ _) as [w key]. simpl in Hw. subst w. right. by left.
  - destruct (collect c _ _ _ _ _ _) as [w key]. simpl in Hw. subst w. rewrite Hp.
    destruct (q_err st) as [e|]; [|right; by left]. destruct cf as [f|]; [|discriminate (He eq_refl)].
    right. right. by exists e, (q_stats st), f.
Qed.

(** ** The exact path *)

(** Every segment of the snapshot is the build of its entries. *)
Definition seg_built (l : GoList) : Prop :=
  ∀ i seg, seg_of (snap l) i = Some seg →
    built (mode_of l) (l_an l) (entries seg) seg ∧ (N.of_nat (length (entries seg)) < max_u32)%N.

Lemma seg_built_bounds l : seg_built l → bounds (snap l).
Proof. intros Hb i seg Hseg. destruct (Hb i seg Hseg) as [? ?]. by eapply built_bounds. Qed.

Definition level_score (aq lv : bytes) : F64 := f_of_N (if bool_decide (lv = aq) then 100 else ParentMatchScore).
Definition suppressed (thr : F64) (aq lv : bytes) : bool := f_ltb (level_score aq lv) (f_mul thr (f_of_N 100)).

(** The candidates of one run, and of one level. *)
Definition hit_cand (s : snapshot) (score : F64) (i : seg_id) (seg : segment) (o : N) : option cand :=
  e ← entries seg !! N.to_nat o;
  if masked (mask_of s i) (ID e) then None else Some (mkCandidate (ID e) score [] (Payload e), mkMeta i o).
Definition seg_cands (s : snapshot) (score : F64) (lv : bytes) (i : seg_id) : list cand :=
  match seg_of s i with
  | Some seg =>
      match ex seg with
      | Some x => from_option (omap (hit_cand s score i seg)) [] (Exact.Lookup x lv)
      | None => []
      end
  | None => []
  end.
Definition level_cands (s : snapshot) (score : F64) (lv : bytes) : list cand :=
  seg_cands s score lv InBase ++ seg_cands s score lv InOverlay.

Lemma full_unlimited topK st : (topK <= 0)%Z → full topK st = false.
Proof. intros H. unfold full. by destruct (Z.ltb_spec 0 topK); [lia|]. Qed.

Lemma walk_run_all every topK s i seg score ords st :
  (topK <= 0)%Z → Forall (λ o, N.to_nat o < length (entries seg)) ords →
  ∃ st', walk_run None every topK None i seg (mask_of s i) score ords st = Walked st' ∧
    q_out st' = q_out st ++ omap (hit_cand s score i seg) ords.
Proof.
  intros Hk Hords. revert st. induction Hords as [|o ords Ho Hords IH]; intros st; cbn [walk_run omap list_omap].
  { exists st. by rewrite app_nil_r. }
  cbv zeta. change (ctx_poll None 1 _) with false. rewrite andb_false_r. unfold add_hit, hit_cand at 1.
  destruct (lookup_lt_is_Some_2 _ _ Ho) as [e He]. rewrite He. simpl.
  destruct (masked (mask_of s i) (ID e)); rewrite full_unlimited by done.
  - destruct (IH (walked_one st)) as (st' & -> & Hst'). exists st'. split; [done|]. by rewrite Hst'.
  - match goal with |- context [walk_run None every topK None i seg (mask_of s i) score ords ?t] =>
      destruct (IH t) as (st' & -> & Hst') end.
    exists st'. split; [done|]. rewrite Hst'. simpl. by rewrite <-app_assoc.
Qed.

Lemma walk_segment_all every topK s i score lv st :
  (topK <= 0)%Z → bounds s →
  ∃ st', walk_segment None every topK None s i score lv st = Walked st' ∧ q_out st' = q_out st ++ seg_cands s score lv i.
Proof.
  intros Hk Hb. unfold walk_segment, seg_cands. destruct (seg_of s i) as [seg|] eqn:Hseg; [|exists st; by rewrite app_nil_r].
  destruct (ex seg) as [x|] eqn:Hx; [|exists st; by rewrite app_nil_r]. rewrite full_unlimited by done.
  destruct (proj2 (Hb i seg Hseg) x lv Hx) as (run & -> & Hrun). by apply walk_run_all.
Qed.

(** The level loop stops at the first level that is allowed and has candidates. *)
Lemma walk_levels_first every topK thr s aq levels key st :
  (topK <= 0)%Z → bounds s → q_out st = [] →
  let skipped lv := suppressed thr aq lv = true ∨ level_cands s (level_score aq lv) lv = [] in
  ∃ st' key', walk_levels None every topK thr None s aq levels key st = (Walked st', key') ∧
    ((q_out st' = [] ∧ ∀ lv, lv ∈ levels → skipped lv) ∨
     ∃ pre lv post, levels = pre ++ lv :: post ∧ (∀ lv', lv' ∈ pre → skipped lv') ∧ ¬ skipped lv ∧ key' = lv ∧
       q_out st' = level_cands s (level_score aq lv) lv).
Proof.
  intros Hk Hb. simpl. revert st. induction levels as [|lv levels IH]; intros st Hst; cbn [walk_levels].
  { exists st, key. split; [done|]. left. split; [done|]. by intros lv ?%elem_of_nil. }
  cbv zeta. fold (level_score aq lv) (suppressed thr aq lv).
  assert (∀ st1, q_out st1 = [] → suppressed thr aq lv = true ∨ level_cands s (level_score aq lv) lv = [] →
    ∃ st' key', walk_levels None every topK thr None s aq levels key st1 = (Walked st', key') ∧
    ((q_out st' = [] ∧ ∀ lv0, lv0 ∈ lv :: levels → suppressed thr aq lv0 = true ∨ level_cands s (level_score aq lv0) lv0 = []) ∨
     ∃ pre lv0 post, lv :: levels = pre ++ lv0 :: post ∧
       (∀ lv', lv' ∈ pre → suppressed thr aq lv' = true ∨ level_cands s (level_score aq lv') lv' = []) ∧
       ¬ (suppressed thr aq lv0 = true ∨ level_cands s (level_score aq lv0) lv0 = []) ∧ key' = lv0 ∧
       q_out st' = level_cands s (level_score aq lv0) lv0)) as Hskip.
  { intros st1 H1 Hs. destruct (IH st1 H1) as (st' & key' & Hw & H). exists st', key'. split; [done|].
    destruct H as [[Ho Hall]|(pre & lv0 & post & -> & Hpre & H)].
    - left. split; [done|]. intros lv0 [->|Hin]%elem_of_cons; auto.
    - right. exists (lv :: pre), lv0, post. split_and!; [done| |apply H..].
      intros lv' [->|Hin]%elem_of_cons; auto. }
  destruct (suppressed thr aq lv) eqn:Hsup; [by apply Hskip; [|left]|].
  destruct (walk_segment_all every topK s InBase (level_score aq lv) lv st Hk Hb) as (st1 & -> & H1).
  destruct (walk_segment_all every topK s InOverlay (level_score aq lv) lv st1 Hk Hb) as (st2 & -> & H2).
  rewrite H1, Hst, app_nil_l in H2. fold (level_cands s (level_score aq lv) lv) in H2.
  destruct (Nat.ltb_spec 0 (length (q_out st2))) as [Hlt|Hle].
  - exists st2, lv. split; [done|]. right. exists [], lv, levels. split_and!; [done|by intros lv' ?%elem_of_nil| |done|done].
    rewrite <-H2. intros [?|Hnil]; [congruence|]. rewrite Hnil in Hlt. simpl in Hlt. lia.
  - apply Hskip; [|right; rewrite <-H2]; destruct (q_out st2); simpl in Hle; (done || lia).
Qed.

(** ** Which lists are built *)

(** The operations that build their indexes themselves, rather than install one. *)
Definition builds (o : list_mutation) : bool :=
  match o with
  | MReplace _ | MUpsert _ | MDelete _ | MCompact | MFold _ | MJournal _ _ | MSetBaseID _ => true
  | _ => false
  end.

Definition self_built (l : GoList) (s : segment) : Prop := buildSegment (mode_of l) (l_an l) (entries s) = Ok s.
Definition base_built (l : GoList) : Prop := from_option (self_built l) True (base (snap l)).

Lemma build_self l es s : buildSegment (mode_of l) (l_an l) es = Ok s → self_built l s.
Proof. intros H. unfold self_built. pose proof H as (-> & _)%build_segment_tables. done. Qed.

Lemma prepared_base f (k : overlayBuild → GoList → GoList) l :
  (∀ b l, base (snap (k b l)) = base (snap l) ∧ l_cfg (k b l) = l_cfg l ∧ l_an (k b l) = l_an l) → base_built l →
  base_built ((b ← prepare f; modify (k b)) l : result list_error () * GoList).2.
Proof.
  intros Hk Hb. unfold mbind, list_op_bind, prepare, modify. destruct (f l) as [b|e]; simpl; [|done].
  destruct (Hk b l) as (H1 & H2 & H3). unfold base_built, self_built, mode_of in *. by rewrite H1, H2, H3.
Qed.

Lemma run_op_built o l : builds o = true → base_built l → base_built (run_op o l).2.
Proof.
  intros Ho Hb. assert (base_built (count_refusal l)) as Hc by done.
  destruct o as [es| | | | | |es|id| |id|ops jpos|id]; try discriminate Ho; cbn [run_op].
  - unfold Replace. run_list_op. destruct (readOnly l); [done|]. unfold prepareBase.
    destruct (buildSegment _ _ _) as [s|e] eqn:Hs; simpl; [|done]. by eapply build_self in Hs.
  - unfold Upsert. unfold mbind at 1, list_op_bind at 1. rewrite refuse_eq. destruct (readOnly l); [done|].
    by apply prepared_base.
  - unfold Delete. unfold mbind at 1, list_op_bind at 1. rewrite refuse_eq. destruct (readOnly l); [done|].
    by apply prepared_base.
  - unfold Compact. run_list_op. destruct (readOnly l); [done|].
    destruct (buildSegment _ _ _) as [s|e] eqn:Hs; simpl; [|done]. by eapply build_self in Hs.
  - unfold PrepareCompact, CommitCompact, ignoreReadOnly. run_list_op. destruct (readOnly l) eqn:Hr; [done|].
    destruct (buildSegment _ _ _) as [s|e] eqn:Hs; simpl; [|done]. rewrite Hr. simpl. by eapply build_self in Hs.
  - unfold applyJournalLocked. destruct (length ops =? 0); [done|]. by apply prepared_base.
  - unfold SetBaseID, ignoreReadOnly. run_list_op. by destruct (readOnly l).
Qed.

Lemma run_ops_built os l : forallb builds os = true → base_built l → base_built (run_ops os l).2.
Proof.
  revert l. induction os as [|o os IH]; intros l; cbn [run_ops forallb]; [done|].
  intros [Ho Hos]%andb_true_iff Hb. pose proof (run_op_built o l Ho Hb) as H1. destruct (run_op o l) as [r l1].
  pose proof (IH l1 Hos H1) as H2. by destruct (run_ops os l1) as [rs l2].
Qed.

Lemma new_list_built name c l : NewList name c = Ok l → base_built l.
Proof. unfold NewList. by intros ([c' an] & _ & [= <-])%bind_ok. Qed.

(** The sizes a list must stay under for its uint32 ordinals. *)
Definition small (l : GoList) : Prop :=
  ∀ i seg, seg_of (snap l) i = Some seg → (N.of_nat (length (entries seg)) < max_u32)%N.

Lemma self_built_spec l s :
  match_ok (mode_of l) → self_built l s → (N.of_nat (length (entries s)) < max_u32)%N →
  built (mode_of l) (l_an l) (entries s) s.
Proof.
  intros Hm Hs Hl. pose proof (build_segment (mode_of l) (l_an l) (entries s) Hm) as H.
  rewrite Hs in H. apply H. unfold max_u32 in Hl. lia.
Qed.

Lemma base_built_segs l : match_ok (mode_of l) → inv l → base_built l → small l → seg_built l.
Proof.
  intros Hm (_ & _ & Hov) Hb Hs i seg Hseg. split; [|by eapply Hs]. apply self_built_spec; [done| |by eapply Hs].
  destruct i; simpl in Hseg; [unfold base_built in Hb; by rewrite Hseg in Hb|].
  rewrite Hseg in Hov. destruct Hov as [_ Hov]. by eapply build_self.
Qed.

(** ** Live entries by segment *)

Lemma overlay_entries l e :
  inv l → (∃ v, overlay (snap l) = Some v ∧ e ∈ entries v) ↔ overlaySrc l !! ID e = Some e.
Proof.
  intros (_ & (Hk & _ & _) & Hov). destruct (sorted_entries_spec (overlaySrc l) Hk) as (_ & Hin & _).
  destruct (overlay (snap l)) as [v|].
  - destruct Hov as [_ (Hev & _)%build_segment_tables]. rewrite <-Hin, <-Hev. split; [by intros (? & [= <-] & ?)|].
    intros H. by eexists.
  - rewrite Hov, lookup_empty. by split; [intros (? & ? & _)|].
Qed.

Lemma seg_nodup l i seg : inv l → seg_of (snap l) i = Some seg → NoDup (ID <$> entries seg).
Proof.
  intros (Hb & (Hk & _ & _) & Hov). destruct i; simpl; intros Hseg; rewrite Hseg in *; [apply Hb|].
  destruct Hov as [_ (-> & _)%build_segment_tables]. by destruct (sorted_entries_spec (overlaySrc l) Hk).
Qed.

Definition live_in (l : GoList) (i : seg_id) (e : Entry) : Prop :=
  ∃ seg, seg_of (snap l) i = Some seg ∧ e ∈ entries seg ∧ masked (mask_of (snap l) i) (ID e) = false.

Lemma live_in_overlay l e : inv l → live_in l InOverlay e ↔ overlaySrc l !! ID e = Some e.
Proof. intros Hi. rewrite <-overlay_entries by done. unfold live_in. simpl. naive_solver. Qed.

Lemma live_in_base l e : inv l → live_in l InBase e → overlaySrc l !! ID e = None.
Proof.
  intros (Hb & (_ & _ & Hs) & _) (seg & Hseg & He & Hm). simpl in *. apply bool_decide_eq_false in Hm.
  apply eq_None_not_Some. intros Hsome. apply Hm, (Hs _ Hsome). rewrite Hseg in *.
  apply (in_base_spec (Some seg)); [done|]. simpl. by apply list_elem_of_fmap_2.
Qed.

Lemma live_entry l id e : inv l → live_map l !! id = Some e ↔ ID e = id ∧ ∃ i, live_in l i e.
Proof.
  intros Hi. pose proof Hi as (Hb & (Hk & _ & _) & _). unfold live_map, live_of. simpl. rewrite lookup_union_Some_raw.
  rewrite map_lookup_filter_Some. simpl. split.
  - intros [Hov|(Hno & Hbase & Ht)].
    + pose proof (Hk _ _ Hov) as <-. split; [done|]. exists InOverlay. by apply live_in_overlay.
    + pose proof (entry_map_keyed _ _ _ Hbase) as <-.
      destruct (base (snap l)) as [seg|] eqn:Hseg; simpl in *; [|by rewrite entry_map_nodup in Hbase; [apply elem_of_nil in Hbase|constructor]].
      apply entry_map_nodup in Hbase; [|apply Hb]. split; [done|]. exists InBase, seg. simpl.
      split_and!; [done|done|by apply bool_decide_eq_false].
  - intros [<- [[] Hlive]]; [|left; by apply live_in_overlay].
    right. split; [by apply live_in_base|]. destruct Hlive as (seg & Hseg & He & Hm). simpl in *. rewrite Hseg in *.
    split; [by apply entry_map_nodup; [apply Hb|]|by apply bool_decide_eq_false in Hm].
Qed.

(** ** The candidates of a level are the live holders *)

(** A live entry with a key that analyzes to [lv]. *)
Definition holds (l : GoList) (lv : bytes) (e : Entry) : Prop := lv ∈ Normalize (l_an l) <$> Keys e.
Definition live_holder (l : GoList) (lv id : bytes) : Prop := ∃ e, live_map l !! id = Some e ∧ holds l lv e.

Lemma seg_cands_spec l score lv i :
  inv l → seg_built l → Mode (mode_of l) = m_exact → lv ≠ [] →
  (∀ id, id ∈ EntryID <$> (seg_cands (snap l) score lv i).*1 ↔ ∃ e, ID e = id ∧ live_in l i e ∧ holds l lv e) ∧
  NoDup (EntryID <$> (seg_cands (snap l) score lv i).*1) ∧ Forall (λ c, c_Score c.1 = score) (seg_cands (snap l) score lv i).
Proof.
  intros Hi Hb Hmode Hlv. unfold seg_cands, live_in. destruct (seg_of (snap l) i) as [seg|] eqn:Hseg.
  2:{ split_and!; [|constructor..]. intros id. split; [by intros ?%elem_of_nil|]. by intros (e & _ & (? & ? & _) & _). }
  destruct (Hb i seg Hseg) as [Hbuilt Hlen]. pose proof (seg_nodup l i seg Hi Hseg) as Hnd.
  assert (∃ x, ex seg = Some x) as [x Hx].
  { destruct Hbuilt as (_ & _ & _ & _ & _ & _ & _ & _ & Hex). revert Hex. unfold has_exact.
    rewrite bool_decide_eq_true_2 by done. intros (x & Hx & _). by exists x. }
  rewrite Hx. destruct (built_exact _ _ _ _ x lv Hbuilt Hx) as (run & -> & Hsort & Hrun); [unfold max_u32 in Hlen; lia|].
  simpl. assert (NoDup run) as Hrnd.
  { clear -Hsort. induction Hsort as [|o run Hs IH Ho]; constructor; [|done]. intros Hin.
    rewrite Forall_forall in Ho. specialize (Ho o Hin). lia. }
  assert (∀ c, c ∈ omap (hit_cand (snap l) score i seg) run ↔ ∃ o e, o ∈ run ∧ entries seg !! N.to_nat o = Some e ∧
    masked (mask_of (snap l) i) (ID e) = false ∧ c = (mkCandidate (ID e) score [] (Payload e), mkMeta i o)) as Hc.
  { intros c. rewrite list_elem_of_omap. unfold hit_cand. split.
    - intros (o & Ho & Hc). destruct (entries seg !! N.to_nat o) as [e|] eqn:He; simpl in Hc; [|done].
      destruct (masked _ _) eqn:Hm; [done|]. injection Hc as <-. by exists o, e.
    - intros (o & e & Ho & He & Hm & ->). exists o. by rewrite He; simpl; rewrite Hm. }
  split_and!.
  - intros id. rewrite <-list_fmap_compose, list_elem_of_fmap. setoid_rewrite Hc. split.
    + intros (c & -> & o & e & (_ & e' & He' & Hk)%Hrun & He & Hm & ->). assert (e' = e) as -> by congruence. exists e. split; [done|].
      split; [|done]. exists seg. split_and!; [done|by eapply list_elem_of_lookup_2|done].
    + intros (e & <- & (? & [= <-] & He & Hm) & Hk). apply list_elem_of_lookup in He as [k He].
      eexists (mkCandidate (ID e) score [] (Payload e), mkMeta i (N.of_nat k)). split; [done|].
      assert (entries seg !! N.to_nat (N.of_nat k) = Some e) as He' by by rewrite Nat2N.id.
      exists (N.of_nat k), e. split_and!; [|done..]. apply Hrun. split; [done|]. by exists e.
  - clear Hc Hsort Hrun. induction run as [|o run IH]; simpl; [constructor|].
    apply NoDup_cons in Hrnd as [Ho Hrnd]. unfold hit_cand at 1.
    destruct (entries seg !! N.to_nat o) as [e|] eqn:He; simpl; [|by apply IH].
    destruct (masked _ _) eqn:Hm; [by apply IH|]. csimpl. constructor; [|by apply IH].
    rewrite <-list_fmap_compose. intros (c & Heq & (o' & Ho' & Hc)%list_elem_of_omap)%list_elem_of_fmap.
    unfold hit_cand in Hc. destruct (entries seg !! N.to_nat o') as [e'|] eqn:He'; simpl in Hc; [|done].
    destruct (masked _ (ID e')); [done|]. injection Hc as <-. simpl in Heq.
    assert (N.to_nat o = N.to_nat o') as Hoo.
    { eapply NoDup_lookup; [exact Hnd| |]; rewrite list_lookup_fmap, ?He, ?He'; simpl; [done|by rewrite Heq]. }
    apply N2Nat.inj in Hoo. by subst.
  - apply Forall_forall. intros c. rewrite Hc. by intros (o & e & _ & _ & _ & ->).
Qed.

Lemma level_cands_spec l score lv :
  inv l → seg_built l → Mode (mode_of l) = m_exact → lv ≠ [] →
  (∀ id, id ∈ EntryID <$> (level_cands (snap l) score lv).*1 ↔ live_holder l lv id) ∧
  NoDup (EntryID <$> (level_cands (snap l) score lv).*1) ∧ Forall (λ c, c_Score c.1 = score) (level_cands (snap l) score lv).
Proof.
  intros Hi Hb Hmode Hlv. unfold level_cands.
  destruct (seg_cands_spec l score lv InBase Hi Hb Hmode Hlv) as (H1 & N1 & S1).
  destruct (seg_cands_spec l score lv InOverlay Hi Hb Hmode Hlv) as (H2 & N2 & S2).
  rewrite !fmap_app, Forall_app, NoDup_app. split_and!; [|done| |done|done|done].
  - intros id. rewrite elem_of_app, H1, H2. unfold live_holder. setoid_rewrite live_entry; [|done]. split.
    + intros [(e & Hid & Hl & Hh)|(e & Hid & Hl & Hh)]; exists e; split; [|done| |done]; split; [done| |done|]; by eexists.
    + intros (e & (Hid & [] & Hl) & Hh); [left|right]; by exists e.
  - intros id (e & <- & Hl & _)%H1 (e' & Heq & Hl' & _)%H2. apply live_in_base in Hl; [|done].
    apply live_in_overlay in Hl'; [|done]. rewrite Heq in Hl'. congruence.
Qed.

Lemma level_cands_nil l score lv :
  inv l → seg_built l → Mode (mode_of l) = m_exact → lv ≠ [] →
  level_cands (snap l) score lv = [] ↔ ∀ id, ¬ live_holder l lv id.
Proof.
  intros Hi Hb Hm Hlv. destruct (level_cands_spec l score lv Hi Hb Hm Hlv) as (H & _ & _). split.
  - intros Hnil id. rewrite <-H, Hnil. by intros ?%elem_of_nil.
  - intros Hno. destruct (level_cands _ _ _) as [|c cs]; [done|]. exfalso. apply (Hno (EntryID c.1)), H. by left.
Qed.

Lemma exactLevels_ne aq fb lv : aq ≠ [] → lv ∈ exactLevels aq fb → lv ≠ [].
Proof.
  intros Haq. unfold exactLevels. destruct fb; simpl; [|by intros ->%list_elem_of_singleton].
  intros [->|[Hd _]%parent_levels_dot]%elem_of_cons; [done|]. by intros ->; apply elem_of_nil in Hd.
Qed.

(** Without a bound, ranking and attribution keep every candidate. *)
Lemma finish_unlimited topK cs (cs' : list cand) :
  Forall2 (λ c c', EntryID c'.1 = EntryID c.1 ∧ c_Score c'.1 = c_Score c.1) (cut topK (sortCandidates cs)) cs' →
  (topK <= 0)%Z →
  EntryID <$> cs'.*1 ≡ₚ EntryID <$> cs.*1 ∧ ∀ score, Forall (λ c, c_Score c.1 = score) cs → Forall (λ c, c_Score c = score) cs'.*1.
Proof.
  intros H2 Hk. unfold cut in H2. destruct (Z.ltb_spec 0 topK); [lia|]. simpl in H2. split.
  - rewrite <-!list_fmap_compose. transitivity (EntryID ∘ fst <$> sortCandidates cs).
    + apply reflexive_eq. clear Hk. induction H2 as [|c c' k k' [Hid _] _ IH]; [done|]. csimpl. by rewrite IH, Hid.
    + unfold sortCandidates. by rewrite sort_stable_perm.
  - intros score Hs. apply Forall_fmap. assert (Forall (λ c, c_Score c.1 = score) (sortCandidates cs)) as Hs'
      by (unfold sortCandidates; by rewrite sort_stable_perm).
    clear Hs. induction H2 as [|c c' k k' [_ Hid] _ IH]; [constructor|]. apply Forall_cons in Hs' as [Hc Hs'].
    constructor; [simpl; congruence|by apply IH].
Qed.

(** C1: an exact query misses nothing, on a list whose segments hold fewer than 2^32-1
    entries and the indexes the code builds from them, and whose gram sizes are not
    negative: a list with an index loaded from a cache file or supplied prebuilt is
    not covered, and an accepted exact-mode configuration with a negative gram size
    panics (see the findings).  In exact mode, uncancelled, without a filter and
    without a top-K bound, the answer is decided by the first level of the probe chain
    that the threshold does not suppress and that some live entry holds: the query
    reports exactly the live entries with a key that analyzes to that level, each
    once, all at the level's score (100 for the query itself, 90 for a parent); it
    reports nothing only when every unsuppressed level has no live holder, or the
    query analyzes to nothing. *)
Theorem query_exact_complete l q o :
  inv l → seg_built l → sizes_ok (mode_of l) = true → Mode (mode_of l) = m_exact → (effectiveTopK l o <= 0)%Z →
  let aq := Normalize (l_an l) q in
  let thr := effective_threshold l o in
  let levels := if bool_decide (aq = []) then [] else exactLevels aq (bool_decide (Fallback (mode_of l) = parent_domain)) in
  let skipped lv := suppressed thr aq lv = true ∨ ∀ id, ¬ live_holder l lv id in
  ∃ cs, (querySnap None l (snap l) q o None).1 = Ok cs ∧
    ((cs = [] ∧ ∀ lv, lv ∈ levels → skipped lv) ∨
     ∃ pre lv post, levels = pre ++ lv :: post ∧ (∀ lv', lv' ∈ pre → skipped lv') ∧ suppressed thr aq lv = false ∧
       cs ≠ [] ∧ (∀ id, id ∈ EntryID <$> cs ↔ live_holder l lv id) ∧ NoDup (EntryID <$> cs) ∧
       Forall (λ c, c_Score c = level_score aq lv) cs).
Proof.
  intros Hi Hb Hsz Hm Hk. simpl. unfold querySnap. change (ctx_poll None 0 0) with false. cbv iota.
  case_bool_decide as Haq; [exists []; split; [done|]; left; split; [done|]; by intros lv ?%elem_of_nil|].
  set (aq := Normalize (l_an l) q) in *. set (thr := effective_threshold l o).
  assert (∀ lv, lv ∈ exactLevels aq (bool_decide (Fallback (mode_of l) = parent_domain)) →
    level_cands (snap l) (level_score aq lv) lv = [] ↔ ∀ id, ¬ live_holder l lv id) as Hnil.
  { intros lv Hlv. apply level_cands_nil; [done..|]. by eapply exactLevels_ne. }
  unfold collect. rewrite bool_decide_eq_true_2 by done.
  destruct (walk_levels_first exactCancelCheckEvery (effectiveTopK l o) thr (snap l) aq
    (exactLevels aq (bool_decide (Fallback (mode_of l) = parent_domain))) aq q_start Hk (seg_built_bounds l Hb) eq_refl)
    as (st & key & Hw & Hst). rewrite Hw.
  pose proof (walk_levels_ok None exactCancelCheckEvery (effectiveTopK l o) thr None (snap l) aq
    (exactLevels aq (bool_decide (Fallback (mode_of l) = parent_domain))) aq q_start (seg_built_bounds l Hb)) as Hok.
  rewrite Hw in Hok. specialize (Hok ltac:(constructor)). simpl in Hok.
  apply walk_levels_err in Hw. rewrite Hw. change (ctx_poll None 3 0) with false. cbv iota.
  destruct Hst as [[Ho Hall]|(pre & lv & post & Hlv & Hpre & Hno & -> & Ho)]; rewrite Ho.
  { exists []. split; [done|]. left. split; [done|]. intros lv Hlv.
    destruct (Hall lv Hlv); [by left|right; by apply Hnil]. }
  assert (lv ∈ exactLevels aq (bool_decide (Fallback (mode_of l) = parent_domain))) as Hin by (rewrite Hlv; set_solver).
  destruct (level_cands_spec l (level_score aq lv) lv Hi Hb Hm) as (Hid & Hnd & Hsc); [by eapply exactLevels_ne|].
  rewrite bool_decide_eq_false_2 by tauto.
  destruct (finish_ok l None aq lv (effectiveTopK l o) (level_cands (snap l) (level_score aq lv) lv) Hi Hsz)
    as (cs' & -> & _ & _ & _ & H2).
  { by rewrite <-Ho. }
  exists cs'.*1. split; [done|]. right. exists pre, lv, post.
  destruct (finish_unlimited _ _ _ H2 Hk) as [Hp Hs'].
  split_and!; [done| | | | | |].
  - intros lv' Hlv'. destruct (Hpre lv' Hlv') as [?|?]; [by left|right]. apply Hnil; [rewrite Hlv; set_solver|done].
  - destruct (suppressed thr aq lv); [destruct Hno; by left|done].
  - intros Hcs. apply Hno. right. rewrite Hcs in Hp. simpl in Hp. apply Permutation_nil in Hp.
    by destruct (level_cands _ _ _).
  - intros id. by rewrite Hp.
  - by rewrite Hp.
  - by apply Hs'.
Qed.
End query_exact.
