(* ===== verification/AnyOfSpec.v ===== *)
(** The any-of lookup returns the [topK] smallest entry IDs of the live entries
    that hold one of the terms and pass the filter, whatever the order in which
    terms and segments are walked. *)

From S2P Require Import Prelude.
From S2P Require Import Runtime.
From S2P Require Import Analyzer.
From S2P Require Import Heap.
From S2P Require Import Score.
From S2P Require Import Bitmap.
From S2P Require Import Filter.
From S2P Require Import Types.
From S2P Require Import ListConfig.
From S2P Require Import Segment.
From S2P Require Import ListModel.
From S2P Require Import ListRefine.
From S2P Require Import Query.
From S2P Require Import QuerySpec.
From S2P Require Import QueryExact.
From S2P Require Import AnyOf.
From S2P Require Exact.

Section any_of_spec.
Context {RT : GoRuntime} {TL : TextLib} {BL : BitmapLib} {FO : FloatOps} {DL : DigestLib}.

Lemma distinct_terms_spec an seen terms t :
  t ∈ distinct_terms an seen terms ↔ t ≠ [] ∧ t ∉ seen ∧ t ∈ Normalize an <$> terms.
Proof.
  revert seen. induction terms as [|x terms IH]; intros seen; cbn [distinct_terms]; csimpl.
  { rewrite !elem_of_nil. tauto. }
  rewrite elem_of_cons. case_bool_decide as H1; [rewrite IH, H1; naive_solver|].
  case_bool_decide as H2; [rewrite IH; naive_solver|].
  rewrite elem_of_cons, IH, not_elem_of_union, not_elem_of_singleton.
  destruct (decide (t = Normalize an x)); naive_solver.
Qed.

(** ** The candidates *)

(** The candidate of an entry that is unmasked and passes the filter. *)
Definition passes (cf : option compiledFilter) (e : Entry) : bool :=
  match cf with None => true | Some f => match eval f (Payload e) with Ok b => b | Err _ => false end end.
Definition any_cand (i : seg_id) (o : N) (e : Entry) : cand :=
  (mkCandidate (ID e) (f_of_N 100) [] (Payload e), mkMeta i o).
Definition eligible (s : snapshot) (cf : option compiledFilter) (x : cand) : Prop :=
  ∃ i o seg e, x = any_cand i o e ∧ seg_of s i = Some seg ∧ entries seg !! N.to_nat o = Some e ∧
    masked (mask_of s i) (ID e) = false ∧ passes cf e = true.

Definition item_key (x : cand) : seg_ord := key_of x.2.

(** The eligible entries of the snapshot have distinct IDs. *)
Definition ids_distinct (s : snapshot) (cf : option compiledFilter) : Prop :=
  ∀ x y, eligible s cf x → eligible s cf y → EntryID x.1 = EntryID y.1 → x = y.

Lemma eligible_key s cf x y : eligible s cf x → eligible s cf y → item_key x = item_key y → x = y.
Proof.
  intros (i & o & seg & e & -> & Hs & He & _) (i' & o' & seg' & e' & -> & Hs' & He' & _) [= -> ->]. congruence.
Qed.

Lemma larger_weak : strict_weak (larger_id : cand → cand → bool).
Proof.
  destruct (less_by_weak (A:=Candidate) EntryID) as (H1 & H2 & H3). unfold larger_id. split_and!.
  - intros a. apply H1.
  - intros a b c Hab Hbc. by eapply H2.
  - intros a b c Hab Hbc. by eapply (H3 c.1 b.1 a.1).
Qed.

(** ** The selection's invariant *)

(** Of the eligible candidates whose ordinals were reached, the selection holds
    the best, as a heap, with exactly their keys. *)
Definition sel_ok (s : snapshot) (cf : option compiledFilter) (topK : Z) (P : gset seg_ord) (a : anyOfSelection) : Prop :=
  sel_k a = topK ∧ sel_in a = list_to_set (item_key <$> sel_items a) ∧ heap_from larger_id 0 (sel_items a) ∧
  ∃ hs, NoDup (item_key <$> hs) ∧ (∀ x, x ∈ hs ↔ item_key x ∈ P ∧ eligible s cf x) ∧ best_of larger_id topK hs (sel_items a).

Lemma any_cand_unique s cf i o seg e x :
  seg_of s i = Some seg → entries seg !! N.to_nat o = Some e → item_key x = (i, o) → eligible s cf x → x = any_cand i o e.
Proof. intros Hs He Hx (i' & o' & seg' & e' & -> & Hs' & He' & _). injection Hx as -> ->. congruence. Qed.

(** Reaching an ordinal again, or one whose entry is not eligible, changes
    nothing. *)
Lemma sel_ok_skip (s : snapshot) (cf : option compiledFilter) (topK : Z) (P : gset seg_ord) (a : anyOfSelection) (i : seg_id) (o : N) (seg : segment) (e : Entry) :
  seg_of s i = Some seg → entries seg !! N.to_nat o = Some e →
  (i, o) ∈ P ∨ masked (mask_of s i) (ID e) = true ∨ passes cf e = false →
  sel_ok s cf topK P a → sel_ok s cf topK ({[(i, o)]} ∪ P) a.
Proof.
  intros Hs He Hno (Hk & Hin & Hh & hs & Hnd & Hhs & Hb). split_and!; [done..|]. exists hs. split_and!; [done| |done].
  intros x. rewrite Hhs, elem_of_union, elem_of_singleton. split; [intros [? ?]; auto|]. intros [[Hx|?] Hel]; [|done].
  split; [|done]. rewrite Hx. destruct Hno as [?|Hno]; [done|]. exfalso.
  destruct Hel as (i' & o' & seg' & e' & -> & Hs' & He' & Hm & Hp). injection Hx as -> ->.
  assert (e' = e) as -> by congruence. destruct Hno; congruence.
Qed.

(** Adding an eligible candidate that was not reached. *)
Lemma reach_new (s : snapshot) (cf : option compiledFilter) (P : gset seg_ord) (hs : list cand) (i : seg_id) (o : N) (seg : segment) (e : Entry) :
  seg_of s i = Some seg → entries seg !! N.to_nat o = Some e → (i, o) ∉ P → eligible s cf (any_cand i o e) →
  NoDup (item_key <$> hs) → (∀ x, x ∈ hs ↔ item_key x ∈ P ∧ eligible s cf x) →
  NoDup (item_key <$> hs ++ [any_cand i o e]) ∧
  ∀ x, x ∈ hs ++ [any_cand i o e] ↔ item_key x ∈ {[(i, o)]} ∪ P ∧ eligible s cf x.
Proof.
  intros Hs He HP Hel Hnd Hhs. split.
  - rewrite fmap_app, NoDup_app. split_and!; [done| |apply NoDup_singleton].
    intros k Hk ->%list_elem_of_singleton. apply list_elem_of_fmap in Hk as (y & Hy & [HyP _]%Hhs).
    apply HP. change (i, o) with (item_key (any_cand i o e)). by rewrite Hy.
  - intros x. rewrite elem_of_app, list_elem_of_singleton, Hhs, elem_of_union, elem_of_singleton. split.
    + intros [[? ?]| ->]; [auto|]. split; [by left|done].
    + intros [[Hx|?] Hx']; [|by left]. right. by eapply any_cand_unique.
Qed.

Lemma sel_ok_refuse (s : snapshot) (cf : option compiledFilter) (topK : Z) (P : gset seg_ord) (a : anyOfSelection) (i : seg_id) (o : N) (seg : segment) (e : Entry) :
  seg_of s i = Some seg → entries seg !! N.to_nat o = Some e →
  sel_ok s cf topK P a → admits a (i, o) (ID e) = false → sel_ok s cf topK ({[(i, o)]} ∪ P) a.
Proof.
  intros Hseg He Hok Hadm. destruct (decide ((i, o) ∈ P)) as [HP|HP]; [by eapply sel_ok_skip; eauto|].
  destruct (masked (mask_of s i) (ID e)) eqn:Hm; [by eapply sel_ok_skip; eauto|].
  destruct (passes cf e) eqn:Hp; [|by eapply sel_ok_skip; eauto].
  assert (eligible s cf (any_cand i o e)) as Hel by by exists i, o, seg, e.
  destruct Hok as (Hk & Hin & Hh & hs & Hnd & Hhs & Hb). unfold admits in Hadm. case_bool_decide as Hsel.
  { exfalso. apply HP. rewrite Hin, elem_of_list_to_set in Hsel. apply list_elem_of_fmap in Hsel as (y & -> & Hys).
    assert (y ∈ hs) as [HyP _]%Hhs by (destruct Hb as (rest & Hpm & _); rewrite Hpm; set_solver). exact HyP. }
  apply orb_false_iff in Hadm as [[Hpos%Z.leb_gt Hfull%Z.ltb_ge]%orb_false_iff Hroot].
  destruct (reach_new s cf P hs i o seg e Hseg He HP Hel Hnd Hhs) as [Hnd' Hhs'].
  split_and!; [done..|]. exists (hs ++ [any_cand i o e]). split_and!; [done|done|].
  rewrite Hk in *. apply best_of_skip; [done|done|lia|]. intros y Hy.
  destruct (sel_items a) as [|root l] eqn:Hitems; [simpl in Hfull; lia|]. apply bool_decide_eq_false in Hroot.
  assert (larger_id y root = false) as Hyr.
  { apply elem_of_cons in Hy as [->|Hy]; [apply larger_weak|by eapply worse_at_root; [apply larger_weak|..]]. }
  destruct larger_weak as (_ & _ & Hntr). apply (Hntr (any_cand i o e) root y); [|done].
  unfold larger_id, less_by, any_cand. simpl. by apply bool_decide_eq_false.
Qed.

Lemma sel_ok_push (s : snapshot) (cf : option compiledFilter) (topK : Z) (P : gset seg_ord) (a : anyOfSelection) (i : seg_id) (o : N) (seg : segment) (e : Entry) :
  ids_distinct s cf → seg_of s i = Some seg → entries seg !! N.to_nat o = Some e →
  masked (mask_of s i) (ID e) = false → passes cf e = true →
  sel_ok s cf topK P a → admits a (i, o) (ID e) = true → sel_ok s cf topK ({[(i, o)]} ∪ P) (push a (any_cand i o e)).
Proof.
  intros Hd Hseg He Hm Hp (Hk & Hin & Hh & hs & Hnd & Hhs & Hb) Hadm.
  assert (eligible s cf (any_cand i o e)) as Hel by by exists i, o, seg, e.
  set (x := any_cand i o e) in *. unfold admits in Hadm. case_bool_decide as Hsel; [done|].
  assert ((i, o) ∉ P) as HP.
  { intros HP. assert (x ∈ hs) as Hx by by apply Hhs. destruct Hb as (rest & Hpm & Hbr & Hfull & _).
    rewrite Hpm in Hx. apply elem_of_app in Hx as [Hx|Hx].
    { apply Hsel. rewrite Hin, elem_of_list_to_set. change (i, o) with (item_key x). by apply list_elem_of_fmap_2. }
    assert (rest ≠ []) as Hne by (intros ->; by apply elem_of_nil in Hx). rewrite <-Hk in Hfull.
    apply orb_true_iff in Hadm as [[Hz%Z.leb_le|Hz%Z.ltb_lt]%orb_true_iff|Hroot]; [apply Hne, Hfull; auto..|].
    destruct (sel_items a) as [|root l] eqn:Hitems; [done|]. apply bool_decide_eq_true in Hroot.
    specialize (Hbr root x ltac:(by left) Hx). unfold larger_id in Hbr. apply less_by_false in Hbr.
    by apply bytes_nlt_le in Hbr. }
  destruct (reach_new s cf P hs i o seg e Hseg He HP Hel Hnd Hhs) as [Hnd' Hhs']. fold x in Hnd', Hhs'.
  destruct (push_bounded_ok larger_id topK hs (sel_items a) x larger_weak Hb Hh) as (Hb' & Hh' & Hperm).
  unfold push. rewrite Hk. destruct (push_bounded larger_id topK (sel_items a) x) as [items ev]. cbn [fst snd] in *.
  split_and!; [done| |done|]; cbn [sel_items sel_in]; [|by exists (hs ++ [x])].
  assert ({[key_of x.2]} ∪ sel_in a = list_to_set (item_key <$> items ++ option_list ev)) as Hset.
  { rewrite <-Hperm, fmap_app, list_to_set_app_L, Hin. simpl. unfold item_key. set_solver. }
  rewrite Hset. destruct ev as [y|]; simpl; [|by rewrite app_nil_r].
  rewrite fmap_app, list_to_set_app_L. simpl. fold (item_key y).
  assert (item_key y ∉ item_key <$> items) as Hy.
  { assert (NoDup (item_key <$> items ++ [y])) as Hkeys.
    { change [y] with (option_list (Some y)). rewrite <-Hperm, fmap_app, NoDup_app. destruct Hb as (rest & Hpm & _).
      rewrite Hpm, fmap_app in Hnd. apply NoDup_app in Hnd as (Hni & _ & _). split_and!; [done| |apply NoDup_singleton].
      intros k Hk' ->%list_elem_of_singleton. apply Hsel. by rewrite Hin, elem_of_list_to_set. }
    rewrite fmap_app, NoDup_app in Hkeys. destruct Hkeys as (_ & Hdis & _). intros Hy. apply (Hdis _ Hy). by left. }
  apply set_eq. intros k. rewrite elem_of_difference, elem_of_union, !elem_of_list_to_set, elem_of_union, !elem_of_singleton, elem_of_empty.
  split; [intros [[?|[?|?]] ?]; done|]. intros Hkin. split; [by left|]. intros ->. done.
Qed.

(** ** The walk *)

(** No payload the filter can meet is malformed. *)
Definition evaluable (s : snapshot) (cf : option compiledFilter) : Prop :=
  ∀ f i seg e, cf = Some f → seg_of s i = Some seg → e ∈ entries seg → masked (mask_of s i) (ID e) = false →
    is_ok (eval f (Payload e)) = true.

(** What the walk maintains: the selection, and the absence of errors. *)
Definition walk_inv (s : snapshot) (cf : option compiledFilter) (topK : Z) (P : gset seg_ord) (st : astate) : Prop :=
  sel_ok s cf topK P (a_sel st) ∧ (evaluable s cf → q_err (a_q st) = None).

Lemma anyof_one_ok (s : snapshot) (cf : option compiledFilter) (topK : Z) (P : gset seg_ord) i seg o e st :
  ids_distinct s cf → seg_of s i = Some seg → entries seg !! N.to_nat o = Some e →
  walk_inv s cf topK P st → walk_inv s cf topK ({[(i, o)]} ∪ P) (anyof_one cf i (mask_of s i) o e st).
Proof.
  intros Hd Hs He [Hsel Herr]. unfold anyof_one. destruct (admits (a_sel st) (i, o) (ID e)) eqn:Hadm; simpl.
  2:{ split; [by eapply sel_ok_refuse|done]. }
  destruct (masked (mask_of s i) (ID e)) eqn:Hm; [split; [by eapply sel_ok_skip; eauto|done]|].
  destruct cf as [f|]; [|split; [by apply (sel_ok_push s None topK P (a_sel st) i o seg e)|done]].
  pose proof (λ H, sel_ok_push s (Some f) topK P (a_sel st) i o seg e Hd Hs He Hm H Hsel Hadm) as Hpush.
  pose proof (λ H, sel_ok_skip s (Some f) topK P (a_sel st) i o seg e Hs He (or_intror (or_intror H)) Hsel) as Hskip.
  simpl in Hpush, Hskip. unfold eval_entry. destruct (eval f (Payload e)) as [[]|er] eqn:Hev; (split; [auto|]); try done.
  intros Hall. specialize (Hall f i seg e eq_refl Hs (list_elem_of_lookup_2 _ _ _ He) Hm). by rewrite Hev in Hall.
Qed.

Lemma anyof_run_ok (s : snapshot) (cf : option compiledFilter) (topK : Z) (P : gset seg_ord) every i seg ords st :
  ids_distinct s cf → seg_of s i = Some seg → Forall (λ o, N.to_nat o < length (entries seg)) ords →
  walk_inv s cf topK P st →
  ∃ st', anyof_run None every cf i seg (mask_of s i) ords st = AWalked st' ∧
    walk_inv s cf topK (list_to_set (pair i <$> ords) ∪ P) st'.
Proof.
  intros Hd Hs Hords. revert P st. induction Hords as [|o ords Ho Hords IH]; intros P st Hst; cbn [anyof_run].
  { exists st. split; [done|]. simpl. by rewrite (union_empty_l_L P). }
  cbv zeta. change (ctx_poll None 1 _) with false. rewrite andb_false_r.
  destruct (lookup_lt_is_Some_2 _ _ Ho) as [e He]. rewrite He.
  destruct (IH ({[(i, o)]} ∪ P) (anyof_one cf i (mask_of s i) o e (mkA (a_sel st) (walked_one (a_q st))))) as (st' & -> & Hst').
  { by eapply anyof_one_ok. }
  exists st'. split; [done|]. csimpl. by rewrite <-(assoc_L (∪)), (comm_L (∪) {[(i, o)]}), <-(assoc_L (∪)), (comm_L (∪) P).
Qed.

(** The ordinals the terms reach in one segment. *)
Definition reached (s : snapshot) (terms : list bytes) (k : seg_ord) : Prop :=
  ∃ seg x t run, seg_of s k.1 = Some seg ∧ ex seg = Some x ∧ t ∈ terms ∧ Exact.Lookup x t = Some run ∧ k.2 ∈ run.

Lemma anyof_terms_ok (s : snapshot) (cf : option compiledFilter) (topK : Z) (P : gset seg_ord) every i seg x terms st :
  bounds s → ids_distinct s cf → seg_of s i = Some seg → ex seg = Some x → walk_inv s cf topK P st →
  ∃ st' Q, anyof_terms None every cf i seg (mask_of s i) x terms st = AWalked st' ∧ walk_inv s cf topK Q st' ∧
    ∀ k, k ∈ Q ↔ k ∈ P ∨ k.1 = i ∧ reached s terms k.
Proof.
  intros Hb Hd Hs Hx. revert P st. induction terms as [|t terms IH]; intros P st Hst; cbn [anyof_terms].
  { exists st, P. split_and!; [done|done|]. intros k. split; [by left|]. intros [?|(_ & ? & ? & t & ? & _ & _ & Ht & _)]; [done|].
    by apply elem_of_nil in Ht. }
  destruct (proj2 (Hb i seg Hs) x t Hx) as (run & Hrun & Hords). rewrite Hrun.
  destruct (anyof_run_ok s cf topK P every i seg run st Hd Hs Hords Hst) as (st1 & -> & H1).
  destruct (IH _ st1 H1) as (st' & Q & Hw & HQ & HkQ). exists st', Q. split_and!; [done|done|].
  intros [j o]. rewrite HkQ, elem_of_union, elem_of_list_to_set, list_elem_of_fmap. unfold reached. simpl. split.
  - intros [[(o' & [= -> ->] & Ho)|?]|(-> & seg' & x' & t' & run' & Hs' & Hx' & Ht' & H)]; [right|by left|right].
    + split; [done|]. exists seg, x, t, run. split_and!; [done|done|by left|done|done].
    + split; [done|]. exists seg', x', t', run'. split_and!; [done|done|by right|apply H..].
  - intros [?|(-> & seg' & x' & t' & run' & Hs' & Hx' & Ht' & Hr' & Ho)]; [left; by right|].
    assert (seg' = seg) as -> by congruence. assert (x' = x) as -> by congruence.
    apply elem_of_cons in Ht' as [->|Ht']; [left; left; exists o; split; [done|congruence]|].
    right. split; [done|]. by exists seg, x, t', run'.
Qed.

Lemma anyof_collect_ok (s : snapshot) (cf : option compiledFilter) (topK : Z) (P : gset seg_ord) every terms i st :
  bounds s → ids_distinct s cf → walk_inv s cf topK P st →
  ∃ st' Q, anyof_collect None every cf s terms i st = AWalked st' ∧ walk_inv s cf topK Q st' ∧
    ∀ k, k ∈ Q ↔ k ∈ P ∨ k.1 = i ∧ reached s terms k.
Proof.
  intros Hb Hd Hst. unfold anyof_collect. destruct (seg_of s i) as [seg|] eqn:Hs.
  2:{ exists st, P. split_and!; [done|done|]. intros k. split; [by left|].
      intros [?|(Hk & seg & x & t & run & Hs' & _)]; [done|]. rewrite Hk in Hs'. congruence. }
  destruct (ex seg) as [x|] eqn:Hx; [by apply anyof_terms_ok|].
  exists st, P. split_and!; [done|done|]. intros k. split; [by left|].
  intros [?|(Hk & seg' & x & t & run & Hs' & Hx' & _)]; [done|]. rewrite Hk in Hs'. congruence.
Qed.

(** ** Cancellation *)

Lemma anyof_run_cancel c every cf i seg mask ords st :
  let r := anyof_run c every cf i seg mask ords st in r = ACanceled ∨ r = anyof_run None every cf i seg mask ords st.
Proof.
  revert st. induction ords as [|o ords IH]; intros st; cbn [anyof_run]; [by right|]. cbv zeta.
  change (ctx_poll None 1 _) with false. rewrite andb_false_r.
  destruct (_ && _); [by left|]. destruct (entries seg !! _); [apply IH|by right].
Qed.

Lemma anyof_collect_cancel c every cf s terms i st :
  let r := anyof_collect c every cf s terms i st in r = ACanceled ∨ r = anyof_collect None every cf s terms i st.
Proof.
  unfold anyof_collect. destruct (seg_of s i) as [seg|]; [|by right]. destruct (ex seg) as [x|]; [|by right]. simpl.
  revert st. induction terms as [|t terms IH]; intros st; cbn [anyof_terms]; [by right|].
  destruct (Exact.Lookup x t) as [run|]; [|by right].
  destruct (anyof_run_cancel c every cf i seg (mask_of s i) run st) as [->| ->]; [by left|].
  destruct (anyof_run None every cf i seg (mask_of s i) run st); [apply IH|by right..].
Qed.

(** ** The answer *)

Lemma live_in_at l i seg o e :
  seg_of (snap l) i = Some seg → entries seg !! N.to_nat o = Some e → masked (mask_of (snap l) i) (ID e) = false →
  live_in l i e.
Proof. intros Hs He Hm. exists seg. split_and!; [done|by eapply list_elem_of_lookup_2|done]. Qed.

Lemma inv_ids_distinct l cf : inv l → ids_distinct (snap l) cf.
Proof.
  intros Hi x y (i & o & seg & e & -> & Hs & He & Hm & _) (i' & o' & seg' & e' & -> & Hs' & He' & Hm' & _). simpl. intros Hid.
  pose proof (live_in_at l i seg o e Hs He Hm) as Hl. pose proof (live_in_at l i' seg' o' e' Hs' He' Hm') as Hl'.
  destruct (decide (i = i')) as [<-|Hne].
  - assert (seg' = seg) as -> by congruence. pose proof (seg_nodup l i seg Hi Hs) as Hnd.
    assert (N.to_nat o = N.to_nat o') as Ho%N2Nat.inj.
    { eapply NoDup_lookup; [exact Hnd| |]; rewrite list_lookup_fmap, ?He, ?He'; simpl; [done|by rewrite Hid]. }
    subst o'. by assert (e' = e) as -> by congruence.
  - destruct i, i'; try done; exfalso.
    + apply live_in_base in Hl; [|done]. apply live_in_overlay in Hl'; [|done]. rewrite Hid in Hl. congruence.
    + apply live_in_base in Hl'; [|done]. apply live_in_overlay in Hl; [|done]. rewrite Hid in Hl. congruence.
Qed.

(** A live entry that holds one of the terms and passes the filter. *)
Definition matches (l : GoList) (cf : option compiledFilter) (terms : list bytes) (e : Entry) : Prop :=
  live_map l !! ID e = Some e ∧ passes cf e = true ∧ ∃ t, t ∈ terms ∧ holds l t e.

Lemma reached_matches l cf terms x :
  inv l → seg_built l → HasExactIndex l = true → [] ∉ terms →
  reached (snap l) terms (item_key x) ∧ eligible (snap l) cf x →
  ∃ i o e, x = any_cand i o e ∧ live_in l i e ∧ matches l cf terms e.
Proof.
  intros Hi Hb Hex Hne [(seg & xi & t & run & Hs & Hx & Ht & Hrun & Ho) (i & o & seg' & e & -> & Hs' & He & Hm & Hp)].
  simpl in *. assert (seg' = seg) as -> by congruence. exists i, o, e. pose proof (live_in_at l i seg o e Hs He Hm) as Hl.
  split_and!; [done|done|]. split_and!; [apply live_entry; [done|split; [done|by eexists]]|done|]. exists t. split; [done|].
  destruct (Hb i seg Hs) as [Hbuilt Hlen]. destruct (built_exact _ _ _ _ xi t Hbuilt Hx) as (run' & Hrun' & _ & Hin);
    [unfold max_u32 in Hlen; lia|]. assert (run' = run) as -> by congruence.
  apply Hin in Ho as (_ & e' & He' & Hh). assert (e' = e) as -> by congruence. exact Hh.
Qed.

Lemma matches_reached l cf terms e :
  inv l → seg_built l → HasExactIndex l = true → [] ∉ terms → matches l cf terms e →
  ∃ i o, reached (snap l) terms (i, o) ∧ eligible (snap l) cf (any_cand i o e).
Proof.
  intros Hi Hb Hex Hne (Hl & Hp & t & Ht & Hh). apply live_entry in Hl as (_ & i & seg & Hs & He & Hm); [|done].
  destruct (Hb i seg Hs) as [Hbuilt Hlen]. apply list_elem_of_lookup in He as [k He].
  assert (∃ xi, ex seg = Some xi) as [xi Hx].
  { destruct Hbuilt as (_ & _ & _ & _ & _ & _ & _ & _ & H). revert H. unfold HasExactIndex in Hex. rewrite Hex.
    intros (xi & Hx & _). by exists xi. }
  destruct (built_exact _ _ _ _ xi t Hbuilt Hx) as (run & Hrun & _ & Hin); [unfold max_u32 in Hlen; lia|].
  assert (entries seg !! N.to_nat (N.of_nat k) = Some e) as He' by by rewrite Nat2N.id.
  exists i, (N.of_nat k). split.
  - exists seg, xi, t, run. split_and!; [done|done|done|done|]. apply Hin. split; [by intros ->|]. by exists e.
  - by exists i, (N.of_nat k), seg, e.
Qed.

(** Attribution sets the key and nothing else. *)
Lemma attribute_any_ok l cf terms i o e :
  inv l → live_in l i e → matches l cf terms e → eligible (snap l) cf (any_cand i o e) →
  ∃ k, attribute_any_of l (snap l) terms (any_cand i o e) = Some (set_key (any_cand i o e).1 k, mkMeta i o) ∧
    first_key (l_an l) terms (Keys e) = Some k.
Proof.
  intros Hi Hl (Hlive & Hp & t & Ht & Hh) (i' & o' & seg & e' & [= Hid Hpay <- <-] & Hs & He & Hm & Hpass).
  destruct (cand_live l None (any_cand i o e')) as (e2 & Hatt & Hlive2 & Hid2 & _); [done| |].
  { exists seg, e'. split_and!; try done. }
  unfold attribute_any_of. simpl in Hatt |- *. rewrite Hatt. simpl in *.
  assert (e2 = e) as -> by (rewrite <-Hid in Hlive2; congruence). unfold first_key.
  destruct (find _ (Keys e)) as [k|] eqn:Hf; [by exists k|]. exfalso.
  apply list_elem_of_fmap in Hh as (k & -> & Hk). apply list_elem_of_In in Hk. pose proof (find_none _ _ Hf k Hk) as Hno.
  by apply bool_decide_eq_false in Hno.
Qed.

(** A reported candidate: the live entry, its payload, and the first of its keys
    that analyzes to a term. *)
Definition any_answer (l : GoList) (cf : option compiledFilter) (terms : list bytes) (x : Candidate) : Prop :=
  ∃ e, live_map l !! EntryID x = Some e ∧ passes cf e = true ∧ c_Payload x = Payload e ∧ c_Score x = f_of_N 100 ∧
    first_key (l_an l) terms (Keys e) = Some (c_Key x).

Lemma attribute_all l cf terms xs :
  inv l →
  Forall (λ x, eligible (snap l) cf x ∧ ∃ i o e, x = any_cand i o e ∧ live_in l i e ∧ matches l cf terms e) xs →
  ∃ cs, attributeAnyOf l (snap l) terms xs = Some cs ∧ EntryID <$> cs.*1 = EntryID <$> xs.*1 ∧
    Forall (any_answer l cf terms) cs.*1.
Proof.
  intros Hi. induction 1 as [|x xs [Hel (i & o & e & -> & Hl & Hm)] _ (cs & IH & Hids & Hall)]; [by exists []|].
  destruct (attribute_any_ok l cf terms i o e Hi Hl Hm Hel) as (k & Hat & Hk).
  unfold attributeAnyOf in *. simpl. rewrite Hat. simpl. rewrite IH. simpl. eexists. split; [done|]. csimpl.
  split; [by rewrite Hids|]. constructor; [|done]. destruct Hm as (Hlive & Hp & _). exists e. by split_and!.
Qed.

Lemma take_top_fmap {A B} (f : A → B) topK xs : f <$> take_top topK xs = take_top topK (f <$> xs).
Proof. unfold take_top. destruct (topK <=? 0)%Z; [done|apply fmap_take]. Qed.

(** The selection, sorted, is the prefix of all eligible reached candidates. *)
Lemma sorted_selection s cf topK P a :
  ids_distinct s cf → sel_ok s cf topK P a →
  ∃ all, EntryID <$> (sorted a).*1 = take_top topK all ∧ StronglySorted bytes_lt all ∧
    (∀ id, id ∈ all ↔ ∃ x, EntryID x.1 = id ∧ item_key x ∈ P ∧ eligible s cf x) ∧
    ∀ x, x ∈ sorted a → item_key x ∈ P ∧ eligible s cf x.
Proof.
  intros Hd (Hk & Hin & Hh & hs & Hnd & Hhs & Hb). set (better (x y : cand) := less_by EntryID x.1 y.1).
  assert (strict_weak better) as Hbw.
  { destruct (less_by_weak (A:=Candidate) EntryID) as (H1 & H2 & H3). unfold better. split_and!; [by intros a0|..];
      intros a0 b0 c0; [apply H2|apply H3]. }
  assert (sorted a = take_top topK (sort_stable better hs)) as Hsorted.
  { apply (best_of_sorted larger_id topK hs (sel_items a)); [apply larger_weak|done| | | | |].
    - intros x y Hx%Hhs Hy%Hhs Hxy Hyx. apply Hd; [apply Hx|apply Hy|]. unfold larger_id in *.
      apply less_by_false in Hxy, Hyx. by apply (anti_symm bytes_le).
    - unfold sorted. by rewrite sort_slice_perm.
    - by apply sort_slice_sorted.
    - apply sort_stable_perm.
    - by apply sort_stable_sorted. }
  exists (EntryID <$> (sort_stable better hs).*1). split_and!.
  - by rewrite Hsorted, !take_top_fmap.
  - pose proof (sort_stable_sorted better hs Hbw) as Hs. assert (∀ x, x ∈ sort_stable better hs → x ∈ hs) as Hsub
      by (intros x; by rewrite sort_stable_perm).
    assert (NoDup (sort_stable better hs)) as Hnd'.
    { rewrite sort_stable_perm. by apply (NoDup_fmap_1 item_key). }
    revert Hs Hsub Hnd'. generalize (sort_stable better hs). intros xs. induction xs as [|x xs IH]; intros Hs Hsub Hnd'; csimpl; [constructor|].
    apply StronglySorted_inv in Hs as [Hs Hx]. apply NoDup_cons in Hnd' as [Hni Hnd'].
    constructor; [apply IH; [done| |done]; intros y Hy; apply Hsub; by right|].
    apply Forall_fmap, Forall_fmap, Forall_forall. intros y Hy. simpl. rewrite Forall_forall in Hx. specialize (Hx y Hy).
    apply less_by_false in Hx. apply bytes_le_lteq in Hx as [?|Heq]; [done|]. exfalso. apply Hni.
    assert (x = y) as ->; [|done]. apply Hd; [apply Hhs, Hsub; by left|apply Hhs, Hsub; by right|done].
  - intros id. rewrite <-list_fmap_compose, list_elem_of_fmap. setoid_rewrite sort_stable_perm. setoid_rewrite Hhs. naive_solver.
  - intros x. rewrite Hsorted. intros Hx. apply Hhs. rewrite <-(sort_stable_perm better hs).
    unfold take_top in Hx. destruct (topK <=? 0)%Z; [done|]. by eapply elem_of_sublist; [exact Hx|apply sublist_take].
Qed.

Lemma walk_inv_start s cf topK : walk_inv s cf topK ∅ (a_start topK).
Proof.
  split; [|done]. split_and!; [done|done| |].
  - intros i k _ _ _. apply worse_at_false. by intros x y ?%lookup_lt_Some.
  - exists []. split_and!; [constructor| |].
    + intros x. rewrite elem_of_nil, elem_of_empty. tauto.
    + exists []. split_and!; [done|by intros x y ?%elem_of_nil|done|simpl; lia].
Qed.

Definition anyof_every (cf : option compiledFilter) : nat :=
  match cf with Some _ => exactFilteredCancelCheckEvery | None => exactCancelCheckEvery end.

(** The whole uncancelled walk. *)
Lemma anyof_walk l cf terms topK :
  inv l → seg_built l →
  ∃ st1 st2 Q, anyof_collect None (anyof_every cf) cf (snap l) terms InBase (a_start topK) = AWalked st1 ∧
    anyof_collect None (anyof_every cf) cf (snap l) terms InOverlay st1 = AWalked st2 ∧
    walk_inv (snap l) cf topK Q st2 ∧ ∀ k, k ∈ Q ↔ reached (snap l) terms k.
Proof.
  intros Hi Hb. pose proof (seg_built_bounds l Hb) as Hbd. pose proof (inv_ids_distinct l cf Hi) as Hd.
  destruct (anyof_collect_ok (snap l) cf topK ∅ (anyof_every cf) terms InBase _ Hbd Hd (walk_inv_start _ _ _)) as (st1 & Q1 & Hw1 & H1 & HQ1).
  destruct (anyof_collect_ok (snap l) cf topK Q1 (anyof_every cf) terms InOverlay _ Hbd Hd H1) as (st2 & Q2 & Hw2 & H2 & HQ2).
  exists st1, st2, Q2. split_and!; [done..|]. intros k. rewrite HQ2, HQ1, elem_of_empty. destruct k as [[] ?]; simpl; intuition done.
Qed.

Lemma any_of_cancel c l terms o cf :
  anyOfSnap c l (snap l) terms o cf = anyOfSnap None l (snap l) terms o cf ∨
  anyOfSnap c l (snap l) terms o cf = (Ok [], no_stats).
Proof.
  unfold anyOfSnap. change (ctx_poll None 0 0) with false. change (ctx_poll None 3 0) with false. cbv iota.
  destruct (ctx_poll c 0 0); [by right|]. cbv zeta. fold (anyof_every cf).
  destruct (anyof_collect_cancel c (anyof_every cf) cf (snap l) terms InBase (a_start (effectiveTopK l o))) as [->| ->]; [by right|].
  destruct (anyof_collect None (anyof_every cf) cf (snap l) terms InBase _) as [st| |]; [|by left..].
  destruct (anyof_collect_cancel c (anyof_every cf) cf (snap l) terms InOverlay st) as [->| ->]; [by right|].
  destruct (anyof_collect None (anyof_every cf) cf (snap l) terms InOverlay st) as [st'| |]; [|by left..].
  destruct (ctx_poll c 3 0); [by right|by left].
Qed.

Lemma any_of_terms_ok l raw terms :
  anyOfTerms l raw = Ok terms ↔
  HasExactIndex l = true ∧ 0 < length raw ≤ MaxExactAnyOfTerms ∧ terms = distinct_terms (l_an l) ∅ raw.
Proof.
  unfold anyOfTerms. destruct (HasExactIndex l); simpl; [|split; [done|by intros [? _]]].
  destruct (Nat.eqb_spec (length raw) 0); [split; [done|lia]|].
  destruct (Nat.ltb_spec MaxExactAnyOfTerms (length raw)); simpl; [split; [done|lia]|].
  split; [intros [= <-]; split_and!; [done|lia|lia|done]|by intros (_ & _ & ->)].
Qed.

Lemma distinct_terms_ne an raw : [] ∉ distinct_terms an ∅ raw.
Proof. rewrite distinct_terms_spec. tauto. Qed.

(** C9: the any-of lookup is exactly the bounded set query, on a list whose segments
    hold fewer than 2^32-1 entries and the indexes the code builds from them (not ones
    loaded from a cache file or supplied prebuilt).  Under any context it answers as
    uncancelled or nothing at all; uncancelled and meeting no malformed payload, it
    reports the effective-topK smallest entry IDs, ascending, of the live entries that
    hold one of the analyzed terms as a key and pass the filter - each once, whatever
    the order of terms and segments - with the entry's payload, score 100, and the
    first of its keys that analyzes to a term. *)
Theorem any_of_spec c l raw terms o cf :
  inv l → seg_built l → anyOfTerms l raw = Ok terms →
  (∀ f id e, cf = Some f → live_map l !! id = Some e → is_ok (eval f (Payload e)) = true) →
  let r := anyOfSnap None l (snap l) terms o cf in
  (anyOfSnap c l (snap l) terms o cf = r ∨ anyOfSnap c l (snap l) terms o cf = (Ok [], no_stats)) ∧
  ∃ all cs, r.1 = Ok cs ∧ StronglySorted bytes_lt all ∧
    (∀ id, id ∈ all ↔ ∃ e, live_map l !! id = Some e ∧ passes cf e = true ∧
       ∃ t, t ∈ Normalize (l_an l) <$> raw ∧ t ≠ [] ∧ holds l t e) ∧
    EntryID <$> cs = take_top (effectiveTopK l o) all ∧ Forall (any_answer l cf terms) cs.
Proof.
  intros Hi Hb (Hex & _ & ->)%any_of_terms_ok Heval. split; [apply any_of_cancel|].
  set (terms := distinct_terms (l_an l) ∅ raw). pose proof (distinct_terms_ne (l_an l) raw) as Hne. fold terms in Hne.
  assert (evaluable (snap l) cf) as Hall.
  { intros f i seg e Hf Hs He Hm. apply (Heval f (ID e) e Hf). apply live_entry; [done|]. split; [done|]. by exists i, seg. }
  destruct (anyof_walk l cf terms (effectiveTopK l o) Hi Hb) as (st1 & st2 & Q & Hw1 & Hw2 & [Hsel Herr] & HQ).
  destruct (sorted_selection _ _ _ _ _ (inv_ids_distinct l cf Hi) Hsel) as (all & Hids & Hsorted & Hmem & Hitems).
  destruct (attribute_all l cf terms (sorted (a_sel st2)) Hi) as (cs & Hat & Hcs & Hans).
  { apply Forall_forall. intros x [HP%HQ Hel]%Hitems. split; [done|]. by apply reached_matches. }
  exists all, cs.*1. unfold anyOfSnap. change (ctx_poll None 0 0) with false. change (ctx_poll None 3 0) with false.
  cbv iota zeta. fold (anyof_every cf). rewrite Hw1, Hw2, (Herr Hall), Hat. split_and!; [done|done| |by rewrite Hcs|done].
  intros id. rewrite Hmem. split.
  - intros (x & <- & HP%HQ & Hel). destruct (reached_matches l cf terms x) as (i & k & e & -> & _ & Hl & Hp & t & Ht & Hh); [done..|].
    exists e. split_and!; [done|done|]. apply distinct_terms_spec in Ht as (Ht & _ & Hin). by exists t.
  - intros (e & Hl & Hp & t & Hin & Ht & Hh). assert (ID e = id) as <- by (apply live_entry in Hl as [? _]; done).
    destruct (matches_reached l cf terms e) as (i & k & Hr & Hel); [done..| |].
    { split_and!; [done|done|]. exists t. split; [|done]. apply distinct_terms_spec. split_and!; [done|set_solver|done]. }
    exists (any_cand i k e). split_and!; [done|by apply HQ|done].
Qed.
End any_of_spec.
