(* ===== verification/PrepareSpec.v ===== *)
(** Properties of prepared queries: an empty filter is the ordinary path, and the
    any-of charge covers what an execution retains. *)

From S2P Require Import Prelude.
From S2P Require Import Runtime.
From S2P Require Import Analyzer.
From S2P Require Import Heap.
From S2P Require Import Score.
From S2P Require Import Bitmap.
From S2P Require Import Filter.
From S2P Require Import Types.
From S2P Require Import ListConfig.
From S2P Require Import Segment.
From S2P Require Import ListModel.
From S2P Require Import ListRefine.
From S2P Require Import Query.
From S2P Require Import QuerySpec.
From S2P Require Import QueryExact.
From S2P Require Import AnyOf.
From S2P Require Import AnyOfSpec.
From S2P Require Import Prepare.
From S2P Require Exact.

Section prepare_spec.
Context {RT : GoRuntime} {TL : TextLib} {BL : BitmapLib} {FO : FloatOps} {DL : DigestLib}.

(** Without a filter the only error is a panic. *)
Lemma unfiltered_error c l s q o e : (querySnap c l s q o None).1 = Err e → e = QueryPanicked.
Proof.
  unfold querySnap. destruct (ctx_poll c 0 0); [done|]. case_bool_decide; [done|]. cbv zeta.
  pose proof (collect_err c l s (Normalize (l_an l) q) (effective_threshold l o) (effectiveTopK l o) None) as He.
  destruct (collect _ _ _ _ _ _ _) as [[st| |] key]; simpl in *; [|done|congruence].
  rewrite (He eq_refl). destruct (ctx_poll c 3 0); [done|]. case_bool_decide; [done|].
  destruct (attributeKeys _ _ _ _ _); simpl; congruence.
Qed.

Lemma drop_error_id r : (∀ e, r = Err e → e = QueryPanicked) → drop_error r = r.
Proof. destruct r as [cs|[]]; simpl; intros H; try done; by specialize (H _ eq_refl). Qed.

(** An empty filter is no filter.  Preparing with an empty filter, by either
    entry point, always succeeds, costs exactly what the unfiltered preparation
    costs, echoes no filter, and answers exactly like it under every context; and
    whatever the filter, an execution that fails reports zero statistics. *)
Theorem empty_filter_ordinary l q o c :
  (∃ p, PrepareFilteredQuery l q o ∅ = Ok p ∧ PrepareTypedFilteredQuery l q o no_filter = Ok p ∧
     filtered_Cost p = Cost (PrepareQuery l q o) ∧ AppliedFilter p = None ∧ AppliedFilterJSON p = [] ∧
     filtered_Execute p c = Execute (PrepareQuery l q o) c) ∧
  (∀ p e v st, ExecuteStats p c = (Err e, v, st) → st = no_stats).
Proof.
  split.
  - exists (prepareFilteredQuery l q o None). split_and!; [done|done|done|done|done|].
    unfold filtered_Execute, Execute, run_filtered. simpl. f_equal. symmetry. apply drop_error_id.
    intros e. apply unfiltered_error.
  - intros p e v st. unfold ExecuteStats. destruct (run_filtered p c) as [[cs|e'] stats]; by intros [= _ _ <-].
Qed.

(** ** The any-of charge *)

(** Every key the terms reach in one segment, once per run. *)
Definition run_keys (x : Exact.Index) (i : seg_id) (terms : list bytes) : list seg_ord :=
  terms ≫= λ t, pair i <$> from_option id [] (Exact.Lookup x t).
Definition seg_keys (s : snapshot) (terms : list bytes) (i : seg_id) : list seg_ord :=
  match seg_of s i with
  | Some seg => from_option (λ x, run_keys x i terms) [] (ex seg)
  | None => []
  end.

Lemma run_lengths_keys x i terms :
  (∀ t, is_Some (Exact.Lookup x t)) → run_lengths x terms = Some (Z.of_nat (length (run_keys x i terms))).
Proof.
  intros Hx. induction terms as [|t terms IH]; [done|]. cbn [run_lengths]. destruct (Hx t) as [run Hrun].
  change (run_keys x i (t :: terms)) with ((pair i <$> from_option id [] (Exact.Lookup x t)) ++ run_keys x i terms).
  rewrite Hrun, IH. cbn [mbind option_bind from_option]. by rewrite length_app, length_fmap, Nat2Z.inj_add.
Qed.

Lemma elem_of_seg_keys s terms k : bounds s → reached s terms k ↔ k ∈ seg_keys s terms k.1.
Proof.
  intros Hb. unfold reached, seg_keys. destruct k as [i o]. simpl. destruct (seg_of s i) as [seg|] eqn:Hs.
  2:{ rewrite elem_of_nil. split; [by intros (? & ? & ? & ? & ? & _)|done]. }
  destruct (ex seg) as [x|] eqn:Hx; simpl.
  2:{ rewrite elem_of_nil. split; [intros (seg' & x & ? & ? & Hs' & Hx' & _); congruence|done]. }
  unfold run_keys. rewrite list_elem_of_bind. split.
  - intros (seg' & x' & t & run & Hs' & Hx' & Ht & Hrun & Ho). exists t. split; [|done].
    assert (seg' = seg) as -> by congruence. assert (x' = x) as -> by congruence. rewrite Hrun. simpl. by apply list_elem_of_fmap_2.
  - intros (t & Hin & Ht). destruct (proj2 (Hb i seg Hs) x t Hx) as (run & Hrun & _). rewrite Hrun in Hin. simpl in Hin.
    apply list_elem_of_fmap in Hin as (o' & [= <-] & Ho). by exists seg, x, t, run.
Qed.

Lemma run_keys_length x i terms n :
  (∀ t run, Exact.Lookup x t = Some run → length run ≤ n) → length (run_keys x i terms) ≤ length terms * n.
Proof.
  intros Hx. induction terms as [|t terms IH]; [done|].
  change (run_keys x i (t :: terms)) with ((pair i <$> from_option id [] (Exact.Lookup x t)) ++ run_keys x i terms).
  rewrite length_app, length_fmap. simpl. destruct (Exact.Lookup x t) as [run|] eqn:Hr; [specialize (Hx t run Hr); simpl; lia|simpl; lia].
Qed.

(** One segment's hits, as charged. *)
Lemma seg_keys_bound l terms i :
  seg_built l → (Z.of_nat (length (seg_keys (snap l) terms i)) <= Z.of_nat (length terms) * 2 ^ 32)%Z.
Proof.
  intros Hb. unfold seg_keys. destruct (seg_of (snap l) i) as [seg|] eqn:Hs; [|simpl; lia].
  destruct (ex seg) as [x|] eqn:Hx; [|simpl; lia]. simpl. destruct (Hb i seg Hs) as [Hbuilt Hlen]. unfold max_u32 in Hlen.
  enough (length (run_keys x i terms) ≤ length terms * length (entries seg)) by nia.
  apply run_keys_length. intros t run Hrun.
  destruct (built_exact _ _ _ _ x t Hbuilt Hx) as (run' & Hrun' & Hsort & Hin); [lia|]. assert (run' = run) as -> by congruence.
  rewrite <-(length_fmap N.to_nat run), <-(length_seq (length (entries seg)) 0). apply submseteq_length, NoDup_submseteq.
  - apply NoDup_fmap_2; [intros ???; lia|]. clear -Hsort. induction Hsort as [|o run _ IH Ho]; constructor; [|done]. intros Hin. rewrite Forall_forall in Ho. specialize (Ho _ Hin). lia.
  - intros k (o & -> & (_ & e & He & _)%Hin)%list_elem_of_fmap. apply elem_of_seq. apply lookup_lt_Some in He. lia.
Qed.

Lemma probe_hits l terms i :
  seg_built l → ∃ p, anyof_probe terms (seg_of (snap l) i) = Some (Z.of_nat (length (seg_keys (snap l) terms i)), p).
Proof.
  intros Hb. unfold anyof_probe, seg_keys. destruct (seg_of (snap l) i) as [seg|] eqn:Hs; [|by eexists].
  destruct (ex seg) as [x|] eqn:Hx; [|by eexists]. rewrite (run_lengths_keys x i); [simpl; by eexists|].
  intros t. destruct (proj2 (seg_built_bounds l Hb i seg Hs) x t Hx) as (run & -> & _). done.
Qed.

(** What the walk selects fits in the hits the charge counted. *)
Lemma selected_hits l cf terms topK P a :
  seg_built l → inv l → sel_ok (snap l) cf topK P a → (∀ k, k ∈ P ↔ reached (snap l) terms k) →
  length (sorted a) ≤ length (seg_keys (snap l) terms InBase ++ seg_keys (snap l) terms InOverlay) ∧
  ((0 < topK)%Z → (Z.of_nat (length (sorted a)) <= topK)%Z).
Proof.
  intros Hb Hi Hsel HP. destruct (sorted_selection _ _ _ _ _ (inv_ids_distinct l cf Hi) Hsel) as (all & Hids & _ & _ & Hitems). split.
  - destruct Hsel as (_ & _ & _ & hs & Hnd & _ & rest & Hperm & _).
    assert (length (sorted a) = length (item_key <$> sel_items a)) as ->.
    { rewrite length_fmap. apply Permutation_length. unfold sorted. apply sort_slice_perm. }
    apply submseteq_length, NoDup_submseteq.
    + rewrite Hperm, fmap_app in Hnd. by apply NoDup_app in Hnd as [? _].
    + intros k (x & -> & Hx)%list_elem_of_fmap. assert (x ∈ sorted a) as [Hk%HP _]%Hitems by (unfold sorted; by rewrite sort_slice_perm).
      apply elem_of_seg_keys in Hk; [|by apply seg_built_bounds]. apply elem_of_app. destruct (item_key x).1; [by left|by right].
  - intros Hpos. assert (length (sorted a) = length (take_top topK all)) as -> by by rewrite <-Hids, !length_fmap.
    unfold take_top. destruct (Z.leb_spec topK 0); [lia|]. rewrite length_take. lia.
Qed.

Lemma distinct_terms_length an seen terms : length (distinct_terms an seen terms) ≤ length terms.
Proof.
  revert seen. induction terms as [|t terms IH]; intros seen; cbn [distinct_terms]; [done|].
  simpl. repeat case_bool_decide; [etrans; [apply IH|lia]..|]. simpl. specialize (IH ({[Normalize an t]} ∪ seen)). lia.
Qed.

Lemma evaluable_none s : evaluable s None.
Proof. done. Qed.

(** C40: an exact any-of query is refused only for want of an exact index or for its
    number of terms, and its charge covers the answer - on a list whose segments hold
    fewer than 2^32-1 entries and the indexes the code builds from them, not ones
    loaded from a cache file or supplied prebuilt.  The cost never wraps; under every
    context execution succeeds against the prepared version, and the fixed part plus
    [anyOfPerHitBytes] for every reported candidate is at most the cost announced at
    preparation. *)
Theorem anyof_charge_covers l raw o c :
  inv l → seg_built l → HasExactIndex l = true → 0 < length raw ≤ MaxExactAnyOfTerms →
  ∃ p cs, PrepareExactAnyOf l raw o = Ok p ∧ Execute p c = (Ok cs, version (snap l)) ∧
    (Z.of_nat (length cs) <= pq_anyOfHits p)%Z ∧
    (scratchQueryFixedBytes + anyOfPerHitBytes * Z.of_nat (length cs) <= Cost p < 2 ^ 63)%Z.
Proof.
  intros Hi Hb Hex Hraw. set (terms := distinct_terms (l_an l) ∅ raw).
  pose proof (distinct_terms_length (l_an l) ∅ raw) as Hlen. fold terms in Hlen.
  assert (anyOfTerms l raw = Ok terms) as Hterms by by apply any_of_terms_ok.
  destruct (probe_hits l terms InBase Hb) as [pb Hpb]. destruct (probe_hits l terms InOverlay Hb) as [pv Hpv]. simpl in Hpb, Hpv.
  pose proof (seg_keys_bound l terms InBase Hb) as Hbb. pose proof (seg_keys_bound l terms InOverlay Hb) as Hbv.
  pose proof (distinct_terms_ne (l_an l) raw) as Hne. fold terms in Hne.
  destruct (anyof_walk l None terms (effectiveTopK l o) Hi Hb) as (st1 & st2 & Q & Hw1 & Hw2 & [Hsel Herr] & HQ).
  destruct (selected_hits l None terms (effectiveTopK l o) Q (a_sel st2) Hb Hi Hsel HQ) as [Hhits Htop].
  rewrite length_app in Hhits. unfold PrepareExactAnyOf. rewrite Hterms. cbn [mbind result_bind].
  unfold anyOfCostSnap. rewrite Hpb, Hpv. cbn [mbind option_bind or_query_panic result_bind fst snd].
  set (n := (Z.of_nat (length (seg_keys (snap l) terms InBase)) + Z.of_nat (length (seg_keys (snap l) terms InOverlay)))%Z) in *.
  assert (0 <= n <= 64 * 2 ^ 33)%Z as Hn by (unfold MaxExactAnyOfTerms in *; lia).
  rewrite (i64_small n) by lia. set (collected := if (0 <? effectiveTopK l o)%Z && (effectiveTopK l o <? n)%Z then effectiveTopK l o else n).
  assert (0 <= collected <= n)%Z as Hc by (unfold collected; destruct (_ && _) eqn:E; [apply andb_true_iff in E as [?%Z.ltb_lt ?%Z.ltb_lt]|]; lia).
  assert (Z.of_nat (length (sorted (a_sel st2))) <= collected)%Z as Hsc.
  { unfold collected. destruct (_ && _) eqn:E; [apply andb_true_iff in E as [?%Z.ltb_lt ?]; auto|lia]. }
  rewrite i64_small by (unfold scratchQueryFixedBytes, anyOfPerHitBytes; lia).
  destruct (sorted_selection _ _ _ _ _ (inv_ids_distinct l None Hi) Hsel) as (all & _ & _ & _ & Hitems).
  destruct (attribute_all l None terms (sorted (a_sel st2)) Hi) as (cs & Hat & Hcs & _).
  { apply Forall_forall. intros x [HP%HQ Hel]%Hitems. split; [done|]. by apply reached_matches. }
  assert ((anyOfSnap None l (snap l) terms o None).1 = Ok cs.*1) as Hrun.
  { unfold anyOfSnap. change (ctx_poll None 0 0) with false. change (ctx_poll None 3 0) with false. cbv iota zeta.
    change exactCancelCheckEvery with (anyof_every None). rewrite Hw1, Hw2, (Herr (evaluable_none _)), Hat. done. }
  assert (length cs.*1 = length (sorted (a_sel st2))) as Hl.
  { rewrite <-(length_fmap EntryID cs.*1), Hcs. by rewrite !length_fmap. }
  eexists. exists (match (anyOfSnap c l (snap l) terms o None).1 with Ok cs => cs | Err _ => [] end). split; [done|].
  unfold Execute, Cost. cbn [pq_anyOf pq_l pq_s pq_terms pq_opts pq_cost pq_anyOfHits].
  unfold scratchQueryFixedBytes, anyOfPerHitBytes in *.
  destruct (any_of_cancel c l terms o None) as [->| ->]; [rewrite Hrun|]; simpl; (split; [done|]); rewrite ?Hl; split; lia.
Qed.
End prepare_spec.
