(* ===== verification/Journal.v ===== *)
(** The journal of one list: its lines, [readJournal] and [readBoundedLine] of
    [engine/store.go], and [readBase].

    [encoding/json] on records, entries and configurations is the interface
    [Codec]; its only laws are that an encoding is a non-empty line, as
    [json.Marshal] escapes control characters. *)

From S2P Require Import Prelude.
From S2P Require Import Analyzer.
From S2P Require Import Score.
From S2P Require Import Types.
From S2P Require Import Segment.
From S2P Require Import ListModel.

Class Codec {FO : FloatOps} := {
  marshal_rec : journalRec → option bytes;
  unmarshal_rec : bytes → option journalRec;
  marshal_entry : Entry → option bytes;
  unmarshal_entry : bytes → option Entry;
  unmarshal_config : bytes → option ListConfig;
  marshal_rec_line : ∀ r b, marshal_rec r = Some b → b ≠ [] ∧ c_nl ∉ b;
  marshal_entry_line : ∀ e b, marshal_entry e = Some b → b ≠ [] ∧ c_nl ∉ b ∧ c_cr ∉ b;
}.

Definition maxLine : N := (2 ^ 20)%N.

(** ** Lines *)

(** [bufio.Reader.ReadSlice]: up to the delimiter, a full buffer or the end of
    the input. *)
Inductive slice_end := SliceDelim | SliceFull | SliceEOF.
Definition reader_size : N := (64 * 1024)%N.
Fixpoint ReadSlice (room : N) (input : bytes) : bytes * slice_end * bytes :=
  match input with
  | [] => ([], SliceEOF, [])
  | c :: rest =>
      if (c =? c_nl)%N then ([c], SliceDelim, rest)
      else if (room <=? 1)%N then ([c], SliceFull, rest)
      else let '(chunk, e, rest) := ReadSlice (room - 1) rest in (c :: chunk, e, rest)
  end.

Inductive line_read := Line (line rest : bytes) | LastLine (line : bytes) | LineTooLong.

(** [readBoundedLine]; every turn that goes on has consumed a full buffer. *)
Fixpoint bounded_loop (fuel : nat) (room max : N) (line input : bytes) : line_read :=
  match fuel with
  | O => LineTooLong
  | S fuel =>
      let '(chunk, e, rest) := ReadSlice room input in
      if (max <? N.of_nat (length line) + N.of_nat (length chunk))%N then LineTooLong
      else let line := line ++ chunk in
           match e with
           | SliceFull => bounded_loop fuel room max line rest
           | SliceDelim => Line line rest
           | SliceEOF => LastLine line
           end
  end.
Definition readBoundedLine (input : bytes) (max : N) : line_read :=
  bounded_loop (S (length input)) reader_size max [] input.

Section journal.
Context {FO : FloatOps} {CD : Codec}.

(** ** The journal *)

(** The loop of [readJournal]: the records and the torn offset, -1 for a clean
    file.  Every turn that goes on has consumed a line. *)
Fixpoint read_recs (fuel : nat) (input : bytes) (off : Z) : list journalRec * Z :=
  match fuel with
  | O => ([], off)
  | S fuel =>
      match readBoundedLine input maxLine with
      | LineTooLong => ([], off)
      | LastLine line => ([], if 0 <? length line then off else (-1)%Z)
      | Line line rest =>
          let body := take (length line - 1) line in
          let off' := (off + Z.of_nat (length line))%Z in
          if 0 <? length body then
            match unmarshal_rec body with
            | None => ([], off)
            | Some r => let '(ops, t) := read_recs fuel rest off' in (r :: ops, t)
            end
          else read_recs fuel rest off'
      end
  end.
Definition readJournal (content : bytes) : list journalRec * Z := read_recs (S (length content)) content 0.

(** What [appendJournal] writes for a batch. *)
Inductive encode_error := MarshalFailed | EntryTooLarge (id : bytes) (size : N).
Definition encode_line (id : bytes) (line : option bytes) : result encode_error bytes :=
  match line with
  | None => Err MarshalFailed
  | Some line =>
      if (maxLine <? N.of_nat (length line) + 1)%N then Err (EntryTooLarge id (N.of_nat (length line) + 1))
      else Ok (line ++ [c_nl])
  end.
Definition rec_id (r : journalRec) : bytes := match r_Entry r with Some e => ID e | None => r_ID r end.
Fixpoint encode_recs (rs : list journalRec) : result encode_error bytes :=
  match rs with
  | [] => Ok []
  | r :: rs' => line ← encode_line (rec_id r) (marshal_rec r); rest ← encode_recs rs'; Ok (line ++ rest)
  end.

(** What [writeBaseTemp] writes. *)
Fixpoint encode_base (es : list Entry) : result encode_error bytes :=
  match es with
  | [] => Ok []
  | e :: es' => line ← encode_line (ID e) (marshal_entry e); rest ← encode_base es'; Ok (line ++ rest)
  end.

(** ** The base *)

(** [bufio.ScanLines] with a buffer of [maxLine] bytes: the line without its
    newline and one carriage return before it. *)
Inductive token := Token (tok rest : bytes) | NoToken | TokenTooLong.
Definition drop_cr (line : bytes) : bytes :=
  match last line with Some c => if (c =? c_cr)%N then take (length line - 1) line else line | None => line end.
Fixpoint split_line (input : bytes) : option (bytes * bytes) :=
  match input with
  | [] => None
  | c :: rest => if (c =? c_nl)%N then Some ([], rest) else
                 '(line, rest) ← split_line rest; Some (c :: line, rest)
  end.
Definition scan_line (input : bytes) : token :=
  match split_line input with
  | Some (line, rest) => if (maxLine <? N.of_nat (length line) + 1)%N then TokenTooLong else Token (drop_cr line) rest
  | None => if 0 <? length input
            then if (maxLine <=? N.of_nat (length input))%N then TokenTooLong else Token (drop_cr input) []
            else NoToken
  end.

Inductive base_error := BadEntry (line : nat) | BaseTokenTooLong.
Fixpoint read_entries (fuel ln : nat) (input : bytes) : result base_error (list Entry) :=
  match fuel with
  | O => Err BaseTokenTooLong
  | S fuel =>
      match scan_line input with
      | NoToken => Ok []
      | TokenTooLong => Err BaseTokenTooLong
      | Token line rest =>
          if 0 <? length line then
            match unmarshal_entry line with
            | None => Err (BadEntry (S ln))
            | Some e => es ← read_entries fuel (S ln) rest; Ok (e :: es)
            end
          else read_entries fuel (S ln) rest
      end
  end.

(** [readBase] of a file's content. *)
Definition readBase (content : bytes) : result base_error (list Entry) := read_entries (S (length content)) 0 content.
End journal.

(** * The journal survives torn writes: reading a file that ends in any prefix of
    an append recovers the records before it and the whole ones of the prefix,
    and the reported offset is where truncation makes the file clean again. *)

(** ** Lines *)

Lemma split_line_some input l rest : split_line input = Some (l, rest) ↔ input = l ++ c_nl :: rest ∧ c_nl ∉ l.
Proof.
  split.
  - revert l rest. induction input as [|c input IH]; intros l rest; simpl; [done|].
    destruct (N.eqb_spec c c_nl) as [->|Hc]; [intros [= <- <-]; split; [done|set_solver]|].
    destruct (split_line input) as [[l' r']|]; simpl; [|done]. intros [= <- <-].
    destruct (IH l' r' eq_refl) as [-> Hn]. split; [done|set_solver].
  - intros [-> Hn]. induction l as [|c l IH]; simpl; [done|].
    destruct (N.eqb_spec c c_nl) as [->|Hc]; [set_solver|]. rewrite IH; [done|set_solver].
Qed.

Lemma split_line_none input : split_line input = None ↔ c_nl ∉ input.
Proof.
  induction input as [|c input IH]; simpl; [set_solver|]. destruct (N.eqb_spec c c_nl) as [->|Hc]; [set_solver|].
  destruct (split_line input) as [[l' r']|]; simpl; [|set_solver].
  split; [done|]. destruct IH as [_ IH]. intros Hn. discriminate IH. set_solver.
Qed.

(** A buffered read ends at the newline, at the end, or when the buffer is full. *)
Lemma read_slice_spec room input :
  (1 <= room)%N →
  let '(chunk, e, rest) := ReadSlice room input in
  input = chunk ++ rest ∧
  match e with
  | SliceDelim => ∃ l, chunk = l ++ [c_nl] ∧ c_nl ∉ l
  | SliceFull => c_nl ∉ chunk ∧ chunk ≠ []
  | SliceEOF => c_nl ∉ chunk ∧ rest = []
  end.
Proof.
  revert room. induction input as [|c input IH]; intros room Hr; simpl; [split; [done|set_solver]|].
  destruct (N.eqb_spec c c_nl) as [->|Hc]; [split; [done|]; exists []; set_solver|].
  destruct (N.leb_spec room 1); [split; [done|set_solver]|].
  specialize (IH (room - 1)%N ltac:(lia)). destruct (ReadSlice _ input) as [[chunk e] rest]. destruct IH as [-> IH].
  split; [done|]. destruct e; [destruct IH as (l & -> & Hl); exists (c :: l); set_solver|set_solver..].
Qed.

(** [readBoundedLine] without its buffer. *)
Definition line_spec (max : N) (input : bytes) : line_read :=
  match split_line input with
  | Some (l, rest) => if (max <? N.of_nat (length l) + 1)%N then LineTooLong else Line (l ++ [c_nl]) rest
  | None => if (max <? N.of_nat (length input))%N then LineTooLong else LastLine input
  end.

Lemma split_line_app chunk rest : c_nl ∉ chunk →
  split_line (chunk ++ rest) = match split_line rest with Some (l, r) => Some (chunk ++ l, r) | None => None end.
Proof.
  intros Hn. destruct (split_line rest) as [[l r]|] eqn:Hs.
  - apply split_line_some in Hs as [-> Hl]. apply split_line_some. by rewrite <-app_assoc, not_elem_of_app.
  - apply split_line_none in Hs. apply split_line_none. by rewrite not_elem_of_app.
Qed.

Lemma bounded_loop_spec fuel room max line input :
  (1 <= room)%N → length input < fuel → c_nl ∉ line →
  bounded_loop fuel room max line input = line_spec max (line ++ input).
Proof.
  intros Hr. revert line input. induction fuel as [|fuel IH]; intros line input Hf Hn; [lia|]. cbn [bounded_loop].
  pose proof (read_slice_spec room input Hr) as Hs. destruct (ReadSlice room input) as [[chunk e] rest].
  destruct Hs as [-> Hs]. rewrite length_app in Hf. unfold line_spec. rewrite (split_line_app line) by done.
  destruct e.
  - destruct Hs as (l & -> & Hl). rewrite <-app_assoc. simpl.
    rewrite (proj2 (split_line_some (l ++ c_nl :: rest) l rest)) by done. rewrite !length_app. simpl.
    destruct (N.ltb_spec max (N.of_nat (length line) + N.of_nat (length l + 1))), (N.ltb_spec max (N.of_nat (length line + length l) + 1));
      try lia; [done|]. by rewrite <-app_assoc.
  - destruct Hs as [Hc Hne]. destruct (N.ltb_spec max (N.of_nat (length line) + N.of_nat (length chunk))) as [Hm|Hm].
    + rewrite (split_line_app chunk) by done. destruct (split_line rest) as [[l r]|]; rewrite !length_app;
        (match goal with |- context [(max <? ?x)%N] => destruct (N.ltb_spec max x) end; [done|lia]).
    + destruct chunk as [|c chunk]; [done|]. rewrite IH; [|simpl in *; lia|by rewrite not_elem_of_app].
      unfold line_spec. rewrite <-app_assoc, (split_line_app line) by done. done.
  - destruct Hs as [Hc ->]. rewrite app_nil_r, (proj2 (split_line_none chunk)) by done. rewrite length_app.
    destruct (N.ltb_spec max (N.of_nat (length line) + N.of_nat (length chunk))), (N.ltb_spec max (N.of_nat (length line + length chunk))); try lia; done.
Qed.

Lemma bounded_line_spec input max : readBoundedLine input max = line_spec max input.
Proof. unfold readBoundedLine. rewrite bounded_loop_spec; [done|done|lia|set_solver]. Qed.

Section journal_spec.
Context {FO : FloatOps} {CD : Codec}.

(** ** The record loop *)

Definition read_from (off : Z) (input : bytes) : list journalRec * Z := read_recs (S (length input)) input off.

Lemma line_spec_rest max input l rest : line_spec max input = Line l rest → ∃ body, l = body ++ [c_nl] ∧ input = l ++ rest.
Proof.
  unfold line_spec. destruct (split_line input) as [[b r]|] eqn:Hs; [|by case_match].
  apply split_line_some in Hs as [-> _]. case_match; [done|]. intros [= <- <-]. exists b. by rewrite <-app_assoc.
Qed.

Lemma read_recs_fuel f1 f2 input off : length input < f1 → length input < f2 → read_recs f1 input off = read_recs f2 input off.
Proof.
  revert f2 input off. induction f1 as [|f1 IH]; intros [|f2] input off H1 H2; try lia. cbn [read_recs].
  rewrite bounded_line_spec. destruct (line_spec maxLine input) as [l rest|l|] eqn:Hs; [|done..].
  apply line_spec_rest in Hs as (b & -> & ->). rewrite !length_app in *. simpl in *.
  rewrite (IH f2) by lia. done.
Qed.

(** The loop, one line at a time. *)
Lemma read_from_eq off input :
  read_from off input =
  match split_line input with
  | None => ([], if (0 <? length input) then off else (-1)%Z)
  | Some (l, rest) =>
      if (maxLine <? N.of_nat (length l) + 1)%N then ([], off)
      else let off' := (off + Z.of_nat (length l) + 1)%Z in
           if 0 <? length l then
             match unmarshal_rec l with
             | None => ([], off)
             | Some r => let '(ops, t) := read_from off' rest in (r :: ops, t)
             end
           else read_from off' rest
  end.
Proof.
  unfold read_from at 1. cbn [read_recs]. rewrite bounded_line_spec. unfold line_spec.
  destruct (split_line input) as [[l rest]|] eqn:Hs.
  - destruct (maxLine <? _)%N; [done|]. rewrite length_app. simpl. replace (length l + 1 - 1) with (length l) by lia.
    rewrite take_app_length. apply split_line_some in Hs as [-> _].
    replace (off + Z.of_nat (length l + 1))%Z with (off + Z.of_nat (length l) + 1)%Z by lia. unfold read_from.
    rewrite !(read_recs_fuel (length (l ++ c_nl :: rest)) (S (length rest))) by (rewrite ?length_app; simpl; lia). done.
  - destruct (N.ltb_spec maxLine (N.of_nat (length input))); [|done]. destruct (Nat.ltb_spec 0 (length input)); [done|lia].
Qed.

(** A clean prefix is read whole, and the rest from its end. *)
Lemma read_from_app off c d ops :
  (0 <= off)%Z → read_from off c = (ops, (-1)%Z) →
  read_from off (c ++ d) = let '(ops', t) := read_from (off + Z.of_nat (length c)) d in (ops ++ ops', t).
Proof.
  revert off ops. induction c as [c IH] using list_len_ind. intros off ops Hoff. rewrite read_from_eq.
  destruct (split_line c) as [[l rest]|] eqn:Hs.
  - apply split_line_some in Hs as [-> Hl]. rewrite <-app_assoc. cbn [app].
    rewrite (read_from_eq off (l ++ c_nl :: rest ++ d)), (proj2 (split_line_some _ l (rest ++ d))) by done.
    destruct (maxLine <? _)%N; [intros [= _ ->]; lia|]. rewrite length_app. cbn [length].
    replace (off + Z.of_nat (length l + S (length rest)))%Z with (off + Z.of_nat (length l) + 1 + Z.of_nat (length rest))%Z by lia.
    assert (length rest < length (l ++ c_nl :: rest)) as Hlt by (rewrite length_app; simpl; lia).
    destruct (0 <? length l); [|intros Hr; apply (IH rest Hlt _ ops); [lia|exact Hr]].
    destruct (unmarshal_rec l) as [r|]; [|intros [= _ ->]; lia].
    destruct (read_from _ rest) as [ops1 t1] eqn:Hr. intros [= <- ->].
    rewrite (IH rest Hlt _ ops1) by (done || lia). by destruct (read_from _ d).
  - destruct (Nat.ltb_spec 0 (length c)); [intros [= _ ->]; lia|]. intros [= <-].
    assert (c = []) as -> by (destruct c; [done|simpl in *; lia]). simpl. rewrite Z.add_0_r. by destruct (read_from off d).
Qed.

(** The torn offset is where the clean part ends. *)
Lemma read_from_torn off c ops t :
  (0 <= off)%Z → read_from off c = (ops, t) → t ≠ (-1)%Z →
  (off <= t < off + Z.of_nat (length c))%Z ∧ read_from off (take (Z.to_nat (t - off)) c) = (ops, (-1)%Z).
Proof.
  revert off ops t. induction c as [c IH] using list_len_ind. intros off ops t Hoff. rewrite read_from_eq.
  assert (∀ n : nat, length c ≠ 0 → t = off → (off ≤ t < off + Z.of_nat (length c))%Z ∧
    read_from off (take (Z.to_nat (t - off)) c) = ([], (-1)%Z)) as Hhere.
  { intros _ Hne ->. split; [lia|]. by rewrite Z.sub_diag. }
  destruct (split_line c) as [[l rest]|] eqn:Hs.
  - apply split_line_some in Hs as [-> Hl]. rewrite length_app in Hhere |- *. cbn [length] in Hhere |- *.
    destruct (maxLine <? _)%N eqn:Hmax; [intros [= <- <-] _; apply (Hhere 0); [lia|done]|].
    assert (∀ ops1 t1, read_from (off + Z.of_nat (length l) + 1) rest = (ops1, t1) → t1 ≠ (-1)%Z →
      (off ≤ t1 < off + Z.of_nat (length l + S (length rest)))%Z ∧
      ∃ k, take (Z.to_nat (t1 - off)) (l ++ c_nl :: rest) = l ++ c_nl :: take k rest ∧
        read_from (off + Z.of_nat (length l) + 1) (take k rest) = (ops1, (-1)%Z)) as Hrec.
    { intros ops1 t1 Hr Ht. apply IH in Hr as [Hb Hr]; [|rewrite length_app; simpl; lia|lia|done]. split; [lia|].
      eexists. split; [|exact Hr]. rewrite take_app_ge by lia. f_equal.
      replace (Z.to_nat (t1 - off) - length l) with (S (Z.to_nat (t1 - (off + Z.of_nat (length l) + 1)))) by lia. done. }
    destruct (0 <? length l) eqn:Hlen.
    + destruct (unmarshal_rec l) as [r|] eqn:Hu; [|intros [= <- <-] _; apply (Hhere 0); [lia|done]].
      destruct (read_from _ rest) as [ops1 t1] eqn:Hr. intros [= <- <-] Ht.
      destruct (Hrec _ _ eq_refl Ht) as (Hb & k & -> & Hk). split; [done|]. rewrite read_from_eq.
      rewrite (proj2 (split_line_some _ l (take k rest))) by done. rewrite Hmax, Hlen, Hu. cbv zeta. by rewrite Hk.
    + intros Hr Ht. destruct (Hrec _ _ Hr Ht) as (Hb & k & -> & Hk). split; [done|]. rewrite read_from_eq.
      rewrite (proj2 (split_line_some _ l (take k rest))) by done. rewrite Hmax, Hlen. cbv zeta. by rewrite Hk.
  - destruct (Nat.ltb_spec 0 (length c)); [|by intros [= _ <-]]. intros [= <- <-] _. apply (Hhere 0); [lia|done].
Qed.

(** ** What an append writes *)

Definition stable_rec (r : journalRec) : Prop := ∃ b, marshal_rec r = Some b ∧ unmarshal_rec b = Some r.

Lemma encode_rec_line r line : encode_line (rec_id r) (marshal_rec r) = Ok line → stable_rec r →
  ∃ b, line = b ++ [c_nl] ∧ b ≠ [] ∧ c_nl ∉ b ∧ (maxLine <? N.of_nat (length b) + 1)%N = false ∧ unmarshal_rec b = Some r.
Proof.
  intros H (b & Hm & Hu). unfold encode_line in H. rewrite Hm in H. destruct (maxLine <? _)%N eqn:Hmax; [done|].
  injection H as <-. destruct (marshal_rec_line r b Hm). by exists b.
Qed.

Lemma read_from_line off b r rest : b ≠ [] → c_nl ∉ b → (maxLine <? N.of_nat (length b) + 1)%N = false → unmarshal_rec b = Some r →
  read_from off (b ++ c_nl :: rest) = let '(ops, t) := read_from (off + Z.of_nat (length b) + 1) rest in (r :: ops, t).
Proof.
  intros Hne Hn Hmax Hu. rewrite read_from_eq, (proj2 (split_line_some _ b rest)) by done. rewrite Hmax, Hu. cbv zeta.
  destruct (Nat.ltb_spec 0 (length b)); [done|]. destruct b; [done|simpl in *; lia].
Qed.

(** Any prefix of an append reads as its whole records. *)
Lemma read_from_prefix off rs enc n :
  encode_recs rs = Ok enc → Forall stable_rec rs →
  ∃ k t, read_from off (take n enc) = (take k rs, t) ∧ (length enc ≤ n → k = length rs ∧ t = (-1)%Z).
Proof.
  intros He Hst. revert off n enc He. induction Hst as [|r rs Hr Hst IH]; intros off n enc; cbn [encode_recs].
  { intros [= <-]. rewrite take_nil. by exists 0, (-1)%Z. }
  intros (line & Hl & (rest & Hrest & [= <-])%bind_ok)%bind_ok.
  destruct (encode_rec_line r line Hl Hr) as (b & -> & Hne & Hn & Hmax & Hu).
  rewrite <-app_assoc, length_app. cbn [app length]. destruct (decide (length b < n)) as [Hlt|Hge].
  - rewrite take_app_ge by lia. replace (n - length b) with (S (n - length b - 1)) by lia. cbn [take].
    rewrite (read_from_line off b r) by done.
    destruct (IH (off + Z.of_nat (length b) + 1)%Z (n - length b - 1) rest Hrest) as (k & t & -> & Hk).
    exists (S k), t. split; [done|]. intros Hge. destruct Hk as [-> ->]; [lia|]. done.
  - rewrite take_app_le by lia. exists 0. eexists. rewrite read_from_eq.
    rewrite (proj2 (split_line_none _)); [split; [done|lia]|].
    intros Hin. apply Hn. by eapply elem_of_sublist; [exact Hin|apply sublist_take].
Qed.

(** A journal the Store writes never starts with a blank line, so a file without
    records is empty once its tail is cut. *)
Definition clean_head (c : bytes) : Prop := head c ≠ Some c_nl.

Lemma clean_head_first c n : clean_head c → clean_head (take n c).
Proof. by destruct c, n. Qed.
Lemma clean_head_append c rs enc n : clean_head c → encode_recs rs = Ok enc → clean_head (c ++ take n enc).
Proof.
  unfold clean_head. destruct c as [|x c]; [intros _|done]. destruct rs as [|r rs]; cbn [encode_recs].
  { intros [= <-]. by rewrite take_nil. }
  intros (line & Hl & (rest & _ & [= <-])%bind_ok)%bind_ok. unfold encode_line in Hl.
  destruct (marshal_rec r) as [b|] eqn:Hm; [|done]. destruct (maxLine <? _)%N; [done|]. injection Hl as <-.
  destruct (marshal_rec_line r b Hm) as [Hne Hn]. destruct b as [|x b], n; [done..|]. simpl. set_solver.
Qed.
Lemma clean_head_torn c t : clean_head c → readJournal c = ([], t) → c = [] ∨ t = 0%Z.
Proof.
  unfold clean_head. intros Hh Hr. change (read_from 0 c = ([], t)) in Hr. rewrite read_from_eq in Hr.
  destruct (split_line c) as [[l rest]|] eqn:Hs.
  - apply split_line_some in Hs as [-> _]. destruct l as [|x l]; [done|]. right.
    destruct (maxLine <? _)%N; [by injection Hr|]. cbn [length Nat.ltb Nat.leb] in Hr.
    destruct (unmarshal_rec _); [|by injection Hr]. by destruct (read_from _ rest).
  - injection Hr as <-. destruct c; [by left|by right].
Qed.

(** C21: a torn append costs only what was not acknowledged.  Let a journal file read
    cleanly as some records, and let a crash leave any prefix of an append of records
    that decode to themselves ([stable_rec]: json.Unmarshal of what json.Marshal writes
    gives the record back, as for payloads that are already compact and HTML-escaped)
    after it.  Then reading recovers those records and the whole ones of the prefix -
    all of them when the append was complete; and cutting the file at the reported
    offset makes it clean, with the same records, every acknowledged byte kept, and
    appending again is safe: nothing is ever glued to a torn line. *)
Theorem journal_recovers content ops rs enc n :
  readJournal content = (ops, (-1)%Z) → encode_recs rs = Ok enc → Forall stable_rec rs →
  ∃ k t, readJournal (content ++ take n enc) = (ops ++ take k rs, t) ∧
    (length enc ≤ n → k = length rs ∧ t = (-1)%Z) ∧
    let kept := if (t =? -1)%Z then content ++ take n enc else take (Z.to_nat t) (content ++ take n enc) in
    content `prefix_of` kept ∧ readJournal kept = (ops ++ take k rs, (-1)%Z) ∧
    ∀ rs' enc', encode_recs rs' = Ok enc' → Forall stable_rec rs' →
      readJournal (kept ++ enc') = (ops ++ take k rs ++ rs', (-1)%Z).
Proof.
  intros Hc He Hst. change (read_from 0 content = (ops, (-1)%Z)) in Hc.
  destruct (read_from_prefix (0 + Z.of_nat (length content)) rs enc n He Hst) as (k & t & Hr & Hfull).
  pose proof (read_from_app 0 content (take n enc) ops ltac:(lia) Hc) as Happ. rewrite Hr in Happ.
  exists k, t. split; [exact Happ|]. split; [exact Hfull|]. intros kept.
  assert (content `prefix_of` kept ∧ read_from 0 kept = (ops ++ take k rs, (-1)%Z)) as [Hpre Hkept].
  { unfold kept. destruct (Z.eqb_spec t (-1)) as [->|Ht]; [split; [by exists (take n enc)|done]|].
    destruct (read_from_torn (0 + Z.of_nat (length content)) _ _ _ ltac:(lia) Hr Ht) as [Hb _].
    destruct (read_from_torn 0 _ _ _ ltac:(lia) Happ Ht) as [_ Hk]. rewrite Z.sub_0_r in Hk. split; [|done].
    rewrite take_app_ge by lia. by eexists. }
  split; [done|]. split; [exact Hkept|]. intros rs' enc' He' Hst'.
  change (read_from 0 (kept ++ enc') = (ops ++ take k rs ++ rs', (-1)%Z)).
  rewrite (read_from_app 0 kept enc' _ ltac:(lia) Hkept).
  destruct (read_from_prefix (0 + Z.of_nat (length kept)) rs' enc' (length enc') He' Hst') as (k' & t' & Hr' & Hf).
  destruct (Hf ltac:(lia)) as [-> ->]. rewrite firstn_all in Hr'. rewrite Hr'. rewrite firstn_all. by rewrite <-app_assoc.
Qed.

(** ** The base file *)

Definition stable_entry (e : Entry) : Prop := ∃ b, marshal_entry e = Some b ∧ unmarshal_entry b = Some e.

Lemma drop_cr_id b : c_cr ∉ b → drop_cr b = b.
Proof.
  intros H. unfold drop_cr. destruct (last b) as [c|] eqn:Hl; [|done]. destruct (N.eqb_spec c c_cr) as [->|]; [|done].
  apply last_Some_elem_of in Hl. done.
Qed.

Lemma read_entries_encode fuel ln es content :
  encode_base es = Ok content → Forall stable_entry es → length content < fuel → read_entries fuel ln content = Ok es.
Proof.
  intros He Hst. revert fuel ln content He. induction Hst as [|e es (b & Hm & Hu) _ IH]; intros [|fuel] ln content He Hf; try lia.
  { injection He as <-. done. }
  cbn [encode_base] in He. apply bind_ok in He as (line & Hl & (rest & Hrest & [= <-])%bind_ok). unfold encode_line in Hl.
  rewrite Hm in Hl. destruct (maxLine <? _)%N eqn:Hmax; [done|]. injection Hl as <-.
  destruct (marshal_entry_line e b Hm) as (Hne & Hnl & Hcr). rewrite <-app_assoc in *. cbn [app] in *.
  cbn [read_entries]. unfold scan_line. rewrite (proj2 (split_line_some _ b rest)), Hmax, drop_cr_id by done.
  destruct (Nat.ltb_spec 0 (length b)); [|destruct b; simpl in *; [done|lia]].
  rewrite Hu, (IH fuel (S ln) rest Hrest); [done|]. rewrite length_app in Hf. simpl in Hf. lia.
Qed.

Lemma read_base_encode es content : encode_base es = Ok content → Forall stable_entry es → readBase content = Ok es.
Proof. intros He Hst. apply read_entries_encode; [done|done|lia]. Qed.
End journal_spec.
