(* ===== verification/Disk.v ===== *)
(** The directory of one list and the system calls of [engine/store.go] on it,
    under faults.

    A directory maps file names to contents.  Every call takes one outcome from a
    given sequence: it works, it fails (a write may have reached the file in part),
    or the process dies in it.  A sequence that has run out lets every call work;
    so a theorem over all sequences speaks about every crash point and every
    combination of failing calls.  A crash before a call is [Crashes 0] of it.

    What power loss can do to completed calls that were not fsynced is not
    represented: the model is that of a process crash. *)

From S2P Require Import Prelude.

Abbreviation dir := (@gmap (list N) (@list_eq_dec N N.eq_dec) (@list_countable N N.eq_dec N_countable) (list N)).

Inductive fault := Works | Fails (written : nat) | Crashes (written : nat).

Inductive os_error := NotExist | OtherError.

(** How a computation ends: with a value, an error, or the death of the process. *)
Inductive outcome (E A : Type) := Ret (a : A) | Fail (e : E) | Dead.
Arguments Ret {E A} a.
Arguments Fail {E A} e.
Arguments Dead {E A}.

Section io.
Context {E S : Type}.

(** The state: the directory, the outcomes to come, and the memory. *)
Record world := mkWorld { w_dir : dir; w_faults : list fault; w_mem : S }.

Definition io (A : Type) : Type := world → outcome E A * world.
#[global] Instance io_ret : MRet io := λ A a w, (Ret a, w).
#[global] Instance io_bind : MBind io := λ A B f m w,
  match m w with
  | (Ret a, w) => f a w
  | (Fail e, w) => (Fail e, w)
  | (Dead, w) => (Dead, w)
  end.
Definition throw {A} (e : E) : io A := λ w, (Fail e, w).
Definition get_mem : io S := λ w, (Ret (w_mem w), w).
Definition put_mem (f : S → S) : io () := λ w, (Ret (), mkWorld (w_dir w) (w_faults w) (f (w_mem w))).

(** One system call: its effect, and what reaches the disk when it does not
    complete. *)
Definition syscall {A} (run : dir → result os_error A * dir) (partial : nat → dir → dir) : io (result os_error A) := λ w,
  match w_faults w with
  | [] => let '(r, d) := run (w_dir w) in (Ret r, mkWorld d [] (w_mem w))
  | Works :: fs => let '(r, d) := run (w_dir w) in (Ret r, mkWorld d fs (w_mem w))
  | Fails n :: fs => (Ret (Err OtherError), mkWorld (partial n (w_dir w)) fs (w_mem w))
  | Crashes n :: fs => (Dead, mkWorld (partial n (w_dir w)) fs (w_mem w))
  end.

Definition no_effect (_ : nat) (d : dir) : dir := d.

(** [os.Stat]: only existence is used. *)
Definition stat (f : bytes) : io (result os_error N) :=
  syscall (λ d, (match d !! f with Some c => Ok (N.of_nat (length c)) | None => Err NotExist end, d)) no_effect.
(** [os.ReadFile], and [os.Open] with reading to the end. *)
Definition read_file (f : bytes) : io (result os_error bytes) :=
  syscall (λ d, (match d !! f with Some c => Ok c | None => Err NotExist end, d)) no_effect.
Definition remove (f : bytes) : io (result os_error ()) :=
  syscall (λ d, match d !! f with Some _ => (Ok (), delete f d) | None => (Err NotExist, d) end) no_effect.
Definition rename (f g : bytes) : io (result os_error ()) :=
  syscall (λ d, match d !! f with Some c => (Ok (), <[g := c]> (delete f d)) | None => (Err NotExist, d) end) no_effect.
Definition truncate (f : bytes) (n : nat) : io (result os_error ()) :=
  syscall (λ d, match d !! f with
                | Some c => (Ok (), <[f := take n c ++ replicate (n - length c) 0%N]> d)
                | None => (Err NotExist, d)
                end) no_effect.
(** [os.OpenFile] with [O_APPEND|O_CREATE]. *)
Definition open_append (f : bytes) : io (result os_error ()) :=
  syscall (λ d, (Ok (), <[f := default [] (d !! f)]> d)) no_effect.
(** [File.Seek] to the end. *)
Definition seek_end (f : bytes) : io (result os_error nat) :=
  syscall (λ d, (Ok (length (default [] (d !! f))), d)) no_effect.
(** [File.Write] at the end of the file. *)
Definition append (f data : bytes) (d : dir) : dir := <[f := default [] (d !! f) ++ data]> d.
Definition write (f data : bytes) : io (result os_error ()) :=
  syscall (λ d, (Ok (), append f data d)) (λ n d, append f (take n data) d).
(** [File.Sync], [File.Close] and the fsync of a directory have no effect a process
    crash could undo. *)
Definition flush : io (result os_error ()) := syscall (λ d, (Ok (), d)) no_effect.

(** [os.CreateTemp]: a name no file has. *)
Definition temp_name (prefix : bytes) (d : dir) : bytes :=
  prefix ++ replicate (foldr Nat.max 0 (length <$> (map_to_list d).*1)) c_zero.
Definition create_temp (prefix : bytes) : io (result os_error bytes) :=
  syscall (λ d, (Ok (temp_name prefix d), <[temp_name prefix d := []]> d)) no_effect.

(** [if err := call; err != nil { return err }] *)
Definition or_fail {A} (wrap : os_error → E) (m : io (result os_error A)) : io A :=
  r ← m; match r with Ok a => mret a | Err e => throw (wrap e) end.

(** The value or error of a computation, as a value; death is not caught. *)
Definition try {A} (m : io A) : io (result E A) := λ w,
  match m w with
  | (Ret a, w) => (Ret (Ok a), w)
  | (Fail e, w) => (Ret (Err e), w)
  | (Dead, w) => (Dead, w)
  end.
Definition of_result {A} (r : result E A) : io A := match r with Ok a => mret a | Err e => throw e end.
(** [defer]: the cleanup runs whatever the outcome. *)
Definition deferred {A B} (m : io A) (cleanup : io B) : io A := r ← try m; _ ← cleanup; of_result r.
End io.
Arguments world S : clear implicits.
Arguments io E S A : clear implicits.

(** ** Weakest preconditions

    [wp m Q X D d s]: from the directory [d] and the memory [s], whatever calls fail,
    a value satisfies [Q], an error [X], and the directory a death leaves [D]. *)

Section wp.
Context {E S : Type}.
Implicit Types (X : E → dir → S → Prop) (D : dir → Prop) (d : dir) (s : S) (e : E).

Definition wp {A} (m : io E S A) (Q : A → dir → S → Prop) X D (d : dir) (s : S) : Prop :=
  ∀ fs, match m (mkWorld d fs s) with
        | (Ret a, w) => Q a (w_dir w) (w_mem w)
        | (Fail e, w) => X e (w_dir w) (w_mem w)
        | (Dead, w) => D (w_dir w)
        end.

Lemma wp_ret {A} (a : A) (Q : A → dir → S → Prop) X D d s : Q a d s → wp (mret a) Q X D d s.
Proof. intros H fs. exact H. Qed.
Lemma wp_throw {A} e (Q : A → dir → S → Prop) X D d s : X e d s → wp (throw e) Q X D d s.
Proof. intros H fs. exact H. Qed.
Lemma wp_get_mem (Q : S → dir → S → Prop) X D d s : Q s d s → wp get_mem Q X D d s.
Proof. intros H fs. exact H. Qed.
Lemma wp_put_mem f (Q : () → dir → S → Prop) X D d s : Q () d (f s) → wp (put_mem f) Q X D d s.
Proof. intros H fs. exact H. Qed.

Lemma wp_bind {A B} (m : io E S A) (f : A → io E S B) Q X D d s :
  wp m (λ a, wp (f a) Q X D) X D d s → wp (m ≫= f) Q X D d s.
Proof.
  intros H fs. specialize (H fs). unfold mbind, io_bind. destruct (m _) as [[a|e|] [d' fs' s']]; simpl in *; [|done..].
  apply H.
Qed.

Lemma wp_mono {A} (m : io E S A) (Q Q' : A → dir → S → Prop) X X' D D' d s :
  wp m Q X D d s → (∀ a d s, Q a d s → Q' a d s) → (∀ e d s, X e d s → X' e d s) → (∀ d, D d → D' d) →
  wp m Q' X' D' d s.
Proof. intros H HQ HX HD fs. specialize (H fs). destruct (m _) as [[]]; auto. Qed.

Lemma wp_syscall {A} (run : dir → result os_error A * dir) partial (Q : result os_error A → dir → S → Prop) X D d s :
  (let '(r, d') := run d in Q r d' s) → (∀ n, Q (Err OtherError) (partial n d) s) → (∀ n, D (partial n d)) →
  wp (syscall run partial) Q X D d s.
Proof.
  intros H1 H2 H3 fs. unfold syscall. simpl. destruct fs as [|[|n|n] fs]; simpl; [destruct (run d); apply H1..|apply H2|apply H3].
Qed.

Lemma wp_or_fail {A} wrap (m : io E S (result os_error A)) (Q : A → dir → S → Prop) X D d s :
  wp m (λ r d s, match r with Ok a => Q a d s | Err e => X (wrap e) d s end) X D d s → wp (or_fail wrap m) Q X D d s.
Proof.
  intros H. apply wp_bind. eapply wp_mono; [exact H| |done|done]. intros [a|e] d' s'; [apply wp_ret|apply wp_throw].
Qed.

Lemma wp_try {A} (m : io E S A) (Q : result E A → dir → S → Prop) X D d s :
  wp m (λ a, Q (Ok a)) (λ e, Q (Err e)) D d s → wp (try m) Q X D d s.
Proof. intros H fs. specialize (H fs). unfold try. by destruct (m _) as [[]]. Qed.

Lemma wp_of_result {A} (r : result E A) (Q : A → dir → S → Prop) X D d s :
  (match r with Ok a => Q a d s | Err e => X e d s end) → wp (of_result r) Q X D d s.
Proof. intros H fs. by destruct r. Qed.

Lemma wp_deferred {A B} (m : io E S A) (c : io E S B) (Q : A → dir → S → Prop) X D d s :
  wp m (λ a, wp c (λ _, Q a) (λ _ _ _, False) D) (λ e, wp c (λ _, X e) (λ _ _ _, False) D) D d s → wp (deferred m c) Q X D d s.
Proof.
  intros H. apply wp_bind, wp_try. eapply wp_mono; [exact H| | |done].
  - intros a d1 s1 H1. apply wp_bind. eapply wp_mono; [exact H1| |by intros|done]. intros b d2 s2 HQ. by apply wp_ret.
  - intros e d1 s1 H1. apply wp_bind. eapply wp_mono; [exact H1| |by intros|done]. intros b d2 s2 HQ. by apply wp_throw.
Qed.

(** Calls that leave the directory as it is. *)
Lemma wp_quiet {A} (r : result os_error A) (Q : result os_error A → dir → S → Prop) X D d s :
  Q r d s → Q (Err OtherError) d s → D d → wp (syscall (λ d, (r, d)) no_effect) Q X D d s.
Proof. intros. apply wp_syscall; auto. Qed.

(** [runs m Q X d s]: without faults, a value satisfies [Q] and an error [X]. *)
Definition runs {A} (m : io E S A) (Q : A → dir → S → Prop) X (d : dir) (s : S) : Prop :=
  match m (mkWorld d [] s) with
  | (Ret a, w) => w_faults w = [] ∧ Q a (w_dir w) (w_mem w)
  | (Fail e, w) => w_faults w = [] ∧ X e (w_dir w) (w_mem w)
  | (Dead, _) => False
  end.
Lemma runs_ret {A} (a : A) (Q : A → dir → S → Prop) X d s : Q a d s → runs (mret a) Q X d s.
Proof. done. Qed.
Lemma runs_throw {A} e (Q : A → dir → S → Prop) X d s : X e d s → runs (throw e) Q X d s.
Proof. done. Qed.
Lemma runs_put_mem f (Q : () → dir → S → Prop) X d s : Q () d (f s) → runs (put_mem f) Q X d s.
Proof. done. Qed.
Lemma runs_bind {A B} (m : io E S A) (f : A → io E S B) (Q : B → dir → S → Prop) X d s :
  runs m (λ a, runs (f a) Q X) X d s → runs (m ≫= f) Q X d s.
Proof.
  unfold runs at 1 3, mbind, io_bind. destruct (m _) as [[a|e|] [d' fs' s']]; simpl; [|done..]. by intros [-> H].
Qed.
Lemma runs_mono {A} (m : io E S A) (Q Q' : A → dir → S → Prop) X X' d s :
  runs m Q X d s → (∀ a d s, Q a d s → Q' a d s) → (∀ e d s, X e d s → X' e d s) → runs m Q' X' d s.
Proof. unfold runs. intros H HQ HX. destruct (m _) as [[]]; naive_solver. Qed.
Lemma runs_syscall {A} (run : dir → result os_error A * dir) partial (Q : result os_error A → dir → S → Prop) X d s :
  (let '(r, d') := run d in Q r d' s) → runs (syscall run partial) Q X d s.
Proof. intros H. unfold runs, syscall. simpl. by destruct (run d). Qed.
Lemma runs_or_fail {A} wrap (m : io E S (result os_error A)) (Q : A → dir → S → Prop) X d s :
  runs m (λ r d s, match r with Ok a => Q a d s | Err e => X (wrap e) d s end) X d s → runs (or_fail wrap m) Q X d s.
Proof. intros H. apply runs_bind. eapply runs_mono; [exact H| |done]. by intros [a|e]. Qed.
Lemma runs_try {A} (m : io E S A) (Q : result E A → dir → S → Prop) X d s :
  runs m (λ a, Q (Ok a)) (λ e, Q (Err e)) d s → runs (try m) Q X d s.
Proof. unfold runs, try. by destruct (m _) as [[]]. Qed.
Lemma runs_deferred {A B} (m : io E S A) (c : io E S B) (Q : A → dir → S → Prop) X d s :
  runs m (λ a, runs c (λ _, Q a) (λ _ _ _, False)) (λ e, runs c (λ _, X e) (λ _ _ _, False)) d s → runs (deferred m c) Q X d s.
Proof.
  intros H. apply runs_bind, runs_try. eapply runs_mono; [exact H| |].
  - intros a d1 s1 H1. apply runs_bind. eapply runs_mono; [exact H1|by intros|by intros].
  - intros e d1 s1 H1. apply runs_bind. eapply runs_mono; [exact H1|by intros|by intros].
Qed.
(** A fault-free run is one of the runs [wp] speaks about. *)
Lemma runs_wp {A} (m : io E S A) (Q Q' : A → dir → S → Prop) X X' D d s :
  runs m Q X d s → wp m Q' X' D d s → runs m (λ a d s, Q a d s ∧ Q' a d s) (λ e d s, X e d s ∧ X' e d s) d s.
Proof. unfold runs. intros H Hw. specialize (Hw []). destruct (m _) as [[]]; naive_solver. Qed.
Lemma runs_succeeds {A} (m : io E S A) (Q0 Q : A → dir → S → Prop) X D d s :
  runs m Q0 (λ _ _ _, False) d s → wp m Q X D d s → runs m (λ a d s, Q0 a d s ∧ Q a d s) (λ _ _ _, False) d s.
Proof. unfold runs. intros H Hw. specialize (Hw []). destruct (m _) as [[]]; naive_solver. Qed.

(** Without faults no computation dies; [settles] is closed under the combinators. *)
Definition settles {A} (m : io E S A) : Prop := ∀ d s, runs m (λ _ _ _, True) (λ _ _ _, True) d s.
Lemma settles_runs {A} (m : io E S A) (Q : A → dir → S → Prop) X d s : settles m → wp m Q X (λ _, True) d s → runs m Q X d s.
Proof. intros Hs Hw. eapply runs_mono; [eapply runs_wp; [apply Hs|exact Hw]|naive_solver..]. Qed.
Lemma settles_ret {A} (a : A) : settles (mret a).
Proof. by intros d s. Qed.
Lemma settles_throw {A} e : settles (throw e : io E S A).
Proof. by intros d s. Qed.
Lemma settles_bind {A B} (m : io E S A) (f : A → io E S B) : settles m → (∀ a, settles (f a)) → settles (m ≫= f).
Proof. intros Hm Hf d s. apply runs_bind. eapply runs_mono; [apply Hm|intros; apply Hf|done]. Qed.
Lemma settles_syscall {A} (run : dir → result os_error A * dir) partial : settles (syscall run partial : io E S _).
Proof. intros d s. apply runs_syscall. by destruct (run d). Qed.
Lemma settles_or_fail {A} wrap (m : io E S (result os_error A)) : settles m → settles (or_fail wrap m).
Proof. intros Hm. apply settles_bind; [done|]. intros [a|e]; [apply settles_ret|apply settles_throw]. Qed.
Lemma settles_try {A} (m : io E S A) : settles m → settles (try m).
Proof. intros Hm d s. apply runs_try. apply Hm. Qed.
Lemma settles_of_result {A} (r : result E A) : settles (of_result r : io E S A).
Proof. by destruct r; [apply settles_ret|apply settles_throw]. Qed.
End wp.

(** Programs without faults settle. *)
Ltac settles := repeat first
  [ apply settles_bind; [|intros ?] | apply settles_or_fail | apply settles_try | apply settles_of_result
  | apply settles_ret | apply settles_throw | apply settles_syscall | case_match ].

(** A fresh temporary name differs from every file's. *)
Lemma temp_name_fresh prefix d : prefix ≠ [] → d !! temp_name prefix d = None.
Proof.
  intros Hp. apply eq_None_not_Some. intros [c Hc]. apply elem_of_map_to_list in Hc.
  assert (temp_name prefix d ∈ (map_to_list d).*1) as Hin by (apply list_elem_of_fmap; by exists (temp_name prefix d, c)).
  apply (list_elem_of_fmap_2 length) in Hin. unfold temp_name in Hin at 1. rewrite length_app, length_replicate in Hin.
  assert (∀ n ns, n ∈ ns → n ≤ foldr Nat.max 0 ns) as Hmax.
  { intros n ns. induction ns as [|x ns IH]; [by intros ?%elem_of_nil|]. rewrite elem_of_cons. simpl. intros [->|?%IH]; lia. }
  apply Hmax in Hin. destruct prefix; [done|]. simpl in Hin. lia.
Qed.
Lemma temp_name_prefix prefix d : prefix `prefix_of` temp_name prefix d.
Proof. by eexists. Qed.
