(* ===== verification/Store.v ===== *)
(** The store of [engine/store.go]: one list directory with its mutations
    ([openList], [appendJournal], upsert, delete, replace, compact, create, reload),
    and the store over all lists.

    Locks are implicit: every operation runs alone on its list, as [listState.lock]
    makes it.  The index cache [base.idx] is read and written through the interface
    [ArtifactCodec]; nothing is assumed of it. *)

From S2P Require Import Prelude.
From S2P Require Import Runtime.
From S2P Require Import Analyzer.
From S2P Require Import Score.
From S2P Require Import Bitmap.
From S2P Require Import Types.
From S2P Require Import ListConfig.
From S2P Require Import Segment.
From S2P Require Import ListModel.
From S2P Require Import Journal.
From S2P Require Import Disk.
From S2P Require Ngram.
From S2P Require Exact.

Record artifactBuild := mkArtifactBuild { ab_BaseID : bytes; ab_Entries : Z; ab_DroppedKeys : Z; ab_KeylessEntries : Z }.

Class ArtifactCodec {BL : BitmapLib} {FO : FloatOps} := {
  save_ngram : Ngram.Index → bytes → artifactBuild → bytes;
  save_exact : Exact.Index → bytes → artifactBuild → bytes;
  load_ngram : bytes → option (Ngram.Index * bytes * option artifactBuild);
  load_exact : bytes → option (Exact.Index * bytes * option artifactBuild);
}.

(** ** File names *)

Definition configFile : bytes := $"config.json".
Definition baseFile : bytes := $"base.jsonl".
Definition idxFile : bytes := $"base.idx".
Definition journalFile : bytes := $"journal.jsonl".
Definition quarantineSuffix : bytes := $".quarantined".
Definition markerFile : bytes := $".creating".
Definition temp_base : bytes := $".base-".
Definition temp_cfg : bytes := $".cfg-".
Definition temp_idx : bytes := $".idx-".

(** [sweepTempFiles], best effort; the file names hold no glob characters. *)
Definition sweepTempFiles (d : dir) : dir :=
  filter (λ fc, ¬ (temp_base `prefix_of` fc.1 ∨ temp_cfg `prefix_of` fc.1 ∨ temp_idx `prefix_of` fc.1)) d.

Definition listNameRE (name : bytes) : bool :=
  let lower c := (97 <=? c)%N && (c <=? 122)%N || (48 <=? c)%N && (c <=? 57)%N in
  match name with
  | [] => false
  | c :: rest => lower c && (length rest <=? 63) && forallb (λ c, lower c || (c =? 95)%N || (c =? c_minus)%N) rest
  end.

Inductive FsyncMode := FsyncNone | FsyncEvery | FsyncInterval.
Inductive damageKind := damageNone | damageContent | damageCreate.
#[export] Instance damageKind_eq : EqDecision damageKind.
Proof. solve_decision. Defined.

Definition journal_domain : bytes := $"kurn journal v1" ++ [0%N].

Section store.
Context {RT : GoRuntime} {TL : TextLib} {BL : BitmapLib} {FO : FloatOps} {DL : DigestLib} {CD : Codec} {AC : ArtifactCodec}.

Inductive store_error :=
  | StoreClosed
  | StoreReadOnly (op name : bytes)
  | UnknownList (name : bytes)
  | BadName (name : bytes)
  | BadConfig (e : config_error)
  | ConfigUnreadable
  | MarkerPresent
  | BadBase (e : base_error)
  | ListFailed (e : list_error)
  | EncodeFailed (e : encode_error)
  | ListDamaged (k : damageKind)
  | ListReplaced (name : bytes)
  | JournalNotEmpty (name : bytes)
  | QuarantineFailed (e : list_error)
  | MarkerPublished (e : os_error)    (* atomicWritePublishedError *)
  | Os (e : os_error).

(** The list pointer (with the number of times it was set, its identity) and the
    damage. *)
Record listState := mkState { ls_l : option GoList; ls_id : nat; ls_damage : damageKind; autoCompacting : bool }.
Definition new_state : listState := mkState None 0 damageNone false.
Definition set_l (l : GoList) (ls : listState) : listState := mkState (Some l) (ls_id ls) (ls_damage ls) (autoCompacting ls).
Definition swap_l (l : GoList) (ls : listState) : listState := mkState (Some l) (S (ls_id ls)) (ls_damage ls) (autoCompacting ls).
Definition set_damage (k : damageKind) (ls : listState) : listState := mkState (ls_l ls) (ls_id ls) k (autoCompacting ls).
Definition set_compacting (b : bool) (ls : listState) : listState := mkState (ls_l ls) (ls_id ls) (ls_damage ls) b.

(** The memory of one list's operations: its state and the quarantine reports. *)
Record memory := mkMemory { m_ls : listState; m_quarantined : list (bytes * list_error) }.
Definition on_state (f : listState → listState) (m : memory) : memory := mkMemory (f (m_ls m)) (m_quarantined m).
Definition op : Type → Type := io store_error memory.

Definition setDamage (k : damageKind) : op () := put_mem (on_state (set_damage k)).
Definition getDamage : op damageKind := m ← get_mem; mret (ls_damage (m_ls m)).
Definition damageErr {A} : op A := k ← getDamage; throw (ListDamaged k).
Definition refuse_damaged (refused : damageKind → bool) : op () :=
  k ← getDamage; if refused k then damageErr else mret ().

(** [ls.l.Load()] *)
Definition load (name : bytes) : op GoList :=
  m ← get_mem; match ls_l (m_ls m) with Some l => mret l | None => throw (UnknownList name) end.
Definition update (f : GoList → GoList) : op () :=
  put_mem (on_state (λ ls, match ls_l ls with Some l => set_l (f l) ls | None => ls end)).

(** A call of a list mutator on the served list. *)
Definition on_list {A} (name : bytes) (f : list_op A) : op A :=
  l ← load name;
  let '(r, l') := f l in
  _ ← update (λ _, l');
  match r with Ok a => mret a | Err e => throw (ListFailed e) end.
Definition of_list {A} (r : result list_error A) : op A := match r with Ok a => mret a | Err e => throw (ListFailed e) end.

(** ** Writing files *)

(** [syncPath]: open, fsync, close. *)
Definition syncPath (f : bytes) : op () :=
  _ ← or_fail Os (stat f); _ ← or_fail Os flush; or_fail Os flush.
Definition syncPath_journal : op () := syncPath journalFile.
Definition syncDir : op () := _ ← or_fail Os flush; _ ← or_fail Os flush; or_fail Os flush.

(** [writeFileAtomic] *)
Definition writeFileAtomic (f data : bytes) : op () :=
  tmp ← or_fail Os (create_temp temp_cfg);
  deferred
    (_ ← or_fail Os (write tmp data); _ ← or_fail Os flush; _ ← or_fail Os flush;
     _ ← or_fail Os (rename tmp f);
     r ← try syncDir; match r with Ok _ => mret () | Err (Os e) => throw (MarkerPublished e) | Err e => throw e end)
    (remove tmp).

Definition of_encode {A} (r : result encode_error A) : op A := match r with Ok a => mret a | Err e => throw (EncodeFailed e) end.

(** [writeBaseTemp]: the buffered writes are one write; the temporary file is
    removed on an error. *)
Definition writeBaseTemp (es : list Entry) : op (bytes * bytes) :=
  tmp ← or_fail Os (create_temp temp_base);
  r ← try (content ← of_encode (encode_base es); _ ← or_fail Os (write tmp content); _ ← or_fail Os flush;
           _ ← or_fail Os flush; mret (tmp, baseIDFromHash content));
  match r with
  | Ok x => mret x
  | Err e => _ ← flush; _ ← remove tmp; throw e
  end.

(** [persistBase]: the identity and whether the base was published; the error is a
    value, as the caller looks at both. *)
Definition persistBase (es : list Entry) : op (bool * result store_error bytes) :=
  t ← try (writeBaseTemp es);
  match t with
  | Err e => mret (false, Err e)
  | Ok (tmp, id) =>
      deferred
        (r ← remove idxFile;
         match r with
         | Err OtherError => mret (false, Err (Os OtherError))
         | _ =>
             r ← rename tmp baseFile;
             match r with
             | Err e => mret (false, Err (Os e))
             | Ok _ => r ← try syncDir; mret (true, match r with Ok _ => Ok id | Err e => Err e end)
             end
         end)
        (remove tmp)
  end.

(** ** The index cache *)

(** [AnalyzerSpecDigest] *)
Definition AnalyzerSpecDigest (an : Analyzer) : bytes := hex (sha256 (Steps an ≫= length_prefixed)).

Definition buildInfo (b : artifactBuild) : IndexBuildInfo := mkBuildInfo (ab_Entries b) (ab_DroppedKeys b) (ab_KeylessEntries b).

(** [artifact.Save] and [artifact.SaveExact]: temporary file, fsync, rename. *)
Definition save_file (data : bytes) : op () :=
  tmp ← or_fail Os (create_temp temp_idx);
  deferred (_ ← or_fail Os (write tmp data); _ ← or_fail Os flush; _ ← or_fail Os flush; or_fail Os (rename tmp idxFile))
    (remove tmp).

(** [saveArtifact]; a failure is only reported. *)
Definition saveArtifact (l : GoList) (ng : option Ngram.Index) (ex : option Exact.Index) : op () :=
  let digest := AnalyzerSpecDigest (l_an l) in
  let '(dropped, keyless) := BuildStats l in
  let build := mkArtifactBuild (BaseIDForArtifact l) (Stats l).1.1 dropped keyless in
  match ng, ex with
  | Some i, _ => _ ← try (save_file (save_ngram i digest build)); mret ()
  | None, Some i => _ ← try (save_file (save_exact i digest build)); mret ()
  | None, None => mret ()
  end.

(** The digest and identity checks shared by both kinds. *)
Definition artifact_fits (l : GoList) (digest : bytes) (build : option artifactBuild) : option artifactBuild :=
  b ← build;
  if negb (bool_decide (digest = [])) && bool_decide (digest = AnalyzerSpecDigest (l_an l)) &&
     bool_decide (ab_BaseID b = BaseIDForArtifact l) then Some b else None.

(** [installWithArtifact] on the content of [base.idx]: the list on success. *)
Definition install_artifact (l : GoList) (es : list Entry) (idx : bytes) : option GoList :=
  if bool_decide (Mode (mode_of l) = m_exact) then
    '(i, digest, build) ← load_exact idx; b ← artifact_fits l digest build;
    match ReplaceWithExactIndexInfo es (Some i) (Some (buildInfo b)) l with (Ok _, l') => Some l' | _ => None end
  else if negb (bool_decide (Mode (mode_of l) = m_ngram)) then None else
    '(i, digest, build) ← load_ngram idx; b ← artifact_fits l digest build;
    if bool_decide (Ngram.Grams (Ngram.cfg i) = mc_Grams (mode_of l)) &&
       Bool.eqb (Ngram.StripSpaces (Ngram.cfg i)) (mc_StripSpaces (mode_of l)) then
      match ReplaceWithIndexInfo es (Some i) (Some (buildInfo b)) l with (Ok _, l') => Some l' | _ => None end
    else None.
Definition installWithArtifact (l : GoList) (es : list Entry) : op (option GoList) :=
  r ← read_file idxFile;
  mret (match r with Ok idx => install_artifact l es idx | Err _ => None end).

(** ** Opening *)

Definition quarantine (name : bytes) (e : list_error) : op () :=
  put_mem (λ m, mkMemory (m_ls m) (m_quarantined m ++ [(name, e)])).

(** The read of a file that may be absent. *)
Definition read_optional (f : bytes) : op (option bytes) :=
  r ← read_file f;
  match r with Ok c => mret (Some c) | Err NotExist => mret None | Err e => throw (Os e) end.

(** Installing the base of [openList]: through the artifact, or by a full build
    that then heals the artifact. *)
Definition open_base (l : GoList) : op GoList :=
  base_content ← read_optional baseFile;
  match base_content with
  | None =>
      let '(_, l) := SetBaseID ($"empty") l in
      mret (stampFresh l)
  | Some content =>
      match readBase content with
      | Err e => throw (BadBase e)
      | Ok es =>
          let '(_, l) := SetBaseID (baseIDFromHash content) l in
          inst ← installWithArtifact l es;
          match inst with
          | Some l => mret l
          | None =>
              match Replace es l with
              | (Err e, _) => throw (ListFailed e)
              | (Ok _, l) =>
                  _ ← match base (snap l) with Some seg => saveArtifact l (ng seg) (ex seg) | None => mret () end;
                  mret l
              end
          end
      end
  end.

(** The replay of [openList] over the hashed journal, and the quarantine of a
    journal that cannot be applied. *)
Definition replay_journal (name : bytes) (ops : list journalRec) (jh : bytes) (l : GoList) : op GoList :=
  let l := setJournalHash (Some (journal_domain ++ jh)) l in
  if 0 <? length ops then
    match applyJournalLocked ops (Z.of_nat (length jh)) l with
    | (Ok _, l) => mret l
    | (Err e, _) =>
        let q := journalFile ++ quarantineSuffix in
        _ ← remove q;
        r ← rename journalFile q;
        match r with
        | Err _ => throw (QuarantineFailed e)
        | Ok _ => _ ← quarantine name e; mret (setJournalHash (Some journal_domain) l)
        end
    end
  else mret l.

(** The journal of [openList]: torn-tail repair, the running hash, the replay. *)
Definition open_journal (name : bytes) (l : GoList) : op GoList :=
  content ← read_optional journalFile;
  let '(ops, tornAt) := match content with Some c => readJournal c | None => ([], (-1)%Z) end in
  _ ← (if (0 <=? tornAt)%Z then or_fail Os (truncate journalFile (Z.to_nat tornAt)) else mret ());
  hashed ← read_optional journalFile;
  replay_journal name ops (default [] hashed) l.

Definition openList (name : bytes) : op GoList :=
  marker ← stat markerFile;
  match marker with
  | Ok _ => throw MarkerPresent
  | Err _ =>
      raw ← or_fail Os (read_file configFile);
      match unmarshal_config raw with
      | None => throw ConfigUnreadable
      | Some cfg =>
          match NewList name cfg with
          | Err e => throw (BadConfig e)
          | Ok l => l ← open_base l; open_journal name l
          end
      end
  end.

(** ** The journal append *)

Definition rollback (start : nat) (closed : bool) : op () :=
  r ← truncate journalFile start;
  _ ← match r with Err _ => setDamage damageContent | Ok _ => mret () end;
  if closed then mret () else (_ ← flush; mret ()).

(** [appendJournal]; each failure after the first write rolls the file back. *)
Definition appendJournal (mode : FsyncMode) (rs : list journalRec) : op Z :=
  _ ← refuse_damaged (λ k, negb (bool_decide (k = damageNone)));
  buf ← of_encode (encode_recs rs);
  _ ← or_fail Os (open_append journalFile);
  sk ← seek_end journalFile;
  match sk with
  | Err e => _ ← flush; throw (Os e)
  | Ok start =>
      w ← write journalFile buf;
      match w with
      | Err e => _ ← rollback start false; throw (Os e)
      | Ok _ =>
          s ← (match mode with FsyncEvery => flush | _ => mret (Ok ()) end);
          match s with
          | Err e => _ ← rollback start false; throw (Os e)
          | Ok _ =>
              c ← flush;
              match c with
              | Err e => _ ← rollback start true; throw (Os e)
              | Ok _ =>
                  g ← (match mode with FsyncInterval => try syncPath_journal | _ => mret (Ok ()) end);
                  match g with
                  | Err e => _ ← rollback start true; throw e
                  | Ok _ =>
                      _ ← update (λ l, match jhash l with Some h => setJournalHash (Some (h ++ buf)) l | None => l end);
                      mret (Z.of_nat (start + length buf))
                  end
              end
          end
      end
  end.

(** ** Mutations *)

Definition the_version (name : bytes) : op bytes := l ← load name; mret (version (snap l)).

(** The decision of [maybeAutoCompact]: whether a background fold is started. *)
Definition auto_compact_due (thr : Z) (l : GoList) : bool := (0 <? thr)%Z && (thr <=? (Stats l).1.2)%Z.
Definition maybeAutoCompact (name : bytes) : op () :=
  l ← load name;
  put_mem (on_state (λ ls, if auto_compact_due (OverlayAutoCompact (Config l)) l && negb (autoCompacting ls)
                           then set_compacting true ls else ls)).

Definition journaled (mode : FsyncMode) (name : bytes) (prep : GoList → result list_error overlayBuild) (rs : list journalRec) : op bytes :=
  l ← load name;
  b ← of_list (prep l);
  jpos ← appendJournal mode rs;
  _ ← update (commitOverlayLockedAt b jpos);
  _ ← maybeAutoCompact name;
  the_version name.

Definition upsert_rec (e : Entry) : journalRec := mkRec op_upsert (Some e) [].
Definition delete_rec (id : bytes) : journalRec := mkRec op_delete None id.

Definition upsertLocked (mode : FsyncMode) (name : bytes) (es : list Entry) : op bytes :=
  journaled mode name (prepareUpsertLocked es) (upsert_rec <$> es).
Definition deleteLocked (mode : FsyncMode) (name id : bytes) : op bytes :=
  journaled mode name (prepareDeleteLocked id) [delete_rec id].

(** The body of [UpsertGenVersioned]: the list must still be the one captured. *)
Definition upsertGenLocked (mode : FsyncMode) (name : bytes) (gen : option nat) (es : list Entry) : op bytes :=
  m ← get_mem;
  match gen with
  | Some g => if ls_id (m_ls m) =? g then upsertLocked mode name es else throw (ListReplaced name)
  | None => upsertLocked mode name es
  end.

(** What Replace and Compact do once the new base is published: the journal is
    emptied, durably, or the list is damaged. *)
Definition empty_journal : op () :=
  r ← truncate journalFile 0;
  match r with
  | Err NotExist => mret ()
  | Err e => _ ← setDamage damageContent; throw (Os e)
  | Ok _ =>
      r ← try syncPath_journal;
      match r with Ok _ => mret () | Err e => _ ← setDamage damageContent; throw e end
  end.

Definition publish_base (es : list Entry) : op bytes :=
  p ← persistBase es;
  match p with
  | (_, Ok id) => mret id
  | (published, Err e) => _ ← (if (published : bool) then setDamage damageContent else mret ()); throw e
  end.

Definition refuse_create_damage : op () := refuse_damaged (λ k, bool_decide (k = damageCreate)).

Definition replaceLocked (name : bytes) (es : list Entry) : op bytes :=
  _ ← refuse_create_damage;
  l ← load name;
  p ← of_list (prepareBase es l);
  let '(es, seg) := p in
  id ← publish_base es;
  _ ← empty_journal;
  _ ← update (setJournalHash (Some journal_domain));
  _ ← setDamage damageNone;
  _ ← on_list name (SetBaseID id);
  _ ← update (installBase seg);
  l ← load name;
  _ ← saveArtifact l (ng seg) (ex seg);
  the_version name.

Record CompactResult := mkCompactResult { cr_Version : bytes; cr_Entries : nat; cr_Mode : bytes; cr_Dropped : Z; cr_Keyless : Z }.

Definition compactLocked (name : bytes) : op CompactResult :=
  _ ← refuse_create_damage;
  b ← on_list name PrepareCompact;
  id ← publish_base (cb_live b);
  _ ← empty_journal;
  _ ← update (setJournalHash (Some journal_domain));
  _ ← setDamage damageNone;
  _ ← on_list name (CommitCompact b id);
  l ← load name;
  _ ← saveArtifact l (ng (cb_seg b)) (ex (cb_seg b));
  l ← load name;
  let '(dropped, keyless) := BuildStats l in
  mret (mkCompactResult (version (snap l)) (length (cb_live b)) (Mode (mode_of l)) dropped keyless).

Definition or_damage {A} (m : op A) : op A :=
  r ← try m; match r with Ok a => mret a | Err e => _ ← setDamage damageCreate; throw e end.
Definition remove_if_present (f : bytes) : op () :=
  r ← remove f; match r with Err OtherError => throw (Os OtherError) | _ => mret () end.

(** [CreateListVersioned] with its lock held and the directory made.  The JSON
    encoding of a resolved configuration cannot fail. *)
Definition createLocked (name : bytes) (l : GoList) : op bytes :=
  r ← try (writeFileAtomic markerFile ($"create/replace in progress" ++ [c_nl]));
  _ ← match r with
      | Ok _ => mret ()
      | Err (MarkerPublished e) => _ ← setDamage damageCreate; throw (MarkerPublished e)
      | Err e => throw e
      end;
  _ ← or_damage (_ ← remove_if_present baseFile; _ ← remove_if_present idxFile; remove_if_present journalFile);
  _ ← or_damage (writeFileAtomic configFile (marshal_config (Config l) ++ [c_nl]));
  _ ← or_damage (or_fail Os (remove markerFile));
  _ ← or_damage syncDir;
  let '(_, l) := SetBaseID ($"empty") l in
  let l := stampFresh (setJournalHash (Some journal_domain) l) in
  _ ← setDamage damageNone;
  _ ← put_mem (on_state (swap_l l));
  the_version name.

(** [ReloadListVersioned] with its lock held; the sweep is best effort. *)
Definition reloadLocked (name : bytes) : op bytes :=
  _ ← refuse_damaged (λ k, negb (bool_decide (k = damageNone)));
  j ← stat journalFile;
  _ ← match j with Ok n => if (0 <? n)%N then throw (JournalNotEmpty name) else mret () | Err _ => mret () end;
  _ ← syscall (λ d, (Ok (), sweepTempFiles d)) no_effect;
  l ← openList name;
  _ ← setDamage damageNone;
  _ ← put_mem (on_state (swap_l l));
  the_version name.
End store.
