(* ===== verification/Artifact.v ===== *)
(** The index cache [base.idx] of [engine/artifact]: the bytes [Save] and [SaveExact]
    write, and the readers [Load] and [LoadExact].  The readers check every count, length
    and size; the structure of a bitmap is roaring's to check, and nothing is assumed of
    one that was read from bytes [Save] did not write.

    The temporary file and its rename are [Store.save_file].  The roaring bitmap's
    own serialization and the JSON of the two headers are interfaces. *)

From S2P Require Import Prelude.
From S2P Require Import Runtime.
From S2P Require Import Score.
From S2P Require Import Bitmap.
From S2P Require Import Grams.
From S2P Require Import Journal.
From S2P Require Import Disk.
From S2P Require Import Store.
From S2P Require Ngram.
From S2P Require Exact.

Definition magic : bytes := $"KURNIDX1".
Definition exactMagic : bytes := $"KURNEXA1".
Definition maxLen : N := (2 ^ 20)%N.
Definition minPairBytes : Z := 10.
Definition minExactKeyBytes : Z := 7.

Record meta := mkMeta {
  mt_Grams : list Z; mt_StripSpaces : bool; mt_NumOrds : N; mt_GramCount : Z;
  mt_Analyzer : bytes; mt_Build : option artifactBuild;
}.
Record exactMeta := mkExactMeta {
  em_KeyCount : Z; em_PostingsLen : Z; em_ArenaLen : Z; em_Analyzer : bytes; em_Build : option artifactBuild;
}.

(** [WriteTo] and [ReadFrom] of a roaring bitmap, and the headers' JSON. *)
Class ArtifactLib {BL : BitmapLib} := {
  bm_write : Bitmap → bytes;
  bm_read : bytes → option (Bitmap * bytes);
  bm_read_write : ∀ b rest, bm_sound b →
    ∃ b', bm_read (bm_write b ++ rest) = Some (b', rest) ∧ bm_sound b' ∧ bm_elems b' = bm_elems b;
  bm_write_size : ∀ b, 8 ≤ length (bm_write b);
  marshal_meta : meta → bytes;
  unmarshal_meta : bytes → option meta;
  marshal_exactMeta : exactMeta → bytes;
  unmarshal_exactMeta : bytes → option exactMeta;
}.

Inductive artifact_error :=
  | BadMagic
  | ShortRead
  | VarintOverflow
  | HeaderLength (n : N)
  | HeaderJSON
  | MissingGrams
  | NegativeCount (n : Z)
  | ImplausibleCount (n : Z)
  | GramLength (i : nat) (n : N)
  | BitmapCorrupt (i : nat)
  | DuplicateGram (i : nat)
  | TrailingData
  | NgramRestore (e : Ngram.restore_error)
  | InconsistentCounts
  | LengthsExceed (i : nat)
  | ExactRestore (e : Exact.exact_error)
  | NegativeBuild
  | KeylessExceeds (keyless entries : Z)
  | OrdinalsExceed (ords : N) (entries : Z).

(** ** Readers *)

(** A reader consumes a prefix of the file. *)
Definition reader (A : Type) : Type := bytes → result artifact_error (A * bytes).
#[export] Instance reader_ret : MRet reader := λ A a input, Ok (a, input).
#[export] Instance reader_bind : MBind reader := λ A B f m input, '(a, rest) ← m input; f a rest.
Definition refuse {A} (e : artifact_error) : reader A := λ _, Err e.
Definition refuse_if (c : bool) (e : artifact_error) : reader () := if c then refuse e else mret ().

(** [io.ReadFull] of [n] bytes. *)
Definition read_full (n : nat) : reader bytes := λ input,
  if length input <? n then Err ShortRead else Ok (take n input, drop n input).

(** [binary.PutUvarint] and [binary.ReadUvarint]. *)
Definition maxVarint : nat := 10.
Fixpoint put_bytes (fuel : nat) (v : N) : bytes :=
  match fuel with
  | O => []
  | S fuel => if (128 <=? v)%N then N.lor (u8 v) 128 :: put_bytes fuel (N.shiftr v 7) else [v]
  end.
Definition putUvarint (v : N) : bytes := put_bytes maxVarint v.
Fixpoint read_bytes (fuel i : nat) (x s : N) (input : bytes) : result artifact_error (N * bytes) :=
  match fuel with
  | O => Err VarintOverflow
  | S fuel =>
      match input with
      | [] => Err ShortRead
      | b :: rest =>
          if (b <? 128)%N then
            if (i =? 9) && (1 <? b)%N then Err VarintOverflow else Ok (N.lor x (u64 (N.shiftl b s)), rest)
          else read_bytes fuel (S i) (N.lor x (u64 (N.shiftl (N.land b 127) s))) (s + 7)%N rest
      end
  end.
Definition readUvarint : reader N := read_bytes maxVarint 0 0 0.

(** [bufio.Reader.ReadByte] at the end: anything but EOF is trailing data. *)
Definition at_end : reader () := λ input, match input with [] => Ok ((), []) | _ => Err TrailingData end.

Definition check_magic (mg : bytes) : reader () := λ input,
  if (length input <? length mg) || negb (bool_decide (take (length mg) input = mg)) then Err BadMagic
  else Ok ((), drop (length mg) input).

(** Magic, length and bytes of a header. *)
Definition read_header (mg : bytes) : reader bytes :=
  _ ← check_magic mg;
  hlen ← readUvarint;
  _ ← refuse_if ((hlen =? 0)%N || (maxLen <? hlen)%N) (HeaderLength hlen);
  read_full (N.to_nat hlen).
Definition of_json {A} (o : option A) : reader A := match o with Some a => mret a | None => refuse HeaderJSON end.

(** [BuildInfo.validate], then the checks of both loaders against the ordinals. *)
Definition validate (b : option artifactBuild) : result artifact_error () :=
  match b with
  | None => Ok ()
  | Some b =>
      if (ab_Entries b <? 0)%Z || (ab_DroppedKeys b <? 0)%Z || (ab_KeylessEntries b <? 0)%Z then Err NegativeBuild
      else if (ab_Entries b <? ab_KeylessEntries b)%Z then Err (KeylessExceeds (ab_KeylessEntries b) (ab_Entries b))
      else Ok ()
  end.
Definition check_build (b : option artifactBuild) (numOrds : N) : result artifact_error (option artifactBuild) :=
  _ ← validate b;
  match b with
  | None => Ok None
  | Some b =>
      if (ab_Entries b =? 0)%Z && (0 <? numOrds)%N then Ok None
      else if (ab_Entries b <? Z.of_N numOrds)%Z then Err (OrdinalsExceed numOrds (ab_Entries b))
      else Ok (Some b)
  end.
Definition of_check {A} (r : result artifact_error A) : reader A := λ input, a ← r; Ok (a, input).

Section artifact.
Context {RT : GoRuntime} {BL : BitmapLib} {FO : FloatOps} {AL : ArtifactLib}.

(** ** N-gram indexes *)

Definition idx_meta (i : Ngram.Index) (digest : bytes) (build : artifactBuild) : meta :=
  mkMeta (Ngram.Grams (Ngram.cfg i)) (Ngram.StripSpaces (Ngram.cfg i)) (Ngram.numOrds i)
    (Z.of_nat (size (Ngram.postings i))) digest (Some build).
Definition sorted_grams (i : Ngram.Index) : list bytes :=
  sort_slice (less_by id) (range_map 0 (Ngram.postings i)).*1.
Definition write_header (mg hdr : bytes) : bytes := mg ++ putUvarint (N.of_nat (length hdr)) ++ hdr.
Definition write_pair (i : Ngram.Index) (g : bytes) : bytes :=
  putUvarint (N.of_nat (length g)) ++ g ++ bm_write (default bm_new (Ngram.postings i !! g)).
Definition Save (i : Ngram.Index) (digest : bytes) (build : artifactBuild) : bytes :=
  write_header magic (marshal_meta (idx_meta i digest build)) ++ (sorted_grams i ≫= write_pair i).

(** The loop of [Load] over the declared grams. *)
Fixpoint read_grams (n i : nat) (ps : gmap bytes Bitmap) : reader (gmap bytes Bitmap) :=
  match n with
  | O => mret ps
  | S n =>
      glen ← readUvarint;
      _ ← refuse_if ((glen =? 0)%N || (maxLen <? glen)%N) (GramLength i glen);
      g ← read_full (N.to_nat glen);
      bm ← (λ input, match bm_read input with Some r => Ok r | None => Err (BitmapCorrupt i) end);
      _ ← refuse_if (bool_decide (is_Some (ps !! g))) (DuplicateGram i);
      read_grams n (S i) (<[g := bm]> ps)
  end.

Definition Load (file : bytes) : result artifact_error (Ngram.Index * bytes * option artifactBuild) :=
  let size := Z.of_nat (length file) in
  r ← (hdr ← read_header magic;
       m ← of_json (unmarshal_meta hdr);
       _ ← refuse_if (bool_decide (mt_Grams m = [])) MissingGrams;
       _ ← refuse_if (mt_GramCount m <? 0)%Z (NegativeCount (mt_GramCount m));
       _ ← refuse_if (size / minPairBytes <? mt_GramCount m)%Z (ImplausibleCount (mt_GramCount m));
       ps ← read_grams (Z.to_nat (mt_GramCount m)) 0 ∅;
       _ ← at_end;
       i ← of_check (match Ngram.Restore (Ngram.mkConfig (mt_Grams m) (mt_StripSpaces m)) ps (mt_NumOrds m) with
                     | Ok i => Ok i | Err e => Err (NgramRestore e) end);
       build ← of_check (check_build (mt_Build m) (mt_NumOrds m));
       mret (i, mt_Analyzer m, build)) file;
  Ok r.1.

(** ** Exact indexes *)

Definition put_u32le (n : N) : bytes := (λ k, u8 (N.shiftr n (8 * k))) <$> [0; 1; 2; 3]%N.
Definition get_u32le (b : bytes) : N :=
  foldr N.lor 0%N ((λ kb : N * N, N.shiftl kb.2 (8 * kb.1)) <$> zip [0; 1; 2; 3]%N b).

(** The run of a key that the index holds. *)
Definition run_of (i : Exact.Index) (k : bytes) : list N := default [] (Exact.Lookup i k).
Definition exact_meta (i : Exact.Index) (digest : bytes) (build : artifactBuild) : exactMeta :=
  let keys := Exact.SortedKeys i in
  mkExactMeta (Z.of_nat (length keys)) (foldl (λ n k, n + Z.of_nat (length (run_of i k))) 0 keys)%Z
    (foldl (λ n k, n + Z.of_nat (length k)) 0 keys)%Z digest (Some build).
Definition SaveExact (i : Exact.Index) (digest : bytes) (build : artifactBuild) : bytes :=
  let keys := Exact.SortedKeys i in
  write_header exactMagic (marshal_exactMeta (exact_meta i digest build)) ++
  concat keys ++
  (keys ≫= λ k, putUvarint (N.of_nat (length k)) ++ putUvarint (N.of_nat (length (run_of i k)))) ++
  (keys ≫= λ k, run_of i k ≫= put_u32le).

Fixpoint read_lens (n i : nat) (arenaLen postingsLen : Z) : reader (list Z * list Z) :=
  match n with
  | O => mret ([], [])
  | S n =>
      kl ← readUvarint;
      rl ← readUvarint;
      _ ← refuse_if ((Z.to_N arenaLen <? kl)%N || (Z.to_N postingsLen <? rl)%N) (LengthsExceed i);
      '(kls, rls) ← read_lens n (S i) arenaLen postingsLen;
      mret (Z.of_N kl :: kls, Z.of_N rl :: rls)
  end.

(** [binary.LittleEndian.Uint32] over the raw section. *)
Definition get_postings (n : nat) (raw : bytes) : list N := (λ k, get_u32le (slice raw (4 * k) (4 * k + 4))) <$> seq 0 n.

Definition LoadExact (file : bytes) : result artifact_error (Exact.Index * bytes * option artifactBuild) :=
  let size := Z.of_nat (length file) in
  r ← (hdr ← read_header exactMagic;
       m ← of_json (unmarshal_exactMeta hdr);
       let '(mkExactMeta kc pl al an bi) := m in
       _ ← refuse_if ((kc <? 0)%Z || (pl <? kc)%Z || (al <? kc)%Z) InconsistentCounts;
       _ ← refuse_if (size / minExactKeyBytes <? kc)%Z (ImplausibleCount kc);
       _ ← refuse_if (size <? al)%Z (ImplausibleCount al);
       _ ← refuse_if (size / 4 <? pl)%Z (ImplausibleCount pl);
       arena ← read_full (Z.to_nat al);
       lens ← read_lens (Z.to_nat kc) 0 al pl;
       raw ← read_full (4 * Z.to_nat pl);
       _ ← at_end;
       i ← of_check (match Exact.Restore arena lens.1 lens.2 (get_postings (Z.to_nat pl) raw) with
                     | Ok i => Ok i | Err e => Err (ExactRestore e) end);
       build ← of_check (check_build bi (Exact.NumOrds i));
       mret (i, an, build)) file;
  Ok r.1.

(** The cache the store reads and writes. *)
#[export] Instance file_artifacts : ArtifactCodec := {|
  save_ngram := Save;
  save_exact := SaveExact;
  load_ngram := λ file, match Load file with Ok r => Some r | Err _ => None end;
  load_exact := λ file, match LoadExact file with Ok r => Some r | Err _ => None end;
|}.
End artifact.
