(* ===== verification/ArtifactSpec.v ===== *)
(** The index cache: what is written reads back as the same index, and what is
    accepted is safe to serve from. *)

From S2P Require Import Prelude.
From S2P Require Import Runtime.
From S2P Require Import Score.
From S2P Require Import Bitmap.
From S2P Require Import Grams.
From S2P Require Import Journal.
From S2P Require Import Disk.
From S2P Require Import Store.
From S2P Require Import Artifact.
From S2P Require Ngram.
From S2P Require Exact.

(** ** Varints *)

Lemma lor_shift x b s : (x < 2 ^ s)%N → N.lor x (N.shiftl b s) = (x + b * 2 ^ s)%N.
Proof.
  intros Hx. assert (N.land x (N.shiftl b s) = 0%N) as Hz.
  { apply N.bits_inj. intros i. rewrite N.land_spec, N.bits_0. destruct (N.lt_ge_cases i s) as [Hi|Hi].
    - by rewrite N.shiftl_spec_low, andb_false_r.
    - destruct (N.eq_dec x 0%N) as [->|Hne]; [by rewrite N.bits_0|]. rewrite N.bits_above_log2; [done|].
      apply N.log2_lt_pow2 in Hx; lia. }
  rewrite <-N.shiftl_mul_pow2, (N.add_nocarry_lxor _ _ Hz), N.lxor_lor by exact Hz. done.
Qed.

Lemma varint_byte v : (128 <= N.lor (u8 v) 128)%N ∧ N.land (N.lor (u8 v) 128) 127 = (v mod 128)%N.
Proof.
  assert (u8 v < 256)%N as Hv by by apply N.mod_lt.
  assert (∀ a, (a < 256)%N → (128 <=? N.lor a 128)%N && (N.land (N.lor a 128) 127 =? a mod 128)%N = true) as Hall.
  { assert (forallb (λ a, (128 <=? N.lor a 128)%N && (N.land (N.lor a 128) 127 =? a mod 128)%N) (N.of_nat <$> seq 0 256) = true) as Hc
      by (vm_compute; reflexivity).
    intros a Ha. rewrite forallb_forall in Hc. apply Hc, list_elem_of_In, list_elem_of_fmap. exists (N.to_nat a).
    split; [lia|]. apply elem_of_seq. lia. }
  specialize (Hall _ Hv). apply andb_true_iff in Hall as [H1%N.leb_le H2%N.eqb_eq]. split; [done|]. rewrite H2. unfold u8. zlia.
Qed.

Lemma read_put_bytes fuel i x s v rest :
  fuel + i = 10 → s = (7 * N.of_nat i)%N → (x < 2 ^ s)%N → (v * 2 ^ s < 2 ^ 64)%N → i < 10 →
  read_bytes fuel i x s (put_bytes fuel v ++ rest) = Ok ((x + v * 2 ^ s)%N, rest).
Proof.
  revert i x s v. induction fuel as [|fuel IH]; intros i x s v Hf Hs Hx Hv Hi; [lia|]. cbn [put_bytes].
  destruct (N.leb_spec 128 v) as [Hle|Hlt].
  - cbn [app read_bytes]. destruct (varint_byte v) as [Hb Hm]. rewrite (proj2 (N.ltb_ge _ _) Hb), Hm.
    assert (2 ^ (s + 7) = 128 * 2 ^ s)%N as Hp by (rewrite N.pow_add_r; change (2 ^ 7)%N with 128%N; lia).
    assert (v = 128 * (v / 128) + v mod 128)%N as Hd by zlia. set (q := (v / 128)%N) in *. set (r := (v mod 128)%N) in *.
    assert (r < 128)%N as Hr by by apply N.mod_lt. assert (0 < 2 ^ s)%N as Hpos by (apply N.neq_0_lt_0, N.pow_nonzero; lia).
    assert (r * 2 ^ s < 2 ^ 64)%N as Hr64 by nia.
    rewrite N.shiftl_mul_pow2, (u64_small _ Hr64), <-N.shiftl_mul_pow2, lor_shift by done.
    rewrite N.shiftr_div_pow2. change (v / 2 ^ 7)%N with q.
    assert (1 <= q)%N as Hq by (unfold q; zlia).
    assert (i < 9) as Hi9.
    { destruct (decide (i < 9)); [done|]. exfalso. assert (s = 63)%N as -> by lia. change (2 ^ 63)%N with 9223372036854775808%N in Hv.
      change (2 ^ 64)%N with 18446744073709551616%N in Hv. lia. }
    rewrite IH; [|lia|lia|rewrite Hp; nia|rewrite Hp; nia|lia]. rewrite Hp. f_equal. f_equal. nia.
  - cbn [app read_bytes]. rewrite (proj2 (N.ltb_lt _ _) Hlt).
    assert ((i =? 9) && (1 <? v)%N = false) as ->.
    { destruct (Nat.eqb_spec i 9) as [->|]; [|done]. simpl in Hs. subst s. apply N.ltb_ge.
      change (2 ^ 63)%N with 9223372036854775808%N in Hv. change (2 ^ 64)%N with 18446744073709551616%N in Hv. lia. }
    assert (u64 (N.shiftl v s) = N.shiftl v s) as -> by (rewrite N.shiftl_mul_pow2; by apply u64_small).
    by rewrite lor_shift.
Qed.

Lemma uvarint_read v rest : (v < 2 ^ 64)%N → readUvarint (putUvarint v ++ rest) = Ok (v, rest).
Proof. intros Hv. unfold readUvarint, putUvarint. rewrite read_put_bytes; [|done|done|done|lia|lia]. f_equal. f_equal. lia. Qed.
Lemma uvarint_len v : 1 ≤ length (putUvarint v).
Proof.
  assert (∀ f, 1 ≤ length (put_bytes (S f) v)) as H; [|apply (H 9)]. intros f. cbn [put_bytes].
  destruct (128 <=? v)%N; simpl; lia.
Qed.

(** ** Readers *)

Lemma read_full_app a rest : read_full (length a) (a ++ rest) = Ok (a, rest).
Proof.
  unfold read_full. rewrite (proj2 (Nat.ltb_ge _ _)) by (rewrite length_app; lia). by rewrite take_app_length, drop_app_length.
Qed.
Lemma check_magic_app mg rest : check_magic mg (mg ++ rest) = Ok ((), rest).
Proof.
  unfold check_magic. rewrite (proj2 (Nat.ltb_ge _ _)) by (rewrite length_app; lia). rewrite take_app_length, drop_app_length.
  by rewrite bool_decide_eq_true_2.
Qed.

Lemma reader_ok {A B} (m : reader A) (f : A → reader B) input a rest r :
  m input = Ok (a, rest) → f a rest = r → (m ≫= f) input = r.
Proof. intros Hm Hf. unfold mbind, reader_bind. by rewrite Hm. Qed.
Lemma refuse_if_ok c e input : c = false → refuse_if c e input = Ok ((), input).
Proof. by intros ->. Qed.

Lemma read_header_write mg hdr rest :
  hdr ≠ [] → (N.of_nat (length hdr) <= maxLen)%N → read_header mg (write_header mg hdr ++ rest) = Ok (hdr, rest).
Proof.
  intros Hne Hlen. unfold read_header, write_header. rewrite <-!app_assoc. eapply reader_ok; [apply check_magic_app|].
  change maxLen with (2 ^ 20)%N in *. eapply reader_ok; [apply uvarint_read; lia|].
  eapply reader_ok; [apply refuse_if_ok|rewrite Nat2N.id; apply read_full_app].
  destruct hdr; [done|]. rewrite (proj2 (N.ltb_ge _ _) Hlen), orb_false_r. apply N.eqb_neq. simpl. lia.
Qed.

Section spec.
Context {RT : GoRuntime} {BL : BitmapLib} {FO : FloatOps} {AL : ArtifactLib}.

(** ** N-gram indexes *)

Definition same_postings (ps ps' : gmap bytes Bitmap) : Prop :=
  (∀ g, is_Some (ps' !! g) ↔ is_Some (ps !! g)) ∧ ∀ g, Ngram.posted ps' g = Ngram.posted ps g.

Lemma read_grams_write i gs n ps rest :
  Ngram.sound_postings (Ngram.postings i) → NoDup gs → (∀ g, g ∈ gs → g ≠ [] ∧ (N.of_nat (length g) <= maxLen)%N ∧ ps !! g = None) →
  ∃ ps', read_grams (length gs) n ps ((gs ≫= write_pair i) ++ rest) = Ok (ps', rest) ∧
    (∀ g, g ∈ gs → ∃ bm, ps' !! g = Some bm ∧ bm_sound bm ∧ bm_elems bm = bm_elems (default bm_new (Ngram.postings i !! g))) ∧
    ∀ g, g ∉ gs → ps' !! g = ps !! g.
Proof.
  intros Hsd Hnd. revert n ps. induction Hnd as [|g gs Hg Hnd IH]; intros n ps Hok.
  { exists ps. split_and!; [done| |done]. by intros g ?%elem_of_nil. }
  destruct (Hok g ltac:(by left)) as (Hne & Hlen & Hfresh).
  assert (bm_sound (default bm_new (Ngram.postings i !! g))) as Hbs.
  { destruct (Ngram.postings i !! g) eqn:E; [by eapply Hsd|apply bm_new_sound]. }
  destruct (bm_read_write (default bm_new (Ngram.postings i !! g)) ((gs ≫= write_pair i) ++ rest) Hbs) as (bm & Hbm & Hbs' & Hel).
  destruct (IH (S n) (<[g := bm]> ps)) as (ps' & Hr & Hin & Hout).
  { intros g' Hg'. destruct (Hok g' ltac:(by right)) as (? & ? & ?). split_and!; [done..|]. rewrite lookup_insert_ne; [done|]. by intros ->. }
  exists ps'. split_and!.
  - cbn [length read_grams]. rewrite bind_cons, <-app_assoc. unfold write_pair at 1. rewrite <-!app_assoc.
    change maxLen with (2 ^ 20)%N in *. eapply reader_ok; [apply uvarint_read; lia|].
    eapply reader_ok.
    { apply refuse_if_ok. destruct g; [done|]. rewrite (proj2 (N.ltb_ge _ _) Hlen), orb_false_r. apply N.eqb_neq. simpl. lia. }
    eapply reader_ok; [rewrite Nat2N.id; apply read_full_app|]. eapply reader_ok; [by rewrite Hbm|].
    eapply reader_ok; [|exact Hr]. apply refuse_if_ok, bool_decide_eq_false. rewrite Hfresh. by intros [].
  - intros g' [->|Hg']%elem_of_cons; [|by apply Hin]. exists bm. by rewrite Hout, lookup_insert_eq.
  - intros g' [Hn Hg']%not_elem_of_cons. rewrite Hout by done. by rewrite lookup_insert_ne.
Qed.

Definition valid_build (b : artifactBuild) (numOrds : N) : Prop :=
  (0 <= ab_Entries b)%Z ∧ (0 <= ab_DroppedKeys b)%Z ∧ (0 <= ab_KeylessEntries b <= ab_Entries b)%Z ∧ (Z.of_N numOrds <= ab_Entries b)%Z.

Lemma check_build_ok b n r : check_build (Some b) n = Ok r → r = None ∨ r = Some b ∧ valid_build b n.
Proof.
  unfold check_build. intros (u & Hv & Hr)%bind_ok. unfold validate in Hv. unfold valid_build.
  destruct (_ || _ || _) eqn:H1; [done|]. destruct (_ <? _)%Z eqn:H2 in Hv; [done|].
  destruct (_ && _) in Hr; [injection Hr as <-; by left|]. destruct (_ <? _)%Z eqn:H3 in Hr; [done|]. injection Hr as <-. right.
  rewrite !orb_false_iff in H1. destruct H1 as [[? ?] ?]. split; [done|lia].
Qed.
Lemma check_build_valid b n : valid_build b n → check_build (Some b) n = Ok (Some b).
Proof.
  intros (H1 & H2 & H3 & H4). assert (validate (Some b) = Ok ()) as Hv by (unfold validate; by rewrite !(proj2 (Z.ltb_ge _ _)) by lia).
  unfold check_build. rewrite Hv. cbn [mbind result_bind]. rewrite (proj2 (Z.ltb_ge _ _)) by lia.
  destruct (Z.eqb_spec (ab_Entries b) 0); [|done]. rewrite (proj2 (N.ltb_ge _ _)) by lia. done.
Qed.
Lemma of_check_ok {A} (r : result artifact_error A) a input : r = Ok a → of_check r input = Ok (a, input).
Proof. by intros ->. Qed.

Lemma sorted_grams_spec i : NoDup (sorted_grams i) ∧ (∀ g, g ∈ sorted_grams i ↔ is_Some (Ngram.postings i !! g)) ∧
  length (sorted_grams i) = size (Ngram.postings i).
Proof.
  unfold sorted_grams. rewrite (sort_slice_perm _ (less_by id)). split_and!.
  - apply range_nodup.
  - intros g. rewrite (sort_slice_perm _ (less_by id)), list_elem_of_fmap. split.
    + intros ([g' bm] & -> & Hin%elem_of_range). by exists bm.
    + intros [bm Hbm]. exists (g, bm). split; [done|]. by apply elem_of_range.
  - rewrite length_fmap. rewrite (range_map_perm _ 0 (Ngram.postings i)). apply length_map_to_list.
Qed.

Lemma pairs_size i gs : (∀ g, g ∈ gs → g ≠ []) → length gs * 10 ≤ length (gs ≫= write_pair i).
Proof.
  induction gs as [|g gs IH]; intros Hne; [done|]. rewrite bind_cons, length_app. cbn [length].
  specialize (IH ltac:(intros; apply Hne; by right)). unfold write_pair at 1. rewrite !length_app.
  pose proof (uvarint_len (N.of_nat (length g))). pose proof (bm_write_size (default bm_new (Ngram.postings i !! g))).
  assert (1 ≤ length g) by (specialize (Hne g ltac:(by left)); destruct g; [done|simpl; lia]). lia.
Qed.

(** What a header needs: its JSON reads back and its length is in range. *)
Definition header_ok {A} (hdr : bytes) (unmarshal : bytes → option A) (m : A) : Prop :=
  unmarshal hdr = Some m ∧ hdr ≠ [] ∧ (N.of_nat (length hdr) <= maxLen)%N.

Lemma load_save i digest build :
  header_ok (marshal_meta (idx_meta i digest build)) unmarshal_meta (idx_meta i digest build) →
  Ngram.Grams (Ngram.cfg i) ≠ [] → Forall (λ g, 1 <= g <= Ngram.MaxGramSize)%Z (Ngram.Grams (Ngram.cfg i)) →
  Ngram.well_formed i → valid_build build (Ngram.numOrds i) →
  (∀ g, is_Some (Ngram.postings i !! g) → g ≠ [] ∧ (N.of_nat (length g) <= maxLen)%N) →
  ∃ ps', Load (Save i digest build) = Ok (Ngram.mkIndex (Ngram.cfg i) ps' (Ngram.numOrds i), digest, Some build) ∧
    same_postings (Ngram.postings i) ps'.
Proof.
  intros (Hu & Hne & Hlen) Hg Hgs [Hsd Hwf] Hb Hkeys. destruct (sorted_grams_spec i) as (Hnd & Hin & Hsz).
  destruct (read_grams_write i (sorted_grams i) 0 ∅ [] Hsd Hnd) as (ps' & Hr & Hps & Hout).
  { intros g H%Hin. destruct (Hkeys g H). by rewrite lookup_empty. }
  assert (same_postings (Ngram.postings i) ps') as Hsame.
  { split.
    - intros g. destruct (decide (g ∈ sorted_grams i)) as [H|H].
      + destruct (Hps g H) as (bm & -> & _). split; [intros _; by apply Hin|by eexists].
      + rewrite (Hout g H), lookup_empty. split; [by intros []|intros Hs; by apply Hin in Hs].
    - intros g. unfold Ngram.posted. destruct (decide (g ∈ sorted_grams i)) as [H|H].
      + destruct (Hps g H) as (bm & -> & _ & Hel). simpl. rewrite Hel. by apply Hin in H as [bm0 ->].
      + rewrite (Hout g H), lookup_empty. assert (Ngram.postings i !! g = None) as ->; [|done].
        destruct (Ngram.postings i !! g) eqn:Hbm; [|done]. destruct H. apply Hin. by eexists. }
  assert (Ngram.sound_postings ps') as Hsd'.
  { intros g bm Hbm. destruct (decide (g ∈ sorted_grams i)) as [H|H].
    - destruct (Hps g H) as (bm' & Hbm' & Hs & _). rewrite Hbm' in Hbm. by injection Hbm as <-.
    - by rewrite (Hout g H), lookup_empty in Hbm. }
  exists ps'. split; [|done]. unfold Load. rewrite app_nil_r, Hsz in Hr.
  assert ((Z.of_nat (length (Save i digest build)) / minPairBytes <? Z.of_nat (size (Ngram.postings i)))%Z = false) as Himp.
  { apply Z.ltb_ge. unfold Save. rewrite length_app. pose proof (pairs_size i (sorted_grams i)) as Hp. rewrite Hsz in Hp.
    specialize (Hp ltac:(intros g H; by apply Hkeys, Hin)). unfold minPairBytes. zlia. }
  set (size0 := Z.of_nat (length (Save i digest build))) in *. unfold Save.
  match goal with |- (?m ≫= ?f) = _ => assert (m = Ok ((Ngram.mkIndex (Ngram.cfg i) ps' (Ngram.numOrds i), digest, Some build), [])) as -> end; [|done].
  eapply reader_ok; [by apply read_header_write|]. rewrite Hu.
  eapply reader_ok; [reflexivity|]. cbn [mt_Grams mt_GramCount mt_StripSpaces mt_NumOrds mt_Analyzer mt_Build idx_meta].
  eapply reader_ok; [by apply refuse_if_ok, bool_decide_eq_false|].
  eapply reader_ok; [apply refuse_if_ok, Z.ltb_ge; lia|]. eapply reader_ok; [by apply refuse_if_ok|].
  rewrite Nat2Z.id. eapply reader_ok; [exact Hr|]. eapply reader_ok; [reflexivity|].
  eapply reader_ok.
  { apply of_check_ok. assert (Ngram.Restore (Ngram.mkConfig (Ngram.Grams (Ngram.cfg i)) (Ngram.StripSpaces (Ngram.cfg i))) ps' (Ngram.numOrds i)
      = Ok (Ngram.mkIndex (Ngram.cfg i) ps' (Ngram.numOrds i))) as ->; [|done].
    apply Ngram.restore_ok; [done|]. split_and!; [by destruct (Ngram.cfg i)|done|done|].
    split; [done|]. intros g x. simpl. destruct Hsame as [_ ->]. apply Hwf. }
  eapply reader_ok; [by apply of_check_ok, check_build_valid|]. done.
Qed.

Lemma reader_inv {A B} (m : reader A) (f : A → reader B) input r :
  (m ≫= f) input = Ok r → ∃ a rest, m input = Ok (a, rest) ∧ f a rest = Ok r.
Proof. unfold mbind, reader_bind. intros ([a rest] & Hm & Hf)%bind_ok. by exists a, rest. Qed.
Lemma of_check_inv {A} (r : result artifact_error A) input a rest : of_check r input = Ok (a, rest) → r = Ok a.
Proof. unfold of_check. intros (a' & Hr & [= <- <-])%bind_ok. done. Qed.

Lemma load_safe file i digest build :
  Load file = Ok (i, digest, build) →
  Forall (λ g, 1 <= g <= Ngram.MaxGramSize)%Z (Ngram.Grams (Ngram.cfg i)) ∧
  (∀ g bm, Ngram.postings i !! g = Some bm → bm_card bm = 0%N ∨ (bm_max bm < Ngram.numOrds i)%N) ∧
  (Ngram.sound_postings (Ngram.postings i) → Ngram.well_formed i) ∧
  ∀ b, build = Some b → valid_build b (Ngram.numOrds i).
Proof.
  unfold Load. intros ([r rest0] & H & [= Hr])%bind_ok. simpl in Hr. subst r.
  apply reader_inv in H as (hdr & in1 & _ & H). apply reader_inv in H as (m & in2 & _ & H).
  apply reader_inv in H as (u1 & in3 & _ & H). apply reader_inv in H as (u2 & in4 & _ & H).
  apply reader_inv in H as (u3 & in5 & _ & H). apply reader_inv in H as (ps & in6 & _ & H).
  apply reader_inv in H as (u4 & in7 & _ & H). apply reader_inv in H as (i' & in8 & Hi%of_check_inv & H).
  apply reader_inv in H as (b' & in9 & Hb%of_check_inv & [= <- _ <- _]).
  destruct (Ngram.Restore _ _ _) as [i1|] eqn:Hre; [|done]. injection Hi as <-.
  apply Ngram.restore_claims in Hre as (-> & Hg & Hmax & Hwf). split_and!; [done|done|done|]. intros b ->. simpl.
  destruct (mt_Build m) as [b0|]; [|unfold check_build in Hb; by apply bind_ok in Hb as (? & _ & ?)].
  apply check_build_ok in Hb as [?|[[= <-] ?]]; done.
Qed.

(** ** Exact indexes *)

Lemma u32le_roundtrip n : (n < 2 ^ 32)%N → get_u32le (put_u32le n) = n.
Proof.
  intros Hn. change (2 ^ 32)%N with 4294967296%N in Hn. unfold get_u32le, put_u32le, u8. simpl.
  rewrite !N.shiftr_div_pow2. change (2 ^ 0)%N with 1%N. rewrite N.div_1_r.
  change (8 * 1)%N with 8%N. change (8 * 2)%N with 16%N. change (8 * 3)%N with 24%N.
  change (2 ^ 8)%N with 256%N. change (2 ^ 16)%N with 65536%N. change (2 ^ 24)%N with 16777216%N.
  set (b0 := (n mod 256)%N). set (b1 := ((n / 256) mod 256)%N). set (b2 := ((n / 65536) mod 256)%N). set (b3 := ((n / 16777216) mod 256)%N).
  assert (b0 < 256 ∧ b1 < 256 ∧ b2 < 256)%N as (H0 & H1 & H2) by (unfold b0, b1, b2; zlia).
  rewrite N.lor_0_r, N.shiftl_0_r, !N.lor_assoc.
  rewrite (lor_shift b0 b1 8) by done. change (2 ^ 8)%N with 256%N.
  rewrite (lor_shift _ b2 16) by (change (2 ^ 16)%N with 65536%N; lia). change (2 ^ 16)%N with 65536%N.
  rewrite (lor_shift _ b3 24) by (change (2 ^ 24)%N with 16777216%N; lia). change (2 ^ 24)%N with 16777216%N.
  unfold b0, b1, b2, b3. zlia.
Qed.

Lemma get_postings_write ps : Forall (λ p, p < 2 ^ 32)%N ps → get_postings (length ps) (ps ≫= put_u32le) = ps.
Proof.
  induction 1 as [|p ps Hp Hps IH]; [done|]. unfold get_postings. cbn [length seq]. rewrite bind_cons, fmap_cons.
  f_equal; [by apply u32le_roundtrip|]. rewrite <-fmap_S_seq, <-list_fmap_compose. rewrite <-IH at 2. apply list_fmap_ext.
  intros _ k _. unfold compose. f_equal. unfold slice. rewrite !Nat.add_sub' by lia.
  replace (4 * S k + 4 - 4 * S k) with (4 * k + 4 - 4 * k) by lia. f_equal.
  replace (4 * S k) with (length (put_u32le p) + 4 * k) by (simpl; lia). by rewrite drop_app_add'.
Qed.

Lemma read_lens_write i keys n al pl rest :
  (al < 2 ^ 64)%Z → (pl < 2 ^ 64)%Z →
  (∀ k, k ∈ keys → Z.of_nat (length k) <= al ∧ Z.of_nat (length (run_of i k)) <= pl)%Z →
  read_lens (length keys) n al pl ((keys ≫= λ k, putUvarint (N.of_nat (length k)) ++ putUvarint (N.of_nat (length (run_of i k)))) ++ rest) =
  Ok ((Exact.key_lens ((λ k, (k, run_of i k)) <$> keys), Exact.run_lens ((λ k, (k, run_of i k)) <$> keys)), rest).
Proof.
  intros Ha Hp. revert n. induction keys as [|k keys IH]; intros n Hk; [done|]. cbn [length read_lens]. rewrite bind_cons, <-!app_assoc.
  destruct (Hk k ltac:(by left)) as [H1 H2].
  eapply reader_ok; [apply uvarint_read; lia|]. eapply reader_ok; [apply uvarint_read; lia|].
  eapply reader_ok; [apply refuse_if_ok, orb_false_iff; split; apply N.ltb_ge; lia|].
  eapply reader_ok; [apply IH; intros; apply Hk; by right|]. cbn. by rewrite !nat_N_Z.
Qed.

(** The index's keys with their runs, as they are written. *)
Definition exact_entries (i : Exact.Index) : list (bytes * list N) := (λ k, (k, run_of i k)) <$> Exact.SortedKeys i.

(** An index the packed sections can hold, without out-of-range locators. *)
Definition exact_ok (i : Exact.Index) : Prop :=
  Exact.entries_ok (exact_entries i) ∧ (∀ k, is_Some (Exact.Lookup i k)) ∧
  (∀ k o, o ∈ run_of i k → (o < Exact.NumOrds i)%N) ∧ (Exact.NumOrds i < 2 ^ 32)%N ∧
  (Z.of_nat (length (concat (exact_entries i).*1)) < 2 ^ 63)%Z ∧ (Z.of_nat (length (concat (exact_entries i).*2)) < 2 ^ 63)%Z.

Lemma exact_entries_fst i : (exact_entries i).*1 = Exact.SortedKeys i.
Proof. unfold exact_entries. rewrite <-list_fmap_compose. apply list_fmap_id. Qed.
Lemma exact_entries_snd i : concat (exact_entries i).*2 = Exact.SortedKeys i ≫= run_of i.
Proof.
  unfold exact_entries. rewrite <-list_fmap_compose. induction (Exact.SortedKeys i) as [|k ks IH]; [done|].
  rewrite bind_cons, fmap_cons. cbn [concat]. by rewrite IH.
Qed.
Lemma sum_lengths {A B} (f : A → list B) xs z :
  foldl (λ n k, n + Z.of_nat (length (f k)))%Z z xs = (z + Z.of_nat (length (xs ≫= f)))%Z.
Proof.
  revert z. induction xs as [|x xs IH]; intros z; [simpl; lia|]. cbn [foldl]. rewrite IH, bind_cons, length_app. lia.
Qed.
Lemma sorted_keys_spec i k : k ∈ Exact.SortedKeys i ↔ is_Some (Exact.m i !! k).
Proof.
  unfold Exact.SortedKeys. rewrite (sort_slice_perm _ (less_by id)), list_elem_of_fmap. split.
  - intros ([k' x] & -> & Hin%elem_of_range). by exists x.
  - intros [x Hx]. exists (k, x). split; [done|]. by apply elem_of_range.
Qed.
Lemma part_length {A B} (f : A → list B) xs x : x ∈ xs → length (f x) ≤ length (xs ≫= f).
Proof. intros (l1 & l2 & ->)%list_elem_of_split. rewrite bind_app, bind_cons, !length_app. lia. Qed.
Lemma concat_bind {A} (xs : list (list A)) : concat xs = xs ≫= id.
Proof. induction xs as [|x xs IH]; [done|]. rewrite bind_cons. cbn [concat]. by rewrite IH. Qed.

Lemma restore_ords_le num ords n m :
  Exact.restore_ords num ords = Ok n → (num <= m)%N → (∀ o, o ∈ ords → (o < m)%N) → (n <= m)%N.
Proof.
  revert num. induction ords as [|o ords IH]; intros num; simpl; [intros [= ->]; done|].
  destruct (_ =? _)%N; [done|]. intros Hr Hle Ho. eapply IH; [exact Hr| |set_solver].
  specialize (Ho o ltac:(by left)). case_match; lia.
Qed.

(** What [Restore] makes of the written sections. *)
Lemma restore_written i : exact_ok i →
  ∃ idx, Exact.Restore (concat (exact_entries i).*1) (Exact.key_lens (exact_entries i)) (Exact.run_lens (exact_entries i))
      (concat (exact_entries i).*2) = Ok idx ∧
    (∀ k, Exact.Lookup idx k = Exact.Lookup i k) ∧ (Exact.NumOrds idx <= Exact.NumOrds i)%N.
Proof.
  intros (Hes & Hlk & Hord & _). pose proof (Exact.restore_total _ Hes) as Ht.
  destruct (Exact.Restore _ _ _ _) as [idx|] eqn:Hr; [|done]. exists idx. split; [done|].
  pose proof Hr as Hr0. apply Exact.restore_inv in Hr as (es' & Ha & Hk & Hrl & Hp & _ & Hl & Hn & _).
  assert (exact_entries i = es') as <- by (by apply Exact.entries_inj). split.
  - intros k. destruct (decide (k ∈ Exact.SortedKeys i)) as [Hin|Hin].
    + destruct (Hl k (run_of i k)) as (_ & _ & _ & ->); [apply list_elem_of_fmap; by exists k|].
      unfold run_of. by destruct (Hlk k) as [run ->].
    + rewrite Hn by by rewrite exact_entries_fst. unfold Exact.Lookup. destruct (Exact.m i !! k) eqn:Hm; [|done].
      destruct Hin. apply sorted_keys_spec. by eexists.
  - unfold Exact.Restore in Hr0.
    apply bind_ok in Hr0 as (u1 & _ & Hr0). apply bind_ok in Hr0 as ([[idx1 a1] p1] & _ & Hr0).
    apply bind_ok in Hr0 as (u2 & _ & Hr0). apply bind_ok in Hr0 as (u3 & _ & Hr0). apply bind_ok in Hr0 as (n & Ho & [= <-]).
    eapply restore_ords_le; [exact Ho|lia|]. rewrite exact_entries_snd. intros o (k & Ho' & _)%list_elem_of_bind. by eapply Hord.
Qed.

Lemma exact_meta_eq i digest build :
  exact_meta i digest build =
  mkExactMeta (Z.of_nat (length (Exact.SortedKeys i))) (Z.of_nat (length (concat (exact_entries i).*2)))
    (Z.of_nat (length (concat (exact_entries i).*1))) digest (Some build).
Proof.
  unfold exact_meta. rewrite (sum_lengths (run_of i)), (sum_lengths (λ k : bytes, k)). cbn [Z.add].
  by rewrite exact_entries_snd, exact_entries_fst, concat_bind.
Qed.

Lemma bind_bind {A B C} (xs : list A) (f : A → list B) (g : B → list C) : (xs ≫= f) ≫= g = xs ≫= λ x, f x ≫= g.
Proof. induction xs as [|x xs IH]; [done|]. rewrite !bind_cons, bind_app. by rewrite IH. Qed.
Lemma lens_size i keys : length keys * 2 ≤
  length (keys ≫= λ k, putUvarint (N.of_nat (length k)) ++ putUvarint (N.of_nat (length (run_of i k)))).
Proof.
  induction keys as [|k keys IH]; [done|]. rewrite bind_cons, !length_app. cbn [length].
  pose proof (uvarint_len (N.of_nat (length k))). pose proof (uvarint_len (N.of_nat (length (run_of i k)))). lia.
Qed.
Lemma postings_size ps : length (ps ≫= put_u32le) = 4 * length ps.
Proof. induction ps as [|p ps IH]; [done|]. rewrite bind_cons, length_app, IH. simpl. lia. Qed.
Lemma keys_size (es : list (bytes * list N)) : (∀ k p, (k, p) ∈ es → k ≠ [] ∧ p ≠ []) →
  length es ≤ length (concat es.*1) ∧ length es ≤ length (concat es.*2).
Proof.
  induction es as [|[k p] es IH]; intros Hne; [done|]. destruct (Hne k p ltac:(by left)) as [Hk Hp].
  destruct IH as [IH1 IH2]; [intros; apply Hne; by right|]. csimpl. rewrite !length_app.
  assert (1 ≤ length k) by (destruct k; [done|simpl; lia]). assert (1 ≤ length p) by (destruct p; [done|simpl; lia]). lia.
Qed.

Lemma load_save_exact i digest build :
  header_ok (marshal_exactMeta (exact_meta i digest build)) unmarshal_exactMeta (exact_meta i digest build) →
  exact_ok i → valid_build build (Exact.NumOrds i) →
  ∃ idx, LoadExact (SaveExact i digest build) = Ok (idx, digest, Some build) ∧ ∀ k, Exact.Lookup idx k = Exact.Lookup i k.
Proof.
  intros (Hu & Hne & Hlen) Hok Hb. destruct (restore_written i Hok) as (idx & Hr & Hlk & Hn). exists idx. split; [|done].
  destruct Hok as (Hes & _ & Hord & H32 & Ha & Hp). pose proof Hes as (_ & Hall & _).
  destruct (keys_size (exact_entries i)) as [Hk1 Hk2]; [intros k p H; by destruct (Hall k p H) as (? & ? & _)|].
  assert (length (exact_entries i) = length (Exact.SortedKeys i)) as Hle by (unfold exact_entries; by rewrite length_fmap).
  rewrite Hle in *. set (al := length (concat (exact_entries i).*1)) in *. set (pl := length (concat (exact_entries i).*2)) in *.
  set (lens := Exact.SortedKeys i ≫= λ k, putUvarint (N.of_nat (length k)) ++ putUvarint (N.of_nat (length (run_of i k)))).
  assert (SaveExact i digest build = write_header exactMagic (marshal_exactMeta (exact_meta i digest build)) ++
    concat (exact_entries i).*1 ++ lens ++ (concat (exact_entries i).*2 ≫= put_u32le)) as Hsave.
  { unfold SaveExact. by rewrite exact_entries_fst, exact_entries_snd, bind_bind. }
  assert (7 * Z.of_nat (length (Exact.SortedKeys i)) <= Z.of_nat (length (SaveExact i digest build)) ∧
    Z.of_nat al <= Z.of_nat (length (SaveExact i digest build)) ∧
    4 * Z.of_nat pl <= Z.of_nat (length (SaveExact i digest build)))%Z as (Hs1 & Hs2 & Hs3).
  { rewrite Hsave, !length_app, postings_size. pose proof (lens_size i (Exact.SortedKeys i)) as Hl. fold lens in Hl. fold al pl. lia. }
  unfold LoadExact. set (size := Z.of_nat (length (SaveExact i digest build))) in *. rewrite Hsave.
  match goal with |- (?m ≫= ?f) = _ => assert (m = Ok ((idx, digest, Some build), [])) as -> end; [|done].
  eapply reader_ok; [by apply read_header_write|]. rewrite Hu, exact_meta_eq. fold al pl.
  eapply reader_ok; [reflexivity|]. cbv iota beta.
  eapply reader_ok; [apply refuse_if_ok; rewrite !(proj2 (Z.ltb_ge _ _)) by lia; done|].
  eapply reader_ok; [apply refuse_if_ok, Z.ltb_ge; unfold minExactKeyBytes; zlia|].
  eapply reader_ok; [apply refuse_if_ok, Z.ltb_ge; lia|].
  eapply reader_ok; [apply refuse_if_ok, Z.ltb_ge; zlia|].
  rewrite !Nat2Z.id. eapply reader_ok; [apply read_full_app|].
  eapply reader_ok.
  { unfold lens. apply read_lens_write; [lia|lia|]. intros k Hk. unfold al, pl. rewrite exact_entries_snd, exact_entries_fst.
    pose proof (part_length (run_of i) _ _ Hk). rewrite concat_bind. pose proof (part_length id _ _ Hk) as Hi. unfold id in Hi at 1. lia. }
  cbn [fst snd]. eapply reader_ok.
  { rewrite <-(app_nil_r (_ ≫= put_u32le)). unfold pl at 1. rewrite <-postings_size. apply read_full_app. }
  eapply reader_ok; [reflexivity|]. eapply reader_ok.
  { apply of_check_ok. unfold pl. rewrite get_postings_write.
    - fold (exact_entries i). rewrite Hr. done.
    - apply Forall_forall. intros o Ho. rewrite exact_entries_snd in Ho. apply list_elem_of_bind in Ho as (k & Hk & _).
      specialize (Hord _ _ Hk). lia. }
  eapply reader_ok; [|done]. apply of_check_ok, check_build_valid. destruct Hb as (? & ? & ? & ?). split_and!; lia.
Qed.

Lemma load_exact_safe file i digest build :
  LoadExact file = Ok (i, digest, build) →
  (∀ k, ∃ run, Exact.Lookup i k = Some run ∧ ∀ o, o ∈ run → (o < Exact.NumOrds i)%N) ∧
  ∀ b, build = Some b → valid_build b (Exact.NumOrds i).
Proof.
  unfold LoadExact. intros ([r rest0] & H & [= Hr])%bind_ok. simpl in Hr. subst r.
  apply reader_inv in H as (hdr & in1 & _ & H). apply reader_inv in H as ([kc pl al an bi] & in2 & _ & H).
  apply reader_inv in H as (u1 & in3 & _ & H). apply reader_inv in H as (u2 & in4 & _ & H).
  apply reader_inv in H as (u3 & in5 & _ & H). apply reader_inv in H as (u4 & in6 & _ & H).
  apply reader_inv in H as (arena & in7 & _ & H). apply reader_inv in H as (lens & in8 & _ & H).
  apply reader_inv in H as (raw & in9 & _ & H). apply reader_inv in H as (u5 & in10 & _ & H).
  apply reader_inv in H as (i' & in11 & Hi%of_check_inv & H).
  apply reader_inv in H as (b' & in12 & Hb%of_check_inv & [= <- _ <- _]).
  destruct (Exact.Restore _ _ _ _) as [i1|] eqn:Hre; [|done]. injection Hi as <-.
  apply Exact.restore_inv in Hre as (es & _ & _ & _ & Hps & _ & Hin & Hout & Hord & _). split.
  - intros k. destruct (decide (k ∈ es.*1)) as [Hk|Hk].
    + apply list_elem_of_fmap in Hk as ([k' p] & -> & Hkp). exists p. split; [by apply Hin|].
      intros o Ho. apply Hord. rewrite Hps, concat_bind. apply list_elem_of_bind. exists p. split; [done|].
      apply list_elem_of_fmap. by exists (k', p).
    + exists []. split; [by apply Hout|]. by intros o ?%elem_of_nil.
  - intros b ->. destruct bi as [b0|]; [|unfold check_build in Hb; by apply bind_ok in Hb as (? & _ & ?)].
    apply check_build_ok in Hb as [?|[[= <-] ?]]; done.
Qed.

(** The n-gram cache survives the disk.  Whatever order the maps iterate in, the
    file [Save] writes for an index over accepted gram sizes, with grams the reader
    bounds allow and a build record consistent with it, loads back as the index: the
    same configuration and ordinal bound, postings for the same grams with the same
    ordinals, the same digest and record. *)
Theorem artifact_ngram_roundtrip i digest build :
  header_ok (marshal_meta (idx_meta i digest build)) unmarshal_meta (idx_meta i digest build) →
  Ngram.Grams (Ngram.cfg i) ≠ [] → Forall (λ g, 1 <= g <= Ngram.MaxGramSize)%Z (Ngram.Grams (Ngram.cfg i)) →
  Ngram.well_formed i → valid_build build (Ngram.numOrds i) →
  (∀ g, is_Some (Ngram.postings i !! g) → g ≠ [] ∧ (N.of_nat (length g) <= maxLen)%N) →
  ∃ ps', Load (Save i digest build) = Ok (Ngram.mkIndex (Ngram.cfg i) ps' (Ngram.numOrds i), digest, Some build) ∧
    (∀ g, is_Some (ps' !! g) ↔ is_Some (Ngram.postings i !! g)) ∧
    ∀ g, Ngram.posted ps' g = Ngram.posted (Ngram.postings i) g.
Proof. apply load_save. Qed.

(** The exact cache survives the disk.  The file [SaveExact] writes for an index
    whose sections fit, with a build record consistent with it, loads back as an
    index that looks up the same ordinals for every key, with the same digest and
    record. *)
Theorem artifact_exact_roundtrip i digest build :
  header_ok (marshal_exactMeta (exact_meta i digest build)) unmarshal_exactMeta (exact_meta i digest build) →
  exact_ok i → valid_build build (Exact.NumOrds i) →
  ∃ idx, LoadExact (SaveExact i digest build) = Ok (idx, digest, Some build) ∧ ∀ k, Exact.Lookup idx k = Exact.Lookup i k.
Proof. apply load_save_exact. Qed.

(** C39: what the cache readers check of a file, and what they leave to roaring.
    Whatever the bytes, an n-gram file that loads gives gram sizes in range and
    bitmaps whose own [Maximum] is below the bound or whose cardinality is zero.  The
    readers do not check the structure of a bitmap and roaring's [ReadFrom] does not
    promise to; for a file whose bitmaps are sound, every posted ordinal is below the
    bound, so no lookup leaves the accumulator.  An exact file gives, with no such
    condition, runs that never slice out of bounds and ordinals below the bound; and a
    build record that is passed on, of either, has non-negative counts, no more
    keyless entries than entries, and no fewer entries than ordinals. *)
Theorem artifact_load_safe file :
  (∀ i digest build, Load file = Ok (i, digest, build) →
     Forall (λ g, 1 <= g <= Ngram.MaxGramSize)%Z (Ngram.Grams (Ngram.cfg i)) ∧
     (∀ g bm, Ngram.postings i !! g = Some bm → bm_card bm = 0%N ∨ (bm_max bm < Ngram.numOrds i)%N) ∧
     (Ngram.sound_postings (Ngram.postings i) → Ngram.well_formed i) ∧
     ∀ b, build = Some b → valid_build b (Ngram.numOrds i)) ∧
  (∀ i digest build, LoadExact file = Ok (i, digest, build) →
     (∀ k, ∃ run, Exact.Lookup i k = Some run ∧ ∀ o, o ∈ run → (o < Exact.NumOrds i)%N) ∧
     ∀ b, build = Some b → valid_build b (Exact.NumOrds i)).
Proof. split; intros i digest build; [apply load_safe|apply load_exact_safe]. Qed.
End spec.

(** Saves are deterministic: map iteration order does not show. *)
Lemma save_deterministic (RT1 RT2 : GoRuntime) `{AL : ArtifactLib} {FO : FloatOps} i digest build :
  Save (RT := RT1) i digest build = Save (RT := RT2) i digest build.
Proof.
  unfold Save. f_equal. f_equal. unfold sorted_grams.
  assert (∀ RT : GoRuntime, NoDup (id <$> (range_map 0 (Ngram.postings i)).*1)) as Hnd.
  { intros RT. rewrite list_fmap_id. apply range_nodup. }
  apply (StronglySorted_unique bytes_le).
  - eapply strongly_sorted_mono; [|apply (@sort_slice_by_sorted RT1 _ id)]. done.
  - eapply strongly_sorted_mono; [|apply (@sort_slice_by_sorted RT2 _ id)]. done.
  - rewrite !sort_slice_perm. by rewrite !range_map_perm.
Qed.
