(* ===== verification/StoreSpec.v ===== *)
(** What the procedures of [Store] do to the disk, whatever calls fail and
    wherever the process dies. *)

From S2P Require Import Prelude.
From S2P Require Import Runtime.
From S2P Require Import Analyzer.
From S2P Require Import Score.
From S2P Require Import Bitmap.
From S2P Require Import Types.
From S2P Require Import ListConfig.
From S2P Require Import Segment.
From S2P Require Import ListModel.
From S2P Require Import ListRefine.
From S2P Require Import Journal.
From S2P Require Import Disk.
From S2P Require Import Store.

(** ** The files that carry state *)

(** Temporary files, the index cache and a quarantined journal do not. *)
Definition vital (f : bytes) : bool := bool_decide (f ∈ [markerFile; configFile; baseFile; journalFile]).
Definition agree (d d' : dir) : Prop := ∀ f, vital f → d !! f = d' !! f.

#[export] Instance agree_equiv : Equivalence agree.
Proof.
  split; [by intros d f|intros d d' H f Hf; symmetry; by apply H|].
  intros d1 d2 d3 H1 H2 f Hf. rewrite H1 by done. by apply H2.
Qed.

Lemma agree_insert d d' f c : agree d d' → agree (<[f := c]> d) (<[f := c]> d').
Proof. intros H g Hg. destruct (decide (f = g)) as [->|]; [by rewrite !lookup_insert_eq|]. rewrite !lookup_insert_ne by done. by apply H. Qed.
Lemma agree_other d f c : vital f = false → agree d (<[f := c]> d).
Proof. intros Hf g Hg. rewrite lookup_insert_ne; [done|]. intros ->. by rewrite Hf in Hg. Qed.
Lemma agree_delete_other d f : vital f = false → agree d (delete f d).
Proof. intros Hf g Hg. rewrite lookup_delete_ne; [done|]. intros ->. by rewrite Hf in Hg. Qed.
Lemma agree_lookup d d' f : agree d d' → vital f → d' !! f = d !! f.
Proof. intros H Hf. symmetry. by apply H. Qed.

Lemma temp_not_vital prefix tmp :
  prefix ∈ [temp_base; temp_cfg; temp_idx] → prefix `prefix_of` tmp → vital tmp = false ∧ tmp ≠ idxFile.
Proof.
  intros Hp Hpre.
  assert (Forall (λ p, Forall (λ f, ¬ p `prefix_of` f) [markerFile; configFile; baseFile; journalFile; idxFile]) [temp_base; temp_cfg; temp_idx]) as Hall.
  { apply (bool_decide_unpack _). vm_compute. exact I. }
  rewrite Forall_forall in Hall. specialize (Hall _ Hp). rewrite Forall_forall in Hall. split.
  - apply bool_decide_eq_false. intros Hin. apply (Hall tmp); [set_solver|done].
  - intros ->. apply (Hall idxFile); [set_solver|done].
Qed.
Lemma temp_name_not_vital prefix d : prefix ∈ [temp_base; temp_cfg; temp_idx] → vital (temp_name prefix d) = false.
Proof. intros Hp. eapply temp_not_vital; [exact Hp|apply temp_name_prefix]. Qed.

Section specs.
Context {RT : GoRuntime} {TL : TextLib} {BL : BitmapLib} {FO : FloatOps} {DL : DigestLib} {CD : Codec} {AC : ArtifactCodec}.
Implicit Types (X : store_error → dir → memory → Prop) (D : dir → Prop).

(** ** Writing files *)

Lemma wp_or_syscall {A} (run : dir → result os_error A * dir) partial (Q : A → dir → memory → Prop) X D d s :
  (let '(r, d') := run d in match r with Ok a => Q a d' s | Err e => X (Os e) d' s end) →
  (∀ n, X (Os OtherError) (partial n d) s) → (∀ n, D (partial n d)) →
  wp (or_fail Os (syscall run partial)) Q X D d s.
Proof. intros H1 H2 H3. apply wp_or_fail, wp_syscall; [|done|done]. by destruct (run d) as [[]]. Qed.

(** A temporary file, written, flushed and closed. *)
Lemma wp_fill_temp {A} tmp data (k : op A) (Q : A → dir → memory → Prop) X D d s :
  vital tmp = false → is_Some (d !! tmp) →
  (∀ d', agree d d' → X (Os OtherError) d' s ∧ D d') →
  (∀ d', agree d d' → d' !! tmp = Some (default [] (d !! tmp) ++ data) → wp k Q X D d' s) →
  wp (_ ← or_fail Os (write tmp data); _ ← or_fail Os flush; _ ← or_fail Os flush; k) Q X D d s.
Proof.
  intros Hv [c Hc] Hbad Hk. assert (∀ n, agree d (append tmp (take n data) d)) as Hpart by (intros n; by apply agree_other).
  assert (agree d (append tmp data d)) as Hdone by by apply agree_other.
  apply wp_bind, wp_or_syscall; [|intros n; by apply Hbad|intros n; by apply Hbad].
  apply wp_bind, wp_or_syscall; [|intros n; by apply Hbad|intros n; by apply Hbad].
  apply wp_bind, wp_or_syscall; [|intros n; by apply Hbad|intros n; by apply Hbad].
  apply Hk; [done|]. unfold append. by rewrite lookup_insert_eq.
Qed.

Lemma wp_remove_temp tmp (Q : dir → memory → Prop) D d s :
  vital tmp = false → (∀ d', agree d d' → Q d' s ∧ D d') → wp (remove tmp) (λ _, Q) (λ (_ : store_error) _ _, False) D d s.
Proof.
  intros Hv H. apply wp_syscall; [|intros n; by apply H|intros n; by apply H].
  destruct (d !! tmp); apply H; [by apply agree_delete_other|done].
Qed.

(** A file is replaced as a whole or not at all. *)
Lemma wp_replace_file tmp f (Q : result os_error () → dir → memory → Prop) X D d s c :
  vital tmp = false → d !! tmp = Some c →
  (∀ d', agree (<[f := c]> d) d' → Q (Ok ()) d' s) → Q (Err OtherError) d s → D d →
  wp (rename tmp f) Q X D d s.
Proof.
  intros Hv Hc Hok Herr Hd. apply wp_syscall; [|done|done]. rewrite Hc. apply Hok. apply agree_insert. by apply agree_delete_other.
Qed.

Lemma wp_flushes (Q : () → dir → memory → Prop) X D d s :
  Q () d s → X (Os OtherError) d s → D d → wp syncDir Q X D d s.
Proof.
  intros. unfold syncDir. apply wp_bind, wp_or_syscall; [|done|done]. apply wp_bind, wp_or_syscall; [|done|done].
  by apply wp_or_syscall.
Qed.

Lemma agree_step d d1 d2 : agree d d1 → agree d1 d2 → agree d d2.
Proof. by etrans. Qed.

Lemma wp_writeFileAtomic f data (Q : () → dir → memory → Prop) X D d s :
  (∀ d', agree d d' → X (Os OtherError) d' s ∧ D d') →
  (∀ d', agree (<[f := data]> d) d' → Q () d' s ∧ X (MarkerPublished OtherError) d' s ∧ D d') →
  wp (writeFileAtomic f data) Q X D d s.
Proof.
  intros Hold Hnew. unfold writeFileAtomic. apply wp_bind, wp_or_syscall; [|intros n; by apply Hold|intros n; by apply Hold].
  set (tmp := temp_name temp_cfg d). assert (vital tmp = false) as Hv by (apply temp_name_not_vital; set_solver).
  assert (agree d (<[tmp := []]> d)) as Ha by by apply agree_other.
  apply wp_deferred, wp_fill_temp; [done|by rewrite lookup_insert_eq| |].
  - intros d' Hd'. split; [|by apply Hold; etrans]. apply wp_remove_temp; [done|]. intros d2 Hd2.
    apply Hold. etrans; [|exact Hd2]. by etrans.
  - intros d1 Hd1 Htmp. rewrite lookup_insert_eq in Htmp. simpl in Htmp. assert (agree d d1) as Hdd1 by by etrans.
    apply wp_bind, wp_or_fail, (wp_replace_file tmp f _ _ _ _ _ data); [done|done| | |by apply Hold].
    + intros d2 Hd2. assert (agree (<[f := data]> d) d2) as Hn by (etrans; [|exact Hd2]; by apply agree_insert).
      apply wp_bind, wp_try, wp_flushes; [apply wp_ret|apply wp_throw|by apply Hnew];
        (apply wp_remove_temp; [done|]; intros d3 Hd3; destruct (Hnew d3 ltac:(by etrans)) as (? & ? & ?); by split).
    + apply wp_remove_temp; [done|]. intros d2 Hd2. apply Hold. by etrans.
Qed.

Lemma wp_writeBaseTemp es (Q : bytes * bytes → dir → memory → Prop) X D d s :
  (∀ e d', agree d d' → X e d' s ∧ D d') →
  (∀ content tmp d', encode_base es = Ok content → agree d d' → temp_base `prefix_of` tmp → d' !! tmp = Some content →
     Q (tmp, baseIDFromHash content) d' s) →
  wp (writeBaseTemp es) Q X D d s.
Proof.
  intros Hbad Hok. unfold writeBaseTemp. apply wp_bind, wp_or_syscall; [|intros n; by apply Hbad|intros n; by apply (Hbad StoreClosed)].
  set (tmp := temp_name temp_base d). assert (vital tmp = false) as Hv by (apply temp_name_not_vital; set_solver).
  assert (agree d (<[tmp := []]> d)) as Ha by by apply agree_other.
  assert (∀ e d', agree d d' → wp (_ ← flush; _ ← remove tmp; throw e) Q X D d' s) as Hclean.
  { intros e d1 H1. apply wp_bind, wp_quiet; [| |by apply (Hbad e)];
      (apply wp_bind; eapply wp_mono; [apply (wp_remove_temp tmp (λ d2 s2, X e d2 s2) D); [done|]|intros ? ? ? HX; apply wp_throw; exact HX|by intros|done];
       intros d2 H2; apply (Hbad e); by etrans). }
  apply wp_bind, wp_try, wp_bind. unfold of_encode. destruct (encode_base es) as [content|e] eqn:He; [|by apply wp_throw, Hclean].
  apply wp_ret, wp_fill_temp; [done|by rewrite lookup_insert_eq| |].
  - intros d' Hd'. split; [apply Hclean; by etrans|apply (Hbad StoreClosed); by etrans].
  - intros d1 H1 Htmp. rewrite lookup_insert_eq in Htmp. apply wp_ret, wp_ret, Hok; [done|by etrans|apply temp_name_prefix|done].
Qed.

(** The base is replaced as a whole or not at all, and the caller learns which. *)
Lemma wp_persistBase es (Q : bool * result store_error bytes → dir → memory → Prop) X D d s :
  (∀ e d', agree d d' → Q (false, Err e) d' s ∧ D d') →
  (∀ content d', encode_base es = Ok content → agree (<[baseFile := content]> d) d' →
     Q (true, Ok (baseIDFromHash content)) d' s ∧ (∀ e, Q (true, Err e) d' s) ∧ D d') →
  wp (persistBase es) Q X D d s.
Proof.
  intros Hold Hnew. unfold persistBase. apply wp_bind, wp_try, wp_writeBaseTemp.
  { intros e d' Hd'. split; [apply wp_ret|]; by apply (Hold e). }
  intros content tmp d1 He H1 Hpre Htmp.
  destruct (temp_not_vital temp_base tmp ltac:(set_solver) Hpre) as [Hv Hidx]. apply wp_deferred, wp_bind.
  assert (∀ e d', agree d d' → wp (remove tmp) (λ _, Q (false, Err e)) (λ (_ : store_error) _ _, False) D d' s) as Hback.
  { intros e d' Hd'. apply wp_remove_temp; [done|]. intros d2 H2. apply Hold. by etrans. }
  assert (∀ d', agree d1 d' → d' !! tmp = Some content → wp (r ← rename tmp baseFile;
     match r with
     | Err e => mret (false, Err (Os e))
     | Ok _ => r ← try syncDir; mret (true, match r with Ok _ => Ok (baseIDFromHash content) | Err e => Err e end)
     end) (λ a, wp (remove tmp) (λ _, Q a) (λ (_ : store_error) _ _, False) D) (λ e, wp (remove tmp) (λ _, X e) (λ (_ : store_error) _ _, False) D) D d' s) as Hren.
  { intros d' Hd' Ht. assert (agree d d') as Hdd' by by etrans.
    apply wp_bind, (wp_replace_file tmp baseFile _ _ _ _ _ content); [done|done| | |by apply (Hold StoreClosed)].
    - intros d2 H2. assert (agree (<[baseFile := content]> d) d2) as Hn by (etrans; [|exact H2]; by apply agree_insert).
      apply wp_bind, wp_try, wp_flushes; [apply wp_ret|apply wp_ret|by destruct (Hnew content d2 He Hn) as (? & ? & ?)];
        (apply wp_remove_temp; [done|]; intros d3 H3; destruct (Hnew content d3 He ltac:(by etrans)) as (? & ? & ?); split; auto).
    - by apply wp_ret, Hback. }
  apply wp_syscall; [|intros n; by apply wp_ret, Hback|intros n; by apply (Hold StoreClosed)].
  destruct (d1 !! idxFile).
  - apply Hren; [by apply agree_delete_other|]. by rewrite lookup_delete_ne.
  - by apply Hren.
Qed.

(** ** The journal *)

Definition journal (d : dir) : bytes := default [] (d !! journalFile).
(** The other files as in [d], and this journal. *)
Definition with_journal (d : dir) (c : bytes) (d' : dir) : Prop :=
  (∀ f, vital f → f ≠ journalFile → d !! f = d' !! f) ∧ journal d' = c.

Lemma with_journal_set d c d1 c' : with_journal d c d1 → with_journal d c' (<[journalFile := c']> d1).
Proof.
  intros [H _]. split; [|unfold journal; by rewrite lookup_insert_eq].
  intros f Hf Hne. rewrite lookup_insert_ne by done. by apply H.
Qed.
Lemma with_journal_refl d : with_journal d (journal d) d.
Proof. by split. Qed.
Lemma with_journal_append d c d1 data : with_journal d c d1 → with_journal d (c ++ data) (append journalFile data d1).
Proof. intros H. unfold append. pose proof H as [_ Hj]. unfold journal in Hj. rewrite Hj. by eapply with_journal_set. Qed.
Lemma agree_with_journal d d1 : agree d d1 → with_journal d (journal d) d1.
Proof. intros H. split; [by intros f Hf _; apply H|]. unfold journal. by rewrite <-(H journalFile). Qed.

Definition damaged (k : damageKind) (m : memory) : memory := on_state (set_damage k) m.
Definition hashed (buf : bytes) (m : memory) : memory :=
  on_state (λ ls, match ls_l ls with
                  | Some l => set_l (match jhash l with Some h => setJournalHash (Some (h ++ buf)) l | None => l end) ls
                  | None => ls end) m.

(** A failed append is taken back, or the list is marked. *)
Lemma wp_rollback d c more d1 start closed (Q : () → dir → memory → Prop) X D s :
  with_journal d (c ++ more) d1 → is_Some (d1 !! journalFile) → start = length c →
  (∀ d', with_journal d c d' → Q () d' s) →
  (∀ d', with_journal d (c ++ more) d' → Q () d' (damaged damageContent s)) →
  (∀ d', with_journal d c d' ∨ with_journal d (c ++ more) d' → D d') →
  wp (rollback start closed) Q X D d1 s.
Proof.
  intros H1 [j Hj] -> Hok Hbad Hd. unfold rollback.
  assert (∀ d' s', (∀ d2, d2 = d' → Q () d2 s') → D d' → wp (if closed then mret () else (_ ← flush; mret ())) Q X D d' s') as Hend.
  { intros d' s' H HD. destruct closed; [by apply wp_ret, H|]. apply wp_bind, wp_quiet; [by apply wp_ret, H..|done]. }
  apply wp_bind, wp_syscall; [|intros n|intros n; apply Hd; by right].
  - rewrite Hj. apply wp_bind, wp_ret, Hend; [|apply Hd; left];
      [intros d2 ->; apply Hok|]; (destruct H1 as [H1 Hj1]; unfold journal in Hj1; rewrite Hj in Hj1; simpl in Hj1; subst j;
       rewrite take_app_length, length_app, (proj2 (Nat.sub_0_le _ _)), app_nil_r by lia;
       split; [intros f Hf Hne; rewrite lookup_insert_ne by done; by apply H1|unfold journal; by rewrite lookup_insert_eq]).
  - apply wp_bind, wp_put_mem, Hend; [intros d2 ->; by apply Hbad|apply Hd; by right].
Qed.

Lemma wp_syncPath f (Q : () → dir → memory → Prop) X D d s :
  is_Some (d !! f) → Q () d s → X (Os OtherError) d s → D d → wp (syncPath f) Q X D d s.
Proof.
  intros [c Hc] HQ HX HD. unfold syncPath. apply wp_bind, wp_or_syscall; [rewrite Hc|done|done].
  apply wp_bind, wp_or_syscall; [|done|done]. by apply wp_or_syscall.
Qed.

Lemma wp_appendJournal mode rs (Q : Z → dir → memory → Prop) X D d s :
  let k := ls_damage (m_ls s) in
  (k ≠ damageNone → X (ListDamaged k) d s) →
  (∀ e, encode_recs rs = Err e → X (EncodeFailed e) d s) →
  (∀ buf, encode_recs rs = Ok buf → k = damageNone →
     (∀ d', with_journal d (journal d ++ buf) d' → is_Some (d' !! journalFile) →
        Q (Z.of_nat (length (journal d ++ buf))) d' (hashed buf s)) ∧
     (∀ e d', with_journal d (journal d) d' → X e d' s) ∧
     (∀ e d' n, with_journal d (journal d ++ take n buf) d' → X e d' (damaged damageContent s)) ∧
     (∀ d' n, with_journal d (journal d ++ take n buf) d' → D d')) →
  wp (appendJournal mode rs) Q X D d s.
Proof.
  intros k Hdam Henc Hok. unfold appendJournal, refuse_damaged, getDamage.
  apply wp_bind, wp_bind, wp_bind, wp_get_mem, wp_ret. fold k. case_bool_decide as Hk; simpl.
  2:{ unfold damageErr, getDamage. apply wp_bind, wp_bind, wp_get_mem, wp_ret, wp_throw. by apply Hdam. }
  apply wp_ret, wp_bind. unfold of_encode. destruct (encode_recs rs) as [buf|e] eqn:He; [|apply wp_throw; by apply Henc].
  destruct (Hok buf eq_refl Hk) as (HQ & HX & HX' & HD). clear Hdam Henc Hok.
  assert (∀ d', with_journal d (journal d) d' → D d') as HD0.
  { intros d' H. apply (HD d' 0). by rewrite take_0, app_nil_r. }
  assert (∀ d' n, with_journal d (journal d ++ take n buf) d' → D d') as HD' by exact HD.
  apply wp_ret, wp_bind, wp_or_syscall; [|intros n; apply HX, with_journal_refl|intros n; apply HD0, with_journal_refl].
  set (d1 := <[journalFile := journal d]> d). assert (with_journal d (journal d) d1) as H1 by (eapply with_journal_set, with_journal_refl).
  assert (is_Some (d1 !! journalFile)) as Hs1 by (unfold d1; by rewrite lookup_insert_eq).
  change (<[journalFile := default [] (d !! journalFile)]> d) with d1.
  apply wp_bind, wp_syscall; [|intros n; apply wp_bind, wp_quiet; [by apply wp_throw, HX..|by apply HD0]|intros n; by apply HD0].
  change (default [] (d1 !! journalFile)) with (journal d1). pose proof H1 as [_ ->].
  assert (∀ d2 m closed e, with_journal d (journal d ++ take m buf) d2 → is_Some (d2 !! journalFile) →
    wp (_ ← rollback (length (journal d)) closed; throw e) Q X D d2 s) as Hback.
  { intros d2 m closed e H2 Hs2. apply wp_bind, (wp_rollback d (journal d) (take m buf)); [done|done|done| | |].
    - intros d' Hd'. by apply wp_throw, HX.
    - intros d' Hd'. by eapply wp_throw, HX'.
    - intros d' [Hd'|Hd']; [by apply HD0|by eapply HD]. }
  assert (∀ m, with_journal d (journal d ++ take m buf) (append journalFile (take m buf) d1)) as Hpart by (intros m; by apply with_journal_append).
  assert (∀ m, is_Some (append journalFile (take m buf) d1 !! journalFile)) as Hsome by (intros m; unfold append; by rewrite lookup_insert_eq).
  apply wp_bind, wp_syscall; [|intros m; by apply (Hback _ m)|intros m; by apply (HD _ m)].
  specialize (Hpart (length buf)) as H2. specialize (Hsome (length buf)) as Hs2. rewrite firstn_all in H2, Hs2.
  set (d2 := append journalFile buf d1) in *.
  assert (∀ closed e, wp (_ ← rollback (length (journal d)) closed; throw e) Q X D d2 s) as Hback2.
  { intros closed e. apply (Hback d2 (length buf)); [by rewrite firstn_all|done]. }
  assert (D d2) as HD2 by (apply (HD d2 (length buf)); by rewrite firstn_all).
  assert (∀ (k : result os_error () → op Z), wp (k (Ok ())) Q X D d2 s → wp (k (Err OtherError)) Q X D d2 s →
    wp (s ← (match mode with FsyncEvery => flush | _ => mret (Ok ()) end); k s) Q X D d2 s) as Hsync.
  { intros k' Hk1 Hk2. apply wp_bind. destruct mode; [by apply wp_ret|by apply wp_quiet|by apply wp_ret]. }
  apply Hsync; [|apply Hback2]. apply wp_bind, wp_quiet; [|apply Hback2|done].
  assert (∀ (k : result store_error () → op Z), wp (k (Ok ())) Q X D d2 s → (∀ e, wp (k (Err e)) Q X D d2 s) →
    wp (s ← (match mode with FsyncInterval => try syncPath_journal | _ => mret (Ok ()) end); k s) Q X D d2 s) as Hgroup.
  { intros k' Hk1 Hk2. apply wp_bind. destruct mode; [by apply wp_ret|by apply wp_ret|].
    apply wp_try, wp_syncPath; [done|done|apply Hk2|done]. }
  apply Hgroup; [|intros e; apply Hback2]. apply wp_bind, wp_put_mem, wp_ret. rewrite <-length_app. by apply HQ.
Qed.

(** Emptying the journal, or marking the list. *)
Lemma wp_empty_journal (Q : () → dir → memory → Prop) X D d s :
  (∀ d', with_journal d [] d' → Q () d' s) →
  (∀ e d' c, with_journal d c d' → c = journal d ∨ c = [] → X e d' (damaged damageContent s)) →
  (∀ d' c, with_journal d c d' → c = journal d ∨ c = [] → D d') →
  wp empty_journal Q X D d s.
Proof.
  intros HQ HX HD. unfold empty_journal. pose proof (with_journal_refl d) as H0.
  apply wp_bind, wp_syscall; [|intros n; by apply wp_bind, wp_put_mem, wp_throw, (HX _ _ (journal d)); auto|
    intros n; by apply (HD _ (journal d)); auto].
  destruct (d !! journalFile) as [c|] eqn:Hj.
  2:{ apply wp_ret, HQ. unfold journal in H0. by rewrite Hj in H0. }
  simpl. assert (with_journal d [] (<[journalFile := []]> d)) as H1 by by eapply with_journal_set.
  apply wp_bind, wp_try, wp_syncPath; [by rewrite lookup_insert_eq|by apply wp_ret, HQ| |by eapply HD; eauto].
  apply wp_bind, wp_put_mem, wp_throw. by eapply HX; eauto.
Qed.

(** The index cache: nothing that carries state changes. *)
Lemma wp_save_file data (Q : () → dir → memory → Prop) X D d s :
  (∀ d', agree d d' → Q () d' s ∧ (∀ e, X e d' s) ∧ D d') → wp (save_file data) Q X D d s.
Proof.
  intros H. unfold save_file. apply wp_bind, wp_or_syscall; [|intros n; by apply H|intros n; by apply H].
  set (tmp := temp_name temp_idx d). assert (vital tmp = false) as Hv by (apply temp_name_not_vital; set_solver).
  assert (agree d (<[tmp := []]> d)) as Ha by by apply agree_other.
  assert (∀ d1, agree d d1 → wp (remove tmp) (λ _, X (Os OtherError)) (λ (_ : store_error) _ _, False) D d1 s) as Hclean.
  { intros d1 H1. apply wp_remove_temp; [done|]. intros d2 H2. destruct (H d2 ltac:(by etrans)) as (? & ? & ?). auto. }
  apply wp_deferred, wp_fill_temp; [done|by rewrite lookup_insert_eq| |].
  - intros d1 H1. split; [apply Hclean; by etrans|apply H; by etrans].
  - intros d1 H1 Htmp. assert (agree d d1) as Hd1 by by etrans.
    apply wp_or_syscall; [|intros n; by apply Hclean|intros n; by apply H]. rewrite Htmp.
    apply wp_remove_temp; [done|]. intros d2 H2. assert (agree d d2) as Hd2.
    { etrans; [exact Hd1|]. etrans; [|exact H2]. etrans; [by apply (agree_delete_other d1 tmp)|by apply agree_other]. }
    by destruct (H d2 Hd2) as (? & ? & ?).
Qed.

Lemma wp_saveArtifact l ng ex (Q : () → dir → memory → Prop) X D d s :
  (∀ d', agree d d' → Q () d' s ∧ D d') → wp (saveArtifact l ng ex) Q X D d s.
Proof.
  intros H. unfold saveArtifact. destruct (BuildStats l) as [dropped keyless].
  assert (∀ data, wp (_ ← try (save_file data); mret ()) Q X D d s) as Hsave.
  { intros data. apply wp_bind, wp_try, wp_save_file. intros d' Hd'. destruct (H d' Hd').
    split_and!; [by apply wp_ret|intros e; by apply wp_ret|done]. }
  destruct ng; [apply Hsave|]. destruct ex; [apply Hsave|]. apply wp_ret, H. done.
Qed.

Lemma wp_publish_base es (Q : bytes → dir → memory → Prop) X D d s :
  (∀ e d', agree d d' → X e d' s ∧ D d') →
  (∀ content d', encode_base es = Ok content → agree (<[baseFile := content]> d) d' →
     Q (baseIDFromHash content) d' s ∧ (∀ e, X e d' (damaged damageContent s)) ∧ D d') →
  wp (publish_base es) Q X D d s.
Proof.
  intros Hold Hnew. unfold publish_base. apply wp_bind, wp_persistBase.
  - intros e d' Hd'. split; [apply wp_bind, wp_ret, wp_throw|]; by apply (Hold e).
  - intros content d' He Hd'. destruct (Hnew content d' He Hd') as (HQ & HX & HD).
    split_and!; [by apply wp_ret|intros e; by apply wp_bind, wp_put_mem, wp_throw|done].
Qed.
End specs.
