(* ===== verification/StoreInv.v ===== *)
(** Disk and memory of a list agree: the invariant of a served list, its
    preservation by the journaled mutations, Replace and Compact under faults, and
    what a crash in them leaves. *)

From S2P Require Import Prelude.
From S2P Require Import Runtime.
From S2P Require Import Analyzer.
From S2P Require Import Score.
From S2P Require Import Bitmap.
From S2P Require Import Types.
From S2P Require Import ListConfig.
From S2P Require Import Segment.
From S2P Require Import ListModel.
From S2P Require Import ListRefine.
From S2P Require Import Journal.
From S2P Require Import Disk.
From S2P Require Import Store.
From S2P Require Import StoreSpec.

Section inv.
Context {RT : GoRuntime} {TL : TextLib} {BL : BitmapLib} {FO : FloatOps} {DL : DigestLib} {CD : Codec} {AC : ArtifactCodec}.

(** SHA-256 digests are not empty. *)
Context (digest_ne : ∀ b, sha256 b ≠ []).

(** ** The relation of disk and memory *)

(** The directory declares the list's configuration and is not marked. *)
Definition conf_ok (name : bytes) (d : dir) (l : GoList) : Prop :=
  l_name l = name ∧ readOnly l = false ∧ cfgDigest l = resolvedConfigDigest (l_cfg l) (l_an l) ∧
  d !! markerFile = None ∧
  ∃ raw c, d !! configFile = Some raw ∧ unmarshal_config raw = Some c ∧ resolveConfig c = Ok (l_cfg l, l_an l).

(** The base file holds the base's entries, and its hash is the base identity. *)
Definition base_ok (d : dir) (l : GoList) : Prop :=
  match base (snap l) with
  | None => d !! baseFile = None ∧ baseID l = $"empty"
  | Some seg => ∃ content es, d !! baseFile = Some content ∧ readBase content = Ok es ∧
      entries seg = dedupeLastWins es ∧ baseID l = baseIDFromHash content
  end.

Definition replayed (b : option segment) (ops : list journalRec) : overlay_state := foldl (apply_rec b) (∅, ∅) ops.

(** The stamp of a Store-managed list at a journal position. *)
Definition stamp (l : GoList) (jpos : nat) : bytes :=
  baseID l ++ $"@" ++ itoa (N.of_nat (base_len (snap l))) ++ $"+j" ++ itoa (N.of_nat jpos) ++
  (if 0 <? jpos then $"." ++ from_option baseIDFromHash [] (jhash l) else []) ++ $"+c" ++ cfgDigest l.

Definition on_disk (name : bytes) (d : dir) (l : GoList) (ops : list journalRec) : Prop :=
  inv l ∧ conf_ok name d l ∧ base_ok d l ∧
  readJournal (journal d) = (ops, (-1)%Z) ∧ overlay_state_of l = replayed (base (snap l)) ops ∧
  jhash l = Some (journal_domain ++ journal d) ∧ version (snap l) = stamp l (length (journal d)) ∧
  clean_head (journal d).
Definition synced (name : bytes) (d : dir) (l : GoList) : Prop := ∃ ops, on_disk name d l ops.

(** What the damage mark still promises. *)
Definition list_ok (name : bytes) (d : dir) (s : memory) (l : GoList) : Prop :=
  ls_l (m_ls s) = Some l ∧
  match ls_damage (m_ls s) with
  | damageNone => synced name d l
  | damageContent => inv l ∧ conf_ok name d l
  | damageCreate => inv l ∧ readOnly l = false
  end.

(** A directory a crash may leave: the journal may be torn and may hold further
    records. *)
Definition left_with (name : bytes) (d : dir) (l : GoList) (rs : list journalRec) : Prop :=
  conf_ok name d l ∧ base_ok d l ∧ clean_head (journal d) ∧
  ∃ ops t, readJournal (journal d) = (ops ++ rs, t) ∧ overlay_state_of l = replayed (base (snap l)) ops.

Lemma conf_ok_with name d l c d' : conf_ok name d l → with_journal d c d' → conf_ok name d' l.
Proof. intros (Hn & Hr & Hd & Hm & Hc) [H _]. unfold conf_ok. by rewrite <-!H. Qed.
Lemma base_ok_with d l c d' : base_ok d l → with_journal d c d' → base_ok d' l.
Proof. intros Hb [H _]. unfold base_ok. by rewrite <-!H. Qed.

Lemma on_disk_same name d l ops d' : on_disk name d l ops → with_journal d (journal d) d' → on_disk name d' l ops.
Proof.
  intros (Hi & Hc & Hb & Hj & Ho & Hh & Hv & He) Hw. pose proof Hw as [_ Hw2]. unfold on_disk. rewrite Hw2.
  split_and!; try done; [by eapply conf_ok_with|by eapply base_ok_with].
Qed.
Lemma synced_same name d l d' : synced name d l → with_journal d (journal d) d' → synced name d' l.
Proof. intros [ops H] Hw. exists ops. by eapply on_disk_same. Qed.

Lemma hex_ne b : b ≠ [] → hex b ≠ [].
Proof. destruct b; [done|]. unfold hex. simpl. done. Qed.
Lemma base_id_ne d l : base_ok d l → baseID l ≠ [].
Proof.
  unfold base_ok. destruct (base (snap l)); [intros (content & es & _ & _ & _ & ->)|intros [_ ->]]; [|done].
  apply hex_ne, digest_ne.
Qed.

Lemma overlay_stamp_eq l b jpos h : baseID l ≠ [] → jhash l = Some h → overlay_stamp l b (Z.of_nat jpos) = stamp l jpos.
Proof.
  intros Hb Hj. unfold overlay_stamp, stamp. rewrite bool_decide_eq_false_2 by done. rewrite Hj.
  rewrite (bool_decide_eq_true_2 (is_Some _)) by by eexists. rewrite orb_true_r.
  rewrite (proj2 (Z.leb_le _ _)) by lia. cbn [negb andb from_option].
  replace (Z.to_N (Z.of_nat jpos)) with (N.of_nat jpos) by lia.
  destruct (Z.ltb_spec 0 (Z.of_nat jpos)), (Nat.ltb_spec 0 jpos); (done || lia).
Qed.

(** ** Journaled mutations *)

Lemma foldl_journal_step b rs ops : foldl (apply_rec b) (replayed b ops) rs = replayed b (ops ++ rs).
Proof. unfold replayed. by rewrite foldl_app. Qed.

Lemma read_journal_append c ops rs buf n :
  readJournal c = (ops, (-1)%Z) → encode_recs rs = Ok buf → Forall stable_rec rs →
  ∃ k t, readJournal (c ++ take n buf) = (ops ++ take k rs, t) ∧ (length buf ≤ n → k = length rs ∧ t = (-1)%Z).
Proof.
  intros Hc He Hst. destruct (read_from_prefix (0 + Z.of_nat (length c)) rs buf n He Hst) as (k & t & Hr & Hfull).
  exists k, t. split; [|done]. change (readJournal (c ++ take n buf)) with (read_from 0 (c ++ take n buf)).
  rewrite (read_from_app 0 c (take n buf) ops); [by rewrite Hr|done|exact Hc].
Qed.

Definition journal_mutation (rs : list journalRec) : mutation := λ b st, foldl (apply_rec b) st rs.

(** A committed overlay over a journal that reads as the records so far. *)
Lemma commit_on_disk name d l ops rs b :
  inv l → conf_ok name d l → base_ok d l → overlay_state_of l = replayed (base (snap l)) ops →
  readJournal (journal d) = (ops ++ rs, (-1)%Z) → clean_head (journal d) →
  prepareOverlayLocked (journal_mutation rs) l = Ok b →
  let l' := commitOverlayLockedAt b (Z.of_nat (length (journal d))) (setJournalHash (Some (journal_domain ++ journal d)) l) in
  on_disk name d l' (ops ++ rs) ∧ live_map l' = foldl spec_rec (live_map l) rs.
Proof.
  intros Hi Hc Hb Ho Hj Hem Hp l'.
  assert (ListRefine.outcome (MJournal rs 0) l (Ok (), commitOverlayLockedAt b (Z.of_nat (length (journal d))) l)) as Hout.
  { eapply commit_overlay_ok; [done|done| |exact Hp]. intros b' st' Hb' Hst'. unfold journal_mutation.
    apply fold_mutation_ok; [|done]. intros st x Hx. by apply apply_rec_ok. }
  destruct Hout as (Hi' & _ & _ & _ & Hlive & _). split; [|exact Hlive].
  unfold on_disk. split_and!; [exact Hi'|exact Hc|exact Hb|done| |done| |done].
  - unfold prepareOverlayLocked, journal_mutation in Hp. change (base (snap l')) with (base (snap l)).
    rewrite <-foldl_journal_step, <-Ho. unfold overlay_state_of.
    destruct (foldl _ _ rs) as [src' tomb']. apply bind_ok in Hp as (ov & _ & [= <-]). done.
  - change (version (snap l')) with (overlay_stamp l' b (Z.of_nat (length (journal d)))).
    apply (overlay_stamp_eq _ b _ (journal_domain ++ journal d)); [|done]. by apply (base_id_ne d l).
Qed.

Lemma commit_synced name d l ops rs buf b d' :
  on_disk name d l ops → Forall stable_rec rs → encode_recs rs = Ok buf →
  prepareOverlayLocked (journal_mutation rs) l = Ok b → with_journal d (journal d ++ buf) d' →
  let l' := commitOverlayLockedAt b (Z.of_nat (length (journal d ++ buf))) (setJournalHash (Some ((journal_domain ++ journal d) ++ buf)) l) in
  on_disk name d' l' (ops ++ rs) ∧ live_map l' = foldl spec_rec (live_map l) rs.
Proof.
  intros (Hi & Hc & Hb & Hj & Ho & Hh & Hv & Hem) Hst He Hp Hw. rewrite <-app_assoc. pose proof Hw as [_ Hw2]. rewrite <-Hw2.
  apply commit_on_disk; [done|by eapply conf_ok_with|by eapply base_ok_with|done| | |done]; rewrite Hw2.
  - destruct (read_journal_append _ _ _ _ (length buf) Hj He Hst) as (k & t & Hr & Hf).
    destruct (Hf ltac:(lia)) as [-> ->]. by rewrite !firstn_all in Hr.
  - rewrite <-(firstn_all buf). by eapply clean_head_append.
Qed.

Lemma wp_journaled mode name rs l d s :
  list_ok name d s l → Forall stable_rec rs →
  wp (journaled mode name (prepareOverlayLocked (journal_mutation rs)) rs)
    (λ v d' s', ∃ l', list_ok name d' s' l' ∧ ls_damage (m_ls s') = damageNone ∧ live_map l' = foldl spec_rec (live_map l) rs ∧
       v = version (snap l') ∧ l_cfg l' = l_cfg l ∧ l_an l' = l_an l ∧ base (snap l') = base (snap l))
    (λ e d' s', list_ok name d' s' l ∧ (ls_damage (m_ls s) = damageNone → ls_damage (m_ls s') = damageNone ∨ ls_damage (m_ls s') = damageContent))
    (λ d', ls_damage (m_ls s) = damageNone ∧ ∃ k, left_with name d' l (take k rs)) d s.
Proof.
  intros [Hl Hok] Hst. unfold journaled, load. apply wp_bind, wp_bind, wp_get_mem. rewrite Hl. apply wp_ret, wp_bind.
  assert (list_ok name d s l) as Hsame by by split.
  unfold of_list. destruct (prepareOverlayLocked _ l) as [b|e] eqn:Hp; [|apply wp_throw; auto].
  apply wp_ret, wp_bind, wp_appendJournal; [auto|auto|]. intros buf He Hnone. rewrite Hnone in *. destruct Hok as [ops Hd].
  pose proof Hd as (Hi & Hc & Hb & Hj & Ho & Hh & Hv & Hem). split_and!.
  - intros d' Hw _. destruct (commit_synced name d l ops rs buf b d' Hd Hst He Hp Hw) as [Hd' Hlive].
    unfold update. apply wp_bind, wp_put_mem. unfold on_state, hashed, on_state. simpl. rewrite Hl, Hh. simpl.
    set (l' := commitOverlayLockedAt _ _ _) in *. apply wp_bind. unfold maybeAutoCompact, load.
    apply wp_bind, wp_bind, wp_get_mem, wp_ret, wp_put_mem. unfold the_version, load.
    assert (∀ ls, ls_l ls = Some l' → ls_damage ls = damageNone →
      wp (l ← (m ← get_mem; match ls_l (m_ls m) with Some l => mret l | None => throw (UnknownList name) end); mret (version (snap l)))
        (λ v d' s', ∃ l', list_ok name d' s' l' ∧ ls_damage (m_ls s') = damageNone ∧ live_map l' = foldl spec_rec (live_map l) rs ∧
           v = version (snap l') ∧ l_cfg l' = l_cfg l ∧ l_an l' = l_an l ∧ base (snap l') = base (snap l))
        (λ (e : store_error) d' s', list_ok name d' s' l ∧ (damageNone = damageNone → ls_damage (m_ls s') = damageNone ∨ ls_damage (m_ls s') = damageContent))
        (λ d', damageNone = damageNone ∧ ∃ k, left_with name d' l (take k rs)) d' (mkMemory ls (m_quarantined s))) as Hend.
    { intros ls Hls Hdm. apply wp_bind, wp_bind, wp_get_mem. simpl. rewrite Hls. apply wp_ret, wp_ret. exists l'. unfold list_ok. simpl.
      rewrite Hls, Hdm. split_and!; try done. by eexists. }
    unfold on_state. simpl. apply Hend; by case_match.
  - intros e d' Hw. split; [|auto]. split; [done|]. rewrite Hnone. eapply synced_same; [by eexists|done].
  - intros e d' n Hw. split; [|auto]. split; [done|]. simpl. split; [done|by eapply conf_ok_with].
  - intros d' n Hw. split; [done|]. destruct (read_journal_append _ _ _ _ n Hj He Hst) as (k & t & Hr & _).
    exists k. split; [by eapply conf_ok_with|]. split; [by eapply base_ok_with|]. pose proof Hw as [_ ->].
    split; [by eapply clean_head_append|]. by exists ops, t.
Qed.

(** ** Replace *)

(** The records decide an ID or leave it alone, whatever they start from. *)
Lemma spec_recs_local ops m1 m2 id :
  foldl spec_rec m1 ops !! id = foldl spec_rec m2 ops !! id ∨
  foldl spec_rec m1 ops !! id = m1 !! id ∧ foldl spec_rec m2 ops !! id = m2 !! id.
Proof.
  induction ops as [|r ops IH] using rev_ind; [by right|]. rewrite !foldl_app. simpl.
  set (a := foldl spec_rec m1 ops) in *. set (b := foldl spec_rec m2 ops) in *. unfold spec_rec. case_bool_decide.
  - destruct (r_Entry r) as [e|]; [|done]. destruct (decide (ID e = id)) as [->|]; [left; by rewrite !lookup_insert_eq|].
    by rewrite !lookup_insert_ne.
  - case_bool_decide; [|done]. destruct (decide (r_ID r = id)) as [->|]; [left; by rewrite !lookup_delete_eq|].
    by rewrite !lookup_delete_ne.
Qed.

(** Replaying a journal over what it already produced changes nothing. *)
Lemma spec_recs_idem ops m : foldl spec_rec (foldl spec_rec m ops) ops = foldl spec_rec m ops.
Proof. apply map_eq. intros id. destruct (spec_recs_local ops (foldl spec_rec m ops) m id) as [->|[-> _]]; done. Qed.

Lemma live_of_replayed b ops :
  from_option seg_inv True b → live_of b (replayed b ops) = foldl spec_rec (entry_map (base_entries b)) ops.
Proof.
  intros Hb. unfold replayed. destruct (fold_mutation_ok apply_rec spec_rec b ops (∅, ∅)) as [_ ->].
  - intros st r Hst. by apply apply_rec_ok.
  - apply overlay_ok_empty.
  - rewrite (live_of_base b (base_entries b)); [done| |done]. destruct b as [sg|]; [apply Hb|constructor].
Qed.

(** What a directory describes: a configuration, base entries and records. *)
Definition image (name : bytes) (d : dir) (c : ListConfig) (an : Analyzer) (es : list Entry) (ops : list journalRec) : Prop :=
  d !! markerFile = None ∧
  (∃ raw c0, d !! configFile = Some raw ∧ unmarshal_config raw = Some c0 ∧ resolveConfig c0 = Ok (c, an)) ∧
  (d !! baseFile = None ∧ es = [] ∨
   ∃ content es0, d !! baseFile = Some content ∧ readBase content = Ok es0 ∧ es = dedupeLastWins es0) ∧
  clean_head (journal d) ∧ ∃ t, readJournal (journal d) = (ops, t).
Definition image_map (es : list Entry) (ops : list journalRec) : gmap bytes Entry := foldl spec_rec (entry_map es) ops.
(** The directory describes this map, under the list's configuration. *)
Definition recovers (name : bytes) (d : dir) (l : GoList) (m : gmap bytes Entry) : Prop :=
  ∃ es ops, image name d (l_cfg l) (l_an l) es ops ∧ image_map es ops = m.

Lemma left_recovers name d l rs :
  inv l → left_with name d l rs → recovers name d l (foldl spec_rec (live_map l) rs).
Proof.
  intros (Hb & _) ((_ & _ & _ & Hm & Hc) & Hbase & Hch & ops & t & Hj & Ho). exists (base_entries (base (snap l))), (ops ++ rs). split.
  - split_and!; [done|done| |done|by exists t]. unfold base_ok in Hbase. destruct (base (snap l)) as [seg|].
    + right. destruct Hbase as (content & es & ? & ? & ? & _). by exists content, es.
    + left. by destruct Hbase.
  - unfold image_map. rewrite foldl_app, <-live_of_replayed by done. by rewrite <-Ho.
Qed.
Lemma synced_left name d l : synced name d l → left_with name d l [].
Proof. intros [ops (Hi & Hc & Hb & Hj & Ho & _ & _ & Hch)]. split; [done|]. split; [done|]. split; [done|]. exists ops, (-1)%Z. by rewrite app_nil_r. Qed.

(** A fresh base of the list, over an empty journal. *)
Lemma fresh_base_synced name d l d' content es seg l' :
  conf_ok name d l → conf_ok name d l' → agree (<[baseFile := content]> d) d' → readBase content = Ok es →
  NoDup (ID <$> es) → entries seg = es → seg_inv seg →
  base (snap l') = Some seg → overlay (snap l') = None → tombstones (snap l') = ∅ → overlaySrc l' = ∅ →
  baseID l' = baseIDFromHash content → jhash l' = Some journal_domain → version (snap l') = stamp l' 0 →
  ∀ d2, with_journal d' [] d2 → synced name d2 l' ∧ live_map l' = entry_map es.
Proof.
  intros Hc Hc' Ha Hr Hnd He Hs Hb Hov Ht Hsrc Hid Hh Hv d2 Hw. pose proof Hw as [Hw1 Hw2]. split.
  - exists []. unfold on_disk. rewrite Hw2. split_and!.
    + unfold inv. rewrite Hb, Hov, Ht, Hsrc. split_and!; [done|apply overlay_ok_empty|done].
    + destruct Hc' as (? & ? & ? & Hm & Hcf). unfold conf_ok. rewrite <-!Hw1 by done. rewrite <-!Ha by done.
      by rewrite !lookup_insert_ne by done.
    + unfold base_ok. rewrite Hb. exists content, es. rewrite <-Hw1, <-Ha, lookup_insert_eq by done.
      split_and!; [done|done|by rewrite dedupe_id|done].
    + done.
    + unfold overlay_state_of. by rewrite Ht, Hsrc.
    + by rewrite Hh, app_nil_r.
    + done.
    + done.
  - unfold live_map. rewrite Hb, Hsrc, Ht. rewrite (live_of_base _ es); [done|done|done].
Qed.

(** The new base is published, the journal as it was or empty. *)
Definition published (d : dir) (content c : bytes) (d' : dir) : Prop :=
  ∃ d1, agree (<[baseFile := content]> d) d1 ∧ with_journal d1 c d'.

Lemma journal_insert_base d content d1 : agree (<[baseFile := content]> d) d1 → journal d1 = journal d.
Proof. intros H. unfold journal. rewrite <-(H journalFile) by done. by rewrite lookup_insert_ne. Qed.

Lemma wp_rebase {A} es (k : bytes → op A) (Q : A → dir → memory → Prop) (X : store_error → dir → memory → Prop) (D : dir → Prop) d s :
  (∀ e d', agree d d' → X e d' s ∧ D d') →
  (∀ content c d', encode_base es = Ok content → published d content c d' → c = journal d ∨ c = [] →
     (∀ e, X e d' (damaged damageContent s)) ∧ D d') →
  (∀ content d', encode_base es = Ok content → published d content [] d' → wp (k (baseIDFromHash content)) Q X D d' s) →
  wp (id ← publish_base es; _ ← empty_journal; k id) Q X D d s.
Proof.
  intros Hold Hpub Hk. apply wp_bind, wp_publish_base; [done|]. intros content d1 He Ha.
  pose proof (journal_insert_base d content d1 Ha) as Hj.
  assert (∀ d', with_journal d1 (journal d) d' → published d content (journal d) d') as Hp by (intros d' H; by exists d1).
  assert (published d content (journal d) d1) as Hp1 by (apply Hp; rewrite <-Hj; apply with_journal_refl).
  destruct (Hpub content _ d1 He Hp1 (or_introl eq_refl)) as [HX HD]. split_and!; [|done|done].
  apply wp_bind, wp_empty_journal.
  - intros d' Hd'. apply Hk; [done|by exists d1].
  - intros e d' c Hw Hc. apply (Hpub content c); [done|by exists d1|by rewrite <-Hj].
  - intros d' c Hw Hc. apply (Hpub content c); [done|by exists d1|by rewrite <-Hj].
Qed.

Lemma conf_ok_agree name d d' l : conf_ok name d l → agree d d' → conf_ok name d' l.
Proof. intros H Ha. eapply conf_ok_with; [exact H|by apply agree_with_journal]. Qed.
Lemma conf_ok_published name d content c d' l : conf_ok name d l → published d content c d' → conf_ok name d' l.
Proof.
  intros H (d1 & Ha & Hw). eapply conf_ok_with; [|exact Hw]. eapply conf_ok_agree; [|exact Ha].
  destruct H as (? & ? & ? & ? & ?). unfold conf_ok. by rewrite !lookup_insert_ne.
Qed.
Lemma list_ok_agree name d d' s l : list_ok name d s l → agree d d' → list_ok name d' s l.
Proof.
  intros [Hl Hok] Ha. split; [done|]. destruct (ls_damage (m_ls s)).
  - eapply synced_same; [done|by apply agree_with_journal].
  - destruct Hok. split; [done|by eapply conf_ok_agree].
  - done.
Qed.
Lemma list_ok_conf name d s l : list_ok name d s l → ls_damage (m_ls s) ≠ damageCreate → inv l ∧ conf_ok name d l.
Proof. intros [_ Hok] Hk. destruct (ls_damage (m_ls s)); [|done..]. by destruct Hok as (ops & ? & ? & _). Qed.
Lemma list_ok_published name d content c d' s l :
  list_ok name d s l → ls_damage (m_ls s) ≠ damageCreate → published d content c d' → list_ok name d' (damaged damageContent s) l.
Proof.
  intros H Hk Hp. destruct (list_ok_conf _ _ _ _ H Hk) as [Hi Hc]. destruct H as [Hl _]. split; [done|]. simpl.
  split; [done|by eapply conf_ok_published].
Qed.

(** What the directory of a published base describes. *)
Lemma published_recovers name d content c d' l es ops :
  conf_ok name d l → published d content c d' → readBase content = Ok es → NoDup (ID <$> es) →
  clean_head c → (∃ t, readJournal c = (ops, t)) → recovers name d' l (foldl spec_rec (entry_map es) ops).
Proof.
  intros Hc Hp Hr Hnd Hch Hj. pose proof (conf_ok_published _ _ _ _ _ _ Hc Hp) as (_ & _ & _ & Hm & Hcf).
  destruct Hp as (d1 & Ha & Hw1 & Hw2). exists es, ops. split; [|done]. split_and!; [done|done| |by rewrite Hw2|by rewrite Hw2].
  right. exists content, es. rewrite <-Hw1, <-Ha, lookup_insert_eq by done. by rewrite dedupe_id.
Qed.
Lemma agree_recovers name d d' l : synced name d l → agree d d' → recovers name d' l (live_map l).
Proof.
  intros Hs Ha. assert (synced name d' l) as H by (eapply synced_same; [done|by apply agree_with_journal]).
  pose proof H as (ops & Hi & _). apply (left_recovers name d' l []); [done|by apply synced_left].
Qed.

Lemma successor_recovers name d d' l l' :
  l_cfg l' = l_cfg l → l_an l' = l_an l → synced name d l' → agree d d' → recovers name d' l (live_map l').
Proof.
  intros Hcf Han Hs Ha. pose proof (agree_recovers name d d' l' Hs Ha) as H. unfold recovers in *. by rewrite Hcf, Han in H.
Qed.

(** The directories a crash in Replace may leave. *)
Definition replace_crash (name : bytes) (l : GoList) (m : gmap bytes Entry) (d' : dir) : Prop :=
  recovers name d' l (live_map l) ∨ recovers name d' l m ∨
  ∃ ops, live_map l = image_map (base_entries (base (snap l))) ops ∧ recovers name d' l (foldl spec_rec m ops).

Lemma rebase_crash name d content c d' l es :
  synced name d l → encode_base es = Ok content → readBase content = Ok es → NoDup (ID <$> es) →
  published d content c d' → c = journal d ∨ c = [] → replace_crash name l (entry_map es) d'.
Proof.
  intros (ops & (Hb & _) & Hc & _ & Hj & Ho & _ & _ & Hch) He Hr Hnd Hp [->| ->].
  - right. right. exists ops. split; [unfold image_map; by rewrite <-live_of_replayed, <-Ho|].
    eapply published_recovers; try done. by eexists.
  - right. left. apply (published_recovers name d content [] d' l es []); try done. by eexists.
Qed.

Lemma wp_load name l (Q : GoList → dir → memory → Prop) X D d s :
  ls_l (m_ls s) = Some l → Q l d s → wp (load name) Q X D d s.
Proof. intros Hl HQ. unfold load. apply wp_bind, wp_get_mem. rewrite Hl. by apply wp_ret. Qed.
Lemma wp_on_list {A} name (f : list_op A) a l l' (Q : A → dir → memory → Prop) X D d s :
  ls_l (m_ls s) = Some l → f l = (Ok a, l') → Q a d (on_state (set_l l') s) → wp (on_list name f) Q X D d s.
Proof.
  intros Hl Hf HQ. unfold on_list. apply wp_bind, (wp_load name l); [done|]. rewrite Hf.
  apply wp_bind, wp_put_mem. assert (on_state (λ ls, match ls_l ls with Some _ => set_l l' ls | None => ls end) s = on_state (set_l l') s) as ->.
  { unfold on_state. by rewrite Hl. }
  by apply wp_ret.
Qed.
Lemma wp_update f l (Q : () → dir → memory → Prop) X D d s :
  ls_l (m_ls s) = Some l → Q () d (on_state (set_l (f l)) s) → wp (update f) Q X D d s.
Proof.
  intros Hl HQ. unfold update. apply wp_put_mem.
  assert (on_state (λ ls, match ls_l ls with Some l => set_l (f l) ls | None => ls end) s = on_state (set_l (f l)) s) as ->; [|done].
  unfold on_state. by rewrite Hl.
Qed.
End inv.
