(* ===== verification/StoreOps.v ===== *)
(** Replace, Compact and the append under faults: the served list and its directory
    stay in agreement, or the list is marked and its directory still describes what
    was acknowledged or what was being written. *)

From S2P Require Import Prelude.
From S2P Require Import Runtime.
From S2P Require Import Analyzer.
From S2P Require Import Score.
From S2P Require Import Bitmap.
From S2P Require Import Types.
From S2P Require Import ListConfig.
From S2P Require Import Segment.
From S2P Require Import ListModel.
From S2P Require Import ListRefine.
From S2P Require Import Journal.
From S2P Require Import Disk.
From S2P Require Import Store.
From S2P Require Import StoreSpec.
From S2P Require Import StoreInv.

Section ops.
Context {RT : GoRuntime} {TL : TextLib} {BL : BitmapLib} {FO : FloatOps} {DL : DigestLib} {CD : Codec} {AC : ArtifactCodec}.
Context (digest_ne : ∀ b, sha256 b ≠ []).

Lemma set_base_id_eq id l : readOnly l = false → SetBaseID id l = (Ok (), set_base_id id l).
Proof. intros Hr. unfold SetBaseID, ignoreReadOnly, mbind, list_op_bind. by rewrite Hr. Qed.

Lemma wp_refuse_create d s (Q : () → dir → memory → Prop) X D :
  ls_damage (m_ls s) ≠ damageCreate → Q () d s → wp refuse_create_damage Q X D d s.
Proof.
  intros Hk HQ. unfold refuse_create_damage, refuse_damaged, getDamage. apply wp_bind, wp_bind, wp_get_mem, wp_ret.
  rewrite bool_decide_eq_false_2 by done. by apply wp_ret.
Qed.

(** The new list of Replace and of Compact. *)
Definition rebased (seg : segment) (id stmp : bytes) (src_gen : N) (l : GoList) : GoList :=
  mkList (l_name l) (l_cfg l) (l_an l) (cfgDigest l) (mkSnapshot (Some seg) None ∅ stmp) src_gen id (Some journal_domain) ∅
    (readOnly l) (roRefusals l).

Lemma rebased_ok name d content d' l es seg g s :
  inv l → conf_ok name d l → published d content [] d' → encode_base es = Ok content → Forall stable_entry es →
  NoDup (ID <$> es) → entries seg = es → seg_inv seg →
  let l' := rebased seg (baseIDFromHash content) (baseIDFromHash content ++ $"@" ++ itoa (N.of_nat (length (entries seg))) ++ $"+j0+c" ++ cfgDigest l) g l in
  ls_l (m_ls s) = Some l' → ls_damage (m_ls s) = damageNone → list_ok name d' s l' ∧ live_map l' = entry_map es.
Proof.
  intros Hi Hc (d1 & Ha & Hw) He Hst Hnd Hes Hs l' Hl Hk.
  destruct (fresh_base_synced name d l d1 content es seg l' Hc Hc Ha) with (d2 := d') as [Hsync Hlive]; try done.
  - by apply read_base_encode.
  - split; [|done]. split; [done|]. by rewrite Hk.
Qed.

Lemma wp_replaceLocked name es l d s :
  list_ok name d s l → ls_damage (m_ls s) ≠ damageCreate → Forall stable_entry (dedupeLastWins es) →
  wp (replaceLocked name es)
    (λ v d' s', ∃ l', list_ok name d' s' l' ∧ ls_damage (m_ls s') = damageNone ∧ live_map l' = entry_map es ∧
       v = version (snap l') ∧ l_cfg l' = l_cfg l ∧ l_an l' = l_an l)
    (λ e d' s', list_ok name d' s' l ∧ (ls_damage (m_ls s') = ls_damage (m_ls s) ∨ ls_damage (m_ls s') = damageContent))
    (λ d', synced name d l → replace_crash name l (entry_map es) d') d s.
Proof.
  intros Hok Hk Hst. destruct (list_ok_conf _ _ _ _ Hok Hk) as [Hi Hc]. pose proof Hok as [Hl _].
  unfold replaceLocked. apply wp_bind, wp_refuse_create; [done|]. apply wp_bind, (wp_load name l); [done|].
  unfold prepareBase, of_list. destruct (buildSegment _ _ _) as [seg|e] eqn:Hb; simpl; [|by apply wp_bind, wp_throw; auto].
  pose proof (dedupe_nodup es) as Hnd. pose proof (build_seg_inv _ _ _ _ Hnd Hb) as Hs.
  pose proof (build_segment_tables _ _ _ _ Hb) as [Hes _].
  apply wp_bind, wp_ret, wp_rebase.
  - intros e d' Ha. split; [split; [by eapply list_ok_agree|by left]|]. intros Hsync. left. by eapply agree_recovers.
  - intros content c d' He Hp Hcc. split.
    + intros e. split; [by eapply list_ok_published|by right].
    + intros Hsync. rewrite <-entry_map_dedupe. eapply rebase_crash; try done. by apply read_base_encode.
  - intros content d' He Hp. apply wp_bind, (wp_update _ l); [done|]. apply wp_bind, wp_put_mem.
    apply wp_bind, (wp_on_list name _ () (setJournalHash (Some journal_domain) l) (set_base_id (baseIDFromHash content) (setJournalHash (Some journal_domain) l))); [done| |].
    { destruct Hc as (_ & Hr & _). by apply set_base_id_eq. }
    apply wp_bind. eapply wp_update; [done|].
    set (l' := installBase seg _). set (s' := on_state _ _).
    apply wp_bind, (wp_load name l'); [done|].
    destruct (rebased_ok name d content d' l _ seg (gen l') s' Hi Hc Hp He Hst Hnd Hes Hs) as [Hok' Hlive]; [|done|].
    { unfold s', l', installBase, baseStampLocked. simpl. rewrite bool_decide_eq_false_2; [done|]. by apply hex_ne, digest_ne. }
    apply wp_bind, wp_saveArtifact. intros d2 Ha2. split.
    + apply wp_bind, (wp_load name l'); [done|]. apply wp_ret. eexists. split_and!; [by eapply list_ok_agree|done|..].
      * by rewrite Hlive, entry_map_dedupe.
      * unfold l', installBase, baseStampLocked. simpl. rewrite bool_decide_eq_false_2; [done|]. by apply hex_ne, digest_ne.
      * done.
      * done.
    + intros _. right. left. destruct Hok' as [_ Hsync]. rewrite <-entry_map_dedupe, <-Hlive. by apply (successor_recovers name d').
Qed.

Lemma prepare_compact_eq l : readOnly l = false →
  PrepareCompact l = match buildSegment (mode_of l) (l_an l) (LiveEntries l) with
                     | Ok seg => (Ok (mkCompact (LiveEntries l) seg), l)
                     | Err e => (Err e, l)
                     end.
Proof. intros Hr. unfold PrepareCompact. run_list_op. rewrite Hr. unfold LiveEntries. by destruct (buildSegment _ _ _). Qed.

Lemma wp_compactLocked name l d s :
  list_ok name d s l → ls_damage (m_ls s) ≠ damageCreate → Forall stable_entry (LiveEntries l) →
  wp (compactLocked name)
    (λ v d' s', ∃ l', list_ok name d' s' l' ∧ ls_damage (m_ls s') = damageNone ∧ live_map l' = live_map l ∧
       base_entries (base (snap l')) = LiveEntries l ∧ tombstones (snap l') = ∅ ∧
       cr_Version v = version (snap l') ∧ cr_Entries v = length (LiveEntries l) ∧ l_cfg l' = l_cfg l ∧ l_an l' = l_an l)
    (λ e d' s', list_ok name d' s' l ∧ (ls_damage (m_ls s') = ls_damage (m_ls s) ∨ ls_damage (m_ls s') = damageContent))
    (λ d', synced name d l → recovers name d' l (live_map l)) d s.
Proof.
  intros Hok Hk Hst. destruct (list_ok_conf _ _ _ _ Hok Hk) as [Hi Hc]. pose proof Hok as [Hl _]. pose proof Hc as (_ & Hr & _).
  destruct (live_entries_spec l Hi) as [Hnd Hmap].
  unfold compactLocked. apply wp_bind, wp_refuse_create; [done|]. apply wp_bind.
  unfold on_list at 1. apply wp_bind, (wp_load name l); [done|].
  rewrite (prepare_compact_eq l Hr).
  assert (on_state (λ ls, match ls_l ls with Some _ => set_l l ls | None => ls end) s = s) as Hsame.
  { unfold on_state. rewrite Hl. destruct s as [[ls i k a] q]. simpl in *. by subst ls. }
  destruct (buildSegment (mode_of l) (l_an l) (LiveEntries l)) as [seg|e] eqn:Hb.
  2:{ apply wp_bind, wp_put_mem. rewrite Hsame. apply wp_throw. auto. }
  pose proof (build_seg_inv _ _ _ _ Hnd Hb) as Hs. pose proof (build_segment_tables _ _ _ _ Hb) as [Hes _].
  apply wp_bind, wp_put_mem. rewrite Hsame. apply wp_ret, wp_rebase.
  - intros e d' Ha. split; [split; [by eapply list_ok_agree|by left]|]. intros Hsync. by eapply agree_recovers.
  - intros content c d' He Hp Hcc. split.
    + intros e. split; [by eapply list_ok_published|by right].
    + intros Hsync. destruct (rebase_crash name d content c d' l (LiveEntries l)) as [H|[H|(ops & Hops & H)]]; try done.
      * by apply read_base_encode.
      * by rewrite <-Hmap.
      * unfold LiveEntries in H. unfold image_map in Hops. by rewrite Hmap, Hops, spec_recs_idem, <-Hops in H.
  - intros content d' He Hp. apply wp_bind, (wp_update _ l); [done|]. apply wp_bind, wp_put_mem.
    set (l' := rebased seg (baseIDFromHash content) (baseIDFromHash content ++ $"@" ++ itoa (N.of_nat (length (entries seg))) ++ $"+j0+c" ++ cfgDigest l) (u64 (gen l + 1)) l).
    apply wp_bind, (wp_on_list name _ () (setJournalHash (Some journal_domain) l) l'); [done| |].
    { unfold CommitCompact, ignoreReadOnly, mbind, list_op_bind. simpl. rewrite Hr. unfold l'. rewrite Hes. reflexivity. }
    set (s' := on_state _ _). apply wp_bind, (wp_load name l'); [done|].
    destruct (rebased_ok name d content d' l _ seg (u64 (gen l + 1)) s' Hi Hc Hp He Hst Hnd Hes Hs) as [Hok' Hlive]; [done|done|].
    assert (live_map l' = live_map l) as Hm' by (trans (entry_map (LiveEntries l)); [exact Hlive|exact Hmap]).
    apply wp_bind, wp_saveArtifact. intros d2 Ha2. split.
    + apply wp_bind, (wp_load name l'); [done|]. destruct (BuildStats l'). apply wp_ret. exists l'. split_and!; try done.
      by eapply list_ok_agree.
    + intros _. destruct Hok' as [_ Hsync]. rewrite <-Hm'. by apply (successor_recovers name d').
Qed.

(** ** Create *)

Lemma wp_remove_if_present f (Q : () → dir → memory → Prop) X D d s :
  Q () (delete f d) s → X (Os OtherError) d s → D d → wp (remove_if_present f) Q X D d s.
Proof.
  intros HQ HX HD. unfold remove_if_present. apply wp_bind, wp_syscall; [|intros n; by apply wp_throw|done].
  destruct (d !! f) eqn:Hf; apply wp_ret; [done|]. by rewrite delete_id in HQ.
Qed.

Lemma wp_or_damage {A} (m : op A) (Q : A → dir → memory → Prop) X D d s :
  wp m Q (λ e d' s', X e d' (damaged damageCreate s')) D d s → wp (or_damage m) Q X D d s.
Proof.
  intros H. unfold or_damage. apply wp_bind, wp_try. eapply wp_mono; [exact H| | |done].
  - intros a d' s' HQ. by apply wp_ret.
  - intros e d' s' HX. by apply wp_bind, wp_put_mem, wp_throw.
Qed.

(** The encoding of the resolved configuration decodes to itself. *)
Definition stable_config (l : GoList) : Prop := unmarshal_config (marshal_config (l_cfg l) ++ [c_nl]) = Some (l_cfg l).

Definition created (l : GoList) : GoList :=
  stampFresh (setJournalHash (Some journal_domain) (set_base_id ($"empty") l)).

Definition marked (d : dir) : Prop := is_Some (d !! markerFile).
Lemma marked_agree d d' : marked d → agree d d' → marked d'.
Proof. unfold marked. intros H Ha. by rewrite <-Ha. Qed.

(** The directory of a created list, complete. *)
Lemma created_synced name c l d :
  default_threshold_ok → NewList name c = Ok l → stable_config l →
  d !! markerFile = None → d !! configFile = Some (marshal_config (l_cfg l) ++ [c_nl]) →
  d !! baseFile = None → d !! journalFile = None → synced name d (created l) ∧ live_map (created l) = ∅.
Proof.
  intros Ht Hn Hst Hm Hc Hb Hj. destruct (new_list_inv _ _ _ Hn) as (Hi & Hl & Hr & Hres).
  assert (journal d = []) as Hjd by (unfold journal; by rewrite Hj). unfold NewList in Hn.
  apply bind_ok in Hn as ([c' an] & _ & [= <-]). simpl in *. split; [|done].
  exists []. unfold on_disk. rewrite Hjd. split_and!; try done.
  - split_and!; try done. eexists _, _. split_and!; [exact Hc|exact Hst|]. apply resolved_fixpoint. by eapply resolve_ok.
Qed.

Lemma wp_createLocked name c l d s :
  default_threshold_ok → NewList name c = Ok l → stable_config l →
  wp (createLocked name l)
    (λ v d' s', ls_l (m_ls s') = Some (created l) ∧ ls_damage (m_ls s') = damageNone ∧ synced name d' (created l) ∧ v = version (snap (created l)))
    (λ e d' s', ls_l (m_ls s') = ls_l (m_ls s) ∧ (ls_damage (m_ls s') = damageCreate ∨ s' = s ∧ agree d d'))
    (λ d', agree d d' ∨ marked d' ∨ synced name d' (created l)) d s.
Proof.
  intros Ht Hn Hst. destruct (new_list_inv _ _ _ Hn) as (_ & _ & Hr & _). unfold createLocked.
  apply wp_bind, wp_try, wp_writeFileAtomic; set (mark := ($"create/replace in progress" ++ [c_nl])).
  { intros d1 Ha. split; [|by left]. apply wp_bind, wp_throw. split; [done|by right]. }
  intros d1 Ha1. assert (marked d1) as Hm1 by (eapply marked_agree; [|exact Ha1]; unfold marked; by rewrite lookup_insert_eq).
  split_and!; [|apply wp_bind, wp_bind, wp_put_mem, wp_throw; split; [done|by left]|auto].
  apply wp_bind, wp_ret.
  (* the destructive window: marked until its end *)
  set (X := λ (e : store_error) (d' : dir) s', ls_l (m_ls s') = ls_l (m_ls s) ∧ (ls_damage (m_ls s') = damageCreate ∨ s' = s ∧ agree d d')).
  assert (∀ e d', X e d' (damaged damageCreate s)) as HX by (intros e d'; split; [done|by left]).
  apply wp_bind, wp_or_damage. apply wp_bind, wp_remove_if_present; [|done|auto].
  apply wp_bind, wp_remove_if_present; [|done|right; left; unfold marked; by rewrite lookup_delete_ne].
  apply wp_remove_if_present; [|done|right; left; unfold marked; by rewrite !lookup_delete_ne].
  set (d2 := delete journalFile _). assert (marked d2) as Hm2 by (unfold marked, d2; by rewrite !lookup_delete_ne).
  assert (d2 !! baseFile = None ∧ d2 !! journalFile = None) as [Hb2 Hj2].
  { unfold d2. by rewrite lookup_delete_eq, (lookup_delete_ne _ journalFile baseFile), (lookup_delete_ne _ idxFile baseFile), lookup_delete_eq. }
  clearbody d2. apply wp_bind, wp_or_damage, wp_writeFileAtomic.
  { intros d3 Ha3. split; [done|]. right. left. by eapply marked_agree. }
  intros d3 Ha3. assert (marked d3) as Hm3 by (eapply marked_agree; [|exact Ha3]; unfold marked; by rewrite lookup_insert_ne).
  split_and!; [|done|auto].
  apply wp_bind, wp_or_damage, wp_or_syscall; [|done|auto]. destruct (d3 !! markerFile) as [mk|] eqn:Hmk; [|done].
  assert (synced name (delete markerFile d3) (created l) ∧ live_map (created l) = ∅) as [Hsync _].
  { apply (created_synced name c); try done; rewrite ?lookup_delete_eq, ?lookup_delete_ne by done; try done;
      rewrite <-Ha3 by done; by rewrite ?lookup_insert_eq, ?lookup_insert_ne. }
  apply wp_bind, wp_or_damage, wp_flushes; [|done|by right; right].
  rewrite (set_base_id_eq _ l Hr). apply wp_bind, wp_put_mem, wp_bind, wp_put_mem. unfold the_version. apply wp_bind, (wp_load name (created l)); [done|]. by apply wp_ret.
Qed.
End ops.
