(* ===== verification/StoreOpen.v ===== *)
(** Opening a list directory: what [openList] returns agrees with the disk it leaves,
    whatever calls fail; and without faults it succeeds on every directory whose
    entries build, with the map the directory describes. *)

From S2P Require Import Prelude.
From S2P Require Import Runtime.
From S2P Require Import Analyzer.
From S2P Require Import Score.
From S2P Require Import Bitmap.
From S2P Require Import Types.
From S2P Require Import ListConfig.
From S2P Require Import Segment.
From S2P Require Import ListModel.
From S2P Require Import ListRefine.
From S2P Require Import Journal.
From S2P Require Import Disk.
From S2P Require Import Store.
From S2P Require Import StoreSpec.
From S2P Require Import StoreInv.
From S2P Require Import StoreOps.

Section open.
Context {RT : GoRuntime} {TL : TextLib} {BL : BitmapLib} {FO : FloatOps} {DL : DigestLib} {CD : Codec} {AC : ArtifactCodec}.
Context (digest_ne : ∀ b, sha256 b ≠ []).

(** ** The base *)

(** A list over its base alone. *)
Definition opened (name : bytes) (d : dir) (l0 l : GoList) : Prop :=
  inv l ∧ l_name l = name ∧ readOnly l = false ∧ l_cfg l = l_cfg l0 ∧ l_an l = l_an l0 ∧ cfgDigest l = cfgDigest l0 ∧
  base_ok d l ∧ overlay_state_of l = (∅, ∅) ∧ version (snap l) = stamp l 0.

Lemma stamp_base l seg : baseID l ≠ [] →
  version (snap (installBase seg l)) = stamp (installBase seg l) 0.
Proof. intros Hb. unfold installBase, baseStampLocked. simpl. by rewrite bool_decide_eq_false_2. Qed.

Lemma opened_install name d c l0 content es seg :
  NewList name c = Ok l0 → d !! baseFile = Some content → readBase content = Ok es →
  seg_inv seg → entries seg = dedupeLastWins es →
  opened name d l0 (installBase seg (set_base_id (baseIDFromHash content) l0)).
Proof.
  intros Hn Hd Hr Hs He. destruct (new_list_inv _ _ _ Hn) as (_ & _ & Hro & _).
  assert (l_name l0 = name) as Hname by (unfold NewList in Hn; by apply bind_ok in Hn as ([? ?] & _ & [= <-])).
  destruct (install_base_ok (set_base_id (baseIDFromHash content) l0) seg Hs) as [Hi _]. split_and!; try done.
  - by exists content, es.
  - apply stamp_base. by apply hex_ne, digest_ne.
Qed.

Lemma install_artifact_opened name d c l0 content es idx l :
  NewList name c = Ok l0 → d !! baseFile = Some content → readBase content = Ok es →
  install_artifact (set_base_id (baseIDFromHash content) l0) es idx = Some l → opened name d l0 l.
Proof.
  intros Hn Hd Hr. destruct (new_list_inv _ _ _ Hn) as (_ & _ & Hro & _). set (l1 := set_base_id _ l0).
  assert (∀ r : result list_error () * GoList, replaces es l1 r →
    match r with (Ok _, l') => Some l' | _ => None end = Some l → opened name d l0 l) as Hrep.
  { unfold replaces. change (readOnly l1) with (readOnly l0). rewrite Hro.
    intros r [[e ->]|(seg & -> & Hs & He)]; [done|]. intros [= <-]. by eapply opened_install. }
  unfold install_artifact. case_bool_decide.
  - intros ([[i digest] build] & _ & (b & _ & Hl)%bind_Some)%bind_Some. eapply Hrep; [apply replace_exact_replaces|exact Hl].
  - destruct (negb _); [done|]. intros ([[i digest] build] & _ & (b & _ & Hl)%bind_Some)%bind_Some.
    destruct (_ && _); [|done]. eapply Hrep; [apply replace_index_replaces|exact Hl].
Qed.

(** Where the index of an opened base may come from: an index cache that records the
    identity of these very bytes of the base, the digest of the analyzer and, for an
    n-gram index, the gram configuration - *)
Definition index_loaded (d : dir) (c : ListConfig) (an : Analyzer) (content : bytes) (seg : segment) : Prop :=
  ∃ idx build, d !! idxFile = Some idx ∧ ab_BaseID build = hex (sha256 content) ∧
    ((Mode (Match c) = m_exact ∧ ∃ i, load_exact idx = Some (i, AnalyzerSpecDigest an, Some build) ∧ ex seg = Some i) ∨
     (Mode (Match c) = m_ngram ∧ ∃ i, load_ngram idx = Some (i, AnalyzerSpecDigest an, Some build) ∧ ng seg = Some i ∧
        Ngram.Grams (Ngram.cfg i) = mc_Grams (Match c) ∧ Ngram.StripSpaces (Ngram.cfg i) = mc_StripSpaces (Match c))).
(** - or the build of the base's entries. *)
Definition base_origin (d : dir) (c : ListConfig) (an : Analyzer) (b : option segment) : Prop :=
  ∀ seg, b = Some seg → ∃ content es, d !! baseFile = Some content ∧ readBase content = Ok es ∧
    (buildSegment (Match c) an (dedupeLastWins es) = Ok seg ∨ index_loaded d c an content seg).

Lemma artifact_fits_ok l digest build b : artifact_fits l digest build = Some b →
  build = Some b ∧ digest = AnalyzerSpecDigest (l_an l) ∧ ab_BaseID b = baseID l.
Proof.
  unfold artifact_fits. destruct build as [b'|]; [|done]. cbn [mbind option_bind]. destruct (negb _); [|done]. cbn [andb].
  case_bool_decide; [|done]. cbn [andb]. case_bool_decide; [|done]. by intros [= <-].
Qed.
Lemma prebuilt_indexes es n x counters : ng (prebuilt_segment es n x counters) = n ∧ ex (prebuilt_segment es n x counters) = x.
Proof. unfold prebuilt_segment. destruct counters as [[? ?] ?]. by destruct (foldl _ _ _) as [[? ?] ?]. Qed.
Lemma replace_exact_index es i bi l l' : ReplaceWithExactIndexInfo es (Some i) bi l = (Ok (), l') →
  ∃ seg, base (snap l') = Some seg ∧ ex seg = Some i.
Proof.
  unfold ReplaceWithExactIndexInfo. run_list_op. destruct (readOnly l); [done|]. destruct (negb _); [done|].
  destruct (_ <? _); [done|]. destruct (applyBuildInfo _ _ _) as [n|]; [|done]. intros [= <-]. eexists. split; [done|]. apply prebuilt_indexes.
Qed.
Lemma replace_indexes_index es i c bi l l' : ReplaceWithIndexesInfo es (Some i) c bi l = (Ok (), l') →
  ∃ seg, base (snap l') = Some seg ∧ ng seg = Some i.
Proof.
  unfold ReplaceWithIndexesInfo. run_list_op. destruct (readOnly l); [done|]. destruct (negb _); [done|]. destruct (negb _); [done|].
  destruct (_ <? _); [done|]. destruct c as [c|]; [destruct (_ <? _); [done|]|].
  all: cbn [mret list_op_ret]; destruct (applyBuildInfo _ _ _) as [n|]; [|done]; intros [= <-]; eexists; (split; [done|]); apply prebuilt_indexes.
Qed.
Lemma replace_ngram_index es i bi l l' : ReplaceWithIndexInfo es (Some i) bi l = (Ok (), l') →
  ∃ seg, base (snap l') = Some seg ∧ ng seg = Some i.
Proof.
  unfold ReplaceWithIndexInfo. run_list_op. destruct (readOnly l); [done|]. destruct (negb _); [done|]. case_bool_decide; [done|].
  destruct (ExactCompanion _); [destruct (buildCompanion _ _); [|done]|]; apply replace_indexes_index.
Qed.

Lemma install_artifact_origin d name c l0 content idx es l :
  NewList name c = Ok l0 → d !! idxFile = Some idx → install_artifact (set_base_id (baseIDFromHash content) l0) es idx = Some l →
  ∃ seg, base (snap l) = Some seg ∧ index_loaded d (l_cfg l0) (l_an l0) content seg.
Proof.
  intros Hn Hd. unfold install_artifact. set (l1 := set_base_id _ l0). change (mode_of l1) with (Match (l_cfg l0)). case_bool_decide as Hm.
  - intros ([[i digest] build] & Hl & (b & (-> & -> & Hb)%artifact_fits_ok & H)%bind_Some)%bind_Some.
    destruct (ReplaceWithExactIndexInfo _ _ _ _) as [[[]|] l2] eqn:E; [|done]. injection H as ->.
    destruct (replace_exact_index _ _ _ _ _ E) as (seg & Hs & Hx). exists seg. split; [done|]. exists idx, b. split_and!; [done..|]. left. split; [done|]. by exists i.
  - destruct (negb (bool_decide _)) eqn:Hng; [done|]. apply negb_false_iff, bool_decide_eq_true in Hng.
    intros ([[i digest] build] & Hl & (b & (-> & -> & Hb)%artifact_fits_ok & H)%bind_Some)%bind_Some.
    destruct (_ && _) eqn:Hcfg; [|done]. apply andb_true_iff in Hcfg as [Hg%bool_decide_eq_true Hs%eqb_prop].
    destruct (ReplaceWithIndexInfo _ _ _ _) as [[[]|] l2] eqn:E; [|done]. injection H as ->.
    destruct (replace_ngram_index _ _ _ _ _ E) as (seg & Hseg & Hx). exists seg. split; [done|]. exists idx, b. split_and!; [done..|]. right. split; [done|]. by exists i.
Qed.

Lemma wp_read_optional f (Q : option bytes → dir → memory → Prop) X D d s :
  Q (d !! f) d s → X (Os OtherError) d s → D d → wp (read_optional f) Q X D d s.
Proof.
  intros HQ HX HD. unfold read_optional. apply wp_bind, wp_syscall; [|intros n; by apply wp_throw|done].
  destruct (d !! f); by apply wp_ret.
Qed.

Lemma wp_open_base name c l0 d s :
  NewList name c = Ok l0 →
  wp (open_base l0) (λ l d' s', s' = s ∧ agree d d' ∧ opened name d l0 l) (λ e d' s', s' = s) (λ _, True) d s.
Proof.
  intros Hn. destruct (new_list_inv _ _ _ Hn) as (_ & _ & Hro & _). unfold open_base.
  apply wp_bind, wp_read_optional; [|done|done]. destruct (d !! baseFile) as [content|] eqn:Hd.
  - destruct (readBase content) as [es|e] eqn:Hr; [|by apply wp_throw]. rewrite (set_base_id_eq _ l0 Hro).
    set (l1 := set_base_id (baseIDFromHash content) l0).
    assert (∀ inst, (∀ l, inst = Some l → opened name d l0 l) → wp (match inst with
      | Some l => mret l
      | None => match Replace es l1 with
        | (Ok _, l) => _ ← match base (snap l) with Some seg => saveArtifact l (ng seg) (ex seg) | None => mret () end; mret l
        | (Err e, _) => throw (ListFailed e)
        end end)
      (λ l d' s', s' = s ∧ agree d d' ∧ opened name d l0 l) (λ e d' s', s' = s) (λ _, True) d s) as Hin.
    { intros [l|] Hl; [apply wp_ret; split_and!; by auto|]. pose proof (replace_replaces es l1) as Hrep. unfold replaces in Hrep.
      change (readOnly l1) with (readOnly l0) in Hrep. rewrite Hro in Hrep.
      destruct Hrep as [[e ->]|(seg & -> & Hs & He)]; [by apply wp_throw|].
      apply wp_bind, wp_saveArtifact. intros d' Ha. split; [|done]. apply wp_ret. split_and!; [done|done|].
      by eapply opened_install. }
    apply wp_bind, wp_bind, wp_syscall; [|intros n; by apply wp_ret, (Hin None)|done].
    destruct (d !! idxFile) as [idx|]; apply wp_ret; [|by apply (Hin None)]. apply Hin. intros l. by eapply install_artifact_opened.
  - rewrite (set_base_id_eq _ l0 Hro). apply wp_ret. split_and!; [done|done|].
    unfold NewList in Hn. apply bind_ok in Hn as ([c' an] & _ & [= <-]).
    split_and!; try done.
Qed.

(** ** The journal *)

(** The journal after the repair of its tail. *)
Definition kept (d : dir) : bytes :=
  let t := (readJournal (journal d)).2 in if (0 <=? t)%Z then take (Z.to_nat t) (journal d) else journal d.

Lemma kept_clean d : clean_head (journal d) → clean_head (kept d).
Proof. intros H. unfold kept. cbv zeta. case_match; [by apply clean_head_first|done]. Qed.
Lemma kept_nil d : clean_head (journal d) → (readJournal (journal d)).1 = [] → kept d = [].
Proof.
  intros Hc Ho. unfold kept. destruct (readJournal (journal d)) as [ops t] eqn:Hr. simpl in *. subst ops.
  destruct (clean_head_torn _ _ Hc Hr) as [->| ->]; [|done]. rewrite take_nil. by case_match.
Qed.

Lemma kept_reads d : readJournal (kept d) = ((readJournal (journal d)).1, (-1)%Z).
Proof.
  unfold kept. destruct (readJournal (journal d)) as [ops t] eqn:Hr. simpl.
  change (read_from 0 (journal d) = (ops, t)) in Hr. destruct (decide (t = (-1)%Z)) as [->|Ht]; [exact Hr|].
  destruct (read_from_torn 0 _ _ _ ltac:(lia) Hr Ht) as [Hb Hk]. rewrite (proj2 (Z.leb_le _ _)) by lia.
  by rewrite Z.sub_0_r in Hk.
Qed.

Lemma truncate_kept d : (0 <= (readJournal (journal d)).2)%Z →
  let n := Z.to_nat (readJournal (journal d)).2 in take n (journal d) ++ replicate (n - length (journal d)) 0%N = kept d.
Proof.
  intros Ht n. unfold kept. rewrite (proj2 (Z.leb_le _ _)) by done. fold n.
  destruct (readJournal (journal d)) as [ops t] eqn:Hr. simpl in *. change (read_from 0 (journal d) = (ops, t)) in Hr.
  destruct (read_from_torn 0 _ _ _ ltac:(lia) Hr ltac:(lia)) as [Hb _].
  replace (n - length (journal d)) with 0 by (unfold n; lia). by rewrite app_nil_r.
Qed.

Lemma opened_with name d l0 l c d' : opened name d l0 l → with_journal d c d' → opened name d' l0 l.
Proof. intros (? & ? & ? & ? & ? & ? & Hb & ? & ?) Hw. split_and!; try done. by eapply base_ok_with. Qed.

(** The list before the replay, stamped at its base. *)
Lemma opened_on_disk name d l0 l :
  opened name d l0 l → conf_ok name d l → journal d = [] →
  on_disk name d (setJournalHash (Some (journal_domain ++ journal d)) l) [].
Proof.
  intros (Hi & ? & ? & ? & ? & ? & Hb & Ho & Hv) Hc Hj. rewrite Hj. unfold on_disk. rewrite Hj, app_nil_r.
  split_and!; [exact Hi|exact Hc|exact Hb|done|exact Ho|done|exact Hv|done].
Qed.

(** The outcomes of opening: the journal is replayed, or quarantined. *)
Definition reopened (name : bytes) (d : dir) (l : GoList) (s : memory) (l' : GoList) (d' : dir) (s' : memory) : Prop :=
  m_ls s' = m_ls s ∧ l_cfg l' = l_cfg l ∧ l_an l' = l_an l ∧ base (snap l') = base (snap l) ∧ synced name d' l' ∧
  (with_journal d (kept d) d' ∧ s' = s ∨
   with_journal d [] d' ∧ live_map l' = live_map l ∧ ∃ e l'', m_quarantined s' = m_quarantined s ++ [(name, e)] ∧
     applyJournalLocked (readJournal (kept d)).1 (Z.of_nat (length (kept d))) (setJournalHash (Some (journal_domain ++ kept d)) l) = (Err e, l'')).

Lemma journal_not_vital_q : vital (journalFile ++ quarantineSuffix) = false.
Proof. vm_compute. reflexivity. Qed.

Lemma wp_replay_journal name l0 l d d1 s :
  opened name d l0 l → conf_ok name d l → clean_head (journal d) → with_journal d (kept d) d1 →
  wp (replay_journal name (readJournal (kept d)).1 (kept d) l) (reopened name d l s) (λ e d' s', s' = s) (λ _, True) d1 s.
Proof.
  intros Hop Hc Hnb Hw. pose proof (opened_with _ _ _ _ _ _ Hop Hw) as Hop1. pose proof (conf_ok_with _ _ _ _ _ Hc Hw) as Hc1.
  pose proof Hw as [_ Hj1]. pose proof (kept_reads d) as Hk. rewrite Hk. pose proof (kept_nil d Hnb) as Hnil0.
  set (ops := (readJournal (journal d)).1) in *. cbn [fst]. unfold replay_journal.
  destruct (Nat.ltb_spec 0 (length ops)) as [Hlen|Hlen].
  2:{ assert (ops = []) as Hnil by (destruct ops; [done|simpl in *; lia]). specialize (Hnil0 Hnil).
      apply wp_ret. split_and!; try done; [|left; split; [exact Hw|reflexivity]]. exists []. rewrite <-Hj1. eapply opened_on_disk; [done|done|by rewrite Hj1]. }
  set (l1 := setJournalHash (Some (journal_domain ++ kept d)) l).
  destruct (applyJournalLocked ops (Z.of_nat (length (kept d))) l1) as [[[]|e] l'] eqn:Happ.
  - apply wp_ret. unfold applyJournalLocked in Happ. destruct (Nat.eqb_spec (length ops) 0); [lia|].
    unfold mbind, list_op_bind, prepare, modify in Happ.
    change (prepareOverlayLocked (journal_mutation ops) l1) with (prepareOverlayLocked (journal_mutation ops) l) in Happ.
    change (λ b st, foldl (apply_rec b) st ops) with (journal_mutation ops) in Happ.
    destruct (prepareOverlayLocked (journal_mutation ops) l1) as [b|e] eqn:Hp; [|done]. injection Happ as <-.
    destruct Hop1 as (Hi & ? & ? & ? & ? & ? & Hb & Ho & Hv).
    destruct (commit_on_disk digest_ne name d1 l [] ops b Hi Hc1 Hb Ho) as [Hd _]; [by rewrite Hj1|rewrite Hj1; by apply kept_clean|done|].
    split_and!; try done; [|left; split; [exact Hw|reflexivity]]. exists ops. rewrite Hj1 in Hd. exact Hd.
  - assert (∀ d2, agree d1 d2 → wp (r ← rename journalFile (journalFile ++ quarantineSuffix);
       match r with
       | Err _ => throw (QuarantineFailed e)
       | Ok _ => _ ← quarantine name e; mret (setJournalHash (Some journal_domain) l1)
       end) (reopened name d l s) (λ e d' s', s' = s) (λ _, True) d2 s) as Hq.
    { intros d2 Ha. apply wp_bind, wp_syscall; [|intros n; by apply wp_throw|done].
      destruct (d2 !! journalFile) as [cj|]; [|by apply wp_throw]. apply wp_bind, wp_put_mem, wp_ret.
      set (d3 := <[_ := _]> _). assert (with_journal d1 [] d3) as Hw3.
      { unfold d3. split.
        - intros f Hf Hne. rewrite lookup_insert_ne by (intros <-; by rewrite journal_not_vital_q in Hf).
          rewrite lookup_delete_ne by done. by apply Ha.
        - unfold journal. rewrite lookup_insert_ne by (by vm_compute). by rewrite lookup_delete_eq. }
      pose proof (opened_with _ _ _ _ _ _ Hop1 Hw3) as Hop3. pose proof (conf_ok_with _ _ _ _ _ Hc1 Hw3) as Hc3. pose proof Hw3 as [_ Hj3].
      assert (with_journal d [] d3) as Hwd by (split; [|exact Hj3]; intros f Hf Hne; by rewrite (proj1 Hw f Hf Hne), (proj1 Hw3 f Hf Hne)).
      split_and!; try done; [|right; split; [done|]; split; [done|]; exists e, l'; by rewrite Hk].
      exists []. pose proof (opened_on_disk _ _ _ _ Hop3 Hc3 Hj3) as Hd. rewrite Hj3, app_nil_r in Hd. exact Hd. }
    apply wp_bind, wp_syscall; [|intros n; by apply Hq|done].
    destruct (d1 !! (journalFile ++ quarantineSuffix)); apply Hq; [|done]. apply agree_delete_other, journal_not_vital_q.
Qed.

Lemma wp_open_journal name l0 l d s :
  opened name d l0 l → conf_ok name d l → clean_head (journal d) →
  wp (open_journal name l) (reopened name d l s) (λ e d' s', s' = s) (λ _, True) d s.
Proof.
  intros Hop Hc Hnb. unfold open_journal. apply wp_bind, wp_read_optional; [|done|done].
  assert (match d !! journalFile with Some c => readJournal c | None => ([], (-1)%Z) end = readJournal (journal d)) as ->.
  { unfold journal. by destruct (d !! journalFile). }
  pose proof (truncate_kept d) as Htr. pose proof (kept_reads d) as Hk.
  assert (∀ d1, with_journal d (kept d) d1 →
    wp (hashed ← read_optional journalFile; replay_journal name (readJournal (journal d)).1 (default [] hashed) l)
      (reopened name d l s) (λ e d' s', s' = s) (λ _, True) d1 s) as Hrest.
  { intros d1 Hw. apply wp_bind, wp_read_optional; [|done|done]. pose proof Hw as [_ Hj]. unfold journal in Hj at 1. rewrite Hj.
    pose proof (wp_replay_journal name l0 l d d1 s Hop Hc Hnb Hw) as H. by rewrite Hk in H. }
  destruct (readJournal (journal d)) as [ops t] eqn:Hr. simpl in Htr, Hrest. apply wp_bind.
  destruct (Z.leb_spec 0 t) as [Ht|Ht].
  - apply wp_or_syscall; [|done|done]. destruct (d !! journalFile) as [c|] eqn:Hj; [|done]. apply Hrest.
    specialize (Htr Ht). unfold journal in Htr. rewrite Hj in Htr. simpl in Htr. rewrite Htr. eapply with_journal_set, with_journal_refl.
  - apply wp_ret, Hrest. assert (kept d = journal d) as ->; [|apply with_journal_refl]. unfold kept. rewrite Hr. simpl.
    by rewrite (proj2 (Z.leb_gt _ _)).
Qed.

(** ** openList *)

Lemma with_journal_agree d d1 c d2 : agree d d1 → with_journal d1 c d2 → with_journal d c d2.
Proof. intros Ha [Hw Hj]. split; [|done]. intros f Hf Hne. rewrite <-Hw by done. by apply Ha. Qed.

Lemma kept_agree d d' : agree d d' → kept d' = kept d.
Proof. intros H. unfold kept. by rewrite (proj2 (agree_with_journal d d' H)). Qed.

Lemma conf_ok_opened name d raw c0 l0 l d' :
  d !! markerFile = None → d !! configFile = Some raw → unmarshal_config raw = Some c0 → NewList name c0 = Ok l0 →
  agree d d' → opened name d l0 l → conf_ok name d' l.
Proof.
  intros Hm Hc Hu Hn Ha (Hi & Hname & Hro & Hcf & Han & Hdig & _). destruct (new_list_inv _ _ _ Hn) as (_ & _ & _ & Hres).
  split_and!; [done|done| |by rewrite <-Ha|].
  - rewrite Hdig, Hcf, Han. unfold NewList in Hn. by apply bind_ok in Hn as ([c' an] & _ & [= <-]).
  - exists raw, c0. rewrite <-Ha, Hcf, Han by done. done.
Qed.

Lemma opened_agree name d l0 l d' : opened name d l0 l → agree d d' → opened name d' l0 l.
Proof. intros H Ha. eapply opened_with; [exact H|by apply agree_with_journal]. Qed.

(** What [openList] returns. *)
Definition open_result (name : bytes) (d : dir) (s : memory) (l : GoList) (d' : dir) (s' : memory) : Prop :=
  m_ls s' = m_ls s ∧ synced name d' l ∧
  (with_journal d (kept d) d' ∧ s' = s ∨
   with_journal d [] d' ∧ live_map l = entry_map (base_entries (base (snap l))) ∧
   ∃ e l0 l1, m_quarantined s' = m_quarantined s ++ [(name, e)] ∧ base (snap l0) = base (snap l) ∧ overlay_state_of l0 = (∅, ∅) ∧
     applyJournalLocked (readJournal (kept d)).1 (Z.of_nat (length (kept d))) (setJournalHash (Some (journal_domain ++ kept d)) l0) = (Err e, l1)).

Lemma opened_live name d l0 l : opened name d l0 l → live_map l = entry_map (base_entries (base (snap l))).
Proof.
  intros ((Hb & _) & _ & _ & _ & _ & _ & _ & Ho & _). unfold overlay_state_of in Ho. unfold live_map. rewrite Ho.
  rewrite (live_of_base _ (base_entries (base (snap l)))); [done| |done]. destruct (base (snap l)); [apply Hb|constructor].
Qed.

(** Whatever calls fail, a list that opens from an unmarked directory agrees with
    the disk it leaves, and the served list and its mark are untouched. *)
Lemma wp_openList name d s :
  d !! markerFile = None → clean_head (journal d) →
  wp (openList name) (open_result name d s) (λ e d' s', s' = s) (λ _, True) d s.
Proof.
  intros Hm Hch. unfold openList.
  assert (wp (raw ← or_fail Os (read_file configFile);
      match unmarshal_config raw with
      | None => throw ConfigUnreadable
      | Some cfg => match NewList name cfg with
                    | Err e => throw (BadConfig e)
                    | Ok l => l ← open_base l; open_journal name l
                    end
      end) (open_result name d s) (λ e d' s', s' = s) (λ _, True) d s) as Hopen.
  { apply wp_bind, wp_or_syscall; [|done|done]. destruct (d !! configFile) as [raw|] eqn:Hc; [|done].
    destruct (unmarshal_config raw) as [c0|] eqn:Hu; [|by apply wp_throw].
    destruct (NewList name c0) as [l0|] eqn:Hn; [|by apply wp_throw].
    apply wp_bind. eapply wp_mono; [by eapply wp_open_base| |done|done]. intros l d1 s1 (-> & Ha & Hop).
    assert (conf_ok name d1 l) as Hcok by by eapply conf_ok_opened.
    pose proof (opened_live _ _ _ _ Hop) as Hlive. destruct (agree_with_journal d d1 Ha) as [_ Hj1].
    eapply wp_mono; [eapply wp_open_journal; [by eapply opened_agree|exact Hcok|by rewrite Hj1]| |done|done].
    intros l2 d2 s2 (Hls & Hcf & Han & Hba & Hsync & Hcase). split; [done|]. split; [done|].
    rewrite (kept_agree d d1 Ha) in Hcase. destruct Hcase as [[Hw ->]|(Hw & Hl2 & e & l'' & Hq & Happ)].
    - left. split; [by eapply with_journal_agree|done].
    - right. split; [by eapply with_journal_agree|]. rewrite Hba, <-Hlive, Hl2. split; [done|].
      exists e, l, l''. split_and!; try done. apply Hop. }
  apply wp_bind, wp_syscall; [|intros n; exact Hopen|done]. rewrite Hm. exact Hopen.
Qed.
(** ** Reload *)

Lemma sweep_agree d : agree d (sweepTempFiles d).
Proof.
  intros f Hf. unfold sweepTempFiles. rewrite map_lookup_filter. destruct (d !! f) as [c|] eqn:Hd; [|done]. simpl.
  rewrite option_guard_True; [done|]. intros H.
  assert (∃ p, p ∈ [temp_base; temp_cfg; temp_idx] ∧ p `prefix_of` f) as (p & Hp & Hpre).
  { destruct H as [H|[H|H]]; eexists; (split; [|exact H]); set_solver. }
  destruct (temp_not_vital p f Hp Hpre) as [Hv _]. by rewrite Hv in Hf.
Qed.

Lemma open_result_agree name d d' s l d2 s2 : agree d d' → open_result name d' s l d2 s2 → open_result name d s l d2 s2.
Proof.
  intros Ha (? & ? & H). split; [done|]. split; [done|]. rewrite (kept_agree d d' Ha) in H.
  destruct H as [[? ->]|(? & ? & ?)]; [left; split; [by eapply with_journal_agree|done]|right; split; [by eapply with_journal_agree|done]].
Qed.

Lemma wp_reloadLocked name d s :
  d !! markerFile = None → clean_head (journal d) →
  wp (reloadLocked name)
    (λ v d' s', ls_damage (m_ls s) = damageNone ∧ ∃ l s1, open_result name d s l d' s1 ∧ v = version (snap l) ∧
       s' = on_state (swap_l l) s1 ∧ list_ok name d' s' l)
    (λ e d' s', s' = s ∧ (ls_damage (m_ls s) ≠ damageNone → d' = d)) (λ _, ls_damage (m_ls s) = damageNone) d s.
Proof.
  intros Hm Hch. unfold reloadLocked, refuse_damaged, getDamage. apply wp_bind, wp_bind, wp_bind, wp_get_mem, wp_ret.
  case_bool_decide as Hk; simpl; [|unfold damageErr, getDamage; by apply wp_bind, wp_bind, wp_get_mem, wp_ret, wp_throw].
  apply wp_ret. set (X := λ (e : store_error) (d' : dir) s', s' = s ∧ (ls_damage (m_ls s) ≠ damageNone → d' = d)).
  assert (∀ (e : store_error) d', X e d' s) as HX by by intros e d'.
  assert (wp (_ ← syscall (λ d, (Ok (), sweepTempFiles d)) no_effect; l ← openList name; _ ← setDamage damageNone;
      _ ← put_mem (on_state (swap_l l)); the_version name)
    (λ v d' s', ls_damage (m_ls s) = damageNone ∧ ∃ l s1, open_result name d s l d' s1 ∧ v = version (snap l) ∧
       s' = on_state (swap_l l) s1 ∧ list_ok name d' s' l) X (λ _, ls_damage (m_ls s) = damageNone) d s) as Hrest.
  { assert (∀ d1, agree d d1 → wp (l ← openList name; _ ← setDamage damageNone; _ ← put_mem (on_state (swap_l l)); the_version name)
      (λ v d' s', ls_damage (m_ls s) = damageNone ∧ ∃ l s1, open_result name d s l d' s1 ∧ v = version (snap l) ∧
         s' = on_state (swap_l l) s1 ∧ list_ok name d' s' l) X (λ _, ls_damage (m_ls s) = damageNone) d1 s) as Hopen.
    { intros d1 Ha. apply wp_bind. eapply wp_mono; [apply (wp_openList name d1 s)| | |done].
      - by rewrite <-Ha.
      - by rewrite (proj2 (agree_with_journal d d1 Ha)).
      - intros l d2 s2 Hres. apply (open_result_agree name d) in Hres; [|done]. pose proof Hres as (Hls & Hsync & _).
        apply wp_bind, wp_put_mem, wp_bind, wp_put_mem. unfold the_version. apply wp_bind, (wp_load name l); [done|].
        apply wp_ret. split; [done|]. exists l, s2. split_and!; [done|done| |done].
        destruct s2 as [[a b k ac] q]. simpl in *. unfold on_state, swap_l, set_damage. simpl. f_equal. f_equal.
        rewrite <-Hk. by rewrite <-Hls.
      - intros e d2 s2 ->. apply HX. }
    apply wp_bind, wp_syscall; [|intros n; by apply Hopen|done]. apply Hopen, sweep_agree. }
  apply wp_bind, wp_syscall; [|intros n; by apply wp_bind, wp_ret|done].
  apply wp_bind. destruct (d !! journalFile) as [c|]; [|by apply wp_ret]. case_match; [by apply wp_throw|by apply wp_ret].
Qed.

(** ** Reopening without faults *)

Lemma runs_or_syscall {A} (run : dir → result os_error A * dir) partial (Q : A → dir → memory → Prop) X d s :
  (let '(r, d') := run d in match r with Ok a => Q a d' s | Err e => X (Os e) d' s end) →
  runs (or_fail Os (syscall run partial)) Q X d s.
Proof. intros H. apply runs_or_fail, runs_syscall. by destruct (run d) as [[]]. Qed.

Lemma settles_saveArtifact l ng ex : settles (saveArtifact l ng ex).
Proof. unfold saveArtifact. destruct (BuildStats l). unfold save_file, create_temp, write, flush, rename, remove. settles. Qed.

Lemma runs_read_optional f (Q : option bytes → dir → memory → Prop) X d s :
  Q (d !! f) d s → runs (read_optional f) Q X d s.
Proof. intros HQ. unfold read_optional. apply runs_bind, runs_syscall. destruct (d !! f); by apply runs_ret. Qed.

(** The list's entries build under its configuration. *)
Definition builds (c : ListConfig) (an : Analyzer) (es : list Entry) : Prop := is_ok (buildSegment (Match c) an es) = true.

Lemma replace_eq es l : readOnly l = false →
  Replace es l = match buildSegment (mode_of l) (l_an l) (dedupeLastWins es) with
                 | Ok seg => (Ok (), installBase seg l)
                 | Err e => (Err e, l)
                 end.
Proof. intros Hr. unfold Replace, prepareBase. run_list_op. rewrite Hr. by destruct (buildSegment _ _ _). Qed.

Lemma runs_open_base name c l0 d s :
  NewList name c = Ok l0 →
  match d !! baseFile with
  | None => True
  | Some content => ∃ es, readBase content = Ok es ∧ builds (l_cfg l0) (l_an l0) (dedupeLastWins es)
  end →
  runs (open_base l0) (λ l d' s', s' = s ∧ agree d d' ∧ opened name d l0 l) (λ _ _ _, False) d s.
Proof.
  intros Hn Hb. eapply runs_mono; [eapply (runs_succeeds _ (λ _ _ _, True)); [|by apply (wp_open_base name c l0 d s)]|by intros l d' s' [_ H]|done].
  destruct (new_list_inv _ _ _ Hn) as (_ & _ & Hro & _). unfold open_base.
  apply runs_bind, runs_read_optional. destruct (d !! baseFile) as [content|]; [|by rewrite (set_base_id_eq _ l0 Hro)].
  destruct Hb as (es & -> & Hb). rewrite (set_base_id_eq _ l0 Hro). set (l1 := set_base_id _ l0).
  apply runs_bind. unfold installWithArtifact. apply runs_bind, runs_syscall.
  assert (∀ inst : option GoList, runs (match inst with
      | Some l => mret l
      | None => match Replace es l1 with
        | (Ok _, l) => _ ← match base (snap l) with Some seg => saveArtifact l (ng seg) (ex seg) | None => mret () end; mret l
        | (Err e, _) => throw (ListFailed e)
        end end) (λ _ _ _, True) (λ _ _ _, False) d s) as Hin.
  { intros [l|]; [done|]. rewrite (replace_eq es l1 Hro).
    change (mode_of l1) with (Match (l_cfg l0)). change (l_an l1) with (l_an l0). unfold builds in Hb.
    destruct (buildSegment _ _ _) as [seg|]; [|done]. set (l2 := installBase seg l1).
    change (base (snap l2)) with (Some seg). cbv iota. apply runs_bind, settles_runs; [apply settles_saveArtifact|].
    by apply wp_saveArtifact. }
  destruct (d !! idxFile) as [idx|]; apply runs_ret; [apply (Hin (install_artifact l1 es idx))|apply (Hin None)].
Qed.

(** Whatever the cache holds, the index served is the build, or one that fits. *)
Lemma wp_open_base_origin name c l0 d s :
  NewList name c = Ok l0 →
  wp (open_base l0) (λ l _ _, base_origin d (l_cfg l0) (l_an l0) (base (snap l))) (λ _ _ _, True) (λ _, True) d s.
Proof.
  intros Hn. destruct (new_list_inv _ _ _ Hn) as (_ & _ & Hro & _). unfold open_base.
  apply wp_bind, wp_read_optional; [|done|done]. destruct (d !! baseFile) as [content|] eqn:Hd.
  - destruct (readBase content) as [es|e] eqn:Hr; [|by apply wp_throw]. rewrite (set_base_id_eq _ l0 Hro).
    set (l1 := set_base_id (baseIDFromHash content) l0).
    assert (∀ inst, (∀ l, inst = Some l → base_origin d (l_cfg l0) (l_an l0) (base (snap l))) → wp (match inst with
      | Some l => mret l
      | None => match Replace es l1 with
        | (Ok _, l) => _ ← match base (snap l) with Some seg => saveArtifact l (ng seg) (ex seg) | None => mret () end; mret l
        | (Err e, _) => throw (ListFailed e)
        end end)
      (λ l _ _, base_origin d (l_cfg l0) (l_an l0) (base (snap l))) (λ _ _ _, True) (λ _, True) d s) as Hin.
    { intros [l|] Hl; [apply wp_ret; by apply Hl|]. rewrite (replace_eq es l1 Hro). change (mode_of l1) with (Match (l_cfg l0)).
      change (l_an l1) with (l_an l0). destruct (buildSegment _ _ _) as [seg|e] eqn:Hb; [|by apply wp_throw].
      apply wp_bind, wp_saveArtifact. intros d' _. split; [|done]. apply wp_ret. intros seg' [= <-]. exists content, es. by split_and!; [..|left]. }
    apply wp_bind, wp_bind, wp_syscall; [|intros n; by apply wp_ret, (Hin None)|done].
    destruct (d !! idxFile) as [idx|] eqn:Hi; apply wp_ret; [|by apply (Hin None)]. apply Hin. intros l Hl seg Hs.
    destruct (install_artifact_origin d name c l0 content idx es l Hn Hi Hl) as (seg' & Hs' & Ho). rewrite Hs in Hs'. injection Hs' as ->.
    exists content, es. by split_and!; [..|right].
  - rewrite (set_base_id_eq _ l0 Hro). apply wp_ret. unfold NewList in Hn. apply bind_ok in Hn as ([c' an] & _ & [= <-]). by intros seg [=].
Qed.

(** The overlay of a replayed journal builds, or there is none. *)
Definition overlay_builds (c : ListConfig) (an : Analyzer) (b : option segment) (ops : list journalRec) : Prop :=
  (replayed b ops).1 = ∅ ∨ builds c an (sorted_entries (replayed b ops).1).

Lemma prepare_overlay_builds l rs : overlay_state_of l = (∅, ∅) →
  overlay_builds (l_cfg l) (l_an l) (base (snap l)) rs → ∃ b, prepareOverlayLocked (journal_mutation rs) l = Ok b.
Proof.
  unfold overlay_state_of, prepareOverlayLocked, overlay_builds, replayed, journal_mutation. intros -> Hb.
  destruct (foldl _ _ rs) as [src tomb]. simpl in Hb. destruct Hb as [->|Hb].
  - assert (sorted_entries ∅ = []) as ->; [|by eexists]. apply length_zero_iff_nil.
    by destruct (sorted_entries_spec ∅) as (_ & _ & _ & ->); [intros ? ?; rewrite lookup_empty|].
  - unfold builds in Hb. change (mode_of l) with (Match (l_cfg l)). destruct (buildSegment _ _ _) as [seg|]; [|done].
    case_match; by eexists.
Qed.

Lemma runs_open_journal name l0 l d s :
  opened name d l0 l → conf_ok name d l → clean_head (journal d) →
  overlay_builds (l_cfg l) (l_an l) (base (snap l)) (readJournal (journal d)).1 →
  runs (open_journal name l) (λ l' d' s', s' = s ∧ reopened name d l s l' d' s') (λ _ _ _, False) d s.
Proof.
  intros Hop Hc Hnb Hb. apply (runs_succeeds _ (λ _ _ s', s' = s) _ (λ e d' s', s' = s) (λ _, True)); [|by eapply wp_open_journal].
  destruct (prepare_overlay_builds l _ ltac:(apply Hop) Hb) as [b Hp].
  unfold open_journal. apply runs_bind, runs_read_optional.
  assert (match d !! journalFile with Some c => readJournal c | None => ([], (-1)%Z) end = readJournal (journal d)) as ->.
  { unfold journal. by destruct (d !! journalFile). }
  destruct (readJournal (journal d)) as [ops t] eqn:Hr. simpl in Hp. apply runs_bind.
  assert (∀ d1, runs (hashed ← read_optional journalFile; replay_journal name ops (default [] hashed) l)
    (λ _ _ s', s' = s) (λ _ _ _, False) d1 s) as Hrest.
  { intros d1. apply runs_bind, runs_read_optional. unfold replay_journal. case_match; [|done].
    unfold applyJournalLocked. destruct (Nat.eqb_spec (length ops) 0); [done|]. unfold mbind, list_op_bind, prepare, modify.
    change (λ b st, foldl (apply_rec b) st ops) with (journal_mutation ops).
    set (l1 := setJournalHash _ l). change (prepareOverlayLocked (journal_mutation ops) l1) with (prepareOverlayLocked (journal_mutation ops) l).
    rewrite Hp. done. }
  destruct (Z.leb_spec 0 t) as [Ht|Ht]; [|apply runs_ret, Hrest]. apply runs_or_syscall.
  destruct (d !! journalFile) as [c|] eqn:Hj; [apply Hrest|].
  unfold journal in Hr. rewrite Hj in Hr. injection Hr as _ Ht'. lia.
Qed.

(** The directory reads back and its entries build. *)
Definition reopenable (name : bytes) (d : dir) (c : ListConfig) (an : Analyzer) (es : list Entry) (ops : list journalRec) : Prop :=
  image name d c an es ops ∧ (is_Some (d !! baseFile) → builds c an es) ∧
  ∀ b, from_option seg_inv True b → base_entries b = es → overlay_builds c an b ops.

(** An unquarantined list is the one the directory describes. *)
Lemma synced_image name d d' l c an es ops :
  image name d c an es ops → with_journal d (kept d) d' → synced name d' l →
  l_cfg l = c ∧ l_an l = an ∧ on_disk name d' l ops ∧ base_entries (base (snap l)) = es ∧ live_map l = image_map es ops.
Proof.
  intros (_ & (raw & c0 & Hraw & Hu & Hres) & Hbase & _ & t & Hj) [Hw Hjw] (ops' & Hod).
  pose proof Hod as ((Hi & _) & (_ & _ & _ & _ & raw' & c1 & Hraw' & Hu' & Hres') & Hb & Hj' & Ho & _).
  pose proof (kept_reads d) as Hk. rewrite Hj in Hk. rewrite Hjw, Hk in Hj'. injection Hj' as <-.
  rewrite <-Hw, Hraw in Hraw' by done. injection Hraw' as <-. rewrite Hu in Hu'. injection Hu' as <-.
  rewrite Hres in Hres'. injection Hres' as -> ->.
  assert (base_entries (base (snap l)) = es) as Hes.
  { unfold base_ok in Hb. destruct (base (snap l)) as [seg|]; simpl.
    - destruct Hb as (content & es' & Hf & Hr & -> & _). rewrite <-Hw in Hf by done.
      destruct Hbase as [[Hn _]|(content' & es0 & Hf' & Hr' & ->)]; [congruence|]. rewrite Hf in Hf'. injection Hf' as <-. congruence.
    - destruct Hb as [Hn _]. rewrite <-Hw in Hn by done. destruct Hbase as [[_ ->]|(content' & es0 & Hf' & _)]; [done|congruence]. }
  split_and!; [done|done|done|done|]. unfold image_map. rewrite <-Hes, <-live_of_replayed by done. by rewrite <-Ho.
Qed.

Lemma runs_openList name d s c an es ops :
  reopenable name d c an es ops →
  runs (openList name) (λ l d' s', s' = s ∧ with_journal d (kept d) d' ∧ l_cfg l = c ∧ l_an l = an ∧ on_disk name d' l ops ∧
      base_entries (base (snap l)) = es ∧ live_map l = image_map es ops ∧ base_origin d c an (base (snap l)))
    (λ _ _ _, False) d s.
Proof.
  intros (Himg & Hbs & Hov). pose proof Himg as (Hm & (raw & c0 & Hraw & Hu & Hres) & Hbase & Hch & t & Hj).
  assert (runs (openList name) (λ l d' s', s' = s ∧ with_journal d (kept d) d' ∧ base_origin d c an (base (snap l))) (λ _ _ _, False) d s) as Hrun.
  2:{ eapply runs_mono; [eapply (runs_succeeds _ _ _ _ (λ _, True)); [exact Hrun|by apply wp_openList]| |done].
      intros l d' s' ((-> & Hw & Horg) & _ & Hsync & _). destruct (synced_image _ _ _ _ _ _ _ _ Himg Hw Hsync) as (? & ? & ? & ? & ?). by split_and!. }
  unfold openList. apply runs_bind, runs_syscall. rewrite Hm. apply runs_bind, runs_or_syscall. rewrite Hraw, Hu.
  destruct (NewList name c0) as [l0|e] eqn:Hn; [|unfold NewList in Hn; by rewrite Hres in Hn].
  destruct (new_list_inv _ _ _ Hn) as (_ & _ & _ & Hres'). rewrite Hres in Hres'. injection Hres' as Hc Han.
  apply runs_bind. eapply runs_mono; [eapply (runs_succeeds _ _ _ _ (λ _, True)); [eapply runs_open_base; [exact Hn|]|exact (wp_open_base_origin name c0 l0 d s Hn)]| |done].
  { destruct (d !! baseFile) as [content|]; [|done]. destruct Hbase as [[? _]|(content' & es0 & [= <-] & Hr & ->)]; [done|].
    exists es0. rewrite <-Hc, <-Han. split; [done|]. by apply Hbs. }
  intros l d1 s1 [(-> & Ha & Hop) Horg]. rewrite <-Hc, <-Han in Horg. assert (conf_ok name d1 l) as Hcok by by eapply conf_ok_opened.
  destruct (agree_with_journal d d1 Ha) as [_ Hj1].
  eapply runs_mono; [eapply runs_open_journal; [by eapply opened_agree|exact Hcok|by rewrite Hj1|]| |done].
  - rewrite Hj1, Hj. pose proof Hop as ((Hi & _) & _ & _ & -> & -> & _ & Hb & _). rewrite <-Hc, <-Han. apply Hov; [done|].
    unfold base_ok in Hb. destruct (base (snap l)) as [seg|]; simpl.
    + destruct Hb as (content & es' & Hf & Hr & -> & _).
      destruct Hbase as [[Hn' _]|(content' & es0 & Hf' & Hr' & ->)]; congruence.
    + destruct Hb as [Hf _]. destruct Hbase as [[_ ->]|(content' & es0 & Hf' & _)]; [done|congruence].
  - intros l2 d2 s2 (-> & _ & _ & _ & Hbase2 & _ & Hcase). rewrite (kept_agree d d1 Ha) in Hcase. rewrite Hbase2. split; [done|].
    destruct Hcase as [[Hw _]|(_ & _ & e & l'' & Hq & _)]; [split; [by eapply with_journal_agree|exact Horg]|].
    exfalso. apply (f_equal length) in Hq. rewrite length_app in Hq. simpl in Hq. lia.
Qed.

(** A replay depends on the base's IDs only. *)
Lemma replayed_ext b b' ops :
  from_option seg_inv True b → from_option seg_inv True b' → base_entries b = base_entries b' → replayed b ops = replayed b' ops.
Proof.
  intros Hb Hb' He. assert (∀ id, in_base b id = in_base b' id) as Hin.
  { intros id. pose proof (in_base_spec b id Hb) as H1. pose proof (in_base_spec b' id Hb') as H2. rewrite <-He, <-H1 in H2.
    destruct (in_base b id), (in_base b' id); naive_solver. }
  unfold replayed. generalize (∅ : gmap bytes Entry, ∅ : gset bytes). induction ops as [|r ops IH]; intros st; [done|].
  cbn [foldl]. rewrite IH. f_equal. unfold apply_rec, upsert_one, delete_one.
  rewrite Hin. by destruct (r_Entry r); rewrite ?Hin.
Qed.

(** A list whose base can be rebuilt: through a fallback build, were the index
    cache lost. *)
Definition rebuildable (l : GoList) : Prop :=
  ∀ seg, base (snap l) = Some seg → builds (l_cfg l) (l_an l) (entries seg).

Lemma synced_reopenable name d l ops :
  on_disk name d l ops → rebuildable l → reopenable name d (l_cfg l) (l_an l) (base_entries (base (snap l))) ops.
Proof.
  intros (Hi & (_ & _ & _ & Hm & Hc) & Hb & Hj & Ho & _ & _ & Hch) Hre. split; [|split].
  - split_and!; [done|done| |done|by eexists]. unfold base_ok in Hb. destruct (base (snap l)) as [seg|].
    + right. destruct Hb as (content & es & ? & ? & ? & _). by exists content, es.
    + left. by destruct Hb.
  - intros [content Hf]. unfold base_ok in Hb. destruct (base (snap l)) as [seg|] eqn:Hs; [by apply Hre|].
    destruct Hb as [Hn _]. congruence.
  - intros b Hsb Hes. destruct Hi as (Hsl & _ & Hov). unfold overlay_builds.
    rewrite (replayed_ext b (base (snap l)) ops Hsb Hsl Hes), <-Ho. unfold overlay_state_of. simpl.
    destruct (overlay (snap l)) as [v|]; [|by left]. right. unfold builds. destruct Hov as [_ Hov].
    change (Match (l_cfg l)) with (mode_of l). by rewrite Hov.
Qed.

Lemma runs_restart name d s l :
  synced name d l → rebuildable l →
  runs (openList name) (λ l' d' s', s' = s ∧ synced name d' l' ∧ with_journal d (journal d) d' ∧ live_map l' = live_map l ∧
      version (snap l') = version (snap l) ∧ l_cfg l' = l_cfg l ∧ l_an l' = l_an l ∧
      base_entries (base (snap l')) = base_entries (base (snap l)) ∧ overlay_state_of l' = overlay_state_of l ∧
      base_origin d (l_cfg l) (l_an l) (base (snap l')))
    (λ _ _ _, False) d s.
Proof.
  intros [ops Hod] Hre. pose proof (synced_reopenable name d l ops Hod Hre) as Hro.
  eapply runs_mono; [apply (runs_openList name d s _ _ _ _ Hro)| |done].
  intros l' d' s' (-> & Hw & Hcf & Han & Hod' & Hes & Hlive & Horg). destruct Hod as (Hi & Hc & Hb & Hj & Ho & Hh & Hv & Hch).
  assert (kept d = journal d) as Hk by (unfold kept; by rewrite Hj). rewrite Hk in Hw. pose proof Hw as [Hwf Hwj].
  pose proof Hod' as (Hi' & Hc' & Hb' & Hj' & Ho' & Hh' & Hv' & _).
  pose proof Hi as (Hseg & _). pose proof Hi' as (Hseg' & _).
  assert (overlay_state_of l' = overlay_state_of l) as Hov by (rewrite Ho', Ho; by apply replayed_ext).
  assert (baseID l' = baseID l) as Hbid.
  { unfold base_ok in Hb, Hb'. destruct (base (snap l)) as [seg|], (base (snap l')) as [seg'|]; simpl in *;
      repeat match goal with
      | H : ∃ _, _ |- _ => destruct H
      | H : _ ∧ _ |- _ => destruct H
      end; rewrite <-?Hwf in * by done; congruence. }
  split_and!; try done.
  - by exists ops.
  - rewrite Hlive. unfold image_map. rewrite <-live_of_replayed by done. by rewrite <-Ho.
  - rewrite Hv', Hv. unfold stamp. rewrite Hbid, Hh', Hh, Hwj.
    assert (base_len (snap l') = base_len (snap l)) as ->.
    { unfold base_len. by destruct (base (snap l)), (base (snap l')); simpl in *; first [rewrite Hes|rewrite <-Hes|idtac]. }
    destruct Hc as (_ & _ & -> & _), Hc' as (_ & _ & -> & _). by rewrite Hcf, Han.
Qed.
End open.
