(* ===== verification/StoreHistory.v ===== *)
(** Histories of a list's mutations: whatever calls fail and wherever the process
    dies, the disk describes the acknowledged mutations, up to the one in flight. *)

From S2P Require Import Prelude.
From S2P Require Import Runtime.
From S2P Require Import Analyzer.
From S2P Require Import Score.
From S2P Require Import Bitmap.
From S2P Require Import Types.
From S2P Require Import ListConfig.
From S2P Require Import Segment.
From S2P Require Import ListModel.
From S2P Require Import ListRefine.
From S2P Require Import Journal.
From S2P Require Import Disk.
From S2P Require Import Store.
From S2P Require Import StoreSpec.
From S2P Require Import StoreInv.
From S2P Require Import StoreOps.
From S2P Require Import StoreOpen.

(** ** The abstract specification *)

Inductive store_mutation := SUpsert (es : list Entry) | SDelete (id : bytes) | SReplace (es : list Entry) | SCompact.

(** What an acknowledged mutation makes of the map. *)
Definition spec_mutation (o : store_mutation) (m : gmap bytes Entry) : gmap bytes Entry :=
  match o with
  | SUpsert es => foldl (λ m e, <[ID e := e]> m) m es
  | SDelete id => delete id m
  | SReplace es => entry_map es
  | SCompact => m
  end.

(** What a crash in a mutation may leave of the map.  Replace has a window between
    publishing the base and emptying the journal, in which the old records replay
    over the new base. *)
Definition crash_map (o : store_mutation) (m m' : gmap bytes Entry) : Prop :=
  match o with
  | SUpsert es => ∃ k, m' = foldl (λ m e, <[ID e := e]> m) m (take k es)
  | SDelete id => m' = m ∨ m' = delete id m
  | SReplace es => m' = m ∨ m' = entry_map es ∨
      ∃ base rs, m = foldl spec_rec base rs ∧ m' = foldl spec_rec (entry_map es) rs
  | SCompact => m' = m
  end.

(** The map of the acknowledged mutations. *)
Fixpoint acked (os : list store_mutation) (oks : list bool) (m : gmap bytes Entry) : gmap bytes Entry :=
  match os, oks with
  | o :: os', ok :: oks' => acked os' oks' (if (ok : bool) then spec_mutation o m else m)
  | _, _ => m
  end.

Section history.
Context {RT : GoRuntime} {TL : TextLib} {BL : BitmapLib} {FO : FloatOps} {DL : DigestLib} {CD : Codec} {AC : ArtifactCodec}.
Context (digest_ne : ∀ b, sha256 b ≠ []).

(** ** Running histories *)

Definition run_mutation (mode : FsyncMode) (name : bytes) (o : store_mutation) : op () :=
  match o with
  | SUpsert es => _ ← upsertLocked mode name es; mret ()
  | SDelete id => _ ← deleteLocked mode name id; mret ()
  | SReplace es => _ ← replaceLocked name es; mret ()
  | SCompact => _ ← compactLocked name; mret ()
  end.

(** The mutations in order, whether they succeed or not; a damaged list takes no
    more.  The result says which were acknowledged. *)
Fixpoint run_history (mode : FsyncMode) (name : bytes) (os : list store_mutation) : op (list bool) :=
  match os with
  | [] => mret []
  | o :: os' =>
      r ← try (run_mutation mode name o);
      k ← getDamage;
      oks ← (if bool_decide (k = damageNone) then run_history mode name os' else mret []);
      mret (is_ok r :: oks)
  end.

(** The records and entries of a mutation decode to themselves. *)
Definition stable_mutation (o : store_mutation) : Prop :=
  match o with
  | SUpsert es => Forall stable_entry es ∧ Forall stable_rec (upsert_rec <$> es)
  | SDelete id => stable_rec (delete_rec id)
  | SReplace es => Forall stable_entry es
  | SCompact => True
  end.
Definition stable_map (m : gmap bytes Entry) : Prop := ∀ id e, m !! id = Some e → stable_entry e.

Lemma upserts_records es m : foldl spec_rec m (upsert_rec <$> es) = foldl (λ m e, <[ID e := e]> m) m es.
Proof. revert m. induction es as [|e es IH]; intros m; [done|]. simpl. by rewrite IH. Qed.

Lemma stable_map_upserts es m : Forall stable_entry es → stable_map m → stable_map (foldl (λ m e, <[ID e := e]> m) m es).
Proof.
  intros Hes. revert m. induction Hes as [|e es He Hes IH]; intros m Hm; [done|]. apply IH. intros id e'.
  rewrite lookup_insert_Some. intros [[_ <-]|[_ H]]; [done|by eapply Hm].
Qed.
Lemma stable_entry_map es : Forall stable_entry es → stable_map (entry_map es).
Proof. intros Hes. apply (stable_map_upserts es ∅ Hes). intros id e. by rewrite lookup_empty. Qed.
Lemma stable_spec o m : stable_mutation o → stable_map m → stable_map (spec_mutation o m).
Proof.
  destruct o as [es|id|es|]; simpl; intros Hs Hm; [destruct Hs; by apply stable_map_upserts| |by apply stable_entry_map|done].
  intros id' e [_ H]%lookup_delete_Some. by eapply Hm.
Qed.
Lemma stable_dedupe es : Forall stable_entry es → Forall stable_entry (dedupeLastWins es).
Proof. rewrite !Forall_forall. intros H e He. apply H. eapply elem_of_sublist; [exact He|apply dedupe_spec]. Qed.
Lemma stable_live l : inv l → stable_map (live_map l) → Forall stable_entry (LiveEntries l).
Proof.
  intros Hi Hm. destruct (live_entries_spec l Hi) as [Hnd Hmap]. apply Forall_forall. intros e He.
  apply (Hm (ID e)). rewrite <-Hmap. by apply (entry_map_nodup _ e Hnd).
Qed.

(** ** One mutation *)

Lemma journaled_ext mode name p1 p2 rs w : (∀ l, p1 l = p2 l) → journaled mode name p1 rs w = journaled mode name p2 rs w.
Proof.
  intros H. unfold journaled, mbind, io_bind. destruct (load name w) as [[l|e|] w']; [|done..]. by rewrite H.
Qed.

Lemma foldl_upserts b st es : foldl (upsert_one b) st es = journal_mutation (upsert_rec <$> es) b st.
Proof. unfold journal_mutation. revert st. induction es as [|e es IH]; intros st; [done|]. simpl. by rewrite IH. Qed.

Lemma upsert_journaled mode name es w :
  upsertLocked mode name es w = journaled mode name (prepareOverlayLocked (journal_mutation (upsert_rec <$> es))) (upsert_rec <$> es) w.
Proof.
  apply journaled_ext. intros l. unfold prepareUpsertLocked, prepareOverlayLocked. by rewrite foldl_upserts.
Qed.
Lemma delete_journaled mode name id w :
  deleteLocked mode name id w = journaled mode name (prepareOverlayLocked (journal_mutation [delete_rec id])) [delete_rec id] w.
Proof. by apply journaled_ext. Qed.

Lemma wp_ext {A} (m1 m2 : op A) (Q : A → dir → memory → Prop) X D d s :
  (∀ w, m1 w = m2 w) → wp m2 Q X D d s → wp m1 Q X D d s.
Proof. intros H Hw fs. rewrite H. apply Hw. Qed.

(** An undamaged list, its map, and a configuration that never changes. *)
Definition serves (name : bytes) (d : dir) (s : memory) (c : ListConfig) (an : Analyzer) (m : gmap bytes Entry) : Prop :=
  ∃ l, list_ok name d s l ∧ l_cfg l = c ∧ l_an l = an ∧ live_map l = m.
Definition describes (name : bytes) (d : dir) (c : ListConfig) (an : Analyzer) (m : gmap bytes Entry) : Prop :=
  ∃ es ops, image name d c an es ops ∧ image_map es ops = m.

(** One mutation of an undamaged list, whatever calls fail: acknowledged, it has
    its effect on memory and disk; refused or failed, memory is unchanged and so is
    the disk, unless the list is marked damaged; and a crash leaves what
    [crash_map] says. *)
Lemma wp_mutation mode name o d s c an m :
  serves name d s c an m → ls_damage (m_ls s) = damageNone → stable_mutation o → stable_map m →
  wp (run_mutation mode name o)
    (λ _ d' s', serves name d' s' c an (spec_mutation o m) ∧ ls_damage (m_ls s') = damageNone)
    (λ e d' s', serves name d' s' c an m ∧ (ls_damage (m_ls s') = damageNone ∨ ls_damage (m_ls s') = damageContent))
    (λ d', ∃ m', crash_map o m m' ∧ describes name d' c an m') d s.
Proof.
  intros (l & Hok & <- & <- & <-) Hk Hst Hm. assert (synced name d l) as Hsync by (destruct Hok as [_ Hok]; by rewrite Hk in Hok).
  assert (inv l) as Hi by by destruct Hsync as [? []]. assert (ls_damage (m_ls s) ≠ damageCreate) as Hk' by by rewrite Hk.
  destruct o as [es|id|es|]; simpl in Hst |- *; apply wp_bind.
  - eapply wp_ext; [apply upsert_journaled|]. destruct Hst as [_ Hst].
    eapply wp_mono; [by eapply wp_journaled| | |].
    + intros v d' s' (l' & Hok' & Hk2 & Hl' & _ & Hc & Ha & _). apply wp_ret. split; [|done]. exists l'.
      by rewrite Hl', upserts_records.
    + intros e d' s' [Hok' Hd]. split; [by exists l|]. by apply Hd.
    + intros d' (_ & k & Hleft). exists (foldl spec_rec (live_map l) (take k (upsert_rec <$> es))).
      split; [exists k; by rewrite <-fmap_take, upserts_records|]. by apply left_recovers.
  - eapply wp_ext; [apply delete_journaled|]. eapply wp_mono; [eapply wp_journaled; [done|done|by constructor]| | |].
    + intros v d' s' (l' & Hok' & Hk2 & Hl' & _ & Hc & Ha & _). apply wp_ret. split; [|done]. by exists l'.
    + intros e d' s' [Hok' Hd]. split; [by exists l|]. by apply Hd.
    + intros d' (_ & k & Hleft). exists (foldl spec_rec (live_map l) (take k [delete_rec id])).
      split; [destruct k as [|k]; [by left|right; by rewrite take_ge by (simpl; lia)]|]. by apply left_recovers.
  - eapply wp_mono; [eapply wp_replaceLocked; [done..|by apply stable_dedupe]| | |].
    + intros v d' s' (l' & Hok' & Hk2 & Hl' & _ & Hc & Ha). apply wp_ret. split; [|done]. by exists l'.
    + intros e d' s' [Hok' Hd]. split; [by exists l|]. rewrite Hk in Hd. naive_solver.
    + intros d' H. destruct (H Hsync) as [Hr|[Hr|(ops & Hops & Hr)]]; [by exists (live_map l); split; [left|]|by exists (entry_map es); split; [right; left|]|].
      exists (foldl spec_rec (entry_map es) ops). split; [right; right; by eexists _, _|done].
  - eapply wp_mono; [eapply wp_compactLocked; [done..|by apply stable_live]| | |].
    + intros v d' s' (l' & Hok' & Hk2 & Hl' & _ & _ & _ & _ & Hc & Ha). apply wp_ret. split; [|done]. by exists l'.
    + intros e d' s' [Hok' Hd]. split; [by exists l|]. rewrite Hk in Hd. naive_solver.
    + intros d' H. exists (live_map l). split; [done|]. by apply H.
Qed.

(** What a mutation needs to go through: its records or entries fit their lines and
    the segments build. *)
Definition feasible (o : store_mutation) (l : GoList) : Prop :=
  match o with
  | SUpsert es => is_ok (encode_recs (upsert_rec <$> es)) = true ∧ is_ok (prepareUpsertLocked es l) = true
  | SDelete id => is_ok (encode_recs [delete_rec id]) = true ∧ is_ok (prepareDeleteLocked id l) = true
  | SReplace es => builds (l_cfg l) (l_an l) (dedupeLastWins es) ∧ is_ok (encode_base (dedupeLastWins es)) = true
  | SCompact => builds (l_cfg l) (l_an l) (LiveEntries l) ∧ is_ok (encode_base (LiveEntries l)) = true
  end.

Lemma is_ok_some {E A} (r : result E A) : is_ok r = true → ∃ a, r = Ok a.
Proof. destruct r as [a|]; [by exists a|done]. Qed.

(** A damaged list takes no appends. *)
Lemma wp_journaled_refused mode name p rs l d s (Q : bytes → dir → memory → Prop) (X : store_error → dir → memory → Prop) D :
  ls_l (m_ls s) = Some l → ls_damage (m_ls s) ≠ damageNone → (∀ e, X e d s) → wp (journaled mode name p rs) Q X D d s.
Proof.
  intros Hl Hk HX. unfold journaled. apply wp_bind, (wp_load name l); [done|]. apply wp_bind. destruct (p l); [|by apply wp_throw].
  apply wp_ret, wp_bind. unfold appendJournal, refuse_damaged. apply wp_bind, wp_bind. apply wp_bind, wp_get_mem, wp_ret.
  rewrite bool_decide_eq_false_2 by done. unfold damageErr. by apply wp_bind, wp_bind, wp_get_mem, wp_ret, wp_throw.
Qed.
Lemma wp_create_refused {A} (k : op A) d s (Q : A → dir → memory → Prop) (X : store_error → dir → memory → Prop) D :
  ls_damage (m_ls s) = damageCreate → (∀ e, X e d s) → wp (_ ← refuse_create_damage; k) Q X D d s.
Proof.
  intros Hk HX. apply wp_bind. unfold refuse_create_damage, refuse_damaged. apply wp_bind. apply wp_bind, wp_get_mem, wp_ret.
  rewrite bool_decide_eq_true_2 by done. unfold damageErr. by apply wp_bind, wp_bind, wp_get_mem, wp_ret, wp_throw.
Qed.

Lemma wp_damaged mode name o l d s :
  list_ok name d s l → ls_damage (m_ls s) ≠ damageNone → stable_mutation o → stable_map (live_map l) →
  wp (run_mutation mode name o)
    (λ _ d' s', ls_damage (m_ls s) = damageContent ∧ (o = SCompact ∨ ∃ es, o = SReplace es) ∧
       serves name d' s' (l_cfg l) (l_an l) (spec_mutation o (live_map l)) ∧ ls_damage (m_ls s') = damageNone)
    (λ e d' s', list_ok name d' s' l ∧ ls_damage (m_ls s') = ls_damage (m_ls s) ∧
       (ls_damage (m_ls s) = damageCreate → d' = d ∧ s' = s))
    (λ _, ls_damage (m_ls s) = damageContent) d s.
Proof.
  intros Hok Hk Hst Hm. pose proof Hok as [Hl _].
  set (X := λ (e : store_error) d' s', list_ok name d' s' l ∧ ls_damage (m_ls s') = ls_damage (m_ls s) ∧
       (ls_damage (m_ls s) = damageCreate → d' = d ∧ s' = s)).
  assert (∀ e, X e d s) as HX by done. destruct (decide (ls_damage (m_ls s) = damageCreate)) as [Hc|Hc].
  - destruct o as [es|id|es|]; apply wp_bind.
    + by apply (wp_journaled_refused _ _ _ _ l).
    + by apply (wp_journaled_refused _ _ _ _ l).
    + by apply wp_create_refused.
    + by apply wp_create_refused.
  - assert (ls_damage (m_ls s) = damageContent) as Hcont by by destruct (ls_damage (m_ls s)).
    destruct (list_ok_conf _ _ _ _ Hok Hc) as [Hi _]. destruct o as [es|id|es|]; apply wp_bind.
    + by apply (wp_journaled_refused _ _ _ _ l).
    + by apply (wp_journaled_refused _ _ _ _ l).
    + eapply wp_mono; [eapply (wp_replaceLocked digest_ne); [done..|by apply stable_dedupe]| | |done].
      * intros v d' s' (l' & Hok' & Hk2 & Hl' & _ & Hc' & Ha). apply wp_ret. split; [done|]. split; [right; by eexists|]. split; [|done]. by exists l'.
      * intros e d' s' [Hok' Hd]. split; [done|]. rewrite Hcont in *. split; [by destruct Hd|done].
    + eapply wp_mono; [eapply wp_compactLocked; [done..|by apply stable_live]| | |done].
      * intros v d' s' (l' & Hok' & Hk2 & Hl' & _ & _ & _ & _ & Hc' & Ha). apply wp_ret. split; [done|]. split; [by left|]. split; [|done]. by exists l'.
      * intros e d' s' [Hok' Hd]. split; [done|]. rewrite Hcont in *. split; [by destruct Hd|done].
Qed.

(** ** Histories *)

(** Where a crash in a history may happen, and what it leaves. *)
Definition history_crash (name : bytes) (c : ListConfig) (an : Analyzer) (os : list store_mutation) (m : gmap bytes Entry) (d' : dir) : Prop :=
  ∃ finished o later oks m', os = finished ++ o :: later ∧ length oks = length finished ∧
    crash_map o (acked finished oks m) m' ∧ describes name d' c an m'.

Lemma history_crash_cons name c an o ok os m d' :
  history_crash name c an os (if (ok : bool) then spec_mutation o m else m) d' → history_crash name c an (o :: os) m d'.
Proof.
  intros (finished & o' & later & oks & m' & -> & Hlen & Hc & Hd). exists (o :: finished), o', later, (ok :: oks), m'.
  split_and!; [done|simpl; by rewrite Hlen|done|done].
Qed.

Lemma wp_getDamage (Q : damageKind → dir → memory → Prop) X D d s : Q (ls_damage (m_ls s)) d s → wp getDamage Q X D d s.
Proof. intros HQ. by apply wp_bind, wp_get_mem, wp_ret. Qed.

Lemma wp_history mode name os d s c an m :
  serves name d s c an m → ls_damage (m_ls s) = damageNone → Forall stable_mutation os → stable_map m →
  wp (run_history mode name os)
    (λ oks d' s', serves name d' s' c an (acked os oks m) ∧ length oks ≤ length os ∧
       (ls_damage (m_ls s') = damageNone ∧ length oks = length os ∨ ls_damage (m_ls s') = damageContent ∧ last oks = Some false))
    (λ _ _ _, False) (history_crash name c an os m) d s.
Proof.
  intros Hs Hk Hst. revert d s m Hs Hk. induction Hst as [|o os Ho Hos IH]; intros d s m Hs Hk Hm; cbn [run_history].
  { apply wp_ret. split; [done|]. split; [done|]. by left. }
  apply wp_bind, wp_try. eapply wp_mono; [by apply wp_mutation| | |].
  - intros [] d1 s1 [Hs1 Hk1]. apply wp_bind, wp_getDamage. rewrite Hk1. apply wp_bind. simpl.
    eapply wp_mono; [apply (IH d1 s1 _ Hs1 Hk1); by apply stable_spec| |done|].
    + intros oks d2 s2 (Hs2 & Hlen & Hend). apply wp_ret. split; [done|]. split; [simpl; lia|].
      destruct Hend as [[? ?]|[? Hl]]; [left; split; [done|simpl; lia]|right; split; [done|]]. by rewrite last_cons, Hl.
    + intros d2. apply (history_crash_cons _ _ _ _ true).
  - intros e d1 s1 [Hs1 Hk1]. apply wp_bind, wp_getDamage, wp_bind. destruct Hk1 as [Hk1|Hk1]; rewrite Hk1; simpl.
    + eapply wp_mono; [apply (IH d1 s1 _ Hs1 Hk1); done| |done|].
      * intros oks d2 s2 (Hs2 & Hlen & Hend). apply wp_ret. split; [done|]. split; [simpl; lia|].
        destruct Hend as [[? ?]|[? Hl]]; [left; split; [done|simpl; lia]|right; split; [done|]]. by rewrite last_cons, Hl.
      * intros d2. apply (history_crash_cons _ _ _ _ false).
    + apply wp_ret, wp_ret. split; [by destruct os|]. split; [simpl; lia|]. by right.
  - intros d1 (m' & Hc & Hd). by exists [], o, os, [], m'.
Qed.
End history.
