(* ===== verification/StoreLive.v ===== *)
(** The mutations succeed when no system call fails. *)

From S2P Require Import Prelude.
From S2P Require Import Runtime.
From S2P Require Import Analyzer.
From S2P Require Import Score.
From S2P Require Import Bitmap.
From S2P Require Import Types.
From S2P Require Import ListConfig.
From S2P Require Import Segment.
From S2P Require Import ListModel.
From S2P Require Import ListRefine.
From S2P Require Import Journal.
From S2P Require Import Disk.
From S2P Require Import Store.
From S2P Require Import StoreSpec.
From S2P Require Import StoreInv.
From S2P Require Import StoreOps.
From S2P Require Import StoreOpen.
From S2P Require Import StoreHistory.

Section live.
Context {RT : GoRuntime} {TL : TextLib} {BL : BitmapLib} {FO : FloatOps} {DL : DigestLib} {CD : Codec} {AC : ArtifactCodec}.

Lemma runs_load name l (Q : GoList → dir → memory → Prop) X d s :
  ls_l (m_ls s) = Some l → Q l d s → runs (load name) Q X d s.
Proof. intros Hl HQ. unfold load. apply runs_bind. unfold runs at 1. simpl. split; [done|]. by rewrite Hl. Qed.
Lemma runs_getDamage (Q : damageKind → dir → memory → Prop) X d s : Q (ls_damage (m_ls s)) d s → runs getDamage Q X d s.
Proof. intros HQ. by apply runs_bind. Qed.

(** The served list is there through the mutation. *)
Definition served (_ : dir) (s : memory) : Prop := is_Some (ls_l (m_ls s)).
Lemma runs_the_version name d s : served d s → runs (the_version name) (λ _ _ _, True) (λ _ _ _, False) d s.
Proof. intros [l Hl]. unfold the_version. by apply runs_bind, (runs_load name l). Qed.
Lemma runs_update f (Q : () → dir → memory → Prop) X d s :
  (∀ s', (served d s → served d s') → ls_damage (m_ls s') = ls_damage (m_ls s) → Q () d s') → runs (update f) Q X d s.
Proof.
  intros HQ. apply runs_put_mem, HQ.
  - intros [l Hl]. unfold served, on_state. simpl. by rewrite Hl.
  - unfold on_state. simpl. by case_match.
Qed.

Lemma runs_syncPath_journal d s (Q : () → dir → memory → Prop) X :
  is_Some (d !! journalFile) → Q () d s → runs syncPath_journal Q X d s.
Proof.
  intros [c Hc] HQ. unfold syncPath_journal, syncPath. apply runs_bind, runs_or_syscall. rewrite Hc.
  by apply runs_bind, runs_or_syscall, runs_or_syscall.
Qed.

Lemma runs_appendJournal mode rs buf d s (Q : Z → dir → memory → Prop) X :
  ls_damage (m_ls s) = damageNone → encode_recs rs = Ok buf → served d s → (∀ z d' s', served d' s' → Q z d' s') →
  runs (appendJournal mode rs) Q X d s.
Proof.
  intros Hk He Hl HQ. unfold appendJournal, refuse_damaged. apply runs_bind, runs_bind, runs_getDamage. rewrite Hk. cbn [negb].
  rewrite bool_decide_eq_true_2 by done. apply runs_ret, runs_bind. rewrite He. apply runs_ret, runs_bind, runs_or_syscall.
  set (d1 := <[journalFile := _]> d). apply runs_bind, runs_syscall, runs_bind, runs_syscall. set (d2 := append journalFile buf d1).
  assert (is_Some (d2 !! journalFile)) as Hj by (unfold d2, append; by rewrite lookup_insert_eq).
  assert (∀ d3 n, runs (_ ← update (λ l, match jhash l with Some h => setJournalHash (Some (h ++ buf)) l | None => l end);
    mret n) Q X d3 s) as Hend.
  { intros d3 n. apply runs_bind, runs_update. intros s' Hs' _. apply runs_ret, HQ, Hs', Hl. }
  apply runs_bind. destruct mode.
  - apply runs_ret, runs_bind, runs_syscall, runs_bind, runs_ret, Hend.
  - apply runs_syscall, runs_bind, runs_syscall, runs_bind, runs_ret, Hend.
  - apply runs_ret, runs_bind, runs_syscall, runs_bind, runs_try, runs_syncPath_journal; [done|]. apply Hend.
Qed.

Lemma runs_journaled mode name rs buf l b d s :
  ls_l (m_ls s) = Some l → ls_damage (m_ls s) = damageNone → encode_recs rs = Ok buf →
  prepareOverlayLocked (journal_mutation rs) l = Ok b →
  runs (journaled mode name (prepareOverlayLocked (journal_mutation rs)) rs) (λ _ _ _, True) (λ _ _ _, False) d s.
Proof.
  intros Hl Hk He Hp. unfold journaled. apply runs_bind, (runs_load name l); [done|]. apply runs_bind. rewrite Hp. apply runs_ret, runs_bind.
  eapply runs_appendJournal; [done|done|by exists l|]. intros z d1 s1 Hs1. apply runs_bind, runs_update. intros s2 Hs2 _.
  assert (served d1 s2) as [l2 Hl2] by by apply Hs2. apply runs_bind. unfold maybeAutoCompact. apply runs_bind, (runs_load name l2); [done|].
  apply runs_put_mem, runs_the_version. unfold served, on_state. simpl. case_match; by eexists.
Qed.

(** ** Replace and Compact *)

Lemma runs_fill_temp {A} tmp data (k : op A) (Q : A → dir → memory → Prop) X d s :
  runs k Q X (append tmp data d) s →
  runs (_ ← or_fail Os (write tmp data); _ ← or_fail Os flush; _ ← or_fail Os flush; k) Q X d s.
Proof. intros Hk. apply runs_bind, runs_or_syscall, runs_bind, runs_or_syscall, runs_bind, runs_or_syscall, Hk. Qed.

Lemma runs_syncDir (Q : () → dir → memory → Prop) X d s : Q () d s → runs syncDir Q X d s.
Proof. intros HQ. unfold syncDir. by apply runs_bind, runs_or_syscall, runs_bind, runs_or_syscall, runs_or_syscall. Qed.

Lemma runs_remove f (Q : result os_error () → dir → memory → Prop) (X : store_error → dir → memory → Prop) d s :
  (∀ r, r ≠ Err OtherError → Q r (delete f d) s) → runs (remove f) Q X d s.
Proof.
  intros HQ. apply runs_syscall. destruct (d !! f) eqn:Hf; [by apply HQ|]. rewrite <-(delete_id d f) at 1 by done. by apply HQ.
Qed.

Lemma runs_publish_base es content (Q : bytes → dir → memory → Prop) X d s :
  encode_base es = Ok content → (∀ d', Q (baseIDFromHash content) d' s) → runs (publish_base es) Q X d s.
Proof.
  intros He HQ. unfold publish_base, persistBase, writeBaseTemp.
  apply runs_bind, runs_bind, runs_try, runs_bind, runs_or_syscall. set (tmp := temp_name temp_base d).
  assert (vital tmp = false ∧ tmp ≠ idxFile) as [_ Hidx] by (eapply temp_not_vital; [|apply temp_name_prefix]; set_solver).
  apply runs_bind, runs_try. rewrite He. apply runs_bind, runs_ret. apply runs_fill_temp. set (d1 := append tmp content _).
  assert (is_Some (d1 !! tmp)) as Ht by (unfold d1, append; by rewrite lookup_insert_eq).
  apply runs_ret, runs_ret, runs_deferred, runs_bind, runs_remove. intros r Hr.
  assert (runs (r ← rename tmp baseFile;
      match r with
      | Err e => mret (false, Err (Os e))
      | Ok _ => r ← try syncDir; mret (true, match r with Ok _ => Ok (baseIDFromHash content) | Err e => Err e end)
      end)
    (λ a : bool * result store_error bytes, runs (remove tmp)
       (λ _ d s, runs (match a with (_, Ok id) => mret id
                       | (published, Err e) => _ ← (if published then setDamage damageContent else mret ()); throw e end) Q X d s)
       (λ (_ : store_error) (_ : dir) (_ : memory), False)) (λ e, runs (remove tmp) (λ _ d s, X e d s) (λ (_ : store_error) (_ : dir) (_ : memory), False)) (delete idxFile d1) s) as Hren.
  { apply runs_bind, runs_syscall. rewrite lookup_delete_ne by done. destruct Ht as [c ->].
    apply runs_bind, runs_try, runs_syncDir, runs_ret, runs_remove. intros _ _. apply runs_ret, HQ. }
  destruct r as [|[]]; [exact Hren|exact Hren|done].
Qed.

Lemma runs_empty_journal (Q : () → dir → memory → Prop) X d s : (∀ d', Q () d' s) → runs empty_journal Q X d s.
Proof.
  intros HQ. unfold empty_journal. apply runs_bind, runs_syscall. destruct (d !! journalFile) as [c|] eqn:Hc; [|apply runs_ret, HQ].
  apply runs_bind, runs_try, runs_syncPath_journal; [by rewrite lookup_insert_eq|]. apply runs_ret, HQ.
Qed.

Lemma runs_refuse_create d s (Q : () → dir → memory → Prop) X :
  ls_damage (m_ls s) ≠ damageCreate → Q () d s → runs refuse_create_damage Q X d s.
Proof.
  intros Hk HQ. unfold refuse_create_damage, refuse_damaged. apply runs_bind, runs_getDamage.
  rewrite bool_decide_eq_false_2 by done. by apply runs_ret.
Qed.

Lemma runs_on_list {A} name (f : list_op A) a l l' (Q : A → dir → memory → Prop) X d s :
  ls_l (m_ls s) = Some l → f l = (Ok a, l') → Q a d (on_state (set_l l') s) → runs (on_list name f) Q X d s.
Proof.
  intros Hl Hf HQ. unfold on_list. apply runs_bind, (runs_load name l); [done|]. rewrite Hf. apply runs_bind, runs_put_mem.
  assert (on_state (λ ls, match ls_l ls with Some _ => set_l l' ls | None => ls end) s = on_state (set_l l') s) as ->.
  { unfold on_state. by rewrite Hl. }
  by apply runs_ret.
Qed.

Lemma runs_replaceLocked name es l content d s :
  ls_l (m_ls s) = Some l → readOnly l = false → ls_damage (m_ls s) ≠ damageCreate →
  builds (l_cfg l) (l_an l) (dedupeLastWins es) → encode_base (dedupeLastWins es) = Ok content →
  runs (replaceLocked name es) (λ _ _ _, True) (λ _ _ _, False) d s.
Proof.
  intros Hl Hro Hk Hb He. unfold replaceLocked. apply runs_bind, runs_refuse_create; [done|].
  apply runs_bind, (runs_load name l); [done|]. unfold prepareBase, builds in *. change (mode_of l) with (Match (l_cfg l)).
  destruct (buildSegment _ _ _) as [seg|e]; [|done]. apply runs_bind, runs_ret. cbv iota beta.
  apply runs_bind. eapply runs_publish_base; [exact He|]. intros d1. apply runs_bind, runs_empty_journal. intros d2.
  apply runs_bind, runs_put_mem, runs_bind, runs_put_mem, runs_bind. set (s1 := on_state _ _).
  assert (ls_l (m_ls s1) = Some (setJournalHash (Some journal_domain) l)) as Hl1 by (unfold s1, on_state; simpl; by rewrite Hl).
  eapply runs_on_list; [exact Hl1|by apply set_base_id_eq|]. apply runs_bind, runs_put_mem. set (s2 := on_state _ _).
  apply runs_bind. eapply runs_load; [done|]. apply runs_bind, settles_runs; [apply settles_saveArtifact|].
  apply wp_saveArtifact. intros d3 _. split; [|done]. apply runs_the_version. by eexists.
Qed.

Lemma runs_compactLocked name l content seg d s :
  ls_l (m_ls s) = Some l → readOnly l = false → ls_damage (m_ls s) ≠ damageCreate →
  buildSegment (mode_of l) (l_an l) (LiveEntries l) = Ok seg → encode_base (LiveEntries l) = Ok content →
  runs (compactLocked name) (λ _ _ _, True) (λ _ _ _, False) d s.
Proof.
  intros Hl Hro Hk Hb He. unfold compactLocked. apply runs_bind, runs_refuse_create; [done|].
  apply runs_bind. eapply runs_on_list; [exact Hl|rewrite prepare_compact_eq, Hb by done; reflexivity|].
  apply runs_bind. eapply runs_publish_base; [exact He|]. intros d1. apply runs_bind, runs_empty_journal. intros d2.
  apply runs_bind, runs_put_mem, runs_bind, runs_put_mem, runs_bind. set (s1 := on_state _ _).
  assert (ls_l (m_ls s1) = Some (setJournalHash (Some journal_domain) l)) as Hl1 by done.
  eapply runs_on_list; [exact Hl1| |].
  { unfold CommitCompact, ignoreReadOnly, mbind, list_op_bind. cbn [cb_live cb_seg]. change (readOnly (setJournalHash _ l)) with (readOnly l).
    rewrite Hro. reflexivity. }
  set (s2 := on_state _ _). apply runs_bind. eapply runs_load; [done|]. apply runs_bind, settles_runs; [apply settles_saveArtifact|].
  apply wp_saveArtifact. intros d3 _. split; [|done]. apply runs_bind. eapply runs_load; [done|]. by destruct (BuildStats _).
Qed.

(** ** Every mutation *)

Lemma runs_ext {A} (m1 m2 : op A) (Q : A → dir → memory → Prop) X d s :
  (∀ w, m1 w = m2 w) → runs m2 Q X d s → runs m1 Q X d s.
Proof. intros H. unfold runs. by rewrite H. Qed.

Lemma runs_mutation mode name o l d s :
  ls_l (m_ls s) = Some l → readOnly l = false → ls_damage (m_ls s) = damageNone → feasible o l →
  runs (run_mutation mode name o) (λ _ _ _, True) (λ _ _ _, False) d s.
Proof.
  intros Hl Hro Hk Hf. assert (ls_damage (m_ls s) ≠ damageCreate) as Hk' by by rewrite Hk.
  destruct o as [es|id|es|]; simpl in Hf; destruct Hf as [H1 H2]; apply runs_bind.
  - eapply runs_ext; [apply upsert_journaled|]. apply is_ok_some in H1 as [buf He], H2 as [b Hp].
    unfold prepareUpsertLocked, prepareOverlayLocked in Hp. rewrite foldl_upserts in Hp.
    eapply runs_mono; [by eapply (runs_journaled _ _ _ buf l b)|done|done].
  - eapply runs_ext; [apply delete_journaled|]. apply is_ok_some in H1 as [buf He], H2 as [b Hp].
    eapply runs_mono; [by eapply (runs_journaled _ _ _ buf l b)|done|done].
  - apply is_ok_some in H2 as [content He]. eapply runs_mono; [by eapply runs_replaceLocked|done|done].
  - apply is_ok_some in H1 as [seg Hb], H2 as [content He]. eapply runs_mono; [by eapply runs_compactLocked|done|done].
Qed.
End live.
