(* ===== verification/StoreProps.v ===== *)
(** The correctness of the store: what its operations promise a client, whatever
    system calls fail and wherever the process dies. *)

From S2P Require Import Prelude.
From S2P Require Import Runtime.
From S2P Require Import Analyzer.
From S2P Require Import Score.
From S2P Require Import Bitmap.
From S2P Require Import Types.
From S2P Require Import ListConfig.
From S2P Require Import Segment.
From S2P Require Import ListModel.
From S2P Require Import ListRefine.
From S2P Require Import Journal.
From S2P Require Import Disk.
From S2P Require Import Store.
From S2P Require Import StoreSpec.
From S2P Require Import StoreInv.
From S2P Require Import StoreOps.
From S2P Require Import StoreOpen.
From S2P Require Import StoreHistory.
From S2P Require Import StoreLive.

Section props.
Context {RT : GoRuntime} {TL : TextLib} {BL : BitmapLib} {FO : FloatOps} {DL : DigestLib} {CD : Codec} {AC : ArtifactCodec}.
Context (digest_ne : ∀ b, sha256 b ≠ []).

(** C4: acknowledged writes survive.  A client runs upserts, deletes, replaces and
    compactions in order on an undamaged list and stops when the list reports damage;
    any system calls may fail.  Assumed ([stable_mutation], [stable_map]): every entry
    and record, of the list and the mutations, is a fixed point of its JSON round trip
    - payloads as json.Marshal writes them, compact and HTML-escaped, text valid
    UTF-8; another payload comes back from disk spelled differently (see the
    findings).  Then memory holds exactly the map of the acknowledged mutations, and
    an undamaged list agrees with its disk; only the last mutation can have damaged
    it, unacknowledged.  If the process dies instead, at any system call, the
    directory describes the map of the acknowledged mutations, up to the one in
    flight: a prefix of an upsert's entries, a delete or not, the old or the new
    content of a replace (or, in its documented window, the new content with the old
    journal over it), exactly the old map for a compaction. *)
Theorem history_crash_safe mode name os d s c an m :
  serves name d s c an m → ls_damage (m_ls s) = damageNone → Forall stable_mutation os → stable_map m →
  wp (run_history mode name os)
    (λ oks d' s', serves name d' s' c an (acked os oks m) ∧ length oks ≤ length os ∧
       (ls_damage (m_ls s') = damageNone ∧ length oks = length os ∨ ls_damage (m_ls s') = damageContent ∧ last oks = Some false))
    (λ _ _ _, False)
    (λ d', ∃ finished o later oks m', os = finished ++ o :: later ∧ length oks = length finished ∧
       crash_map o (acked finished oks m) m' ∧ describes name d' c an m') d s.
Proof. by apply wp_history. Qed.

(** C5: reopening recovers what the directory describes.  If a directory is not
    marked, its configuration resolves, its base reads, its journal reads - possibly
    torn, but not starting with a blank line, which the store never writes - and
    their entries build, then [openList] succeeds when no system call fails: it
    repairs the torn tail and nothing else (the index cache apart), quarantines
    nothing, and returns a list whose map is the base with the journal's records
    applied; the list agrees with the disk, so it can be served.  The index it serves
    ([base_origin]) is either the build of the base's entries or the one loaded from
    the index cache, and then the cache records the SHA-256 of these very bytes of
    base.jsonl, the digest of the list's analyzer and the list's gram
    configuration: an index of another base or analyzer is never served. *)
Theorem open_recovers name d s c an es ops :
  reopenable name d c an es ops →
  runs (openList name) (λ l d' s', s' = s ∧ with_journal d (kept d) d' ∧ l_cfg l = c ∧ l_an l = an ∧
      synced name d' l ∧ base_entries (base (snap l)) = es ∧ live_map l = foldl spec_rec (entry_map es) ops ∧
      base_origin d c an (base (snap l)))
    (λ _ _ _, False) d s.
Proof.
  intros H. eapply runs_mono; [by apply (runs_openList digest_ne name d s _ _ _ _ H)| |done].
  intros l d' s' (-> & Hw & Hc & Ha & Hod & Hes & Hm & Ho). split_and!; try done. by exists ops.
Qed.

(** A list that opens agrees with its disk, whatever calls fail.  From an
    unmarked directory, [openList] either fails without touching the served list, or
    returns a list that agrees with the directory it leaves: with the journal cut at
    its torn tail and replayed, or - only when the replay cannot be built - with the
    journal moved aside, the reason reported once, and the base's map served. *)
Theorem open_consistent name d s :
  d !! markerFile = None → clean_head (journal d) →
  wp (openList name)
    (λ l d' s', m_ls s' = m_ls s ∧ synced name d' l ∧
       (with_journal d (kept d) d' ∧ s' = s ∨
        with_journal d [] d' ∧ live_map l = entry_map (base_entries (base (snap l))) ∧
        ∃ e l0 l1, m_quarantined s' = m_quarantined s ++ [(name, e)] ∧ base (snap l0) = base (snap l) ∧
          overlay_state_of l0 = (∅, ∅) ∧
          applyJournalLocked (readJournal (kept d)).1 (Z.of_nat (length (kept d)))
            (setJournalHash (Some (journal_domain ++ kept d)) l0) = (Err e, l1)))
    (λ e d' s', s' = s) (λ _, True) d s.
Proof. intros Hm Hh. by apply wp_openList. Qed.

(** C6: a restart keeps what the list holds.  Let a list agree with its directory
    ([synced]: its overlay and tombstones are the replay of the journal over the base -
    so for payloads acknowledged in a spelling json.Marshal would change it does not
    apply) and let its base be rebuildable.  Reopening the directory, when no call
    fails, gives a list with the same map from IDs to entries, the same version stamp,
    configuration, analyzer, base entries, overlay and tombstones, again in agreement
    with the directory.  The installed index is not compared with the old one: it is
    the build of the base's entries or comes from a cache that records these bytes of
    the base, this analyzer and this gram configuration ([base_origin]). *)
Theorem restart_agrees name d s l :
  synced name d l → rebuildable l →
  runs (openList name) (λ l' d' s', s' = s ∧ synced name d' l' ∧ live_map l' = live_map l ∧
      version (snap l') = version (snap l) ∧ l_cfg l' = l_cfg l ∧ l_an l' = l_an l ∧
      base_entries (base (snap l')) = base_entries (base (snap l)) ∧ overlay_state_of l' = overlay_state_of l ∧
      base_origin d (l_cfg l) (l_an l) (base (snap l')))
    (λ _ _ _, False) d s.
Proof.
  intros Hs Hr. eapply runs_mono; [by apply (runs_restart digest_ne name d s l Hs Hr)| |done].
  by intros l' d' s' (? & ? & _ & ? & ? & ? & ? & ? & ? & ?).
Qed.

(** A mutation that can go through does.  When no system call fails, an
    undamaged list accepts every mutation whose records or entries fit their lines
    and whose segments build; memory and disk then hold the new map and the list
    stays undamaged. *)
Theorem mutation_succeeds mode name o l d s :
  list_ok name d s l → ls_damage (m_ls s) = damageNone → stable_mutation o → stable_map (live_map l) → feasible o l →
  runs (run_mutation mode name o)
    (λ _ d' s', serves name d' s' (l_cfg l) (l_an l) (spec_mutation o (live_map l)) ∧ ls_damage (m_ls s') = damageNone)
    (λ _ _ _, False) d s.
Proof.
  intros Hok Hk Hst Hm Hf. pose proof Hok as [Hl _].
  assert (readOnly l = false) as Hro by (destruct (list_ok_conf name d s l Hok) as [_ (_ & Hro & _)]; [by rewrite Hk|exact Hro]).
  eapply runs_mono; [eapply (runs_succeeds _ (λ _ _ _, True)); [by eapply runs_mutation|eapply wp_mutation; [exact digest_ne|by exists l|done..]]|by intros a d' s' [_ H]|done].
Qed.

(** Damage is contained.  A list marked damaged takes no upsert and no delete;
    after a failed create it takes no replace and no compaction either, and nothing
    changes; after content damage a replace or a compaction that succeeds repairs
    it: memory and disk agree again, on the replacement or on the served map.  A
    refused or failed attempt leaves the mark and the served list as they were. *)
Theorem damage_contained mode name o l d s :
  list_ok name d s l → ls_damage (m_ls s) ≠ damageNone → stable_mutation o → stable_map (live_map l) →
  wp (run_mutation mode name o)
    (λ _ d' s', ls_damage (m_ls s) = damageContent ∧ (o = SCompact ∨ ∃ es, o = SReplace es) ∧
       serves name d' s' (l_cfg l) (l_an l) (spec_mutation o (live_map l)) ∧ ls_damage (m_ls s') = damageNone)
    (λ e d' s', list_ok name d' s' l ∧ ls_damage (m_ls s') = ls_damage (m_ls s) ∧
       (ls_damage (m_ls s) = damageCreate → d' = d ∧ s' = s))
    (λ _, ls_damage (m_ls s) = damageContent) d s.
Proof. by apply wp_damaged. Qed.

(** Creating a list is all or nothing.  For a resolved configuration, whatever
    calls fail: success installs the empty list, agreeing with the directory it
    leaves; an error before the marker is published changes no file that carries
    state, and any later error marks the list damaged while the old one is still
    served; and a crash leaves the old directory, the complete new one, or a marked
    one, which - in any run without faults - [openList] refuses. *)
Theorem create_outcomes name c l d s :
  default_threshold_ok → NewList name c = Ok l → stable_config l →
  wp (createLocked name l)
    (λ v d' s', ls_l (m_ls s') = Some (created l) ∧ ls_damage (m_ls s') = damageNone ∧ synced name d' (created l) ∧
       live_map (created l) = ∅ ∧ v = version (snap (created l)))
    (λ e d' s', ls_l (m_ls s') = ls_l (m_ls s) ∧ (ls_damage (m_ls s') = damageCreate ∨ s' = s ∧ agree d d'))
    (λ d', agree d d' ∨ synced name d' (created l) ∨
       ∀ s0, runs (openList name) (λ _ _ _, False) (λ e d2 s2, e = MarkerPresent ∧ d2 = d' ∧ s2 = s0) d' s0) d s.
Proof.
  intros Ht Hn Hst. eapply wp_mono; [by eapply wp_createLocked| |done|].
  - intros v d' s' (? & ? & Hsync & ?). destruct (new_list_inv _ _ _ Hn) as (_ & Hm & _). split_and!; try done.
    unfold NewList in Hn. by apply bind_ok in Hn as ([c' an] & _ & [= <-]).
  - intros d' [H|[[mk Hmk]|H]]; [by left| |by right; left]. right. right. intros s0. unfold openList.
    apply runs_bind, runs_syscall. by rewrite Hmk.
Qed.

(** Reload swaps in the list on disk or changes nothing.  From an unmarked
    directory, whatever calls fail: a reload that succeeds was of an undamaged list,
    serves a list that agrees with the directory, under a new identity, and returns
    its version; one that fails leaves the served list and its mark alone, and a
    damaged list's directory too. *)
Theorem reload_outcomes name d s :
  d !! markerFile = None → clean_head (journal d) →
  wp (reloadLocked name)
    (λ v d' s', ls_damage (m_ls s) = damageNone ∧ ls_id (m_ls s') = S (ls_id (m_ls s)) ∧
       ∃ l, list_ok name d' s' l ∧ ls_damage (m_ls s') = damageNone ∧ v = version (snap l))
    (λ e d' s', s' = s ∧ (ls_damage (m_ls s) ≠ damageNone → d' = d))
    (λ _, ls_damage (m_ls s) = damageNone) d s.
Proof.
  intros Hm Hh. eapply wp_mono; [by apply wp_reloadLocked| |done|done].
  intros v d' s' (Hk & l & s1 & (Hls & _) & -> & -> & Hok). split; [done|]. unfold on_state, swap_l in *. simpl in *.
  rewrite Hls in *. split; [done|]. exists l. split_and!; [done|by rewrite Hk|done].
Qed.
End props.
