(* ===== verification/StoreAll.v ===== *)
(** The store over all lists of a data directory ([engine/store.go]): admission,
    the read-only guard, the table of lists, the exported mutators, the background
    fold, [Close], [Open] and the status calls.

    A list's directory is the path [filepath.Join] makes of the store's directory and the
    name ([listPath]); directories are kept by the name they were made under, and
    [StoreAllSpec] shows that two names that have one never share a path.  The operations on one list are those of [Store], run on the list's own state and
    directory; what they share is the store's table, its report of quarantined
    journals and the sequence of outcomes of the system calls.  Requests are served
    one at a time; [Lifecycle] is about their interleaving. *)

From S2P Require Import Prelude.
From S2P Require Import Strings.
From S2P Require Import Runtime.
From S2P Require Import Analyzer.
From S2P Require Import Score.
From S2P Require Import Bitmap.
From S2P Require Import Types.
From S2P Require Import ListConfig.
From S2P Require Import Segment.
From S2P Require Import ListModel.
From S2P Require Import Journal.
From S2P Require Import Disk.
From S2P Require Import Store.

(** ** Paths

    [filepath.Clean] of a Unix path, by its components: empty ones and [.] are
    dropped, [..] takes the component before it along, unless there is none. *)
Definition clean_step (rooted : bool) (done : list bytes) (c : bytes) : list bytes :=
  if bool_decide (c = []) || bool_decide (c = $".") then done
  else if bool_decide (c = $"..") then
    match done with
    | [] => if rooted then [] else [c]
    | x :: rest => if bool_decide (x = $"..") then c :: done else rest
    end
  else c :: done.
Definition render_path (rooted : bool) (cs : list bytes) : bytes :=
  if rooted then $"/" ++ join ($"/") cs
  else match cs with [] => $"." | _ => join ($"/") cs end.
Definition clean_path (p : bytes) : bytes :=
  let rooted := bool_decide (take 1 p = $"/") in
  render_path rooted (reverse (foldl (clean_step rooted) [] (split_byte 47 p))).

(** [filepath.Join] skips the empty elements in front. *)
Definition join_path (root name : bytes) : bytes :=
  match root, name with
  | [], [] => []
  | [], _ => clean_path name
  | _, _ => clean_path (root ++ $"/" ++ name)
  end.

(** [listPath], in a store opened on [root]. *)
Definition listPath (root name : bytes) : bytes := join_path root name.

Section stores.
Context {RT : GoRuntime} {TL : TextLib} {BL : BitmapLib} {FO : FloatOps} {DL : DigestLib} {CD : Codec} {AC : ArtifactCodec}.

(** The fields of [Store], with the directories of the lists. *)
Record Store := mkStore {
  st_dirs : gmap bytes dir;
  st_lists : gmap bytes listState;
  st_closed : bool;
  st_readOnly : bool;
  st_mode : FsyncMode;
  st_roRefusals : N;
  st_Quarantined : list (bytes * list_error);
  st_Skipped : list (bytes * store_error) }.

(** ** The store monad: the store and the outcomes to come *)

Definition sworld : Type := Store * list fault.
Definition sop (A : Type) : Type := sworld → outcome store_error A * sworld.
#[export] Instance sop_ret : MRet sop := λ A a w, (Ret a, w).
#[export] Instance sop_bind : MBind sop := λ A B f m w,
  match m w with
  | (Ret a, w) => f a w
  | (Fail e, w) => (Fail e, w)
  | (Dead, w) => (Dead, w)
  end.
Definition sthrow {A} (e : store_error) : sop A := λ w, (Fail e, w).
Definition sget : sop Store := λ w, (Ret w.1, w).
Definition sput (f : Store → Store) : sop () := λ w, (Ret (), (f w.1, w.2)).
(** The value or error of a computation; death is not caught. *)
Definition stry {A} (m : sop A) : sop (result store_error A) := λ w,
  match m w with
  | (Ret a, w) => (Ret (Ok a), w)
  | (Fail e, w) => (Ret (Err e), w)
  | (Dead, w) => (Dead, w)
  end.

(** A system call on the data directory. *)
Definition scall (f : Store → Store) : sop () := λ '(st, fs),
  match fs with
  | [] => (Ret (), (f st, []))
  | Works :: fs => (Ret (), (f st, fs))
  | Fails _ :: fs => (Fail (Os OtherError), (st, fs))
  | Crashes _ :: fs => (Dead, (st, fs))
  end.

Definition set_dirs (ds : gmap bytes dir) (st : Store) : Store :=
  mkStore ds (st_lists st) (st_closed st) (st_readOnly st) (st_mode st) (st_roRefusals st) (st_Quarantined st) (st_Skipped st).
Definition set_lists (ls : gmap bytes listState) (st : Store) : Store :=
  mkStore (st_dirs st) ls (st_closed st) (st_readOnly st) (st_mode st) (st_roRefusals st) (st_Quarantined st) (st_Skipped st).
Definition set_quarantined (q : list (bytes * list_error)) (st : Store) : Store :=
  mkStore (st_dirs st) (st_lists st) (st_closed st) (st_readOnly st) (st_mode st) (st_roRefusals st) q (st_Skipped st).
Definition set_closed (st : Store) : Store :=
  mkStore (st_dirs st) (st_lists st) true (st_readOnly st) (st_mode st) (st_roRefusals st) (st_Quarantined st) (st_Skipped st).
Definition count_refused (st : Store) : Store :=
  mkStore (st_dirs st) (st_lists st) (st_closed st) (st_readOnly st) (st_mode st) (u64 (st_roRefusals st + 1)) (st_Quarantined st) (st_Skipped st).
Definition add_skip (name : bytes) (e : store_error) (st : Store) : Store :=
  mkStore (st_dirs st) (st_lists st) (st_closed st) (st_readOnly st) (st_mode st) (st_roRefusals st) (st_Quarantined st) (st_Skipped st ++ [(name, e)]).

(** ** The operations of one list, in the store

    A name without a directory behaves as an empty one, until [mkdir].  The
    directories are kept by list name: the names in use have distinct paths
    ([StoreAllSpec.store_isolated]), since they are checked where they enter. *)

Definition dir_of (st : Store) (name : bytes) : dir := default ∅ (st_dirs st !! name).
Definition put_back (name : bytes) (d : dir) (s : memory) (st : Store) : Store :=
  set_quarantined (m_quarantined s) (set_lists (<[name := m_ls s]> (st_lists st)) (set_dirs (alter (λ _, d) name (st_dirs st)) st)).
Definition on_state_of {A} (name : bytes) (ls : listState) (m : op A) : sop A := λ '(st, fs),
  let '(r, w) := m (mkWorld (dir_of st name) fs (mkMemory ls (st_Quarantined st))) in
  (r, (put_back name (w_dir w) (w_mem w) st, w_faults w)).
Definition mkdir (name : bytes) : sop () :=
  scall (λ st, set_dirs (<[name := dir_of st name]> (st_dirs st)) st).

(** [refuseReadOnly] and [beginOp] *)
Definition refuseReadOnly (op_name name : bytes) : sop () :=
  st ← sget;
  if st_readOnly st then (_ ← sput count_refused; sthrow (StoreReadOnly op_name name)) else mret ().
Definition beginOp : sop () :=
  st ← sget; if st_closed st then sthrow StoreClosed else mret ().

(** [get], and the state of a list that a create or a reload may add. *)
Definition get (name : bytes) : sop listState :=
  st ← sget;
  match st_lists st !! name with
  | Some ls => if ls_l ls then mret ls else sthrow (UnknownList name)
  | None => sthrow (UnknownList name)
  end.
Definition get_or_add (name : bytes) : sop listState :=
  st ← sget;
  match st_lists st !! name with
  | Some ls => mret ls
  | None => _ ← sput (λ st, set_lists (<[name := new_state]> (st_lists st)) st); mret new_state
  end.

(** A mutator of an existing list. *)
Definition mutator {A} (op_name name : bytes) (m : FsyncMode → op A) : sop A :=
  _ ← refuseReadOnly op_name name;
  _ ← beginOp;
  ls ← get name;
  st ← sget;
  on_state_of name ls (m (st_mode st)).

Definition UpsertVersioned (name : bytes) (es : list Entry) : sop bytes :=
  mutator ($"UpsertVersioned") name (λ mode, upsertLocked mode name es).
Definition UpsertGenVersioned (name : bytes) (gen : option nat) (es : list Entry) : sop bytes :=
  mutator ($"UpsertGenVersioned") name (λ mode, upsertGenLocked mode name gen es).
Definition DeleteVersioned (name id : bytes) : sop bytes :=
  mutator ($"DeleteVersioned") name (λ mode, deleteLocked mode name id).
Definition ReplaceVersioned (name : bytes) (es : list Entry) : sop bytes :=
  mutator ($"ReplaceVersioned") name (λ _, replaceLocked name es).
Definition CompactVersioned (name : bytes) : sop CompactResult :=
  mutator ($"CompactVersioned") name (λ _, compactLocked name).

(** The forms without a version: the same, behind a guard of their own. *)
Definition unversioned {A} (op_name name : bytes) (m : sop A) : sop () :=
  _ ← refuseReadOnly op_name name; _ ← m; mret ().
Definition Upsert (name : bytes) (es : list Entry) : sop () := unversioned ($"Upsert") name (UpsertVersioned name es).
Definition UpsertGen (name : bytes) (gen : option nat) (es : list Entry) : sop () :=
  unversioned ($"UpsertGen") name (UpsertGenVersioned name gen es).
Definition Delete (name id : bytes) : sop () := unversioned ($"Delete") name (DeleteVersioned name id).
Definition Replace (name : bytes) (es : list Entry) : sop () := unversioned ($"Replace") name (ReplaceVersioned name es).
Definition Compact (name : bytes) : sop () := unversioned ($"Compact") name (CompactVersioned name).

(** A preset is resolved to its steps before the configuration is persisted. *)
Definition resolve_preset (cfg : ListConfig) : ListConfig :=
  match PresetSteps (ac_Preset (lc_Analyzer cfg)) with
  | Some steps => mkListConfig (mkAnalyzerConfig [] steps) (Match cfg) (Golden cfg) (Filterable cfg) (OverlayAutoCompact cfg)
  | None => cfg
  end.

Definition CreateListVersioned (name : bytes) (cfg : ListConfig) : sop bytes :=
  _ ← refuseReadOnly ($"CreateListVersioned") name;
  _ ← beginOp;
  if negb (listNameRE name) then sthrow (BadName name) else
  match NewList name (resolve_preset cfg) with
  | Err e => sthrow (BadConfig e)
  | Ok l =>
      ls ← get_or_add name;
      _ ← mkdir name;
      on_state_of name ls (createLocked name l)
  end.
Definition CreateList (name : bytes) (cfg : ListConfig) : sop () :=
  unversioned ($"CreateList") name (CreateListVersioned name cfg).

Definition ReloadListVersioned (name : bytes) : sop bytes :=
  _ ← refuseReadOnly ($"ReloadListVersioned") name;
  _ ← beginOp;
  if negb (listNameRE name) then sthrow (BadName name) else
  ls ← get_or_add name;
  on_state_of name ls (reloadLocked name).
Definition ReloadList (name : bytes) : sop () := unversioned ($"ReloadList") name (ReloadListVersioned name).

(** ** Background folds and the end of the store

    The goroutine of [maybeAutoCompact], once a mutation has scheduled it: it holds
    the list's [autoCompacting] flag until it returns. *)
Definition fold_due (thr : Z) (ls : listState) : bool :=
  match ls_l ls with Some l => (thr <=? (Stats l).1.2)%Z | None => false end.
Definition clear_compacting (name : bytes) : sop () :=
  sput (λ st, set_lists (alter (set_compacting false) name (st_lists st)) st).
Definition background_fold (name : bytes) (thr : Z) : sop () :=
  st ← sget;
  match st_lists st !! name with
  | Some ls =>
      if autoCompacting ls then
        _ ← (if fold_due thr ls then (_ ← stry (Compact name); mret ()) else mret ());
        clear_compacting name
      else mret ()
  | None => mret ()
  end.

(** [Close], as a request: from here on no mutation is admitted. *)
Definition Close : sop () := sput set_closed.

(** ** Status *)

Definition List (st : Store) (name : bytes) : option GoList := ls ← st_lists st !! name; ls_l ls.
Definition sorted_names (st : Store) : list bytes := sort_slice (less_by id) (range_map 0 (st_lists st)).*1.
Definition Lists (st : Store) : list GoList := sorted_names st ≫= λ n, option_list (List st n).

Inductive repair := RepairRecreate | RepairRebuild.
Definition repair_of (k : damageKind) : option repair :=
  match k with damageNone => None | damageCreate => Some RepairRecreate | damageContent => Some RepairRebuild end.
Definition DamagedLists (st : Store) : list (bytes * repair) :=
  sorted_names st ≫= λ n,
    option_list (ls ← st_lists st !! n; r ← repair_of (ls_damage ls); Some (n, r)).

(** ** Opening a data directory *)

(** One directory of [Open]: the sweep is best effort. *)
Definition open_one (name : bytes) : sop () :=
  r ← stry (on_state_of name new_state
              (_ ← syscall (λ d, (Ok (), sweepTempFiles d)) no_effect;
               l ← openList name;
               put_mem (on_state (swap_l l))));
  match r with
  | Ok _ => mret ()
  | Err e => sput (λ st, add_skip name e (set_lists (delete name (st_lists st)) st))
  end.
Fixpoint open_each (names : list bytes) : sop () :=
  match names with [] => mret () | n :: ns => _ ← open_one n; open_each ns end.

(** [MkdirAll] of the data directory, [ReadDir] (which sorts the names), the lists. *)
Definition fresh_store (mode : FsyncMode) (ds : gmap bytes dir) : Store := mkStore ds ∅ false false mode 0 [] [].
Definition Open : sop () :=
  _ ← scall id;
  _ ← scall id;
  st ← sget;
  open_each (sort_slice (less_by id) (range_map 0 (st_dirs st)).*1).

(** ** Requests *)

Inductive request :=
  | RCreate (name : bytes) (cfg : ListConfig)
  | RUpsert (name : bytes) (es : list Entry)
  | RUpsertGen (name : bytes) (gen : option nat) (es : list Entry)
  | RDelete (name id : bytes)
  | RReplace (name : bytes) (es : list Entry)
  | RCompact (name : bytes)
  | RReload (name : bytes)
  | RFold (name : bytes) (thr : Z)
  | RClose.

Definition serve (r : request) : sop () :=
  match r with
  | RCreate name cfg => CreateList name cfg
  | RUpsert name es => Upsert name es
  | RUpsertGen name gen es => UpsertGen name gen es
  | RDelete name id => Delete name id
  | RReplace name es => Replace name es
  | RCompact name => Compact name
  | RReload name => ReloadList name
  | RFold name thr => background_fold name thr
  | RClose => Close
  end.

(** The same request through the form that reports a version, as the HTTP handlers
    call it; the report is dropped here. *)
Definition serve_versioned (r : request) : sop () :=
  match r with
  | RCreate name cfg => _ ← CreateListVersioned name cfg; mret ()
  | RUpsert name es => _ ← UpsertVersioned name es; mret ()
  | RUpsertGen name gen es => _ ← UpsertGenVersioned name gen es; mret ()
  | RDelete name id => _ ← DeleteVersioned name id; mret ()
  | RReplace name es => _ ← ReplaceVersioned name es; mret ()
  | RCompact name => _ ← CompactVersioned name; mret ()
  | RReload name => _ ← ReloadListVersioned name; mret ()
  | RFold name thr => background_fold name thr
  | RClose => Close
  end.

(** A call of an exported method, in either form. *)
Inductive call := Plain (r : request) | Versioned (r : request).
Definition request_of (c : call) : request := match c with Plain r | Versioned r => r end.
Definition serve_call (c : call) : sop () :=
  match c with Plain r => serve r | Versioned r => serve_versioned r end.
Fixpoint serve_calls (cs : list call) : sop (list bool) :=
  match cs with
  | [] => mret []
  | c :: cs => a ← stry (serve_call c); oks ← serve_calls cs; mret (is_ok a :: oks)
  end.

(** The requests in order; the result says which were acknowledged. *)
Fixpoint serve_all (rs : list request) : sop (list bool) :=
  match rs with
  | [] => mret []
  | r :: rs => a ← stry (serve r); oks ← serve_all rs; mret (is_ok a :: oks)
  end.
End stores.
