(* ===== verification/StoreAllSpec.v ===== *)
(** The store over all lists: lists do not interfere, a closed or read-only store
    changes nothing, histories of requests over many lists survive failing calls and
    crashes, and [Open] serves every directory it can. *)

From S2P Require Import Prelude.
From S2P Require Import Strings.
From S2P Require Import Runtime.
From S2P Require Import Analyzer.
From S2P Require Import Score.
From S2P Require Import Bitmap.
From S2P Require Import Types.
From S2P Require Import ListConfig.
From S2P Require Import Segment.
From S2P Require Import ListModel.
From S2P Require Import ListRefine.
From S2P Require Import Journal.
From S2P Require Import Disk.
From S2P Require Import Store.
From S2P Require Import StoreSpec.
From S2P Require Import StoreInv.
From S2P Require Import StoreOps.
From S2P Require Import StoreOpen.
From S2P Require Import StoreHistory.
From S2P Require Import StoreLive.
From S2P Require Import StoreAll.

Section spec.
Context {RT : GoRuntime} {TL : TextLib} {BL : BitmapLib} {FO : FloatOps} {DL : DigestLib} {CD : Codec} {AC : ArtifactCodec}.
Implicit Types (st : StoreAll.Store) (ds : gmap bytes dir) (X : store_error → StoreAll.Store → Prop) (D : gmap bytes dir → Prop).

(** ** Weakest preconditions of the store monad *)

Definition swp {A} (m : sop A) (Q : A → StoreAll.Store → Prop) X D st : Prop :=
  ∀ fs, match m (st, fs) with
        | (Ret a, (st', _)) => Q a st'
        | (Fail e, (st', _)) => X e st'
        | (Dead, (st', _)) => D (st_dirs st')
        end.

Lemma swp_ret {A} (a : A) (Q : A → StoreAll.Store → Prop) X D st : Q a st → swp (mret a) Q X D st.
Proof. by intros H fs. Qed.
Lemma swp_throw {A} e (Q : A → StoreAll.Store → Prop) X D st : X e st → swp (sthrow e) Q X D st.
Proof. by intros H fs. Qed.
Lemma swp_get (Q : StoreAll.Store → StoreAll.Store → Prop) X D st : Q st st → swp sget Q X D st.
Proof. by intros H fs. Qed.
Lemma swp_put f (Q : () → StoreAll.Store → Prop) X D st : Q () (f st) → swp (sput f) Q X D st.
Proof. by intros H fs. Qed.
Lemma swp_bind {A B} (m : sop A) (f : A → sop B) (Q : B → StoreAll.Store → Prop) X D st :
  swp m (λ a, swp (f a) Q X D) X D st → swp (m ≫= f) Q X D st.
Proof.
  intros H fs. specialize (H fs). unfold mbind, sop_bind. destruct (m _) as [[a|e|] [st' fs']]; [|done..]. apply H.
Qed.
Lemma swp_mono {A} (m : sop A) (Q Q' : A → StoreAll.Store → Prop) X X' D D' st :
  swp m Q X D st → (∀ a st, Q a st → Q' a st) → (∀ e st, X e st → X' e st) → (∀ ds, D ds → D' ds) → swp m Q' X' D' st.
Proof. intros H HQ HX HD fs. specialize (H fs). destruct (m _) as [[] []]; auto. Qed.
Lemma swp_and {A} (m : sop A) (Q Q' : A → StoreAll.Store → Prop) X X' D D' st :
  swp m Q X D st → swp m Q' X' D' st →
  swp m (λ a st, Q a st ∧ Q' a st) (λ e st, X e st ∧ X' e st) (λ ds, D ds ∧ D' ds) st.
Proof. intros H H' fs. specialize (H fs). specialize (H' fs). destruct (m _) as [[] []]; auto. Qed.
Lemma swp_try {A} (m : sop A) (Q : result store_error A → StoreAll.Store → Prop) X D st :
  swp m (λ a, Q (Ok a)) (λ e, Q (Err e)) D st → swp (stry m) Q X D st.
Proof. intros H fs. specialize (H fs). unfold stry. by destruct (m _) as [[] []]. Qed.
Lemma swp_scall f (Q : () → StoreAll.Store → Prop) X D st :
  Q () (f st) → X (Os OtherError) st → D (st_dirs st) → swp (scall f) Q X D st.
Proof. intros HQ HX HD fs. by destruct fs as [|[]]. Qed.
Lemma swp_on_state {A} name ls (m : op A) (Q : A → StoreAll.Store → Prop) X D st :
  wp m (λ a d s, Q a (put_back name d s st)) (λ e d s, X e (put_back name d s st)) (λ d, D (alter (λ _, d) name (st_dirs st)))
    (dir_of st name) (mkMemory ls (st_Quarantined st)) →
  swp (on_state_of name ls m) Q X D st.
Proof.
  intros H fs. specialize (H fs). unfold on_state_of. destruct (m _) as [[a|e|] w]; simpl in *; exact H.
Qed.
Lemma swp_unversioned {A} o name (m : sop A) (Q : () → StoreAll.Store → Prop) X D st :
  st_readOnly st = false → swp m (λ _, Q ()) X D st → swp (unversioned o name m) Q X D st.
Proof.
  intros Hr H. unfold unversioned, refuseReadOnly. apply swp_bind, swp_bind, swp_get. rewrite Hr. apply swp_ret, swp_bind.
  eapply swp_mono; [exact H| |done|done]. intros a st' HQ. by apply swp_ret.
Qed.

(** ** Lists do not interfere *)

Definition target (r : request) : option bytes :=
  match r with
  | RCreate n _ | RUpsert n _ | RUpsertGen n _ _ | RDelete n _ | RReplace n _ | RCompact n | RReload n | RFold n _ => Some n
  | RClose => None
  end.

(** A computation that leaves the other lists and their directories alone. *)
Definition same_dirs (n : option bytes) st ds : Prop := ∀ name, n ≠ Some name → ds !! name = st_dirs st !! name.
Definition same_elsewhere (n : option bytes) st st' : Prop :=
  same_dirs n st (st_dirs st') ∧ ∀ name, n ≠ Some name → st_lists st' !! name = st_lists st !! name.
Definition confined {A} (n : option bytes) (m : sop A) : Prop :=
  ∀ st, swp m (λ _, same_elsewhere n st) (λ _, same_elsewhere n st) (same_dirs n st) st.

Lemma same_elsewhere_trans n st st' st'' : same_elsewhere n st st' → same_elsewhere n st' st'' → same_elsewhere n st st''.
Proof. intros [H1 H2] [H3 H4]. split; intros name Hn; [by rewrite H3, H1|by rewrite H4, H2]. Qed.
Lemma same_elsewhere_refl n st : same_elsewhere n st st.
Proof. done. Qed.
Lemma confined_ret {A} n (a : A) : confined n (mret a).
Proof. intros st. by apply swp_ret. Qed.
Lemma confined_throw {A} n e : confined n (sthrow e : sop A).
Proof. intros st. by apply swp_throw. Qed.
Lemma confined_get n : confined n sget.
Proof. intros st. by apply swp_get. Qed.
Lemma confined_put n f : (∀ st, same_elsewhere n st (f st)) → confined n (sput f).
Proof. intros H st. apply swp_put. exact (H st). Qed.
Lemma confined_bind {A B} n (m : sop A) (f : A → sop B) : confined n m → (∀ a, confined n (f a)) → confined n (m ≫= f).
Proof.
  intros Hm Hf st. apply swp_bind. eapply swp_mono; [apply Hm| |done|done]. intros a st1 H1.
  eapply swp_mono; [apply Hf|..].
  - intros b st2 H2. exact (same_elsewhere_trans _ _ _ _ H1 H2).
  - intros e st2 H2. exact (same_elsewhere_trans _ _ _ _ H1 H2).
  - intros ds H2 name Hn. rewrite H2 by done. by apply H1.
Qed.
Lemma confined_try {A} n (m : sop A) : confined n m → confined n (stry m).
Proof. intros Hm st. apply swp_try. apply Hm. Qed.
Lemma confined_scall n f : (∀ st, same_elsewhere n st (f st)) → confined n (scall f).
Proof. intros H st. apply swp_scall; [exact (H st)|done|done]. Qed.
Lemma put_back_elsewhere name d s st : same_elsewhere (Some name) st (put_back name d s st).
Proof.
  split; intros name' Hn; simpl; [rewrite lookup_alter_ne|rewrite lookup_insert_ne]; congruence.
Qed.
Lemma confined_on_state {A} name ls (m : op A) : confined (Some name) (on_state_of name ls m).
Proof.
  intros st fs. unfold on_state_of. destruct (m _) as [[] w]; simpl; try apply put_back_elsewhere.
  intros name' Hn. apply lookup_alter_ne. congruence.
Qed.
Lemma confined_mkdir name : confined (Some name) (mkdir name).
Proof. apply confined_scall. intros st. split; intros name' Hn; simpl; [apply lookup_insert_ne; congruence|done]. Qed.
Lemma confined_refuse n o name : confined n (refuseReadOnly o name).
Proof.
  apply confined_bind; [apply confined_get|]. intros st. destruct (st_readOnly st); [|apply confined_ret].
  apply confined_bind; [by apply confined_put|intros _; apply confined_throw].
Qed.
Lemma confined_begin n : confined n beginOp.
Proof. apply confined_bind; [apply confined_get|]. intros st. destruct (st_closed st); [apply confined_throw|apply confined_ret]. Qed.
Lemma confined_get_list n name : confined n (get name).
Proof.
  apply confined_bind; [apply confined_get|]. intros st. destruct (_ !! _) as [ls|]; [|apply confined_throw].
  destruct (ls_l ls); [apply confined_ret|apply confined_throw].
Qed.
Lemma confined_get_or_add name : confined (Some name) (get_or_add name).
Proof.
  apply confined_bind; [apply confined_get|]. intros st. destruct (_ !! _) as [ls|]; [apply confined_ret|].
  apply confined_bind; [|intros; apply confined_ret]. apply confined_put. intros st'. split; [done|].
  intros name' Hn. apply lookup_insert_ne. congruence.
Qed.
Lemma confined_mutator {A} o name (m : FsyncMode → op A) : confined (Some name) (mutator o name m).
Proof.
  apply confined_bind; [apply confined_refuse|intros _]. apply confined_bind; [apply confined_begin|intros _].
  apply confined_bind; [apply confined_get_list|intros ls]. apply confined_bind; [apply confined_get|intros st].
  apply confined_on_state.
Qed.
Lemma confined_unversioned {A} n o name (m : sop A) : confined n m → confined n (unversioned o name m).
Proof.
  intros Hm. apply confined_bind; [apply confined_refuse|intros _]. apply confined_bind; [done|intros _; apply confined_ret].
Qed.
#[local] Hint Resolve confined_ret confined_throw confined_get confined_mutator confined_unversioned confined_on_state
  confined_mkdir confined_refuse confined_begin confined_get_or_add : core.

Lemma serve_confined r : confined (target r) (serve r).
Proof.
  destruct r as [name cfg|name es|name gen es|name id|name es|name|name|name thr|]; cbn [serve target]; try by apply confined_unversioned, confined_mutator.
  - apply confined_unversioned, confined_bind; [auto|intros _]. apply confined_bind; [auto|intros _].
    destruct (listNameRE name); cbn [negb]; [|apply confined_throw]. destruct (NewList _ _); [|auto].
    apply confined_bind; [auto|intros ls]. apply confined_bind; auto.
  - apply confined_unversioned, confined_bind; [auto|intros _]. apply confined_bind; [auto|intros _].
    destruct (listNameRE name); cbn [negb]; [|apply confined_throw]. apply confined_bind; auto.
  - apply confined_bind; [auto|intros st]. destruct (_ !! _) as [ls|]; [|auto]. destruct (autoCompacting ls); [|auto].
    apply confined_bind.
    + destruct (fold_due thr ls); [|auto]. apply confined_bind; [|auto]. apply confined_try, confined_unversioned, confined_mutator.
    + intros _. apply confined_put. intros st'. split; [done|]. intros name' Hn. apply lookup_alter_ne. congruence.
  - by apply confined_put.
Qed.

(** ** A closed or read-only store *)

(** Requests that only touch memory: [Close], and a fold that finds nothing to do. *)
Definition internal (r : request) : bool := match r with RFold _ _ | RClose => true | _ => false end.

(** What such a store keeps: everything but the refusal count, the [closed] flag and
    the flags of scheduled folds. *)
Definition frozen st st' : Prop :=
  st_dirs st' = st_dirs st ∧ (∀ n, StoreAll.List st' n = StoreAll.List st n) ∧
  st_readOnly st' = st_readOnly st ∧ (st_closed st → st_closed st').
Lemma frozen_refl st : frozen st st.
Proof. done. Qed.
Lemma frozen_trans st st1 st2 : frozen st st1 → frozen st1 st2 → frozen st st2.
Proof.
  intros (H1 & H2 & H3 & H4) (H5 & H6 & H7 & H8). split_and!; [by rewrite H5| |by rewrite H7|by auto].
  intros n. by rewrite H6.
Qed.

(** The guards of a mutator, on such a store. *)
Definition refusal st (o name : bytes) : store_error * StoreAll.Store :=
  if st_readOnly st then (StoreReadOnly o name, count_refused st) else (StoreClosed, st).
Lemma refuse_guard {A} o name (k : sop A) st fs :
  st_readOnly st = true → (refuseReadOnly o name ≫= λ _, k) (st, fs) = (Fail (StoreReadOnly o name), (count_refused st, fs)).
Proof. intros Hr. unfold refuseReadOnly, sget, mbind, sop_bind. simpl. by rewrite Hr. Qed.
Lemma guards {A B} o o' name (k : () → sop A) (f : A → sop B) st fs :
  st_readOnly st = true ∨ st_closed st = true →
  (_ ← refuseReadOnly o name; a ← (_ ← refuseReadOnly o' name; u ← beginOp; k u); f a) (st, fs) =
  (Fail (refusal st o name).1, ((refusal st o name).2, fs)).
Proof.
  intros Hc. unfold refusal. destruct (st_readOnly st) eqn:Hr; [by rewrite refuse_guard|].
  destruct Hc as [|Hc]; [done|]. unfold refuseReadOnly, beginOp, sget, mbind, sop_bind. simpl. rewrite Hr. simpl. rewrite Hr. simpl.
  by rewrite Hc.
Qed.

Lemma serve_refused r st fs :
  st_readOnly st = true ∨ st_closed st = true → internal r = false →
  ∃ o n, serve r (st, fs) = (Fail (refusal st o n).1, ((refusal st o n).2, fs)).
Proof. intros Hc Hi. destruct r as [n cfg|n es|n g es|n id|n es|n|n|n thr|]; try done; eexists _, n; by apply guards. Qed.

Lemma serve_internal r st fs :
  st_readOnly st = true ∨ st_closed st = true → internal r = true →
  ∃ st', serve r (st, fs) = (Ret (), (st', fs)) ∧ frozen st st'.
Proof.
  intros Hc Hi. destruct r as [| | | | | | |n thr|]; try done; cbn [serve]; [|by eexists].
  unfold background_fold, sget, mbind, sop_bind. cbn [fst snd].
  destruct (st_lists st !! n) as [ls|] eqn:Hls; [|by exists st]. destruct (autoCompacting ls); [|by exists st].
  assert (∀ st0, frozen st st0 → frozen st (set_lists (alter (set_compacting false) n (st_lists st0)) st0)) as Hclear.
  { intros st0 H0. eapply frozen_trans; [exact H0|]. split_and!; [done| |done|done]. intros m. unfold StoreAll.List. simpl.
    destruct (decide (n = m)) as [->|]; [|by rewrite lookup_alter_ne]. rewrite lookup_alter_eq. by destruct (st_lists st0 !! m). }
  destruct (fold_due thr ls); [|by eexists; split; [done|apply Hclear]].
  unfold stry, Compact, unversioned, CompactVersioned, mutator. rewrite guards by done.
  eexists. split; [done|]. apply Hclear. unfold refusal. destruct (st_readOnly st) eqn:Hr; [|done]. split_and!; [done..|]. by destruct Hc.
Qed.

(** ** The calls of the server: the forms with a version *)

Lemma swp_get_list name (Q : listState → StoreAll.Store → Prop) X D st :
  (∀ ls, st_lists st !! name = Some ls → Q ls st) → (∀ e, X e st) → swp (get name) Q X D st.
Proof.
  intros HQ HX. unfold get. apply swp_bind, swp_get. destruct (st_lists st !! name) as [ls|]; [|by apply swp_throw].
  destruct (ls_l ls); [apply swp_ret; auto|by apply swp_throw].
Qed.

Lemma confined_forget {A} n (m : sop A) : confined n m → confined n (_ ← m; mret ()).
Proof. intros Hm. apply confined_bind; [done|intros _; apply confined_ret]. Qed.
Lemma confined_create name cfg : confined (Some name) (CreateListVersioned name cfg).
Proof.
  apply confined_bind; [auto|intros _]. apply confined_bind; [auto|intros _].
  destruct (listNameRE name); cbn [negb]; [|apply confined_throw]. destruct (NewList _ _); [|auto].
  apply confined_bind; [auto|intros ls]. apply confined_bind; auto.
Qed.
Lemma confined_reload name : confined (Some name) (ReloadListVersioned name).
Proof.
  apply confined_bind; [auto|intros _]. apply confined_bind; [auto|intros _].
  destruct (listNameRE name); cbn [negb]; [|apply confined_throw]. apply confined_bind; auto.
Qed.
Lemma call_confined c : confined (target (request_of c)) (serve_call c).
Proof.
  destruct c as [r|r]; [apply serve_confined|]. cbn [serve_call request_of].
  destruct r; cbn [serve_versioned target]; try by apply confined_forget, confined_mutator.
  - apply confined_forget, confined_create.
  - apply confined_forget, confined_reload.
  - apply (serve_confined (RFold name thr)).
  - apply (serve_confined RClose).
Qed.

Lemma guarded {A B} o name (k : () → sop A) (f : A → sop B) st fs :
  st_readOnly st = true ∨ st_closed st = true →
  (a ← (_ ← refuseReadOnly o name; u ← beginOp; k u); f a) (st, fs) = (Fail (refusal st o name).1, ((refusal st o name).2, fs)).
Proof.
  intros Hc. unfold refusal, refuseReadOnly, beginOp, sget, mbind, sop_bind. simpl. destruct (st_readOnly st) eqn:Hr; simpl; [done|].
  destruct Hc as [|Hc]; [done|]. by rewrite Hc.
Qed.

Lemma call_refused c st fs :
  st_readOnly st = true ∨ st_closed st = true → internal (request_of c) = false →
  ∃ o n, serve_call c (st, fs) = (Fail (refusal st o n).1, ((refusal st o n).2, fs)).
Proof.
  intros Hc Hi. destruct c as [r|r]; [by apply serve_refused|].
  destruct r as [n cfg|n es|n g es|n id|n es|n|n|n thr|]; try done; eexists _, n; by apply guarded.
Qed.
Lemma call_internal c st fs :
  st_readOnly st = true ∨ st_closed st = true → internal (request_of c) = true →
  ∃ st', serve_call c (st, fs) = (Ret (), (st', fs)) ∧ frozen st st'.
Proof.
  intros Hc Hi. destruct c as [r|r]; [by apply serve_internal|].
  destruct r as [| | | | | | |n thr|]; try done; [by apply (serve_internal (RFold n thr))|by apply (serve_internal RClose)].
Qed.

Lemma serve_calls_inert cs st fs :
  st_readOnly st = true ∨ st_closed st = true →
  ∃ st', serve_calls cs (st, fs) = (Ret (internal ∘ request_of <$> cs), (st', fs)) ∧ frozen st st'.
Proof.
  revert st. induction cs as [|c cs IH]; intros st Hc; [by exists st|].
  assert (∃ st1 a, stry (serve_call c) (st, fs) = (Ret a, (st1, fs)) ∧ is_ok a = internal (request_of c) ∧ frozen st st1)
    as (st1 & a & Hr & Ha & Hf).
  { unfold stry. destruct (internal (request_of c)) eqn:Hi.
    - destruct (call_internal c st fs Hc Hi) as (st1 & -> & Hf). by eexists _, _.
    - destruct (call_refused c st fs Hc Hi) as (o & n & ->). eexists _, _. split; [done|]. split; [done|].
      unfold refusal. destruct (st_readOnly st) eqn:Hro; [|done]. by split_and!. }
  destruct (IH st1) as (st2 & Hrs & Hf2).
  { destruct Hf as (_ & _ & Hro & Hcl). rewrite Hro. destruct Hc as [Hc|Hc]; [by left|]. right. apply Is_true_true, Hcl, Is_true_true, Hc. }
  exists st2. split; [|by eapply frozen_trans]. cbn [serve_calls fmap list_fmap]. unfold mbind, sop_bind. rewrite Hr, Hrs. cbn. by rewrite Ha.
Qed.

(** ** Paths of lists *)

(** A name of one component: what a directory entry is called. *)
Definition component (n : bytes) : Prop := n ≠ [] ∧ n ≠ $"." ∧ n ≠ $".." ∧ 47%N ∉ n.

Lemma list_name_component n : listNameRE n = true → component n.
Proof.
  unfold listNameRE. destruct n as [|c n]; [done|]. intros H. apply andb_true_iff in H as [H Hrest].
  apply andb_true_iff in H as [Hc _].
  assert (c ≠ 46%N ∧ c ≠ 47%N) as [Hd Hs].
  { apply orb_true_iff in Hc as [Hc|Hc]; apply andb_true_iff in Hc as [H1%N.leb_le H2%N.leb_le]; split; lia. }
  split_and!; [done|intros [= ? ?]; done|intros [= ? ?]; done|]. apply not_elem_of_cons. split; [done|]. intros Hin.
  rewrite forallb_forall in Hrest. apply list_elem_of_In in Hin. specialize (Hrest _ Hin).
  change ((97 <=? 47)%N && (47 <=? 122)%N || (48 <=? 47)%N && (47 <=? 57)%N || (47 =? 95)%N || (47 =? c_minus)%N) with false in Hrest.
  done.
Qed.

Lemma split_byte_last sep a b : sep ∉ b → split_byte sep (a ++ sep :: b) = split_byte sep a ++ [b].
Proof.
  intros Hb. induction a as [|x a IH]; simpl; [by rewrite N.eqb_refl, split_byte_no_sep|]. rewrite IH.
  destruct (x =? sep)%N; [done|]. destruct (split_byte sep a) eqn:E; [by apply split_byte_ne in E|]. done.
Qed.

Lemma clean_component rooted acc n : component n → clean_step rooted acc n = n :: acc.
Proof. intros (H1 & H2 & H3 & _). unfold clean_step. by rewrite !bool_decide_eq_false_2. Qed.

(** What a directory entry of [root] is appended to. *)
Definition below (root : bytes) : bytes :=
  let rooted := bool_decide (take 1 root = $"/") in
  match reverse (foldl (clean_step rooted) [] (split_byte 47 root)) with
  | [] => if rooted then $"/" else []
  | cs => (if rooted then $"/" else []) ++ join ($"/") cs ++ $"/"
  end.
Lemma join_last sep cs n : cs ≠ [] → join sep (cs ++ [n]) = join sep cs ++ sep ++ n.
Proof.
  induction cs as [|c cs IH]; intros Hne; [done|]. destruct cs as [|c' cs]; [done|].
  change (join sep ((c :: c' :: cs) ++ [n])) with (c ++ sep ++ join sep ((c' :: cs) ++ [n])). rewrite IH by done.
  change (join sep (c :: c' :: cs)) with (c ++ sep ++ join sep (c' :: cs)). by rewrite <-!app_assoc.
Qed.
Lemma list_path_component root n : component n → listPath root n = below root ++ n.
Proof.
  intros Hn. pose proof Hn as (Hne & _ & _ & Hsl). unfold listPath, join_path, below. destruct root as [|b root].
  - destruct n as [|c n]; [done|]. unfold clean_path.
    assert (bool_decide (take 1 (c :: n) = $"/") = false) as ->.
    { apply bool_decide_eq_false_2. intros [= ->]. apply Hsl. by left. }
    rewrite split_byte_no_sep by done. cbn [foldl]. by rewrite clean_component.
  - cbn [app]. set (root' := b :: root). change (b :: root ++ $"/" ++ n) with (root' ++ 47%N :: n).
    unfold clean_path. rewrite split_byte_last, foldl_app by done. cbn [foldl]. rewrite clean_component by done.
    change (take 1 (root' ++ 47%N :: n)) with (take 1 root'). rewrite reverse_cons. generalize (bool_decide (take 1 root' = $"/")). intros rooted.
    destruct (reverse _) as [|c cs]; [by destruct rooted; simpl; rewrite ?app_nil_r|]. unfold render_path. rewrite join_last by done.
    destruct rooted; cbn [app]; rewrite <-?app_assoc; done.
Qed.
Lemma list_path_inj root n n' : component n → component n' → listPath root n = listPath root n' → n = n'.
Proof. intros H H'. rewrite !list_path_component by done. apply app_inv_head. Qed.

(** ** Every name in use is a component *)

Definition names_in ds : Prop := ∀ n, is_Some (ds !! n) → component n.
Definition names_ok st : Prop := names_in (st_dirs st) ∧ ∀ n, is_Some (st_lists st !! n) → component n.
Definition named {A} (m : sop A) : Prop := ∀ st, names_ok st → swp m (λ _, names_ok) (λ _, names_ok) names_in st.

Lemma named_ret {A} (a : A) : named (mret a).
Proof. intros st H. by apply swp_ret. Qed.
Lemma named_throw {A} e : named (sthrow e : sop A).
Proof. intros st H. by apply swp_throw. Qed.
Lemma named_get : named sget.
Proof. intros st H. by apply swp_get. Qed.
Lemma named_put f : (∀ st, names_ok st → names_ok (f st)) → named (sput f).
Proof. intros Hf st H. apply swp_put. auto. Qed.
Lemma named_bind {A B} (m : sop A) (f : A → sop B) : named m → (∀ a, named (f a)) → named (m ≫= f).
Proof. intros Hm Hf st H. apply swp_bind. eapply swp_mono; [by apply Hm| |done|done]. intros a st' H'. by apply Hf. Qed.
Lemma named_try {A} (m : sop A) : named m → named (stry m).
Proof. intros Hm st H. apply swp_try. by apply Hm. Qed.
Lemma named_put_back name d s st : names_ok st → component name → names_ok (put_back name d s st).
Proof.
  intros [Hd Hl] Hn. split; intros n; simpl.
  - intros [x Hx]. apply Hd. destruct (decide (n = name)) as [->|Hne].
    + rewrite lookup_alter_eq in Hx. destruct (st_dirs st !! name); [by eexists|done].
    + rewrite lookup_alter_ne in Hx by done. by eexists.
  - destruct (decide (n = name)) as [->|Hne]; [done|]. rewrite lookup_insert_ne by done. apply Hl.
Qed.
Lemma named_on_state {A} name ls (m : op A) : component name → named (on_state_of name ls m).
Proof.
  intros Hn st H fs. pose proof (λ d s, named_put_back name d s st H Hn) as Hp. unfold on_state_of.
  destruct (m _) as [[] w]; simpl; [apply Hp|apply Hp|]. destruct (Hp (w_dir w) (w_mem w)) as [Hd _]. exact Hd.
Qed.
Lemma named_mkdir name : component name → named (mkdir name).
Proof.
  intros Hn st [Hd Hl]. apply swp_scall; [|done|exact Hd]. split; [|exact Hl]. intros n. simpl.
  destruct (decide (n = name)) as [->|Hne]; [done|]. rewrite lookup_insert_ne by done. apply Hd.
Qed.
Lemma named_get_or_add name : component name → named (get_or_add name).
Proof.
  intros Hn. apply named_bind; [apply named_get|intros st]. destruct (_ !! _) as [ls|]; [apply named_ret|].
  apply named_bind; [|intros _; apply named_ret]. apply named_put. intros st' [Hd Hl]. split; [exact Hd|]. intros n. simpl.
  destruct (decide (n = name)) as [->|Hne]; [done|]. rewrite lookup_insert_ne by done. apply Hl.
Qed.
Lemma named_refuse o name : named (refuseReadOnly o name).
Proof.
  apply named_bind; [apply named_get|intros st]. destruct (st_readOnly st); [|apply named_ret].
  apply named_bind; [by apply named_put|intros _; apply named_throw].
Qed.
Lemma named_begin : named beginOp.
Proof. apply named_bind; [apply named_get|intros st]. destruct (st_closed st); [apply named_throw|apply named_ret]. Qed.
Lemma named_mutator {A} o name (m : FsyncMode → op A) : named (mutator o name m).
Proof.
  apply named_bind; [apply named_refuse|intros _]. apply named_bind; [apply named_begin|intros _].
  intros st H. apply swp_bind, swp_get_list; [|done]. intros ls Hls. apply swp_bind, swp_get. apply named_on_state; [|done].
  apply H. by eexists.
Qed.
Lemma named_create name cfg : named (CreateListVersioned name cfg).
Proof.
  apply named_bind; [apply named_refuse|intros _]. apply named_bind; [apply named_begin|intros _].
  destruct (listNameRE name) eqn:Hn; cbn [negb]; [|apply named_throw]. apply list_name_component in Hn.
  destruct (NewList _ _); [|apply named_throw]. apply named_bind; [by apply named_get_or_add|intros ls].
  apply named_bind; [by apply named_mkdir|intros _]. by apply named_on_state.
Qed.
Lemma named_reload name : named (ReloadListVersioned name).
Proof.
  apply named_bind; [apply named_refuse|intros _]. apply named_bind; [apply named_begin|intros _].
  destruct (listNameRE name) eqn:Hn; cbn [negb]; [|apply named_throw]. apply list_name_component in Hn.
  apply named_bind; [by apply named_get_or_add|intros ls]. by apply named_on_state.
Qed.
Lemma named_forget {A} (m : sop A) : named m → named (_ ← m; mret ()).
Proof. intros Hm. apply named_bind; [done|intros _; apply named_ret]. Qed.
Lemma named_unversioned {A} o name (m : sop A) : named m → named (unversioned o name m).
Proof. intros Hm. apply named_bind; [apply named_refuse|intros _]. by apply named_forget. Qed.
Lemma named_fold name thr : named (background_fold name thr).
Proof.
  apply named_bind; [apply named_get|intros st]. destruct (_ !! _) as [ls|]; [|apply named_ret].
  destruct (autoCompacting ls); [|apply named_ret]. apply named_bind.
  - destruct (fold_due thr ls); [|apply named_ret]. apply named_bind; [|intros _; apply named_ret].
    apply named_try, named_unversioned, named_mutator.
  - intros _. apply named_put. intros st' [Hd Hl]. split; [exact Hd|]. intros n [x Hx]. apply Hl. simpl in Hx.
    destruct (decide (n = name)) as [->|Hne]; [|rewrite lookup_alter_ne in Hx by done; by eexists].
    rewrite lookup_alter_eq in Hx. destruct (st_lists st' !! name); [by eexists|done].
Qed.
Lemma call_named c : named (serve_call c).
Proof.
  destruct c as [r|r]; destruct r; cbn [serve_call serve serve_versioned];
    try (by apply named_unversioned, named_mutator); try (by apply named_forget, named_mutator); try apply named_fold;
    try (by apply named_put); first [apply named_unversioned, named_create|apply named_unversioned, named_reload|
      apply named_forget, named_create|apply named_forget, named_reload].
Qed.

(** What lies at a path of the file system, below the store's directory. *)
Definition holds (root : bytes) ds (p : bytes) (d : dir) : Prop := ∃ n, ds !! n = Some d ∧ p = listPath root n.

(** Only the directory of one list changed, if any; no two lists share a path. *)
Definition isolated_on_disk (root : bytes) (n : option bytes) st ds : Prop :=
  names_in ds ∧ (∀ m m', is_Some (ds !! m) → is_Some (ds !! m') → listPath root m = listPath root m' → m = m') ∧
  ∀ p d, (∀ t, n = Some t → p ≠ listPath root t) → holds root ds p d ↔ holds root (st_dirs st) p d.
Lemma isolated_intro root n st ds : same_dirs n st ds → names_in ds → isolated_on_disk root n st ds.
Proof.
  intros Hs Hd. split_and!; [done|intros m m' H H'; apply list_path_inj; by apply Hd|].
  intros p d Hp. split; intros (m & Hm & ->).
  - exists m. rewrite <-Hs; [done|]. intros ->. by apply (Hp m).
  - exists m. rewrite Hs; [done|]. intros ->. by apply (Hp m).
Qed.

(** C14: lists do not interfere.  Whatever bytes a client gives as a name, and
    whatever the call - in either form - does, succeed, fail at any system call or
    die: every name that has a directory or is served remains a single path
    component (never empty, [.], [..] or with a slash in it), so no two lists ever
    share a path; below the store's directory nothing changes but what lies at the
    cleaned path of the list named; and the state of every other list stays as it
    was.  The names [Open] starts from are directory entries, hence components. *)
Theorem store_isolated root c st :
  names_ok st →
  swp (serve_call c)
    (λ _ st', isolated_on_disk root (target (request_of c)) st (st_dirs st') ∧ names_ok st' ∧
       ∀ n, target (request_of c) ≠ Some n → st_lists st' !! n = st_lists st !! n)
    (λ _ st', isolated_on_disk root (target (request_of c)) st (st_dirs st') ∧ names_ok st' ∧
       ∀ n, target (request_of c) ≠ Some n → st_lists st' !! n = st_lists st !! n)
    (isolated_on_disk root (target (request_of c)) st) st.
Proof.
  intros Hok. eapply swp_mono; [apply swp_and; [apply (call_confined c)|by apply (call_named c)]|..]; simpl.
  - intros _ st' [[Hd Hl] Hn]. split_and!; [apply isolated_intro; [done|apply Hn]|done|done].
  - intros _ st' [[Hd Hl] Hn]. split_and!; [apply isolated_intro; [done|apply Hn]|done|done].
  - intros ds [Hd Hn]. by apply isolated_intro.
Qed.

(** C15: a closed or read-only store changes nothing.  Once the store is closed, or
    when it was opened from a prepared artifact, every later call of a client -
    of the plain mutators and of the forms that report a version, which the HTTP
    handlers use - is refused without a system call, and no directory and no served
    list changes: only [Close] and folds already scheduled are let through, and they
    write nothing. *)
Theorem closed_store_inert cs st fs :
  st_readOnly st = true ∨ st_closed st = true →
  ∃ st', serve_calls cs (st, fs) = (Ret (internal ∘ request_of <$> cs), (st', fs)) ∧
    st_dirs st' = st_dirs st ∧ ∀ n, StoreAll.List st' n = StoreAll.List st n.
Proof. intros Hc. destruct (serve_calls_inert cs st fs Hc) as (st' & H & Hd & Hl & _). by exists st'. Qed.
End spec.
