(* ===== verification/StoreAllHistory.v ===== *)
(** Histories of requests on a store of many lists, under failing calls and crashes,
    and the reopening of the data directory. *)

From S2P Require Import Prelude.
From S2P Require Import Runtime.
From S2P Require Import Analyzer.
From S2P Require Import Score.
From S2P Require Import Bitmap.
From S2P Require Import Types.
From S2P Require Import ListConfig.
From S2P Require Import Segment.
From S2P Require Import ListModel.
From S2P Require Import ListRefine.
From S2P Require Import Journal.
From S2P Require Import Disk.
From S2P Require Import Store.
From S2P Require Import StoreSpec.
From S2P Require Import StoreInv.
From S2P Require Import StoreOps.
From S2P Require Import StoreOpen.
From S2P Require Import StoreHistory.
From S2P Require Import StoreLive.
From S2P Require Import StoreAll.
From S2P Require Import StoreAllSpec.

Section history.
Context {RT : GoRuntime} {TL : TextLib} {BL : BitmapLib} {FO : FloatOps} {DL : DigestLib} {CD : Codec} {AC : ArtifactCodec}.
Context (digest_ne : ∀ b, sha256 b ≠ []) (threshold_ok : default_threshold_ok).
Implicit Types (st : StoreAll.Store) (ds : gmap bytes dir) (X : store_error → StoreAll.Store → Prop) (D : gmap bytes dir → Prop)
  (ls : listState) (l : GoList).

(** ** The invariant and the abstract content *)

Definition list_ok_in (name : bytes) (d : dir) ls l : Prop := list_ok name d (mkMemory ls []) l.
Definition sinv st : Prop :=
  st_readOnly st = false ∧
  ∀ name ls l, st_lists st !! name = Some ls → ls_l ls = Some l →
    ∃ d, st_dirs st !! name = Some d ∧ list_ok_in name d ls l ∧ stable_map (live_map l).
Definition content st : gmap bytes (gmap bytes Entry) := omap (λ ls, live_map <$> ls_l ls) (st_lists st).

Lemma list_ok_mem name d s l : list_ok name d s l ↔ list_ok_in name d (m_ls s) l.
Proof. done. Qed.
Lemma list_ok_flags name d ls ls' l : ls_l ls' = ls_l ls → ls_damage ls' = ls_damage ls → list_ok_in name d ls l → list_ok_in name d ls' l.
Proof. unfold list_ok_in, list_ok. simpl. by intros -> ->. Qed.

Lemma content_lookup st name ls l : st_lists st !! name = Some ls → ls_l ls = Some l → content st !! name = Some (live_map l).
Proof. intros Hs Hl. unfold content. rewrite lookup_omap, Hs. simpl. by rewrite Hl. Qed.

(** A list put back with a list that agrees with its directory. *)
Lemma sinv_put name d0 d' s' l' st :
  sinv st → st_dirs st !! name = Some d0 → list_ok name d' s' l' → stable_map (live_map l') →
  sinv (put_back name d' s' st) ∧ content (put_back name d' s' st) = <[name := live_map l']> (content st).
Proof.
  intros [Hr Hi] Hd Hok Hm. split.
  - split; [done|]. intros n ls l. simpl. destruct (decide (n = name)) as [->|Hn].
    + rewrite lookup_insert_eq, lookup_alter_eq, Hd. intros [= <-] Hl. exists d'. split; [done|].
      assert (l = l') as -> by (destruct Hok as [Hl' _]; congruence). done.
    + rewrite lookup_insert_ne, lookup_alter_ne by done. apply Hi.
  - apply map_eq. intros n. unfold content. rewrite lookup_omap. simpl. destruct (decide (n = name)) as [->|Hn].
    + rewrite !lookup_insert_eq. simpl. destruct Hok as [-> _]. done.
    + by rewrite !lookup_insert_ne, lookup_omap by done.
Qed.
(** One that still holds no list. *)
Lemma sinv_put_none name d' s' st :
  sinv st → content st !! name = None → ls_l (m_ls s') = None →
  sinv (put_back name d' s' st) ∧ content (put_back name d' s' st) = content st.
Proof.
  intros [Hr Hi] Hc Hs. split.
  - split; [done|]. intros n ls l. simpl. destruct (decide (n = name)) as [->|Hn].
    + rewrite lookup_insert_eq. intros [= <-]. by rewrite Hs.
    + rewrite lookup_insert_ne, lookup_alter_ne by done. apply Hi.
  - apply map_eq. intros n. unfold content in *. rewrite !lookup_omap. simpl. destruct (decide (n = name)) as [->|Hn].
    + rewrite lookup_insert_eq. simpl. rewrite Hs. by rewrite lookup_omap in Hc.
    + by rewrite lookup_insert_ne.
Qed.

(** ** One mutation of one list, whatever its damage *)

Definition mutates {A} (name : bytes) (o : store_mutation) (m : op A) : Prop :=
  ∀ l d s, list_ok name d s l → stable_map (live_map l) →
  wp m (λ _ d' s', ∃ l', list_ok name d' s' l' ∧ live_map l' = spec_mutation o (live_map l))
    (λ _ d' s', ∃ l', list_ok name d' s' l' ∧ live_map l' = live_map l)
    (λ d', ls_damage (m_ls s) = damageNone → ∃ m', crash_map o (live_map l) m' ∧ describes name d' (l_cfg l) (l_an l) m') d s.

Lemma run_mutation_mutates mode name o : stable_mutation o → mutates name o (run_mutation mode name o).
Proof.
  intros Hst l d s Hok Hm. destruct (decide (ls_damage (m_ls s) = damageNone)) as [Hk|Hk].
  - eapply wp_mono; [eapply (wp_mutation digest_ne mode name o d s (l_cfg l) (l_an l) (live_map l)); [by exists l|done..]|..].
    + intros _ d' s' [(l' & H & _ & _ & ?) _]. by exists l'.
    + intros e d' s' [(l' & H & _ & _ & ?) _]. by exists l'.
    + done.
  - eapply wp_mono; [by eapply (wp_damaged digest_ne)|..].
    + intros _ d' s' (_ & _ & (l' & H & _ & _ & ?) & _). by exists l'.
    + intros e d' s' (H & _). by exists l.
    + done.
Qed.
Lemma wp_drop {A} (m : op A) (Q : () → dir → memory → Prop) (X' : store_error → dir → memory → Prop) (D' : dir → Prop) d s :
  wp (_ ← m; mret ()) Q X' D' d s → wp m (λ _, Q ()) X' D' d s.
Proof. intros H fs. specialize (H fs). unfold mbind, io_bind in H. by destruct (m _) as [[] []]. Qed.
Lemma mutates_drop {A} name o (m : op A) : mutates name o (_ ← m; mret ()) → mutates name o m.
Proof. intros H l d s Hok Hm. exact (wp_drop m _ _ _ d s (H l d s Hok Hm)). Qed.
Lemma mutates_gen mode name gen es :
  stable_mutation (SUpsert es) → mutates name (SUpsert es) (upsertGenLocked mode name gen es).
Proof.
  intros Hst l d s Hok Hm. unfold upsertGenLocked. apply wp_bind, wp_get_mem.
  assert (mutates name (SUpsert es) (upsertLocked mode name es)) as Hu by apply mutates_drop, (run_mutation_mutates mode), Hst.
  destruct gen as [g|]; [|by apply Hu]. destruct (_ =? g); [by apply Hu|]. apply wp_throw. by exists l.
Qed.

(** ** One request *)

(** What a crash in a mutation leaves of its list, if that was undamaged. *)
Definition mutation_crash (name : bytes) (o : store_mutation) st ds : Prop :=
  ∀ ls l, st_lists st !! name = Some ls → ls_l ls = Some l → ls_damage ls = damageNone →
    ∃ d m', ds !! name = Some d ∧ crash_map o (live_map l) m' ∧ describes name d (l_cfg l) (l_an l) m'.

Lemma swp_guarded {A} o name (k : sop A) (Q : A → StoreAll.Store → Prop) X D st :
  sinv st → (∀ e, X e st) → swp k Q X D st →
  swp (_ ← refuseReadOnly o name; _ ← beginOp; k) Q X D st.
Proof.
  intros [Hr _] HX Hk. apply swp_bind, swp_bind, swp_get. rewrite Hr. apply swp_ret, swp_bind, swp_bind, swp_get.
  destruct (st_closed st); [apply swp_throw, HX|]. by apply swp_ret.
Qed.
Definition keeps st st' : Prop := sinv st' ∧ content st' = content st.
Lemma swp_mutator {A} o name sm (m : FsyncMode → op A) st :
  sinv st → stable_mutation sm → (∀ mode, mutates name sm (m mode)) →
  swp (mutator o name m) (λ _ st', sinv st' ∧ content st' = alter (spec_mutation sm) name (content st))
    (λ _, keeps st) (mutation_crash name sm st) st.
Proof.
  intros Hs Hsm Hm. pose proof Hs as [Hr Hi]. unfold mutator. apply swp_guarded; [done|by intros e|].
  unfold get. apply swp_bind, swp_bind, swp_get. destruct (st_lists st !! name) as [ls|] eqn:Hls; [|by apply swp_throw].
  destruct (ls_l ls) as [l|] eqn:Hl; [|by apply swp_throw]. apply swp_ret, swp_bind, swp_get, swp_on_state.
  destruct (Hi name ls l Hls Hl) as (d & Hd & Hok & Hst). unfold dir_of. rewrite Hd. simpl.
  pose proof (content_lookup st name ls l Hls Hl) as Hc.
  eapply wp_mono; [by apply Hm| | |].
  - intros a d' s' (l' & Hok' & Hm'). destruct (sinv_put name d d' s' l' st Hs Hd Hok') as [Hs' Hc'].
    { rewrite Hm'. by apply stable_spec. }
    split; [done|]. rewrite Hc', Hm'. apply map_eq. intros n. destruct (decide (n = name)) as [->|Hn].
    + by rewrite lookup_insert_eq, lookup_alter_eq, Hc.
    + by rewrite lookup_insert_ne, lookup_alter_ne.
  - intros e d' s' (l' & Hok' & Hm'). destruct (sinv_put name d d' s' l' st Hs Hd Hok') as [Hs' Hc']; [by rewrite Hm'|].
    split; [done|]. rewrite Hc', Hm'. by apply insert_id.
  - intros d' Hd' ls' l'. rewrite Hls. intros [= <-] Hl' Hk. assert (l' = l) as -> by congruence.
    destruct (Hd' Hk) as (m' & Hm' & Hdes). exists d', m'. by rewrite lookup_alter_eq, Hd.
Qed.

(** What a crash in a create leaves of the list's directory. *)
Definition create_crash (name : bytes) (cfg : ListConfig) st ds : Prop :=
  ds !! name = st_dirs st !! name ∨
  ∃ d l, ds !! name = Some d ∧ NewList name (resolve_preset cfg) = Ok l ∧
    (agree (dir_of st name) d ∨ marked d ∨ synced name d (created l)).

Lemma created_empty name c l : NewList name c = Ok l → live_map (created l) = ∅.
Proof. unfold NewList. by intros ([c' an] & _ & [= <-])%bind_ok. Qed.
Lemma list_ok_inv name d s l : list_ok name d s l → inv l ∧ readOnly l = false.
Proof.
  intros [_ H]. destruct (ls_damage (m_ls s)).
  - by destruct H as (ops & Hi & (_ & Hr & _) & _).
  - by destruct H as [Hi (_ & Hr & _)].
  - done.
Qed.

Lemma swp_create name cfg st :
  sinv st → (∀ l, NewList name (resolve_preset cfg) = Ok l → stable_config l) →
  swp (CreateListVersioned name cfg) (λ _ st', sinv st' ∧ content st' = <[name := ∅]> (content st))
    (λ _, keeps st) (create_crash name cfg st) st.
Proof.
  intros Hs Hcfg. unfold CreateListVersioned. apply swp_guarded; [done|by intros e|].
  destruct (listNameRE name); cbn [negb]; [|by apply swp_throw].
  destruct (NewList name (resolve_preset cfg)) as [l|e] eqn:Hl; [|by apply swp_throw].
  set (K := λ st' ls, sinv st' ∧ content st' = content st ∧ st_dirs st' = st_dirs st ∧ st_lists st' !! name = Some ls).
  assert (∀ st' ls, K st' ls → swp (_ ← mkdir name; on_state_of name ls (createLocked name l))
    (λ _ st'', sinv st'' ∧ content st'' = <[name := ∅]> (content st)) (λ _, keeps st) (create_crash name cfg st) st') as Hrest.
  { intros st1 ls (Hs1 & Hc1 & Hd1 & Hls). apply swp_bind, swp_scall; [|by split|left; by rewrite Hd1].
    set (st2 := set_dirs _ st1).
    assert (st_dirs st2 !! name = Some (dir_of st1 name)) as Hd2 by (unfold st2; simpl; by rewrite lookup_insert_eq).
    assert (sinv st2 ∧ content st2 = content st) as [Hs2 Hc2].
    { split; [|done]. destruct Hs1 as [Hr Hi]. split; [done|]. intros n ls' l' Hn Hl'. destruct (Hi n ls' l' Hn Hl') as (d & Hd & H).
      exists d. split; [|done]. unfold st2. simpl. destruct (decide (n = name)) as [->|]; [|by rewrite lookup_insert_ne].
      rewrite lookup_insert_eq. unfold dir_of. by rewrite Hd. }
    assert (dir_of st2 name = dir_of st1 name) as Hdir by (unfold dir_of at 1; by rewrite Hd2).
    apply swp_on_state. rewrite Hdir. eapply wp_mono; [apply (wp_createLocked name (resolve_preset cfg) l); [done|done|by apply Hcfg]|..].
    - intros v d' s' (Hl' & Hk & Hsync & _).
      destruct (sinv_put name (dir_of st1 name) d' s' (created l) st2 Hs2 Hd2) as [H1 H2].
      + split; [done|]. by rewrite Hk.
      + rewrite (created_empty name _ l Hl). intros id e. by rewrite lookup_empty.
      + split; [done|]. by rewrite H2, (created_empty name _ l Hl), Hc2.
    - intros e d' s' [Hl' Hk]. simpl in Hl', Hk. destruct (ls_l ls) as [l0|] eqn:Hl0.
      + destruct Hs2 as [Hr2 Hi2]. destruct (Hi2 name ls l0) as (d & Hd & Hok & Hm); [done|done|].
        assert (d = dir_of st1 name) as -> by congruence.
        destruct (sinv_put name (dir_of st1 name) d' s' l0 st2) as [H1 H2]; [by split|done| |done|].
        { destruct Hk as [Hk|[-> Ha]]; [|by eapply (list_ok_agree name _ d')]. split; [done|]. rewrite Hk. by eapply list_ok_inv. }
        split; [done|]. rewrite H2, Hc2. apply insert_id. rewrite <-Hc2. by eapply content_lookup.
      + destruct (sinv_put_none name d' s' st2) as [H1 H2]; [done| |by rewrite Hl'|split; [done|by rewrite H2]].
        unfold content, st2. rewrite lookup_omap. simpl. rewrite Hls. simpl. by rewrite Hl0.
    - intros d' Hd'. right. exists d', l. rewrite lookup_alter_eq, Hd2. split; [done|]. split; [done|].
      unfold dir_of in Hd'. rewrite Hd1 in Hd'. destruct Hd' as [?|[?|?]]; auto. }
  unfold get_or_add. apply swp_bind, swp_bind, swp_get. destruct (st_lists st !! name) as [ls|] eqn:Hls.
  { apply swp_ret, Hrest. by split_and!. }
  apply swp_bind, swp_put, swp_ret, Hrest. destruct Hs as [Hr Hi]. split_and!; [|  |done|simpl; by rewrite lookup_insert_eq].
  - split; [done|]. intros n ls l'. simpl. destruct (decide (n = name)) as [->|]; [|rewrite lookup_insert_ne by done; apply Hi].
    rewrite lookup_insert_eq. by intros [= <-].
  - apply map_eq. intros n. unfold content. rewrite !lookup_omap. simpl. destruct (decide (n = name)) as [->|].
    + by rewrite lookup_insert_eq, Hls.
    + by rewrite lookup_insert_ne.
Qed.

(** ** Histories *)

(** What an acknowledged request makes of the content; a fold changes nothing. *)
Definition spec_request (r : request) (v : gmap bytes (gmap bytes Entry)) : gmap bytes (gmap bytes Entry) :=
  match r with
  | RCreate n _ => <[n := ∅]> v
  | RUpsert n es | RUpsertGen n _ es => alter (spec_mutation (SUpsert es)) n v
  | RDelete n id => alter (spec_mutation (SDelete id)) n v
  | RReplace n es => alter (spec_mutation (SReplace es)) n v
  | RCompact _ | RReload _ | RFold _ _ | RClose => v
  end.

(** The requests of a client: their configurations and entries are encoded and
    decoded faithfully.  A reload installs what an operator has put in the directory
    and has no place in a history of the store's own writes. *)
Definition client_request (r : request) : Prop :=
  match r with
  | RCreate n cfg => ∀ l, NewList n (resolve_preset cfg) = Ok l → stable_config l
  | RUpsert _ es | RUpsertGen _ _ es => stable_mutation (SUpsert es)
  | RDelete _ id => stable_mutation (SDelete id)
  | RReplace _ es => stable_mutation (SReplace es)
  | RCompact _ | RFold _ _ | RClose => True
  | RReload _ => False
  end.

Definition request_crash (r : request) st ds : Prop :=
  same_dirs (target r) st ds ∧
  match r with
  | RCreate n cfg => create_crash n cfg st ds
  | RUpsert n es | RUpsertGen n _ es => mutation_crash n (SUpsert es) st ds
  | RDelete n id => mutation_crash n (SDelete id) st ds
  | RReplace n es => mutation_crash n (SReplace es) st ds
  | RCompact n | RFold n _ => mutation_crash n SCompact st ds
  | RReload _ | RClose => True
  end.

Lemma swp_exported {A} o name (m : sop A) v st D :
  sinv st → swp m (λ _ st', sinv st' ∧ content st' = v) (λ _, keeps st) D st →
  swp (unversioned o name m) (λ _ st', sinv st' ∧ content st' = v) (λ _, keeps st) D st.
Proof. intros [Hr _] H. by apply swp_unversioned. Qed.

Lemma swp_fold name thr st :
  sinv st → swp (background_fold name thr) (λ _, keeps st) (λ _ _, False) (mutation_crash name SCompact st) st.
Proof.
  intros Hs. unfold background_fold. apply swp_bind, swp_get. destruct (st_lists st !! name) as [ls|] eqn:Hls; [|by apply swp_ret].
  destruct (autoCompacting ls); [|by apply swp_ret].
  assert (∀ st', keeps st st' → swp (clear_compacting name) (λ _, keeps st) (λ _ _, False) (mutation_crash name SCompact st) st') as Hclear.
  { intros st' [[Hr' Hi'] Hc']. apply swp_put. split; [split; [done|]|].
    - intros n ls' l. simpl. destruct (decide (n = name)) as [->|]; [|rewrite lookup_alter_ne by done; apply Hi'].
      rewrite lookup_alter_eq. destruct (st_lists st' !! name) as [ls0|] eqn:H0; [|done]. intros [= <-] Hl.
      destruct (Hi' name ls0 l H0 Hl) as (d & Hd & Hok & Hm). exists d. split_and!; [done| |done].
      by apply (list_ok_flags name d ls0).
    - rewrite <-Hc'. apply map_eq. intros n. unfold content. rewrite !lookup_omap. simpl.
      destruct (decide (n = name)) as [->|]; [|by rewrite lookup_alter_ne]. rewrite lookup_alter_eq.
      by destruct (st_lists st' !! name). }
  apply swp_bind. destruct (fold_due thr ls); [|by apply swp_ret, Hclear].
  apply swp_bind, swp_try. eapply swp_mono.
  - apply (swp_exported _ _ _ (alter (spec_mutation SCompact) name (content st)) st); [done|].
    apply (swp_mutator _ name SCompact); [done|done|]. intros _. by apply mutates_drop, (run_mutation_mutates FsyncNone).
  - intros _ st' [H1 H2]. apply swp_ret, Hclear. split; [done|]. rewrite H2. apply map_eq. intros n.
    destruct (decide (n = name)) as [->|]; [|by rewrite lookup_alter_ne]. rewrite lookup_alter_eq. by destruct (content st !! name).
  - intros e st' Hk. by apply swp_ret, Hclear.
  - done.
Qed.

Lemma swp_serve r st :
  sinv st → client_request r →
  swp (serve r) (λ _ st', sinv st' ∧ content st' = spec_request r (content st)) (λ _, keeps st) (request_crash r st) st.
Proof.
  intros Hs Hr. eapply swp_mono; [apply swp_and; [apply (serve_confined r st)|]|..].
  2:{ intros a st' [_ H]. exact H. }
  2:{ intros e st' [_ H]. exact H. }
  2:{ intros ds [H1 H2]. split; [exact H1|exact H2]. }
  destruct r as [n cfg|n es|n g es|n id|n es|n|n|n thr|]; simpl in Hr; try done.
  - apply swp_exported; [done|]. by apply swp_create.
  - apply swp_exported, swp_mutator; [done..|]. intros mode. by apply mutates_drop, (run_mutation_mutates mode).
  - apply swp_exported, swp_mutator; [done..|]. intros mode. by apply mutates_gen.
  - apply swp_exported, (swp_mutator _ n (SDelete id)); [done..|]. intros mode. by apply mutates_drop, (run_mutation_mutates mode).
  - apply swp_exported, (swp_mutator _ n (SReplace es)); [done..|]. intros mode. by apply mutates_drop, (run_mutation_mutates mode).
  - eapply swp_mono; [apply (swp_exported _ _ _ (alter (spec_mutation SCompact) n (content st)) st); [done|]| |done|done].
    + apply (swp_mutator _ n SCompact); [done..|]. intros mode. by apply mutates_drop, (run_mutation_mutates mode).
    + intros _ st' [H1 ->]. split; [done|]. cbn [spec_request]. apply map_eq. intros k. destruct (decide (k = n)) as [->|]; [|by rewrite lookup_alter_ne].
      rewrite lookup_alter_eq. by destruct (content st !! n).
  - eapply swp_mono; [by apply (swp_fold n thr)| |done|done]. intros _ st' [H1 H2]. by split.
Qed.

(** The content after the acknowledged requests of a history. *)
Fixpoint acked_requests (rs : list request) (oks : list bool) (v : gmap bytes (gmap bytes Entry)) : gmap bytes (gmap bytes Entry) :=
  match rs, oks with
  | r :: rs', ok :: oks' => acked_requests rs' oks' (if (ok : bool) then spec_request r v else v)
  | _, _ => v
  end.

(** Where a history stands when the process dies: after some requests, in the next. *)
Definition died_in (rs : list request) (v : gmap bytes (gmap bytes Entry)) (finished : list request) (r : request) (oks : list bool) st1 : Prop :=
  (∃ later, rs = finished ++ r :: later) ∧ length oks = length finished ∧ sinv st1 ∧ content st1 = acked_requests finished oks v.

Lemma swp_serve_all rs st :
  sinv st → Forall client_request rs →
  swp (serve_all rs)
    (λ oks st', length oks = length rs ∧ sinv st' ∧ content st' = acked_requests rs oks (content st)) (λ _ _, False)
    (λ ds, ∃ finished r oks st1, died_in rs (content st) finished r oks st1 ∧ request_crash r st1 ds) st.
Proof.
  intros Hs Hrs. revert st Hs. induction Hrs as [|r rs Hr Hrs IH]; intros st Hs; [by apply swp_ret|].
  cbn [serve_all]. apply swp_bind, swp_try.
  assert (∀ a st1, sinv st1 → content st1 = (if (is_ok a : bool) then spec_request r (content st) else content st) →
    swp (oks ← serve_all rs; mret (is_ok (a : result store_error ()) :: oks))
      (λ oks st', length oks = length (r :: rs) ∧ sinv st' ∧ content st' = acked_requests (r :: rs) oks (content st)) (λ _ _, False)
      (λ ds, ∃ finished r0 oks st1, died_in (r :: rs) (content st) finished r0 oks st1 ∧ request_crash r0 st1 ds) st1) as Hnext.
  { intros a st1 Hs1 Hc1. apply swp_bind. eapply swp_mono; [by apply IH| |done|].
    - intros oks st2 (Hlen & Hs2 & Hc2). apply swp_ret. split_and!; [simpl; by rewrite Hlen|done|]. simpl. by rewrite Hc2, Hc1.
    - intros ds (fin & r0 & oks & st2 & ((later & ->) & Hlen & Hs2 & Hc2) & Hcr). exists (r :: fin), r0, (is_ok a :: oks), st2.
      split; [|done]. split_and!; [by exists later|simpl; by rewrite Hlen|done|]. simpl. by rewrite Hc2, Hc1. }
  eapply swp_mono; [by apply swp_serve|..].
  - intros [] st1 [H1 H2]. by apply (Hnext (Ok ())).
  - intros e st1 [H1 H2]. by apply (Hnext (Err e)).
  - intros ds Hds. exists [], r, [], st. split; [|done]. split_and!; [by exists rs|done|done|done].
Qed.
End history.
