(* ===== verification/StoreAllOpen.v ===== *)
(** Opening a data directory: every list opens as it would alone, and a store that
    died comes back with what it had acknowledged. *)

From S2P Require Import Prelude.
From S2P Require Import Runtime.
From S2P Require Import Analyzer.
From S2P Require Import Score.
From S2P Require Import Bitmap.
From S2P Require Import Types.
From S2P Require Import ListConfig.
From S2P Require Import Segment.
From S2P Require Import ListModel.
From S2P Require Import ListRefine.
From S2P Require Import Journal.
From S2P Require Import Disk.
From S2P Require Import Store.
From S2P Require Import StoreSpec.
From S2P Require Import StoreInv.
From S2P Require Import StoreOps.
From S2P Require Import StoreOpen.
From S2P Require Import StoreHistory.
From S2P Require Import StoreLive.
From S2P Require Import StoreAll.
From S2P Require Import StoreAllSpec.
From S2P Require Import StoreAllHistory.

Section open.
Context {RT : GoRuntime} {TL : TextLib} {BL : BitmapLib} {FO : FloatOps} {DL : DigestLib} {CD : Codec} {AC : ArtifactCodec}.
Implicit Types (st : StoreAll.Store) (ds : gmap bytes dir) (ls : listState) (l : GoList) (name : bytes).

(** [sruns m Q st]: without faults [m] returns a value that satisfies [Q]. *)
Definition sruns {A} (m : sop A) (Q : A → StoreAll.Store → Prop) st : Prop :=
  match m (st, []) with (Ret a, (st', fs)) => fs = [] ∧ Q a st' | _ => False end.
Lemma sruns_ret {A} (a : A) (Q : A → StoreAll.Store → Prop) st : Q a st → sruns (mret a) Q st.
Proof. done. Qed.
Lemma sruns_bind {A B} (m : sop A) (f : A → sop B) (Q : B → StoreAll.Store → Prop) st :
  sruns m (λ a, sruns (f a) Q) st → sruns (m ≫= f) Q st.
Proof. unfold sruns at 1 3, mbind, sop_bind. destruct (m _) as [[a| |] [st' fs]]; [|done..]. by intros [-> H]. Qed.
Lemma sruns_mono {A} (m : sop A) (Q Q' : A → StoreAll.Store → Prop) st :
  sruns m Q st → (∀ a st', Q a st' → Q' a st') → sruns m Q' st.
Proof. unfold sruns. intros H HQ. destruct (m _) as [[] []]; naive_solver. Qed.

(** ** One directory *)

(** What [openList] alone, without faults, does to a swept directory. *)
Definition alone (name : bytes) (d : dir) (r : result store_error GoList) (d' : dir) (s' : memory) : Prop :=
  ∃ q, openList name (mkWorld (sweepTempFiles d) [] (mkMemory new_state q)) =
    (match r with Ok l => Ret l | Err e => Fail e end, mkWorld d' [] s').
Definition opened (name : bytes) (r : result store_error GoList) (d' : dir) (s' : memory) st : Prop :=
  st_dirs st !! name = Some d' ∧
  match r with
  | Ok l => st_lists st !! name = Some (swap_l l (m_ls s'))
  | Err e => st_lists st !! name = None ∧ (name, e) ∈ st_Skipped st
  end.

Lemma settles_put f : settles (put_mem f : op ()).
Proof. by intros d s. Qed.
Lemma settles_replay name ops jh l : settles (replay_journal name ops jh l).
Proof. unfold replay_journal, remove, rename, quarantine. settles. apply settles_put. Qed.
Lemma settles_openList name : settles (openList name).
Proof.
  unfold openList, stat, read_file. settles.
  - unfold open_base, read_optional, installWithArtifact, read_file. settles. apply settles_saveArtifact.
  - unfold truncate. settles; apply settles_replay.
  - apply settles_replay.
Qed.

Lemma open_alone name st d :
  st_dirs st !! name = Some d →
  sruns (open_one name) (λ _ st', ∃ r d' s', alone name d r d' s' ∧ opened name r d' s' st' ∧
    same_elsewhere (Some name) st st' ∧ (∀ x, x ∈ st_Skipped st → x ∈ st_Skipped st')) st.
Proof.
  intros Hd. pose proof (settles_openList name (sweepTempFiles d) (mkMemory new_state (st_Quarantined st))) as Hs.
  unfold runs in Hs. unfold sruns, open_one, stry, on_state_of, mbind, sop_bind, io_bind, syscall, put_mem. simpl.
  unfold dir_of. rewrite Hd. simpl. unfold alone.
  destruct (openList name _) as [[l|e|] [d' fs' s']] eqn:Ho; simpl in Hs; [|destruct Hs as [-> _]|done].
  - destruct Hs as [-> _]. split; [done|]. exists (Ok l), d', s'. split; [by eexists|]. split; [split; simpl|].
    + by rewrite lookup_alter_eq, Hd.
    + by rewrite lookup_insert_eq.
    + split; [apply put_back_elsewhere|done].
  - split; [done|]. exists (Err e), d', s'. split; [by eexists|]. split; [split; simpl|].
    + by rewrite lookup_alter_eq, Hd.
    + rewrite lookup_delete_eq. split; [done|]. set_solver.
    + split; [|simpl; set_solver]. split; intros n Hn; simpl.
      * apply lookup_alter_ne. congruence.
      * rewrite lookup_delete_ne, lookup_insert_ne by congruence. done.
Qed.

Lemma opened_elsewhere name name' r d' s' st st' :
  opened name r d' s' st → name ≠ name' → same_elsewhere (Some name') st st' → (∀ x, x ∈ st_Skipped st → x ∈ st_Skipped st') →
  opened name r d' s' st'.
Proof.
  intros [Hd Hr] Hn [He1 He2] Hs. assert (Some name' ≠ Some name) as Hn' by congruence. split; [by rewrite He1|].
  rewrite (He2 name Hn'). destruct r as [l|e]; [done|]. destruct Hr. auto.
Qed.

(** ** The data directory *)

Lemma sruns_open_each names st :
  NoDup names → (∀ n, n ∈ names → is_Some (st_dirs st !! n)) →
  sruns (open_each names) (λ _ st',
    (∀ n d, n ∈ names → st_dirs st !! n = Some d → ∃ r d' s', alone n d r d' s' ∧ opened n r d' s' st') ∧
    (∀ n, n ∉ names → st_dirs st' !! n = st_dirs st !! n ∧ st_lists st' !! n = st_lists st !! n) ∧
    ∀ x, x ∈ st_Skipped st → x ∈ st_Skipped st') st.
Proof.
  intros Hnd. revert st. induction Hnd as [|n names Hn Hnd IH]; intros st Hd.
  { apply sruns_ret. split_and!; [by intros n d ?%elem_of_nil|done|done]. }
  cbn [open_each]. destruct (Hd n) as [d Hdn]; [by left|]. apply sruns_bind.
  eapply sruns_mono; [by apply open_alone|]. intros _ st1 (r & d' & s' & Ha & Ho & Hel & Hsk).
  assert (∀ n', n' ∈ names → st_dirs st1 !! n' = st_dirs st !! n') as Hsame.
  { intros n' Hn'. destruct Hel as [He _]. apply He. intros [= ->]. done. }
  eapply sruns_mono; [apply IH|].
  { intros n' Hn'. rewrite Hsame by done. apply Hd. by right. }
  intros _ st2 (H1 & H2 & H3). split_and!.
  - intros n' dn [->|Hn']%elem_of_cons Hdn'.
    + assert (dn = d) as -> by congruence. exists r, d', s'. split; [done|]. destruct (H2 n Hn) as [H4 H5]. destruct Ho as [Ho1 Ho2].
      split; [by rewrite H4|]. rewrite H5. destruct r as [l|e]; [done|]. destruct Ho2. auto.
    + apply H1; [done|]. by rewrite Hsame.
  - intros n' [Hne Hn']%not_elem_of_cons. destruct (H2 n' Hn') as [-> ->]. destruct Hel as [He1 He2]. split; [apply He1|apply He2]; congruence.
  - auto.
Qed.

Lemma sruns_open mode ds :
  sruns Open (λ _ st', ∀ name,
    match ds !! name with
    | Some d => ∃ r d' s', alone name d r d' s' ∧ opened name r d' s' st'
    | None => st_lists st' !! name = None
    end) (fresh_store mode ds).
Proof.
  change (sruns (open_each (sort_slice (less_by id) (range_map 0 ds).*1)) (λ _ st', ∀ name,
    match ds !! name with
    | Some d => ∃ r d' s', alone name d r d' s' ∧ opened name r d' s' st'
    | None => st_lists st' !! name = None
    end) (fresh_store mode ds)).
  assert (∀ n, n ∈ sort_slice (less_by id) (range_map 0 ds).*1 ↔ is_Some (ds !! n)) as Hin.
  { intros n. rewrite sort_slice_perm, range_map_perm, list_elem_of_fmap. split.
    - intros ([k v] & -> & Hkv%elem_of_map_to_list). by eexists.
    - intros [v Hv]. exists (n, v). by rewrite elem_of_map_to_list. }
  eapply sruns_mono; [apply sruns_open_each|].
  - rewrite sort_slice_perm. apply range_nodup.
  - intros n Hn. by apply Hin.
  - intros _ st' (H1 & H2 & _) name. destruct (ds !! name) as [d|] eqn:Hd.
    + apply H1; [apply Hin; by eexists|done].
    + destruct (H2 name) as [_ H]; [|exact H]. rewrite Hin, Hd. by intros [].
Qed.

Lemma alone_runs name d r d' s' (Q : GoList → dir → memory → Prop) (X : store_error → dir → memory → Prop) :
  alone name d r d' s' → (∀ q, runs (openList name) Q X (sweepTempFiles d) (mkMemory new_state q)) →
  match r with Ok l => Q l d' s' | Err e => X e d' s' end.
Proof.
  intros [q Hq] H. specialize (H q). unfold runs in H. rewrite Hq in H. destruct r; [apply H|apply H].
Qed.

(** C13: one bad directory never blocks another.  When no system call fails, [Open]
    treats every list directory as if it were alone: whatever [openList] establishes
    for it, after the sweep of temporary files, holds of the list that is served
    under its name, or of the skip that is recorded with its reason; and only names
    with a directory are served. *)
Theorem open_serves mode ds :
  sruns Open (λ _ st', ∀ name,
    match ds !! name with
    | Some d => ∀ (Q : GoList → dir → memory → Prop) (X : store_error → dir → memory → Prop),
        (∀ q, runs (openList name) Q X (sweepTempFiles d) (mkMemory new_state q)) →
        ∃ d' s', st_dirs st' !! name = Some d' ∧
          ((∃ l, st_lists st' !! name = Some (swap_l l (m_ls s')) ∧ Q l d' s') ∨
           (∃ e, st_lists st' !! name = None ∧ (name, e) ∈ st_Skipped st' ∧ X e d' s'))
    | None => st_lists st' !! name = None
    end) (fresh_store mode ds).
Proof.
  eapply sruns_mono; [apply sruns_open|]. intros [] st' H name. specialize (H name). destruct (ds !! name) as [d|]; [|done].
  intros Q X Hrun. destruct H as (r & d' & s' & Ha & Hd & Ho). exists d', s'. split; [done|].
  pose proof (alone_runs name d r d' s' Q X Ha Hrun) as HQ. destruct r as [l|e]; [left; by exists l|right]. destruct Ho. by exists e.
Qed.

(** ** A store that died comes back *)

Context (digest_ne : ∀ b, sha256 b ≠ []) (threshold_ok : default_threshold_ok).

Lemma open_restores mode ds name d l :
  ds !! name = Some d → synced name d l → rebuildable l →
  sruns Open (λ _ st', ∃ ls' l', st_lists st' !! name = Some ls' ∧ ls_l ls' = Some l' ∧ ls_damage ls' = damageNone ∧
    live_map l' = live_map l ∧ version (snap l') = version (snap l)) (fresh_store mode ds).
Proof.
  intros Hd Hs Hr. eapply sruns_mono; [apply sruns_open|]. intros [] st' H. specialize (H name). rewrite Hd in H.
  destruct H as (r & d' & s' & Ha & Hd' & Ho).
  assert (synced name (sweepTempFiles d) l) as Hsw by (eapply synced_same; [done|by apply agree_with_journal, sweep_agree]).
  pose proof (alone_runs name d r d' s' (λ l' _ s', ls_damage (m_ls s') = damageNone ∧ live_map l' = live_map l ∧ version (snap l') = version (snap l))
    (λ _ _ _, False) Ha) as HQ.
  destruct r as [l'|e].
  - destruct HQ as (Hk & Hm & Hv); [|by exists (swap_l l' (m_ls s')), l'].
    intros q. eapply runs_mono; [by apply (runs_restart digest_ne name _ _ l)| |done].
    by intros l1 d1 s1 (-> & _ & _ & ? & ? & _).
  - destruct HQ. intros q. eapply runs_mono; [by apply (runs_restart digest_ne name _ _ l)| |done].
    by intros l1 d1 s1 (-> & _ & _ & ? & ? & _).
Qed.

(** The data directory after a death: in some request, after others with these
    results; and what opening it gives. *)
Definition comes_back (mode : FsyncMode) (rs : list request) (v : gmap bytes (gmap bytes Entry)) ds : Prop :=
  ∃ finished r oks st1, died_in rs v finished r oks st1 ∧ request_crash r st1 ds ∧
    ∀ name ls l, target r ≠ Some name → st_lists st1 !! name = Some ls → ls_l ls = Some l →
      ls_damage ls = damageNone → rebuildable l →
      sruns Open (λ _ st2, ∃ ls2 l2, st_lists st2 !! name = Some ls2 ∧ ls_l ls2 = Some l2 ∧ ls_damage ls2 = damageNone ∧
        content st1 !! name = Some (live_map l2) ∧ version (snap l2) = version (snap l)) (fresh_store mode ds).

End open.
