(* ===== verification/Lifecycle.v ===== *)
(** The concurrency of [engine/store.go]: admission ([beginOp], [endOp], [spawnBG]),
    the per-list locks, the background folds, the group committer
    ([groupCommit], [fsyncCommitter]) and [Close], as an interleaving of atomic steps.

    What a mutation does while it holds its list's lock is a program of system calls
    ([prog]): the theorems hold for every program, and [append_prog] is the journal
    append of [appendJournal].  A run is a sequence of scheduling choices ([act]),
    each executed by [exec], which is partial: a choice that is not enabled is
    [None].  Critical sections under [st.mu] do no I/O and are one step each. *)

From stdpp Require Import relations.
From S2P Require Import Prelude.
From S2P Require Import Store.

Abbreviation tid := nat.

(** ** Programs under a list's lock *)

(** The journal of a list: its bytes, those a completed fsync covers, and the offset
    [start] that [appendJournal] keeps for its rollback. *)
Record jfile := mkJfile { j_data : bytes; j_synced : bytes; j_start : nat }.
Definition no_journal : jfile := mkJfile [] [] 0.

Inductive jcall :=
  | Seek               (* the end of the journal becomes [start] *)
  | Append (b : bytes) (* a write at the end *)
  | Rollback           (* truncation to [start] *)
  | Empty              (* truncation to zero *)
  | Sync               (* fsync of the journal *)
  | Other.             (* a call on another file of the directory, open, close *)

(** The effect of a call that works, or that fails after [n] bytes. *)
Definition jrun (c : jcall) (ok : bool) (n : nat) (f : jfile) : jfile :=
  match c, ok with
  | Seek, true => mkJfile (j_data f) (j_synced f) (length (j_data f))
  | Append b, true => mkJfile (j_data f ++ b) (j_synced f) (j_start f)
  | Append b, false => mkJfile (j_data f ++ take n b) (j_synced f) (j_start f)
  | Rollback, true => mkJfile (take (j_start f) (j_data f)) (j_synced f) (j_start f)
  | Empty, true => mkJfile [] (j_synced f) (j_start f)
  | Sync, true => mkJfile (j_data f) (j_data f) (j_start f)
  | _, _ => f
  end.

Inductive prog :=
  | Done (ok : bool)                        (* the call's result *)
  | Call (c : jcall) (k : bool → prog)      (* a system call *)
  | Commit (k : bool → prog)                (* [groupCommit] of the list's journal *)
  | Schedule (fold : prog) (k : prog).      (* [maybeAutoCompact], the threshold reached *)

(** [appendJournal], then [k]; a failure after bytes may have been written rolls
    the file back. *)
Definition roll (is_open : bool) : prog := Call Rollback (λ _, if is_open then Call Other (λ _, Done false) else Done false).
Definition commit_prog (mode : FsyncMode) (k : prog) : prog :=
  match mode with FsyncInterval => Commit (λ ok, if ok then k else roll false) | _ => k end.
Definition close_prog (mode : FsyncMode) (k : prog) : prog :=
  Call Other (λ ok, if ok then commit_prog mode k else roll false).
Definition sync_prog (mode : FsyncMode) (k : prog) : prog :=
  match mode with FsyncEvery => Call Sync (λ ok, if ok then close_prog mode k else roll true) | _ => close_prog mode k end.
Definition append_prog (mode : FsyncMode) (buf : bytes) (k : prog) : prog :=
  Call Other (λ ok, if negb ok then Done false else
    Call Seek (λ ok, if negb ok then Call Other (λ _, Done false) else
      Call (Append buf) (λ ok, if ok then sync_prog mode k else roll true))).
(** What follows the append: the commit in memory and [maybeAutoCompact], which
    schedules the compaction [fold] when the threshold is reached. *)
Definition finish_prog (fold : option prog) : prog := match fold with Some f => Schedule f (Done true) | None => Done true end.
(** The body of an upsert or a delete. *)
Definition mutation_prog (mode : FsyncMode) (buf : bytes) (fold : option prog) : prog := append_prog mode buf (finish_prog fold).

(** [n] calls on other files, the first failure ends the body. *)
Fixpoint others (n : nat) (k : prog) : prog :=
  match n with O => k | S n => Call Other (λ ok, if ok then others n k else Done false) end.
(** The body of [CompactVersioned]: the new base, then the truncation of the journal
    and its fsync, and last the index artifact, whose failure is not one of the
    compaction. *)
Definition compact_prog (n : nat) : prog :=
  others n (Call Empty (λ ok, if ok then Call Sync (λ ok, if ok then Call Other (λ _, Done true) else Done false) else Done false)).

(** ** Threads *)

(** A mutator's call: its list, whether the checks before the lock let it pass, and
    its body under the lock. *)
Record call := mkCall { c_list : bytes; c_passes : bool; c_body : prog }.

(** The requests of a store: upserts and deletes with the records they append and,
    when the threshold is reached, the calls of the compaction they schedule; and
    compactions. *)
Inductive request :=
  | Mutate (l : bytes) (passes : bool) (buf : bytes) (due : option nat)
  | Compaction (l : bytes) (passes : bool) (n : nat).
Definition call_of (mode : FsyncMode) (r : request) : call :=
  match r with
  | Mutate l passes buf due => mkCall l passes (mutation_prog mode buf (compact_prog <$> due))
  | Compaction l passes n => mkCall l passes (compact_prog n)
  end.

Inductive pc :=
  | Woken               (* a background goroutine that has not run yet *)
  | Calling             (* before [beginOp] *)
  | Entered            (* holds a slot; before the lock *)
  | Running (p : prog)  (* holds the lock *)
  | Sending (k : bool → prog)   (* in [groupCommit], before the send *)
  | Waiting (k : bool → prog)   (* in [groupCommit], after it *)
  | Unlocked (ok : bool)        (* the lock is released; before [endOp] *)
  | Returned (ok : bool)
  | Refused             (* [ErrStoreClosed] *)
  | Cleared             (* a background goroutine that has cleared [autoCompacting] *)
  | Ended.              (* and given its slot back *)

(** [t_fold]: the goroutine of a scheduled fold, which calls [Compact]. *)
Record thread := mkThread { t_fold : bool; t_call : call; t_pc : pc }.

(** A caller of [Close]. *)
Inductive closer := CloseCall | AwaitDone | Draining | Stopping | CloseReturned.

(** The goroutine of [fsyncCommitter]: not started; in its [select], with the
    waiters per file and whether the timer is armed; flushing, and whether it stops
    after that; returned. *)
Inductive committer :=
  | NotStarted
  | Selecting (pending : gmap bytes (list tid)) (armed : bool)
  | Flushing (todo : gmap bytes (list tid)) (stopping : bool)
  | Stopped.

Record state := mkState {
  s_closed : bool;                   (* [closed] *)
  s_done : bool;                     (* [closeDone] is closed *)
  s_stop : bool;                     (* [fsyncStop] is closed *)
  s_ops : nat;                       (* the counter of [ops] *)
  s_locks : gmap bytes tid;          (* who holds [listState.lock] *)
  s_compacting : gset bytes;         (* the lists whose [autoCompacting] is set *)
  s_files : gmap bytes jfile;
  s_committer : committer;
  s_answers : gmap tid bool;         (* what the [done] channels hold *)
  s_threads : gmap tid thread;
  s_closers : gmap nat closer }.

Definition file (s : state) (n : bytes) : jfile := default no_journal (s_files s !! n).

Definition set_threads (ths : gmap tid thread) (s : state) : state :=
  mkState (s_closed s) (s_done s) (s_stop s) (s_ops s) (s_locks s) (s_compacting s) (s_files s) (s_committer s) (s_answers s) ths (s_closers s).
Definition set_ops (n : nat) (s : state) : state :=
  mkState (s_closed s) (s_done s) (s_stop s) n (s_locks s) (s_compacting s) (s_files s) (s_committer s) (s_answers s) (s_threads s) (s_closers s).
Definition set_locks (l : gmap bytes tid) (s : state) : state :=
  mkState (s_closed s) (s_done s) (s_stop s) (s_ops s) l (s_compacting s) (s_files s) (s_committer s) (s_answers s) (s_threads s) (s_closers s).
Definition set_folds (c : gset bytes) (s : state) : state :=
  mkState (s_closed s) (s_done s) (s_stop s) (s_ops s) (s_locks s) c (s_files s) (s_committer s) (s_answers s) (s_threads s) (s_closers s).
Definition set_file (n : bytes) (f : jfile) (s : state) : state :=
  mkState (s_closed s) (s_done s) (s_stop s) (s_ops s) (s_locks s) (s_compacting s) (<[n := f]> (s_files s)) (s_committer s) (s_answers s) (s_threads s) (s_closers s).
Definition set_committer (c : committer) (s : state) : state :=
  mkState (s_closed s) (s_done s) (s_stop s) (s_ops s) (s_locks s) (s_compacting s) (s_files s) c (s_answers s) (s_threads s) (s_closers s).
Definition set_answers (a : gmap tid bool) (s : state) : state :=
  mkState (s_closed s) (s_done s) (s_stop s) (s_ops s) (s_locks s) (s_compacting s) (s_files s) (s_committer s) a (s_threads s) (s_closers s).
Definition set_close (closed done stop : bool) (cs : gmap nat closer) (s : state) : state :=
  mkState closed done stop (s_ops s) (s_locks s) (s_compacting s) (s_files s) (s_committer s) (s_answers s) (s_threads s) cs.

Definition goto (t : tid) (th : thread) (p : pc) (s : state) : state :=
  set_threads (<[t := mkThread (t_fold th) (t_call th) p]> (s_threads s)) s.

(** ** Steps *)

Inductive act :=
  | Begin (t : tid)                            (* [beginOp] *)
  | Lock (t : tid)                             (* the checks before the lock, and the lock *)
  | Step (t : tid) (ok : bool) (n : nat)       (* one step of the body *)
  | Spawn (t t' : tid)                         (* [Schedule]: the fold runs as [t'] *)
  | Send (t : tid)                             (* the request reaches the committer *)
  | Answer (t : tid)                           (* [<-req.done] *)
  | Unlock (t : tid)
  | End (t : tid)                              (* [endOp] *)
  | Wake (t : tid) (due : bool)                (* a fold re-checks the threshold *)
  | Clear (t : tid)
  | Fire                                       (* the timer *)
  | Flush (n : bytes) (ok : bool)              (* one file of a flush *)
  | Flushed
  | StopSignal                                 (* the committer sees [fsyncStop] *)
  | CloseStep (c : nat).

Definition start_committer (c : committer) : committer := match c with NotStarted => Selecting ∅ false | c => c end.
Definition enqueue (n : bytes) (t : tid) (p : gmap bytes (list tid)) : gmap bytes (list tid) :=
  <[n := default [] (p !! n) ++ [t]]> p.
Definition answer_all (ok : bool) (ws : list tid) (a : gmap tid bool) : gmap tid bool := foldr (λ t, <[t := ok]>) a ws.
Definition sync_file (ok : bool) (n : bytes) (s : state) : state := set_file n (jrun Sync ok 0 (file s n)) s.

(** One step of a body: a system call, or the start of a group commit, which starts
    the committer the first time. *)
Definition exec_body (t : tid) (th : thread) (p : prog) (ok : bool) (n : nat) (s : state) : option state :=
  let l := c_list (t_call th) in
  match p with
  | Call c k => Some (goto t th (Running (k ok)) (set_file l (jrun c ok n (file s l)) s))
  | Commit k => Some (goto t th (Sending k) (set_committer (start_committer (s_committer s)) s))
  | _ => None
  end.

(** [maybeAutoCompact] once the threshold is reached: nothing if a fold of the list
    is in flight or the store is closed, else a goroutine with a slot of its own. *)
Definition exec_schedule (t t' : tid) (th : thread) (fold k : prog) (s : state) : option state :=
  let l := c_list (t_call th) in
  if bool_decide (l ∈ s_compacting s) || s_closed s then Some (goto t th (Running k) s)
  else match s_threads s !! t' with
       | Some _ => None
       | None =>
           let s := goto t th (Running k) s in
           Some (set_threads (<[t' := mkThread true (mkCall l true fold) Woken]> (s_threads s))
                   (set_folds ({[l]} ∪ s_compacting s) (set_ops (S (s_ops s)) s)))
       end.

(** [Close] *)
Definition exec_close (c : nat) (cl : closer) (s : state) : option state :=
  let go cl closed done stop := Some (set_close closed done stop (<[c := cl]> (s_closers s)) s) in
  match cl with
  | CloseCall => if s_closed s then go AwaitDone true (s_done s) (s_stop s) else go Draining true (s_done s) (s_stop s)
  | AwaitDone => if s_done s then go CloseReturned (s_closed s) true (s_stop s) else None
  | Draining =>
      if s_ops s =? 0 then
        match s_committer s with
        | NotStarted => go CloseReturned (s_closed s) true (s_stop s)
        | _ => go Stopping (s_closed s) (s_done s) true
        end
      else None
  | Stopping => match s_committer s with Stopped => go CloseReturned (s_closed s) true (s_stop s) | _ => None end
  | CloseReturned => None
  end.

Definition exec (a : act) (s : state) : option state :=
  match a with
  | Begin t =>
      th ← s_threads s !! t;
      match t_pc th with
      | Calling => Some (if s_closed s then goto t th Refused s else goto t th Entered (set_ops (S (s_ops s)) s))
      | _ => None
      end
  | Lock t =>
      th ← s_threads s !! t;
      match t_pc th with
      | Entered =>
          let l := c_list (t_call th) in
          if negb (c_passes (t_call th)) then Some (goto t th (Unlocked false) s)
          else match s_locks s !! l with
               | Some _ => None
               | None => Some (goto t th (Running (c_body (t_call th))) (set_locks (<[l := t]> (s_locks s)) s))
               end
      | _ => None
      end
  | Step t ok n => th ← s_threads s !! t; match t_pc th with Running p => exec_body t th p ok n s | _ => None end
  | Spawn t t' =>
      th ← s_threads s !! t; match t_pc th with Running (Schedule f k) => exec_schedule t t' th f k s | _ => None end
  | Send t =>
      th ← s_threads s !! t;
      match t_pc th, s_committer s with
      | Sending k, Selecting p _ =>
          Some (goto t th (Waiting k) (set_committer (Selecting (enqueue (c_list (t_call th)) t p) true) s))
      | _, _ => None
      end
  | Answer t =>
      th ← s_threads s !! t; ok ← s_answers s !! t;
      match t_pc th with
      | Waiting k => Some (goto t th (Running (k ok)) (set_answers (delete t (s_answers s)) s))
      | _ => None
      end
  | Unlock t =>
      th ← s_threads s !! t;
      match t_pc th with
      | Running (Done ok) => Some (goto t th (Unlocked ok) (set_locks (delete (c_list (t_call th)) (s_locks s)) s))
      | _ => None
      end
  | End t =>
      th ← s_threads s !! t;
      match t_pc th with
      | Unlocked ok => Some (goto t th (Returned ok) (set_ops (pred (s_ops s)) s))
      | Cleared => Some (goto t th Ended (set_ops (pred (s_ops s)) s))
      | _ => None
      end
  | Wake t due =>
      th ← s_threads s !! t;
      match t_pc th with Woken => Some (goto t th (if due then Calling else Returned false) s) | _ => None end
  | Clear t =>
      th ← s_threads s !! t;
      match t_fold th, t_pc th with
      | true, (Returned _ | Refused) => Some (goto t th Cleared (set_folds (s_compacting s ∖ {[c_list (t_call th)]}) s))
      | _, _ => None
      end
  | Fire => match s_committer s with Selecting p true => Some (set_committer (Flushing p false) s) | _ => None end
  | Flush n ok =>
      match s_committer s with
      | Flushing todo st =>
          ws ← todo !! n;
          Some (set_answers (answer_all ok ws (s_answers s)) (set_committer (Flushing (delete n todo) st) (sync_file ok n s)))
      | _ => None
      end
  | Flushed =>
      match s_committer s with
      | Flushing todo st =>
          if bool_decide (todo = ∅) then Some (set_committer (if (st : bool) then Stopped else Selecting ∅ false) s) else None
      | _ => None
      end
  | StopSignal =>
      match s_committer s with
      | Selecting p _ => if s_stop s then Some (set_committer (Flushing p true) s) else None
      | _ => None
      end
  | CloseStep c => cl ← s_closers s !! c; exec_close c cl s
  end.

Definition step (s s' : state) : Prop := ∃ a, exec a s = Some s'.
Fixpoint run (acts : list act) (s : state) : option state :=
  match acts with [] => Some s | a :: acts => s' ← exec a s; run acts s' end.

(** A fresh store with the calls that will be made on it: any number of mutators and
    of callers of [Close]. *)
Definition init (files : gmap bytes jfile) (calls : gmap tid call) (closers : gset nat) : state :=
  mkState false false false 0 ∅ ∅ files NotStarted ∅ ((λ c, mkThread false c Calling) <$> calls) (gset_to_gmap CloseCall closers).
Definition reachable (files : gmap bytes jfile) (calls : gmap tid call) (closers : gset nat) (s : state) : Prop :=
  rtc step (init files calls closers) s.

Lemma run_reachable files calls closers acts s : run acts (init files calls closers) = Some s → reachable files calls closers s.
Proof.
  unfold reachable. generalize (init files calls closers). induction acts as [|a acts IH]; simpl; intros s0 H.
  - injection H as <-. apply rtc_refl.
  - destruct (exec a s0) as [s1|] eqn:Ha; [|done]. eapply rtc_l; [by exists a|]. by apply IH.
Qed.
