(* ===== verification/LifecycleInv.v ===== *)
(** The invariant of [Lifecycle]'s step relation: slots are counted, locks and
    requests are owned by the threads that hold them, one fold per list is in flight,
    and closing goes through its phases once. *)

From stdpp Require Import relations.
From S2P Require Import Prelude.
From S2P Require Import Store.
From S2P Require Import Lifecycle.

(** ** Sums over threads *)

Definition total {A} (f : A → nat) (m : gmap nat A) : nat := map_fold (λ _ x acc, f x + acc) 0 m.
Lemma total_empty {A} (f : A → nat) : total f ∅ = 0.
Proof. apply map_fold_empty. Qed.
Lemma total_insert {A} (f : A → nat) m t x : m !! t = None → total f (<[t := x]> m) = f x + total f m.
Proof. intros Ht. unfold total. rewrite map_fold_insert_L; [done| |done]. intros; lia. Qed.
Lemma total_update {A} (f : A → nat) m t x y : m !! t = Some x → total f (<[t := y]> m) + f x = total f m + f y.
Proof.
  intros Ht. rewrite <-insert_delete_eq, total_insert by apply lookup_delete_eq.
  rewrite <-(insert_id m t x Ht) at 2. rewrite <-insert_delete_eq, total_insert by apply lookup_delete_eq. lia.
Qed.
Lemma total_le {A} (f : A → nat) m t x : m !! t = Some x → f x ≤ total f m.
Proof. intros Ht. rewrite <-(insert_id m t x Ht), <-insert_delete_eq, total_insert by apply lookup_delete_eq. lia. Qed.
Lemma total_zero {A} (f : A → nat) m : (∀ t x, m !! t = Some x → f x = 0) → total f m = 0.
Proof.
  induction m as [|t x m Ht IH] using map_ind; intros H; [apply total_empty|].
  rewrite total_insert by done. rewrite (H t x) by apply lookup_insert_eq. apply IH. intros t' y Hy. apply (H t').
  rewrite lookup_insert_ne; [done|congruence].
Qed.

(** ** What a thread holds *)

Definition inner (p : pc) : nat :=
  match p with Entered | Running _ | Sending _ | Waiting _ | Unlocked _ => 1 | _ => 0 end.
Definition outer (th : thread) : nat := if t_fold th then match t_pc th with Ended => 0 | _ => 1 end else 0.
Definition slots (th : thread) : nat := inner (t_pc th) + outer th.

Definition holds (th : thread) : bool := match t_pc th with Running _ | Sending _ | Waiting _ => true | _ => false end.
Definition in_commit (th : thread) : bool := match t_pc th with Sending _ | Waiting _ => true | _ => false end.
Definition waits (th : thread) : bool := match t_pc th with Waiting _ => true | _ => false end.
Definition folding (th : thread) : bool := t_fold th && match t_pc th with Cleared | Ended => false | _ => true end.
(** The states only a background goroutine has. *)
Definition shape (th : thread) : Prop := t_fold th = false → match t_pc th with Woken | Cleared | Ended => False | _ => True end.

(** The threads of a list with a property. *)
Definition has (f : thread → bool) (n : bytes) (ths : gmap tid thread) (t : tid) : Prop :=
  ∃ th, ths !! t = Some th ∧ c_list (t_call th) = n ∧ f th = true.

Lemma has_update f n ths t th p t' :
  ths !! t = Some th → let th' := mkThread (t_fold th) (t_call th) p in
  has f n (<[t := th']> ths) t' ↔ if decide (t' = t) then n = c_list (t_call th) ∧ f th' = true else has f n ths t'.
Proof.
  intros Ht th'. unfold has. destruct (decide (t' = t)) as [->|Hn].
  - rewrite lookup_insert_eq. split; [by intros (? & [= <-] & ? & ?)|]. intros [-> Hf]. by exists th'.
  - by rewrite lookup_insert_ne.
Qed.
Lemma has_same f n ths t th p t' :
  ths !! t = Some th → f (mkThread (t_fold th) (t_call th) p) = f th →
  has f n (<[t := mkThread (t_fold th) (t_call th) p]> ths) t' ↔ has f n ths t'.
Proof.
  intros Ht Hf. rewrite has_update by done. destruct (decide (t' = t)) as [->|]; [|done]. rewrite Hf. unfold has. split.
  - intros [-> H]. by exists th.
  - intros (? & Ht' & <- & H). rewrite Ht in Ht'. by injection Ht' as <-.
Qed.
Lemma has_new f n ths t' x t : ths !! t' = None → has f n (<[t' := x]> ths) t ↔
  (if decide (t = t') then n = c_list (t_call x) ∧ f x = true else has f n ths t).
Proof.
  intros Ht. unfold has. destruct (decide (t = t')) as [->|Hn].
  - rewrite lookup_insert_eq. split; [by intros (? & [= <-] & ? & ?)|]. intros [-> Hf]. by exists x.
  - by rewrite lookup_insert_ne.
Qed.
Lemma has_self f ths t th : ths !! t = Some th → f th = true → has f (c_list (t_call th)) ths t.
Proof. intros H1 H2. by exists th. Qed.
Lemma has_inv f n ths t th : ths !! t = Some th → has f n ths t → n = c_list (t_call th) ∧ f th = true.
Proof. intros Ht (? & Ht' & <- & H). rewrite Ht in Ht'. by injection Ht' as <-. Qed.

(** ** The requests a committer holds *)

Definition queue (c : committer) : gmap bytes (list tid) :=
  match c with Selecting p _ | Flushing p _ => p | _ => ∅ end.
Definition queued (c : committer) (n : bytes) (t : tid) : Prop := t ∈ default [] (queue c !! n).
Definition stopping (c : committer) : bool := match c with Flushing _ st => st | Stopped => true | _ => false end.

(** ** The phases of closing *)

Inductive phase := Open | Drain (c : nat) | Stop (c : nat) | Closed.
Definition closed_in (ph : phase) : bool := match ph with Open => false | _ => true end.
Definition done_in (ph : phase) : bool := match ph with Closed => true | _ => false end.
Definition phase_ok (ph : phase) (closed done stop : bool) (ops : nat) (com : committer) (cs : gmap nat closer) : Prop :=
  closed = closed_in ph ∧ done = done_in ph ∧
  match ph with
  | Open => stop = false ∧ stopping com = false ∧ ∀ c cl, cs !! c = Some cl → cl = CloseCall
  | Drain c => stop = false ∧ stopping com = false ∧ cs !! c = Some Draining ∧
      ∀ c' cl, c' ≠ c → cs !! c' = Some cl → cl = CloseCall ∨ cl = AwaitDone
  | Stop c => stop = true ∧ ops = 0 ∧ com ≠ NotStarted ∧ cs !! c = Some Stopping ∧
      ∀ c' cl, c' ≠ c → cs !! c' = Some cl → cl = CloseCall ∨ cl = AwaitDone
  | Closed => ops = 0 ∧ (com = NotStarted ∨ com = Stopped) ∧
      ∀ c cl, cs !! c = Some cl → cl = CloseCall ∨ cl = AwaitDone ∨ cl = CloseReturned
  end.

(** ** The invariant *)

(** The counter counts the slots. *)
Record count_inv (s : state) : Prop := {
  i_ops : s_ops s = total slots (s_threads s);
  i_shape : ∀ t th, s_threads s !! t = Some th → shape th }.
(** A lock is held by the thread that runs under it. *)
Definition lock_inv (s : state) : Prop := ∀ n t, s_locks s !! n = Some t ↔ has holds n (s_threads s) t.
(** A waiter is queued or answered, never both; the timer is armed when someone waits. *)
Record commit_inv (s : state) : Prop := {
  i_queue : ∀ n t, queued (s_committer s) n t → has waits n (s_threads s) t ∧ s_answers s !! t = None;
  i_answer : ∀ t, is_Some (s_answers s !! t) → ∃ n, has waits n (s_threads s) t;
  i_wait : ∀ n t, has waits n (s_threads s) t → queued (s_committer s) n t ∨ is_Some (s_answers s !! t);
  i_armed : ∀ p, s_committer s = Selecting p false → p = ∅;
  i_started : s_committer s = NotStarted → ∀ n t, ¬ has in_commit n (s_threads s) t }.
(** [autoCompacting] is set while a fold is in flight, and at most one is. *)
Record fold_inv (s : state) : Prop := {
  i_fold : ∀ n, n ∈ s_compacting s ↔ ∃ t, has folding n (s_threads s) t;
  i_one : ∀ n t t', has folding n (s_threads s) t → has folding n (s_threads s) t' → t = t' }.
Definition phase_inv (s : state) : Prop :=
  ∃ ph, phase_ok ph (s_closed s) (s_done s) (s_stop s) (s_ops s) (s_committer s) (s_closers s).
Record inv (s : state) : Prop := {
  i_count : count_inv s; i_locks : lock_inv s; i_commit : commit_inv s; i_folds : fold_inv s; i_phase : phase_inv s }.

Lemma init_inv files calls closers : inv (init files calls closers).
Proof.
  assert (∀ f n t, (∀ c, f (mkThread false c Calling) = false) → ¬ has f n ((λ c, mkThread false c Calling) <$> calls) t) as Hno.
  { intros f n t Hf (th & Hth & _ & H). rewrite lookup_fmap in Hth. destruct (calls !! t) as [c|]; [|done]. injection Hth as <-.
    by rewrite Hf in H. }
  split.
  - split; simpl.
    + symmetry. apply total_zero. intros t x Hx. rewrite lookup_fmap in Hx. destruct (calls !! t); [|done]. by injection Hx as <-.
    + intros t th Hth. rewrite lookup_fmap in Hth. destruct (calls !! t); [|done]. by injection Hth as <-.
  - intros n t. simpl. rewrite lookup_empty. split; [done|]. by intros []%Hno.
  - split; simpl.
    + intros n t H. unfold queued in H. simpl in H. rewrite lookup_empty in H. by apply elem_of_nil in H.
    + intros t [x H]. by rewrite lookup_empty in H.
    + by intros n t []%Hno.
    + done.
    + intros _ n t. by apply Hno.
  - split; simpl; [|by intros n t t' []%Hno]. intros n. split; [set_solver|]. by intros [t []%Hno].
  - exists Open. split_and!; try done. intros c cl H. by apply lookup_gset_to_gmap_Some in H as [_ <-].
Qed.

(** ** Frames: what a step of one thread leaves of each part *)

Section frame.
Context (s s' : state) (t : tid) (th : thread) (p : pc).
Context (Ht : s_threads s !! t = Some th).
Let th' := mkThread (t_fold th) (t_call th) p.
Context (Hths : s_threads s' = <[t := th']> (s_threads s)).

Lemma has_frame f n u : f th' = f th → has f n (s_threads s') u ↔ has f n (s_threads s) u.
Proof using Ht Hths. intros Hf. rewrite Hths. by apply has_same. Qed.
Lemma has_moved f n u : has f n (s_threads s') u ↔ if decide (u = t) then n = c_list (t_call th) ∧ f th' = true else has f n (s_threads s) u.
Proof using Ht Hths. rewrite Hths. by apply has_update. Qed.
Lemma count_frame : count_inv s → s_ops s' + slots th = s_ops s + slots th' → (shape th → shape th') → count_inv s'.
Proof using Ht Hths.
  intros [Ho Hs] Hops Hsh. split.
  - pose proof (total_update slots (s_threads s) t th th' Ht) as Hu. rewrite <-Hths in Hu. lia.
  - intros u x. rewrite Hths. destruct (decide (u = t)) as [->|]; [|rewrite lookup_insert_ne by done; eauto].
    rewrite lookup_insert_eq. intros [= <-]. eauto.
Qed.
Lemma lock_frame : lock_inv s → s_locks s' = s_locks s → holds th' = holds th → lock_inv s'.
Proof using Ht Hths. intros H Hl Hf n u. by rewrite Hl, has_frame. Qed.
Lemma commit_frame : commit_inv s → s_committer s' = s_committer s → s_answers s' = s_answers s →
  waits th' = waits th → in_commit th' = in_commit th ∨ s_committer s ≠ NotStarted → commit_inv s'.
Proof using Ht Hths.
  intros [] Hc Ha Hw Hi. split; rewrite ?Hc, ?Ha; try done.
  - intros n u. rewrite has_frame by done. eauto.
  - intros u Hu. destruct (i_answer0 u Hu) as [n Hn]. exists n. by rewrite has_frame.
  - intros n u. rewrite has_frame by done. eauto.
  - intros Hn n u. destruct Hi as [Hi|Hi]; [|done]. rewrite has_frame by done. eauto.
Qed.
Lemma fold_frame : fold_inv s → s_compacting s' = s_compacting s → folding th' = folding th → fold_inv s'.
Proof using Ht Hths.
  intros [] Hc Hf. split.
  - intros n. rewrite Hc. setoid_rewrite (has_frame folding); eauto.
  - intros n u u'. rewrite !has_frame by done. eauto.
Qed.
End frame.

Lemma phase_frame s s' : phase_inv s →
  (s_closed s', s_done s', s_stop s', s_closers s', s_committer s') = (s_closed s, s_done s, s_stop s, s_closers s, s_committer s) →
  (s_closed s = true → s_ops s = 0 → s_ops s' = 0) → phase_inv s'.
Proof.
  intros [ph (Hp1 & Hp2 & Hp3)] [= Hc Hd Hst Hcl Hcm] Hz. exists ph. unfold phase_ok. rewrite Hc, Hd, Hst, Hcl, Hcm.
  split; [done|]. split; [done|]. destruct ph; simpl in *; try done.
  - destruct Hp3 as (? & ? & ? & ? & ?). split_and!; try done. auto.
  - destruct Hp3 as (? & ? & ?). split_and!; try done. auto.
Qed.

(** A fold thread is in its own states only. *)
Lemma shape_fold th : shape th → match t_pc th with Woken | Cleared | Ended => t_fold th = true | _ => True end.
Proof. unfold shape. destruct (t_fold th), (t_pc th); auto. Qed.
Lemma slots_le s t th : inv s → s_threads s !! t = Some th → slots th ≤ s_ops s.
Proof. intros [[-> _] _ _ _ _] Ht. by eapply total_le. Qed.

(** ** Steps *)

Ltac flags := unfold slots, outer, shape, holds, waits, in_commit, folding; simpl.
(** The parts a step of thread [th] does not touch. *)
Ltac frames Hi Ht := destruct Hi as [Hcount Hlock Hcommit Hfold Hphase]; split;
  [eapply count_frame; [exact Ht|reflexivity|exact Hcount|..]
  |try (eapply lock_frame; [exact Ht|reflexivity|exact Hlock|reflexivity|])
  |try (eapply commit_frame; [exact Ht|reflexivity|exact Hcommit|reflexivity|reflexivity|..])
  |try (eapply fold_frame; [exact Ht|reflexivity|exact Hfold|reflexivity|])
  |try (eapply phase_frame; [exact Hphase|reflexivity|])]; flags.

Ltac get_thread t th Ht := simpl; destruct (s_threads _ !! t) as [th|] eqn:Ht; [|done]; simpl.

Lemma inv_begin t s s' : inv s → exec (Begin t) s = Some s' → inv s'.
Proof.
  intros Hi. get_thread t th Ht. destruct (t_pc th) eqn:Hp; try done.
  intros [= <-]. destruct (s_closed s) eqn:Hc; frames Hi Ht; rewrite ?Hp; simpl; auto; destruct (t_fold th); simpl; lia || congruence.
Qed.
Lemma inv_end t s s' : inv s → exec (End t) s = Some s' → inv s'.
Proof.
  intros Hi. get_thread t th Ht. pose proof (slots_le s t th Hi Ht) as Hle.
  pose proof (shape_fold th (i_shape s (i_count s Hi) t th Ht)) as Hsf. unfold slots, outer in Hle.
  destruct (t_pc th) eqn:Hp; try done; intros [= <-]; frames Hi Ht; rewrite ?Hp; simpl in *; auto; try lia;
    destruct (t_fold th); simpl in *; try done; lia.
Qed.
Lemma inv_wake t due s s' : inv s → exec (Wake t due) s = Some s' → inv s'.
Proof.
  intros Hi. get_thread t th Ht. pose proof (shape_fold th (i_shape s (i_count s Hi) t th Ht)) as Hsf.
  destruct (t_pc th) eqn:Hp; try done. intros [= <-]. frames Hi Ht; rewrite ?Hp, ?Hsf; destruct due; simpl; auto.
Qed.
Lemma inv_files n f s : inv s → inv (set_file n f s).
Proof. intros [[] Hl [] [] Hp]. by split. Qed.

Lemma inv_lock t s s' : inv s → exec (Lock t) s = Some s' → inv s'.
Proof.
  intros Hi. get_thread t th Ht. destruct (t_pc th) eqn:Hp; try done. destruct (c_passes (t_call th)); simpl.
  - destruct (s_locks s !! c_list (t_call th)) eqn:Hl; [done|]. intros [= <-].
    frames Hi Ht; rewrite ?Hp; simpl; auto.
    intros n u. simpl. rewrite has_update by done. destruct (decide (u = t)) as [->|Hu].
    + simpl. destruct (decide (n = c_list (t_call th))) as [->|Hn]; [by rewrite lookup_insert_eq|].
      rewrite lookup_insert_ne by done. split; [|naive_solver]. intros H%Hlock%(has_inv _ _ _ _ _ Ht). naive_solver.
    + rewrite <-(Hlock n u). destruct (decide (n = c_list (t_call th))) as [->|Hn]; [|by rewrite lookup_insert_ne].
      rewrite lookup_insert_eq, Hl. naive_solver.
  - intros [= <-]. frames Hi Ht; rewrite ?Hp; simpl; auto.
Qed.

Lemma inv_start s : inv s → s_ops s ≠ 0 → inv (set_committer (start_committer (s_committer s)) s).
Proof.
  intros Hi Ho. destruct (s_committer s) eqn:Hc; simpl.
  2-4: rewrite <-Hc; by destruct Hi as [[] Hl [] [] Hp]; split.
  destruct Hi as [[] Hl [] [] [ph (Hp1 & Hp2 & Hp3)]]. split; try done; [split; simpl; try done|].
  - intros n t H. unfold queued in H. simpl in H. rewrite lookup_empty in H. by apply elem_of_nil in H.
  - intros n t [H|H]%i_wait0; [|by right]. unfold queued in H. rewrite Hc in H. simpl in H. rewrite lookup_empty in H. by apply elem_of_nil in H.
  - by intros p [= ->].
  - exists ph. rewrite Hc in Hp3. split_and!; try done. destruct ph; simpl in *; naive_solver.
Qed.

Lemma inv_body t ok n s s' : inv s → exec (Step t ok n) s = Some s' → inv s'.
Proof.
  intros Hi. get_thread t th Ht. destruct (t_pc th) as [| | |p| | | | | | |] eqn:Hp; try done. destruct p as [|c k|k|]; try done; simpl; intros [= <-].
  - apply (inv_files (c_list (t_call th)) (jrun c ok n (file s (c_list (t_call th))))) in Hi. revert Hi.
    change (s_threads s) with (s_threads (set_file (c_list (t_call th)) (jrun c ok n (file s (c_list (t_call th)))) s)) in Ht.
    intros Hi. frames Hi Ht; rewrite ?Hp; simpl; auto.
  - pose proof (slots_le s t th Hi Ht) as Hle. unfold slots in Hle. rewrite Hp in Hle. simpl in Hle.
    assert (s_ops s ≠ 0) as Ho by lia. apply inv_start in Hi; [|exact Ho].
    change (s_threads s) with (s_threads (set_committer (start_committer (s_committer s)) s)) in Ht.
    frames Hi Ht; rewrite ?Hp; simpl; auto. right. by destruct (s_committer s).
Qed.

Lemma inv_spawn t t' s s' : inv s → exec (Spawn t t') s = Some s' → inv s'.
Proof.
  intros Hi. get_thread t th Ht. destruct (t_pc th) as [| | |p| | | | | | |] eqn:Hp; try done. destruct p as [| | |f k]; try done.
  unfold exec_schedule. set (n := c_list (t_call th)). destruct (bool_decide (n ∈ s_compacting s) || s_closed s) eqn:Hb.
  { intros [= <-]. frames Hi Ht; rewrite ?Hp; simpl; auto. }
  apply orb_false_iff in Hb as [Hn%bool_decide_eq_false_1 Hcl]. destruct (s_threads s !! t') eqn:Ht'; [done|]. intros [= <-].
  set (s1 := goto t th (Running k) s). assert (inv s1) as Hi1 by (frames Hi Ht; rewrite ?Hp; simpl; auto).
  assert (s_threads s1 !! t' = None) as Hn1.
  { unfold s1. simpl. rewrite lookup_insert_ne; [done|]. congruence. }
  set (th' := mkThread true (mkCall n true f) Woken).
  set (s2 := set_threads _ _). assert (s_threads s2 = <[t' := th']> (s_threads s1)) as H2 by done.
  assert (∀ g m u, g th' = false → has g m (s_threads s2) u ↔ has g m (s_threads s1) u) as Hsame.
  { intros g m u Hg. rewrite H2, has_new by done. destruct (decide (u = t')) as [->|]; [|done]. rewrite Hg. split; [naive_solver|].
    intros (x & Hx & _). congruence. }
  assert (∀ m u, has folding m (s_threads s2) u ↔ if decide (u = t') then m = n else has folding m (s_threads s1) u) as Hfolding.
  { intros m u. rewrite H2, has_new by done. destruct (decide (u = t')); [|done]. by split; [intros []|]. }
  destruct Hi1 as [[Ho Hs] Hlock [] [Hf1 Hf2] Hphase]. split; [split| |split|split|].
  - rewrite H2, total_insert by done. change (s_ops s2) with (S (s_ops s1)). by rewrite Ho.
  - intros u x. rewrite H2. destruct (decide (u = t')) as [->|].
    + rewrite lookup_insert_eq. by intros [= <-].
    + rewrite lookup_insert_ne by done. apply Hs.
  - intros m u. rewrite (Hsame holds) by done. apply Hlock.
  - intros m u. rewrite (Hsame waits) by done. apply i_queue0.
  - intros u Hu. destruct (i_answer0 u Hu) as [m Hm]. exists m. by rewrite (Hsame waits).
  - intros m u. rewrite (Hsame waits) by done. apply i_wait0.
  - apply i_armed0.
  - intros Hns m u. rewrite (Hsame in_commit) by done. by apply i_started0.
  - intros m. change (s_compacting s2) with ({[n]} ∪ s_compacting s1). rewrite elem_of_union, elem_of_singleton, Hf1.
    setoid_rewrite Hfolding. split.
    + intros [->|[u Hu]]; [exists t'; by rewrite decide_True|exists u]. rewrite decide_False; [done|]. intros ->.
      destruct Hu as (x & Hx & _). congruence.
    + intros [u Hu]. destruct (decide (u = t')) as [->|]; [by left|right; by exists u].
  - intros m u u'. rewrite !Hfolding. assert (∀ w, has folding n (s_threads s1) w → False) as Hno by (intros w Hw; apply Hn; apply Hf1; by exists w).
    destruct (decide (u = t')) as [->|], (decide (u' = t')) as [->|]; [done| | |apply Hf2].
    + intros -> Hw. destruct (Hno u' Hw).
    + intros Hw ->. destruct (Hno u Hw).
  - destruct Hphase as [ph (Hp1 & Hp2 & Hp3)]. exists ph. change (s_closed s1) with (s_closed s) in Hp1. rewrite Hcl in Hp1.
    change (phase_ok ph (s_closed s) (s_done s1) (s_stop s1) (S (s_ops s1)) (s_committer s1) (s_closers s1)). rewrite Hcl.
    split; [done|]. split; [done|]. by destruct ph.
Qed.

(** Queues after a send. *)
Lemma queued_enqueue n t p a m u : queued (Selecting (enqueue n t p) a) m u ↔ queued (Selecting p a) m u ∨ m = n ∧ u = t.
Proof.
  unfold queued, enqueue. simpl. destruct (decide (m = n)) as [->|Hm].
  - rewrite lookup_insert_eq. simpl. rewrite elem_of_app, list_elem_of_singleton. naive_solver.
  - rewrite lookup_insert_ne by done. naive_solver.
Qed.

Lemma inv_send t s s' : inv s → exec (Send t) s = Some s' → inv s'.
Proof.
  intros Hi. get_thread t th Ht. destruct (t_pc th) eqn:Hp; try done. destruct (s_committer s) as [|p a| |] eqn:Hc; try done.
  intros [= <-]. frames Hi Ht; rewrite ?Hp; simpl; auto.
  - destruct Hcommit. set (n := c_list (t_call th)). split; simpl.
    + intros m u. rewrite queued_enqueue, has_update by done. rewrite Hc in i_queue0. destruct (decide (u = t)) as [->|Hu].
      * intros [[Hw _]%i_queue0|[-> _]].
        { apply (has_inv _ _ _ _ _ Ht) in Hw as [_ Hw]. unfold waits in Hw. by rewrite Hp in Hw. }
        split; [done|]. apply eq_None_not_Some. intros [m Hw]%i_answer0. apply (has_inv _ _ _ _ _ Ht) in Hw as [_ Hw].
        unfold waits in Hw. by rewrite Hp in Hw.
      * intros [Hq|[_ ->]]; [|done]. by apply (i_queue0 m u).
    + intros u [m Hm]%i_answer0. exists m. rewrite has_update by done. destruct (decide (u = t)) as [->|]; [|done].
      apply (has_inv _ _ _ _ _ Ht) in Hm as [_ Hw]. unfold waits in Hw. by rewrite Hp in Hw.
    + intros m u. rewrite has_update, queued_enqueue by done. destruct (decide (u = t)) as [->|].
      * intros [-> _]. left. by right.
      * intros [Hq|Ha]%i_wait0; [left; left|by right]. by rewrite Hc in Hq.
    + done.
    + done.
  - eapply (phase_frame (set_committer (Selecting (enqueue (c_list (t_call th)) t p) true) s)); [|done|done].
    destruct Hphase as [ph (Hp1 & Hp2 & Hp3)]. exists ph. rewrite Hc in Hp3. split; [done|]. split; [done|].
    destruct ph; simpl in *; naive_solver.
Qed.

Lemma inv_answer t s s' : inv s → exec (Answer t) s = Some s' → inv s'.
Proof.
  intros Hi. get_thread t th Ht. destruct (s_answers s !! t) as [ok|] eqn:Ha; [|done]. simpl. destruct (t_pc th) eqn:Hp; try done.
  intros [= <-]. frames Hi Ht; rewrite ?Hp; simpl; auto.
  destruct Hcommit. split; simpl; try done.
  - intros m u Hq. destruct (i_queue0 m u Hq) as [Hw Hn]. assert (u ≠ t) as Hu by congruence.
    rewrite has_update, decide_False by done. by rewrite lookup_delete_ne.
  - intros u Hu. destruct (decide (u = t)) as [->|Hn]; [by rewrite lookup_delete_eq in Hu; destruct Hu|].
    rewrite lookup_delete_ne in Hu by done. destruct (i_answer0 u Hu) as [m Hm]. exists m. by rewrite has_update, decide_False.
  - intros m u. rewrite has_update by done. destruct (decide (u = t)) as [->|Hn]; [by intros [_ ?]|].
    rewrite lookup_delete_ne by done. apply i_wait0.
  - intros Hns m u. rewrite has_update by done. destruct (decide (u = t)) as [->|Hn]; [by intros [_ ?]|]. by apply i_started0.
Qed.

Lemma inv_unlock t s s' : inv s → exec (Unlock t) s = Some s' → inv s'.
Proof.
  intros Hi. get_thread t th Ht. destruct (t_pc th) as [| | |p| | | | | | |] eqn:Hp; try done. destruct p; try done. intros [= <-].
  frames Hi Ht; rewrite ?Hp; simpl; auto. set (n := c_list (t_call th)).
  assert (s_locks s !! n = Some t) as Hl by (apply Hlock; exists th; unfold holds; by rewrite Hp).
  intros m u. simpl. rewrite has_update by done. destruct (decide (u = t)) as [->|Hu].
  - split; [|by intros [_ ?]]. intros [Hne Hm]%lookup_delete_Some. apply Hlock, (has_inv _ _ _ _ _ Ht) in Hm. naive_solver.
  - rewrite <-(Hlock m u), lookup_delete_Some. split; [naive_solver|]. intros Hm. split; [|done]. intros <-. congruence.
Qed.

Lemma inv_clear t s s' : inv s → exec (Clear t) s = Some s' → inv s'.
Proof.
  intros Hi. get_thread t th Ht. destruct (t_fold th) eqn:Hf; [|done]. set (n := c_list (t_call th)).
  assert (∀ p, inner (t_pc th) = 0 → inner p = 0 → t_pc th ≠ Cleared → t_pc th ≠ Ended → p = Cleared →
    inv (goto t th p (set_folds (s_compacting s ∖ {[n]}) s))) as H.
  { intros p H1 H2 H3 H4 ->. frames Hi Ht; rewrite ?Hf; simpl; auto.
    - destruct (t_pc th); simpl in *; done || lia.
    - by destruct (t_pc th).
    - by destruct (t_pc th).
    - by destruct (t_pc th).
    - left. by destruct (t_pc th).
    - destruct Hfold as [Hf1 Hf2]. assert (has folding n (s_threads s) t) as Hself.
      { exists th. split_and!; [done|done|]. unfold folding. rewrite Hf. by destruct (t_pc th). }
      split; simpl.
      + intros m. rewrite elem_of_difference, elem_of_singleton, Hf1. split.
        * intros [[u Hu] Hm]. exists u. rewrite has_update by done. destruct (decide (u = t)) as [->|]; [|done].
          apply (has_inv _ _ _ _ _ Ht) in Hu. naive_solver.
        * intros [u Hu]. rewrite has_update in Hu by done. destruct (decide (u = t)) as [->|Hut].
          { unfold folding in Hu. simpl in Hu. rewrite andb_false_r in Hu. naive_solver. }
          split; [by exists u|]. intros ->. apply Hut. by apply (Hf2 n).
      + intros m u u'. rewrite !has_update by done. unfold folding at 1 3. simpl. rewrite andb_false_r.
        destruct (decide (u = t)), (decide (u' = t)); [naive_solver..|apply Hf2]. }
  destruct (t_pc th) eqn:Hp; try done; intros [= <-]; by apply H.
Qed.

(** ** Steps of the committer *)

Lemma commit_queue_inv s c : commit_inv s → (∀ n t, queued c n t ↔ queued (s_committer s) n t) →
  (∀ p, c = Selecting p false → p = ∅) → c ≠ NotStarted → commit_inv (set_committer c s).
Proof.
  intros [] Hq Ha Hn. split; simpl; try done.
  - intros n t. rewrite Hq. apply i_queue0.
  - intros n t. rewrite Hq. apply i_wait0.
Qed.
Lemma inv_committer s c : inv s → (∀ n t, queued c n t ↔ queued (s_committer s) n t) →
  (∀ p, c = Selecting p false → p = ∅) → c ≠ NotStarted → phase_inv (set_committer c s) → inv (set_committer c s).
Proof. intros [[] Hl Hc [] Hp] Hq Ha Hn Hph. split; try done. by apply commit_queue_inv. Qed.

Lemma inv_fire s s' : inv s → exec Fire s = Some s' → inv s'.
Proof.
  intros Hi. simpl. destruct (s_committer s) as [|p [|]| |] eqn:Hc; try done. intros [= <-].
  apply inv_committer; [done|by rewrite Hc|done|done|].
  destruct (i_phase s Hi) as [ph (Hp1 & Hp2 & Hp3)]. exists ph. rewrite Hc in Hp3. split; [done|]. split; [done|].
  destruct ph; simpl in *; naive_solver.
Qed.
Lemma inv_stop s s' : inv s → exec StopSignal s = Some s' → inv s'.
Proof.
  intros Hi. simpl. destruct (s_committer s) as [|p a| |] eqn:Hc; try done. destruct (s_stop s) eqn:Hs; [|done]. intros [= <-].
  apply inv_committer; [done|by rewrite Hc|done|done|].
  destruct (i_phase s Hi) as [ph (Hp1 & Hp2 & Hp3)]. exists ph. rewrite Hc in Hp3. split; [done|]. split; [done|].
  destruct ph; simpl in *; rewrite ?Hs in *; naive_solver.
Qed.
Lemma inv_flushed s s' : inv s → exec Flushed s = Some s' → inv s'.
Proof.
  intros Hi. simpl. destruct (s_committer s) as [| |todo st|] eqn:Hc; try done. case_bool_decide as Hempty; [|done]. intros [= <-]. subst todo.
  apply inv_committer; [done| |by destruct st; [|intros p [= <-]]|by destruct st|].
  - intros n t. rewrite Hc. by destruct st.
  - destruct (i_phase s Hi) as [ph (Hp1 & Hp2 & Hp3)]. exists ph. rewrite Hc in Hp3. split; [done|]. split; [done|].
    destruct ph, st; simpl in *; naive_solver.
Qed.

Lemma answer_all_lookup ok ws a t : answer_all ok ws a !! t = if decide (t ∈ ws) then Some ok else a !! t.
Proof.
  induction ws as [|w ws IH]; [destruct (decide (t ∈ [])) as [H|]; [by apply elem_of_nil in H|done]|]. simpl.
  destruct (decide (t = w)) as [->|Hn].
  - rewrite lookup_insert_eq, decide_True; [done|by left].
  - rewrite lookup_insert_ne, IH by done. destruct (decide (t ∈ ws)), (decide (t ∈ w :: ws)) as [H|H]; try done; set_solver.
Qed.

Lemma inv_flush n ok s s' : inv s → exec (Flush n ok) s = Some s' → inv s'.
Proof.
  intros Hi. simpl. destruct (s_committer s) as [| |todo st|] eqn:Hc; try done. destruct (todo !! n) as [ws|] eqn:Hws; [|done].
  simpl. intros [= <-]. apply (inv_files n (jrun Sync ok 0 (file s n))) in Hi.
  change (s_committer s) with (s_committer (set_file n (jrun Sync ok 0 (file s n)) s)) in Hc.
  change (sync_file ok n s) with (set_file n (jrun Sync ok 0 (file s n)) s).
  change (s_answers s) with (s_answers (set_file n (jrun Sync ok 0 (file s n)) s)).
  set (s1 := set_file n _ s) in *. clearbody s1. destruct Hi as [[] Hl [] [] [ph (Hp1 & Hp2 & Hp3)]]. split; try done.
  - assert (∀ m t, queued (Flushing (delete n todo) st) m t ↔ queued (s_committer s1) m t ∧ m ≠ n) as Hq.
    { intros m t. unfold queued. rewrite Hc. simpl. destruct (decide (m = n)) as [->|Hm].
      - rewrite lookup_delete_eq. simpl. split; [by intros ?%elem_of_nil|naive_solver].
      - rewrite lookup_delete_ne by done. naive_solver. }
    assert (∀ t, t ∈ ws ↔ queued (s_committer s1) n t) as Hin by (intros t; unfold queued; rewrite Hc; simpl; by rewrite Hws).
    split; simpl; try done.
    + intros m t. rewrite Hq, answer_all_lookup. intros [Hm Hmn]. destruct (i_queue0 m t Hm) as [Hw Ha]. split; [done|].
      rewrite decide_False; [done|]. intros [Hw' _]%Hin%i_queue0. destruct Hw as (x & Hx & <- & _). apply (has_inv _ _ _ _ _ Hx) in Hw'. naive_solver.
    + intros t. rewrite answer_all_lookup. destruct (decide (t ∈ ws)) as [H|H]; [|apply i_answer0].
      intros _. exists n. apply Hin, i_queue0 in H. apply H.
    + intros m t Hw. rewrite Hq, answer_all_lookup. destruct (i_wait0 m t Hw) as [H|H].
      * destruct (decide (m = n)) as [->|Hm]; [right; rewrite decide_True; [done|by apply Hin]|by left].
      * right. by destruct (decide _).
  - exists ph. rewrite Hc in Hp3. split; [done|]. split; [done|]. destruct ph; simpl in *; naive_solver.
Qed.

(** ** Steps of [Close] *)

Definition early (cl : closer) : Prop := cl = CloseCall ∨ cl = AwaitDone.
Lemma insert_early (cs : gmap nat closer) c cl (P : nat → Prop) : early cl →
  (∀ c' x, P c' → cs !! c' = Some x → early x) → ∀ c' x, P c' → <[c := cl]> cs !! c' = Some x → early x.
Proof. intros He H c' x Hc' [[<- <-]|[_ Hx]]%lookup_insert_Some; [done|by eapply H]. Qed.

(** The phase is determined by the closer that drains or stops. *)
Lemma phase_active ph closed done stop ops com cs c cl : phase_ok ph closed done stop ops com cs → cs !! c = Some cl →
  (cl = Draining → ph = Drain c) ∧ (cl = Stopping → ph = Stop c).
Proof.
  intros (_ & _ & H) Hc. destruct ph as [|d|d|]; simpl in H.
  - destruct H as (_ & _ & H). by rewrite (H c cl Hc).
  - destruct H as (_ & _ & Hd & H). destruct (decide (c = d)) as [->|Hn]; [|by destruct (H c cl Hn Hc) as [->| ->]].
    rewrite Hd in Hc. by injection Hc as <-.
  - destruct H as (_ & _ & _ & Hd & H). destruct (decide (c = d)) as [->|Hn]; [|by destruct (H c cl Hn Hc) as [->| ->]].
    rewrite Hd in Hc. by injection Hc as <-.
  - destruct H as (_ & _ & H). by destruct (H c cl Hc) as [->|[->| ->]].
Qed.
Lemma phase_done (closed stop : bool) ops com cs c : closed = true → ops = 0 → com = NotStarted ∨ com = Stopped →
  (∀ c' x, c' ≠ c → cs !! c' = Some x → early x) → phase_ok Closed closed true stop ops com (<[c := CloseReturned]> cs).
Proof.
  intros Hc Ho Hcm H. split_and!; try done. intros c' x [[<- <-]|[Hn Hx]]%lookup_insert_Some; [auto|].
  destruct (H c' x) as [->| ->]; auto.
Qed.

Lemma inv_close c s s' : inv s → exec (CloseStep c) s = Some s' → inv s'.
Proof.
  intros Hi. simpl. destruct (s_closers s !! c) as [cl|] eqn:Hcl; [|done]. simpl.
  assert (∀ closed done stop cs, phase_inv (set_close closed done stop cs s) → inv (set_close closed done stop cs s)) as Hset.
  { intros closed done stop cs Hph. by destruct Hi as [[] Hl [] [] _]; split. }
  destruct (i_phase s Hi) as [ph Hph]. pose proof (phase_active _ _ _ _ _ _ _ _ _ Hph Hcl) as [Hdr Hst]. unfold exec_close. destruct cl.
  - destruct (s_closed s) eqn:Hc; intros [= <-]; apply Hset; destruct Hph as (Hp1 & Hp2 & Hp3).
    + exists ph. split; [done|]. split; [done|]. destruct ph as [|d|d|]; simpl in *; [done|..].
      * destruct Hp3 as (? & ? & Hd & Hrest). assert (d ≠ c) by congruence. split_and!; [done..|by rewrite lookup_insert_ne|].
        intros c' x. apply (insert_early _ c _ (λ c', c' ≠ d)); [by right|done].
      * destruct Hp3 as (? & ? & ? & Hd & Hrest). assert (d ≠ c) by congruence. split_and!; [done..|by rewrite lookup_insert_ne|].
        intros c' x. apply (insert_early _ c _ (λ c', c' ≠ d)); [by right|done].
      * destruct Hp3 as (? & ? & Hrest). split_and!; [done..|].
        intros c' x [[<- <-]|[_ Hx]]%lookup_insert_Some; [auto|by eapply Hrest].
    + destruct ph as [|d|d|]; simpl in *; try done. destruct Hp3 as (? & ? & Hrest). exists (Drain c). split_and!; simpl; [done..|by rewrite lookup_insert_eq|].
      intros c' x Hn. rewrite lookup_insert_ne by done. intros Hx. left. by eapply Hrest.
  - destruct (s_done s) eqn:Hd; [|done]. intros [= <-]. apply Hset. destruct Hph as (Hp1 & Hp2 & Hp3).
    destruct ph; simpl in *; try done. destruct Hp3 as (? & ? & Hrest). exists Closed. split_and!; simpl; [done..|].
    intros c' x [[<- <-]|[_ Hx]]%lookup_insert_Some; [auto|by eapply Hrest].
  - specialize (Hdr eq_refl). subst ph. destruct Hph as (Hp1 & Hp2 & Hs & Hstop & Hd & Hrest).
    destruct (Nat.eqb_spec (s_ops s) 0) as [Ho|]; [|done].
    assert (∀ c' x, c' ≠ c → <[c := Stopping]> (s_closers s) !! c' = Some x → early x) as Hrest'.
    { intros c' x Hn. rewrite lookup_insert_ne by done. by apply Hrest. }
    destruct (s_committer s) eqn:Hcm; intros [= <-]; apply Hset; simpl in Hp1.
    1: exists Closed; apply phase_done; rewrite ?Hcm; auto.
    all: exists (Stop c); split_and!; simpl; rewrite ?Hcm; try done; by rewrite lookup_insert_eq.
  - specialize (Hst eq_refl). subst ph. destruct Hph as (Hp1 & Hp2 & Hs & Ho & Hcm & Hd & Hrest).
    destruct (s_committer s) eqn:Hcom; try done. intros [= <-]. apply Hset. exists Closed. apply phase_done; rewrite ?Hcom; auto.
  - done.
Qed.

(** ** The invariant holds in every reachable state *)

Lemma inv_step s s' : inv s → step s s' → inv s'.
Proof.
  intros Hi [a Ha]. revert Ha.
  destruct a as [t|t|t ok n|t t'|t|t|t|t|t due|t| |n ok| | |c]; intros Ha.
  - exact (inv_begin t s s' Hi Ha).
  - exact (inv_lock t s s' Hi Ha).
  - exact (inv_body t ok n s s' Hi Ha).
  - exact (inv_spawn t t' s s' Hi Ha).
  - exact (inv_send t s s' Hi Ha).
  - exact (inv_answer t s s' Hi Ha).
  - exact (inv_unlock t s s' Hi Ha).
  - exact (inv_end t s s' Hi Ha).
  - exact (inv_wake t due s s' Hi Ha).
  - exact (inv_clear t s s' Hi Ha).
  - exact (inv_fire s s' Hi Ha).
  - exact (inv_flush n ok s s' Hi Ha).
  - exact (inv_flushed s s' Hi Ha).
  - exact (inv_stop s s' Hi Ha).
  - exact (inv_close c s s' Hi Ha).
Qed.
Lemma inv_rtc s s' : inv s → rtc step s s' → inv s'.
Proof. intros Hi H. induction H; eauto using inv_step. Qed.
Lemma reachable_inv files calls closers s : reachable files calls closers s → inv s.
Proof. apply inv_rtc, init_inv. Qed.
