(* ===== verification/LifecycleSpec.v ===== *)
(** What the concurrency of the store guarantees: every run ends, with every call
    returned; at most one writer and one fold per list; a returned [Close] has
    released the directory; and an acknowledged write is on stable storage. *)

From stdpp Require Import relations.
From S2P Require Import Prelude.
From S2P Require Import Store.
From S2P Require Import Lifecycle.
From S2P Require Import LifecycleInv.

(** ** Every run ends *)

Fixpoint cost (p : prog) : nat :=
  match p with
  | Done _ => 1
  | Call _ k => S (cost (k true) + cost (k false))
  | Commit k => 16 + (cost (k true) + cost (k false))
  | Schedule f k => 20 + (cost f + cost k)
  end.
(** The steps a thread, the committer and a closer may still take. *)
Definition pc_cost (b : nat) (p : pc) : nat :=
  match p with
  | Woken => b + 5 | Calling => b + 4 | Entered => b + 3
  | Running p => cost p + 1
  | Sending k => cost (k true) + cost (k false) + 11
  | Waiting k => cost (k true) + cost (k false) + 3
  | Unlocked _ | Cleared => 1
  | Returned _ | Refused | Ended => 0
  end.
Definition thread_cost (th : thread) : nat :=
  pc_cost (cost (c_body (t_call th))) (t_pc th) +
  if t_fold th then match t_pc th with Cleared | Ended => 0 | _ => 3 end else 0.
Definition committer_cost (c : committer) : nat :=
  match c with
  | NotStarted | Stopped => 0
  | Selecting p armed => size p + if (armed : bool) then 4 else 2
  | Flushing todo st => size todo + if (st : bool) then 1 else 3
  end.
Definition closer_cost (c : closer) : nat :=
  match c with CloseCall => 3 | Draining => 2 | AwaitDone | Stopping => 1 | CloseReturned => 0 end.
Definition measure (s : state) : nat :=
  total thread_cost (s_threads s) + committer_cost (s_committer s) + total closer_cost (s_closers s).

Lemma measure_thread s s' t th p :
  s_threads s !! t = Some th → s_threads s' = <[t := mkThread (t_fold th) (t_call th) p]> (s_threads s) → s_closers s' = s_closers s →
  thread_cost (mkThread (t_fold th) (t_call th) p) + committer_cost (s_committer s') < thread_cost th + committer_cost (s_committer s) →
  measure s' < measure s.
Proof.
  intros Ht Hths Hcl Hlt. unfold measure. rewrite Hcl, Hths.
  pose proof (total_update thread_cost (s_threads s) t th (mkThread (t_fold th) (t_call th) p) Ht). lia.
Qed.
Lemma size_enqueue n t p : size (enqueue n t p) ≤ S (size p).
Proof. unfold enqueue. destruct (p !! n) eqn:Hn; [rewrite map_size_insert_Some by done|rewrite map_size_insert_None by done]; lia. Qed.
Lemma size_delete_lt {A} (m : gmap bytes A) n x : m !! n = Some x → size (delete n m) < size m.
Proof.
  intros Hn. rewrite map_size_delete_Some by by eexists. assert (size m ≠ 0) by (apply (map_size_ne_0_lookup_2 m n); by eexists). lia.
Qed.

Lemma cost_branch ok k : cost (k ok) ≤ cost (k true) + cost (k false).
Proof. destruct ok; lia. Qed.

Ltac threaded t th Ht := simpl; destruct (s_threads _ !! t) as [th|] eqn:Ht; [|done]; simpl.
Ltac moved th Hp := eapply measure_thread; [eassumption|reflexivity|reflexivity|]; unfold thread_cost; simpl; rewrite ?Hp; simpl.

Lemma measure_body t ok n s s' : exec (Step t ok n) s = Some s' → measure s' < measure s.
Proof.
  threaded t th Ht. destruct (t_pc th) as [| | |p| | | | | | |] eqn:Hp; try done. destruct p as [|c k|k|]; try done; simpl; intros [= <-].
  - moved th Hp. pose proof (cost_branch ok k). destruct (t_fold th); lia.
  - moved th Hp. destruct (s_committer s) as [|q [|]|q [|]|]; simpl; rewrite ?map_size_empty; destruct (t_fold th); lia.
Qed.
Lemma measure_spawn t t' s s' : exec (Spawn t t') s = Some s' → measure s' < measure s.
Proof.
  threaded t th Ht. destruct (t_pc th) as [| | |p| | | | | | |] eqn:Hp; try done. destruct p as [| | |f k]; try done.
  unfold exec_schedule. destruct (bool_decide _ || s_closed s).
  { intros [= <-]. moved th Hp. destruct (t_fold th); lia. }
  destruct (s_threads s !! t') eqn:Ht'; [done|]. intros [= <-]. unfold measure. simpl.
  rewrite total_insert by (rewrite lookup_insert_ne; [done|congruence]).
  pose proof (total_update thread_cost (s_threads s) t th (mkThread (t_fold th) (t_call th) (Running k)) Ht) as Hu.
  unfold thread_cost at 2 4 in Hu. unfold thread_cost at 1. simpl in *. rewrite Hp in Hu. simpl in Hu.
  destruct (t_fold th); simpl in *; lia.
Qed.
Lemma measure_send t s s' : exec (Send t) s = Some s' → measure s' < measure s.
Proof.
  threaded t th Ht. destruct (t_pc th) eqn:Hp; try done. destruct (s_committer s) as [|q a| |] eqn:Hc; try done. intros [= <-].
  moved th Hp. rewrite Hc. simpl. pose proof (size_enqueue (c_list (t_call th)) t q). destruct a, (t_fold th); lia.
Qed.
Lemma measure_committer c s : committer_cost c < committer_cost (s_committer s) → measure (set_committer c s) < measure s.
Proof. unfold measure. simpl. lia. Qed.
Lemma measure_close c s s' : exec (CloseStep c) s = Some s' → measure s' < measure s.
Proof.
  simpl. destruct (s_closers s !! c) as [cl|] eqn:Hc; [|done]. simpl. unfold exec_close.
  assert (∀ cl' a b d, closer_cost cl' < closer_cost cl → measure (set_close a b d (<[c := cl']> (s_closers s)) s) < measure s) as H.
  { intros cl' a b d Hlt. unfold measure. simpl. pose proof (total_update closer_cost (s_closers s) c cl cl' Hc). lia. }
  destruct cl; [destruct (s_closed s)|destruct (s_done s)|destruct (s_ops s =? 0); [destruct (s_committer s)|]|destruct (s_committer s)|];
    try done; intros [= <-]; apply H; simpl; lia.
Qed.

Lemma measure_step s s' : step s s' → measure s' < measure s.
Proof.
  intros [a Ha]. revert Ha. destruct a as [t|t|t ok n|t t'|t|t|t|t|t due|t| |n ok| | |c].
  - threaded t th Ht. destruct (t_pc th) eqn:Hp; try done. destruct (s_closed s); intros [= <-]; moved th Hp; destruct (t_fold th); lia.
  - threaded t th Ht. destruct (t_pc th) eqn:Hp; try done. destruct (c_passes _); simpl; [destruct (s_locks s !! _); [done|]|];
      intros [= <-]; moved th Hp; destruct (t_fold th); lia.
  - apply measure_body.
  - apply measure_spawn.
  - apply measure_send.
  - threaded t th Ht. destruct (s_answers s !! t) as [ok|]; [|done]. simpl. destruct (t_pc th) eqn:Hp; try done. intros [= <-].
    moved th Hp. pose proof (cost_branch ok k). destruct (t_fold th); lia.
  - threaded t th Ht. destruct (t_pc th) as [| | |p| | | | | | |] eqn:Hp; try done. destruct p; try done. intros [= <-].
    moved th Hp. destruct (t_fold th); lia.
  - threaded t th Ht. destruct (t_pc th) eqn:Hp; try done; intros [= <-]; moved th Hp; destruct (t_fold th); lia.
  - threaded t th Ht. destruct (t_pc th) eqn:Hp; try done. intros [= <-]. moved th Hp. destruct due, (t_fold th); simpl; lia.
  - threaded t th Ht. destruct (t_fold th) eqn:Hf; [|done]. destruct (t_pc th) eqn:Hp; try done; intros [= <-]; moved th Hp; rewrite Hf; lia.
  - simpl. destruct (s_committer s) as [|q [|]| |] eqn:Hc; try done. intros [= <-]. apply measure_committer. rewrite Hc. simpl. lia.
  - simpl. destruct (s_committer s) as [| |todo st|] eqn:Hc; try done. destruct (todo !! n) eqn:Hn; [|done]. simpl. intros [= <-].
    unfold measure. simpl. rewrite Hc. simpl. pose proof (size_delete_lt todo n _ Hn). destruct st; lia.
  - simpl. destruct (s_committer s) as [| |todo st|] eqn:Hc; try done. case_bool_decide as H; [|done]. intros [= <-].
    apply measure_committer. rewrite Hc. simpl. destruct st; simpl; rewrite ?map_size_empty; lia.
  - simpl. destruct (s_committer s) as [|q a| |] eqn:Hc; try done. destruct (s_stop s); [|done]. intros [= <-].
    apply measure_committer. rewrite Hc. simpl. destruct a; lia.
  - apply measure_close.
Qed.
Lemma measure_run n s s' : nsteps step n s s' → n + measure s' ≤ measure s.
Proof. intros H. induction H as [|n s s1 s' Hs%measure_step _ IH]; lia. Qed.

(** ** A state that is not finished can step *)

(** Threads and closers that have returned. *)
Definition returned (th : thread) : Prop :=
  if t_fold th then t_pc th = Ended else t_pc th = Refused ∨ ∃ ok, t_pc th = Returned ok.
#[global] Instance returned_dec th : Decision (returned th).
Proof.
  unfold returned. destruct (t_fold th); [destruct (t_pc th); (left; done) || (right; done)|].
  destruct (t_pc th); try (right; intros [?|[? ?]]; done); left; [right; by eexists|by left].
Defined.
#[global] Instance closer_eq : EqDecision closer.
Proof. solve_decision. Defined.

(** Everyone has returned, no lock, request, answer or fold is left, and the
    committer is idle, or gone once the store is closed. *)
Definition finished (s : state) : Prop :=
  (∀ t th, s_threads s !! t = Some th → returned th) ∧
  (∀ c cl, s_closers s !! c = Some cl → cl = CloseReturned ∧ s_closed s = true) ∧
  s_ops s = 0 ∧ s_locks s = ∅ ∧ s_compacting s = ∅ ∧ s_answers s = ∅ ∧
  (s_committer s = NotStarted ∨ s_committer s = Stopped ∨ s_committer s = Selecting ∅ false ∧ s_closed s = false).

Definition can_step (s : state) : Prop := ∃ s', step s s'.
Lemma can_by a s s' : exec a s = Some s' → can_step s.
Proof. intros H. exists s'. by exists a. Qed.

(** A flush goes on; a committer with requests goes on. *)
Lemma flush_steps s todo st : s_committer s = Flushing todo st → can_step s.
Proof.
  intros Hc. destruct (map_choose_or_empty todo) as [(n & ws & Hn)|Hempty].
  - eapply (can_by (Flush n true)). simpl. by rewrite Hc, Hn.
  - eapply (can_by Flushed). simpl. rewrite Hc, bool_decide_eq_true_2 by done. done.
Qed.
Lemma queued_steps s n t : inv s → queued (s_committer s) n t → can_step s.
Proof.
  intros Hi Hq. destruct (s_committer s) as [|p [|]|todo st|] eqn:Hc.
  - unfold queued in Hq. simpl in Hq. rewrite lookup_empty in Hq. by apply elem_of_nil in Hq.
  - eapply (can_by Fire). simpl. by rewrite Hc.
  - rewrite (i_armed s (i_commit s Hi) p Hc) in Hq. unfold queued in Hq. simpl in Hq. rewrite lookup_empty in Hq. by apply elem_of_nil in Hq.
  - by eapply flush_steps.
  - unfold queued in Hq. simpl in Hq. rewrite lookup_empty in Hq. by apply elem_of_nil in Hq.
Qed.
Lemma busy_not_stopping s : inv s → s_ops s ≠ 0 → stopping (s_committer s) = false.
Proof.
  intros Hi Ho. destruct (i_phase s Hi) as [ph (_ & _ & Hp)]. destruct ph; simpl in Hp; [by destruct Hp as (_ & ? & _)..| |].
  - by destruct Hp as (_ & ? & _).
  - by destruct Hp as (? & _).
Qed.

(** The holder of a lock goes on. *)
Lemma holder_steps s t th : inv s → s_threads s !! t = Some th → holds th = true → can_step s.
Proof.
  intros Hi Ht Hh. pose proof (slots_le s t th Hi Ht) as Hle. unfold slots in Hle. unfold holds in Hh.
  destruct (t_pc th) as [| | |p|k|k| | | | |] eqn:Hp; try done; simpl in Hle.
  - destruct p as [ok|c k|k|f k].
    + eapply (can_by (Unlock t)). simpl. by rewrite Ht; simpl; rewrite Hp.
    + eapply (can_by (Step t true 0)). simpl. by rewrite Ht; simpl; rewrite Hp.
    + eapply (can_by (Step t true 0)). simpl. by rewrite Ht; simpl; rewrite Hp.
    + set (t' := fresh (dom (s_threads s))). assert (s_threads s !! t' = None) as Ht' by (apply not_elem_of_dom, is_fresh).
      destruct (exec (Spawn t t') s) as [s'|] eqn:He; [by eapply can_by|]. simpl in He. rewrite Ht in He. simpl in He.
      rewrite Hp in He. unfold exec_schedule in He. destruct (_ || _); [done|]. by rewrite Ht' in He.
  - destruct (s_committer s) as [|q a|todo st|] eqn:Hc.
    + destruct (i_started s (i_commit s Hi) Hc (c_list (t_call th)) t). exists th. unfold in_commit. by rewrite Hp.
    + eapply (can_by (Send t)). simpl. by rewrite Ht; simpl; rewrite Hp, Hc.
    + by eapply flush_steps.
    + pose proof (busy_not_stopping s Hi) as Hb. rewrite Hc in Hb. simpl in Hb. exfalso. assert (true = false) by (apply Hb; lia). done.
  - destruct (i_wait s (i_commit s Hi) (c_list (t_call th)) t) as [Hq|[ok Ha]].
    + exists th. unfold waits. by rewrite Hp.
    + by eapply queued_steps.
    + eapply (can_by (Answer t)). simpl. rewrite Ht. simpl. by rewrite Ha; simpl; rewrite Hp.
Qed.

Lemma thread_steps s t th : inv s → s_threads s !! t = Some th → ¬ returned th → can_step s.
Proof.
  intros Hi Ht Hr. pose proof (i_shape s (i_count s Hi) t th Ht) as Hsh. unfold shape in Hsh. unfold returned in Hr.
  destruct (t_pc th) as [| | |p|k|k|ok|ok| | |] eqn:Hp.
  - eapply (can_by (Wake t true)). simpl. by rewrite Ht; simpl; rewrite Hp.
  - eapply (can_by (Begin t)). simpl. by rewrite Ht; simpl; rewrite Hp.
  - destruct (exec (Lock t) s) as [s'|] eqn:He; [by eapply can_by|]. simpl in He. rewrite Ht in He. simpl in He. rewrite Hp in He.
    destruct (c_passes (t_call th)); [|done]. simpl in He. destruct (s_locks s !! c_list (t_call th)) as [t'|] eqn:Hl; [|done].
    apply (i_locks s Hi) in Hl as (th' & Ht' & _ & Hh). by eapply holder_steps.
  - eapply holder_steps; [done..|]. unfold holds. by rewrite Hp.
  - eapply holder_steps; [done..|]. unfold holds. by rewrite Hp.
  - eapply holder_steps; [done..|]. unfold holds. by rewrite Hp.
  - eapply (can_by (End t)). simpl. by rewrite Ht; simpl; rewrite Hp.
  - destruct (t_fold th) eqn:Hf; [|destruct Hr; right; by eexists]. eapply (can_by (Clear t)). simpl. by rewrite Ht; simpl; rewrite Hf, Hp.
  - destruct (t_fold th) eqn:Hf; [|destruct Hr; by left]. eapply (can_by (Clear t)). simpl. by rewrite Ht; simpl; rewrite Hf, Hp.
  - eapply (can_by (End t)). simpl. by rewrite Ht; simpl; rewrite Hp.
  - destruct (t_fold th) eqn:Hf; [done|]. by destruct Hsh.
Qed.

Lemma returned_slots th : returned th → slots th = 0.
Proof.
  unfold returned, slots, outer. destruct (t_fold th); [by intros ->|]. by intros [->|[ok ->]].
Qed.

Lemma closer_steps s c cl : inv s → s_ops s = 0 → s_closers s !! c = Some cl → cl ≠ CloseReturned → can_step s.
Proof.
  intros Hi Ho Hc Hcl.
  assert (∀ d x s', s_closers s !! d = Some x → exec_close d x s = Some s' → can_step s) as Hby.
  { intros d x s' Hd He. eapply (can_by (CloseStep d)). simpl. rewrite Hd. exact He. }
  assert (∀ d, s_closers s !! d = Some Draining → can_step s) as Hdrain.
  { intros d Hd. destruct (exec_close d Draining s) as [s'|] eqn:He; [by eapply Hby|]. simpl in He. rewrite Ho in He. simpl in He.
    by destruct (s_committer s). }
  assert (∀ d, s_closers s !! d = Some Stopping → s_committer s ≠ NotStarted → s_stop s = true → can_step s) as Hstop.
  { intros d Hd Hn Hs. destruct (s_committer s) as [|p a|todo st|] eqn:Hcom; [done| | |].
    - eapply (can_by StopSignal). simpl. by rewrite Hcom, Hs.
    - by eapply flush_steps.
    - eapply (Hby d Stopping); [done|]. simpl. by rewrite Hcom. }
  destruct (i_phase s Hi) as [ph Hph]. pose proof (phase_active _ _ _ _ _ _ _ _ _ Hph Hc) as [Hdr Hst].
  destruct Hph as (Hp1 & Hp2 & Hp3). destruct cl; [| | | |done].
  - destruct (exec_close c CloseCall s) as [s'|] eqn:He; [by eapply Hby|]. simpl in He. by destruct (s_closed s).
  - destruct ph as [|d|d|]; simpl in *.
    + destruct Hp3 as (_ & _ & H). by specialize (H c _ Hc).
    + destruct Hp3 as (_ & _ & Hd & _). by apply (Hdrain d).
    + destruct Hp3 as (? & ? & ? & ? & ?). by apply (Hstop d).
    + eapply (Hby c AwaitDone); [done|]. simpl. by rewrite Hp2.
  - by apply (Hdrain c).
  - rewrite (Hst eq_refl) in Hp3. destruct Hp3 as (? & ? & ? & ? & ?). by apply (Hstop c).
Qed.

Lemma progress s : inv s → finished s ∨ can_step s.
Proof.
  intros Hi. destruct (decide (map_Forall (λ _, returned) (s_threads s))) as [Hall|Hno].
  2:{ apply map_not_Forall in Hno as (t & th & Ht & Hr); [|apply _]. right. by eapply thread_steps. }
  assert (s_ops s = 0) as Ho.
  { rewrite (i_ops s (i_count s Hi)). apply total_zero. intros t th Ht. apply returned_slots. by apply (Hall t). }
  destruct (decide (map_Forall (λ _ cl, cl = CloseReturned) (s_closers s))) as [Hcl|Hno].
  2:{ apply map_not_Forall in Hno as (c & cl & Hc & Hr); [|apply _]. right. by eapply closer_steps. }
  assert (∀ f n t, (∀ th, returned th → f th = false) → ¬ has f n (s_threads s) t) as Hnone.
  { intros f n t Hf (th & Ht & _ & H). by rewrite (Hf th (Hall t th Ht)) in H. }
  assert (∀ n t, ¬ has waits n (s_threads s) t) as Hw.
  { intros n t. apply Hnone. intros th. unfold returned, waits. by destruct (t_fold th); [intros ->|intros [->|[ok ->]]]. }
  assert ((∃ c, s_closers s !! c = Some CloseReturned) ∨ s_closers s = ∅) as Hcs.
  { destruct (map_choose_or_empty (s_closers s)) as [(c & cl & Hc)|]; [left; exists c|by right]. by rewrite <-(Hcl c cl Hc). }
  assert (∀ c, s_closers s !! c = Some CloseReturned → s_closed s = true ∧ (s_committer s = NotStarted ∨ s_committer s = Stopped)) as Hclosed.
  { intros c Hc. destruct (i_phase s Hi) as [ph (Hp1 & _ & Hp3)]. destruct ph as [|d|d|]; simpl in *.
    - destruct Hp3 as (_ & _ & H). by specialize (H c _ Hc).
    - destruct Hp3 as (_ & _ & Hd & _). by specialize (Hcl d _ Hd).
    - destruct Hp3 as (_ & _ & _ & Hd & _). by specialize (Hcl d _ Hd).
    - by destruct Hp3 as (_ & ? & _). }
  assert (finished s ∨ can_step s ∨ ∃ p a, s_committer s = Selecting p a ∧ (a = true ∨ s_closed s = true)) as [?|[?|(p & a & Hc & Ha)]]; auto.
  2:{ destruct a; [right; eapply (can_by Fire); simpl; by rewrite Hc|]. destruct Ha as [|Ha]; [done|].
      destruct (i_phase s Hi) as [ph (Hp1 & _ & Hp3)]. rewrite Ha in Hp1. destruct ph as [|d|d|]; simpl in *; [done|..].
      - destruct Hp3 as (_ & _ & Hd & _). by specialize (Hcl d _ Hd).
      - destruct Hp3 as (_ & _ & _ & Hd & _). by specialize (Hcl d _ Hd).
      - destruct Hp3 as (_ & [?|?] & _); congruence. }
  assert (s_committer s = NotStarted ∨ s_committer s = Stopped ∨ s_committer s = Selecting ∅ false ∧ s_closed s = false ∨
    (can_step s ∨ ∃ p a, s_committer s = Selecting p a ∧ (a = true ∨ s_closed s = true))) as Hcom.
  { destruct (s_committer s) as [|p [|]|todo st|] eqn:Hc; [by left| | | |by right; left].
    - right. right. right. right. exists p, true. auto.
    - rewrite (i_armed s (i_commit s Hi) p Hc) in *. right. right. destruct (s_closed s) eqn:Hcd; [right; right; eauto|by left].
    - right. right. right. left. by eapply flush_steps. }
  assert (s_committer s = NotStarted ∨ s_committer s = Stopped ∨ s_committer s = Selecting ∅ false ∧ s_closed s = false → finished s) as Hfin; [|naive_solver].
  intros Hidle. split_and!; try done.
  - intros c cl Hc. pose proof (Hcl c cl Hc) as ->. split; [done|]. by eapply Hclosed.
  - apply map_empty. intros n. apply eq_None_not_Some. intros [t Hl]. apply (i_locks s Hi), Hnone in Hl; [done|].
    intros th. unfold returned, holds. by destruct (t_fold th); [intros ->|intros [->|[ok ->]]].
  - apply set_eq. intros n. rewrite (i_fold s (i_folds s Hi)). split; [|set_solver]. intros [t Ht%Hnone]; [done|].
    intros th. unfold returned, folding. by destruct (t_fold th); [intros ->|intros _].
  - apply map_empty. intros t. apply eq_None_not_Some. intros Ha. apply (i_answer s (i_commit s Hi)) in Ha as [n Hn]. by apply Hw in Hn.
Qed.

(** C17: the store comes to rest.  Whatever calls are made - mutations, closes, folds
    in the background - and however their steps interleave, no run is longer than
    the measure of its state, so none goes on for ever; and a run can only end when
    every call has returned and every [Close] too, with no lock, request, answer or
    fold left: no interleaving deadlocks, and no waiter of the group commit is
    stranded. *)
Theorem store_comes_to_rest files calls closers s : reachable files calls closers s →
  (∀ n s', nsteps step n s s' → n ≤ measure s) ∧ ∀ s', rtc step s s' → nf step s' → finished s'.
Proof.
  intros Hr%reachable_inv. split.
  - intros n s' H. pose proof (measure_run n s s' H). lia.
  - intros s' Hs Hnf. destruct (progress s' (inv_rtc s s' Hr Hs)) as [|Hc]; done.
Qed.

(** ** One writer, one fold *)

(** C19: locks and folds are exclusive.  However calls interleave, at most one thread
    runs under the lock of a list - appends, waits for a group commit, compacts - and
    at most one background fold per list is in flight; and the counter that [Close]
    drains is exactly the number of slots its calls and folds hold. *)
Theorem one_writer_one_fold files calls closers s n t t' : reachable files calls closers s →
  (has holds n (s_threads s) t → has holds n (s_threads s) t' → t = t') ∧
  (has folding n (s_threads s) t → has folding n (s_threads s) t' → t = t') ∧
  s_ops s = total slots (s_threads s).
Proof.
  intros Hi%reachable_inv. split_and!.
  - intros H1%(i_locks s Hi) H2%(i_locks s Hi). congruence.
  - apply (i_one s (i_folds s Hi)).
  - apply (i_ops s (i_count s Hi)).
Qed.

(** ** Closing *)

(** A released store: no slot, no committer. *)
Definition released (s : state) : Prop :=
  s_closed s = true ∧ s_done s = true ∧ (∀ t th, s_threads s !! t = Some th → slots th = 0) ∧
  (s_committer s = NotStarted ∨ s_committer s = Stopped).

Lemma done_released s : inv s → s_done s = true → released s.
Proof.
  intros Hi Hd. destruct (i_phase s Hi) as [ph (Hp1 & Hp2 & Hp3)]. rewrite Hd in Hp2. destruct ph; simpl in *; try done.
  destruct Hp3 as (Ho & Hc & _). split_and!; [done|done| |done]. intros t th Ht. pose proof (slots_le s t th Hi Ht). lia.
Qed.

(** A step of a released store changes neither a file nor the release. *)
Lemma released_step s s' : inv s → s_done s = true → step s s' → s_files s' = s_files s ∧ s_done s' = true.
Proof.
  intros Hi Hd [a Ha]. destruct (done_released s Hi Hd) as (Hc & _ & Hs & Hcom). revert Ha.
  assert (∀ t th, s_threads s !! t = Some th → t_pc th = Calling ∨ t_pc th = Refused ∨ (∃ ok, t_pc th = Returned ok) ∨ t_pc th = Ended) as Hpc.
  { intros t th Ht. pose proof (Hs t th Ht) as H. pose proof (i_shape s (i_count s Hi) t th Ht) as Hsh. unfold slots, outer, shape in *.
    destruct (t_pc th); simpl in *; try lia; eauto; destruct (t_fold th); try done; lia. }
  assert (∀ c cl, s_closers s !! c = Some cl → cl = CloseCall ∨ cl = AwaitDone ∨ cl = CloseReturned) as Hcl.
  { destruct (i_phase s Hi) as [ph (_ & Hp2 & Hp3)]. rewrite Hd in Hp2. destruct ph; try done. apply Hp3. }
  destruct a as [t|t|t ok n|t t'|t|t|t|t|t due|t| |n ok| | |c]; simpl.
  1-10: destruct (s_threads s !! t) as [th|] eqn:Ht; [|done]; simpl; destruct (Hpc t th Ht) as [->|[->|[[? ->]| ->]]]; rewrite ?Hc;
    try destruct (s_answers s !! t); try destruct (t_fold th); simpl; try done; by intros [= <-].
  1-4: destruct Hcom as [-> | ->]; done.
  destruct (s_closers s !! c) as [cl|] eqn:Hx; [|done]. simpl. unfold exec_close.
  destruct (Hcl c cl Hx) as [->|[->| ->]]; rewrite ?Hc, ?Hd; [|by intros [= <-]|done]. by intros [= <-].
Qed.
Lemma released_rtc s s' : inv s → s_done s = true → rtc step s s' → s_files s' = s_files s ∧ s_done s' = true.
Proof.
  intros Hi Hd H. induction H as [s|s s1 s' Hs H IH]; [done|]. destruct (released_step s s1 Hi Hd Hs) as [Hf Hd1].
  destruct IH as [Hf' Hd']; [by eapply inv_step|done|]. by rewrite Hf'.
Qed.

(** C18: [Close] releases the directory.  When any [Close] has returned - the one that
    drained or one that waited for it - no call and no fold holds a slot, the group
    committer has not been started or has returned, and from then on no step of this
    store changes a file; later calls are refused. *)
Theorem close_releases files calls closers s c : reachable files calls closers s → s_closers s !! c = Some CloseReturned →
  released s ∧ ∀ s', rtc step s s' → s_files s' = s_files s ∧ released s'.
Proof.
  intros Hi%reachable_inv Hc.
  assert (s_done s = true) as Hd.
  { destruct (i_phase s Hi) as [ph (_ & Hp2 & Hp3)]. destruct ph as [|d|d|]; simpl in *; [| | |done].
    - destruct Hp3 as (_ & _ & H). by specialize (H c _ Hc).
    - destruct Hp3 as (_ & _ & Hd & H). destruct (decide (c = d)) as [->|Hn]; [congruence|]. by destruct (H c _ Hn Hc).
    - destruct Hp3 as (_ & _ & _ & Hd & H). destruct (decide (c = d)) as [->|Hn]; [congruence|]. by destruct (H c _ Hn Hc). }
  split; [by apply done_released|]. intros s' Hs. destruct (released_rtc s s' Hi Hd Hs) as [Hf Hd']. split; [done|].
  apply done_released; [by eapply inv_rtc|done].
Qed.

(** ** Sequential reasoning under a list's lock *)

(** What a body establishes when it runs alone: [Q c ok f] for its call, its result
    and the journal it leaves, whatever fails on the way - and so do the folds it
    schedules, from any journal. *)
Fixpoint ensures (Q : call → bool → jfile → Prop) (p : prog) (c : call) (f : jfile) : Prop :=
  match p with
  | Done ok => Q c ok f
  | Call x k => ∀ ok n, ensures Q (k ok) c (jrun x ok n f)
  | Commit k => ∀ ok, ensures Q (k ok) c (jrun Sync ok 0 f)
  | Schedule fold k => (∀ g, ensures Q fold (mkCall (c_list c) true fold) g) ∧ ensures Q k c f
  end.

Section journals.
Context (Q : call → bool → jfile → Prop).

(** What the invariant knows of a thread's journal. *)
Definition journal_ok (s : state) (t : tid) (th : thread) : Prop :=
  let c := t_call th in let f := file s (c_list c) in
  match t_pc th with
  | Running p => ensures Q p c f
  | Sending k => ensures Q (Commit k) c f
  | Waiting k => match s_answers s !! t with Some ok => ensures Q (k ok) c f | None => ensures Q (Commit k) c f end
  | Returned _ | Refused | Cleared | Ended | Unlocked _ => True
  | _ => ∀ g, ensures Q (c_body c) c g
  end.
Definition journals_ok (s : state) : Prop := ∀ t th, s_threads s !! t = Some th → journal_ok s t th.
(** A file is in a batch because somebody waits for it. *)
Definition queues_ok (s : state) : Prop := ∀ n ws, queue (s_committer s) !! n = Some ws → ws ≠ [].

(** A thread's part survives a step that leaves its journal and its answer. *)
Lemma journal_keep s s' t th : journal_ok s t th → (holds th = true → file s' (c_list (t_call th)) = file s (c_list (t_call th))) →
  (waits th = true → s_answers s' !! t = s_answers s !! t) → journal_ok s' t th.
Proof.
  intros Hj Hs Ha. unfold journal_ok, holds, waits in *. destruct (t_pc th); try done; rewrite Hs by done; [done..|].
  by rewrite Ha.
Qed.
(** A step of one thread: only the holder of a lock touches its list's journal. *)
Lemma journals_goto s s' t th p : inv s → journals_ok s → s_threads s !! t = Some th →
  s_threads s' = <[t := mkThread (t_fold th) (t_call th) p]> (s_threads s) →
  (∀ u, u ≠ t → s_answers s' !! u = s_answers s !! u) →
  (∀ n, n ≠ c_list (t_call th) ∨ holds th = false → file s' n = file s n) →
  journal_ok s' t (mkThread (t_fold th) (t_call th) p) → journals_ok s'.
Proof.
  intros Hi Hj Ht Hths Ha Hf Hp u x. rewrite Hths. destruct (decide (u = t)) as [->|Hu]; [rewrite lookup_insert_eq; by intros [= <-]|].
  rewrite lookup_insert_ne by done. intros Hx. eapply journal_keep; [by apply Hj| |intros _; by apply Ha].
  intros Hh. apply Hf. destruct (holds th) eqn:Hth; [left|by right]. intros E. apply Hu.
  pose proof (has_self holds _ _ _ Hx Hh) as H1. pose proof (has_self holds _ _ _ Ht Hth) as H2. rewrite E in H1.
  apply (i_locks s Hi) in H1, H2. congruence.
Qed.

Lemma file_set n f s m : file (set_file n f s) m = if decide (m = n) then f else file s m.
Proof.
  unfold file, set_file. simpl. destruct (decide (m = n)) as [->|]; [by rewrite lookup_insert_eq|by rewrite lookup_insert_ne].
Qed.
Lemma file_goto t th p s n : file (goto t th p s) n = file s n.
Proof. done. Qed.

Lemma journals_body t ok n s s' : inv s → journals_ok s → exec (Step t ok n) s = Some s' → journals_ok s'.
Proof.
  intros Hi Hj. threaded t th Ht. pose proof (Hj t th Ht) as Hme. unfold journal_ok in Hme.
  destruct (t_pc th) as [| | |p| | | | | | |] eqn:Hp; try done.
  destruct p as [|c k|k|]; try done; simpl; intros [= <-].
  - eapply journals_goto; [done|done|exact Ht|reflexivity|done| |].
    + intros m [Hm|Hh]; [|unfold holds in Hh; by rewrite Hp in Hh]. rewrite file_goto, file_set. by rewrite decide_False.
    + unfold journal_ok. simpl. rewrite file_goto, file_set, decide_True by done. apply Hme.
  - eapply journals_goto; [done|done|exact Ht|reflexivity|done|done|exact Hme].
Qed.

Lemma lookup_answer_all ok ws a t : answer_all ok ws a !! t = if decide (t ∈ ws) then Some ok else a !! t.
Proof.
  induction ws as [|u ws IH]; [done|]. change (answer_all ok (u :: ws) a) with (<[u := ok]> (answer_all ok ws a)).
  destruct (decide (t = u)) as [->|Hu].
  - rewrite lookup_insert_eq. by rewrite decide_True by set_solver.
  - rewrite lookup_insert_ne, IH by done. destruct (decide (t ∈ ws)); [by rewrite decide_True by set_solver|by rewrite decide_False by set_solver].
Qed.
Lemma journals_flush n ok s s' : inv s → queues_ok s → journals_ok s → exec (Flush n ok) s = Some s' → journals_ok s'.
Proof.
  intros Hi Hq Hj. simpl. destruct (s_committer s) as [| |todo st|] eqn:Hc; try done. destruct (todo !! n) as [ws|] eqn:Hn; [|done]. simpl.
  assert (∀ t, t ∈ ws → has waits n (s_threads s) t ∧ s_answers s !! t = None) as Hws.
  { intros t Hin. apply (i_queue s (i_commit s Hi)). rewrite Hc. unfold queued. simpl. by rewrite Hn. }
  intros [= <-] t th Ht. change (s_threads s !! t = Some th) in Ht. destruct (decide (t ∈ ws)) as [Hin|Hin].
  - destruct (Hws t Hin) as [Hw Hno]. apply (has_inv _ _ _ _ _ Ht) in Hw as [-> Hw]. pose proof (Hj t th Ht) as Hme.
    unfold journal_ok, waits in *. destruct (t_pc th); try done. rewrite Hno in Hme. simpl. rewrite lookup_answer_all, decide_True by done.
    change (file (set_answers _ _)) with (file (sync_file ok (c_list (t_call th)) s)). unfold sync_file. rewrite file_set, decide_True by done.
    apply Hme.
  - eapply journal_keep; [by apply Hj| |].
    + intros Hh. change (file (set_answers _ _)) with (file (sync_file ok n s)). unfold sync_file. rewrite file_set.
      apply decide_False. intros E. destruct ws as [|u ws]; [by apply (Hq n []); rewrite ?Hc|].
      destruct (Hws u) as [(x & Hu & Hl & Hw) _]; [set_solver|]. assert (has holds n (s_threads s) u) as H1.
      { exists x. split_and!; [done..|]. unfold waits, holds in *. by destruct (t_pc x). }
      pose proof (has_self holds _ _ _ Ht Hh) as H2. rewrite E in H2. apply (i_locks s Hi) in H1, H2. set_solver.
    + intros _. simpl. by rewrite lookup_answer_all, decide_False.
Qed.

Lemma journals_spawn t t' s s' : inv s → journals_ok s → exec (Spawn t t') s = Some s' → journals_ok s'.
Proof.
  intros Hi Hj. threaded t th Ht. pose proof (Hj t th Ht) as Hme. unfold journal_ok in Hme.
  destruct (t_pc th) as [| | |p| | | | | | |] eqn:Hp; try done.
  destruct p as [| | |f k]; try done. destruct Hme as [Hf Hk]. unfold exec_schedule.
  assert (journals_ok (goto t th (Running k) s)) as Hgo.
  { by eapply journals_goto; [done|done|exact Ht|reflexivity|done|done|]. }
  destruct (bool_decide _ || s_closed s); [by intros [= <-]|]. destruct (s_threads s !! t') eqn:Ht'; [done|]. intros [= <-].
  intros u x. simpl. destruct (decide (u = t')) as [->|Hu]; [rewrite lookup_insert_eq; by intros [= <-]|].
  rewrite lookup_insert_ne by done. intros Hx. by apply (Hgo u x).
Qed.

Lemma journals_answer t s s' : inv s → journals_ok s → exec (Answer t) s = Some s' → journals_ok s'.
Proof.
  intros Hi Hj. threaded t th Ht. pose proof (Hj t th Ht) as Hme. unfold journal_ok in Hme.
  destruct (s_answers s !! t) as [ok|] eqn:Ha; [|done]. simpl. destruct (t_pc th) eqn:Hp; try done.
  intros [= <-]. eapply journals_goto; [done|done|exact Ht|reflexivity| |done|exact Hme].
  intros u Hu. simpl. by rewrite lookup_delete_ne.
Qed.

(** The other steps: of one thread that touches no journal, or of none. *)
Lemma journals_other t th p s s' : inv s → journals_ok s → s_threads s !! t = Some th →
  s_threads s' = <[t := mkThread (t_fold th) (t_call th) p]> (s_threads s) → s_answers s' = s_answers s → s_files s' = s_files s →
  (journal_ok s t th → journal_ok s t (mkThread (t_fold th) (t_call th) p)) → journals_ok s'.
Proof.
  intros Hi Hj Ht Hths Ha Hf Hp. assert (∀ n, file s' n = file s n) as Hfile by (intros; unfold file; by rewrite Hf).
  eapply journals_goto; [done|done|exact Ht|done|by rewrite Ha|done|].
  eapply journal_keep; [by apply Hp, Hj| |]; rewrite ?Hfile, ?Ha; auto.
Qed.
Lemma journals_none s s' : journals_ok s → s_threads s' = s_threads s → s_answers s' = s_answers s → s_files s' = s_files s → journals_ok s'.
Proof.
  intros Hj Hths Ha Hf t th. rewrite Hths. intros Ht. eapply journal_keep; [by apply Hj| |]; unfold file; rewrite ?Hf, ?Ha; auto.
Qed.

Lemma journals_step s s' : inv s → queues_ok s → journals_ok s → step s s' → journals_ok s'.
Proof.
  intros Hi Hq Hj [a Ha]. revert Ha. destruct a as [t|t|t ok n|t t'|t|t|t|t|t due|t| |n ok| | |c].
  - threaded t th Ht. destruct (t_pc th) eqn:Hp; try done.
    destruct (s_closed s); intros [= <-]; (eapply journals_other; [done|done|exact Ht|done..|]); unfold journal_ok; by rewrite Hp.
  - threaded t th Ht. destruct (t_pc th) eqn:Hp; try done.
    destruct (c_passes _); simpl; [destruct (s_locks s !! _); [done|]|]; intros [= <-];
      (eapply journals_other; [done|done|exact Ht|done..|]); unfold journal_ok; rewrite Hp; simpl; eauto.
  - by apply journals_body.
  - by apply journals_spawn.
  - threaded t th Ht. destruct (t_pc th) as [| | | |k| | | | | |] eqn:Hp; try done. destruct (s_committer s) eqn:Hc; try done. intros [= <-].
    eapply journals_other; [done|done|exact Ht|done..|]. unfold journal_ok. rewrite Hp. simpl. intros H.
    destruct (s_answers s !! t) eqn:Ha; [|done]. destruct (i_answer s (i_commit s Hi) t) as [n Hn]; [by eexists|].
    apply (has_inv _ _ _ _ _ Ht) in Hn as [_ Hn]. unfold waits in Hn. by rewrite Hp in Hn.
  - by apply journals_answer.
  - threaded t th Ht. destruct (t_pc th) as [| | |p| | | | | | |] eqn:Hp; try done. destruct p; try done. intros [= <-].
    by eapply journals_other; [done|done|exact Ht|done..|].
  - threaded t th Ht. destruct (t_pc th) eqn:Hp; try done; intros [= <-]; by eapply journals_other; [done|done|exact Ht|done..|].
  - threaded t th Ht. destruct (t_pc th) eqn:Hp; try done. intros [= <-].
    eapply journals_other; [done|done|exact Ht|done..|]. unfold journal_ok. rewrite Hp. by destruct due.
  - threaded t th Ht. destruct (t_fold th) eqn:Hf; [|done].
    destruct (t_pc th) eqn:Hp; try done; intros [= <-]; by eapply journals_other; [done|done|exact Ht|done..|].
  - simpl. destruct (s_committer s) as [|q [|]| |]; try done. intros [= <-]. by eapply journals_none.
  - by apply journals_flush.
  - simpl. destruct (s_committer s); try done. case_bool_decide; [|done]. intros [= <-]. by eapply journals_none.
  - simpl. destruct (s_committer s); try done. destruct (s_stop s); [|done]. intros [= <-]. by eapply journals_none.
  - simpl. destruct (s_closers s !! c) as [cl|]; [|done]. simpl. unfold exec_close.
    destruct cl; [destruct (s_closed s)|destruct (s_done s)|destruct (s_ops s =? 0); [destruct (s_committer s)|]|destruct (s_committer s)|];
      try done; intros [= <-]; by eapply journals_none.
Qed.
End journals.

Lemma queues_start c n ws : (∀ n ws, queue c !! n = Some ws → ws ≠ []) → queue (start_committer c) !! n = Some ws → ws ≠ [].
Proof. destruct c; eauto. Qed.
Lemma queues_same s s' : queues_ok s → s_committer s' = s_committer s → queues_ok s'.
Proof. unfold queues_ok. intros H ->. exact H. Qed.
Lemma queues_step s s' : queues_ok s → step s s' → queues_ok s'.
Proof.
  intros Hq [a Ha]. revert Ha. destruct a as [t|t|t ok n|t t'|t|t|t|t|t due|t| |n ok| | |c].
  1-10: threaded t th Ht.
  - destruct (t_pc th); try done. by destruct (s_closed s); intros [= <-].
  - destruct (t_pc th); try done. destruct (c_passes _); simpl; [destruct (s_locks s !! _); [done|]|]; by intros [= <-].
  - destruct (t_pc th) as [| | |p| | | | | | |]; try done. destruct p; try done; simpl; intros [= <-]; [done|]. intros n' ws. simpl. by apply queues_start.
  - destruct (t_pc th) as [| | |p| | | | | | |]; try done. destruct p; try done. unfold exec_schedule.
    destruct (_ || _); [by intros [= <-]|]. destruct (s_threads s !! t'); [done|]. by intros [= <-].
  - destruct (t_pc th); try done. destruct (s_committer s) as [|q a| |] eqn:Hc; try done. intros [= <-] n ws. simpl. unfold enqueue.
    destruct (decide (n = c_list (t_call th))) as [->|Hn]; [rewrite lookup_insert_eq|rewrite lookup_insert_ne by done].
    + intros [= <-]. by destruct (default [] _).
    + intros H. apply (Hq n). by rewrite Hc.
  - destruct (s_answers s !! t); [|done]. simpl. destruct (t_pc th); try done. by intros [= <-].
  - destruct (t_pc th) as [| | |p| | | | | | |]; try done. destruct p; try done. by intros [= <-].
  - destruct (t_pc th); try done; by intros [= <-].
  - destruct (t_pc th); try done; by intros [= <-].
  - destruct (t_fold th); [|done]. destruct (t_pc th); try done; by intros [= <-].
  - simpl. destruct (s_committer s) as [|q [|]| |] eqn:Hc; try done. intros [= <-] n ws. simpl. intros H. apply (Hq n). by rewrite Hc.
  - simpl. destruct (s_committer s) as [| |todo st|] eqn:Hc; try done. destruct (todo !! n); [|done]. simpl. intros [= <-] n' ws'. simpl.
    intros [_ H]%lookup_delete_Some. apply (Hq n'). by rewrite Hc.
  - simpl. destruct (s_committer s) as [| |todo st|] eqn:Hc; try done. case_bool_decide; [|done]. intros [= <-] n ws. simpl. by destruct st.
  - simpl. destruct (s_committer s) as [|q a| |] eqn:Hc; try done. destruct (s_stop s); [|done]. intros [= <-] n ws. simpl. intros H. apply (Hq n). by rewrite Hc.
  - simpl. destruct (s_closers s !! c) as [cl|]; [|done]. simpl. unfold exec_close.
    destruct cl; [destruct (s_closed s)|destruct (s_done s)|destruct (s_ops s =? 0); [destruct (s_committer s) eqn:Hc|]|destruct (s_committer s) eqn:Hc|];
      try done; intros [= <-]; apply (queues_same s); done.
Qed.

Lemma journals_reachable Q files calls closers s : (∀ t c, calls !! t = Some c → ∀ g, ensures Q (c_body c) c g) →
  reachable files calls closers s → journals_ok Q s.
Proof.
  intros Hd Hr. assert (journals_ok Q (init files calls closers)) as H0.
  { intros t th. simpl. rewrite lookup_fmap. destruct (calls !! t) as [c|] eqn:Hc; [|done]. intros [= <-].
    unfold journal_ok. simpl. intros g. exact (Hd t c Hc g). }
  pose proof (init_inv files calls closers) as Hi. assert (queues_ok (init files calls closers)) as Hq by done.
  unfold reachable in Hr. revert H0 Hi Hq. generalize (init files calls closers), Hr.
  clear Hr. intros s0 Hr. induction Hr as [|s0 s1 s Hs _ IH]; [done|]. intros Hj Hi Hq.
  apply IH; [by eapply journals_step|by eapply inv_step|by eapply queues_step].
Qed.

(** The lock makes sequential reasoning sound.  If a body, run alone, leaves its
    journal with [Q] whatever calls fail, then it does so in every interleaving with
    other mutations, folds, closes and flushes of the group committer: when it is
    about to release the lock with its result, [Q] holds of the journal. *)
Theorem sequential_under_lock Q files calls closers s t th ok :
  (∀ t c, calls !! t = Some c → ∀ g, ensures Q (c_body c) c g) → reachable files calls closers s →
  s_threads s !! t = Some th → t_pc th = Running (Done ok) → Q (t_call th) ok (file s (c_list (t_call th))).
Proof.
  intros Hd Hr Ht Hp. pose proof (journals_reachable Q files calls closers s Hd Hr t th Ht) as Hj.
  unfold journal_ok in Hj. by rewrite Hp in Hj.
Qed.

(** ** Acknowledged writes are durable *)

(** What an acknowledged request has done to its journal: a mutation has appended its
    records, and unless [FsyncNone] the whole journal is fsynced; a compaction has
    emptied it, and that is fsynced. *)
Definition acked (mode : FsyncMode) (r : request) (f : jfile) : Prop :=
  match r with
  | Mutate _ _ buf _ => (mode ≠ FsyncNone → j_synced f = j_data f) ∧ ∃ pre, j_data f = pre ++ buf
  | Compaction _ _ _ => j_data f = [] ∧ j_synced f = []
  end.
Definition acked_call (mode : FsyncMode) (c : call) (ok : bool) (f : jfile) : Prop :=
  ok = true → ∃ r, c = call_of mode r ∧ acked mode r f.

(** A program that only fails. *)
Lemma others_ensures Q n k c f : (∀ g, Q c false g) → (∀ g, ensures Q k c g) → ensures Q (others n k) c f.
Proof. intros Hq Hk. revert f. induction n as [|n IH]; intros f; simpl; [done|]. intros [] m; simpl; [apply IH|apply Hq]. Qed.
Lemma roll_ensures Q o c f : (∀ g, Q c false g) → ensures Q (roll o) c f.
Proof. intros Hq ok n. destruct o; simpl; [intros ok' n'|]; apply Hq. Qed.
Lemma acked_fails mode c f : acked_call mode c false f.
Proof. done. Qed.
Lemma compaction_ensures mode l p n f : ensures (acked_call mode) (compact_prog n) (call_of mode (Compaction l p n)) f.
Proof.
  apply others_ensures; [done|]. intros g [] m; [|done]. intros [] m'; [|done]. intros ok m'' _.
  exists (Compaction l p n). split; [done|]. by destruct ok.
Qed.
Lemma finish_ensures mode l p buf due f : (mode ≠ FsyncNone → j_synced f = j_data f) → (∃ pre, j_data f = pre ++ buf) →
  ensures (acked_call mode) (finish_prog (compact_prog <$> due)) (call_of mode (Mutate l p buf due)) f.
Proof.
  intros Hs Hd. assert (∀ c, c = call_of mode (Mutate l p buf due) → acked_call mode c true f) as Hq.
  { intros c -> _. by exists (Mutate l p buf due). }
  destruct due as [n|]; simpl; [split|]; [|by apply Hq..]. intros g. apply (compaction_ensures mode l true n).
Qed.
Lemma mutation_ensures mode l p buf due f :
  ensures (acked_call mode) (c_body (call_of mode (Mutate l p buf due))) (call_of mode (Mutate l p buf due)) f.
Proof.
  set (c := call_of mode (Mutate l p buf due)). intros [] n1; [|done]. intros [] n2; [|by intros ok n].
  intros [] n3; [|by apply roll_ensures]. simpl.
  set (g := mkJfile _ _ _). assert (∃ pre, j_data g = pre ++ buf) as Hg by by eexists. clearbody g.
  assert (∀ g, (mode = FsyncEvery → j_synced g = j_data g) → (∃ pre, j_data g = pre ++ buf) →
    ensures (acked_call mode) (close_prog mode (finish_prog (compact_prog <$> due))) c g) as Hclose.
  { intros h Hs Hd [] n4; [|by apply roll_ensures]. destruct mode; simpl.
    - apply (finish_ensures FsyncNone l p buf due); done.
    - apply (finish_ensures FsyncEvery l p buf due); auto.
    - intros []; [|by apply roll_ensures]. by apply (finish_ensures FsyncInterval l p buf due). }
  unfold sync_prog. destruct mode eqn:Hm; [by apply Hclose| |by apply Hclose].
  intros [] n4; [|by apply roll_ensures]. by apply Hclose.
Qed.

(** The records of a body: requests with the same body are acknowledged alike. *)
Definition appended (p : prog) : option bytes :=
  match p with
  | Call Other k => match k true with Call Seek k => match k true with Call (Append b) _ => Some b | _ => None end | _ => None end
  | _ => None
  end.
Lemma acked_det mode r r' f : call_of mode r = call_of mode r' → acked mode r f → acked mode r' f.
Proof.
  intros E%(f_equal (λ c, appended (c_body c))). destruct r as [l p buf due|l p n], r' as [l' p' buf' due'|l' p' n']; simpl in *.
  - by injection E as ->.
  - by destruct n' as [|[|n']].
  - by destruct n as [|[|n]].
  - done.
Qed.

(** C16: acknowledged writes are durable.  For any requests on the lists of a store, in
    any interleaving with each other, the folds they schedule, the closes and the
    flushes of the group committer, and whatever system calls fail: when a mutation is
    about to report success, still under the lock, its records end the journal, and
    in the modes that sync the whole journal is on stable storage - also when, in the
    interval mode, it was the committer that flushed it; a compaction has emptied the
    journal durably. *)
Theorem acked_durable mode files reqs closers s t th r : reachable files (call_of mode <$> reqs) closers s →
  s_threads s !! t = Some th → t_call th = call_of mode r → t_pc th = Running (Done true) →
  acked mode r (file s (c_list (t_call th))).
Proof.
  intros Hr Ht Hc Hp. pose proof (λ H, journals_reachable (acked_call mode) files _ closers s H Hr t th Ht) as Hj.
  unfold journal_ok in Hj. rewrite Hp in Hj. destruct Hj as (r' & Hc' & Ha); [|done|].
  - intros t' c. rewrite lookup_fmap. destruct (reqs !! t') as [[l p buf due|l p n]|]; [intros [= <-]..|done]; intros g.
    + apply (mutation_ensures mode l p buf due).
    + apply (compaction_ensures mode l p n).
  - apply (acked_det mode r'); [by rewrite <-Hc', Hc|done].
Qed.
