(* ===== verification/Wire.v ===== *)
(** Bytes read in place: little-endian words, slices and reads that panic out of
    range, and the arithmetic of [uint64], for the prepared artifacts of
    [engine/prepared]. *)

From S2P Require Import Prelude.

(** ** Little-endian integers: [binary.LittleEndian] *)

Fixpoint put_le (k : nat) (v : N) : bytes :=
  match k with O => [] | S k => (v mod 256)%N :: put_le k (v / 256)%N end.
Definition get_le (b : bytes) : N := foldr (λ c acc, c + 256 * acc)%N 0%N b.
Definition put16 : N → bytes := put_le 2.
Definition put32 : N → bytes := put_le 4.
Definition put64 : N → bytes := put_le 8.

Definition is_bytes (b : bytes) : Prop := Forall (λ c, (c < 256)%N) b.

Lemma put_le_length k v : length (put_le k v) = k.
Proof. revert v. induction k as [|k IH]; intros v; simpl; [done|]. by rewrite IH. Qed.
Lemma put_le_bytes k v : is_bytes (put_le k v).
Proof. revert v. induction k as [|k IH]; intros v; constructor; [by apply N.mod_lt|apply IH]. Qed.
Lemma get_le_lt b : is_bytes b → (get_le b < 256 ^ N.of_nat (length b))%N.
Proof.
  induction 1 as [|c b Hc Hb IH]; [done|]. cbn [get_le foldr length]. fold (get_le b).
  rewrite Nat2N.inj_succ, N.pow_succ_r'. lia.
Qed.
Lemma get_put_le k v : (v < 256 ^ N.of_nat k)%N → get_le (put_le k v) = v.
Proof.
  revert v. induction k as [|k IH]; intros v Hv; [by apply N.lt_1_r in Hv|]. cbn [get_le put_le foldr]. fold (get_le (put_le k (v / 256))).
  rewrite Nat2N.inj_succ, N.pow_succ_r' in Hv. rewrite IH by (apply N.Div0.div_lt_upper_bound; lia).
  pose proof (N.div_mod v 256). lia.
Qed.
Lemma put_get_le b : is_bytes b → put_le (length b) (get_le b) = b.
Proof.
  induction 1 as [|c b Hc Hb IH]; [done|]. cbn [get_le put_le foldr length]. fold (get_le b).
  rewrite (N.mul_comm 256), N.Div0.mod_add, N.div_add, N.mod_small, N.div_small by done. by rewrite N.add_0_l, IH.
Qed.

(** ** Slices *)

Definition blen (b : bytes) : N := N.of_nat (length b).
(** The bytes from [lo] to [hi]. *)
Definition seg (b : bytes) (lo hi : N) : bytes := take (N.to_nat (hi - lo)) (drop (N.to_nat lo) b).

(** Go's [int] bounds every slice. *)
Definition max_int : N := (2 ^ 63 - 1)%N.

Lemma blen_app a b : blen (a ++ b) = (blen a + blen b)%N.
Proof. unfold blen. rewrite length_app. lia. Qed.
Lemma blen_seg b lo hi : (lo <= hi)%N → (hi <= blen b)%N → blen (seg b lo hi) = (hi - lo)%N.
Proof. unfold blen, seg. intros. rewrite length_take, length_drop. lia. Qed.
Lemma seg_app_l a b lo hi : (hi <= blen a)%N → seg (a ++ b) lo hi = seg a lo hi.
Proof.
  unfold blen, seg. intros Hh. destruct (decide (lo <= hi)%N) as [Hl|Hl].
  - rewrite drop_app_le by lia. apply take_app_le. rewrite length_drop. lia.
  - by replace (N.to_nat (hi - lo)) with 0 by lia.
Qed.
Lemma seg_app_r a b lo hi : (blen a <= lo)%N → seg (a ++ b) lo hi = seg b (lo - blen a) (hi - blen a).
Proof.
  unfold blen, seg. intros Hl. rewrite drop_app_ge by lia. f_equal; [lia|]. f_equal. lia.
Qed.
Lemma seg_all b : seg b 0 (blen b) = b.
Proof. unfold seg, blen. rewrite N.sub_0_r, drop_0, Nat2N.id. by apply take_ge. Qed.
(** Reading a part of a concatenation back. *)
Lemma seg_mid a m b lo hi : lo = blen a → hi = (blen a + blen m)%N → seg (a ++ m ++ b) lo hi = m.
Proof.
  intros -> ->. rewrite seg_app_r by done. replace (blen a - blen a)%N with 0%N by lia. replace (blen a + blen m - blen a)%N with (blen m) by lia.
  rewrite seg_app_l by done. apply seg_all.
Qed.
Lemma seg_tail a b lo hi : lo = blen a → hi = (blen a + blen b)%N → seg (a ++ b) lo hi = b.
Proof. intros Hl Hh. pose proof (seg_mid a b [] lo hi Hl Hh) as H. by rewrite app_nil_r in H. Qed.
Lemma seg_split b lo mid hi : (lo <= mid)%N → (mid <= hi)%N → seg b lo hi = seg b lo mid ++ seg b mid hi.
Proof.
  intros H1 H2. unfold seg. replace (N.to_nat (hi - lo)) with (N.to_nat (mid - lo) + N.to_nat (hi - mid)) by lia.
  replace (N.to_nat mid) with (N.to_nat (mid - lo) + N.to_nat lo) by lia. rewrite (Nat.add_comm (N.to_nat (mid - lo)) (N.to_nat lo)).
  rewrite <-drop_drop. by rewrite take_take_drop.
Qed.
Lemma seg_seg b lo hi l h : (lo + h <= hi)%N → seg (seg b lo hi) l h = seg b (lo + l) (lo + h).
Proof.
  intros H. unfold seg. rewrite skipn_firstn_comm, take_take, drop_drop. f_equal; [lia|]. f_equal. lia.
Qed.
Lemma is_bytes_seg b lo hi : is_bytes b → is_bytes (seg b lo hi).
Proof. intros H. by apply Forall_take, Forall_drop. Qed.

(** ** Reading: out of range is Go's run-time panic *)

Section reads.
Context {E : Type} (panic : E).

(** [b[lo:hi]] *)
Definition span (b : bytes) (lo hi : N) : result E bytes :=
  if (hi <? lo)%N || (blen b <? hi)%N then Err panic else Ok (seg b lo hi).
(** [binary.LittleEndian.Uint64(b[off:])] and its siblings, [w] bytes wide. *)
Definition read_le (w : N) (b : bytes) (off : N) : result E N :=
  if (blen b <? off + w)%N then Err panic else Ok (get_le (seg b off (off + w))).

Lemma span_ok b lo hi : (lo <= hi)%N → (hi <= blen b)%N → span b lo hi = Ok (seg b lo hi).
Proof.
  intros. unfold span. destruct (N.ltb_spec hi lo); [lia|]. destruct (N.ltb_spec (blen b) hi); [lia|]. done.
Qed.
Lemma read_le_ok w b off : (off + w <= blen b)%N → read_le w b off = Ok (get_le (seg b off (off + w))).
Proof. intros. unfold read_le. by destruct (N.ltb_spec (blen b) (off + w)); [lia|]. Qed.
Lemma read_le_put k v a rest : (v < 256 ^ N.of_nat k)%N → read_le (N.of_nat k) (a ++ put_le k v ++ rest) (blen a) = Ok v.
Proof.
  intros Hv. assert (blen (put_le k v) = N.of_nat k) as Hk by (unfold blen; by rewrite put_le_length).
  rewrite read_le_ok by (rewrite !blen_app; lia). rewrite seg_mid by (done || lia). by rewrite get_put_le.
Qed.
End reads.

(** ** [uint64] *)

Definition add64 (a b : N) : N := u64 (a + b).
Definition sub64 (a b : N) : N := u64 (a + (2 ^ 64 - u64 b)).
Lemma add64_small a b : (a + b < 2 ^ 64)%N → add64 a b = (a + b)%N.
Proof. apply u64_small. Qed.
Lemma sub64_small a b : (b <= a)%N → (a < 2 ^ 64)%N → sub64 a b = (a - b)%N.
Proof.
  intros. unfold sub64. rewrite (u64_small b) by lia. unfold u64. replace (a + (2 ^ 64 - b))%N with (a - b + 1 * 2 ^ 64)%N by lia.
  rewrite N.Div0.mod_add. apply N.mod_small. lia.
Qed.

(** ** Tables of words *)

(** A table of [k]-byte words. *)
Definition table_of (k : nat) (ws : list N) : bytes := ws ≫= put_le k.
Definition fits (k : nat) (ws : list N) : Prop := Forall (λ w, (w < 256 ^ N.of_nat k)%N) ws.

Lemma table_length k ws : length (table_of k ws) = k * length ws.
Proof. induction ws as [|w ws IH]; [simpl; lia|]. cbn [table_of mbind list_bind length]. rewrite length_app, put_le_length. fold (table_of k ws). lia. Qed.
Lemma table_blen k ws : blen (table_of k ws) = (N.of_nat k * N.of_nat (length ws))%N.
Proof. unfold blen. rewrite table_length. lia. Qed.
Lemma table_app k a b : table_of k (a ++ b) = table_of k a ++ table_of k b.
Proof. apply bind_app. Qed.
Lemma table_cons k w ws : table_of k (w :: ws) = put_le k w ++ table_of k ws.
Proof. done. Qed.
Lemma table_bytes k ws : is_bytes (table_of k ws).
Proof. induction ws as [|w ws IH]; [constructor|]. apply Forall_app; split; [apply put_le_bytes|exact IH]. Qed.

(** Every whole number of words is a table. *)
Lemma table_exists k n b : is_bytes b → length b = k * n → ∃ ws, b = table_of k ws ∧ length ws = n ∧ fits k ws.
Proof.
  revert b. induction n as [|n IH]; intros b Hb Hl.
  { exists []. destruct b; [split_and!; by try constructor|]. simpl in Hl. lia. }
  destruct (IH (drop k b)) as (ws & Hws & Hn & Hf); [by apply Forall_drop|rewrite length_drop; lia|].
  assert (length (take k b) = k) as Hk by (rewrite length_take; lia). assert (is_bytes (take k b)) as Ht by by apply Forall_take.
  exists (get_le (take k b) :: ws). split_and!.
  - rewrite table_cons, <-Hws. pose proof (put_get_le _ Ht) as E. rewrite Hk in E. rewrite E. by rewrite take_drop.
  - simpl. lia.
  - constructor; [|done]. pose proof (get_le_lt _ Ht) as H. by rewrite Hk in H.
Qed.

(** A word of a table that is followed by anything. *)
Lemma read_table {E} (panic : E) k ws i w rest : ws !! i = Some w → fits k ws →
  read_le panic (N.of_nat k) (table_of k ws ++ rest) (N.of_nat k * N.of_nat i) = Ok w.
Proof.
  intros Hi Hf. pose proof (list_elem_of_split_length _ _ _ Hi) as (a & b & -> & Ha). rewrite table_app, table_cons, <-!app_assoc.
  replace (N.of_nat k * N.of_nat i)%N with (blen (table_of k a)) by (rewrite table_blen; lia).
  apply read_le_put. apply Forall_app in Hf as [_ Hf]. by apply Forall_inv in Hf.
Qed.

(** A word of a table, at a byte offset. *)
Lemma read_table_iff {E} (panic : E) k ws off i w : 0 < k → fits k ws → off = (N.of_nat k * i)%N →
  read_le panic (N.of_nat k) (table_of k ws) off = Ok w ↔ ws !! N.to_nat i = Some w.
Proof.
  intros Hk Hf ->. destruct (ws !! N.to_nat i) as [w'|] eqn:Hi.
  - pose proof (read_table panic k ws (N.to_nat i) w' [] Hi Hf) as H. rewrite app_nil_r, N2Nat.id in H. rewrite H.
    split; by intros [= ->].
  - apply lookup_ge_None in Hi. unfold read_le. rewrite table_blen.
    destruct (N.ltb_spec (N.of_nat k * N.of_nat (length ws)) (N.of_nat k * i + N.of_nat k)); [done|]. exfalso. nia.
Qed.

(** ** Windows of lists *)

Lemma take_drop_cons {A} (l : list A) i n x y : take (S n) (drop i l) = x :: y ↔ l !! i = Some x ∧ take n (drop (S i) l) = y.
Proof.
  destruct (l !! i) as [z|] eqn:Hi.
  - rewrite (drop_S _ _ _ Hi). simpl. split; [by intros [= -> ->]|by intros [[= ->] ->]].
  - apply lookup_ge_None in Hi. rewrite drop_ge by done. simpl. split; [done|by intros [? _]].
Qed.
Lemma seg_app_iff b lo hi x y : hi = (lo + blen (x ++ y))%N → (hi <= blen b)%N →
  seg b lo hi = x ++ y ↔ seg b lo (lo + blen x) = x ∧ seg b (lo + blen x) hi = y.
Proof.
  rewrite blen_app. intros -> H. rewrite (seg_split b lo (lo + blen x)) by lia. split; [|by intros [-> ->]]. intros E. apply app_inj_1 in E; [done|].
  pose proof (blen_seg b lo (lo + blen x)) as Hl. unfold blen in *. lia.
Qed.
Lemma take_drop_app {A} (l : list A) i n m x y : length x = n →
  take (n + m) (drop i l) = x ++ y ↔ take n (drop i l) = x ∧ take m (drop (i + n) l) = y.
Proof.
  intros <-. rewrite <-take_take_drop, drop_drop. split; [|by intros [-> ->]]. intros E. apply app_inj_1 in E; [done|].
  apply (f_equal length) in E. rewrite !length_app, !length_take in E. rewrite length_take, !length_drop in *. lia.
Qed.

#[global] Opaque put_le get_le.
#[global] Arguments seg : simpl never.
#[global] Arguments blen : simpl never.
#[global] Arguments add64 : simpl never.
#[global] Arguments sub64 : simpl never.
#[global] Arguments table_of : simpl never.

(** ** Cutting words and tables off the front of a buffer *)

Lemma word_prefix k b : is_bytes b → (N.of_nat k <= blen b)%N → ∃ v rest, b = put_le k v ++ rest ∧ (v < 256 ^ N.of_nat k)%N ∧ is_bytes rest.
Proof.
  intros Hb Hl. unfold blen in Hl. assert (is_bytes (take k b)) as Ht by by apply Forall_take. assert (length (take k b) = k) as Hk by (rewrite length_take; lia).
  exists (get_le (take k b)), (drop k b). pose proof (put_get_le _ Ht) as E. pose proof (get_le_lt _ Ht) as H. rewrite Hk in E, H.
  rewrite E, take_drop. split_and!; try done. by apply Forall_drop.
Qed.
Lemma table_prefix k n b : is_bytes b → (N.of_nat k * N.of_nat n <= blen b)%N →
  ∃ ws rest, b = table_of k ws ++ rest ∧ length ws = n ∧ fits k ws ∧ is_bytes rest.
Proof.
  intros Hb Hl. unfold blen in Hl. destruct (table_exists k n (take (k * n) b)) as (ws & E & Hn & Hf); [by apply Forall_take|rewrite length_take; lia|].
  exists ws, (drop (k * n) b). rewrite <-E, take_drop. split_and!; try done. by apply Forall_drop.
Qed.

(** ** A table inside a buffer *)

Definition at_table (b : bytes) (off : N) (k : nat) (ws : list N) : Prop :=
  ∃ pre post, b = pre ++ table_of k ws ++ post ∧ off = blen pre.
Lemma at_table_app b off k x y : at_table b off k (x ++ y) →
  at_table b off k x ∧ at_table b (off + N.of_nat k * N.of_nat (length x)) k y.
Proof.
  intros (pre & post & -> & ->). rewrite table_app. split.
  - exists pre, (table_of k y ++ post). by rewrite <-app_assoc.
  - exists (pre ++ table_of k x), post. rewrite blen_app, table_blen. by rewrite <-!app_assoc.
Qed.
Lemma at_table_cons b off k x y : at_table b off k (x :: y) → at_table b off k [x] ∧ at_table b (off + N.of_nat k) k y.
Proof. intros H. apply (at_table_app b off k [x] y) in H as [H1 H2]. split; [done|]. simpl in H2. by replace (off + N.of_nat k)%N with (off + N.of_nat k * 1)%N by lia. Qed.
Lemma at_table_read {E} (panic : E) b off k ws i w : at_table b off k ws → fits k ws → ws !! i = Some w →
  read_le panic (N.of_nat k) b (off + N.of_nat k * N.of_nat i) = Ok w.
Proof.
  intros (pre & post & -> & ->) Hf Hi. pose proof (list_elem_of_split_length _ _ _ Hi) as (x & y & -> & Hx).
  rewrite table_app, table_cons. replace (pre ++ (table_of k x ++ put_le k w ++ table_of k y) ++ post) with
    ((pre ++ table_of k x) ++ put_le k w ++ (table_of k y ++ post)) by by rewrite <-!app_assoc.
  replace (blen pre + N.of_nat k * N.of_nat i)%N with (blen (pre ++ table_of k x)) by (rewrite blen_app, table_blen; lia).
  apply read_le_put. apply Forall_app in Hf as [_ Hf]. by apply Forall_inv in Hf.
Qed.
Lemma at_table_read0 {E} (panic : E) b off k w ws : at_table b off k (w :: ws) → (w < 256 ^ N.of_nat k)%N → read_le panic (N.of_nat k) b off = Ok w.
Proof.
  intros [H _]%at_table_cons Hw. pose proof (at_table_read panic b off k [w] 0 w H) as E'. simpl in E'. rewrite N.mul_0_r, N.add_0_r in E'.
  apply E'; [by constructor|done].
Qed.
