(* ===== verification/PreparedFormat.v ===== *)
(** [engine/prepared/format.go]: the container of a prepared artifact - header,
    section table, header digest - as [encodeHead] writes and [parseTable] reads it. *)

From S2P Require Import Prelude.
From S2P Require Import Score.
From S2P Require Import ListConfig.
From S2P Require Import Wire.

Definition Magic : bytes := $"KURNART1".
Definition MajorVersion : N := 1.
Definition MinorVersion : N := 1.
Definition Align : N := 32.
Definition MaxSections : N := 64.
Definition MaxMetaSection : N := (4 * 2 ^ 20)%N.
Definition headerSize : N := 24.
Definition tableEntrySize : N := 64.
Definition digestSize : N := 32.
Definition flagRequired : N := 1.
Definition keysNullFlag : N := (2 ^ 63)%N.

Definition KindConfig : N := 1.
Definition KindBuild : N := 2.
Definition KindRecords : N := 3.
Definition KindIDs : N := 4.
Definition KindNgram : N := 5.
Definition KindExact : N := 6.
Definition KindExactCompanion : N := 7.

(** The failures, one per message; [Panic] is a read or a slice out of range. *)
Inductive malformation :=
  | TruncatedHeader | BadMagic | SectionCount (n : N) | HeaderReserved | TruncatedTable
  | SectionReserved (i : N) | SectionFlags (i : N) | DuplicateKind (i : N) | Misaligned (i : N) | SectionOverflow (i : N)
  | PastEnd (i : N) | OverlapsHeader | NotIncreasing (i : N) | OverlapsPrevious (i : N) | WrongEnd
  | MissingSection (k : N) | IndexSections | CompanionAlone
  | NonzeroGap (k : N) | MetaTooLong | NotStrict | BadName | BadDigest | BadListConfig | NegativeCount
  | EntriesDiffer | KeysDiffer | KeylessDiffer | ModeDiffers | CompanionDiffers
  | CountTruncated | CountExceeds (n : N) | CountRange (n : N)
  | EmptyRecordID (i : N) | RecordOffset (i : N) | RecordOverrun (i : N) | RecordUTF8 (i : N) | NullKeyCount (i : N)
  | KeyStart (i : N) | KeyCountOverrun (i : N) | KeysUnused | BlobUnused
  | IDsCount | IDsLength | IDOrdinalRange (i : N) | IDsUnsorted (i : N)
  | GramBlobLength | PaddingTruncated | PaddingNonzero | NumOrdsRange | GramPacking (i : N) | GramsUnsorted (i : N)
  | BitmapAlign (i : N) | BitmapPacking (i : N) | BitmapGap (i : N) | BitmapOrdinal (i : N) | GramsUnused | BitmapsUnused | NumOrdsWrong
  | FrozenShort | FrozenBigEndian | FrozenCookie | FrozenCount | FrozenTrailer | FrozenType (i : N) | FrozenSize
  | FrozenKeys (i : N) | FrozenBitset (i : N) | FrozenArrayCard (i : N) | FrozenArray (i : N) | FrozenRunEmpty (i : N)
  | FrozenRunOverflow (i : N) | FrozenRuns (i : N) | FrozenView
  | ExactHeader | ExactKeyCount | ExactPostingsCount | ExactArena | ExactPostingsRange | ExactKeyLength (i : N)
  | ExactRunLength (i : N) | ExactUnsorted (i : N) | ExactOrdinal (i : N) | ExactRun (i : N) | ExactUnused
  | PayloadSyntax (i : N).
Inductive incompatibility := FormatVersion (major minor : N) | HeaderFlags (flags : N) | UnknownRequired (k : N).
Inductive violation := HeaderDigest | SectionDigest (k : N) | BaseIDDiffers | PayloadJSON (i : N) | PayloadForm (i : N) | LineTooLong (i : N).
Inductive refusal :=
  | InvalidListName | InvalidListConfig | InvalidDigests | TooManyRecords | ImpossibleCounters | WrongIndex | IndexConfig
  | CompanionMissing | CompanionUnexpected | EmptyID (i : N) | InvalidID (i : N) | InvalidKey (i : N) | PayloadInvalid (i : N)
  | NotCanonical (i : N) | RecordTooLong (i : N) | DuplicateID | EmptyGram | EmptyBitmap | OrdinalsExceedRecords | KeyTooLong
  | FreezeFailed | TooLarge | MetaOverflow | Unmarshalable | UnknownLevel (n : N) | NotNgram | NotExact | NoCompanion
  | RestoreFailed.
Inductive prepared_error :=
  | Malformed (m : malformation)
  | Incompatible (i : incompatibility)
  | Integrity (v : violation)
  | Refused (r : refusal)
  | Unaligned
  | Panic.
Definition malformed {A} (m : malformation) : result prepared_error A := Err (Malformed m).
Definition malformed_if (c : bool) (m : malformation) : result prepared_error () := fail_if c (Malformed m).

Definition slice (b : bytes) (lo hi : N) : result prepared_error bytes := span Panic b lo hi.
Definition le16 (b : bytes) (off : N) : result prepared_error N := read_le Panic 2 b off.
Definition le32 (b : bytes) (off : N) : result prepared_error N := read_le Panic 4 b off.
Definition le64 (b : bytes) (off : N) : result prepared_error N := read_le Panic 8 b off.

(** [^\[a-z0-9\]\[a-z0-9_-\]{0,63}$] *)
Definition name_char (first : bool) (c : N) : bool :=
  ((97 <=? c) && (c <=? 122))%N || ((48 <=? c) && (c <=? 57))%N || (negb first && ((c =? 95)%N || (c =? 45)%N)).
Definition ValidListName (name : bytes) : bool :=
  match name with
  | [] => false
  | c :: rest => name_char true c && forallb (name_char false) rest && (length rest <=? 63)
  end.

(** [None]: the sum overflows. *)
Definition align32 (n : N) : option N :=
  if (2 ^ 64 - 1 - (Align - 1) <? n)%N then None else Some (N.ldiff (n + Align - 1) (Align - 1)).

Record section := mkSection { s_kind : N; s_flags : N; s_off : N; s_length : N; s_sum : bytes }.
Definition s_end (s : section) : N := add64 (s_off s) (s_length s).

Record table := mkTable { t_major : N; t_minor : N; t_sections : list section; t_headEnd : N; t_digest : bytes }.
Definition find (t : table) (kind : N) : option section :=
  snd <$> list_find (λ s, s_kind s = kind) (t_sections t).

Definition headLen (b : bytes) : result prepared_error N :=
  if (blen b <? headerSize)%N then malformed TruncatedHeader else
  mg ← slice b 0 8;
  _ ← malformed_if (negb (bool_decide (mg = Magic))) BadMagic;
  major ← le16 b 8; minor ← le16 b 10;
  if negb (major =? MajorVersion)%N then Err (Incompatible (FormatVersion major minor)) else
  flags ← le32 b 12;
  if negb (flags =? 0)%N then Err (Incompatible (HeaderFlags flags)) else
  n ← le32 b 16;
  _ ← malformed_if ((n =? 0)%N || (MaxSections <? n)%N) (SectionCount n);
  r ← le32 b 20;
  _ ← malformed_if (negb (r =? 0)%N) HeaderReserved;
  Ok (headerSize + n * tableEntrySize + digestSize)%N.

Definition knownKind (k : N) : bool := (KindConfig <=? k)%N && (k <=? KindExactCompanion)%N.

(** One entry of the table, [e = head\[headerSize+i*tableEntrySize:\]]. *)
Definition read_entry (e : bytes) (i : N) : result prepared_error section :=
  kind ← le32 e 0; flags ← le32 e 4; off ← le64 e 8; length ← le64 e 16; sum ← slice e 24 56; r ← le64 e 56;
  _ ← malformed_if (negb (r =? 0)%N) (SectionReserved i);
  _ ← malformed_if (negb (N.ldiff flags flagRequired =? 0)%N) (SectionFlags i);
  Ok (mkSection kind flags off length sum).
(** Its position: after the header, or after the sections [prev] read before it,
    the last of which ends at [prevEnd]. *)
Definition check_entry (s : section) (i : N) (hl : N) (prev : list section) (prevEnd fileSize : N) : result prepared_error () :=
  _ ← malformed_if (bool_decide (s_kind s ∈ s_kind <$> prev)) (DuplicateKind i);
  _ ← malformed_if (negb (s_off s mod Align =? 0)%N) (Misaligned i);
  _ ← malformed_if (2 ^ 64 - 1 - s_off s <? s_length s)%N (SectionOverflow i);
  _ ← malformed_if (fileSize <? s_end s)%N (PastEnd i);
  match last prev with
  | None => malformed_if (s_off s <? default 0%N (align32 hl))%N OverlapsHeader
  | Some p =>
      _ ← malformed_if (s_off s <=? s_off p)%N (NotIncreasing i);
      malformed_if (s_off s <? prevEnd)%N (OverlapsPrevious i)
  end.
Fixpoint read_entries (fuel : nat) (i : N) (head : bytes) (hl fileSize : N) (prev : list section) (prevEnd : N)
    : result prepared_error (list section * N) :=
  match fuel with
  | O => Ok (prev, prevEnd)
  | S fuel =>
      e ← slice head (headerSize + i * tableEntrySize) (blen head);
      s ← read_entry e i;
      _ ← check_entry s i hl prev prevEnd fileSize;
      read_entries fuel (i + 1)%N head hl fileSize (prev ++ [s]) (s_end s)
  end.

Fixpoint check_required (ss : list section) : result prepared_error () :=
  match ss with
  | [] => Ok ()
  | s :: ss =>
      if negb (knownKind (s_kind s)) && negb (N.land (s_flags s) flagRequired =? 0)%N then Err (Incompatible (UnknownRequired (s_kind s)))
      else check_required ss
  end.
Definition has_kind (ss : list section) (k : N) : bool := bool_decide (k ∈ s_kind <$> ss).
Fixpoint check_present (ss : list section) (ks : list N) : result prepared_error () :=
  match ks with [] => Ok () | k :: ks => _ ← malformed_if (negb (has_kind ss k)) (MissingSection k); check_present ss ks end.

Definition parseTable (head : bytes) (fileSize : N) : result prepared_error table :=
  hl ← headLen head;
  _ ← malformed_if ((fileSize <? hl)%N || (blen head <? hl)%N) TruncatedTable;
  major ← le16 head 8; minor ← le16 head 10; digest ← slice head (hl - digestSize) hl;
  n ← le32 head 16;
  '(ss, prevEnd) ← read_entries (N.to_nat n) 0 head hl fileSize [] 0;
  _ ← malformed_if (negb (prevEnd =? fileSize)%N) WrongEnd;
  _ ← check_required ss;
  _ ← check_present ss [KindConfig; KindBuild; KindRecords; KindIDs];
  _ ← malformed_if (bool_decide (has_kind ss KindNgram = has_kind ss KindExact)) IndexSections;
  _ ← malformed_if (has_kind ss KindExactCompanion && negb (has_kind ss KindNgram)) CompanionAlone;
  Ok (mkTable major minor ss hl digest).

Section head.
Context {FO : FloatOps} {DL : DigestLib}.

(** [head] is written into zeroed memory, so the words it skips are zero. *)
Definition put_entry (s : section) : bytes :=
  put32 (s_kind s) ++ put32 (s_flags s) ++ put64 (s_off s) ++ put64 (s_length s) ++ s_sum s ++ put64 0.
Definition encode_table (secs : list section) : bytes :=
  Magic ++ put16 MajorVersion ++ put16 MinorVersion ++ put32 0 ++ put32 (N.of_nat (length secs)) ++ put32 0 ++ (secs ≫= put_entry).
Definition encodeHead (secs : list section) : bytes := encode_table secs ++ sha256 (encode_table secs).
End head.
