(* ===== verification/PreparedRecords.v ===== *)
(** [engine/prepared]: the records and ids sections - [encodeRecords], [encodeIDs],
    [parseRecords], [parseIDs] and the accessors of a [View]. *)

From S2P Require Import Prelude.
From S2P Require Import Runtime.
From S2P Require Import Score.
From S2P Require Import ListConfig.
From S2P Require Import Wire.
From S2P Require Import PreparedFormat.

(** A record; [None] is a nil key list. *)
Record Rec := mkRec { r_ID : bytes; r_Keys : option (list bytes); r_Payload : bytes }.
Definition keys_of (r : Rec) : list bytes := default [] (r_Keys r).
Definition MaxLine : N := (2 ^ 20)%N.

(** ** Writing *)

(** The rows and the blob as far as they are written; [w_blob] ends at the cursor
    [cur]. *)
Record writer := mkWriter { w_rows : list N; w_keyRows : list N; w_blob : bytes }.
Definition put (w : writer) (s : bytes) : writer * N := (mkWriter (w_rows w) (w_keyRows w) (w_blob w ++ s), blen (w_blob w)).
Definition put_key (w : writer) (k : bytes) : writer :=
  let '(w, at_) := put w k in mkWriter (w_rows w) (w_keyRows w ++ [at_; blen k]) (w_blob w).
Definition key_count (r : Rec) : N :=
  let kc := N.of_nat (length (keys_of r)) in match r_Keys r with None => N.lor kc keysNullFlag | Some _ => kc end.
Definition put_record (w : writer) (r : Rec) : writer :=
  let kIdx := (N.of_nat (length (w_keyRows w)) / 2)%N in
  let '(w, id_at) := put w (r_ID r) in
  let w := foldl put_key w (keys_of r) in
  let '(w, p_at) := put w (r_Payload r) in
  mkWriter (w_rows w ++ [id_at; blen (r_ID r); kIdx; key_count r; p_at; blen (r_Payload r)]) (w_keyRows w) (w_blob w).
Definition written (rs : list Rec) : writer := foldl put_record (mkWriter [] [] []) rs.

(** [sec]: count, rows, key count, key rows, blob. *)
Definition records_section (rs : list Rec) : bytes :=
  let w := written rs in
  put64 (N.of_nat (length rs)) ++ table_of 8 (w_rows w) ++
  put64 (N.of_nat (length (w_keyRows w)) / 2) ++ table_of 8 (w_keyRows w) ++ w_blob w.

Fixpoint check_keys (i : N) (ks : list bytes) : result prepared_error () :=
  match ks with [] => Ok () | k :: ks => _ ← fail_if (negb (utf8_valid k)) (Refused (InvalidKey i)); check_keys i ks end.
Fixpoint check_records (i : N) (rs : list Rec) : result prepared_error () :=
  match rs with
  | [] => Ok ()
  | r :: rs =>
      _ ← fail_if (bool_decide (r_ID r = [])) (Refused (EmptyID i));
      _ ← fail_if (negb (utf8_valid (r_ID r))) (Refused (InvalidID i));
      _ ← check_keys i (keys_of r);
      check_records (i + 1)%N rs
  end.

(** ** Reading *)

(** [count] *)
Definition count (b : bytes) (off elem reserve : N) : result prepared_error N :=
  if (blen b <? off + 8)%N then malformed CountTruncated else
  n ← le64 b off;
  let room := (blen b - off - 8)%N in
  _ ← malformed_if (room <? reserve)%N CountTruncated;
  let room := sub64 room reserve in
  _ ← malformed_if ((0 <? elem)%N && (room / elem <? n)%N) (CountExceeds n);
  _ ← malformed_if (max_u32 <? n)%N (CountRange n);
  Ok n.

(** The closure [take] of [parseRecords]; [utf8] unless the span is a payload. *)
Definition take_span (blob : bytes) (cur off length : N) (utf8 : bool) (i : N) : result prepared_error N :=
  _ ← malformed_if (negb (off =? cur)%N) (RecordOffset i);
  _ ← malformed_if (sub64 (blen blob) cur <? length)%N (RecordOverrun i);
  _ ← (if utf8 then s ← slice blob cur (add64 cur length); malformed_if (negb (utf8_valid s)) (RecordUTF8 i) else Ok ());
  Ok (add64 cur length).
Fixpoint take_keys (fuel : nat) (keyRows blob : bytes) (k cur i : N) : result prepared_error N :=
  match fuel with
  | O => Ok cur
  | S fuel =>
      off ← le64 keyRows (16 * k); length ← le64 keyRows (16 * k + 8);
      cur ← take_span blob cur off length true i;
      take_keys fuel keyRows blob (k + 1)%N cur i
  end.
(** One record at the cursors [cur] and [kIdx]. *)
Definition take_record (rows keyRows blob : bytes) (nk i cur kIdx : N) : result prepared_error (N * N) :=
  idLen ← le64 rows (48 * i + 8);
  _ ← malformed_if (idLen =? 0)%N (EmptyRecordID i);
  idOff ← le64 rows (48 * i);
  cur ← take_span blob cur idOff idLen true i;
  ks ← le64 rows (48 * i + 16); kc ← le64 rows (48 * i + 24);
  _ ← malformed_if (negb (N.land kc keysNullFlag =? 0)%N && negb (kc =? keysNullFlag)%N) (NullKeyCount i);
  let kc := N.ldiff kc keysNullFlag in
  _ ← malformed_if (negb (ks =? kIdx)%N) (KeyStart i);
  _ ← malformed_if (sub64 nk kIdx <? kc)%N (KeyCountOverrun i);
  cur ← take_keys (N.to_nat kc) keyRows blob kIdx cur i;
  pOff ← le64 rows (48 * i + 32); pLen ← le64 rows (48 * i + 40);
  cur ← take_span blob cur pOff pLen false i;
  Ok (cur, add64 kIdx kc).
Fixpoint take_records (fuel : nat) (rows keyRows blob : bytes) (nk i cur kIdx : N) : result prepared_error (N * N) :=
  match fuel with
  | O => Ok (cur, kIdx)
  | S fuel =>
      '(cur, kIdx) ← take_record rows keyRows blob nk i cur kIdx;
      take_records fuel rows keyRows blob nk (i + 1)%N cur kIdx
  end.

(** The record fields of a [View]. *)
Record records := mkRecords { v_n : N; v_rows : bytes; v_nKeys : N; v_keyRows : bytes; v_blob : bytes }.
Definition parseRecords (b : bytes) : result prepared_error records :=
  n ← count b 0 48 8;
  let rowsEnd := (8 + 48 * n)%N in
  nk ← count b rowsEnd 16 0;
  let keysEnd := (rowsEnd + 8 + 16 * nk)%N in
  rows ← slice b 8 rowsEnd; keyRows ← slice b (rowsEnd + 8) keysEnd; blob ← slice b keysEnd (blen b);
  '(cur, kIdx) ← take_records (N.to_nat n) rows keyRows blob nk 0 0 0;
  _ ← malformed_if (negb (kIdx =? nk)%N) KeysUnused;
  _ ← malformed_if (negb (cur =? blen blob)%N) BlobUnused;
  Ok (mkRecords n rows nk keyRows blob).

(** ** Accessors *)

Definition str_at (v : records) (off n : N) : result prepared_error bytes :=
  if (n =? 0)%N then Ok [] else slice (v_blob v) off (off + n).
Definition ID (v : records) (i : N) : result prepared_error bytes :=
  off ← le64 (v_rows v) (48 * i); n ← le64 (v_rows v) (48 * i + 8); str_at v off n.
Definition KeyCount (v : records) (i : N) : result prepared_error N :=
  kc ← le64 (v_rows v) (48 * i + 24); Ok (N.ldiff kc keysNullFlag).
Definition KeysNull (v : records) (i : N) : result prepared_error bool :=
  kc ← le64 (v_rows v) (48 * i + 24); Ok (kc =? keysNullFlag)%N.
Definition Key (v : records) (i j : N) : result prepared_error bytes :=
  start ← le64 (v_rows v) (48 * i + 16);
  off ← le64 (v_keyRows v) (16 * (start + j)); n ← le64 (v_keyRows v) (16 * (start + j) + 8); str_at v off n.
Fixpoint append_keys (fuel : nat) (v : records) (i j : N) (dst : list bytes) : result prepared_error (list bytes) :=
  match fuel with O => Ok dst | S fuel => k ← Key v i j; append_keys fuel v i (j + 1)%N (dst ++ [k]) end.
Definition AppendKeys (dst : list bytes) (v : records) (i : N) : result prepared_error (list bytes) :=
  n ← KeyCount v i; append_keys (N.to_nat n) v i 0 dst.
(** [None]: nil. *)
Definition Keys (v : records) (i : N) : result prepared_error (option (list bytes)) :=
  null ← KeysNull v i;
  if (null : bool) then Ok None else ks ← AppendKeys [] v i; Ok (Some ks).
Definition Payload (v : records) (i : N) : result prepared_error bytes :=
  off ← le64 (v_rows v) (48 * i + 32); n ← le64 (v_rows v) (48 * i + 40);
  if (n =? 0)%N then Ok [] else slice (v_blob v) off (off + n).

(** ** The ids section *)

Section ids.
Context {RT : GoRuntime}.

(** [sort.Slice] on the ordinals by their IDs. *)
Definition sorted_ords (rs : list Rec) : list nat :=
  sort_slice (less_by (λ o, from_option r_ID [] (rs !! o))) (seq 0 (length rs)).
Definition encodeIDs (rs : list Rec) : result prepared_error bytes :=
  let ords := sorted_ords rs in
  let ids := (λ o, from_option r_ID [] (rs !! o)) <$> ords in
  if forallb (λ ab : bytes * bytes, negb (bool_decide (ab.1 = ab.2))) (zip ids (drop 1 ids))
  then Ok (put64 (N.of_nat (length rs)) ++ table_of 8 (N.of_nat <$> ords)) else Err (Refused DuplicateID).
End ids.

(** [prev]: the ID before, if any. *)
Fixpoint check_ids (fuel : nat) (v : records) (ids : bytes) (i : N) (prev : option bytes) : result prepared_error () :=
  match fuel with
  | O => Ok ()
  | S fuel =>
      o ← le64 ids (8 * i);
      _ ← malformed_if (v_n v <=? o)%N (IDOrdinalRange i);
      id ← ID v o;
      _ ← malformed_if (match prev with Some p => bool_decide (bytes_le id p) | None => false end) (IDsUnsorted i);
      check_ids fuel v ids (i + 1)%N (Some id)
  end.
Definition parseIDs (v : records) (b : bytes) : result prepared_error bytes :=
  n ← count b 0 8 0;
  _ ← malformed_if (negb (n =? v_n v)%N) IDsCount;
  _ ← malformed_if (negb (blen b =? 8 + 8 * n)%N) IDsLength;
  ids ← slice b 8 (blen b);
  _ ← check_ids (N.to_nat n) v ids 0 None;
  Ok ids.

Definition IDOrdinal (ids : bytes) (k : N) : result prepared_error N := le64 ids (8 * k).
(** [sort.Search] for the first [k] whose ID is not below [id]. *)
Fixpoint search (fuel : nat) (v : records) (ids id : bytes) (i j : N) : result prepared_error N :=
  match fuel with
  | O => Ok i
  | S fuel =>
      if (i <? j)%N then
        let h := ((i + j) / 2)%N in
        o ← IDOrdinal ids h; x ← ID v o;
        if bool_decide (bytes_lt x id) then search fuel v ids id (h + 1)%N j else search fuel v ids id i h
      else Ok i
  end.
Definition Lookup (v : records) (ids id : bytes) : result prepared_error (option N) :=
  k ← search (S (N.to_nat (v_n v))) v ids id 0 (v_n v);
  if (k <? v_n v)%N then
    o ← IDOrdinal ids k; x ← ID v o; Ok (if bool_decide (x = id) then Some o else None)
  else Ok None.
