(* ===== verification/PreparedRecordsSpec.v ===== *)
(** The records and ids sections are canonical: [parseRecords] accepts exactly the
    bytes [encodeRecords] lays out for some list of records, and the accessors give
    that list back. *)

From S2P Require Import Prelude.
From S2P Require Import Runtime.
From S2P Require Import Wire.
From S2P Require Import PreparedFormat.
From S2P Require Import PreparedRecords.

(** ** Layout by cursors *)

Fixpoint key_words (cur : N) (ks : list bytes) : list N :=
  match ks with [] => [] | k :: ks => cur :: blen k :: key_words (cur + blen k) ks end.
Definition rec_blob (r : Rec) : bytes := r_ID r ++ concat (keys_of r) ++ r_Payload r.
Definition rec_words (cur kIdx : N) (r : Rec) : list N :=
  [cur; blen (r_ID r); kIdx; key_count r; cur + blen (r_ID r) + blen (concat (keys_of r)); blen (r_Payload r)]%N.
Definition key_num (r : Rec) : N := N.of_nat (length (keys_of r)).
Fixpoint all_rows (cur kIdx : N) (rs : list Rec) : list N :=
  match rs with [] => [] | r :: rs => rec_words cur kIdx r ++ all_rows (cur + blen (rec_blob r)) (kIdx + key_num r) rs end.
Fixpoint all_keys (cur : N) (rs : list Rec) : list N :=
  match rs with [] => [] | r :: rs => key_words (cur + blen (r_ID r)) (keys_of r) ++ all_keys (cur + blen (rec_blob r)) rs end.
Definition all_blob (rs : list Rec) : bytes := concat (rec_blob <$> rs).
Definition total_keys (rs : list Rec) : N := foldr (λ r n, key_num r + n)%N 0%N rs.

Lemma all_blob_cons r rs : all_blob (r :: rs) = rec_blob r ++ all_blob rs.
Proof. done. Qed.
Lemma total_keys_cons r rs : total_keys (r :: rs) = (key_num r + total_keys rs)%N.
Proof. done. Qed.
#[global] Arguments total_keys : simpl never.
#[global] Arguments all_blob : simpl never.
Lemma key_words_length cur ks : length (key_words cur ks) = 2 * length ks.
Proof. revert cur. induction ks as [|k ks IH]; intros cur; simpl; [done|]. rewrite IH. lia. Qed.
Lemma all_rows_length cur kIdx rs : length (all_rows cur kIdx rs) = 6 * length rs.
Proof. revert cur kIdx. induction rs as [|r rs IH]; intros; simpl; [done|]. rewrite IH. lia. Qed.
Lemma all_keys_length cur rs : N.of_nat (length (all_keys cur rs)) = (2 * total_keys rs)%N.
Proof.
  revert cur. induction rs as [|r rs IH]; intros cur; [done|]. simpl. rewrite length_app, key_words_length, total_keys_cons.
  specialize (IH (cur + blen (rec_blob r))%N). unfold key_num. lia.
Qed.
Lemma blen_rec_blob r : blen (rec_blob r) = (blen (r_ID r) + blen (concat (keys_of r)) + blen (r_Payload r))%N.
Proof. unfold rec_blob. rewrite !blen_app. lia. Qed.

Lemma put_keys w ks : foldl put_key w ks =
  mkWriter (w_rows w) (w_keyRows w ++ key_words (blen (w_blob w)) ks) (w_blob w ++ concat ks).
Proof.
  revert w. induction ks as [|k ks IH]; intros w; simpl; [by destruct w; rewrite !app_nil_r|]. rewrite IH. simpl.
  by rewrite blen_app, <-!app_assoc.
Qed.
Lemma put_record_spec w r : put_record w r =
  mkWriter (w_rows w ++ rec_words (blen (w_blob w)) (N.of_nat (length (w_keyRows w)) / 2) r)
    (w_keyRows w ++ key_words (blen (w_blob w) + blen (r_ID r)) (keys_of r)) (w_blob w ++ rec_blob r).
Proof. unfold put_record. simpl. rewrite put_keys. simpl. unfold rec_words, rec_blob. by rewrite !blen_app, <-!app_assoc. Qed.
Lemma put_records w rs n : length (w_keyRows w) = 2 * n →
  foldl put_record w rs =
  mkWriter (w_rows w ++ all_rows (blen (w_blob w)) (N.of_nat n) rs) (w_keyRows w ++ all_keys (blen (w_blob w)) rs) (w_blob w ++ all_blob rs).
Proof.
  revert w n. induction rs as [|r rs IH]; intros w n Hn; simpl; [by destruct w; rewrite !app_nil_r|].
  rewrite put_record_spec, (IH _ (n + length (keys_of r))).
  2:{ simpl. rewrite length_app, key_words_length. lia. }
  assert (N.of_nat (length (w_keyRows w)) / 2 = N.of_nat n)%N as -> by (rewrite Hn; zlia).
  simpl. rewrite blen_app, <-!app_assoc. unfold all_blob, key_num. simpl. rewrite Nat2N.inj_add. done.
Qed.
Lemma records_section_spec rs : records_section rs =
  put64 (N.of_nat (length rs)) ++ table_of 8 (all_rows 0 0 rs) ++ put64 (total_keys rs) ++ table_of 8 (all_keys 0 rs) ++ all_blob rs.
Proof.
  unfold records_section, written. rewrite (put_records _ rs 0) by done. simpl. rewrite (all_keys_length 0).
  assert (2 * total_keys rs / 2 = total_keys rs)%N as -> by (rewrite N.mul_comm; by apply N.div_mul). done.
Qed.

(** ** Reading, with the cursors in bounds *)

Lemma take6 {A} (l : list A) i a b c d e f : take 6 (drop i l) = [a; b; c; d; e; f] ↔
  l !! i = Some a ∧ l !! (i + 1) = Some b ∧ l !! (i + 2) = Some c ∧ l !! (i + 3) = Some d ∧ l !! (i + 4) = Some e ∧ l !! (i + 5) = Some f.
Proof.
  rewrite !take_drop_cons. replace (i + 1) with (S i) by lia. replace (i + 2) with (S (S i)) by lia. replace (i + 3) with (S (S (S i))) by lia.
  replace (i + 4) with (S (S (S (S i)))) by lia. replace (i + 5) with (S (S (S (S (S i))))) by lia. naive_solver.
Qed.

Lemma le64_table ws off i w : fits 8 ws → off = (8 * i)%N → le64 (table_of 8 ws) off = Ok w ↔ ws !! N.to_nat i = Some w.
Proof. intros Hf ->. by apply (read_table_iff Panic 8 ws _ i w); [lia|..]. Qed.
Lemma malformed_if_ok c m u : malformed_if c m = Ok u ↔ c = false.
Proof. apply fail_if_ok. Qed.
Lemma slice_ok b lo hi s : slice b lo hi = Ok s ↔ (lo <= hi)%N ∧ (hi <= blen b)%N ∧ s = seg b lo hi.
Proof.
  unfold slice, span. destruct (N.ltb_spec hi lo), (N.ltb_spec (blen b) hi); simpl; split; try (intros [= <-]; split_and!; (done || lia)); intros (? & ? & ->); (done || lia).
Qed.

Lemma key_count_flag r : (key_num r < 2 ^ 32)%N →
  N.ldiff (key_count r) keysNullFlag = key_num r ∧ (N.land (key_count r) keysNullFlag = 0%N ∨ key_count r = keysNullFlag) ∧
  r_Keys r = (if (key_count r =? keysNullFlag)%N then None else Some (keys_of r)).
Proof.
  intros Hn. assert (∀ n, (n < 2 ^ 32)%N → N.land n keysNullFlag = 0%N) as Hland.
  { intros n H. unfold keysNullFlag. apply N.bits_inj_0. intros j. rewrite N.land_spec, N.pow2_bits_eqb.
    destruct (N.eqb_spec 63 j) as [<-|]; [|by rewrite andb_false_r]. rewrite andb_true_r. apply N.bits_above_log2.
    destruct (decide (n = 0%N)) as [->|]; [done|]. apply N.log2_lt_pow2; [lia|]. etrans; [exact H|done]. }
  assert (∀ n, (n < 2 ^ 32)%N → N.ldiff n keysNullFlag = n) as Hdiff.
  { intros n H. pose proof (N.lor_ldiff_and n keysNullFlag) as E. rewrite (Hland n H), N.lor_0_r in E. exact E. }
  unfold key_num in Hn. unfold key_count, key_num, keys_of in *. destruct (r_Keys r) as [ks|]; simpl in *.
  - rewrite Hdiff, Hland by done. split_and!; [done|by left|]. destruct (N.eqb_spec (N.of_nat (length ks)) keysNullFlag) as [E|]; [|done].
    unfold keysNullFlag in E. lia.
  - split_and!; [done|by right|done].
Qed.

Section spans.
Context (blob : bytes) (Hlen : (blen blob <= max_int)%N).

Lemma take_span_ok cur off l u i c : (cur <= blen blob)%N →
  take_span blob cur off l u i = Ok c ↔
  off = cur ∧ (cur + l <= blen blob)%N ∧ (u = true → utf8_valid (seg blob cur (cur + l)) = true) ∧ c = (cur + l)%N.
Proof using Hlen.
  intros Hc. unfold max_int in Hlen. unfold take_span. rewrite sub64_small by lia.
  destruct (N.eqb_spec off cur) as [->|Ho]; simpl; [|split; [done|by intros (-> & _)]].
  destruct (N.ltb_spec (blen blob - cur) l) as [Hl|Hl]; simpl; [split; [done|intros (_ & ? & _); lia]|].
  rewrite add64_small by lia. destruct u; simpl.
  - unfold slice. rewrite span_ok by lia. simpl. destruct (utf8_valid _) eqn:Hu; simpl.
    + split; [intros [= <-]; split_and!; done || lia|by intros (_ & _ & _ & ->)].
    + split; [done|]. intros (_ & _ & H & _). by discriminate H.
  - split; [intros [= <-]; split_and!; done || lia|by intros (_ & _ & _ & ->)].
Qed.

Context (KW : list N) (HK : fits 8 KW).

Lemma take_keys_ok fuel k cur i c : (cur <= blen blob)%N →
  take_keys fuel (table_of 8 KW) blob k cur i = Ok c ↔
  ∃ ks, length ks = fuel ∧ Forall (λ s, utf8_valid s = true) ks ∧ take (2 * fuel) (drop (2 * N.to_nat k) KW) = key_words cur ks ∧
    c = (cur + blen (concat ks))%N ∧ (c <= blen blob)%N ∧ seg blob cur c = concat ks.
Proof using Hlen HK.
  revert k cur. induction fuel as [|fuel IH]; intros k cur Hc; simpl.
  { split; [intros [= <-]|].
    - exists []. split_and!; try done; simpl; [unfold blen; simpl; lia|]. unfold seg. by rewrite N.sub_diag.
    - intros (ks & Hks & _ & _ & -> & _). destruct ks; [|done]. unfold blen. simpl. f_equal. lia. }
  rewrite bind_ok. setoid_rewrite bind_ok. setoid_rewrite bind_ok.
  replace (fuel + S (fuel + 0)) with (S (2 * fuel)) by lia.
  split.
  - intros (off & Hoff & l & Hl & c1 & H1 & H2).
    rewrite (le64_table _ _ (2 * k)%N) in Hoff by (done || lia). rewrite (le64_table _ _ (2 * k + 1)%N) in Hl by (done || lia).
    apply take_span_ok in H1 as (-> & Hcl & Hu & ->); [|done]. apply IH in H2 as (ks & <- & Hks & Hw & -> & Hb & Hseg); [|done].
    assert (blen (seg blob cur (cur + l)) = l) as Hbl by (rewrite blen_seg by lia; lia).
    exists (seg blob cur (cur + l) :: ks). simpl. split_and!; [done|constructor; [by apply Hu|done]| | | |].
    + apply take_drop_cons. split; [by rewrite <-Hoff; f_equal; lia|]. apply take_drop_cons. rewrite Hbl. split; [by rewrite <-Hl; f_equal; lia|].
      rewrite <-Hw. do 2 (f_equal; try lia).
    + rewrite blen_app, Hbl. lia.
    + lia.
    + rewrite (seg_split blob cur (cur + l)) by lia. by rewrite Hseg.
  - intros (ks & Hks & Hv & Hw & -> & Hb & Hseg). destruct ks as [|s ks]; [done|]. simpl in *. injection Hks as Hks.
    apply Forall_cons in Hv as [Hv1 Hv]. rewrite blen_app in *. rewrite N.add_assoc in *.
    apply seg_app_iff in Hseg as [Hs1 Hs2]; [|rewrite blen_app; lia|lia]. apply take_drop_cons in Hw as [Hw1 Hw]. apply take_drop_cons in Hw as [Hw2 Hw].
    exists cur. split; [rewrite (le64_table _ _ (2 * k)%N) by (done || lia); rewrite <-Hw1; f_equal; lia|].
    exists (blen s). split; [rewrite (le64_table _ _ (2 * k + 1)%N) by (done || lia); rewrite <-Hw2; f_equal; lia|].
    exists (cur + blen s)%N. split; [apply take_span_ok; [done|]; split_and!; try done; [lia|by rewrite Hs1]|].
    apply IH; [lia|]. exists ks. split_and!; try done. rewrite <-Hw. do 2 (f_equal; try lia).
Qed.

(** What the reader accepts of a record. *)
Definition rec_ok (r : Rec) : Prop := r_ID r ≠ [] ∧ utf8_valid (r_ID r) = true ∧ Forall (λ k, utf8_valid k = true) (keys_of r).

Context (RW : list N) (HR : fits 8 RW) (nk : N) (Hnk : (nk < 2 ^ 32)%N) (HKlen : length KW = 2 * N.to_nat nk).

Definition record_at (i cur kIdx cur' kIdx' : N) (r : Rec) : Prop :=
  rec_ok r ∧ take 6 (drop (6 * N.to_nat i) RW) = rec_words cur kIdx r ∧
  take (2 * length (keys_of r)) (drop (2 * N.to_nat kIdx) KW) = key_words (cur + blen (r_ID r)) (keys_of r) ∧
  seg blob cur cur' = rec_blob r ∧ cur' = (cur + blen (rec_blob r))%N ∧ (cur' <= blen blob)%N ∧
  kIdx' = (kIdx + key_num r)%N ∧ (kIdx' <= nk)%N.

Lemma take_record_sound i cur kIdx cur' kIdx' : (cur <= blen blob)%N → (kIdx <= nk)%N →
  take_record (table_of 8 RW) (table_of 8 KW) blob nk i cur kIdx = Ok (cur', kIdx') → ∃ r, record_at i cur kIdx cur' kIdx' r.
Proof using All.
  intros Hc Hk H. unfold max_int in Hlen. unfold take_record in H. apply bind_ok in H as (l & Hw1 & H). apply bind_ok in H as (? & Hl & H). apply malformed_if_ok in Hl.
  apply bind_ok in H as (off & Hw0 & H). apply bind_ok in H as (c1 & Ht & H). apply take_span_ok in Ht as (-> & Hc1 & Hu & ->); [|done..].
  apply bind_ok in H as (ks & Hw2 & H). apply bind_ok in H as (kc & Hw3 & H). apply bind_ok in H as (? & Hnull & H). apply malformed_if_ok in Hnull.
  apply bind_ok in H as (? & Hks & H). apply malformed_if_ok in Hks. apply bind_ok in H as (? & Hkc & H). apply malformed_if_ok in Hkc.
  apply bind_ok in H as (c2 & Ht & H). apply take_keys_ok in Ht as (keys & Hn & Hkv & Hkw & -> & Hc2 & Hkseg); [|done..].
  apply bind_ok in H as (poff & Hw4 & H). apply bind_ok in H as (plen & Hw5 & H). apply bind_ok in H as (c3 & Ht & H).
  apply take_span_ok in Ht as (-> & Hc3 & _ & ->); [|lia]. injection H as <- <-.
  rewrite sub64_small in Hkc by lia. apply N.ltb_ge in Hkc. apply negb_false_iff, N.eqb_eq in Hks. subst ks.
  rewrite add64_small by lia. apply N.eqb_neq in Hl.
  apply (le64_table _ _ (6 * i)%N) in Hw0; [|done|lia]. apply (le64_table _ _ (6 * i + 1)%N) in Hw1; [|done|lia].
  apply (le64_table _ _ (6 * i + 2)%N) in Hw2; [|done|lia]. apply (le64_table _ _ (6 * i + 3)%N) in Hw3; [|done|lia].
  apply (le64_table _ _ (6 * i + 4)%N) in Hw4; [|done|lia]. apply (le64_table _ _ (6 * i + 5)%N) in Hw5; [|done|lia].
  set (c2 := (cur + l + blen (concat keys))%N) in *.
  assert (blen (seg blob cur (cur + l)) = l) as Hbl by (rewrite blen_seg by lia; lia).
  assert (blen (seg blob c2 (c2 + plen)) = plen) as Hpl by (rewrite blen_seg by lia; lia).
  set (r := mkRec (seg blob cur (cur + l)) (if (kc =? keysNullFlag)%N then None else Some keys) (seg blob c2 (c2 + plen))).
  assert (keys_of r = keys ∧ key_count r = kc ∧ key_num r = N.ldiff kc keysNullFlag) as (Hkeys & Hcount & Hnum).
  { unfold keys_of, key_count, key_num, keys_of. simpl. destruct (N.eqb_spec kc keysNullFlag) as [->|Hne]; simpl in *.
    - destruct keys; [done|]. by vm_compute in Hn.
    - destruct (N.eqb_spec (N.land kc keysNullFlag) 0) as [E|]; [|done]. pose proof (N.lor_ldiff_and kc keysNullFlag) as E'.
      rewrite E, N.lor_0_r in E'. rewrite E' in *. split_and!; [done|lia|lia]. }
  exists r. unfold record_at, rec_ok, rec_words, rec_blob. rewrite Hkeys, Hcount, Hnum, !blen_app. subst r. cbn [r_ID r_Payload]. rewrite Hbl, Hpl.
  split_and!; try done.
  - intros E. rewrite E in Hbl. unfold blen in Hbl. simpl in Hbl. lia.
  - by apply Hu.
  - fold c2. apply take6. split_and!; match goal with H : RW !! _ = Some ?x |- RW !! _ = Some ?x => rewrite <-H; f_equal; lia end.
  - by rewrite Hn.
  - rewrite (seg_split blob cur (cur + l)) by (subst c2; lia). rewrite (seg_split blob (cur + l) c2) by (subst c2; lia). by rewrite Hkseg.
  - subst c2. lia.
  - lia.
Qed.

Lemma take_record_complete i cur kIdx cur' kIdx' r : (cur <= blen blob)%N → (kIdx <= nk)%N → record_at i cur kIdx cur' kIdx' r →
  take_record (table_of 8 RW) (table_of 8 KW) blob nk i cur kIdx = Ok (cur', kIdx').
Proof using All.
  intros Hc Hk ((Hne & Hu & Hkv) & Hrow & Hkw & Hseg & -> & Hcb & -> & Hkn). unfold max_int in Hlen. unfold rec_words in Hrow.
  apply take6 in Hrow as (Hw0 & Hw1 & Hw2 & Hw3 & Hw4 & Hw5). destruct (key_count_flag r) as (Hnum & Hflag & _); [lia|].
  assert (∀ j off w, RW !! (6 * N.to_nat i + j) = Some w → off = (48 * i + 8 * N.of_nat j)%N → le64 (table_of 8 RW) off = Ok w) as Hget.
  { intros j off w Hj ->. apply (le64_table _ _ (6 * i + N.of_nat j)%N); [done|lia|]. rewrite <-Hj. f_equal. lia. }
  unfold rec_blob in Hseg. rewrite blen_rec_blob in *.
  apply seg_app_iff in Hseg as [Hs1 Hs2]; [|rewrite !blen_app; lia..]. apply seg_app_iff in Hs2 as [Hs2 Hs3]; [|rewrite !blen_app; lia..].
  assert (le64 (table_of 8 RW) (48 * i) = Ok cur) as G0 by (apply (Hget 0); [rewrite Nat.add_0_r; exact Hw0|lia]).
  assert (le64 (table_of 8 RW) (48 * i + 8) = Ok (blen (r_ID r))) as G1 by (apply (Hget 1); [exact Hw1|lia]).
  assert (le64 (table_of 8 RW) (48 * i + 16) = Ok kIdx) as G2 by (apply (Hget 2); [exact Hw2|lia]).
  assert (le64 (table_of 8 RW) (48 * i + 24) = Ok (key_count r)) as G3 by (apply (Hget 3); [exact Hw3|lia]).
  assert (le64 (table_of 8 RW) (48 * i + 32) = Ok (cur + blen (r_ID r) + blen (concat (keys_of r)))%N) as G4 by (apply (Hget 4); [exact Hw4|lia]).
  assert (le64 (table_of 8 RW) (48 * i + 40) = Ok (blen (r_Payload r))) as G5 by (apply (Hget 5); [exact Hw5|lia]).
  assert ((blen (r_ID r) =? 0)%N = false) as Hz by (apply N.eqb_neq; destruct (r_ID r); [done|unfold blen; simpl; lia]).
  assert (negb (N.land (key_count r) keysNullFlag =? 0)%N && negb (key_count r =? keysNullFlag)%N = false) as Hnull.
  { destruct Hflag as [->| ->]; [done|]. by rewrite N.eqb_refl, andb_false_r. }
  assert (N.to_nat (key_num r) = length (keys_of r)) as Hn by (unfold key_num; lia).
  unfold take_record. rewrite G1. simpl. rewrite Hz. simpl. rewrite G0. simpl.
  rewrite (proj2 (take_span_ok cur cur (blen (r_ID r)) true i _ Hc)) by (split_and!; [done|lia|by rewrite Hs1|done]).
  simpl. rewrite G2. simpl. rewrite G3. simpl. rewrite Hnull. simpl. rewrite N.eqb_refl. simpl.
  rewrite Hnum, sub64_small by lia. rewrite (proj2 (N.ltb_ge _ _)) by lia. simpl. rewrite Hn.
  assert (take_keys (length (keys_of r)) (table_of 8 KW) blob kIdx (cur + blen (r_ID r)) i =
    Ok (cur + blen (r_ID r) + blen (concat (keys_of r)))%N) as ->.
  { apply take_keys_ok; [lia|]. exists (keys_of r). split_and!; try done; lia. }
  simpl. rewrite G4. simpl. rewrite G5. simpl.
  set (c2 := (cur + blen (r_ID r) + blen (concat (keys_of r)))%N).
  assert (take_span blob c2 c2 (blen (r_Payload r)) false i = Ok (c2 + blen (r_Payload r))%N) as ->.
  { apply take_span_ok; [lia|]. split_and!; [done|lia|done|done]. }
  simpl. rewrite add64_small by lia. do 2 f_equal. lia.
Qed.

(** The whole run of records from the cursors [cur] and [kIdx]. *)
Definition records_at (i cur kIdx cur' kIdx' : N) (rs : list Rec) : Prop :=
  Forall rec_ok rs ∧ take (6 * length rs) (drop (6 * N.to_nat i) RW) = all_rows cur kIdx rs ∧
  take (2 * N.to_nat (total_keys rs)) (drop (2 * N.to_nat kIdx) KW) = all_keys cur rs ∧
  seg blob cur cur' = all_blob rs ∧ cur' = (cur + blen (all_blob rs))%N ∧ (cur' <= blen blob)%N ∧
  kIdx' = (kIdx + total_keys rs)%N ∧ (kIdx' <= nk)%N.

Lemma records_at_cons i cur kIdx cur' kIdx' r rs : records_at i cur kIdx cur' kIdx' (r :: rs) ↔
  record_at i cur kIdx (cur + blen (rec_blob r)) (kIdx + key_num r) r ∧
  records_at (i + 1) (cur + blen (rec_blob r)) (kIdx + key_num r) cur' kIdx' rs.
Proof using All.
  unfold records_at, record_at. rewrite all_blob_cons, total_keys_cons, Forall_cons.
  change (all_rows cur kIdx (r :: rs)) with (rec_words cur kIdx r ++ all_rows (cur + blen (rec_blob r)) (kIdx + key_num r) rs).
  change (all_keys cur (r :: rs)) with (key_words (cur + blen (r_ID r)) (keys_of r) ++ all_keys (cur + blen (rec_blob r)) rs).
  replace (6 * length (r :: rs)) with (6 + 6 * length rs) by (simpl; lia). rewrite (take_drop_app RW) by done.
  replace (2 * N.to_nat (key_num r + total_keys rs)) with (2 * length (keys_of r) + 2 * N.to_nat (total_keys rs)) by (unfold key_num; lia).
  rewrite (take_drop_app KW) by apply key_words_length.
  replace (6 * N.to_nat i + 6) with (6 * N.to_nat (i + 1)) by lia.
  replace (2 * N.to_nat kIdx + 2 * length (keys_of r)) with (2 * N.to_nat (kIdx + key_num r)) by (unfold key_num; lia).
  split.
  - intros ((Hr & Hrs) & (Hw & Hws) & (Hk & Hks) & Hseg & -> & Hb & -> & Hn). rewrite blen_app in *.
    apply seg_app_iff in Hseg as [Hs1 Hs2]; [|rewrite blen_app; lia|done]. split_and!; try done; lia.
  - intros ((Hr & Hw & Hk & Hs1 & _ & _ & _ & _) & (Hrs & Hws & Hks & Hs2 & -> & Hb & -> & Hn)). rewrite blen_app. split_and!; try done; try lia.
    apply seg_app_iff; [rewrite blen_app; lia|lia|done].
Qed.

Lemma take_records_ok fuel i cur kIdx cur' kIdx' : (cur <= blen blob)%N → (kIdx <= nk)%N →
  take_records fuel (table_of 8 RW) (table_of 8 KW) blob nk i cur kIdx = Ok (cur', kIdx') ↔
  ∃ rs, length rs = fuel ∧ records_at i cur kIdx cur' kIdx' rs.
Proof using All.
  revert i cur kIdx. induction fuel as [|fuel IH]; intros i cur kIdx Hc Hk; simpl.
  { split.
    - intros [= <- <-]. exists []. split; [done|]. unfold records_at. change (total_keys []) with 0%N. change (all_blob []) with (@nil N). unfold blen. simpl. split_and!; try done; try (constructor || lia).
      unfold seg. by rewrite N.sub_diag.
    - intros (rs & Hl & (_ & _ & _ & _ & -> & _ & -> & _)). destruct rs; [|done]. change (total_keys []) with 0%N. change (blen (all_blob [])) with 0%N. do 2 f_equal; lia. }
  rewrite bind_ok. split.
  - intros ([c1 k1] & H1 & H2). apply take_record_sound in H1 as (r & Hr); [|done..]. pose proof Hr as (_ & _ & _ & _ & -> & Hcb & -> & Hkb).
    apply IH in H2 as (rs & <- & Hrs); [|lia..]. exists (r :: rs). split; [done|]. by apply records_at_cons.
  - intros (rs & Hl & Hrs). destruct rs as [|r rs]; [done|]. injection Hl as Hl. apply records_at_cons in Hrs as [Hr Hrs].
    eexists (_, _). split; [by eapply take_record_complete|]. destruct Hr as (_ & _ & _ & _ & _ & Hcb & _ & Hkb).
    apply IH; [done..|]. by exists rs.
Qed.
End spans.

(** ** The records section *)

Lemma max_u32_eq : max_u32 = (2 ^ 32 - 1)%N.
Proof. done. Qed.
Lemma blen_put k v : blen (put_le k v) = N.of_nat k.
Proof. unfold blen. by rewrite put_le_length. Qed.
Lemma seg_whole b hi : hi = blen b → seg b 0 hi = b.
Proof. intros ->. apply seg_all. Qed.
Lemma blen_nil b : blen b = 0%N → b = [].
Proof. unfold blen. destruct b; [done|simpl; lia]. Qed.

(** A count and the elements that follow it. *)
Lemma count_shape b off elem reserve n : is_bytes b → (blen b <= max_int)%N → (0 < elem)%N →
  count b off elem reserve = Ok n →
  ∃ pre body rest, b = pre ++ put64 n ++ body ++ rest ∧ blen pre = off ∧ blen body = (n * elem)%N ∧ (reserve <= blen rest)%N ∧ (n <= max_u32)%N.
Proof.
  intros Hb Hl He. unfold count, max_int in *.
  destruct (N.ltb_spec (blen b) (off + 8)); [done|]. intros H'. apply bind_ok in H' as (m & Hm & H'). apply bind_ok in H' as (? & H1%malformed_if_ok & H').
  apply bind_ok in H' as (? & H2%malformed_if_ok & H'). apply bind_ok in H' as (? & H3%malformed_if_ok & H'). injection H' as <-.
  apply N.ltb_ge in H1. rewrite sub64_small in H2 by lia. apply N.ltb_ge in H3.
  assert (m * elem <= blen b - off - 8 - reserve)%N as Hm'.
  { apply andb_false_iff in H2 as [H2|H2]; [apply N.ltb_ge in H2; lia|]. apply N.ltb_ge in H2.
    etrans; [apply N.mul_le_mono_r, H2|]. rewrite N.mul_comm. apply N.Div0.mul_div_le. }
  unfold le64 in Hm. rewrite read_le_ok in Hm by lia. injection Hm as <-. set (m := get_le (seg b off (off + 8))) in *.
  assert (put64 m = seg b off (off + 8)) as Hput.
  { unfold put64, m. pose proof (put_get_le (seg b off (off + 8))) as E. rewrite <-E at 2 by by apply is_bytes_seg. f_equal.
    pose proof (blen_seg b off (off + 8)) as Hs. unfold blen in *. lia. }
  exists (seg b 0 off), (seg b (off + 8) (off + 8 + m * elem)), (seg b (off + 8 + m * elem) (blen b)).
  rewrite Hput, !blen_seg by lia. split_and!; try lia. rewrite <-!seg_split by lia. by rewrite seg_all.
Qed.
Lemma count_complete pre body rest elem reserve n : (blen (pre ++ put64 n ++ body ++ rest) <= max_int)%N → (0 < elem)%N →
  blen body = (n * elem)%N → (reserve <= blen rest)%N → (n <= max_u32)%N →
  count (pre ++ put64 n ++ body ++ rest) (blen pre) elem reserve = Ok n.
Proof.
  intros Hl He Hbody Hres Hn. unfold count, max_int in *. rewrite !blen_app in Hl. unfold put64 in Hl. rewrite blen_put in Hl.
    rewrite (proj2 (N.ltb_ge _ _)) by (rewrite !blen_app; unfold put64; rewrite blen_put; lia).
  unfold le64. rewrite (read_le_put Panic 8 n pre) by (unfold max_u32 in Hn; etrans; [apply N.lt_succ_r, Hn|done]). simpl.
  assert (blen (pre ++ put64 n ++ body ++ rest) - blen pre - 8 = blen body + blen rest)%N as -> by (rewrite !blen_app; unfold put64; rewrite blen_put; lia).
  rewrite (proj2 (N.ltb_ge _ _)) by lia. simpl. rewrite sub64_small by lia.
  rewrite (proj2 (N.ltb_ge (_ / elem) n)).
  2:{ apply N.div_le_lower_bound; lia. }
  rewrite andb_false_r. simpl. by rewrite (proj2 (N.ltb_ge _ _)) by lia.
Qed.

Lemma key_words_fits cur ks : (cur + blen (concat ks) < 2 ^ 64)%N → fits 8 (key_words cur ks).
Proof.
  revert cur. induction ks as [|k ks IH]; intros cur H; simpl in *; [constructor|]. rewrite blen_app in H.
  repeat constructor; [lia|lia|]. apply IH. lia.
Qed.
Lemma key_count_fits r : (key_num r < 2 ^ 32)%N → (key_count r < 2 ^ 64)%N.
Proof.
  unfold key_num, key_count, keys_of. destruct (r_Keys r); simpl; [|done]. intros H. etrans; [exact H|done].
Qed.
Lemma all_rows_fits cur kIdx rs : (cur + blen (all_blob rs) < 2 ^ 63)%N → (kIdx + total_keys rs < 2 ^ 32)%N → fits 8 (all_rows cur kIdx rs).
Proof.
  revert cur kIdx. induction rs as [|r rs IH]; intros cur kIdx H1 H2; [constructor|].
  rewrite all_blob_cons, blen_app in H1. rewrite total_keys_cons in H2. apply Forall_app. pose proof (blen_rec_blob r).
  assert (key_count r < 2 ^ 64)%N by (apply key_count_fits; lia).
  split; [|apply IH; lia]. unfold rec_words. repeat constructor; try done; lia.
Qed.
Lemma all_keys_fits cur rs : (cur + blen (all_blob rs) < 2 ^ 63)%N → fits 8 (all_keys cur rs).
Proof.
  revert cur. induction rs as [|r rs IH]; intros cur H; [constructor|]. rewrite all_blob_cons, blen_app, blen_rec_blob in H.
  apply Forall_app. split; [apply key_words_fits; lia|]. apply IH. rewrite blen_rec_blob. lia.
Qed.

(** The fields of a view over the layout of [rs]. *)
Definition records_of (rs : list Rec) : records :=
  mkRecords (N.of_nat (length rs)) (table_of 8 (all_rows 0 0 rs)) (total_keys rs) (table_of 8 (all_keys 0 rs)) (all_blob rs).
Definition records_ok (rs : list Rec) : Prop :=
  Forall rec_ok rs ∧ (N.of_nat (length rs) <= max_u32)%N ∧ (total_keys rs <= max_u32)%N.

Lemma blen_records_section rs : blen (records_section rs) =
  (8 + 48 * N.of_nat (length rs) + 8 + 16 * total_keys rs + blen (all_blob rs))%N.
Proof.
  rewrite records_section_spec, !blen_app, !table_blen, all_rows_length. unfold put64. rewrite !blen_put. pose proof (all_keys_length 0 rs). lia.
Qed.

Lemma app_blen_inj (a b c d : bytes) : a ++ b = c ++ d → blen a = blen c → a = c ∧ b = d.
Proof. intros E Hl. apply app_inj_1 in E; [done|]. unfold blen in Hl. lia. Qed.
Lemma is_bytes_app a b : is_bytes (a ++ b) ↔ is_bytes a ∧ is_bytes b.
Proof. apply Forall_app. Qed.

Lemma parseRecords_sound b v : is_bytes b → (blen b <= max_int)%N → parseRecords b = Ok v →
  ∃ rs, records_ok rs ∧ b = records_section rs ∧ v = records_of rs.
Proof.
  intros Hb Hl H. unfold parseRecords in H. apply bind_ok in H as (n & Hn & H). apply bind_ok in H as (nk & Hnk & H).
  apply (count_shape _ _ _ _ _ Hb Hl) in Hn as (pre & rows & rest & Eb & Hpre%blen_nil & Hrows & Hrest & Hn); [|done]. subst pre. simpl in Eb.
  apply (count_shape _ _ _ _ _ Hb Hl) in Hnk as (pre & keyRows & blob & Eb2 & Hpre & Hkeys & _ & Hnk); [|done].
  assert (pre = put64 n ++ rows ∧ rest = put64 nk ++ keyRows ++ blob) as [-> ->].
  { rewrite Eb in Eb2. rewrite app_assoc in Eb2. apply app_blen_inj in Eb2 as [-> ->]; [done|].
    rewrite blen_app, Hpre, Hrows. unfold put64. rewrite blen_put. lia. }
  clear Eb2 Hpre Hrest.
  assert (blen (put64 n) = 8 ∧ blen (put64 nk) = 8)%N as [Hp1 Hp2] by (split; apply blen_put).
  apply bind_ok in H as (rows' & Hs & H). apply slice_ok in Hs as (_ & _ & ->).
  rewrite Eb, seg_mid in H by lia.
  apply bind_ok in H as (keys' & Hs & H). apply slice_ok in Hs as (_ & _ & ->).
  replace (put64 n ++ rows ++ put64 nk ++ keyRows ++ blob) with ((put64 n ++ rows ++ put64 nk) ++ keyRows ++ blob) in H by by rewrite <-!app_assoc.
  rewrite seg_mid in H by (rewrite !blen_app; lia).
  apply bind_ok in H as (blob' & Hs & H). apply slice_ok in Hs as (_ & _ & ->).
  rewrite (app_assoc (put64 n ++ rows ++ put64 nk) keyRows blob) in H. rewrite seg_tail in H by (rewrite !blen_app; lia).
  rewrite Eb in Hb. apply is_bytes_app in Hb as [_ Hb]. apply is_bytes_app in Hb as [Hrb Hb]. apply is_bytes_app in Hb as [_ Hb]. apply is_bytes_app in Hb as [Hkb _].
  destruct (table_exists 8 (6 * N.to_nat n) rows Hrb) as (RW & -> & HRl & HRf); [unfold blen in Hrows; lia|].
  destruct (table_exists 8 (2 * N.to_nat nk) keyRows Hkb) as (KW & -> & HKl & HKf); [unfold blen in Hkeys; lia|].
  apply bind_ok in H as ([cur kIdx] & Hrec & H). apply bind_ok in H as (? & H1%malformed_if_ok & H). apply bind_ok in H as (? & H2%malformed_if_ok & H).
  apply negb_false_iff, N.eqb_eq in H1, H2. injection H as <-. subst kIdx cur. rewrite Eb, !blen_app in Hl.
  apply take_records_ok in Hrec as (rs & Hlen & Hok & Hr & Hk & Hseg & Hcur & _ & Hnum & _); try done; try lia; [|unfold max_u32 in *; lia].
  rewrite seg_all in Hseg. rewrite N.add_0_l in Hnum. simpl in Hr, Hk. rewrite drop_0 in Hr, Hk.
  rewrite take_ge in Hr by lia. rewrite take_ge in Hk by lia. subst RW KW. exists rs. unfold records_of, records_ok.
  rewrite records_section_spec. rewrite Hlen, N2Nat.id, <-Hnum, <-Hseg. split_and!; done.
Qed.

Lemma parseRecords_complete rs : records_ok rs → (blen (records_section rs) <= max_int)%N →
  parseRecords (records_section rs) = Ok (records_of rs).
Proof.
  intros (Hok & Hn & Hnk) Hl. pose proof (blen_records_section rs) as Hlen. rewrite records_section_spec in *.
  set (RW := all_rows 0 0 rs) in *. set (KW := all_keys 0 rs) in *. set (n := N.of_nat (length rs)) in *. set (nk := total_keys rs) in *. set (blob := all_blob rs) in *.
  assert (blen (put64 n) = 8 ∧ blen (put64 nk) = 8)%N as [Hp1 Hp2] by (split; apply blen_put).
  assert (length RW = 6 * N.to_nat n) as HRl by (unfold RW, n; rewrite all_rows_length; lia).
  assert (length KW = 2 * N.to_nat nk) as HKl by (unfold KW, nk; pose proof (all_keys_length 0 rs); lia).
  assert (blen (table_of 8 RW) = n * 48)%N as HR by (rewrite table_blen; lia).
  assert (blen (table_of 8 KW) = nk * 16)%N as HK by (rewrite table_blen; lia).
  assert (blen (put64 n ++ table_of 8 RW) = 8 + 48 * n)%N as Hpre by (rewrite blen_app; lia).
  set (b := put64 n ++ table_of 8 RW ++ put64 nk ++ table_of 8 KW ++ blob) in *.
  assert ((put64 n ++ table_of 8 RW) ++ put64 nk ++ table_of 8 KW ++ blob = b) as E1 by (unfold b; by rewrite <-!app_assoc).
  assert ((put64 n ++ table_of 8 RW ++ put64 nk) ++ table_of 8 KW ++ blob = b) as E2 by (unfold b; by rewrite <-!app_assoc).
  assert ((put64 n ++ table_of 8 RW ++ put64 nk ++ table_of 8 KW) ++ blob = b) as E3 by (unfold b; by rewrite <-!app_assoc).
  assert (count b 0 48 8 = Ok n) as C1.
  { apply (count_complete [] (table_of 8 RW) (put64 nk ++ table_of 8 KW ++ blob)); try done. rewrite blen_app. lia. }
  assert (count b (8 + 48 * n) 16 0 = Ok nk) as C2.
  { rewrite <-Hpre, <-E1. apply count_complete; try done; rewrite ?E1; (done || lia). }
  assert (slice b 8 (8 + 48 * n) = Ok (table_of 8 RW)) as S1.
  { apply slice_ok. split_and!; [lia|lia|]. symmetry. apply seg_mid; lia. }
  assert (slice b (8 + 48 * n + 8) (8 + 48 * n + 8 + 16 * nk) = Ok (table_of 8 KW)) as S2.
  { apply slice_ok. split_and!; [lia|lia|]. symmetry. rewrite <-E2. apply seg_mid; rewrite !blen_app; lia. }
  assert (slice b (8 + 48 * n + 8 + 16 * nk) (blen b) = Ok blob) as S3.
  { apply slice_ok. split_and!; [lia|lia|]. symmetry. rewrite <-E3 at 1. apply seg_tail; rewrite ?Hlen, !blen_app; lia. }
  unfold parseRecords. rewrite C1. cbn [mbind result_bind]. rewrite C2. cbn [mbind result_bind]. rewrite S1. cbn [mbind result_bind].
  rewrite S2. cbn [mbind result_bind]. rewrite S3.
  cbn [mbind result_bind]. unfold max_u32, max_int in *.
  assert (fits 8 KW) as HKf by (apply all_keys_fits; fold blob; lia).
  assert (fits 8 RW) as HRf by (apply all_rows_fits; fold blob nk; lia).
  assert (take_records (N.to_nat n) (table_of 8 RW) (table_of 8 KW) blob nk 0 0 0 = Ok (blen blob, nk)) as ->.
  { apply take_records_ok; try done; try (unfold max_int; lia). exists rs. unfold records_at. fold RW KW nk blob. replace (N.to_nat n) with (length rs) in * by lia. simpl. rewrite !drop_0, !take_ge by lia.
      split_and!; try done; try lia. by apply seg_whole. }
  cbn [mbind result_bind]. rewrite !N.eqb_refl. done.
Qed.

(** ** The accessors over the layout of records *)

Lemma all_rows_cons cur k r rs : all_rows cur k (r :: rs) = rec_words cur k r ++ all_rows (cur + blen (rec_blob r)) (k + key_num r) rs.
Proof. done. Qed.
Lemma all_keys_cons cur r rs : all_keys cur (r :: rs) = key_words (cur + blen (r_ID r)) (keys_of r) ++ all_keys (cur + blen (rec_blob r)) rs.
Proof. done. Qed.
Lemma all_rows_app cur k a b : all_rows cur k (a ++ b) = all_rows cur k a ++ all_rows (cur + blen (all_blob a)) (k + total_keys a) b.
Proof.
  revert cur k. induction a as [|r a IH]; intros cur k; [by rewrite !N.add_0_r|]. simpl. rewrite IH.
  rewrite all_blob_cons, total_keys_cons, blen_app, !N.add_assoc. done.
Qed.
Lemma all_keys_app cur a b : all_keys cur (a ++ b) = all_keys cur a ++ all_keys (cur + blen (all_blob a)) b.
Proof.
  revert cur. induction a as [|r a IH]; intros cur; [by rewrite !N.add_0_r|]. simpl. rewrite IH, <-app_assoc.
  rewrite all_blob_cons, blen_app, !N.add_assoc. done.
Qed.
Lemma total_keys_app a b : total_keys (a ++ b) = (total_keys a + total_keys b)%N.
Proof. induction a as [|r a IH]; [done|]. rewrite <-app_comm_cons, !total_keys_cons, IH. lia. Qed.
Lemma all_blob_app a b : all_blob (a ++ b) = all_blob a ++ all_blob b.
Proof. unfold all_blob. by rewrite fmap_app, concat_app. Qed.
Lemma key_words_app cur a b : key_words cur (a ++ b) = key_words cur a ++ key_words (cur + blen (concat a)) b.
Proof.
  revert cur. induction a as [|k a IH]; intros cur; [by rewrite N.add_0_r|]. simpl. rewrite IH, blen_app. by rewrite N.add_assoc.
Qed.

Section accessors.
Context (rs : list Rec) (Hok : records_ok rs) (Hlen : (blen (records_section rs) <= max_int)%N).

Lemma layout_bounds : (blen (all_blob rs) < 2 ^ 63)%N ∧ (total_keys rs < 2 ^ 32)%N.
Proof using All. destruct Hok as (_ & _ & Hk). rewrite blen_records_section in Hlen. unfold max_u32, max_int in *. lia. Qed.

Section one.
Context (a : list Rec) (r : Rec) (b : list Rec) (Hrs : rs = a ++ r :: b).
Let i := N.of_nat (length a).
Let at_ := blen (all_blob a).

Lemma row_word j off w : rec_words at_ (total_keys a) r !! j = Some w → off = (48 * i + 8 * N.of_nat j)%N →
  le64 (v_rows (records_of rs)) off = Ok w.
Proof using All.
  intros Hj Ho. destruct layout_bounds as [H1 H2]. apply (le64_table _ _ (6 * i + N.of_nat j)%N).
  { by apply all_rows_fits. } { lia. }
  rewrite Hrs, all_rows_app, lookup_app_r by (rewrite all_rows_length; lia). rewrite all_rows_length. rewrite all_rows_cons.
  replace (N.to_nat (6 * i + N.of_nat j) - 6 * length a) with j by (unfold i; lia). rewrite !N.add_0_l. rewrite lookup_app_l.
  - exact Hj.
  - by apply lookup_lt_Some in Hj.
Qed.
Lemma blob_parts : all_blob rs = all_blob a ++ r_ID r ++ concat (keys_of r) ++ r_Payload r ++ all_blob b.
Proof using Hrs. rewrite Hrs, all_blob_app, all_blob_cons. unfold rec_blob. by rewrite <-!app_assoc. Qed.
Lemma str_at_ok pre s post off : all_blob rs = pre ++ s ++ post → off = blen pre → str_at (records_of rs) off (blen s) = Ok s.
Proof using All.
  intros E ->. unfold str_at. destruct (N.eqb_spec (blen s) 0) as [H%blen_nil|_]; [by subst|]. apply slice_ok. simpl. rewrite E, !blen_app.
  split_and!; [lia|lia|]. symmetry. by apply seg_mid.
Qed.

Lemma ID_of : ID (records_of rs) i = Ok (r_ID r).
Proof using All.
  unfold ID. rewrite (row_word 0 (48 * i)%N at_) by (done || lia). cbn [mbind result_bind]. rewrite (row_word 1 (48 * i + 8)%N (blen (r_ID r))) by (done || lia). cbn [mbind result_bind].
  by apply (str_at_ok (all_blob a) _ (concat (keys_of r) ++ r_Payload r ++ all_blob b)), eq_refl; apply blob_parts.
Qed.
Lemma Payload_of : Payload (records_of rs) i = Ok (r_Payload r).
Proof using All.
  unfold Payload. rewrite (row_word 4 (48 * i + 32)%N (at_ + blen (r_ID r) + blen (concat (keys_of r)))%N) by (done || lia). cbn [mbind result_bind].
  rewrite (row_word 5 (48 * i + 40)%N (blen (r_Payload r))) by (done || lia).
  cbn [mbind result_bind]. apply (str_at_ok (all_blob a ++ r_ID r ++ concat (keys_of r)) _ (all_blob b)).
  - rewrite <-!app_assoc. apply blob_parts.
  - rewrite !blen_app. unfold at_. lia.
Qed.
Lemma key_num_small : (key_num r < 2 ^ 32)%N.
Proof using All. destruct layout_bounds as [_ H]. rewrite Hrs, total_keys_app, total_keys_cons in H. lia. Qed.
Lemma KeyCount_of : KeyCount (records_of rs) i = Ok (key_num r).
Proof using All.
  unfold KeyCount. rewrite (row_word 3 (48 * i + 24)%N (key_count r)) by (done || lia). cbn [mbind result_bind].
  by destruct (key_count_flag r key_num_small) as [-> _].
Qed.
Lemma Key_of j k : keys_of r !! j = Some k → Key (records_of rs) i (N.of_nat j) = Ok k.
Proof using All.
  intros Hj. unfold Key. rewrite (row_word 2 (48 * i + 16)%N (total_keys a)) by (done || lia). cbn [mbind result_bind].
  pose proof (list_elem_of_split_length _ _ _ Hj) as (ka & kb & Ek & Hka). destruct layout_bounds as [H1 H2].
  set (cur := (at_ + blen (r_ID r) + blen (concat ka))%N).
  assert (∀ d w, [cur; blen k] !! d = Some w → all_keys 0 rs !! N.to_nat (2 * (total_keys a + N.of_nat j) + N.of_nat d) = Some w) as Hget.
  { intros d w Hd. rewrite Hrs, all_keys_app, lookup_app_r by (pose proof (all_keys_length 0 a); lia). rewrite all_keys_cons, Ek, key_words_app, <-!app_assoc.
    rewrite lookup_app_r by (rewrite key_words_length; pose proof (all_keys_length 0 a); lia). rewrite key_words_length, N.add_0_l.
    pose proof (all_keys_length 0 a). replace (_ - _ - _) with d by lia. fold at_ cur.
    destruct d as [|[|d]]; simpl in *; (done || congruence). }
  assert (fits 8 (all_keys 0 rs)) as Hf by by apply all_keys_fits.
  assert (le64 (v_keyRows (records_of rs)) (16 * (total_keys a + N.of_nat j)) = Ok cur) as ->.
  { apply (le64_table _ _ (2 * (total_keys a + N.of_nat j))%N); [done|lia|]. rewrite <-(Hget 0 cur) by done. f_equal. lia. }
  cbn [mbind result_bind].
  assert (le64 (v_keyRows (records_of rs)) (16 * (total_keys a + N.of_nat j) + 8) = Ok (blen k)) as ->.
  { apply (le64_table _ _ (2 * (total_keys a + N.of_nat j) + 1)%N); [done|lia|]. rewrite <-(Hget 1 (blen k)) by done. f_equal. }
  cbn [mbind result_bind]. apply (str_at_ok (all_blob a ++ r_ID r ++ concat ka) _ (concat kb ++ r_Payload r ++ all_blob b)).
  - rewrite blob_parts, Ek, concat_app. simpl. by rewrite <-!app_assoc.
  - rewrite !blen_app. unfold cur, at_. lia.
Qed.
Lemma append_keys_of fuel j dst : j + fuel = length (keys_of r) →
  append_keys fuel (records_of rs) i (N.of_nat j) dst = Ok (dst ++ drop j (keys_of r)).
Proof using All.
  revert j dst. induction fuel as [|fuel IH]; intros j dst Hj; simpl; [by rewrite drop_ge, app_nil_r by lia|].
  destruct (lookup_lt_is_Some_2 (keys_of r) j) as [k Hk]; [lia|]. rewrite (Key_of j k Hk). cbn [mbind result_bind].
  replace (N.of_nat j + 1)%N with (N.of_nat (S j)) by lia. rewrite IH by lia. rewrite (drop_S _ _ _ Hk), <-app_assoc. done.
Qed.
Lemma Keys_of : Keys (records_of rs) i = Ok (r_Keys r).
Proof using All.
  unfold Keys, KeysNull. rewrite (row_word 3 (48 * i + 24)%N (key_count r)) by (done || lia). cbn [mbind result_bind].
  destruct (key_count_flag r key_num_small) as (_ & _ & Hk). rewrite Hk. destruct (key_count r =? keysNullFlag)%N; [done|].
  unfold AppendKeys. rewrite KeyCount_of. cbn [mbind result_bind]. rewrite (append_keys_of _ 0) by (unfold key_num; lia). done.
Qed.
End one.
End accessors.
