(* ===== verification/PreparedIDs.v ===== *)
(** The ids section: [parseIDs] accepts exactly the ordinals of the records in
    strictly increasing order of their IDs, as [encodeIDs] writes them, and the binary
    search over it finds every ID. *)

From S2P Require Import Prelude.
From S2P Require Import Runtime.
From S2P Require Import Wire.
From S2P Require Import PreparedFormat.
From S2P Require Import PreparedRecords.
From S2P Require Import PreparedRecordsSpec.

Definition id_at (rs : list Rec) (o : N) : bytes := from_option r_ID [] (rs !! N.to_nat o).
(** Ordinals in range, in strictly increasing order of their IDs, one per record. *)
Definition ids_ok (rs : list Rec) (ords : list N) : Prop :=
  length ords = length rs ∧ Forall (λ o, (o < N.of_nat (length rs))%N) ords ∧ Sorted bytes_lt (id_at rs <$> ords).
Definition ids_section (ords : list N) : bytes := put64 (N.of_nat (length ords)) ++ table_of 8 ords.

Lemma sorted_cons_iff {A} (R : A → A → Prop) x l : Sorted R (x :: l) ↔ (∀ y, head l = Some y → R x y) ∧ Sorted R l.
Proof.
  split.
  - intros [Hs Hh]%Sorted_inv. split; [|done]. intros y Hy. destruct l as [|z l]; [done|]. injection Hy as ->. by inversion Hh.
  - intros [Hh Hs]. constructor; [done|]. destruct l; constructor. by apply Hh.
Qed.
Lemma sorted_option {A} (R : A → A → Prop) o x l :
  Sorted R (option_list o ++ x :: l) ↔ (∀ p, o = Some p → R p x) ∧ Sorted R (x :: l).
Proof.
  destruct o as [p|]; simpl.
  - rewrite sorted_cons_iff. simpl. split; intros [H Hs]; (split; [|done]).
    + intros ? [= <-]. by apply H.
    + intros ? [= <-]. by apply H.
  - split; [|by intros [_ ?]]. intros H. split; [|done]. by intros ? [=].
Qed.
#[local] Instance lt_transitive : Transitive bytes_lt := bytes_lt_trans.

Lemma ids_sorted rs ords i j a b : Sorted bytes_lt (id_at rs <$> ords) → ords !! i = Some a → ords !! j = Some b → i < j →
  bytes_lt (id_at rs a) (id_at rs b).
Proof.
  intros Hs%Sorted_StronglySorted Hi Hj Hlt; [|exact bytes_lt_trans]. 
  revert i j Hi Hj Hlt. induction ords as [|o ords IH]; intros i j Hi Hj Hlt; [done|].
  apply StronglySorted_inv in Hs as [Hs Hf]. destruct j as [|j]; [lia|]. simpl in Hj. destruct i as [|i]; simpl in Hi.
  - injection Hi as ->. rewrite Forall_forall in Hf. apply Hf. apply list_elem_of_fmap_2. by eapply list_elem_of_lookup_2.
  - eapply IH; [done..|lia].
Qed.
Lemma ids_inj rs ords i j a b : Sorted bytes_lt (id_at rs <$> ords) → ords !! i = Some a → ords !! j = Some b →
  id_at rs a = id_at rs b → i = j.
Proof.
  intros Hs Hi Hj E. destruct (decide (i < j)) as [Hl|]; [|destruct (decide (j < i)) as [Hl|]; [|lia]].
  - pose proof (ids_sorted rs ords i j a b Hs Hi Hj Hl) as H. rewrite E in H. by apply irreflexivity in H; [|apply _].
  - pose proof (ids_sorted rs ords j i b a Hs Hj Hi Hl) as H. rewrite E in H. by apply irreflexivity in H; [|apply _].
Qed.

(** Such ordinals are all of them: every record is in the ids section once. *)
Lemma ids_perm rs ords : ids_ok rs ords → ords ≡ₚ (N.of_nat <$> seq 0 (length rs)).
Proof.
  intros (Hl & Hr & Hs). apply submseteq_length_Permutation.
  - apply NoDup_submseteq.
    + apply NoDup_alt. intros i j a Hi Hj. by eapply ids_inj.
    + intros o Ho. rewrite Forall_forall in Hr. pose proof (Hr o Ho) as H. apply list_elem_of_fmap. exists (N.to_nat o).
      split; [lia|]. apply elem_of_seq. lia.
  - rewrite length_fmap, length_seq. lia.
Qed.

Section ids.
Context (rs : list Rec) (Hok : records_ok rs) (Hlen : (blen (records_section rs) <= max_int)%N).

Lemma ID_at o : (o < N.of_nat (length rs))%N → ID (records_of rs) o = Ok (id_at rs o).
Proof using Hok Hlen.
  intros Ho. destruct (lookup_lt_is_Some_2 rs (N.to_nat o)) as [r Hr]; [lia|].
  pose proof (list_elem_of_split_length _ _ _ Hr) as (a & b & E & Ha). unfold id_at. rewrite Hr. simpl.
  pose proof (ID_of rs Hok Hlen a r b E) as H. rewrite <-Ha, N2Nat.id in H. exact H.
Qed.

Lemma check_ids_ok fuel ords i prev : fits 8 ords →
  (N.to_nat i + fuel = length ords) →
  check_ids fuel (records_of rs) (table_of 8 ords) i prev = Ok () ↔
  Forall (λ o, (o < N.of_nat (length rs))%N) (drop (N.to_nat i) ords) ∧
  Sorted bytes_lt (option_list prev ++ (id_at rs <$> drop (N.to_nat i) ords)).
Proof using Hok Hlen.
  intros Hf. revert i prev. induction fuel as [|fuel IH]; intros i prev Hi; simpl.
  { rewrite drop_ge by lia. split; [|done]. intros _. split; [constructor|]. destruct prev; simpl; repeat constructor. }
  destruct (lookup_lt_is_Some_2 ords (N.to_nat i)) as [o Ho]; [lia|].
  rewrite (proj2 (le64_table _ (8 * i) i o Hf eq_refl) Ho). cbn [mbind result_bind]. rewrite (drop_S _ _ _ Ho), Forall_cons. cbn [fmap list_fmap].
  destruct (N.leb_spec (N.of_nat (length rs)) o) as [Hr|Hr]; cbn [malformed_if fail_if mbind result_bind].
  { split; [done|]. intros [[? _] _]. lia. }
  rewrite ID_at by done. cbn [mbind result_bind].
  assert ((match prev with Some p => bool_decide (bytes_le (id_at rs o) p) | None => false end = false ↔ ∀ p, prev = Some p → bytes_lt p (id_at rs o))) as Hprev.
  { destruct prev as [p|]; [|split; [intros _ ?; discriminate|done]]. rewrite bool_decide_eq_false, bytes_nle_lt. naive_solver. }
  replace (S (N.to_nat i)) with (N.to_nat (i + 1)) by lia. change (N.to_nat (i + 1)) with (N.to_nat (i + 1)).
  assert (Sorted bytes_lt (option_list prev ++ id_at rs o :: (id_at rs <$> drop (N.to_nat (i + 1)) ords)) ↔
    (∀ p, prev = Some p → bytes_lt p (id_at rs o)) ∧ Sorted bytes_lt (id_at rs o :: (id_at rs <$> drop (N.to_nat (i + 1)) ords))) as Hsort.
  { apply sorted_option. }
  rewrite Hsort. destruct (match prev with Some p => _ | None => _ end) eqn:E; cbn [malformed_if fail_if mbind result_bind].
  - split; [done|]. intros (_ & H & _). apply Hprev in H. congruence.
  - rewrite IH by lia. cbn [option_list app]. pose proof (proj1 Hprev eq_refl).
    split; [intros [? ?]|intros ([? ?] & ? & ?)]; split_and!; done.
Qed.

Lemma parseIDs_sound b ids : is_bytes b → (blen b <= max_int)%N → parseIDs (records_of rs) b = Ok ids →
  ∃ ords, ids_ok rs ords ∧ b = ids_section ords ∧ ids = table_of 8 ords.
Proof using Hok Hlen.
  intros Hb Hl H. unfold parseIDs in H. apply bind_ok in H as (n & Hn & H).
  apply (count_shape _ _ _ _ _ Hb Hl) in Hn as (pre & body & rest & -> & Hpre%blen_nil & Hbody & _ & Hn); [|done]. subst pre. simpl in *.
  apply bind_ok in H as (? & H1%malformed_if_ok & H). apply negb_false_iff, N.eqb_eq in H1.
  apply bind_ok in H as (? & H2%malformed_if_ok & H). apply negb_false_iff, N.eqb_eq in H2. rewrite !blen_app in H2. unfold put64 in H2. rewrite blen_put in H2.
  assert (rest = []) as -> by (apply blen_nil; lia). rewrite app_nil_r in *.
  apply bind_ok in H as (ids' & Hs & H). apply slice_ok in Hs as (_ & _ & ->). rewrite blen_app, seg_tail in H by (unfold put64; rewrite blen_put; lia).
  apply bind_ok in H as ([] & Hc & H). injection H as <-. apply is_bytes_app in Hb as [_ Hb].
  destruct (table_exists 8 (N.to_nat n) body Hb) as (ords & -> & Hlo & Hf); [unfold blen in Hbody; lia|].
  apply check_ids_ok in Hc as [Hr Hs]; [|done|lia]. rewrite drop_0 in Hr, Hs. exists ords. unfold ids_ok, ids_section. simpl in H1, Hs.
  rewrite Hlo, N2Nat.id. split_and!; try done. lia.
Qed.
Lemma parseIDs_complete ords : ids_ok rs ords → (blen (ids_section ords) <= max_int)%N →
  parseIDs (records_of rs) (ids_section ords) = Ok (table_of 8 ords).
Proof using Hok Hlen.
  intros (Hl & Hr & Hs) Hb. destruct Hok as (_ & Hn & _). unfold parseIDs.
  assert (fits 8 ords) as Hf.
  { eapply Forall_impl; [exact Hr|]. intros o Ho. simpl in *. unfold max_u32 in Hn. change (256 ^ N.of_nat 8)%N with (2 ^ 64)%N. lia. }
  set (n := N.of_nat (length ords)) in *. assert (blen (table_of 8 ords) = n * 8)%N as Ht by (rewrite table_blen; lia).
  assert (blen (ids_section ords) = 8 + 8 * n)%N as Hbl by (unfold ids_section; rewrite blen_app, Ht; unfold put64; rewrite blen_put; lia).
  assert (count (ids_section ords) 0 8 0 = Ok n) as ->.
  { pose proof (count_complete [] (table_of 8 ords) [] 8 0 n) as H. rewrite app_nil_r in H. apply H; try done; unfold n; lia. }
  cbn [mbind result_bind]. simpl v_n. rewrite <-Hl. fold n. rewrite N.eqb_refl. cbn [negb malformed_if fail_if mbind result_bind].
  rewrite Hbl, N.eqb_refl. cbn [negb malformed_if fail_if mbind result_bind].
  assert (slice (ids_section ords) 8 (8 + 8 * n) = Ok (table_of 8 ords)) as ->.
  { apply slice_ok. split_and!; [lia|lia|]. symmetry. apply seg_tail; unfold put64; rewrite blen_put; lia. }
  cbn [mbind result_bind]. rewrite (proj2 (check_ids_ok (N.to_nat n) ords 0 None Hf ltac:(unfold n; lia))) by done. done.
Qed.

(** ** Looking an ID up *)

Section lookup.
Context (ords : list N) (Hids : ids_ok rs ords).

Lemma ords_fit : fits 8 ords.
Proof using All.
  destruct Hok as (_ & Hn & _), Hids as (_ & Hr & _). eapply Forall_impl; [exact Hr|]. intros o Ho. simpl in *. unfold max_u32 in Hn.
  change (256 ^ N.of_nat 8)%N with (2 ^ 64)%N. lia.
Qed.
Lemma probe k o : ords !! N.to_nat k = Some o →
  IDOrdinal (table_of 8 ords) k = Ok o ∧ ID (records_of rs) o = Ok (id_at rs o).
Proof using All.
  intros Hk. split.
  - unfold IDOrdinal. by apply (le64_table _ (8 * k) k o ords_fit eq_refl).
  - apply ID_at. destruct Hids as (_ & Hr & _). rewrite Forall_forall in Hr. apply Hr. by eapply list_elem_of_lookup_2.
Qed.

(** Everything before the result is below [id], everything from it on is not. *)
Lemma search_spec id fuel i j : N.to_nat (j - i) < fuel → (i <= j)%N → (j <= N.of_nat (length ords))%N →
  (∀ k o, (k < i)%N → ords !! N.to_nat k = Some o → bytes_lt (id_at rs o) id) →
  (∀ k o, (j <= k)%N → ords !! N.to_nat k = Some o → ¬ bytes_lt (id_at rs o) id) →
  ∃ k, search fuel (records_of rs) (table_of 8 ords) id i j = Ok k ∧ (k <= N.of_nat (length ords))%N ∧
    (∀ k' o, (k' < k)%N → ords !! N.to_nat k' = Some o → bytes_lt (id_at rs o) id) ∧
    (∀ k' o, (k <= k')%N → ords !! N.to_nat k' = Some o → ¬ bytes_lt (id_at rs o) id).
Proof using All.
  revert i j. induction fuel as [|fuel IH]; intros i j Hf Hij Hj Hlo Hhi; [lia|]. simpl.
  destruct (N.ltb_spec i j) as [Hlt|Hge]; [|exists i; assert (i = j) as -> by lia; by split_and!].
  set (h := ((i + j) / 2)%N). assert (i <= h < j)%N as Hh by (unfold h; zlia).
  destruct (lookup_lt_is_Some_2 ords (N.to_nat h)) as [o Ho]; [lia|]. destruct (probe h o Ho) as [E1 E2]. rewrite E1. cbn [mbind result_bind].
  rewrite E2. cbn [mbind result_bind]. destruct Hids as (_ & _ & Hs). case_bool_decide as Hc.
  - apply IH; [lia|lia|lia| |done]. intros k o' Hk Hk'. destruct (decide (k = h)) as [->|]; [by rewrite Ho in Hk'; injection Hk' as <-|].
    etrans; [|exact Hc]. eapply (ids_sorted rs ords (N.to_nat k) (N.to_nat h)); [done..|lia].
  - apply IH; [lia|lia|lia|done|]. intros k o' Hk Hk' Hlt'. destruct (decide (k = h)) as [->|]; [by rewrite Ho in Hk'; injection Hk' as <-|].
    apply Hc. etrans; [|exact Hlt']. eapply (ids_sorted rs ords (N.to_nat h) (N.to_nat k)); [done..|lia].
Qed.

Lemma Lookup_spec id : ∃ r, Lookup (records_of rs) (table_of 8 ords) id = Ok r ∧
  match r with
  | Some o => (o < N.of_nat (length rs))%N ∧ id_at rs o = id
  | None => ∀ o, (o < N.of_nat (length rs))%N → id_at rs o ≠ id
  end.
Proof using All.
  unfold Lookup. pose proof Hids as (Hl & Hr & Hs). simpl v_n. rewrite <-Hl in *.
  destruct (search_spec id (S (N.to_nat (N.of_nat (length ords)))) 0 (N.of_nat (length ords))) as (k & -> & Hk & Hlo & Hhi); [lia|lia|lia|..].
  { intros; lia. } { intros k o Hk Ho. apply lookup_lt_Some in Ho. lia. }
  cbn [mbind result_bind].
  assert (∀ o, (o < N.of_nat (length ords))%N → id_at rs o = id → ords !! N.to_nat k = Some o) as Hfind.
  { intros o Ho E. assert (o ∈ ords) as [m Hm]%list_elem_of_lookup.
    { rewrite (ids_perm rs ords Hids). apply list_elem_of_fmap. exists (N.to_nat o). split; [lia|]. apply elem_of_seq. lia. }
    assert (¬ N.of_nat m < k)%N as H1.
    { intros H. specialize (Hlo (N.of_nat m) o H). rewrite Nat2N.id in Hlo. specialize (Hlo Hm). rewrite E in Hlo. by apply irreflexivity in Hlo; [|apply _]. }
    destruct (decide (N.of_nat m = k)) as [<-|]; [by rewrite Nat2N.id|]. exfalso.
    pose proof (lookup_lt_Some _ _ _ Hm). destruct (lookup_lt_is_Some_2 ords (N.to_nat k)) as [x Hx]; [lia|].
    apply (Hhi k x); [lia|done|]. rewrite <-E. eapply (ids_sorted rs ords (N.to_nat k) m); [done..|lia]. }
  destruct (N.ltb_spec k (N.of_nat (length ords))) as [Hlt|Hge].
  - destruct (lookup_lt_is_Some_2 ords (N.to_nat k)) as [o Ho]; [lia|]. destruct (probe k o Ho) as [-> E2]. cbn [mbind result_bind]. rewrite E2.
    cbn [mbind result_bind]. eexists. split; [done|]. case_bool_decide as Hc.
    + split; [|done]. rewrite Forall_forall in Hr. apply Hr. by eapply list_elem_of_lookup_2.
    + intros o' Ho' E. apply Hc. specialize (Hfind o' Ho' E). congruence.
  - eexists. split; [done|]. intros o Ho E. specialize (Hfind o Ho E). apply lookup_lt_Some in Hfind. lia.
Qed.
End lookup.
End ids.
