(* ===== verification/Frozen.v ===== *)
(** [engine/prepared/frozen.go]: the structural check of one bitmap in roaring's frozen
    format, which the artifact embeds and roaring later reads without checking. *)

From S2P Require Import Prelude.
From S2P Require Import Wire.
From S2P Require Import PreparedFormat.

Definition frozenCookie : N := 13766.
Definition frozenMaxConts : N := 65536.
Definition frozenBitsetBytes : N := 8192.
Definition frozenArrayMaxCard : N := 4096.

Record frozenInfo := mkFrozenInfo { containers : N; cardinality : N; fi_max : N }.
Record frozenLayout := mkFrozenLayout {
  fl_n : N; keysAt : N; countsAt : N; typesAt : N; nBitset : N; nRunEl : N; nArrayEl : N }.

(** [binary.BigEndian.Uint32] *)
Definition be32 (b : bytes) (off : N) : result prepared_error N :=
  s ← slice b off (off + 4); Ok (get_le (rev s)).

(** ** The trailer *)

(** The sizes the typecodes [ts] imply; [i] is the container. *)
Fixpoint sum_types (b : bytes) (cAt i : N) (ts : list N) (st : N * N * N) : result prepared_error (N * N * N) :=
  match ts with
  | [] => Ok st
  | t :: ts =>
      c ← le16 b (cAt + 2 * i);
      let '(nb, na, nr) := st in
      match t with
      | 1%N => sum_types b cAt (i + 1)%N ts (nb + 1, na, nr)%N
      | 2%N => sum_types b cAt (i + 1)%N ts (nb, na + (c + 1), nr)%N
      | 3%N => sum_types b cAt (i + 1)%N ts (nb, na, nr + c)%N
      | _ => malformed (FrozenType i)
      end
  end.

Definition checkFrozenTrailer (b : bytes) : result prepared_error frozenLayout :=
  if (blen b <? 4)%N then malformed FrozenShort else
  let hdrAt := (blen b - 4)%N in
  be ← be32 b hdrAt;
  _ ← malformed_if (N.land be 32767 =? frozenCookie)%N FrozenBigEndian;
  header ← le32 b hdrAt;
  _ ← malformed_if (negb (N.land header 32767 =? frozenCookie)%N) FrozenCookie;
  let n := N.shiftr header 15 in
  _ ← malformed_if ((n <? 1)%N || (frozenMaxConts <? n)%N) FrozenCount;
  _ ← malformed_if (hdrAt <? 5 * n)%N FrozenTrailer;
  let tAt := (hdrAt - n)%N in let cAt := (tAt - 2 * n)%N in let kAt := (cAt - 2 * n)%N in
  ts ← slice b tAt hdrAt;
  '(nb, na, nr) ← sum_types b cAt 0 ts (0, 0, 0)%N;
  let implied := (nb * frozenBitsetBytes + 4 * nr + 2 * na)%N in
  _ ← malformed_if (negb (implied =? kAt)%N) FrozenSize;
  Ok (mkFrozenLayout n kAt cAt tAt nb nr na).

(** ** The containers *)

(** [bits.OnesCount64] and [bits.LeadingZeros64] *)
Definition set_bits (v : N) : list N := filter (λ i, N.testbit v i = true) (N.of_nat <$> seq 0 64).
Definition OnesCount64 (v : N) : N := N.of_nat (length (set_bits v)).
Definition LeadingZeros64 (v : N) : N := (64 - N.size v)%N.

(** The words of a bitset container. *)
Definition bitsetWords : nat := 1024.
(** Their scan: cardinality and last value; [last = None] is -1. *)
Fixpoint scan_bitset (fuel : nat) (words : bytes) (w : N) (st : N * option N) : result prepared_error (N * option N) :=
  match fuel with
  | O => Ok st
  | S fuel =>
      v ← le64 words (8 * w);
      scan_bitset fuel words (w + 1)%N
        (if (v =? 0)%N then st else (st.1 + OnesCount64 v, Some (64 * w + 63 - LeadingZeros64 v))%N)
  end.
(** The values of an array container; the last one. *)
Fixpoint scan_array (fuel : nat) (b : bytes) (at_ i j : N) (prev : N) : result prepared_error N :=
  match fuel with
  | O => Ok prev
  | S fuel =>
      v ← le16 b (at_ + 2 * j);
      _ ← malformed_if ((0 <? j)%N && (v <=? prev)%N) (FrozenArray i);
      scan_array fuel b at_ i (j + 1)%N v
  end.
(** The runs of a run container: the last value, [None] for -1, and the cardinality. *)
Fixpoint scan_runs (fuel : nat) (b : bytes) (at_ i j : N) (prevLast : option N) (card : N) : result prepared_error (option N * N) :=
  match fuel with
  | O => Ok (prevLast, card)
  | S fuel =>
      start ← le16 b (at_ + 4 * j); length ← le16 b (at_ + 4 * j + 2);
      let last := (start + length)%N in
      _ ← malformed_if (65535 <? last)%N (FrozenRunOverflow i);
      _ ← malformed_if (match prevLast with Some p => (start <=? p)%N | None => false end) (FrozenRuns i);
      scan_runs fuel b at_ i (j + 1)%N (Some last) (card + (length + 1))%N
  end.

(** The content of a container with count [c]: its cardinality and last value. *)
Definition check_bitset (b : bytes) (at_ i c : N) : result prepared_error (N * N) :=
  words ← slice b at_ (at_ + frozenBitsetBytes);
  '(card, last) ← scan_bitset bitsetWords words 0 (0%N, None);
  _ ← malformed_if (negb (card =? c + 1)%N) (FrozenBitset i);
  Ok (card, default 65535%N last).
Definition check_array (b : bytes) (at_ i c : N) : result prepared_error (N * N) :=
  let sz := (c + 1)%N in
  _ ← malformed_if (frozenArrayMaxCard <? sz)%N (FrozenArrayCard i);
  prev ← scan_array (N.to_nat sz) b at_ i 0 0;
  Ok (sz, prev).
Definition check_runs (b : bytes) (at_ i c : N) : result prepared_error (N * N) :=
  _ ← malformed_if (c <? 1)%N (FrozenRunEmpty i);
  '(prevLast, card) ← scan_runs (N.to_nat c) b at_ i 0 None 0;
  Ok (card, default 65535%N prevLast).

(** Where the next container of each type starts, the key before, and the summary. *)
Record cursor := mkCursor { bitsetAt : N; runAt : N; arrayAt : N; prevKey : N; c_info : frozenInfo }.
Definition advance (s : cursor) (k card hi dBit dRun dArr : N) : cursor :=
  mkCursor (bitsetAt s + dBit) (runAt s + dRun) (arrayAt s + dArr) k
    (mkFrozenInfo (containers (c_info s)) (cardinality (c_info s) + card) (N.lor (N.shiftl k 16) hi)).
Definition check_container (b : bytes) (l : frozenLayout) (t i : N) (s : cursor) : result prepared_error cursor :=
  k ← le16 b (keysAt l + 2 * i);
  _ ← malformed_if ((0 <? i)%N && (k <=? prevKey s)%N) (FrozenKeys i);
  c ← le16 b (countsAt l + 2 * i);
  match t with
  | 1%N => r ← check_bitset b (bitsetAt s) i c; Ok (advance s k r.1 r.2 frozenBitsetBytes 0 0)
  | 2%N => r ← check_array b (arrayAt s) i c; Ok (advance s k r.1 r.2 0 0 (2 * (c + 1)))
  | 3%N => r ← check_runs b (runAt s) i c; Ok (advance s k r.1 r.2 0 (4 * c) 0)
  | _ => Ok (advance s k 0 0 0 0 0)
  end.
Fixpoint check_containers (b : bytes) (l : frozenLayout) (ts : list N) (i : N) (s : cursor) : result prepared_error cursor :=
  match ts with
  | [] => Ok s
  | t :: ts => s ← check_container b l t i s; check_containers b l ts (i + 1)%N s
  end.

Definition checkFrozen (b : bytes) : result prepared_error frozenInfo :=
  l ← checkFrozenTrailer b;
  ts ← slice b (typesAt l) (typesAt l + fl_n l);
  let run0 := (nBitset l * frozenBitsetBytes)%N in
  s ← check_containers b l ts 0 (mkCursor 0 run0 (run0 + 4 * nRunEl l) 0 (mkFrozenInfo 0 0 0));
  Ok (mkFrozenInfo (fl_n l) (cardinality (c_info s)) (fi_max (c_info s))).
