(* ===== verification/FrozenSpec.v ===== *)
(** [checkFrozen] accepts exactly the well-formed bitmaps of roaring's frozen format:
    what it accepts is the layout of some containers, and cardinality and maximum are
    those of the set they hold. *)

From S2P Require Import Prelude.
From S2P Require Import Wire.
From S2P Require Import PreparedFormat.
From S2P Require Import PreparedRecordsSpec.
From S2P Require Import Frozen.

(** ** The format *)

Inductive container := Bitset (words : list N) | Array (vals : list N) | Runs (runs : list (N * N)).
Fixpoint bitset_elems (w : N) (ws : list N) : list N :=
  match ws with [] => [] | v :: ws => ((λ i, 64 * w + i)%N <$> set_bits v) ++ bitset_elems (w + 1) ws end.
Definition run_elems (r : N * N) : list N := (λ k, r.1 + N.of_nat k)%N <$> seq 0 (S (N.to_nat r.2)).
Definition elems_of (c : container) : list N :=
  match c with Bitset ws => bitset_elems 0 ws | Array vs => vs | Runs rs => rs ≫= run_elems end.
Definition type_code (c : container) : N := match c with Bitset _ => 1 | Array _ => 2 | Runs _ => 3 end.
Definition count_code (c : container) : N :=
  match c with Bitset _ | Array _ => N.of_nat (length (elems_of c)) - 1 | Runs rs => N.of_nat (length rs) end.
Definition bit_words (c : container) : list N := match c with Bitset ws => ws | _ => [] end.
Definition run_words (c : container) : list N := match c with Runs rs => rs ≫= λ r, [r.1; r.2] | _ => [] end.
Definition array_words (c : container) : list N := match c with Array vs => vs | _ => [] end.

Fixpoint runs_ok (prev : option N) (rs : list (N * N)) : Prop :=
  match rs with
  | [] => True
  | (s, l) :: rs => (s + l <= 65535)%N ∧ (∀ p, prev = Some p → (p < s)%N) ∧ runs_ok (Some (s + l)%N) rs
  end.
Definition container_ok (c : container) : Prop :=
  match c with
  | Bitset ws => length ws = bitsetWords ∧ fits 8 ws ∧ elems_of c ≠ []
  | Array vs => vs ≠ [] ∧ (N.of_nat (length vs) <= 4096)%N ∧ fits 2 vs ∧ Sorted N.lt vs
  | Runs rs => rs ≠ [] ∧ (N.of_nat (length rs) < 2 ^ 16)%N ∧ runs_ok None rs
  end.
Definition frozen_ok (cs : list (N * container)) : Prop :=
  cs ≠ [] ∧ (N.of_nat (length cs) <= 65536)%N ∧ Forall (λ kc, container_ok kc.2) cs ∧ fits 2 cs.*1 ∧ Sorted N.lt cs.*1.

(** The set a frozen bitmap holds. *)
Definition frozen_elems (cs : list (N * container)) : list N :=
  cs ≫= λ kc, (λ x, N.lor (N.shiftl kc.1 16) x) <$> elems_of kc.2.
Definition frozen_bytes (cs : list (N * container)) : bytes :=
  table_of 8 (cs.*2 ≫= bit_words) ++ table_of 2 (cs.*2 ≫= run_words) ++ table_of 2 (cs.*2 ≫= array_words) ++
  table_of 2 cs.*1 ++ table_of 2 (count_code <$> cs.*2) ++ (type_code <$> cs.*2) ++
  put32 (frozenCookie + N.of_nat (length cs) * 2 ^ 15).
Definition frozen_info (cs : list (N * container)) : frozenInfo :=
  mkFrozenInfo (N.of_nat (length cs)) (N.of_nat (length (frozen_elems cs))) (default 0%N (last (frozen_elems cs))).

(** ** Words of a bitset *)

Lemma set_bits_spec v i : i ∈ set_bits v ↔ (i < 64)%N ∧ N.testbit v i = true.
Proof.
  unfold set_bits. rewrite list_elem_of_filter, list_elem_of_fmap. split.
  - intros (H & k & -> & Hk%elem_of_seq). split; [lia|done].
  - intros [H1 H2]. split; [done|]. exists (N.to_nat i). split; [lia|]. apply elem_of_seq. lia.
Qed.
Lemma strongly_sorted_filter {A} (R : A → A → Prop) (P : A → Prop) `{∀ x, Decision (P x)} l :
  StronglySorted R l → StronglySorted R (filter P l).
Proof.
  induction 1 as [|x l Hl IH Hx]; [constructor|]. rewrite filter_cons. destruct (decide (P x)); [|done]. constructor; [done|].
  rewrite Forall_forall in *. intros y [_ Hy]%list_elem_of_filter. by apply Hx.
Qed.
Lemma seq_sorted k n : StronglySorted N.lt (N.of_nat <$> seq k n).
Proof.
  revert k. induction n as [|n IH]; intros k; simpl; constructor; [apply IH|]. rewrite Forall_fmap, Forall_seq. intros j Hj. simpl. lia.
Qed.
Lemma set_bits_sorted v : StronglySorted N.lt (set_bits v).
Proof. apply strongly_sorted_filter, seq_sorted. Qed.
(** The last of a sorted list is its largest element. *)
Lemma last_greatest (l : list N) x : StronglySorted N.lt l → x ∈ l → (∀ y, y ∈ l → (y <= x)%N) → last l = Some x.
Proof.
  intros Hs Hin Hmax. induction Hs as [|a l Hs IH Ha]; [by apply elem_of_nil in Hin|].
  destruct l as [|b l]; [apply list_elem_of_singleton in Hin as ->; done|]. change (last (a :: b :: l)) with (last (b :: l)). apply IH; [|set_solver].
  apply elem_of_cons in Hin as [->|]; [|done]. exfalso. rewrite Forall_forall in Ha. pose proof (Ha b ltac:(set_solver)). pose proof (Hmax b ltac:(set_solver)). lia.
Qed.
Lemma set_bits_last v : v ≠ 0%N → (v < 2 ^ 64)%N → last (set_bits v) = Some (N.log2 v).
Proof.
  intros Hv Hlt. apply last_greatest; [apply set_bits_sorted| |].
  - apply set_bits_spec. split; [apply N.log2_lt_pow2; [lia|done]|by apply N.bit_log2].
  - intros y [_ Hy]%set_bits_spec. destruct (decide (y <= N.log2 v)%N); [done|]. rewrite N.bits_above_log2 in Hy by lia. done.
Qed.
Lemma set_bits_zero : set_bits 0 = [].
Proof. done. Qed.
Lemma leading_zeros v : v ≠ 0%N → (v < 2 ^ 64)%N → (63 - LeadingZeros64 v = N.log2 v)%N.
Proof.
  intros Hv Hlt. unfold LeadingZeros64. rewrite N.size_log2 by done. pose proof (proj1 (N.log2_lt_pow2 v 64 ltac:(lia)) Hlt). lia.
Qed.
Lemma set_bits_nil v : (v < 2 ^ 64)%N → set_bits v = [] → v = 0%N.
Proof.
  intros Hlt H. destruct (decide (v = 0%N)) as [|Hv]; [done|]. pose proof (set_bits_last v Hv Hlt) as E. by rewrite H in E.
Qed.

(** [last] of a concatenation. *)
Definition or_else {A} (o d : option A) : option A := match o with Some x => Some x | None => d end.
Lemma last_app_or {A} (a b : list A) : last (a ++ b) = or_else (last b) (last a).
Proof. rewrite last_app. by destruct (last b). Qed.

Lemma scan_bitset_spec ws w c l : fits 8 ws →
  ∀ pre, blen pre = (8 * w)%N →
  scan_bitset (length ws) (pre ++ table_of 8 ws) w (c, l) =
  Ok (c + N.of_nat (length (bitset_elems w ws)), or_else (last (bitset_elems w ws)) l)%N.
Proof.
  intros Hf. revert w c l. induction Hf as [|v ws Hv Hf IH]; intros w c l pre Hpre; simpl; [by rewrite N.add_0_r|].
  rewrite table_cons. unfold le64. rewrite <-Hpre, (read_le_put Panic 8) by done. cbn [mbind result_bind].
  rewrite app_assoc. rewrite last_app_or, length_app, length_fmap, fmap_last.
  assert (blen (pre ++ put_le 8 v) = 8 * (w + 1))%N as Hpre' by (rewrite blen_app, Hpre, blen_put; lia).
  change (v < 2 ^ 64)%N in Hv. destruct (N.eqb_spec v 0) as [->|Hne]; cbn [fst snd].
  - rewrite IH by done. rewrite set_bits_zero. simpl. by destruct (last _).
  - rewrite IH by done. rewrite set_bits_last by done. simpl. unfold OnesCount64. do 2 f_equal; [lia|].
    destruct (last (bitset_elems (w + 1) ws)); [done|]. simpl. f_equal. pose proof (leading_zeros v Hne Hv). 
    assert (LeadingZeros64 v <= 63)%N by (unfold LeadingZeros64; rewrite N.size_log2 by done; lia). lia.
Qed.

(** ** Arrays and runs *)

Lemma lt_chain prev (x : N) l : Sorted N.lt (option_list prev ++ x :: l) ↔ (∀ p, prev = Some p → (p < x)%N) ∧ Sorted N.lt (x :: l).
Proof.
  destruct prev as [p|]; simpl.
  - split; [intros [Hs Hh]%Sorted_inv|intros [H Hs]]; [split; [|done]|constructor; [done|]].
    + intros ? [= <-]. by inversion Hh.
    + constructor. by apply H.
  - split; [|by intros [_ ?]]. intros H. split; [|done]. by intros ? [=].
Qed.
Lemma le16_at b off ws j w o : at_table b off 2 ws → fits 2 ws → ws !! j = Some w → o = (off + 2 * N.of_nat j)%N → le16 b o = Ok w.
Proof. intros Ht Hf Hj ->. by apply (at_table_read Panic b off 2 ws j w). Qed.

Lemma scan_array_spec b at_ i ws fuel j prev p : at_table b at_ 2 ws → fits 2 ws → N.to_nat j + fuel = length ws →
  scan_array fuel b at_ i j prev = Ok p ↔
  Sorted N.lt (option_list (if (0 <? j)%N then Some prev else None) ++ drop (N.to_nat j) ws) ∧ p = default prev (last (drop (N.to_nat j) ws)).
Proof.
  intros Ht Hf. revert j prev. induction fuel as [|fuel IH]; intros j prev Hj; simpl.
  { rewrite drop_ge by lia. simpl. split; [intros [= ->]|by intros [_ ->]]. split; [|done]. destruct (0 <? j)%N; simpl; repeat constructor. }
  destruct (lookup_lt_is_Some_2 ws (N.to_nat j)) as [w Hw]; [lia|]. rewrite (le16_at _ _ _ _ _ _ Ht Hf Hw) by lia. cbn [mbind result_bind].
  rewrite (drop_S _ _ _ Hw), lt_chain. replace (S (N.to_nat j)) with (N.to_nat (j + 1)) by lia. rewrite last_cons.
  destruct ((0 <? j)%N && (w <=? prev)%N) eqn:E; cbn [malformed_if fail_if mbind result_bind].
  - split; [done|]. intros [[H _] _]. apply andb_true_iff in E as [E1 E2]. rewrite E1 in H. specialize (H prev eq_refl). lia.
  - rewrite IH by lia. replace (0 <? j + 1)%N with true by lia. simpl.
    assert (∀ q, (if (0 <? j)%N then Some prev else None) = Some q → (q < w)%N) as Hq.
    { intros q Hq. destruct (0 <? j)%N; [|done]. injection Hq as <-. simpl in E. lia. }
    assert (default w (last (drop (N.to_nat (j + 1)) ws)) = default prev (match last (drop (N.to_nat (j + 1)) ws) with Some y => Some y | None => Some w end)) as ->.
    { by destruct (last _). }
    split; [intros [? ?]|intros [[_ ?] ?]]; by split_and!.
Qed.

Definition run_table (rs : list (N * N)) : list N := rs ≫= λ r, [r.1; r.2].
Lemma run_table_length rs : length (run_table rs) = 2 * length rs.
Proof. induction rs as [|r rs IH]; [done|]. change (run_table (r :: rs)) with (r.1 :: r.2 :: run_table rs). simpl. rewrite IH. lia. Qed.
Lemma run_elems_length r : length (run_elems r) = S (N.to_nat r.2).
Proof. unfold run_elems. by rewrite length_fmap, length_seq. Qed.
Lemma run_elems_last r : last (run_elems r) = Some (r.1 + r.2)%N.
Proof.
  unfold run_elems. rewrite seq_S, fmap_app, last_app. simpl. f_equal. lia.
Qed.
Lemma runs_last rs : rs ≠ [] → ∃ x, last (rs ≫= run_elems) = Some x.
Proof.
  destruct rs as [|r rs]; [done|]. intros _. rewrite bind_cons, last_app_or, run_elems_last. destruct (last _); by eexists.
Qed.
(** Every table of pairs of words is one of runs. *)
Lemma run_table_exists n ws : length ws = 2 * n → ∃ rs, ws = run_table rs ∧ length rs = n.
Proof.
  revert ws. induction n as [|n IH]; intros ws Hl; [exists []; by destruct ws|]. destruct ws as [|a [|c ws]]; [simpl in *; lia..|].
  destruct (IH ws) as (rs & -> & <-); [simpl in Hl; lia|]. by exists ((a, c) :: rs).
Qed.

Lemma scan_runs_spec b at_ i rs : ∀ fuel j all prev card, at_table b at_ 2 (run_table all) → fits 2 (run_table all) →
  rs = drop (N.to_nat j) all → fuel = length rs → (N.to_nat j <= length all)%nat →
  ∀ res, scan_runs fuel b at_ i j prev card = Ok res ↔
  runs_ok prev rs ∧ res = (or_else (last (rs ≫= run_elems)) prev, card + N.of_nat (length (rs ≫= run_elems)))%N.
Proof.
  induction rs as [|[s l] rs IH]; intros fuel j all prev card Ht Hf Hrs -> Hj res; cbn [scan_runs length runs_ok].
  { simpl. rewrite N.add_0_r. split; [by intros [= <-]|by intros [_ ->]]. }
  assert (all !! N.to_nat j = Some (s, l)) as Hl by (rewrite <-(Nat.add_0_r (N.to_nat j)), <-lookup_drop, <-Hrs; done).
  pose proof (list_elem_of_split_length _ _ _ Hl) as (x & y & Hall & Hx).
  assert (∀ d w, [s; l] !! d = Some w → run_table all !! (2 * N.to_nat j + d) = Some w) as Hget.
  { intros d w Hd. rewrite Hall. unfold run_table. rewrite bind_app. fold (run_table x). rewrite lookup_app_r by (rewrite run_table_length; lia).
    rewrite run_table_length. replace (_ - _) with d by lia. simpl. destruct d as [|[|d]]; simpl in *; done. }
  rewrite (le16_at _ _ _ _ s (at_ + 4 * j)%N Ht Hf (Hget 0 s eq_refl)) by lia. cbn [mbind result_bind].
  rewrite (le16_at _ _ _ _ l (at_ + 4 * j + 2)%N Ht Hf (Hget 1 l eq_refl)) by lia. cbn [mbind result_bind].
  destruct (N.ltb_spec 65535 (s + l)) as [Hov|Hov]; cbn [malformed_if fail_if mbind result_bind]; [split; [done|intros [[? _] _]; lia]|].
  destruct (match prev with Some p => (s <=? p)%N | None => false end) eqn:E; cbn [malformed_if fail_if mbind result_bind].
  { split; [done|]. intros [(_ & H & _) _]. destruct prev as [p|]; [|done]. specialize (H p eq_refl). lia. }
  assert (∀ p, prev = Some p → (p < s)%N) as Hp by (intros p ->; lia).
  rewrite (IH (length rs) (j + 1)%N all (Some (s + l)%N) (card + (l + 1))%N Ht Hf); [|..|done|].
  - rewrite bind_cons, last_app_or, length_app, run_elems_length, run_elems_last. cbn [snd fst].
    assert ((card + (l + 1) + N.of_nat (length (rs ≫= run_elems)))%N = (card + N.of_nat (S (N.to_nat l) + length (rs ≫= run_elems)))%N) as -> by lia.
    assert (or_else (or_else (last (rs ≫= run_elems)) (Some (s + l)%N)) prev = or_else (last (rs ≫= run_elems)) (Some (s + l)%N)) as ->.
    { by destruct (last _). }
    split; [intros [? ->]|intros [(_ & _ & ?) ->]]; by split_and!.
  - replace (N.to_nat (j + 1)) with (S (N.to_nat j)) by lia. rewrite (drop_S _ _ _ Hl) in Hrs. by injection Hrs.
  - apply lookup_lt_Some in Hl. lia.
Qed.

(** ** One container *)

Lemma at_table_slice b off k ws hi : at_table b off k ws → hi = (off + N.of_nat k * N.of_nat (length ws))%N → slice b off hi = Ok (table_of k ws).
Proof.
  intros (pre & post & -> & ->) ->. apply slice_ok. rewrite !blen_app, table_blen. split_and!; [lia|lia|]. symmetry. apply seg_mid; [done|]. rewrite table_blen. lia.
Qed.
Definition count_fits (x : container) (c : N) : Prop :=
  match x with Bitset ws => length ws = bitsetWords | Array vs => N.of_nat (length vs) = (c + 1)%N | Runs rs => N.of_nat (length rs) = c end.

Lemma bitset_bytes : (N.of_nat bitsetWords * 8)%N = frozenBitsetBytes.
Proof. done. Qed.
#[local] Opaque bitsetWords.

Lemma scan_words b bAt ws : at_table b bAt 8 ws → length ws = bitsetWords → fits 8 ws →
  ∃ words, slice b bAt (bAt + frozenBitsetBytes) = Ok words ∧
  scan_bitset bitsetWords words 0 (0%N, None) = Ok (N.of_nat (length (bitset_elems 0 ws)), last (bitset_elems 0 ws)).
Proof.
  intros Hb Hx Hf. exists (table_of 8 ws). split.
  - apply (at_table_slice b bAt 8 ws); [done|]. rewrite Hx, <-bitset_bytes. lia.
  - rewrite <-Hx. pose proof (scan_bitset_spec ws 0 0%N None Hf [] eq_refl) as H. cbn [app] in H. rewrite H. rewrite N.add_0_l. by destruct (last _).
Qed.

(** The summary of a container's values. *)
Definition summary (x : container) : N * N := (N.of_nat (length (elems_of x)), default 0%N (last (elems_of x))).
Lemma default_last (l : list N) d : l ≠ [] → default d (last l) = default 0%N (last l).
Proof. intros Hl. destruct (last l) eqn:E; [done|]. by apply last_None in E. Qed.

Lemma check_bitset_ok b at_ i c ws r : at_table b at_ 8 ws → length ws = bitsetWords → fits 8 ws →
  check_bitset b at_ i c = Ok r ↔ container_ok (Bitset ws) ∧ count_code (Bitset ws) = c ∧ r = summary (Bitset ws).
Proof.
  intros Hb Hx Hf. destruct (scan_words b at_ ws Hb Hx Hf) as (words & E1 & E2). unfold check_bitset, summary, count_code, container_ok.
  change (bitset_elems 0 ws) with (elems_of (Bitset ws)) in E2. revert E2. generalize (elems_of (Bitset ws)). intros es E2. split.
  - intros (w & Hw & H)%bind_ok. rewrite E1 in Hw. injection Hw as <-. apply bind_ok in H as ([card la] & Hs & H). rewrite E2 in Hs. injection Hs as <- <-.
    apply bind_ok in H as ([] & Hc%malformed_if_ok & H). apply negb_false_iff, N.eqb_eq in Hc. injection H as <-.
    assert (es ≠ []) as Hne by (intros ->; simpl in Hc; lia). rewrite (default_last es) by done. split_and!; (done || lia).
  - intros ((_ & _ & Hne) & Hc & ->). apply bind_ok. exists words. split; [exact E1|]. apply bind_ok. eexists. split; [exact E2|].
    apply bind_ok. exists (). split; [|by rewrite (default_last es)]. apply malformed_if_ok, negb_false_iff, N.eqb_eq. destruct es; [done|]. simpl in *. lia.
Qed.
Lemma check_array_ok b at_ i c vs r : at_table b at_ 2 vs → N.of_nat (length vs) = (c + 1)%N → fits 2 vs →
  check_array b at_ i c = Ok r ↔ container_ok (Array vs) ∧ count_code (Array vs) = c ∧ r = summary (Array vs).
Proof.
  intros Ha Hx Hf. assert (vs ≠ []) as Hne by (intros ->; simpl in Hx; lia). unfold check_array, summary, count_code, container_ok. cbn [elems_of].
  destruct (N.ltb_spec frozenArrayMaxCard (c + 1)) as [Hov|Hov]; cbn [malformed_if fail_if mbind result_bind]; unfold frozenArrayMaxCard in *.
  { split; [done|]. intros ((_ & H & _) & _). lia. }
  pose proof (λ p, scan_array_spec b at_ i vs (N.to_nat (c + 1)) 0 0 p Ha Hf ltac:(lia)) as Hs. cbn [N.ltb N.compare option_list app N.to_nat] in Hs.
  setoid_rewrite drop_0 in Hs. destruct (scan_array _ _ _ _ _ _) as [p|e]; cbn [mbind result_bind].
  - destruct (proj1 (Hs p) eq_refl) as [Hsorted ->]. rewrite <-Hx.
    split; [intros [= <-]; split_and!; (done || lia)|by intros (_ & _ & ->)].
  - split; [done|]. intros ((_ & _ & _ & H) & _). by discriminate (proj2 (Hs (default 0%N (last vs))) (conj H eq_refl)).
Qed.
Lemma check_runs_ok b at_ i c rs r : at_table b at_ 2 (run_table rs) → N.of_nat (length rs) = c → fits 2 (run_table rs) → (c < 2 ^ 16)%N →
  check_runs b at_ i c = Ok r ↔ container_ok (Runs rs) ∧ count_code (Runs rs) = c ∧ r = summary (Runs rs).
Proof.
  intros Hr Hx Hf Hlt. unfold check_runs, summary, count_code, container_ok. cbn [elems_of].
  destruct (N.ltb_spec c 1) as [Hz|Hz]; cbn [malformed_if fail_if mbind result_bind].
  { split; [done|]. intros ((H & _) & _). destruct rs; simpl in *; [done|lia]. }
  assert (rs ≠ []) as Hne by (intros ->; simpl in *; lia). destruct (runs_last rs Hne) as [z Hz'].
  pose proof (scan_runs_spec b at_ i rs (N.to_nat c) 0 rs None 0 Hr Hf eq_refl ltac:(lia) ltac:(simpl; lia)) as Hs.
  destruct (scan_runs _ _ _ _ _ _ _) as [[pl card]|e]; cbn [mbind result_bind].
  - destruct (proj1 (Hs (pl, card)) eq_refl) as [Hok [= -> ->]]. rewrite Hz', N.add_0_l. simpl.
    split; [intros [= <-]; split_and!; (done || lia)|by intros (_ & _ & ->)].
  - split; [done|]. intros ((_ & _ & H) & _). by discriminate (proj2 (Hs _) (conj H eq_refl)).
Qed.

Section container.
Context (b : bytes) (l : frozenLayout).

Definition after (s : cursor) (k : N) (x : container) : cursor :=
  advance s k (summary x).1 (summary x).2 (8 * N.of_nat (length (bit_words x))) (2 * N.of_nat (length (run_words x)))
    (2 * N.of_nat (length (array_words x))).

Lemma check_container_ok i s s' k c x :
  le16 b (keysAt l + 2 * i) = Ok k → le16 b (countsAt l + 2 * i) = Ok c → count_fits x c →
  at_table b (bitsetAt s) 8 (bit_words x) → at_table b (runAt s) 2 (run_words x) → at_table b (arrayAt s) 2 (array_words x) →
  fits 8 (bit_words x) → fits 2 (run_words x) → fits 2 (array_words x) → (c < 2 ^ 16)%N →
  check_container b l (type_code x) i s = Ok s' ↔
  ((0 < i)%N → (prevKey s < k)%N) ∧ container_ok x ∧ count_code x = c ∧ s' = after s k x.
Proof.
  intros Hk Hc Hx Hb Hr Ha Hfb Hfr Hfa Hlt. unfold check_container. rewrite Hk. cbn [mbind result_bind].
  destruct ((0 <? i)%N && (k <=? prevKey s)%N) eqn:E; cbn [malformed_if fail_if mbind result_bind].
  { split; [done|]. intros [H _]. apply andb_true_iff in E as [E1 E2]. lia. }
  assert ((0 < i)%N → (prevKey s < k)%N) as Hkey by (intros Hi; apply andb_false_iff in E; lia).
  rewrite Hc. cbn [mbind result_bind]. unfold after.
  destruct x as [ws|vs|rs]; cbn [type_code bit_words run_words array_words count_fits] in *; rewrite bind_ok.
  - setoid_rewrite (check_bitset_ok b _ i c ws _ Hb Hx Hfb). cbn [length]. rewrite Hx, <-bitset_bytes, N.mul_0_r, (N.mul_comm 8). naive_solver.
  - setoid_rewrite (check_array_ok b _ i c vs _ Ha Hx Hfa). cbn [length]. rewrite Hx, N.mul_0_r. naive_solver.
  - setoid_rewrite (check_runs_ok b _ i c rs _ Hr Hx Hfr Hlt). cbn [length]. fold (run_table rs). rewrite run_table_length, N.mul_0_r.
    replace (2 * N.of_nat (2 * length rs))%N with (4 * c)%N by lia. naive_solver.
Qed.

Definition after_all (s : cursor) (cs : list (N * container)) : cursor := foldl (λ s kc, after s kc.1 kc.2) s cs.

Lemma check_containers_ok xs KS CS i s s' :
  length KS = length xs → Forall2 count_fits xs CS → fits 2 KS → fits 2 CS →
  at_table b (keysAt l + 2 * i) 2 KS → at_table b (countsAt l + 2 * i) 2 CS →
  at_table b (bitsetAt s) 8 (xs ≫= bit_words) → at_table b (runAt s) 2 (xs ≫= run_words) → at_table b (arrayAt s) 2 (xs ≫= array_words) →
  fits 8 (xs ≫= bit_words) → fits 2 (xs ≫= run_words) → fits 2 (xs ≫= array_words) →
  check_containers b l (type_code <$> xs) i s = Ok s' ↔
  Sorted N.lt (option_list (if (0 <? i)%N then Some (prevKey s) else None) ++ KS) ∧ Forall container_ok xs ∧
  count_code <$> xs = CS ∧ s' = after_all s (zip KS xs).
Proof.
  intros HK HC. revert KS HK i s. induction HC as [|x c xs CS Hx HC IH]; intros [|k KS] HK i s HfK HfC Hk Hc Hb Hr Ha Hfb Hfr Hfa; try done.
  { simpl. split; [intros [= <-]|by intros (_ & _ & _ & ->)]. destruct (0 <? i)%N; split_and!; (done || (repeat constructor)). }
  rewrite !bind_cons in *. apply Forall_cons in HfK as [Hfk HfK], HfC as [Hfc HfC].
  apply Forall_app in Hfb as [Hfb1 Hfb], Hfr as [Hfr1 Hfr], Hfa as [Hfa1 Hfa].
  apply at_table_app in Hb as [Hb1 Hb], Hr as [Hr1 Hr], Ha as [Ha1 Ha].
  assert (le16 b (keysAt l + 2 * i) = Ok k) as Ek by by apply (at_table_read0 Panic b _ 2 k KS Hk).
  assert (le16 b (countsAt l + 2 * i) = Ok c) as Ec by by apply (at_table_read0 Panic b _ 2 c CS Hc).
  apply at_table_cons in Hk as [_ Hk], Hc as [_ Hc].
  replace (keysAt l + 2 * i + N.of_nat 2)%N with (keysAt l + 2 * (i + 1))%N in Hk by lia.
  replace (countsAt l + 2 * i + N.of_nat 2)%N with (countsAt l + 2 * (i + 1))%N in Hc by lia.
  pose proof (λ r, check_container_ok i s r k c x Ek Ec Hx Hb1 Hr1 Ha1 Hfb1 Hfr1 Hfa1 Hfc) as Hone. simpl in HK.
  pose proof (IH KS ltac:(lia) (i + 1)%N (after s k x) HfK HfC Hk Hc Hb Hr Ha Hfb Hfr Hfa) as Hrest. replace (0 <? i + 1)%N with true in Hrest by lia.
  cbn [check_containers fmap list_fmap]. rewrite bind_ok, lt_chain. cbn [zip zip_with after_all foldl fst snd]. fold (after_all (after s k x) (zip KS xs)).
  assert ((∀ p, (if (0 <? i)%N then Some (prevKey s) else None) = Some p → (p < k)%N) ↔ ((0 < i)%N → (prevKey s < k)%N)) as Hprev.
  { destruct (N.ltb_spec 0 i); split; try (intros; (done || lia)); [intros Hp _; by apply Hp|intros Hp p [= <-]; by apply Hp]. }
  rewrite Hprev, Forall_cons. split.
  - intros (s1 & (Hkey & Hok & Hcc & ->)%Hone & (Hs & Hoks & Hccs & ->)%Hrest). simpl in Hs. split_and!; try done. by rewrite Hcc, Hccs.
  - intros ([Hkey Hs] & [Hok Hoks] & [= Hcc Hccs] & ->). exists (after s k x). split; [by apply Hone|by apply Hrest].
Qed.

(** The summary of a run of containers. *)
Lemma after_all_info s cs : Forall (λ kc, elems_of kc.2 ≠ []) cs →
  Frozen.containers (c_info (after_all s cs)) = Frozen.containers (c_info s) ∧
  cardinality (c_info (after_all s cs)) = (cardinality (c_info s) + N.of_nat (length (frozen_elems cs)))%N ∧
  fi_max (c_info (after_all s cs)) = default (fi_max (c_info s)) (last (frozen_elems cs)).
Proof.
  intros Hne. revert s. induction Hne as [|[k x] cs Hx _ IH]; intros s; [split_and!; simpl; (done || lia)|].
  change (after_all s ((k, x) :: cs)) with (after_all (after s k x) cs). destruct (IH (after s k x)) as (-> & -> & ->). unfold frozen_elems. rewrite bind_cons.
  fold (frozen_elems cs). rewrite length_app, length_fmap, last_app_or, fmap_last. cbn [fst snd] in *. unfold after, advance, summary. cbn [c_info cardinality fi_max Frozen.containers fst snd].
  split_and!; [done|lia|]. destruct (last (frozen_elems cs)); [done|]. simpl. destruct (last (elems_of x)) eqn:E; [done|]. by apply last_None in E.
Qed.
End container.

(** ** The regions of a bitmap *)

(** What the typecodes and counts imply. *)
Fixpoint implied (ts CS : list N) : N * N * N :=
  match ts, CS with
  | t :: ts, c :: CS =>
      let '(nb, na, nr) := implied ts CS in
      match t with 1%N => (nb + 1, na, nr)%N | 2%N => (nb, na + (c + 1), nr)%N | _ => (nb, na, nr + c)%N end
  | _, _ => (0, 0, 0)%N
  end.
Definition known_type (t : N) : Prop := t = 1%N ∨ t = 2%N ∨ t = 3%N.

#[local] Instance known_type_dec t : Decision (known_type t) := or_dec _ _.
Lemma sum_types_ok b cAt ts CS i nb na nr st : length ts = length CS → at_table b (cAt + 2 * i) 2 CS → fits 2 CS →
  sum_types b cAt i ts (nb, na, nr) = Ok st ↔
  Forall known_type ts ∧ st = (nb + (implied ts CS).1.1, na + (implied ts CS).1.2, nr + (implied ts CS).2)%N.
Proof.
  intros Hl. revert CS Hl i nb na nr. induction ts as [|t ts IH]; intros [|c CS] Hl i nb na nr Ht Hf; try done.
  { simpl. rewrite !N.add_0_r. split; [intros [= <-]; split; [constructor|done]|by intros [_ ->]]. }
  apply Forall_cons in Hf as [Hc Hf]. cbn [sum_types]. unfold le16. rewrite (at_table_read0 Panic b _ 2 c CS Ht Hc : read_le Panic 2 b _ = _). cbn [mbind result_bind].
  apply at_table_cons in Ht as [_ Ht]. replace (cAt + 2 * i + N.of_nat 2)%N with (cAt + 2 * (i + 1))%N in Ht by lia.
  pose proof (λ a x y, IH CS ltac:(simpl in Hl; lia) (i + 1)%N a x y Ht Hf) as IHt.
  assert (implied (t :: ts) (c :: CS) = (let '(x, y, z) := implied ts CS in match t with 1%N => (x + 1, y, z)%N | 2%N => (x, y + (c + 1), z)%N | _ => (x, y, z + c)%N end)) as -> by done.
  destruct (implied ts CS) as [[x y] z]. cbn [fst snd] in *. rewrite Forall_cons.
  destruct (known_type_dec t) as [[->|[->| ->]]|Hno].
  - rewrite IHt. cbn [fst snd]. replace (nb + 1 + x)%N with (nb + (x + 1))%N by lia. unfold known_type. naive_solver.
  - rewrite IHt. cbn [fst snd]. replace (na + (c + 1) + y)%N with (na + (y + (c + 1)))%N by lia. unfold known_type. naive_solver.
  - rewrite IHt. cbn [fst snd]. replace (nr + c + z)%N with (nr + (z + c))%N by lia. unfold known_type. naive_solver.
  - assert (∀ P Q R : result prepared_error (N * N * N), match t with 1%N => P | 2%N => Q | 3%N => R | _ => malformed (FrozenType i) end = malformed (FrozenType i)) as E.
    { intros. unfold known_type in Hno. destruct t as [|[[]|[]|]]; try done; tauto. }
    rewrite E. split; [done|]. by intros [[? _] _].
Qed.

Lemma shapes ts CS BW UW AW : Forall known_type ts → length ts = length CS →
  N.of_nat (length BW) = (N.of_nat bitsetWords * (implied ts CS).1.1)%N → N.of_nat (length UW) = (2 * (implied ts CS).2)%N →
  N.of_nat (length AW) = (implied ts CS).1.2 →
  ∃ xs, type_code <$> xs = ts ∧ Forall2 count_fits xs CS ∧ BW = xs ≫= bit_words ∧ UW = xs ≫= run_words ∧ AW = xs ≫= array_words.
Proof.
  intros Hts. revert CS BW UW AW. induction Hts as [|t ts Ht Hts IH]; intros [|c CS] BW UW AW Hl Hb Hu Ha; try done.
  { simpl in *. exists []. simpl. destruct BW, UW, AW; simpl in *; try lia. by repeat constructor. }
  assert (implied (t :: ts) (c :: CS) = (let '(x, y, z) := implied ts CS in match t with 1%N => (x + 1, y, z)%N | 2%N => (x, y + (c + 1), z)%N | _ => (x, y, z + c)%N end)) as E by done.
  rewrite E in Hb, Hu, Ha. clear E. specialize (IH CS). destruct (implied ts CS) as [[nb na] nr]. injection Hl as Hl.
  destruct Ht as [->|[->| ->]]; cbn [fst snd] in *.
  - destruct (IH (drop bitsetWords BW) UW AW) as (xs & <- & HC & HB & -> & ->); [done|rewrite length_drop; lia|done..|].
    exists (Bitset (take bitsetWords BW) :: xs). rewrite !bind_cons, <-HB. cbn [type_code bit_words run_words array_words app fmap list_fmap].
    rewrite take_drop. split_and!; try done. constructor; [|done]. unfold count_fits. rewrite length_take. lia.
  - destruct (IH BW UW (drop (N.to_nat (c + 1)) AW)) as (xs & <- & HC & -> & -> & HA); [done|done|done|rewrite length_drop; lia|].
    exists (Array (take (N.to_nat (c + 1)) AW) :: xs). rewrite !bind_cons, <-HA. cbn [type_code bit_words run_words array_words app fmap list_fmap].
    rewrite take_drop. split_and!; try done. constructor; [|done]. unfold count_fits. rewrite length_take. lia.
  - destruct (IH BW (drop (N.to_nat (2 * c)) UW) AW) as (xs & <- & HC & -> & HU & ->); [done|done|rewrite length_drop; lia|done|].
    destruct (run_table_exists (N.to_nat c) (take (N.to_nat (2 * c)) UW)) as (rs & Hrs & Hrl); [rewrite length_take; lia|].
    exists (Runs rs :: xs). rewrite !bind_cons, <-HU. cbn [type_code bit_words run_words array_words app fmap list_fmap]. fold (run_table rs).
    rewrite <-Hrs, take_drop. split_and!; try done. constructor; [|done]. unfold count_fits. lia.
Qed.

Lemma implied_shapes xs CS : Forall2 count_fits xs CS →
  N.of_nat (length (xs ≫= bit_words)) = (N.of_nat bitsetWords * (implied (type_code <$> xs) CS).1.1)%N ∧
  N.of_nat (length (xs ≫= run_words)) = (2 * (implied (type_code <$> xs) CS).2)%N ∧
  N.of_nat (length (xs ≫= array_words)) = (implied (type_code <$> xs) CS).1.2.
Proof.
  induction 1 as [|x c xs CS Hx _ IH]; [simpl; lia|]. rewrite !bind_cons, !length_app. cbn [fmap list_fmap implied].
  destruct (implied (type_code <$> xs) CS) as [[nb na] nr]. cbn [fst snd] in *.
  destruct x as [ws|vs|rs]; cbn [type_code bit_words run_words array_words count_fits fst snd length] in *; [|lia|].
  - rewrite Hx. lia.
  - fold (run_table rs). rewrite run_table_length. lia.
Qed.

Definition header_of (n : N) : N := (frozenCookie + n * 2 ^ 15)%N.
Definition raw (D : bytes) (KS CS ts : list N) : bytes :=
  D ++ table_of 2 KS ++ table_of 2 CS ++ ts ++ put32 (header_of (N.of_nat (length ts))).
Definition raw_layout (D : bytes) (ts CS : list N) : frozenLayout :=
  let n := N.of_nat (length ts) in let d := blen D in
  mkFrozenLayout n d (d + 2 * n) (d + 4 * n) (implied ts CS).1.1 (implied ts CS).2 (implied ts CS).1.2.
Definition raw_ok (D : bytes) (KS CS ts : list N) : Prop :=
  length KS = length ts ∧ length CS = length ts ∧ (1 <= N.of_nat (length ts) <= frozenMaxConts)%N ∧ Forall known_type ts ∧ fits 2 KS ∧ fits 2 CS ∧
  blen D = ((implied ts CS).1.1 * frozenBitsetBytes + 4 * (implied ts CS).2 + 2 * (implied ts CS).1.2)%N.

Lemma header_parts h : N.land h 32767 = frozenCookie → h = header_of (N.shiftr h 15).
Proof.
  intros H. unfold header_of. rewrite <-H. change 32767%N with (N.ones 15). rewrite N.land_ones, N.shiftr_div_pow2. pose proof (N.div_mod h (2 ^ 15)). lia.
Qed.
Lemma header_back n : N.land (header_of n) 32767 = frozenCookie ∧ N.shiftr (header_of n) 15 = n.
Proof.
  unfold header_of. change 32767%N with (N.ones 15). rewrite N.land_ones, N.shiftr_div_pow2. split.
  - by rewrite N.Div0.mod_add.
  - by rewrite N.div_add.
Qed.
(** A little-endian header is not taken for a big-endian one. *)
Lemma header_not_big n : (n <= frozenMaxConts)%N → (N.land (get_le (rev (put32 (header_of n)))) 32767 =? frozenCookie)%N = false.
Proof.
  intros Hn. apply N.eqb_neq. intros E. unfold frozenMaxConts in Hn. change 32767%N with (N.ones 15) in E. rewrite N.land_ones in E.
  assert (∀ v, (get_le (rev (put32 v)) mod 256 = v / 256 / 256 / 256 mod 256)%N) as Hlow.
  { intros v. Transparent put_le get_le. unfold put32, put_le. cbn [rev app get_le foldr]. Opaque put_le get_le.
    rewrite (N.mul_comm 256), N.Div0.mod_add, N.Div0.mod_mod. done. }
  assert (get_le (rev (put32 (header_of n))) mod 256 = 198)%N as H1.
  { rewrite <-(N.Div0.mod_mod _ 256). pose proof (N.div_mod (get_le (rev (put32 (header_of n)))) (2 ^ 15) ltac:(done)) as Hd. rewrite E in Hd. rewrite Hd.
    unfold frozenCookie. zlia. }
  rewrite Hlow in H1. unfold header_of, frozenCookie in H1. zlia.
Qed.

Lemma blen_raw D KS CS ts : length KS = length ts → length CS = length ts → blen (raw D KS CS ts) = (blen D + 5 * N.of_nat (length ts) + 4)%N.
Proof.
  intros HK HC. unfold raw, put32. rewrite !blen_app, !table_blen, blen_put. unfold blen at 2. lia.
Qed.
Lemma table_one v : table_of 4 [v] = put32 v.
Proof. unfold table_of. cbn [mbind list_bind]. by rewrite app_nil_r. Qed.
Lemma raw_tables D KS CS ts : length KS = length ts → length CS = length ts →
  let b := raw D KS CS ts in let n := N.of_nat (length ts) in
  at_table b (blen D) 2 KS ∧ at_table b (blen D + 2 * n) 2 CS ∧
  slice b (blen D + 4 * n) (blen D + 5 * n) = Ok ts ∧ at_table b (blen D + 5 * n) 4 [header_of n].
Proof.
  intros HK HC b n. unfold b, raw. fold n. split_and!.
  - exists D. eexists. split; [done|done].
  - exists (D ++ table_of 2 KS). eexists. split; [by rewrite <-app_assoc|]. rewrite blen_app, table_blen. lia.
  - apply slice_ok. rewrite !blen_app, !table_blen. unfold put32. rewrite blen_put. assert (blen ts = n) by done. split_and!; [lia|lia|].
    symmetry. rewrite (app_assoc D), (app_assoc (D ++ table_of 2 KS)). apply seg_mid; rewrite !blen_app, !table_blen; lia.
  - exists (D ++ table_of 2 KS ++ table_of 2 CS ++ ts), []. rewrite table_one, app_nil_r. split; [by rewrite <-!app_assoc|].
    rewrite !blen_app, !table_blen. assert (blen ts = n) by done. lia.
Qed.

Lemma trailer_complete D KS CS ts : raw_ok D KS CS ts → checkFrozenTrailer (raw D KS CS ts) = Ok (raw_layout D ts CS).
Proof.
  intros (HK & HC & Hn & Ht & HfK & HfC & HD). pose proof (blen_raw D KS CS ts HK HC) as Hlen. destruct (raw_tables D KS CS ts HK HC) as (T1 & T2 & T3 & T4).
  set (n := N.of_nat (length ts)) in *. set (b := raw D KS CS ts) in *. unfold checkFrozenTrailer. unfold frozenMaxConts in Hn.
  rewrite (proj2 (N.ltb_ge _ _)) by lia. replace (blen b - 4)%N with (blen D + 5 * n)%N by lia.
  assert (be32 b (blen D + 5 * n) = Ok (get_le (rev (put32 (header_of n))))) as ->.
  { unfold be32. rewrite (at_table_slice b _ 4 [header_of n]) by (done || (simpl; lia)). cbn [mbind result_bind]. by rewrite table_one. }
  cbn [mbind result_bind]. rewrite header_not_big by (unfold frozenMaxConts; lia). cbn [malformed_if fail_if mbind result_bind].
  assert (le32 b (blen D + 5 * n) = Ok (header_of n)) as ->.
  { apply (at_table_read0 Panic b _ 4 _ []); [done|]. unfold header_of, frozenCookie. change (256 ^ N.of_nat 4)%N with (2 ^ 32)%N. lia. }
  destruct (header_back n) as [H1 H2]. cbn [mbind result_bind]. rewrite H1, N.eqb_refl. cbn [negb malformed_if fail_if mbind result_bind]. rewrite H2.
  unfold frozenMaxConts. replace ((n <? 1)%N || (65536 <? n)%N) with false by lia. cbn [malformed_if fail_if mbind result_bind].
  rewrite (proj2 (N.ltb_ge _ _)) by lia. cbn [malformed_if fail_if mbind result_bind].
  replace (blen D + 5 * n - n)%N with (blen D + 4 * n)%N by lia. replace (blen D + 4 * n - 2 * n)%N with (blen D + 2 * n)%N by lia.
  replace (blen D + 2 * n - 2 * n)%N with (blen D) by lia. rewrite T3. cbn [mbind result_bind].
  assert (sum_types b (blen D + 2 * n) 0 ts (0, 0, 0)%N = Ok (implied ts CS)) as ->.
  { apply (sum_types_ok b _ ts CS); [done|by rewrite N.mul_0_r, N.add_0_r|done|]. split; [done|]. rewrite !N.add_0_l. by destruct (implied ts CS) as [[? ?] ?]. }
  unfold raw_layout. fold n. destruct (implied ts CS) as [[nb na] nr]. cbn [fst snd mbind result_bind] in *.
  rewrite (proj2 (N.eqb_eq _ _)) by lia. done.
Qed.

Lemma seg_table b k lo n : is_bytes b → (lo + N.of_nat k * n <= blen b)%N →
  ∃ ws, seg b lo (lo + N.of_nat k * n) = table_of k ws ∧ N.of_nat (length ws) = n ∧ fits k ws.
Proof.
  intros Hb Hl. destruct (table_exists k (N.to_nat n) (seg b lo (lo + N.of_nat k * n))) as (ws & Hws & Hn & Hf).
  - by apply is_bytes_seg.
  - pose proof (blen_seg b lo (lo + N.of_nat k * n)) as H. unfold blen in *. lia.
  - exists ws. split_and!; [done|lia|done].
Qed.
Lemma trailer_sound b l : is_bytes b → checkFrozenTrailer b = Ok l → ∃ D KS CS ts, raw_ok D KS CS ts ∧ b = raw D KS CS ts ∧ l = raw_layout D ts CS.
Proof.
  intros Hb H. unfold checkFrozenTrailer in H. destruct (N.ltb_spec (blen b) 4) as [|H4]; [done|].
  apply bind_ok in H as (be & _ & H). apply bind_ok in H as (? & _ & H). apply bind_ok in H as (h & Hh & H).
  unfold le32 in Hh. rewrite read_le_ok in Hh by lia. injection Hh as Hh. replace (blen b - 4 + 4)%N with (blen b) in Hh by lia.
  apply bind_ok in H as (? & Hc%malformed_if_ok & H). apply negb_false_iff, N.eqb_eq, header_parts in Hc. set (n := N.shiftr h 15) in *.
  apply bind_ok in H as (? & Hn%malformed_if_ok & H). apply orb_false_iff in Hn as [Hn1%N.ltb_ge Hn2%N.ltb_ge].
  apply bind_ok in H as (? & H5%malformed_if_ok & H). apply N.ltb_ge in H5.
  apply bind_ok in H as (ts & Hts & H). apply slice_ok in Hts as (_ & _ & Hts). apply bind_ok in H as ([[nb na] nr] & Hsum & H).
  apply bind_ok in H as (? & Hd%malformed_if_ok & H). apply negb_false_iff, N.eqb_eq in Hd. injection H as <-.
  set (d := (blen b - 4 - n - 2 * n - 2 * n)%N) in *. assert (blen b = d + 5 * n + 4)%N as Hbl by (unfold d; lia). clearbody d.
  replace (blen b - 4 - n - 2 * n)%N with (d + 2 * n)%N in * by lia. replace (blen b - 4 - n)%N with (d + 4 * n)%N in * by lia.
  replace (blen b - 4)%N with (d + 5 * n)%N in * by lia.
  destruct (seg_table b 2 d n Hb) as (KS & HKS & HKl & HKf); [lia|]. destruct (seg_table b 2 (d + 2 * n) n Hb) as (CS & HCS & HCl & HCf); [lia|].
  assert (blen ts = n) as Htl by (rewrite Hts, blen_seg by lia; lia).
  assert (b = raw (seg b 0 d) KS CS ts) as Eb.
  { unfold raw. rewrite <-HKS, <-HCS, Hts. replace (N.of_nat (length (seg b (d + 4 * n) (d + 5 * n)))) with n by (rewrite <-Hts; done). rewrite <-Hc.
    replace (d + 2 * n + N.of_nat 2 * n)%N with (d + 4 * n)%N by lia. change (N.of_nat 2) with 2%N.
    assert (put32 h = seg b (d + 5 * n) (blen b)) as ->.
    { unfold put32. rewrite <-Hh. pose proof (put_get_le (seg b (d + 5 * n) (blen b)) ltac:(by apply is_bytes_seg)) as E. 
      pose proof (blen_seg b (d + 5 * n) (blen b)) as Hs. unfold blen in Hs. replace (length (seg b (d + 5 * n) (blen b))) with 4 in E; [done|]. unfold blen in *. lia. }
    rewrite <-!seg_split by lia. by rewrite seg_all. }
  assert (blen (seg b 0 d) = d) as HD by (rewrite blen_seg by lia; lia). set (D := seg b 0 d) in *.
  destruct (raw_tables D KS CS ts) as (_ & T2 & _ & _); [unfold blen in Htl; lia..|]. rewrite <-Eb, HD in T2. assert (N.of_nat (length ts) = n) as Htl' by done. rewrite Htl' in T2.
  apply (sum_types_ok b _ ts CS) in Hsum as [Hk E]; [|lia|by rewrite N.mul_0_r, N.add_0_r|done]. rewrite !N.add_0_l in E. injection E as -> -> ->.
  exists D, KS, CS, ts. unfold raw_ok, raw_layout. rewrite HD, Htl'. split_and!; try done; lia.
Qed.

(** ** The check *)

Lemma frozen_bytes_raw cs : frozen_bytes cs =
  raw (table_of 8 (cs.*2 ≫= bit_words) ++ table_of 2 (cs.*2 ≫= run_words) ++ table_of 2 (cs.*2 ≫= array_words)) cs.*1 (count_code <$> cs.*2) (type_code <$> cs.*2).
Proof. unfold frozen_bytes, raw, header_of. rewrite !length_fmap, <-!app_assoc. done. Qed.

Lemma container_nonempty x : container_ok x → elems_of x ≠ [].
Proof.
  destruct x as [ws|vs|rs]; simpl; [by intros (_ & _ & ?)|by intros (? & _)|]. intros (H & _) E. destruct (runs_last rs H) as [z Hz]. by rewrite E in Hz.
Qed.
(** The checks of all the containers of a layout. *)
Lemma containers_of_raw xs KS CS BW UW AW s' :
  BW = xs ≫= bit_words → UW = xs ≫= run_words → AW = xs ≫= array_words → fits 8 BW → fits 2 UW → fits 2 AW → fits 2 KS → fits 2 CS →
  length KS = length xs → Forall2 count_fits xs CS →
  let D := table_of 8 BW ++ table_of 2 UW ++ table_of 2 AW in let ts := type_code <$> xs in
  let run0 := (nBitset (raw_layout D ts CS) * frozenBitsetBytes)%N in
  check_containers (raw D KS CS ts) (raw_layout D ts CS) ts 0
    (mkCursor 0 run0 (run0 + 4 * nRunEl (raw_layout D ts CS)) 0 (mkFrozenInfo 0 0 0)) = Ok s' ↔
  Sorted N.lt KS ∧ Forall container_ok xs ∧ count_code <$> xs = CS ∧
  s' = after_all (mkCursor 0 run0 (run0 + 4 * nRunEl (raw_layout D ts CS)) 0 (mkFrozenInfo 0 0 0)) (zip KS xs).
Proof.
  intros HB HU HA Hfb Hfu Hfa HfK HfC HK HC D ts run0. destruct (implied_shapes xs CS HC) as (Hn1 & Hn2 & Hn3). fold ts in Hn1, Hn2, Hn3.
  assert (length CS = length ts) as HCl by (unfold ts; rewrite length_fmap; symmetry; by eapply Forall2_length).
  assert (length KS = length ts) as HKl by (unfold ts; by rewrite length_fmap).
  destruct (raw_tables D KS CS ts HKl HCl) as (T1 & T2 & _ & _). rewrite <-HB, <-HU, <-HA in *. unfold ts. rewrite check_containers_ok.
  - cbn [prevKey]. rewrite (proj2 (N.ltb_ge 0 0)) by done. simpl option_list. done.
  - done.
  - done.
  - done.
  - done.
  - rewrite N.mul_0_r, N.add_0_r. exact T1.
  - rewrite N.mul_0_r, N.add_0_r. exact T2.
  - rewrite <-HB. exists []. eexists. split; [unfold raw, D; by rewrite <-!app_assoc|done].
  - rewrite <-HU. exists (table_of 8 BW). eexists. split; [unfold raw, D; by rewrite <-!app_assoc|]. cbn [runAt]. unfold run0, raw_layout. cbn [nBitset].
    rewrite table_blen, Hn1, <-bitset_bytes. lia.
  - rewrite <-HA. exists (table_of 8 BW ++ table_of 2 UW). eexists. split; [unfold raw, D; by rewrite <-!app_assoc|]. cbn [arrayAt]. unfold run0, raw_layout. cbn [nBitset nRunEl].
    fold ts. rewrite blen_app, !table_blen, Hn1, Hn2, <-bitset_bytes. lia.
  - by rewrite <-HB.
  - by rewrite <-HU.
  - by rewrite <-HA.
Qed.
Lemma info_of_raw s0 n xs KS : length KS = length xs → N.of_nat (length xs) = n → Forall container_ok xs → c_info s0 = mkFrozenInfo 0 0 0 →
  mkFrozenInfo n (cardinality (c_info (after_all s0 (zip KS xs)))) (fi_max (c_info (after_all s0 (zip KS xs)))) = frozen_info (zip KS xs).
Proof.
  intros HK Hn Hok E. destruct (after_all_info s0 (zip KS xs)) as (_ & -> & ->).
  - apply Forall_forall. intros [k x] Hin. apply container_nonempty. rewrite Forall_forall in Hok. apply Hok. by eapply elem_of_zip_r.
  - rewrite E. unfold frozen_info. rewrite length_zip_with, HK, Nat.min_id, Hn. done.
Qed.

Lemma checkFrozen_sound b fi : is_bytes b → checkFrozen b = Ok fi → ∃ cs, frozen_ok cs ∧ b = frozen_bytes cs ∧ fi = frozen_info cs.
Proof.
  intros Hb H. unfold checkFrozen in H. apply bind_ok in H as (l & Hl & H).
  apply trailer_sound in Hl as (D & KS & CS & ts & (HK & HC & Hn & Ht & HfK & HfC & HD) & -> & ->); [|done].
  destruct (raw_tables D KS CS ts HK HC) as (_ & _ & T3 & _). apply bind_ok in H as (ts' & Hts & H).
  unfold raw_layout in Hts. cbn [typesAt fl_n] in Hts. replace (blen D + 4 * N.of_nat (length ts) + N.of_nat (length ts))%N with (blen D + 5 * N.of_nat (length ts))%N in Hts by lia.
  rewrite T3 in Hts. injection Hts as <-. apply bind_ok in H as (s & Hs & H). injection H as <-.
  assert (is_bytes D) as HbD by (unfold raw in Hb; by apply is_bytes_app in Hb as [? _]).
  destruct (implied ts CS) as [[nb na] nr] eqn:Eimp. cbn [fst snd] in *. rewrite <-bitset_bytes in HD.
  assert (frozenBitsetBytes = 8 * 1024)%N as Hbytes by done. assert (N.of_nat bitsetWords * 8 = 8 * 1024)%N as Hw by by rewrite bitset_bytes.
  destruct (seg_table D 8 0 (N.of_nat bitsetWords * nb) HbD) as (BW & HB1 & HB2 & HBf); [lia|].
  destruct (seg_table D 2 (8 * (N.of_nat bitsetWords * nb)) (2 * nr) HbD) as (UW & HU1 & HU2 & HUf); [lia|].
  destruct (seg_table D 2 (8 * (N.of_nat bitsetWords * nb) + 4 * nr) na HbD) as (AW & HA1 & HA2 & HAf); [lia|].
  assert (D = table_of 8 BW ++ table_of 2 UW ++ table_of 2 AW) as ED.
  { rewrite <-HB1, <-HU1, <-HA1. change (N.of_nat 8) with 8%N. change (N.of_nat 2) with 2%N. rewrite N.add_0_l.
    replace (8 * (N.of_nat bitsetWords * nb) + 2 * (2 * nr))%N with (8 * (N.of_nat bitsetWords * nb) + 4 * nr)%N by lia.
    rewrite <-!seg_split by lia. symmetry. apply seg_whole. lia. }
  destruct (shapes ts CS BW UW AW) as (xs & <- & HCx & HBx & HUx & HAx); try (rewrite ?Eimp; done).
  rewrite length_fmap in *. rewrite ED in Hs. apply (containers_of_raw xs KS CS BW UW AW) in Hs as (Hsort & Hok & <- & ->); try done.
  rewrite info_of_raw; [|done|done|done|done]. assert ((zip KS xs).*1 = KS ∧ (zip KS xs).*2 = xs) as [Z1 Z2] by (split; [apply fst_zip|apply snd_zip]; lia).
  exists (zip KS xs). split_and!; [|rewrite frozen_bytes_raw, Z1, Z2, <-HBx, <-HUx, <-HAx, <-ED; done|done].
  unfold frozen_ok. rewrite Z1, length_zip_with, HK, Nat.min_id. unfold frozenMaxConts in Hn. split_and!; try done.
  - intros E. assert (length (zip KS xs) = 0) as E' by by rewrite E. rewrite length_zip_with in E'. lia.
  - lia.
  - apply Forall_forall. intros [k x] Hin. rewrite Forall_forall in Hok. apply Hok. by eapply elem_of_zip_r.
Qed.

Lemma set_bits_length v : length (set_bits v) ≤ 64.
Proof. unfold set_bits. etrans; [apply length_filter|]. by rewrite length_fmap, length_seq. Qed.
Lemma bitset_elems_length w ws : length (bitset_elems w ws) ≤ 64 * length ws.
Proof.
  revert w. induction ws as [|v ws IH]; intros w; cbn [bitset_elems length]; [lia|]. rewrite length_app, length_fmap.
  pose proof (set_bits_length v). specialize (IH (w + 1)%N). lia.
Qed.
Lemma runs_ok_fits prev rs : runs_ok prev rs → fits 2 (run_table rs).
Proof.
  revert prev. induction rs as [|[s l] rs IH]; intros prev H; [constructor|]. destruct H as (H1 & _ & H). 
  change (run_table ((s, l) :: rs)) with (s :: l :: run_table rs). change (256 ^ N.of_nat 2)%N with (2 ^ 16)%N.
  repeat constructor; [lia|lia|]. by eapply IH.
Qed.
Lemma count_code_fits x : container_ok x →
  count_fits x (count_code x) ∧ (count_code x < 2 ^ 16)%N ∧ fits 8 (bit_words x) ∧ fits 2 (run_words x) ∧ fits 2 (array_words x).
Proof.
  intros Hok. pose proof (container_nonempty x Hok) as Hne. destruct x as [ws|vs|rs]; unfold container_ok, count_fits, count_code in *; cbn [elems_of bit_words run_words array_words] in *.
  - destruct Hok as (Hl & Hf & _). pose proof (bitset_elems_length 0 ws) as Hb. assert (N.of_nat bitsetWords = 1024)%N as Hw.
    { pose proof bitset_bytes. unfold frozenBitsetBytes in *. lia. }
    split_and!; try done; try constructor. destruct (bitset_elems 0 ws); [done|]. simpl in *. lia.
  - destruct Hok as (Hn & Hl & Hf & _). split_and!; try done; try constructor; destruct vs; simpl in *; (done || lia).
  - destruct Hok as (_ & Hl & Hr). split_and!; try done; try constructor. by eapply runs_ok_fits.
Qed.
Lemma fits_bind {A} k (f : A → list N) (l : list A) : Forall (λ x, fits k (f x)) l → fits k (l ≫= f).
Proof. induction 1 as [|x l Hx _ IH]; [constructor|]. rewrite bind_cons. by apply Forall_app. Qed.

Lemma checkFrozen_complete cs : frozen_ok cs → checkFrozen (frozen_bytes cs) = Ok (frozen_info cs).
Proof.
  intros (Hne & Hl & Hok & HfK & Hs). set (xs := cs.*2). set (KS := cs.*1) in *. set (CS := count_code <$> xs).
  assert (Forall container_ok xs) as Hxs by (by apply Forall_fmap). assert (length KS = length xs) as HK by (unfold KS, xs; by rewrite !length_fmap).
  assert (Forall (λ x, count_fits x (count_code x) ∧ (count_code x < 2 ^ 16)%N ∧ fits 8 (bit_words x) ∧ fits 2 (run_words x) ∧ fits 2 (array_words x)) xs) as Hfit.
  { eapply Forall_impl; [exact Hxs|]. apply count_code_fits. }
  rewrite !Forall_and in Hfit. destruct Hfit as (HC & HfC & Hfb & Hfu & Hfa). apply fits_bind in Hfb, Hfu, Hfa.
  assert (Forall2 count_fits xs CS) as HCx by (unfold CS; by apply Forall2_fmap_r, Forall_Forall2_diag).
  assert (fits 2 CS) as HfCS by (by apply Forall_fmap).
  rewrite frozen_bytes_raw. fold xs KS. fold CS. set (D := table_of 8 (xs ≫= bit_words) ++ table_of 2 (xs ≫= run_words) ++ table_of 2 (xs ≫= array_words)).
  destruct (implied_shapes xs CS HCx) as (Hn1 & Hn2 & Hn3). set (ts := type_code <$> xs) in *.
  assert (length xs = length cs) as Hxl by (unfold xs; by rewrite length_fmap). assert (length ts = length cs) as Htl by (unfold ts; by rewrite length_fmap).
  assert (raw_ok D KS CS ts) as Hraw.
  { unfold raw_ok. rewrite Htl. unfold frozenMaxConts. split_and!; try done; try lia.
    - unfold CS. by rewrite length_fmap.
    - destruct cs; [done|simpl; lia].
    - unfold ts. rewrite Forall_fmap. apply Forall_true. intros x. unfold known_type. destruct x; simpl; auto.
    - unfold D. rewrite !blen_app, !table_blen, Hn1, Hn2, Hn3, <-bitset_bytes. lia. }
  unfold checkFrozen. rewrite trailer_complete by done. cbn [mbind result_bind]. destruct (raw_tables D KS CS ts) as (_ & _ & T3 & _); [by destruct Hraw as (? & ? & _)..|].
  assert (slice (raw D KS CS ts) (typesAt (raw_layout D ts CS)) (typesAt (raw_layout D ts CS) + fl_n (raw_layout D ts CS)) = Ok ts) as ->.
  { rewrite <-T3. f_equal. unfold raw_layout. cbn [typesAt fl_n]. lia. }
  cbn [mbind result_bind].
  pose proof (λ s', proj2 (containers_of_raw xs KS CS _ _ _ s' eq_refl eq_refl eq_refl Hfb Hfu Hfa HfK HfCS HK HCx)) as Hcc. cbv zeta in Hcc.
  fold ts D in Hcc. erewrite Hcc; [|split_and!; done].
  cbn [mbind result_bind]. rewrite info_of_raw; [|done|unfold raw_layout; cbn [fl_n]; lia|done|done].
  unfold KS, xs. by rewrite zip_fst_snd.
Qed.
