(* ===== verification/FrozenSet.v ===== *)
(** The set a frozen bitmap holds: its ordinals ascend and fit 32 bits. *)

From S2P Require Import Prelude.
From S2P Require Import Wire.
From S2P Require Import Frozen.
From S2P Require Import FrozenSpec.

#[local] Opaque bitsetWords.

Lemma lor_high k x : (x < 65536)%N → N.lor (N.shiftl k 16) x = (65536 * k + x)%N.
Proof.
  intros Hx. rewrite N.shiftl_mul_pow2. assert (N.land (k * 2 ^ 16) x = 0%N) as Hd.
  { apply N.bits_inj. intros m. rewrite N.land_spec, N.bits_0. destruct (N.ltb_spec m 16) as [Hm|Hm].
    - by rewrite N.mul_pow2_bits_low.
    - rewrite <-(N.mod_small x (2 ^ 16)) by done. rewrite N.mod_pow2_bits_high by done. apply andb_false_r. }
  rewrite <-N.lxor_lor, <-N.add_nocarry_lxor by done. lia.
Qed.

Definition below (hi : N) (l : list N) : Prop := StronglySorted N.lt l ∧ ∀ x, x ∈ l → (x < hi)%N.

Lemma sorted_map_add c l : StronglySorted N.lt l → StronglySorted N.lt ((λ x, c + x)%N <$> l).
Proof. induction 1 as [|x l Hl IH Hx]; [constructor|]. constructor; [done|]. apply Forall_fmap. eapply Forall_impl; [exact Hx|]. simpl. lia. Qed.

Lemma bitset_elems_sorted w ws : StronglySorted N.lt (bitset_elems w ws) ∧
  ∀ x, x ∈ bitset_elems w ws → (64 * w <= x < 64 * (w + N.of_nat (length ws)))%N.
Proof.
  revert w. induction ws as [|v ws IH]; intros w; [split; [constructor|]; intros x Hx; by apply elem_of_nil in Hx|].
  cbn [bitset_elems length]. destruct (IH (w + 1)%N) as [H1 H2].
  assert (∀ x, x ∈ ((λ i, 64 * w + i)%N <$> set_bits v) → (64 * w <= x < 64 * (w + 1))%N) as H3.
  { intros x (i & -> & [Hi _]%set_bits_spec)%list_elem_of_fmap. lia. }
  split.
  - apply StronglySorted_app_2; [|apply (sorted_map_add (64 * w)), set_bits_sorted|done]. intros x y Hx%H3 Hy%H2. lia.
  - intros x [Hx%H3|Hx%H2]%elem_of_app; lia.
Qed.
Lemma run_elems_sorted r : StronglySorted N.lt (run_elems r) ∧ ∀ x, x ∈ run_elems r → (r.1 <= x <= r.1 + r.2)%N.
Proof.
  unfold run_elems. split.
  - pose proof (sorted_map_add r.1 _ (seq_sorted 0 (S (N.to_nat r.2)))) as H. by rewrite <-list_fmap_compose in H.
  - intros x (k & -> & Hk%elem_of_seq)%list_elem_of_fmap. lia.
Qed.
Lemma runs_elems_sorted prev rs : runs_ok prev rs → below 65536 (rs ≫= run_elems) ∧ ∀ x p, x ∈ rs ≫= run_elems → prev = Some p → (p < x)%N.
Proof.
  revert prev. induction rs as [|[s l] rs IH]; intros prev H.
  { split; [split; [constructor|]|]; intros x; [intros Hx|intros p Hx]; by apply elem_of_nil in Hx. }
  destruct H as (Hb & Hp & Hr). destruct (IH _ Hr) as [[H1 H2] H3]. destruct (run_elems_sorted (s, l)) as [H4 H5]. cbn [fst snd] in H5. rewrite bind_cons. split; [split|].
  - apply StronglySorted_app_2; [|done..]. intros x y Hx%H5 Hy. specialize (H3 y _ Hy eq_refl). lia.
  - intros x [Hx%H5|Hx%H2]%elem_of_app; lia.
  - intros x p Hx E. specialize (Hp p E). apply elem_of_app in Hx as [Hx%H5|Hx]; [lia|]. specialize (H3 x _ Hx eq_refl). lia.
Qed.
Lemma elems_below c : container_ok c → below 65536 (elems_of c).
Proof.
  destruct c as [ws|vs|rs]; cbn [container_ok elems_of].
  - intros (Hl & _ & _). destruct (bitset_elems_sorted 0 ws) as [H1 H2]. split; [done|]. intros x Hx%H2. rewrite Hl in Hx. pose proof bitset_bytes as Hb. change frozenBitsetBytes with 8192%N in Hb. lia.
  - intros (_ & _ & Hf & Hs). split; [apply Sorted_StronglySorted; [exact N.lt_trans|done]|]. intros x Hx. unfold fits in Hf. rewrite Forall_forall in Hf. exact (Hf x Hx).
  - intros (_ & _ & Hr). by destruct (runs_elems_sorted None rs Hr).
Qed.

Definition lift (kc : N * container) : list N := (λ x, N.lor (N.shiftl kc.1 16) x) <$> elems_of kc.2.
Lemma lift_spec kc : container_ok kc.2 → lift kc = (λ x, 65536 * kc.1 + x)%N <$> elems_of kc.2.
Proof.
  intros [_ Hb]%elems_below. unfold lift. apply Forall_fmap_ext_1, Forall_forall. intros x Hx. by apply lor_high, Hb.
Qed.

Lemma frozen_elems_sorted cs : Forall (λ kc, container_ok kc.2) cs → fits 2 cs.*1 → Sorted N.lt cs.*1 → below (2 ^ 32) (frozen_elems cs).
Proof.
  intros Hok Hf Hs%Sorted_StronglySorted; [|exact N.lt_trans]. unfold frozen_elems. fold lift.
  induction cs as [|[k c] cs IH]; [split; [constructor|]; intros x Hx; by apply elem_of_nil in Hx|].
  apply Forall_cons in Hok as [Hc Hok]. rewrite fmap_cons in Hf, Hs. apply Forall_cons in Hf as [Hk Hf]. apply StronglySorted_inv in Hs as [Hs Hlt]. cbn [fst snd] in *.
  destruct (IH Hok Hf Hs) as [H1 H2]. rewrite bind_cons, lift_spec by done. cbn [fst snd]. destruct (elems_below c Hc) as [H3 H4]. change (256 ^ N.of_nat 2)%N with 65536%N in Hk.
  split.
  - apply StronglySorted_app_2; [|by apply sorted_map_add|done]. intros x y (x' & -> & Hx')%list_elem_of_fmap (kc & Hy & Hkc)%list_elem_of_bind.
    rewrite Forall_forall in Hok. rewrite lift_spec in Hy by by apply Hok. apply list_elem_of_fmap in Hy as (y' & -> & Hy'). specialize (H4 _ Hx').
    rewrite Forall_forall in Hlt. specialize (Hlt kc.1 ltac:(apply list_elem_of_fmap; by exists kc)). lia.
  - intros x [(x' & -> & Hx'%H4)%list_elem_of_fmap|Hx%H2]%elem_of_app; [lia|done].
Qed.
Lemma frozen_ok_sorted cs : frozen_ok cs → below (2 ^ 32) (frozen_elems cs).
Proof. intros (_ & _ & H1 & H2 & H3). by apply frozen_elems_sorted. Qed.

(** What [checkFrozen] returns as the maximum is one. *)
Lemma sorted_last_max l x y : StronglySorted N.lt l → last l = Some y → x ∈ l → (x <= y)%N.
Proof.
  intros Hs [l' ->]%last_Some Hx. apply elem_of_app in Hx as [Hx| ->%list_elem_of_singleton]; [|done].
  pose proof (StronglySorted_app_1_elem_of _ _ _ x y Hs Hx ltac:(set_solver)). lia.
Qed.
Lemma fi_max_spec cs x : frozen_ok cs → x ∈ frozen_elems cs → (x <= fi_max (frozen_info cs))%N ∧ fi_max (frozen_info cs) ∈ frozen_elems cs.
Proof.
  intros [Hs _]%frozen_ok_sorted Hx. unfold frozen_info. cbn [fi_max]. destruct (last (frozen_elems cs)) as [y|] eqn:E; [|by apply last_None in E; rewrite E in Hx; apply elem_of_nil in Hx].
  cbn [default]. split; [by eapply sorted_last_max|]. apply last_Some in E as [l' ->]. apply elem_of_app. right. by apply list_elem_of_singleton.
Qed.
Lemma elems_nonempty c : container_ok c → elems_of c ≠ [].
Proof.
  destruct c as [ws|vs|rs]; cbn [container_ok elems_of]; [by intros (_ & _ & ?)|by intros (? & _)|].
  intros (Hne & _). destruct rs as [|r rs]; [done|]. rewrite bind_cons. unfold run_elems at 1. simpl. done.
Qed.
Lemma frozen_nonempty cs : frozen_ok cs → frozen_elems cs ≠ [].
Proof.
  intros (Hne & _ & Hok & _). destruct cs as [|kc cs]; [done|]. apply Forall_cons in Hok as [Hc _]. unfold frozen_elems. rewrite bind_cons.
  pose proof (elems_nonempty _ Hc) as H. by destruct (elems_of kc.2).
Qed.
