(* ===== verification/PreparedIndex.v ===== *)
(** [engine/prepared]: the index sections - [encodeExact], [parseExactSection],
    [encodeNgram], [parseNgram] - and the indexes a [View] rebuilds over them. *)

From S2P Require Import Prelude.
From S2P Require Import Runtime.
From S2P Require Import Score.
From S2P Require Import Bitmap.
From S2P Require Import Wire.
From S2P Require Import PreparedFormat.
From S2P Require Import PreparedRecords.
From S2P Require Import Frozen.
From S2P Require Ngram.
From S2P Require Exact.

(** ** The exact section *)

Definition exactMaxRun : N := (2 ^ 20 - 1)%N.

Section encode.
Context {RT : GoRuntime}.

(** The run of a key that the index holds. *)
Definition run_of (i : Exact.Index) (k : bytes) : list N := default [] (Exact.Lookup i k).
Definition exact_entries (i : Exact.Index) : list (bytes * list N) := (λ k, (k, run_of i k)) <$> Exact.SortedKeys i.
Definition exact_section (es : list (bytes * list N)) : bytes :=
  let arena := concat es.*1 in let ps := concat es.*2 in
  put64 (N.of_nat (length es)) ++ put64 (N.of_nat (length ps)) ++ put64 (blen arena) ++
  table_of 4 (blen <$> es.*1) ++ table_of 4 ((λ r, N.of_nat (length r)) <$> es.*2) ++ table_of 4 ps ++ arena.
Definition encodeExact (i : Exact.Index) (entries : N) : result prepared_error bytes :=
  let es := exact_entries i in
  _ ← fail_if (existsb (λ k, (max_u32 <? blen k)%N) es.*1) (Refused KeyTooLong);
  _ ← fail_if (entries <? Exact.NumOrds i)%N (Refused OrdinalsExceedRecords);
  _ ← fail_if (max_int <? blen (exact_section es))%N (Refused TooLarge);
  Ok (exact_section es).
End encode.

Record exactView := mkExactView { ev_k : N; ev_p : N; ev_keyLens : bytes; ev_runLens : bytes; ev_postings : bytes; ev_arena : bytes }.

(** The run of key [i] at position [pOff]; [n] is the number of records. *)
Fixpoint check_run (fuel : nat) (ps : bytes) (n pOff i j last : N) : result prepared_error () :=
  match fuel with
  | O => Ok ()
  | S fuel =>
      o ← le32 ps (4 * (pOff + j));
      _ ← malformed_if (n <=? o)%N (ExactOrdinal i);
      _ ← malformed_if ((0 <? j)%N && (o <=? last)%N) (ExactRun i);
      check_run fuel ps n pOff i (j + 1)%N o
  end.
Fixpoint check_exact_keys (fuel : nat) (ev : exactView) (n i aOff pOff : N) (prev : bytes) : result prepared_error (N * N) :=
  match fuel with
  | O => Ok (aOff, pOff)
  | S fuel =>
      kl ← le32 (ev_keyLens ev) (4 * i); rl ← le32 (ev_runLens ev) (4 * i);
      _ ← malformed_if ((kl =? 0)%N || (sub64 (blen (ev_arena ev)) aOff <? kl)%N) (ExactKeyLength i);
      _ ← malformed_if ((rl =? 0)%N || (exactMaxRun <? rl)%N || (sub64 (ev_p ev) pOff <? rl)%N) (ExactRunLength i);
      key ← slice (ev_arena ev) aOff (aOff + kl);
      _ ← malformed_if ((0 <? i)%N && bool_decide (bytes_le key prev)) (ExactUnsorted i);
      _ ← check_run (N.to_nat rl) (ev_postings ev) n pOff i 0 0;
      check_exact_keys fuel ev n (i + 1)%N (add64 aOff kl) (add64 pOff rl) key
  end.
Definition parseExactSection (n : N) (b : bytes) : result prepared_error exactView :=
  if (blen b <? 24)%N then malformed ExactHeader else
  k ← le64 b 0; p ← le64 b 8; arenaLen ← le64 b 16;
  let room := (blen b - 24)%N in
  _ ← malformed_if (room / 8 <? k)%N ExactKeyCount;
  let room := sub64 room (8 * k) in
  _ ← malformed_if (room / 4 <? p)%N ExactPostingsCount;
  let room := sub64 room (4 * p) in
  _ ← malformed_if (negb (arenaLen =? room)%N) ExactArena;
  _ ← malformed_if (max_u32 <? p)%N ExactPostingsRange;
  keyLens ← slice b 24 (24 + 4 * k);
  runLens ← slice b (24 + 4 * k) (24 + 4 * k + 4 * k);
  postings ← slice b (24 + 4 * k + 4 * k) (24 + 4 * k + 4 * k + 4 * p);
  arena ← slice b (24 + 4 * k + 4 * k + 4 * p) (blen b);
  let ev := mkExactView k p keyLens runLens postings arena in
  '(aOff, pOff) ← check_exact_keys (N.to_nat k) ev n 0 0 0 [];
  _ ← malformed_if (negb (aOff =? arenaLen)%N || negb (pOff =? p)%N) ExactUnused;
  Ok ev.

(** The words of a table read by a loop. *)
Fixpoint read_words (fuel : nat) (b : bytes) (i : N) : result prepared_error (list N) :=
  match fuel with O => Ok [] | S fuel => w ← le32 b (4 * i); ws ← read_words fuel b (i + 1)%N; Ok (w :: ws) end.
Definition exactParts (ev : exactView) : result prepared_error (bytes * list Z * list Z * list N) :=
  kls ← read_words (N.to_nat (ev_k ev)) (ev_keyLens ev) 0; rls ← read_words (N.to_nat (ev_k ev)) (ev_runLens ev) 0;
  ps ← read_words (N.to_nat (ev_p ev)) (ev_postings ev) 0;
  Ok (ev_arena ev, Z.of_N <$> (kls : list N), Z.of_N <$> (rls : list N), ps).
Definition restore_exact (parts : bytes * list Z * list Z * list N) : result prepared_error Exact.Index :=
  let '(arena, kls, rls, ps) := parts in
  match Exact.Restore arena kls rls ps with Ok i => Ok i | Err _ => Err (Refused RestoreFailed) end.

(** ** The n-gram section *)

(** [FreezeTo], [GetFrozenSizeInBytes] and [FrozenView] of roaring, whose format is
    that of [Frozen]. *)
Class FrozenLib {BL : BitmapLib} := {
  frozenSize : Bitmap → N;
  freezeTo : Bitmap → option bytes;
  frozenView : bytes → option Bitmap;
}.

Record ngramView := mkNgramView { nv_numOrds : N; nv_g : N; nv_rows : bytes; nv_gramBlob : bytes; nv_bmBlob : bytes }.

(** Zeros up to the next multiple of 32. *)
Definition aligned (n : N) : N := default 0%N (align32 n).
Definition padding (n : N) : bytes := replicate (N.to_nat (aligned n - n)) 0%N.

(** The rows and the two blobs of grams with their frozen bitmaps, from the cursors. *)
Fixpoint gram_rows (gcur bcur : N) (gs : list (bytes * bytes)) : list N :=
  match gs with
  | [] => []
  | (g, f) :: gs => [gcur; blen g; aligned bcur; blen f] ++ gram_rows (gcur + blen g) (aligned bcur + blen f) gs
  end.
Fixpoint bitmap_blob (bcur : N) (gs : list (bytes * bytes)) : bytes :=
  match gs with [] => [] | (g, f) :: gs => padding bcur ++ f ++ bitmap_blob (aligned bcur + blen f) gs end.
Definition ngram_section (numOrds : N) (gs : list (bytes * bytes)) : bytes :=
  let head := (8 + 32 * N.of_nat (length gs) + 16)%N in let blob := concat gs.*1 in
  put64 (N.of_nat (length gs)) ++ table_of 8 (gram_rows 0 0 gs) ++ put64 numOrds ++ put64 (blen blob) ++
  blob ++ padding (head + blen blob) ++ bitmap_blob 0 gs.

Section ngram.
Context {RT : GoRuntime} {BL : BitmapLib} {FO : FloatOps} {FL : FrozenLib}.

Fixpoint check_postings (ps : list (bytes * Bitmap)) : result prepared_error () :=
  match ps with
  | [] => Ok ()
  | (g, bm) :: ps =>
      _ ← fail_if (bool_decide (g = [])) (Refused EmptyGram);
      _ ← fail_if (bm_card bm =? 0)%N (Refused EmptyBitmap);
      check_postings ps
  end.
(** [freezeTo] into the region [frozenSize] reserved. *)
Fixpoint freeze_all (ps : gmap bytes Bitmap) (gs : list bytes) : result prepared_error (list (bytes * bytes)) :=
  match gs with
  | [] => Ok []
  | g :: gs =>
      let bm := default bm_new (ps !! g) in
      match freezeTo bm with
      | Some f =>
          _ ← fail_if (negb (blen f =? frozenSize bm)%N) (Refused FreezeFailed);
          fs ← freeze_all ps gs; Ok ((g, f) :: fs)
      | None => Err (Refused FreezeFailed)
      end
  end.
Definition encodeNgram (idx : Ngram.Index) (entries : N) : result prepared_error bytes :=
  let post := range_map 0 (Ngram.postings idx) in
  _ ← check_postings post;
  let grams := sort_slice (less_by id) post.*1 in
  _ ← fail_if (entries <? Ngram.numOrds idx)%N (Refused OrdinalsExceedRecords);
  gs ← freeze_all (Ngram.postings idx) grams;
  let sec := ngram_section (Ngram.numOrds idx) gs in
  _ ← fail_if (max_int <? blen sec)%N (Refused TooLarge);
  Ok sec.

(** Every byte between [lo] and [hi] is zero. *)
Definition zeros (b : bytes) (lo hi : N) (m : malformation) : result prepared_error () :=
  s ← slice b lo hi; malformed_if (negb (forallb (λ c, c =? 0)%N s)) m.

Fixpoint check_grams (fuel : nat) (nv : ngramView) (i gcur bcur : N) (prev : bytes) (maxOrd : N) : result prepared_error (N * N * N) :=
  match fuel with
  | O => Ok (gcur, bcur, maxOrd)
  | S fuel =>
      goff ← le64 (nv_rows nv) (32 * i); glen ← le64 (nv_rows nv) (32 * i + 8);
      boff ← le64 (nv_rows nv) (32 * i + 16); blen_ ← le64 (nv_rows nv) (32 * i + 24);
      _ ← malformed_if (negb (goff =? gcur)%N || (glen =? 0)%N || (sub64 (blen (nv_gramBlob nv)) gcur <? glen)%N) (GramPacking i);
      let gcur := add64 gcur glen in
      gram ← slice (nv_gramBlob nv) goff (goff + glen);
      _ ← malformed_if ((0 <? i)%N && bool_decide (bytes_le gram prev)) (GramsUnsorted i);
      let bmLen := blen (nv_bmBlob nv) in
      let want := aligned bcur in
      _ ← malformed_if (negb (boff mod Align =? 0)%N) (BitmapAlign i);
      _ ← malformed_if (negb (boff =? want)%N || (bmLen <? want)%N || (sub64 bmLen want <? blen_)%N) (BitmapPacking i);
      _ ← zeros (nv_bmBlob nv) bcur boff (BitmapGap i);
      f ← slice (nv_bmBlob nv) boff (boff + blen_);
      fi ← checkFrozen f;
      _ ← malformed_if (nv_numOrds nv <=? fi_max fi)%N (BitmapOrdinal i);
      check_grams fuel nv (i + 1)%N gcur (add64 boff blen_) gram (N.max maxOrd (fi_max fi))
  end.
(** [n]: the records. *)
Definition parseNgram (n : N) (b : bytes) : result prepared_error ngramView :=
  g ← count b 0 32 16;
  let head := (8 + 32 * g)%N in
  numOrds ← le64 b head; gramBlobLen ← le64 b (head + 8);
  let gramAt := (head + 16)%N in
  _ ← malformed_if (sub64 (blen b) gramAt <? gramBlobLen)%N GramBlobLength;
  let bmStart := aligned (gramAt + gramBlobLen) in
  _ ← malformed_if (blen b <? bmStart)%N PaddingTruncated;
  _ ← zeros b (gramAt + gramBlobLen) bmStart PaddingNonzero;
  _ ← malformed_if (n <? numOrds)%N NumOrdsRange;
  rows ← slice b 8 head; gramBlob ← slice b gramAt (gramAt + gramBlobLen); bmBlob ← slice b bmStart (blen b);
  let nv := mkNgramView (u32 numOrds) g rows gramBlob bmBlob in
  '(gcur, bcur, maxOrd) ← check_grams (N.to_nat g) nv 0 0 0 [] 0;
  _ ← malformed_if (negb (gcur =? gramBlobLen)%N) GramsUnused;
  _ ← malformed_if (negb (bcur =? blen bmBlob)%N) BitmapsUnused;
  let wantOrds := if (0 <? g)%N then (maxOrd + 1)%N else 0%N in
  _ ← malformed_if (negb (numOrds =? wantOrds)%N) NumOrdsWrong;
  Ok nv.

(** ** The indexes of a view *)

Definition Gram (nv : ngramView) (i : N) : result prepared_error bytes :=
  off ← le64 (nv_rows nv) (32 * i); n ← le64 (nv_rows nv) (32 * i + 8); slice (nv_gramBlob nv) off (off + n).
Definition FrozenBitmap (nv : ngramView) (i : N) : result prepared_error bytes :=
  off ← le64 (nv_rows nv) (32 * i + 16); n ← le64 (nv_rows nv) (32 * i + 24); slice (nv_bmBlob nv) off (off + n).
(** The bitmap blob starts aligned in memory, so the check of [isAligned] is that of
    the offset. *)
Definition Postings (nv : ngramView) (i : N) : result prepared_error Bitmap :=
  b ← FrozenBitmap nv i;
  _ ← checkFrozenTrailer b;
  off ← le64 (nv_rows nv) (32 * i + 16);
  _ ← fail_if (negb (off mod Align =? 0)%N) Unaligned;
  match frozenView b with Some bm => Ok bm | None => malformed FrozenView end.
Fixpoint all_postings (fuel : nat) (nv : ngramView) (i : N) (post : gmap bytes Bitmap) : result prepared_error (gmap bytes Bitmap) :=
  match fuel with
  | O => Ok post
  | S fuel => bm ← Postings nv i; g ← Gram nv i; all_postings fuel nv (i + 1)%N (<[g := bm]> post)
  end.
Definition NgramIndex (nv : ngramView) (cfg : Ngram.Config) : result prepared_error Ngram.Index :=
  post ← all_postings (N.to_nat (nv_g nv)) nv 0 ∅;
  match Ngram.Restore cfg post (nv_numOrds nv) with Ok i => Ok i | Err _ => Err (Refused RestoreFailed) end.
End ngram.
