(* ===== verification/PreparedIndexSpec.v ===== *)
(** The index sections.  [parseExactSection] accepts exactly the layouts of sorted
    entries, [parseNgram] those of sorted grams with valid frozen bitmaps; the index
    rebuilt over one holds exactly what the layout does. *)

From S2P Require Import Prelude.
From S2P Require Import Runtime.
From S2P Require Import Score.
From S2P Require Import Bitmap.
From S2P Require Import Wire.
From S2P Require Import PreparedFormat.
From S2P Require Import PreparedRecords.
From S2P Require Import PreparedRecordsSpec.
From S2P Require Import PreparedIDs.
From S2P Require Import Frozen.
From S2P Require Import FrozenSpec.
From S2P Require Import FrozenSet.
From S2P Require Import PreparedIndex.
From S2P Require Ngram.
From S2P Require Exact.

#[local] Opaque put_le get_le.

(** ** Entries *)

Definition entry_ok (n : N) (e : bytes * list N) : Prop :=
  e.1 ≠ [] ∧ (blen e.1 <= max_u32)%N ∧ e.2 ≠ [] ∧ (N.of_nat (length e.2) <= exactMaxRun)%N ∧ Forall (λ o, (o < n)%N) e.2 ∧ Sorted N.lt e.2.
Definition exact_ok (n : N) (es : list (bytes * list N)) : Prop :=
  Forall (entry_ok n) es ∧ Sorted bytes_lt es.*1 ∧ (N.of_nat (length (concat es.*2)) <= max_u32)%N.
Definition exactView_of (es : list (bytes * list N)) : exactView :=
  mkExactView (N.of_nat (length es)) (N.of_nat (length (concat es.*2))) (table_of 4 (blen <$> es.*1))
    (table_of 4 ((λ r, N.of_nat (length r)) <$> es.*2)) (table_of 4 (concat es.*2)) (concat es.*1).

Lemma le32_table ws off i w : fits 4 ws → off = (4 * i)%N → le32 (table_of 4 ws) off = Ok w ↔ ws !! N.to_nat i = Some w.
Proof. intros Hf ->. by apply (read_table_iff Panic 4 ws _ i w); [lia|..]. Qed.

Section parse.
Context (n : N) (Hn : (n < 2 ^ 32)%N) (arena : bytes) (Harena : (blen arena <= max_int)%N).
Context (PS : list N) (HPS : fits 4 PS) (KL RL : list N) (HKL : fits 4 KL) (HRL : fits 4 RL).
Context (HP : (N.of_nat (length PS) <= max_u32)%N).

Lemma check_run_ok fuel pOff i j last : (N.to_nat pOff + N.to_nat j + fuel <= length PS)%nat →
  check_run fuel (table_of 4 PS) n pOff i j last = Ok () ↔
  Forall (λ o, (o < n)%N) (take fuel (drop (N.to_nat (pOff + j)) PS)) ∧
  Sorted N.lt (option_list (if (0 <? j)%N then Some last else None) ++ take fuel (drop (N.to_nat (pOff + j)) PS)).
Proof using All.
  revert j last. induction fuel as [|fuel IH]; intros j last Hl; cbn [check_run].
  { cbn [take]. split; [|done]. intros _. split; [constructor|]. destruct (0 <? j)%N; simpl; repeat constructor. }
  destruct (lookup_lt_is_Some_2 PS (N.to_nat (pOff + j))) as [o Ho]; [lia|].
  rewrite (proj2 (le32_table PS (4 * (pOff + j)) (pOff + j) o HPS eq_refl) Ho). cbn [mbind result_bind].
  rewrite (drop_S _ _ _ Ho). cbn [take]. rewrite Forall_cons, lt_chain. replace (S (N.to_nat (pOff + j))) with (N.to_nat (pOff + (j + 1))) by lia.
  destruct (N.leb_spec n o); cbn [malformed_if fail_if mbind result_bind]; [split; [done|intros [[? _] _]; lia]|].
  destruct ((0 <? j)%N && (o <=? last)%N) eqn:E; cbn [malformed_if fail_if mbind result_bind].
  - split; [done|]. intros (_ & H' & _). apply andb_true_iff in E as [E1 E2]. rewrite E1 in H'. specialize (H' last eq_refl). lia.
  - rewrite IH by lia. replace (0 <? j + 1)%N with true by lia. cbn [option_list app].
    assert (∀ p, (if (0 <? j)%N then Some last else None) = Some p → (p < o)%N) as Hp.
    { intros p Hp. destruct (0 <? j)%N; [|done]. injection Hp as <-. simpl in E. lia. }
    split; [intros [? ?]|intros [[? ?] [? ?]]]; by split_and!.
Qed.

Definition exact_at (fuel : nat) (i aOff pOff aOff' pOff' : N) (prev : bytes) (es : list (bytes * list N)) : Prop :=
  length es = fuel ∧ Forall (entry_ok n) es ∧ Sorted bytes_lt (option_list (if (0 <? i)%N then Some prev else None) ++ es.*1) ∧
  take fuel (drop (N.to_nat i) KL) = blen <$> es.*1 ∧ take fuel (drop (N.to_nat i) RL) = (λ r, N.of_nat (length r)) <$> es.*2 ∧
  seg arena aOff aOff' = concat es.*1 ∧ aOff' = (aOff + blen (concat es.*1))%N ∧ (aOff' <= blen arena)%N ∧
  take (length (concat es.*2)) (drop (N.to_nat pOff) PS) = concat es.*2 ∧ pOff' = (pOff + N.of_nat (length (concat es.*2)))%N ∧
  (pOff' <= N.of_nat (length PS))%N.

Lemma check_exact_keys_ok fuel k i aOff pOff prev aOff' pOff' : (aOff <= blen arena)%N → (pOff <= N.of_nat (length PS))%N →
  N.to_nat i + fuel = length KL → length RL = length KL →
  check_exact_keys fuel (mkExactView k (N.of_nat (length PS)) (table_of 4 KL) (table_of 4 RL) (table_of 4 PS) arena) n i aOff pOff prev = Ok (aOff', pOff') ↔
  ∃ es, exact_at fuel i aOff pOff aOff' pOff' prev es.
Proof using All.
  revert i aOff pOff prev. induction fuel as [|fuel IH]; intros i aOff pOff prev Ha Hp Hi Hrl; cbn [check_exact_keys].
  { split.
    - intros [= <- <-]. exists []. unfold exact_at, blen. simpl. rewrite !N.add_0_r. split_and!; try (done || constructor).
      + destruct (0 <? i)%N; simpl; repeat constructor.
      + unfold seg. by rewrite N.sub_diag.
    - intros (es & Hl & _ & _ & _ & _ & _ & -> & _ & _ & -> & _). destruct es; [|done]. unfold blen. simpl. by rewrite !N.add_0_r. }
  destruct (lookup_lt_is_Some_2 KL (N.to_nat i)) as [kl Hkl]; [lia|]. destruct (lookup_lt_is_Some_2 RL (N.to_nat i)) as [rl Hrl']; [lia|].
  cbn [ev_keyLens ev_runLens ev_arena ev_p ev_postings]. unfold max_int, max_u32 in *.
  rewrite (proj2 (le32_table KL (4 * i) i kl HKL eq_refl) Hkl). cbn [mbind result_bind].
  rewrite (proj2 (le32_table RL (4 * i) i rl HRL eq_refl) Hrl'). cbn [mbind result_bind].
  rewrite !sub64_small by lia.
  assert (∀ es, exact_at (S fuel) i aOff pOff aOff' pOff' prev es ↔ ∃ key run es', es = (key, run) :: es' ∧ entry_ok n (key, run) ∧ kl = blen key ∧ rl = N.of_nat (length run) ∧
    (∀ p, (if (0 <? i)%N then Some prev else None) = Some p → bytes_lt p key) ∧
    (aOff + kl <= blen arena)%N ∧ seg arena aOff (aOff + kl) = key ∧ (pOff + rl <= N.of_nat (length PS))%N ∧
    take (length run) (drop (N.to_nat pOff) PS) = run ∧
    exact_at fuel (i + 1) (aOff + kl) (pOff + rl) aOff' pOff' key es') as Hcons.
  { intros es. split.
    - intros (Hl & Hok & Hs & HK & HR & Hseg & -> & Hab & Hrun & -> & Hpb). destruct es as [|[key run] es]; [done|].
      rewrite !fmap_cons in *. cbn [fst snd concat] in *. apply Forall_cons in Hok as [Hok1 Hok].
      rewrite sorted_option in Hs. destruct Hs as [Hs1 Hs]. apply take_drop_cons in HK as [HK1 HK], HR as [HR1 HR].
      rewrite Hkl in HK1. rewrite Hrl' in HR1. injection HK1 as ->. injection HR1 as ->.
      apply seg_app_iff in Hseg as [Hs2 Hs3]; [|rewrite blen_app; lia|done]. rewrite blen_app in *. rewrite length_app in *.
      apply take_drop_app in Hrun as [Hr1 Hr2]; [|done].
      exists key, run, es. unfold exact_at. replace (0 <? i + 1)%N with true by lia. cbn [option_list app].
      replace (N.to_nat (i + 1)) with (S (N.to_nat i)) by lia. replace (N.to_nat (pOff + N.of_nat (length run))) with (N.to_nat pOff + length run) by lia.
      split_and!; try done; try lia. injection Hl as Hl. done.
    - intros (key & run & es' & -> & Hok & -> & -> & Hs1 & Hb1 & Hk & Hb2 & Hr & (Hl & Hoks & Hs & HK & HR & Hseg & -> & Hab & Hrun & -> & Hpb)).
      unfold exact_at. rewrite !fmap_cons. cbn [fst snd concat]. rewrite blen_app, length_app.
      replace (0 <? i + 1)%N with true in Hs by lia. cbn [option_list app] in Hs.
      replace (N.to_nat (i + 1)) with (S (N.to_nat i)) in * by lia. replace (N.to_nat (pOff + N.of_nat (length run))) with (N.to_nat pOff + length run) in * by lia.
      split_and!; try lia; simpl; try (f_equal; done).
      + by constructor.
      + by apply sorted_option.
      + by apply take_drop_cons.
      + by apply take_drop_cons.
      + apply seg_app_iff; [rewrite blen_app; lia|lia|done].
      + by apply take_drop_app. }
  setoid_rewrite Hcons. clear Hcons.
  assert (kl < 2 ^ 32)%N as Hkf by (eapply Forall_lookup_1 in HKL; [exact HKL|exact Hkl]).
  assert (blen (seg arena aOff (aOff + kl)) = kl ∨ (blen arena < aOff + kl)%N) as Hbl.
  { destruct (decide (aOff + kl <= blen arena)%N); [left; rewrite blen_seg by lia; lia|right; lia]. }
  destruct ((kl =? 0)%N || (blen arena - aOff <? kl)%N) eqn:E1; cbn [malformed_if fail_if mbind result_bind].
  { split; [done|]. intros (es & key & run & es' & _ & (Hne & _) & -> & _ & _ & Hb & _). exfalso. apply orb_true_iff in E1 as [E1|E1]; [|lia].
    apply N.eqb_eq, blen_nil in E1. done. }
  apply orb_false_iff in E1 as [E1a E1b]. destruct Hbl as [Hbl|]; [|lia].
  destruct ((rl =? 0)%N || (exactMaxRun <? rl)%N || (N.of_nat (length PS) - pOff <? rl)%N) eqn:E2; cbn [malformed_if fail_if mbind result_bind].
  { split; [done|]. intros (es & key & run & es' & _ & (_ & _ & Hne & Hm & _) & _ & -> & _ & _ & _ & Hb & _). exfalso.
    assert (length run ≠ 0) by (destruct run; [done|simpl; lia]). cbn [snd] in Hm. lia. }
  rewrite (proj2 (slice_ok _ _ _ _)) by (split_and!; [| |reflexivity]; lia). cbn [mbind result_bind]. set (key := seg arena aOff (aOff + kl)) in *.
  destruct ((0 <? i)%N && bool_decide (bytes_le key prev)) eqn:E3; cbn [malformed_if fail_if mbind result_bind].
  { split; [done|]. intros (es & key' & run & es' & _ & _ & _ & _ & Hs & _ & Hk & _). apply andb_true_iff in E3 as [E3 E4%bool_decide_eq_true].
    rewrite E3 in Hs. specialize (Hs prev eq_refl). subst key'. by apply bytes_nlt_le in E4. }
  assert (∀ p, (if (0 <? i)%N then Some prev else None) = Some p → bytes_lt p key) as Hkey.
  { intros p Hpp. destruct (0 <? i)%N; [|done]. injection Hpp as <-. cbn [andb] in E3. by apply bool_decide_eq_false, bytes_nle_lt in E3. }
  set (run := take (N.to_nat rl) (drop (N.to_nat pOff) PS)).
  assert (length run = N.to_nat rl) as Hrlen by (unfold run; rewrite length_take, length_drop; lia).
  pose proof (check_run_ok (N.to_nat rl) pOff i 0 0%N ltac:(lia)) as Hrun. rewrite (proj2 (N.ltb_ge 0 0)) in Hrun by done. rewrite N.add_0_r in Hrun. fold run in Hrun. cbn [option_list app] in Hrun.
  rewrite !add64_small by lia. rewrite bind_ok. split.
  - intros ([] & [Hr1 Hr2]%Hrun & H). apply IH in H as (es & Hes); [|lia..]. exists ((key, run) :: es), key, run, es.
    split_and!; try done; try lia.
    + unfold entry_ok. cbn [fst snd]. split_and!; try done; try (unfold max_u32; lia); [intros E; rewrite E in Hbl; unfold blen in Hbl; simpl in Hbl; lia|].
      intros E. rewrite E in Hrlen. simpl in Hrlen. lia.
    + by rewrite Hrlen.
  - intros (es & key' & run' & es' & -> & Hok & Hkl' & Hrl'' & _ & _ & Hk & _ & Hr & Hes). exists ().
    assert (run' = run) as -> by (unfold run; rewrite <-Hr; f_equal; lia). split.
    + apply Hrun. by destruct Hok as (_ & _ & _ & _ & ? & ?).
    + apply IH; [lia..|]. exists es'. rewrite <-Hk in Hes. exact Hes.
Qed.
End parse.

(** ** The section *)

Lemma bind_malformed {B} c m (f : () → result prepared_error B) :
  (x ← malformed_if c m; f x) = if c then malformed m else f ().
Proof. by destruct c. Qed.
Lemma read64_at b off v pre rest : b = pre ++ put64 v ++ rest → off = blen pre → (v < 2 ^ 64)%N → le64 b off = Ok v.
Proof. intros -> -> Hv. exact (read_le_put Panic 8 v pre rest Hv). Qed.
Lemma read32_at b off v pre rest : b = pre ++ put32 v ++ rest → off = blen pre → (v < 2 ^ 32)%N → le32 b off = Ok v.
Proof. intros -> -> Hv. exact (read_le_put Panic 4 v pre rest Hv). Qed.
Lemma read16_at b off v pre rest : b = pre ++ put16 v ++ rest → off = blen pre → (v < 2 ^ 16)%N → le16 b off = Ok v.
Proof. intros -> -> Hv. exact (read_le_put Panic 2 v pre rest Hv). Qed.
Lemma slice_at b lo hi pre s rest : b = pre ++ s ++ rest → lo = blen pre → hi = (lo + blen s)%N → slice b lo hi = Ok s.
Proof. intros -> -> ->. apply slice_ok. rewrite !blen_app. split_and!; [lia|lia|]. symmetry. by apply seg_mid. Qed.
Lemma blen_put64 v : blen (put64 v) = 8%N.
Proof. apply blen_put. Qed.
Lemma blen_put32 v : blen (put32 v) = 4%N.
Proof. apply blen_put. Qed.
Lemma blen_put16 v : blen (put16 v) = 2%N.
Proof. apply blen_put. Qed.

Definition exact_raw (KL RL PS : list N) (arena : bytes) : bytes :=
  put64 (N.of_nat (length KL)) ++ put64 (N.of_nat (length PS)) ++ put64 (blen arena) ++ table_of 4 KL ++ table_of 4 RL ++ table_of 4 PS ++ arena.
Lemma blen_exact_raw KL RL PS arena : length RL = length KL →
  blen (exact_raw KL RL PS arena) = (24 + 8 * N.of_nat (length KL) + 4 * N.of_nat (length PS) + blen arena)%N.
Proof. intros E. unfold exact_raw. rewrite !blen_app, !blen_put64, !table_blen, E. lia. Qed.

Lemma parse_exact_raw n KL RL PS arena : length RL = length KL → (blen (exact_raw KL RL PS arena) <= max_int)%N →
  parseExactSection n (exact_raw KL RL PS arena) =
  _ ← malformed_if (max_u32 <? N.of_nat (length PS))%N ExactPostingsRange;
  let ev := mkExactView (N.of_nat (length KL)) (N.of_nat (length PS)) (table_of 4 KL) (table_of 4 RL) (table_of 4 PS) arena in
  '(aOff, pOff) ← check_exact_keys (length KL) ev n 0 0 0 [];
  _ ← malformed_if (negb (aOff =? blen arena)%N || negb (pOff =? N.of_nat (length PS))%N) ExactUnused;
  Ok ev.
Proof.
  intros E Hl. pose proof (blen_exact_raw KL RL PS arena E) as Hb. unfold max_int in Hl.
  set (k := N.of_nat (length KL)) in *. set (p := N.of_nat (length PS)) in *. set (al := blen arena) in *.
  unfold parseExactSection. destruct (N.ltb_spec (blen (exact_raw KL RL PS arena)) 24); [lia|].
  rewrite (read64_at _ 0 k [] (put64 p ++ put64 al ++ table_of 4 KL ++ table_of 4 RL ++ table_of 4 PS ++ arena)) by (done || lia). cbn [mbind result_bind].
  rewrite (read64_at _ 8 p (put64 k) (put64 al ++ table_of 4 KL ++ table_of 4 RL ++ table_of 4 PS ++ arena)) by (done || lia). cbn [mbind result_bind].
  rewrite (read64_at _ 16 al (put64 k ++ put64 p) (table_of 4 KL ++ table_of 4 RL ++ table_of 4 PS ++ arena)) by (rewrite ?blen_app, ?blen_put64; unfold exact_raw; rewrite <-?app_assoc; (done || lia)). cbn [mbind result_bind].
  rewrite Hb. rewrite (sub64_small (24 + 8 * k + 4 * p + al - 24) (8 * k)) by lia. rewrite (sub64_small (24 + 8 * k + 4 * p + al - 24 - 8 * k) (4 * p)) by lia.
  rewrite !bind_malformed.
  destruct (N.ltb_spec ((24 + 8 * k + 4 * p + al - 24) / 8) k); [zlia|]. destruct (N.ltb_spec ((24 + 8 * k + 4 * p + al - 24 - 8 * k) / 4) p); [zlia|].
  destruct (N.eqb_spec al (24 + 8 * k + 4 * p + al - 24 - 8 * k - 4 * p)); [|lia]. cbn [negb].
  destruct (max_u32 <? p)%N; [done|].
  assert (k = N.of_nat (length KL) ∧ p = N.of_nat (length PS) ∧ al = blen arena) as (? & ? & ?) by done.
  pose proof (table_blen 4 KL). pose proof (table_blen 4 RL) as HR. rewrite E in HR. pose proof (table_blen 4 PS).
  rewrite (slice_at _ 24 _ (put64 k ++ put64 p ++ put64 al) (table_of 4 KL) (table_of 4 RL ++ table_of 4 PS ++ arena)) by (rewrite ?blen_app, ?blen_put64; unfold exact_raw; rewrite <-?app_assoc; (done || lia)). cbn [mbind result_bind].
  rewrite (slice_at _ (24 + 4 * k) _ (put64 k ++ put64 p ++ put64 al ++ table_of 4 KL) (table_of 4 RL) (table_of 4 PS ++ arena)) by (rewrite ?blen_app, ?blen_put64; unfold exact_raw; rewrite <-?app_assoc; (done || lia)). cbn [mbind result_bind].
  rewrite (slice_at _ (24 + 4 * k + 4 * k) _ (put64 k ++ put64 p ++ put64 al ++ table_of 4 KL ++ table_of 4 RL) (table_of 4 PS) arena) by (rewrite ?blen_app, ?blen_put64; unfold exact_raw; rewrite <-?app_assoc; (done || lia)). cbn [mbind result_bind].
  rewrite (slice_at _ (24 + 4 * k + 4 * k + 4 * p) _ (put64 k ++ put64 p ++ put64 al ++ table_of 4 KL ++ table_of 4 RL ++ table_of 4 PS) arena []) by (rewrite ?blen_app, ?blen_put64; unfold exact_raw; rewrite <-?app_assoc, ?app_nil_r; (done || lia)). cbn [mbind result_bind].
  replace (N.to_nat k) with (length KL) by lia. done.
Qed.
Lemma exact_section_raw es :
  exact_section es = exact_raw (blen <$> es.*1) ((λ r, N.of_nat (length r)) <$> es.*2) (concat es.*2) (concat es.*1).
Proof. unfold exact_section, exact_raw. by rewrite !length_fmap. Qed.

(** What the header checks leave is four blocks. *)
Lemma parse_exact_shape n b ev : is_bytes b → (blen b <= max_int)%N → parseExactSection n b = Ok ev →
  ∃ KL RL PS arena, b = exact_raw KL RL PS arena ∧ length RL = length KL ∧ fits 4 KL ∧ fits 4 RL ∧ fits 4 PS.
Proof.
  intros Hb Hl H. unfold max_int in Hl. unfold parseExactSection in H. destruct (N.ltb_spec (blen b) 24) as [|H24]; [done|].
  destruct (word_prefix 8 b Hb) as (k & b1 & -> & Hk & Hb1); [lia|]. rewrite blen_app, blen_put in *.
  destruct (word_prefix 8 b1 Hb1) as (p & b2 & -> & Hp & Hb2); [lia|]. rewrite blen_app, blen_put in *.
  destruct (word_prefix 8 b2 Hb2) as (al & b3 & -> & Hal & Hb3); [lia|]. rewrite blen_app, blen_put in *.
  change (256 ^ N.of_nat 8)%N with (2 ^ 64)%N in *.
  rewrite (read64_at _ 0 k [] (put64 p ++ put64 al ++ b3)) in H by done. cbn [mbind result_bind] in H.
  rewrite (read64_at _ 8 p (put64 k) (put64 al ++ b3)) in H by done. cbn [mbind result_bind] in H.
  rewrite (read64_at _ 16 al (put64 k ++ put64 p) b3) in H by (rewrite ?blen_app, ?blen_put64, <-?app_assoc; done). cbn [mbind result_bind] in H.
  rewrite bind_malformed in H. destruct (N.ltb_spec ((N.of_nat 8 + (N.of_nat 8 + (N.of_nat 8 + blen b3)) - 24) / 8) k) as [|H1]; [done|].
  rewrite (sub64_small _ (8 * k)) in H by zlia.
  rewrite bind_malformed in H. destruct (N.ltb_spec ((N.of_nat 8 + (N.of_nat 8 + (N.of_nat 8 + blen b3)) - 24 - 8 * k) / 4) p) as [|H2]; [done|].
  rewrite sub64_small in H by zlia. rewrite bind_malformed in H.
  destruct (N.eqb_spec al (N.of_nat 8 + (N.of_nat 8 + (N.of_nat 8 + blen b3)) - 24 - 8 * k - 4 * p)) as [Eal|]; [|done]. clear H.
  destruct (table_prefix 4 (N.to_nat k) b3 Hb3) as (KL & b4 & -> & HK & HKf & Hb4); [zlia|]. rewrite blen_app, table_blen in *.
  destruct (table_prefix 4 (N.to_nat k) b4 Hb4) as (RL & b5 & -> & HR & HRf & Hb5); [zlia|]. rewrite blen_app, table_blen in *.
  destruct (table_prefix 4 (N.to_nat p) b5 Hb5) as (PS & arena & -> & HP & HPf & _); [zlia|]. rewrite blen_app, table_blen in *.
  exists KL, RL, PS, arena. split_and!; try done; [|lia]. unfold exact_raw. rewrite HK, HP, !N2Nat.id. replace (blen arena) with al; [done|]. zlia.
Qed.

Lemma parseExactSection_iff n b ev : (n < 2 ^ 32)%N → is_bytes b → (blen b <= max_int)%N →
  parseExactSection n b = Ok ev ↔ ∃ es, exact_ok n es ∧ b = exact_section es ∧ ev = exactView_of es.
Proof.
  intros Hn Hb Hl. split.
  - intros H. destruct (parse_exact_shape n b ev Hb Hl H) as (KL & RL & PS & arena & -> & E & HK & HR & HP).
    rewrite parse_exact_raw in H by done. rewrite bind_malformed in H. destruct (N.ltb_spec max_u32 (N.of_nat (length PS))) as [|Hps]; [done|].
    rewrite blen_exact_raw in Hl by done. cbn zeta in H. apply bind_ok in H as ([aOff pOff] & Hc & H). rewrite bind_malformed in H.
    destruct (negb _ || _) eqn:Eu; [done|]. injection H as <-. apply orb_false_iff in Eu as [Ea%negb_false_iff%N.eqb_eq Ep%negb_false_iff%N.eqb_eq].
    apply check_exact_keys_ok in Hc as (es & Hlen & Hok & Hs & HKt & HRt & Hseg & Ha & _ & Hrun & Hpo & _); [|done|unfold max_int in *; lia|done|done|done|lia|lia|lia|lia|done].
    assert (KL = blen <$> es.*1) as ->. { rewrite <-HKt, drop_0. symmetry. apply take_ge. lia. }
    assert (RL = (λ r, N.of_nat (length r)) <$> es.*2) as ->. { rewrite <-HRt, drop_0. symmetry. apply take_ge. lia. }
    assert (arena = concat es.*1) as ->. { rewrite <-Hseg, Ea. symmetry. apply seg_all. }
    assert (PS = concat es.*2) as ->. { rewrite <-Hrun, drop_0. symmetry. apply take_ge. lia. }
    exists es. rewrite exact_section_raw. unfold exact_ok, exactView_of. rewrite !length_fmap. split_and!; try done.
  - intros (es & (Hok & Hs & Hp) & -> & ->). rewrite exact_section_raw in *. rewrite parse_exact_raw by (rewrite ?length_fmap; done).
    rewrite blen_exact_raw in Hl by by rewrite !length_fmap. rewrite bind_malformed.
    destruct (N.ltb_spec max_u32 (N.of_nat (length (concat es.*2)))) as [|_]; [lia|]. unfold max_int in Hl. rewrite !length_fmap in Hl.
    assert (fits 4 (concat es.*2)) as HPS.
    { apply Forall_concat, Forall_fmap. eapply Forall_impl; [exact Hok|]. intros e (_ & _ & _ & _ & Hr & _). simpl. eapply Forall_impl; [exact Hr|]. simpl. intros o Ho.
      change (256 ^ N.of_nat 4)%N with (2 ^ 32)%N. lia. }
    assert (fits 4 (blen <$> es.*1)) as HKL.
    { apply Forall_fmap, Forall_fmap. eapply Forall_impl; [exact Hok|]. intros e (_ & He & _). simpl. unfold max_u32 in He. change (256 ^ N.of_nat 4)%N with (2 ^ 32)%N. lia. }
    assert (fits 4 ((λ r, N.of_nat (length r)) <$> es.*2)) as HRL.
    { apply Forall_fmap, Forall_fmap. eapply Forall_impl; [exact Hok|]. intros e (_ & _ & _ & He & _). simpl. unfold exactMaxRun in He. change (256 ^ N.of_nat 4)%N with (2 ^ 32)%N. lia. }
    cbn zeta.
    rewrite (proj2 (check_exact_keys_ok n Hn (concat es.*1) ltac:(unfold max_int; lia) (concat es.*2) HPS (blen <$> es.*1) _ HKL HRL Hp (length (blen <$> es.*1))
      _ 0 0 0 [] (blen (concat es.*1)) (N.of_nat (length (concat es.*2))) ltac:(lia) ltac:(lia) ltac:(lia) ltac:(by rewrite !length_fmap))).
    + cbn [mbind result_bind]. rewrite !N.eqb_refl. unfold exactView_of. by rewrite !length_fmap.
    + exists es. unfold exact_at. rewrite !length_fmap. change (0 <? 0)%N with false. cbn [option_list app]. rewrite !drop_0.
      split_and!; try done; try lia.
      * apply take_ge. by rewrite !length_fmap.
      * apply take_ge. by rewrite !length_fmap.
      * apply seg_all.
      * apply take_ge. lia.
Qed.

(** ** The index over a section *)

Lemma read_words_ok ws fuel i : fits 4 ws → N.to_nat i + fuel = length ws → read_words fuel (table_of 4 ws) i = Ok (drop (N.to_nat i) ws).
Proof.
  intros Hf. revert i. induction fuel as [|fuel IH]; intros i Hi; cbn [read_words]; [by rewrite drop_ge by lia|].
  destruct (lookup_lt_is_Some_2 ws (N.to_nat i)) as [w Hw]; [lia|]. rewrite (proj2 (le32_table ws (4 * i) i w Hf eq_refl) Hw). cbn [mbind result_bind].
  rewrite IH by lia. cbn [mbind result_bind]. rewrite (drop_S _ _ _ Hw). by replace (N.to_nat (i + 1)) with (S (N.to_nat i)) by lia.
Qed.

Section index.
Context (n : N) (Hn : (n <= max_u32)%N) (es : list (bytes * list N)) (Hes : exact_ok n es).

Lemma exactParts_of :
  exactParts (exactView_of es) = Ok (concat es.*1, Exact.key_lens es, Exact.run_lens es, concat es.*2).
Proof using All.
  destruct Hes as (Hok & _ & Hp). unfold max_u32 in *.
  assert (fits 4 (blen <$> es.*1)) as HKL.
  { apply Forall_fmap, Forall_fmap. eapply Forall_impl; [exact Hok|]. intros e (_ & He & _). simpl. unfold max_u32 in He. change (256 ^ N.of_nat 4)%N with (2 ^ 32)%N. lia. }
  assert (fits 4 ((λ r, N.of_nat (length r)) <$> es.*2)) as HRL.
  { apply Forall_fmap, Forall_fmap. eapply Forall_impl; [exact Hok|]. intros e (_ & _ & _ & He & _). simpl. unfold exactMaxRun in He. change (256 ^ N.of_nat 4)%N with (2 ^ 32)%N. lia. }
  assert (fits 4 (concat es.*2)) as HPS.
  { apply Forall_concat, Forall_fmap. eapply Forall_impl; [exact Hok|]. intros e (_ & _ & _ & _ & Hr & _). simpl. eapply Forall_impl; [exact Hr|]. simpl. intros o Ho.
    change (256 ^ N.of_nat 4)%N with (2 ^ 32)%N. lia. }
  unfold exactParts, exactView_of. cbn [ev_k ev_p ev_keyLens ev_runLens ev_postings ev_arena]. rewrite ?Nat2N.id.
  rewrite (read_words_ok (blen <$> es.*1)) by (rewrite ?length_fmap; done). cbn [mbind result_bind].
  rewrite (read_words_ok ((λ r, N.of_nat (length r)) <$> es.*2)) by (rewrite ?length_fmap; done). cbn [mbind result_bind].
  rewrite (read_words_ok (concat es.*2)) by done. cbn [mbind result_bind]. change (N.to_nat 0) with 0. rewrite !drop_0. unfold Exact.key_lens, Exact.run_lens. rewrite <-!list_fmap_compose.
  f_equal. f_equal. f_equal; [f_equal|]; apply list_fmap_ext; intros ? e _; unfold blen; simpl; lia.
Qed.

Lemma exact_entries_ok : Exact.entries_ok es.
Proof using All.
  destruct Hes as (Hok & Hs & Hp). rewrite Forall_forall in Hok. split_and!.
  - apply Sorted_StronglySorted in Hs; [|exact bytes_lt_trans]. induction Hs as [|k ks Hs IH Hf]; [constructor|]. constructor; [|done].
    rewrite Forall_forall in Hf. intros Hin. specialize (Hf _ Hin). by apply irreflexivity in Hf; [|apply _].
  - intros k p Hin. destruct (Hok _ Hin) as (H1 & _ & H2 & H3 & H4 & _). cbn [fst snd] in *. split_and!; try done.
    intros Hm. rewrite Forall_forall in H4. specialize (H4 _ Hm). lia.
  - intros l1 e l2 ->. rewrite !fmap_app, concat_app, length_app in Hp. unfold max_u32 in Hp. change Exact.maxOff with (2 ^ 44 - 1)%N. lia.
Qed.

(** The index looks up each entry's run and nothing else. *)
Lemma exact_index_of : ∃ idx, (parts ← exactParts (exactView_of es); restore_exact parts) = Ok idx ∧
  (∀ k run, (k, run) ∈ es → Exact.Lookup idx k = Some run) ∧ (∀ k, k ∉ es.*1 → Exact.Lookup idx k = Some []).
Proof using All.
  rewrite exactParts_of. cbn [mbind result_bind restore_exact]. pose proof (Exact.restore_total es exact_entries_ok) as Ht.
  destruct (Exact.Restore _ _ _ _) as [idx|] eqn:Hr; [|done]. exists idx. split; [done|].
  apply Exact.restore_inv in Hr as (es' & Ha & Hk & Hrl & Hp & _ & Hl & Hmiss & _).
  assert (es = es') as <- by (by apply Exact.entries_inj). split; [|done]. intros k p Hin. by apply Hl.
Qed.
End index.

(** * The n-gram section: [parseNgram] accepts exactly the layouts of sorted grams with
    aligned frozen bitmaps, and the index rebuilt over one posts exactly each gram's
    ordinals. *)

#[local] Opaque put_le get_le.

(** ** Alignment *)

Lemma aligned_wide n : (n <= 2 ^ 64 - 32)%N → (n <= aligned n < n + 32)%N ∧ (aligned n mod 32 = 0)%N.
Proof.
  intros Hn. unfold aligned, align32, Align. destruct (N.ltb_spec (2 ^ 64 - 1 - (32 - 1)) n); [lia|]. cbn [default].
  change (32 - 1)%N with (N.ones 5). replace (n + 32 - 1)%N with (n + 31)%N by lia. rewrite N.ldiff_ones_r, N.shiftl_mul_pow2, N.shiftr_div_pow2.
  change (2 ^ 5)%N with 32%N. unfold id. split; [zlia|]. apply N.Div0.mod_mul.
Qed.
Lemma aligned_spec n : (n <= 2 ^ 63)%N → (n <= aligned n < n + 32)%N ∧ (aligned n mod 32 = 0)%N.
Proof. intros Hn. apply aligned_wide. lia. Qed.
Lemma aligned_id n : (n <= 2 ^ 63)%N → (n mod 32 = 0)%N → aligned n = n.
Proof. intros Hn Hm. destruct (aligned_spec n Hn) as [? Ha]. zlia. Qed.
Lemma blen_padding n : (n <= 2 ^ 63)%N → blen (padding n) = (aligned n - n)%N.
Proof. intros Hn. unfold padding, blen. rewrite length_replicate. lia. Qed.
Lemma aligned_add a n : (a mod 32 = 0)%N → (a + n <= 2 ^ 63)%N → aligned (a + n) = (a + aligned n)%N.
Proof.
  intros Ha Hn. destruct (aligned_spec (a + n)) as [H1 H2]; [lia|]. destruct (aligned_spec n) as [H3 H4]; [lia|]. zlia.
Qed.

Lemma zeros_iff (s : bytes) : forallb (λ c, c =? 0)%N s = true ↔ s = replicate (length s) 0%N.
Proof.
  induction s as [|c s IH]; [done|]. simpl. rewrite andb_true_iff, IH, N.eqb_eq. split; [by intros [-> <-]|by intros [= -> <-]].
Qed.
Lemma zeros_ok b lo hi m u : zeros b lo hi m = Ok u ↔ (lo <= hi)%N ∧ (hi <= blen b)%N ∧ seg b lo hi = replicate (N.to_nat (hi - lo)) 0%N.
Proof.
  unfold zeros. rewrite bind_ok. split.
  - intros (s & (H1 & H2 & ->)%slice_ok & H%malformed_if_ok). apply negb_false_iff, zeros_iff in H. split_and!; [done..|]. rewrite H. f_equal.
    pose proof (blen_seg b lo hi H1 H2) as E. unfold blen in E. lia.
  - intros (H1 & H2 & E). exists (seg b lo hi). rewrite slice_ok, malformed_if_ok, negb_false_iff, zeros_iff. split; [done|]. rewrite E. by rewrite length_replicate.
Qed.

(** ** Grams with their bitmaps *)

Definition frozen_grams (gs : list (bytes * list (N * container))) : list (bytes * bytes) := (λ e, (e.1, frozen_bytes e.2)) <$> gs.
Definition top (e : bytes * list (N * container)) : N := fi_max (frozen_info e.2).
Definition gram_ok (numOrds : N) (e : bytes * list (N * container)) : Prop := e.1 ≠ [] ∧ frozen_ok e.2 ∧ (top e < numOrds)%N.
Definition tops (m : N) (gs : list (bytes * list (N * container))) : N := foldl (λ m e, N.max m (top e)) m gs.

Lemma gram_rows_length gcur bcur gs : length (gram_rows gcur bcur gs) = 4 * length gs.
Proof. revert gcur bcur. induction gs as [|[g f] gs IH]; intros gcur bcur; [done|]. cbn [gram_rows]. rewrite length_app, IH. simpl. lia. Qed.

Lemma take4 (l : list N) i a b c d n r : take (4 * S n) (drop i l) = [a; b; c; d] ++ r ↔
  l !! i = Some a ∧ l !! (i + 1) = Some b ∧ l !! (i + 2) = Some c ∧ l !! (i + 3) = Some d ∧ take (4 * n) (drop (i + 4) l) = r.
Proof.
  replace (4 * S n) with (S (S (S (S (4 * n))))) by lia. cbn [app]. rewrite !take_drop_cons.
  replace (i + 1) with (S i) by lia. replace (i + 2) with (S (S i)) by lia. replace (i + 3) with (S (S (S i))) by lia. by replace (i + 4) with (S (S (S (S i)))) by lia.
Qed.

Section parse.
Context (no : N) (blob bm : bytes) (Hblob : (blen blob <= max_int)%N) (Hbm : (blen bm <= max_int)%N) (Hbytes : is_bytes bm).
Context (RW : list N) (HRW : fits 8 RW).

Definition grams_at (fuel : nat) (i gcur bcur : N) (prev : bytes) (maxOrd gcur' bcur' maxOrd' : N) (gs : list (bytes * list (N * container))) : Prop :=
  length gs = fuel ∧ Forall (gram_ok no) gs ∧ Sorted bytes_lt (option_list (if (0 <? i)%N then Some prev else None) ++ gs.*1) ∧
  take (4 * fuel) (drop (4 * N.to_nat i) RW) = gram_rows gcur bcur (frozen_grams gs) ∧
  seg blob gcur gcur' = concat gs.*1 ∧ gcur' = (gcur + blen (concat gs.*1))%N ∧ (gcur' <= blen blob)%N ∧
  seg bm bcur bcur' = bitmap_blob bcur (frozen_grams gs) ∧ bcur' = (bcur + blen (bitmap_blob bcur (frozen_grams gs)))%N ∧ (bcur' <= blen bm)%N ∧
  maxOrd' = tops maxOrd gs.

Lemma grams_at_cons fuel i gcur bcur prev mo gcur' bcur' mo' g cs gs : (bcur <= blen bm)%N →
  grams_at (S fuel) i gcur bcur prev mo gcur' bcur' mo' ((g, cs) :: gs) ↔
  gram_ok no (g, cs) ∧ (∀ p, (if (0 <? i)%N then Some prev else None) = Some p → bytes_lt p g) ∧
  (RW !! (4 * N.to_nat i) = Some gcur ∧ RW !! (4 * N.to_nat i + 1) = Some (blen g) ∧
   RW !! (4 * N.to_nat i + 2) = Some (aligned bcur) ∧ RW !! (4 * N.to_nat i + 3) = Some (blen (frozen_bytes cs))) ∧
  (gcur + blen g <= blen blob)%N ∧ seg blob gcur (gcur + blen g) = g ∧
  (aligned bcur + blen (frozen_bytes cs) <= blen bm)%N ∧ seg bm bcur (aligned bcur) = replicate (N.to_nat (aligned bcur - bcur)) 0%N ∧
  seg bm (aligned bcur) (aligned bcur + blen (frozen_bytes cs)) = frozen_bytes cs ∧
  grams_at fuel (i + 1) (gcur + blen g) (aligned bcur + blen (frozen_bytes cs)) g (N.max mo (top (g, cs))) gcur' bcur' mo' gs.
Proof using All.
  intros Hbc. unfold max_int in Hbm. destruct (aligned_spec bcur) as [Hal _]; [lia|]. pose proof (blen_padding bcur ltac:(lia)) as Hpad.
  unfold grams_at. unfold frozen_grams at 1 3 5. rewrite !fmap_cons. fold (frozen_grams gs). cbn [fst snd concat gram_rows bitmap_blob length].
  rewrite sorted_option, Forall_cons, take4, !blen_app, Hpad.
  replace (0 <? i + 1)%N with true by lia. cbn [option_list app]. replace (4 * N.to_nat i + 4) with (4 * N.to_nat (i + 1)) by lia.
  change (tops mo ((g, cs) :: gs)) with (tops (N.max mo (top (g, cs))) gs).
  set (f := frozen_bytes cs). set (B := bitmap_blob (aligned bcur + blen f) (frozen_grams gs)).
  assert (∀ hi, hi = (bcur + (aligned bcur - bcur + (blen f + blen B)))%N → (hi <= blen bm)%N → seg bm bcur hi = padding bcur ++ f ++ B ↔
    seg bm bcur (aligned bcur) = replicate (N.to_nat (aligned bcur - bcur)) 0%N ∧ seg bm (aligned bcur) (aligned bcur + blen f) = f ∧ seg bm (aligned bcur + blen f) hi = B) as HB.
  { intros hi -> Hle. rewrite seg_app_iff by (rewrite ?blen_app, ?Hpad; lia). rewrite Hpad. replace (bcur + (aligned bcur - bcur))%N with (aligned bcur) by lia.
    rewrite seg_app_iff by (rewrite ?blen_app; lia). done. }
  assert (∀ hi, hi = (gcur + (blen g + blen (concat gs.*1)))%N → (hi <= blen blob)%N → seg blob gcur hi = g ++ concat gs.*1 ↔
    seg blob gcur (gcur + blen g) = g ∧ seg blob (gcur + blen g) hi = concat gs.*1) as HG.
  { intros hi -> Hle. by rewrite seg_app_iff by (rewrite ?blen_app; lia). }
  split.
  - intros (Hl & [Hok Hoks] & [Hs1 Hs] & (HW0 & HW1 & HW2 & HW3 & HW) & Hseg & Eg & Hgb & Hbseg & Eb & Hbb & ->).
    apply HG in Hseg as [? ?]; [|done..]. apply HB in Hbseg as (? & ? & ?); [|done..].
    split_and!; try done; lia.
  - intros (Hok & Hs1 & (HW0 & HW1 & HW2 & HW3) & Hgb1 & Hg1 & Hbb1 & Hp1 & Hf1 & (Hl & Hoks & Hs & HW & Hseg & Eg & Hgb & Hbseg & Eb & Hbb & ->)).
    split_and!; try done; try lia.
    + apply HG; [lia|done|done].
    + apply HB; [lia|done|done].
Qed.

(** The lengths a row declares are those of what it locates. *)
Lemma gram_row i : 4 * S (N.to_nat i) <= length RW → ∃ a b c d,
  RW !! (4 * N.to_nat i) = Some a ∧ RW !! (4 * N.to_nat i + 1) = Some b ∧ RW !! (4 * N.to_nat i + 2) = Some c ∧ RW !! (4 * N.to_nat i + 3) = Some d ∧
  le64 (table_of 8 RW) (32 * i) = Ok a ∧ le64 (table_of 8 RW) (32 * i + 8) = Ok b ∧
  le64 (table_of 8 RW) (32 * i + 16) = Ok c ∧ le64 (table_of 8 RW) (32 * i + 24) = Ok d ∧
  (a < 2 ^ 64 ∧ b < 2 ^ 64 ∧ c < 2 ^ 64 ∧ d < 2 ^ 64)%N.
Proof using All.
  intros Hi. assert (4 * N.to_nat i + 3 < length RW) as Hl by lia.
  assert (∀ j off, j < 4 → off = (32 * i + 8 * N.of_nat j)%N → ∃ w, RW !! (4 * N.to_nat i + j) = Some w ∧ le64 (table_of 8 RW) off = Ok w ∧ (w < 2 ^ 64)%N) as H.
  { intros j off Hj ->. destruct (lookup_lt_is_Some_2 RW (4 * N.to_nat i + j)) as [w Hw]; [lia|]. exists w. split_and!; [done| |].
    - apply (le64_table RW _ (4 * i + N.of_nat j)%N w HRW); [lia|]. by replace (N.to_nat (4 * i + N.of_nat j)) with (4 * N.to_nat i + j) by lia.
    - eapply Forall_lookup_1 in HRW; [|exact Hw]. exact HRW. }
  destruct (H 0 (32 * i)%N) as (a & ? & ? & ?); [lia|lia|]. destruct (H 1 (32 * i + 8)%N) as (b & ? & ? & ?); [lia|lia|].
  destruct (H 2 (32 * i + 16)%N) as (c & ? & ? & ?); [lia|lia|]. destruct (H 3 (32 * i + 24)%N) as (d & ? & ? & ?); [lia|lia|].
  rewrite Nat.add_0_r in *. by exists a, b, c, d.
Qed.

Lemma gram_check_ok g fuel i gcur bcur prev mo gcur' bcur' mo' : (gcur <= blen blob)%N → (bcur <= blen bm)%N →
  4 * (N.to_nat i + fuel) <= length RW →
  check_grams fuel (mkNgramView no g (table_of 8 RW) blob bm) i gcur bcur prev mo = Ok (gcur', bcur', mo') ↔
  ∃ gs, grams_at fuel i gcur bcur prev mo gcur' bcur' mo' gs.
Proof using All.
  revert i gcur bcur prev mo. induction fuel as [|fuel IH]; intros i gcur bcur prev mo Hg Hb Hi; cbn [check_grams].
  { split.
    - intros [= <- <- <-]. exists []. unfold grams_at, blen. simpl. rewrite !N.add_0_r. split_and!; try (done || constructor).
      + destruct (0 <? i)%N; simpl; repeat constructor.
      + unfold seg. by rewrite N.sub_diag.
      + unfold seg. by rewrite N.sub_diag.
    - intros (gs & Hl & _ & _ & _ & _ & -> & _ & _ & -> & _ & ->). destruct gs; [|done]. unfold blen. simpl. by rewrite !N.add_0_r. }
  destruct (gram_row i) as (goff & glen & boff & bl & HW0 & HW1 & HW2 & HW3 & R0 & R1 & R2 & R3 & Bgo & Bgl & Bbo & Bbl); [lia|].
  cbn [nv_rows nv_gramBlob nv_bmBlob nv_numOrds]. rewrite R0. cbn [mbind result_bind]. rewrite R1. cbn [mbind result_bind].
  rewrite R2. cbn [mbind result_bind]. rewrite R3. cbn [mbind result_bind]. unfold max_int in *.
  destruct (aligned_spec bcur) as [Hal Hal0]; [lia|]. rewrite (sub64_small (blen blob)) by lia. rewrite !bind_malformed.
  assert (∀ gs, grams_at (S fuel) i gcur bcur prev mo gcur' bcur' mo' gs → ∃ g cs gs', gs = (g, cs) :: gs') as Hne.
  { intros gs (Hl & _). destruct gs as [|[g' cs] gs]; [done|]. by exists g', cs, gs. }
  set (P := ∃ gs, grams_at (S fuel) i gcur bcur prev mo gcur' bcur' mo' gs).
  assert (P → goff = gcur ∧ boff = aligned bcur ∧ (gcur + glen <= blen blob)%N ∧ (aligned bcur + bl <= blen bm)%N ∧ glen ≠ 0%N ∧
    seg bm bcur (aligned bcur) = replicate (N.to_nat (aligned bcur - bcur)) 0%N ∧
    (∀ p, (if (0 <? i)%N then Some prev else None) = Some p → bytes_lt p (seg blob gcur (gcur + glen))) ∧
    ∃ cs gs', frozen_ok cs ∧ (top (seg blob gcur (gcur + glen), cs) < no)%N ∧ seg bm (aligned bcur) (aligned bcur + bl) = frozen_bytes cs ∧
      grams_at fuel (i + 1) (gcur + glen) (aligned bcur + bl) (seg blob gcur (gcur + glen)) (N.max mo (top (seg blob gcur (gcur + glen), cs))) gcur' bcur' mo' gs') as Hinv.
  { intros (gs & Hgs). destruct (Hne gs Hgs) as (g' & cs & gs' & ->). apply grams_at_cons in Hgs as ((Hg0 & Hf & Ht) & Hs & (W0 & W1 & W2 & W3) & Hgb & Hg1 & Hbb & Hz & Hf1 & Hrest); [|done..].
    rewrite HW0 in W0. rewrite HW1 in W1. rewrite HW2 in W2. rewrite HW3 in W3. injection W0 as ->. injection W1 as ->. injection W2 as ->. injection W3 as ->.
    rewrite Hg1. split_and!; try done.
    - cbn [fst] in Hg0. intros Hz0%blen_nil. done.
    - by exists cs, gs'. }
  assert (∀ cs gs', goff = gcur → boff = aligned bcur → (gcur + glen <= blen blob)%N → (aligned bcur + bl <= blen bm)%N → glen ≠ 0%N →
    seg bm bcur (aligned bcur) = replicate (N.to_nat (aligned bcur - bcur)) 0%N →
    (∀ p, (if (0 <? i)%N then Some prev else None) = Some p → bytes_lt p (seg blob gcur (gcur + glen))) →
    frozen_ok cs → (top (seg blob gcur (gcur + glen), cs) < no)%N → seg bm (aligned bcur) (aligned bcur + bl) = frozen_bytes cs →
      grams_at fuel (i + 1) (gcur + glen) (aligned bcur + bl) (seg blob gcur (gcur + glen)) (N.max mo (top (seg blob gcur (gcur + glen), cs))) gcur' bcur' mo' gs' → P) as Hbuild.
  { intros cs gs' -> -> Hgb Hbb Hgl Hz Hs Hf Ht Hseg Hrest. exists ((seg blob gcur (gcur + glen), cs) :: gs').
    assert (blen (seg blob gcur (gcur + glen)) = glen) as El by (rewrite blen_seg by lia; lia).
    assert (blen (frozen_bytes cs) = bl) as Eb by (rewrite <-Hseg, blen_seg by lia; lia).
    apply grams_at_cons; [done..|]. rewrite El, Eb. unfold gram_ok. cbn [fst snd]. split_and!; try done.
    intros E. rewrite E in El. unfold blen in El. simpl in El. lia. }
  clearbody P. clear Hne. cbn zeta.
  destruct (negb (goff =? gcur)%N || (glen =? 0)%N || (blen blob - gcur <? glen)%N) eqn:E1.
  { split; [done|]. intros (-> & _ & ? & _ & ? & _)%Hinv. exfalso. lia. }
  apply orb_false_iff in E1 as [[E1a%negb_false_iff%N.eqb_eq E1b]%orb_false_iff E1c]. subst goff.
  rewrite (add64_small gcur) by lia. rewrite (proj2 (slice_ok blob gcur (gcur + glen) (seg blob gcur (gcur + glen)))) by (split_and!; (done || lia)). cbn [mbind result_bind].
  set (g' := seg blob gcur (gcur + glen)) in *. rewrite !bind_malformed.
  destruct ((0 <? i)%N && bool_decide (bytes_le g' prev)) eqn:E2.
  { split; [done|]. intros (_ & _ & _ & _ & _ & _ & Hs & _)%Hinv. apply andb_true_iff in E2 as [E2 E3%bool_decide_eq_true].
    rewrite E2 in Hs. specialize (Hs prev eq_refl). by apply bytes_nlt_le in E3. }
  assert (∀ p, (if (0 <? i)%N then Some prev else None) = Some p → bytes_lt p g') as Hkey.
  { intros p Hpp. destruct (0 <? i)%N; [|done]. injection Hpp as <-. cbn [andb] in E2. by apply bool_decide_eq_false, bytes_nle_lt in E2. }
  destruct (negb (boff mod Align =? 0)%N) eqn:E3.
  { split; [done|]. intros (_ & -> & _)%Hinv. change Align with 32%N in E3. by rewrite Hal0 in E3. }
  destruct (N.ltb_spec (blen bm) (aligned bcur)) as [E4|E4]; [rewrite orb_true_r; cbn [orb]; split; [done|]; intros (_ & -> & _ & ? & _)%Hinv; lia|].
  rewrite orb_false_r. rewrite (sub64_small (blen bm)) by lia.
  destruct (negb (boff =? aligned bcur)%N || (blen bm - aligned bcur <? bl)%N) eqn:E5.
  { split; [done|]. intros (_ & -> & _ & ? & _)%Hinv. exfalso. lia. }
  apply orb_false_iff in E5 as [E5a%negb_false_iff%N.eqb_eq E5b]. subst boff. rewrite bind_ok. split.
  - intros ([] & (_ & _ & Hz)%zeros_ok & H). rewrite (proj2 (slice_ok bm (aligned bcur) (aligned bcur + bl) (seg bm (aligned bcur) (aligned bcur + bl)))) in H by (split_and!; (done || lia)). cbn [mbind result_bind] in H.
    apply bind_ok in H as (fi & Hfi & H). apply checkFrozen_sound in Hfi as (cs & Hcs & Ecs & ->); [|by apply is_bytes_seg].
    rewrite bind_malformed in H. destruct (N.leb_spec no (fi_max (frozen_info cs))); [done|]. rewrite add64_small in H by lia.
    apply IH in H as (gs' & Hgs'); [|lia..]. by apply (Hbuild cs gs'); try done; lia.
  - intros (_ & _ & _ & _ & _ & Hz & _ & cs & gs' & Hcs & Ht & Hseg & Hrest)%Hinv. exists (). split; [apply zeros_ok; split_and!; [lia|lia|done]|].
    rewrite (proj2 (slice_ok bm (aligned bcur) (aligned bcur + bl) (seg bm (aligned bcur) (aligned bcur + bl)))) by (split_and!; (done || lia)). cbn [mbind result_bind]. rewrite Hseg, checkFrozen_complete by done. cbn [mbind result_bind].
    rewrite bind_malformed. unfold top in Ht. cbn [snd] in Ht. destruct (N.leb_spec no (fi_max (frozen_info cs))); [lia|]. rewrite add64_small by lia.
    apply IH; [lia..|]. by exists gs'.
Qed.
End parse.

(** ** The section *)

Definition ngram_raw (g : N) (RW : list N) (no : N) (blob bm : bytes) : bytes :=
  put64 g ++ table_of 8 RW ++ put64 no ++ put64 (blen blob) ++ blob ++ padding (24 + 32 * g + blen blob) ++ bm.
Lemma blen_ngram_raw g RW no blob bm : N.of_nat (length RW) = (4 * g)%N → (24 + 32 * g + blen blob <= 2 ^ 63)%N →
  blen (ngram_raw g RW no blob bm) = (aligned (24 + 32 * g + blen blob) + blen bm)%N.
Proof.
  intros E Hl. unfold ngram_raw. rewrite !blen_app, !blen_put64, table_blen, blen_padding by done. destruct (aligned_spec _ Hl). lia.
Qed.

Lemma parse_ngram_raw n g RW no blob bm : N.of_nat (length RW) = (4 * g)%N → (g <= max_u32)%N → (no < 2 ^ 64)%N →
  (24 + 32 * g + blen blob <= 2 ^ 63)%N → (blen (ngram_raw g RW no blob bm) <= max_int)%N →
  parseNgram n (ngram_raw g RW no blob bm) =
  _ ← malformed_if (n <? no)%N NumOrdsRange;
  let nv := mkNgramView (u32 no) g (table_of 8 RW) blob bm in
  '(gcur, bcur, maxOrd) ← check_grams (N.to_nat g) nv 0 0 0 [] 0;
  _ ← malformed_if (negb (gcur =? blen blob)%N) GramsUnused;
  _ ← malformed_if (negb (bcur =? blen bm)%N) BitmapsUnused;
  let wantOrds := if (0 <? g)%N then (maxOrd + 1)%N else 0%N in
  _ ← malformed_if (negb (no =? wantOrds)%N) NumOrdsWrong;
  Ok nv.
Proof.
  intros E Hg Hno Hsz Hl. pose proof (blen_ngram_raw g RW no blob bm E Hsz) as Hb. destruct (aligned_spec _ Hsz) as [Hal _].
  set (gl := blen blob) in *. set (at0 := (24 + 32 * g + gl)%N) in *. assert (gl = blen blob ∧ at0 = (24 + 32 * g + gl)%N) as [Egl Eat] by done.
  pose proof (table_blen 8 RW) as HR. pose proof (blen_padding at0 Hsz) as Hpad.
  assert (∀ pre s post, ngram_raw g RW no blob bm = pre ++ s ++ post → ∀ lo hi, lo = blen pre → hi = (lo + blen s)%N → slice (ngram_raw g RW no blob bm) lo hi = Ok s) as Hcut.
  { intros pre s post Eraw lo hi -> ->. by apply (slice_at _ _ _ pre s post). }
  pose proof (Hcut (put64 g) (table_of 8 RW) (put64 no ++ put64 gl ++ blob ++ padding at0 ++ bm) eq_refl 8%N (8 + 32 * g)%N eq_refl) as C1.
  rewrite HR in C1. specialize (C1 ltac:(lia)).
  pose proof (Hcut (put64 g ++ table_of 8 RW ++ put64 no ++ put64 gl) blob (padding at0 ++ bm) ltac:(unfold ngram_raw; by rewrite <-!app_assoc) (8 + 32 * g + 16)%N (8 + 32 * g + 16 + gl)%N) as C2.
  rewrite !blen_app, !blen_put64, HR in C2. specialize (C2 ltac:(lia) ltac:(lia)).
  pose proof (Hcut (put64 g ++ table_of 8 RW ++ put64 no ++ put64 gl ++ blob) (padding at0) bm ltac:(unfold ngram_raw; by rewrite <-!app_assoc) (8 + 32 * g + 16 + gl)%N (aligned at0)) as C3.
  rewrite !blen_app, !blen_put64, HR, Hpad in C3. specialize (C3 ltac:(lia) ltac:(lia)).
  pose proof (Hcut (put64 g ++ table_of 8 RW ++ put64 no ++ put64 gl ++ blob ++ padding at0) bm [] ltac:(unfold ngram_raw; by rewrite <-!app_assoc, app_nil_r) (aligned at0) (blen (ngram_raw g RW no blob bm))) as C4.
  rewrite !blen_app, !blen_put64, HR, Hpad in C4. specialize (C4 ltac:(lia) ltac:(lia)). clear Hcut.
  assert (count (ngram_raw g RW no blob bm) 0 32 16 = Ok g) as Hc.
  { apply (count_complete [] (table_of 8 RW) (put64 no ++ put64 gl ++ blob ++ padding at0 ++ bm) 32 16 g); try done; [lia|]. rewrite !blen_app, !blen_put64. lia. }
  assert (le64 (ngram_raw g RW no blob bm) (8 + 32 * g) = Ok no) as W1.
  { apply (read64_at _ _ no (put64 g ++ table_of 8 RW) (put64 gl ++ blob ++ padding at0 ++ bm)); [unfold ngram_raw; by rewrite <-!app_assoc|rewrite blen_app, blen_put64; lia|done]. }
  assert (le64 (ngram_raw g RW no blob bm) (8 + 32 * g + 8) = Ok gl) as W2.
  { apply (read64_at _ _ gl (put64 g ++ table_of 8 RW ++ put64 no) (blob ++ padding at0 ++ bm)); [unfold ngram_raw; by rewrite <-!app_assoc|rewrite !blen_app, !blen_put64; lia|lia]. }
  unfold parseNgram. rewrite Hc. cbn [mbind result_bind]. rewrite W1. cbn [mbind result_bind]. rewrite W2. cbn [mbind result_bind]. cbn zeta.
  unfold max_int in Hl. rewrite (sub64_small (blen (ngram_raw g RW no blob bm))) by lia.
  replace (8 + 32 * g + 16 + gl)%N with at0 in * by lia. rewrite !bind_malformed.
  destruct (N.ltb_spec (blen (ngram_raw g RW no blob bm) - (8 + 32 * g + 16)) gl); [lia|].
  destruct (N.ltb_spec (blen (ngram_raw g RW no blob bm)) (aligned at0)); [lia|].
  assert (zeros (ngram_raw g RW no blob bm) at0 (aligned at0) PaddingNonzero = Ok ()) as ->.
  { apply zeros_ok. apply slice_ok in C3 as (? & ? & C3). split_and!; [done..|]. by rewrite <-C3. }
  cbn [mbind result_bind]. destruct (n <? no)%N; [done|].
  rewrite C1. cbn [mbind result_bind]. rewrite C2. cbn [mbind result_bind]. rewrite C4. cbn [mbind result_bind]. done.
Qed.

Lemma parse_ngram_shape n b nv : is_bytes b → (blen b <= max_int)%N → parseNgram n b = Ok nv →
  ∃ g RW no blob bm, b = ngram_raw g RW no blob bm ∧ N.of_nat (length RW) = (4 * g)%N ∧ (g <= max_u32)%N ∧ (no < 2 ^ 64)%N ∧
    (24 + 32 * g + blen blob <= 2 ^ 63)%N ∧ fits 8 RW ∧ is_bytes bm.
Proof.
  intros Hb Hl H. unfold parseNgram in H. apply bind_ok in H as (g & Hg & H).
  apply (count_shape _ _ _ _ _ Hb Hl) in Hg as (pre & body & rest & -> & Hpre%blen_nil & Hbody & Hrest & Hg); [|done]. subst pre. cbn [app] in *.
  apply is_bytes_app in Hb as [_ Hb]. apply is_bytes_app in Hb as [Hb1 Hb2].
  destruct (table_exists 8 (N.to_nat (4 * g)) body Hb1) as (RW & -> & HRl & HRW); [unfold blen in Hbody; lia|].
  destruct (word_prefix 8 rest Hb2) as (no & r1 & -> & Hno & Hb3); [lia|]. rewrite blen_app, blen_put in Hrest.
  destruct (word_prefix 8 r1 Hb3) as (gl & r2 & -> & Hgl & Hb4); [lia|]. change (256 ^ N.of_nat 8)%N with (2 ^ 64)%N in *.
  fold put64 in *. pose proof (table_blen 8 RW) as HR.
  rewrite (read64_at _ (8 + 32 * g) no (put64 g ++ table_of 8 RW) (put64 gl ++ r2)) in H by (rewrite ?blen_app, ?blen_put64, <-?app_assoc; (done || lia)). cbn [mbind result_bind] in H.
  rewrite (read64_at _ (8 + 32 * g + 8) gl (put64 g ++ table_of 8 RW ++ put64 no) r2) in H by (rewrite ?blen_app, ?blen_put64, <-?app_assoc; (done || lia)). cbn [mbind result_bind] in H.
  cbn zeta in H. set (b := put64 g ++ table_of 8 RW ++ put64 no ++ put64 gl ++ r2) in *.
  assert (blen b = 8 + 32 * g + 16 + blen r2)%N as Eb by (unfold b; rewrite !blen_app, !blen_put64; lia). unfold max_int in Hl.
  rewrite (sub64_small (blen b)) in H by lia. rewrite !bind_malformed in H.
  destruct (N.ltb_spec (blen b - (8 + 32 * g + 16)) gl) as [|Hgl2]; [done|].
  set (at0 := (24 + 32 * g + gl)%N). replace (8 + 32 * g + 16 + gl)%N with at0 in H by (unfold at0; lia).
  assert (at0 <= 2 ^ 63)%N as Hat by (unfold at0; lia). destruct (aligned_spec at0 Hat) as [Hal _].
  destruct (N.ltb_spec (blen b) (aligned at0)) as [|Hbm]; [done|]. apply bind_ok in H as ([] & (_ & _ & Hz)%zeros_ok & _).
  assert (blen (take (N.to_nat gl) r2) = gl) as Ebl by (unfold blen in *; rewrite length_take; lia).
  exists g, RW, no, (take (N.to_nat gl) r2), (seg b (aligned at0) (blen b)). rewrite Ebl. split_and!; try done; [|lia|].
  - unfold ngram_raw. rewrite Ebl. fold at0. unfold b at 1. do 4 f_equal. rewrite <-(take_drop (N.to_nat gl) r2) at 1. f_equal.
    assert (drop (N.to_nat gl) r2 = seg b at0 (blen b)) as ->.
    { symmetry. unfold b.
      replace (put64 g ++ table_of 8 RW ++ put64 no ++ put64 gl ++ r2) with ((put64 g ++ table_of 8 RW ++ put64 no ++ put64 gl ++ take (N.to_nat gl) r2) ++ drop (N.to_nat gl) r2)
        by (rewrite <-!app_assoc; by rewrite take_drop).
      apply seg_tail; [rewrite !blen_app, !blen_put64, Ebl; unfold at0; lia|by rewrite blen_app]. }
    rewrite (seg_split b at0 (aligned at0)) by lia. rewrite Hz. done.
  - apply is_bytes_seg. unfold b. apply is_bytes_app. split; [apply put_le_bytes|]. apply is_bytes_app. split; [done|]. apply is_bytes_app. split; [apply put_le_bytes|]. apply is_bytes_app. split; [apply put_le_bytes|done].
Qed.

(** The posting lists of a section: what [numOrds] has to be. *)
Definition ngram_ok (n no : N) (gs : list (bytes * list (N * container))) : Prop :=
  (N.of_nat (length gs) <= max_u32)%N ∧ Forall (gram_ok no) gs ∧ Sorted bytes_lt gs.*1 ∧
  no = (match gs with [] => 0 | _ => tops 0 gs + 1 end)%N ∧ (no <= n)%N.
Definition ngramView_of (no : N) (gs : list (bytes * list (N * container))) : ngramView :=
  mkNgramView no (N.of_nat (length gs)) (table_of 8 (gram_rows 0 0 (frozen_grams gs))) (concat gs.*1) (bitmap_blob 0 (frozen_grams gs)).

Lemma frozen_grams_fst gs : (frozen_grams gs).*1 = gs.*1.
Proof. unfold frozen_grams. rewrite <-list_fmap_compose. done. Qed.
Lemma ngram_section_raw no gs :
  ngram_section no (frozen_grams gs) = ngram_raw (N.of_nat (length gs)) (gram_rows 0 0 (frozen_grams gs)) no (concat gs.*1) (bitmap_blob 0 (frozen_grams gs)).
Proof.
  unfold ngram_section, ngram_raw. rewrite frozen_grams_fst. unfold frozen_grams at 1 3. rewrite !length_fmap.
  replace (8 + 32 * N.of_nat (length gs) + 16)%N with (24 + 32 * N.of_nat (length gs))%N by lia. done.
Qed.
Lemma gram_rows_fits gcur bcur gs : (gcur + blen (concat gs.*1) <= 2 ^ 63)%N → (bcur + blen (bitmap_blob bcur gs) <= 2 ^ 63)%N → fits 8 (gram_rows gcur bcur gs).
Proof.
  revert gcur bcur. induction gs as [|[g f] gs IH]; intros gcur bcur Hg Hb; [constructor|]. cbn [gram_rows bitmap_blob fmap list_fmap fst concat] in *.
  rewrite !blen_app in *. destruct (aligned_spec bcur) as [Ha _]; [lia|]. rewrite blen_padding in Hb by lia. apply Forall_app. split.
  - change (256 ^ N.of_nat 8)%N with (2 ^ 64)%N. repeat constructor; lia.
  - apply IH; lia.
Qed.

Lemma parseNgram_iff n b nv : (n <= max_u32)%N → is_bytes b → (blen b <= max_int)%N →
  parseNgram n b = Ok nv ↔ ∃ no gs, ngram_ok n no gs ∧ b = ngram_section no (frozen_grams gs) ∧ nv = ngramView_of no gs.
Proof.
  intros Hn Hb Hl. unfold max_u32 in Hn. split.
  - intros H. destruct (parse_ngram_shape n b nv Hb Hl H) as (g & RW & no & blob & bm & -> & HR & Hg & Hno & Hsz & HRW & Hbm).
    rewrite parse_ngram_raw in H by done. rewrite bind_malformed in H. destruct (N.ltb_spec n no) as [|Hno']; [done|]. cbn zeta in H.
    rewrite blen_ngram_raw in Hl by done. destruct (aligned_spec _ Hsz) as [Hal _]. unfold max_int in Hl. rewrite u32_small in H by lia.
    apply bind_ok in H as ([[gcur bcur] mo] & Hc & H). rewrite !bind_malformed in H.
    destruct (N.eqb_spec gcur (blen blob)) as [->|]; [|done]. destruct (N.eqb_spec bcur (blen bm)) as [->|]; [|done].
    destruct (N.eqb_spec no (if (0 <? g)%N then (mo + 1)%N else 0%N)) as [Eno|]; [|done]. cbn [negb] in H. injection H as <-.
    apply gram_check_ok in Hc as (gs & Hlen & Hok & Hs & HRt & Hgs & Eg & _ & Hbs & Eb & _ & ->); [|unfold max_int; lia|unfold max_int; lia|done|done|lia|lia|lia].
    change (N.to_nat 0) with 0 in *. rewrite Nat.mul_0_r, drop_0, take_ge in HRt by lia. rewrite seg_all in Hgs, Hbs. subst RW blob bm.
    assert (g = N.of_nat (length gs)) as -> by lia. exists no, gs. rewrite ngram_section_raw. unfold ngram_ok, ngramView_of, max_u32. split_and!; try done.
    rewrite Eno. destruct gs; done.
  - intros (no & gs & (Hlen & Hok & Hs & Eno & Hno) & -> & ->). rewrite ngram_section_raw in *.
    set (RW := gram_rows 0 0 (frozen_grams gs)) in *. set (blob := concat gs.*1) in *. set (bm := bitmap_blob 0 (frozen_grams gs)) in *. set (g := N.of_nat (length gs)) in *.
    assert (N.of_nat (length RW) = 4 * g)%N as HR by (unfold RW; rewrite gram_rows_length; unfold frozen_grams; rewrite length_fmap; unfold g; lia).
    assert (24 + 32 * g + blen blob <= 2 ^ 63)%N as Hsz.
    { unfold ngram_raw, max_int in Hl. rewrite !blen_app, !blen_put64, table_blen in Hl. lia. }
    rewrite parse_ngram_raw; [|done..|lia|done|done]. rewrite blen_ngram_raw in Hl by done. unfold max_int in Hl. destruct (aligned_spec _ Hsz) as [Hal _].
    rewrite bind_malformed. destruct (N.ltb_spec n no); [lia|]. cbn zeta. rewrite u32_small by lia.
    assert (fits 8 RW) as HRW by (apply gram_rows_fits; [rewrite frozen_grams_fst; fold blob; lia|fold bm; lia]).
    assert (is_bytes bm) as Hbm.
    { apply is_bytes_app in Hb as [_ Hb]. unfold ngram_raw in Hb. do 5 apply is_bytes_app in Hb as [_ Hb]. exact Hb. }
    rewrite (proj2 (gram_check_ok no blob bm ltac:(unfold max_int; lia) ltac:(unfold max_int; lia) Hbm RW HRW g (N.to_nat g) 0 0 0 [] 0 (blen blob) (blen bm) (tops 0 gs) ltac:(lia) ltac:(lia) ltac:(lia))).
    + cbn [mbind result_bind]. rewrite !bind_malformed, !N.eqb_refl. cbn [negb].
      assert (no = (if (0 <? g)%N then (tops 0 gs + 1)%N else 0%N)) as <- by (rewrite Eno; destruct gs; done). rewrite N.eqb_refl. done.
    + exists gs. unfold grams_at. change (0 <? 0)%N with false. cbn [option_list app]. change (N.to_nat 0) with 0. rewrite Nat.mul_0_r, drop_0, !seg_all.
      split_and!; try done; try lia. fold RW. apply take_ge. lia.
Qed.

(** * The indexes of a prepared artifact, end to end: what [encodeNgram] and
    [encodeExact] write is a layout the parsers accept, and the index a [View]
    rebuilds over it holds what the encoded one held. *)

#[local] Opaque put_le get_le.

(** roaring's frozen format: [FreezeTo] writes a non-empty bitmap as valid frozen bytes
    of its ordinals, and [FrozenView] over valid frozen bytes holds theirs. *)
Class FrozenLaws {BL : BitmapLib} (FL : FrozenLib) := {
  freezeTo_spec : ∀ b, bm_sound b → bm_elems b ≠ [] → ∃ cs, freezeTo b = Some (frozen_bytes cs) ∧ frozen_ok cs ∧ frozen_elems cs = bm_elems b;
  frozenSize_spec : ∀ b f, freezeTo b = Some f → frozenSize b = blen f;
  frozenView_spec : ∀ cs, frozen_ok cs → ∃ bm, frozenView (frozen_bytes cs) = Some bm ∧ bm_sound bm ∧ bm_elems bm = frozen_elems cs;
}.

(** ** The rows of a section *)

Lemma bitmap_blob_app bcur a b : (bcur + blen (bitmap_blob bcur (a ++ b)) <= 2 ^ 63)%N →
  bitmap_blob bcur (a ++ b) = bitmap_blob bcur a ++ bitmap_blob (bcur + blen (bitmap_blob bcur a)) b.
Proof.
  revert bcur. induction a as [|[g f] a IH]; intros bcur Hl; [by rewrite N.add_0_r|]. rewrite <-app_comm_cons in *. cbn [bitmap_blob] in *.
  rewrite !blen_app in *. destruct (aligned_spec bcur) as [Ha _]; [lia|]. rewrite blen_padding in * by lia. rewrite IH by lia. rewrite <-!app_assoc. do 4 f_equal. lia.
Qed.
Lemma gram_rows_app gcur bcur a b : (bcur + blen (bitmap_blob bcur (a ++ b)) <= 2 ^ 63)%N →
  gram_rows gcur bcur (a ++ b) = gram_rows gcur bcur a ++ gram_rows (gcur + blen (concat a.*1)) (bcur + blen (bitmap_blob bcur a)) b.
Proof.
  revert gcur bcur. induction a as [|[g f] a IH]; intros gcur bcur Hl; [by rewrite !N.add_0_r|]. rewrite <-app_comm_cons in *. cbn [gram_rows bitmap_blob] in *.
  rewrite !blen_app in *. destruct (aligned_spec bcur) as [Ha _]; [lia|]. rewrite blen_padding in * by lia. rewrite IH by lia. rewrite <-!app_assoc. do 2 f_equal.
  cbn [fmap list_fmap fst concat]. rewrite blen_app. f_equal; lia.
Qed.

Section ngram.
Context {RT : GoRuntime} {BL : BitmapLib} {FO : FloatOps} {FL : FrozenLib} {FW : FrozenLaws FL}.
Context (n no : N) (gs : list (bytes * list (N * container))) (Hok : ngram_ok n no gs).
Context (Hlen : (blen (ngram_section no (frozen_grams gs)) <= max_int)%N).

Lemma section_bounds : (24 + 32 * N.of_nat (length gs) + blen (concat gs.*1) <= 2 ^ 63)%N ∧ (blen (bitmap_blob 0 (frozen_grams gs)) <= 2 ^ 63)%N ∧
  fits 8 (gram_rows 0 0 (frozen_grams gs)).
Proof using Hlen.
  rewrite ngram_section_raw in Hlen. assert (24 + 32 * N.of_nat (length gs) + blen (concat gs.*1) <= 2 ^ 63 ∧ blen (bitmap_blob 0 (frozen_grams gs)) <= 2 ^ 63)%N as [H1 H2].
  { unfold ngram_raw, max_int in Hlen. rewrite !blen_app, !blen_put64, table_blen, gram_rows_length in Hlen. unfold frozen_grams in Hlen at 1. rewrite length_fmap in Hlen. lia. }
  split_and!; [done..|]. apply gram_rows_fits; [rewrite frozen_grams_fst|]; lia.
Qed.

Section one.
Context (a : list (bytes * list (N * container))) (g : bytes) (cs : list (N * container)) (b : list (bytes * list (N * container))) (Hgs : gs = a ++ (g, cs) :: b).
#[local] Notation i := (N.of_nat (length a)).

Lemma gram_words : ∃ boff, aligned (blen (bitmap_blob 0 (frozen_grams a))) = boff ∧ (boff mod 32 = 0)%N ∧
  le64 (nv_rows (ngramView_of no gs)) (32 * i) = Ok (blen (concat a.*1)) ∧ le64 (nv_rows (ngramView_of no gs)) (32 * i + 8) = Ok (blen g) ∧
  le64 (nv_rows (ngramView_of no gs)) (32 * i + 16) = Ok boff ∧ le64 (nv_rows (ngramView_of no gs)) (32 * i + 24) = Ok (blen (frozen_bytes cs)) ∧
  (boff + blen (frozen_bytes cs) <= blen (bitmap_blob 0 (frozen_grams gs)))%N ∧
  seg (bitmap_blob 0 (frozen_grams gs)) boff (boff + blen (frozen_bytes cs)) = frozen_bytes cs.
Proof using Hgs Hlen.
  destruct section_bounds as (H1 & H2 & HRW). unfold ngramView_of. cbn [nv_rows].
  assert (frozen_grams gs = frozen_grams a ++ (g, frozen_bytes cs) :: frozen_grams b) as E by (unfold frozen_grams; by rewrite Hgs, fmap_app).
  assert (gram_rows 0 0 (frozen_grams gs) = gram_rows 0 0 (frozen_grams a) ++
    [blen (concat a.*1); blen g; aligned (blen (bitmap_blob 0 (frozen_grams a))); blen (frozen_bytes cs)] ++
    gram_rows (blen (concat a.*1) + blen g) (aligned (blen (bitmap_blob 0 (frozen_grams a))) + blen (frozen_bytes cs)) (frozen_grams b)) as ER.
  { rewrite E in *. rewrite gram_rows_app by (rewrite N.add_0_l; lia). by rewrite frozen_grams_fst, !N.add_0_l. }
  assert (bitmap_blob 0 (frozen_grams gs) = bitmap_blob 0 (frozen_grams a) ++ padding (blen (bitmap_blob 0 (frozen_grams a))) ++ frozen_bytes cs ++
    bitmap_blob (aligned (blen (bitmap_blob 0 (frozen_grams a))) + blen (frozen_bytes cs)) (frozen_grams b)) as EB.
  { rewrite E in *. rewrite bitmap_blob_app by (rewrite N.add_0_l; lia). by rewrite !N.add_0_l. }
  set (bl := bitmap_blob 0 (frozen_grams a)) in *. rewrite EB, !blen_app in H2. destruct (aligned_spec (blen bl)) as [Ha Ha0]; [lia|].
  pose proof (blen_padding (blen bl) ltac:(lia)) as Hp. exists (aligned (blen bl)).
  assert (∀ j w off, [blen (concat a.*1); blen g; aligned (blen bl); blen (frozen_bytes cs)] !! j = Some w → off = (32 * i + 8 * N.of_nat j)%N →
    le64 (table_of 8 (gram_rows 0 0 (frozen_grams gs))) off = Ok w) as Hw.
  { intros j w off Hj ->. apply (le64_table _ _ (4 * i + N.of_nat j)%N w HRW); [lia|]. rewrite ER. assert (length (gram_rows 0 0 (frozen_grams a)) = 4 * length a) as L.
    { rewrite gram_rows_length. unfold frozen_grams. by rewrite length_fmap. }
    rewrite lookup_app_r by lia. replace (N.to_nat (4 * i + N.of_nat j) - length (gram_rows 0 0 (frozen_grams a))) with j by lia. by apply lookup_app_l_Some. }
  split_and!; try done.
  - by apply (Hw 0); [|lia].
  - by apply (Hw 1); [|lia].
  - by apply (Hw 2); [|lia].
  - by apply (Hw 3); [|lia].
  - rewrite EB, !blen_app. lia.
  - rewrite EB, app_assoc. apply seg_mid; rewrite blen_app; lia.
Qed.

Lemma Gram_of : Gram (ngramView_of no gs) i = Ok g.
Proof using Hgs Hlen.
  destruct gram_words as (boff & _ & _ & W0 & W1 & _). unfold Gram. rewrite W0. cbn [mbind result_bind]. rewrite W1. cbn [mbind result_bind nv_gramBlob ngramView_of].
  apply (slice_at _ _ _ (concat a.*1) g (concat b.*1)); [|done|done]. by rewrite Hgs, fmap_app, concat_app.
Qed.
Lemma FrozenBitmap_of : FrozenBitmap (ngramView_of no gs) i = Ok (frozen_bytes cs).
Proof using Hgs Hlen.
  destruct gram_words as (boff & _ & _ & _ & _ & W2 & W3 & Hb & Hs). unfold FrozenBitmap. rewrite W2. cbn [mbind result_bind]. rewrite W3. cbn [mbind result_bind nv_bmBlob ngramView_of].
  apply slice_ok. split_and!; [lia|done|done].
Qed.
Lemma Postings_of : ∃ bm, Postings (ngramView_of no gs) i = Ok bm ∧ bm_sound bm ∧ bm_elems bm = frozen_elems cs.
Proof using Hgs Hlen Hok FW.
  assert (frozen_ok cs) as Hcs.
  { destruct Hok as (_ & Hf & _). rewrite Hgs, Forall_app, Forall_cons in Hf. by destruct Hf as (_ & (_ & ? & _) & _). }
  destruct (frozenView_spec cs Hcs) as (bm & Hv & Hbm). exists bm. split; [|done].
  destruct gram_words as (boff & _ & Ha & _ & _ & W2 & _). unfold Postings. rewrite FrozenBitmap_of. cbn [mbind result_bind].
  pose proof (checkFrozen_complete cs Hcs) as Hc. unfold checkFrozen in Hc. apply bind_ok in Hc as (l & -> & _). cbn [mbind result_bind].
  rewrite W2. cbn [mbind result_bind]. change Align with 32%N. rewrite Ha. cbn [N.eqb negb fail_if mbind result_bind]. by rewrite Hv.
Qed.
End one.

Lemma all_postings_of fuel a rest post : gs = a ++ rest → length rest = fuel → NoDup rest.*1 → ∃ post',
  all_postings fuel (ngramView_of no gs) (N.of_nat (length a)) post = Ok post' ∧ (Ngram.sound_postings post → Ngram.sound_postings post') ∧
  (∀ g cs, (g, cs) ∈ rest → Ngram.posted post' g = frozen_elems cs) ∧ (∀ g, g ∉ rest.*1 → post' !! g = post !! g).
Proof using Hlen Hok FW.
  revert a rest post. induction fuel as [|fuel IH]; intros a rest post Hgs Hl Hnd.
  { destruct rest; [|done]. exists post. split; [done|]. split; [done|]. split; [intros ? ? H; by apply elem_of_nil in H|done]. }
  destruct rest as [|[g cs] rest]; [done|]. cbn [all_postings]. destruct (Postings_of a g cs rest Hgs) as (bm & -> & Hbs & Hbm). cbn [mbind result_bind].
  rewrite (Gram_of a g cs rest Hgs). cbn [mbind result_bind]. rewrite fmap_cons in Hnd. apply NoDup_cons in Hnd as [Hnot Hnd]. cbn [fst] in Hnot.
  destruct (IH (a ++ [(g, cs)]) rest (<[g := bm]> post)) as (post' & Hp & H0 & H1 & H2); [by rewrite <-app_assoc|by injection Hl|done|].
  rewrite length_app in Hp. replace (N.of_nat (length a + length [(g, cs)])) with (N.of_nat (length a) + 1)%N in Hp by (simpl; lia). exists post'. split; [done|]. split; [|split].
  - intros Hs. apply H0. intros g' bm'. destruct (decide (g' = g)) as [->|Hne]; [rewrite lookup_insert_eq; by intros [= <-]|rewrite lookup_insert_ne by done; apply Hs].
  - intros g' cs' [[= -> ->]|Hin]%elem_of_cons; [|by apply H1]. unfold Ngram.posted. rewrite H2, lookup_insert_eq by done. done.
  - intros g' Hg'. rewrite fmap_cons, not_elem_of_cons in Hg'. destruct Hg' as [Hne Hg']. rewrite H2 by done. by rewrite lookup_insert_ne.
Qed.

(** The index over a section posts exactly each gram's ordinals. *)
Lemma ngram_index_of cfg : Ngram.Grams cfg ≠ [] → Forall (λ g, 1 ≤ g ≤ Ngram.MaxGramSize)%Z (Ngram.Grams cfg) →
  ∃ idx, NgramIndex (ngramView_of no gs) cfg = Ok idx ∧ Ngram.cfg idx = cfg ∧ Ngram.numOrds idx = no ∧
    (∀ g cs, (g, cs) ∈ gs → Ngram.posted (Ngram.postings idx) g = frozen_elems cs) ∧ (∀ g, g ∉ gs.*1 → Ngram.posted (Ngram.postings idx) g = []).
Proof using Hlen Hok FW.
  intros Hne Hsz. pose proof Hok as (_ & Hgs & Hs & _ & _). rewrite Forall_forall in Hgs.
  assert (∀ g cs x, (g, cs) ∈ gs → x ∈ frozen_elems cs → (x < no)%N) as Hmax.
  { intros g cs x Hin Hx. destruct (Hgs _ Hin) as (_ & Hcs & Ht). unfold top in Ht. cbn [snd] in *. destruct (fi_max_spec cs x Hcs Hx). lia. }
  assert (NoDup gs.*1) as Hnd.
  { apply Sorted_StronglySorted in Hs; [|exact bytes_lt_trans]. induction Hs as [|k ks Hs IH Hf]; [constructor|]. constructor; [|done].
    rewrite Forall_forall in Hf. intros Hin. specialize (Hf _ Hin). by apply irreflexivity in Hf; [|apply _]. }
  destruct (all_postings_of (length gs) [] gs ∅ eq_refl eq_refl Hnd) as (post & Hp & H0 & H1 & H2).
  assert (Ngram.sound_postings post) as Hsd by (apply H0; intros g bm Hg; by rewrite lookup_empty in Hg).
  exists (Ngram.mkIndex cfg post no). unfold NgramIndex. cbn [nv_g nv_numOrds ngramView_of]. rewrite ?Nat2N.id. change (N.of_nat (length [])) with 0%N in Hp. rewrite Hp. cbn [mbind result_bind].
  assert (∀ g, g ∉ gs.*1 → Ngram.posted post g = []) as H3 by (intros g Hg; unfold Ngram.posted; by rewrite H2, lookup_empty).
  rewrite (proj2 (Ngram.restore_ok cfg post no (Ngram.mkIndex cfg post no) Hsd)); [done|]. split_and!; try done. split; [done|].
  intros g x Hx. cbn [Ngram.postings Ngram.numOrds] in *. destruct (decide (g ∈ gs.*1)) as [([g' cs] & -> & Hin)%list_elem_of_fmap|Hg].
  - apply (Hmax g' cs); [done|]. cbn [fst] in Hx. by rewrite (H1 _ _ Hin) in Hx.
  - rewrite H3 in Hx by done. by apply elem_of_nil in Hx.
Qed.
End ngram.

(** ** Encoding *)

Lemma sort_keys_strict {RT : GoRuntime} (ks : list bytes) : NoDup ks → Sorted bytes_lt (sort_slice (less_by id) ks).
Proof.
  intros Hnd. apply StronglySorted_Sorted. pose proof (sort_slice_by_sorted id ks) as Hs. assert (NoDup (sort_slice (less_by id) ks)) as Hn by by rewrite sort_slice_perm.
  induction Hs as [|k l Hs IH Hf]; [constructor|]. apply NoDup_cons in Hn as [Hk Hn]. constructor; [by apply IH|].
  rewrite Forall_forall in *. intros x Hx. specialize (Hf x Hx). cbn [id] in Hf. apply bytes_nle_lt. intros Hle. apply Hk. assert (k = x) as ->; [|done]. by apply (anti_symm bytes_le).
Qed.

Lemma tops_spec m gs : (m <= tops m gs)%N ∧ (∀ e, e ∈ gs → (top e <= tops m gs)%N) ∧ (tops m gs = m ∨ ∃ e, e ∈ gs ∧ tops m gs = top e).
Proof.
  revert m. induction gs as [|e gs IH]; intros m; [split_and!; [done|intros e He; by apply elem_of_nil in He|by left]|].
  change (tops m (e :: gs)) with (tops (N.max m (top e)) gs). destruct (IH (N.max m (top e))) as (H1 & H2 & H3). split_and!; [lia| |].
  - intros e' [->|He']%elem_of_cons; [lia|by apply H2].
  - destruct H3 as [H3|(e' & He' & H3)]; [|right; exists e'; split; [by right|done]]. destruct (N.max_spec m (top e)) as [[_ E]|[_ E]]; [right; exists e; split; [by left|by rewrite H3]|left; by rewrite H3].
Qed.

(** An index as [Finish] leaves it: [numOrds] is exact. *)
Definition ngram_finished {BL : BitmapLib} (i : Ngram.Index) : Prop :=
  Ngram.well_formed i ∧ (Ngram.numOrds i = 0%N ∨ ∃ g, (Ngram.numOrds i - 1)%N ∈ Ngram.posted (Ngram.postings i) g).

Section encode_ngram.
Context {RT : GoRuntime} {BL : BitmapLib} {FO : FloatOps} {FL : FrozenLib} {FW : FrozenLaws FL}.

Lemma check_postings_ok ps u : Forall bm_sound ps.*2 → check_postings ps = Ok u → Forall (λ p, p.1 ≠ [] ∧ bm_elems p.2 ≠ []) ps.
Proof.
  induction ps as [|[g bm] ps IH]; cbn [check_postings]; [constructor|]. intros [Hs Hss]%Forall_cons H. apply bind_ok in H as (? & H1%fail_if_ok & H). apply bind_ok in H as (? & H2%fail_if_ok & H).
  constructor; [|by apply IH]. cbn [fst snd] in *. apply bool_decide_eq_false in H1. split; [done|]. intros E%bm_card_zero; [|done]. rewrite E in H2. done.
Qed.
Lemma freeze_all_ok ps ks fs : (∀ g, g ∈ ks → ∃ bm, ps !! g = Some bm ∧ bm_sound bm ∧ bm_elems bm ≠ []) → freeze_all ps ks = Ok fs →
  ∃ gs, fs = frozen_grams gs ∧ gs.*1 = ks ∧ ∀ g cs, (g, cs) ∈ gs → frozen_ok cs ∧ Ngram.posted ps g = frozen_elems cs.
Proof using FW.
  revert fs. induction ks as [|g ks IH]; intros fs Hks; cbn [freeze_all].
  { intros [= <-]. exists []. split_and!; [done..|]. intros g cs Hin. by apply elem_of_nil in Hin. }
  destruct (Hks g ltac:(set_solver)) as (bm & Hg & Hbs & Hne). destruct (freezeTo_spec bm Hbs Hne) as (cs & Hf & Hcs & He). rewrite Hg. cbn [default from_option]. unfold id. rewrite Hf.
  intros H. apply bind_ok in H as (? & _ & H). apply bind_ok in H as (fs' & H & [= <-]). apply IH in H as (gs & -> & Hgs & Hall); [|set_solver].
  exists ((g, cs) :: gs). rewrite fmap_cons, Hgs. split_and!; [done..|]. intros g' cs' [[= -> ->]|Hin]%elem_of_cons; [|by apply Hall].
  split; [done|]. unfold Ngram.posted. by rewrite Hg.
Qed.
Lemma freeze_all_complete ps ks : (∀ g, g ∈ ks → ∃ bm, ps !! g = Some bm ∧ bm_sound bm ∧ bm_elems bm ≠ []) → ∃ fs, freeze_all ps ks = Ok fs.
Proof using FW.
  induction ks as [|g ks IH]; intros Hks; cbn [freeze_all]; [by exists []|]. destruct (Hks g ltac:(set_solver)) as (bm & Hg & Hbs & Hne). destruct (freezeTo_spec bm Hbs Hne) as (cs & Hf & _).
  rewrite Hg. cbn [default from_option]. unfold id. rewrite Hf, (frozenSize_spec _ _ Hf), N.eqb_refl. cbn [negb fail_if mbind result_bind].
  destruct IH as [fs ->]; [set_solver|]. by eexists.
Qed.

Lemma encodeNgram_ok idx n b : encodeNgram idx n = Ok b → ngram_finished idx → (N.of_nat (size (Ngram.postings idx)) <= max_u32)%N →
  ∃ gs, ngram_ok n (Ngram.numOrds idx) gs ∧ b = ngram_section (Ngram.numOrds idx) (frozen_grams gs) ∧ (blen b <= max_int)%N ∧
    (∀ g cs, (g, cs) ∈ gs → Ngram.posted (Ngram.postings idx) g = frozen_elems cs) ∧ (∀ g, g ∉ gs.*1 → Ngram.posted (Ngram.postings idx) g = []).
Proof using FW.
  intros H [[Hsd Hwf] Hno] Hsize. unfold encodeNgram in H. apply bind_ok in H as (? & Hp%check_postings_ok & H); [|by apply Ngram.range_sound]. apply bind_ok in H as (? & Hn%fail_if_ok & H).
  apply bind_ok in H as (fs & Hf & H). apply bind_ok in H as (? & Hb%fail_if_ok & [= <-]).
  set (ks := sort_slice (less_by id) (range_map 0 (Ngram.postings idx)).*1) in *.
  assert (∀ g, g ∈ ks ↔ is_Some (Ngram.postings idx !! g)) as Hks.
  { intros g. unfold ks. rewrite (sort_slice_perm _ (less_by id)), list_elem_of_fmap. split.
    - intros ([g' bm] & -> & Hin%elem_of_range). by exists bm.
    - intros [bm Hg]. exists (g, bm). split; [done|]. by apply elem_of_range. }
  assert (∀ g bm, Ngram.postings idx !! g = Some bm → g ≠ [] ∧ bm_elems bm ≠ []) as Hne.
  { intros g bm Hg. rewrite Forall_forall in Hp. apply (Hp (g, bm)). by apply elem_of_range. }
  apply freeze_all_ok in Hf as (gs & -> & Hgs & Hall); [|intros g [bm Hg]%Hks; exists bm; specialize (Hsd g bm Hg); naive_solver].
  assert (∀ g, g ∉ gs.*1 → Ngram.posted (Ngram.postings idx) g = []) as Hout.
  { intros g Hg. rewrite Hgs, Hks in Hg. unfold Ngram.posted. destruct (Ngram.postings idx !! g) eqn:E; [|done]. destruct Hg. by eexists. }
  exists gs. split_and!; try done; [|lia|by intros g cs Hin; apply Hall].
  assert (∀ e, e ∈ gs → (top e < Ngram.numOrds idx)%N) as Htop.
  { intros [g cs] Hin. destruct (Hall g cs Hin) as [Hcs He]. unfold top. cbn [snd]. destruct (frozen_elems cs) as [|y l] eqn:E; [by apply frozen_nonempty in Hcs|].
    destruct (fi_max_spec cs y Hcs) as [_ Hm]; [rewrite E; set_solver|]. apply (Hwf g). by rewrite He, <-E. }
  unfold ngram_ok. split_and!.
  - assert (length gs = size (Ngram.postings idx)) as ->; [|done]. rewrite <-(length_fmap fst gs), Hgs. unfold ks. rewrite sort_slice_perm, length_fmap, range_map_perm. apply length_map_to_list.
  - apply Forall_forall. intros [g cs] Hin. destruct (Hall g cs Hin) as [Hcs _]. split_and!; [|done|by apply Htop]. cbn [fst].
    assert (g ∈ ks) as [bm Hg]%Hks by (rewrite <-Hgs; apply list_elem_of_fmap; by exists (g, cs)). by destruct (Hne g bm Hg).
  - rewrite Hgs. unfold ks. apply sort_keys_strict, range_nodup.
  - destruct (tops_spec 0 gs) as (_ & T2 & T3). destruct gs as [|e gs'] eqn:Eg.
    + destruct Hno as [->|[g Hg]]; [done|]. rewrite Hout in Hg by set_solver. by apply elem_of_nil in Hg.
    + rewrite <-Eg in *. pose proof (Htop e ltac:(rewrite Eg; set_solver)). destruct Hno as [E|[g Hg]]; [lia|].
      assert (tops 0 gs < Ngram.numOrds idx)%N as Hlt by (destruct T3 as [->|(e' & He' & ->)]; [lia|by apply Htop]).
      destruct (decide (g ∈ gs.*1)) as [([g' cs] & -> & Hin)%list_elem_of_fmap|Hgn]; [|rewrite Hout in Hg by done; by apply elem_of_nil in Hg].
      cbn [fst] in Hg. destruct (Hall g' cs Hin) as [Hcs He]. rewrite He in Hg. destruct (fi_max_spec cs _ Hcs Hg) as [Hle _]. specialize (T2 _ Hin). unfold top in T2. cbn [snd] in T2. lia.
  - lia.
Qed.
End encode_ngram.

(** An index as [exact.Builder.Finish] leaves it: non-empty keys with sorted runs. *)
Definition exact_finished (i : Exact.Index) : Prop :=
  ∀ k, is_Some (Exact.m i !! k) → k ≠ [] ∧ ∃ run, Exact.Lookup i k = Some run ∧ run ≠ [] ∧ (N.of_nat (length run) <= Exact.maxRun)%N ∧
    StronglySorted N.lt run ∧ ∀ o, o ∈ run → (o < Exact.NumOrds i)%N.

Section encode_exact.
Context {RT : GoRuntime}.

Lemma SortedKeys_elem i k : k ∈ Exact.SortedKeys i ↔ is_Some (Exact.m i !! k).
Proof.
  unfold Exact.SortedKeys. rewrite (sort_slice_perm _ (less_by id)), list_elem_of_fmap. split.
  - intros ([k' x] & -> & Hin%elem_of_range). by exists x.
  - intros [x Hx]. exists (k, x). split; [done|]. by apply elem_of_range.
Qed.
Lemma exact_entries_keys i : (exact_entries i).*1 = Exact.SortedKeys i.
Proof. unfold exact_entries. rewrite <-list_fmap_compose. apply list_fmap_id. Qed.

Lemma encodeExact_ok i n b : encodeExact i n = Ok b → exact_finished i → (N.of_nat (length (concat (exact_entries i).*2)) <= max_u32)%N →
  exact_ok n (exact_entries i) ∧ b = exact_section (exact_entries i) ∧ (blen b <= max_int)%N ∧
  (∀ k run, (k, run) ∈ exact_entries i → Exact.Lookup i k = Some run) ∧ (∀ k, k ∉ (exact_entries i).*1 → Exact.Lookup i k = Some []).
Proof.
  intros H Hfin Hps. unfold encodeExact in H. apply bind_ok in H as (? & Hk%fail_if_ok & H). apply bind_ok in H as (? & Hn%fail_if_ok & H).
  apply bind_ok in H as (? & Hb%fail_if_ok & [= <-]).
  assert (∀ k run, (k, run) ∈ exact_entries i → is_Some (Exact.m i !! k) ∧ run = run_of i k) as Hin.
  { intros k run (k' & [= -> ->] & Hk'%SortedKeys_elem)%list_elem_of_fmap. done. }
  split_and!; [split_and!| |lia| |].
  - apply Forall_forall. intros [k run] He. destruct (Hin k run He) as [Hm ->]. destruct (Hfin k Hm) as (Hne & run & Hl & Hr & Hlen & Hs & Ho). unfold run_of. rewrite Hl. cbn [default from_option].
    unfold entry_ok, id. cbn [fst snd]. split_and!; try done.
    + assert (k ∈ (exact_entries i).*1) as Hmem by (apply (list_elem_of_fmap_2 fst _ (k, run_of i k)); done). 
      destruct (N.ltb_spec max_u32 (blen k)) as [Hlt|]; [|done]. exfalso.
      assert (existsb (λ k, (max_u32 <? blen k)%N) (exact_entries i).*1 = true) as E; [|congruence]. apply existsb_exists. exists k. split; [by apply list_elem_of_In|lia].
    + apply Forall_forall. intros o Hoo. specialize (Ho o Hoo). unfold Exact.NumOrds in *. lia.
    + by apply StronglySorted_Sorted.
  - rewrite exact_entries_keys. apply sort_keys_strict, range_nodup.
  - done.
  - done.
  - intros k run He. destruct (Hin k run He) as [Hm ->]. destruct (Hfin k Hm) as (_ & run & Hl & _). unfold run_of. by rewrite Hl.
  - intros k Hk'. rewrite exact_entries_keys, SortedKeys_elem in Hk'. unfold Exact.Lookup. destruct (Exact.m i !! k) eqn:E; [|done]. destruct Hk'. by eexists.
Qed.
End encode_exact.
