(* ===== verification/PreparedFormatSpec.v ===== *)
(** The container: [headLen] and [parseTable] accept exactly the heads of aligned,
    increasing, disjoint sections that fill the file, as [encodeHead] writes them. *)

From S2P Require Import Prelude.
From S2P Require Import Score.
From S2P Require Import ListConfig.
From S2P Require Import Wire.
From S2P Require Import PreparedFormat.
From S2P Require Import PreparedRecordsSpec.
From S2P Require Import PreparedIndexSpec.
From S2P Require Import PreparedIndex.

#[local] Opaque put_le get_le.

(** ** The fixed header *)

Definition fixed_head (minor n : N) : bytes := Magic ++ put16 1 ++ put16 minor ++ put32 0 ++ put32 n ++ put32 0.
Lemma blen_fixed_head minor n : blen (fixed_head minor n) = 24%N.
Proof. unfold fixed_head. rewrite !blen_app, !blen_put16, !blen_put32. done. Qed.

Lemma headLen_raw m minor f n r rest : (m < 2 ^ 16)%N → (minor < 2 ^ 16)%N → (f < 2 ^ 32)%N → (n < 2 ^ 32)%N → (r < 2 ^ 32)%N →
  let b := Magic ++ put16 m ++ put16 minor ++ put32 f ++ put32 n ++ put32 r ++ rest in
  headLen b = (if negb (m =? 1)%N then Err (Incompatible (FormatVersion m minor)) else
    if negb (f =? 0)%N then Err (Incompatible (HeaderFlags f)) else
    _ ← malformed_if ((n =? 0)%N || (MaxSections <? n)%N) (SectionCount n); _ ← malformed_if (negb (r =? 0)%N) HeaderReserved;
    Ok (24 + n * 64 + 32)%N) ∧
  le16 b 8 = Ok m ∧ le16 b 10 = Ok minor ∧ le32 b 16 = Ok n.
Proof.
  intros Hm Hmi Hf Hn Hr b.
  assert (blen Magic = 8%N) as HM by done.
  assert (le16 b 8 = Ok m) as W8 by by apply (read16_at b 8 m Magic (put16 minor ++ put32 f ++ put32 n ++ put32 r ++ rest)).
  assert (le16 b 10 = Ok minor) as W10 by by apply (read16_at b 10 minor (Magic ++ put16 m) (put32 f ++ put32 n ++ put32 r ++ rest)); [unfold b; rewrite <-?app_assoc|rewrite blen_app, blen_put16|].
  assert (le32 b 12 = Ok f) as W12 by by apply (read32_at b 12 f (Magic ++ put16 m ++ put16 minor) (put32 n ++ put32 r ++ rest)); [unfold b; rewrite <-?app_assoc|rewrite !blen_app, !blen_put16|].
  assert (le32 b 16 = Ok n) as W16 by by apply (read32_at b 16 n (Magic ++ put16 m ++ put16 minor ++ put32 f) (put32 r ++ rest)); [unfold b; rewrite <-?app_assoc|rewrite !blen_app, !blen_put16, blen_put32|].
  assert (le32 b 20 = Ok r) as W20 by by apply (read32_at b 20 r (Magic ++ put16 m ++ put16 minor ++ put32 f ++ put32 n) rest); [unfold b; rewrite <-?app_assoc|rewrite !blen_app, !blen_put16, !blen_put32|].
  assert (slice b 0 8 = Ok Magic) as WM by by apply (slice_at b 0 8 [] Magic (put16 m ++ put16 minor ++ put32 f ++ put32 n ++ put32 r ++ rest)).
  split_and!; try done. unfold headLen. destruct (N.ltb_spec (blen b) headerSize) as [Hl|_].
  { exfalso. unfold b in Hl. rewrite !blen_app, !blen_put16, !blen_put32 in Hl. change headerSize with 24%N in Hl. lia. }
  rewrite WM. cbn [mbind result_bind]. rewrite bool_decide_eq_true_2 by done. cbn [negb malformed_if fail_if mbind result_bind].
  rewrite W8. cbn [mbind result_bind]. rewrite W10. cbn [mbind result_bind]. change MajorVersion with 1%N. destruct (negb (m =? 1)%N); [done|].
  rewrite W12. cbn [mbind result_bind]. destruct (negb (f =? 0)%N); [done|]. rewrite W16. cbn [mbind result_bind]. rewrite !bind_malformed.
  destruct ((n =? 0)%N || _); [done|]. rewrite W20. cbn [mbind result_bind]. rewrite bind_malformed. done.
Qed.

Lemma head_shape b : is_bytes b → (24 <= blen b)%N → seg b 0 8 = Magic → ∃ m minor f n r rest,
  b = Magic ++ put16 m ++ put16 minor ++ put32 f ++ put32 n ++ put32 r ++ rest ∧
  (m < 2 ^ 16)%N ∧ (minor < 2 ^ 16)%N ∧ (f < 2 ^ 32)%N ∧ (n < 2 ^ 32)%N ∧ (r < 2 ^ 32)%N ∧ is_bytes rest.
Proof.
  intros Hb Hl Hm. assert (b = Magic ++ drop 8 b) as E.
  { rewrite <-(take_drop 8 b) at 1. f_equal. unfold seg in Hm. by rewrite drop_0 in Hm. }
  assert (is_bytes (drop 8 b)) as Hb1 by by apply Forall_drop. assert (blen (drop 8 b) = (blen b - 8)%N) as Hl1 by (unfold blen; rewrite length_drop; lia).
  destruct (word_prefix 2 _ Hb1) as (m & b2 & E2 & Bm & Hb2); [lia|]. rewrite E2 in E, Hl1. rewrite blen_app, blen_put in Hl1.
  destruct (word_prefix 2 _ Hb2) as (minor & b3 & -> & Bi & Hb3); [lia|]. rewrite blen_app, blen_put in Hl1.
  destruct (word_prefix 4 _ Hb3) as (f & b4 & -> & Bf & Hb4); [lia|]. rewrite blen_app, blen_put in Hl1.
  destruct (word_prefix 4 _ Hb4) as (n & b5 & -> & Bn & Hb5); [lia|]. rewrite blen_app, blen_put in Hl1.
  destruct (word_prefix 4 _ Hb5) as (r & b6 & -> & Br & Hb6); [lia|]. by exists m, minor, f, n, r, b6.
Qed.

Lemma headLen_iff b hl : is_bytes b → headLen b = Ok hl ↔ ∃ minor n rest,
  b = fixed_head minor n ++ rest ∧ (minor < 2 ^ 16)%N ∧ (1 <= n <= 64)%N ∧ hl = (24 + n * 64 + 32)%N.
Proof.
  intros Hb. split.
  - intros H. assert (24 <= blen b ∧ seg b 0 8 = Magic)%N as [Hl Hm].
    { unfold headLen in H. change headerSize with 24%N in H. destruct (N.ltb_spec (blen b) 24); [done|]. apply bind_ok in H as (mg & (_ & _ & ->)%slice_ok & H).
      apply bind_ok in H as (? & Hm%malformed_if_ok & _). split; [done|]. by apply negb_false_iff, bool_decide_eq_true in Hm. }
    destruct (head_shape b Hb Hl Hm) as (m & minor & f & n & r & rest & -> & Bm & Bi & Bf & Bn & Br & _).
    destruct (headLen_raw m minor f n r rest Bm Bi Bf Bn Br) as [E _]. rewrite E in H. rewrite !bind_malformed in H.
    destruct (N.eqb_spec m 1) as [->|]; [|done]. destruct (N.eqb_spec f 0) as [->|]; [|done]. cbn [negb] in H.
    destruct ((n =? 0)%N || (MaxSections <? n)%N) eqn:En; [done|]. destruct (N.eqb_spec r 0) as [->|]; [|done]. injection H as <-.
    change MaxSections with 64%N in En. exists minor, n, rest. unfold fixed_head. rewrite <-!app_assoc. split_and!; (done || lia).
  - intros (minor & n & rest & -> & Hmi & Hn & ->). unfold fixed_head. rewrite <-!app_assoc.
    destruct (headLen_raw 1 minor 0 n 0 rest) as [E _]; [done|done|done|lia|done|]. rewrite E, !bind_malformed. change MaxSections with 64%N.
    destruct ((n =? 0)%N || (64 <? n)%N) eqn:En; [lia|]. done.
Qed.

(** ** Entries *)

Definition sec_ok (s : section) : Prop :=
  (s_kind s < 2 ^ 32)%N ∧ N.ldiff (s_flags s) 1 = 0%N ∧ (s_flags s < 2 ^ 32)%N ∧ (s_off s < 2 ^ 64)%N ∧ (s_length s < 2 ^ 64)%N ∧ blen (s_sum s) = 32%N.
Definition raw_entry (kind flags off len : N) (sum : bytes) (r : N) : bytes := put32 kind ++ put32 flags ++ put64 off ++ put64 len ++ sum ++ put64 r.
Lemma blen_raw_entry kind flags off len sum r : blen sum = 32%N → blen (raw_entry kind flags off len sum r) = 64%N.
Proof. intros E. unfold raw_entry. rewrite !blen_app, !blen_put32, !blen_put64, E. done. Qed.
Lemma put_entry_raw s : put_entry s = raw_entry (s_kind s) (s_flags s) (s_off s) (s_length s) (s_sum s) 0.
Proof. done. Qed.

Lemma read_entry_raw kind flags off len sum r rest i : (kind < 2 ^ 32)%N → (flags < 2 ^ 32)%N → (off < 2 ^ 64)%N → (len < 2 ^ 64)%N → blen sum = 32%N → (r < 2 ^ 64)%N →
  read_entry (raw_entry kind flags off len sum r ++ rest) i =
  _ ← malformed_if (negb (r =? 0)%N) (SectionReserved i); _ ← malformed_if (negb (N.ldiff flags 1 =? 0)%N) (SectionFlags i); Ok (mkSection kind flags off len sum).
Proof.
  intros Bk Bf Bo Bl Es Br. unfold read_entry. set (e := raw_entry kind flags off len sum r ++ rest).
  assert (e = put32 kind ++ put32 flags ++ put64 off ++ put64 len ++ sum ++ put64 r ++ rest) as E by (unfold e, raw_entry; by rewrite <-!app_assoc).
  rewrite (read32_at e 0 kind [] _ E) by done. cbn [mbind result_bind].
  rewrite (read32_at e 4 flags (put32 kind) _ E) by done. cbn [mbind result_bind].
  rewrite (read64_at e 8 off (put32 kind ++ put32 flags) (put64 len ++ sum ++ put64 r ++ rest)) by (rewrite ?E, ?blen_app, ?blen_put32, <-?app_assoc; done). cbn [mbind result_bind].
  rewrite (read64_at e 16 len (put32 kind ++ put32 flags ++ put64 off) (sum ++ put64 r ++ rest)) by (rewrite ?E, ?blen_app, ?blen_put32, ?blen_put64, <-?app_assoc; done). cbn [mbind result_bind].
  rewrite (slice_at e 24 56 (put32 kind ++ put32 flags ++ put64 off ++ put64 len) sum (put64 r ++ rest)) by (rewrite ?E, ?blen_app, ?blen_put32, ?blen_put64, ?Es, <-?app_assoc; done). cbn [mbind result_bind].
  rewrite (read64_at e 56 r (put32 kind ++ put32 flags ++ put64 off ++ put64 len ++ sum) rest) by (rewrite ?E, ?blen_app, ?blen_put32, ?blen_put64, ?Es, <-?app_assoc; done). cbn [mbind result_bind].
  done.
Qed.
Lemma entry_shape e : is_bytes e → (64 <= blen e)%N → ∃ kind flags off len sum r rest, e = raw_entry kind flags off len sum r ++ rest ∧
  (kind < 2 ^ 32)%N ∧ (flags < 2 ^ 32)%N ∧ (off < 2 ^ 64)%N ∧ (len < 2 ^ 64)%N ∧ blen sum = 32%N ∧ (r < 2 ^ 64)%N ∧ is_bytes rest.
Proof.
  intros Hb Hl. destruct (word_prefix 4 e Hb) as (kind & b1 & -> & Bk & Hb1); [lia|]. rewrite blen_app, blen_put in Hl.
  destruct (word_prefix 4 _ Hb1) as (flags & b2 & -> & Bf & Hb2); [lia|]. rewrite blen_app, blen_put in Hl.
  destruct (word_prefix 8 _ Hb2) as (off & b3 & -> & Bo & Hb3); [lia|]. rewrite blen_app, blen_put in Hl.
  destruct (word_prefix 8 _ Hb3) as (len & b4 & -> & Bl & Hb4); [lia|]. rewrite blen_app, blen_put in Hl.
  assert (blen (take 32 b4) = 32%N) as Es by (unfold blen in *; rewrite length_take; lia). assert (is_bytes (drop 32 b4)) as Hb5 by by apply Forall_drop.
  destruct (word_prefix 8 _ Hb5) as (r & rest & E & Br & Hr); [unfold blen in *; rewrite length_drop; lia|].
  exists kind, flags, off, len, (take 32 b4), r, rest. split_and!; try done. unfold raw_entry. rewrite <-!app_assoc.
  rewrite <-(take_drop 32 b4) at 1. by rewrite E.
Qed.
Lemma read_entry_iff e i s : is_bytes e → (64 <= blen e)%N → read_entry e i = Ok s ↔ sec_ok s ∧ seg e 0 64 = put_entry s.
Proof.
  intros Hb Hl. split.
  - destruct (entry_shape e Hb Hl) as (kind & flags & off & len & sum & r & rest & -> & Bk & Bf & Bo & Bl & Es & Br & _).
    rewrite read_entry_raw by done. rewrite !bind_malformed. destruct (N.eqb_spec r 0) as [->|]; [|done]. destruct (N.eqb_spec (N.ldiff flags 1) 0) as [Hf|]; [|done].
    cbn [negb]. intros [= <-]. split; [done|]. rewrite put_entry_raw. rewrite seg_app_l by (rewrite blen_raw_entry by done; lia). apply seg_whole. by rewrite blen_raw_entry.
  - intros [(Bk & Hf & Bf & Bo & Bl & Es) E]. assert (e = put_entry s ++ drop 64 e) as ->.
    { rewrite <-(take_drop 64 e) at 1. f_equal. unfold seg in E. by rewrite drop_0 in E. }
    rewrite put_entry_raw, read_entry_raw, !bind_malformed by done. rewrite Hf. by destruct s.
Qed.

(** ** The table *)

Definition sec_end (s : section) : N := (s_off s + s_length s)%N.
(** The position of a section after [prev] in a file of [fs] bytes. *)
Definition entry_fits (hl fs : N) (prev : list section) (s : section) : Prop :=
  s_kind s ∉ s_kind <$> prev ∧ (s_off s mod 32 = 0)%N ∧ (sec_end s <= fs)%N ∧
  match last prev with None => (aligned hl <= s_off s)%N | Some p => (s_off p < s_off s)%N ∧ (sec_end p <= s_off s)%N end.
Fixpoint entries_fit (hl fs : N) (prev ss : list section) : Prop :=
  match ss with [] => True | s :: ss => sec_ok s ∧ entry_fits hl fs prev s ∧ entries_fit hl fs (prev ++ [s]) ss end.
Definition last_end (d : N) (ss : list section) : N := from_option sec_end d (last ss).

Lemma check_entry_ok s i hl prev pe fs : sec_ok s → (fs <= max_int)%N → pe = last_end 0 prev →
  check_entry s i hl prev pe fs = Ok () ↔ entry_fits hl fs prev s.
Proof.
  intros (Bk & Hf & Bf & Bo & Bl & Es) Hfs ->. unfold max_int in Hfs. unfold check_entry, entry_fits, sec_end. rewrite !bind_malformed.
  case_bool_decide as Hk; [split; [done|by intros [? _]]|]. change Align with 32%N.
  destruct (N.eqb_spec (s_off s mod 32) 0) as [Ha|Ha]; cbn [negb]; [|split; [done|by intros (_ & ? & _)]].
  destruct (N.ltb_spec (2 ^ 64 - 1 - s_off s) (s_length s)) as [Ho|Ho]; [split; [done|intros (_ & _ & ? & _); lia]|].
  unfold s_end. rewrite add64_small by lia. destruct (N.ltb_spec fs (s_off s + s_length s)) as [Hp|Hp]; [split; [done|intros (_ & _ & ? & _); lia]|].
  unfold last_end. destruct (last prev) as [p|]; cbn [from_option].
  - rewrite bind_malformed. destruct (N.leb_spec (s_off s) (s_off p)); [split; [done|intros (_ & _ & _ & ? & _); lia]|]. rewrite malformed_if_ok. unfold sec_end.
    destruct (N.ltb_spec (s_off s) (s_off p + s_length p)); (split; [done|intros (_ & _ & _ & _ & ?)] || (split; [intros _; split_and!|])); (done || lia).
  - rewrite malformed_if_ok. fold (aligned hl). destruct (N.ltb_spec (s_off s) (aligned hl)); [split; [done|intros (_ & _ & _ & ?); lia]|]. split; [by intros _|done].
Qed.

Lemma last_end_snoc d prev s ss : last_end d ((prev ++ [s]) ++ ss) = last_end (sec_end s) ss.
Proof. unfold last_end. rewrite last_app. destruct (last ss); [done|]. by rewrite last_snoc. Qed.
Lemma read_entries_ok fuel i head hl fs prev pe res e : is_bytes head → (24 + 64 * (i + N.of_nat fuel) <= blen head)%N → (fs <= max_int)%N → pe = last_end 0 prev →
  read_entries fuel i head hl fs prev pe = Ok (res, e) ↔
  ∃ ss, length ss = fuel ∧ seg head (24 + 64 * i) (24 + 64 * (i + N.of_nat fuel)) = ss ≫= put_entry ∧ entries_fit hl fs prev ss ∧ res = prev ++ ss ∧ e = last_end pe ss.
Proof.
  intros Hb Hl Hfs. revert i prev pe Hl. induction fuel as [|fuel IH]; intros i prev pe Hl Hpe; cbn [read_entries].
  { split.
    - intros [= <- <-]. exists []. rewrite app_nil_r. split_and!; try done. unfold seg. by replace (N.to_nat _) with 0 by lia.
    - intros (ss & Hs & _ & _ & -> & ->). destruct ss; [|done]. by rewrite app_nil_r. }
  change headerSize with 24%N. change tableEntrySize with 64%N.
  rewrite (proj2 (slice_ok head (24 + i * 64) (blen head) (seg head (24 + i * 64) (blen head)))) by (split_and!; (done || lia)). cbn [mbind result_bind].
  set (en := seg head (24 + i * 64) (blen head)). assert (is_bytes en) as Hen by by apply is_bytes_seg. assert (64 <= blen en)%N as Hle by (unfold en; rewrite blen_seg by lia; lia).
  assert (∀ hi, (hi <= blen en)%N → seg en 0 hi = seg head (24 + 64 * i) (24 + 64 * i + hi)) as Hseg.
  { intros hi Hh. unfold en in *. rewrite blen_seg in Hh by lia. rewrite seg_seg by lia. f_equal; lia. }
  assert (∀ s, sec_ok s → blen (put_entry s) = 64%N) as H64 by (intros s (_ & _ & _ & _ & _ & ?); by rewrite put_entry_raw, blen_raw_entry).
  split.
  - intros (s & [Hs Hput]%read_entry_iff & ([] & Hc & H)%bind_ok)%bind_ok; [|done..]. rewrite Hseg in Hput by lia. apply check_entry_ok in Hc; [|done..].
    apply IH in H as (ss & Hls & Hss & Hfit & -> & ->); [|lia|].
    + exists (s :: ss). rewrite bind_cons. split_and!; [by simpl; rewrite Hls| |done|by rewrite <-app_assoc|].
      * rewrite (seg_split head _ (24 + 64 * i + 64)) by lia. rewrite Hput. f_equal. rewrite <-Hss. f_equal; lia.
      * unfold last_end. rewrite last_cons. unfold s_end. destruct Hs as (_ & _ & _ & Bo & _), Hc as (_ & _ & He & _). unfold sec_end, max_int in *. rewrite add64_small by lia. by destruct (last ss).
    + unfold last_end. rewrite last_snoc. unfold s_end, sec_end. destruct Hc as (_ & _ & He & _). unfold sec_end, max_int in *. rewrite add64_small by lia. done.
  - intros (ss & Hls & Hss & Hfit & -> & ->). destruct ss as [|s ss]; [done|]. destruct Hfit as (Hs & Hc & Hfit). rewrite bind_cons in Hss.
    apply seg_app_iff in Hss as [H1 H2].
    + rewrite (H64 s Hs) in H1, H2. apply bind_ok. exists s. split; [apply read_entry_iff; [done..|]; split; [done|]; by rewrite Hseg by lia|].
      apply bind_ok. exists (). split; [by apply check_entry_ok|]. pose proof Hc as (_ & _ & He & _). unfold sec_end, max_int in *.
      apply IH; [lia|unfold last_end; rewrite last_snoc; unfold s_end, sec_end; cbn [from_option]; by rewrite add64_small by lia|].
      exists ss. split_and!; [by injection Hls| |done|by rewrite <-app_assoc|].
      * rewrite <-H2. f_equal; lia.
      * unfold last_end. rewrite last_cons. unfold s_end. rewrite add64_small by lia. by destruct (last ss).
    + rewrite blen_app, (H64 s Hs). assert (blen (ss ≫= put_entry) = 64 * N.of_nat (length ss))%N as ->; [|injection Hls as <-; lia].
      clear -Hfit H64. revert prev s Hfit. induction ss as [|s' ss IH]; intros prev s Hfit; [done|]. destruct Hfit as (Hs & _ & Hfit). rewrite bind_cons, blen_app, (H64 s' Hs).
      rewrite (IH (prev ++ [s]) s' Hfit). cbn [length]. lia.
    + lia.
Qed.

Definition kinds (ss : list section) : list N := s_kind <$> ss.
(** The sections an artifact must and may hold. *)
Definition kinds_ok (ss : list section) : Prop :=
  (∀ s, s ∈ ss → knownKind (s_kind s) = false → s_flags s = 0%N) ∧
  KindConfig ∈ kinds ss ∧ KindBuild ∈ kinds ss ∧ KindRecords ∈ kinds ss ∧ KindIDs ∈ kinds ss ∧
  (KindNgram ∈ kinds ss ↔ KindExact ∉ kinds ss) ∧ (KindExactCompanion ∈ kinds ss → KindNgram ∈ kinds ss).
Definition table_ok (fs : N) (ss : list section) : Prop :=
  1 ≤ length ss ≤ 64 ∧ entries_fit (56 + 64 * N.of_nat (length ss)) fs [] ss ∧ last_end 0 ss = fs ∧ kinds_ok ss.
Definition head_bytes (minor : N) (ss : list section) (digest : bytes) : bytes := fixed_head minor (N.of_nat (length ss)) ++ (ss ≫= put_entry) ++ digest.
Definition table_of_head (minor : N) (ss : list section) (digest : bytes) : table := mkTable 1 minor ss (56 + 64 * N.of_nat (length ss)) digest.

Lemma ldiff_one f : N.ldiff f 1 = 0%N → N.land f 1 = 0%N → f = 0%N.
Proof.
  intros H1 H2. apply N.bits_inj_0. intros i. assert (N.testbit (N.ldiff f 1) i = false) as E1 by (rewrite H1; apply N.bits_0).
  assert (N.testbit (N.land f 1) i = false) as E2 by (rewrite H2; apply N.bits_0). rewrite N.ldiff_spec in E1. rewrite N.land_spec in E2.
  destruct (N.testbit f i); [|done]. destruct (N.testbit 1 i); done.
Qed.
Lemma check_required_ok hl fs prev ss : entries_fit hl fs prev ss →
  check_required ss = Ok () ↔ ∀ s, s ∈ ss → knownKind (s_kind s) = false → s_flags s = 0%N.
Proof.
  revert prev. induction ss as [|s ss IH]; intros prev Hf; cbn [check_required].
  { split; [|done]. intros _ s Hs. by apply elem_of_nil in Hs. }
  destruct Hf as ((_ & Hfl & _) & _ & Hf). specialize (IH _ Hf). destruct (knownKind (s_kind s)) eqn:Ek; cbn [negb andb].
  - rewrite IH. split; [|intros H x Hx; by apply H; right]. intros H x [->|Hx]%elem_of_cons; [congruence|by apply H].
  - destruct (N.eqb_spec (N.land (s_flags s) flagRequired) 0) as [E|E]; cbn [negb].
    + rewrite IH. split; [|intros H x Hx; by apply H; right]. intros H x [->|Hx]%elem_of_cons; [intros _; by apply ldiff_one|by apply H].
    + split; [done|]. intros H. specialize (H s ltac:(by left) Ek). rewrite H in E. done.
Qed.
Lemma check_present_ok ss ks : check_present ss ks = Ok () ↔ Forall (λ k, k ∈ kinds ss) ks.
Proof.
  induction ks as [|k ks IH]; cbn [check_present]; [split; [constructor|done]|]. rewrite bind_malformed, Forall_cons. unfold has_kind, kinds.
  case_bool_decide; cbn [negb]; [|split; [done|by intros [? _]]]. rewrite IH. tauto.
Qed.
Lemma blen_entries hl fs prev ss : entries_fit hl fs prev ss → blen (ss ≫= put_entry) = (64 * N.of_nat (length ss))%N.
Proof.
  revert prev. induction ss as [|s ss IH]; intros prev Hf; [done|]. destruct Hf as ((_ & _ & _ & _ & _ & Es) & _ & Hf). rewrite bind_cons, blen_app, (IH _ Hf), put_entry_raw, blen_raw_entry by done.
  cbn [length]. lia.
Qed.

(** ** Reading the table of a buffer *)

Definition read_table_of (buf : bytes) : result prepared_error table :=
  hl ← headLen buf;
  _ ← malformed_if (blen buf <? hl)%N TruncatedTable;
  head ← slice buf 0 hl;
  parseTable head (blen buf).

Lemma fixed_head_reads minor n rest : (minor < 2 ^ 16)%N → (n < 2 ^ 32)%N →
  le16 (fixed_head minor n ++ rest) 8 = Ok 1%N ∧ le16 (fixed_head minor n ++ rest) 10 = Ok minor ∧ le32 (fixed_head minor n ++ rest) 16 = Ok n.
Proof.
  intros Hm Hn. unfold fixed_head. rewrite <-!app_assoc. by destruct (headLen_raw 1 minor 0 n 0 rest) as (_ & ? & ? & ?).
Qed.

Lemma parse_table_raw minor n ents digest fs : (minor < 2 ^ 16)%N → (1 <= n <= 64)%N → blen ents = (64 * n)%N → blen digest = 32%N → (56 + 64 * n <= fs)%N →
  is_bytes (fixed_head minor n ++ ents ++ digest) →
  parseTable (fixed_head minor n ++ ents ++ digest) fs =
  '(ss, prevEnd) ← read_entries (N.to_nat n) 0 (fixed_head minor n ++ ents ++ digest) (56 + 64 * n) fs [] 0;
  _ ← malformed_if (negb (prevEnd =? fs)%N) WrongEnd;
  _ ← check_required ss;
  _ ← check_present ss [KindConfig; KindBuild; KindRecords; KindIDs];
  _ ← malformed_if (bool_decide (has_kind ss KindNgram = has_kind ss KindExact)) IndexSections;
  _ ← malformed_if (has_kind ss KindExactCompanion && negb (has_kind ss KindNgram)) CompanionAlone;
  Ok (mkTable 1 minor ss (56 + 64 * n) digest).
Proof.
  intros Hm Hn He Hd Hfs Hb. set (head := fixed_head minor n ++ ents ++ digest) in *.
  assert (blen head = 56 + 64 * n)%N as Hl by (unfold head; rewrite !blen_app, blen_fixed_head, He, Hd; lia).
  destruct (fixed_head_reads minor n (ents ++ digest)) as (W8 & W10 & W16); [done|lia|]. fold head in W8, W10, W16.
  unfold parseTable. rewrite (proj2 (headLen_iff head (56 + 64 * n)%N Hb)) by (exists minor, n, (ents ++ digest); split_and!; (done || lia)). cbn [mbind result_bind].
  rewrite bind_malformed. destruct (N.ltb_spec fs (56 + 64 * n)); [lia|]. rewrite Hl. destruct (N.ltb_spec (56 + 64 * n) (56 + 64 * n)); [lia|]. cbn [orb].
  rewrite W8. cbn [mbind result_bind]. rewrite W10. cbn [mbind result_bind]. change digestSize with 32%N.
  rewrite (slice_at head (56 + 64 * n - 32) (56 + 64 * n) (fixed_head minor n ++ ents) digest []) by (unfold head; rewrite ?app_nil_r, <-?app_assoc, ?blen_app, ?blen_fixed_head, ?He, ?Hd; (done || lia)).
  cbn [mbind result_bind]. rewrite W16. cbn [mbind result_bind]. done.
Qed.

Lemma read_table_of_iff buf tab : is_bytes buf → (blen buf <= max_int)%N → read_table_of buf = Ok tab ↔
  ∃ minor ss digest rest, buf = head_bytes minor ss digest ++ rest ∧ (minor < 2 ^ 16)%N ∧ blen digest = 32%N ∧ table_ok (blen buf) ss ∧ tab = table_of_head minor ss digest.
Proof.
  intros Hb Hl. unfold read_table_of. split.
  - intros (hl & (minor & n & rest & E & Hm & Hn & ->)%headLen_iff & H)%bind_ok; [|done]. rewrite bind_malformed in H.
    destruct (N.ltb_spec (blen buf) (24 + n * 64 + 32)) as [|Hhl]; [done|].
    assert (blen buf = 24 + blen rest)%N as Hbl by (rewrite E, blen_app, blen_fixed_head; lia).
    set (ents := seg rest 0 (64 * n)). set (digest := seg rest (64 * n) (64 * n + 32)).
    assert (blen ents = 64 * n)%N as He by (unfold ents; rewrite blen_seg by lia; lia). assert (blen digest = 32)%N as Hd by (unfold digest; rewrite blen_seg by lia; lia).
    assert (rest = ents ++ digest ++ seg rest (64 * n + 32) (blen rest)) as Er.
    { unfold ents, digest. rewrite <-(seg_all rest) at 1. rewrite (seg_split rest 0 (64 * n)) by lia. f_equal. by rewrite (seg_split rest (64 * n) (64 * n + 32)) by lia. }
    assert (buf = (fixed_head minor n ++ ents ++ digest) ++ seg rest (64 * n + 32) (blen rest)) as E' by (rewrite E, Er at 1; by rewrite <-!app_assoc).
    rewrite (slice_at buf 0 (24 + n * 64 + 32) [] (fixed_head minor n ++ ents ++ digest) _ E') in H by (rewrite ?blen_app, ?blen_fixed_head, ?He, ?Hd; (done || lia)). cbn [mbind result_bind] in H.
    assert (is_bytes (fixed_head minor n ++ ents ++ digest)) as Hbh by (rewrite E' in Hb; by apply is_bytes_app in Hb as [? _]).
    rewrite parse_table_raw in H by (done || lia). apply bind_ok in H as ([ss pe] & Hre & H). rewrite !bind_malformed in H.
    destruct (N.eqb_spec pe (blen buf)) as [->|]; [|done]. cbn [negb] in H.
    apply read_entries_ok in Hre as (ss' & Hls & Hseg & Hfit & -> & Hend); [|done|rewrite !blen_app, blen_fixed_head, He, Hd; lia|done|done]. cbn [app] in *.
    apply bind_ok in H as ([] & Hreq & H). apply bind_ok in H as ([] & Hpres & H).
    case_bool_decide as Hidx; [done|]. destruct (has_kind ss' KindExactCompanion && _) eqn:Hc; [done|]. injection H as <-.
    pose proof (proj1 (check_required_ok _ _ _ _ Hfit) Hreq) as Hreq1. apply check_present_ok in Hpres. rewrite !Forall_cons in Hpres. destruct Hpres as (P1 & P2 & P3 & P4 & _).
    assert (n = N.of_nat (length ss')) as -> by lia. exists minor, ss', digest, (seg rest (64 * N.of_nat (length ss') + 32) (blen rest)).
    assert (ents = ss' ≫= put_entry) as He'.
    { rewrite <-Hseg. symmetry. rewrite seg_app_r by (rewrite blen_fixed_head; lia). rewrite blen_fixed_head. rewrite seg_app_l by lia.
      replace (24 + 64 * 0 - 24)%N with 0%N by lia. apply seg_whole. lia. }
    split_and!; try done.
    + unfold head_bytes. by rewrite <-He'.
    + unfold table_ok. rewrite <-Hend. split_and!; try done; try lia. unfold kinds_ok. split_and!; try done.
      * unfold has_kind in Hidx. unfold kinds. case_bool_decide; case_bool_decide; (done || tauto).
      * unfold has_kind in Hc. unfold kinds. intros Hk. rewrite bool_decide_eq_true_2 in Hc by done. by apply negb_false_iff, bool_decide_eq_true in Hc.
  - intros (minor & ss & digest & rest & E & Hm & Hd & (Hls & Hfit & Hend & (Hreq & P1 & P2 & P3 & P4 & Hidx & Hcomp)) & ->).
    pose proof (blen_entries _ _ _ _ Hfit) as He. set (n := N.of_nat (length ss)) in *. unfold head_bytes in E. fold n in E.
    assert (blen buf = 56 + 64 * n + blen rest)%N as Hbl by (rewrite E, !blen_app, blen_fixed_head, He, Hd; lia).
    apply bind_ok. exists (24 + n * 64 + 32)%N. split; [apply headLen_iff; [done|]; exists minor, n, ((ss ≫= put_entry) ++ digest ++ rest); rewrite E, <-!app_assoc; split_and!; (done || lia)|].
    rewrite bind_malformed. destruct (N.ltb_spec (blen buf) (24 + n * 64 + 32)); [lia|].
    rewrite (slice_at buf 0 (24 + n * 64 + 32) [] (fixed_head minor n ++ (ss ≫= put_entry) ++ digest) rest E) by (rewrite ?blen_app, ?blen_fixed_head, ?He, ?Hd; (done || lia)). cbn [mbind result_bind].
    assert (is_bytes (fixed_head minor n ++ (ss ≫= put_entry) ++ digest)) as Hbh by (rewrite E in Hb; by apply is_bytes_app in Hb as [? _]).
    rewrite parse_table_raw by (done || lia).
    rewrite (proj2 (read_entries_ok (N.to_nat n) 0 (fixed_head minor n ++ (ss ≫= put_entry) ++ digest) (56 + 64 * n) (blen buf) [] 0 ss (blen buf) Hbh ltac:(rewrite !blen_app, blen_fixed_head, He, Hd; lia) Hl eq_refl)).
    + cbn [mbind result_bind]. rewrite bind_malformed, N.eqb_refl. cbn [negb]. rewrite (proj2 (check_required_ok _ _ _ _ Hfit)) by done. cbn [mbind result_bind].
      rewrite (proj2 (check_present_ok ss _)) by (by repeat constructor). cbn [mbind result_bind]. rewrite !bind_malformed. unfold has_kind. fold (kinds ss).
      rewrite bool_decide_eq_false_2 by (case_bool_decide; case_bool_decide; (done || tauto)).
      destruct (bool_decide (KindExactCompanion ∈ kinds ss)) eqn:Hc; cbn [andb]; [|done]. apply bool_decide_eq_true in Hc. by rewrite bool_decide_eq_true_2 by auto.
    + exists ss. split_and!; try done; [unfold n; lia|]. rewrite seg_app_r by (rewrite blen_fixed_head; lia). rewrite blen_fixed_head, seg_app_l by lia.
      replace (24 + 64 * 0 - 24)%N with 0%N by lia. apply seg_whole. lia.
Qed.
