(* ===== verification/PreparedJSON.v ===== *)
(** The JSON of a prepared artifact: what [encoding/json] writes for the canonical
    line of a record ([canonEntry] of [encode.go]) and for the config and build
    sections.  The writers are definitions; the decoders, and the compaction of a raw
    value, are the interface [JSONLib] with their documented behaviour as laws. *)

From S2P Require Import Prelude.
From S2P Require Import Runtime.
From S2P Require Import Strings.
From S2P Require Import Payload.
From S2P Require Import Filter.
From S2P Require Import ListModel.
From S2P Require Import PreparedRecords.
From S2P Require Import PreparedRecordsSpec.

(** ** Strings *)

(** One decoded rune of a JSON string with HTML escaping. *)
Definition go_chunk (rc : N * bytes) : bytes :=
  match rc.2 with
  | [c] =>
      if (128 <=? c)%N then $"\ufffd"
      else if (c =? c_dquote)%N || (c =? c_backslash)%N then [c_backslash; c]
      else if (c =? 8)%N then [c_backslash; c_lowB]
      else if (c =? 12)%N then [c_backslash; c_lowF]
      else if (c =? c_nl)%N then [c_backslash; c_lowN]
      else if (c =? c_cr)%N then [c_backslash; c_lowR]
      else if (c =? c_tab)%N then [c_backslash; c_lowT]
      else if (c <? 32)%N || bool_decide (c ∈ $"<>&") then [c_backslash; c_lowU; c_zero; c_zero; hex_char (c / 16); hex_char (c mod 16)]
      else [c]
  | chunk => if (rc.1 =? 8232)%N || (rc.1 =? 8233)%N then $"\u202" ++ [hex_char (rc.1 mod 16)] else chunk
  end.
Definition go_escape (s : bytes) : bytes := decode s ≫= go_chunk.
Definition go_string (s : bytes) : bytes := [c_dquote] ++ go_escape s ++ [c_dquote].
Definition go_int (z : Z) : bytes := if (z <? 0)%Z then $"-" ++ itoa (Z.to_N (- z)) else itoa (Z.to_N z).

(** ** Documents *)

Definition go_strings (ks : list bytes) : bytes :=
  match ks with [] => $"[]" | k :: ks => $"[" ++ go_string k ++ (ks ≫= λ k, $"," ++ go_string k) ++ $"]" end.
(** [canonEntry]; the payload is already compact. *)
Definition canon_line (r : Rec) : bytes :=
  $"{" ++ go_string ($"id") ++ $":" ++ go_string (r_ID r) ++ $"," ++ go_string ($"keys") ++ $":" ++
  (match r_Keys r with None => $"null" | Some ks => go_strings ks end) ++
  (if bool_decide (r_Payload r = []) then [] else $"," ++ go_string ($"payload") ++ $":" ++ r_Payload r) ++ $"}".

Record configDoc := mkConfigDoc { cd_Name : bytes; cd_AnalyzerDigest : bytes; cd_ConfigDigest : bytes; cd_List : bytes }.
Record BuildInfo := mkBuildInfo {
  BaseID : bytes; bi_Entries : Z; bi_Keys : Z; bi_DroppedKeys : Z; bi_KeylessEntries : Z; bi_Collapsed : Z;
  Source : bytes; CreatedAt : bytes; InputSHA256 : bytes }.
(** The part of the engine's [ListConfig] the format depends on. *)
Record listConfigMirror := mkMirror { mi_Mode : bytes; mi_Grams : list Z; mi_StripSpaces : bool; mi_ExactCompanion : bool }.

Definition member (name value : bytes) : bytes := $"," ++ go_string name ++ $":" ++ value.
Definition string_member (name value : bytes) : bytes := if bool_decide (value = []) then [] else member name (go_string value).
Definition build_json (b : BuildInfo) : bytes :=
  $"{" ++ go_string ($"base_id") ++ $":" ++ go_string (BaseID b) ++
  member ($"entries") (go_int (bi_Entries b)) ++ member ($"keys") (go_int (bi_Keys b)) ++
  member ($"dropped_keys") (go_int (bi_DroppedKeys b)) ++ member ($"keyless_entries") (go_int (bi_KeylessEntries b)) ++
  (if (bi_Collapsed b =? 0)%Z then [] else member ($"collapsed") (go_int (bi_Collapsed b))) ++
  string_member ($"source") (Source b) ++ string_member ($"created_at") (CreatedAt b) ++ string_member ($"input_sha256") (InputSHA256 b) ++ $"}".
(** The raw [List] is compact. *)
Definition config_json (d : configDoc) : bytes :=
  $"{" ++ go_string ($"name") ++ $":" ++ go_string (cd_Name d) ++ member ($"analyzer_digest") (go_string (cd_AnalyzerDigest d)) ++
  member ($"config_digest") (go_string (cd_ConfigDigest d)) ++ member ($"list") (cd_List d) ++ $"}".

(** ** Decoding and compaction *)

Class JSONLib := {
  compact : bytes → option bytes;             (* json.Marshal of a non-empty RawMessage *)
  json_valid : bytes → bool;                  (* json.Valid *)
  decode_config : bytes → option configDoc;   (* a Decoder that refuses unknown fields, with nothing left *)
  decode_build : bytes → option BuildInfo;
  decode_mirror : bytes → option listConfigMirror;  (* json.Unmarshal *)
}.

Section docs.
Context {JL : JSONLib}.

Definition CanonicalPayload (p : bytes) : option bytes := if bool_decide (p = []) then Some [] else compact p.
(** [json.Marshal(&configDoc{...})]: a raw value that is not JSON is an error. *)
Definition marshal_configDoc (d : configDoc) : option bytes :=
  l ← compact (cd_List d); Some (config_json (mkConfigDoc (cd_Name d) (cd_AnalyzerDigest d) (cd_ConfigDigest d) l)).
Definition marshal_build (b : BuildInfo) : bytes := build_json b.

(** [strictJSON] *)
Definition strict_config (b : bytes) : option configDoc :=
  d ← decode_config b; re ← marshal_configDoc d; if bool_decide (re = b) then Some d else None.
Definition strict_build (b : bytes) : option BuildInfo :=
  d ← decode_build b; if bool_decide (marshal_build d = b) then Some d else None.
End docs.

(** What a decoder makes of a string that was marshaled: U+FFFD for each invalid byte. *)
Definition sanitize (s : bytes) : bytes := string_of_runes (runes s).
Definition sane_config (d : configDoc) (l : bytes) : configDoc :=
  mkConfigDoc (sanitize (cd_Name d)) (sanitize (cd_AnalyzerDigest d)) (sanitize (cd_ConfigDigest d)) l.
Definition sane_build (b : BuildInfo) : BuildInfo :=
  mkBuildInfo (sanitize (BaseID b)) (bi_Entries b) (bi_Keys b) (bi_DroppedKeys b) (bi_KeylessEntries b) (bi_Collapsed b)
    (sanitize (Source b)) (sanitize (CreatedAt b)) (sanitize (InputSHA256 b)).

Definition int64_ok (z : Z) : Prop := (- 2 ^ 63 <= z < 2 ^ 63)%Z.
Definition build_ints (b : BuildInfo) : Prop :=
  Forall int64_ok [bi_Entries b; bi_Keys b; bi_DroppedKeys b; bi_KeylessEntries b; bi_Collapsed b].

(** Compaction leaves one line, again compact, of the same value; a document that was
    written reads back; and what is decoded into a Go int is one. *)
Class JSONLaws (JL : JSONLib) := {
  compact_line : ∀ p c, compact p = Some c → c ≠ [] ∧ c_nl ∉ c;
  compact_idem : ∀ p c, compact p = Some c → compact c = Some c;
  compact_valid : ∀ p, p ≠ [] → json_valid p = bool_decide (is_Some (compact p));
  compact_nil : compact [] = None;
  decode_config_spec : ∀ d l, compact (cd_List d) = Some l →
    decode_config (config_json (mkConfigDoc (cd_Name d) (cd_AnalyzerDigest d) (cd_ConfigDigest d) l)) = Some (sane_config d l);
  decode_build_spec : ∀ b, build_ints b → decode_build (build_json b) = Some (sane_build b);
  decode_build_ints : ∀ p b, decode_build p = Some b → build_ints b;
  decode_mirror_spec : ∀ p c, compact p = Some c → decode_mirror c = decode_mirror p;
}.

(** * The canonical line of a record is one line that determines the record: what the
    logical base identity hashes is an injective encoding of the records. *)

(** ** Strings *)

(** One chunk is scanned over whole, decodes to its rune, and has no control character. *)
Lemma go_chunk_spec rc : chunk_ok rc →
  (∀ t, raw_inner (go_chunk rc ++ t) = '(inner, rest) ← raw_inner t; Some (go_chunk rc ++ inner, rest)) ∧
  (∀ fuel t, unquote_fuel (S fuel) (go_chunk rc ++ t) = encode_rune rc.1 ++ unquote_fuel fuel t) ∧
  1 ≤ length (go_chunk rc) ∧ Forall (λ c, (32 <= c)%N) (go_chunk rc).
Proof.
  intros [(c & -> & Hc)|[(c & -> & Hc)|(c & cs & Hrc & Hne & Hhi & Hat)]].
  - assert (∀ n, n < 128 → (λ c,
      (∀ t, raw_inner (go_chunk (c, [c]) ++ t) = '(inner, rest) ← raw_inner t; Some (go_chunk (c, [c]) ++ inner, rest)) ∧
      (∀ fuel t, unquote_fuel (S fuel) (go_chunk (c, [c]) ++ t) = encode_rune c ++ unquote_fuel fuel t) ∧
      1 ≤ length (go_chunk (c, [c])) ∧ Forall (λ c, (32 <= c)%N) (go_chunk (c, [c]))) (N.of_nat n)) as H.
    { intros n Hn. do 128 (destruct n as [|n]; [split_and!; [reflexivity|first [reflexivity|intros fuel t; by apply unquote_escape]|apply Nat.leb_le; reflexivity|repeat constructor; discriminate]|]). lia. }
    specialize (H (N.to_nat c) ltac:(lia)). rewrite N2Nat.id in H. exact H.
  - unfold go_chunk. simpl. rewrite (proj2 (N.leb_le _ _) Hc). split_and!; [|reflexivity|simpl; lia|repeat constructor; discriminate].
    intros t. simpl. by destruct (raw_inner t) as [[? ?]|].
  - destruct rc as [r rc]. simpl in *. subst rc. destruct cs as [|c1 cs]; [done|].
    destruct ((r =? 8232)%N || (r =? 8233)%N) eqn:Er.
    { assert (r = 8232%N ∨ r = 8233%N) as Hr by lia. destruct Hr as [-> | ->];
        (split_and!; [intros t; simpl; by destruct (raw_inner t) as [[? ?]|]|intros fuel t; reflexivity|simpl; lia|repeat constructor; discriminate]). }
    assert (go_chunk (r, c :: c1 :: cs) = c :: c1 :: cs) as -> by (unfold go_chunk; cbn [snd fst]; by rewrite Er). split_and!; [| |simpl; lia|].
    + clear Hat. intros t. induction Hhi as [|b l Hb Hl IH]; simpl; [by destruct (raw_inner t) as [[? ?]|]|].
      assert ((b =? c_dquote)%N = false ∧ (b =? c_backslash)%N = false ∧ (b <? 32)%N = false) as (-> & -> & ->) by lia.
      rewrite IH. by destruct (raw_inner t) as [[? ?]|].
    + intros fuel t. apply Forall_cons in Hhi as [Hc _].
      change ((c :: c1 :: cs) ++ t) with (c :: (c1 :: cs) ++ t). cbn [unquote_fuel].
      assert ((c =? c_backslash)%N = false ∧ (c <? 128)%N = false) as [-> ->] by lia.
      rewrite Hat. do 2 f_equal. change (c :: (c1 :: cs) ++ t) with ((c :: c1 :: cs) ++ t). by rewrite drop_app_length.
    + eapply Forall_impl; [exact Hhi|]. simpl. lia.
Qed.

Lemma go_string_scan s rest : rawString (go_string s ++ rest) = Some (go_escape s, rest).
Proof.
  unfold go_string. rewrite <-!app_assoc. simpl. unfold go_escape.
  induction (decode_chunks s) as [|rc l Hrc Hl IH]; [done|]. rewrite bind_cons.
  rewrite <-app_assoc, (proj1 (go_chunk_spec rc Hrc)), IH. done.
Qed.
Lemma go_unquote s : json_unquote (go_escape s) = sanitize s.
Proof.
  unfold json_unquote, go_escape, sanitize, string_of_runes, runes. pose proof (decode_chunks s) as Hok.
  assert (length (decode s) ≤ length (decode s ≫= go_chunk)) as Hlen.
  { induction Hok as [|rc l Hrc Hl IH]; [simpl; lia|]. rewrite bind_cons, length_app.
    pose proof (proj1 (proj2 (proj2 (go_chunk_spec rc Hrc)))). simpl. lia. }
  revert Hlen. generalize (length (decode s ≫= go_chunk)) as fuel.
  induction Hok as [|rc l Hrc Hl IH]; intros fuel Hfuel; [by destruct fuel|].
  simpl in Hfuel. destruct fuel as [|fuel]; [lia|]. rewrite fmap_cons, !bind_cons.
  rewrite (proj1 (proj2 (go_chunk_spec rc Hrc))), IH by lia. done.
Qed.
Lemma sanitize_valid s : utf8_valid s = true → sanitize s = s.
Proof. intros Hv. apply string_of_runes_decode. by rewrite Hv. Qed.
Lemma go_string_inj a b ra rb : utf8_valid a = true → utf8_valid b = true → go_string a ++ ra = go_string b ++ rb → a = b ∧ ra = rb.
Proof.
  intros Ha Hb E. pose proof (go_string_scan a ra) as Sa. rewrite E, go_string_scan in Sa. injection Sa as E1 ->. split; [|done].
  apply sanitize_valid in Ha, Hb. by rewrite <-Ha, <-Hb, <-!go_unquote, E1.
Qed.
Lemma go_string_printable s : Forall (λ c, (32 <= c)%N) (go_string s).
Proof.
  unfold go_string. apply Forall_app. split; [repeat constructor; done|]. apply Forall_app. split; [|repeat constructor; done]. unfold go_escape.
  induction (decode_chunks s) as [|rc l Hrc Hl IH]; [constructor|]. rewrite bind_cons. apply Forall_app. split; [|done].
  exact (proj2 (proj2 (proj2 (go_chunk_spec rc Hrc)))).
Qed.

(** ** Records *)

Lemma go_keys_inj a b ra rb : Forall (λ k, utf8_valid k = true) a → Forall (λ k, utf8_valid k = true) b →
  (a ≫= λ k, $"," ++ go_string k) ++ $"]" ++ ra = (b ≫= λ k, $"," ++ go_string k) ++ $"]" ++ rb → a = b ∧ ra = rb.
Proof.
  revert b. induction a as [|k a IH]; intros b Ha Hb E.
  - destruct b as [|k b]; [by apply (app_inv_head ($"]")) in E|]. by rewrite bind_cons in E.
  - destruct b as [|k' b]; [by rewrite bind_cons in E|]. apply Forall_cons in Ha as [Hk Ha], Hb as [Hk' Hb]. rewrite !bind_cons, <-!app_assoc in E.
    apply app_inv_head in E. apply go_string_inj in E as [-> E]; [|done..]. apply IH in E as [-> ->]; done.
Qed.
Lemma go_strings_inj a b ra rb : Forall (λ k, utf8_valid k = true) a → Forall (λ k, utf8_valid k = true) b →
  go_strings a ++ ra = go_strings b ++ rb → a = b ∧ ra = rb.
Proof.
  intros Ha Hb E. destruct a as [|k a], b as [|k' b]; cbn [go_strings] in E.
  - by apply app_inv_head in E.
  - by rewrite <-!app_assoc in E.
  - by rewrite <-!app_assoc in E.
  - apply Forall_cons in Ha as [Hk Ha], Hb as [Hk' Hb]. rewrite <-!app_assoc in E. apply app_inv_head in E. apply go_string_inj in E as [-> E]; [|done..].
    apply go_keys_inj in E as [-> ->]; done.
Qed.
Lemma keys_json_inj a b ra rb : Forall (λ k, utf8_valid k = true) (default [] a) → Forall (λ k, utf8_valid k = true) (default [] b) →
  match a with None => $"null" | Some ks => go_strings ks end ++ ra = match b with None => $"null" | Some ks => go_strings ks end ++ rb → a = b ∧ ra = rb.
Proof.
  intros Ha Hb E. destruct a as [a|], b as [b|].
  - apply go_strings_inj in E as [-> ->]; done.
  - destruct a; [done|]. cbn [go_strings] in E. by rewrite <-!app_assoc in E.
  - destruct b; [done|]. cbn [go_strings] in E. by rewrite <-!app_assoc in E.
  - by apply app_inv_head in E.
Qed.
Lemma payload_json_inj p q : (if bool_decide (p = []) then [] else $"," ++ go_string ($"payload") ++ $":" ++ p) ++ $"}" =
  (if bool_decide (q = []) then [] else $"," ++ go_string ($"payload") ++ $":" ++ q) ++ $"}" → p = q.
Proof.
  do 2 case_bool_decide; subst; [done|by rewrite <-!app_assoc|by rewrite <-!app_assoc|]. rewrite <-!app_assoc. intros E.
  do 3 apply app_inv_head in E. by apply app_inv_tail in E.
Qed.
Lemma canon_line_inj r1 r2 : rec_ok r1 → rec_ok r2 → canon_line r1 = canon_line r2 → r1 = r2.
Proof.
  intros (_ & U1 & K1) (_ & U2 & K2) E. unfold canon_line in E. do 3 apply app_inv_head in E.
  apply go_string_inj in E as [E1 E]; [|done..]. do 3 apply app_inv_head in E. apply keys_json_inj in E as [E2 E]; [|done..].
  apply payload_json_inj in E. destruct r1, r2. simpl in *. by subst.
Qed.

Lemma canon_line_no_nl r : c_nl ∉ r_Payload r → c_nl ∉ canon_line r.
Proof.
  intros Hp. assert (∀ s, Forall (λ c, (32 <= c)%N) s → c_nl ∉ s) as H.
  { intros s Hs Hin. rewrite Forall_forall in Hs. specialize (Hs _ Hin). done. }
  assert (∀ ks, c_nl ∉ (ks ≫= λ k, $"," ++ go_string k)) as Hks.
  { intros ks (k & Hin & _)%list_elem_of_bind. apply elem_of_app in Hin as [Hin|Hin]; [revert Hin; apply H; repeat constructor; discriminate|revert Hin; apply H, go_string_printable]. }
  unfold canon_line. rewrite !not_elem_of_app. split_and!; try (apply H; repeat constructor; discriminate); try (apply H, go_string_printable).
  - destruct (r_Keys r) as [[|k ks]|]; [apply H; repeat constructor; discriminate| |apply H; repeat constructor; discriminate]. cbn [go_strings].
    rewrite !not_elem_of_app. split_and!; try (apply H; repeat constructor; discriminate); [apply H, go_string_printable|apply Hks].
  - case_bool_decide; [apply not_elem_of_nil|]. rewrite !not_elem_of_app. split_and!; [apply H; repeat constructor; discriminate|apply H, go_string_printable|apply H; repeat constructor; discriminate|done].
Qed.

(** ** The stream *)

Definition lines (rs : list Rec) : bytes := rs ≫= λ r, canon_line r ++ [c_nl].
Lemma line_cut (a b ra rb : bytes) : c_nl ∉ a → c_nl ∉ b → a ++ [c_nl] ++ ra = b ++ [c_nl] ++ rb → a = b ∧ ra = rb.
Proof.
  revert b. induction a as [|c a IH]; intros b Ha Hb E.
  - destruct b as [|c b]; [by injection E|]. injection E as <- _. destruct Hb. by left.
  - destruct b as [|c' b]; [injection E as -> _; destruct Ha; by left|]. injection E as <- E. rewrite not_elem_of_cons in Ha, Hb. destruct (IH b) as [-> ->]; naive_solver.
Qed.
Lemma lines_inj a b : Forall rec_ok a → Forall rec_ok b → Forall (λ r, c_nl ∉ r_Payload r) a → Forall (λ r, c_nl ∉ r_Payload r) b → lines a = lines b → a = b.
Proof.
  revert b. induction a as [|r a IH]; intros b Ha Hb Pa Pb E; unfold lines in E.
  - destruct b as [|r b]; [done|]. rewrite bind_cons in E. by destruct (canon_line r).
  - destruct b as [|r' b]; [rewrite bind_cons in E; by destruct (canon_line r)|]. apply Forall_cons in Ha as [Hr Ha], Hb as [Hr' Hb], Pa as [Pr Pa], Pb as [Pr' Pb].
    rewrite !bind_cons, <-!app_assoc in E. apply line_cut in E as [E1 E]; [|by apply canon_line_no_nl..]. apply canon_line_inj in E1 as ->; [|done..].
    by rewrite (IH b).
Qed.
