(* ===== verification/Prepared.v ===== *)
(** [engine/prepared]: [Encode] of [encode.go], [NewView] of [view.go], [VerifyBytes]
    and [Inspect] of [verify.go], over the sections of the other files. *)

From S2P Require Import Prelude.
From S2P Require Import Runtime.
From S2P Require Import Score.
From S2P Require Import Bitmap.
From S2P Require Import ListConfig.
From S2P Require Import Wire.
From S2P Require Import PreparedFormat.
From S2P Require Import PreparedRecords.
From S2P Require Import PreparedIndex.
From S2P Require Import PreparedJSON.
From S2P Require Ngram.
From S2P Require Exact.

Definition isHex64 (s : bytes) : bool := (length s =? 64) && forallb (λ c, in_range 48 57 c || in_range 97 102 c) s.
Definition mode_ngram : bytes := $"ngram".
Definition mode_exact : bytes := $"exact".

Record Contents {BL : BitmapLib} := mkContents {
  c_Name : bytes; c_ListConfig : bytes; c_AnalyzerDigest : bytes; c_ConfigDigest : bytes; c_Records : list Rec;
  c_Ngram : option Ngram.Index; c_Exact : option Exact.Index; c_ExactCompanion : option Exact.Index;
  c_DroppedKeys : Z; c_KeylessEntries : Z; c_Source : bytes; c_CreatedAt : bytes; c_InputSHA256 : bytes; c_Collapsed : Z }.
Record Summary := mkSummary { su_BaseID : bytes; su_ContainerSHA256 : bytes; su_Entries : N; su_Keys : N; su_Size : N }.

(** The fields of a [View]; [v_addr] is the address of the buffer. *)
Record Config := mkConfig {
  vc_Name : bytes; vc_Mode : bytes; vc_Grams : list Z; vc_StripSpaces : bool; vc_ExactCompanion : bool;
  vc_AnalyzerDigest : bytes; vc_ConfigDigest : bytes; vc_ListConfig : bytes }.
Record View := mkView {
  v_buf : bytes; v_tab : table; v_cfg : Config; v_build : BuildInfo; v_records : records; v_ids : bytes;
  v_ng : option ngramView; v_ex : option exactView; v_xc : option exactView }.

Section prepared.
Context {RT : GoRuntime} {BL : BitmapLib} {FO : FloatOps} {FL : FrozenLib} {DL : DigestLib} {JL : JSONLib}.

Definition parseListConfig (raw : bytes) : option listConfigMirror :=
  lc ← decode_mirror raw;
  if bool_decide (mi_Mode lc = mode_ngram) then
    if bool_decide (mi_Grams lc = []) then None
    else if forallb (λ g, (1 <=? g) && (g <=? Ngram.MaxGramSize))%Z (mi_Grams lc) then Some lc else None
  else if bool_decide (mi_Mode lc = mode_exact) then if mi_ExactCompanion lc then None else Some lc
  else None.

(** ** Encoding *)

(** [lineHasher.add] on the stream hashed so far. *)
Definition add_line (stream : bytes) (r : Rec) : option bytes :=
  if (MaxLine <? blen (canon_line r) + 1)%N then None else Some (stream ++ canon_line r ++ [c_nl]).
(** The second loop of [encodeRecords]: what it hashes. *)
Fixpoint hash_records (i : N) (stream : bytes) (rs : list Rec) : result prepared_error bytes :=
  match rs with
  | [] => Ok stream
  | r :: rs =>
      match CanonicalPayload (r_Payload r) with
      | None => Err (Refused (PayloadInvalid i))
      | Some canon =>
          _ ← fail_if (negb (bool_decide (canon = r_Payload r))) (Refused (NotCanonical i));
          match add_line stream r with
          | None => Err (Refused (RecordTooLong i))
          | Some stream => hash_records (i + 1)%N stream rs
          end
      end
  end.
Definition total_key_count (rs : list Rec) : N := foldr (λ r n, N.of_nat (length (keys_of r)) + n)%N 0%N rs.
Definition encodeRecords (rs : list Rec) : result prepared_error (bytes * N * bytes) :=
  _ ← check_records 0 rs;
  _ ← fail_if (max_int <? blen (records_section rs))%N (Refused TooLarge);
  stream ← hash_records 0 [] rs;
  Ok (records_section rs, total_key_count rs, hex (sha256 stream)).

(** The index sections: the index of the mode and the companion. *)
Definition encode_index (c : Contents) (lc : listConfigMirror) : result prepared_error (bytes * option bytes) :=
  let n := N.of_nat (length (c_Records c)) in
  if bool_decide (mi_Mode lc = mode_ngram) then
    match c_Ngram c, c_Exact c with
    | Some idx, None =>
        _ ← fail_if (negb (bool_decide (Ngram.Grams (Ngram.cfg idx) = mi_Grams lc)) || negb (eqb (Ngram.StripSpaces (Ngram.cfg idx)) (mi_StripSpaces lc))) (Refused IndexConfig);
        index ← encodeNgram idx n;
        match c_ExactCompanion c with
        | None => _ ← fail_if (mi_ExactCompanion lc) (Refused CompanionMissing); Ok (index, None)
        | Some xc => _ ← fail_if (negb (mi_ExactCompanion lc)) (Refused CompanionUnexpected); companion ← encodeExact xc n; Ok (index, Some companion)
        end
    | _, _ => Err (Refused WrongIndex)
    end
  else
    match c_Exact c, c_Ngram c, c_ExactCompanion c with
    | Some idx, None, None => index ← encodeExact idx n; Ok (index, None)
    | _, _, _ => Err (Refused WrongIndex)
    end.

(** The sections laid out from [off], each aligned; [None]: the sum overflows. *)
Fixpoint lay_out (off : N) (bodies : list (N * bytes)) : option (list section) :=
  match bodies with
  | [] => Some []
  | (kind, data) :: bodies =>
      let s := mkSection kind flagRequired off (blen data) (sha256 data) in
      off ← align32 (s_end s); ss ← lay_out off bodies; Some (s :: ss)
  end.
(** [copy]: the bodies at their offsets in zeroed memory; [at_] is the end of what is
    written. *)
Fixpoint place (at_ : N) (ss : list (section * bytes)) : bytes :=
  match ss with [] => [] | (s, d) :: ss => replicate (N.to_nat (s_off s - at_)) 0%N ++ d ++ place (s_end s) ss end.

Definition Encode (c : Contents) : result prepared_error (bytes * Summary) :=
  _ ← fail_if (negb (ValidListName (c_Name c))) (Refused InvalidListName);
  match parseListConfig (c_ListConfig c) with
  | None => Err (Refused InvalidListConfig)
  | Some lc =>
      let n := N.of_nat (length (c_Records c)) in
      _ ← fail_if (negb (isHex64 (c_AnalyzerDigest c)) || negb (isHex64 (c_ConfigDigest c))) (Refused InvalidDigests);
      _ ← fail_if (max_u32 <? n)%N (Refused TooManyRecords);
      _ ← fail_if ((c_DroppedKeys c <? 0)%Z || (c_KeylessEntries c <? 0)%Z || (Z.of_N n <? c_KeylessEntries c)%Z || (c_Collapsed c <? 0)%Z) (Refused ImpossibleCounters);
      '(index, companion) ← encode_index c lc;
      '(recs, keys, baseID) ← encodeRecords (c_Records c);
      ids ← encodeIDs (c_Records c);
      match marshal_configDoc (mkConfigDoc (c_Name c) (c_AnalyzerDigest c) (c_ConfigDigest c) (c_ListConfig c)) with
      | None => Err (Refused Unmarshalable)
      | Some cfgJSON =>
          let buildJSON := marshal_build (mkBuildInfo baseID (Z.of_N n) (Z.of_N keys) (c_DroppedKeys c) (c_KeylessEntries c) (c_Collapsed c)
            (c_Source c) (c_CreatedAt c) (c_InputSHA256 c)) in
          _ ← fail_if ((MaxMetaSection <? blen cfgJSON)%N || (MaxMetaSection <? blen buildJSON)%N) (Refused MetaOverflow);
          let indexKind := if bool_decide (mi_Mode lc = mode_exact) then KindExact else KindNgram in
          let bodies := [(KindConfig, cfgJSON); (KindBuild, buildJSON); (KindRecords, recs); (KindIDs, ids); (indexKind, index)] ++
            match companion with Some x => [(KindExactCompanion, x)] | None => [] end in
          match lay_out (aligned (headerSize + N.of_nat (length bodies) * tableEntrySize + digestSize)) bodies with
          | None => Err (Refused TooLarge)
          | Some secs =>
              let total := default 0%N (s_end <$> last secs) in
              _ ← fail_if (max_int <? total)%N (Refused TooLarge);
              let head := encodeHead secs in
              let out := head ++ place (blen head) (zip secs bodies.*2) in
              Ok (out, mkSummary baseID (hex (sha256 out)) n keys (blen out))
          end
      end
  end.

(** ** Reading *)

Definition isAligned (addr : N) (b : bytes) : bool := bool_decide (b = []) || (addr mod Align =? 0)%N.
Fixpoint check_gaps (buf : bytes) (prev : N) (ss : list section) : result prepared_error () :=
  match ss with
  | [] => Ok ()
  | s :: ss => _ ← zeros buf prev (s_off s) (NonzeroGap (s_kind s)); check_gaps buf (s_end s) ss
  end.
(** The bytes of a section; those of an absent one are empty. *)
Definition body (buf : bytes) (t : table) (kind : N) : result prepared_error bytes :=
  let s := default (mkSection 0 0 0 0 (replicate 32 0%N)) (find t kind) in slice buf (s_off s) (s_end s).

Definition parseConfig (b : bytes) : result prepared_error Config :=
  _ ← malformed_if (MaxMetaSection <? blen b)%N MetaTooLong;
  match strict_config b with
  | None => malformed NotStrict
  | Some doc =>
      _ ← malformed_if (negb (ValidListName (cd_Name doc))) BadName;
      _ ← malformed_if (negb (isHex64 (cd_AnalyzerDigest doc)) || negb (isHex64 (cd_ConfigDigest doc))) BadDigest;
      match parseListConfig (cd_List doc) with
      | None => malformed BadListConfig
      | Some lc => Ok (mkConfig (cd_Name doc) (mi_Mode lc) (mi_Grams lc) (mi_StripSpaces lc) (mi_ExactCompanion lc)
          (cd_AnalyzerDigest doc) (cd_ConfigDigest doc) (cd_List doc))
      end
  end.
Definition parseBuild (b : bytes) : result prepared_error BuildInfo :=
  _ ← malformed_if (MaxMetaSection <? blen b)%N MetaTooLong;
  match strict_build b with
  | None => malformed NotStrict
  | Some bi =>
      _ ← malformed_if (negb (isHex64 (BaseID bi))) BadDigest;
      _ ← malformed_if ((bi_Entries bi <? 0) || (bi_Keys bi <? 0) || (bi_DroppedKeys bi <? 0) || (bi_KeylessEntries bi <? 0) || (bi_Collapsed bi <? 0))%Z NegativeCount;
      Ok bi
  end.

Definition NewView (addr : N) (buf : bytes) : result prepared_error View :=
  if negb (isAligned addr buf) then Err Unaligned else
  hl ← headLen buf;
  _ ← malformed_if (blen buf <? hl)%N TruncatedTable;
  head ← slice buf 0 hl;
  tab ← parseTable head (blen buf);
  _ ← check_gaps buf (t_headEnd tab) (t_sections tab);
  cb ← body buf tab KindConfig; cfg ← parseConfig cb;
  bb ← body buf tab KindBuild; build ← parseBuild bb;
  rb ← body buf tab KindRecords; recs ← parseRecords rb;
  _ ← malformed_if (negb (bi_Entries build =? Z.of_N (v_n recs))%Z) EntriesDiffer;
  _ ← malformed_if (negb (bi_Keys build =? Z.of_N (v_nKeys recs))%Z) KeysDiffer;
  _ ← malformed_if (Z.of_N (v_n recs) <? bi_KeylessEntries build)%Z KeylessDiffer;
  ib ← body buf tab KindIDs; ids ← parseIDs recs ib;
  let hasNgram := has_kind (t_sections tab) KindNgram in
  _ ← malformed_if (negb (eqb hasNgram (bool_decide (vc_Mode cfg = mode_ngram)))) ModeDiffers;
  '(ng, ex) ← (if hasNgram : bool
    then nb ← body buf tab KindNgram; nv ← parseNgram (v_n recs) nb; Ok (Some nv, None)
    else eb ← body buf tab KindExact; ev ← parseExactSection (v_n recs) eb; Ok (None, Some ev));
  let hasCompanion := has_kind (t_sections tab) KindExactCompanion in
  _ ← malformed_if (negb (eqb hasCompanion (vc_ExactCompanion cfg))) CompanionDiffers;
  xc ← (if hasCompanion : bool then xb ← body buf tab KindExactCompanion; ev ← parseExactSection (v_n recs) xb; Ok (Some ev) else Ok None);
  Ok (mkView buf tab cfg build recs ids ng ex xc).

(** The indexes of a view: [NgramIndex], [ExactIndex] and [ExactCompanionIndex]. *)
Definition view_NgramIndex (v : View) : result prepared_error Ngram.Index :=
  match v_ng v with
  | None => Err (Refused NotNgram)
  | Some nv => NgramIndex nv (Ngram.mkConfig (vc_Grams (v_cfg v)) (vc_StripSpaces (v_cfg v)))
  end.
Definition ExactIndex (v : View) : result prepared_error Exact.Index :=
  match v_ex v with None => Err (Refused NotExact) | Some ev => parts ← exactParts ev; restore_exact parts end.
Definition ExactCompanionIndex (v : View) : result prepared_error Exact.Index :=
  match v_xc v with None => Err (Refused NoCompanion) | Some ev => parts ← exactParts ev; restore_exact parts end.

(** ** Verification *)

Inductive Level := LevelFull | LevelStructure | LevelTrusted | UnknownLevelOf (n : N).
Record Verified := mkVerified {
  ve_Level : Level; ve_Major : N; ve_Minor : N; ve_Name : bytes; ve_Mode : bytes; ve_Entries : N; ve_Keys : N; ve_Size : N;
  ve_ExactCompanion : bool; ve_BaseID : bytes; ve_ContainerSHA256 : bytes; HeaderDigestVerified : bool; ContentVerified : bool;
  DeclaredBaseID : bytes; ve_ConfigDigest : bytes; ve_AnalyzerDigest : bytes }.

Definition contentSection (v : View) (kind : N) : bool :=
  if (kind =? KindRecords)%N || (kind =? KindIDs)%N then true
  else if (kind =? KindNgram)%N then bool_decide (is_Some (v_ng v))
  else if (kind =? KindExact)%N then bool_decide (is_Some (v_ex v))
  else if (kind =? KindExactCompanion)%N then bool_decide (is_Some (v_xc v))
  else false.
Fixpoint check_payloads (fuel : nat) (rs : records) (i : N) : result prepared_error () :=
  match fuel with
  | O => Ok ()
  | S fuel =>
      p ← Payload rs i;
      _ ← malformed_if (negb (bool_decide (p = [])) && negb (json_valid p)) (PayloadSyntax i);
      check_payloads fuel rs (i + 1)%N
  end.
Definition checkPayloadSyntax (v : View) : result prepared_error () := check_payloads (N.to_nat (v_n (v_records v))) (v_records v) 0.

Fixpoint rehash (fuel : nat) (rs : records) (i : N) (stream : bytes) : result prepared_error bytes :=
  match fuel with
  | O => Ok stream
  | S fuel =>
      keys ← AppendKeys [] rs i; null ← KeysNull rs i;
      p ← Payload rs i;
      match CanonicalPayload p with
      | None => Err (Integrity (PayloadJSON i))
      | Some c =>
          _ ← fail_if (negb (bool_decide (c = p))) (Integrity (PayloadForm i));
          id ← ID rs i;
          match add_line stream (mkRec id (if null : bool then None else Some keys) p) with
          | None => Err (Integrity (LineTooLong i))
          | Some stream => rehash fuel rs (i + 1)%N stream
          end
      end
  end.
Definition recomputeBaseID (v : View) : result prepared_error bytes :=
  stream ← rehash (N.to_nat (v_n (v_records v))) (v_records v) 0 []; Ok (hex (sha256 stream)).

Fixpoint check_digests (v : View) (trusted : bool) (ss : list section) : result prepared_error () :=
  match ss with
  | [] => Ok ()
  | s :: ss =>
      _ ← (if trusted && contentSection v (s_kind s) then Ok () else
           d ← slice (v_buf v) (s_off s) (s_end s);
           fail_if (negb (bool_decide (sha256 d = s_sum s))) (Integrity (SectionDigest (s_kind s))));
      check_digests v trusted ss
  end.

Definition verified (v : View) (level : Level) : Verified :=
  mkVerified level (t_major (v_tab v)) (t_minor (v_tab v)) (vc_Name (v_cfg v)) (vc_Mode (v_cfg v)) (v_n (v_records v)) (v_nKeys (v_records v))
    (blen (v_buf v)) (bool_decide (is_Some (v_xc v))) [] [] false false (BaseID (v_build v)) (vc_ConfigDigest (v_cfg v)) (vc_AnalyzerDigest (v_cfg v)).
Definition with_header (o : Verified) : Verified :=
  mkVerified (ve_Level o) (ve_Major o) (ve_Minor o) (ve_Name o) (ve_Mode o) (ve_Entries o) (ve_Keys o) (ve_Size o) (ve_ExactCompanion o)
    (ve_BaseID o) (ve_ContainerSHA256 o) true (ContentVerified o) (DeclaredBaseID o) (ve_ConfigDigest o) (ve_AnalyzerDigest o).
Definition with_content (o : Verified) (baseID container : bytes) : Verified :=
  mkVerified (ve_Level o) (ve_Major o) (ve_Minor o) (ve_Name o) (ve_Mode o) (ve_Entries o) (ve_Keys o) (ve_Size o) (ve_ExactCompanion o)
    baseID container (HeaderDigestVerified o) true (DeclaredBaseID o) (ve_ConfigDigest o) (ve_AnalyzerDigest o).

Definition VerifyBytes (addr : N) (buf : bytes) (level : Level) : result prepared_error (View * Verified) :=
  match level with
  | UnknownLevelOf n => Err (Refused (UnknownLevel n))
  | _ =>
      v ← NewView addr buf;
      let out := verified v level in
      match level with
      | LevelStructure => Ok (v, out)
      | _ =>
          hb ← slice buf 0 (t_headEnd (v_tab v) - digestSize);
          _ ← fail_if (negb (bool_decide (sha256 hb = t_digest (v_tab v)))) (Integrity HeaderDigest);
          _ ← check_digests v (match level with LevelTrusted => true | _ => false end) (t_sections (v_tab v));
          let out := with_header out in
          match level with
          | LevelTrusted => _ ← checkPayloadSyntax v; Ok (v, out)
          | _ =>
              baseID ← recomputeBaseID v;
              _ ← fail_if (negb (bool_decide (baseID = BaseID (v_build v)))) (Integrity BaseIDDiffers);
              Ok (v, with_content out baseID (hex (sha256 buf)))
          end
      end
  end.

(** ** Inspection: the file's head and its two metadata sections *)

Record Info := mkInfo {
  in_Major : N; in_Minor : N; in_Name : bytes; in_Mode : bytes; in_ExactCompanion : bool; in_Entries : Z; in_BaseID : bytes;
  in_ConfigDigest : bytes; in_AnalyzerDigest : bytes; in_Size : N }.
(** Reads [len] bytes at [off] of the file; short is an I/O error. *)
Definition read_at (file : bytes) (off len : N) : option bytes := if (blen file <? off + len)%N then None else Some (seg file off (off + len)).
Inductive inspect_result := Inspected (i : Info) | InspectFailed (e : prepared_error) | ReadFailed.
Definition read_meta (file : bytes) (t : table) (kind : N) : option (result prepared_error bytes) :=
  let s := default (mkSection 0 0 0 0 (replicate 32 0%N)) (find t kind) in
  if (MaxMetaSection <? s_length s)%N then Some (malformed MetaTooLong)
  else b ← read_at file (s_off s) (s_length s); Some (Ok b).
Definition Inspect (file : bytes) : inspect_result :=
  match read_at file 0 headerSize with
  | None => InspectFailed (Malformed TruncatedHeader)
  | Some fixed =>
      match headLen fixed with
      | Err e => InspectFailed e
      | Ok hl =>
          if (blen file <? hl)%N then InspectFailed (Malformed TruncatedTable) else
          match read_at file 0 hl with
          | None => ReadFailed
          | Some head =>
              match parseTable head (blen file) with
              | Err e => InspectFailed e
              | Ok tab =>
                  match read_meta file tab KindConfig with
                  | None => ReadFailed
                  | Some cb =>
                      match (cb ≫= parseConfig : result prepared_error Config) with
                      | Err e => InspectFailed e
                      | Ok cfg =>
                          match read_meta file tab KindBuild with
                          | None => ReadFailed
                          | Some bb =>
                              match (bb ≫= parseBuild : result prepared_error BuildInfo) with
                              | Err e => InspectFailed e
                              | Ok build => Inspected (mkInfo (t_major tab) (t_minor tab) (vc_Name cfg) (vc_Mode cfg) (vc_ExactCompanion cfg)
                                  (bi_Entries build) (BaseID build) (vc_ConfigDigest cfg) (vc_AnalyzerDigest cfg) (blen file))
                              end
                          end
                      end
                  end
              end
          end
      end
  end.
End prepared.
