(* ===== verification/PreparedSpec.v ===== *)
(** [NewView] refines an abstract artifact: a header, sections in a table, and the
    records, IDs and indexes whose layouts their bodies are. *)

From S2P Require Import Prelude.
From S2P Require Import Runtime.
From S2P Require Import Score.
From S2P Require Import Bitmap.
From S2P Require Import ListConfig.
From S2P Require Import Wire.
From S2P Require Import PreparedFormat.
From S2P Require Import PreparedRecords.
From S2P Require Import PreparedRecordsSpec.
From S2P Require Import PreparedIDs.
From S2P Require Import Frozen.
From S2P Require Import FrozenSpec.
From S2P Require Import PreparedIndex.
From S2P Require Import PreparedIndexSpec.
From S2P Require Import PreparedFormatSpec.
From S2P Require Import PreparedJSON.
From S2P Require Import Prepared.

#[local] Opaque put_le get_le.

(** ** Sections and their bodies *)

Definition bodies_fit (ss : list section) (ds : list bytes) : Prop := Forall2 (λ s d, s_length s = blen d) ss ds.
(** The body of a section of kind [k]. *)
Definition body_at (ss : list section) (ds : list bytes) (k : N) (d : bytes) : Prop :=
  ∃ i s, ss !! i = Some s ∧ ds !! i = Some d ∧ s_kind s = k.

Lemma sec_end_add hl fs prev s : sec_ok s → entry_fits hl fs prev s → (fs <= max_int)%N → s_end s = sec_end s.
Proof. intros (_ & _ & _ & Bo & _) (_ & _ & He & _) Hfs. unfold s_end, sec_end, max_int in *. apply add64_small. lia. Qed.

(** [prev]: everything before the sections ends at [at_]. *)
Lemma check_gaps_iff buf hl prev ss at_ : is_bytes buf → (blen buf <= max_int)%N → entries_fit hl (blen buf) prev ss →
  (∀ s, head ss = Some s → (at_ <= s_off s)%N) → (∀ p, last prev = Some p → sec_end p = at_) → (at_ <= blen buf)%N → last_end at_ ss = blen buf →
  check_gaps buf at_ ss = Ok () ↔ ∃ ds, bodies_fit ss ds ∧ seg buf at_ (blen buf) = place at_ (zip ss ds).
Proof.
  intros Hb Hl. revert prev at_. induction ss as [|s ss IH]; intros prev at_ Hfit Hat Hprev Hle Hend; cbn [check_gaps].
  { split; [|done]. intros _. exists []. split; [constructor|]. cbn in Hend. subst at_. unfold seg. by rewrite N.sub_diag. }
  destruct Hfit as (Hs & He & Hfit). specialize (Hat s eq_refl). pose proof (sec_end_add _ _ _ _ Hs He Hl) as Ese.
  assert (last_end (sec_end s) ss = blen buf) as Hend'.
  { unfold last_end in *. rewrite last_cons in Hend. by destruct (last ss). }
  assert (∀ s', head ss = Some s' → (sec_end s <= s_off s')%N) as Hnext.
  { intros s' Hs'. destruct ss as [|s2 ss]; [done|]. injection Hs' as ->. destruct Hfit as (_ & (_ & _ & _ & Hlast) & _). rewrite last_snoc in Hlast. lia. }
  assert (sec_end s <= blen buf)%N as Hse by by destruct He as (_ & _ & ? & _). assert (s_off s <= sec_end s)%N as Hso by (unfold sec_end; lia).
  specialize (IH (prev ++ [s]) (sec_end s) Hfit Hnext). rewrite Ese, bind_ok. split.
  - intros ([] & (_ & _ & Hz)%zeros_ok & H). apply IH in H as (ds & Hds & Hseg); [|by intros p; rewrite last_snoc; intros [= <-]|done..].
    exists (seg buf (s_off s) (sec_end s) :: ds). split.
    + constructor; [|done]. rewrite blen_seg by lia. unfold sec_end. lia.
    + cbn [zip zip_with place]. rewrite Ese. rewrite (seg_split buf at_ (s_off s)) by lia. rewrite Hz. f_equal.
      by rewrite (seg_split buf (s_off s) (sec_end s)), Hseg by lia.
  - intros (ds & Hds & Hseg). apply Forall2_cons_inv_l in Hds as (d & ds' & Hd & Hds & ->). cbn [zip zip_with place] in Hseg. rewrite Ese in Hseg.
    assert (blen buf = at_ + blen (replicate (N.to_nat (s_off s - at_)) 0%N ++ d ++ place (sec_end s) (zip ss ds')))%N as Hbl.
    { rewrite <-Hseg, blen_seg by lia. lia. }
    apply seg_app_iff in Hseg as [H1 H2]; [|done|lia]. assert (blen (replicate (N.to_nat (s_off s - at_)) 0%N) = (s_off s - at_)%N) as Er by (unfold blen; rewrite length_replicate; lia).
    rewrite Er in H1, H2. replace (at_ + (s_off s - at_))%N with (s_off s) in H1, H2 by lia. rewrite blen_app, Er, blen_app in Hbl.
    apply seg_app_iff in H2 as [H2 H3]; [|rewrite blen_app; lia|lia]. rewrite <-Hd in H3. change (s_off s + s_length s)%N with (sec_end s) in H3.
    exists (). split; [apply zeros_ok; split_and!; [done|lia|done]|]. apply IH; [by intros p; rewrite last_snoc; intros [= <-]|done..|]. by exists ds'.
Qed.

(** The bodies are the segments the table declares. *)
Lemma place_bodies buf hl prev ss ds at_ : (blen buf <= max_int)%N → entries_fit hl (blen buf) prev ss → bodies_fit ss ds →
  (∀ s, head ss = Some s → (at_ <= s_off s)%N) → (at_ <= blen buf)%N → last_end at_ ss = blen buf → seg buf at_ (blen buf) = place at_ (zip ss ds) →
  ∀ i s d, ss !! i = Some s → ds !! i = Some d → slice buf (s_off s) (s_end s) = Ok d.
Proof.
  intros Hl. revert prev ds at_. induction ss as [|s ss IH]; intros prev ds at_ Hfit Hds Hat Hle Hend Hseg i s' d' Hi Hd'; [done|].
  destruct Hfit as (Hs & He & Hfit). specialize (Hat s eq_refl). pose proof (sec_end_add _ _ _ _ Hs He Hl) as Ese.
  apply Forall2_cons_inv_l in Hds as (d & ds' & Hd & Hds & ->).
  assert (last_end (sec_end s) ss = blen buf) as Hend' by (unfold last_end in *; rewrite last_cons in Hend; by destruct (last ss)).
  assert (∀ s', head ss = Some s' → (sec_end s <= s_off s')%N) as Hnext.
  { intros s2 Hs2. destruct ss as [|s3 ss]; [done|]. injection Hs2 as ->. destruct Hfit as (_ & (_ & _ & _ & Hlast) & _). rewrite last_snoc in Hlast. lia. }
  assert (sec_end s <= blen buf)%N as Hse by by destruct He as (_ & _ & ? & _). assert (s_off s <= sec_end s)%N as Hso by (unfold sec_end; lia).
  cbn [zip zip_with place] in Hseg. rewrite Ese in Hseg.
  assert (blen buf = at_ + blen (replicate (N.to_nat (s_off s - at_)) 0%N ++ d ++ place (sec_end s) (zip ss ds')))%N as Hbl by (rewrite <-Hseg, blen_seg by lia; lia).
  apply seg_app_iff in Hseg as [H1 H2]; [|done|lia]. assert (blen (replicate (N.to_nat (s_off s - at_)) 0%N) = (s_off s - at_)%N) as Er by (unfold blen; rewrite length_replicate; lia).
  rewrite Er in H1, H2. replace (at_ + (s_off s - at_))%N with (s_off s) in H1, H2 by lia. rewrite blen_app, Er, blen_app in Hbl.
  apply seg_app_iff in H2 as [H2 H3]; [|rewrite blen_app; lia|lia]. rewrite <-Hd in H2, H3. change (s_off s + s_length s)%N with (sec_end s) in H2, H3.
  destruct i as [|i].
  - injection Hi as <-. injection Hd' as <-. rewrite Ese. apply slice_ok. by split_and!.
  - by apply (IH (prev ++ [s]) ds' (sec_end s) Hfit Hds Hnext Hse Hend' H3 i s' d').
Qed.

Lemma kinds_nodup hl fs prev ss : NoDup (kinds prev) → entries_fit hl fs prev ss → NoDup (kinds (prev ++ ss)).
Proof.
  revert prev. induction ss as [|s ss IH]; intros prev Hnd Hfit; [by rewrite app_nil_r|]. destruct Hfit as (_ & (Hk & _) & Hfit).
  replace (prev ++ s :: ss) with ((prev ++ [s]) ++ ss) by by rewrite <-app_assoc. apply IH; [|done]. unfold kinds. rewrite fmap_app. apply NoDup_app. split_and!; [done| |repeat constructor; set_solver].
  intros x Hx ->%list_elem_of_singleton. done.
Qed.
Lemma find_kind t k : NoDup (kinds (t_sections t)) → ∀ i s, t_sections t !! i = Some s → s_kind s = k → find t k = Some s.
Proof.
  intros Hnd i s Hi Hk. unfold find. rewrite (proj2 (list_find_Some (λ s, s_kind s = k) (t_sections t) i s)); [done|]. split_and!; [done..|].
  intros j s' Hj Hlt Hk'. assert (i = j); [|lia]. eapply NoDup_lookup; [exact Hnd|..]; unfold kinds; rewrite list_lookup_fmap; [rewrite Hi|rewrite Hj]; simpl; by rewrite ?Hk, ?Hk'.
Qed.

(** ** The abstract artifact *)

Inductive index_content :=
  | NgramContent (no : N) (gs : list (bytes * list (N * container)))
  | ExactContent (es : list (bytes * list N)).
Record artifact := mkArtifact {
  a_minor : N; a_secs : list section; a_digest : bytes; a_bodies : list bytes;
  a_cfg : Config; a_build : BuildInfo; a_recs : list Rec; a_ords : list N; a_index : index_content; a_companion : option (list (bytes * list N)) }.
Definition a_head (A : artifact) : bytes := head_bytes (a_minor A) (a_secs A) (a_digest A).
Definition artifact_bytes (A : artifact) : bytes := a_head A ++ place (blen (a_head A)) (zip (a_secs A) (a_bodies A)).
Definition a_n (A : artifact) : N := N.of_nat (length (a_recs A)).
Definition artifact_view (A : artifact) : View :=
  mkView (artifact_bytes A) (table_of_head (a_minor A) (a_secs A) (a_digest A)) (a_cfg A) (a_build A) (records_of (a_recs A)) (table_of 8 (a_ords A))
    (match a_index A with NgramContent no gs => Some (ngramView_of no gs) | ExactContent _ => None end)
    (match a_index A with NgramContent _ _ => None | ExactContent es => Some (exactView_of es) end)
    (exactView_of <$> a_companion A).

Section views.
Context {RT : GoRuntime} {BL : BitmapLib} {FO : FloatOps} {FL : FrozenLib} {DL : DigestLib} {JL : JSONLib}.

Definition container_layout (A : artifact) : Prop :=
  (a_minor A < 2 ^ 16)%N ∧ blen (a_digest A) = 32%N ∧ table_ok (blen (artifact_bytes A)) (a_secs A) ∧ bodies_fit (a_secs A) (a_bodies A).
Definition a_body (A : artifact) : N → bytes → Prop := body_at (a_secs A) (a_bodies A).
(** The format, the metadata sections apart: [C] and [B] say which configuration and
    which build record their bytes are. *)
Definition artifact_with (C : bytes → Config → Prop) (B : bytes → BuildInfo → Prop) (A : artifact) : Prop :=
  container_layout A ∧
  (∃ cb, a_body A KindConfig cb ∧ C cb (a_cfg A)) ∧ (∃ bb, a_body A KindBuild bb ∧ B bb (a_build A)) ∧
  (records_ok (a_recs A) ∧ a_body A KindRecords (records_section (a_recs A)) ∧ bi_Entries (a_build A) = Z.of_N (a_n A) ∧
   bi_Keys (a_build A) = Z.of_N (total_keys (a_recs A)) ∧ (bi_KeylessEntries (a_build A) <= Z.of_N (a_n A))%Z) ∧
  (ids_ok (a_recs A) (a_ords A) ∧ a_body A KindIDs (ids_section (a_ords A))) ∧
  match a_index A with
  | NgramContent no gs => vc_Mode (a_cfg A) = mode_ngram ∧ ngram_ok (a_n A) no gs ∧ a_body A KindNgram (ngram_section no (frozen_grams gs))
  | ExactContent es => vc_Mode (a_cfg A) ≠ mode_ngram ∧ exact_ok (a_n A) es ∧ a_body A KindExact (exact_section es)
  end ∧
  match a_companion A with
  | Some es => vc_ExactCompanion (a_cfg A) = true ∧ exact_ok (a_n A) es ∧ a_body A KindExactCompanion (exact_section es)
  | None => vc_ExactCompanion (a_cfg A) = false ∧ KindExactCompanion ∉ kinds (a_secs A)
  end.

(** With the metadata as the code's parsers read it. *)
Definition artifact_parsed : artifact → Prop :=
  artifact_with (λ cb cfg, parseConfig cb = Ok cfg) (λ bb b, parseBuild bb = Ok b).

(** The rules of the metadata: text of the documents' one canonical form, with
    digests of 64 lowercase hexadecimal digits, a list name, gram sizes in range and
    counts that are not negative. *)
Definition hex_digest (s : bytes) : Prop := length s = 64 ∧ ∀ c, c ∈ s → c ∈ $"0123456789abcdef".
Definition list_name (s : bytes) : Prop :=
  1 ≤ length s ≤ 64 ∧ (∀ c, c ∈ s → c ∈ $"abcdefghijklmnopqrstuvwxyz0123456789_-") ∧ head s ≠ Some 95%N ∧ head s ≠ Some 45%N.
Definition mirror_ok (m : listConfigMirror) : Prop :=
  (mi_Mode m = $"ngram" ∧ mi_Grams m ≠ [] ∧ ∀ g, g ∈ mi_Grams m → (1 ≤ g ≤ Ngram.MaxGramSize)%Z) ∨
  (mi_Mode m = $"exact" ∧ mi_ExactCompanion m = false).
Definition config_section (cb : bytes) (cfg : Config) : Prop :=
  (blen cb <= MaxMetaSection)%N ∧ ∃ m, decode_mirror (vc_ListConfig cfg) = Some m ∧ mirror_ok m ∧
    compact (vc_ListConfig cfg) = Some (vc_ListConfig cfg) ∧
    cb = config_json (mkConfigDoc (vc_Name cfg) (vc_AnalyzerDigest cfg) (vc_ConfigDigest cfg) (vc_ListConfig cfg)) ∧
    list_name (vc_Name cfg) ∧ hex_digest (vc_AnalyzerDigest cfg) ∧ hex_digest (vc_ConfigDigest cfg) ∧
    vc_Mode cfg = mi_Mode m ∧ vc_Grams cfg = mi_Grams m ∧ vc_StripSpaces cfg = mi_StripSpaces m ∧ vc_ExactCompanion cfg = mi_ExactCompanion m.
Definition build_section (bb : bytes) (b : BuildInfo) : Prop :=
  (blen bb <= MaxMetaSection)%N ∧ bb = build_json b ∧ hex_digest (BaseID b) ∧
  (∀ s, s ∈ [Source b; CreatedAt b; InputSHA256 b] → utf8_valid s = true) ∧
  ∀ z, z ∈ [bi_Entries b; bi_Keys b; bi_DroppedKeys b; bi_KeylessEntries b; bi_Collapsed b] → (0 <= z < 2 ^ 63)%Z.
Definition artifact_ok : artifact → Prop := artifact_with config_section build_section.

Lemma body_at_kind ss ds k d : body_at ss ds k d → k ∈ kinds ss.
Proof. intros (i & s & Hi & _ & <-). apply list_elem_of_fmap_2. by eapply list_elem_of_lookup_2. Qed.
Lemma blen_head_bytes minor ss digest hl fs prev : entries_fit hl fs prev ss → blen digest = 32%N → blen (head_bytes minor ss digest) = (56 + 64 * N.of_nat (length ss))%N.
Proof. intros Hf Hd. unfold head_bytes. rewrite !blen_app, blen_fixed_head, (blen_entries _ _ _ _ Hf), Hd. lia. Qed.

Section placed.
Context (buf : bytes) (Hb : is_bytes buf) (Hl : (blen buf <= max_int)%N).
Context (minor : N) (ss : list section) (digest rest : bytes) (Hbuf : buf = head_bytes minor ss digest ++ rest).
Context (Hd : blen digest = 32%N) (Htab : table_ok (blen buf) ss).
#[local] Notation hl := (56 + 64 * N.of_nat (length ss))%N.
#[local] Notation tab := (table_of_head minor ss digest).

Lemma first_off s : head ss = Some s → (hl <= s_off s)%N ∧ (hl <= blen buf)%N.
Proof using Hl Hbuf Hd Htab.
  destruct Htab as (_ & Hfit & _). unfold max_int in Hl. pose proof (blen_head_bytes minor _ _ _ _ _ Hfit Hd) as Hh.
  assert (hl <= blen buf)%N as Hle by (rewrite Hbuf, blen_app, Hh; lia).
  intros Hs. split; [|done]. destruct ss as [|s' ss']; [done|]. injection Hs as ->. destruct Hfit as (_ & (_ & _ & _ & Ha) & _). cbn [last] in Ha.
  destruct (aligned_spec (56 + 64 * N.of_nat (length (s :: ss'))) ltac:(lia)). lia.
Qed.
Lemma gaps_ok : check_gaps buf (t_headEnd tab) ss = Ok () ↔ ∃ ds, bodies_fit ss ds ∧ rest = place hl (zip ss ds).
Proof using All.
  pose proof first_off as Hfirst. destruct Htab as (Hlen & Hfit & Hend & _). pose proof (blen_head_bytes minor _ _ _ _ _ Hfit Hd) as Hh. change (t_headEnd tab) with hl.
  assert (hl <= blen buf)%N as Hle by (rewrite Hbuf, blen_app, Hh; lia).
  rewrite (check_gaps_iff buf hl [] ss hl Hb Hl Hfit); [|intros s Hs; by apply Hfirst|done|done|].
  - assert (seg buf hl (blen buf) = rest) as ->; [|done]. rewrite Hbuf. apply seg_tail; [by rewrite Hh|by rewrite blen_app].
  - unfold last_end in *. destruct (last ss) eqn:E; [done|]. apply last_None in E. subst ss. simpl in Hlen. lia.
Qed.

Context (ds : list bytes) (Hds : bodies_fit ss ds) (Hrest : rest = place hl (zip ss ds)).
Lemma body_iff k d : k ∈ kinds ss → body buf tab k = Ok d ↔ body_at ss ds k d.
Proof using All.
  intros Hk. pose proof first_off as Hfirst. destruct Htab as (Hlen & Hfit & Hend & _). pose proof (blen_head_bytes minor _ _ _ _ _ Hfit Hd) as Hh.
  assert (hl <= blen buf)%N as Hle by (rewrite Hbuf, blen_app, Hh; lia).
  assert (∀ i s d, ss !! i = Some s → ds !! i = Some d → slice buf (s_off s) (s_end s) = Ok d) as Hsl.
  { intros i s d' Hi Hd'. eapply (place_bodies buf hl [] ss ds hl); [exact Hl|exact Hfit|exact Hds|intros s0 Hs0; by apply Hfirst|done| | |exact Hi|exact Hd'].
    - unfold last_end in *. destruct (last ss) eqn:E; [done|]. apply last_None in E. subst ss. simpl in Hlen. lia.
    - rewrite <-Hrest, Hbuf. apply seg_tail; [by rewrite Hh|by rewrite blen_app]. }
  assert (NoDup (kinds ss)) as Hnd by (apply (kinds_nodup hl (blen buf) [] ss); [constructor|exact Hfit]).
  apply list_elem_of_fmap in Hk as (s & -> & (i & Hi)%list_elem_of_lookup). unfold body. rewrite (find_kind tab (s_kind s) Hnd i s Hi eq_refl). cbn [default from_option]. unfold id.
  destruct (Forall2_lookup_l _ _ _ _ _ Hds Hi) as (d' & Hd' & _). rewrite (Hsl i s d' Hi Hd'). split.
  - intros [= <-]. by exists i, s.
  - intros (j & s' & Hj & Hdj & Hk'). assert (i = j) as ->.
    { eapply NoDup_lookup; [exact Hnd|..]; unfold kinds; rewrite list_lookup_fmap; [rewrite Hi|rewrite Hj]; simpl; by rewrite ?Hk'. }
    congruence.
Qed.
Lemma body_sub k d : body_at ss ds k d → is_bytes d ∧ (blen d <= max_int)%N.
Proof using All.
  intros Hbd. pose proof (body_at_kind _ _ _ _ Hbd) as Hk. apply (body_iff k d Hk) in Hbd. unfold body in Hbd. apply slice_ok in Hbd as (H1 & H2 & ->).
  split; [by apply is_bytes_seg|]. rewrite blen_seg by done. lia.
Qed.
End placed.

Lemma eqb_reflect a b : negb (eqb a b) = false ↔ a = b.
Proof. by destruct a, b. Qed.

(** ** [NewView] *)

Lemma NewView_unfold addr buf : NewView addr buf =
  if negb (isAligned addr buf) then Err Unaligned else
  tab ← read_table_of buf;
  _ ← check_gaps buf (t_headEnd tab) (t_sections tab);
  cb ← body buf tab KindConfig; cfg ← parseConfig cb;
  bb ← body buf tab KindBuild; build ← parseBuild bb;
  rb ← body buf tab KindRecords; recs ← parseRecords rb;
  _ ← malformed_if (negb (bi_Entries build =? Z.of_N (v_n recs))%Z) EntriesDiffer;
  _ ← malformed_if (negb (bi_Keys build =? Z.of_N (v_nKeys recs))%Z) KeysDiffer;
  _ ← malformed_if (Z.of_N (v_n recs) <? bi_KeylessEntries build)%Z KeylessDiffer;
  ib ← body buf tab KindIDs; ids ← parseIDs recs ib;
  _ ← malformed_if (negb (eqb (has_kind (t_sections tab) KindNgram) (bool_decide (vc_Mode cfg = mode_ngram)))) ModeDiffers;
  '(ng, ex) ← (if has_kind (t_sections tab) KindNgram
    then nb ← body buf tab KindNgram; nv ← parseNgram (v_n recs) nb; Ok (Some nv, None)
    else eb ← body buf tab KindExact; ev ← parseExactSection (v_n recs) eb; Ok (None, Some ev));
  _ ← malformed_if (negb (eqb (has_kind (t_sections tab) KindExactCompanion) (vc_ExactCompanion cfg))) CompanionDiffers;
  xc ← (if has_kind (t_sections tab) KindExactCompanion then xb ← body buf tab KindExactCompanion; ev ← parseExactSection (v_n recs) xb; Ok (Some ev) else Ok None);
  Ok (mkView buf tab cfg build recs ids ng ex xc).
Proof.
  unfold NewView, read_table_of. destruct (negb _); [done|]. destruct (headLen buf) as [hl|]; [|done]. cbn [mbind result_bind].
  destruct (malformed_if _ _); [|done]. cbn [mbind result_bind]. by destruct (slice buf 0 hl).
Qed.

Lemma NewView_sound addr buf v : is_bytes buf → (blen buf <= max_int)%N → NewView addr buf = Ok v →
  ∃ A, artifact_parsed A ∧ buf = artifact_bytes A ∧ v = artifact_view A ∧ isAligned addr buf = true.
Proof.
  intros Hb Hl H. rewrite NewView_unfold in H. destruct (isAligned addr buf) eqn:Hal; [|done]. cbn [negb] in H.
  apply bind_ok in H as (tab & Htab & H). apply read_table_of_iff in Htab as (minor & ss & digest & rest & Hbuf & Hmi & Hd & Hss & ->); [|done..].
  apply bind_ok in H as ([] & (ds & Hds & Hrest)%(gaps_ok buf Hb Hl minor ss digest rest Hbuf Hd Hss) & H).
  pose proof (body_iff buf Hb Hl minor ss digest rest Hbuf Hd Hss ds Hds Hrest) as Hbody. pose proof (body_sub buf Hb Hl minor ss digest rest Hbuf Hd Hss ds Hds Hrest) as Hsub.
  pose proof Hss as (Hlen & Hfit & Hend & (Hreq & P1 & P2 & P3 & P4 & Hidx & Hcomp)). change (t_sections (table_of_head minor ss digest)) with ss in H.
  apply bind_ok in H as (cb & Hcb%Hbody & H); [|done]. apply bind_ok in H as (cfg & Hcfg & H).
  apply bind_ok in H as (bb & Hbb%Hbody & H); [|done]. apply bind_ok in H as (build & Hbuild & H).
  apply bind_ok in H as (rb & Hrb%Hbody & H); [|done]. apply bind_ok in H as (recs & Hrecs & H). destruct (Hsub _ _ Hrb) as [Brb Lrb].
  apply parseRecords_sound in Hrecs as (rs & Hrs & -> & ->); [|done..]. cbn [v_n v_nKeys records_of] in H.
  apply bind_ok in H as (? & He%malformed_if_ok & H). apply negb_false_iff, Z.eqb_eq in He.
  apply bind_ok in H as (? & Hk%malformed_if_ok & H). apply negb_false_iff, Z.eqb_eq in Hk.
  apply bind_ok in H as (? & Hke%malformed_if_ok & H). apply Z.ltb_ge in Hke.
  apply bind_ok in H as (ib & Hib%Hbody & H); [|done]. apply bind_ok in H as (ids & Hids & H). destruct (Hsub _ _ Hib) as [Bib Lib].
  apply (parseIDs_sound rs Hrs Lrb) in Hids as (ords & Hords & -> & ->); [|done..].
  apply bind_ok in H as (? & Hmode%malformed_if_ok & H). apply (proj1 (eqb_reflect _ _)) in Hmode.
  apply bind_ok in H as ([ng ex] & Hix & H). apply bind_ok in H as (? & Hcm%malformed_if_ok & H). apply (proj1 (eqb_reflect _ _)) in Hcm.
  apply bind_ok in H as (xc & Hxc & H). injection H as <-.
  pose proof Hrs as (_ & Hn & _). set (n := N.of_nat (length rs)) in *. unfold max_u32 in Hn.
  assert (∃ ix, match ix with
    | NgramContent no gs => vc_Mode cfg = mode_ngram ∧ ngram_ok n no gs ∧ body_at ss ds KindNgram (ngram_section no (frozen_grams gs)) ∧ ng = Some (ngramView_of no gs) ∧ ex = None
    | ExactContent es => vc_Mode cfg ≠ mode_ngram ∧ exact_ok n es ∧ body_at ss ds KindExact (exact_section es) ∧ ng = None ∧ ex = Some (exactView_of es) end) as (ix & Hixok).
  { unfold has_kind in Hmode, Hix. fold (kinds ss) in *. case_bool_decide as Hng.
    - symmetry in Hmode. apply bool_decide_eq_true in Hmode. apply bind_ok in Hix as (nb & Hnb%Hbody & Hix); [|done]. apply bind_ok in Hix as (nv & Hnv & [= <- <-]). destruct (Hsub _ _ Hnb).
      apply parseNgram_iff in Hnv as (no & gs & ? & -> & ->); [|unfold max_u32; lia|done..]. by exists (NgramContent no gs).
    - symmetry in Hmode. apply bool_decide_eq_false in Hmode. assert (KindExact ∈ kinds ss) as Hex by (destruct (decide (KindExact ∈ kinds ss)); tauto).
      apply bind_ok in Hix as (nb & Hnb%Hbody & Hix); [|done]. apply bind_ok in Hix as (nv & Hnv & [= <- <-]). destruct (Hsub _ _ Hnb).
      apply parseExactSection_iff in Hnv as (es & ? & -> & ->); [|lia|done..]. by exists (ExactContent es). }
  assert (∃ cm, match cm with
    | Some es => vc_ExactCompanion cfg = true ∧ exact_ok n es ∧ body_at ss ds KindExactCompanion (exact_section es)
    | None => vc_ExactCompanion cfg = false ∧ KindExactCompanion ∉ kinds ss end ∧ xc = exactView_of <$> cm) as (cm & Hcmok & ->).
  { unfold has_kind in Hcm, Hxc. fold (kinds ss) in *. case_bool_decide as Hxk.
    - apply bind_ok in Hxc as (nb & Hnb%Hbody & Hxc); [|done]. apply bind_ok in Hxc as (nv & Hnv & [= <-]). destruct (Hsub _ _ Hnb).
      apply parseExactSection_iff in Hnv as (es & ? & -> & ->); [|lia|done..]. by exists (Some es).
    - injection Hxc as <-. by exists None. }
  assert (buf = head_bytes minor ss digest ++ place (blen (head_bytes minor ss digest)) (zip ss ds)) as Hb'.
  { rewrite Hbuf at 1. rewrite Hrest. by rewrite (blen_head_bytes _ _ _ _ _ _ Hfit Hd). }
  exists (mkArtifact minor ss digest ds cfg build rs ords ix cm). unfold artifact_bytes, artifact_view, artifact_parsed, artifact_with, container_layout, a_body, a_head, artifact_bytes, a_head.
  cbn [a_minor a_secs a_digest a_bodies a_cfg a_build a_recs a_ords a_index a_companion]. rewrite <-Hb'. unfold a_n. cbn [a_recs].
  destruct ix as [no gs|es]; destruct Hixok as (? & ? & ? & -> & ->); (split_and!; try done; [by exists cb|by exists bb]).
Qed.

Lemma NewView_complete addr A : is_bytes (artifact_bytes A) → (blen (artifact_bytes A) <= max_int)%N → artifact_parsed A → isAligned addr (artifact_bytes A) = true →
  NewView addr (artifact_bytes A) = Ok (artifact_view A).
Proof.
  intros Hb Hl ((Hmi & Hd & Hss & Hds) & (cb & Hcb & Hcfg) & (bb & Hbb & Hbuild) & (Hrs & Hrb & He & Hk & Hke) & (Hords & Hib) & Hix & Hcm) Hal.
  rewrite NewView_unfold, Hal. cbn [negb]. destruct A as [minor ss digest ds cfg build rs ords ix cm]. unfold a_body, a_n in *. cbn [a_minor a_secs a_digest a_bodies a_cfg a_build a_recs a_ords a_index a_companion] in *.
  set (A := mkArtifact minor ss digest ds cfg build rs ords ix cm) in *. set (buf := artifact_bytes A) in *. pose proof Hss as (Hlen & Hfit & Hend & (Hreq & P1 & P2 & P3 & P4 & Hidx & Hcomp)).
  set (rest := place (56 + 64 * N.of_nat (length ss)) (zip ss ds)).
  assert (buf = head_bytes minor ss digest ++ rest) as Hbuf.
  { unfold buf, artifact_bytes, a_head, A. cbn [a_minor a_secs a_digest a_bodies]. by rewrite (blen_head_bytes _ _ _ _ _ _ Hfit Hd). }
  rewrite (proj2 (read_table_of_iff buf (table_of_head minor ss digest) Hb Hl)) by (by exists minor, ss, digest, rest). cbn [mbind result_bind].
  change (t_sections (table_of_head minor ss digest)) with ss.
  rewrite (proj2 (gaps_ok buf Hb Hl minor ss digest rest Hbuf Hd Hss)) by by exists ds. cbn [mbind result_bind].
  pose proof (body_iff buf Hb Hl minor ss digest rest Hbuf Hd Hss ds Hds eq_refl) as Hbody. pose proof (body_sub buf Hb Hl minor ss digest rest Hbuf Hd Hss ds Hds eq_refl) as Hsub.
  rewrite (proj2 (Hbody _ _ P1) Hcb). cbn [mbind result_bind]. rewrite Hcfg. cbn [mbind result_bind].
  rewrite (proj2 (Hbody _ _ P2) Hbb). cbn [mbind result_bind]. rewrite Hbuild. cbn [mbind result_bind].
  rewrite (proj2 (Hbody _ _ P3) Hrb). cbn [mbind result_bind]. destruct (Hsub _ _ Hrb) as [Brb Lrb]. rewrite parseRecords_complete by done. cbn [mbind result_bind v_n v_nKeys records_of].
  set (n := N.of_nat (length rs)) in *. rewrite He, Hk, !Z.eqb_refl. cbn [negb malformed_if fail_if mbind result_bind]. rewrite (proj2 (Z.ltb_ge _ _)) by done. cbn [malformed_if fail_if mbind result_bind].
  rewrite (proj2 (Hbody _ _ P4) Hib). cbn [mbind result_bind]. destruct (Hsub _ _ Hib) as [Bib Lib]. rewrite (parseIDs_complete rs Hrs Lrb ords Hords Lib). cbn [mbind result_bind].
  pose proof Hrs as (_ & Hn & _). fold n in Hn. unfold max_u32 in Hn. unfold has_kind. fold (kinds ss).
  assert ((if bool_decide (KindNgram ∈ kinds ss)
    then nb ← body buf (table_of_head minor ss digest) KindNgram; nv ← parseNgram n nb; Ok (Some nv, None)
    else eb ← body buf (table_of_head minor ss digest) KindExact; ev ← parseExactSection n eb; Ok (None, Some ev)) =
    Ok (match ix with NgramContent no gs => Some (ngramView_of no gs) | ExactContent _ => None end, match ix with NgramContent _ _ => None | ExactContent es => Some (exactView_of es) end) ∧
    negb (eqb (bool_decide (KindNgram ∈ kinds ss)) (bool_decide (vc_Mode cfg = mode_ngram))) = false) as [-> ->].
  { destruct ix as [no gs|es]; destruct Hix as (Hmode & Hok & Hbd); pose proof (body_at_kind _ _ _ _ Hbd) as Hkin; destruct (Hsub _ _ Hbd) as [B L].
    - rewrite !bool_decide_eq_true_2 by done. split; [|done]. rewrite (proj2 (Hbody _ _ Hkin) Hbd). cbn [mbind result_bind].
      rewrite (proj2 (parseNgram_iff n _ (ngramView_of no gs) ltac:(unfold max_u32; lia) B L)) by by exists no, gs. done.
    - rewrite !bool_decide_eq_false_2 by tauto. split; [|done]. rewrite (proj2 (Hbody _ _ Hkin) Hbd). cbn [mbind result_bind].
      rewrite (proj2 (parseExactSection_iff n _ (exactView_of es) ltac:(lia) B L)) by by exists es. done. }
  cbn [malformed_if fail_if mbind result_bind].
  assert ((if bool_decide (KindExactCompanion ∈ kinds ss) then xb ← body buf (table_of_head minor ss digest) KindExactCompanion; ev ← parseExactSection n xb; Ok (Some ev) else Ok None) = Ok (exactView_of <$> cm) ∧
    negb (eqb (bool_decide (KindExactCompanion ∈ kinds ss)) (vc_ExactCompanion cfg)) = false) as [-> ->].
  { destruct cm as [es|]; [destruct Hcm as (Hc & Hok & Hbd)|destruct Hcm as [Hc Hno]]; rewrite Hc.
    - pose proof (body_at_kind _ _ _ _ Hbd) as Hkin; destruct (Hsub _ _ Hbd) as [B L]. rewrite !bool_decide_eq_true_2 by done. split; [|done]. rewrite (proj2 (Hbody _ _ Hkin) Hbd). cbn [mbind result_bind].
      rewrite (proj2 (parseExactSection_iff n _ (exactView_of es) ltac:(lia) B L)) by by exists es. done.
    - by rewrite !bool_decide_eq_false_2 by done. }
  cbn [malformed_if fail_if mbind result_bind]. done.
Qed.
End views.
