(* ===== verification/PreparedVerify.v ===== *)
(** Verification of an artifact: what each level of [VerifyBytes] establishes about the
    abstract artifact, and what the recomputed base identity binds. *)

From S2P Require Import Prelude.
From S2P Require Import Runtime.
From S2P Require Import Score.
From S2P Require Import Bitmap.
From S2P Require Import Filter.
From S2P Require Import ListConfig.
From S2P Require Import Wire.
From S2P Require Import PreparedFormat.
From S2P Require Import PreparedRecords.
From S2P Require Import PreparedRecordsSpec.
From S2P Require Import PreparedIDs.
From S2P Require Import PreparedIndex.
From S2P Require Import PreparedIndexSpec.
From S2P Require Import PreparedFormatSpec.
From S2P Require Import PreparedJSON.
From S2P Require Import Prepared.
From S2P Require Import PreparedSpec.

#[local] Opaque put_le get_le.

Section verify.
Context {RT : GoRuntime} {BL : BitmapLib} {FO : FloatOps} {FL : FrozenLib} {DL : DigestLib} {JL : JSONLib}.

(** ** The base identity *)

Definition content_ok (r : Rec) : Prop := CanonicalPayload (r_Payload r) = Some (r_Payload r) ∧ (blen (canon_line r) + 1 <= MaxLine)%N.
Definition base_id (rs : list Rec) : bytes := hex (sha256 (lines rs)).

Lemma lines_cons r rs : lines (r :: rs) = (canon_line r ++ [c_nl]) ++ lines rs.
Proof. done. Qed.
Lemma add_line_ok stream r s : add_line stream r = Some s ↔ (blen (canon_line r) + 1 <= MaxLine)%N ∧ s = stream ++ canon_line r ++ [c_nl].
Proof. unfold add_line. destruct (N.ltb_spec MaxLine (blen (canon_line r) + 1)); split; [done|intros [? _]; lia|by intros [= <-]|by intros [_ ->]]. Qed.

(** What is hashed while encoding, and again while verifying. *)
Lemma hash_records_ok i stream rs s : hash_records i stream rs = Ok s ↔ Forall content_ok rs ∧ s = stream ++ lines rs.
Proof.
  revert i stream. induction rs as [|r rs IH]; intros i stream; cbn [hash_records].
  { unfold lines. cbn. rewrite app_nil_r. split; [by intros [= <-]|by intros [_ ->]]. }
  rewrite Forall_cons, lines_cons. unfold content_ok at 1. destruct (CanonicalPayload (r_Payload r)) as [c|] eqn:Ec; [|split; [done|by intros [[[? _] _] _]]].
  case_bool_decide as Hc; cbn [negb fail_if mbind result_bind]; [|split; [done|intros [[[[= ?] _] _] _]; congruence]]. subst c.
  destruct (add_line stream r) as [s'|] eqn:Ea.
  - apply add_line_ok in Ea as [Hl ->]. rewrite IH, <-!app_assoc. tauto.
  - split; [done|]. intros [[[_ Hl] _] _]. pose proof (proj2 (add_line_ok stream r _) (conj Hl eq_refl)). congruence.
Qed.

Section records.
Context (rs : list Rec) (Hok : records_ok rs) (Hlen : (blen (records_section rs) <= max_int)%N).

Lemma keys_read a r b : rs = a ++ r :: b → AppendKeys [] (records_of rs) (N.of_nat (length a)) = Ok (keys_of r) ∧
  ∃ null, KeysNull (records_of rs) (N.of_nat (length a)) = Ok null ∧ (if null then None else Some (keys_of r)) = r_Keys r.
Proof using Hok Hlen.
  intros E. pose proof (Keys_of rs Hok Hlen a r b E) as HK. unfold Keys in HK. apply bind_ok in HK as (null & Hn & HK). unfold AppendKeys.
  rewrite (KeyCount_of rs Hok Hlen a r b E). cbn [mbind result_bind]. rewrite (append_keys_of rs Hok Hlen a r b E _ 0) by (unfold key_num; lia). split; [done|]. exists null. split; [done|].
  destruct null; [by injection HK|]. apply bind_ok in HK as (ks & _ & [= E2]). unfold keys_of. by rewrite <-E2.
Qed.
Lemma rehash_ok fuel i stream s : N.to_nat i + fuel = length rs →
  rehash fuel (records_of rs) i stream = Ok s ↔ Forall content_ok (drop (N.to_nat i) rs) ∧ s = stream ++ lines (drop (N.to_nat i) rs).
Proof using Hok Hlen.
  revert i stream. induction fuel as [|fuel IH]; intros i stream Hi; cbn [rehash].
  { rewrite drop_ge by lia. unfold lines. cbn. rewrite app_nil_r. split; [by intros [= <-]|by intros [_ ->]]. }
  destruct (lookup_lt_is_Some_2 rs (N.to_nat i)) as [r Hr]; [lia|]. pose proof (list_elem_of_split_length _ _ _ Hr) as (a & b & E & Ha).
  assert (i = N.of_nat (length a)) as -> by lia. rewrite Nat2N.id in *.
  destruct (keys_read a r b E) as [-> (null & -> & Hnull)].
  cbn [mbind result_bind]. rewrite (Payload_of rs Hok Hlen a r b E). cbn [mbind result_bind]. rewrite (drop_S _ _ _ Hr), Forall_cons, lines_cons. unfold content_ok at 1.
  destruct (CanonicalPayload (r_Payload r)) as [c|] eqn:Ec; [|split; [done|by intros [[[? _] _] _]]].
  case_bool_decide as Hc; cbn [negb fail_if mbind result_bind]; [|split; [done|intros [[[[= ?] _] _] _]; congruence]]. subst c.
  rewrite (ID_of rs Hok Hlen a r b E). cbn [mbind result_bind]. rewrite Hnull. assert (mkRec (r_ID r) (r_Keys r) (r_Payload r) = r) as -> by by destruct r.
  destruct (add_line stream r) as [s'|] eqn:Ea.
  - apply add_line_ok in Ea as [Hl ->]. rewrite IH by lia. replace (N.to_nat (N.of_nat (length a) + 1)) with (S (length a)) by lia. rewrite <-!app_assoc. tauto.
  - split; [done|]. intros [[[_ Hl] _] _]. pose proof (proj2 (add_line_ok stream r _) (conj Hl eq_refl)). congruence.
Qed.
Lemma check_payloads_ok fuel i : N.to_nat i + fuel = length rs →
  check_payloads fuel (records_of rs) i = Ok () ↔ Forall (λ r, r_Payload r = [] ∨ json_valid (r_Payload r) = true) (drop (N.to_nat i) rs).
Proof using Hok Hlen.
  revert i. induction fuel as [|fuel IH]; intros i Hi; cbn [check_payloads]; [rewrite drop_ge by lia; split; [constructor|done]|].
  destruct (lookup_lt_is_Some_2 rs (N.to_nat i)) as [r Hr]; [lia|]. pose proof (list_elem_of_split_length _ _ _ Hr) as (a & b & E & Ha).
  assert (i = N.of_nat (length a)) as -> by lia. rewrite Nat2N.id in *. rewrite (Payload_of rs Hok Hlen a r b E). cbn [mbind result_bind]. rewrite (drop_S _ _ _ Hr), Forall_cons, bind_malformed.
  destruct (negb (bool_decide (r_Payload r = [])) && negb (json_valid (r_Payload r))) eqn:Ep.
  - split; [done|]. apply andb_true_iff in Ep as [E1%negb_true_iff%bool_decide_eq_false E2%negb_true_iff]. intros [[?|?] _]; congruence.
  - rewrite IH by lia. replace (N.to_nat (N.of_nat (length a) + 1)) with (S (length a)) by lia. apply andb_false_iff in Ep as [E1%negb_false_iff%bool_decide_eq_true|E2%negb_false_iff]; tauto.
Qed.
End records.

(** ** Levels *)

(** The header and table, and the sections [f] selects, hash to their digests. *)
Definition header_digest (A : artifact) : Prop := sha256 (fixed_head (a_minor A) (N.of_nat (length (a_secs A))) ++ (a_secs A ≫= put_entry)) = a_digest A.
Definition sums_ok (A : artifact) (f : N → bool) : Prop := ∀ i s d, a_secs A !! i = Some s → a_bodies A !! i = Some d → f (s_kind s) = true → sha256 d = s_sum s.
Definition full_ok (A : artifact) : Prop :=
  header_digest A ∧ sums_ok A (λ _, true) ∧ Forall content_ok (a_recs A) ∧ BaseID (a_build A) = base_id (a_recs A).
(** The sections whose digest the trusted level checks. *)
Definition trusted_kind (A : artifact) (k : N) : bool := negb (contentSection (artifact_view A) k).
Definition trusted_ok (A : artifact) : Prop :=
  header_digest A ∧ sums_ok A (trusted_kind A) ∧ Forall (λ r, r_Payload r = [] ∨ json_valid (r_Payload r) = true) (a_recs A).

Section artifact.
Context (addr : N) (A : artifact) (HA : artifact_parsed A) (Hb : is_bytes (artifact_bytes A)) (Hl : (blen (artifact_bytes A) <= max_int)%N) (Hal : isAligned addr (artifact_bytes A) = true).

Lemma artifact_parts : records_ok (a_recs A) ∧ (blen (records_section (a_recs A)) <= max_int)%N ∧
  (∀ i s d, a_secs A !! i = Some s → a_bodies A !! i = Some d → slice (artifact_bytes A) (s_off s) (s_end s) = Ok d) ∧
  slice (artifact_bytes A) 0 (t_headEnd (v_tab (artifact_view A)) - digestSize) = Ok (fixed_head (a_minor A) (N.of_nat (length (a_secs A))) ++ (a_secs A ≫= put_entry)).
Proof using All.
  destruct HA as ((Hmi & Hd & Hss & Hds) & _ & _ & (Hrs & Hrb & _) & _). pose proof Hss as (Hlen & Hfit & Hend & _).
  set (rest := place (56 + 64 * N.of_nat (length (a_secs A))) (zip (a_secs A) (a_bodies A))).
  assert (artifact_bytes A = head_bytes (a_minor A) (a_secs A) (a_digest A) ++ rest) as Hbuf.
  { unfold artifact_bytes, a_head. by rewrite (blen_head_bytes _ _ _ _ _ _ Hfit Hd). }
  destruct (body_sub (artifact_bytes A) Hb Hl _ _ _ rest Hbuf Hd Hss (a_bodies A) Hds eq_refl _ _ Hrb) as [_ Hlb]. split_and!; [done..| |].
  - pose proof (first_off (artifact_bytes A) Hl _ _ _ rest Hbuf Hd Hss) as Hfirst. pose proof (blen_head_bytes (a_minor A) _ _ _ _ _ Hfit Hd) as Hh.
    assert (56 + 64 * N.of_nat (length (a_secs A)) <= blen (artifact_bytes A))%N as Hle by (rewrite Hbuf, blen_app, Hh; lia).
    intros i s d Hi Hd'. eapply (place_bodies _ _ [] _ _ _ Hl Hfit Hds); [intros s0 Hs0; by apply Hfirst|exact Hle| | |exact Hi|exact Hd'].
    + unfold last_end in *. destruct (last (a_secs A)) eqn:E; [done|]. apply last_None in E. rewrite E in Hlen. simpl in Hlen. lia.
    + rewrite Hbuf. apply seg_tail; [by rewrite Hh|by rewrite blen_app, Hh].
  - change (t_headEnd (v_tab (artifact_view A))) with (56 + 64 * N.of_nat (length (a_secs A)))%N. change digestSize with 32%N.
    apply (slice_at _ _ _ [] _ (a_digest A ++ rest)); [rewrite Hbuf; unfold head_bytes; by rewrite <-!app_assoc|done|].
    rewrite blen_app, blen_fixed_head, (blen_entries _ _ _ _ Hfit). lia.
Qed.

Lemma check_digests_ok trusted ss ds : Forall2 (λ s d, slice (artifact_bytes A) (s_off s) (s_end s) = Ok d) ss ds →
  check_digests (artifact_view A) trusted ss = Ok () ↔
  ∀ i s d, ss !! i = Some s → ds !! i = Some d → trusted && contentSection (artifact_view A) (s_kind s) = false → sha256 d = s_sum s.
Proof using All.
  induction 1 as [|s d ss ds Hs Hss IH]; cbn [check_digests]; [split; [done|done]|]. rewrite bind_ok. split.
  - intros ([] & H1 & H) [|i] s' d' Hi Hd Hk; [|by apply (proj1 IH H i s' d')]. injection Hi as <-. injection Hd as <-. rewrite Hk in H1.
    change (v_buf (artifact_view A)) with (artifact_bytes A) in H1. rewrite Hs in H1. cbn [mbind result_bind] in H1. by apply fail_if_ok, negb_false_iff, bool_decide_eq_true in H1.
  - intros H. exists (). split; [|apply IH; intros i s' d' Hi Hd; by apply (H (S i))]. specialize (H 0 s d eq_refl eq_refl). destruct (trusted && contentSection (artifact_view A) (s_kind s)); [done|].
    change (v_buf (artifact_view A)) with (artifact_bytes A). rewrite Hs. cbn [mbind result_bind]. by rewrite (bool_decide_eq_true_2 _ (H eq_refl)).
Qed.
Lemma digests_iff trusted : check_digests (artifact_view A) trusted (a_secs A) = Ok () ↔ sums_ok A (λ k, negb (trusted && contentSection (artifact_view A) k)).
Proof using All.
  destruct artifact_parts as (_ & _ & Hsl & _). rewrite (check_digests_ok trusted (a_secs A) (a_bodies A)).
  - unfold sums_ok. setoid_rewrite negb_true_iff. done.
  - destruct HA as ((_ & _ & _ & Hds) & _). apply Forall2_same_length_lookup. split; [by eapply Forall2_length|]. intros i s d. apply Hsl.
Qed.

Lemma verify_structure : VerifyBytes addr (artifact_bytes A) LevelStructure = Ok (artifact_view A, verified (artifact_view A) LevelStructure).
Proof using All. unfold VerifyBytes. by rewrite (NewView_complete addr A Hb Hl HA Hal). Qed.
Lemma verify_full out : VerifyBytes addr (artifact_bytes A) LevelFull = Ok out ↔ full_ok A ∧
  out = (artifact_view A, with_content (with_header (verified (artifact_view A) LevelFull)) (base_id (a_recs A)) (hex (sha256 (artifact_bytes A)))).
Proof using All.
  destruct artifact_parts as (Hrs & Hlr & _ & Hhead). unfold VerifyBytes. rewrite (NewView_complete addr A Hb Hl HA Hal). cbn [mbind result_bind]. rewrite Hhead. cbn [mbind result_bind].
  change (t_digest (v_tab (artifact_view A))) with (a_digest A). change (t_sections (v_tab (artifact_view A))) with (a_secs A). change (v_build (artifact_view A)) with (a_build A).
  unfold full_ok, header_digest. case_bool_decide as Hh; cbn [negb fail_if mbind result_bind]; [|split; [done|by intros [[? _] _]]].
  rewrite bind_ok. setoid_rewrite bind_ok. unfold recomputeBaseID. change (v_records (artifact_view A)) with (records_of (a_recs A)). cbn [v_n records_of]. rewrite Nat2N.id. split.
  - intros ([] & Hs%digests_iff & id & (stream & Hst & [= <-])%bind_ok & H). apply (rehash_ok _ Hrs Hlr) in Hst as [Hc ->]; [|done]. apply bind_ok in H as ([] & Hid%fail_if_ok & H).
    apply negb_false_iff, bool_decide_eq_true in Hid. injection H as <-. split; [|done]. by split_and!.
  - intros [(_ & Hs & Hc & Hid) ->]. exists (). split; [by apply digests_iff|]. exists (base_id (a_recs A)). split.
    + apply bind_ok. exists (lines (a_recs A)). split; [by apply (rehash_ok _ Hrs Hlr)|done].
    + by rewrite (bool_decide_eq_true_2 _ (eq_sym Hid)).
Qed.
Lemma verify_trusted out : VerifyBytes addr (artifact_bytes A) LevelTrusted = Ok out ↔ trusted_ok A ∧ out = (artifact_view A, with_header (verified (artifact_view A) LevelTrusted)).
Proof using All.
  destruct artifact_parts as (Hrs & Hlr & _ & Hhead). unfold VerifyBytes. rewrite (NewView_complete addr A Hb Hl HA Hal). cbn [mbind result_bind]. rewrite Hhead. cbn [mbind result_bind].
  change (t_digest (v_tab (artifact_view A))) with (a_digest A). change (t_sections (v_tab (artifact_view A))) with (a_secs A).
  unfold trusted_ok, header_digest. case_bool_decide as Hh; cbn [negb fail_if mbind result_bind]; [|split; [done|by intros [[? _] _]]].
  rewrite bind_ok. setoid_rewrite bind_ok. unfold checkPayloadSyntax. change (v_records (artifact_view A)) with (records_of (a_recs A)). cbn [v_n records_of]. rewrite Nat2N.id. split.
  - intros ([] & Hs%digests_iff & [] & Hp & [= <-]). apply (check_payloads_ok _ Hrs Hlr) in Hp; [|done]. by split_and!.
  - intros [(_ & Hs & Hp) ->]. exists (). split; [by apply digests_iff|]. exists (). split; [by apply (check_payloads_ok _ Hrs Hlr)|done].
Qed.
End artifact.

(** ** What the base identity binds *)

Lemma hex_char_inj x y : (x < 16)%N → (y < 16)%N → hex_char x = hex_char y → x = y.
Proof. intros Hx Hy. unfold hex_char. destruct (N.ltb_spec x 10), (N.ltb_spec y 10); lia. Qed.
Lemma hex_cons x a : hex (x :: a) = hex_char (x / 16) :: hex_char (x mod 16) :: hex a.
Proof. done. Qed.
Lemma hex_inj a b : is_bytes a → is_bytes b → hex a = hex b → a = b.
Proof.
  intros Ha. revert b. induction Ha as [|x a Hx Ha IH]; intros b Hb E.
  - destruct Hb as [|y b]; [done|]. by rewrite hex_cons in E.
  - destruct Hb as [|y b Hy Hb]; [by rewrite hex_cons in E|]. rewrite !hex_cons in E. injection E as E1 E2 E3. f_equal; [|by apply IH].
    apply hex_char_inj in E1; [|zlia..]. apply hex_char_inj in E2; [|zlia..]. zlia.
Qed.
End verify.

(** The digest is 32 bytes. *)
Class ShaLaws {FO : FloatOps} (DL : DigestLib) := {
  sha256_length : ∀ b, blen (sha256 b) = 32%N;
  sha256_bytes : ∀ b, is_bytes (sha256 b);
}.

Section binding.
Context {RT : GoRuntime} {BL : BitmapLib} {FO : FloatOps} {FL : FrozenLib} {DL : DigestLib} {SL : ShaLaws DL} {JL : JSONLib} {JW : JSONLaws JL}.

Lemma content_no_nl rs : Forall content_ok rs → Forall (λ r, c_nl ∉ r_Payload r) rs.
Proof using JW.
  intros H. eapply Forall_impl; [exact H|]. intros r [Hc _]. unfold CanonicalPayload in Hc. case_bool_decide as Hp; [rewrite Hp; apply not_elem_of_nil|]. by eapply compact_line.
Qed.
Lemma base_id_binds a b : Forall rec_ok a → Forall rec_ok b → Forall content_ok a → Forall content_ok b → base_id a = base_id b →
  a = b ∨ lines a ≠ lines b ∧ sha256 (lines a) = sha256 (lines b).
Proof using SL JW.
  intros Ra Rb Ca Cb E. apply hex_inj in E; [|apply sha256_bytes..]. destruct (decide (lines a = lines b)) as [El|Hne].
  - left. apply lines_inj; [done..| | |done]; by apply content_no_nl.
  - by right.
Qed.
End binding.
