(* ===== verification/PreparedEncode.v ===== *)
(** What [Encode] returns is an artifact of its contents: every level of verification
    accepts it, and the view over it holds the records and indexes that were encoded. *)

From S2P Require Import Prelude.
From S2P Require Import Runtime.
From S2P Require Import Score.
From S2P Require Import Bitmap.
From S2P Require Import Filter.
From S2P Require Import ListConfig.
From S2P Require Import Wire.
From S2P Require Import PreparedFormat.
From S2P Require Import PreparedRecords.
From S2P Require Import PreparedRecordsSpec.
From S2P Require Import PreparedIDs.
From S2P Require Import Frozen.
From S2P Require Import FrozenSpec.
From S2P Require Import PreparedIndex.
From S2P Require Import PreparedIndexSpec.
From S2P Require Import PreparedFormatSpec.
From S2P Require Import PreparedJSON.
From S2P Require Import Prepared.
From S2P Require Import PreparedSpec.
From S2P Require Import PreparedVerify.
From S2P Require JSONTokens.
From S2P Require JSONTokens.
From S2P Require Ngram.
From S2P Require Exact.

#[local] Opaque put_le get_le.

(** ** The ids section *)

Lemma sorted_adjacent (ids : list bytes) : StronglySorted bytes_le ids →
  forallb (λ ab : bytes * bytes, negb (bool_decide (ab.1 = ab.2))) (zip ids (drop 1 ids)) = true → Sorted bytes_lt ids.
Proof.
  intros Hs. induction Hs as [|x l Hs IH Hf]; [constructor|]. cbn [drop]. rewrite drop_0. destruct l as [|y l]; [repeat constructor|].
  cbn [zip zip_with forallb]. rewrite andb_true_iff. intros [Hxy%negb_true_iff%bool_decide_eq_false Hr]. constructor; [apply IH; cbn [drop]; by rewrite drop_0|].
  constructor. apply Forall_cons in Hf as [Hle _]. cbn in Hxy. apply bytes_nle_lt. intros Hge. apply Hxy. by apply (anti_symm bytes_le).
Qed.
Lemma encodeIDs_ok {RT : GoRuntime} rs b : encodeIDs rs = Ok b → ∃ ords, ids_ok rs ords ∧ b = ids_section ords.
Proof.
  unfold encodeIDs. destruct (forallb _ _) eqn:E; [|done]. intros [= <-]. set (os := sorted_ords rs) in *.
  assert (os ≡ₚ seq 0 (length rs)) as Hp by apply sort_slice_perm. exists (N.of_nat <$> os). unfold ids_section. rewrite length_fmap.
  assert (length os = length rs) as Hl by (rewrite Hp; apply length_seq). rewrite Hl. split; [|done]. split_and!; [by rewrite length_fmap| |].
  - apply Forall_fmap, Forall_forall. intros o Ho. rewrite Hp in Ho. apply elem_of_seq in Ho. simpl. lia.
  - assert (id_at rs <$> (N.of_nat <$> os) = (λ o, from_option r_ID [] (rs !! o)) <$> os) as ->.
    { rewrite <-list_fmap_compose. apply list_fmap_ext. intros ? o _. unfold id_at. simpl. by rewrite Nat2N.id. }
    apply sorted_adjacent; [|done]. pose proof (sort_slice_by_sorted (λ o, from_option r_ID [] (rs !! o)) (seq 0 (length rs))) as Hs. fold (sorted_ords rs) in Hs. fold os in Hs.
    clear -Hs. induction Hs as [|o l Hs IH Hf]; [constructor|]. rewrite fmap_cons. constructor; [done|]. apply Forall_fmap. exact Hf.
Qed.

(** ** Layout *)

Section layout.
Context {FO : FloatOps} {DL : DigestLib} {SL : ShaLaws DL}.

(** What the bodies take, each with its padding. *)
Definition room (bodies : list (N * bytes)) : N := foldr (λ b n, blen b.2 + 32 + n)%N 0%N bodies.

Lemma lay_out_ok off bodies secs : lay_out off bodies = Some secs → (off mod 32 = 0)%N → (off + room bodies <= 2 ^ 64 - 32)%N →
  Forall (λ b, b.1 < 2 ^ 32)%N bodies → Forall (λ b, b.2 ≠ []) bodies →
  kinds secs = bodies.*1 ∧ bodies_fit secs bodies.*2 ∧ Forall2 (λ s d, s_sum s = sha256 d) secs bodies.*2 ∧ Forall (λ s, s_flags s = 1)%N secs ∧
  (∀ s, head secs = Some s → s_off s = off) ∧ (last_end off secs <= off + room bodies)%N ∧
  blen (place off (zip secs bodies.*2)) = (last_end off secs - off)%N ∧ (off <= last_end off secs)%N ∧
  ∀ hl fs prev, (match last prev with None => aligned hl <= off | Some p => s_off p < off ∧ sec_end p <= off end)%N →
    NoDup (kinds prev ++ bodies.*1) → (last_end off secs <= fs)%N → entries_fit hl fs prev secs.
Proof using SL.
  revert off secs. induction bodies as [|[k d] bodies IH]; intros off secs H Ha Hr Hk Hne; cbn [lay_out] in H.
  { injection H as <-. cbn. split_and!; try done; try lia; try constructor. unfold blen. simpl. lia. }
  apply Forall_cons in Hk as [Hk Hks], Hne as [Hd Hne]. cbn [fst snd] in *. cbn [room foldr] in Hr. fold (room bodies) in Hr. cbn [snd] in Hr.
  set (s := mkSection k flagRequired off (blen d) (sha256 d)) in *. assert (s_end s = off + blen d)%N as Es by (unfold s_end, s; cbn [s_off s_length]; apply add64_small; lia).
  assert (blen d ≠ 0)%N as Hd0 by (intros E%blen_nil; done). rewrite Es in H. destruct (aligned_wide (off + blen d)) as [Hal Hal0]; [lia|].
  assert (align32 (off + blen d) = Some (aligned (off + blen d))) as Ea.
  { unfold aligned. unfold align32, Align. destruct (N.ltb_spec (2 ^ 64 - 1 - (32 - 1)) (off + blen d)); [lia|]. done. }
  rewrite Ea in H. cbn [mbind option_bind] in H. destruct (lay_out (aligned (off + blen d)) bodies) as [ss|] eqn:El; [|done]. cbn [mbind option_bind] in H. injection H as <-.
  destruct (IH _ _ El Hal0 ltac:(lia) Hks Hne) as (K & F & S & Fl & Hh & Hend & Hpl & Hle & Hfit).
  assert (last_end off (s :: ss) = match ss with [] => off + blen d | _ => last_end (aligned (off + blen d)) ss end)%N as EL.
  { unfold last_end. rewrite last_cons. destruct ss as [|s' ss']; [done|]. destruct (last (s' :: ss')) eqn:E; [done|by apply last_None in E]. }
  split_and!.
  - unfold kinds in *. rewrite !fmap_cons. cbn [fst]. by rewrite K.
  - rewrite fmap_cons. by constructor.
  - rewrite fmap_cons. by constructor.
  - by constructor.
  - by intros ? [= <-].
  - rewrite EL. cbn [room foldr snd]. fold (room bodies). destruct ss; lia.
  - rewrite fmap_cons. cbn [zip zip_with place snd]. rewrite Es. cbn [s_off s]. replace (off - off)%N with 0%N by lia. change (replicate (N.to_nat 0) 0%N) with ([] : bytes). cbn [app]. rewrite blen_app, EL.
    destruct ss as [|s' ss']; [cbn [zip zip_with place]; change (blen []) with 0%N; lia|]. destruct bodies as [|[k' d'] bodies]; [by apply Forall2_nil_inv_r in F|].
    assert (s_off s' = aligned (off + blen d)) as Hs' by by apply Hh. cbn [fmap list_fmap snd zip zip_with place] in Hpl |- *. rewrite Hs' in *.
    replace (aligned (off + blen d) - aligned (off + blen d))%N with 0%N in Hpl by lia. change (replicate (N.to_nat 0) 0%N) with ([] : bytes) in Hpl. cbn [app] in Hpl. rewrite blen_app.
    assert (blen (replicate (N.to_nat (aligned (off + blen d) - (off + blen d))) 0%N) = aligned (off + blen d) - (off + blen d))%N as -> by (unfold blen at 1; rewrite length_replicate; lia).
    rewrite Hpl. lia.
  - rewrite EL. destruct ss; lia.
  - intros hl fs prev Hprev Hnd Hfs. assert (off + blen d <= fs)%N as Hfs1 by (rewrite EL in Hfs; destruct ss; lia). cbn [entries_fit]. split_and!.
    + unfold sec_ok, s. cbn [s_kind s_flags s_off s_length s_sum]. split_and!; try done; try lia. apply sha256_length.
    + rewrite fmap_cons in Hnd. unfold entry_fits, sec_end, s. cbn [s_kind s_off s_length]. split_and!; try done.
      apply NoDup_app in Hnd as (_ & Hd' & _). intros Hin. by apply (Hd' _ Hin); left.
    + destruct ss as [|s' ss'] eqn:Ess; [done|]. rewrite <-Ess in *. apply Hfit; [|rewrite fmap_cons in Hnd; unfold kinds; rewrite fmap_app, <-app_assoc; exact Hnd|rewrite EL in Hfs; by rewrite Ess in *].
      rewrite last_snoc. unfold sec_end, s. cbn [s_off s_length]. lia.
Qed.
End layout.

(** ** The artifact of the contents *)

Section encode.
Context {RT : GoRuntime} {BL : BitmapLib} {FO : FloatOps} {FL : FrozenLib} {FW : FrozenLaws FL} {DL : DigestLib} {SL : ShaLaws DL} {JL : JSONLib} {JW : JSONLaws JL}.

Definition exact_in (i : Exact.Index) : Prop := exact_finished i ∧ (N.of_nat (length (concat (exact_entries i).*2)) <= max_u32)%N.
(** What the builder guarantees of the contents: finished indexes, counters that are
    Go integers, and provenance that is text. *)
Record contents_ok (c : Contents) : Prop := {
  co_ngram : ∀ i, c_Ngram c = Some i → ngram_finished i ∧ (N.of_nat (size (Ngram.postings i)) <= max_u32)%N;
  co_exact : ∀ i, c_Exact c = Some i ∨ c_ExactCompanion c = Some i → exact_in i;
  co_keys : (total_keys (c_Records c) <= max_u32)%N;
  co_ints : Forall int64_ok [c_DroppedKeys c; c_KeylessEntries c; c_Collapsed c];
  co_text : Forall (λ s, utf8_valid s = true) [c_Source c; c_CreatedAt c; c_InputSHA256 c];
}.

Lemma check_records_ok i rs u : check_records i rs = Ok u → Forall rec_ok rs.
Proof.
  revert i. induction rs as [|r rs IH]; intros i H; [constructor|]. cbn [check_records] in H.
  apply bind_ok in H as (? & H1%fail_if_ok%bool_decide_eq_false & H). apply bind_ok in H as (? & H2%fail_if_ok%negb_false_iff & H). apply bind_ok in H as (? & H3 & H).
  constructor; [|by eapply IH]. split_and!; [done..|]. clear -H3. revert H3. induction (keys_of r) as [|k ks IHk]; [intros _; constructor|]. cbn [check_keys]. intros H.
  apply bind_ok in H as (? & H1%fail_if_ok%negb_false_iff & H). constructor; [done|by apply IHk].
Qed.
Lemma total_key_count_eq rs : total_key_count rs = total_keys rs.
Proof. induction rs as [|r rs IH]; [done|]. rewrite total_keys_cons, <-IH. done. Qed.

Lemma ascii_valid s : Forall (λ c, (c < 128)%N) s → utf8_valid s = true.
Proof.
  intros H. unfold utf8_valid. rewrite decode_ascii by done. apply forallb_forall. intros rc Hin%list_elem_of_In. apply list_elem_of_fmap in Hin as (c & -> & Hc).
  rewrite Forall_forall in H. specialize (H c Hc). unfold valid_chunk, rune_error. cbn [fst snd]. destruct (N.eqb_spec c 65533); [lia|done].
Qed.
Lemma hex64_valid s : isHex64 s = true → utf8_valid s = true.
Proof.
  unfold isHex64. intros [_ H]%andb_true_iff. apply ascii_valid, Forall_forall. intros c Hc. rewrite forallb_forall in H. specialize (H c (proj1 (list_elem_of_In _ _) Hc)). unfold in_range in H. lia.
Qed.
Lemma name_valid s : ValidListName s = true → utf8_valid s = true.
Proof.
  unfold ValidListName. destruct s as [|c s]; [done|]. intros [[Hc Hs]%andb_true_iff _]%andb_true_iff. apply ascii_valid. constructor; [unfold name_char in Hc; lia|].
  apply Forall_forall. intros x Hx. rewrite forallb_forall in Hs. specialize (Hs x (proj1 (list_elem_of_In _ _) Hx)). unfold name_char in Hs. lia.
Qed.
Lemma hex_isHex64 b : blen b = 32%N → is_bytes b → isHex64 (hex b) = true.
Proof.
  intros Hl Hb. unfold isHex64. apply andb_true_iff. split.
  - apply Nat.eqb_eq. unfold blen in Hl. assert (length (hex b) = 2 * length b) as ->; [|lia]. clear. induction b as [|x b IH]; [done|]. rewrite hex_cons. cbn [length]. lia.
  - apply forallb_forall. intros c Hc%list_elem_of_In. clear Hl. induction Hb as [|x b Hx Hb IH]; [by apply elem_of_nil in Hc|]. rewrite hex_cons in Hc.
    assert (∀ d, (d < 16)%N → in_range 48 57 (hex_char d) || in_range 97 102 (hex_char d) = true) as Hd.
    { intros d Hd. unfold hex_char, in_range. destruct (N.ltb_spec d 10); lia. }
    apply elem_of_cons in Hc as [->|Hc]; [apply Hd; zlia|]. apply elem_of_cons in Hc as [->|Hc]; [apply Hd; zlia|by apply IH].
Qed.

(** The metadata sections read back. *)
Lemma parseConfig_ok name ad cd l cl js lc : marshal_configDoc (mkConfigDoc name ad cd l) = Some js → (blen js <= MaxMetaSection)%N →
  ValidListName name = true → isHex64 ad = true → isHex64 cd = true → parseListConfig l = Some lc → compact l = Some cl →
  parseConfig js = Ok (mkConfig name (mi_Mode lc) (mi_Grams lc) (mi_StripSpaces lc) (mi_ExactCompanion lc) ad cd cl).
Proof using JW.
  intros Hm Hl Hn Ha Hc Hp Hcl. unfold marshal_configDoc in Hm. cbn [cd_List cd_Name cd_AnalyzerDigest cd_ConfigDigest] in Hm. rewrite Hcl in Hm. cbn [mbind option_bind] in Hm. injection Hm as <-.
  pose proof (decode_config_spec (mkConfigDoc name ad cd l) cl Hcl) as Hd. cbn [cd_Name cd_AnalyzerDigest cd_ConfigDigest] in Hd.
  unfold sane_config in Hd. cbn [cd_Name cd_AnalyzerDigest cd_ConfigDigest] in Hd. rewrite !sanitize_valid in Hd by (first [by apply name_valid|by apply hex64_valid]).
  set (js := config_json (mkConfigDoc name ad cd cl)) in *.
  unfold parseConfig. destruct (N.ltb_spec MaxMetaSection (blen js)); [lia|]. cbn [malformed_if fail_if mbind result_bind].
  assert (strict_config js = Some (mkConfigDoc name ad cd cl)) as ->.
  { unfold strict_config. rewrite Hd. cbn [mbind option_bind]. unfold marshal_configDoc. cbn [cd_List cd_Name cd_AnalyzerDigest cd_ConfigDigest].
    rewrite (compact_idem _ _ Hcl). cbn [mbind option_bind]. case_bool_decide as Hne; [done|by destruct Hne]. }
  cbn [cd_List cd_Name cd_AnalyzerDigest cd_ConfigDigest]. rewrite Hn, Ha, Hc. cbn [negb orb malformed_if fail_if mbind result_bind].
  assert (parseListConfig cl = Some lc) as ->; [|done]. unfold parseListConfig in *. by rewrite (decode_mirror_spec _ _ Hcl).
Qed.
Lemma parseBuild_ok b : (blen (marshal_build b) <= MaxMetaSection)%N → build_ints b → isHex64 (BaseID b) = true →
  Forall (λ s, utf8_valid s = true) [Source b; CreatedAt b; InputSHA256 b] → Forall (λ z, 0 <= z)%Z [bi_Entries b; bi_Keys b; bi_DroppedKeys b; bi_KeylessEntries b; bi_Collapsed b] →
  parseBuild (marshal_build b) = Ok b.
Proof using JW.
  intros Hl Hi Hh Ht Hz. unfold parseBuild. destruct (N.ltb_spec MaxMetaSection (blen (marshal_build b))); [lia|]. cbn [malformed_if fail_if mbind result_bind].
  rewrite !Forall_cons in Ht; rewrite !Forall_cons in Hz. destruct Ht as (T1 & T2 & T3 & _), Hz as (Z1 & Z2 & Z3 & Z4 & Z5 & _).
  assert (strict_build (marshal_build b) = Some b) as ->.
  { unfold strict_build, marshal_build. rewrite decode_build_spec by done. cbn [mbind option_bind].
    assert (sane_build b = b) as ->; [|by rewrite bool_decide_eq_true_2]. unfold sane_build. rewrite !sanitize_valid by (first [done|by apply hex64_valid]). by destruct b. }
  rewrite Hh. cbn [negb malformed_if fail_if mbind result_bind].
  destruct ((bi_Entries b <? 0) || (bi_Keys b <? 0) || (bi_DroppedKeys b <? 0) || (bi_KeylessEntries b <? 0) || (bi_Collapsed b <? 0))%Z eqn:E; [lia|]. done.
Qed.

(** ** The metadata rules are what the parsers check *)

Lemma all_of {A} `{EqDecision A} (l : list A) (P : A → bool) c : c ∈ l → forallb P l = true → P c = true.
Proof. rewrite forallb_forall. intros Hc H. by apply H, list_elem_of_In. Qed.
Lemma hex_digest_iff s : isHex64 s = true ↔ hex_digest s.
Proof.
  unfold isHex64, hex_digest. rewrite andb_true_iff, Nat.eqb_eq, forallb_forall. unfold in_range. split; intros [Hl H]; (split; [done|]); intros c Hc.
  - apply list_elem_of_In in Hc. specialize (H c Hc).
    assert ((48 <= c <= 57 ∨ 97 <= c <= 102)%N) as Hr by lia.
    assert (c ∈ (N.of_nat <$> seq 48 10 ++ seq 97 6)) as Hin.
    { apply list_elem_of_fmap. exists (N.to_nat c). split; [lia|]. rewrite elem_of_app, !elem_of_seq. lia. }
    exact (proj1 (bool_decide_eq_true _) (all_of _ (λ c, bool_decide (c ∈ $"0123456789abcdef")) c Hin eq_refl)).
  - apply list_elem_of_In, H in Hc. exact (all_of _ (λ c, in_range 48 57 c || in_range 97 102 c) c Hc eq_refl).
Qed.
Lemma name_char_iff c : name_char false c = true ↔ c ∈ $"abcdefghijklmnopqrstuvwxyz0123456789_-".
Proof.
  unfold name_char. split.
  - intros H. assert ((97 <= c <= 122 ∨ 48 <= c <= 57 ∨ c = 95 ∨ c = 45)%N) as Hr by lia. clear H.
    assert (c ∈ (N.of_nat <$> seq 97 26 ++ seq 48 10 ++ [95; 45])) as Hin.
    { apply list_elem_of_fmap. exists (N.to_nat c). split; [lia|]. rewrite !elem_of_app, !elem_of_seq, !elem_of_cons. lia. }
    exact (proj1 (bool_decide_eq_true _) (all_of _ (λ c, bool_decide (c ∈ $"abcdefghijklmnopqrstuvwxyz0123456789_-")) c Hin eq_refl)).
  - intros Hc. exact (all_of _ (name_char false) c Hc eq_refl).
Qed.
Lemma list_name_iff s : ValidListName s = true ↔ list_name s.
Proof.
  unfold list_name, ValidListName. destruct s as [|c s]; [split; [done|intros [? _]; simpl in *; lia]|].
  rewrite !andb_true_iff, forallb_forall, Nat.leb_le. cbn [length head]. split.
  - intros [[Hc Hs] Hl]. split_and!; [lia|lia| | |].
    + intros d [->|Hd]%elem_of_cons; apply name_char_iff; [unfold name_char in *; lia|by apply Hs, list_elem_of_In].
    + intros [= ->]. done.
    + intros [= ->]. done.
  - intros (Hl & H & H1 & H2). split_and!; [|intros d Hd%list_elem_of_In; apply name_char_iff, H; by right|lia].
    specialize (H c ltac:(by left)). apply name_char_iff in H. unfold name_char in *. assert (c ≠ 95 ∧ c ≠ 45)%N by naive_solver. lia.
Qed.
Lemma mirror_iff raw m : parseListConfig raw = Some m ↔ decode_mirror raw = Some m ∧ mirror_ok m.
Proof.
  unfold parseListConfig, mirror_ok. destruct (decode_mirror raw) as [lc|]; cbn [mbind option_bind]; [|naive_solver].
  change ($"ngram") with mode_ngram. change ($"exact") with mode_exact. assert (mode_ngram ≠ mode_exact) as Hne by done.
  case_bool_decide as Hm; [case_bool_decide as Hg; [|destruct (forallb _ _) eqn:Hf]|case_bool_decide as Hm'; [destruct (mi_ExactCompanion lc) eqn:Hx|]].
  - split; [done|]. intros [[= <-] [(_ & ? & _)|[? _]]]; [done|congruence].
  - split; [|by intros [[= <-] _]]. intros [= <-]. split; [done|]. left. split_and!; [done..|]. intros g Hin%list_elem_of_In.
    rewrite forallb_forall in Hf. specialize (Hf g Hin). lia.
  - split; [done|]. intros [[= <-] [(_ & _ & Hin)|[? _]]]; [|congruence]. exfalso. apply not_true_iff_false in Hf. apply Hf, forallb_forall.
    intros g Hgm%list_elem_of_In. specialize (Hin g Hgm). lia.
  - split; [done|]. intros [[= <-] [[? _]|[_ ?]]]; congruence.
  - split; [|by intros [[= <-] _]]. intros [= <-]. split; [done|]. by right.
  - split; [done|]. intros [[= <-] [[? _]|[? _]]]; congruence.
Qed.
Lemma sanitize_fixed s : sanitize s = s → utf8_valid s = true.
Proof.
  intros <-. unfold sanitize, string_of_runes. induction (runes s) as [|r rs IH]; [done|]. by rewrite bind_cons, JSONTokens.utf8_valid_encode.
Qed.

Lemma config_section_iff cb cfg : parseConfig cb = Ok cfg ↔ config_section cb cfg.
Proof using JW.
  unfold config_section. split.
  - unfold parseConfig. intros (? & Hl%malformed_if_ok%N.ltb_ge & H)%bind_ok. split; [done|].
    destruct (strict_config cb) as [doc|] eqn:Hs; [|done]. apply bind_ok in H as (? & Hn%malformed_if_ok%negb_false_iff%list_name_iff & H).
    apply bind_ok in H as (? & Hd%malformed_if_ok & H). apply orb_false_iff in Hd as [Ha%negb_false_iff%hex_digest_iff Hc%negb_false_iff%hex_digest_iff].
    destruct (parseListConfig (cd_List doc)) as [m|] eqn:Hm; [|done]. injection H as <-. apply mirror_iff in Hm as [Hm Hok]. exists m.
    unfold strict_config in Hs. destruct (decode_config cb) as [d|] eqn:Ed; [|done]. cbn [mbind option_bind] in Hs. unfold marshal_configDoc in Hs.
    destruct (compact (cd_List d)) as [l|] eqn:El; cbn [mbind option_bind] in Hs; [|done]. case_bool_decide as Ecb; [|done]. injection Hs as ->.
    rewrite <-Ecb, (decode_config_spec _ _ El) in Ed. assert (cd_List doc = l) as Hl' by (by injection Ed as <-).
    cbn [vc_Name vc_Mode vc_Grams vc_StripSpaces vc_ExactCompanion vc_AnalyzerDigest vc_ConfigDigest vc_ListConfig]. rewrite Hl' in *. by split_and!.
  - intros (Hl & m & Hm & Hok & Hc & -> & Hn%list_name_iff & Ha%hex_digest_iff & Hd%hex_digest_iff & E1 & E2 & E3 & E4).
    destruct cfg as [name mode grams strip comp ad cd l]. cbn in *. subst. apply (parseConfig_ok _ _ _ l); try done.
    + unfold marshal_configDoc. cbn [cd_List]. by rewrite Hc.
    + by apply mirror_iff.
Qed.
Lemma build_section_iff bb b : parseBuild bb = Ok b ↔ build_section bb b.
Proof using JW.
  unfold build_section. split.
  - unfold parseBuild. intros (? & Hl%malformed_if_ok%N.ltb_ge & H)%bind_ok. split; [done|].
    destruct (strict_build bb) as [d|] eqn:Hs; [|done]. apply bind_ok in H as (? & Hh%malformed_if_ok%negb_false_iff%hex_digest_iff & H).
    apply bind_ok in H as (? & Hz%malformed_if_ok & H). injection H as ->. unfold strict_build in Hs.
    destruct (decode_build bb) as [d|] eqn:Ed; [|done]. cbn [mbind option_bind] in Hs. case_bool_decide as Eb; [|done]. injection Hs as ->.
    pose proof (decode_build_ints _ _ Ed) as Hi. unfold marshal_build in Eb. rewrite <-Eb, decode_build_spec in Ed by done. injection Ed as Es. split_and!; [done|done| |].
    + unfold sane_build in Es. destruct b as [bid z1 z2 z3 z4 z5 src cre inp]. injection Es as _ H1 H2 H3. cbn [Source CreatedAt InputSHA256].
      intros s. rewrite !elem_of_cons, elem_of_nil. intros [->|[->|[->|[]]]]; by apply sanitize_fixed.
    + unfold build_ints in Hi. rewrite Forall_forall in Hi. intros z Hin. specialize (Hi z Hin). unfold int64_ok in Hi. split; [|lia].
      revert z Hin Hi. intros z Hin _. rewrite !elem_of_cons, elem_of_nil in Hin. lia.
  - intros (Hl & -> & Hh & Ht & Hz). change (build_json b) with (marshal_build b) in *. apply parseBuild_ok; [done| |by apply hex_digest_iff| |].
    + unfold build_ints. apply Forall_forall. intros z Hin. specialize (Hz z Hin). unfold int64_ok. lia.
    + by apply Forall_forall.
    + apply Forall_forall. intros z Hin. apply (Hz z Hin).
Qed.
Lemma artifact_parsed_iff A : artifact_parsed A ↔ artifact_ok A.
Proof using JW.
  unfold artifact_parsed, artifact_ok, artifact_with. by setoid_rewrite config_section_iff; setoid_rewrite build_section_iff.
Qed.

Lemma blen_place at_ ss ds : length ss = length ds → (foldr (λ d n, blen d + n)%N 0%N ds <= blen (place at_ (zip ss ds)))%N.
Proof.
  revert at_ ds. induction ss as [|s ss IH]; intros at_ [|d ds] Hl; try done. cbn [zip zip_with place foldr]. rewrite !blen_app. specialize (IH (s_end s) ds ltac:(by injection Hl)). unfold zip in *. lia.
Qed.
Lemma lay_out_length off bodies secs : lay_out off bodies = Some secs → length secs = length bodies.
Proof.
  revert off secs. induction bodies as [|[k d] bodies IH]; intros off secs H; cbn [lay_out] in H; [by injection H as <-|].
  destruct (align32 _); [|done]. cbn [mbind option_bind] in H. destruct (lay_out _ bodies) eqn:E; [|done]. injection H as <-. cbn [length]. f_equal. by eapply IH.
Qed.

(** The entries of an exact index, and the grams of an n-gram index. *)
Definition holds_exact (i : Exact.Index) (es : list (bytes * list N)) : Prop :=
  (∀ k run, (k, run) ∈ es → Exact.Lookup i k = Some run) ∧ (∀ k, k ∉ es.*1 → Exact.Lookup i k = Some []).
Definition holds_ngram (i : Ngram.Index) (gs : list (bytes * list (N * container))) : Prop :=
  (∀ g cs, (g, cs) ∈ gs → Ngram.posted (Ngram.postings i) g = frozen_elems cs) ∧ (∀ g, g ∉ gs.*1 → Ngram.posted (Ngram.postings i) g = []).
Definition holds_index (c : Contents) (lc : listConfigMirror) (ix : index_content) : Prop :=
  match ix with
  | NgramContent no gs => mi_Mode lc = mode_ngram ∧ ∃ i, c_Ngram c = Some i ∧ no = Ngram.numOrds i ∧ holds_ngram i gs ∧
      Ngram.Grams (Ngram.cfg i) = mi_Grams lc ∧ Ngram.StripSpaces (Ngram.cfg i) = mi_StripSpaces lc
  | ExactContent es => mi_Mode lc = mode_exact ∧ ∃ i, c_Exact c = Some i ∧ holds_exact i es
  end.
Definition holds_companion (c : Contents) (lc : listConfigMirror) (cm : option (list (bytes * list N))) : Prop :=
  match cm, c_ExactCompanion c with
  | Some es, Some i => mi_ExactCompanion lc = true ∧ holds_exact i es
  | None, None => mi_ExactCompanion lc = false
  | _, _ => False
  end.
Definition index_section (ix : index_content) : bytes :=
  match ix with NgramContent no gs => ngram_section no (frozen_grams gs) | ExactContent es => exact_section es end.
Definition index_content_ok (n : N) (ix : index_content) : Prop :=
  match ix with NgramContent no gs => ngram_ok n no gs | ExactContent es => exact_ok n es end.

Lemma parseListConfig_mode raw lc : parseListConfig raw = Some lc → mi_Mode lc = mode_ngram ∨ mi_Mode lc = mode_exact ∧ mi_ExactCompanion lc = false.
Proof.
  unfold parseListConfig. destruct (decode_mirror raw) as [m|]; [|done]. cbn [mbind option_bind].
  case_bool_decide; [case_bool_decide; [done|]; destruct (forallb _ _); [intros [= <-]; by left|done]|].
  case_bool_decide; [|done]. destruct (mi_ExactCompanion m) eqn:E; [done|]. intros [= <-]. by right.
Qed.
Lemma encode_index_ok c lc ib cb : contents_ok c → encode_index c lc = Ok (ib, cb) → mi_Mode lc = mode_ngram ∨ mi_Mode lc = mode_exact ∧ mi_ExactCompanion lc = false →
  ∃ ix cm, holds_index c lc ix ∧ holds_companion c lc cm ∧ index_content_ok (N.of_nat (length (c_Records c))) ix ∧ ib = index_section ix ∧
    cb = exact_section <$> cm ∧ (match cm with Some es => exact_ok (N.of_nat (length (c_Records c))) es ∧ mi_Mode lc = mode_ngram | None => True end).
Proof using FW.
  intros Hc H Hmode. set (n := N.of_nat (length (c_Records c))) in *. unfold encode_index in H. fold n in H. case_bool_decide as Hm.
  - destruct (c_Ngram c) as [idx|] eqn:En; [|done]. destruct (c_Exact c) eqn:Ee; [done|].
    apply bind_ok in H as (? & Hcfg%fail_if_ok & H). apply orb_false_iff in Hcfg as [Hg%negb_false_iff%bool_decide_eq_true Hs%negb_false_iff%eqb_prop].
    apply bind_ok in H as (b & Hb & H). destruct (co_ngram c Hc idx En) as [Hf Hsz]. apply encodeNgram_ok in Hb as (gs & Hok & -> & _ & Hin & Hout); [|done..].
    assert (holds_index c lc (NgramContent (Ngram.numOrds idx) gs)) as Hh by (split; [done|]; exists idx; by split_and!).
    destruct (c_ExactCompanion c) as [xc|] eqn:Ex.
    + apply bind_ok in H as (? & Hx%fail_if_ok%negb_false_iff & H). apply bind_ok in H as (xb & Hxb & [= <- <-]). destruct (co_exact c Hc xc (or_intror Ex)) as [Hf2 Hp2].
      apply encodeExact_ok in Hxb as (Hok2 & -> & _ & Hin2 & Hout2); [|done..]. exists (NgramContent (Ngram.numOrds idx) gs), (Some (exact_entries xc)).
      unfold holds_companion. rewrite Ex. by split_and!.
    + apply bind_ok in H as (? & Hx%fail_if_ok & [= <- <-]). exists (NgramContent (Ngram.numOrds idx) gs), None. unfold holds_companion. rewrite Ex. by split_and!.
  - destruct Hmode as [?|[Hme Hmc]]; [done|]. destruct (c_Exact c) as [idx|] eqn:Ee; [|done]. destruct (c_Ngram c) eqn:En; [done|]. destruct (c_ExactCompanion c) eqn:Ex; [done|].
    apply bind_ok in H as (b & Hb & [= <- <-]). destruct (co_exact c Hc idx (or_introl Ee)) as [Hf Hp]. apply encodeExact_ok in Hb as (Hok & -> & _ & Hin & Hout); [|done..].
    exists (ExactContent (exact_entries idx)), None. unfold holds_companion. rewrite Ex. split_and!; try done. split; [done|]. exists idx. by split_and!.
Qed.

(** ** The sections of an encoded artifact *)

Definition index_kind (ix : index_content) : N := match ix with NgramContent _ _ => KindNgram | ExactContent _ => KindExact end.
Definition bodies_of (cj bj : bytes) (rs : list Rec) (ords : list N) (ix : index_content) (cm : option (list (bytes * list N))) : list (N * bytes) :=
  [(KindConfig, cj); (KindBuild, bj); (KindRecords, records_section rs); (KindIDs, ids_section ords); (index_kind ix, index_section ix)] ++
  match cm with Some es => [(KindExactCompanion, exact_section es)] | None => [] end.

Lemma bodies_nonempty cj bj rs ords ix cm : cj ≠ [] → bj ≠ [] → Forall (λ b, b.2 ≠ []) (bodies_of cj bj rs ords ix cm).
Proof.
  intros Hc Hb. assert (∀ w rest, put64 w ++ rest ≠ []) as Hp.
  { intros w rest E. apply (f_equal blen) in E. rewrite blen_app, blen_put64 in E. change (blen []) with 0%N in E. lia. }
  assert (∀ es, exact_section es ≠ []) as He by (intros es; apply Hp). unfold bodies_of. apply Forall_app. split.
  - rewrite !Forall_cons. cbn [snd]. split_and!; try (done || apply Hp || constructor). destruct ix; cbn [index_section]; [apply Hp|apply He].
  - destruct cm; [|constructor]. apply Forall_singleton. apply He.
Qed.
Lemma bodies_kinds cj bj rs ords ix cm : match cm with Some _ => index_kind ix = KindNgram | None => True end →
  (bodies_of cj bj rs ords ix cm).*1 = [1; 2; 3; 4; index_kind ix]%N ++ match cm with Some _ => [7%N] | None => [] end ∧
  NoDup (bodies_of cj bj rs ords ix cm).*1 ∧ Forall (λ b, b.1 < 2 ^ 32)%N (bodies_of cj bj rs ords ix cm).
Proof.
  intros H. assert ((bodies_of cj bj rs ords ix cm).*1 = [1; 2; 3; 4; index_kind ix]%N ++ match cm with Some _ => [7%N] | None => [] end) as E by by destruct cm.
  split_and!; [done| |].
  - rewrite E. destruct cm; [rewrite H|destruct ix]; cbn [index_kind app]; apply (bool_decide_unpack _); vm_compute; done.
  - enough (Forall (λ k, (k < 2 ^ 32)%N) (bodies_of cj bj rs ords ix cm).*1) as Hf by (by apply Forall_fmap in Hf). rewrite E. destruct cm; [rewrite H|destruct ix]; cbn [index_kind app]; repeat constructor; done.
Qed.
Lemma body_at_lookup secs (bodies : list (N * bytes)) i k d : kinds secs = bodies.*1 → bodies !! i = Some (k, d) → body_at secs bodies.*2 k d.
Proof.
  intros Hk Hi. assert (kinds secs !! i = Some k) as Hki by (rewrite Hk, list_lookup_fmap, Hi; done). unfold kinds in Hki. rewrite list_lookup_fmap in Hki.
  destruct (secs !! i) as [s|] eqn:Es; [|done]. injection Hki as Hki. exists i, s. split_and!; [done| |done]. by rewrite list_lookup_fmap, Hi.
Qed.
Lemma encode_kinds_ok secs cj bj rs ords ix cm : match cm with Some _ => index_kind ix = KindNgram | None => True end →
  kinds secs = (bodies_of cj bj rs ords ix cm).*1 → kinds_ok secs.
Proof.
  intros H E. destruct (bodies_kinds cj bj rs ords ix cm H) as (Ek & _ & _). rewrite Ek in E.
  assert (∀ s, s ∈ secs → knownKind (s_kind s) = true) as Hknown.
  { intros s Hs. assert (s_kind s ∈ kinds secs) as Hin by (by apply list_elem_of_fmap_2). rewrite E in Hin. clear -Hin H.
    assert (Forall (λ k, knownKind k = true) ([1; 2; 3; 4; index_kind ix]%N ++ match cm with Some _ => [7%N] | None => [] end)) as Hf; [destruct cm; [rewrite H|destruct ix]; repeat constructor|].
    rewrite Forall_forall in Hf. by apply Hf. }
  unfold kinds_ok. rewrite E. split_and!.
  - intros s Hs Hk. by rewrite Hknown in Hk.
  - destruct cm, ix; cbn; set_solver.
  - destruct cm, ix; cbn; set_solver.
  - destruct cm, ix; cbn; set_solver.
  - destruct cm, ix; cbn; set_solver.
  - destruct cm; [rewrite H|destruct ix]; cbn [index_kind app]; split; intros Hx; first [by (apply (bool_decide_unpack _); vm_compute)|by (exfalso; revert Hx; apply (bool_decide_unpack _); vm_compute)].
  - destruct cm; [rewrite H|destruct ix]; cbn [index_kind app]; intros Hx; first [by (apply (bool_decide_unpack _); vm_compute)|by (exfalso; revert Hx; apply (bool_decide_unpack _); vm_compute)].
Qed.

Lemma lay_out_heads off bodies secs : lay_out off bodies = Some secs → (∀ s, s ∈ secs → blen (s_sum s) = 32%N) ∧ kinds secs = bodies.*1.
Proof using SL.
  revert off secs. induction bodies as [|[k d] bodies IH]; intros off secs H; cbn [lay_out] in H.
  { injection H as <-. split; [|done]. intros s Hs. by apply elem_of_nil in Hs. }
  destruct (align32 _); [|done]. cbn [mbind option_bind] in H. destruct (lay_out _ bodies) as [l|] eqn:E; [|done]. injection H as <-.
  destruct (IH _ _ E) as [H1 H2]. split; [|unfold kinds in *; rewrite !fmap_cons; cbn [fst s_kind]; by rewrite H2].
  intros s [->|Hs]%elem_of_cons; [apply sha256_length|by apply H1].
Qed.

(** Sections laid out behind their head are a container that the table describes. *)
Lemma layout_container bodies secs : lay_out (aligned (56 + 64 * N.of_nat (length bodies))) bodies = Some secs → 1 ≤ length bodies ≤ 64 →
  Forall (λ b, b.1 < 2 ^ 32)%N bodies → Forall (λ b, b.2 ≠ []) bodies → NoDup bodies.*1 → kinds_ok secs →
  let head := encodeHead secs in
  (blen (head ++ place (blen head) (zip secs bodies.*2)) <= max_int)%N →
  let A cfg build rs ords ix cm := mkArtifact 1 secs (sha256 (encode_table secs)) bodies.*2 cfg build rs ords ix cm in
  ∀ cfg build rs ords ix cm, container_layout (A cfg build rs ords ix cm) ∧ artifact_bytes (A cfg build rs ords ix cm) = head ++ place (blen head) (zip secs bodies.*2) ∧
    header_digest (A cfg build rs ords ix cm) ∧ sums_ok (A cfg build rs ords ix cm) (λ _, true) ∧ kinds secs = bodies.*1.
Proof using SL.
  intros Hlay Hlen Hk Hne Hnd Hkinds head Hmax A cfg build rs ords ix cm. pose proof (lay_out_length _ _ _ Hlay) as Hls. set (n := length bodies) in *.
  assert (encode_table secs = fixed_head 1 (N.of_nat (length secs)) ++ (secs ≫= put_entry)) as Et.
  { unfold encode_table, fixed_head. change MajorVersion with 1%N. change MinorVersion with 1%N. by rewrite <-!app_assoc. }
  assert (∀ s, s ∈ secs → blen (s_sum s) = 32%N) as Hsum by (by apply (lay_out_heads _ _ _ Hlay)).
  assert (blen (secs ≫= put_entry) = 64 * N.of_nat (length secs))%N as He.
  { clear -Hsum. induction secs as [|s secs IH]; [done|]. rewrite bind_cons, blen_app, put_entry_raw, blen_raw_entry by (apply Hsum; by left).
    rewrite IH by (intros x Hx; apply Hsum; by right). cbn [length]. lia. }
  assert (blen head = 56 + 64 * N.of_nat n)%N as Hh by (unfold head, encodeHead; rewrite blen_app, Et, blen_app, blen_fixed_head, He, sha256_length, Hls; lia).
  set (hl := (56 + 64 * N.of_nat n)%N) in *. destruct (aligned_spec hl) as [Hal Hal0]; [unfold hl; lia|].
  assert (room bodies <= blen (place hl (zip secs bodies.*2)) + 32 * N.of_nat n)%N as Hroom.
  { etrans; [|apply N.add_le_mono_r, blen_place; by rewrite length_fmap]. unfold n. clear. induction bodies as [|[k d] bodies IH]; [done|]. cbn [room foldr fmap list_fmap snd length]. fold (room bodies). lia. }
  rewrite blen_app, Hh in Hmax. unfold max_int in Hmax. rewrite Hh.
  destruct (lay_out_ok (aligned hl) bodies secs Hlay Hal0) as (K & F & S & Fl & Hhead & Hend & Hpl & Hle & Hfit); [unfold hl in *; lia|done|done|].
  assert (blen (place hl (zip secs bodies.*2)) = (last_end (aligned hl) secs - hl)%N ∧ last_end 0 secs = last_end (aligned hl) secs) as [Hpl' Hend0].
  { destruct secs as [|s secs]; [simpl in Hls; lia|]. destruct bodies as [|[k d] bodies]; [done|]. rewrite fmap_cons in Hpl |- *. cbn [zip zip_with place snd] in Hpl |- *. rewrite (Hhead s eq_refl) in *.
    rewrite blen_app in Hpl |- *. replace (aligned hl - aligned hl)%N with 0%N in Hpl by lia. change (blen (replicate (N.to_nat 0) 0%N)) with 0%N in Hpl.
    assert (blen (replicate (N.to_nat (aligned hl - hl)) 0%N) = (aligned hl - hl)%N) as -> by (unfold blen; rewrite length_replicate; lia).
    split; [lia|]. unfold last_end. rewrite last_cons. by destruct (last secs). }
  assert (entries_fit hl (last_end 0 secs) [] secs) as Hfits.
  { rewrite Hend0. apply Hfit; [cbn [last]; lia|cbn [kinds fmap list_fmap app]; done|lia]. }
  assert (a_head (A cfg build rs ords ix cm) = head) as Hahead.
  { unfold a_head, A. cbn [a_minor a_secs a_digest]. unfold head_bytes, head, encodeHead. by rewrite Et, <-!app_assoc. }
  assert (artifact_bytes (A cfg build rs ords ix cm) = head ++ place hl (zip secs bodies.*2)) as Hbytes.
  { unfold artifact_bytes. rewrite Hahead, Hh. done. }
  split_and!.
  - unfold container_layout. rewrite Hbytes, blen_app, Hh, Hpl'. unfold A. cbn [a_minor a_secs a_digest a_bodies]. split_and!; [done|apply sha256_length| |done].
    unfold table_ok. rewrite Hls. fold n hl. replace (hl + (last_end (aligned hl) secs - hl))%N with (last_end 0 secs) by lia. exact (conj Hlen (conj Hfits (conj eq_refl Hkinds))).
  - done.
  - unfold header_digest, A. cbn [a_minor a_secs a_digest]. by rewrite Et.
  - intros i s d Hi Hd _. unfold A in Hi, Hd. cbn [a_secs a_bodies] in Hi, Hd. symmetry. by eapply Forall2_lookup_lr in S.
  - done.
Qed.

(** What [Encode] returns is the artifact of the contents. *)
Lemma Encode_artifact c buf su : Encode c = Ok (buf, su) → contents_ok c → (blen buf <= max_int)%N →
  ∃ A lc, parseListConfig (c_ListConfig c) = Some lc ∧ artifact_parsed A ∧ buf = artifact_bytes A ∧ full_ok A ∧ a_recs A = c_Records c ∧
    holds_index c lc (a_index A) ∧ holds_companion c lc (a_companion A) ∧
    (∃ cl, compact (c_ListConfig c) = Some cl ∧
      a_cfg A = mkConfig (c_Name c) (mi_Mode lc) (mi_Grams lc) (mi_StripSpaces lc) (mi_ExactCompanion lc) (c_AnalyzerDigest c) (c_ConfigDigest c) cl) ∧
    a_build A = mkBuildInfo (base_id (c_Records c)) (Z.of_nat (length (c_Records c))) (Z.of_N (total_keys (c_Records c))) (c_DroppedKeys c) (c_KeylessEntries c)
      (c_Collapsed c) (c_Source c) (c_CreatedAt c) (c_InputSHA256 c) ∧
    su = mkSummary (base_id (c_Records c)) (hex (sha256 buf)) (N.of_nat (length (c_Records c))) (total_keys (c_Records c)) (blen buf).
Proof using FW SL JW.
  intros H Hc Hmax. unfold Encode in H. apply bind_ok in H as (? & Hname%fail_if_ok%negb_false_iff & H).
  destruct (parseListConfig (c_ListConfig c)) as [lc|] eqn:Elc; [|done]. set (n := N.of_nat (length (c_Records c))) in *. cbn zeta in H.
  apply bind_ok in H as (? & Hdig%fail_if_ok & H). apply orb_false_iff in Hdig as [Had%negb_false_iff Hcd%negb_false_iff].
  apply bind_ok in H as (? & Hn%fail_if_ok%N.ltb_ge & H). apply bind_ok in H as (? & Hcnt%fail_if_ok & H).
  apply bind_ok in H as ([ib cb] & Hix & H). apply (encode_index_ok c lc ib cb Hc) in Hix as (ix & cm & Hhi & Hhc & Hixok & -> & -> & Hcmok); [|by eapply parseListConfig_mode].
  apply bind_ok in H as ([[recs keys] bid] & Hrecs & H). unfold encodeRecords in Hrecs. apply bind_ok in Hrecs as (? & Hrok%check_records_ok & Hrecs).
  apply bind_ok in Hrecs as (? & Hrlen%fail_if_ok%N.ltb_ge & Hrecs). apply bind_ok in Hrecs as (stream & Hst & [= <- <- <-]). apply hash_records_ok in Hst as [Hcont ->]. cbn [app] in H. fold (base_id (c_Records c)) in H.
  apply bind_ok in H as (ids & (ords & Hords & ->)%encodeIDs_ok & H).
  destruct (marshal_configDoc _) as [cj|] eqn:Ecj; [|done]. apply bind_ok in H as (? & Hmeta%fail_if_ok & H). apply orb_false_iff in Hmeta as [Hcl%N.ltb_ge Hbl%N.ltb_ge].
  set (bi := mkBuildInfo _ _ _ _ _ _ _ _ _) in *. set (bj := marshal_build bi) in *.
  assert (match cm with Some _ => index_kind ix = KindNgram | None => True end) as Hkind.
  { destruct cm; [|done]. destruct Hcmok as [_ Hm]. destruct ix as [|es]; [done|]. destruct Hhi as [Hm2 _]. by rewrite Hm in Hm2. }
  assert ((if bool_decide (mi_Mode lc = mode_exact) then KindExact else KindNgram) = index_kind ix) as Eik.
  { destruct ix; destruct Hhi as [-> _]; done. }
  assert ([(KindConfig, cj); (KindBuild, bj); (KindRecords, records_section (c_Records c)); (KindIDs, ids_section ords); ((if bool_decide (mi_Mode lc = mode_exact) then KindExact else KindNgram), index_section ix)] ++
    match exact_section <$> cm with Some x => [(KindExactCompanion, x)] | None => [] end = bodies_of cj bj (c_Records c) ords ix cm) as Eb by (rewrite Eik; by destruct cm).
  cbn zeta in H. cbn [app] in H, Eb. rewrite Eb in H. set (bodies := bodies_of cj bj (c_Records c) ords ix cm) in *.
  assert (headerSize + N.of_nat (length bodies) * tableEntrySize + digestSize = 56 + 64 * N.of_nat (length bodies))%N as Eh by (change headerSize with 24%N; change tableEntrySize with 64%N; change digestSize with 32%N; lia).
  rewrite Eh in H. destruct (lay_out _ bodies) as [secs|] eqn:Elay; [|done]. apply bind_ok in H as (? & _ & [= <- <-]).
  unfold marshal_configDoc in Ecj. cbn [cd_List cd_Name cd_AnalyzerDigest cd_ConfigDigest] in Ecj. destruct (compact (c_ListConfig c)) as [cl|] eqn:Ecl; [|done]. cbn [mbind option_bind] in Ecj. injection Ecj as Ecj.
  destruct (bodies_kinds cj bj (c_Records c) ords ix cm Hkind) as (_ & Hnd & Hk32). fold bodies in Hnd, Hk32.
  assert (Forall (λ b, b.2 ≠ []) bodies) as Hne by (apply bodies_nonempty; [by rewrite <-Ecj|done]).
  assert (1 ≤ length bodies ≤ 64) as Hlen by (unfold bodies, bodies_of; rewrite length_app; destruct cm; simpl; lia).
  assert (kinds secs = bodies.*1) as Hks0 by (by apply (lay_out_heads _ _ _ Elay)).
  pose proof (encode_kinds_ok secs cj bj (c_Records c) ords ix cm Hkind Hks0) as Hkok.
  set (cfg := mkConfig (c_Name c) (mi_Mode lc) (mi_Grams lc) (mi_StripSpaces lc) (mi_ExactCompanion lc) (c_AnalyzerDigest c) (c_ConfigDigest c) cl).
  destruct (layout_container bodies secs Elay Hlen Hk32 Hne Hnd Hkok Hmax cfg bi (c_Records c) ords ix cm) as (Hcont' & Hbytes & Hhd & Hsums & _).
  set (A := mkArtifact 1 secs (sha256 (encode_table secs)) bodies.*2 cfg bi (c_Records c) ords ix cm) in *.
  assert (∀ i k d, bodies !! i = Some (k, d) → a_body A k d) as Hbody by (intros i k d Hi; by eapply body_at_lookup).
  assert (isHex64 (base_id (c_Records c)) = true) as Hbid by (apply hex_isHex64; [apply sha256_length|apply sha256_bytes]).
  assert (parseConfig cj = Ok cfg) as Hpc.
  { eapply (parseConfig_ok _ _ _ (c_ListConfig c)); try done. unfold marshal_configDoc. cbn [cd_List cd_Name cd_AnalyzerDigest cd_ConfigDigest]. rewrite Ecl. cbn [mbind option_bind]. by rewrite Ecj. }
  pose proof (co_ints c Hc) as Hints. rewrite !Forall_cons in Hints. destruct Hints as (I1 & I2 & I3 & _). pose proof (co_keys c Hc) as Hkeys. unfold max_u32 in *.
  assert (parseBuild bj = Ok bi) as Hpb.
  { apply parseBuild_ok; [done| |done|exact (co_text c Hc)|].
    - unfold build_ints, bi. cbn [bi_Entries bi_Keys bi_DroppedKeys bi_KeylessEntries bi_Collapsed]. rewrite total_key_count_eq. repeat constructor; unfold int64_ok in *; lia.
    - unfold bi. cbn [bi_Entries bi_Keys bi_DroppedKeys bi_KeylessEntries bi_Collapsed]. repeat constructor; lia. }
  exists A, lc. split; [done|]. split; [|split_and!; try done].
  - unfold artifact_parsed, artifact_with. change (a_cfg A) with cfg. change (a_build A) with bi. change (a_recs A) with (c_Records c). change (a_ords A) with ords. change (a_index A) with ix. change (a_companion A) with cm. change (a_n A) with n. change (a_secs A) with secs.
    split_and!; try done.
    + exists cj. split; [by apply (Hbody 0)|done].
    + exists bj. split; [by apply (Hbody 1)|done].
    + by apply (Hbody 2).
    + unfold bi. cbn [bi_KeylessEntries]. lia.
    + by apply (Hbody 3).
    + destruct ix as [no gs|es]; destruct Hhi as [Hm _]; (split_and!; [unfold cfg; cbn [vc_Mode]; by rewrite Hm|done|by apply (Hbody 4)]).
    + unfold holds_companion in Hhc. unfold cfg. cbn [vc_ExactCompanion]. destruct cm as [es|], (c_ExactCompanion c); try done.
      * destruct Hhc as [Hmc _]. destruct Hcmok as [Hmok _]. split_and!; [done|done|by apply (Hbody 5)].
      * split; [done|]. rewrite Hks0. destruct (bodies_kinds cj bj (c_Records c) ords ix None I) as (Ek & _). unfold bodies. rewrite Ek. clear. destruct ix; apply (bool_decide_unpack _); vm_compute; done.
  - by exists cl.
  - change (a_build A) with bi. unfold bi. rewrite total_key_count_eq. f_equal. unfold n. lia.
Qed.
End encode.
