(* ===== verification/PreparedSafe.v ===== *)
(** No read out of range: whatever bytes a buffer holds, the parsers of a prepared
    artifact end with a result or a refusal, never with Go's run-time panic. *)

From S2P Require Import Prelude.
From S2P Require Import Runtime.
From S2P Require Import Score.
From S2P Require Import Bitmap.
From S2P Require Import ListConfig.
From S2P Require Import Wire.
From S2P Require Import PreparedFormat.
From S2P Require Import PreparedRecords.
From S2P Require Import PreparedRecordsSpec.
From S2P Require Import PreparedIDs.
From S2P Require Import Frozen.
From S2P Require Import FrozenSpec.
From S2P Require Import PreparedIndex.
From S2P Require Import PreparedIndexSpec.
From S2P Require Import PreparedFormatSpec.
From S2P Require Import PreparedJSON.
From S2P Require Import Prepared.
From S2P Require Import PreparedSpec.
From S2P Require Import PreparedVerify.

#[local] Opaque put_le get_le bitsetWords.

(** ** Computations that do not panic *)

Definition no_panic {A} (r : result prepared_error A) : Prop := r ≠ Err Panic.

Lemma np_ok {A} (x : A) : no_panic (Ok x).
Proof. done. Qed.
Lemma np_bind {A B} (r : result prepared_error A) (f : A → result prepared_error B) : no_panic r → (∀ x, r = Ok x → no_panic (f x)) → no_panic (r ≫= f).
Proof. destruct r as [x|e]; [intros _ H; by apply H|by intros H _ [= ->]]. Qed.
Lemma bind_assoc {A B C} (r : result prepared_error A) (f : A → result prepared_error B) (g : B → result prepared_error C) : (r ≫= f) ≫= g = r ≫= λ x, f x ≫= g.
Proof. by destruct r. Qed.
Lemma np_if c m : no_panic (malformed_if c m).
Proof. by destruct c. Qed.
Lemma np_guard {B} c m (f : () → result prepared_error B) : (c = false → no_panic (f ())) → no_panic (malformed_if c m ≫= f).
Proof. destruct c; [done|]. intros H. by apply H. Qed.
Lemma np_slice b lo hi : (lo <= hi)%N → (hi <= blen b)%N → no_panic (slice b lo hi).
Proof. intros H1 H2. unfold slice. by rewrite span_ok. Qed.
Lemma np_read w b off : (off + w <= blen b)%N → no_panic (read_le Panic w b off).
Proof. intros H. by rewrite read_le_ok. Qed.

(** The words read are words. *)
Lemma read_bound k b off v : is_bytes b → read_le Panic (N.of_nat k) b off = Ok v → (v < 256 ^ N.of_nat k)%N.
Proof.
  intros Hb. unfold read_le. destruct (N.ltb_spec (blen b) (off + N.of_nat k)); [done|]. intros [= <-].
  pose proof (get_le_lt (seg b off (off + N.of_nat k)) ltac:(by apply is_bytes_seg)) as H'. pose proof (blen_seg b off (off + N.of_nat k)) as Hs. unfold blen in *.
  replace (length (seg b off (off + N.of_nat k))) with k in H' by lia. done.
Qed.
Lemma le64_bound b off v : is_bytes b → le64 b off = Ok v → (v < 2 ^ 64)%N.
Proof. apply (read_bound 8). Qed.
Lemma le32_bound b off v : is_bytes b → le32 b off = Ok v → (v < 2 ^ 32)%N.
Proof. apply (read_bound 4). Qed.
Lemma le16_bound b off v : is_bytes b → le16 b off = Ok v → (v < 2 ^ 16)%N.
Proof. apply (read_bound 2). Qed.

(** One bind: a guard, a read in range, a slice in range. *)
Ltac np_step :=
  match goal with
  | |- no_panic (malformed_if _ _ ≫= _) => apply np_guard; intros ?
  | |- no_panic (le64 _ _ ≫= _) => apply np_bind; [apply (np_read 8); lia|intros ? ?]
  | |- no_panic (le32 _ _ ≫= _) => apply np_bind; [apply (np_read 4); lia|intros ? ?]
  | |- no_panic (le16 _ _ ≫= _) => apply np_bind; [apply (np_read 2); lia|intros ? ?]
  | |- no_panic (slice _ _ _ ≫= _) => apply np_bind; [apply np_slice; lia|intros ? ?]
  | |- no_panic (Ok _) => apply np_ok
  | |- no_panic (Err _) => done
  | |- no_panic (malformed _) => done
  | |- no_panic (malformed_if _ _) => apply np_if
  | |- no_panic (if ?c then _ else _) => destruct c eqn:?
  end.
Ltac np := repeat np_step.

(** ** The container *)

Lemma np_headLen b : no_panic (headLen b).
Proof. unfold headLen. destruct (N.ltb_spec (blen b) headerSize) as [|H]; [done|]. change headerSize with 24%N in *. np. Qed.
Lemma np_read_entry e i : (64 <= blen e)%N → no_panic (read_entry e i).
Proof. intros H. unfold read_entry. np. Qed.
Lemma np_check_entry s i hl prev pe fs : no_panic (check_entry s i hl prev pe fs).
Proof. unfold check_entry. np. destruct (last prev); np. Qed.
Lemma np_read_entries fuel i head hl fs prev pe : (24 + (i + N.of_nat fuel) * 64 <= blen head)%N → no_panic (read_entries fuel i head hl fs prev pe).
Proof.
  revert i prev pe. induction fuel as [|fuel IH]; intros i prev pe H; cbn [read_entries]; [done|]. change headerSize with 24%N. change tableEntrySize with 64%N.
  apply np_bind; [apply np_slice; lia|]. intros e (_ & _ & ->)%slice_ok. apply np_bind; [apply np_read_entry; rewrite blen_seg; lia|]. intros s _.
  apply np_bind; [apply np_check_entry|]. intros _ _. apply IH. lia.
Qed.
Lemma np_check_required ss : no_panic (check_required ss).
Proof. induction ss as [|s ss IH]; cbn [check_required]; [done|]. by destruct (_ && _). Qed.
Lemma np_check_present ss ks : no_panic (check_present ss ks).
Proof. induction ks as [|k ks IH]; cbn [check_present]; [done|]. np. exact IH. Qed.
Lemma np_parseTable head fs : is_bytes head → no_panic (parseTable head fs).
Proof.
  intros Hb. unfold parseTable. apply np_bind; [apply np_headLen|]. intros hl (minor & n & rest & -> & Hm & Hn & ->)%headLen_iff; [|done].
  apply np_guard. intros [_ Hl%N.ltb_ge]%orb_false_iff. change digestSize with 32%N. assert (n < 2 ^ 32)%N as Hn32 by lia. destruct (fixed_head_reads minor n rest Hm Hn32) as (-> & -> & ->).
  cbn [mbind result_bind]. np_step. apply np_bind; [apply np_read_entries; lia|]. intros [ss pe] _. np_step.
  apply np_bind; [apply np_check_required|]. intros _ _. apply np_bind; [apply np_check_present|]. intros _ _. np.
Qed.
Lemma np_read_table buf : is_bytes buf → no_panic (read_table_of buf).
Proof.
  intros Hb. unfold read_table_of. apply np_bind; [apply np_headLen|]. intros hl _. np_step. apply np_bind; [apply np_slice; lia|]. intros head (_ & _ & ->)%slice_ok.
  by apply np_parseTable, is_bytes_seg.
Qed.

(** ** The records and ids *)

Lemma np_count b off elem reserve : no_panic (count b off elem reserve).
Proof. unfold count. destruct (N.ltb_spec (blen b) (off + 8)); [done|]. np. Qed.

Section spans.
Context (rows keyRows blob : bytes) (Hr : is_bytes rows) (Hk : is_bytes keyRows) (Hlen : (blen blob <= max_int)%N).

Lemma np_take_span cur off l u i : (cur <= blen blob)%N → no_panic (take_span blob cur off l u i).
Proof using Hlen.
  intros Hc. unfold max_int in Hlen. unfold take_span. np_step. apply np_guard. intros Hl%N.ltb_ge. rewrite sub64_small in Hl by lia. destruct u; [|done].
  apply np_bind; [|done]. rewrite add64_small by lia. np.
Qed.
Lemma np_take_keys fuel k cur i : (cur <= blen blob)%N → (16 * (k + N.of_nat fuel) <= blen keyRows)%N →
  no_panic (take_keys fuel keyRows blob k cur i) ∧ ∀ c, take_keys fuel keyRows blob k cur i = Ok c → (c <= blen blob)%N.
Proof using Hlen.
  revert k cur. induction fuel as [|fuel IH]; intros k cur Hc Hl; cbn [take_keys]; [split; [done|by intros c [= <-]]|]. split.
  - do 2 np_step. apply np_bind; [by apply np_take_span|]. intros c (_ & Hc' & _ & ->)%take_span_ok; [|done..]. apply IH; lia.
  - intros c (? & _ & H)%bind_ok. apply bind_ok in H as (? & _ & H). apply bind_ok in H as (? & (_ & Hc' & _ & ->)%take_span_ok & H); [|done..]. eapply IH; [| |exact H]; lia.
Qed.
Lemma np_take_record nk i cur kIdx : (cur <= blen blob)%N → (kIdx <= nk)%N → (nk < 2 ^ 32)%N → (48 * (i + 1) <= blen rows)%N → (16 * nk <= blen keyRows)%N →
  no_panic (take_record rows keyRows blob nk i cur kIdx) ∧
  ∀ c k, take_record rows keyRows blob nk i cur kIdx = Ok (c, k) → (c <= blen blob)%N ∧ (k <= nk)%N.
Proof using Hlen.
  intros Hc Hkx Hnk Hrows Hkeys. unfold take_record. split.
  - do 3 np_step. apply np_bind; [by apply np_take_span|]. intros c (_ & Hc' & _ & ->)%take_span_ok; [|done..]. do 4 np_step. apply np_guard. intros Hkc%N.ltb_ge. rewrite sub64_small in Hkc by lia.
    destruct (np_take_keys (N.to_nat (N.ldiff x2 keysNullFlag)) kIdx (cur + x) i Hc') as [P1 P2]; [lia|].
    apply np_bind; [exact P1|]. intros c' Hc2%P2. do 2 np_step. apply np_bind; [by apply np_take_span|]. done.
  - intros c k H. apply bind_ok in H as (l & _ & H). apply bind_ok in H as (? & _ & H). apply bind_ok in H as (? & _ & H). apply bind_ok in H as (c1 & (_ & Hc' & _ & ->)%take_span_ok & H); [|done..].
    apply bind_ok in H as (ks & _ & H). apply bind_ok in H as (kc & _ & H). apply bind_ok in H as (? & _ & H). apply bind_ok in H as (? & _ & H).
    apply bind_ok in H as (? & Hkc%malformed_if_ok%N.ltb_ge & H). rewrite sub64_small in Hkc by lia. apply bind_ok in H as (c2 & Hc2 & H).
    destruct (np_take_keys (N.to_nat (N.ldiff kc keysNullFlag)) kIdx (cur + l) i Hc') as [_ H2]; [lia|]. apply H2 in Hc2.
    apply bind_ok in H as (? & _ & H). apply bind_ok in H as (? & _ & H). apply bind_ok in H as (? & (_ & Hc3 & _ & ->)%take_span_ok & H); [|done..].
    injection H as <- <-. rewrite add64_small by lia. lia.
Qed.
Lemma np_take_records fuel nk i cur kIdx : (cur <= blen blob)%N → (kIdx <= nk)%N → (nk < 2 ^ 32)%N → (48 * (i + N.of_nat fuel) <= blen rows)%N → (16 * nk <= blen keyRows)%N →
  no_panic (take_records fuel rows keyRows blob nk i cur kIdx).
Proof using Hlen.
  revert i cur kIdx. induction fuel as [|fuel IH]; intros i cur kIdx Hc Hkx Hnk Hrows Hkeys; cbn [take_records]; [done|].
  destruct (np_take_record nk i cur kIdx Hc Hkx Hnk ltac:(lia) Hkeys) as [H1 H2]. apply np_bind; [exact H1|]. intros [c k] [H3 H4]%H2. apply IH; lia.
Qed.
End spans.

Lemma np_parseRecords b : is_bytes b → (blen b <= max_int)%N → no_panic (parseRecords b).
Proof.
  intros Hb Hl. unfold parseRecords. apply np_bind; [apply np_count|]. intros n Hn. apply (count_shape _ _ _ _ _ Hb Hl) in Hn as (pre & rows & rest & Eb & Hpre%blen_nil & Hrows & Hrest & Hn); [|done]. subst pre.
  apply np_bind; [apply np_count|]. intros nk Hnk. apply (count_shape _ _ _ _ _ Hb Hl) in Hnk as (pre & krows & rest2 & Eb2 & Hpre & Hkr & _ & Hnk); [|done].
  assert (blen b = 8 + 48 * n + 8 + 16 * nk + blen rest2)%N as Ebl by (rewrite Eb2, !blen_app, blen_put64; lia). unfold max_u32 in *.
  apply np_bind; [apply np_slice; lia|]. intros r (_ & _ & ->)%slice_ok. apply np_bind; [apply np_slice; lia|]. intros kr (_ & _ & ->)%slice_ok. apply np_bind; [apply np_slice; lia|]. intros bl (_ & _ & ->)%slice_ok.
  apply np_bind; [apply np_take_records; rewrite ?blen_seg by lia; lia|]. intros [c k] _. np.
Qed.

Lemma np_check_ids rs ids fuel i prev : records_ok rs → (blen (records_section rs) <= max_int)%N → (8 * (i + N.of_nat fuel) <= blen ids)%N →
  no_panic (check_ids fuel (records_of rs) ids i prev).
Proof.
  intros Hok Hlen. revert i prev. induction fuel as [|fuel IH]; intros i prev H; cbn [check_ids]; [done|]. np_step. apply np_guard. intros Ho%N.leb_gt. cbn [v_n records_of] in Ho.
  rewrite (ID_at rs Hok Hlen) by done. cbn [mbind result_bind]. np_step. apply IH. lia.
Qed.
Lemma np_parseIDs rs b : records_ok rs → (blen (records_section rs) <= max_int)%N → no_panic (parseIDs (records_of rs) b).
Proof.
  intros Hok Hlen. unfold parseIDs. apply np_bind; [apply np_count|]. intros n _. np_step. apply np_guard. intros Hl%negb_false_iff%N.eqb_eq.
  apply np_bind; [apply np_slice; lia|]. intros ids (_ & _ & ->)%slice_ok. apply np_bind; [apply np_check_ids; [done..|rewrite blen_seg by lia; lia]|]. done.
Qed.

(** ** Frozen bitmaps *)

Lemma np_sum_types b cAt i ts st : (cAt + 2 * (i + N.of_nat (length ts)) <= blen b)%N → no_panic (sum_types b cAt i ts st).
Proof.
  revert i st. induction ts as [|t ts IH]; intros i st H; cbn [sum_types]; [done|]. cbn [length] in H. np_step. destruct st as [[nb na] nr].
  destruct t as [|[[]|[]|]]; try done; apply IH; lia.
Qed.
Lemma np_trailer b : no_panic (checkFrozenTrailer b).
Proof.
  unfold checkFrozenTrailer. destruct (N.ltb_spec (blen b) 4); [done|]. apply np_bind; [unfold be32; np|]. intros be _. np_step. np_step. np_step. np_step.
  apply np_guard. intros Hn%N.ltb_ge. set (n := N.shiftr x 15) in *. apply np_bind; [apply np_slice; lia|]. intros ts (_ & _ & ->)%slice_ok.
  assert (N.of_nat (length (seg b (blen b - 4 - n) (blen b - 4))) = n) as El by (pose proof (blen_seg b (blen b - 4 - n) (blen b - 4)) as E; unfold blen in *; lia).
  apply np_bind; [apply np_sum_types; lia|]. intros [[nb na] nr] _. np.
Qed.

Lemma np_scan_bitset fuel ws w st : (8 * (w + N.of_nat fuel) <= blen ws)%N → no_panic (scan_bitset fuel ws w st).
Proof. revert w st. induction fuel as [|fuel IH]; intros w st H; cbn [scan_bitset]; [done|]. np_step. apply IH. lia. Qed.
Lemma np_scan_array fuel b at_ i j prev : (at_ + 2 * (j + N.of_nat fuel) <= blen b)%N → no_panic (scan_array fuel b at_ i j prev).
Proof. revert j prev. induction fuel as [|fuel IH]; intros j prev H; cbn [scan_array]; [done|]. np_step. np_step. apply IH. lia. Qed.
Lemma np_scan_runs fuel b at_ i j p c : (at_ + 4 * (j + N.of_nat fuel) <= blen b)%N → no_panic (scan_runs fuel b at_ i j p c).
Proof. revert j p c. induction fuel as [|fuel IH]; intros j p c H; cbn [scan_runs]; [done|]. do 4 np_step. apply IH. lia. Qed.

Lemma np_check_containers b l ts i s CS : length ts = length CS → Forall known_type ts → at_table b (countsAt l + 2 * i) 2 CS → fits 2 CS →
  (keysAt l + 2 * (i + N.of_nat (length ts)) <= blen b)%N →
  (bitsetAt s + frozenBitsetBytes * (implied ts CS).1.1 <= blen b)%N → (arrayAt s + 2 * (implied ts CS).1.2 <= blen b)%N → (runAt s + 4 * (implied ts CS).2 <= blen b)%N →
  no_panic (check_containers b l ts i s).
Proof.
  intros Hl Hts. revert CS Hl i s. induction Hts as [|t ts Ht Hts IH]; intros [|c CS] Hl i s HC Hf Hk Hb Ha Hr; try done. injection Hl as Hl. cbn [check_containers length] in *.
  apply Forall_cons in Hf as [Hc Hf].
  assert (implied (t :: ts) (c :: CS) = (let '(x, y, z) := implied ts CS in match t with 1%N => (x + 1, y, z)%N | 2%N => (x, y + (c + 1), z)%N | _ => (x, y, z + c)%N end)) as E by done.
  rewrite E in Hb, Ha, Hr. clear E. pose proof (at_table_read0 Panic b _ 2 c CS HC Hc) as Ec. apply at_table_cons in HC as [_ HC]. replace (countsAt l + 2 * i + N.of_nat 2)%N with (countsAt l + 2 * (i + 1))%N in HC by lia.
  specialize (IH CS Hl (i + 1)%N). destruct (implied ts CS) as [[nb na] nr]. cbn [fst snd] in *. unfold check_container. rewrite bind_assoc.
  np_step. rewrite bind_assoc. apply np_guard. intros _. rewrite bind_assoc, (Ec : le16 b (countsAt l + 2 * i) = Ok c). cbn [mbind result_bind].
  assert (N.of_nat bitsetWords * 8 = frozenBitsetBytes)%N as Hbw by apply bitset_bytes. change frozenBitsetBytes with 8192%N in *.
  destruct Ht as [->|[->| ->]]; cbn [fst snd] in Hb, Ha, Hr.
  - rewrite bind_assoc. apply np_bind.
    + unfold check_bitset. change frozenBitsetBytes with 8192%N. apply np_bind; [apply np_slice; lia|]. intros ws (_ & _ & ->)%slice_ok. apply np_bind; [apply np_scan_bitset; rewrite blen_seg; lia|]. intros [card la] _. np.
    + intros r _. cbn [mbind result_bind]. change frozenBitsetBytes with 8192%N. apply IH; unfold advance; cbn [bitsetAt runAt arrayAt]; try done; try lia.
  - rewrite bind_assoc. apply np_bind.
    + unfold check_array. np_step. apply np_bind; [apply np_scan_array; lia|]. done.
    + intros r _. cbn [mbind result_bind]. apply IH; unfold advance; cbn [bitsetAt runAt arrayAt]; try done; try lia.
  - rewrite bind_assoc. apply np_bind.
    + unfold check_runs. np_step. apply np_bind; [apply np_scan_runs; lia|]. intros [? ?] _. np.
    + intros r _. cbn [mbind result_bind]. apply IH; unfold advance; cbn [bitsetAt runAt arrayAt]; try done; try lia.
Qed.
Lemma np_checkFrozen b : is_bytes b → no_panic (checkFrozen b).
Proof.
  intros Hb. unfold checkFrozen. apply np_bind; [apply np_trailer|]. intros l (D & KS & CS & ts & Hraw & -> & ->)%trailer_sound; [|done].
  pose proof Hraw as (HK & HC & Hn & Ht & HfK & HfC & HD). pose proof (blen_raw D KS CS ts HK HC) as Hlen. destruct (raw_tables D KS CS ts HK HC) as (_ & T2 & T3 & _).
  assert (slice (raw D KS CS ts) (typesAt (raw_layout D ts CS)) (typesAt (raw_layout D ts CS) + fl_n (raw_layout D ts CS)) = Ok ts) as ->.
  { rewrite <-T3. f_equal. unfold raw_layout. cbn [typesAt fl_n]. lia. }
  cbn [mbind result_bind]. apply np_bind; [|done]. change frozenBitsetBytes with 8192%N in *.
  apply (np_check_containers _ _ _ _ _ CS); unfold raw_layout; cbn [keysAt countsAt nBitset nRunEl bitsetAt runAt arrayAt]; change frozenBitsetBytes with 8192%N; try done; try lia.
  replace (blen D + 2 * N.of_nat (length ts) + 2 * 0)%N with (blen D + 2 * N.of_nat (length ts))%N by lia. exact T2.
Qed.

(** ** The index sections *)

Lemma np_zeros b lo hi m : (lo <= hi)%N → (hi <= blen b)%N → no_panic (zeros b lo hi m).
Proof. intros. unfold zeros. np. Qed.

Lemma np_check_grams fuel nv i gcur bcur prev mx : is_bytes (nv_bmBlob nv) → (blen (nv_gramBlob nv) <= max_int)%N → (blen (nv_bmBlob nv) <= max_int)%N →
  (gcur <= blen (nv_gramBlob nv))%N → (bcur <= blen (nv_bmBlob nv))%N → (32 * (i + N.of_nat fuel) <= blen (nv_rows nv))%N →
  no_panic (check_grams fuel nv i gcur bcur prev mx).
Proof.
  intros Hbm Hg Hb. unfold max_int in *. revert i gcur bcur prev mx. induction fuel as [|fuel IH]; intros i gcur bcur prev mx Hgc Hbc Hr; cbn [check_grams]; [done|].
  do 4 np_step. apply np_guard. intros [[Hgo%negb_false_iff%N.eqb_eq Hgl]%orb_false_iff Hgs%N.ltb_ge]%orb_false_iff. rewrite sub64_small in Hgs by lia. subst x.
  rewrite add64_small by lia. np_step. np_step. np_step. destruct (aligned_spec bcur) as [Hal _]; [lia|].
  apply np_guard. intros [[Hbo%negb_false_iff%N.eqb_eq Hbl%N.ltb_ge]%orb_false_iff Hbs%N.ltb_ge]%orb_false_iff. rewrite sub64_small in Hbs by lia. subst x1.
  apply np_bind; [apply np_zeros; lia|]. intros _ _. apply np_bind; [apply np_slice; lia|]. intros f (_ & _ & ->)%slice_ok.
  apply np_bind; [by apply np_checkFrozen, is_bytes_seg|]. intros fi _. np_step. apply IH; rewrite ?add64_small by lia; lia.
Qed.
Lemma np_parseNgram n b : is_bytes b → (blen b <= max_int)%N → no_panic (parseNgram n b).
Proof.
  intros Hb Hl. unfold parseNgram. apply np_bind; [apply np_count|]. intros g Hg. apply (count_shape _ _ _ _ _ Hb Hl) in Hg as (pre & rows & rest & Eb & Hpre%blen_nil & Hrows & Hrest & Hg); [|done]. subst pre.
  assert (blen b = 8 + 32 * g + blen rest)%N as Ebl by (rewrite Eb, !blen_app, blen_put64; change (blen []) with 0%N; lia). unfold max_int, max_u32 in *.
  np_step. np_step. apply np_guard. intros Hgb%N.ltb_ge. rewrite sub64_small in Hgb by lia. destruct (aligned_spec (8 + 32 * g + 16 + x0)) as [Hal _]; [lia|].
  apply np_guard. intros Hbs%N.ltb_ge. apply np_bind; [apply np_zeros; lia|]. intros _ _. np_step.
  apply np_bind; [apply np_slice; lia|]. intros r (_ & _ & ->)%slice_ok. apply np_bind; [apply np_slice; lia|]. intros gb (_ & _ & ->)%slice_ok. apply np_bind; [apply np_slice; lia|]. intros bm (_ & _ & ->)%slice_ok.
  apply np_bind; [|intros [[gc bc] mx] _; np]. apply np_check_grams; cbn [nv_bmBlob nv_gramBlob nv_rows]; rewrite ?blen_seg by lia; unfold max_int; try lia. by apply is_bytes_seg.
Qed.

Lemma np_check_run fuel ps n pOff i j last : (4 * (pOff + j + N.of_nat fuel) <= blen ps)%N → no_panic (check_run fuel ps n pOff i j last).
Proof. revert j last. induction fuel as [|fuel IH]; intros j last H; cbn [check_run]; [done|]. do 3 np_step. apply IH. lia. Qed.
Lemma np_check_exact_keys fuel ev n i aOff pOff prev : (4 * (i + N.of_nat fuel) <= blen (ev_keyLens ev))%N → (4 * (i + N.of_nat fuel) <= blen (ev_runLens ev))%N →
  (blen (ev_arena ev) <= max_int)%N → (4 * ev_p ev <= blen (ev_postings ev))%N → (ev_p ev <= max_u32)%N → (aOff <= blen (ev_arena ev))%N → (pOff <= ev_p ev)%N →
  no_panic (check_exact_keys fuel ev n i aOff pOff prev).
Proof.
  intros HK HR Ha Hp Hpu. unfold max_int, max_u32 in *. revert i aOff pOff prev HK HR. induction fuel as [|fuel IH]; intros i aOff pOff prev HK HR Hao Hpo; cbn [check_exact_keys]; [done|].
  np_step. np_step. apply np_guard. intros [_ Hkl%N.ltb_ge]%orb_false_iff. rewrite sub64_small in Hkl by lia.
  apply np_guard. intros [_ Hrl%N.ltb_ge]%orb_false_iff. rewrite sub64_small in Hrl by lia. np_step. np_step.
  apply np_bind; [apply np_check_run; lia|]. intros _ _. apply IH; rewrite ?add64_small by lia; lia.
Qed.
Lemma np_parseExact n b : (blen b <= max_int)%N → no_panic (parseExactSection n b).
Proof.
  intros Hl. unfold parseExactSection. unfold max_int in Hl. destruct (N.ltb_spec (blen b) 24); [done|]. np_step. np_step. np_step.
  apply np_guard. intros Hk%N.ltb_ge. assert (8 * x <= blen b - 24)%N as Hk8 by (pose proof (N.Div0.mul_div_le (blen b - 24) 8); lia). rewrite (sub64_small (blen b - 24) (8 * x)) by lia.
  apply np_guard. intros Hp%N.ltb_ge. assert (4 * x0 <= blen b - 24 - 8 * x)%N as Hp4 by (pose proof (N.Div0.mul_div_le (blen b - 24 - 8 * x) 4); lia). rewrite (sub64_small (blen b - 24 - 8 * x) (4 * x0)) by lia.
  apply np_guard. intros Ha%negb_false_iff%N.eqb_eq. apply np_guard. intros Hpu%N.ltb_ge.
  do 4 (apply np_bind; [apply np_slice; lia|]; intros ? (_ & _ & ->)%slice_ok).
  apply np_bind; [|intros [ao po] _; np]. apply np_check_exact_keys; cbn [ev_keyLens ev_runLens ev_arena ev_postings ev_p]; rewrite ?blen_seg by lia; unfold max_int; try lia.
Qed.

(** ** The view and its verification *)

Section view.
Context {RT : GoRuntime} {BL : BitmapLib} {FO : FloatOps} {FL : FrozenLib} {DL : DigestLib} {JL : JSONLib}.

Lemma np_parseConfig b : no_panic (parseConfig b).
Proof. unfold parseConfig. np_step. destruct (strict_config b); [|done]. np. destruct (parseListConfig _); done. Qed.
Lemma np_parseBuild b : no_panic (parseBuild b).
Proof. unfold parseBuild. np_step. destruct (strict_build b); [|done]. np. Qed.

Lemma np_NewView addr buf : is_bytes buf → (blen buf <= max_int)%N → no_panic (NewView addr buf).
Proof.
  intros Hb Hl. rewrite NewView_unfold. destruct (isAligned addr buf); [|done]. cbn [negb]. apply np_bind; [by apply np_read_table|].
  intros tab (minor & ss & digest & rest & Hbuf & Hmi & Hd & Hss & ->)%read_table_of_iff; [|done..]. pose proof Hss as (Hlen & Hfit & Hend & _).
  assert (no_panic (check_gaps buf (t_headEnd (table_of_head minor ss digest)) (t_sections (table_of_head minor ss digest)))) as Hgaps.
  { pose proof (first_off buf Hl minor ss digest rest Hbuf Hd Hss) as Hfirst. cbn [t_headEnd t_sections table_of_head]. clear -Hfit Hl Hfirst.
    assert (∀ prev hl at_, entries_fit hl (blen buf) prev ss → (∀ s, head ss = Some s → at_ <= s_off s)%N → no_panic (check_gaps buf at_ ss)) as H.
    { clear Hfirst Hfit. induction ss as [|s ss IH]; intros prev hl at_ Hf Hat; cbn [check_gaps]; [done|]. destruct Hf as (Hs & Hfit & Hf). pose proof (sec_end_add _ _ _ _ Hs Hfit Hl) as Ese.
      pose proof Hfit as (_ & _ & He & _). unfold sec_end in *. apply np_bind; [apply np_zeros; [by apply Hat|lia]|]. intros _ _. apply (IH _ _ _ Hf).
      destruct ss as [|s' ss]; [done|]. intros ? [= <-]. destruct Hf as (_ & (_ & _ & _ & Hp) & _). rewrite last_snoc in Hp. unfold sec_end in Hp. lia. }
    apply (H [] (56 + 64 * N.of_nat (length ss))%N); [done|]. intros s Hs. by apply Hfirst. }
  apply np_bind; [exact Hgaps|]. intros [] (ds & Hds & Hrest)%(gaps_ok buf Hb Hl minor ss digest rest Hbuf Hd Hss).
  assert (∀ k, no_panic (body buf (table_of_head minor ss digest) k) ∧ ∀ d, body buf (table_of_head minor ss digest) k = Ok d → is_bytes d ∧ (blen d <= max_int)%N) as Hbody.
  { intros k. assert (∀ d, body buf (table_of_head minor ss digest) k = Ok d → is_bytes d ∧ (blen d <= max_int)%N) as H2.
    { intros d Hbd. unfold body in Hbd. apply slice_ok in Hbd as (H1 & H2 & ->). split; [by apply is_bytes_seg|]. rewrite blen_seg by done. lia. }
    split; [|exact H2]. destruct (decide (k ∈ kinds ss)) as [Hk|Hk].
    - pose proof Hk as (s & -> & (i & Hi)%list_elem_of_lookup)%list_elem_of_fmap. destruct (Forall2_lookup_l _ _ _ _ _ Hds Hi) as (d & Hd' & _).
      rewrite (proj2 (body_iff buf Hb Hl minor ss digest rest Hbuf Hd Hss ds Hds Hrest (s_kind s) d Hk)); [done|]. by exists i, s.
    - unfold body. assert (find (table_of_head minor ss digest) k = None) as ->.
      { unfold find. cbn [t_sections table_of_head]. destruct (list_find _ ss) as [[i s]|] eqn:E; [|done]. apply list_find_Some in E as (Hi & Hk' & _). destruct Hk.
        apply list_elem_of_fmap. exists s. split; [done|]. by eapply list_elem_of_lookup_2. }
      cbn [default from_option]. apply np_slice; unfold s_end; cbn [s_off s_length]; [done|rewrite add64_small by lia; lia]. }
  assert (∀ {C} k (f : bytes → result prepared_error C), (∀ d, is_bytes d → (blen d <= max_int)%N → no_panic (f d)) → no_panic (body buf (table_of_head minor ss digest) k ≫= f)) as Hbind.
  { intros C k f Hf. destruct (Hbody k) as [H1 H2]. apply np_bind; [exact H1|]. intros d [B1 B2]%H2. by apply Hf. }
  apply Hbind. intros cb _ _. apply np_bind; [apply np_parseConfig|]. intros cfg _. apply Hbind. intros bb _ _. apply np_bind; [apply np_parseBuild|]. intros build _.
  apply Hbind. intros rb Brb Lrb. apply np_bind; [by apply np_parseRecords|]. intros recs (rs & Hrs & -> & ->)%parseRecords_sound; [|done..]. do 3 np_step.
  apply Hbind. intros ib _ _. apply np_bind; [by apply np_parseIDs|]. intros ids _. np_step.
  apply np_bind.
  - destruct (has_kind _ KindNgram).
    + apply Hbind. intros nb B1 B2. apply np_bind; [by apply np_parseNgram|done].
    + apply Hbind. intros nb B1 B2. apply np_bind; [by apply np_parseExact|done].
  - intros [ng ex] _. np_step. apply np_bind; [|done]. destruct (has_kind _ KindExactCompanion); [|done].
    apply Hbind. intros nb B1 B2. apply np_bind; [by apply np_parseExact|done].
Qed.

(** The passes of verification over an accepted artifact. *)
Section artifact.
Context (addr : N) (A : artifact) (HA : artifact_parsed A) (Hb : is_bytes (artifact_bytes A)) (Hl : (blen (artifact_bytes A) <= max_int)%N) (Hal : isAligned addr (artifact_bytes A) = true).

Lemma np_rehash rs fuel i stream : records_ok rs → (blen (records_section rs) <= max_int)%N → N.to_nat i + fuel = length rs → no_panic (rehash fuel (records_of rs) i stream).
Proof.
  intros Hok Hlen. revert i stream. induction fuel as [|fuel IH]; intros i stream Hi; cbn [rehash]; [done|].
  destruct (lookup_lt_is_Some_2 rs (N.to_nat i)) as [r Hr]; [lia|]. pose proof (list_elem_of_split_length _ _ _ Hr) as (a & b & E & Ha). assert (i = N.of_nat (length a)) as -> by lia.
  destruct (keys_read rs Hok Hlen a r b E) as [-> (null & -> & _)]. cbn [mbind result_bind]. rewrite (Payload_of rs Hok Hlen a r b E). cbn [mbind result_bind].
  destruct (CanonicalPayload _); [|done]. destruct (negb _); [done|]. cbn [fail_if mbind result_bind]. rewrite (ID_of rs Hok Hlen a r b E). cbn [mbind result_bind].
  destruct (add_line _ _); [|done]. apply IH. lia.
Qed.
Lemma np_check_payloads rs fuel i : records_ok rs → (blen (records_section rs) <= max_int)%N → N.to_nat i + fuel = length rs → no_panic (check_payloads fuel (records_of rs) i).
Proof.
  intros Hok Hlen. revert i. induction fuel as [|fuel IH]; intros i Hi; cbn [check_payloads]; [done|].
  destruct (lookup_lt_is_Some_2 rs (N.to_nat i)) as [r Hr]; [lia|]. pose proof (list_elem_of_split_length _ _ _ Hr) as (a & b & E & Ha). assert (i = N.of_nat (length a)) as -> by lia.
  rewrite (Payload_of rs Hok Hlen a r b E). cbn [mbind result_bind]. np_step. apply IH. lia.
Qed.
Lemma np_check_digests trusted ss : (∀ s, s ∈ ss → ∃ d, slice (artifact_bytes A) (s_off s) (s_end s) = Ok d) → no_panic (check_digests (artifact_view A) trusted ss).
Proof.
  induction ss as [|s ss IH]; intros H; cbn [check_digests]; [done|]. apply np_bind; [|intros _ _; apply IH; intros s' Hs'; apply H; by right].
  destruct (trusted && _); [done|]. change (v_buf (artifact_view A)) with (artifact_bytes A). destruct (H s ltac:(by left)) as [d ->]. cbn [mbind result_bind]. by destruct (negb _).
Qed.
Lemma np_passes level : (∀ n, level ≠ UnknownLevelOf n) → no_panic (VerifyBytes addr (artifact_bytes A) level).
Proof using All.
  intros Hlv. destruct (artifact_parts addr A HA Hb Hl Hal) as (Hrs & Hlr & Hsl & Hhead).
  assert (∀ s, s ∈ a_secs A → ∃ d, slice (artifact_bytes A) (s_off s) (s_end s) = Ok d) as Hsec.
  { intros s [i Hi]%list_elem_of_lookup. destruct HA as ((_ & _ & _ & Hds) & _). destruct (Forall2_lookup_l _ _ _ _ _ Hds Hi) as (d & Hd & _). exists d. by eapply Hsl. }
  assert (NewView addr (artifact_bytes A) = Ok (artifact_view A)) as HV by by apply NewView_complete.
  assert (∀ m, no_panic (checkPayloadSyntax (artifact_view A)) ∧ no_panic (recomputeBaseID (artifact_view A)) ∧ no_panic (check_digests (artifact_view A) m (a_secs A))) as Hp.
  { intros m. unfold checkPayloadSyntax, recomputeBaseID. change (v_records (artifact_view A)) with (records_of (a_recs A)). cbn [v_n records_of]. rewrite Nat2N.id. split_and!.
    - by apply np_check_payloads.
    - apply np_bind; [by apply np_rehash|done].
    - by apply np_check_digests. }
  unfold VerifyBytes. destruct level; try (by destruct (Hlv n)); rewrite HV; cbn [mbind result_bind]; [|done|];
    rewrite Hhead; cbn [mbind result_bind]; (destruct (negb _); [done|]); cbn [fail_if mbind result_bind]; change (t_sections (v_tab (artifact_view A))) with (a_secs A).
  - destruct (Hp false) as (_ & P2 & P3). apply np_bind; [exact P3|]. intros _ _. apply np_bind; [exact P2|]. intros id _. by destruct (negb _).
  - destruct (Hp true) as (P1 & _ & P3). apply np_bind; [exact P3|]. intros _ _. apply np_bind; [exact P1|done].
Qed.
End artifact.

Lemma np_VerifyBytes addr buf level : is_bytes buf → (blen buf <= max_int)%N → no_panic (VerifyBytes addr buf level).
Proof.
  intros Hb Hl. destruct level as [| | |n]; [..|done].
  all: destruct (NewView addr buf) as [v|e] eqn:E; [|pose proof (np_NewView addr buf Hb Hl) as H; rewrite E in H; unfold VerifyBytes; rewrite E; cbn [mbind result_bind]; first [exact H | intros [= ->]; by apply H]].
  all: apply NewView_sound in E as (A & HA & -> & -> & Hal); [|done..]; by apply np_passes.
Qed.
End view.
