(* ===== verification/PreparedProps.v ===== *)
(** What the prepared-artifact format promises: [NewView] accepts exactly the artifacts
    of the abstract format, every accessor of an accepted view is total and reads what
    was encoded, and full verification binds the records to the base identity. *)

From S2P Require Import Prelude.
From S2P Require Import Runtime.
From S2P Require Import Score.
From S2P Require Import Bitmap.
From S2P Require Import ListConfig.
From S2P Require Import Wire.
From S2P Require Import PreparedFormat.
From S2P Require Import PreparedRecords.
From S2P Require Import PreparedRecordsSpec.
From S2P Require Import PreparedIDs.
From S2P Require Import Frozen.
From S2P Require Import FrozenSpec.
From S2P Require Import FrozenSet.
From S2P Require Import PreparedIndex.
From S2P Require Import PreparedIndexSpec.
From S2P Require Import PreparedFormatSpec.
From S2P Require Import PreparedJSON.
From S2P Require Import Prepared.
From S2P Require Import PreparedSpec.
From S2P Require Import PreparedVerify.
From S2P Require Import PreparedEncode.
From S2P Require Import PreparedSafe.
From S2P Require Ngram.
From S2P Require Exact.

#[local] Opaque put_le get_le.

(** A buffer in memory: a Go byte slice. *)
Definition go_slice (buf : bytes) : Prop := is_bytes buf ∧ (blen buf <= max_int)%N.
(** A view whose accessors read the records [rs]. *)
Definition reads_records (v : View) (rs : list Rec) : Prop :=
  v_n (v_records v) = N.of_nat (length rs) ∧
  ∀ i r, rs !! i = Some r → ID (v_records v) (N.of_nat i) = Ok (r_ID r) ∧ Keys (v_records v) (N.of_nat i) = Ok (r_Keys r) ∧
    Payload (v_records v) (N.of_nat i) = Ok (r_Payload r).

(** C27: [checkFrozen] accepts exactly the frozen bitmaps: bytes whose trailer and
    containers are those of a non-empty list of containers with ascending keys - bitsets
    whose cardinality the count states, arrays of at most 4096 ascending values,
    ascending disjoint runs - and reports how many ordinals the bitmap holds and the
    greatest, which bounds every one. *)
Theorem check_frozen_exact b fi : is_bytes b →
  checkFrozen b = Ok fi ↔ ∃ cs, frozen_ok cs ∧ b = frozen_bytes cs ∧ containers fi = N.of_nat (length cs) ∧
    cardinality fi = N.of_nat (length (frozen_elems cs)) ∧ fi_max fi ∈ frozen_elems cs ∧ ∀ x, x ∈ frozen_elems cs → (x <= fi_max fi)%N.
Proof.
  intros Hb. split.
  - intros (cs & Hok & -> & ->)%checkFrozen_sound; [|done]. exists cs. pose proof (frozen_nonempty cs Hok) as Hne.
    destruct (frozen_elems cs) as [|x l] eqn:E; [done|]. split_and!; try done; [by rewrite <-E|..]; rewrite <-E.
    + apply (fi_max_spec cs x Hok). rewrite E. by left.
    + intros y Hy. by apply fi_max_spec.
  - intros (cs & Hok & -> & H1 & H2 & H3 & H4). rewrite checkFrozen_complete by done. f_equal. destruct fi as [n c m]. cbn in *. unfold frozen_info.
    f_equal; [done..|]. destruct (fi_max_spec cs m Hok H3) as [Hle Hin]. specialize (H4 _ Hin). unfold frozen_info in *. cbn in *. lia.
Qed.

Section props.
Context {RT : GoRuntime} {BL : BitmapLib} {FO : FloatOps} {FL : FrozenLib} {DL : DigestLib} {JL : JSONLib}.

(** ** Artifacts in memory *)

Section artifact.
Context (A : artifact) (HA : artifact_parsed A) (Hs : go_slice (artifact_bytes A)).

Lemma body_small k d : a_body A k d → (blen d <= max_int)%N.
Proof using All.
  intros H. destruct HA as ((_ & Hd & Hss & Hds) & _). destruct Hs as [Hb Hl]. pose proof Hss as (_ & Hfit & _).
  set (rest := place (56 + 64 * N.of_nat (length (a_secs A))) (zip (a_secs A) (a_bodies A))).
  assert (artifact_bytes A = head_bytes (a_minor A) (a_secs A) (a_digest A) ++ rest) as Hbuf.
  { unfold artifact_bytes, a_head. by rewrite (blen_head_bytes _ _ _ _ _ _ Hfit Hd). }
  by eapply (body_sub (artifact_bytes A) Hb Hl _ _ _ rest Hbuf Hd Hss (a_bodies A) Hds eq_refl).
Qed.
Lemma records_small : (blen (records_section (a_recs A)) <= max_int)%N.
Proof using All. eapply body_small. by destruct HA as (_ & _ & _ & (_ & ? & _) & _). Qed.

Lemma artifact_reads : reads_records (artifact_view A) (a_recs A).
Proof using All.
  pose proof HA as (_ & _ & _ & (Hrs & _) & _). split; [done|]. intros i r Hi. change (v_records (artifact_view A)) with (records_of (a_recs A)).
  pose proof (take_drop_middle _ _ _ Hi) as E. symmetry in E. assert (length (take i (a_recs A)) = i) as El by (apply length_take_le; apply lookup_lt_Some in Hi; lia).
  pose proof (ID_of _ Hrs records_small _ _ _ E) as H1. pose proof (Keys_of _ Hrs records_small _ _ _ E) as H2. pose proof (Payload_of _ Hrs records_small _ _ _ E) as H3.
  rewrite El in H1, H2, H3. done.
Qed.

Lemma ngram_config : vc_Mode (a_cfg A) = mode_ngram → vc_Grams (a_cfg A) ≠ [] ∧ Forall (λ g, 1 ≤ g ≤ Ngram.MaxGramSize)%Z (vc_Grams (a_cfg A)).
Proof using All.
  destruct HA as (_ & (cb & _ & Hcfg) & _). revert Hcfg. unfold parseConfig. intros H. apply bind_ok in H as (? & _ & H).
  destruct (strict_config cb) as [doc|]; [|done]. apply bind_ok in H as (? & _ & H). apply bind_ok in H as (? & _ & H).
  destruct (parseListConfig (cd_List doc)) as [lc|] eqn:E; [|done]. injection H as <-. cbn [vc_Mode vc_Grams]. intros Hm. unfold parseListConfig in E.
  destruct (decode_mirror _) as [m|]; [|done]. cbn [mbind option_bind] in E. case_bool_decide as H1; [|case_bool_decide; [destruct (mi_ExactCompanion m); [done|by injection E as <-]|done]].
  case_bool_decide as H2; [done|]. destruct (forallb _ _) eqn:Ef; [|done]. injection E as <-. split; [done|]. apply Forall_forall. intros g Hg.
  rewrite forallb_forall in Ef. specialize (Ef g (proj1 (list_elem_of_In _ _) Hg)). lia.
Qed.

(** The index of the view posts what the section holds. *)
Lemma view_ngram {FW : FrozenLaws FL} no gs : a_index A = NgramContent no gs → ∃ idx, view_NgramIndex (artifact_view A) = Ok idx ∧
  Ngram.cfg idx = Ngram.mkConfig (vc_Grams (a_cfg A)) (vc_StripSpaces (a_cfg A)) ∧ Ngram.numOrds idx = no ∧ holds_ngram idx gs ∧ ngram_ok (a_n A) no gs.
Proof using All.
  intros E. pose proof HA as (_ & _ & _ & _ & _ & Hix & _). rewrite E in Hix. destruct Hix as (Hm & Hok & Hb). destruct (ngram_config Hm) as [G1 G2].
  destruct (ngram_index_of (a_n A) no gs Hok (body_small _ _ Hb) (Ngram.mkConfig (vc_Grams (a_cfg A)) (vc_StripSpaces (a_cfg A))) G1 G2) as (idx & H1 & H2 & H3 & H4 & H5).
  exists idx. unfold view_NgramIndex, artifact_view. cbn [v_ng v_cfg]. rewrite E. by split_and!.
Qed.
Lemma view_exact es : a_index A = ExactContent es → ∃ idx, ExactIndex (artifact_view A) = Ok idx ∧ holds_exact idx es ∧ exact_ok (a_n A) es.
Proof using All.
  intros E. pose proof HA as (_ & _ & _ & ((_ & Hn & _) & _) & _ & Hix & _). rewrite E in Hix. destruct Hix as (Hm & Hok & Hb).
  destruct (exact_index_of (a_n A) Hn es Hok) as (idx & H1 & H2 & H3).
  exists idx. unfold ExactIndex, artifact_view. cbn [v_ex]. rewrite E. by split_and!.
Qed.
Lemma view_companion es : a_companion A = Some es → ∃ idx, ExactCompanionIndex (artifact_view A) = Ok idx ∧ holds_exact idx es ∧ exact_ok (a_n A) es.
Proof using All.
  intros E. pose proof HA as (_ & _ & _ & ((_ & Hn & _) & _) & _ & _ & Hcm). rewrite E in Hcm. destruct Hcm as (Hm & Hok & Hb).
  destruct (exact_index_of (a_n A) Hn es Hok) as (idx & H1 & H2 & H3).
  exists idx. unfold ExactCompanionIndex, artifact_view. cbn [v_xc]. rewrite E. cbn [fmap option_fmap option_map]. by split_and!.
Qed.
End artifact.

(** [Encode] takes one index, and a companion only to an n-gram index. *)
Lemma Encode_indexes c buf su : Encode c = Ok (buf, su) → (∀ i, c_Ngram c = Some i → c_Exact c = None) ∧ (∀ i, c_Exact c = Some i → c_Ngram c = None).
Proof.
  intros H. unfold Encode in H. apply bind_ok in H as (? & _ & H). destruct (parseListConfig _) as [lc|]; [|done]. cbn zeta in H.
  apply bind_ok in H as (? & _ & H). apply bind_ok in H as (? & _ & H). apply bind_ok in H as (? & _ & H). apply bind_ok in H as ([? ?] & H & _).
  unfold encode_index in H. destruct (c_Ngram c), (c_Exact c); split; intros ?; case_bool_decide; done.
Qed.

(** Two indexes that hold the same entries answer alike. *)
Lemma holds_ngram_eq i j gs : holds_ngram i gs → holds_ngram j gs → ∀ g, Ngram.posted (Ngram.postings i) g = Ngram.posted (Ngram.postings j) g.
Proof.
  intros [I1 I2] [J1 J2] g. destruct (decide (g ∈ gs.*1)) as [Hin|Hn]; [|by rewrite I2, J2].
  apply list_elem_of_fmap in Hin as ([g' cs] & -> & Hin). cbn [fst]. by rewrite (I1 _ _ Hin), (J1 _ _ Hin).
Qed.
Lemma holds_exact_eq i j es : holds_exact i es → holds_exact j es → ∀ k, Exact.Lookup i k = Exact.Lookup j k.
Proof.
  intros [I1 I2] [J1 J2] k. destruct (decide (k ∈ es.*1)) as [Hin|Hn]; [|by rewrite I2, J2].
  apply list_elem_of_fmap in Hin as ([k' run] & -> & Hin). cbn [fst]. by rewrite (I1 _ _ Hin), (J1 _ _ Hin).
Qed.
Lemma holds_ngram_bound i gs n no g o : holds_ngram i gs → ngram_ok n no gs → o ∈ Ngram.posted (Ngram.postings i) g → (o < n)%N.
Proof.
  intros [I1 I2] (_ & Hg & _ & _ & Hn) Ho. destruct (decide (g ∈ gs.*1)) as [Hin|Hno]; [|rewrite I2 in Ho by done; by apply elem_of_nil in Ho].
  apply list_elem_of_fmap in Hin as ([g' cs] & -> & Hin). cbn [fst] in Ho. rewrite (I1 _ _ Hin) in Ho. rewrite Forall_forall in Hg.
  destruct (Hg _ Hin) as (_ & Hcs & Ht). unfold top in Ht. cbn [snd] in *. destruct (fi_max_spec cs o Hcs Ho). lia.
Qed.
Lemma holds_exact_bound i es n k run o : holds_exact i es → exact_ok n es → Exact.Lookup i k = Some run → o ∈ run → (o < n)%N.
Proof.
  intros [I1 I2] (He & _) Hr Ho. destruct (decide (k ∈ es.*1)) as [Hin|Hno]; [|rewrite I2 in Hr by done; injection Hr as <-; by apply elem_of_nil in Ho].
  apply list_elem_of_fmap in Hin as ([k' run'] & -> & Hin). cbn [fst] in Hr. rewrite (I1 _ _ Hin) in Hr. injection Hr as ->. rewrite Forall_forall in He.
  destruct (He _ Hin) as (_ & _ & _ & _ & Hb & _). cbn [snd] in Hb. rewrite Forall_forall in Hb. by apply Hb.
Qed.

(** C22: [NewView] accepts a buffer exactly when it is aligned and is the bytes of an
    artifact of the abstract format - sections in place with zero gaps, records, ids
    sorted, sound index sections, counters that agree, and metadata by rules of its
    own ([config_section] and [build_section]): the one canonical JSON text of the
    document, of at most 4 MiB, with a list name, digests of 64 lowercase hexadecimal
    digits, gram sizes in range or exact mode without a companion, valid UTF-8
    provenance and no negative count - and the view is that artifact's: nothing else
    is accepted, nothing valid is refused. [JSONLaws] is what this relies on of
    encoding/json. *)
Theorem new_view_exact {JW : JSONLaws JL} addr buf v : go_slice buf →
  NewView addr buf = Ok v ↔ isAligned addr buf = true ∧ ∃ A, artifact_ok A ∧ buf = artifact_bytes A ∧ v = artifact_view A.
Proof using All.
  intros [Hb Hl]. setoid_rewrite <-artifact_parsed_iff. split.
  - intros (A & HA & E & -> & Hal)%NewView_sound; [|done..]. split; [done|]. by exists A.
  - intros (Hal & A & HA & -> & ->). by apply NewView_complete.
Qed.

(** C25: Every accessor of an accepted view is total: [Lookup] of any ID, by binary
    search over the ids section, finds the record with that ID exactly when there is
    one, and every record's ID, keys and payload read without a slice out of range. *)
Theorem view_lookup_exact addr buf v : go_slice buf → NewView addr buf = Ok v →
  ∃ rs, reads_records v rs ∧ ∀ id, ∃ r, Lookup (v_records v) (v_ids v) id = Ok r ∧
    match r with
    | Some o => ∃ x, rs !! N.to_nat o = Some x ∧ r_ID x = id
    | None => id ∉ r_ID <$> rs
    end.
Proof using All.
  intros [Hb Hl] (A & HA & -> & -> & Hal)%NewView_sound; [|done..]. exists (a_recs A). split; [by apply artifact_reads|]. intros id.
  pose proof HA as (_ & _ & _ & (Hrs & _) & (Hords & _) & _). destruct (Lookup_spec (a_recs A) Hrs (records_small A HA (conj Hb Hl)) (a_ords A) Hords id) as (r & Hr & Hspec).
  exists r. split; [exact Hr|]. destruct r as [o|].
  - destruct Hspec as [Ho E]. destruct (lookup_lt_is_Some_2 (a_recs A) (N.to_nat o)) as [x Hx]; [lia|]. exists x. split; [done|]. unfold id_at in E. by rewrite Hx in E.
  - intros (x & -> & [i Hi]%list_elem_of_lookup)%list_elem_of_fmap. apply (Hspec (N.of_nat i)); [apply lookup_lt_Some in Hi; lia|]. unfold id_at. by rewrite Nat2N.id, Hi.
Qed.

(** C28: An accepted view always hands over its index, and no index it hands over names
    a record the artifact does not have: every ordinal posted for a gram, or in the run
    of a key, of the main index and of the companion, is below the number of records. *)
Theorem view_indexes_sound {FW : FrozenLaws FL} addr buf v : go_slice buf → NewView addr buf = Ok v →
  (if bool_decide (vc_Mode (v_cfg v) = mode_ngram)
   then ∃ idx, view_NgramIndex v = Ok idx ∧ Ngram.cfg idx = Ngram.mkConfig (vc_Grams (v_cfg v)) (vc_StripSpaces (v_cfg v)) ∧
     ∀ g o, o ∈ Ngram.posted (Ngram.postings idx) g → (o < v_n (v_records v))%N
   else ∃ idx, ExactIndex v = Ok idx ∧ ∀ k run o, Exact.Lookup idx k = Some run → o ∈ run → (o < v_n (v_records v))%N) ∧
  (vc_ExactCompanion (v_cfg v) = true → ∃ idx, ExactCompanionIndex v = Ok idx ∧ ∀ k run o, Exact.Lookup idx k = Some run → o ∈ run → (o < v_n (v_records v))%N).
Proof using All.
  intros [Hb Hl] (A & HA & -> & -> & Hal)%NewView_sound; [|done..]. pose proof (conj Hb Hl : go_slice _) as Hs.
  pose proof HA as (_ & _ & _ & _ & _ & Hix & Hcm). change (v_cfg (artifact_view A)) with (a_cfg A). change (v_n (v_records (artifact_view A))) with (a_n A). split.
  - destruct (a_index A) as [no gs|es] eqn:E; destruct Hix as (Hm & _).
    + rewrite bool_decide_eq_true_2 by done. destruct (view_ngram A HA Hs no gs E) as (idx & H1 & H2 & _ & H3 & H4). exists idx. split_and!; [done..|]. intros g o. by eapply holds_ngram_bound.
    + rewrite bool_decide_eq_false_2 by done. destruct (view_exact A HA Hs es E) as (idx & H1 & H2 & H3). exists idx. split; [done|]. intros k run o. by eapply holds_exact_bound.
  - intros Hx. destruct (a_companion A) as [es|] eqn:E; [|destruct Hcm; congruence]. destruct (view_companion A HA Hs es E) as (idx & H1 & H2 & H3). exists idx. split; [done|]. intros k run o. by eapply holds_exact_bound.
Qed.

(** C26: Verification never panics: at any level, over any buffer - truncated, forged,
    with every offset and count as hostile as it likes - [VerifyBytes] ends with a
    result or a refusal, so no read of the header, the tables, the records, the index
    sections or the frozen bitmaps leaves the buffer and no size computation that
    matters wraps; and what [NewView] refuses is refused at every known level with
    [NewView]'s own error. *)
Theorem verify_never_panics addr buf level : go_slice buf →
  VerifyBytes addr buf level ≠ Err Panic ∧
  ((∀ n, level ≠ UnknownLevelOf n) → ∀ e, NewView addr buf = Err e → VerifyBytes addr buf level = Err e).
Proof using All.
  intros [Hb Hl]. split; [by apply np_VerifyBytes|]. intros Hlv e He. unfold VerifyBytes. rewrite He. destruct level as [| | |n]; [done..|by destruct (Hlv n)].
Qed.

Context {SL : ShaLaws DL} {JW : JSONLaws JL}.

(** C24: Full verification binds the records to the base identity. When two buffers
    pass [LevelFull] with the same base ID, their views read lists of records whose
    canonical streams - the line of every record, in order - have the SHA-256 the base
    ID spells; and the lists are equal - same IDs, keys and payloads in the same order
    - unless the streams of these very two buffers are different bytes with that same
    SHA-256. *)
Theorem full_verification_binds a1 a2 b1 b2 v1 v2 o1 o2 : go_slice b1 → go_slice b2 →
  VerifyBytes a1 b1 LevelFull = Ok (v1, o1) → VerifyBytes a2 b2 LevelFull = Ok (v2, o2) → ve_BaseID o1 = ve_BaseID o2 →
  ∃ rs1 rs2, reads_records v1 rs1 ∧ reads_records v2 rs2 ∧
    ve_BaseID o1 = hex (sha256 (lines rs1)) ∧ ve_BaseID o2 = hex (sha256 (lines rs2)) ∧
    (rs1 = rs2 ∨ lines rs1 ≠ lines rs2 ∧ sha256 (lines rs1) = sha256 (lines rs2)).
Proof using All.
  assert (∀ a b v o, go_slice b → VerifyBytes a b LevelFull = Ok (v, o) → ∃ rs, reads_records v rs ∧ Forall rec_ok rs ∧ Forall content_ok rs ∧ ve_BaseID o = base_id rs) as H.
  { intros a b v o [Hb Hl] H. assert (∃ w, NewView a b = Ok w) as [w Hw] by (unfold VerifyBytes in H; destruct (NewView a b); [by eexists|done]).
    apply NewView_sound in Hw as (A & HA & -> & -> & Hal); [|done..]. apply (verify_full a A HA Hb Hl Hal) in H as [(_ & _ & Hc & _) [= -> ->]].
    exists (a_recs A). pose proof HA as (_ & _ & _ & ((Hrs & _) & _) & _). split_and!; [by apply artifact_reads|done..]. }
  intros S1 S2 (r1 & R1 & O1 & C1 & E1)%H (r2 & R2 & O2 & C2 & E2)%H E; [|done..]. exists r1, r2. split_and!; [done..|].
  rewrite E1, E2 in E. by apply base_id_binds.
Qed.

(** C23: An encoded artifact verifies and reads back. Let [Encode] succeed on contents
    as the builder makes them ([contents_ok]): provenance strings that are valid UTF-8
    - others are written but refused on reading, see the findings -, counters that are
    Go integers, fewer than 2^32 keys in all, and finished indexes with fewer than 2^32
    grams and posted ordinals; and let the bytes lie at an aligned address. Then they
    pass [LevelFull] with the summary's base ID and container digest, the view reads
    exactly the records encoded, and its indexes answer every gram and every key as the
    builder's indexes do. *)
Theorem encode_verify_roundtrip {FW : FrozenLaws FL} c buf su addr : Encode c = Ok (buf, su) → contents_ok c → go_slice buf → isAligned addr buf = true →
  ∃ v o, VerifyBytes addr buf LevelFull = Ok (v, o) ∧ reads_records v (c_Records c) ∧
    ve_BaseID o = su_BaseID su ∧ ve_ContainerSHA256 o = su_ContainerSHA256 su ∧ ve_Entries o = su_Entries su ∧ ve_Keys o = su_Keys su ∧ ve_Name o = c_Name c ∧
    (∀ i, c_Ngram c = Some i → ∃ j, view_NgramIndex v = Ok j ∧ Ngram.cfg j = Ngram.cfg i ∧ Ngram.numOrds j = Ngram.numOrds i ∧
      ∀ g, Ngram.posted (Ngram.postings j) g = Ngram.posted (Ngram.postings i) g) ∧
    (∀ i, c_Exact c = Some i → ∃ j, ExactIndex v = Ok j ∧ ∀ k, Exact.Lookup j k = Exact.Lookup i k) ∧
    (∀ i, c_ExactCompanion c = Some i → ∃ j, ExactCompanionIndex v = Ok j ∧ ∀ k, Exact.Lookup j k = Exact.Lookup i k).
Proof using All.
  intros He Hc Hs Hal. destruct (Encode_indexes c buf su He) as (X1 & X2). pose proof Hs as [Hb Hl].
  apply Encode_artifact in He as (A & lc & Hlc & HA & -> & Hf & Hr & Hi & Hcm & (cl & _ & Ecfg) & _ & ->); [|done..].
  assert (ve_sum : VerifyBytes addr (artifact_bytes A) LevelFull = Ok (artifact_view A, with_content (with_header (verified (artifact_view A) LevelFull)) (base_id (a_recs A)) (hex (sha256 (artifact_bytes A))))) by by apply (verify_full addr A HA Hb Hl Hal).
  eexists _, _. split; [exact ve_sum|]. rewrite <-Hr. split_and!; try done.
  - by apply artifact_reads.
  - change (ve_Name _) with (vc_Name (a_cfg A)). by rewrite Ecfg.
  - intros i Ei. destruct (a_index A) as [no gs|es] eqn:Ea; [|destruct Hi as (_ & x & Ex & _); rewrite (X1 _ Ei) in Ex; done].
    destruct Hi as (Hm & x & Ex & -> & Hh & G1 & G2). rewrite Ei in Ex. injection Ex as <-. destruct (view_ngram A HA Hs _ _ Ea) as (j & J1 & J2 & J3 & J4 & _).
    exists j. split_and!; [done| |done|by apply (holds_ngram_eq _ _ gs)]. rewrite J2, Ecfg. cbn [vc_Grams vc_StripSpaces]. rewrite <-G1, <-G2. by destruct (Ngram.cfg i).
  - intros i Ei. destruct (a_index A) as [no gs|es] eqn:Ea; [destruct Hi as (_ & x & Ex & _); rewrite (X1 _ Ex) in Ei; done|].
    destruct Hi as (Hm & x & Ex & Hh). rewrite Ei in Ex. injection Ex as <-. destruct (view_exact A HA Hs _ Ea) as (j & J1 & J2 & _). exists j. split; [done|]. by apply (holds_exact_eq _ _ es).
  - intros i Ei. unfold holds_companion in Hcm. rewrite Ei in Hcm. destruct (a_companion A) as [es|] eqn:Ea; [|done]. destruct Hcm as (_ & Hh).
    destruct (view_companion A HA Hs _ Ea) as (j & J1 & J2 & _). exists j. split; [done|]. by apply (holds_exact_eq _ _ es).
Qed.
End props.
