(* ===== verification/PreparedDemo.v ===== *)
(** Concrete prepared artifacts: the witnesses of [PreparedProps].

    First a concrete frozen-bitmap library on the set bitmaps: [freezeTo] writes each high
    half as one run container, [frozenView] decodes the tables of valid frozen bytes. *)

From stdpp Require Import pretty.
From S2P Require Import Prelude.
From S2P Require Import Runtime.
From S2P Require Import Score.
From S2P Require Import Bitmap.
From S2P Require Import Payload.
From S2P Require Import Filter.
From S2P Require Import ListConfig.
From S2P Require Import ListModel.
From S2P Require Import Stamp.
From S2P Require Import Wire.
From S2P Require Import PreparedFormat.
From S2P Require Import PreparedRecords.
From S2P Require Import PreparedRecordsSpec.
From S2P Require Import Frozen.
From S2P Require Import FrozenSpec.
From S2P Require Import FrozenSet.
From S2P Require Import PreparedIndex.
From S2P Require Import PreparedIndexSpec.
From S2P Require Import PreparedJSON.
From S2P Require Import Prepared.
From S2P Require Import PreparedSpec.
From S2P Require Import PreparedVerify.
From S2P Require Import PreparedEncode.
From S2P Require Import PreparedProps.
From S2P Require Ngram.
From S2P Require Exact.

#[local] Opaque bitsetWords.

(** ** Decoding *)

Fixpoint words (k n : nat) (b : bytes) : list N :=
  match n with O => [] | S n => get_le (take k b) :: words k n (drop k b) end.
Lemma words_table k ws rest : fits k ws → words k (length ws) (table_of k ws ++ rest) = ws.
Proof.
  induction 1 as [|w ws Hw _ IH]; [done|]. cbn [length words]. rewrite table_cons, <-app_assoc.
  rewrite take_app_length', drop_app_length' by (by rewrite put_le_length). by rewrite get_put_le, IH.
Qed.
Lemma words_table_at k n ws rest : length ws = n → fits k ws → words k n (table_of k ws ++ rest) = ws.
Proof. intros <-. apply words_table. Qed.

Fixpoint pairs (ws : list N) : list (N * N) :=
  match ws with s :: l :: ws => (s, l) :: pairs ws | _ => [] end.
Lemma pairs_run_table rs : pairs (run_table rs) = rs.
Proof. induction rs as [|[s l] rs IH]; [done|]. change (run_table ((s, l) :: rs)) with (s :: l :: run_table rs). cbn [pairs]. by rewrite IH. Qed.

(** The containers of the three word tables. *)
Fixpoint thaw_containers (ts CS BW UW AW : list N) : list container :=
  match ts, CS with
  | t :: ts, c :: CS =>
      match t with
      | 1%N => Bitset (take bitsetWords BW) :: thaw_containers ts CS (drop bitsetWords BW) UW AW
      | 2%N => Array (take (N.to_nat (c + 1)) AW) :: thaw_containers ts CS BW UW (drop (N.to_nat (c + 1)) AW)
      | _ => Runs (pairs (take (N.to_nat (2 * c)) UW)) :: thaw_containers ts CS BW (drop (N.to_nat (2 * c)) UW) AW
      end
  | _, _ => []
  end.
Lemma thaw_containers_ok xs CS : Forall2 count_fits xs CS →
  thaw_containers (type_code <$> xs) CS (xs ≫= bit_words) (xs ≫= run_words) (xs ≫= array_words) = xs.
Proof.
  induction 1 as [|x c xs CS Hx _ IH]; [done|]. rewrite !bind_cons. cbn [fmap list_fmap thaw_containers].
  destruct x as [ws|vs|rs]; cbn [type_code bit_words run_words array_words app count_fits] in *.
  - rewrite take_app_length', drop_app_length' by done. by rewrite IH.
  - rewrite take_app_length', drop_app_length' by lia. by rewrite IH.
  - fold (run_table rs). assert (length (run_table rs) = N.to_nat (2 * c)) as El by (rewrite run_table_length; lia).
    rewrite take_app_length', drop_app_length' by done. by rewrite pairs_run_table, IH.
Qed.

Definition thaw (b : bytes) : option (list (N * container)) :=
  match checkFrozenTrailer b with
  | Err _ => None
  | Ok l =>
      let nb := (bitsetWords * N.to_nat (nBitset l)) in let nu := N.to_nat (2 * nRunEl l) in let na := N.to_nat (nArrayEl l) in let n := N.to_nat (fl_n l) in
      let b1 := drop (8 * nb) b in let b2 := drop (2 * nu) b1 in let b3 := drop (2 * na) b2 in let b4 := drop (2 * n) b3 in
      Some (zip (words 2 n b3) (thaw_containers (take n (drop (2 * n) b4)) (words 2 n b4) (words 8 nb b) (words 2 nu b1) (words 2 na b2)))
  end.

Lemma thaw_frozen cs : frozen_ok cs → thaw (frozen_bytes cs) = Some cs.
Proof.
  intros Hok. pose proof (checkFrozen_complete cs Hok) as Hc. unfold checkFrozen in Hc. apply bind_ok in Hc as (l & Hl & _).
  destruct Hok as (Hne & Hl2 & Hok & HfK & Hs). set (xs := cs.*2) in *. set (KS := cs.*1) in *. set (CS := count_code <$> xs).
  assert (Forall container_ok xs) as Hxs by (by apply Forall_fmap).
  assert (Forall (λ x, count_fits x (count_code x) ∧ (count_code x < 2 ^ 16)%N ∧ fits 8 (bit_words x) ∧ fits 2 (run_words x) ∧ fits 2 (array_words x)) xs) as Hfit.
  { eapply Forall_impl; [exact Hxs|]. apply count_code_fits. }
  rewrite !Forall_and in Hfit. destruct Hfit as (HC & HfC & Hfb & Hfu & Hfa). apply fits_bind in Hfb, Hfu, Hfa.
  assert (Forall2 count_fits xs CS) as HCx by (unfold CS; by apply Forall_fmap_Forall2 || by apply Forall2_fmap_r, Forall_Forall2_diag).
  assert (fits 2 CS) as HfCS by (by apply Forall_fmap).
  assert (length xs = length cs ∧ length KS = length cs ∧ length CS = length cs) as (L1 & L2 & L3) by (unfold CS, xs, KS; by rewrite !length_fmap).
  destruct (implied_shapes xs CS HCx) as (N1 & N2 & N3). set (ts := type_code <$> xs) in *. assert (length ts = length cs) as L4 by (unfold ts; by rewrite length_fmap).
  set (BW := xs ≫= bit_words) in *. set (UW := xs ≫= run_words) in *. set (AW := xs ≫= array_words) in *.
  assert (raw_ok (table_of 8 BW ++ table_of 2 UW ++ table_of 2 AW) KS CS ts) as Hraw.
  { unfold raw_ok. rewrite L4. unfold frozenMaxConts. split_and!; try done; try lia.
    - destruct cs; [done|simpl; lia].
    - unfold ts. rewrite Forall_fmap. apply Forall_true. intros x. unfold known_type. destruct x; simpl; auto.
    - rewrite !blen_app, !table_blen, N1, N2, N3, <-bitset_bytes. lia. }
  unfold thaw. rewrite frozen_bytes_raw. fold xs KS. fold CS ts BW UW AW. rewrite (trailer_complete _ _ _ _ Hraw). unfold raw_layout. cbn [nBitset nRunEl nArrayEl fl_n].
  replace (bitsetWords * N.to_nat (implied ts CS).1.1) with (length BW) by lia.
  replace (N.to_nat (2 * (implied ts CS).2)) with (length UW) by lia. replace (N.to_nat (implied ts CS).1.2) with (length AW) by lia. rewrite Nat2N.id. cbn zeta.
  unfold raw. rewrite <-!app_assoc, L4. rewrite (drop_app_length' (table_of 8 BW)), (drop_app_length' (table_of 2 UW)), (drop_app_length' (table_of 2 AW)) by (by rewrite table_length).
  rewrite (drop_app_length' (table_of 2 KS)), (drop_app_length' (table_of 2 CS)) by (rewrite table_length; lia).
  rewrite !words_table_at by done. rewrite take_app_length' by lia. f_equal. unfold ts, BW, UW, AW. rewrite thaw_containers_ok by done. unfold KS, xs. apply zip_fst_snd.
Qed.

(** ** Freezing *)

Lemma sorted_length (l : list N) lo hi : StronglySorted N.lt l → (∀ x, x ∈ l → (lo <= x < hi)%N) → (N.of_nat (length l) <= hi - lo)%N.
Proof.
  intros Hs. revert lo. induction Hs as [|x l Hs IH Hx]; intros lo Hb; [simpl; lia|]. pose proof (Hb x ltac:(by left)) as Hx0.
  specialize (IH (x + 1)%N). cbn [length]. rewrite Forall_forall in Hx.
  assert (N.of_nat (length l) <= hi - (x + 1))%N; [|lia]. apply IH. intros y Hy. specialize (Hx y Hy). specialize (Hb y ltac:(by right)). lia.
Qed.
Lemma sorted_full (l : list N) lo n : StronglySorted N.lt l → (∀ x, x ∈ l → (lo <= x < lo + N.of_nat n)%N) → length l = n →
  l = (λ k, lo + N.of_nat k)%N <$> seq 0 n.
Proof.
  intros Hs. revert lo n. induction Hs as [|x l Hs IH Hx]; intros lo n Hb Hl; [by rewrite <-Hl|]. destruct n as [|n]; [done|]. injection Hl as Hl.
  rewrite Forall_forall in Hx. pose proof (Hb x ltac:(by left)) as Hx0.
  assert (N.of_nat (length l) <= lo + N.of_nat (S n) - (x + 1))%N as Hroom.
  { apply sorted_length; [done|]. intros y Hy. specialize (Hx y Hy). specialize (Hb y ltac:(by right)). lia. }
  assert (x = lo) as -> by lia. cbn [seq fmap list_fmap]. f_equal; [lia|]. rewrite (IH (lo + 1)%N n); [|intros y Hy; specialize (Hx y Hy); specialize (Hb y ltac:(by right)); lia|done].
  rewrite <-seq_shift, <-list_fmap_compose. apply list_fmap_ext. intros ? k _. simpl. lia.
Qed.

(** The ordinals by their high half. *)
Fixpoint halves (l : list N) : list (N * list N) :=
  match l with
  | [] => []
  | x :: l =>
      match halves l with
      | (k, vs) :: hs => if (k =? x / 65536)%N then (k, (x mod 65536)%N :: vs) :: hs else ((x / 65536)%N, [(x mod 65536)%N]) :: (k, vs) :: hs
      | [] => [((x / 65536)%N, [(x mod 65536)%N])]
      end
  end.
Definition joined (h : N * list N) : list N := (λ v, 65536 * h.1 + v)%N <$> h.2.
Lemma halves_spec l : StronglySorted N.lt l →
  Forall (λ h, h.2 ≠ [] ∧ below 65536 h.2) (halves l) ∧ Sorted N.lt (halves l).*1 ∧ halves l ≫= joined = l.
Proof.
  assert (∀ x, (x mod 65536 < 65536)%N ∧ (65536 * (x / 65536) + x mod 65536 = x)%N) as Hx by (intros x; split; [by apply N.mod_lt|symmetry; by apply N.div_mod]).
  assert (∀ x, below 65536 [(x mod 65536)%N]) as H1 by (intros x; split; [repeat constructor|intros y ->%list_elem_of_singleton; apply Hx]).
  induction 1 as [|x l Hs (IH1 & IH2 & IH3) Hlt]; [split_and!; constructor|]. cbn [halves]. destruct (Hx x) as [Hm Hd].
  destruct (halves l) as [|[k vs] hs]; [rewrite <-IH3; split_and!; [repeat constructor; apply H1 || done|repeat constructor|by rewrite bind_cons; unfold joined; simpl; f_equal]|].
  apply Forall_cons in IH1 as [[Hv1 [Hv2 Hv3]] IH1]. cbn [fst snd] in *. rewrite bind_cons in IH3. unfold joined at 1 in IH3. cbn [fst snd] in IH3.
  assert (∀ v, v ∈ vs → (x < 65536 * k + v)%N) as Hxv.
  { intros v Hv. rewrite Forall_forall in Hlt. apply Hlt. rewrite <-IH3. apply elem_of_app. left. apply list_elem_of_fmap. by exists v. }
  destruct (N.eqb_spec k (x / 65536)) as [->|Hne].
  - split_and!; [|done|].
    + constructor; [|done]. cbn [snd]. split; [done|]. split; [|intros y [->|Hy]%elem_of_cons; [done|by apply Hv3]].
      constructor; [done|]. apply Forall_forall. intros v Hv. specialize (Hxv v Hv). lia.
    + rewrite bind_cons. unfold joined at 1. cbn [fst snd]. rewrite fmap_cons, Hd. rewrite <-app_comm_cons, IH3. done.
  - split_and!; [|rewrite fmap_cons; constructor; [done|constructor]|].
    + constructor; [split; [done|apply H1]|]. by constructor.
    + cbn [fst fmap list_fmap]. destruct vs as [|v vs]; [done|]. specialize (Hxv v ltac:(by left)). specialize (Hv3 v ltac:(by left)). zlia.
    + rewrite bind_cons. unfold joined at 1. cbn [fst snd fmap list_fmap]. rewrite Hd. cbn [app]. f_equal. exact IH3.
Qed.

Definition freeze_half (vs : list N) : container :=
  Runs (if (N.of_nat (length vs) =? 65536)%N then [(0, 65535)]%N else (λ v, (v, 0%N)) <$> vs).
Lemma singles_ok prev vs : StronglySorted N.lt vs → (∀ v, v ∈ vs → (v < 65536)%N) → (∀ p v, prev = Some p → v ∈ vs → (p < v)%N) →
  runs_ok prev ((λ v, (v, 0%N)) <$> vs) ∧ ((λ v, (v, 0%N)) <$> vs) ≫= run_elems = vs.
Proof.
  intros Hs. revert prev. induction Hs as [|v vs Hs IH Hlt]; intros prev Hb Hp; [done|]. rewrite fmap_cons, bind_cons. cbn [runs_ok].
  rewrite Forall_forall in Hlt. pose proof (Hb v ltac:(by left)). destruct (IH (Some (v + 0)%N)) as [H1 H2].
  - intros y Hy. apply Hb. by right.
  - intros p y [= <-] Hy. specialize (Hlt y Hy). lia.
  - split; [split_and!; [lia|intros p E; apply (Hp p v E); by left|done]|]. rewrite H2. unfold run_elems. cbn. by rewrite N.add_0_r.
Qed.
Lemma freeze_half_ok vs : vs ≠ [] → below 65536 vs → container_ok (freeze_half vs) ∧ elems_of (freeze_half vs) = vs.
Proof.
  intros Hne [Hs Hb]. unfold freeze_half. destruct (N.eqb_spec (N.of_nat (length vs)) 65536) as [E|E].
  - split; [cbn [container_ok]; split_and!; [done|done|cbn [runs_ok]; split_and!; done]|]. cbn [elems_of]. rewrite bind_cons. change ([] ≫= run_elems) with ([] : list N). rewrite app_nil_r. unfold run_elems. cbn [fst snd].
    assert (S (N.to_nat 65535) = length vs) as -> by lia. symmetry. apply (sorted_full vs 0); [done| |done]. intros x Hx. specialize (Hb x Hx). lia.
  - destruct (singles_ok None vs Hs Hb) as [H1 H2]; [done|]. split; [|done]. cbn [container_ok]. rewrite length_fmap.
    pose proof (sorted_length vs 0 65536 Hs) as Hl. split_and!; [by destruct vs| |done]. change (2 ^ 16)%N with 65536%N.
    assert (N.of_nat (length vs) <= 65536 - 0)%N; [|lia]. apply Hl. intros x Hx. specialize (Hb x Hx). lia.
Qed.

Definition freeze (l : list N) : list (N * container) := (λ h, (h.1, freeze_half h.2)) <$> halves l.
Lemma freeze_ok l : l ≠ [] → below (2 ^ 32) l → frozen_ok (freeze l) ∧ frozen_elems (freeze l) = l.
Proof.
  intros Hne [Hs Hb]. destruct (halves_spec l Hs) as (H1 & H2 & H3). unfold freeze.
  assert (∀ h, h ∈ halves l → container_ok (freeze_half h.2) ∧ elems_of (freeze_half h.2) = h.2) as Hc.
  { intros h Hh. rewrite Forall_forall in H1. destruct (H1 h Hh). by apply freeze_half_ok. }
  assert (∀ k, k ∈ (halves l).*1 → (k < 65536)%N) as Hk.
  { intros k ([k' vs] & -> & Hh)%list_elem_of_fmap. rewrite Forall_forall in H1. destruct (H1 _ Hh) as [Hv _]. cbn [fst snd] in *. destruct vs as [|v vs]; [done|].
    assert (65536 * k' + v < 2 ^ 32)%N; [|lia]. apply Hb. rewrite <-H3. apply list_elem_of_bind. exists (k', v :: vs). split; [by left|done]. }
  assert (((λ h : N * list N, (h.1, freeze_half h.2)) <$> halves l).*1 = (halves l).*1) as E by (rewrite <-list_fmap_compose; done).
  split.
  - unfold frozen_ok. rewrite E, length_fmap. split_and!.
    + intros En%fmap_nil_inv. rewrite En in H3. done.
    + pose proof (sorted_length (halves l).*1 0 65536) as Hl. rewrite length_fmap in Hl. assert (N.of_nat (length (halves l)) <= 65536 - 0)%N; [|lia].
      apply Hl; [apply Sorted_StronglySorted; [exact N.lt_trans|done]|]. intros k Hin. specialize (Hk k Hin). lia.
    + apply Forall_fmap, Forall_forall. intros h Hh. by apply Hc.
    + apply Forall_forall. exact Hk.
    + done.
  - rewrite <-H3 at 2. unfold frozen_elems. rewrite list_fmap_bind. clear -Hc. induction (halves l) as [|h hs IH]; [done|]. rewrite !bind_cons. f_equal; [|apply IH; intros h' Hh'; apply Hc; by right].
    destruct (Hc h ltac:(by left)) as [Hok He]. change (lift (h.1, freeze_half h.2) = joined h). rewrite lift_spec by done. cbn [fst snd]. by rewrite He.
Qed.

(** ** The library *)

Definition thaw_set (b : bytes) : option SetBitmap :=
  cs ← thaw b; let l := frozen_elems cs in
  match decide (asc_ok l) with left H => Some (l ↾ H) | right _ => None end.
Definition freeze_set (b : SetBitmap) : option bytes :=
  match proj1_sig b with [] => None | l => Some (frozen_bytes (freeze l)) end.

#[local] Existing Instance set_bitmap.
Definition set_frozen : FrozenLib := {|
  frozenSize := λ b, from_option blen 0%N (freeze_set b);
  freezeTo := freeze_set;
  frozenView := thaw_set;
|}.
Lemma set_frozen_laws : FrozenLaws set_frozen.
Proof.
  split.
  - intros [l Hl] _ Hne. cbn in *. unfold freeze_set. cbn [proj1_sig]. apply asc_ok_spec in Hl. destruct (freeze_ok l Hne Hl) as [H1 H2].
    exists (freeze l). split_and!; [by destruct l|done..].
  - intros b f E. cbn in *. by rewrite E.
  - intros cs Hok. cbn. unfold thaw_set. rewrite thaw_frozen by done. cbn [mbind option_bind]. destruct (decide (asc_ok (frozen_elems cs))) as [Ha|Hn]; [by eexists|].
    destruct Hn. apply asc_ok_spec. by apply frozen_ok_sorted.
Qed.

(** * A concrete decoder of the two metadata documents, for the interface [JSONLib]: it
    reads back what [config_json] and [build_json] write.  Raw values and payloads are
    single lines that are their own compact form. *)

(** ** Tokens *)

Definition expect (p s : bytes) : option bytes := if bool_decide (take (length p) s = p) then Some (drop (length p) s) else None.
Lemma expect_app p s : expect p (p ++ s) = Some s.
Proof. unfold expect. by rewrite take_app_length, drop_app_length, bool_decide_eq_true_2. Qed.

Definition read_string (s : bytes) : option (bytes * bytes) := '(inner, rest) ← rawString s; Some (json_unquote inner, rest).
Lemma read_string_go x rest : read_string (go_string x ++ rest) = Some (sanitize x, rest).
Proof. unfold read_string. rewrite go_string_scan. cbn [mbind option_bind]. by rewrite go_unquote. Qed.

Definition digit (c : N) : bool := (48 <=? c)%N && (c <=? 57)%N.
Fixpoint digit_run (s : bytes) : bytes * bytes :=
  match s with
  | c :: s' => if digit c then let '(ds, rest) := digit_run s' in (c :: ds, rest) else ([], s)
  | [] => ([], [])
  end.
Definition value_of (acc : N) (ds : bytes) : N := foldl (λ a c, 10 * a + (c - 48))%N acc ds.
Definition read_int (s : bytes) : option (Z * bytes) :=
  let '(neg, s) := match s with c :: s' => if (c =? 45)%N then (true, s') else (false, s) | [] => (false, s) end in
  let '(ds, rest) := digit_run s in
  Some ((if neg : bool then - Z.of_N (value_of 0 ds) else Z.of_N (value_of 0 ds))%Z, rest).

Lemma digit_run_app ds rest : Forall decimal ds → (∀ c, head rest = Some c → digit c = false) → digit_run (ds ++ rest) = (ds, rest).
Proof.
  intros Hds Hr. induction Hds as [|c ds Hc _ IH]; [destruct rest as [|c rest]; [done|]; cbn; by rewrite (Hr c eq_refl)|].
  cbn [app digit_run]. unfold digit, decimal in *. replace ((48 <=? c)%N && (c <=? 57)%N) with true by lia. by rewrite IH.
Qed.
Lemma value_go x s : value_of 0 (str (pretty_N_go x s)) = value_of x (str s).
Proof.
  revert s. induction (N.lt_wf_0 x) as [x _ IH]; intros s. assert (x = 0 ∨ 0 < x)%N as [->|Hx] by lia; [done|].
  rewrite pretty_N_go_step by done. rewrite IH by (by apply N.div_lt). unfold str. csimpl. unfold value_of. cbn [foldl]. f_equal.
  assert (Ascii.N_of_ascii (pretty_N_char (x mod 10)) - 48 = x mod 10)%N as ->; [|symmetry; by apply N.div_mod].
  pose proof (N.mod_lt x 10 ltac:(done)) as Hm. unfold pretty_N_char. repeat case_match; cbn; lia.
Qed.
Lemma value_itoa n : value_of 0 (itoa n) = n.
Proof. unfold itoa, pretty, pretty_N. destruct (decide (n = 0%N)) as [->|]; [done|]. apply value_go. Qed.
Lemma itoa_cons n : ∃ c r, itoa n = c :: r ∧ decimal c.
Proof.
  pose proof (itoa_decimal n) as H. destruct (itoa n) as [|c r] eqn:E; [|apply Forall_cons in H as [H _]; by eexists _, _].
  pose proof (value_itoa n) as Hv. rewrite E in Hv. cbn in Hv. subst n. by vm_compute in E.
Qed.
Lemma read_int_go z rest : (∀ c, head rest = Some c → digit c = false) → read_int (go_int z ++ rest) = Some (z, rest).
Proof.
  intros Hr. unfold go_int. destruct (Z.ltb_spec z 0).
  - change (($"-" ++ itoa (Z.to_N (- z))) ++ rest) with (45%N :: itoa (Z.to_N (- z)) ++ rest). unfold read_int. change (45 =? 45)%N with true. cbn iota. rewrite digit_run_app by (done || apply itoa_decimal). rewrite value_itoa. do 2 f_equal. lia.
  - destruct (itoa_cons (Z.to_N z)) as (c & r & E & Hc). unfold read_int. rewrite E. cbn [app]. unfold decimal in Hc. destruct (N.eqb_spec c 45); [lia|].
    rewrite app_comm_cons, <-E. rewrite digit_run_app by (done || apply itoa_decimal). rewrite value_itoa. do 2 f_equal. lia.
Qed.

(** ** Documents *)

(** The prefix of a member that is not the first. *)
Definition next_member (name : bytes) : bytes := $"," ++ go_string name ++ $":".
Definition read_member {A} (name : bytes) (read : bytes → option (A * bytes)) (s : bytes) : option (A * bytes) := s ← expect (next_member name) s; read s.
(** A member that is left out at its zero value. *)
Definition read_optional {A} (name : bytes) (zero : A) (read : bytes → option (A * bytes)) (s : bytes) : option (A * bytes) :=
  match expect (next_member name) s with Some s => read s | None => Some (zero, s) end.

Definition read_config (s : bytes) : option configDoc :=
  s ← expect ($"{" ++ go_string ($"name") ++ $":") s; '(name, s) ← read_string s;
  '(ad, s) ← read_member ($"analyzer_digest") read_string s; '(cd, s) ← read_member ($"config_digest") read_string s;
  s ← expect (next_member ($"list")) s;
  if bool_decide (last s = Some 125%N) then Some (mkConfigDoc name ad cd (take (length s - 1) s)) else None.
Definition read_build (s : bytes) : option BuildInfo :=
  s ← expect ($"{" ++ go_string ($"base_id") ++ $":") s; '(id, s) ← read_string s;
  '(entries, s) ← read_member ($"entries") read_int s; '(keys, s) ← read_member ($"keys") read_int s;
  '(dropped, s) ← read_member ($"dropped_keys") read_int s; '(keyless, s) ← read_member ($"keyless_entries") read_int s;
  '(collapsed, s) ← read_optional ($"collapsed") 0%Z read_int s;
  '(source, s) ← read_optional ($"source") [] read_string s; '(created, s) ← read_optional ($"created_at") [] read_string s;
  '(input, s) ← read_optional ($"input_sha256") [] read_string s;
  if bool_decide (s = $"}") then Some (mkBuildInfo id entries keys dropped keyless collapsed source created input) else None.

Lemma member_next name v rest : member name v ++ rest = next_member name ++ v ++ rest.
Proof. unfold member, next_member. by rewrite <-!app_assoc. Qed.
Lemma read_member_go {A} name (read : bytes → option (A * bytes)) v rest : read_member name read (member name v ++ rest) = read (v ++ rest).
Proof. rewrite member_next. unfold read_member. by rewrite expect_app. Qed.
Lemma read_optional_go {A} name zero (read : bytes → option (A * bytes)) v rest : read_optional name zero read (member name v ++ rest) = read (v ++ rest).
Proof. rewrite member_next. unfold read_optional. by rewrite expect_app. Qed.
(** A member that is left out: another one, or the end, comes next. *)
Lemma read_optional_skip {A} name zero (read : bytes → option (A * bytes)) s : expect (next_member name) s = None → read_optional name zero read s = Some (zero, s).
Proof. intros H. unfold read_optional. by rewrite H. Qed.

(** The members of a build document that may be left out, in their order. *)
Definition later_names : list bytes := [$"collapsed"; $"source"; $"created_at"; $"input_sha256"].
Inductive tail_from : nat → bytes → Prop :=
  | tail_end i : tail_from i ($"}")
  | tail_member i j name v rest : i ≤ j → later_names !! j = Some name → tail_from i (member name v ++ rest).
Lemma tail_weaken i j s : tail_from i s → j ≤ i → tail_from j s.
Proof. intros [|? k name v rest Hk Hn] Hj; [constructor|]. eapply (tail_member j k); [lia|done]. Qed.
Lemma tail_skip i name s : later_names !! i = Some name → tail_from (S i) s → expect (next_member name) s = None.
Proof.
  intros Hi Ht. inversion Ht as [|? j n2 v rest Hj Hn2]; subst; clear Ht; unfold later_names in *.
  - do 4 (destruct i as [|i]; [injection Hi as <-; vm_compute; reflexivity|]). done.
  - rewrite member_next. destruct i as [|[|[|[|i]]]]; try done; injection Hi as <-; destruct j as [|[|[|[|j]]]]; try done; try lia; injection Hn2 as <-;
      unfold expect; (rewrite bool_decide_eq_false_2; [done|vm_compute; discriminate]).
Qed.
Lemma tail_nodigit i s c : tail_from i s → head s = Some c → digit c = false.
Proof. intros [|? j n v rest]; cbn; intros [= <-]; done. Qed.
Lemma string_tail i name v rest : later_names !! i = Some name → tail_from (S i) rest → tail_from i (string_member name v ++ rest).
Proof.
  intros Hi Ht. unfold string_member. case_bool_decide; [by eapply tail_weaken; [exact Ht|lia]|]. by eapply (tail_member i i).
Qed.
Lemma read_string_member i name v rest : later_names !! i = Some name → tail_from (S i) rest →
  read_optional name [] read_string (string_member name v ++ rest) = Some (sanitize v, rest).
Proof.
  intros Hi Ht. unfold string_member. case_bool_decide as Hv; [subst; by apply read_optional_skip, (tail_skip i)|].
  by rewrite read_optional_go, read_string_go.
Qed.

Lemma read_config_go d l : read_config (config_json (mkConfigDoc (cd_Name d) (cd_AnalyzerDigest d) (cd_ConfigDigest d) l)) = Some (sane_config d l).
Proof.
  unfold read_config, config_json. cbn [cd_Name cd_AnalyzerDigest cd_ConfigDigest cd_List].
  assert (∀ rest, $"{" ++ go_string ($"name") ++ $":" ++ rest = ($"{" ++ go_string ($"name") ++ $":") ++ rest) as E by (intros; by rewrite <-!app_assoc).
  rewrite E, expect_app. cbn [mbind option_bind]. rewrite read_string_go. cbn [mbind option_bind]. rewrite read_member_go, read_string_go. cbn [mbind option_bind].
  rewrite read_member_go, read_string_go. cbn [mbind option_bind]. rewrite member_next, expect_app. cbn [mbind option_bind].
  change ($"}") with [125%N]. rewrite last_snoc, bool_decide_eq_true_2 by done. unfold sane_config. do 2 f_equal. rewrite length_app. cbn [length]. rewrite Nat.add_sub. apply take_app_length.
Qed.
Lemma read_build_go b : read_build (build_json b) = Some (sane_build b).
Proof.
  unfold read_build, build_json.
  assert (∀ rest, $"{" ++ go_string ($"base_id") ++ $":" ++ rest = ($"{" ++ go_string ($"base_id") ++ $":") ++ rest) as E by (intros; by rewrite <-!app_assoc).
  rewrite E, expect_app. cbn [mbind option_bind]. rewrite read_string_go. cbn [mbind option_bind].
  rewrite read_member_go, read_int_go by (by intros ? [= <-]). cbn [mbind option_bind].
  rewrite read_member_go, read_int_go by (by intros ? [= <-]). cbn [mbind option_bind].
  rewrite read_member_go, read_int_go by (by intros ? [= <-]). cbn [mbind option_bind].
  pose proof (tail_end 4) as T4. pose proof (string_tail 3 _ (InputSHA256 b) _ eq_refl T4) as T3. pose proof (string_tail 2 _ (CreatedAt b) _ eq_refl T3) as T2. pose proof (string_tail 1 _ (Source b) _ eq_refl T2) as T1.
  set (tail := string_member ($"source") (Source b) ++ _) in *.
  assert (∃ s, (if (bi_Collapsed b =? 0)%Z then [] else member ($"collapsed") (go_int (bi_Collapsed b))) ++ tail = s ∧ tail_from 0 s ∧
    read_optional ($"collapsed") 0%Z read_int s = Some (bi_Collapsed b, tail)) as (s & -> & T0 & Hc).
  { eexists. split; [done|]. destruct (Z.eqb_spec (bi_Collapsed b) 0) as [->|Hne].
    - split; [by eapply tail_weaken; [exact T1|lia]|]. by apply read_optional_skip, (tail_skip 0).
    - split; [by eapply (tail_member 0 0)|]. rewrite read_optional_go, read_int_go; [done|]. intros c. by eapply tail_nodigit. }
  rewrite read_member_go, read_int_go by (intros c; by eapply tail_nodigit). cbn [mbind option_bind]. rewrite Hc. cbn [mbind option_bind]. unfold tail.
  rewrite (read_string_member 1) by done. cbn [mbind option_bind]. rewrite (read_string_member 2) by done. cbn [mbind option_bind]. rewrite (read_string_member 3) by done. cbn [mbind option_bind].
  by rewrite bool_decide_eq_true_2.
Qed.

(** ** The library *)

Definition one_line (p : bytes) : bool := bool_decide (p ≠ []) && bool_decide (c_nl ∉ p).
Definition line_json (mirror : bytes → option listConfigMirror) : JSONLib := {|
  compact := λ p, if one_line p then Some p else None;
  json_valid := one_line;
  decode_config := read_config;
  decode_build := λ b, i ← read_build b;
    if forallb (λ z, (- 2 ^ 63 <=? z) && (z <? 2 ^ 63))%Z [bi_Entries i; bi_Keys i; bi_DroppedKeys i; bi_KeylessEntries i; bi_Collapsed i]
    then Some i else None;
  decode_mirror := mirror;
|}.
Lemma line_json_laws mirror : JSONLaws (line_json mirror).
Proof.
  assert (∀ p c, (if one_line p then Some p else None) = Some c → c = p ∧ one_line p = true) as H by (intros p c; destruct (one_line p); [by intros [= <-]|done]).
  split; cbn [compact json_valid decode_config decode_build decode_mirror line_json].
  - intros p c [-> Hl]%H. unfold one_line in Hl. apply andb_true_iff in Hl as [H1%bool_decide_eq_true H2%bool_decide_eq_true]. done.
  - intros p c [-> Hl]%H. by rewrite Hl.
  - intros p _. destruct (one_line p); [by rewrite bool_decide_eq_true_2 by eauto|rewrite bool_decide_eq_false_2; [done|by intros [? ?]]].
  - done.
  - intros d l _. apply read_config_go.
  - intros b Hb. rewrite read_build_go. cbn [mbind option_bind]. cbn [sane_build bi_Entries bi_Keys bi_DroppedKeys bi_KeylessEntries bi_Collapsed].
    assert (forallb (λ z, (- 2 ^ 63 <=? z) && (z <? 2 ^ 63))%Z [bi_Entries b; bi_Keys b; bi_DroppedKeys b; bi_KeylessEntries b; bi_Collapsed b] = true) as ->; [|done].
    apply forallb_forall. intros z Hz%list_elem_of_In. unfold build_ints in Hb. rewrite Forall_forall in Hb. specialize (Hb z Hz). unfold int64_ok in Hb. lia.
  - intros p b Hb. destruct (read_build p) as [i|]; [|done]. cbn [mbind option_bind] in Hb. destruct (forallb _ _) eqn:E; [|done]. injection Hb as <-.
    apply Forall_forall. intros z Hz%list_elem_of_In. rewrite forallb_forall in E. specialize (E z Hz). unfold int64_ok. lia.
  - intros p c [-> _]%H. done.
Qed.

(** * Concrete prepared artifacts: a list of two records with an n-gram index and its
    exact companion, encoded, verified and read back under concrete libraries; the
    witnesses of the theorems of [PreparedProps]. *)

#[local] Existing Instance default_runtime.
#[local] Existing Instance set_bitmap.
#[local] Existing Instance set_frozen.
#[local] Existing Instance set_frozen_laws.
#[local] Instance demo_floats : FloatOps := exact_ops id.
(** A checksum of 32 bytes: the length and the sum. *)
#[local] Instance demo_digest : DigestLib := {|
  sha256 := λ b, put_le 32 (blen b * 2 ^ 32 + foldl N.add 0 b)%N;
  marshal_config := λ _, [] |}.
#[local] Instance demo_sha : ShaLaws demo_digest.
Proof. split; intros b; cbn; [unfold blen; by rewrite put_le_length|apply put_le_bytes]. Qed.

Definition demo_list : bytes := $"{}".
Definition demo_mirror : listConfigMirror := mkMirror mode_ngram [2; 3]%Z false true.
#[local] Instance demo_json : JSONLib := line_json (λ p, if bool_decide (p = demo_list) then Some demo_mirror else None).
#[local] Instance demo_json_laws : JSONLaws demo_json := line_json_laws _.

Definition demo_records : list Rec := [mkRec ($"b") (Some [$"a"; $"bc"]) ($"[1]"); mkRec ($"a") None []].
Definition demo_grams : Ngram.Index :=
  Ngram.mkIndex (Ngram.mkConfig [2; 3]%Z false) {[ $"ab" := bm_add (bm_add bm_new 0) 1; $"cd" := bm_add bm_new 1 ]} 2.
Definition demo_exact : option Exact.Index :=
  b ← Exact.add_all [(0%N, [$"a"; $"bc"]); (1%N, [$"a"])] Exact.NewBuilder;
  match (Exact.Finish b).1 with Ok i => Some i | Err _ => None end.
Definition demo_hex : bytes := replicate 64 48%N.
Definition demo_contents : Contents :=
  mkContents set_bitmap ($"words") demo_list demo_hex demo_hex demo_records (Some demo_grams) None demo_exact 0 1 ($"src") [] [] 0.
Definition demo_buf : bytes := Eval vm_compute in match Encode demo_contents with Ok (b, _) => b | Err _ => [] end.

(** The same records from another source: another artifact of the same identity. *)
Definition other_contents : Contents :=
  mkContents set_bitmap ($"words") demo_list demo_hex demo_hex demo_records (Some demo_grams) None demo_exact 0 1 ($"elsewhere") [] [] 0.
Definition other_buf : bytes := Eval vm_compute in match Encode other_contents with Ok (b, _) => b | Err _ => [] end.

Example demo_differ : bool_decide (demo_buf = other_buf) = false.
Proof. vm_compute. done. Qed.

Lemma demo_slice : go_slice demo_buf ∧ go_slice other_buf.
Proof. split; (split; [apply (bool_decide_unpack _); vm_compute; exact I|vm_compute; discriminate]). Qed.

Definition exact_index : Exact.Index := default (Exact.mkIndex ∅ [] [] 0) demo_exact.
Lemma demo_exact_in : demo_exact = Some exact_index ∧ exact_in exact_index.
Proof.
  split; [vm_compute; reflexivity|]. split; [|vm_compute; discriminate]. intros k [x Hk%elem_of_map_to_list].
  assert (k ∈ (map_to_list (Exact.m exact_index)).*1) as Hin by (apply list_elem_of_fmap; by exists (k, x)). clear Hk.
  assert ((map_to_list (Exact.m exact_index)).*1 = [$"bc"; $"a"]) as E by (vm_compute; reflexivity). rewrite E in Hin.
  assert (Exact.Lookup exact_index ($"bc") = Some [0%N] ∧ Exact.Lookup exact_index ($"a") = Some [0%N; 1%N]) as [L1 L2] by (split; vm_compute; reflexivity).
  assert (Exact.NumOrds exact_index = 2%N) as -> by (vm_compute; reflexivity).
  apply elem_of_cons in Hin as [->|Hin]; [|apply list_elem_of_singleton in Hin as ->]; (split; [done|]).
  - exists [0%N]. split_and!; [exact L1|done|vm_compute; discriminate|repeat constructor|by intros o ->%list_elem_of_singleton].
  - exists [0%N; 1%N]. split_and!; [exact L2|done|vm_compute; discriminate|repeat constructor|]. intros o [-> |Ho]%elem_of_cons; [done|by apply list_elem_of_singleton in Ho as ->].
Qed.
Lemma demo_grams_finished : ngram_finished demo_grams.
Proof.
  split; [|right; exists ($"ab"); vm_compute; right; left].
  split; [by intros ???|]. intros g x. unfold Ngram.posted, demo_grams. simpl.
  destruct (decide (g = $"ab")) as [->|Hab]; [rewrite lookup_insert_eq; change (x ∈ [0%N; 1%N] → (x < 2)%N); set_solver by lia|].
  rewrite lookup_insert_ne by done. destruct (decide (g = $"cd")) as [->|Hcd]; [rewrite lookup_singleton_eq; change (x ∈ [1%N] → (x < 2)%N); set_solver by lia|].
  rewrite lookup_singleton_ne by done. simpl. by intros ?%elem_of_nil.
Qed.
Lemma demo_contents_ok : contents_ok demo_contents.
Proof.
  destruct demo_exact_in as [E Hx]. split.
  - intros i Hi. change (c_Ngram demo_contents) with (Some demo_grams) in Hi. apply (inj Some) in Hi as <-. split; [exact demo_grams_finished|vm_compute; discriminate].
  - intros i [Hi|Hi]; [done|]. change (c_ExactCompanion demo_contents) with demo_exact in Hi. assert (Some exact_index = Some i) as Hs by exact (eq_trans (eq_sym E) Hi).
    apply (inj Some) in Hs as <-. exact Hx.
  - vm_compute. discriminate.
  - repeat constructor; vm_compute; done.
  - repeat constructor.
Qed.

Lemma demo_encoded : ∃ su, Encode demo_contents = Ok (demo_buf, su).
Proof.
  assert (match Encode demo_contents with Ok (b, _) => b | Err _ => [] end = demo_buf) as H by (vm_compute; reflexivity).
  destruct (Encode demo_contents) as [[b su]|e]; [exists su; by rewrite H|discriminate H].
Qed.
(** What the view of the artifact says. *)
Lemma demo_view : ∃ v, NewView 0 demo_buf = Ok v ∧ v_n (v_records v) = 2%N ∧ Lookup (v_records v) (v_ids v) ($"b") = Ok (Some 0%N) ∧
  bool_decide (vc_Mode (v_cfg v) = mode_ngram) = true.
Proof.
  assert (match NewView 0 demo_buf with
    | Ok v => Some (v_n (v_records v), Lookup (v_records v) (v_ids v) ($"b"), bool_decide (vc_Mode (v_cfg v) = mode_ngram))
    | Err _ => None end = Some (2%N, Ok (Some 0%N), true)) as H by (vm_compute; reflexivity).
  destruct (NewView 0 demo_buf) as [v|e]; [|discriminate H]. injection H as H1 H2 H3. exists v. split; [reflexivity|]. split; [exact H1|]. split; [exact H2|exact H3].
Qed.
Lemma demo_verified : ∃ v1 v2 o1 o2, VerifyBytes 0 demo_buf LevelFull = Ok (v1, o1) ∧ VerifyBytes 0 other_buf LevelFull = Ok (v2, o2) ∧ ve_BaseID o1 = ve_BaseID o2.
Proof.
  assert (match VerifyBytes 0 demo_buf LevelFull, VerifyBytes 0 other_buf LevelFull with Ok (_, o1), Ok (_, o2) => bool_decide (ve_BaseID o1 = ve_BaseID o2) | _, _ => false end = true) as Hb by (vm_compute; reflexivity).
  destruct (VerifyBytes 0 demo_buf LevelFull) as [[v1 o1]|e]; [|discriminate Hb]. destruct (VerifyBytes 0 other_buf LevelFull) as [[v2 o2]|e]; [|discriminate Hb].
  apply bool_decide_eq_true in Hb. exists v1, v2, o1, o2. split; [reflexivity|]. split; [reflexivity|exact Hb].
Qed.

(** ** Witnesses *)

Lemma encode_verify_roundtrip_witness : ∃ v o, VerifyBytes 0 demo_buf LevelFull = Ok (v, o) ∧ reads_records v demo_records ∧
  ∃ j, ExactCompanionIndex v = Ok j ∧ Exact.Lookup j ($"a") = Some [0%N; 1%N].
Proof.
  destruct demo_encoded as [su E]. destruct (encode_verify_roundtrip demo_contents demo_buf su 0 E demo_contents_ok (proj1 demo_slice) eq_refl)
    as (v & o & H1 & H2 & _ & _ & _ & _ & _ & _ & _ & Hx). exists v, o. split; [exact H1|]. split; [exact H2|].
  destruct (Hx exact_index (proj1 demo_exact_in)) as (j & J1 & J2). exists j. split; [exact J1|]. rewrite J2. vm_compute. reflexivity.
Defined.

(** The artifact cut off after its first bytes. *)
Lemma verify_never_panics_witness : VerifyBytes 0 (take 100 demo_buf) LevelFull ≠ Err Panic ∧ ∃ e, VerifyBytes 0 (take 100 demo_buf) LevelFull = Err e ∧ e ≠ Panic.
Proof.
  assert (go_slice (take 100 demo_buf)) as Hs by (apply (bool_decide_unpack _); vm_compute; exact I).
  destruct (verify_never_panics 0 (take 100 demo_buf) LevelFull Hs) as [H1 H2]. split; [exact H1|].
  assert (match NewView 0 (take 100 demo_buf) with Ok _ => false | Err e => true end = true) as E by (vm_compute; reflexivity).
  destruct (NewView 0 (take 100 demo_buf)) as [v|e]; [discriminate E|]. specialize (H2 ltac:(intros n; discriminate) e eq_refl). exists e. split; [exact H2|].
  intros ->. exact (H1 H2).
Defined.

Lemma new_view_exact_witness : ∃ A, artifact_ok A ∧ demo_buf = artifact_bytes A ∧ length (a_recs A) = 2.
Proof.
  destruct demo_view as (v & E & Hn & _). destruct (proj1 (new_view_exact 0 demo_buf v (proj1 demo_slice)) E) as (_ & A & H1 & H2 & H3).
  exists A. split; [exact H1|]. split; [exact H2|]. rewrite H3 in Hn. cbn in Hn. lia.
Defined.

Lemma view_lookup_exact_witness : ∃ v, NewView 0 demo_buf = Ok v ∧ Lookup (v_records v) (v_ids v) ($"b") = Ok (Some 0%N) ∧
  ∃ rs, reads_records v rs ∧ r_ID <$> rs !! 0 = Some ($"b").
Proof.
  destruct demo_view as (v & E & _ & Hb & _). exists v. split; [exact E|]. destruct (view_lookup_exact 0 demo_buf v (proj1 demo_slice) E) as (rs & Hr & Hl).
  split; [exact Hb|]. exists rs. split; [exact Hr|]. destruct (Hl ($"b")) as (r & Hr' & Hs). rewrite Hb in Hr'. injection Hr' as <-.
  destruct Hs as (x & Hx & Hid). change (N.to_nat 0) with 0 in Hx. destruct (rs !! 0) as [y|]; [|discriminate Hx]. injection Hx as ->. cbn. by rewrite Hid.
Defined.

Lemma view_indexes_sound_witness : ∃ v, NewView 0 demo_buf = Ok v ∧ ∃ idx, view_NgramIndex v = Ok idx ∧
  ∀ g o, o ∈ Ngram.posted (Ngram.postings idx) g → (o < v_n (v_records v))%N.
Proof.
  destruct demo_view as (v & E & _ & _ & Hb). exists v. split; [exact E|]. destruct (view_indexes_sound 0 demo_buf v (proj1 demo_slice) E) as [H _].
  rewrite Hb in H. destruct H as (idx & H1 & _ & H2). exists idx. exact (conj H1 H2).
Defined.

Lemma full_verification_binds_witness : ∃ v1 v2 o1 o2, VerifyBytes 0 demo_buf LevelFull = Ok (v1, o1) ∧ VerifyBytes 0 other_buf LevelFull = Ok (v2, o2) ∧
  ∃ rs1 rs2, reads_records v1 rs1 ∧ reads_records v2 rs2 ∧
    ve_BaseID o1 = hex (sha256 (lines rs1)) ∧ ve_BaseID o2 = hex (sha256 (lines rs2)) ∧
    (rs1 = rs2 ∨ lines rs1 ≠ lines rs2 ∧ sha256 (lines rs1) = sha256 (lines rs2)).
Proof.
  destruct demo_verified as (v1 & v2 & o1 & o2 & E1 & E2 & Hb). exists v1, v2, o1, o2. split; [exact E1|]. split; [exact E2|].
  exact (full_verification_binds 0 0 demo_buf other_buf v1 v2 o1 o2 (proj1 demo_slice) (proj2 demo_slice) E1 E2 Hb).
Defined.

(** The ordinals 1, 2 and 70000 as an array and a run container. *)
Lemma check_frozen_exact_witness : ∃ cs, frozen_ok cs ∧ frozen_bytes [(0%N, Array [1; 2]%N); (1%N, Runs [(4464, 0)]%N)] = frozen_bytes cs ∧ frozen_elems cs = [1; 2; 70000]%N.
Proof.
  destruct (proj1 (check_frozen_exact (frozen_bytes [(0%N, Array [1; 2]%N); (1%N, Runs [(4464, 0)]%N)]) (mkFrozenInfo 2 3 70000) ltac:(apply (bool_decide_unpack _); vm_compute; exact I)))
    as (cs & Hok & Hb & H1 & H2 & H3 & H4); [vm_compute; reflexivity|].
  exists cs. split; [exact Hok|]. split; [exact Hb|]. pose proof (thaw_frozen cs Hok) as Ht. rewrite <-Hb in Ht.
  assert (thaw (frozen_bytes [(0%N, Array [1; 2]%N); (1%N, Runs [(4464, 0)]%N)]) = Some [(0%N, Array [1; 2]%N); (1%N, Runs [(4464, 0)]%N)]) as Hd by (vm_compute; reflexivity).
  rewrite Hd in Ht. injection Ht as <-. vm_compute. reflexivity.
Defined.
