(* ===== verification/Admit.v ===== *)
(** Query admission ([server/admit.go], and the two-level acquisition of [runQuery] in
    [server/server.go]): queries that charge their cost to a chain of gates - a tenant's
    slice, then the global budget - run, and hand the charges back.

    The weighted semaphore of golang.org/x/sync is an interface.  A query takes atomic
    steps: entering a gate, the counter of waiters, the return of [Acquire], the counter
    of admitted bytes, and the releases in reverse order; all interleavings of any
    number of queries are the runs of the system. *)

From S2P Require Import Prelude.

(** ** The semaphore *)

(** A semaphore's callers are told apart by a number.  [Acquire] is the call that joins
    the waiters, and its return: with the weight granted, or with the error of a context
    that ended. *)
Class WeightedSem := {
  Weighted : Type;
  NewWeighted : Z → Weighted;
  sem_size : Weighted → Z;
  sem_held : Weighted → Z;
  sem_waiting : Weighted → list (nat * Z);
  sem_join : Weighted → nat → Z → Weighted;
  sem_grant : Weighted → nat → option Weighted;
  sem_abandon : Weighted → nat → Weighted;
  sem_Release : Weighted → Z → Weighted;
}.
(** What its documentation promises: a weight is granted to a waiter when it is
    available, a failed [Acquire] leaves the semaphore unchanged, and with nothing held
    some waiter that fits at all is served. *)
Class SemLaws (S : WeightedSem) := {
  sem_new n : sem_size (NewWeighted n) = n ∧ sem_held (NewWeighted n) = 0%Z ∧ sem_waiting (NewWeighted n) = [];
  sem_join_spec s t n : sem_size (sem_join s t n) = sem_size s ∧ sem_held (sem_join s t n) = sem_held s ∧
    sem_waiting (sem_join s t n) ≡ₚ (t, n) :: sem_waiting s;
  sem_grant_spec s t s' : sem_grant s t = Some s' → ∃ n, (t, n) ∈ sem_waiting s ∧ sem_size s' = sem_size s ∧
    sem_held s' = (sem_held s + n)%Z ∧ (sem_held s + n <= sem_size s)%Z ∧ sem_waiting s ≡ₚ (t, n) :: sem_waiting s';
  sem_abandon_spec s t n : (t, n) ∈ sem_waiting s → sem_size (sem_abandon s t) = sem_size s ∧ sem_held (sem_abandon s t) = sem_held s ∧
    ∃ m, sem_waiting s ≡ₚ (t, m) :: sem_waiting (sem_abandon s t);
  sem_release_spec s n : (0 <= n <= sem_held s)%Z → sem_size (sem_Release s n) = sem_size s ∧ sem_held (sem_Release s n) = (sem_held s - n)%Z ∧
    sem_waiting (sem_Release s n) = sem_waiting s;
  sem_available s : sem_held s = 0%Z → sem_waiting s ≠ [] → Forall (λ w, w.2 <= sem_size s)%Z (sem_waiting s) →
    ∃ t s', sem_grant s t = Some s';
}.

Section admission.
Context {WS : WeightedSem}.

(** ** [admitter] *)

Record admitter := mkAdmitter { budget : Z; queued : Z; inflight : Z; sem : Weighted }.
Definition newAdmitter (budgetBytes : Z) : option admitter :=
  if (budgetBytes <=? 0)%Z then None else Some (mkAdmitter budgetBytes 0 0 (NewWeighted budgetBytes)).
Definition add_queued (n : Z) (a : admitter) : admitter := mkAdmitter (budget a) (queued a + n) (inflight a) (sem a).
Definition add_inflight (n : Z) (a : admitter) : admitter := mkAdmitter (budget a) (queued a) (inflight a + n) (sem a).
Definition set_sem (s : Weighted) (a : admitter) : admitter := mkAdmitter (budget a) (queued a) (inflight a) s.
Definition depth (a : option admitter) : Z * Z := match a with None => (0, 0)%Z | Some a => (queued a, inflight a) end.

(** ** A query's passage *)

Inductive outcome := Answered | TooLarge | TimedOut.
Inductive phase :=
  | Entering                 (* before the next gate, or about to run *)
  | Waiting                  (* counted as queued, in [Acquire] *)
  | Served                   (* [Acquire] returned nil *)
  | Expired                  (* [Acquire] returned the context's error *)
  | Charging                 (* no longer queued, not yet counted in flight *)
  | Running
  | Unwinding (o : outcome)  (* the deferred releases *)
  | Releasing (o : outcome)  (* uncounted, before [sem.Release] *)
  | Finished (o : outcome).
#[export] Instance outcome_eq_dec : EqDecision outcome.
Proof. solve_decision. Defined.
#[export] Instance phase_eq_dec : EqDecision phase.
Proof. solve_decision. Defined.
(** The gates ahead, and those passed, the last first. *)
Record query := mkQuery { q_cost : Z; q_gates : list nat; q_held : list nat; q_phase : phase }.
Definition new_query (cost : Z) (gates : list nat) : query := mkQuery cost gates [] Entering.
Definition at_phase (p : phase) (q : query) : query := mkQuery (q_cost q) (q_gates q) (q_held q) p.
Definition skip_gate (q : query) : query := mkQuery (q_cost q) (tail (q_gates q)) (q_held q) (q_phase q).
Definition pass_gate (g : nat) (q : query) : query := mkQuery (q_cost q) (tail (q_gates q)) (g :: q_held q) Entering.
Definition drop_held (o : outcome) (q : query) : query := mkQuery (q_cost q) (q_gates q) (tail (q_held q)) (Unwinding o).

(** The gates that exist - a nil admitter is no gate - and the queries. *)
Record system := mkSystem { gates : gmap nat admitter; queries : list query }.
Definition put (i : nat) (q : query) (σ : system) : system := mkSystem (gates σ) (<[i := q]> (queries σ)).
Definition put_gate (i : nat) (q : query) (g : nat) (a : admitter) (σ : system) : system := mkSystem (<[g := a]> (gates σ)) (<[i := q]> (queries σ)).

(** One step of query [i]; a [Waiting] query moves when the semaphore serves it, or when
    its context ends. *)
Inductive event := Move | Timeout.
Definition enter (i : nat) (q : query) (σ : system) : system :=
  match q_gates q with
  | [] => put i (at_phase Running q) σ
  | g :: _ =>
      match gates σ !! g with
      | None => put i (skip_gate q) σ
      | Some a =>
          if (q_cost q <=? 0)%Z then put i (skip_gate q) σ
          else if (budget a <? q_cost q)%Z then put i (at_phase (Unwinding TooLarge) q) σ
          else put_gate i (at_phase Waiting q) g (set_sem (sem_join (sem a) i (q_cost q)) (add_queued 1 a)) σ
      end
  end.
Definition at_gate (q : query) (σ : system) : option (nat * admitter) := g ← head (q_gates q); a ← gates σ !! g; Some (g, a).
Definition at_held (q : query) (σ : system) : option (nat * admitter) := g ← head (q_held q); a ← gates σ !! g; Some (g, a).
Definition advance (e : event) (i : nat) (σ : system) : option system :=
  q ← queries σ !! i;
  match e, q_phase q with
  | Move, Entering => Some (enter i q σ)
  | Move, Waiting => '(g, a) ← at_gate q σ; s ← sem_grant (sem a) i; Some (put_gate i (at_phase Served q) g (set_sem s a) σ)
  | Timeout, Waiting => '(g, a) ← at_gate q σ; Some (put_gate i (at_phase Expired q) g (set_sem (sem_abandon (sem a) i) a) σ)
  | Move, Served => '(g, a) ← at_gate q σ; Some (put_gate i (at_phase Charging q) g (add_queued (-1) a) σ)
  | Move, Expired => '(g, a) ← at_gate q σ; Some (put_gate i (at_phase (Unwinding TimedOut) q) g (add_queued (-1) a) σ)
  | Move, Charging => '(g, a) ← at_gate q σ; Some (put_gate i (pass_gate g q) g (add_inflight (q_cost q) a) σ)
  | Move, Running => Some (put i (at_phase (Unwinding Answered) q) σ)
  | Move, Unwinding o =>
      match q_held q with
      | [] => Some (put i (at_phase (Finished o) q) σ)
      | _ => '(g, a) ← at_held q σ; Some (put_gate i (at_phase (Releasing o) q) g (add_inflight (- q_cost q) a) σ)
      end
  | Move, Releasing o => '(g, a) ← at_held q σ; Some (put_gate i (drop_held o q) g (set_sem (sem_Release (sem a) (q_cost q)) a) σ)
  | _, _ => None
  end.

(** The gates of a query, as [runQuery] passes them: the tenant's slice if the tenant
    has one, then the global budget. *)
Definition global : nat := 0.
Definition chain (gs : list nat) : Prop := gs = [global] ∨ ∃ t, t ≠ global ∧ gs = [t; global].
(** Every run: queries arrive, with some cost, at any time. *)
Inductive reachable (budgets : gmap nat Z) : system → Prop :=
  | start : reachable budgets (mkSystem (omap newAdmitter budgets) [])
  | arrive σ cost gs : reachable budgets σ → chain gs → reachable budgets (mkSystem (gates σ) (queries σ ++ [new_query cost gs]))
  | step σ e i σ' : reachable budgets σ → advance e i σ = Some σ' → reachable budgets σ'.
End admission.

(** * Admission keeps the budgets under every interleaving of queries, hands every charge
    back, and cannot deadlock. *)

(** ** Sums over the queries *)

Definition zsum {A} (f : A → Z) (l : list A) : Z := foldr (λ x s, (f x + s)%Z) 0%Z l.
Lemma zsum_cons {A} (f : A → Z) x l : zsum f (x :: l) = (f x + zsum f l)%Z.
Proof. done. Qed.
Lemma zsum_app {A} (f : A → Z) l1 l2 : zsum f (l1 ++ l2) = (zsum f l1 + zsum f l2)%Z.
Proof. induction l1 as [|x l1 IH]; [done|]. cbn [app]. rewrite !zsum_cons, IH. lia. Qed.
Lemma zsum_insert {A} (f : A → Z) l i x y : l !! i = Some x → zsum f (<[i := y]> l) = (zsum f l - f x + f y)%Z.
Proof.
  revert i. induction l as [|z l IH]; intros [|i] H; [done..| |].
  - injection H as ->. change (<[0:=y]> (x :: l)) with (y :: l). rewrite !zsum_cons. lia.
  - change (l !! i = Some x) in H. change (<[S i:=y]> (z :: l)) with (z :: <[i:=y]> l). rewrite !zsum_cons, (IH i H). lia.
Qed.
Lemma zsum_le {A} (f g : A → Z) l : (∀ x, x ∈ l → f x <= g x)%Z → (zsum f l <= zsum g l)%Z.
Proof.
  induction l as [|x l IH]; intros H; [done|]. rewrite !zsum_cons. pose proof (H x ltac:(by left)). specialize (IH ltac:(intros y Hy; apply H; by right)). lia.
Qed.
Lemma zsum_zero {A} (f : A → Z) l : (∀ x, x ∈ l → f x = 0%Z) → zsum f l = 0%Z.
Proof. induction l as [|x l IH]; intros H; [done|]. rewrite zsum_cons, (H x) by (by left). rewrite IH; [done|]. intros y Hy. apply H. by right. Qed.
Lemma zsum_nonneg {A} (f : A → Z) l : (∀ x, x ∈ l → 0 <= f x)%Z → (0 <= zsum f l)%Z.
Proof. intros H. rewrite <-(zsum_zero (λ _ : A, 0%Z) l) by done. by apply zsum_le. Qed.

Section spec.
Context {WS : WeightedSem} {SL : SemLaws WS}.

(** ** What a query contributes to a gate *)

(** The weight it holds of the semaphore. *)
Definition weight (g : nat) (q : query) : Z :=
  if decide (g ∈ q_held q) then q_cost q else
  match q_phase q with
  | Served | Charging => if decide (head (q_gates q) = Some g) then q_cost q else 0%Z
  | _ => 0%Z
  end.
(** The bytes counted in flight. *)
Definition charged (q : query) : list nat := match q_phase q with Releasing _ => tail (q_held q) | _ => q_held q end.
Definition counted (g : nat) (q : query) : Z := if decide (g ∈ charged q) then q_cost q else 0%Z.
(** Whether the queue counter counts it, and whether it is in [Acquire]. *)
Definition waits (g : nat) (q : query) : Z :=
  match q_phase q with
  | Waiting | Served | Expired => if decide (head (q_gates q) = Some g) then 1%Z else 0%Z
  | _ => 0%Z
  end.
Definition in_acquire (g : nat) (q : query) : Prop := q_phase q = Waiting ∧ head (q_gates q) = Some g.

(** The gate a query is at is one it fits. *)
Definition fits (gs : gmap nat admitter) (g : nat) (q : query) : Prop := ∃ a, gs !! g = Some a ∧ (0 < q_cost q <= budget a)%Z.
Definition query_ok (gs : gmap nat admitter) (q : query) : Prop :=
  NoDup (q_gates q ++ q_held q) ∧ (∀ g, g ∈ q_held q → fits gs g q) ∧
  match q_phase q with
  | Waiting | Served | Expired | Charging => ∃ g, head (q_gates q) = Some g ∧ fits gs g q
  | Running => q_gates q = []
  | Releasing _ => q_held q ≠ []
  | Finished _ => q_held q = []
  | _ => True
  end.
Definition gate_ok (qs : list query) (g : nat) (a : admitter) : Prop :=
  (0 < budget a)%Z ∧ sem_size (sem a) = budget a ∧ sem_held (sem a) = zsum (weight g) qs ∧ (sem_held (sem a) <= budget a)%Z ∧
  queued a = zsum (waits g) qs ∧ inflight a = zsum (counted g) qs ∧
  ∀ t n, (t, n) ∈ sem_waiting (sem a) ↔ ∃ q, qs !! t = Some q ∧ in_acquire g q ∧ n = q_cost q.
Definition no_repeat (a : admitter) : Prop := NoDup (sem_waiting (sem a)).*1.
Definition inv (σ : system) : Prop :=
  Forall (query_ok (gates σ)) (queries σ) ∧ ∀ g a, gates σ !! g = Some a → gate_ok (queries σ) g a ∧ no_repeat a.

(** ** One query changes, and one gate with it *)

Lemma gate_ok_update qs i q q' g a a' : gate_ok qs g a → qs !! i = Some q → budget a' = budget a → sem_size (sem a') = sem_size (sem a) →
  sem_held (sem a') = (sem_held (sem a) - weight g q + weight g q')%Z → (sem_held (sem a') <= budget a)%Z →
  queued a' = (queued a - waits g q + waits g q')%Z → inflight a' = (inflight a - counted g q + counted g q')%Z →
  (∀ t n, (t, n) ∈ sem_waiting (sem a') ↔ (t ≠ i ∧ (t, n) ∈ sem_waiting (sem a)) ∨ (t = i ∧ in_acquire g q' ∧ n = q_cost q')) →
  gate_ok (<[i := q']> qs) g a'.
Proof.
  intros (H1 & H2 & H3 & H4 & H5 & H6 & H7) Hi Hb Hs Hh Hle Hq Hf Hw. pose proof (lookup_lt_Some _ _ _ Hi) as Hlt.
  split_and!; [by rewrite Hb|by rewrite Hs, Hb|rewrite (zsum_insert _ _ _ _ _ Hi); lia|by rewrite Hb|rewrite (zsum_insert _ _ _ _ _ Hi); lia|rewrite (zsum_insert _ _ _ _ _ Hi); lia|].
  intros t n. rewrite Hw, H7. destruct (decide (t = i)) as [->|Hne].
  - rewrite list_lookup_insert_eq by done. split; [intros [[? _]|(_ & ? & ?)]; [done|by exists q']|]. intros (? & [= <-] & ? & ?). by right.
  - rewrite list_lookup_insert_ne by done. split; [intros [[_ ?]|[? _]]; done|]. intros ?. by left.
Qed.
(** A gate the step does not touch. *)
Lemma gate_ok_other qs i q q' g a : gate_ok qs g a → qs !! i = Some q → weight g q' = weight g q → waits g q' = waits g q → counted g q' = counted g q →
  ¬ in_acquire g q → ¬ in_acquire g q' → gate_ok (<[i := q']> qs) g a.
Proof.
  intros Hg Hi E1 E2 E3 N1 N2. pose proof Hg as (H1 & H2 & H3 & H4 & H5 & H6 & H7). apply (gate_ok_update qs i q q' g a a Hg Hi); [done..|lia|done|lia|lia|].
  intros t n. split; [|intros [[_ ?]|(_ & ? & _)]; done]. intros Hin. left. split; [|done]. intros ->. apply H7 in Hin as (q0 & Hq0 & Hacq & _). rewrite Hi in Hq0. by injection Hq0 as <-.
Qed.
Lemma gate_ok_app qs q g a : gate_ok qs g a → weight g q = 0%Z → waits g q = 0%Z → counted g q = 0%Z → ¬ in_acquire g q → gate_ok (qs ++ [q]) g a.
Proof.
  intros (H1 & H2 & H3 & H4 & H5 & H6 & H7) E1 E2 E3 N. unfold gate_ok. rewrite !zsum_app. unfold zsum at 2 4 6. cbn [foldr]. rewrite E1, E2, E3, !Z.add_0_r. split_and!; try done.
  intros t n. rewrite H7. split; intros (q0 & Hq0 & Hacq & ->).
  - exists q0. split_and!; [|done..]. by apply lookup_app_l_Some.
  - apply lookup_app_Some in Hq0 as [Hq0|[_ Hq0]]; [by exists q0|]. apply list_lookup_singleton_Some in Hq0 as [_ <-]. done.
Qed.

(** ** Preservation *)

Lemma fits_budget gs gs' g q : fits gs g q → (∀ a, gs !! g = Some a → ∃ a', gs' !! g = Some a' ∧ budget a' = budget a) → fits gs' g q.
Proof. intros (a & Ha & Hc) H. destruct (H a Ha) as (a' & Ha' & E). exists a'. by rewrite E. Qed.
Lemma query_ok_budget gs gs' q : query_ok gs q → (∀ g a, gs !! g = Some a → ∃ a', gs' !! g = Some a' ∧ budget a' = budget a) → query_ok gs' q.
Proof.
  intros (H1 & H2 & H3) H. split_and!; [done|intros g Hg; eapply fits_budget; eauto|]. destruct (q_phase q); try done; destruct H3 as (g & ? & ?); exists g; (split; [done|]); eapply fits_budget; eauto.
Qed.
(** The query's contributions to a gate are as before, and it does not wait there. *)
Definition same_at (g : nat) (q q' : query) : Prop :=
  weight g q' = weight g q ∧ waits g q' = waits g q ∧ counted g q' = counted g q ∧ ¬ in_acquire g q ∧ ¬ in_acquire g q'.

Lemma inv_put σ i q q' : inv σ → queries σ !! i = Some q → query_ok (gates σ) q' → (∀ g a, gates σ !! g = Some a → same_at g q q') → inv (put i q' σ).
Proof.
  intros [Hq Hg] Hi Hok Hs. split; cbn [put gates queries].
  - by apply Forall_insert.
  - intros g a Ha. destruct (Hg g a Ha) as [Hga Hn], (Hs g a Ha) as (? & ? & ? & ? & ?). split; [|done]. by apply (gate_ok_other (queries σ) i q).
Qed.
Lemma inv_put_gate σ i q q' g a a' : inv σ → queries σ !! i = Some q → gates σ !! g = Some a → query_ok (gates σ) q' → budget a' = budget a →
  (gate_ok (queries σ) g a → no_repeat a → gate_ok (<[i := q']> (queries σ)) g a' ∧ no_repeat a') → (∀ g', g' ≠ g → same_at g' q q') → inv (put_gate i q' g a' σ).
Proof.
  intros [Hq Hg] Hi Ha Hok Hb Hga Hs. assert (∀ g0 a0, gates σ !! g0 = Some a0 → ∃ a1, <[g := a']> (gates σ) !! g0 = Some a1 ∧ budget a1 = budget a0) as Hmono.
  { intros g0 a0 H0. destruct (decide (g0 = g)) as [->|Hne]; [exists a'; rewrite lookup_insert_eq; split; [done|congruence]|exists a0; by rewrite lookup_insert_ne]. }
  split; cbn [put_gate gates queries].
  - apply Forall_insert; [|by eapply query_ok_budget]. eapply Forall_impl; [exact Hq|]. intros x Hx. by eapply query_ok_budget.
  - intros g0 a0. destruct (decide (g0 = g)) as [->|Hne].
    + rewrite lookup_insert_eq. intros [= <-]. destruct (Hg g a Ha). by apply Hga.
    + rewrite lookup_insert_ne by done. intros H0. destruct (Hg g0 a0 H0) as [? ?], (Hs g0 Hne) as (? & ? & ? & ? & ?). split; [|done]. by apply (gate_ok_other (queries σ) i q).
Qed.

(** The members of the waiting list across the semaphore's operations. *)
Lemma removed_member w w' i n : NoDup w.*1 → w ≡ₚ (i, n) :: w' → NoDup w'.*1 ∧ ∀ (t : nat) (m : Z), (t, m) ∈ w' ↔ t ≠ i ∧ (t, m) ∈ w.
Proof.
  intros Hnd Hp. rewrite Hp in Hnd. apply NoDup_cons in Hnd as [Hni Hnd]. split; [done|]. intros t m. rewrite Hp, elem_of_cons. split.
  - intros Hin. split; [|by right]. intros ->. apply Hni. by apply (list_elem_of_fmap_2 fst w' (i, m)).
  - intros [Hne [[= -> _]|?]]; done.
Qed.

Ltac contributions :=
  unfold same_at, weight, waits, counted, charged, in_acquire, at_phase, skip_gate, pass_gate, drop_held; cbn [q_held q_gates q_phase q_cost head tail];
  repeat match goal with |- context [decide ?P] => destruct (decide P) end;
  repeat match goal with H : _ ∈ _ :: _ |- _ => rewrite elem_of_cons in H | H : ¬ (_ ∈ _ :: _) |- _ => rewrite elem_of_cons in H end;
  repeat match goal with |- _ ∧ _ => split end;
  first [reflexivity|lia|intros [? ?]; congruence|exfalso; match goal with H : NoDup _ |- _ => cbn [app] in H; rewrite ?NoDup_cons, ?elem_of_cons, ?elem_of_app in H | _ => idtac end; intuition congruence].

Lemma query_at σ i q : inv σ → queries σ !! i = Some q → query_ok (gates σ) q.
Proof. intros [Hq _] Hi. rewrite Forall_forall in Hq. apply Hq. by eapply list_elem_of_lookup_2. Qed.

Lemma inv_enter σ i q : inv σ → queries σ !! i = Some q → q_phase q = Entering → inv (enter i q σ).
Proof.
  intros Hinv Hi Hp. pose proof (query_at σ i q Hinv Hi) as (Hnd & Hh & _). destruct q as [c gs hs ph]. cbn in Hp. subst ph. cbn [q_gates q_held] in *. unfold enter. cbn [q_gates q_cost].
  destruct gs as [|g gs]; [|destruct (gates σ !! g) as [a|] eqn:Ha; [destruct (Z.leb_spec c 0); [|destruct (Z.ltb_spec (budget a) c)]|]].
  - apply (inv_put σ i _ _ Hinv Hi); [by split_and!|]. intros g a _. contributions.
  - apply (inv_put σ i _ _ Hinv Hi); [split_and!; [by apply NoDup_cons in Hnd as [_ ?]|done|done]|]. intros g' a' _. contributions.
  - apply (inv_put σ i _ _ Hinv Hi); [by split_and!|]. intros g' a' _. contributions.
  - apply (inv_put_gate σ i _ _ g a _ Hinv Hi Ha).
    + split_and!; [done|done|]. exists g. split; [done|]. exists a. by split; [|cbn; lia].
    + done.
    + intros Hga Hn. destruct (sem_join_spec (sem a) i c) as (J1 & J2 & J3). pose proof Hga as (_ & _ & _ & Hle & _ & _ & Hw).
      assert (∀ m, (i, m) ∉ sem_waiting (sem a)) as Hni by (intros m Hin; apply Hw in Hin as (q0 & Hq0 & [Hq0p _] & _); rewrite Hi in Hq0; injection Hq0 as <-; done).
      cbn [set_sem add_queued sem budget queued inflight]. split.
      * apply (gate_ok_update (queries σ) i _ _ g a _ Hga Hi); cbn [set_sem add_queued sem budget queued inflight]; [done|done|rewrite J2; contributions|by rewrite J2|contributions|contributions|].
        intros t n. rewrite J3, elem_of_cons. unfold in_acquire. cbn [q_phase q_gates q_cost head at_phase]. split.
        -- intros [[= -> ->]|Hin]; [by right|]. left. split; [|done]. intros ->. by apply Hni in Hin.
        -- intros [[_ Hin]|(-> & _ & ->)]; [by right|by left].
      * unfold no_repeat in *. cbn [set_sem sem]. rewrite J3. apply NoDup_cons. split; [|done]. intros ([i' m] & E & Hin)%list_elem_of_fmap. cbn in E. subst i'. by apply Hni in Hin.
    + intros g' Hne. contributions.
  - apply (inv_put σ i _ _ Hinv Hi); [split_and!; [by apply NoDup_cons in Hnd as [_ ?]|done|done]|]. intros g' a' Hg'. contributions.
Qed.

(** The waiting list is as before, and the query is not on it. *)
Lemma waiting_same qs g a i q q' : gate_ok qs g a → qs !! i = Some q → ¬ in_acquire g q → ¬ in_acquire g q' →
  ∀ t n, (t, n) ∈ sem_waiting (sem a) ↔ (t ≠ i ∧ (t, n) ∈ sem_waiting (sem a)) ∨ (t = i ∧ in_acquire g q' ∧ n = q_cost q').
Proof.
  intros (_ & _ & _ & _ & _ & _ & Hw) Hi N1 N2 t n. split; [|intros [[_ ?]|(_ & ? & _)]; done]. intros Hin. left. split; [|done]. intros ->.
  apply Hw in Hin as (q0 & Hq0 & Hacq & _). rewrite Hi in Hq0. by injection Hq0 as <-.
Qed.
(** The waiting list loses the query. *)
Lemma waiting_removed qs g a i q q' w' m : gate_ok qs g a → no_repeat a → qs !! i = Some q → sem_waiting (sem a) ≡ₚ (i, m) :: w' → ¬ in_acquire g q' →
  NoDup w'.*1 ∧ ∀ t n, (t, n) ∈ w' ↔ (t ≠ i ∧ (t, n) ∈ sem_waiting (sem a)) ∨ (t = i ∧ in_acquire g q' ∧ n = q_cost q').
Proof.
  intros _ Hn _ Hp N2. destruct (removed_member _ _ _ _ Hn Hp) as [Hnd Hw]. split; [done|]. intros t n. rewrite Hw. split; [by left|]. by intros [?|(_ & ? & _)].
Qed.

(** A step at the gate ahead that leaves the semaphore alone, or takes the query off its
    waiting list. *)
Lemma gate_step σ i q q' g a a' : inv σ → queries σ !! i = Some q → gates σ !! g = Some a → query_ok (gates σ) q' → budget a' = budget a →
  sem_size (sem a') = sem_size (sem a) → sem_held (sem a') = (sem_held (sem a) - weight g q + weight g q')%Z → (sem_held (sem a') <= budget a)%Z →
  queued a' = (queued a - waits g q + waits g q')%Z → inflight a' = (inflight a - counted g q + counted g q')%Z → ¬ in_acquire g q' →
  (sem_waiting (sem a') = sem_waiting (sem a) ∧ ¬ in_acquire g q ∨ ∃ m, sem_waiting (sem a) ≡ₚ (i, m) :: sem_waiting (sem a')) →
  (∀ g', g' ≠ g → same_at g' q q') → inv (put_gate i q' g a' σ).
Proof.
  intros Hinv Hi Ha Hok Hb H1 H2 H3 H4 H5 N Hw Hs. apply (inv_put_gate σ i q q' g a a' Hinv Hi Ha Hok Hb); [|done]. intros Hga Hn. destruct Hw as [[E Nq]|(m & Hp)].
  - unfold no_repeat. rewrite E. split; [|done]. apply (gate_ok_update (queries σ) i q q' g a a' Hga Hi); try done. rewrite E. by apply (waiting_same (queries σ) g a i q q').
  - destruct (waiting_removed (queries σ) g a i q q' _ m Hga Hn Hi Hp N) as [Hnd Hw]. split; [|done]. by apply (gate_ok_update (queries σ) i q q' g a a' Hga Hi).
Qed.
Lemma at_gate_some q σ g a : at_gate q σ = Some (g, a) ↔ head (q_gates q) = Some g ∧ gates σ !! g = Some a.
Proof. unfold at_gate. destruct (head (q_gates q)) as [g0|]; cbn; [|naive_solver]. destruct (gates σ !! g0) eqn:E; cbn; naive_solver. Qed.
Lemma at_held_some q σ g a : at_held q σ = Some (g, a) ↔ head (q_held q) = Some g ∧ gates σ !! g = Some a.
Proof. unfold at_held. destruct (head (q_held q)) as [g0|]; cbn; [|naive_solver]. destruct (gates σ !! g0) eqn:E; cbn; naive_solver. Qed.

Lemma inv_acquire σ i q e σ' : inv σ → queries σ !! i = Some q → q_phase q = Waiting → advance e i σ = Some σ' → inv σ'.
Proof.
  intros Hinv Hi Hp Hadv. pose proof (query_at σ i q Hinv Hi) as (Hnd & Hh & Hf). unfold advance in Hadv. rewrite Hi in Hadv. cbn [mbind option_bind] in Hadv. rewrite Hp in Hadv, Hf.
  destruct Hf as (g & Hg & a & Ha & Hc). assert (at_gate q σ = Some (g, a)) as Eg by (by apply at_gate_some). rewrite Eg in Hadv. cbn [mbind option_bind] in Hadv.
  pose proof Hinv as [_ Hga]. destruct (Hga g a Ha) as [(Hb0 & Hsz & Hhd & Hle & _ & _ & Hw) _]. destruct q as [c gs hs ph]. cbn in Hp, Hg, Hc, Hnd, Hh. subst ph. destruct gs as [|g0 gs]; [done|]. injection Hg as ->.
  assert ((i, c) ∈ sem_waiting (sem a)) as Hin by (apply Hw; eexists; split; [exact Hi|done]). destruct e.
  - destruct (sem_grant (sem a) i) as [s|] eqn:Eg'; [|done]. cbn [mbind option_bind] in Hadv. injection Hadv as <-. apply sem_grant_spec in Eg' as (n & Hn & G1 & G2 & G3 & G4).
    assert (n = c) as -> by (apply Hw in Hn as (q0 & Hq0 & _ & ->); rewrite Hi in Hq0; by injection Hq0 as <-).
    eapply (gate_step σ i _ _ g a); cbn [set_sem sem budget queued inflight]; [done|exact Hi|done| |done|done| |lia| | | |right; by eexists|].
    + split_and!; [done|done|]. exists g. split; [done|]. by exists a.
    + contributions.
    + contributions.
    + contributions.
    + by intros [? _].
    + intros g' Hne. contributions.
  - injection Hadv as <-. destruct (sem_abandon_spec _ _ _ Hin) as (G1 & G2 & m & G3).
    eapply (gate_step σ i _ _ g a); cbn [set_sem sem budget queued inflight]; [done|exact Hi|done| |done|done| |lia| | | |right; by eexists|].
    + split_and!; [done|done|]. exists g. split; [done|]. by exists a.
    + contributions.
    + contributions.
    + contributions.
    + by intros [? _].
    + intros g' Hne. contributions.
Qed.
Lemma inv_dequeue σ i q σ' : inv σ → queries σ !! i = Some q → q_phase q = Served ∨ q_phase q = Expired ∨ q_phase q = Charging → advance Move i σ = Some σ' → inv σ'.
Proof.
  intros Hinv Hi Hp Hadv. pose proof (query_at σ i q Hinv Hi) as (Hnd & Hh & Hf). unfold advance in Hadv. rewrite Hi in Hadv. cbn [mbind option_bind] in Hadv.
  assert (∃ g, head (q_gates q) = Some g ∧ fits (gates σ) g q) as (g & Hg & a & Ha & Hc) by (destruct Hp as [E|[E|E]]; by rewrite E in Hf). clear Hf.
  assert (at_gate q σ = Some (g, a)) as Eg by (by apply at_gate_some). rewrite Eg in Hadv. cbn [mbind option_bind] in Hadv.
  pose proof Hinv as [_ Hga]. destruct (Hga g a Ha) as [(Hb0 & Hsz & Hhd & Hle & _) _]. destruct q as [c gs hs ph]. cbn in Hp, Hg, Hc, Hnd, Hh. destruct gs as [|g0 gs]; [done|]. injection Hg as ->.
  destruct Hp as [-> |[-> | ->]]; cbn [q_phase] in Hadv; injection Hadv as <-.
  - eapply (gate_step σ i _ _ g a); cbn [add_queued add_inflight sem budget queued inflight q_cost];
      [done|exact Hi|done| |reflexivity|reflexivity|contributions|done|contributions|contributions|by intros [? _]|left; split; [done|by intros [? _]]|intros g' Hne; contributions].
    split_and!; [done|done|]. exists g. split; [done|]. by exists a.
  - eapply (gate_step σ i _ _ g a); cbn [add_queued add_inflight sem budget queued inflight q_cost];
      [done|exact Hi|done| |reflexivity|reflexivity|contributions|done|contributions|contributions|by intros [? _]|left; split; [done|by intros [? _]]|intros g' Hne; contributions].
    by split_and!.
  - eapply (gate_step σ i _ _ g a); cbn [add_queued add_inflight sem budget queued inflight q_cost];
      [done|exact Hi|done| |reflexivity|reflexivity|contributions|done|contributions|contributions|by intros [? _]|left; split; [done|by intros [? _]]|intros g' Hne; contributions].
    cbn in Hnd. apply NoDup_cons in Hnd as [Hni Hnd]. rewrite elem_of_app in Hni. apply NoDup_app in Hnd as (N1 & N2 & N3). split_and!; [|intros g' [->|Hg']%elem_of_cons; [by exists a|by apply Hh]|done].
    cbn. apply NoDup_app. split_and!; [done|set_solver|apply NoDup_cons; split; [set_solver|done]].
Qed.

Lemma inv_unwind σ i q o σ' : inv σ → queries σ !! i = Some q → q_phase q = Unwinding o → advance Move i σ = Some σ' → inv σ'.
Proof.
  intros Hinv Hi Hp Hadv. pose proof (query_at σ i q Hinv Hi) as (Hnd & Hh & _). unfold advance in Hadv. rewrite Hi in Hadv. cbn [mbind option_bind] in Hadv. rewrite Hp in Hadv.
  destruct q as [c gs hs ph]. cbn in Hp, Hnd, Hh. subst ph. cbn [q_held] in Hadv. destruct hs as [|g hs].
  - injection Hadv as <-. apply (inv_put σ i _ _ Hinv Hi); [by split_and!|]. intros g a _. contributions.
  - destruct (Hh g ltac:(by left)) as (a & Ha & Hc). assert (at_held (mkQuery c gs (g :: hs) (Unwinding o)) σ = Some (g, a)) as Eg by (by apply at_held_some). rewrite Eg in Hadv. cbn [mbind option_bind] in Hadv. injection Hadv as <-.
    pose proof Hinv as [_ Hga]. destruct (Hga g a Ha) as [(Hb0 & Hsz & Hhd & Hle & _) _]. apply NoDup_app in Hnd as (N1 & N2 & N3). apply NoDup_cons in N3 as [N3 N4].
    eapply (gate_step σ i _ _ g a); cbn [add_inflight sem budget queued inflight q_cost];
      [done|exact Hi|done| |reflexivity|reflexivity|contributions|done|contributions|contributions|by intros [? _]|left; split; [done|by intros [? _]]|intros g' Hne; contributions].
    split_and!; [cbn; apply NoDup_app; split_and!; [done|done|by apply NoDup_cons]|done|done].
Qed.
Lemma weight_nonneg gs g q : query_ok gs q → (0 <= weight g q)%Z.
Proof.
  intros (_ & Hh & Hf). unfold weight. destruct (decide (g ∈ q_held q)) as [Hin|_]; [destruct (Hh g Hin) as (a & _ & ?); lia|].
  destruct (q_phase q); try done; destruct Hf as (g' & _ & a & _ & ?); destruct (decide _); lia.
Qed.
Lemma zsum_single {A} (f : A → Z) l i x : (∀ y, y ∈ l → 0 <= f y)%Z → l !! i = Some x → (f x <= zsum f l)%Z.
Proof.
  revert i. induction l as [|y l IH]; intros [|i] H Hi; [done..| |]; rewrite zsum_cons.
  - injection Hi as ->. pose proof (zsum_nonneg f l ltac:(intros z Hz; apply H; by right)). lia.
  - change (l !! i = Some x) in Hi. specialize (IH i ltac:(intros z Hz; apply H; by right) Hi). pose proof (H y ltac:(by left)). lia.
Qed.
Lemma inv_release σ i q o σ' : inv σ → queries σ !! i = Some q → q_phase q = Releasing o → advance Move i σ = Some σ' → inv σ'.
Proof.
  intros Hinv Hi Hp Hadv. pose proof (query_at σ i q Hinv Hi) as (Hnd & Hh & Hr). unfold advance in Hadv. rewrite Hi in Hadv. cbn [mbind option_bind] in Hadv. rewrite Hp in Hadv, Hr.
  destruct q as [c gs hs ph]. cbn in Hp, Hnd, Hh, Hr. subst ph. destruct hs as [|g hs]; [done|].
  destruct (Hh g ltac:(by left)) as (a & Ha & Hc). assert (at_held (mkQuery c gs (g :: hs) (Releasing o)) σ = Some (g, a)) as Eg by (by apply at_held_some). rewrite Eg in Hadv. cbn [mbind option_bind] in Hadv. injection Hadv as <-.
  pose proof Hinv as [Hq Hga]. destruct (Hga g a Ha) as [(Hb0 & Hsz & Hhd & Hle & _) _]. apply NoDup_app in Hnd as (N1 & N2 & N3). apply NoDup_cons in N3 as [N3 N4]. cbn [q_cost] in *.
  assert (0 <= c <= sem_held (sem a))%Z as Hrange.
  { split; [lia|]. rewrite Hhd. assert (weight g (mkQuery c gs (g :: hs) (Releasing o)) = c) as <- by (unfold weight; cbn; rewrite decide_True; [done|by left]).
    apply (zsum_single _ _ i); [|done]. intros y Hy. apply (weight_nonneg (gates σ)). rewrite Forall_forall in Hq. by apply Hq. }
  destruct (sem_release_spec _ _ Hrange) as (R1 & R2 & R3).
  eapply (gate_step σ i _ _ g a); cbn [set_sem sem budget queued inflight q_cost];
    [done|exact Hi|done| |reflexivity|exact R1|rewrite R2; contributions|rewrite R2; lia|contributions|contributions|by intros [? _]|left; split; [done|by intros [? _]]|intros g' Hne; contributions].
  split_and!; [cbn; apply NoDup_app; split_and!; [done|set_solver|done]|intros g' Hg'; apply Hh; by right|done].
Qed.

Lemma inv_advance σ e i σ' : inv σ → advance e i σ = Some σ' → inv σ'.
Proof.
  intros Hinv Hadv. destruct (queries σ !! i) as [q|] eqn:Hi; [|unfold advance in Hadv; by rewrite Hi in Hadv].
  destruct (q_phase q) eqn:Hp; [|by eapply inv_acquire| | | | | | |]; destruct e; try (unfold advance in Hadv; rewrite Hi in Hadv; cbn [mbind option_bind] in Hadv; by rewrite Hp in Hadv).
  - unfold advance in Hadv. rewrite Hi in Hadv. cbn [mbind option_bind] in Hadv. rewrite Hp in Hadv. injection Hadv as <-. by apply inv_enter.
  - eapply inv_dequeue; eauto.
  - eapply inv_dequeue; eauto.
  - eapply inv_dequeue; eauto.
  - pose proof (query_at σ i q Hinv Hi) as (Hnd & Hh & Hg). rewrite Hp in Hg. unfold advance in Hadv. rewrite Hi in Hadv. cbn [mbind option_bind] in Hadv. rewrite Hp in Hadv. injection Hadv as <-.
    apply (inv_put σ i _ _ Hinv Hi); [by split_and!|]. intros g a _. destruct q as [c gs hs ph]. cbn in *. subst. contributions.
  - by eapply inv_unwind.
  - by eapply inv_release.
Qed.
Lemma chain_nodup gs : chain gs → NoDup gs.
Proof. intros [->|(t & Ht & ->)]; [apply NoDup_singleton|]. apply NoDup_cons. split; [by rewrite list_elem_of_singleton|apply NoDup_singleton]. Qed.
Lemma inv_reachable budgets σ : reachable budgets σ → inv σ.
Proof.
  induction 1 as [|σ cost gs _ IH Hgs|σ e i σ' _ IH Hadv].
  - split; [constructor|]. cbn [gates queries]. intros g a Ha. rewrite lookup_omap in Ha. destruct (budgets !! g) as [b|]; [|done]. cbn in Ha. unfold newAdmitter in Ha. destruct (Z.leb_spec b 0); [done|]. injection Ha as <-.
    destruct (sem_new b) as (E1 & E2 & E3). split; [|unfold no_repeat; cbn [sem]; rewrite E3; constructor]. split_and!; cbn [budget queued inflight sem]; try done; [lia|].
    intros t n. rewrite E3. split; [by intros ?%elem_of_nil|]. by intros (q & Hq & _).
  - destruct IH as [Hq Hg]. split; cbn [gates queries].
    + apply Forall_app. split; [done|]. constructor; [|done]. split_and!; [rewrite app_nil_r; by apply chain_nodup|by intros g ?%elem_of_nil|done].
    + intros g a Ha. destruct (Hg g a Ha). split; [|done]. apply gate_ok_app; try done. by intros [? _].
  - by eapply inv_advance.
Qed.

(** ** The theorems *)

(** A query in its protected section: admitted by all its gates. *)
Definition running (q : query) : Prop := q_phase q = Running.
Definition finished (q : query) : Prop := ∃ o, q_phase q = Finished o.
Definition running_cost (g : nat) (q : query) : Z := match q_phase q with Running => if decide (g ∈ q_held q) then q_cost q else 0%Z | _ => 0%Z end.

Lemma budget_kept budgets σ g a : reachable budgets σ → gates σ !! g = Some a → budgets !! g = Some (budget a).
Proof.
  intros Hr. revert g a. induction Hr as [|σ cost gs _ IH _|σ e i σ' _ IH Hadv]; intros g a Ha.
  - cbn in Ha. rewrite lookup_omap in Ha. destruct (budgets !! g) as [b|]; [|done]. cbn in Ha. unfold newAdmitter in Ha. destruct (b <=? 0)%Z; [done|]. by injection Ha as <-.
  - by apply IH.
  - unfold advance in Hadv. destruct (queries σ !! i) as [q|]; [|done]. cbn [mbind option_bind] in Hadv.
    assert (∀ q' g' (b b' : admitter), gates σ !! g' = Some b → budget b' = budget b → σ' = put_gate i q' g' b' σ → budgets !! g = Some (budget a)) as Hpg.
    { intros q' g' b b' Hb E ->. cbn [put_gate gates] in Ha. destruct (decide (g = g')) as [->|Hne]; [rewrite lookup_insert_eq in Ha; injection Ha as <-; rewrite E; by apply IH|]. rewrite lookup_insert_ne in Ha by done. by apply IH. }
    assert (∀ q', σ' = put i q' σ → budgets !! g = Some (budget a)) as Hp by (intros q' ->; by apply IH).
    destruct e, (q_phase q); try done.
    + injection Hadv as E'. unfold enter in E'. symmetry in E'. destruct (q_gates q) as [|g0 gs]; [by eapply Hp|]. destruct (gates σ !! g0) as [b|] eqn:Eb; [|by eapply Hp]. destruct (_ <=? _)%Z; [by eapply Hp|]. destruct (_ <? _)%Z; [by eapply Hp|]. refine (Hpg _ g0 b _ Eb _ E'). done.
    + destruct (at_gate q σ) as [[g0 b]|] eqn:E; [|done]. cbn [mbind option_bind] in Hadv. destruct (sem_grant _ _); [|done]. apply at_gate_some in E as [_ E]. injection Hadv as E'. symmetry in E'. refine (Hpg _ g0 b _ E _ E'). done.
    + destruct (at_gate q σ) as [[g0 b]|] eqn:E; [|done]. apply at_gate_some in E as [_ E]. injection Hadv as E'. symmetry in E'. refine (Hpg _ g0 b _ E _ E'). done.
    + destruct (at_gate q σ) as [[g0 b]|] eqn:E; [|done]. apply at_gate_some in E as [_ E]. injection Hadv as E'. symmetry in E'. refine (Hpg _ g0 b _ E _ E'). done.
    + destruct (at_gate q σ) as [[g0 b]|] eqn:E; [|done]. apply at_gate_some in E as [_ E]. injection Hadv as E'. symmetry in E'. refine (Hpg _ g0 b _ E _ E'). done.
    + injection Hadv as <-. by eapply Hp.
    + destruct (q_held q) as [|h hs] eqn:Eh; [injection Hadv as <-; by eapply Hp|]. destruct (at_held q σ) as [[g0 b]|] eqn:E; [|done]. apply at_held_some in E as [_ E]. injection Hadv as E'. symmetry in E'. refine (Hpg _ g0 b _ E _ E'). done.
    + destruct (at_held q σ) as [[g0 b]|] eqn:E; [|done]. apply at_held_some in E as [_ E]. injection Hadv as E'. symmetry in E'. refine (Hpg _ g0 b _ E _ E'). done.
    + destruct (at_gate q σ) as [[g0 b]|] eqn:E; [|done]. apply at_gate_some in E as [_ E]. injection Hadv as E'. symmetry in E'. refine (Hpg _ g0 b _ E _ E'). done.
Qed.
(** With every query ended a gate is clear. *)
Lemma ended_clear gs qs g a : Forall (query_ok gs) qs → gate_ok qs g a → Forall finished qs →
  queued a = 0%Z ∧ inflight a = 0%Z ∧ sem_held (sem a) = 0%Z ∧ sem_waiting (sem a) = [].
Proof.
  intros Hq (H1 & H2 & H3 & H4 & H5 & H6 & H7) Hfin. rewrite Forall_forall in Hfin, Hq. assert (∀ q, q ∈ qs → q_held q = [] ∧ ∃ o, q_phase q = Finished o) as Hend.
  { intros q Hin. destruct (Hfin q Hin) as [o Ho]. destruct (Hq q Hin) as (_ & _ & Hx). rewrite Ho in Hx. split; [done|by exists o]. }
  split_and!.
  - rewrite H5. apply zsum_zero. intros q Hin. destruct (Hend q Hin) as (_ & o & Ho). unfold waits. by rewrite Ho.
  - rewrite H6. apply zsum_zero. intros q Hin. destruct (Hend q Hin) as (Hh & o & Ho). unfold counted, charged. rewrite Ho, Hh. by rewrite decide_False by set_solver.
  - rewrite H3. apply zsum_zero. intros q Hin. destruct (Hend q Hin) as (Hh & o & Ho). unfold weight. rewrite Ho, Hh. by rewrite decide_False by set_solver.
  - destruct (sem_waiting (sem a)) as [|[t n] w]; [done|]. destruct (proj1 (H7 t n) ltac:(by left)) as (q & Hqt & [Hw _] & _). apply list_elem_of_lookup_2 in Hqt. destruct (Hend q Hqt) as (_ & o & Ho). congruence.
Qed.

(** C35: The budgets are ceilings: in every interleaving, whatever waits time out, the
    queries running behind a gate - a tenant's slice or the global budget - together cost
    no more than its budget, so does the byte counter the health endpoint reports, which
    is never negative; and when every query has ended nothing is left counted as queued
    or in flight and the semaphore holds nothing. *)
Theorem admission_bounded budgets σ g a : reachable budgets σ → gates σ !! g = Some a →
  (zsum (running_cost g) (queries σ) <= budget a)%Z ∧ (0 <= inflight a <= budget a)%Z ∧ (0 <= queued a)%Z ∧ budgets !! g = Some (budget a) ∧
  (Forall finished (queries σ) → queued a = 0%Z ∧ inflight a = 0%Z ∧ sem_held (sem a) = 0%Z ∧ sem_waiting (sem a) = []).
Proof.
  intros Hr Ha. pose proof (inv_reachable _ _ Hr) as [Hq Hg]. destruct (Hg g a Ha) as [Hga _]. pose proof Hga as (H1 & H2 & H3 & H4 & H5 & H6 & H7). pose proof Hq as Hqs. rewrite Forall_forall in Hq.
  assert (∀ q, q ∈ queries σ → 0 <= counted g q <= weight g q)%Z as Hc.
  { intros q Hin. destruct (Hq q Hin) as (_ & Hh & _). pose proof (weight_nonneg _ g q (Hq q Hin)) as Hw. unfold counted. destruct (decide (g ∈ charged q)) as [Hch|]; [|lia].
    assert (g ∈ q_held q) as Hheld by (unfold charged in Hch; destruct (q_phase q); try done; destruct (q_held q); [done|by right]). destruct (Hh g Hheld) as (b & _ & Hb). unfold weight. rewrite decide_True by done. lia. }
  split_and!.
  - rewrite H3 in H4. etrans; [|exact H4]. apply zsum_le. intros q Hin. pose proof (weight_nonneg _ g q (Hq q Hin)). unfold running_cost, weight in *. destruct (q_phase q); try lia; destruct (decide (g ∈ q_held q)); lia.
  - rewrite H6. apply zsum_nonneg. intros q Hin. apply Hc. done.
  - rewrite H6. rewrite H3 in H4. etrans; [|exact H4]. apply zsum_le. intros q Hin. by apply Hc.
  - rewrite H5. apply zsum_nonneg. intros q _. unfold waits. destruct (q_phase q); try lia; destruct (decide _); lia.
  - by eapply budget_kept.
  - by apply (ended_clear (gates σ) (queries σ) g).
Qed.

(** ** Completion *)

(** How far a query has come on its chain. *)
Definition on_chain (q : query) : Prop :=
  (∃ t, t ≠ global ∧ q_gates q = [t; global] ∧ q_held q = []) ∨ (q_gates q = [global] ∧ global ∉ q_held q) ∨ q_gates q = [].
Lemma on_chain_reachable budgets σ : reachable budgets σ → Forall on_chain (queries σ).
Proof.
  induction 1 as [|σ cost gs _ IH Hgs|σ e i σ' Hr IH Hadv]; [constructor| |].
  - apply Forall_app. split; [done|]. constructor; [|done]. destruct Hgs as [->|(t & Ht & ->)]; [right; left; split; [done|by intros ?%elem_of_nil]|left; by exists t].
  - unfold advance in Hadv. destruct (queries σ !! i) as [q|] eqn:Hi; [|done]. cbn [mbind option_bind] in Hadv. assert (on_chain q) as Hq by (rewrite Forall_forall in IH; apply IH; by eapply list_elem_of_lookup_2).
    assert (∀ q', on_chain q' → Forall on_chain (<[i:=q']> (queries σ))) as Hins by (intros q' ?; by apply Forall_insert).
    assert (∀ p, on_chain (at_phase p q)) as Hat by done.
    assert (on_chain (skip_gate q)) as Hskip.
    { destruct Hq as [(t & Ht & Hg & Hh)|[[Hg Hh]|Hg]]; unfold on_chain, skip_gate; cbn [q_gates q_held]; rewrite Hg; [right; left; split; [done|by rewrite Hh; intros ?%elem_of_nil]|by right; right|by right; right]. }
    assert (∀ o, on_chain (drop_held o q)) as Hdrop.
    { intros o. destruct Hq as [(t & Ht & Hg & Hh)|[[Hg Hh]|Hg]]; unfold on_chain, drop_held; cbn [q_gates q_held]; [left; exists t; by rewrite Hh|right; left; split; [done|destruct (q_held q); [done|set_solver]]|by right; right]. }
    assert (∀ g a, at_gate q σ = Some (g, a) → on_chain (pass_gate g q)) as Hpass.
    { intros g a [Hg' _]%at_gate_some. destruct Hq as [(t & Ht & Hg & Hh)|[[Hg Hh]|Hg]]; unfold on_chain, pass_gate; cbn [q_gates q_held]; rewrite Hg in *; [|by right; right|done]. injection Hg' as <-.
      right; left. split; [done|]. rewrite Hh. by rewrite list_elem_of_singleton. }
    destruct e, (q_phase q); try done.
    + injection Hadv as <-. unfold enter. destruct (q_gates q) as [|g0 gs]; [by apply Hins|]. destruct (gates σ !! g0); [|by apply Hins]. destruct (_ <=? _)%Z; [by apply Hins|]. destruct (_ <? _)%Z; by apply Hins.
    + destruct (at_gate q σ) as [[g a]|]; [|done]. cbn [mbind option_bind] in Hadv. destruct (sem_grant _ _); [|done]. injection Hadv as <-. by apply Hins.
    + destruct (at_gate q σ) as [[g a]|]; [|done]. injection Hadv as <-. by apply Hins.
    + destruct (at_gate q σ) as [[g a]|]; [|done]. injection Hadv as <-. by apply Hins.
    + destruct (at_gate q σ) as [[g a]|] eqn:E; [|done]. injection Hadv as <-. apply Hins. by eapply Hpass.
    + injection Hadv as <-. by apply Hins.
    + destruct (q_held q); [injection Hadv as <-; by apply Hins|]. destruct (at_held q σ) as [[g a]|]; [|done]. injection Hadv as <-. by apply Hins.
    + destruct (at_held q σ) as [[g a]|]; [|done]. injection Hadv as <-. by apply Hins.
    + destruct (at_gate q σ) as [[g a]|]; [|done]. injection Hadv as <-. by apply Hins.
Qed.

#[local] Instance finished_dec q : Decision (finished q).
Proof. unfold finished. destruct (q_phase q) as [| | | | | | | |o]; first [left; by exists o|right; intros [? [=]]]. Defined.
#[local] Instance in_acquire_dec g q : Decision (in_acquire g q).
Proof. unfold in_acquire. apply _. Defined.
(** A query on its way can take its step, unless it waits in [Acquire]. *)
Definition idle (q : query) : Prop := q_phase q = Waiting ∨ finished q.
#[local] Instance idle_dec q : Decision (idle q).
Proof. unfold idle. apply _. Defined.
Lemma can_move σ i q : inv σ → queries σ !! i = Some q → ¬ idle q → is_Some (advance Move i σ).
Proof.
  intros Hinv Hi Hn. pose proof (query_at σ i q Hinv Hi) as (_ & Hh & Hf). unfold advance. rewrite Hi. cbn [mbind option_bind].
  assert (∀ g, head (q_gates q) = Some g → fits (gates σ) g q → ∃ a, at_gate q σ = Some (g, a)) as Hat by (intros g Hg (a & Ha & _); exists a; by apply at_gate_some).
  assert (q_held q ≠ [] → ∃ g a, at_held q σ = Some (g, a)) as Hath.
  { destruct (q_held q) as [|g hs] eqn:E; [done|]. intros _. destruct (Hh g ltac:(by left)) as (a & Ha & _). exists g, a. apply at_held_some. by rewrite E. }
  destruct (q_phase q) eqn:Hp; try (by eexists); try (destruct Hf as (g & Hg & Hfit); destruct (Hat g Hg Hfit) as (a & ->); by eexists).
  - destruct Hn. by left.
  - destruct (q_held q) as [|g hs] eqn:E; [by eexists|]. destruct Hath as (g' & a & ->); [done|]. by eexists.
  - destruct (Hath Hf) as (g & a & ->). by eexists.
  - destruct Hn. right. by eexists.
Qed.
(** Some query waits at a gate where nothing is held. *)
Lemma free_gate σ : inv σ → Forall on_chain (queries σ) → Forall idle (queries σ) → ¬ Forall finished (queries σ) →
  ∃ g, (∃ q, q ∈ queries σ ∧ in_acquire g q) ∧ ∀ q, q ∈ queries σ → weight g q = 0%Z.
Proof.
  intros [Hq _] Hc Hid Hnf. rewrite Forall_forall in Hq, Hc, Hid.
  assert (∃ g0 q0, q0 ∈ queries σ ∧ in_acquire g0 q0) as (g0 & q0 & Hin0 & Hac0).
  { assert (∃ q, q ∈ queries σ ∧ q_phase q = Waiting) as (q & Hin & Hw).
    { destruct (decide (Exists (λ q, q_phase q = Waiting) (queries σ))) as [He|Hno]; [by apply Exists_exists in He|]. destruct Hnf. apply Forall_forall. intros q Hin.
      destruct (Hid q Hin) as [Hw|]; [|done]. destruct Hno. apply Exists_exists. by exists q. }
    destruct (Hq q Hin) as (_ & _ & Hf). rewrite Hw in Hf. destruct Hf as (g & Hg & _). by exists g, q. }
  assert (∀ q g, q ∈ queries σ → g ∈ q_held q → in_acquire global q) as Hheld.
  { intros q g Hin Hg. destruct (Hid q Hin) as [Hw|[o Ho]]; [|destruct (Hq q Hin) as (_ & _ & Hx); rewrite Ho in Hx; rewrite Hx in Hg; by apply elem_of_nil in Hg].
    split; [done|]. destruct (Hq q Hin) as (_ & _ & Hf). rewrite Hw in Hf. destruct Hf as (g1 & Hg1 & _). destruct (Hc q Hin) as [(t & _ & _ & Hh)|[[-> _]|Hgs]]; [by rewrite Hh in Hg; apply elem_of_nil in Hg|done|by rewrite Hgs in Hg1]. }
  assert (∀ g, (∀ q, q ∈ queries σ → g ∉ q_held q) → ∀ q, q ∈ queries σ → weight g q = 0%Z) as Hw0.
  { intros g Hno q Hin. unfold weight. rewrite decide_False by (by apply Hno). destruct (Hid q Hin) as [->|[o ->]]; done. }
  assert (∀ q, q ∈ queries σ → global ∉ q_held q) as Hgl.
  { intros q Hin Hg. destruct (Hheld q global Hin Hg) as [_ Hhd]. destruct (Hq q Hin) as (Hnd & _). destruct (q_gates q) as [|x gs]; [done|]. injection Hhd as ->. apply NoDup_cons in Hnd as [Hni _]. apply Hni. apply elem_of_app. by right. }
  destruct (decide (Exists (in_acquire global) (queries σ))) as [Hex|Hno]; [exists global; split; [by apply Exists_exists in Hex|by apply Hw0]|].
  exists g0. split; [by exists q0|]. apply Hw0. intros q Hin Hg. apply Hno. apply Exists_exists. exists q. split; [done|]. by eapply Hheld.
Qed.
Lemma admission_progress budgets σ : reachable budgets σ → ¬ Forall finished (queries σ) → ∃ i, is_Some (advance Move i σ).
Proof.
  intros Hr Hnf. pose proof (inv_reachable _ _ Hr) as Hinv. destruct (decide (Forall idle (queries σ))) as [Hid|Hn].
  - destruct (free_gate σ Hinv (on_chain_reachable _ _ Hr) Hid Hnf) as (g & (q & Hin & Hac) & Hw). pose proof Hinv as [Hq Hg]. rewrite Forall_forall in Hq.
    assert (∃ a, gates σ !! g = Some a) as [a Ha].
    { destruct (Hq q Hin) as (_ & _ & Hf). destruct Hac as [Hp Hhd]. rewrite Hp in Hf. destruct Hf as (g' & Hg' & a & Ha & _). exists a. congruence. }
    destruct (Hg g a Ha) as [(H1 & H2 & H3 & H4 & H5 & H6 & H7) _]. destruct (sem_available (sem a)) as (t & s & Hs).
    + rewrite H3. by apply zsum_zero.
    + apply list_elem_of_lookup in Hin as [i Hi]. intros E. assert ((i, q_cost q) ∈ sem_waiting (sem a)) as Hin by (apply H7; by exists q). rewrite E in Hin. by apply elem_of_nil in Hin.
    + apply Forall_forall. intros [t n] Htn. apply H7 in Htn as (q' & Hq' & [Hp Hhd] & ->). apply list_elem_of_lookup_2 in Hq'. destruct (Hq q' Hq') as (_ & _ & Hf). rewrite Hp in Hf.
      destruct Hf as (g' & Hg' & a' & Ha' & Hc). assert (g' = g) as -> by congruence. rewrite Ha in Ha'. injection Ha' as <-. cbn. lia.
    + exists t. pose proof (sem_grant_spec _ _ _ Hs) as (n & Hn & _). apply H7 in Hn as (q' & Hq' & [Hp Hhd] & _). unfold advance. rewrite Hq'. cbn [mbind option_bind]. rewrite Hp.
      assert (at_gate q' σ = Some (g, a)) as -> by (by apply at_gate_some). cbn [mbind option_bind]. rewrite Hs. by eexists.
  - assert (∃ i q, queries σ !! i = Some q ∧ ¬ idle q) as (i & q & Hi & Hq).
    { apply not_Forall_Exists in Hn; [|apply _]. apply Exists_exists in Hn as (q & Hin & Hq). apply list_elem_of_lookup in Hin as [i Hi]. by exists i, q. }
    exists i. by eapply can_move.
Qed.

(** Every step brings a query closer to its end. *)
Definition rank (p : phase) : nat :=
  match p with Entering => 6 | Waiting => 5 | Served => 4 | Expired => 4 | Charging => 3 | Running => 5 | Unwinding _ => 2 | Releasing _ => 1 | Finished _ => 0 end.
Definition distance (q : query) : nat := 7 * length (q_gates q) + 3 * length (q_held q) + rank (q_phase q).
Lemma sum_insert_lt l i q q' : l !! i = Some q → distance q' < distance q → sum_list_with distance (<[i := q']> l) < sum_list_with distance l.
Proof.
  revert i. induction l as [|x l IH]; intros [|i] Hi Hlt; [done..| |].
  - injection Hi as ->. change (<[0:=q']> (q :: l)) with (q' :: l). cbn [sum_list_with]. lia.
  - change (l !! i = Some q) in Hi. change (<[S i:=q']> (x :: l)) with (x :: <[i:=q']> l). specialize (IH i Hi Hlt). cbn [sum_list_with]. lia.
Qed.
Lemma advance_closer e i σ σ' : advance e i σ = Some σ' → sum_list_with distance (queries σ') < sum_list_with distance (queries σ).
Proof.
  unfold advance. destruct (queries σ !! i) as [q|] eqn:Hi; [|done]. cbn [mbind option_bind]. intros Hadv.
  assert (∀ q' gs, distance q' < distance q → sum_list_with distance (queries (mkSystem gs (<[i:=q']> (queries σ)))) < sum_list_with distance (queries σ)) as H by (intros q' gs Hd; by eapply sum_insert_lt).
  destruct q as [c gs hs ph]. destruct e, ph; try done; cbn [q_phase] in Hadv.
  - injection Hadv as <-. unfold enter. cbn [q_gates q_cost]. destruct gs as [|g gs]; [apply H; unfold distance; cbn; lia|]. destruct (gates σ !! g); [|apply H; unfold distance; cbn; lia]. destruct (_ <=? _)%Z; [apply H; unfold distance; cbn; lia|]. destruct (_ <? _)%Z; apply H; unfold distance; cbn; lia.
  - destruct (at_gate _ σ) as [[g a]|]; [|done]. cbn [mbind option_bind] in Hadv. destruct (sem_grant _ _); [|done]. injection Hadv as <-. apply H. unfold distance. cbn. lia.
  - destruct (at_gate _ σ) as [[g a]|]; [|done]. injection Hadv as <-. apply H. unfold distance. cbn. lia.
  - destruct (at_gate _ σ) as [[g a]|]; [|done]. injection Hadv as <-. apply H. unfold distance. cbn. lia.
  - destruct (at_gate _ σ) as [[g a]|] eqn:E; [|done]. injection Hadv as <-. apply at_gate_some in E as [E _]. destruct gs as [|g0 gs]; [done|]. apply H. unfold distance. cbn. lia.
  - injection Hadv as <-. apply H. unfold distance. cbn. lia.
  - cbn [q_held] in Hadv. destruct hs as [|g hs]; [injection Hadv as <-; apply H; unfold distance; cbn; lia|]. destruct (at_held _ σ) as [[g' a]|]; [|done]. injection Hadv as <-. apply H. unfold distance. cbn. lia.
  - destruct (at_held _ σ) as [[g a]|] eqn:E; [|done]. injection Hadv as <-. apply at_held_some in E as [E _]. destruct hs as [|g0 hs]; [done|]. apply H. unfold distance. cbn. lia.
  - destruct (at_gate _ σ) as [[g a]|]; [|done]. injection Hadv as <-. apply H. unfold distance. cbn. lia.
Qed.

Definition moves (σ σ' : system) : Prop := ∃ i, advance Move i σ = Some σ'.

(** C36: Admission cannot deadlock or spin: from every reachable state - queries waiting at
    their tenant's gate, or at the global one while they hold a tenant's slice - the
    queries can all run to their end without any wait timing out, and no run can go on
    for ever without new arrivals, since each step of a query shortens its way. *)
Theorem admission_completes budgets σ : reachable budgets σ →
  (∃ σ', rtc moves σ σ' ∧ Forall finished (queries σ')) ∧
  ∀ e i σ', advance e i σ = Some σ' → sum_list_with distance (queries σ') < sum_list_with distance (queries σ).
Proof.
  intros Hr. split; [|intros e i σ'; apply advance_closer]. remember (sum_list_with distance (queries σ)) as n eqn:En. revert σ Hr En. induction (lt_wf n) as [n _ IH]. intros σ Hr ->.
  destruct (decide (Forall finished (queries σ))) as [Hf|Hn]; [by exists σ|]. destruct (admission_progress budgets σ Hr Hn) as (i & σ1 & H1).
  destruct (IH _ (advance_closer _ _ _ _ H1) σ1) as (σ2 & H2 & Hf); [by eapply step|done|]. exists σ2. split; [|done]. eapply rtc_l; [by exists i|done].
Qed.
End spec.

(** * A concrete semaphore - a first-in first-out queue, as golang.org/x/sync has it - and
    a run of three queries over a tenant's slice and the global budget. *)

Record fifo := mkFifo { f_size : Z; f_held : Z; f_queue : list (nat * Z) }.
Fixpoint remove_waiter (t : nat) (w : list (nat * Z)) : list (nat * Z) :=
  match w with [] => [] | (t', n) :: w => if (t' =? t)%nat then w else (t', n) :: remove_waiter t w end.
#[export] Instance fifo_sem : WeightedSem := {|
  Weighted := fifo;
  NewWeighted n := mkFifo n 0 [];
  sem_size := f_size;
  sem_held := f_held;
  sem_waiting := f_queue;
  sem_join s t n := mkFifo (f_size s) (f_held s) (f_queue s ++ [(t, n)]);
  sem_grant s t :=
    match f_queue s with
    | (t', n) :: w => if (t' =? t)%nat && (f_held s + n <=? f_size s)%Z then Some (mkFifo (f_size s) (f_held s + n) w) else None
    | [] => None
    end;
  sem_abandon s t := mkFifo (f_size s) (f_held s) (remove_waiter t (f_queue s));
  sem_Release s n := mkFifo (f_size s) (f_held s - n) (f_queue s)
|}.

Lemma remove_waiter_perm t n w : (t, n) ∈ w → ∃ m, w ≡ₚ (t, m) :: remove_waiter t w.
Proof.
  induction w as [|[t' n'] w IH]; intros Hin; [by apply elem_of_nil in Hin|]. cbn [remove_waiter]. destruct (Nat.eqb_spec t' t) as [->|Hne]; [by exists n'|].
  apply elem_of_cons in Hin as [[= -> _]|Hin]; [done|]. destruct (IH Hin) as [m Hm]. exists m. rewrite Hm at 1. apply Permutation_swap.
Qed.
#[export] Instance fifo_laws : SemLaws fifo_sem.
Proof.
  split.
  - done.
  - intros s t n. split_and!; [done|done|]. cbn. by rewrite Permutation_app_comm.
  - intros s t s' Hg. cbn in *. destruct (f_queue s) as [|[t' n] w]; [done|]. destruct (Nat.eqb_spec t' t) as [->|]; [|done]. destruct (Z.leb_spec (f_held s + n) (f_size s)); [|done].
    injection Hg as <-. exists n. split_and!; [by left|done|done|done|done].
  - intros s t n Hin. split_and!; [done|done|]. by eapply remove_waiter_perm.
  - done.
  - intros s Hh Hne Hfit. cbn in *. destruct (f_queue s) as [|[t n] w]; [done|]. apply Forall_cons in Hfit as [Hn _]. exists t. cbn in Hn. rewrite Nat.eqb_refl, Hh. rewrite (proj2 (Z.leb_le _ _)) by (cbn; lia). by eexists.
Qed.

(** A run from a schedule. *)
Fixpoint run (es : list (event * nat)) (σ : system) : option system :=
  match es with [] => Some σ | (e, i) :: es => σ ← advance e i σ; run es σ end.
Lemma schedule_reachable budgets es : ∀ σ σ', reachable budgets σ → run es σ = Some σ' → reachable budgets σ'.
Proof.
  induction es as [|[e i] es IH]; intros σ σ' Hr; cbn; [by intros [= <-]|]. destruct (advance e i σ) as [σ1|] eqn:E; [|done]. cbn. apply IH. by eapply step.
Qed.
Definition demo_budgets : gmap nat Z := {[ 0%nat := 10%Z; 1%nat := 5%Z ]}.
Definition demo_start : system := mkSystem (omap newAdmitter demo_budgets) [new_query 4 [1; 0]; new_query 4 [1; 0]; new_query 20 [0]].
Lemma demo_start_reachable : reachable demo_budgets demo_start.
Proof.
  unfold demo_start. apply (arrive demo_budgets (mkSystem _ [_; _])); [|by left]. apply (arrive demo_budgets (mkSystem _ [_])); [|right; by exists 1].
  apply (arrive demo_budgets (mkSystem _ [])); [exact (start demo_budgets)|right; by exists 1].
Qed.
(** The first query runs; the second waits at the tenant's gate; the third is refused. *)
Definition demo_schedule : list (event * nat) :=
  [(Move, 0); (Move, 0); (Move, 0); (Move, 0); (Move, 0); (Move, 0); (Move, 0); (Move, 0); (Move, 0); (Move, 1); (Move, 2); (Move, 2)].
Definition demo_system : system := default demo_start (run demo_schedule demo_start).
Lemma demo_phases : q_phase <$> queries demo_system = [Running; Waiting; Finished TooLarge] ∧ depth (gates demo_system !! 1) = (1, 4)%Z ∧ depth (gates demo_system !! 0) = (0, 4)%Z.
Proof. vm_compute. done. Qed.
Lemma demo_reachable : reachable demo_budgets demo_system.
Proof.
  unfold demo_system. destruct (run demo_schedule demo_start) as [σ|] eqn:E; [|exact demo_start_reachable]. exact (schedule_reachable _ _ _ _ demo_start_reachable E).
Qed.

Lemma admission_bounded_witness : ∃ a, gates demo_system !! 1 = Some a ∧ zsum (running_cost 1) (queries demo_system) = 4%Z ∧ (4 <= budget a)%Z ∧ (0 <= inflight a <= budget a)%Z.
Proof.
  pose proof demo_phases as (_ & Hd & _). destruct (gates demo_system !! 1) as [a|] eqn:E; [|discriminate Hd].
  destruct (admission_bounded demo_budgets demo_system 1 a demo_reachable E) as (H1 & H2 & _).
  assert (zsum (running_cost 1) (queries demo_system) = 4%Z) as Hz by (vm_compute; reflexivity). exists a. split; [reflexivity|]. split; [exact Hz|]. rewrite Hz in H1. exact (conj H1 H2).
Defined.
Lemma admission_completes_witness : ∃ σ', rtc moves demo_system σ' ∧ Forall finished (queries σ').
Proof. exact (proj1 (admission_completes demo_budgets demo_system demo_reachable)). Defined.
