(* ===== verification/ServerQuery.v ===== *)
(** The query handlers ([runQuery] and [batchQuery] of [server/server.go]): the checks
    of a request, its lists resolved and prepared before anything is charged, the
    two-level admission, and the merge of the lists' answers.

    A list is read once, when its query is prepared; execution runs the snapshot taken
    then.  The time a response took and the metrics of a query are left out. *)

From S2P Require Import Prelude.
From S2P Require Import Runtime.
From S2P Require Import Analyzer.
From S2P Require Import Score.
From S2P Require Import Bitmap.
From S2P Require Import Types.
From S2P Require Import Filter.
From S2P Require Import FilterParse.
From S2P Require Import RequestFilter.
From S2P Require Import ListConfig.
From S2P Require Import ListModel.
From S2P Require Import Query.
From S2P Require Import AnyOf.
From S2P Require Import Prepare.
From S2P Require Admit.

Definition maxQueryChars : nat := 512.
Definition defaultTopK : Z := 100.
Definition maxTopK : Z := 1000.
Definition maxQueryLists : nat := 100.
Definition maxBatchChecks : nat := 100.

Inductive gate_error := OverBudget (cost budget : Z) | GateTimeout.
(** The messages of [runQuery]; [Panics] is a panic of a handler, which net/http turns
    into a closed connection. *)
Inductive failure :=
  | BothForms | ThresholdOnAnyOf | TooManyTerms | TermEmpty (i : nat) | TermTooLong (i : nat)
  | QueryEmpty | QueryTooLong | NoLists | TooManyLists | ThresholdRange | TopKRange (k : Z)
  | FilterTwice (e : dup_error) | FilterInvalid (e : parse_error)
  | UnknownList (name : bytes) | NoExact (name : bytes)
  | NotPrepared (e : query_error) | NotCompiled (e : filter_error)
  | TenantGate (e : gate_error) | GlobalGate (e : gate_error)
  | ListFailed (name : bytes) (e : query_error)
  | Panics.
Inductive status := BadRequest | NotFound | Unavailable | Internal | Closed.
#[export] Instance status_eq_dec : EqDecision status.
Proof. solve_decision. Defined.
Definition errStatus (e : failure) : status :=
  match e with
  | UnknownList _ => NotFound
  | TenantGate _ | GlobalGate _ => Unavailable
  | ListFailed _ _ => Internal
  | Panics => Closed
  | _ => BadRequest
  end.

(** [admitter.acquire] as its caller sees it, on the budget of the gate; [served] is
    whether the semaphore grants the weight before the context ends. *)
Definition acquire (gate : option Z) (cost : Z) (served : bool) : result gate_error () :=
  match gate with
  | None => Ok ()
  | Some budget =>
      if (cost <=? 0)%Z then Ok ()
      else if (budget <? cost)%Z then Err (OverBudget cost budget)
      else if served then Ok () else Err GateTimeout
  end.
Definition or_gate (r : result gate_error ()) (f : gate_error → failure) : result failure () :=
  match r with Ok _ => Ok () | Err e => Err (f e) end.

Section server_query.
Context {RT : GoRuntime} {TL : TextLib} {BL : BitmapLib} {FO : FloatOps} {DL : DigestLib}.

(** ** Requests and responses *)

(** An absent threshold or topk is [None]. *)
Record queryReq := mkReq {
  Q : bytes;
  rq_Lists : list bytes;
  ExactAnyOf : list bytes;
  rq_Threshold : option F64;
  rq_TopK : option Z;
  rq_Filter : bytes;
  filterDupErr : option dup_error;
}.
Record respCand := mkResp { rc_List : bytes; rc_EntryID : bytes; rc_Score : F64; rc_Key : bytes; rc_Payload : bytes }.
Record queryResp := mkQueryResp {
  Candidates : list respCand;
  Versions : gmap bytes bytes;
  VersionBases : option (gmap bytes bytes);
  resp_Filter : option bytes;
  resp_FilterStats : option (gmap bytes FilterStats);
}.

(** What a request meets: the lists of the caller's store, the stamp basis when that
    store serves prepared artifacts, and the budgets of the tenant's gate and of the
    global one. *)
Record served := mkServed { sv_lists : bytes → option GoList; sv_basis : option bytes; sv_tenant : option Z; sv_global : option Z }.

(** ** Checks *)

Definition anyOf (req : queryReq) : bool := negb (bool_decide (ExactAnyOf req = [])).
Fixpoint check_terms (i : nat) (ts : list bytes) : result failure () :=
  match ts with
  | [] => Ok ()
  | t :: ts =>
      _ ← fail_if (bool_decide (t = [])) (TermEmpty i);
      _ ← fail_if (maxQueryChars <? rune_count t) (TermTooLong i);
      check_terms (S i) ts
  end.
Definition check_form (req : queryReq) : result failure () :=
  if anyOf req then
    _ ← fail_if (negb (bool_decide (Q req = []))) BothForms;
    _ ← fail_if (bool_decide (is_Some (rq_Threshold req))) ThresholdOnAnyOf;
    _ ← fail_if (MaxExactAnyOfTerms <? length (ExactAnyOf req)) TooManyTerms;
    check_terms 0 (ExactAnyOf req)
  else
    _ ← fail_if (bool_decide (Q req = [])) QueryEmpty;
    fail_if (maxQueryChars <? rune_count (Q req)) QueryTooLong.
Definition check_request (req : queryReq) : result failure () :=
  _ ← check_form req;
  _ ← fail_if (bool_decide (rq_Lists req = [])) NoLists;
  _ ← fail_if (maxQueryLists <? length (rq_Lists req)) TooManyLists;
  _ ← fail_if (match rq_Threshold req with Some t => f_ltb t (f_of_N 0) || f_ltb (f_of_N 1) t | None => false end) ThresholdRange;
  match rq_TopK req with
  | Some k => fail_if ((k <? 1)%Z || (maxTopK <? k)%Z) (TopKRange k)
  | None => Ok ()
  end.
Definition parse_filter (req : queryReq) : result failure TypedFilter :=
  match filterDupErr req with
  | Some e => Err (FilterTwice e)
  | None => match request_filter (rq_Filter req) with Ok f => Ok f | Err e => Err (FilterInvalid e) end
  end.

(** The names without repetitions, in order. *)
Fixpoint distinct_names (seen : gset bytes) (names : list bytes) : list bytes :=
  match names with
  | [] => []
  | name :: names => if bool_decide (name ∈ seen) then distinct_names seen names else name :: distinct_names ({[name]} ∪ seen) names
  end.
Fixpoint resolve_lists (sv : served) (any_of : bool) (names : list bytes) : result failure (list (bytes * GoList)) :=
  match names with
  | [] => Ok []
  | name :: names =>
      match sv_lists sv name with
      | None => Err (UnknownList name)
      | Some l =>
          _ ← fail_if (any_of && negb (HasExactIndex l)) (NoExact name);
          ls ← resolve_lists sv any_of names; Ok ((name, l) :: ls)
      end
  end.

(** ** Preparation *)

Definition effK (req : queryReq) : Z := default defaultTopK (rq_TopK req).
(** The bound of one list's collection. *)
Definition list_k (req : queryReq) (l : GoList) : Z :=
  match rq_TopK req with
  | Some k => k
  | None => let k := TopK (mode_of l) in if (k =? 0)%Z || (effK req <? k)%Z then effK req else k
  end.
(** Zero asks for the list's default, so an explicit zero is sent as -1. *)
Definition opt_threshold (req : queryReq) : F64 :=
  match rq_Threshold req with
  | None => f_of_N 0
  | Some t => if f_eqb t (f_of_N 0) then f_sub (f_of_N 0) (f_of_N 1) else t
  end.
Definition list_opts (req : queryReq) (l : GoList) : QueryOpts := mkOpts (opt_threshold req) (list_k req l).

Definition prep_error (e : query_error) : failure :=
  match e with QueryPanicked => Panics | BadFilter e => NotCompiled e | e => NotPrepared e end.
Definition prepare_filtered (req : queryReq) (f : TypedFilter) (l : GoList) : result failure FilteredQuery :=
  if anyOf req then
    match PrepareTypedFilteredExactAnyOf l (ExactAnyOf req) (list_opts req l) f with Ok p => Ok p | Err e => Err (prep_error e) end
  else
    match PrepareTypedFilteredQuery l (Q req) (list_opts req l) f with Ok p => Ok p | Err e => Err (NotCompiled e) end.
Definition prepare_plain (req : queryReq) (l : GoList) : result failure PreparedQuery :=
  if anyOf req then
    match PrepareExactAnyOf l (ExactAnyOf req) (list_opts req l) with Ok p => Ok p | Err e => Err (prep_error e) end
  else Ok (PrepareQuery l (Q req) (list_opts req l)).

(** The two loops that prepare every list and add up the cost, in int64. *)
Fixpoint prepare_each {P} (prepare : GoList → result failure P) (cost_of : P → Z) (ls : list (bytes * GoList)) (cost : Z)
    : result failure (list (bytes * P) * Z) :=
  match ls with
  | [] => Ok ([], cost)
  | (name, l) :: ls =>
      p ← prepare l;
      '(ps, cost) ← prepare_each prepare cost_of ls (i64 (cost + cost_of p));
      Ok ((name, p) :: ps, cost)
  end.

(** ** Execution *)

Definition list_cand (name : bytes) (c : Candidate) : respCand := mkResp name (EntryID c) (c_Score c) (c_Key c) (c_Payload c).
Record gathered := mkGathered { g_out : list respCand; g_versions : gmap bytes bytes; g_stats : gmap bytes FilterStats }.
Definition nothing_gathered : gathered := mkGathered [] ∅ ∅.
Definition gather (name ver : bytes) (cs : list Candidate) (st : option FilterStats) (g : gathered) : gathered :=
  mkGathered (g_out g ++ (list_cand name <$> cs)) (<[name := ver]> (g_versions g))
    (match st with Some st => <[name := st]> (g_stats g) | None => g_stats g end).

(** The context the [i]-th list's execution polls. *)
Fixpoint execute_filtered (ctx : nat → Context) (i : nat) (ps : list (bytes * FilteredQuery)) (g : gathered) : result failure gathered :=
  match ps with
  | [] => Ok g
  | (name, p) :: ps =>
      match ExecuteStats p (ctx i) with
      | (Ok cs, ver, st) => execute_filtered ctx (S i) ps (gather name ver cs (Some st) g)
      | (Err QueryPanicked, _, _) => Err Panics
      | (Err e, _, _) => Err (ListFailed name e)
      end
  end.
Fixpoint execute_plain (ctx : nat → Context) (i : nat) (ps : list (bytes * PreparedQuery)) (g : gathered) : result failure gathered :=
  match ps with
  | [] => Ok g
  | (name, p) :: ps =>
      match Execute p (ctx i) with
      | (Ok cs, ver) => execute_plain ctx (S i) ps (gather name ver cs None g)
      | (Err _, _) => Err Panics
      end
  end.

Definition merge_less (a b : respCand) : bool :=
  if negb (f_eqb (rc_Score a) (rc_Score b)) then f_ltb (rc_Score b) (rc_Score a)
  else bool_decide (bytes_lt (rc_EntryID a) (rc_EntryID b)).
(** The global cut after the merge. *)
Definition merge (k : Z) (out : list respCand) : list respCand :=
  let out := sort_stable merge_less out in
  if (k <? Z.of_nat (length out))%Z then take (Z.to_nat k) out else out.

(** The tenant's slice first, then the global budget. *)
Definition two_gates (sv : served) (in_time : bool * bool) (cost : Z) : result failure () :=
  _ ← or_gate (acquire (sv_tenant sv) cost in_time.1) TenantGate;
  or_gate (acquire (sv_global sv) cost in_time.2) GlobalGate.
Definition respond (sv : served) (req : queryReq) (g : gathered) (echo : option bytes) : queryResp :=
  mkQueryResp (merge (effK req) (g_out g)) (g_versions g) ((λ basis, (λ _, basis) <$> g_versions g) <$> sv_basis sv)
    echo (match echo with Some _ => Some (g_stats g) | None => None end).

(** [in_time] says whether each gate serves the query before the wait ends. *)
Definition runQuery (sv : served) (in_time : bool * bool) (ctx : nat → Context) (req : queryReq) : result failure queryResp :=
  _ ← check_request req;
  f ← parse_filter req;
  lists ← resolve_lists sv (anyOf req) (distinct_names ∅ (rq_Lists req));
  if filter_Empty f then
    '(ps, cost) ← prepare_each (prepare_plain req) Cost lists 0;
    _ ← two_gates sv in_time cost;
    g ← execute_plain ctx 0 ps nothing_gathered;
    Ok (respond sv req g None)
  else
    '(ps, cost) ← prepare_each (prepare_filtered req f) filtered_Cost lists 0;
    _ ← two_gates sv in_time cost;
    g ← execute_filtered ctx 0 ps nothing_gathered;
    Ok (respond sv req g (AppliedFilterJSON <$> (head ps.*2))).

(** ** Batches *)

(** One result per check: the response, or its error text; [rate] is the answer of the
    rate limiter to the i-th check.  [None] is a client that is gone. *)
Inductive check_result := CheckResult (r : queryResp) | CheckFailed (e : failure) | RateLimited.
Inductive batch_result := BatchSize (n : nat) | BatchPanic | ClientGone | BatchResults (rs : list check_result).
Fixpoint run_checks (run : nat → queryReq → result failure queryResp) (rate gone : nat → bool) (i : nat) (checks : list queryReq)
    (results : list check_result) : batch_result :=
  match checks with
  | [] => BatchResults results
  | check :: checks =>
      if gone i then ClientGone
      else if negb (rate i) then run_checks run rate gone (S i) checks (results ++ [RateLimited])
      else match run i check with
           | Err Panics => BatchPanic
           | Err e => run_checks run rate gone (S i) checks (results ++ [CheckFailed e])
           | Ok r => run_checks run rate gone (S i) checks (results ++ [CheckResult r])
           end
  end.
Definition batchQuery (run : nat → queryReq → result failure queryResp) (rate gone : nat → bool) (checks : list queryReq) : batch_result :=
  if (length checks <? 1) || (maxBatchChecks <? length checks) then BatchSize (length checks)
  else run_checks run rate gone 0 checks [].
End server_query.
