(* ===== verification/ServerQuerySpec.v ===== *)
(** What a query of several lists promises: a request that is refused ran nothing and
    charged nothing, and a response is the best of what its lists answer alone. *)

From S2P Require Import Prelude.
From S2P Require Import Runtime.
From S2P Require Import Analyzer.
From S2P Require Import Score.
From S2P Require Import Bitmap.
From S2P Require Import Types.
From S2P Require Import Filter.
From S2P Require Import FilterParse.
From S2P Require Import RequestFilter.
From S2P Require Import ListConfig.
From S2P Require Import Segment.
From S2P Require Import ListModel.
From S2P Require Import ListRefine.
From S2P Require Import Query.
From S2P Require Import AnyOf.
From S2P Require Import Prepare.
From S2P Require Import QuerySpec.
From S2P Require Import QueryExact.
From S2P Require Import AnyOfSpec.
From S2P Require Import PrepareSpec.
From S2P Require Import ServerQuery.
From S2P Require Admit.
From S2P Require Exact.

(** [acquire] is what [Admit.enter] does to a query at a gate: pass, refuse or wait. *)
Lemma acquire_enters {WS : Admit.WeightedSem} (i : nat) (q : Admit.query) (σ : Admit.system) g gs served :
  Admit.q_gates q = g :: gs →
  match acquire (Admit.budget <$> Admit.gates σ !! g) (Admit.q_cost q) served with
  | Err (OverBudget _ _) => Admit.enter i q σ = Admit.put i (Admit.at_phase (Admit.Unwinding Admit.TooLarge) q) σ
  | Err GateTimeout => served = false ∧ ∃ a, Admit.enter i q σ = Admit.put_gate i (Admit.at_phase Admit.Waiting q) g a σ
  | Ok _ => Admit.enter i q σ = Admit.put i (Admit.skip_gate q) σ ∨ served = true ∧ ∃ a, Admit.enter i q σ = Admit.put_gate i (Admit.at_phase Admit.Waiting q) g a σ
  end.
Proof.
  intros Hg. unfold Admit.enter, acquire. rewrite Hg. destruct (Admit.gates σ !! g) as [a|]; cbn [fmap option_fmap option_map]; [|by left].
  destruct (Admit.q_cost q <=? 0)%Z; [by left|]. destruct (Admit.budget a <? Admit.q_cost q)%Z; [done|]. destruct served; [right|]; (split; [done|]); by eexists.
Qed.

Section spec.
Context {RT : GoRuntime} {TL : TextLib} {BL : BitmapLib} {FO : FloatOps} {DL : DigestLib}.

(** ** Requests *)

Lemma check_request_topk req x : check_request req = Ok x → rq_Lists req ≠ [] ∧ (1 <= effK req <= maxTopK)%Z.
Proof.
  unfold check_request. intros (? & _ & (? & H1%fail_if_ok & (? & _ & (? & _ & Hk)%bind_ok)%bind_ok)%bind_ok)%bind_ok.
  split; [by apply bool_decide_eq_false in H1|]. unfold effK. destruct (rq_TopK req) as [k|]; [|done]. apply fail_if_ok in Hk. unfold maxTopK in *. cbn. lia.
Qed.
(** The bound of a list's collection is the one the engine runs with. *)
Lemma list_k_bounds req l : (1 <= effK req <= maxTopK)%Z → (0 <= TopK (mode_of l))%Z → (1 <= list_k req l <= effK req)%Z.
Proof.
  intros He Hl. unfold list_k, effK in *. destruct (rq_TopK req) as [k|]; cbn in *; [lia|]. destruct (Z.eqb_spec (TopK (mode_of l)) 0); cbn; [lia|]. destruct (Z.ltb_spec defaultTopK (TopK (mode_of l))); lia.
Qed.
Lemma effective_list_k req l : (1 <= list_k req l)%Z → effectiveTopK l (list_opts req l) = list_k req l.
Proof. intros H. unfold effectiveTopK, list_opts. cbn [qo_TopK]. destruct (Z.ltb_spec 0 (list_k req l)); [done|lia]. Qed.

Lemma elem_of_distinct_names names : ∀ seen n, n ∈ distinct_names seen names ↔ n ∈ names ∧ n ∉ seen.
Proof.
  induction names as [|x names IH]; intros seen n; cbn [distinct_names]; [split; [by intros ?%elem_of_nil|by intros [?%elem_of_nil _]]|].
  case_bool_decide as Hx; rewrite ?elem_of_cons, IH; [split; [by intros [? ?]; split; [right|]|intros [[->|?] ?]; done]|]. rewrite not_elem_of_union, not_elem_of_singleton. split.
  - intros [->|(? & ? & ?)]; split; auto.
  - intros [[->|Hin] Hn]; [by left|]. destruct (decide (n = x)) as [->|]; [by left|by right].
Qed.
Lemma nodup_distinct_names names : ∀ seen, NoDup (distinct_names seen names).
Proof.
  induction names as [|x names IH]; intros seen; cbn [distinct_names]; [constructor|]. case_bool_decide; [apply IH|]. constructor; [|apply IH].
  rewrite elem_of_distinct_names. intros [_ Hn]. apply Hn. apply elem_of_union_l. by apply elem_of_singleton.
Qed.
Lemma resolve_lists_ok sv a names ls : resolve_lists sv a names = Ok ls → ls.*1 = names ∧ Forall (λ x, sv_lists sv x.1 = Some x.2) ls.
Proof.
  revert ls. induction names as [|n names IH]; intros ls; cbn [resolve_lists]; [by intros [= <-]|]. destruct (sv_lists sv n) as [l|] eqn:El; [|done].
  intros (? & _ & (ls' & [H1 H2]%IH & [= <-])%bind_ok)%bind_ok. split; [by rewrite fmap_cons, H1|]. by constructor.
Qed.
Lemma resolve_lists_same sv sv' a names : sv_lists sv' = sv_lists sv → resolve_lists sv' a names = resolve_lists sv a names.
Proof. intros E. induction names as [|n names IH]; cbn [resolve_lists]; [done|]. by rewrite E, IH. Qed.

(** ** The loops *)

Lemma prepare_each_ok {P} (prepare : GoList → result failure P) cost_of ls : ∀ c ps cost,
  prepare_each prepare cost_of ls c = Ok (ps, cost) → Forall2 (λ x y, x.1 = y.1 ∧ prepare x.2 = Ok y.2) ls ps.
Proof.
  induction ls as [|[n l] ls IH]; intros c ps cost; cbn [prepare_each]; [by intros [= <- _]|].
  intros (p & Hp & ([ps' c'] & H%IH & [= <- _])%bind_ok)%bind_ok. by constructor.
Qed.

(** The two execution loops are one. *)
Definition answer : Type := list Candidate * bytes * option FilterStats.
Definition run_plain (c : Context) (p : PreparedQuery) : result failure answer :=
  match Execute p c with (Ok cs, ver) => Ok (cs, ver, None) | (Err _, _) => Err Panics end.
Definition run_stats (c : Context) (name : bytes) (p : FilteredQuery) : result failure answer :=
  match ExecuteStats p c with
  | (Ok cs, ver, st) => Ok (cs, ver, Some st)
  | (Err QueryPanicked, _, _) => Err Panics
  | (Err e, _, _) => Err (ListFailed name e)
  end.
Fixpoint execute_each {P} (run : Context → bytes → P → result failure answer) (ctx : nat → Context) (i : nat) (ps : list (bytes * P)) (g : gathered)
    : result failure gathered :=
  match ps with
  | [] => Ok g
  | (name, p) :: ps => a ← run (ctx i) name p; execute_each run ctx (S i) ps (gather name a.1.2 a.1.1 a.2 g)
  end.
Lemma execute_plain_each ctx ps : ∀ i g, execute_plain ctx i ps g = execute_each (λ c _, run_plain c) ctx i ps g.
Proof.
  induction ps as [|[n p] ps IH]; intros i g; cbn [execute_plain execute_each]; [done|]. unfold run_plain. destruct (Execute p (ctx i)) as [[cs|e] ver]; [|done]. cbn [mbind result_bind fst snd]. apply IH.
Qed.
Lemma execute_filtered_each ctx ps : ∀ i g, execute_filtered ctx i ps g = execute_each run_stats ctx i ps g.
Proof.
  induction ps as [|[n p] ps IH]; intros i g; cbn [execute_filtered execute_each]; [done|]. unfold run_stats. destruct (ExecuteStats p (ctx i)) as [[[cs|e] ver] st]; [|by destruct e]. cbn [mbind result_bind fst snd]. apply IH.
Qed.

Lemma elem_of_keys {A B} (xs : list (A * B)) k v : (k, v) ∈ xs → k ∈ xs.*1.
Proof. intros H. apply list_elem_of_fmap. by exists (k, v). Qed.
Definition gather_all (g : gathered) (xs : list (bytes * answer)) : gathered := foldl (λ g x, gather x.1 x.2.1.2 x.2.1.1 x.2.2 g) g xs.
Lemma execute_each_ok {P} (run : Context → bytes → P → result failure answer) ctx ps : ∀ i g g', execute_each run ctx i ps g = Ok g' →
  ∃ xs, g' = gather_all g xs ∧ xs.*1 = ps.*1 ∧ ∀ j name a, xs !! j = Some (name, a) → ∃ p, ps !! j = Some (name, p) ∧ run (ctx (i + j)) name p = Ok a.
Proof.
  induction ps as [|[n p] ps IH]; intros i g g'; cbn [execute_each]; [intros [= <-]; by exists []|].
  intros (a & Ha & (xs & -> & Hn & Hall)%IH)%bind_ok. exists ((n, a) :: xs). split; [done|]. split; [by rewrite !fmap_cons, Hn|].
  intros [|j] name b; cbn [lookup list_lookup]; [|rewrite <-plus_n_Sm; apply (Hall j)]. intros [= <- <-]. exists p. by rewrite Nat.add_0_r.
Qed.
Definition merged (xs : list (bytes * answer)) : list respCand := xs ≫= λ x, list_cand x.1 <$> x.2.1.1.
Lemma gather_all_out xs : ∀ g, g_out (gather_all g xs) = g_out g ++ merged xs.
Proof. induction xs as [|x xs IH]; intros g; cbn [gather_all foldl]; [by rewrite app_nil_r|]. fold (gather_all (gather x.1 x.2.1.2 x.2.1.1 x.2.2 g) xs). rewrite IH. cbn [gather g_out merged]. by rewrite <-app_assoc. Qed.
Lemma gather_all_versions xs : ∀ g, NoDup xs.*1 → ∀ n v, g_versions (gather_all g xs) !! n = Some v ↔
  (∃ cs st, (n, (cs, v, st)) ∈ xs) ∨ n ∉ xs.*1 ∧ g_versions g !! n = Some v.
Proof.
  induction xs as [|[m [[cs ver] st]] xs IH]; intros g Hnd n v; cbn [gather_all foldl].
  - split; [intros H; right; split; [by intros ?%elem_of_nil|done]|]. by intros [(? & ? & ?%elem_of_nil)|[_ ?]].
  - fold (gather_all (gather m ver cs st g) xs). rewrite fmap_cons in *. apply NoDup_cons in Hnd as [Hm Hnd]. rewrite (IH _ Hnd). cbn [gather g_versions fst]. split.
    + intros [(cs' & st' & H)|[Hn H]]; [left; exists cs', st'; by right|]. destruct (decide (n = m)) as [->|Hne].
      * rewrite lookup_insert_eq in H. injection H as <-. left. exists cs, st. by left.
      * rewrite lookup_insert_ne in H by done. right. split; [|done]. by intros [?|?]%elem_of_cons.
    + intros [(cs' & st' & [[= -> <- <- <-]|H]%elem_of_cons)|[Hn H]].
      * right. split; [done|]. by rewrite lookup_insert_eq.
      * left. by exists cs', st'.
      * apply not_elem_of_cons in Hn as [Hne Hn]. right. split; [done|]. by rewrite lookup_insert_ne.
Qed.
Lemma gather_all_stats xs : ∀ g, (∀ x, x ∈ xs → is_Some x.2.2) → dom (g_stats g) =@{gset bytes} dom (g_versions g) → dom (g_stats (gather_all g xs)) =@{gset bytes} dom (g_versions (gather_all g xs)).
Proof.
  induction xs as [|[m [[cs ver] st]] xs IH]; intros g Hs Hd; cbn [gather_all foldl]; [done|]. fold (gather_all (gather m ver cs st g) xs). apply IH; [intros x Hx; apply Hs; by right|].
  destruct (Hs (m, (cs, ver, st)) ltac:(by left)) as [s Hst]. cbn [snd] in Hst. subst st. cbn [gather g_stats g_versions fst snd]. by rewrite !dom_insert_L, Hd.
Qed.

(** ** The merge *)

(** The response's candidates and those cut: together all there were, best first. *)
Lemma merge_spec k out : (0 <= k)%Z → ∃ rest, merge k out ++ rest = sort_stable merge_less out ∧ (Z.of_nat (length (merge k out)) <= k)%Z ∧
  (rest ≠ [] → Z.of_nat (length (merge k out)) = k).
Proof.
  intros Hk. unfold merge. destruct (Z.ltb_spec k (Z.of_nat (length (sort_stable merge_less out)))) as [Hlt|Hle].
  - exists (drop (Z.to_nat k) (sort_stable merge_less out)). rewrite take_drop, length_take. split_and!; [done|lia|lia].
  - exists []. rewrite app_nil_r. split_and!; [done|lia|done].
Qed.
Lemma sorted_app_inv {A} (R : relation A) l1 l2 : StronglySorted R (l1 ++ l2) → StronglySorted R l1 ∧ ∀ x y, x ∈ l1 → y ∈ l2 → R x y.
Proof.
  induction l1 as [|z l1 IH]; cbn [app]; [intros _; split; [constructor|by intros ? ? ?%elem_of_nil]|]. intros [Hs Hz]%StronglySorted_inv. apply Forall_app in Hz as [Hz1 Hz2]. destruct (IH Hs) as [H1 H2].
  split; [by constructor|]. intros x y [->|Hx]%elem_of_cons Hy; [rewrite Forall_forall in Hz2; by apply Hz2|by apply H2].
Qed.

(** ** Answers of one list *)

(** What list [l] answers to the request alone. *)
Definition alone (req : queryReq) (f : TypedFilter) (l : GoList) (c : Context) (cs : list Candidate) : Prop :=
  ∃ cf, compileTypedFilter (Filterable (l_cfg l)) f = Ok cf ∧
    if anyOf req then ∃ terms, anyOfTerms l (ExactAnyOf req) = Ok terms ∧ (anyOfSnap c l (snap l) terms (list_opts req l) cf).1 = Ok cs
    else (querySnap c l (snap l) (Q req) (list_opts req l) cf).1 = Ok cs.

(** Without a filter nothing but a panic fails an any-of lookup. *)
Definition no_error (w : awalk) : Prop := match w with AWalked st => q_err (a_q st) = None | _ => True end.
Lemma anyof_run_no_error c every i seg mask ords : ∀ st, q_err (a_q st) = None → no_error (anyof_run c every None i seg mask ords st).
Proof.
  induction ords as [|o ords IH]; intros st Hst; cbn [anyof_run]; [done|]. destruct (_ && _); [done|]. destruct (entries seg !! N.to_nat o) as [e|]; [|done]. apply IH.
  unfold anyof_one. cbn [a_sel a_q]. destruct (negb _); [done|]. by destruct (masked mask (ID e)).
Qed.
Lemma anyof_terms_no_error c every i seg mask x terms : ∀ st, q_err (a_q st) = None → no_error (anyof_terms c every None i seg mask x terms st).
Proof.
  induction terms as [|t terms IH]; intros st Hst; cbn [anyof_terms]; [done|]. destruct (Exact.Lookup x t) as [run|]; [|done].
  pose proof (anyof_run_no_error c every i seg mask run st Hst) as Hr. destruct (anyof_run _ _ _ _ _ _ _ _) as [st'| |]; [by apply IH|done|done].
Qed.
Lemma anyof_collect_no_error c every s terms i st : q_err (a_q st) = None → no_error (anyof_collect c every None s terms i st).
Proof. intros Hst. unfold anyof_collect. destruct (seg_of s i) as [seg|]; [|done]. destruct (ex seg) as [x|]; [|done]. by apply anyof_terms_no_error. Qed.
Lemma unfiltered_anyof_error c l s terms o e : (anyOfSnap c l s terms o None).1 = Err e → e = QueryPanicked.
Proof.
  unfold anyOfSnap. destruct (ctx_poll c 0 0); [done|]. pose proof (anyof_collect_no_error c exactCancelCheckEvery s terms InBase (a_start (effectiveTopK l o)) eq_refl) as H1.
  destruct (anyof_collect _ _ _ _ _ InBase _) as [st| |]; [|done|by intros [= <-]]. pose proof (anyof_collect_no_error c exactCancelCheckEvery s terms InOverlay st H1) as H2.
  destruct (anyof_collect _ _ _ _ _ InOverlay _) as [st'| |]; [|done|by intros [= <-]]. destruct (ctx_poll c 3 0); [done|]. cbn [no_error] in H2. rewrite H2. destruct (attributeAnyOf _ _ _ _); [done|by intros [= <-]].
Qed.

Lemma compile_empty fs f : filter_Empty f = true → compileTypedFilter fs f = Ok None.
Proof. intros H. unfold compileTypedFilter. by rewrite H. Qed.
(** What the loops run is what the list answers alone, at the version of its snapshot. *)
Lemma run_plain_alone req f l p c cs ver st : filter_Empty f = true → prepare_plain req l = Ok p → run_plain c p = Ok (cs, ver, st) →
  alone req f l c cs ∧ ver = version (snap l) ∧ st = None.
Proof.
  intros Hf Hp Hr. unfold alone. rewrite (compile_empty _ _ Hf). unfold prepare_plain, run_plain, Execute in *. destruct (anyOf req).
  - destruct (PrepareExactAnyOf _ _ _) as [p'|] eqn:E; [|done]. injection Hp as ->. unfold PrepareExactAnyOf in E. apply bind_ok in E as (terms & Ht & (ch & _ & [= <-])%bind_ok). cbn [pq_anyOf pq_l pq_s pq_terms pq_opts] in Hr.
    rewrite drop_error_id in Hr by (intros e; apply unfiltered_anyof_error). destruct (anyOfSnap c l (snap l) terms (list_opts req l) None) as [[cs'|e] st'] eqn:Ea; cbn [fst] in Hr; [|done]. injection Hr as -> <- <-.
    split_and!; [|done|done]. exists None. split; [done|]. exists terms. by rewrite Ea.
  - injection Hp as <-. cbn [pq_anyOf pq_l pq_s pq_q pq_opts PrepareQuery] in Hr. rewrite drop_error_id in Hr by (intros e; apply unfiltered_error).
    destruct (querySnap c l (snap l) (Q req) (list_opts req l) None) as [[cs'|e] st'] eqn:Ea; cbn [fst] in Hr; [|done]. injection Hr as -> <- <-. split_and!; [|done|done]. exists None. split; [done|]. by rewrite Ea.
Qed.
Lemma run_stats_alone req f l p c name cs ver st : prepare_filtered req f l = Ok p → run_stats c name p = Ok (cs, ver, st) →
  alone req f l c cs ∧ ver = version (snap l) ∧ is_Some st ∧ compileTypedFilter (Filterable (l_cfg l)) f = Ok (fq_cf p).
Proof.
  intros Hp Hr. unfold alone. unfold prepare_filtered, run_stats, ExecuteStats, run_filtered in *. destruct (anyOf req).
  - destruct (PrepareTypedFilteredExactAnyOf _ _ _ _) as [p'|] eqn:E; [|done]. injection Hp as ->. unfold PrepareTypedFilteredExactAnyOf in E. apply bind_ok in E as (terms & Ht & (cf & Hcf & (ch & _ & [= <-])%bind_ok)%bind_ok).
    cbn [fq_anyOf fq_l fq_s fq_terms fq_opts fq_cf] in *. destruct (compileTypedFilter _ f) as [cf'|] eqn:Ec; [|done]. injection Hcf as ->.
    destruct (anyOfSnap c l (snap l) terms (list_opts req l) cf) as [[cs'|e] st'] eqn:Ea; cbn [fst] in Hr; [|by destruct e]. injection Hr as -> <- <-.
    split_and!; [|done|by eexists|done]. exists cf. split; [done|]. exists terms. by rewrite Ea.
  - destruct (PrepareTypedFilteredQuery _ _ _ _) as [p'|] eqn:E; [|done]. injection Hp as ->. unfold PrepareTypedFilteredQuery in E. apply bind_ok in E as (cf & Hcf & [= <-]). cbn [fq_anyOf fq_l fq_s fq_q fq_opts fq_cf prepareFilteredQuery] in *.
    destruct (querySnap c l (snap l) (Q req) (list_opts req l) cf) as [[cs'|e] st'] eqn:Ea; cbn [fst] in Hr; [|by destruct e]. injection Hr as -> <- <-. split_and!; [|done|by eexists|done]. exists cf. split; [done|]. by rewrite Ea.
Qed.

(** ** Responses *)

Lemma compiled_echo fs f cf : filter_Empty f = false → compileTypedFilter fs f = Ok cf → appliedJSON cf = filter_CanonicalJSON f.
Proof. intros Hf. unfold compileTypedFilter, filter_CanonicalJSON. rewrite Hf. by intros (cts & _ & [= <-])%bind_ok. Qed.

(** The anatomy of a response. *)
Lemma run_query_ok sv t ctx req r : runQuery sv t ctx req = Ok r → ∃ f xs echo,
  check_request req = Ok () ∧ parse_filter req = Ok f ∧ xs.*1 = distinct_names ∅ (rq_Lists req) ∧
  (∀ j name cs ver st, xs !! j = Some (name, (cs, ver, st)) → ∃ l, sv_lists sv name = Some l ∧ alone req f l (ctx j) cs ∧ ver = version (snap l) ∧
     (is_Some st ↔ filter_Empty f = false)) ∧
  r = respond sv req (gather_all nothing_gathered xs) echo ∧ echo = (if filter_Empty f then None else Some (filter_CanonicalJSON f)).
Proof.
  unfold runQuery. intros ([] & Hc & (f & Hf & (ls & Hls & Hr)%bind_ok)%bind_ok)%bind_ok. pose proof (resolve_lists_ok _ _ _ _ Hls) as [Hn Hl]. rewrite Forall_forall in Hl.
  destruct (filter_Empty f) eqn:Hfe.
  - apply bind_ok in Hr as ([ps cost] & Hp%prepare_each_ok & ([] & _ & (g & Hg & [= <-])%bind_ok)%bind_ok). rewrite execute_plain_each in Hg. apply execute_each_ok in Hg as (xs & -> & Hxn & Hx).
    exists f, xs, None. rewrite Hfe. split_and!; [done|done| | |done|done].
    + rewrite Hxn, <-Hn. clear -Hp. induction Hp as [|? ? ? ? [H _] _ IH]; [done|]. by rewrite !fmap_cons, H, IH.
    + intros j name cs ver st Hj. destruct (Hx _ _ _ Hj) as (p & Hpj & Hr). destruct (Forall2_lookup_r _ _ _ _ _ Hp Hpj) as ([n l] & Hlj & [E Hpl]). cbn [fst snd] in *. subst n.
      apply list_elem_of_lookup_2, Hl in Hlj. destruct (run_plain_alone req f l p _ cs ver st Hfe Hpl Hr) as (Ha & -> & ->). exists l. split_and!; [done|done|done|]. split; [by intros []|done].
  - apply bind_ok in Hr as ([ps cost] & Hp%prepare_each_ok & ([] & _ & (g & Hg & [= <-])%bind_ok)%bind_ok). rewrite execute_filtered_each in Hg. apply execute_each_ok in Hg as (xs & -> & Hxn & Hx).
    assert (xs.*1 = ls.*1) as Hxl by (rewrite Hxn; clear -Hp; induction Hp as [|? ? ? ? [H _] _ IH]; [done|]; by rewrite !fmap_cons, H, IH).
    assert (∀ j name cs ver st, xs !! j = Some (name, (cs, ver, st)) → ∃ l p, ps !! j = Some (name, p) ∧ sv_lists sv name = Some l ∧ alone req f l (ctx j) cs ∧ ver = version (snap l) ∧ is_Some st ∧
      compileTypedFilter (Filterable (l_cfg l)) f = Ok (fq_cf p)) as Hall.
    { intros j name cs ver st Hj. destruct (Hx _ _ _ Hj) as (p & Hpj & Hr). destruct (Forall2_lookup_r _ _ _ _ _ Hp Hpj) as ([n l] & Hlj & [E Hpl]). cbn [fst snd] in *. subst n.
      apply list_elem_of_lookup_2, Hl in Hlj. destruct (run_stats_alone req f l p _ name cs ver st Hpl Hr) as (Ha & -> & Hst & Hcf). by exists l, p. }
    exists f, xs, (Some (filter_CanonicalJSON f)). rewrite Hfe. split_and!; [done|done|by rewrite Hxl| | |done].
    + intros j name cs ver st Hj. destruct (Hall _ _ _ _ _ Hj) as (l & p & _ & H1 & H2 & H3 & H4 & _). by exists l.
    + f_equal. pose proof (proj1 (check_request_topk _ _ Hc)) as Hne. destruct xs as [|[n [[cs ver] st]] xs].
      { destruct (rq_Lists req) as [|n ns] eqn:E; [done|]. rewrite Hn in Hxl. cbn in Hxl. discriminate Hxl. }
      destruct (Hall 0 n cs ver st eq_refl) as (l & p & Hp0 & _ & _ & _ & _ & Hcf). destruct ps as [|[n' p'] ps]; [done|]. injection Hp0 as -> ->. cbn. f_equal. by eapply compiled_echo.
Qed.

(** The stages fail with statuses of their own. *)
Definition late (s : status) : Prop := s = Internal ∨ s = Closed.
Lemma two_gates_status sv t cost e : two_gates sv t cost = Err e → errStatus e = Unavailable.
Proof. unfold two_gates, or_gate. destruct (acquire (sv_tenant sv) _ _); cbn [mbind result_bind]; [|by intros [= <-]]. destruct (acquire (sv_global sv) _ _); [done|by intros [= <-]]. Qed.
Lemma run_plain_status c p e : run_plain c p = Err e → late (errStatus e).
Proof. unfold run_plain. destruct (Execute p c) as [[cs|e'] ver]; [done|]. intros [= <-]. by right. Qed.
Lemma run_stats_status c n p e : run_stats c n p = Err e → late (errStatus e).
Proof. unfold run_stats. destruct (ExecuteStats p c) as [[[cs|e'] ver] st]; [done|]. destruct e'; intros [= <-]; first [by left|by right]. Qed.
Lemma execute_each_status {P} (run : Context → bytes → P → result failure answer) ctx ps e : (∀ c n p e, run c n p = Err e → late (errStatus e)) →
  ∀ i g, execute_each run ctx i ps g = Err e → late (errStatus e).
Proof.
  intros Hrun. induction ps as [|[n p] ps IH]; intros i g; cbn [execute_each]; [done|]. destruct (run (ctx i) n p) as [a|e1] eqn:Er; cbn [mbind result_bind]; [apply IH|]. intros [= <-]. by eapply Hrun.
Qed.

(** The last three stages of [runQuery]: charge, run, respond. *)
Definition charge_and_run {P} (run : Context → bytes → P → result failure answer) (echo : list (bytes * P) → option bytes)
    (prepared : result failure (list (bytes * P) * Z)) sv t ctx req : result failure queryResp :=
  '(ps, cost) ← prepared; _ ← two_gates sv t cost; g ← execute_each run ctx 0 ps nothing_gathered; Ok (respond sv req g (echo ps)).
Definition refused (sv : served) (t : bool * bool) (e : failure) (run : served → bool * bool → (nat → Context) → result failure queryResp) : Prop :=
  match errStatus e with
  | BadRequest | NotFound => ∀ sv' t' ctx', sv_lists sv' = sv_lists sv → run sv' t' ctx' = Err e
  | Unavailable => ∀ ctx', run sv t ctx' = Err e
  | Internal | Closed => True
  end.
Lemma charge_and_run_refused {P} run echo (prepared : result failure (list (bytes * P) * Z)) sv t ctx req e :
  (∀ c n p e, run c n p = Err e → late (errStatus e)) → charge_and_run run echo prepared sv t ctx req = Err e →
  refused sv t e (λ sv t ctx, charge_and_run run echo prepared sv t ctx req).
Proof.
  intros Hrun. unfold charge_and_run, refused. destruct prepared as [[ps cost]|e0]; cbn [mbind result_bind]; [|by intros [= <-]; destruct (errStatus e0)].
  destruct (two_gates sv t cost) as [[]|e0] eqn:Eg; cbn [mbind result_bind]; [|intros [= <-]; by rewrite (two_gates_status _ _ _ _ Eg)].
  destruct (execute_each run ctx 0 ps _) as [g|e0] eqn:Ex; cbn [mbind result_bind]; [done|]. intros [= <-]. by destruct (execute_each_status _ _ _ _ Hrun _ _ Ex) as [->| ->].
Qed.
Lemma run_query_stages sv t ctx req : runQuery sv t ctx req =
  (_ ← check_request req; f ← parse_filter req; lists ← resolve_lists sv (anyOf req) (distinct_names ∅ (rq_Lists req));
   if filter_Empty f then charge_and_run (λ c _, run_plain c) (λ _, None) (prepare_each (prepare_plain req) Cost lists 0) sv t ctx req
   else charge_and_run run_stats (λ ps, AppliedFilterJSON <$> head ps.*2) (prepare_each (prepare_filtered req f) filtered_Cost lists 0) sv t ctx req).
Proof.
  unfold runQuery, charge_and_run. destruct (check_request req); cbn [mbind result_bind]; [|done]. destruct (parse_filter req) as [f|]; cbn [mbind result_bind]; [|done]. destruct (resolve_lists _ _ _); cbn [mbind result_bind]; [|done].
  destruct (filter_Empty f); (destruct (prepare_each _ _ _ _) as [[ps cost]|]; cbn [mbind result_bind]; [|done]); (destruct (two_gates _ _ _); cbn [mbind result_bind]; [|done]); by rewrite ?execute_plain_each, ?execute_filtered_each.
Qed.

(** C31: A request is judged before it costs anything.  A request error - a malformed
    field, an unknown list, a list without an exact index, a filter no list can run -
    is the answer whatever the budgets, the waits, the contexts and the other data of
    the server are, so nothing was charged and nothing ran; and a refusal of the gates
    is the answer whatever the execution would have met. *)
Theorem refusals_run_nothing sv t ctx req e : runQuery sv t ctx req = Err e →
  match errStatus e with
  | BadRequest | NotFound => ∀ sv' t' ctx', sv_lists sv' = sv_lists sv → runQuery sv' t' ctx' req = Err e
  | Unavailable => ∀ ctx', runQuery sv t ctx' req = Err e
  | Internal | Closed => True
  end.
Proof.
  change (runQuery sv t ctx req = Err e → refused sv t e (λ sv t ctx, runQuery sv t ctx req)). intros H. rewrite run_query_stages in H.
  assert (∀ (F : served → bool * bool → (nat → Context) → result failure queryResp), (∀ sv' t' ctx', sv_lists sv' = sv_lists sv → runQuery sv' t' ctx' req = F sv' t' ctx') → refused sv t e F →
    refused sv t e (λ sv t ctx, runQuery sv t ctx req)) as Hsame by (intros F HF; unfold refused; destruct (errStatus e); intros HR; intros; cbn beta; rewrite ?HF by done; auto).
  assert (∀ sv' t' ctx', sv_lists sv' = sv_lists sv → runQuery sv' t' ctx' req = _) as Hrun by (intros sv' t' ctx' E; by rewrite run_query_stages, (resolve_lists_same sv sv' _ _ E)).
  destruct (check_request req) as [[]|e0]; cbn [mbind result_bind] in *; [|injection H as ->; apply (Hsame (λ _ _ _, Err e)); [done|unfold refused; by destruct (errStatus e)]].
  destruct (parse_filter req) as [f|e0]; cbn [mbind result_bind] in *; [|injection H as ->; apply (Hsame (λ _ _ _, Err e)); [done|unfold refused; by destruct (errStatus e)]].
  destruct (resolve_lists sv _ _) as [ls|e0]; cbn [mbind result_bind] in *; [|injection H as ->; apply (Hsame (λ _ _ _, Err e)); [done|unfold refused; by destruct (errStatus e)]].
  destruct (filter_Empty f).
  - eapply (Hsame _ Hrun). eapply charge_and_run_refused; [|exact H]. intros c n p. apply run_plain_status.
  - eapply (Hsame _ Hrun). eapply charge_and_run_refused; [|exact H]. apply run_stats_status.
Qed.

(** C29: A response is the best of what its lists answer alone.  Every list named,
    once and in the order of the request, is asked at the snapshot its version names;
    the candidates reported and those cut are all the answers; at most the effective
    topk, never more than 1000, are reported, and anything is cut only when there are
    that many; and when no score among those reported and those cut is a NaN - with one
    the program's comparison orders nothing - the reported come with the higher score
    first, equal scores by entry ID, and none of those cut before any of them. *)
Theorem response_merges {FR : FloatOrder FO} sv t ctx req r : runQuery sv t ctx req = Ok r → ∃ f (answers : list (bytes * list Candidate)) (cut : list respCand),
  parse_filter req = Ok f ∧ answers.*1 = distinct_names ∅ (rq_Lists req) ∧
  (∀ j name cs, answers !! j = Some (name, cs) → ∃ l, sv_lists sv name = Some l ∧ alone req f l (ctx j) cs ∧ Versions r !! name = Some (version (snap l))) ∧
  (∀ name, is_Some (Versions r !! name) ↔ name ∈ rq_Lists req) ∧
  Candidates r ++ cut ≡ₚ (answers ≫= λ x, list_cand x.1 <$> x.2) ∧
  (Z.of_nat (length (Candidates r)) <= effK req <= maxTopK)%Z ∧ (cut ≠ [] → Z.of_nat (length (Candidates r)) = effK req) ∧
  (Forall (λ x, f_num (rc_Score x) = true) (Candidates r ++ cut) →
    StronglySorted (λ a b, ranks_before (rc_Score a) (rc_EntryID a) (rc_Score b) (rc_EntryID b)) (Candidates r) ∧
    ∀ x y, x ∈ Candidates r → y ∈ cut → ranks_before (rc_Score x) (rc_EntryID x) (rc_Score y) (rc_EntryID y)).
Proof.
  intros (f & xs & echo & Hc & Hf & Hn & Hall & -> & _)%run_query_ok. pose proof (proj2 (check_request_topk _ _ Hc)) as Hk.
  assert (NoDup xs.*1) as Hnd by (rewrite Hn; apply nodup_distinct_names). set (answers := (λ x : bytes * answer, (x.1, x.2.1.1)) <$> xs).
  destruct (merge_spec (effK req) (g_out (gather_all nothing_gathered xs))) as (cut & Hcut & Hlen & Hfull); [lia|]. exists f, answers, cut. cbn [Candidates Versions respond].
  assert (∀ name v, g_versions (gather_all nothing_gathered xs) !! name = Some v ↔ ∃ cs st, (name, (cs, v, st)) ∈ xs) as Hv.
  { intros name v. rewrite (gather_all_versions xs _ Hnd). cbn [nothing_gathered g_versions]. rewrite lookup_empty. naive_solver. }
  split_and!; [done| | | | |lia|lia|done|].
  - unfold answers. by rewrite <-list_fmap_compose, <-Hn.
  - intros j name cs. unfold answers. rewrite list_lookup_fmap. destruct (xs !! j) as [[n [[cs' ver] st]]|] eqn:E; [|done]. intros [= <- <-].
    destruct (Hall _ _ _ _ _ E) as (l & Hl & Ha & -> & _). exists l. split_and!; [done|done|]. apply Hv. exists cs', st. by eapply list_elem_of_lookup_2.
  - intros name. pose proof (elem_of_distinct_names (rq_Lists req) ∅ name) as Hd. rewrite <-Hn in Hd. split.
    + intros [v (cs & st & Hin)%Hv]. apply Hd. by eapply elem_of_keys.
    + intros Hin. assert (name ∈ xs.*1) as ([n [[cs v] st]] & -> & Hx)%list_elem_of_fmap by (apply Hd; split; [done|apply not_elem_of_empty]). exists v. apply Hv. by exists cs, st.
  - rewrite Hcut, sort_stable_perm, gather_all_out. cbn [nothing_gathered g_out app]. unfold answers, merged. clear. induction xs as [|x xs IH]; [done|]. cbn [fmap list_fmap mbind list_bind]. by rewrite IH.
  - intros Hw. apply (sort_ranks rc_Score rc_EntryID (g_out (gather_all nothing_gathered xs))); [|by symmetry]. rewrite Hcut in Hw. by rewrite sort_stable_perm in Hw.
Qed.

(** ** Evidence *)

Lemma query_answers c l q o cf cs : inv l → bounds (snap l) → sizes_ok (mode_of l) = true → (querySnap c l (snap l) q o cf).1 = Ok cs → Forall (answer_ok l cf) cs.
Proof.
  intros Hi Hb Hsz. unfold querySnap. destruct (ctx_poll c 0 0); [by intros [= <-]|]. case_bool_decide; [by intros [= <-]|].
  pose proof (query_collect_ok c l (snap l) (Normalize (l_an l) q) (effective_threshold l o) (effectiveTopK l o) cf Hb) as Hc.
  destruct (collect _ _ _ _ _ _ _) as [[st| |] key]; cbn [fst] in Hc; [|by intros [= <-]|done]. destruct (q_err st); [done|]. destruct (ctx_poll c 3 0); [by intros [= <-]|]. case_bool_decide; [by intros [= <-]|].
  destruct (finish_ok l cf (Normalize (l_an l) q) key (effectiveTopK l o) (q_out st) Hi Hsz Hc) as (cs' & -> & H1 & _). by intros [= <-].
Qed.
Lemma any_of_answers c l raw terms o cf cs : inv l → seg_built l → anyOfTerms l raw = Ok terms → (anyOfSnap c l (snap l) terms o cf).1 = Ok cs → Forall (any_answer l cf terms) cs.
Proof.
  intros Hi Hb (Hex & _ & ->)%any_of_terms_ok. set (terms := distinct_terms (l_an l) ∅ raw). pose proof (distinct_terms_ne (l_an l) raw) as Hne. fold terms in Hne.
  destruct (any_of_cancel c l terms o cf) as [->| ->]; [|by intros [= <-]]. destruct (anyof_walk l cf terms (effectiveTopK l o) Hi Hb) as (st1 & st2 & P & Hw1 & Hw2 & [Hsel _] & HP); [done..|].
  destruct (sorted_selection _ _ _ _ _ (inv_ids_distinct l cf Hi) Hsel) as (all & _ & _ & _ & Hitems).
  destruct (attribute_all l cf terms (sorted (a_sel st2)) Hi) as (cs' & Hat & _ & Hans).
  { apply Forall_forall. intros x [Hx%HP Hel]%Hitems. split; [done|]. by apply reached_matches. }
  unfold anyOfSnap. change (ctx_poll None 0 0) with false. change (ctx_poll None 3 0) with false. cbv iota zeta. fold (anyof_every cf). rewrite Hw1, Hw2, Hat. destruct (q_err (a_q st2)); [done|]. by intros [= <-].
Qed.

(** What a reported candidate is evidence of. *)
Definition evidence (sv : served) (req : queryReq) (f : TypedFilter) (c : respCand) : Prop :=
  ∃ l cf e, rc_List c ∈ rq_Lists req ∧ sv_lists sv (rc_List c) = Some l ∧ compileTypedFilter (Filterable (l_cfg l)) f = Ok cf ∧
    live_map l !! rc_EntryID c = Some e ∧ rc_Payload c = Payload e ∧ passes cf e = true.
(** What the engine keeps of its lists. *)
Definition lists_ok (sv : served) : Prop := ∀ name l, sv_lists sv name = Some l → inv l ∧ seg_built l ∧ sizes_ok (mode_of l) = true.
Lemma alone_evidence req f l c cs : inv l → seg_built l → sizes_ok (mode_of l) = true → alone req f l c cs →
  ∃ cf, compileTypedFilter (Filterable (l_cfg l)) f = Ok cf ∧ ∀ x, x ∈ cs → ∃ e, live_map l !! EntryID x = Some e ∧ c_Payload x = Payload e ∧ passes cf e = true.
Proof.
  intros Hi Hb Hsz (cf & Hcf & Ha). exists cf. split; [done|]. destruct (anyOf req).
  - destruct Ha as (terms & Ht & Ha). pose proof (any_of_answers _ _ _ _ _ _ _ Hi Hb Ht Ha) as Hans. rewrite Forall_forall in Hans. intros x Hx. destruct (Hans x Hx) as (e & H1 & H2 & H3 & _). by exists e.
  - pose proof (query_answers _ _ _ _ _ _ Hi (seg_built_bounds l Hb) Hsz Ha) as Hans. rewrite Forall_forall in Hans. intros x Hx. destruct (Hans x Hx) as (e & H1 & H2 & _ & H3). exists e. split_and!; [done|done|].
    unfold passes. destruct cf as [fl|]; [by rewrite (H3 fl eq_refl)|done].
Qed.

(** C30: A response is evidence, and a filtered one is never mistaken for an
    unfiltered one.  It is stated for a server whose lists are well-formed, hold fewer
    than 2^32-1 entries in each segment with the indexes the code builds from them -
    not ones loaded from a cache file or supplied prebuilt - and ask for no negative
    gram size ([lists_ok]; an accepted exact-mode configuration with a negative one
    panics, see the findings).  Whatever the contexts do, each candidate is a live
    entry of a list the request names, with its payload, and passes the request's
    filter as that list compiles it; the filter is echoed in canonical form, with the
    statistics of exactly the lists asked, when and only when there is one. *)
Theorem response_screened sv t ctx req r : lists_ok sv → runQuery sv t ctx req = Ok r → ∃ f, parse_filter req = Ok f ∧
  Forall (evidence sv req f) (Candidates r) ∧
  (filter_Empty f = true → resp_Filter r = None ∧ resp_FilterStats r = None) ∧
  (filter_Empty f = false → resp_Filter r = Some (filter_CanonicalJSON f) ∧ ∃ st, resp_FilterStats r = Some st ∧ dom st = list_to_set (rq_Lists req)).
Proof.
  intros Hok (f & xs & echo & Hc & Hf & Hn & Hall & -> & ->)%run_query_ok. exists f. split; [done|]. assert (NoDup xs.*1) as Hnd by (rewrite Hn; apply nodup_distinct_names). split_and!.
  - apply Forall_forall. intros c Hin. cbn [Candidates respond] in Hin. destruct (merge_spec (effK req) (g_out (gather_all nothing_gathered xs))) as (cut & Hcut & _); [destruct (check_request_topk _ _ Hc); lia|].
    assert (c ∈ g_out (gather_all nothing_gathered xs)) as Hg by (rewrite <-(sort_stable_perm merge_less), <-Hcut; apply elem_of_app; by left). rewrite gather_all_out in Hg. cbn [nothing_gathered g_out app] in Hg.
    unfold merged in Hg. apply list_elem_of_bind in Hg as ([name [[cs ver] st]] & (x & -> & Hx)%list_elem_of_fmap & Hxs). cbn [fst snd] in *. apply list_elem_of_lookup in Hxs as [j Hj].
    destruct (Hall _ _ _ _ _ Hj) as (l & Hl & Ha & _). destruct (Hok name l Hl) as (Hi & Hb & Hsz). destruct (alone_evidence _ _ _ _ _ Hi Hb Hsz Ha) as (cf & Hcf & Hev). destruct (Hev x Hx) as (e & H1 & H2 & H3).
    exists l, cf, e. split_and!; [|done..]. apply list_elem_of_lookup_2 in Hj. apply (elem_of_distinct_names (rq_Lists req) ∅ name). rewrite <-Hn. by eapply elem_of_keys.
  - intros ->. done.
  - intros Hfe. rewrite Hfe. split; [done|]. eexists. split; [done|]. rewrite gather_all_stats; [|intros [n [[cs ver] st]] (j & Hj)%list_elem_of_lookup; destruct (Hall _ _ _ _ _ Hj) as (? & _ & _ & _ & Hst); by apply Hst|done].
    apply set_eq. intros name. rewrite elem_of_dom, elem_of_list_to_set. pose proof (elem_of_distinct_names (rq_Lists req) ∅ name) as Hd. rewrite <-Hn in Hd. split.
    + intros [v Hv]. apply (gather_all_versions xs _ Hnd) in Hv as [(cs & st & Hin)|[_ Hv]]; [|cbn [nothing_gathered g_versions] in Hv; by rewrite lookup_empty in Hv]. apply Hd. by eapply elem_of_keys.
    + intros Hin. assert (name ∈ xs.*1) as ([n [[cs v] st]] & -> & Hx)%list_elem_of_fmap by (apply Hd; split; [done|apply not_elem_of_empty]). exists v. apply (gather_all_versions xs _ Hnd). left. by exists cs, st.
Qed.

(** ** Batches *)

(** Every check of a batch gets one result, as if it were alone. *)
Theorem batch_independent run rate gone checks rs : batchQuery run rate gone checks = BatchResults rs → length rs = length checks ∧
  ∀ i check res, checks !! i = Some check → rs !! i = Some res →
    if rate i then match run i check with Ok r => res = CheckResult r | Err e => res = CheckFailed e ∧ e ≠ Panics end else res = RateLimited.
Proof.
  unfold batchQuery. destruct (_ || _); [done|]. intros H.
  assert (∀ cs i done_, run_checks run rate gone i cs done_ = BatchResults rs → length done_ = i → ∃ rs', rs = done_ ++ rs' ∧ length rs' = length cs ∧
    ∀ j check res, cs !! j = Some check → rs' !! j = Some res →
      if rate (i + j) then match run (i + j) check with Ok r => res = CheckResult r | Err e => res = CheckFailed e ∧ e ≠ Panics end else res = RateLimited) as Hgen.
  { intros cs. induction cs as [|c cs IH]; intros i done_; cbn [run_checks]; [intros [= <-] _; exists []; rewrite app_nil_r; by split_and!|]. intros Hr Hlen. destruct (gone i); [done|].
    assert (∀ x, (if rate i then match run i c with Ok r => x = CheckResult r | Err e => x = CheckFailed e ∧ e ≠ Panics end else x = RateLimited) →
      run_checks run rate gone (S i) cs (done_ ++ [x]) = BatchResults rs → ∃ rs', rs = done_ ++ rs' ∧ length rs' = S (length cs) ∧
      ∀ j check res, (c :: cs) !! j = Some check → rs' !! j = Some res →
      if rate (i + j) then match run (i + j) check with Ok r => res = CheckResult r | Err e => res = CheckFailed e ∧ e ≠ Panics end else res = RateLimited) as Hcons.
    { intros x Hx Hr'. destruct (IH _ _ Hr') as (rs' & -> & Hl & Hj); [rewrite length_app; cbn; lia|]. exists (x :: rs'). rewrite <-app_assoc. split_and!; [done|cbn; lia|].
      intros [|j] check res; cbn [lookup list_lookup]; [intros [= <-] [= <-]; by rewrite Nat.add_0_r|]. rewrite <-plus_n_Sm. apply (Hj j). }
    destruct (rate i) eqn:Er; cbn [negb] in Hr; [|by apply (Hcons RateLimited)]. destruct (run i c) as [r|e] eqn:Erun; [by apply (Hcons (CheckResult r))|]. destruct e; try done; by eapply Hcons; [|exact Hr]. }
  destruct (Hgen checks 0 [] H eq_refl) as (rs' & -> & Hl & Hj). split; [done|]. intros i check res Hc Hr. exact (Hj i check res Hc Hr).
Qed.
End spec.
