(* ===== verification/Access.v ===== *)
(** Who may do what ([server/auth.go], [server/tenants.go], the gate and the routes of
    [server/server.go]): API keys, the registry of tenants that [SetTenants] installs,
    and the checks a request passes before its handler runs.

    Stores are told apart by a number, like the pointers of the source.  The header that
    names the artifact verification level, the logging hooks and the JSON form of the
    replies are left out. *)

From S2P Require Import Prelude.
From S2P Require Import Runtime.
From S2P Require Import Strings.
From S2P Require Import Score.
From S2P Require Import FilterParse.
From S2P Require Import RequestFilter.
From S2P Require Store.

(** ** Strings *)

Definition HasPrefix (s p : bytes) : bool := bool_decide (take (length p) s = p).
Definition TrimPrefix (s p : bytes) : bytes := if HasPrefix s p then drop (length p) s else s.
Definition HasSuffix (s p : bytes) : bool := (length p <=? length s) && bool_decide (drop (length s - length p) s = p).
(** [hex.DecodeString] *)
Definition hex_value (c : N) : option N :=
  if (48 <=? c)%N && (c <=? 57)%N then Some (c - 48)%N
  else if (97 <=? c)%N && (c <=? 102)%N then Some (c - 87)%N
  else if (65 <=? c)%N && (c <=? 70)%N then Some (c - 55)%N else None.
Fixpoint hex_decode (s : bytes) : option bytes :=
  match s with
  | [] => Some []
  | [_] => None
  | a :: b :: s => h ← hex_value a; l ← hex_value b; t ← hex_decode s; Some ((16 * h + l)%N :: t)
  end.

Section access.
Context {RT : GoRuntime} {FO : FloatOps}.
(** crypto/sha256, and the conversion of a float64 to an int. *)
Context (Sum256 : bytes → bytes) (to_int : F64 → Z).

(** ** Requests *)

(** The path is that of the URL; a header is its first value, empty when absent. *)
Record request := mkRequest { r_Method : bytes; r_Path : bytes; r_XAPIKey : bytes; r_Authorization : bytes }.
Definition GET : bytes := $"GET".
Definition HEAD : bytes := $"HEAD".
Definition PUT : bytes := $"PUT".
Definition POST : bytes := $"POST".
Definition DELETE : bytes := $"DELETE".

Definition exemptFromAuth (path : bytes) : bool :=
  bool_decide (path = $"/healthz" ∨ path = $"/livez" ∨ path = $"/readyz" ∨ path = $"/metrics").
Definition presentedKey (r : request) : bytes :=
  if bool_decide (r_XAPIKey r = []) then
    if HasPrefix (r_Authorization r) ($"Bearer ") then TrimPrefix (r_Authorization r) ($"Bearer ") else []
  else r_XAPIKey r.

(** [authGate]: the digests of the configured keys; no keys is no gate. *)
Definition newAuthGate (keys : list bytes) : option (list bytes) := if bool_decide (keys = []) then None else Some (Sum256 <$> keys).
Definition allow (g : option (list bytes)) (r : request) : bool :=
  match g with
  | None => true
  | Some digests =>
      if bool_decide (presentedKey r = []) then false
      else foldl (λ ok d, ok || bool_decide (Sum256 (presentedKey r) = d)) false digests
  end.

(** ** Tenants *)

Record TenantQuotas := mkQuotas { MaxLists : Z; MaxTotalKeys : Z; ScratchBudgetMB : Z; RatePerSec : F64 }.
Record TenantSpec := mkSpec { KeyDigests : list bytes; Quotas : TenantQuotas; SharedReads : bool }.
Inductive tenants_error :=
  | NoTenants | TenantName (name : bytes) | NoKeys (name : bytes) | DigestLength (name : bytes) | DigestHex (name : bytes) | NegativeQuota (name : bytes)
  | EmptyRegistry | PrivateOnNodeStore (name : bytes) | SharedNamespace | SharedWithStore (name : bytes) | NoNodeStore (name : bytes)
  | NilStore (name : bytes) | DigestTwice (first second : bytes).

Definition tenantNameRE : bytes → bool := Store.listNameRE.
Definition zero : F64 := f_of_N 0.
(** [ParseTenants] after the decode of the file; the order of the range is unspecified,
    and so is which of several faults is reported. *)
Fixpoint check_digests (name : bytes) (ds : list bytes) : result tenants_error () :=
  match ds with
  | [] => Ok ()
  | d :: ds =>
      _ ← fail_if (negb (length d =? 64)) (DigestLength name);
      _ ← fail_if (bool_decide (hex_decode d = None)) (DigestHex name);
      check_digests name ds
  end.
Definition check_spec (name : bytes) (spec : TenantSpec) : result tenants_error () :=
  _ ← fail_if (negb (tenantNameRE name)) (TenantName name);
  _ ← fail_if (bool_decide (KeyDigests spec = [])) (NoKeys name);
  _ ← check_digests name (KeyDigests spec);
  let q := Quotas spec in
  fail_if ((MaxLists q <? 0)%Z || (MaxTotalKeys q <? 0)%Z || (ScratchBudgetMB q <? 0)%Z || f_ltb (RatePerSec q) zero) (NegativeQuota name).
Fixpoint check_specs (ms : list (bytes * TenantSpec)) : result tenants_error () :=
  match ms with [] => Ok () | (name, spec) :: ms => _ ← check_spec name spec; check_specs ms end.
Definition ParseTenants (m : gmap bytes TenantSpec) : result tenants_error (gmap bytes TenantSpec) :=
  if bool_decide (m = ∅) then Err NoTenants else _ ← check_specs (range_map 0 m); Ok m.

Record TenantRuntime := mkRuntime { Spec : TenantSpec; rt_Store : option nat }.
(** A gate or a limiter of a tenant: an object, told apart by its number. *)
Record gate_object := mkGate { go_id : nat; go_budget : Z }.
Record limiter_object := mkLimiter { lo_id : nat; lo_rate : F64; lo_burst : Z }.
Record tenant := mkTenant {
  t_name : bytes; t_st : nat; t_shared : bool; t_spec : TenantSpec;
  t_admit : option gate_object; t_limiter : option limiter_object }.
Record tenantRegistry := mkRegistry { byDigest : gmap bytes tenant; ordered : list tenant }.
(** The server: the node's store, the legacy keys, the registry, and the number of the
    next object. *)
Record srv := mkSrv { s_st : option nat; s_auth : option (list bytes); s_tenants : option tenantRegistry; s_next : nat }.

(** The store each tenant would own, with the check that no private tenant holds the
    node's. *)
Fixpoint effective_stores (node : option nat) (ts : gmap bytes TenantRuntime) (names : list bytes) : result tenants_error (list (bytes * option nat)) :=
  match names with
  | [] => Ok []
  | name :: names =>
      match ts !! name with
      | None => effective_stores node ts names
      | Some rt =>
          if SharedReads (Spec rt) then rest ← effective_stores node ts names; Ok ((name, node) :: rest)
          else
            _ ← fail_if (bool_decide (rt_Store rt ≠ None ∧ rt_Store rt = node)) (PrivateOnNodeStore name);
            rest ← effective_stores node ts names; Ok ((name, rt_Store rt) :: rest)
      end
  end.
(** The tenants of each store, and whether two share one that are not both readers. *)
Definition by_store (effective : list (bytes * option nat)) : gmap nat (list bytes) :=
  foldl (λ m '(name, st), match st with Some st => <[st := default [] (m !! st) ++ [name]]> m | None => m end) ∅ effective.
Definition is_private (ts : gmap bytes TenantRuntime) (name : bytes) : bool := match ts !! name with Some rt => negb (SharedReads (Spec rt)) | None => true end.
Definition namespace_clash (ts : gmap bytes TenantRuntime) (m : gmap nat (list bytes)) : bool :=
  existsb (λ owners, negb (length owners <? 2) && existsb (is_private ts) owners) (map_to_list m).*2.

(** [newAdmitter(mb << 20)], in int64. *)
Definition new_gate (mb : Z) (id : nat) : option gate_object :=
  let budget := i64 (mb * 2 ^ 20) in if (budget <=? 0)%Z then None else Some (mkGate id budget).
Definition new_limiter (rate : F64) (id : nat) : limiter_object :=
  let burst := to_int (f_add rate rate) in mkLimiter id rate (if (burst <? 1)%Z then 1%Z else burst).

Definition prev_tenant (reg : option tenantRegistry) (name : bytes) : option tenant :=
  reg ← reg; foldl (λ found t, if bool_decide (t_name t = name) then Some t else found) None (ordered reg).
Fixpoint add_digests (t : tenant) (ds : list bytes) (m : gmap bytes tenant) : result tenants_error (gmap bytes tenant) :=
  match ds with
  | [] => Ok m
  | dh :: ds =>
      match hex_decode dh with
      | None => Err (DigestHex (t_name t))
      | Some raw =>
          _ ← fail_if (negb (length raw =? 32)) (DigestHex (t_name t));
          match m !! raw with
          | Some prev => Err (DigestTwice (t_name prev) (t_name t))
          | None => add_digests t ds (<[raw := t]> m)
          end
      end
  end.
(** One tenant of the new registry; its gate and limiter are carried over when its
    budget and its rate have not changed. *)
Definition make_tenant (node : option nat) (prev : option tenantRegistry) (name : bytes) (rt : TenantRuntime) (next : nat) : result tenants_error tenant :=
  _ ← fail_if (SharedReads (Spec rt) && bool_decide (rt_Store rt ≠ None)) (SharedWithStore name);
  _ ← fail_if (SharedReads (Spec rt) && bool_decide (node = None)) (NoNodeStore name);
  match (if SharedReads (Spec rt) then node else rt_Store rt) with
  | None => Err (NilStore name)
  | Some st =>
      _ ← fail_if (negb (tenantNameRE name)) (TenantName name);
      _ ← fail_if (bool_decide (KeyDigests (Spec rt) = [])) (NoKeys name);
      let q := Quotas (Spec rt) in
      let gate :=
        match prev_tenant prev name with
        | Some p => if (ScratchBudgetMB (Quotas (t_spec p)) =? ScratchBudgetMB q)%Z then t_admit p
                    else if (0 <? ScratchBudgetMB q)%Z then new_gate (ScratchBudgetMB q) next else None
        | None => if (0 <? ScratchBudgetMB q)%Z then new_gate (ScratchBudgetMB q) next else None
        end in
      let limiter :=
        match prev_tenant prev name with
        | Some p => if f_eqb (RatePerSec (Quotas (t_spec p))) (RatePerSec q) then t_limiter p
                    else if f_ltb zero (RatePerSec q) then Some (new_limiter (RatePerSec q) (S next)) else None
        | None => if f_ltb zero (RatePerSec q) then Some (new_limiter (RatePerSec q) (S next)) else None
        end in
      Ok (mkTenant name st (SharedReads (Spec rt)) (Spec rt) gate limiter)
  end.
Fixpoint install (node : option nat) (prev : option tenantRegistry) (ts : gmap bytes TenantRuntime) (names : list bytes) (reg : tenantRegistry) (next : nat)
    : result tenants_error (tenantRegistry * nat) :=
  match names with
  | [] => Ok (reg, next)
  | name :: names =>
      match ts !! name with
      | None => install node prev ts names reg next
      | Some rt =>
          t ← make_tenant node prev name rt next;
          m ← add_digests t (KeyDigests (Spec rt)) (byDigest reg);
          install node prev ts names (mkRegistry m (ordered reg ++ [t])) (S (S next))
      end
  end.
(** The registry is swapped whole; an error leaves the server as it is. *)
Definition SetTenants (ts : gmap bytes TenantRuntime) (s : srv) : result tenants_error srv :=
  if bool_decide (ts = ∅) then Err EmptyRegistry else
  let names := sorted_keys ts in
  effective ← effective_stores (s_st s) ts names;
  _ ← fail_if (namespace_clash ts (by_store effective)) SharedNamespace;
  '(reg, next) ← install (s_st s) (s_tenants s) ts names (mkRegistry ∅ []) (s_next s);
  Ok (mkSrv (s_st s) (s_auth s) (Some reg) next).
Definition resolve (reg : tenantRegistry) (presented : bytes) : option tenant :=
  if bool_decide (presented = []) then None else byDigest reg !! Sum256 presented.

(** ** The gate *)

Definition lists_prefix : bytes := $"/v1/lists/".
(** [refuseReadOnlyHTTP], by the method and the path. *)
Definition mutating_path (r : request) : bool :=
  let rest := TrimPrefix (r_Path r) lists_prefix in
  HasPrefix (r_Path r) lists_prefix &&
  (if bool_decide (r_Method r = PUT) then negb (contains rest [c_slash])
   else if bool_decide (r_Method r = POST) then HasSuffix rest ($"/entries") || HasSuffix rest ($"/compact") || HasSuffix rest ($"/reload")
   else if bool_decide (r_Method r = DELETE) then contains rest ($"/entries/")
   else false).
(** What is known of the stores: which are read-only, and which serve prepared
    artifacts. *)
Context (read_only prepared : nat → bool).
Definition refuseReadOnlyHTTP (r : request) (st : option nat) : bool := match st with Some st => read_only st && mutating_path r | None => false end.
Definition artifactProbe (s : srv) (path : bytes) : bool := bool_decide (path = $"/artifactz") && match s_st s with Some st => prepared st | None => false end.
Inductive verdict := Pass (t : option tenant) | Unauthorized | Forbidden | Conflict.
Definition gate (s : srv) (r : request) : verdict :=
  let exempt := exemptFromAuth (r_Path r) || artifactProbe s (r_Path r) in
  match s_tenants s with
  | Some reg =>
      if exempt then Pass None else
      match resolve reg (presentedKey r) with
      | None => Unauthorized
      | Some t =>
          if t_shared t && negb (bool_decide (r_Method r = GET)) && HasPrefix (r_Path r) lists_prefix then Forbidden
          else if refuseReadOnlyHTTP r (Some (t_st t)) then Conflict else Pass (Some t)
      end
  | None =>
      if bool_decide (is_Some (s_auth s)) && negb exempt && negb (allow (s_auth s) r) then Unauthorized
      else if refuseReadOnlyHTTP r (s_st s) then Conflict else Pass None
  end.
Definition stOf (s : srv) (t : option tenant) : option nat := match t with Some t => Some (t_st t) | None => s_st s end.

(** ** Routes *)

Inductive handler :=
  | Healthz | Livez | Readyz | Metrics | Artifactz | ListAll | CreateList (list : bytes) | ListStats (list : bytes)
  | UpsertEntries (list : bytes) | DeleteEntry (list id : bytes) | Compact (list : bytes) | Reload (list : bytes) | QueryOne | BatchQuery.
Definition mutates (h : handler) : bool :=
  match h with CreateList _ | UpsertEntries _ | DeleteEntry _ _ | Compact _ | Reload _ => true | _ => false end.
(** The patterns of [NewServer] on a path without escapes and dot segments, which net/http
    would clean by a redirect; a wildcard is one segment, not empty, and a pattern for GET
    also serves HEAD. *)
Definition plain_segment (s : bytes) : bool := negb (bool_decide (s = [] ∨ s = $"." ∨ s = $"..")).
Definition route (s : srv) (r : request) : option handler :=
  let get := bool_decide (r_Method r = GET ∨ r_Method r = HEAD) in
  let on m := bool_decide (r_Method r = m) in
  let seg x w := bool_decide (x = str w) in
  match split_byte c_slash (r_Path r) with
  | [] :: segs =>
      if negb (forallb plain_segment segs) then None else
      match segs with
      | [a] =>
          if negb get then None
          else if seg a "healthz" then Some Healthz else if seg a "livez" then Some Livez
          else if seg a "readyz" then Some Readyz else if seg a "metrics" then Some Metrics
          else if seg a "artifactz" && match s_st s with Some st => prepared st | None => false end then Some Artifactz else None
      | [v; a] =>
          if negb (seg v "v1") then None
          else if get && seg a "lists" then Some ListAll
          else if on POST && seg a "query" then Some QueryOne
          else if on POST && seg a "batch-query" then Some BatchQuery else None
      | [v; a; l] =>
          if negb (seg v "v1" && seg a "lists") then None
          else if on PUT then Some (CreateList l) else if get then Some (ListStats l) else None
      | [v; a; l; b] =>
          if negb (seg v "v1" && seg a "lists" && on POST) then None
          else if seg b "entries" then Some (UpsertEntries l) else if seg b "compact" then Some (Compact l)
          else if seg b "reload" then Some (Reload l) else None
      | [v; a; l; b; id] =>
          if seg v "v1" && seg a "lists" && seg b "entries" && on DELETE then Some (DeleteEntry l id) else None
      | _ => None
      end
  | _ => None
  end.

(** ** Keys and digests *)

Lemma allow_spec digests r : allow (Some digests) r = true ↔ presentedKey r ≠ [] ∧ Sum256 (presentedKey r) ∈ digests.
Proof.
  unfold allow. case_bool_decide; [naive_solver|]. assert (∀ b, foldl (λ ok d, ok || bool_decide (Sum256 (presentedKey r) = d)) b digests = true ↔ b = true ∨ Sum256 (presentedKey r) ∈ digests) as Hf.
  { induction digests as [|d ds IH]; intros b; cbn [foldl]; [rewrite elem_of_nil; tauto|]. rewrite IH, orb_true_iff, bool_decide_eq_true, elem_of_cons. tauto. }
  rewrite Hf. naive_solver.
Qed.
Definition declares (t : tenant) (d : bytes) : Prop := ∃ dh, dh ∈ KeyDigests (t_spec t) ∧ hex_decode dh = Some d.
(** The digests added are those the tenant declares, and none was taken. *)
Lemma add_digests_ok t ds : ∀ m m', add_digests t ds m = Ok m' → ∀ d u, m' !! d = Some u ↔ m !! d = Some u ∨ u = t ∧ ∃ dh, dh ∈ ds ∧ hex_decode dh = Some d.
Proof.
  induction ds as [|dh ds IH]; intros m m'; cbn [add_digests].
  - intros [= <-] d u. split; [by left|]. intros [?|(_ & ? & ?%elem_of_nil & _)]; done.
  - destruct (hex_decode dh) as [raw|] eqn:Eh; [|done]. intros (? & _ & H)%bind_ok. destruct (m !! raw) as [p|] eqn:Em; [done|]. intros d u. rewrite (IH _ _ H). split.
    + intros [Hl|(-> & dh' & Hin & Hd)]; [|right; split; [done|]; exists dh'; split; [by right|done]]. destruct (decide (raw = d)) as [->|Hne]; [rewrite lookup_insert_eq in Hl; injection Hl as <-; right; split; [done|]; exists dh; split; [by left|done]|].
      rewrite lookup_insert_ne in Hl by done. by left.
    + intros [Hl|(-> & dh' & [->|Hin]%elem_of_cons & Hd)].
      * left. rewrite lookup_insert_ne; [done|]. intros ->. by rewrite Em in Hl.
      * left. rewrite Eh in Hd. injection Hd as ->. by rewrite lookup_insert_eq.
      * right. split; [done|]. by exists dh'.
Qed.
Lemma add_digests_kept t ds m m' d u : add_digests t ds m = Ok m' → m !! d = Some u → m' !! d = Some u.
Proof. intros H Hd. apply (add_digests_ok _ _ _ _ H). by left. Qed.

(** ** The stores of the tenants *)

Definition eff (node : option nat) (ts : gmap bytes TenantRuntime) (name : bytes) : option nat :=
  rt ← ts !! name; if SharedReads (Spec rt) then node else rt_Store rt.
Lemma effective_stores_ok node ts names es : (∀ n, n ∈ names → is_Some (ts !! n)) → effective_stores node ts names = Ok es →
  es = (λ n, (n, eff node ts n)) <$> names ∧ ∀ n, n ∈ names → is_private ts n = true → eff node ts n ≠ None → eff node ts n ≠ node.
Proof.
  revert es. induction names as [|n names IH]; intros es Hts; cbn [effective_stores]; [intros [= <-]; split; [done|by intros ? ?%elem_of_nil]|].
  destruct (Hts n ltac:(by left)) as [rt Hrt]. assert (∀ m, m ∈ names → is_Some (ts !! m)) as Hts' by (intros m Hm; apply Hts; by right). unfold eff, is_private in *. rewrite Hrt. cbn [fmap list_fmap mbind option_bind]. rewrite Hrt. destruct (SharedReads (Spec rt)) eqn:Es.
  - intros (es' & [-> Hn]%(IH _ Hts') & [= <-])%bind_ok. cbn [mbind option_bind]. rewrite Es. split; [done|]. intros m [->|Hm]%elem_of_cons; [by rewrite Hrt, Es|by apply Hn].
  - intros (? & Hc%fail_if_ok & (es' & [-> Hn]%(IH _ Hts') & [= <-])%bind_ok)%bind_ok. apply bool_decide_eq_false in Hc. cbn [mbind option_bind]. rewrite Es. split; [done|]. intros m [->|Hm]%elem_of_cons; [|by apply Hn].
    rewrite Hrt. cbn [mbind option_bind]. rewrite Es. intros _ H1 H2. by apply Hc.
Qed.
Lemma by_store_owners es st : default [] (by_store es !! st) = (filter (λ x : bytes * option nat, x.2 = Some st) es).*1.
Proof.
  unfold by_store. assert (∀ m : gmap nat (list bytes), default [] (foldl (λ m '(name, st), match st with Some st => <[st := default [] (m !! st) ++ [name]]> m | None => m end) m es !! st) =
    default [] (m !! st) ++ (filter (λ x : bytes * option nat, x.2 = Some st) es).*1) as H; [|by rewrite H, lookup_empty].
  induction es as [|[n [st'|]] es IH]; intros m; cbn [foldl].
  - by rewrite app_nil_r.
  - rewrite IH. destruct (decide (st' = st)) as [->|Hne].
    + rewrite lookup_insert_eq, filter_cons_True by done. rewrite fmap_cons. unfold default; cbn [from_option]; unfold id. cbn [fst]. by rewrite <-app_assoc.
    + rewrite lookup_insert_ne by done. rewrite filter_cons_False by (cbn; congruence). done.
  - rewrite IH. by rewrite filter_cons_False.
Qed.
(** Without a clash, two tenants of one store are both readers. *)
Lemma no_clash node ts names n n' st : namespace_clash ts (by_store ((λ n, (n, eff node ts n)) <$> names)) = false →
  n ∈ names → n' ∈ names → n ≠ n' → eff node ts n = Some st → eff node ts n' = Some st → is_private ts n = false.
Proof.
  intros Hc Hn Hn' Hne E E'. unfold namespace_clash in Hc. apply not_true_iff_false in Hc. destruct (is_private ts n) eqn:Ep; [|done]. destruct Hc.
  pose proof (by_store_owners ((λ n, (n, eff node ts n)) <$> names) st) as Ho. set (owners := default [] (by_store _ !! st)) in *.
  assert (∀ m, m ∈ names → eff node ts m = Some st → m ∈ owners) as Hin.
  { intros m Hm Hs. rewrite Ho. apply list_elem_of_fmap. exists (m, eff node ts m). split; [done|]. apply list_elem_of_filter. split; [done|]. apply list_elem_of_fmap. by exists m. }
  pose proof (Hin n Hn E) as H1. pose proof (Hin n' Hn' E') as H2. apply existsb_exists. exists owners. split.
  - apply list_elem_of_In. unfold owners in *. destruct (by_store _ !! st) as [os|] eqn:Es; cbn [default from_option] in *; [|by apply elem_of_nil in H1]. apply list_elem_of_fmap. exists (st, os). split; [done|]. by apply elem_of_map_to_list.
  - apply andb_true_iff. split.
    + apply negb_true_iff, Nat.ltb_ge. destruct owners as [|a [|b l]]; [by apply elem_of_nil in H1| |cbn; lia]. apply list_elem_of_singleton in H1, H2. congruence.
    + apply existsb_exists. exists n. split; [by apply list_elem_of_In|done].
Qed.

(** ** The registry *)

(** What [make_tenant] makes of a declaration. *)
Definition made (node : option nat) (name : bytes) (rt : TenantRuntime) (t : tenant) : Prop :=
  t_name t = name ∧ t_shared t = SharedReads (Spec rt) ∧ t_spec t = Spec rt ∧ (if SharedReads (Spec rt) then node else rt_Store rt) = Some (t_st t).
Lemma make_tenant_made node prev name rt next t : make_tenant node prev name rt next = Ok t → made node name rt t.
Proof.
  unfold make_tenant. intros (? & _ & (? & _ & H)%bind_ok)%bind_ok. unfold made. destruct (if SharedReads (Spec rt) then node else rt_Store rt) as [st|]; [|done].
  apply bind_ok in H as (? & _ & (? & _ & [= <-])%bind_ok). done.
Qed.
Definition digests_ok (reg : tenantRegistry) : Prop := ∀ d t, byDigest reg !! d = Some t ↔ t ∈ ordered reg ∧ declares t d.
Lemma install_ok node prev ts names : ∀ reg next reg' next', (∀ n, n ∈ names → is_Some (ts !! n)) → digests_ok reg → install node prev ts names reg next = Ok (reg', next') →
  digests_ok reg' ∧ next' = next + 2 * length names ∧ ∃ new, ordered reg' = ordered reg ++ new ∧ length new = length names ∧
  ∀ i n t, names !! i = Some n → new !! i = Some t → ∃ rt, ts !! n = Some rt ∧ make_tenant node prev n rt (next + 2 * i) = Ok t.
Proof.
  induction names as [|n names IH]; intros reg next reg' next' Hts Hd; cbn [install]; [intros [= <- <-]; split_and!; [done|cbn; lia|]; exists []; by rewrite app_nil_r|].
  destruct (Hts n ltac:(by left)) as [rt Hrt]. rewrite Hrt. intros (t & Ht & (m & Hm & H)%bind_ok)%bind_ok. pose proof (make_tenant_made _ _ _ _ _ _ Ht) as (_ & _ & Hs & _).
  assert (digests_ok (mkRegistry m (ordered reg ++ [t]))) as Hd'.
  { intros d u. cbn [byDigest ordered]. rewrite (add_digests_ok _ _ _ _ Hm), (Hd d u), elem_of_app, list_elem_of_singleton. unfold declares. split; [intros [[? ?]|(-> & ?)]; rewrite ?Hs; auto|]. intros [[?| ->] ?]; rewrite ?Hs in *; auto. }
  destruct (IH _ _ _ _ (λ k Hk, Hts k ltac:(by right)) Hd' H) as (H1 & -> & new & H2 & H3 & H4). split_and!; [done|cbn; lia|]. exists (t :: new). rewrite H2. cbn [ordered]. rewrite <-app_assoc. split_and!; [done|cbn; lia|].
  intros [|i] k u; cbn [lookup list_lookup]; [intros [= <-] [= <-]; exists rt; by rewrite Nat.mul_0_r, Nat.add_0_r|]. intros Hk Hu. destruct (H4 i k u Hk Hu) as (rt' & ? & Hmk). exists rt'. split; [done|]. by replace (next + 2 * S i) with (S (S next) + 2 * i) by lia.
Qed.

(** The gate a declaration asks for. *)
Definition mb_of (t : tenant) : Z := ScratchBudgetMB (Quotas (t_spec t)).
Definition gate_inv (t : tenant) : Prop :=
  match t_admit t with
  | Some g => go_budget g = i64 (mb_of t * 2 ^ 20) ∧ (0 < mb_of t)%Z ∧ (0 < go_budget g)%Z
  | None => (0 < mb_of t → i64 (mb_of t * 2 ^ 20) <= 0)%Z
  end.
(** What a specification declares: no budget, no gate; a budget in the range of the
    shift, a gate of exactly so many bytes. *)
Definition gate_ok (t : tenant) : Prop :=
  (mb_of t <= 0 → t_admit t = None)%Z ∧
  (0 < mb_of t < 2 ^ 43 → ∃ g, t_admit t = Some g ∧ go_budget g = mb_of t * 2 ^ 20)%Z.
Lemma gate_inv_ok t : gate_inv t → gate_ok t.
Proof.
  unfold gate_inv, gate_ok. intros H. split; intros Hmb.
  - destruct (t_admit t) as [g|]; [lia|done].
  - assert (i64 (mb_of t * 2 ^ 20) = mb_of t * 2 ^ 20)%Z as E by (unfold i64; rewrite Z.mod_small; lia).
    destruct (t_admit t) as [g|]; [|lia]. exists g. split; [done|]. by destruct H as [-> _].
Qed.
Lemma prev_tenant_ok reg name p : prev_tenant reg name = Some p → ∃ r, reg = Some r ∧ p ∈ ordered r ∧ t_name p = name.
Proof.
  destruct reg as [r|]; [|done]. unfold prev_tenant. cbn [mbind option_bind]. intros H. exists r. split; [done|].
  assert (∀ l found, foldl (λ found t, if bool_decide (t_name t = name) then Some t else found) found l = Some p → found = Some p ∨ p ∈ l ∧ t_name p = name) as Hf.
  { clear. intros l. induction l as [|t l IH]; intros found; cbn [foldl]; [by left|]. intros [H|[? ?]]%IH; [|right; split; [by right|done]]. case_bool_decide; [|by left]. injection H as ->. right. split; [by left|done]. }
  destruct (Hf _ _ H) as [|[? ?]]; [done|by split].
Qed.
Lemma make_tenant_gate node prev name rt next t : make_tenant node prev name rt next = Ok t → (∀ p, prev_tenant prev name = Some p → gate_inv p) →
  gate_inv t ∧ ∀ g, t_admit t = Some g → go_id g = next ∨ ∃ p, prev_tenant prev name = Some p ∧ mb_of p = mb_of t ∧ t_admit p = Some g.
Proof.
  unfold make_tenant. intros (? & _ & (? & _ & H)%bind_ok)%bind_ok Hp. destruct (if SharedReads (Spec rt) then node else rt_Store rt) as [st|]; [|done]. apply bind_ok in H as (? & _ & (? & _ & [= <-])%bind_ok).
  set (q := Quotas (Spec rt)). set (fresh := if (0 <? ScratchBudgetMB q)%Z then new_gate (ScratchBudgetMB q) next else None).
  assert (match fresh with Some g => go_budget g = i64 (ScratchBudgetMB q * 2 ^ 20) ∧ (0 < ScratchBudgetMB q)%Z ∧ (0 < go_budget g)%Z | None => (0 < ScratchBudgetMB q → i64 (ScratchBudgetMB q * 2 ^ 20) <= 0)%Z end ∧ ∀ g, fresh = Some g → go_id g = next) as [Hf1 Hf2].
  { unfold fresh, new_gate. destruct (Z.ltb_spec 0 (ScratchBudgetMB q)); [|split; [lia|done]]. destruct (Z.leb_spec (i64 (ScratchBudgetMB q * 2 ^ 20)) 0); [split; [lia|done]|]. cbn. split; [done|by intros g [= <-]]. }
  unfold gate_inv, mb_of. cbn [t_admit t_spec]. fold q. fold fresh. destruct (prev_tenant prev name) as [p|] eqn:Ep; [|split; [done|]; intros g Hg; left; by apply Hf2].
  destruct (Z.eqb_spec (ScratchBudgetMB (Quotas (t_spec p))) (ScratchBudgetMB q)) as [E|]; [|split; [done|]; intros g Hg; left; by apply Hf2].
  specialize (Hp p eq_refl). unfold gate_inv, mb_of in Hp. rewrite E in Hp. split; [done|]. intros g Hg. right. by exists p.
Qed.
Lemma make_tenant_carried node prev name rt next t p : make_tenant node prev name rt next = Ok t → prev_tenant prev name = Some p → mb_of p = mb_of t → t_admit t = t_admit p.
Proof.
  unfold make_tenant. intros (? & _ & (? & _ & H)%bind_ok)%bind_ok Hp. destruct (if SharedReads (Spec rt) then node else rt_Store rt) as [st|]; [|done]. apply bind_ok in H as (? & _ & (? & _ & [= <-])%bind_ok).
  rewrite Hp. unfold mb_of. cbn [t_spec t_admit]. intros ->. by rewrite Z.eqb_refl.
Qed.

Definition registry_ok (s : srv) (reg : tenantRegistry) : Prop :=
  digests_ok reg ∧ NoDup (t_name <$> ordered reg) ∧
  (∀ t, t ∈ ordered reg → (if t_shared t then s_st s = Some (t_st t) else s_st s ≠ Some (t_st t)) ∧ gate_inv t ∧ ∀ g, t_admit t = Some g → go_id g < s_next s) ∧
  ∀ t t', t ∈ ordered reg → t' ∈ ordered reg → t_name t ≠ t_name t' →
    (t_st t = t_st t' → t_shared t = true ∧ t_shared t' = true) ∧ ∀ g g', t_admit t = Some g → t_admit t' = Some g' → go_id g ≠ go_id g'.
Definition server_ok (s : srv) : Prop := ∀ reg, s_tenants s = Some reg → registry_ok s reg.
Lemma same_name (l : list tenant) t t' : NoDup (t_name <$> l) → t ∈ l → t' ∈ l → t_name t = t_name t' → t = t'.
Proof.
  intros Hnd [i Hi]%list_elem_of_lookup [j Hj]%list_elem_of_lookup E. assert (i = j) as ->; [|congruence]. eapply NoDup_lookup; [exact Hnd| |]; rewrite list_lookup_fmap; [by rewrite Hi|rewrite Hj; cbn; by rewrite E].
Qed.
Lemma prev_tenant_complete reg p : NoDup (t_name <$> ordered reg) → p ∈ ordered reg → prev_tenant (Some reg) (t_name p) = Some p.
Proof.
  intros Hnd Hp. assert (is_Some (prev_tenant (Some reg) (t_name p))) as [p' Hp'].
  { unfold prev_tenant. cbn [mbind option_bind]. revert Hp. generalize (None : option tenant). assert (∀ l (found : option tenant), is_Some found → is_Some (foldl (λ found t, if bool_decide (t_name t = t_name p) then Some t else found) found l)) as Hk.
    { intros l. induction l as [|t l IH]; intros found Hf; cbn [foldl]; [done|]. apply IH. by case_bool_decide. }
    induction (ordered reg) as [|t l IH]; intros found; [by intros ?%elem_of_nil|]. cbn [foldl]. intros [<-|Hin]%elem_of_cons; [rewrite bool_decide_eq_true_2 by done; by apply Hk|]. apply IH; [|done]. by apply NoDup_cons in Hnd as [_ ?]. }
  rewrite Hp'. apply prev_tenant_ok in Hp' as (r & [= <-] & Hin & E). f_equal. by apply (same_name (ordered reg)).
Qed.

Lemma set_tenants_anatomy ts s s' : SetTenants ts s = Ok s' → ∃ reg, s' = mkSrv (s_st s) (s_auth s) (Some reg) (s_next s + 2 * length (sorted_keys ts)) ∧ digests_ok reg ∧
  length (ordered reg) = length (sorted_keys ts) ∧
  (∀ i n t, sorted_keys ts !! i = Some n → ordered reg !! i = Some t → ∃ rt, ts !! n = Some rt ∧ make_tenant (s_st s) (s_tenants s) n rt (s_next s + 2 * i) = Ok t) ∧
  (∀ n, n ∈ sorted_keys ts → is_private ts n = true → eff (s_st s) ts n ≠ None → eff (s_st s) ts n ≠ s_st s) ∧
  ∀ n n' st, n ∈ sorted_keys ts → n' ∈ sorted_keys ts → n ≠ n' → eff (s_st s) ts n = Some st → eff (s_st s) ts n' = Some st → is_private ts n = false.
Proof.
  unfold SetTenants. destruct (bool_decide (ts = ∅)); [done|]. pose proof (proj2 (proj2 (sorted_keys_sorted ts))) as Hk. assert (∀ n, n ∈ sorted_keys ts → is_Some (ts !! n)) as Hts by (intros n; apply Hk).
  intros (es & [-> Hpriv]%(effective_stores_ok _ _ _ _ Hts) & (? & Hc%fail_if_ok & ([reg next] & H & [= <-])%bind_ok)%bind_ok)%bind_ok.
  apply install_ok in H as (Hd & -> & new & Ho & Hl & Hi); [|done|by intros d t; cbn; rewrite lookup_empty, elem_of_nil; naive_solver]. cbn [ordered app] in Ho. subst new.
  exists reg. split_and!; [done|done|done|exact Hi|exact Hpriv|]. intros n n' st. by apply no_clash.
Qed.

(** A tenant of the new registry, by its position, its declaration and its making. *)
Lemma set_tenants_each ts s s' reg t : SetTenants ts s = Ok s' → s_tenants s' = Some reg → t ∈ ordered reg →
  ∃ i rt, sorted_keys ts !! i = Some (t_name t) ∧ ordered reg !! i = Some t ∧ ts !! t_name t = Some rt ∧ make_tenant (s_st s) (s_tenants s) (t_name t) rt (s_next s + 2 * i) = Ok t.
Proof.
  intros (reg' & -> & _ & Hl & Hi & _)%set_tenants_anatomy [= <-] [i Hti]%list_elem_of_lookup. assert (is_Some (sorted_keys ts !! i)) as [n Hn] by (apply lookup_lt_is_Some; rewrite <-Hl; by eapply lookup_lt_Some).
  destruct (Hi i n t Hn Hti) as (rt & Hrt & Hmk). pose proof (make_tenant_made _ _ _ _ _ _ Hmk) as (E & _). exists i, rt. by rewrite E.
Qed.
Lemma made_eff node ts n rt t : ts !! n = Some rt → made node n rt t → eff node ts n = Some (t_st t) ∧ is_private ts n = negb (t_shared t).
Proof. intros Hrt (_ & Hs & _ & Hst). unfold eff, is_private. rewrite Hrt. cbn [mbind option_bind]. by rewrite Hs. Qed.

Lemma set_tenants_ok ts s s' : server_ok s → SetTenants ts s = Ok s' → server_ok s'.
Proof.
  intros Hok H reg Hreg. pose proof (λ t, set_tenants_each ts s s' reg t H Hreg) as Heach. apply set_tenants_anatomy in H as (reg' & -> & Hd & Hl & Hi & Hpriv & Hclash). injection Hreg as ->. cbn [s_st s_next s_tenants] in *.
  pose proof (proj1 (sorted_keys_sorted ts)) as Hsort.
  assert (t_name <$> ordered reg = sorted_keys ts) as Hnames.
  { apply list_eq. intros i. rewrite list_lookup_fmap. destruct (ordered reg !! i) as [t|] eqn:Et.
    - destruct (Heach t) as (j & rt & Hj & Htj & _); [by eapply list_elem_of_lookup_2|]. assert (is_Some (sorted_keys ts !! i)) as [n Hn] by (apply lookup_lt_is_Some; rewrite <-Hl; by eapply lookup_lt_Some).
      destruct (Hi i n t Hn Et) as (rt' & _ & Hmk). destruct (make_tenant_made _ _ _ _ _ _ Hmk) as (E & _). cbn. by rewrite Hn, E.
    - cbn. symmetry. apply lookup_ge_None. rewrite <-Hl. by apply lookup_ge_None. }
  assert (NoDup (t_name <$> ordered reg)) as Hnd by (rewrite Hnames; by apply sorted_names_nodup). 
  assert (∀ n p, prev_tenant (s_tenants s) n = Some p → gate_inv p ∧ t_name p = n ∧ ∀ g, t_admit p = Some g → go_id g < s_next s) as Hprev.
  { intros n p (r & Hr & Hp & Hn)%prev_tenant_ok. destruct (Hok r Hr) as (_ & _ & Ht & _). destruct (Ht p Hp) as (_ & ? & ?). done. }
  assert (∀ t, t ∈ ordered reg → ∃ i, sorted_keys ts !! i = Some (t_name t) ∧ gate_inv t ∧ ∀ g, t_admit t = Some g → go_id g = s_next s + 2 * i ∨ go_id g < s_next s ∧ ∃ p, prev_tenant (s_tenants s) (t_name t) = Some p ∧ t_admit p = Some g) as Hgate.
  { intros t Ht. destruct (Heach t Ht) as (i & rt & Hn & _ & Hrt & Hmk). exists i. destruct (make_tenant_gate _ _ _ _ _ _ Hmk) as [Hg Hid]; [intros p Hp; by destruct (Hprev _ _ Hp)|]. split_and!; [done|done|].
    intros g Hgt. destruct (Hid g Hgt) as [|(p & Hp & _ & Hpg)]; [by left|]. right. split; [by apply (Hprev _ _ Hp)|]. by exists p. }
  split_and!; [done|done| |].
  - intros t Ht. destruct (Heach t Ht) as (i & rt & Hn & Hti & Hrt & Hmk). pose proof (make_tenant_made _ _ _ _ _ _ Hmk) as Hm. destruct (made_eff _ _ _ _ _ Hrt Hm) as [He Hp]. destruct (Hgate t Ht) as (i' & Hn' & Hg & Hid). split_and!; [|done|].
    + destruct (t_shared t) eqn:Es; [destruct Hm as (_ & Hs & _ & Hst); rewrite <-Hs, Es in Hst; done|]. intros E. cbn [s_st] in E. eapply (Hpriv (t_name t)); [by eapply list_elem_of_lookup_2|by rewrite Hp|by rewrite He|by rewrite He, E].
    + intros g Hgt. apply lookup_lt_Some in Hn'. cbn [s_next]. destruct (Hid g Hgt) as [->|[? _]]; lia.
  - intros t t' Ht Ht' Hne. split.
    + intros Est. destruct (Heach t Ht) as (i & rt & Hn & _ & Hrt & Hmk), (Heach t' Ht') as (i' & rt' & Hn' & _ & Hrt' & Hmk').
      destruct (made_eff _ _ _ _ _ Hrt (make_tenant_made _ _ _ _ _ _ Hmk)) as [He Hp], (made_eff _ _ _ _ _ Hrt' (make_tenant_made _ _ _ _ _ _ Hmk')) as [He' Hp']. apply list_elem_of_lookup_2 in Hn, Hn'. rewrite <-Est in He'.
      pose proof (Hclash _ _ _ Hn Hn' Hne He He') as H1. pose proof (Hclash _ _ _ Hn' Hn (not_eq_sym Hne) He' He) as H2. rewrite Hp in H1. rewrite Hp' in H2. apply negb_false_iff in H1, H2. done.
    + intros g g' Hg Hg' E. destruct (Hgate t Ht) as (i & Hn & _ & Hid), (Hgate t' Ht') as (i' & Hn' & _ & Hid').
      destruct (Hid g Hg) as [E1|(L1 & p & Hp & Hpg)], (Hid' g' Hg') as [E2|(L2 & p' & Hp' & Hpg')]; [|lia|lia|].
      * assert (i = i') as -> by lia. rewrite Hn in Hn'. by injection Hn'.
      * apply prev_tenant_ok in Hp as (r & Hr & Hp & Hpn), Hp' as (r' & Hr' & Hp' & Hpn'). rewrite Hr in Hr'. injection Hr' as <-. destruct (Hok r Hr) as (_ & _ & _ & Hpair).
        destruct (Hpair p p' Hp Hp') as [_ Hids]; [by rewrite Hpn, Hpn'|]. by apply (Hids g g').
Qed.

(** Every server: created, then given registries; one that is refused changes nothing. *)
Inductive serving : srv → Prop :=
  | created node keys : serving (mkSrv node (newAuthGate keys) None 0)
  | swapped ts s s' : serving s → SetTenants ts s = Ok s' → serving s'.
Lemma serving_ok s : serving s → server_ok s.
Proof. induction 1 as [node keys|ts s s' _ IH H]; [done|]. by eapply set_tenants_ok. Qed.

(** ** Mutating routes *)

Lemma HasPrefix_app p s : HasPrefix (p ++ s) p = true.
Proof. unfold HasPrefix. apply bool_decide_eq_true. by rewrite take_app_length. Qed.
Lemma TrimPrefix_app p s : TrimPrefix (p ++ s) p = s.
Proof. unfold TrimPrefix. by rewrite HasPrefix_app, drop_app_length. Qed.
Lemma HasSuffix_app s p : HasSuffix (s ++ p) p = true.
Proof. unfold HasSuffix. rewrite length_app. apply andb_true_iff. split; [apply Nat.leb_le; lia|]. apply bool_decide_eq_true. replace (length s + length p - length p) with (length s) by lia. by rewrite drop_app_length. Qed.
Lemma contains_app a w b : contains (a ++ w ++ b) w = true.
Proof.
  induction a as [|x a IH]; [|cbn [app contains]; rewrite IH; by rewrite orb_true_r]. cbn [app]. destruct (w ++ b) as [|y l] eqn:E; cbn [contains]; rewrite <-?E; rewrite bool_decide_eq_true_2; [done|by rewrite take_app_length|done|by rewrite take_app_length].
Qed.
Lemma contains_no_byte s c : c ∉ s → contains s [c] = false.
Proof.
  induction s as [|x s IH]; intros Hc; cbn [contains length take]; [done|]. apply not_elem_of_cons in Hc as [Hne Hc]. rewrite IH by done. rewrite bool_decide_eq_false_2; [done|]. rewrite firstn_O. congruence.
Qed.
(** A request whose handler mutates is under [lists_prefix], is not a GET, and is one
    the read-only guard knows. *)
Lemma mutating_route s r h : route s r = Some h → mutates h = true →
  HasPrefix (r_Path r) lists_prefix = true ∧ r_Method r ≠ GET ∧ mutating_path r = true ∧ exemptFromAuth (r_Path r) = false ∧ r_Path r ≠ $"/artifactz".
Proof.
  unfold route. pose proof (join_split c_slash (r_Path r)) as Hj. pose proof (split_byte_elem c_slash (r_Path r)) as Hsl. destruct (split_byte c_slash (r_Path r)) as [|x segs]; [done|]. destruct x; [|done].
  destruct (forallb plain_segment segs) eqn:Hpl; cbn [negb]; [|done].
  assert (∀ rest, r_Path r = lists_prefix ++ rest → rest ≠ [] → HasPrefix (r_Path r) lists_prefix = true ∧ TrimPrefix (r_Path r) lists_prefix = rest ∧ exemptFromAuth (r_Path r) = false ∧ r_Path r ≠ $"/artifactz") as Hpath.
  { intros rest E Hne. rewrite E, HasPrefix_app, TrimPrefix_app. split_and!; [done|done| |by destruct rest]. unfold exemptFromAuth. apply bool_decide_eq_false. destruct rest; [done|]. by intros [?|[?|[?|?]]]. }
  destruct segs as [|a [|b [|l [|c [|i [|]]]]]]; try done.
  - intros Hr Hm. exfalso. revert Hr Hm. repeat match goal with |- context [if ?b then _ else _] => destruct b end; first [done|by intros [= <-]].
  - intros Hr Hm. exfalso. revert Hr Hm. repeat match goal with |- context [if ?b then _ else _] => destruct b end; first [done|by intros [= <-]].
  - destruct (bool_decide (a = str "v1") && bool_decide (b = str "lists")) eqn:Eab; cbn [negb]; [|done]. apply andb_true_iff in Eab as [->%bool_decide_eq_true ->%bool_decide_eq_true].
    case_bool_decide as Em; [|case_bool_decide; [by intros [= <-]|done]]. intros [= <-] _. assert (c_slash ∉ l) as Hl by (apply Hsl; do 3 right; by left). cbn [forallb] in Hpl. apply andb_true_iff in Hpl as [_ [_ [Hl0 _]%andb_true_iff]%andb_true_iff].
    assert (l ≠ []) as Hl1 by (intros ->; discriminate Hl0). destruct (Hpath l) as (H1 & H2 & H3 & H4); [by rewrite <-Hj|done|]. split_and!; [done|by rewrite Em| |done|done]. unfold mutating_path. rewrite H1, H2, bool_decide_eq_true_2 by done. by rewrite contains_no_byte.
  - destruct (bool_decide (a = str "v1") && bool_decide (b = str "lists") && bool_decide (r_Method r = POST)) eqn:Eab; cbn [negb]; [|done]. apply andb_true_iff in Eab as [[->%bool_decide_eq_true ->%bool_decide_eq_true]%andb_true_iff Em%bool_decide_eq_true].
    assert (r_Path r = lists_prefix ++ l ++ c_slash :: c) as Hp by (by rewrite <-Hj). destruct (Hpath _ Hp) as (H1 & H2 & H3 & H4); [by destruct l|]. intros Hr _. split_and!; [done|by rewrite Em| |done|done].
    unfold mutating_path. rewrite H1, H2, bool_decide_eq_false_2, bool_decide_eq_true_2 by (by rewrite ?Em). revert Hr. case_bool_decide as Ec; [subst c; intros _; by change (c_slash :: str "entries") with (str "/entries"); rewrite (HasSuffix_app l)|].
    case_bool_decide as Ec2; [subst c; intros _; change (c_slash :: str "compact") with (str "/compact"); rewrite (HasSuffix_app l); by rewrite orb_true_r|]. case_bool_decide as Ec3; [subst c; intros _; change (c_slash :: str "reload") with (str "/reload"); rewrite (HasSuffix_app l); by rewrite orb_true_r|done].
  - destruct (bool_decide (a = str "v1") && bool_decide (b = str "lists") && bool_decide (c = str "entries") && bool_decide (r_Method r = DELETE)) eqn:Eab; [|done]. apply andb_true_iff in Eab as [[[->%bool_decide_eq_true ->%bool_decide_eq_true]%andb_true_iff ->%bool_decide_eq_true]%andb_true_iff Em%bool_decide_eq_true].
    assert (r_Path r = lists_prefix ++ l ++ $"/entries/" ++ i) as Hp by (by rewrite <-Hj). destruct (Hpath _ Hp) as (H1 & H2 & H3 & H4); [by destruct l|]. intros _ _. split_and!; [done|by rewrite Em| |done|done].
    unfold mutating_path. rewrite H1, H2, !bool_decide_eq_false_2, bool_decide_eq_true_2 by (by rewrite ?Em). apply contains_app.
Qed.

(** C33: No request reaches a store without a key for it.  Under a registry, whatever
    sequence of registries was installed or refused before, a request that passes the
    gate and is not for an exempt endpoint presents a key whose digest exactly one
    tenant declares, and runs as that tenant; without one, legacy keys - if any are
    configured - must contain the key presented. *)
Theorem only_keyholders_pass s r t : serving s → gate s r = Pass t → exemptFromAuth (r_Path r) || artifactProbe s (r_Path r) = false →
  match s_tenants s with
  | Some reg => presentedKey r ≠ [] ∧ ∃ tn, t = Some tn ∧ tn ∈ ordered reg ∧ declares tn (Sum256 (presentedKey r)) ∧
      ∀ t', t' ∈ ordered reg → declares t' (Sum256 (presentedKey r)) → t' = tn
  | None => t = None ∧ ∀ digests, s_auth s = Some digests → presentedKey r ≠ [] ∧ Sum256 (presentedKey r) ∈ digests
  end.
Proof.
  intros Hs Hg He. unfold gate in Hg. rewrite He in Hg. destruct (s_tenants s) as [reg|] eqn:Er.
  - destruct (serving_ok s Hs reg Er) as (Hd & _). unfold resolve in Hg. case_bool_decide as Hk; [done|]. split; [done|]. destruct (byDigest reg !! _) as [tn|] eqn:Et; [|done]. exists tn. apply Hd in Et as Htn. destruct Htn as [Hin Hdecl]. split_and!; [|done|done|].
    + destruct (_ && _ && _); [done|]. destruct (refuseReadOnlyHTTP _ _); [done|]. congruence.
    + intros t' Hin' Hdecl'. assert (byDigest reg !! Sum256 (presentedKey r) = Some t') as E by (by apply Hd). congruence.
  - cbn [negb andb] in Hg. destruct (bool_decide (is_Some (s_auth s)) && true && negb (allow (s_auth s) r)) eqn:Ea; [done|]. split; [destruct (refuseReadOnlyHTTP _ _); congruence|]. intros digests Hds. rewrite Hds in Ea. cbn in Ea.
    apply negb_false_iff in Ea. by apply allow_spec.
Qed.

(** C32: A mutation stays in the tenant that sent it.  A request that passes the gate and
    whose handler mutates runs under a registry as a tenant that is not shared-reads,
    on a store that is not read-only, is not the node's, and that no other tenant
    serves from; the handlers the guards let through without a tenant only run on the
    node's store when that store takes writes. *)
Theorem mutations_isolated s r t h : serving s → gate s r = Pass t → route s r = Some h → mutates h = true →
  (∀ st, stOf s t = Some st → read_only st = false) ∧
  ∀ reg, s_tenants s = Some reg → ∃ tn, t = Some tn ∧ tn ∈ ordered reg ∧ t_shared tn = false ∧ s_st s ≠ Some (t_st tn) ∧
    ∀ t', t' ∈ ordered reg → t_name t' ≠ t_name tn → t_st t' ≠ t_st tn.
Proof.
  intros Hs Hg Hr Hm. destruct (mutating_route s r h Hr Hm) as (Hpre & Hget & Hmut & He & Ha). unfold gate in Hg. assert (artifactProbe s (r_Path r) = false) as Hap by (unfold artifactProbe; by rewrite bool_decide_eq_false_2). rewrite He, Hap in Hg. cbn [orb] in Hg.
  destruct (s_tenants s) as [reg|] eqn:Er.
  - destruct (resolve reg (presentedKey r)) as [tn|] eqn:Et; [|done]. rewrite bool_decide_eq_false_2, Hpre in Hg by done. cbn [negb] in Hg. rewrite !andb_true_r in Hg. destruct (t_shared tn) eqn:Es; [done|].
    cbn [refuseReadOnlyHTTP] in Hg. rewrite Hmut, andb_true_r in Hg. destruct (read_only (t_st tn)) eqn:Ero; [done|]. injection Hg as <-. split; [by intros st [= <-]|]. intros reg' [= <-]. exists tn. split; [done|].
    destruct (serving_ok s Hs reg Er) as (Hd & _ & Ht & Hpair). unfold resolve in Et. case_bool_decide; [done|]. apply Hd in Et as [Hin _]. destruct (Ht tn Hin) as (Hown & _). rewrite Es in Hown. split_and!; [done|done|done|].
    intros t' Hin' Hne E. destruct (Hpair t' tn Hin' Hin Hne) as [Hsh _]. destruct (Hsh E) as [_ Hc]. congruence.
  - split; [|done]. destruct (_ && _ && _) in Hg; [done|]. intros st Hst. destruct t; [by destruct (refuseReadOnlyHTTP _ _)|]. cbn [stOf] in Hst. rewrite Hst in Hg. cbn [refuseReadOnlyHTTP] in Hg. rewrite Hmut, andb_true_r in Hg. by destruct (read_only st).
Qed.

(** C34: A reload keeps what it should of the governors and mixes nothing up. After any
    registries, a tenant that declares no scratch budget has no gate, and one that
    declares less than 2^43 MiB has a gate of exactly that budget (what a larger one
    overflows to is a finding); no two tenants share a gate; and a tenant that the new
    registry keeps with the same budget keeps its very gate - the charges of its running
    queries stay counted - while one with another budget has none of the old gates. *)
Theorem reload_keeps_governors ts s s' reg : serving s → SetTenants ts s = Ok s' → s_tenants s' = Some reg →
  Forall gate_ok (ordered reg) ∧
  (∀ t t' g g', t ∈ ordered reg → t' ∈ ordered reg → t_name t ≠ t_name t' → t_admit t = Some g → t_admit t' = Some g' → go_id g ≠ go_id g') ∧
  ∀ old p t, s_tenants s = Some old → p ∈ ordered old → t ∈ ordered reg → t_name p = t_name t →
    (mb_of p = mb_of t → t_admit t = t_admit p) ∧
    (mb_of p ≠ mb_of t → ∀ g u g', t_admit t = Some g → u ∈ ordered old → t_admit u = Some g' → go_id g ≠ go_id g').
Proof.
  intros Hs H Hreg. pose proof (serving_ok s Hs) as Hok. destruct (set_tenants_ok ts s s' Hok H reg Hreg) as (_ & _ & Ht & Hpair). split_and!.
  - apply Forall_forall. intros t Hin. apply gate_inv_ok. by destruct (Ht t Hin) as (_ & ? & _).
  - intros t t' g g' Hin Hin' Hne Hg Hg'. destruct (Hpair t t' Hin Hin' Hne) as [_ Hids]. by apply Hids.
  - intros old p t Hold Hp Htin Hn. destruct (set_tenants_each ts s s' reg t H Hreg Htin) as (i & rt & _ & _ & Hrt & Hmk). destruct (Hok old Hold) as (_ & Hnd & Hot & _).
    assert (prev_tenant (s_tenants s) (t_name t) = Some p) as Hprev by (rewrite Hold, <-Hn; by apply prev_tenant_complete). split; [by apply (make_tenant_carried _ _ _ _ _ _ _ Hmk)|].
    intros Hmb g u g' Hg Hu Hg'. destruct (make_tenant_gate _ _ _ _ _ _ Hmk) as [_ Hid]; [intros p' (r & Hr & Hp' & _)%prev_tenant_ok; rewrite Hold in Hr; injection Hr as <-; by destruct (Hot p' Hp') as (_ & ? & _)|].
    destruct (Hid g Hg) as [E|(p' & Hp' & Hmb' & _)]; [|rewrite Hprev in Hp'; injection Hp' as <-; done]. destruct (Hot u Hu) as (_ & _ & Hlt). specialize (Hlt g' Hg'). lia.
Qed.

(** A budget that [ParseTenants] accepts can wrap to no gate at all. *)
Lemma huge_budget_unbounded id : new_gate (2 ^ 44) id = None ∧ new_gate (2 ^ 42) id ≠ None.
Proof. split; [done|]. unfold new_gate. by vm_compute. Qed.
End access.

(** ** A node with two private tenants and a reader *)

Section access_demo.
#[local] Existing Instance default_runtime.
#[local] Instance access_ops : FloatOps := exact_ops id.
(** A stand-in for the digest: the key, padded. *)
Definition pad32 (k : bytes) : bytes := take 32 (k ++ replicate 32 0%N).
Definition pad_hex (c1 c2 : N) : bytes := [c1; c2] ++ replicate 62 48%N.
Definition tenant_decl (digest : bytes) (mb : Z) (shared : bool) (st : option nat) : TenantRuntime := mkRuntime (mkSpec [digest] (mkQuotas 0 0 mb (f_of_N 0)) shared) st.
Definition demo_tenants (mb : Z) : gmap bytes TenantRuntime :=
  {[ $"acme" := tenant_decl (pad_hex 54 49) 64 false (Some 1); $"beta" := tenant_decl (pad_hex 54 50) mb false (Some 2); $"free" := tenant_decl (pad_hex 54 51) 8 true None ]}.
Definition demo_node : srv := mkSrv (Some 0) (newAuthGate pad32 []) None 0.
Definition demo_set (mb : Z) (s : srv) : srv := match SetTenants (λ _, 0%Z) (demo_tenants mb) s with Ok s' => s' | Err _ => s end.
Definition first_server : srv := demo_set 64 demo_node.
Definition second_server : srv := demo_set 128 first_server.
Lemma first_set : SetTenants (λ _, 0%Z) (demo_tenants 64) demo_node = Ok first_server.
Proof. unfold first_server, demo_set. assert (is_ok (SetTenants (λ _, 0%Z) (demo_tenants 64) demo_node) = true) as H by (vm_compute; reflexivity). by destruct (SetTenants _ _ _). Qed.
Lemma second_set : SetTenants (λ _, 0%Z) (demo_tenants 128) first_server = Ok second_server.
Proof. unfold second_server, demo_set. assert (is_ok (SetTenants (λ _, 0%Z) (demo_tenants 128) first_server) = true) as H by (vm_compute; reflexivity). by destruct (SetTenants _ _ first_server). Qed.
Lemma demo_serving : serving pad32 (λ _, 0%Z) first_server ∧ serving pad32 (λ _, 0%Z) second_server.
Proof. assert (serving pad32 (λ _, 0%Z) first_server) as H by (eapply swapped; [apply (created _ _ (Some 0) [])|exact first_set]). split; [exact H|]. eapply swapped; [exact H|exact second_set]. Qed.
Definition delete_as (key : string) : request := mkRequest DELETE ($"/v1/lists/l/entries/e") (str key) [].
Definition no_stores : nat → bool := λ _, false.
Definition demo_pass (key : string) (s : srv) : verdict := gate pad32 no_stores no_stores s (delete_as key).
Definition passed_as (v : verdict) : option (bytes * nat) := match v with Pass (Some t) => Some (t_name t, t_st t) | _ => None end.
Lemma demo_verdicts : passed_as (demo_pass "a" first_server) = Some ($"acme", 1) ∧
  demo_pass "c" first_server = Forbidden ∧ demo_pass "z" first_server = Unauthorized ∧ route no_stores first_server (delete_as "a") = Some (DeleteEntry ($"l") ($"e")).
Proof. vm_compute. done. Qed.
Lemma passed_inv v x : passed_as v = Some x → ∃ t, v = Pass (Some t) ∧ (t_name t, t_st t) = x.
Proof. destruct v as [[t|]| | |]; try done. intros [= <-]. by exists t. Qed.
Lemma only_keyholders_pass_witness : ∃ t, demo_pass "a" first_server = Pass (Some t) ∧ t_name t = $"acme" ∧ ∀ reg, s_tenants first_server = Some reg → declares t (pad32 ($"a")).
Proof.
  destruct (passed_inv _ _ (proj1 demo_verdicts)) as (t & E & Hn). exists t. split; [exact E|]. split; [congruence|]. intros reg Hreg.
  pose proof (only_keyholders_pass pad32 (λ _, 0%Z) no_stores no_stores first_server (delete_as "a") (Some t) (proj1 demo_serving) E eq_refl) as Hk. rewrite Hreg in Hk. destruct Hk as (_ & tn & Ht & _ & Hd & _). injection Ht as ->. exact Hd.
Defined.
Lemma mutations_isolated_witness : ∃ t, demo_pass "a" first_server = Pass (Some t) ∧ ∀ reg, s_tenants first_server = Some reg → t_shared t = false ∧
  ∀ t', t' ∈ ordered reg → t_name t' ≠ t_name t → t_st t' ≠ t_st t.
Proof.
  destruct (passed_inv _ _ (proj1 demo_verdicts)) as (t & E & _). exists t. split; [exact E|]. intros reg Hreg. pose proof (proj2 (proj2 (proj2 demo_verdicts))) as Hr.
  destruct (mutations_isolated pad32 (λ _, 0%Z) no_stores no_stores first_server (delete_as "a") (Some t) _ (proj1 demo_serving) E Hr eq_refl) as [_ Hi]. destruct (Hi reg Hreg) as (tn & Ht & _ & Hs & _ & Ho). injection Ht as ->. exact (conj Hs Ho).
Defined.
Lemma reload_keeps_governors_witness : ∃ reg, s_tenants second_server = Some reg ∧ Forall gate_ok (ordered reg) ∧ (go_id <$> (head (ordered reg) ≫= t_admit)) = Some 0.
Proof.
  assert ((reg ← s_tenants second_server; go_id <$> (head (ordered reg) ≫= t_admit)) = Some 0) as Hc by (vm_compute; reflexivity). destruct (s_tenants second_server) as [reg|] eqn:E; [|discriminate Hc]. exists reg. split; [reflexivity|].
  split; [exact (proj1 (reload_keeps_governors pad32 (λ _, 0%Z) no_stores no_stores _ first_server second_server reg (proj1 demo_serving) second_set E))|exact Hc].
Defined.
End access_demo.
