(* ===== verification/StoreDemo.v ===== *)
(** A concrete store: the theorems of [Journal] and [StoreProps] applied to a
    directory with an exact-mode list, and a marker that cannot be read. *)

From S2P Require Import Prelude.
From S2P Require Import Runtime.
From S2P Require Import Analyzer.
From S2P Require Import Score.
From S2P Require Import Bitmap.
From S2P Require Import Types.
From S2P Require Import ListConfig.
From S2P Require Import Segment.
From S2P Require Import ListModel.
From S2P Require Import ListRefine.
From S2P Require Import Journal.
From S2P Require Import Disk.
From S2P Require Import Store.
From S2P Require Import StoreSpec.
From S2P Require Import StoreInv.
From S2P Require Import StoreOps.
From S2P Require Import StoreOpen.
From S2P Require Import StoreHistory.
From S2P Require Import StoreLive.
From S2P Require Import StoreProps.
From S2P Require Import StoreAll.
From S2P Require Import StoreAllSpec.
From S2P Require Import StoreAllHistory.
From S2P Require Import StoreAllOpen.

#[local] Existing Instance default_runtime.
#[local] Existing Instance ascii_text.
#[local] Existing Instance set_bitmap.
#[local] Instance demo_ops : FloatOps := exact_ops id.

(** ** Concrete libraries *)

#[local] Instance store_digest : DigestLib := {| sha256 := λ b, 1%N :: b; marshal_config := λ c, Mode (Match c) |}.

#[local] Instance entry_dec : EqDecision Entry.
Proof. solve_decision. Defined.
#[local] Instance rec_dec : EqDecision journalRec.
Proof. solve_decision. Defined.

(** A codec over a table: the value's letter. *)
Definition enc {A} `{EqDecision A} (tab : list A) (a : A) : option bytes :=
  '(i, _) ← list_find (λ x, x = a) tab; Some [97 + N.of_nat i]%N.
Definition dec {A} (tab : list A) (b : bytes) : option A :=
  match b with [c] => tab !! N.to_nat (c - 97) | _ => None end.

Lemma enc_line {A} `{EqDecision A} (tab : list A) a b : enc tab a = Some b → b ≠ [] ∧ c_nl ∉ b ∧ c_cr ∉ b.
Proof.
  unfold enc. intros ([i x] & _ & [= <-])%bind_Some. split; [done|].
  split; intros H%list_elem_of_singleton; lia.
Qed.
Lemma enc_stable {A} `{EqDecision A} (tab : list A) a : a ∈ tab → ∃ b, enc tab a = Some b ∧ dec tab b = Some a.
Proof.
  intros Hin. unfold enc. destruct (list_find (λ x, x = a) tab) as [[i x]|] eqn:Hf.
  - apply list_find_Some in Hf as (Hi & -> & _). eexists. split; [done|]. unfold dec.
    by replace (N.to_nat (97 + N.of_nat i - 97)) with i by lia.
  - apply list_find_None in Hf. rewrite Forall_forall in Hf. by destruct (Hf a Hin).
Qed.

Definition e1 (id key : string) : Entry := mkEntry (str id) [str key] [].
Definition demo_entries : list Entry := [e1 "a" "x"; e1 "b" "y"; e1 "c" "z"; e1 "b" "w"].
Definition demo_recs : list journalRec := (upsert_rec <$> demo_entries) ++ [delete_rec ($"a"); delete_rec ($"b")].

Definition store_config : ListConfig :=
  mkListConfig (mkAnalyzerConfig [] [$"lowercase"; $"trim"])
    (mkMatchConfig m_exact [] false [] false (f_of_N 0) 0) [] [] 0.
Definition empty_list : GoList :=
  mkList [] store_config (mkAnalyzer [] []) [] (mkSnapshot None None ∅ []) 0 [] None ∅ false None.
Definition new_list : GoList := match NewList ($"demo") store_config with Ok l => l | Err _ => empty_list end.

#[local] Instance demo_codec : Codec := {|
  marshal_rec := enc demo_recs;
  unmarshal_rec := dec demo_recs;
  marshal_entry := enc demo_entries;
  unmarshal_entry := dec demo_entries;
  unmarshal_config := λ b, if bool_decide (b = m_exact ++ [c_nl]) then Some (l_cfg new_list) else None;
  marshal_rec_line := λ r b H, conj (proj1 (enc_line demo_recs r b H)) (proj1 (proj2 (enc_line demo_recs r b H)));
  marshal_entry_line := enc_line demo_entries;
|}.
#[local] Instance demo_artifact : ArtifactCodec := {|
  save_ngram := λ _ _ _, []; save_exact := λ _ _ _, [];
  load_ngram := λ _, None; load_exact := λ _, None;
|}.

Lemma digest_ne b : sha256 b ≠ [].
Proof. done. Qed.
Lemma new_list_ok : NewList ($"demo") store_config = Ok new_list.
Proof.
  unfold new_list. destruct (NewList _ _) as [l|e] eqn:Hl; [done|].
  assert (is_ok (NewList ($"demo") store_config) = true) as H by (vm_compute; reflexivity). by rewrite Hl in H.
Qed.
Lemma threshold_ok : default_threshold_ok.
Proof. split; vm_compute; reflexivity. Qed.

(** The directory of the created list, and the store's memory. *)
Definition demo_dir : dir := {[configFile := m_exact ++ [c_nl]]}.
Definition demo_mem : memory := mkMemory (mkState (Some (created new_list)) 0 damageNone false) [].
Definition demo_history : list store_mutation :=
  [SUpsert [e1 "a" "x"; e1 "b" "y"]; SDelete ($"a"); SReplace [e1 "c" "z"]; SUpsert [e1 "b" "w"]; SCompact].

Lemma demo_config_stable : stable_config new_list.
Proof.
  unfold stable_config. assert (Mode (Match (l_cfg new_list)) = m_exact) as Hm by (vm_compute; reflexivity).
  change (marshal_config (l_cfg new_list)) with (Mode (Match (l_cfg new_list))). rewrite Hm. done.
Qed.
Lemma demo_synced : synced ($"demo") demo_dir (created new_list) ∧ live_map (created new_list) = ∅.
Proof.
  apply (created_synced ($"demo") store_config); [apply threshold_ok|apply new_list_ok|apply demo_config_stable|done| |done|done].
  vm_compute. reflexivity.
Qed.
Lemma demo_list_ok : list_ok ($"demo") demo_dir demo_mem (created new_list).
Proof. split; [done|]. apply demo_synced. Qed.
Lemma demo_serves : serves ($"demo") demo_dir demo_mem (l_cfg new_list) (l_an new_list) ∅.
Proof. exists (created new_list). split_and!; [apply demo_list_ok|done|done|apply demo_synced]. Qed.

Lemma demo_stable : Forall stable_mutation demo_history.
Proof.
  assert (∀ e, e ∈ demo_entries → stable_entry e) as He by (intros e H; by apply enc_stable).
  assert (∀ r, r ∈ demo_recs → stable_rec r) as Hr by (intros r H; by apply enc_stable).
  repeat constructor; simpl; (apply He || apply Hr); by apply (bool_decide_unpack _); vm_compute.
Qed.
Lemma empty_stable : stable_map ∅.
Proof. intros id e. by rewrite lookup_empty. Qed.

(** ** Histories *)

Definition demo_run (fs : list fault) : outcome store_error (list bool) * world memory :=
  run_history FsyncEvery ($"demo") demo_history (mkWorld demo_dir fs demo_mem).
(** The process dies writing the second upsert's record, after one byte. *)
Definition crash_faults : list fault := replicate 32 Works ++ [Crashes 1].

Lemma history_crash_safe_witness :
  (demo_run []).1 = Ret [true; true; true; true; true] ∧
  (let '(o, w) := demo_run [] in serves ($"demo") (w_dir w) (w_mem w) (l_cfg new_list) (l_an new_list) (acked demo_history [true; true; true; true; true] ∅)) ∧
  (let '(o, w) := demo_run crash_faults in
   o = Dead ∧ w_dir w !! journalFile = Some [100%N] ∧
   history_crash ($"demo") (l_cfg new_list) (l_an new_list) demo_history ∅ (w_dir w)).
Proof.
  pose proof (history_crash_safe digest_ne FsyncEvery ($"demo") demo_history demo_dir demo_mem _ _ ∅
    demo_serves eq_refl demo_stable empty_stable) as H. split; [vm_compute; reflexivity|]. split.
  - specialize (H []). assert ((demo_run []).1 = Ret [true; true; true; true; true]) as Ho by (vm_compute; reflexivity).
    unfold demo_run in *. destruct (run_history _ _ _ _) as [o w]. simpl in Ho. subst o. apply H.
  - specialize (H crash_faults).
    assert ((demo_run crash_faults).1 = Dead ∧ w_dir (demo_run crash_faults).2 !! journalFile = Some [100%N]) as [Ho Hj]
      by (split; vm_compute; reflexivity).
    unfold demo_run in *. destruct (run_history _ _ _ _) as [o w]. simpl in Ho, Hj. subst o. split; [done|]. split; [exact Hj|]. exact H.
Defined.

(** ** Opening *)

(** A journal torn in its third record. *)
Definition torn_dir : dir := <[journalFile := [97; c_nl; 98; c_nl; 99]%N]> demo_dir.

Lemma demo_builds es : es ∈ [[]; [e1 "a" "x"; e1 "b" "y"]] → builds (l_cfg new_list) (l_an new_list) es.
Proof.
  intros [->|[->|[]%elem_of_nil]%elem_of_cons]%elem_of_cons; unfold builds; vm_compute; reflexivity.
Qed.
Lemma torn_reopenable : reopenable ($"demo") torn_dir (l_cfg new_list) (l_an new_list) [] [upsert_rec (e1 "a" "x"); upsert_rec (e1 "b" "y")].
Proof.
  split; [|split].
  - split_and!; [done| |by left|done|exists 4%Z; vm_compute; reflexivity].
    exists (m_exact ++ [c_nl]), (l_cfg new_list). split_and!; [done|vm_compute; reflexivity|].
    apply resolved_fixpoint. destruct (new_list_inv _ _ _ new_list_ok) as (_ & _ & _ & Hr). eapply resolve_ok; [apply threshold_ok|exact Hr].
  - intros _. apply demo_builds. by left.
  - intros b Hb He. unfold overlay_builds. rewrite (replayed_ext b None) by done. right. unfold builds. vm_compute. reflexivity.
Qed.

(** A run without faults, and what a run with faults gave. *)
Lemma runs_demo {A} (m : op A) (Q : A → dir → memory → Prop) d s :
  runs m Q (λ _ _ _, False) d s → ∃ a w, m (mkWorld d [] s) = (Ret a, w) ∧ Q a (w_dir w) (w_mem w).
Proof. unfold runs. destruct (m _) as [[a|e|] w]; [intros [_ H]; by exists a, w|by intros [_ []]|done]. Qed.

Lemma open_recovers_witness :
  ∃ l w, openList ($"demo") (mkWorld torn_dir [] demo_mem) = (Ret l, w) ∧ synced ($"demo") (w_dir w) l ∧
    w_dir w !! journalFile = Some [97; c_nl; 98; c_nl]%N ∧ live_map l = {[ $"a" := e1 "a" "x"; $"b" := e1 "b" "y" ]}.
Proof.
  destruct (runs_demo _ _ _ _ (open_recovers digest_ne _ torn_dir demo_mem _ _ _ _ torn_reopenable))
    as (l & w & Ho & _ & [_ Hj] & _ & _ & Hs & _ & Hm & _).
  exists l, w. split; [exact Ho|]. split; [exact Hs|]. split.
  - unfold journal in Hj. assert (kept torn_dir = [97; c_nl; 98; c_nl]%N) as Hk by (vm_compute; reflexivity). rewrite Hk in Hj.
    by destruct (w_dir w !! journalFile) as [c|]; simpl in Hj; [f_equal|discriminate Hj].
  - rewrite Hm. vm_compute. reflexivity.
Defined.

Lemma open_consistent_witness :
  match openList ($"demo") (mkWorld torn_dir [Fails 0; Works; Works; Works; Fails 0] demo_mem) with
  | (Ret l, w) => synced ($"demo") (w_dir w) l
  | (Fail e, w) => e = Os OtherError ∧ w_mem w = demo_mem
  | (Dead, _) => False
  end.
Proof.
  pose proof (open_consistent digest_ne ($"demo") torn_dir demo_mem eq_refl) as H.
  specialize (H ltac:(done) [Fails 0; Works; Works; Works; Fails 0]).
  assert (match (openList ($"demo") (mkWorld torn_dir [Fails 0; Works; Works; Works; Fails 0] demo_mem)).1 with
          | Fail (Os OtherError) => true | _ => false end = true) as He by (vm_compute; reflexivity).
  destruct (openList _ _) as [o w]. simpl in He. destruct o as [l|e|]; [discriminate| |discriminate].
  split; [|exact H]. by destruct e as [| | | | | | | | | | | | | | |[]].
Defined.

Lemma demo_rebuildable : rebuildable (created new_list).
Proof. intros seg. done. Qed.

Lemma restart_agrees_witness :
  ∃ l w, openList ($"demo") (mkWorld demo_dir [] demo_mem) = (Ret l, w) ∧ version (snap l) = version (snap (created new_list)).
Proof.
  destruct (runs_demo _ _ _ _ (restart_agrees digest_ne ($"demo") demo_dir demo_mem _ (proj1 demo_synced) demo_rebuildable))
    as (l & w & Ho & _ & _ & _ & Hv & _). by exists l, w.
Defined.

(** ** Single operations *)

Lemma mutation_succeeds_witness :
  ∃ w, run_mutation FsyncInterval ($"demo") (SUpsert [e1 "a" "x"]) (mkWorld demo_dir [] demo_mem) = (Ret (), w) ∧
    serves ($"demo") (w_dir w) (w_mem w) (l_cfg new_list) (l_an new_list) {[ $"a" := e1 "a" "x" ]}.
Proof.
  assert (stable_mutation (SUpsert [e1 "a" "x"])) as Hst.
  { split; repeat constructor; apply enc_stable; by left. }
  assert (feasible (SUpsert [e1 "a" "x"]) (created new_list)) as Hf by (split; vm_compute; reflexivity).
  assert (stable_map (live_map (created new_list))) as Hm by (rewrite (proj2 demo_synced); exact empty_stable).
  pose proof (mutation_succeeds digest_ne FsyncInterval ($"demo") _ _ _ _ demo_list_ok eq_refl Hst Hm Hf) as H.
  apply runs_demo in H as ([] & w & Ho & Hs & _). exists w. split; [exact Ho|]. rewrite (proj2 demo_synced) in Hs. exact Hs.
Defined.

(** A failed rollback damages the list, and a compaction repairs it. *)
Definition damaged_mem : memory := on_state (set_damage damageContent) demo_mem.
Lemma damage_contained_witness :
  (∃ w, run_mutation FsyncNone ($"demo") (SDelete ($"a")) (mkWorld demo_dir [] damaged_mem) = (Fail (ListDamaged damageContent), w) ∧
     ls_damage (m_ls (w_mem w)) = damageContent) ∧
  (∃ w, run_mutation FsyncNone ($"demo") SCompact (mkWorld demo_dir [] damaged_mem) = (Ret (), w) ∧
     ls_damage (m_ls (w_mem w)) = damageNone).
Proof.
  assert (list_ok ($"demo") demo_dir damaged_mem (created new_list)) as Hok.
  { split; [done|]. destruct demo_list_ok as [_ (ops & Hi & Hc & _)]. by split. }
  assert (stable_map (live_map (created new_list))) as Hm by (rewrite (proj2 demo_synced); exact empty_stable).
  assert (ls_damage (m_ls damaged_mem) ≠ damageNone) as Hk by done.
  split.
  - assert (stable_mutation (SDelete ($"a"))) as Hst by (apply enc_stable; by apply (bool_decide_unpack _); vm_compute).
    pose proof (damage_contained digest_ne FsyncNone ($"demo") _ _ _ _ Hok Hk Hst Hm []) as H.
    assert ((run_mutation FsyncNone ($"demo") (SDelete ($"a")) (mkWorld demo_dir [] damaged_mem)).1 = Fail (ListDamaged damageContent)) as Ho
      by (vm_compute; reflexivity).
    destruct (run_mutation _ _ _ _) as [o w]. simpl in Ho. subst o. exists w. split; [done|]. destruct H as (_ & H & _). exact H.
  - pose proof (damage_contained digest_ne FsyncNone ($"demo") SCompact _ _ _ Hok Hk I Hm []) as H.
    assert ((run_mutation FsyncNone ($"demo") SCompact (mkWorld demo_dir [] damaged_mem)).1 = Ret ()) as Ho by (vm_compute; reflexivity).
    destruct (run_mutation _ _ _ _) as [o w]. simpl in Ho. subst o. exists w. split; [done|]. apply H.
Defined.

Definition write_config : list fault := replicate 12 Works ++ [Crashes 3].
Lemma create_outcomes_witness :
  match createLocked ($"demo") new_list (mkWorld ∅ [] (mkMemory new_state [])) with
  | (Ret v, w) => synced ($"demo") (w_dir w) (created new_list) ∧ v = version (snap (created new_list))
  | _ => False
  end ∧
  match createLocked ($"demo") new_list (mkWorld demo_dir write_config demo_mem) with
  | (Dead, w) => runs (openList ($"demo")) (λ _ _ _, False) (λ e d2 s2, e = MarkerPresent ∧ d2 = w_dir w ∧ s2 = demo_mem) (w_dir w) demo_mem
  | _ => False
  end.
Proof.
  split.
  - pose proof (create_outcomes ($"demo") store_config new_list ∅ (mkMemory new_state []) threshold_ok new_list_ok demo_config_stable []) as H.
    assert (match (createLocked ($"demo") new_list (mkWorld ∅ [] (mkMemory new_state []))).1 with Ret _ => true | _ => false end = true) as Ho
      by (vm_compute; reflexivity).
    destruct (createLocked _ _ _) as [o w]. simpl in Ho. destruct o as [v|e|]; [|discriminate..].
    destruct H as (_ & _ & Hs & _ & Hv). by split.
  - pose proof (create_outcomes ($"demo") store_config new_list demo_dir demo_mem threshold_ok new_list_ok demo_config_stable write_config) as H.
    assert (match createLocked ($"demo") new_list (mkWorld demo_dir write_config demo_mem) with
            | (Dead, w) => bool_decide (is_Some (w_dir w !! markerFile)) | _ => false end = true) as Ho by (vm_compute; reflexivity).
    destruct (createLocked _ _ _) as [o w]. simpl in H, Ho. destruct o as [v|e|]; [discriminate..|].
    apply bool_decide_eq_true in Ho as [mk Hmk]. destruct H as [Ha|[Hs|H]]; [| |apply H].
    + rewrite <-(Ha markerFile) in Hmk by done. discriminate.
    + destruct Hs as (ops & _ & (_ & _ & _ & Hn & _) & _). congruence.
Defined.

Lemma reload_outcomes_witness :
  match reloadLocked ($"demo") (mkWorld demo_dir [] demo_mem) with
  | (Ret v, w) => ls_id (m_ls (w_mem w)) = 1 ∧ ls_damage (m_ls (w_mem w)) = damageNone
  | _ => False
  end.
Proof.
  assert (clean_head (journal demo_dir)) as Hh by done.
  pose proof (reload_outcomes digest_ne ($"demo") demo_dir demo_mem eq_refl Hh []) as H.
  assert (match (reloadLocked ($"demo") (mkWorld demo_dir [] demo_mem)).1 with Ret _ => true | _ => false end = true) as Ho
    by (vm_compute; reflexivity).
  destruct (reloadLocked _ _) as [o w]. simpl in Ho. destruct o as [v|e|]; [|discriminate..].
  destruct H as (_ & Hid & l & _ & Hk & _). by split.
Defined.

Definition intact : bytes := [97; c_nl]%N.
Definition batch : bytes := [98; c_nl; 101; c_nl]%N.
Definition torn : bytes := intact ++ take 3 batch.
Definition both : list journalRec := [upsert_rec (e1 "a" "x"); upsert_rec (e1 "b" "y")].
Lemma torn_reads : readJournal torn = (both, 4%Z).
Proof. vm_compute. reflexivity. Qed.

Lemma journal_recovers_witness :
  ∃ kept, readJournal torn = (both, 4%Z) ∧ readJournal kept = (both, (-1)%Z) ∧ intact `prefix_of` kept.
Proof.
  assert (readJournal intact = ([upsert_rec (e1 "a" "x")], (-1)%Z)) as H1 by (vm_compute; reflexivity).
  assert (encode_recs [upsert_rec (e1 "b" "y"); delete_rec ($"a")] = Ok batch) as H2 by (vm_compute; reflexivity).
  assert (Forall stable_rec [upsert_rec (e1 "b" "y"); delete_rec ($"a")]) as H3.
  { repeat constructor; apply enc_stable; by apply (bool_decide_unpack _); vm_compute. }
  destruct (journal_recovers intact _ _ batch 3 H1 H2 H3) as (k & t & Hr & _ & Hpre & Hk & _).
  pose proof (eq_trans (eq_sym torn_reads) Hr) as He. assert (t = 4%Z) as -> by exact (f_equal snd (eq_sym He)).
  assert ([upsert_rec (e1 "a" "x")] ++ take k [upsert_rec (e1 "b" "y"); delete_rec ($"a")] = both) as Hb by exact (f_equal fst (eq_sym He)).
  rewrite Hb in Hk. eexists. split; [exact torn_reads|]. split; [exact Hk|exact Hpre].
Defined.

(** ** A marker that cannot be read *)

Definition marked_dir : dir := <[markerFile := [120%N]]> demo_dir.

(** An unreadable marker counts as absent.  The marker of an interrupted create
    makes [openList] refuse the directory; but only a successful [os.Stat] counts as
    its presence, so when that call fails for another reason than absence the
    indeterminate directory opens and is served. *)
Theorem unreadable_marker_opens :
  (openList ($"demo") (mkWorld marked_dir [] demo_mem)).1 = Fail MarkerPresent ∧
  ∃ l, (openList ($"demo") (mkWorld marked_dir [Fails 0] demo_mem)).1 = Ret l.
Proof.
  split.
  - assert (match (openList ($"demo") (mkWorld marked_dir [] demo_mem)).1 with Fail MarkerPresent => true | _ => false end = true) as Ho
      by (vm_compute; reflexivity).
    by destruct (openList _ _) as [[l|[]|] w].
  - assert (match (openList ($"demo") (mkWorld marked_dir [Fails 0] demo_mem)).1 with Ret _ => true | _ => false end = true) as Ho
      by (vm_compute; reflexivity).
    destruct (openList _ _) as [[l|e|] w]; [by exists l|discriminate..].
Qed.

(** * A concrete store of two lists: the theorems of [StoreAllSpec] and [StoreAllOpen]
    applied to a history that dies in its last request, and to a closed store. *)

#[local] Existing Instance default_runtime.
#[local] Existing Instance ascii_text.
#[local] Existing Instance set_bitmap.
#[local] Existing Instance demo_ops.
#[local] Existing Instance store_digest.
#[local] Existing Instance demo_codec.
#[local] Existing Instance demo_artifact.
#[local] Existing Instance entry_dec.
#[local] Existing Instance rec_dec.

(** Two lists are created and written; the process dies in the append of the last
    request. *)
Definition empty_store : StoreAll.Store := fresh_store FsyncEvery ∅.
Definition two_lists : list request :=
  [RCreate ($"a") store_config; RCreate ($"b") store_config; RUpsert ($"b") [e1 "b" "y"]; RUpsert ($"a") [e1 "a" "x"]; RDelete ($"b") ($"b")].
Definition late_crash : list fault := replicate 64 Works ++ [Crashes 1].

Lemma empty_sinv : sinv empty_store.
Proof. split; [done|]. by intros name ls l [=]. Qed.

Lemma demo_requests : Forall client_request two_lists.
Proof.
  assert (∀ n l, NewList n (resolve_preset store_config) = Ok l → stable_config l) as Hc.
  { intros n l Hl. assert (l_cfg l = l_cfg new_list) as Hcfg.
    { unfold NewList in Hl. apply bind_ok in Hl as ([c an] & Hr & [= <-]). simpl.
      assert (resolve_preset store_config = store_config) as He by (vm_compute; reflexivity). rewrite He in Hr.
      destruct (new_list_inv _ _ _ new_list_ok) as (_ & _ & _ & Hr'). rewrite Hr in Hr'. by injection Hr' as ->. }
    unfold stable_config. rewrite Hcfg. apply demo_config_stable. }
  assert (∀ e, e ∈ demo_entries → stable_entry e) as He by (intros e H; by apply enc_stable).
  assert (∀ r, r ∈ demo_recs → stable_rec r) as Hr by (intros r H; by apply enc_stable).
  assert (∀ n i k, e1 i k ∈ demo_entries → upsert_rec (e1 i k) ∈ demo_recs → client_request (RUpsert n [e1 i k])) as Hu.
  { intros n i k H1 H2. split; apply Forall_singleton; auto. }
  unfold two_lists. rewrite !Forall_cons, Forall_nil. split_and!; try exact (Hc _); try apply Hu; try apply Hr; try exact I;
    by apply (bool_decide_unpack _); vm_compute.
Qed.

Definition all_acked : list bool := [true; true; true; true; true].

(** Names and paths: a name of one component lies below the directory, another may
    lead to the directory of a second list. *)
Example list_paths :
  listPath ($"/data/") ($"a") = $"/data/a" ∧ listPath ($"./x/../data") ($"b") = $"data/b" ∧
  listPath ($"/data") ($"a/../b") = $"/data/b" ∧ listPath [] ($"..") = $"..".
Proof. split_and!; vm_compute; reflexivity. Qed.

Definition evil_create : call := Versioned (RCreate ($"a/../b") store_config).
Lemma store_isolated_witness :
  (serve_call evil_create (empty_store, [])).1 = Fail (BadName ($"a/../b")) ∧
  (let st' := (serve_call (Versioned (RCreate ($"b") store_config)) (empty_store, [])).2.1 in
   is_Some (st_dirs st' !! ($"b")) ∧ ∀ p d, holds ($"/data") (st_dirs st') p d → p = $"/data/b").
Proof.
  assert (names_ok empty_store) as Hn by (split; intros n [x Hx]; discriminate Hx).
  split; [vm_compute; reflexivity|]. cbv zeta.
  pose proof (store_isolated ($"/data") (Versioned (RCreate ($"b") store_config)) empty_store Hn []) as H.
  assert (bool_decide (is_Some (st_dirs (serve_call (Versioned (RCreate ($"b") store_config)) (empty_store, [])).2.1 !! ($"b"))) = true)
    as Hs by (vm_compute; reflexivity).
  assert (match (serve_call (Versioned (RCreate ($"b") store_config)) (empty_store, [])).1 with Ret _ => true | _ => false end = true)
    as Ho by (vm_compute; reflexivity).
  destruct (serve_call _ _) as [[a|e|] [st' fs]]; [|discriminate Ho..]. destruct H as [(_ & _ & Hp) _].
  apply bool_decide_eq_true in Hs. split; [exact Hs|]. intros p d Hd. destruct (decide (p = $"/data/b")) as [|Hne]; [done|].
  apply Hp in Hd as (n & Hx & _); [discriminate Hx|]. intros t [= <-] ->. apply Hne. vm_compute. reflexivity.
Defined.

Definition server_calls : list call := Plain (RFold ($"a") 1) :: (Plain <$> two_lists) ++ (Versioned <$> two_lists).
Lemma closed_store_inert_witness :
  ∃ st', serve_calls server_calls (set_closed empty_store, late_crash) =
    (Ret (true :: replicate 10 false), (st', late_crash)) ∧ st_dirs st' = ∅.
Proof.
  destruct (closed_store_inert server_calls (set_closed empty_store) late_crash (or_intror eq_refl)) as (st' & Hr & Hd & _).
  exists st'. split; [exact Hr|exact Hd].
Defined.
