(* ===== verification/ArtifactDemo.v ===== *)
(** Concrete index caches: the theorems of [ArtifactSpec] applied to a small index
    of each kind, with a simple bitmap encoding and headers by table. *)

From S2P Require Import Prelude.
From S2P Require Import Runtime.
From S2P Require Import Score.
From S2P Require Import Bitmap.
From S2P Require Import Grams.
From S2P Require Import Journal.
From S2P Require Import Disk.
From S2P Require Import Store.
From S2P Require Import Artifact.
From S2P Require Import ArtifactSpec.
From S2P Require Ngram.
From S2P Require Exact.

#[local] Existing Instance default_runtime.
#[local] Existing Instance set_bitmap.
#[local] Instance demo_floats : FloatOps := exact_ops id.

(** Ordinals, each marked, and a zero. *)
Fixpoint mark (l : list N) : bytes := match l with [] => [0%N] | x :: l => 1%N :: x :: mark l end.
Fixpoint unmark (input : bytes) : option (list N * bytes) :=
  match input with
  | 0%N :: rest => Some ([], rest)
  | 1%N :: x :: rest => '(l, rest) ← unmark rest; Some (x :: l, rest)
  | _ => None
  end.
Lemma unmark_mark l rest : unmark (mark l ++ rest) = Some (l, rest).
Proof. induction l as [|x l IH]; [done|]. simpl. by rewrite IH. Qed.

Definition set_write (b : SetBitmap) : bytes := replicate 8 0%N ++ mark (proj1_sig b).
Definition set_read (input : bytes) : option (SetBitmap * bytes) :=
  '(l, rest) ← unmark (drop 8 input);
  match decide (asc_ok l) with left H => Some (l ↾ H, rest) | right _ => None end.

Definition demo_grams : Ngram.Index :=
  Ngram.mkIndex (Ngram.mkConfig [2; 3]%Z false) {[ $"ab" := bm_add (bm_add bm_new 0) 1; $"cd" := bm_add bm_new 1 ]} 2.
Definition demo_build : artifactBuild := mkArtifactBuild ($"base") 2 0 0.
Definition demo_exact : option Exact.Index :=
  b ← Exact.add_all [(0%N, [$"a"; $"bc"]); (1%N, [$"a"])] Exact.NewBuilder;
  match (Exact.Finish b).1 with Ok i => Some i | Err _ => None end.

Definition demo_meta : meta := idx_meta demo_grams ($"digest") demo_build.
Definition demo_exact_meta : exactMeta := mkExactMeta 2 3 3 ($"digest") (Some demo_build).

#[local] Program Instance demo_lib : ArtifactLib := {|
  bm_write := set_write;
  bm_read := set_read;
  marshal_meta := λ _, $"meta";
  unmarshal_meta := λ b, if bool_decide (b = $"meta") then Some demo_meta else None;
  marshal_exactMeta := λ _, $"exact";
  unmarshal_exactMeta := λ b, if bool_decide (b = $"exact") then Some demo_exact_meta else None;
|}.
Next Obligation.
  intros [l Hl] rest _. unfold set_read, set_write. exists (l ↾ Hl). split; [|split; done]. rewrite <-app_assoc.
  change (drop 8 (replicate 8 0%N ++ ?x)) with x. cbn [proj1_sig]. change (drop 8 (replicate 8 0%N ++ mark l ++ rest)) with (mark l ++ rest).
  rewrite unmark_mark. simpl. destruct (decide (asc_ok l)) as [H|]; [|done]. do 3 f_equal. apply proof_irrel.
Qed.
Next Obligation. intros [l Hl]. unfold set_write. rewrite length_app. simpl. lia. Qed.

Lemma artifact_ngram_roundtrip_witness :
  ∃ ps', Load (Save demo_grams ($"digest") demo_build) = Ok (Ngram.mkIndex (Ngram.cfg demo_grams) ps' 2, $"digest", Some demo_build) ∧
    Ngram.posted ps' ($"ab") = [0; 1]%N.
Proof.
  destruct (artifact_ngram_roundtrip demo_grams ($"digest") demo_build) as (ps' & Hl & _ & Hp).
  - split_and!; [done|done|by apply (bool_decide_unpack _); vm_compute].
  - done.
  - by apply (bool_decide_unpack _); vm_compute.
  - split; [by intros ???|]. intros g x. unfold Ngram.posted, demo_grams. simpl. destruct (decide (g = $"ab")) as [->|Hab].
    { rewrite lookup_insert_eq. change (x ∈ [0%N; 1%N] → (x < 2)%N). set_solver by lia. }
    rewrite lookup_insert_ne by done. destruct (decide (g = $"cd")) as [->|Hcd].
    { rewrite lookup_singleton_eq. change (x ∈ [1%N] → (x < 2)%N). set_solver by lia. }
    rewrite lookup_singleton_ne by done. simpl. by intros ?%elem_of_nil.
  - by apply (bool_decide_unpack _); vm_compute.
  - intros g Hg. assert (g = $"ab" ∨ g = $"cd") as [->| ->]; [|split; [done|by apply (bool_decide_unpack _); vm_compute]..].
    unfold demo_grams in Hg. simpl in Hg. rewrite lookup_insert_is_Some in Hg. destruct Hg as [<-|[_ [y Hy%lookup_singleton_Some]]]; [by left|].
    right. by destruct Hy.
  - exists ps'. split; [exact Hl|]. rewrite Hp. done.
Defined.

Definition demo_adds : list (N * list bytes) := [(0%N, [$"a"; $"bc"]); (1%N, [$"a"])].
Definition demo_index : Exact.Index := default (Exact.mkIndex ∅ [] [] 0) demo_exact.

Lemma demo_entries : exact_entries demo_index = [($"a", [0; 1]%N); ($"bc", [0]%N)].
Proof. vm_compute. reflexivity. Qed.
Lemma demo_lookup k : ∃ run, Exact.Lookup demo_index k = Some run ∧ ∀ o, o ∈ run → (o < Exact.NumOrds demo_index)%N.
Proof.
  assert (StronglySorted N.lt demo_adds.*1) as Hs by (repeat constructor).
  destruct (Exact.finish_adds demo_adds Hs) as (b & Hb & _ & Hf). unfold demo_index, demo_exact. fold demo_adds. rewrite Hb.
  cbn [mbind option_bind]. assert (is_ok (Exact.Finish b).1 = true) as Hok.
  { assert (match Exact.add_all demo_adds Exact.NewBuilder with Some b => is_ok (Exact.Finish b).1 | None => false end = true) as H
      by (vm_compute; reflexivity). by rewrite Hb in H. }
  destruct (Exact.Finish b).1 as [idx|]; [|done]. destruct Hf as (Hl & _ & Ho & _). exists (Exact.holders demo_adds k).
  split; [apply Hl|]. intros o Hin. by apply (Ho k).
Qed.
Lemma demo_exact_ok : exact_ok demo_index.
Proof.
  unfold exact_ok. rewrite demo_entries. split_and!.
  - split_and!; [by apply (bool_decide_unpack _); vm_compute| |].
    + intros k p Hin. rewrite !elem_of_cons, elem_of_nil in Hin. destruct Hin as [[= -> ->]|[[= -> ->]|[]]];
        split_and!; try done; by apply (bool_decide_unpack _); vm_compute.
    + intros l1 e l2 He. assert (length (concat l1.*2) ≤ 3) as Hle.
      { assert (length (concat l1.*2) ≤ length (concat ([($"a", [0; 1]%N); ($"bc", [0]%N)] : list (bytes * list N)).*2)) as H; [|exact H].
        rewrite He, fmap_app, concat_app, length_app. lia. }
      change Exact.maxOff with (2 ^ 44 - 1)%N. lia.
  - intros k. destruct (demo_lookup k) as (run & -> & _). by eexists.
  - intros k o. unfold run_of. destruct (demo_lookup k) as (run & -> & Ho). apply Ho.
  - vm_compute. reflexivity.
  - vm_compute. reflexivity.
  - vm_compute. reflexivity.
Qed.

Lemma artifact_exact_roundtrip_witness :
  ∃ idx, LoadExact (SaveExact demo_index ($"digest") demo_build) = Ok (idx, $"digest", Some demo_build) ∧
    Exact.Lookup idx ($"a") = Some [0; 1]%N.
Proof.
  assert (exact_meta demo_index ($"digest") demo_build = demo_exact_meta) as Hm by (vm_compute; reflexivity).
  destruct (artifact_exact_roundtrip demo_index ($"digest") demo_build) as (idx & Hl & Hk).
  - split_and!; [by rewrite Hm|done|by apply (bool_decide_unpack _); vm_compute].
  - exact demo_exact_ok.
  - by apply (bool_decide_unpack _); vm_compute.
  - exists idx. split; [exact Hl|]. rewrite Hk. vm_compute. reflexivity.
Defined.

Lemma artifact_load_safe_witness :
  match Load (Save demo_grams ($"digest") demo_build) with
  | Ok (i, _, _) => Ngram.well_formed i ∧ Ngram.numOrds i = 2%N
  | Err _ => False
  end.
Proof.
  assert (match Load (Save demo_grams ($"digest") demo_build) with Ok (i, _, _) => (Ngram.numOrds i =? 2)%N | Err _ => false end = true) as H
    by (vm_compute; reflexivity).
  destruct (Load _) as [[[i digest] build]|] eqn:Hl; [|discriminate]. apply N.eqb_eq in H.
  destruct (proj1 (artifact_load_safe (Save demo_grams ($"digest") demo_build)) i digest build Hl) as (_ & _ & Hwf & _). split; [|done]. apply Hwf. by intros ???.
Defined.
