(* ===== verification/LifecycleDemo.v ===== *)
(** Concrete runs of [Lifecycle]: a store in the interval mode with two upserts and a
    deletion batch that does not pass, whose group commits, background fold and close
    interleave; the witnesses of its theorems. *)

From S2P Require Import Prelude.
From S2P Require Import Store.
From S2P Require Import Lifecycle.
From S2P Require Import LifecycleInv.
From S2P Require Import LifecycleSpec.

Definition la : bytes := [97]%N.
Definition lb : bytes := [98]%N.
Definition demo_reqs : gmap tid request :=
  {[ 0 := Mutate la true [41; 42]%N (Some 2); 1 := Mutate la true [53]%N None; 2 := Mutate lb false [54]%N None ]}.
Definition demo_init : state := init ∅ (call_of FsyncInterval <$> demo_reqs) {[ 0; 1 ]}.

(** The first upsert of [la], with its group commit, up to the release of its lock;
    the second is admitted and waits for the lock. *)
Definition first_half : list act :=
  [Begin 0; Begin 1; Begin 2; Lock 0; Lock 2; End 2; Step 0 true 0; Step 0 true 0; Step 0 true 0; Step 0 true 0; Step 0 true 0;
   Send 0; Fire; Flush la true; Flushed; Answer 0; Spawn 0 3].
(** The second upsert runs while a [Close] drains; the fold is refused; a failed flush
    rolls the second upsert back; a second [Close] waits for the first. *)
Definition second_half : list act :=
  [Unlock 0; End 0; Lock 1; Step 1 true 0; Wake 3 true; CloseStep 0; CloseStep 1; Begin 3; Clear 3; End 3;
   Step 1 true 0; Step 1 true 0; Step 1 true 0; Step 1 true 0; Send 1; Fire; Flush la false; Flushed; Answer 1; Step 1 true 0;
   Unlock 1; End 1; CloseStep 0; StopSignal; Flushed; CloseStep 0; CloseStep 1].

Definition after (acts : list act) : state := default demo_init (run acts demo_init).

Lemma after_reachable acts : is_Some (run acts demo_init) →
  reachable ∅ (call_of FsyncInterval <$> demo_reqs) {[ 0; 1 ]} (after acts).
Proof. intros [s Hs]. unfold after. rewrite Hs. by eapply run_reachable. Qed.

(** The journal after each half: the records of the first upsert, synced; those of the
    second are rolled back. *)
Example first_half_file : j_data (file (after first_half) la) = [41; 42]%N ∧
  j_synced (file (after first_half) la) = [41; 42]%N.
Proof. vm_compute. done. Qed.
Example second_half_rest : s_ops (after (first_half ++ second_half)) = 0 ∧
  j_data (file (after (first_half ++ second_half)) la) = [41; 42]%N ∧ s_done (after (first_half ++ second_half)) = true.
Proof. vm_compute. done. Qed.

Lemma first_half_runs : is_Some (run first_half demo_init).
Proof. vm_compute. by eexists. Qed.
Lemma second_half_runs : is_Some (run (first_half ++ second_half) demo_init).
Proof. vm_compute. by eexists. Qed.

Lemma store_comes_to_rest_witness :
  (∀ n s', nsteps step n (after first_half) s' → n ≤ measure (after first_half)) ∧
  ∀ s', rtc step (after first_half) s' → nf step s' → finished s'.
Proof. apply (store_comes_to_rest ∅ (call_of FsyncInterval <$> demo_reqs) {[ 0; 1 ]}), after_reachable, first_half_runs. Defined.

Lemma one_writer_one_fold_witness :
  (has holds la (s_threads (after first_half)) 0 → has holds la (s_threads (after first_half)) 1 → 0 = 1) ∧
  (has folding la (s_threads (after first_half)) 3 → has folding la (s_threads (after first_half)) 1 → 3 = 1) ∧
  s_ops (after first_half) = 3.
Proof.
  pose proof (one_writer_one_fold ∅ (call_of FsyncInterval <$> demo_reqs) {[ 0; 1 ]} (after first_half) la) as H.
  split; [|split; [|vm_compute; done]]; apply H, after_reachable, first_half_runs.
Defined.

Lemma close_releases_witness : released (after (first_half ++ second_half)) ∧
  ∀ s', rtc step (after (first_half ++ second_half)) s' → s_files s' = s_files (after (first_half ++ second_half)) ∧ released s'.
Proof.
  apply (close_releases ∅ (call_of FsyncInterval <$> demo_reqs) {[ 0; 1 ]} _ 1); [apply after_reachable, second_half_runs|].
  vm_compute. reflexivity.
Defined.

Lemma acked_durable_witness : acked FsyncInterval (Mutate la true [41; 42]%N (Some 2)) (file (after first_half) la).
Proof.
  destruct (s_threads (after first_half) !! 0) as [th|] eqn:Ht; [|exfalso; vm_compute in Ht; done].
  assert (t_call th = call_of FsyncInterval (Mutate la true [41; 42]%N (Some 2)) ∧ t_pc th = Running (Done true)) as [Hc Hp].
  { vm_compute in Ht. injection Ht as <-. split; vm_compute; reflexivity. }
  replace la with (c_list (t_call th)) at 2 by (rewrite Hc; reflexivity).
  exact (acked_durable FsyncInterval ∅ demo_reqs {[ 0; 1 ]} _ 0 th _ (after_reachable _ first_half_runs) Ht Hc Hp).
Defined.

(** A body that only appends, with the postcondition that its bytes end the journal. *)
Definition note_call : call := mkCall la true (Call (Append [55]%N) Done).
Definition note_post (c : call) (ok : bool) (f : jfile) : Prop := ok = true → ∃ pre, j_data f = pre ++ [55]%N.
Definition note_state : state := default demo_init (run [Begin 0; Lock 0; Step 0 true 0] (init ∅ {[ 0 := note_call ]} {[ 0 ]})).
Lemma sequential_under_lock_witness : note_post note_call true (file note_state la).
Proof.
  apply (sequential_under_lock note_post ∅ {[ 0 := note_call ]} {[ 0 ]} note_state 0
    (mkThread false note_call (Running (Done true))) true).
  - intros t c [_ <-]%lookup_singleton_Some g. intros [] n; [|done]. intros _. by eexists.
  - apply (run_reachable _ _ _ [Begin 0; Lock 0; Step 0 true 0]). vm_compute. reflexivity.
  - vm_compute. reflexivity.
  - reflexivity.
Defined.
