(* ===== verification/ListDemo.v ===== *)
(** Concrete lists: the theorems of [ListRefine] and [Stamp] applied to an
    exact-mode list with two entries, an upsert, a delete and a journal. *)

From S2P Require Import Prelude.
From S2P Require Import Runtime.
From S2P Require Import Analyzer.
From S2P Require Import Score.
From S2P Require Import Bitmap.
From S2P Require Import Types.
From S2P Require Import ListConfig.
From S2P Require Import Segment.
From S2P Require Import ListModel.
From S2P Require Import ListRefine.
From S2P Require Import Stamp.

#[local] Existing Instance default_runtime.
#[local] Existing Instance ascii_text.
#[local] Existing Instance set_bitmap.
#[local] Instance demo_ops : FloatOps := exact_ops id.
#[local] Existing Instance demo_digest.

Definition exact_config : ListConfig :=
  mkListConfig (mkAnalyzerConfig ($"identifier") [])
    (mkMatchConfig m_exact [] false [] false (f_of_N 0) 0) [] [] 0.
Definition entry (id key : string) : Entry := mkEntry (str id) [str key] [].
Definition fresh : result config_error GoList := NewList ($"demo") exact_config.

Definition demo_ops_list : list list_mutation :=
  [MReplace [entry "a" "x"; entry "b" "y"; entry "a" "z"]; MUpsert [entry "b" "w"; entry "c" "v"];
   MReplaceWithExactIndex [] None; MDelete ($"a"); MCompact].
Definition demo_journal : list journalRec :=
  [mkRec op_upsert (Some (entry "b" "q")) []; mkRec op_delete None ($"a"); mkRec ($"noop") None [];
   mkRec op_upsert (Some (entry "d" "p")) []].

Lemma fresh_ok : ∃ l, fresh = Ok l.
Proof. assert (is_ok fresh = true) as H by (vm_compute; reflexivity). destruct fresh as [l|]; [by exists l|done]. Qed.

(** A list after some operations, if it was created. *)
Definition after (os : list list_mutation) : option GoList :=
  match fresh with Ok l => Some (run_ops os l).2 | Err _ => None end.

Lemma after_inv os l : after os = Some l → inv l ∧ readOnly l = false.
Proof.
  unfold after. destruct fresh as [l0|] eqn:Hf; [|done]. intros [= <-].
  destruct (new_list_inv _ _ _ Hf) as (Hi & _ & Hr & _). pose proof (run_ops_refine os l0 Hi) as H.
  destruct (run_ops os l0) as [rs l]. destruct H as (_ & Hi' & _ & _ & Hr' & _). by rewrite <-Hr.
Qed.

Lemma after_some os : after os ≠ None.
Proof. unfold after. by destruct fresh_ok as [l ->]. Qed.

Lemma list_refines_map_witness :
  match fresh with
  | Ok l0 =>
      is_ok <$> (run_ops demo_ops_list l0).1 = [true; true; false; true; true] ∧
      ID <$> LiveEntries (run_ops demo_ops_list l0).2 = [$"b"; $"c"] ∧
      live_map (run_ops demo_ops_list l0).2 =
        foldl spec_step ∅ (zip demo_ops_list (run_ops demo_ops_list l0).1)
  | Err _ => False
  end.
Proof.
  destruct fresh as [l0|e] eqn:Hf; [|by destruct fresh_ok as [l Hl]; rewrite Hl in Hf].
  pose proof (list_refines_map ($"demo") exact_config demo_ops_list l0 Hf) as H.
  assert (∀ l, fresh = Ok l → is_ok <$> (run_ops demo_ops_list l).1 = [true; true; false; true; true] ∧
    ID <$> LiveEntries (run_ops demo_ops_list l).2 = [$"b"; $"c"]) as Hrun.
  { assert (match fresh with Ok l => is_ok <$> (run_ops demo_ops_list l).1 | Err _ => [] end =
      [true; true; false; true; true]) as H1 by (vm_compute; reflexivity).
    assert (match fresh with Ok l => ID <$> LiveEntries (run_ops demo_ops_list l).2 | Err _ => [] end =
      [$"b"; $"c"]) as H2 by (vm_compute; reflexivity).
    intros l Hl. by rewrite Hl in H1, H2. }
  destruct (Hrun l0 Hf) as [H1 H2]. split; [exact H1|]. split; [exact H2|].
  destruct (run_ops demo_ops_list l0) as [rs l]. apply H.
Defined.

(** The list as a prepared artifact would serve it, without a refusal counter. *)
Definition frozen (l : GoList) : GoList :=
  mkList (l_name l) (l_cfg l) (l_an l) (cfgDigest l) (snap l) (gen l) (baseID l) (jhash l) (overlaySrc l) true None.

Lemma mutation_errors_inert_witness :
  match after [MReplace [entry "a" "x"]] with
  | Some l => (∃ e, (run_op (MReplaceWithIndex [] None) l).1 = Err e) ∧ (run_op (MReplaceWithIndex [] None) l).2 = l ∧
              (run_op MCompact (frozen l)).2 = frozen l
  | None => False
  end.
Proof.
  destruct (after [MReplace [entry "a" "x"]]) as [l|] eqn:Hl; [|by apply after_some in Hl].
  destruct (after_inv _ _ Hl) as [Hi Hr].
  pose proof (mutation_errors_inert (MReplaceWithIndex [] None) l Hi) as H.
  assert ((run_op MCompact (frozen l)).2 = frozen l) as Hz.
  { pose proof (mutation_errors_inert MCompact (frozen l) Hi) as Hf.
    destruct (run_op MCompact (frozen l)) as [rf lf]. exact (proj1 (proj2 Hf) eq_refl eq_refl). }
  assert (match after [MReplace [entry "a" "x"]] with
          | Some l => is_ok (run_op (MReplaceWithIndex [] None) l).1 | None => true end = false) as He
    by (vm_compute; reflexivity).
  rewrite Hl in He. destruct (run_op _ l) as [[r|e] l']; simpl in *; [discriminate|].
  split; [by exists e|]. split; [destruct (proj1 H e eq_refl) as [->|[Hro _]]; [reflexivity|congruence]|].
  exact Hz.
Defined.

Lemma journal_replay_sequential_witness :
  match after [MReplace [entry "a" "x"; entry "b" "y"]] with
  | Some l => ∃ l2, applyJournalLocked demo_journal 120 l = (Ok (), l2) ∧ tombstones (snap l2) = {[$"a"; $"b"]} ∧
              gen l2 = u64 (gen l + 1)
  | None => False
  end.
Proof.
  destruct (after [MReplace [entry "a" "x"; entry "b" "y"]]) as [l|] eqn:Hl; [|by apply after_some in Hl].
  destruct (after_inv _ _ Hl) as [Hi Hr].
  assert (match after [MReplace [entry "a" "x"; entry "b" "y"]] with
          | Some l => let r := replay_each demo_journal l in
                      is_ok r.1 && bool_decide (tombstones (snap r.2) = {[$"a"; $"b"]})
          | None => false end = true) as He by (vm_compute; reflexivity).
  rewrite Hl in He. destruct (replay_each demo_journal l) as [[[]|e] l1] eqn:Hrun; [|discriminate].
  destruct (journal_replay_sequential demo_journal 120 l l1 Hi Hr Hrun) as (l2 & H2 & _ & _ & Ht & _ & Hg).
  exists l2. split; [exact H2|]. split; [|exact Hg]. rewrite Ht. by apply bool_decide_eq_true in He.
Defined.

Lemma compact_spec_witness :
  match after [MReplace [entry "b" "y"; entry "a" "x"]; MUpsert [entry "c" "v"]; MDelete ($"b")] with
  | Some l => ID <$> LiveEntries (run_op MCompact l).2 = [$"a"; $"c"] ∧
              tombstones (snap (run_op MCompact l).2) = ∅ ∧
              Version (run_op (MFold ($"id")) l).2 = $"id@2+j0+c" ++ cfgDigest l
  | None => False
  end.
Proof.
  set (os := [MReplace [entry "b" "y"; entry "a" "x"]; MUpsert [entry "c" "v"]; MDelete ($"b")]).
  destruct (after os) as [l|] eqn:Hl; [|by apply after_some in Hl].
  destruct (after_inv _ _ Hl) as [Hi Hr].
  assert (match after os with
          | Some l => (is_ok (run_op MCompact l).1, is_ok (run_op (MFold ($"id")) l).1, ID <$> LiveEntries l)
          | None => (false, false, []) end = (true, true, [$"a"; $"c"])) as He by (vm_compute; reflexivity).
  rewrite Hl in He. destruct (run_op MCompact l) as [[[]|e] l1] eqn:H1; [|discriminate].
  destruct (run_op (MFold ($"id")) l) as [[[]|e] l2] eqn:H2; [|discriminate].
  destruct (proj1 (compact_spec [] l l1 Hi Hr) H1) as (Hlive & _ & _ & Ht & _).
  destruct (proj2 (compact_spec ($"id") l l2 Hi Hr) H2) as (_ & _ & _ & _ & _ & Hv).
  assert (ID <$> LiveEntries l = [$"a"; $"c"]) as Hids by congruence.
  cbn [snd]. split_and!; [by rewrite Hlive|done|]. rewrite Hv. unfold len_d.
  rewrite <-(length_fmap ID), Hids. reflexivity.
Defined.

Lemma counters_live_witness :
  match after [MReplace [entry "b" "y"; entry "a" "x"]; MUpsert [entry "c" "v"]; MDelete ($"b")] with
  | Some l => Stats l = (2, 1, 1)%Z ∧ KeyCount l = sum_Z raw_keys (LiveEntries l)
  | None => False
  end.
Proof.
  set (os := [MReplace [entry "b" "y"; entry "a" "x"]; MUpsert [entry "c" "v"]; MDelete ($"b")]).
  destruct (after os) as [l|] eqn:Hl; [|by apply after_some in Hl]. destruct (after_inv _ _ Hl) as [Hi Hr].
  assert (match after os with
          | Some l => (Stats l, length (base_entries (base (snap l)))) | None => (0, 0, 0, 0%nat)%Z end
          = (2, 1, 1, 2%nat)%Z) as He by (vm_compute; reflexivity).
  rewrite Hl in He. assert (Stats l = (2, 1, 1)%Z) as Hs by congruence.
  assert (length (base_entries (base (snap l))) = 2) as Hn by congruence. split; [exact Hs|].
  apply (counters_live l Hi). rewrite Hn. vm_compute. discriminate.
Defined.

Lemma stamp_identifies_content_witness :
  match after [MReplace [entry "b" "y"]; MSetBaseID ($"f00d")] with
  | Some l =>
      let l1 := setJournalHash (Some ($"one")) l in
      let b := mkOverlay ∅ ∅ None in
      overlay_stamp l1 b 12 ≠ overlay_stamp l1 b 1
  | None => False
  end.
Proof.
  destruct (after [MReplace [entry "b" "y"]; MSetBaseID ($"f00d")]) as [l|] eqn:Hl; [|by apply after_some in Hl].
  intros l1 b H. assert (match after [MReplace [entry "b" "y"]; MSetBaseID ($"f00d")] with
    | Some l => baseID l | None => [] end = $"f00d") as Hb by (vm_compute; reflexivity).
  rewrite Hl in Hb. assert (store_managed l1 ($"one")) as Hm.
  { unfold store_managed, l1. simpl. rewrite Hb. split_and!; [done| |done].
    intros Hin. by repeat (apply elem_of_cons in Hin as [?|Hin]; [discriminate|]); apply elem_of_nil in Hin. }
  apply (stamp_identifies_content l1 l1 b b 12 1 _ _ Hm Hm) in H as (_ & _ & Hp & _); [discriminate|done|done].
Defined.

Lemma build_segment_spec_witness :
  match fresh with
  | Ok l =>
      match buildSegment (mode_of l) (l_an l) [entry "a" "x"; entry "b" "x"] with
      | Ok seg => ∃ x run, ex seg = Some x ∧ Exact.Lookup x ($"x") = Some run ∧ (0%N ∈ run ∧ 1%N ∈ run)
      | Err _ => False
      end
  | Err _ => False
  end.
Proof.
  assert (match fresh with
    | Ok l => match buildSegment (mode_of l) (l_an l) [entry "a" "x"; entry "b" "x"] with
              | Ok seg => bool_decide (is_Some (ex seg)) && bool_decide (Normalize (l_an l) ($"x") = $"x") | Err _ => false end
    | Err _ => false end = true) as Hrun by (vm_compute; reflexivity).
  destruct fresh as [l|] eqn:Hl; [|discriminate]. destruct (new_list_inv _ _ _ Hl) as (_ & _ & _ & Hr).
  apply resolve_ok in Hr as (_ & _ & Hm & _); [|by split; vm_compute].
  pose proof (build_segment_spec (mode_of l) (l_an l) [entry "a" "x"; entry "b" "x"] Hm) as H.
  destruct (buildSegment _ _ _) as [seg|e]; [|discriminate]. apply andb_true_iff in Hrun as [Hx Hn].
  apply bool_decide_eq_true_1 in Hx as [x Hx], Hn.
  destruct H as (_ & _ & _ & _ & Hex & _); [reflexivity|apply NoDup_cons; split; [vm_compute; by intros ?%list_elem_of_singleton|apply NoDup_singleton]|].
  destruct (Hex x ($"x") Hx) as (run & Hrun & _ & Hin). exists x, run. split; [exact Hx|]. split; [exact Hrun|].
  rewrite !Hin. split; (split; [discriminate|]); eexists; (split; [reflexivity|]);
    apply list_elem_of_singleton; symmetry; exact Hn.
Defined.
