(* ===== verification/QueryDemo.v ===== *)
(** Concrete queries: the theorems of [QuerySpec], [QueryExact],
    [AnyOfSpec] and [PrepareSpec] applied to an
    exact-mode list of domains with parent fallback, and the panic of an
    exact-mode list whose configuration carries a negative gram size. *)

From S2P Require Import Prelude.
From S2P Require Import Runtime.
From S2P Require Import Analyzer.
From S2P Require Import Score.
From S2P Require Import Bitmap.
From S2P Require Import Types.
From S2P Require Import ListConfig.
From S2P Require Import Segment.
From S2P Require Import ListModel.
From S2P Require Import ListRefine.
From S2P Require Import Query.
From S2P Require Import QuerySpec.
From S2P Require Import QueryExact.
From S2P Require Import Heap.
From S2P Require Import AnyOf.
From S2P Require Import AnyOfSpec.
From S2P Require Import Prepare.
From S2P Require Import PrepareSpec.
From S2P Require Import ListDemo.

#[local] Existing Instance default_runtime.
#[local] Existing Instance ascii_text.
#[local] Existing Instance set_bitmap.
#[local] Existing Instance demo_ops.
#[local] Existing Instance demo_digest.

Definition domain_config (grams : list Z) : ListConfig :=
  mkListConfig (mkAnalyzerConfig ($"identifier") [])
    (mkMatchConfig m_exact parent_domain false grams false (f_of_N 0) 0) [] [] 0.
Definition domain_ops : list list_mutation :=
  [MReplace [entry "a" "example.com"; entry "b" "other.org"; entry "c" "example.com"];
   MUpsert [entry "d" "sub.example.com"; entry "c" "gone.net"]].
Definition domain_list (grams : list Z) : option GoList :=
  match NewList ($"domains") (domain_config grams) with
  | Ok l => Some (run_ops domain_ops l).2
  | Err _ => None
  end.

Definition domain_query : bytes := $"www.deep.example.com".
Definition default_opts : QueryOpts := mkOpts (f_of_N 0) 0.

(** The demo lists satisfy the hypotheses of the theorems. *)
Lemma domain_list_ok : ∃ l, domain_list [] = Some l ∧ inv l ∧ seg_built l ∧ sizes_ok (mode_of l) = true ∧
  Mode (mode_of l) = m_exact ∧ (effectiveTopK l default_opts <= 0)%Z.
Proof.
  assert (is_ok (NewList ($"domains") (domain_config [])) = true) as Hok by (vm_compute; reflexivity).
  assert (match domain_list [] with
    | Some l => sizes_ok (mode_of l) && bool_decide (Mode (mode_of l) = m_exact) && (effectiveTopK l default_opts <=? 0)%Z &&
        (length (from_option entries [] (base (snap l))) <=? 3) && (length (from_option entries [] (overlay (snap l))) <=? 2)
    | None => false end = true) as Hc by (vm_compute; reflexivity).
  unfold domain_list in *. destruct (NewList _ _) as [l0|] eqn:Hl0; [|discriminate].
  destruct (new_list_inv _ _ _ Hl0) as (Hi & _ & _ & Hr). apply resolve_ok in Hr as (_ & _ & Hmatch & _);
    [|by split; vm_compute].
  pose proof (run_ops_refine domain_ops l0 Hi) as Href.
  pose proof (run_ops_built domain_ops l0 eq_refl (new_list_built _ _ _ Hl0)) as Hb.
  destruct (run_ops domain_ops l0) as [rs l]. simpl in Href, Hb, Hc. destruct Href as (_ & Hi' & Hcfg & _).
  repeat match goal with H : _ && _ = true |- _ => apply andb_true_iff in H as [? ?] end.
  exists l. split_and!; [done|done| |done|by eapply bool_decide_eq_true_1|by apply Z.leb_le].
  apply base_built_segs; [by unfold mode_of; rewrite Hcfg|done|done|].
  intros [] seg Hseg; simpl in Hseg; rewrite Hseg in *; simpl in *;
    repeat match goal with H : (_ <=? _) = true |- _ => apply Nat.leb_le in H end; unfold max_u32; lia.
Qed.

(** The query [www.deep.example.com]: no entry holds it nor [deep.example.com],
    entry "a" holds [example.com] and so did the superseded base copy of "c". *)
Lemma query_exact_complete_witness :
  match domain_list [] with
  | Some l =>
      EntryID <$> (match (querySnap None l (snap l) domain_query default_opts None).1 with Ok cs => cs | Err _ => [] end) = [$"a"] ∧
      ∃ cs lv, (querySnap None l (snap l) domain_query default_opts None).1 = Ok cs ∧
        ∀ id, id ∈ EntryID <$> cs ↔ live_holder l lv id
  | None => False
  end.
Proof.
  assert (match domain_list [] with
    | Some l => EntryID <$> (match (querySnap None l (snap l) domain_query default_opts None).1 with Ok cs => cs | Err _ => [] end)
    | None => [] end = [$"a"]) as Hrun by (vm_compute; reflexivity).
  destruct domain_list_ok as (l & Hl & Hi & Hb & Hsz & Hm & Hk). rewrite Hl in *. split; [exact Hrun|].
  destruct (query_exact_complete l domain_query default_opts Hi Hb Hsz Hm Hk) as (cs & Hcs & [[-> _]|H]).
  - rewrite Hcs in Hrun. discriminate Hrun.
  - destruct H as (pre & lv & post & _ & _ & _ & _ & Hid & _). exists cs, lv. by split.
Defined.


(** A context that is cancelled from the third poll stage on. *)
Lemma query_cancel_witness :
  match domain_list [] with
  | Some l =>
      let r := querySnap (Some (λ stage _, 3 <=? stage)) l (snap l) domain_query default_opts None in
      r = (Ok [], no_stats)
  | None => False
  end.
Proof.
  assert (match domain_list [] with
    | Some l => match querySnap (Some (λ stage _, 3 <=? stage)) l (snap l) domain_query default_opts None with
                | (Ok [], _) => true | _ => false end &&
                match querySnap None l (snap l) domain_query default_opts None with (Ok [], _) => false | _ => true end
    | None => false end = true) as Hrun by (vm_compute; reflexivity).
  destruct domain_list_ok as (l & Hl & Hi & Hb & _). rewrite Hl in *. apply andb_true_iff in Hrun as [H1 H2]. cbv zeta.
  destruct (query_cancel (Some (λ stage _, 3 <=? stage)) l domain_query default_opts None (seg_built_bounds l Hb))
    as [Heq|[Heq|(e & st & f & _ & Hf)]].
  - intros f s k s' k' Hf Hle H. injection Hf as <-. change ((3 <=? s) = true) in H. change ((3 <=? s') = true).
    apply Nat.leb_le in H. apply Nat.leb_le. destruct Hle as [|[-> _]]; lia.
  - exfalso. rewrite Heq in H1. clear -H1 H2.
    destruct (querySnap None l (snap l) domain_query default_opts None) as [[cs|e] st]; [destruct cs|]; congruence.
  - exact Heq.
  - discriminate Hf.
Defined.

(** An accepted configuration can make queries panic.  [NewList] checks the
    gram sizes of n-gram lists only, so an exact-mode list with the gram size -1
    is created and loaded; key attribution cuts grams in every mode, and a query
    with a hit then indexes [offs[-1]].  The same query on the list without gram
    sizes answers. *)
Theorem exact_grams_panic :
  match domain_list [-1]%Z, domain_list [] with
  | Some l, Some l' =>
      ID <$> LiveEntries l = [$"a"; $"b"; $"c"; $"d"] ∧
      querySnap None l (snap l) domain_query default_opts None = (Err QueryPanicked, no_stats) ∧
      match (querySnap None l' (snap l') domain_query default_opts None).1 with Ok cs => EntryID <$> cs | Err _ => [] end = [$"a"]
  | _, _ => False
  end.
Proof. vm_compute. split_and!; reflexivity. Qed.

(** Terms ["example.com"] and ["gone.net"]: entry "a" holds the first, entry "c"
    the second since its upsert; the superseded base copy of "c" is masked. *)
Definition any_terms : list bytes := [$"example.com"; $"gone.net"].
Definition top_one : QueryOpts := mkOpts (f_of_N 0) 1.
Definition any_ids (l : GoList) : list bytes :=
  match anyOfTerms l any_terms with
  | Ok terms => match (anyOfSnap None l (snap l) terms top_one None).1 with Ok cs => EntryID <$> cs | Err _ => [] end
  | Err _ => []
  end.

Lemma any_of_spec_witness :
  match domain_list [] with
  | Some l =>
      ∃ terms all cs, anyOfTerms l any_terms = Ok terms ∧
        (anyOfSnap None l (snap l) terms top_one None).1 = Ok cs ∧ EntryID <$> cs = take_top (effectiveTopK l top_one) all ∧
        StronglySorted bytes_lt all ∧ EntryID <$> cs = [$"a"]
  | None => False
  end.
Proof.
  assert (match domain_list [] with Some l => any_ids l | None => [] end = [$"a"]) as Hrun by (vm_compute; reflexivity).
  destruct domain_list_ok as (l & Hl & Hi & Hb & _). rewrite Hl in Hrun |- *. clear Hl.
  assert (∃ terms, anyOfTerms l any_terms = Ok terms) as [terms Ht].
  { unfold any_ids in Hrun. destruct (anyOfTerms l any_terms) as [terms|e]; [by exists terms|]. congruence. }
  destruct (any_of_spec None l any_terms terms top_one None Hi Hb Ht) as (_ & all & cs & Hcs & Hsort & _ & Hids & _).
  { intros f id e Hf. congruence. }
  unfold any_ids in Hrun. rewrite Ht, Hcs in Hrun. exists terms, all, cs.
  split; [exact Ht|]. split; [exact Hcs|]. split; [exact Hids|]. split; [exact Hsort|exact Hrun].
Defined.

Lemma anyof_charge_covers_witness :
  match domain_list [] with
  | Some l => ∃ p cs, PrepareExactAnyOf l any_terms default_opts = Ok p ∧
      (Execute p None).1 = Ok cs ∧ (scratchQueryFixedBytes + anyOfPerHitBytes * Z.of_nat (length cs) <= Cost p)%Z ∧ pq_anyOfHits p = 3%Z
  | None => False
  end.
Proof.
  assert (match domain_list [] with
    | Some l => HasExactIndex l && match PrepareExactAnyOf l any_terms default_opts with Ok p => (pq_anyOfHits p =? 3)%Z | Err _ => false end
    | None => false end = true) as Hrun by (vm_compute; reflexivity).
  destruct domain_list_ok as (l & Hl & Hi & Hb & _). rewrite Hl in Hrun |- *. clear Hl. apply andb_true_iff in Hrun as [Hex Hh].
  destruct (anyof_charge_covers l any_terms default_opts None Hi Hb Hex) as (p & cs & Hp & Hx & _ & Hc & _).
  { split; [apply Nat.ltb_lt|apply Nat.leb_le]; reflexivity. }
  exists p, cs. rewrite Hp in Hh. split; [exact Hp|]. rewrite Hx. split; [reflexivity|]. split; [exact Hc|by apply Z.eqb_eq].
Defined.

(** An n-gram list with one entry superseded by an upsert. *)
Definition ngram_list : option GoList :=
  match NewList ($"names") (mkListConfig (mkAnalyzerConfig ($"identifier") [])
    (mkMatchConfig m_ngram [] false [2; 3]%Z false (f_of_N 0) 0) [] [] 0) with
  | Ok l => Some (run_ops [MReplace [entry "a" "alpha"; entry "b" "beta"]; MUpsert [entry "a" "alphabet"]] l).2
  | Err _ => None
  end.

(** The scratch charge is not an upper bound for huge limits.  The retention
    bound [topK + masked] of an n-gram segment wraps in int64, so with one
    tombstone the largest limit is charged no retention at all for its base
    segment - [scratchPerHitBytes] for each of the two base ordinals less than
    the unlimited charge, and less than the charge of the limit 1. *)
Theorem scratch_charge_wraps :
  match ngram_list with
  | Some l => size (tombstones (snap l)) = 1%nat ∧
      ScratchBytesFor l (2 ^ 63 - 1) = (ScratchBytes l - 2 * scratchPerHitBytes)%Z ∧
      (ScratchBytesFor l (2 ^ 63 - 1) <? ScratchBytesFor l 1)%Z = true
  | None => False
  end.
Proof. vm_compute. split_and!; reflexivity. Qed.
