(* ===== verification/ServerDemo.v ===== *)
(** Concrete requests: the theorems of [ServerQuerySpec] on a server with one list of
    three entries, two of them under the same key, filtered by a payload field. *)

From S2P Require Import Prelude.
From S2P Require Import Runtime.
From S2P Require Import Analyzer.
From S2P Require Import Score.
From S2P Require Import Bitmap.
From S2P Require Import Types.
From S2P Require Import Filter.
From S2P Require Import RequestFilter.
From S2P Require Import ListConfig.
From S2P Require Import Segment.
From S2P Require Import ListModel.
From S2P Require Import ListRefine.
From S2P Require Import Query.
From S2P Require Import QuerySpec.
From S2P Require Import QueryExact.
From S2P Require Import Prepare.
From S2P Require Import ServerQuery.
From S2P Require Import ServerQuerySpec.
From S2P Require Import ListDemo.

#[local] Existing Instance default_runtime.
#[local] Existing Instance ascii_text.
#[local] Existing Instance set_bitmap.
#[local] Existing Instance demo_ops.
#[local] Existing Instance demo_digest.

Definition people_config : ListConfig :=
  mkListConfig (mkAnalyzerConfig ($"identifier") [])
    (mkMatchConfig m_exact [] false [] false (f_of_N 0) 0) [] [mkField ($"country") ($"country")] 0.
Definition country (v : string) : bytes := $"{" ++ quoted ($"country") ++ $":" ++ quoted (str v) ++ $"}".
Definition person (id key v : string) : Entry := mkEntry (str id) [str key] (country v).
Definition people_ops : list list_mutation := [MReplace [person "p1" "smith" "DE"; person "p2" "smith" "FR"]; MUpsert [person "p3" "smith" "DE"]].
Definition people_new : result config_error GoList := NewList ($"people") people_config.
Definition people : option GoList := match people_new with Ok l => Some (run_ops people_ops l).2 | Err _ => None end.

(** A list after some operations, of up to three entries a segment. *)
Lemma operated_ok os l0 l : inv l0 → base_built l0 → match_ok (Match (l_cfg l0)) → forallb builds os = true → (run_ops os l0).2 = l → sizes_ok (mode_of l) = true →
  length (from_option entries [] (base (snap l))) ≤ 3 → length (from_option entries [] (overlay (snap l))) ≤ 3 → inv l ∧ seg_built l ∧ sizes_ok (mode_of l) = true.
Proof.
  intros Hi Hb Hm Hos Hl Hsz H1 H2. pose proof (run_ops_refine os l0 Hi) as Href. pose proof (run_ops_built os l0 Hos Hb) as Hb'. destruct (run_ops os l0) as [rs l']. cbn [snd] in *. subst l'.
  destruct Href as (_ & Hi' & Hcfg & _). split_and!; [done| |done]. apply base_built_segs; [by unfold mode_of; rewrite Hcfg|done|done|].
  intros [] seg Hseg; cbn [seg_of] in Hseg; rewrite Hseg in *; cbn [from_option] in *; unfold max_u32; lia.
Qed.
Lemma people_ok l : people = Some l → inv l ∧ seg_built l ∧ sizes_ok (mode_of l) = true.
Proof.
  intros Hl. assert (match people with
    | Some l => sizes_ok (mode_of l) && (length (from_option entries [] (base (snap l))) <=? 3) && (length (from_option entries [] (overlay (snap l))) <=? 3)
    | None => false end = true) as Hc by (vm_compute; reflexivity).
  rewrite Hl in Hc. apply andb_true_iff in Hc as [[Hsz H1]%andb_true_iff H2]. apply Nat.leb_le in H1, H2. unfold people in Hl. destruct people_new as [l0|] eqn:E; [|done]. injection Hl as Hl.
  destruct (new_list_inv _ _ _ E) as (Hi & _ & _ & Hr). apply resolve_ok in Hr as (_ & _ & Hmatch & _); [|by split; vm_compute].
  exact (operated_ok people_ops l0 l Hi (new_list_built _ _ _ E) Hmatch eq_refl Hl Hsz H1 H2).
Qed.

Definition demo_served : served := mkServed (λ n, if bool_decide (n = $"people") then people else None) (Some ($"basis")) (Some (2 ^ 20)%Z) (Some (2 ^ 30)%Z).
Lemma demo_lists_ok : lists_ok demo_served.
Proof. intros name l Hl. cbn [sv_lists demo_served] in Hl. case_bool_decide; [|done]. by apply people_ok. Qed.
Definition people_req (lists : list bytes) (topk : option Z) (filter : bytes) : queryReq := mkReq ($"smith") lists [] (Some (f_of_N 0)) topk filter None.
Definition no_ctx : nat → Context := λ _, None.

(** The list named twice is asked once; of its three holders
    two pass the filter. *)
Definition filtered_req : queryReq := people_req [$"people"; $"people"] (Some 2%Z) (country "DE").
Lemma filtered_run : match runQuery demo_served (true, true) no_ctx filtered_req with
  | Ok r => (rc_EntryID <$> Candidates r) = [$"p1"; $"p3"] ∧ resp_Filter r = Some (country "DE") ∧
      (resp_FilterStats r ≫= λ st, st !! $"people") = Some (mkStats 3 1)
  | Err _ => False
  end.
Proof. vm_compute. done. Qed.

Lemma response_merges_witness : ∃ r answers, runQuery demo_served (true, true) no_ctx filtered_req = Ok r ∧ answers.*1 = [$"people"] ∧
  StronglySorted (λ a b, ranks_before (rc_Score a) (rc_EntryID a) (rc_Score b) (rc_EntryID b)) (Candidates r) ∧
  (∀ name, is_Some (Versions r !! name) ↔ name ∈ [$"people"; $"people"]) ∧ ∃ cut, Candidates r ++ cut ≡ₚ (answers ≫= λ x : bytes * list Candidate, list_cand x.1 <$> x.2).
Proof.
  pose proof filtered_run as H. destruct (runQuery demo_served (true, true) no_ctx filtered_req) as [r|] eqn:E; [|destruct H]. clear H.
  destruct (response_merges _ _ _ _ _ E) as (f & answers & cut & _ & Hn & _ & Hv & Hp & _ & _ & Hs). exists r, answers. split; [reflexivity|]. split; [exact Hn|].
  split; [apply Hs; apply Forall_forall; intros x _; reflexivity|]. split; [exact Hv|]. exists cut. exact Hp.
Defined.
Lemma response_screened_witness : ∃ r f, runQuery demo_served (true, true) no_ctx filtered_req = Ok r ∧ parse_filter filtered_req = Ok f ∧
  resp_Filter r = Some (country "DE") ∧ Forall (evidence demo_served filtered_req f) (Candidates r).
Proof.
  pose proof filtered_run as H. destruct (runQuery demo_served (true, true) no_ctx filtered_req) as [r|] eqn:E; [|destruct H]. destruct H as (_ & Hf & _).
  destruct (response_screened _ _ _ _ _ demo_lists_ok E) as (f & Hp & Hev & _). exists r, f. exact (conj eq_refl (conj Hp (conj Hf Hev))).
Defined.
(** A filter that the list does not declare, and a wait that times out. *)
Definition undeclared_req : queryReq := people_req [$"people"] None ($"{" ++ quoted ($"city") ++ $":true}").
Lemma refusals_run_nothing_witness : ∃ e, errStatus e = BadRequest ∧ (∀ sv' t' ctx', sv_lists sv' = sv_lists demo_served → runQuery sv' t' ctx' undeclared_req = Err e) ∧
  ∀ ctx', runQuery demo_served (true, false) ctx' filtered_req = Err (GlobalGate GateTimeout).
Proof.
  assert (runQuery demo_served (true, true) no_ctx undeclared_req = Err (NotCompiled (Undeclared ($"city")))) as E1 by (vm_compute; reflexivity).
  assert (runQuery demo_served (true, false) no_ctx filtered_req = Err (GlobalGate GateTimeout)) as E2 by (vm_compute; reflexivity).
  eexists. split; [|exact (conj (refusals_run_nothing _ _ _ _ _ E1) (refusals_run_nothing _ _ _ _ _ E2))]. reflexivity.
Defined.
